(* ===== verification/_CoqProject ===== *)
-Q . S2P
Prelude.v
MemDecoder.v
Leb128.v
Opaque.v
Codec.v
Chars.v
Lexer.v
LexerProps.v
Unescape.v
UnescapeProps.v
Abi.v
AbiProps.v
Layout.v
LayoutProps.v
Enum.v
EnumProps.v
TaggedProps.v
Discriminant.v
DiscriminantProps.v
Literal.v
LiteralProps.v
Fields.v
FieldsProps.v
Slice.v
IndexSet.v
Interval.v
IntervalProps.v
BitSets.v
BitSetProps.v
BitIterProps.v
HybridProps.v
ChunkedBitSets.v
ChunkedProps.v
ChunkedIterProps.v
IndexSetInstances.v
BitMatrices.v
BitMatrixProps.v
IndexClaims.v
GraphSearch.v
Graph.v
GraphProps.v
Mir.v
TraversalProps.v
TransitiveRelation.v
TransitiveRelationProps.v
SortedMap.v
SortedMapProps.v
Dataflow.v
GenKillProps.v
DataflowProps.v
AnalysisProps.v
CacheProps.v
Cursor.v
CursorProps.v
InitMask.v
InitMaskProps.v
Provenance.v
ProvenanceProps.v
Allocation.v
AllocationProps.v
Memory.v
MemoryProps.v
SipHash.v
StableHash.v
StableHashProps.v
Span.v
Operator.v
OperatorProps.v
Intrinsics.v
Lowering.v
LoweringProps.v
FastReject.v
FastRejectProps.v
Infer.v
InferProps.v
PointerArith.v
InterpMemory.v
InterpMemoryLife.v
InterpMemoryProps.v
InterpMemoryCopy.v
