(* ===== verification/Prelude.v ===== *)
(** * Verification of the zkLLVM Rust front end

    The repository is a fork of the Rust compiler that adds the prime fields and
    elliptic curves of zkLLVM as primitive types ([__zkllvm_field_pallas_base],
    [__zkllvm_curve_vesta], ...) with literals such as [0x1fg].  This library
    models the parts of the compiler that carry those additions and the parts
    they rest on, as executable functions, and proves what makes them correct.

    ** The program and its parts

    A source text is cut into tokens by [rustc_lexer], whose literals
    [rustc_parse] cooks (checking escapes and digits with
    [rustc_lexer/src/unescape.rs]) and [rustc_ast] converts to values;
    [rustc_mir_build] turns literals into constants of MIR, where a field
    literal becomes a [ScalarField] of [rustc_middle], and [rustc_lint] reports
    literals that do not fit.  Their types come from [rustc_hir_typeck], which
    gives a literal without a suffix a variable of its kind, and from
    [rustc_infer], which unifies these variables; impls are looked up by
    simplified types, with a fast comparison that rejects most of them.
    Operators are checked ([rustc_hir_typeck/src/op.rs]), lowered with their
    overflow checks ([rustc_mir_build]), validated and evaluated
    ([rustc_const_eval]).  [rustc_abi] computes the layouts of types, fields
    and curves included, enums from the discriminants [rustc_middle] computes,
    which the interpreter of [rustc_const_eval] writes and reads through the
    layout; constants are written to target memory by
    [rustc_middle/src/mir/interpret], as bytes of an allocation with their
    initialization state and provenance, and to metadata with [rustc_serialize].
    The interpreter's memory makes, checks, copies and frees these allocations.
    MIR bodies are graphs of blocks, which [rustc_middle/src/mir] traverses and
    whose properties it caches; [rustc_mir_dataflow] runs analyses on them to a
    fixpoint.  All of these rest on the containers of [rustc_index] and
    [rustc_data_structures]: bit sets, interval sets, sorted maps, relations and
    graph searches, on the stable hashes that incremental compilation compares,
    and on the compressed spans of [rustc_span].

    ** Files

    - [Prelude] (this file): outcomes, machine integers, tactics, hints.
    - [MemDecoder], [Leb128], [Opaque], [Codec]: [compiler/rustc_serialize/src],
      the decoder on a byte slice, LEB128 numbers, the buffered file encoder and
      its interface [Encoder] with laws, and whole streams.
    - [Chars]: chars and strings as code points.
    - [Lexer], [LexerProps]: [compiler/rustc_lexer/src/cursor.rs] and [lib.rs].
      A cursor is the remaining chars and the length at the last token; each
      method of [Cursor] is a function on the remaining chars.
    - [Unescape], [UnescapeProps]: [compiler/rustc_lexer/src/unescape.rs] and the
      escaping of [library/core/src/escape.rs], [char/methods.rs].
    - [Abi], [AbiProps]: [compiler/rustc_abi/src/lib.rs], a module per type.
    - [Layout], [LayoutProps]: [compiler/rustc_abi/src/layout.rs]: scalar pairs,
      structs ([univariant] with its two passes) and unions.
    - [Enum], [EnumProps], [TaggedProps]: the enum case of the same file, with
      the niche-filling and the tagged layout and the choice between them, and
      [Integer::repr_discr] of [compiler/rustc_middle/src/ty/layout.rs].
    - [Discriminant], [DiscriminantProps]: the values of discriminants
      ([compiler/rustc_middle/src/ty/adt.rs], [ty/util.rs] and
      [compiler/rustc_hir_analysis/src/collect.rs]), the layout of an enum from
      its definition ([compiler/rustc_ty_utils/src/layout.rs]), and
      [write_discriminant] and [read_discriminant] of
      [compiler/rustc_const_eval/src/interpret/discriminant.rs].
    - [Literal], [LiteralProps]: [compiler/rustc_ast/src/util/literal.rs] with
      the types of [token.rs] and [ast.rs], and the cooking of literals in
      [compiler/rustc_parse/src/lexer/mod.rs].
    - [Fields], [FieldsProps]: the field and curve types of
      [compiler/rustc_type_ir/src/lib.rs], [ScalarField]
      ([compiler/rustc_middle/src/ty/consts/field.rs]), literals to constants
      ([compiler/rustc_mir_build/src/build]), the overflow lints
      ([compiler/rustc_lint/src/types.rs]), target memory
      ([compiler/rustc_middle/src/mir/interpret/mod.rs]) and the curve constants
      ([library/core/src/num/curves.rs]).
    - [Slice]: results, ranges, binary search and vectors of [library/core], and
      index types of [compiler/rustc_index/src].
    - [IndexSet]: the interface that every set of indices implements, with laws.
    - [Interval], [IntervalProps]: [compiler/rustc_index/src/interval.rs].
    - [BitSets], [BitSetProps], [BitIterProps], [HybridProps]; [ChunkedBitSets],
      [ChunkedProps], [ChunkedIterProps]; [BitMatrices], [BitMatrixProps]: the
      dense, sparse, hybrid, growable, finite and chunked sets and the matrices of
      [compiler/rustc_index/src/bit_set.rs]; [IndexSetInstances] and
      [IndexClaims]: their instances of the interface and the properties.
    - [TransitiveRelation], [TransitiveRelationProps], [SortedMap],
      [SortedMapProps]: [compiler/rustc_data_structures/src].
    - [GraphSearch] (paths, shared lemmas), [Graph], [GraphProps]:
      [compiler/rustc_data_structures/src/graph].
    - [Mir], [TraversalProps], [CacheProps]: terminators, blocks, their cached
      properties and traversals, [compiler/rustc_middle/src/mir].
    - [Dataflow], [GenKillProps], [DataflowProps], [AnalysisProps], [Cursor],
      [CursorProps]: [compiler/rustc_mir_dataflow/src/framework] with the work
      queue: lattices, transfer functions, the engine, cursors and visitors.
    - [InitMask], [InitMaskProps], [Provenance], [ProvenanceProps], [Allocation],
      [AllocationProps]: [compiler/rustc_middle/src/mir/interpret/allocation.rs]
      and its modules; [Memory], [MemoryProps]: copies in
      [compiler/rustc_const_eval/src/interpret/memory.rs].
    - [SipHash], [StableHash], [StableHashProps]: [sip128.rs],
      [stable_hasher.rs], [fingerprint.rs] and [hashes.rs] of
      [compiler/rustc_data_structures/src].
    - [Span]: [compiler/rustc_span/src/span_encoding.rs] and the operations on
      spans of [lib.rs], with their properties.
    - [Operator], [OperatorProps]: the operators of MIR: which operand types they
      take, the types of their results, their evaluation
      ([rustc_const_eval/src/interpret/operator.rs], [transform/validate.rs],
      [rustc_middle/src/mir/tcx.rs], [rustc_hir_typeck/src/op.rs]);
      [Intrinsics]: the intrinsics on integers ([interpret/intrinsics.rs]).
    - [Lowering], [LoweringProps]: arithmetic expressions to MIR
      ([rustc_mir_build/src/build/expr/as_rvalue.rs]) and the part of the
      interpreter that runs the result.
    - [FastReject], [FastRejectProps]: [rustc_middle/src/ty/fast_reject.rs] on the
      types of [rustc_type_ir/src/sty.rs].
    - [Infer], [InferProps]: the variables of integers, floats and fields
      ([rustc_infer/src/infer]), the types of literals and fallback
      ([rustc_hir_typeck/src]).
    - [PointerArith]: [rustc_middle/src/mir/interpret/pointer.rs], with its
      properties; [InterpMemory], [InterpMemoryLife], [InterpMemoryProps],
      [InterpMemoryCopy]: the memory of the interpreter
      ([rustc_const_eval/src/interpret/memory.rs], [const_eval/machine.rs]).

    ** Conventions

    A Rust function that can panic returns an [outcome]; [Panic] stands for
    panics, [bug!], [todo!], [unreachable!], failed assertions, indexing out of
    bounds, [span_fatal] and undefined behaviour.  The model is that of a
    release build: [debug_assert!] is left out and integer overflow wraps
    ([wadd], [wsub], [wmul]), on a 64-bit host.  Errors that are values in the
    source are sums, options or results here.  Integers are [Z] within the bounds
    of their type, a [Size] is its number of bytes.  A mutable object is a value
    that the operations return, and where two places alias (a copy within one
    allocation, caches shared by readers) the shared store is explicit.  A
    [SmallVec] is a vector.  Code outside the repository is a class with its
    documented laws: the Unicode tables ([UnicodeTables], [UnicodeAscii]), the
    shuffle of [rand] ([Shuffle], [ShufflePerm]), [num::BigUint] ([BigUintApi],
    [BigUintLaws]), [crypto_bigint::U384] ([U384Api], [U384Laws]), [ArrayVec],
    [indexmap] and the order of a hash set, [sort_unstable] ([SortUnstable],
    [SortUnstableLaws]), the floats of [rustc_apfloat] ([ApFloat], on their bits)
    and the unification tables of [ena] ([UnificationTable],
    [UnificationTableLaws]); each has a concrete instance at which the properties
    are applied.  What the code asks of queries and of parts that are not modelled
    is an argument too: the answers of the type context about statics and the
    host's allocator ([Tcx]), the byte order and word size of the host ([Host]),
    subtyping in the validator ([mir_assign_valid_types]), whether a trait is an
    auto trait, the known values of type variables, and the structural relation of
    types that are not variables.

    ** Fuel

    [tokenize_loop], [unescape_str_loop], [raw_string_loop] and the LEB128 loops
    take fuel; each round eats a char or seven bits, the fuel is one more than
    the length of the input (or the greatest number of groups), and the theorems
    show that the functions return, so it is never used up.  The search for the
    last explicit discriminant takes the index of the variant as fuel, which
    every round decreases.  The binary search has the length of the slice, the
    iterators of bit sets their number of bits, the closure of a relation its
    number of pairs plus one, the graph searches and traversals the number of
    nodes and edges, and the iterator over the chunks of a mask the size of the
    range; the theorems about them state that they return.  The search for leaked
    allocations has the number of pointers in memory, which [leaks_exact] shows to
    be enough, and shallow resolution two rounds, as a type variable is never known
    to be another one.  The dataflow engine
    takes its fuel as an argument: it returns with any number greater than that of
    the blocks plus the sum of the heights of the states on entry.

    ** What is proved

    - Streams: LEB128 numbers of every width and sign are read back and fit
      their bound; whatever the operating system answers, a finished file holds
      the emitted items, and without failures finishing succeeds.
    - Lexing: tokens partition the input and literal suffixes are identifiers;
      comments nest; raw strings end at their hashes and their errors are found
      again by [validate_raw_str]; numbers with the suffix [g] and only those are
      field literals.
    - Unescaping: units cover the text with their exact ranges, values are of
      the mode's type, and escaping is undone for strings and byte strings.
    - Layouts: rounding, sign extension, narrowest integers, niches (counted and
      reserved soundly); the layout of a struct is aligned, free of overlaps,
      large enough, with a bijective memory order, a consistent ABI and the best
      niche.
    - Enums: in the niche-filling and in the tagged layout the fields of every
      variant are inside, disjoint and apart from the tag, and the tag has
      distinct values for the variants; which kind of layout is returned follows
      from the variants that are present and the [repr], and the smaller one is
      chosen; the two computations of discriminants agree; and through the layout
      of an enum every inhabited variant that is written is read back, from integers
      and, where the code accepts them, from pointers.
    - Literals: what is printed is one token that is read back, and where it is not.
    - Fields: from the text of a literal to the constant the value is the number
      modulo the prime; lints fire exactly when a constant differs from what is
      written; the tables of types agree; constants round-trip through
      little-endian memory and metadata; the curve generators are on the curves.
    - Index sets: every representation implements a set of indices, with the
      result of each operation and whether it changed the set, hybrid sets over
      domains that are not empty (over the empty one a union panics); interval sets keep
      their canonical form; the optimised iterators agree with the plain ones.
    - Relations and maps: the frozen relation is the reflexive transitive closure,
      upper bounds are minimal; sorted maps behave as finite maps, also with
      presorted insertion and ranges.
    - Graphs and MIR: searches visit what is reachable, in the order they
      promise; the detector of cycles is exact; cached predecessors, switch
      sources, orders and cyclicity agree with the blocks after every mutation.
    - Dataflow: the engine terminates at the least fixpoint of the equations, in
      one pass over an acyclic graph; cached gen/kill functions agree with the
      statement-wise ones; a cursor at any position, and a visitor, see the state
      that the effects up to there give.
    - Interpreter memory: an initialization mask, lazy or not, is one bit per
      byte under every sequence of operations and its fast search is the slow one;
      a provenance map is a partial function on bytes, also when pointers are
      split; scalars, pointers and field constants that are written are read back
      and nothing else changes; a copy, repeated or overlapping, transfers values,
      states and provenance exactly.  Offsets are sums modulo the address space and
      their overflow is reported exactly; an access succeeds exactly if it is in
      bounds, aligned and live; freed memory stays inaccessible, a second
      deallocation is an error at every offset, and identifiers are
      not used again; reallocation keeps the contents; leaks are found exactly.
    - Stable hashing: the buffered hasher computes SipHash of the bytes it is fed;
      for the types built from numbers, strings and hashes these bytes are a function
      of the value alone, not of the host, and without hash maps they determine the
      value; the exception is the hash of a bit set.
    - Spans: every span decodes to its data at any later time, and equal data have
      equal spans.
    - Operators: integer operators are exact at every width and report overflow
      exactly; an operator that the validator accepts is evaluated and keeps its
      type, except on fields and curves, which are built in and accepted but not
      evaluated; the intrinsics on bits, saturating arithmetic and exact division
      are exact at every width; lowered arithmetic fails exactly on overflow and division by zero
      and otherwise computes the mathematical result.
    - Types: the fast comparison never rejects types with a common instance; what
      it accepts are, variables of fields apart, the types that become equal when
      each occurrence is replaced on its own and trait objects are compared by their
      principal trait; types that have a common instance have the same simplified
      type.
    - Types of literals: relating the variables of numbers fails exactly if there is
      no solution and otherwise leaves the most general one; fallback gives integers
      and floats a type, and fields that are not determined are reported; the type
      of a checked literal is one that its conversion to a constant accepts.

    ** What is not modelled

    The parser of LLVM data layout strings, and the compiler passes that depend
    on the query system, interned types and LLVM: parsing and expansion, name
    resolution, type checking and trait solving apart from literals, operators and
    fast rejection, borrow checking, calls, places and the other intrinsics of the
    interpreter, the dataflow analyses themselves, MIR passes and code generation.
    Of these the code that runs by itself is small; the rest is a web of queries
    whose answers would be parameters, which leaves little to prove.  Unification of
    general type variables (generalization, regions, binders, opaque types),
    strongly connected components and dominators, and positions in source files
    would be the next parts to model.  Diagnostics are modelled as the fact that
    they are emitted, without their text. *)

From stdpp Require Export base tactics option list numbers.
From Stdlib Require Export ZArith Lia Bool.

#[global] Open Scope Z_scope.

(** * Outcomes: a Rust computation returns or panics *)

Inductive outcome (A : Type) : Type :=
| Ret (a : A)
| Panic.
Arguments Ret {A} a.
Arguments Panic {A}.

Definition obind {A B} (c : outcome A) (k : A → outcome B) : outcome B :=
  match c with Ret a => k a | Panic => Panic end.

Definition omap_ {A B} (f : A → B) (c : outcome A) : outcome B :=
  match c with Ret a => Ret (f a) | Panic => Panic end.

(** [assert!(b); k] *)
Definition rassert {A} (b : bool) (k : outcome A) : outcome A :=
  if b then k else Panic.

(** [o.unwrap()] *)
Definition unwrap {A} (o : option A) : outcome A :=
  match o with Some a => Ret a | None => Panic end.

Declare Scope rust_scope.
Delimit Scope rust_scope with rust.
Notation "'let!' x := c 'in' k" := (obind c (λ x, k))
  (at level 10, x pattern, c at level 100, k at level 200,
   format "'[v' 'let!'  x  :=  c  'in' '/' k ']'") : rust_scope.
#[global] Open Scope rust_scope.

#[global] Instance outcome_eq_dec `{EqDecision A} : EqDecision (outcome A).
Proof. solve_decision. Defined.

(** * Machine integers *)

(** A [w]-bit unsigned integer is a [Z] in [0, 2^w); arithmetic wraps. *)
Definition wrap (w z : Z) : Z := z mod 2 ^ w.
Definition umax (w : Z) : Z := 2 ^ w - 1.
Definition wadd (w a b : Z) : Z := wrap w (a + b).
Definition wsub (w a b : Z) : Z := wrap w (a - b).
Definition wmul (w a b : Z) : Z := wrap w (a * b).
(** [!a] at width [w] *)
Definition wnot (w a : Z) : Z := umax w - a.
(** [a << s] and [a >> s]: the shift amount is taken modulo the width. *)
Definition wshl (w a s : Z) : Z := wrap w (Z.shiftl a (s mod w)).
Definition wshr (w a s : Z) : Z := Z.shiftr a (s mod w).
(** [a as iN]: two's complement reading of a [w]-bit pattern, and back. *)
Definition to_signed (w a : Z) : Z :=
  if a <? 2 ^ (w - 1) then a else a - 2 ^ w.
Definition of_signed (w a : Z) : Z := wrap w a.

Definition checked_add (w a b : Z) : option Z :=
  if a + b <? 2 ^ w then Some (a + b) else None.
Definition checked_sub (a b : Z) : option Z :=
  if b <=? a then Some (a - b) else None.
Definition checked_mul (w a b : Z) : option Z :=
  if a * b <? 2 ^ w then Some (a * b) else None.

Definition is_uint (w z : Z) : Prop := 0 ≤ z < 2 ^ w.

Fixpoint pos_trailing_zeros (p : positive) : Z :=
  match p with xO p => 1 + pos_trailing_zeros p | _ => 0 end.
(** [z.trailing_zeros()] at width [w] ([w] for zero) *)
Definition trailing_zeros (w z : Z) : Z :=
  match z with Zpos p => pos_trailing_zeros p | _ => w end.

Fixpoint pos_count_ones (p : positive) : Z :=
  match p with
  | xH => 1 | xO p => pos_count_ones p | xI p => 1 + pos_count_ones p
  end.
Definition count_ones (z : Z) : Z :=
  match z with Zpos p => pos_count_ones p | _ => 0 end.

(** * Automation *)

Create HintDb rust discriminated.

(** Case analysis on the boolean comparisons of [Z]. *)
Ltac zcases :=
  repeat match goal with
  | |- context [?a <? ?b] => destruct (Z.ltb_spec a b)
  | |- context [?a <=? ?b] => destruct (Z.leb_spec a b)
  | |- context [?a =? ?b] => destruct (Z.eqb_spec a b)
  | H : context [?a <? ?b] |- _ => destruct (Z.ltb_spec a b)
  | H : context [?a <=? ?b] |- _ => destruct (Z.leb_spec a b)
  | H : context [?a =? ?b] |- _ => destruct (Z.eqb_spec a b)
  end.

(** Inverts [let!] chains that returned. *)
Ltac inv_outcome :=
  repeat match goal with
  | H : Ret _ = Ret _ |- _ => progress simplify_eq
  | H : (let (_, _) := ?p in _) = Ret _ |- _ => is_var p; destruct p
  | H : Panic = Ret _ |- _ => discriminate H
  | H : Ret _ = Panic |- _ => discriminate H
  | H : obind ?c _ = Ret _ |- _ =>
      let E := fresh "E" in destruct c eqn:E; cbn [obind] in H
  | H : omap_ _ ?c = Ret _ |- _ =>
      let E := fresh "E" in destruct c eqn:E; cbn [omap_] in H
  | H : rassert ?b _ = Ret _ |- _ =>
      let E := fresh "E" in destruct b eqn:E; cbn [rassert] in H
  | H : unwrap ?o = Ret _ |- _ =>
      let E := fresh "E" in destruct o eqn:E; cbn [unwrap] in H
  end.

(** * Integer lemmas *)

Lemma obind_ret_inv {A B} (c : outcome A) (k : A → outcome B) b :
  obind c k = Ret b → ∃ a, c = Ret a ∧ k a = Ret b.
Proof. destruct c; cbn; [eauto|done]. Qed.

Lemma pow2_pos n : 0 ≤ n → 0 < 2 ^ n.
Proof. intros. apply Z.pow_pos_nonneg; lia. Qed.
#[export] Hint Resolve pow2_pos : rust.

Lemma wrap_bounds w z : 0 ≤ w → is_uint w (wrap w z).
Proof. intros. apply Z.mod_pos_bound. auto with rust. Qed.

Lemma wrap_small w z : is_uint w z → wrap w z = z.
Proof. intros. by apply Z.mod_small. Qed.

Lemma wrap_idemp_add w a b : 0 ≤ w → wrap w (wrap w a + b) = wrap w (a + b).
Proof. intros. unfold wrap. apply Zplus_mod_idemp_l. Qed.

Lemma wrap_add_mult w a k s : 0 ≤ w ≤ s → wrap w (a + k * 2 ^ s) = wrap w a.
Proof.
  intros. unfold wrap.
  replace s with (s - w + w) by lia.
  rewrite Z.pow_add_r, Z.mul_assoc by lia. apply Z_mod_plus_full.
Qed.

Lemma to_signed_of_signed w z :
  0 < w → - 2 ^ (w - 1) ≤ z < 2 ^ (w - 1) → to_signed w (of_signed w z) = z.
Proof.
  intros Hw Hz. unfold to_signed, of_signed, wrap.
  assert (2 ^ w = 2 * 2 ^ (w - 1)) as Hp.
  { replace w with (1 + (w - 1)) at 1 by lia. by rewrite Z.pow_add_r by lia. }
  destruct (decide (0 ≤ z)).
  - rewrite Z.mod_small by lia. zcases; lia.
  - replace (z mod 2 ^ w) with (z + 2 ^ w).
    + zcases; lia.
    + apply Z.mod_unique_pos with (q := -1); lia.
Qed.

(** Disjoint bit patterns: [|] is addition. *)
Lemma lor_shifted a b s :
  0 ≤ s → 0 ≤ a < 2 ^ s → Z.lor a (b * 2 ^ s) = a + b * 2 ^ s.
Proof.
  intros Hs Ha. rewrite <- Z.lxor_lor; [symmetry; apply Z.add_nocarry_lxor|];
    apply Z.bits_inj'; intros n Hn; rewrite Z.land_spec, Z.bits_0.
  all: destruct (decide (n < s)).
  all: try (rewrite (Z.mul_pow2_bits_low b) by lia; apply andb_false_r).
  all: rewrite <- (Z.mod_small a (2 ^ s)) by lia;
    rewrite Z.mod_pow2_bits_high by lia; done.
Qed.

Lemma land_ones_mod a n : 0 ≤ n → Z.land a (2 ^ n - 1) = a mod 2 ^ n.
Proof. intros. by rewrite <- Z.land_ones, Z.ones_equiv, Z.sub_1_r by lia. Qed.

Lemma shiftr_div a n : 0 ≤ n → Z.shiftr a n = a / 2 ^ n.
Proof. apply Z.shiftr_div_pow2. Qed.

Lemma shiftl_mul a n : 0 ≤ n → Z.shiftl a n = a * 2 ^ n.
Proof. apply Z.shiftl_mul_pow2. Qed.

Lemma wshl_small w a s :
  0 ≤ s < w → wshl w a s = wrap w (a * 2 ^ s).
Proof. intros. unfold wshl. rewrite (Z.mod_small s w) by lia. by rewrite shiftl_mul by lia. Qed.

(** A boolean fact about a bounded integer, checked by evaluation. *)
Lemma bounded_forall (n : nat) (P : Z → bool) :
  forallb (λ i : nat, P (Z.of_nat i)) (seq 0 n) = true →
  ∀ b, 0 ≤ b < Z.of_nat n → P b = true.
Proof.
  intros H b Hb. rewrite forallb_forall in H.
  specialize (H (Z.to_nat b)). rewrite Z2Nat.id in H by lia.
  apply H, in_seq. lia.
Qed.

Lemma land_128_ltb b : 0 ≤ b < 256 → (Z.land b 0x80 =? 0) = (b <? 128).
Proof.
  intros Hb. apply eqb_prop.
  by apply (bounded_forall 256 (λ b, eqb (Z.land b 0x80 =? 0) (b <? 128))).
Qed.

Lemma land_64_ltb b : 0 ≤ b < 128 → (Z.land b 0x40 =? 0) = (b <? 64).
Proof.
  intros Hb. apply eqb_prop.
  by apply (bounded_forall 128 (λ b, eqb (Z.land b 0x40 =? 0) (b <? 64))).
Qed.
