(* ===== verification/MemDecoder.v ===== *)
(** The in-memory decoder of [rustc_serialize::opaque] ([MemDecoder]): a byte
    slice with a cursor.  The three raw pointers [start], [current] and [end]
    of the source are the slice and the offset of [current] in it; the two
    invariants its comments state ([start <= current <= end], [start] and
    [end] never modified) are [wf] and the [*_data] lemmas below.
    Exhaustion ([decoder_exhausted]) is [Panic]. *)

From S2P Require Import Prelude.

Module MemDecoder.

Record t := mk { data : list Z; current : nat }.

Definition decoder (A : Type) : Type := t → outcome (A * t).

(** [new]: [data[position..]] panics past the end. *)
Definition new (bytes : list Z) (position : nat) : outcome t :=
  if (position <=? length bytes)%nat then Ret (mk bytes position) else Panic.

Definition len (d : t) : nat := length (data d).
Definition remaining (d : t) : nat := len d - current d.
Definition position (d : t) : nat := current d.

Definition read_u8 : decoder Z := λ d,
  match data d !! current d with
  | None => Panic
  | Some byte => Ret (byte, mk (data d) (S (current d)))
  end.

Definition peek_byte (d : t) : outcome Z :=
  match data d !! current d with None => Panic | Some byte => Ret byte end.

Definition read_raw_bytes (bytes : nat) : decoder (list Z) := λ d,
  if (remaining d <? bytes)%nat then Panic
  else Ret (take bytes (drop (current d) (data d)), mk (data d) (current d + bytes)).

(** [read_array::<N>]: the [try_into().unwrap()] fails on another length. *)
Definition read_array (N : nat) : decoder (list Z) := λ d,
  let! (bs, d') := read_raw_bytes N d in
  if (length bs =? N)%nat then Ret (bs, d') else Panic.

(** [with_position]: runs [func] at [pos], then the guard restores [current]. *)
Definition with_position {A} (pos : nat) (func : decoder A) : decoder A := λ d,
  if (len d <=? pos)%nat then Panic
  else
    let! (a, d') := func (mk (data d) pos) in
    Ret (a, mk (data d') (current d)).

(** [uN::from_le_bytes] / [uN::to_le_bytes] *)
Fixpoint from_le_bytes (bs : list Z) : Z :=
  match bs with [] => 0 | b :: bs => b + 256 * from_le_bytes bs end.

Fixpoint to_le_bytes (n : nat) (v : Z) : list Z :=
  match n with O => [] | S n => v mod 256 :: to_le_bytes n (v / 256) end.

Definition read_u16 : decoder Z := λ d,
  let! (bs, d') := read_array 2 d in Ret (from_le_bytes bs, d').

Definition read_i16 : decoder Z := λ d,
  let! (bs, d') := read_array 2 d in Ret (to_signed 16 (from_le_bytes bs), d').

(** [IntEncodedWithFixedSize::decode] *)
Definition read_fixed_u64 : decoder Z := λ d,
  let! (bs, d') := read_array 8 d in Ret (from_le_bytes bs, d').

(** ** The invariant [start <= current <= end] *)

Definition wf (d : t) : Prop := (current d <= len d)%nat.

(** What every decoding method promises to its callers: it leaves the slice
    alone, moves forward and stays inside. *)
Class Advances {A} (f : decoder A) : Prop :=
  advances : ∀ d a d', wf d → f d = Ret (a, d') →
    data d' = data d ∧ wf d' ∧ (current d <= current d')%nat.

Lemma new_wf bytes p d : new bytes p = Ret d → wf d ∧ data d = bytes ∧ position d = p.
Proof.
  unfold new. destruct (Nat.leb_spec p (length bytes)); [|done].
  intros [= <-]. split_and!; [done..|reflexivity|reflexivity].
Qed.

#[global] Instance read_u8_advances : Advances read_u8.
Proof.
  intros d a d' Hwf. unfold read_u8.
  destruct (data d !! current d) eqn:E; [|done]. intros [= <- <-].
  apply lookup_lt_Some in E. unfold wf, len; cbn. split_and!; [done|lia|lia].
Qed.

#[global] Instance read_raw_bytes_advances n : Advances (read_raw_bytes n).
Proof.
  intros d a d' Hwf. unfold read_raw_bytes.
  destruct (Nat.ltb_spec (remaining d) n); [done|]. intros [= <- <-].
  unfold wf, remaining, len in *; cbn. split_and!; [done|lia|lia].
Qed.

#[global] Instance read_array_advances n : Advances (read_array n).
Proof.
  intros d a d' Hwf. unfold read_array. intros H. inv_outcome.
  destruct (length l =? n)%nat; inv_outcome. by eapply advances.
Qed.

#[global] Instance read_u16_advances : Advances read_u16.
Proof.
  intros d a d' Hwf H. unfold read_u16 in H. inv_outcome. by eapply advances.
Qed.

(** [with_position] leaves the cursor where it was. *)
Lemma with_position_restores {A} pos (f : decoder A) d a d' :
  Advances f → wf d → with_position pos f d = Ret (a, d') → d' = d.
Proof.
  intros Hf Hwf. unfold with_position. destruct (Nat.leb_spec (len d) pos); [done|].
  intros H1. inv_outcome.
  apply advances in E as [-> _]; [by destruct d|]. unfold wf, len in *; cbn in *; lia.
Qed.

(** ** Reading what was written at the cursor *)

Definition at_bytes (d : t) (bs : list Z) : Prop :=
  ∃ pre post, data d = pre ++ bs ++ post ∧ current d = length pre.

Definition skip (n : nat) (d : t) : t := mk (data d) (current d + n).

Lemma skip_skip m n d : skip n (skip m d) = skip (m + n) d.
Proof. unfold skip; cbn. f_equal. lia. Qed.

Lemma at_bytes_wf d bs : at_bytes d bs → wf d.
Proof. intros (?&?&E&?). unfold wf, len. rewrite E, length_app. lia. Qed.

Lemma at_bytes_app d bs1 bs2 :
  at_bytes d (bs1 ++ bs2) → at_bytes d bs1 ∧ at_bytes (skip (length bs1) d) bs2.
Proof.
  intros (pre&post&E&Hc). rewrite <- app_assoc in E. split.
  - by exists pre, (bs2 ++ post).
  - exists (pre ++ bs1), post. cbn. rewrite E, Hc, length_app, <- app_assoc. done.
Qed.

Lemma read_u8_at d b bs : at_bytes d (b :: bs) →
  read_u8 d = Ret (b, skip 1 d) ∧ at_bytes (skip 1 d) bs.
Proof.
  intros H. split.
  - destruct H as (pre&post&E&Hc). unfold read_u8, skip.
    rewrite E, Hc. cbn [app]. rewrite list_lookup_middle by done. by rewrite Nat.add_1_r.
  - apply (at_bytes_app d [b] bs) in H. apply H.
Qed.

Lemma read_raw_bytes_at d bs : at_bytes d bs →
  read_raw_bytes (length bs) d = Ret (bs, skip (length bs) d).
Proof.
  intros (pre&post&E&Hc). unfold read_raw_bytes, remaining, len.
  rewrite E, !length_app, Hc.
  destruct (Nat.ltb_spec (length pre + (length bs + length post) - length pre) (length bs)); [lia|].
  unfold skip. rewrite E, Hc, drop_app_length, take_app_length. done.
Qed.

Lemma read_array_at d bs n : at_bytes d bs → length bs = n →
  read_array n d = Ret (bs, skip n d).
Proof.
  intros H <-. unfold read_array. rewrite read_raw_bytes_at by done. cbn [obind].
  by rewrite Nat.eqb_refl.
Qed.

Lemma length_to_le_bytes n v : length (to_le_bytes n v) = n.
Proof. revert v; induction n; intros; cbn; auto. Qed.

Lemma from_to_le_bytes n v :
  from_le_bytes (to_le_bytes n v) = v mod 2 ^ (8 * Z.of_nat n).
Proof.
  revert v; induction n as [|n IH]; intros v; cbn [to_le_bytes from_le_bytes].
  - by rewrite Z.mod_1_r.
  - rewrite IH. replace (8 * Z.of_nat (S n)) with (8 + 8 * Z.of_nat n) by lia.
    rewrite Z.pow_add_r by lia. change (2 ^ 8) with 256.
    rewrite Z.rem_mul_r by (try apply pow2_pos; lia). lia.
Qed.

Lemma to_le_bytes_byte n v b : b ∈ to_le_bytes n v → 0 ≤ b < 256.
Proof.
  revert v; induction n as [|n IH]; intros v; cbn; [by intros ?%elem_of_nil|].
  intros [->|?]%elem_of_cons; [apply Z.mod_pos_bound; lia|eauto].
Qed.

Lemma read_u16_at d v : is_uint 16 v → at_bytes d (to_le_bytes 2 v) →
  read_u16 d = Ret (v, skip 2 d).
Proof.
  intros Hv H. unfold read_u16.
  rewrite (read_array_at _ _ 2 H (length_to_le_bytes _ _)). cbn [obind].
  by rewrite from_to_le_bytes, Z.mod_small by done.
Qed.

Lemma read_i16_at d v : - 2 ^ 15 ≤ v < 2 ^ 15 → at_bytes d (to_le_bytes 2 (of_signed 16 v)) →
  read_i16 d = Ret (v, skip 2 d).
Proof.
  intros Hv H. unfold read_i16.
  rewrite (read_array_at _ _ 2 H (length_to_le_bytes _ _)). cbn [obind].
  rewrite from_to_le_bytes. change (8 * Z.of_nat 2) with 16.
  rewrite Z.mod_small by (apply wrap_bounds; lia).
  by rewrite to_signed_of_signed by lia.
Qed.

End MemDecoder.
