(* ===== verification/Leb128.v ===== *)
(** LEB128 integer coding, [rustc_serialize::leb128].  The macros
    [impl_write_unsigned_leb128], [impl_read_unsigned_leb128] and their signed
    twins are instantiated at 16, 32, 64 and 128 bits; here the width [w] is an
    argument.  The output buffer is exactly [max_leb128_len] bytes and is
    written with [get_unchecked_mut]: [room] counts the bytes left, and writing
    with no room left (undefined behaviour in the source) is [Panic]. *)

From S2P Require Import Prelude MemDecoder.
Import MemDecoder.

(** [max_leb128_len::<T>()] for a [w]-bit [T] *)
Definition max_leb128_len (w : Z) : nat := Z.to_nat ((w + 6) / 7).

Definition largest_max_leb128_len : nat := max_leb128_len 128.

(** The loop of [write_uN_leb128]. *)
Fixpoint write_unsigned_loop (room : nat) (value : Z) : outcome (list Z) :=
  match room with
  | O => Panic
  | S room =>
      if value <? 0x80 then Ret [value]
      else
        let! rest := write_unsigned_loop room (Z.shiftr value 7) in
        Ret (Z.lor (Z.land value 0x7f) 0x80 :: rest)
  end.

Definition write_unsigned_leb128 (w value : Z) : outcome (list Z) :=
  write_unsigned_loop (max_leb128_len w) value.

(** The loop of [read_uN_leb128]; every iteration reads a byte, so the fuel
    [S (remaining d)] is never used up. *)
Fixpoint read_unsigned_loop (fuel : nat) (w result shift : Z) (d : t) : outcome (Z * t) :=
  match fuel with
  | O => Panic
  | S fuel =>
      let! (byte, d) := read_u8 d in
      if Z.land byte 0x80 =? 0 then
        Ret (Z.lor result (wshl w byte shift), d)
      else
        read_unsigned_loop fuel w (Z.lor result (wshl w (Z.land byte 0x7f) shift)) (shift + 7) d
  end.

Definition read_unsigned_leb128 (w : Z) : decoder Z := λ d,
  let! (byte, d) := read_u8 d in
  if Z.land byte 0x80 =? 0 then Ret (byte, d)
  else read_unsigned_loop (S (remaining d)) w (Z.land byte 0x7f) 7 d.

(** The loop of [write_iN_leb128]; [value >>= 7] is the arithmetic shift. *)
Fixpoint write_signed_loop (room : nat) (value : Z) : outcome (list Z) :=
  match room with
  | O => Panic
  | S room =>
      let byte := Z.land value 0x7f in
      let value := Z.shiftr value 7 in
      let more := negb (((value =? 0) && (Z.land byte 0x40 =? 0))
                        || ((value =? -1) && negb (Z.land byte 0x40 =? 0))) in
      if more then
        let! rest := write_signed_loop room value in
        Ret (Z.lor byte 0x80 :: rest)
      else Ret [byte]
  end.

Definition write_signed_leb128 (w value : Z) : outcome (list Z) :=
  write_signed_loop (max_leb128_len w) value.

(** The loop of [read_iN_leb128]: the [w]-bit pattern accumulated so far, the
    final [shift] and the last byte. *)
Fixpoint read_signed_loop (fuel : nat) (w result shift : Z) (d : t)
    : outcome (Z * Z * Z * t) :=
  match fuel with
  | O => Panic
  | S fuel =>
      let! (byte, d) := read_u8 d in
      let result := Z.lor result (wshl w (Z.land byte 0x7f) shift) in
      let shift := shift + 7 in
      if Z.land byte 0x80 =? 0 then Ret (result, shift, byte, d)
      else read_signed_loop fuel w result shift d
  end.

Definition read_signed_leb128 (w : Z) : decoder Z := λ d,
  let! (result, shift, byte, d) := read_signed_loop (S (remaining d)) w 0 0 d in
  let result :=
    if (shift <? w) && negb (Z.land byte 0x40 =? 0)
    then Z.lor result (wshl w (umax w) shift) else result in
  Ret (to_signed w result, d).

(** ** Arithmetic of one 7-bit group *)

Lemma low7 v : Z.land v 0x7f = v mod 128.
Proof. change 0x7f with (2 ^ 7 - 1). by rewrite land_ones_mod by lia. Qed.

Lemma continuation_byte v :
  let b := Z.lor (Z.land v 0x7f) 0x80 in
  128 ≤ b < 256 ∧ Z.land b 0x7f = v mod 128.
Proof.
  pose proof (Z.mod_pos_bound v 128 ltac:(lia)).
  pose proof (lor_shifted (v mod 128) 1 7 ltac:(lia)) as E.
  change (1 * 2 ^ 7) with 128 in E. change (2 ^ 7) with 128 in E.
  rewrite low7, E by lia. cbn zeta. split; [lia|].
  rewrite low7, <- Z.add_mod_idemp_r by lia. rewrite Z.mod_same, Z.add_0_r by lia.
  apply Z.mod_mod. lia.
Qed.

(** One accumulation step of a reader. *)
Lemma accumulate w result shift v :
  0 ≤ shift < w → 0 ≤ result < 2 ^ shift →
  Z.lor result (wshl w v shift) = wrap w (result + v * 2 ^ shift).
Proof.
  intros Hs Hr. rewrite wshl_small by lia. unfold wrap.
  assert (2 ^ w = 2 ^ (w - shift) * 2 ^ shift) as ->
    by (rewrite <- Z.pow_add_r by lia; f_equal; lia).
  assert (0 < 2 ^ (w - shift)) as HM by (apply pow2_pos; lia).
  rewrite Z.mul_mod_distr_r by lia. rewrite lor_shifted by lia.
  pose proof (Z.mod_pos_bound v _ HM). pose proof (Z.div_mod v (2 ^ (w - shift)) ltac:(lia)).
  apply Z.mod_unique_pos with (q := v / 2 ^ (w - shift)); nia.
Qed.

Lemma group_split result shift v :
  0 ≤ shift →
  result + v * 2 ^ shift
  = result + (v mod 128) * 2 ^ shift + v / 128 * 2 ^ (shift + 7).
Proof.
  intros. rewrite Z.pow_add_r by lia. change (2 ^ 7) with 128.
  pose proof (Z.div_mod v 128 ltac:(lia)). nia.
Qed.

(** Room in the output buffer: a value below [2^r] needs [(r+6)/7] bytes. *)
Lemma shiftr7_bound v r : 0 ≤ v < 2 ^ r → 128 ≤ v → 7 < r ∧ 0 ≤ Z.shiftr v 7 < 2 ^ (r - 7).
Proof.
  intros Hv Hb. assert (7 < r) as Hr.
  { destruct (decide (7 < r)); [done|]. pose proof (Z.pow_le_mono_r 2 r 7).
    change (2 ^ 7) with 128 in *. lia. }
  split; [done|]. rewrite shiftr_div by lia. split; [apply Z.div_pos; lia|].
  apply Z.div_lt_upper_bound; [lia|]. rewrite <- Z.pow_add_r by lia.
  replace (7 + (r - 7)) with r by lia. lia.
Qed.

Lemma room_step r : 7 < r → max_leb128_len r = S (max_leb128_len (r - 7)).
Proof.
  intros. unfold max_leb128_len. replace (r + 6) with (r - 7 + 6 + 1 * 7) by lia.
  rewrite Z.div_add by lia. rewrite Z2Nat.inj_add; [simpl; lia|apply Z.div_pos; lia|lia].
Qed.

Lemma room_pos r : 0 < r → ∃ n, max_leb128_len r = S n.
Proof.
  intros. unfold max_leb128_len. exists (Z.to_nat ((r + 6) / 7 - 1)).
  assert (1 ≤ (r + 6) / 7) by (apply Z.div_le_lower_bound; lia). lia.
Qed.

Lemma append_bound w r result shift v :
  0 ≤ shift → 0 ≤ r → shift + r ≤ w → 0 ≤ result < 2 ^ shift → 0 ≤ v < 2 ^ r →
  is_uint w (result + v * 2 ^ shift).
Proof.
  intros. pose proof (Z.pow_le_mono_r 2 (shift + r) w ltac:(lia) ltac:(lia)) as Hp.
  rewrite Z.pow_add_r in Hp by lia. unfold is_uint. nia.
Qed.

(** Whatever a writer returns fits its buffer. *)
Lemma write_unsigned_loop_length room v bs :
  write_unsigned_loop room v = Ret bs → (length bs <= room)%nat.
Proof.
  revert v bs; induction room as [|room IH]; intros v bs; cbn [write_unsigned_loop]; [done|].
  destruct (v <? 0x80); intros H; inv_outcome; cbn; [lia|].
  apply IH in E. lia.
Qed.

Lemma write_signed_loop_length room v bs :
  write_signed_loop room v = Ret bs → (length bs <= room)%nat.
Proof.
  revert v bs; induction room as [|room IH]; intros v bs; cbn [write_signed_loop]; [done|].
  destruct (negb _); intros H; inv_outcome; cbn; [|lia].
  apply IH in E. lia.
Qed.

(** ** Unsigned: the writer stays in its buffer and the reader inverts it *)

(** [bs] is read as [v] by the loop of the unsigned reader. *)
Definition reads_unsigned (r v : Z) (bs : list Z) : Prop :=
  ∀ w result shift d fuel,
    at_bytes d bs → 0 ≤ shift → shift + r ≤ w → 0 ≤ result < 2 ^ shift →
    (length bs <= fuel)%nat →
    read_unsigned_loop fuel w result shift d
    = Ret (result + v * 2 ^ shift, skip (length bs) d).

Lemma reads_unsigned_last r v : 0 < r → 0 ≤ v < 2 ^ r → v < 128 → reads_unsigned r v [v].
Proof.
  intros Hr Hv Hlt w result shift d [|fuel] Hd Hs Hw Hres Hf; cbn in Hf; [lia|].
  apply read_u8_at in Hd as [Hd _]. cbn [read_unsigned_loop]. rewrite Hd. cbn [obind].
  rewrite land_128_ltb by lia. zcases; [|lia].
  rewrite accumulate, wrap_small; [done|apply (append_bound _ r)|..]; lia.
Qed.

Lemma reads_unsigned_more r v bs :
  7 < r → 0 ≤ v → reads_unsigned (r - 7) (Z.shiftr v 7) bs →
  reads_unsigned r v (Z.lor (Z.land v 0x7f) 0x80 :: bs).
Proof.
  intros Hr Hv IH w result shift d [|fuel] Hd Hs Hw Hres Hf; cbn in Hf; [lia|].
  apply read_u8_at in Hd as [Hd Hd']. cbn [read_unsigned_loop]. rewrite Hd. cbn [obind].
  destruct (continuation_byte v) as [Hb ->]. rewrite land_128_ltb by lia. zcases; [lia|].
  pose proof (Z.mod_pos_bound v 128 ltac:(lia)).
  assert (0 ≤ result + v mod 128 * 2 ^ shift < 2 ^ (shift + 7)) as Hacc
    by (apply (append_bound _ 7); change (2 ^ 7) with 128; lia).
  pose proof (Z.pow_le_mono_r 2 (shift + 7) w ltac:(lia) ltac:(lia)).
  rewrite accumulate, wrap_small by (unfold is_uint; lia).
  rewrite IH by (done || lia). rewrite (group_split result shift v) by lia.
  by rewrite skip_skip, shiftr_div by lia.
Qed.

Lemma write_unsigned_loop_ok r v :
  0 < r → 0 ≤ v < 2 ^ r →
  ∃ bs, write_unsigned_loop (max_leb128_len r) v = Ret bs ∧
        (1 <= length bs <= max_leb128_len r)%nat ∧ reads_unsigned r v bs ∧
        Forall (λ b, 0 ≤ b < 256) bs.
Proof.
  intros Hr Hv. remember (max_leb128_len r) as room eqn:Eroom.
  revert r v Hr Hv Eroom. induction room as [|room IH]; intros r v Hr Hv Eroom.
  { destruct (room_pos r Hr) as [n ?]. congruence. }
  cbn [write_unsigned_loop]. destruct (Z.ltb_spec v 0x80) as [Hlt|Hge].
  - exists [v]. split_and!; [done|cbn; lia|cbn; lia|by apply reads_unsigned_last|].
    repeat constructor; lia.
  - destruct (shiftr7_bound v r Hv Hge) as [Hr7 Hv'].
    rewrite room_step in Eroom by done. injection Eroom as Eroom.
    destruct (IH (r - 7) (Z.shiftr v 7)) as (bs&->&Hlen&Hrd&Hb); [lia|done|done|].
    eexists. split_and!; [done|cbn; lia|cbn; lia|apply reads_unsigned_more; [lia|lia|done]|].
    constructor; [|done]. pose proof (continuation_byte v) as Hc; cbv zeta in Hc. lia.
Qed.

(** The unrolled first iteration is an iteration of the loop. *)
Lemma read_unsigned_peel w d b bs :
  8 ≤ w → 0 ≤ b < 256 → at_bytes d (b :: bs) →
  read_unsigned_leb128 w d = read_unsigned_loop (S (S (remaining (skip 1 d)))) w 0 0 d.
Proof.
  intros Hw Hb Hd. apply read_u8_at in Hd as [Hd _].
  assert (∀ x, 0 ≤ x < 256 → Z.lor 0 (wshl w x 0) = x) as Hacc.
  { intros x Hx. rewrite accumulate, Z.add_0_l, Z.mul_1_r by lia. apply wrap_small.
    pose proof (Z.pow_le_mono_r 2 8 w). split; lia. }
  unfold read_unsigned_leb128. cbn [read_unsigned_loop]. rewrite Hd. cbn [obind].
  pose proof (Z.mod_pos_bound b 128). by rewrite !Hacc by (rewrite ?low7; lia).
Qed.

Lemma read_unsigned_leb128_at w v bs d :
  8 ≤ w → 0 ≤ v < 2 ^ w → write_unsigned_leb128 w v = Ret bs → at_bytes d bs →
  read_unsigned_leb128 w d = Ret (v, skip (length bs) d).
Proof.
  intros Hw Hv Hwr Hd. destruct (write_unsigned_loop_ok w v) as (bs'&Hwr'&Hl&Hrd&Hb); [lia..|].
  unfold write_unsigned_leb128 in Hwr. rewrite Hwr' in Hwr. simplify_eq.
  destruct bs as [|b bs]; [cbn in Hl; lia|].
  rewrite (read_unsigned_peel w d b bs) by (done || by inversion Hb).
  rewrite Hrd; [by rewrite Z.mul_1_r|done|lia|lia|lia|].
  destruct Hd as (pre&post&E&Hc). unfold remaining, len, skip; cbn.
  rewrite E, length_app, length_app. cbn. lia.
Qed.

(** ** Signed *)

(** The sign-extended result the reader computes from its loop's state. *)
Definition signed_result (w result shift byte : Z) : Z :=
  to_signed w (if (shift <? w) && negb (Z.land byte 0x40 =? 0)
               then Z.lor result (wshl w (umax w) shift) else result).

(** [bs] is read as [v] by the loop of the signed reader. *)
Definition reads_signed (r v : Z) (bs : list Z) : Prop :=
  ∀ w result shift d fuel,
    at_bytes d bs → 0 ≤ shift → shift + r = w →
    0 ≤ result < 2 ^ shift → (length bs <= fuel)%nat →
    ∃ result' shift' byte',
      read_signed_loop fuel w result shift d
      = Ret (result', shift', byte', skip (length bs) d) ∧
      signed_result w result' shift' byte' = to_signed w (wrap w (result + v * 2 ^ shift)).

(** Sign extension completes the last group. *)
Lemma sign_extend_last w result shift v :
  0 ≤ shift < w → 0 ≤ result < 2 ^ shift →
  let byte := Z.land v 0x7f in
  Z.shiftr v 7 = 0 ∧ byte < 64 ∨ Z.shiftr v 7 = -1 ∧ 64 ≤ byte →
  signed_result w (Z.lor result (wshl w byte shift)) (shift + 7) byte
  = to_signed w (wrap w (result + v * 2 ^ shift)).
Proof.
  intros Hs Hr byte Hend. unfold signed_result. f_equal.
  rewrite (accumulate w result shift byte) by lia.
  assert (0 ≤ byte < 128) as Hb by (subst byte; rewrite low7; apply Z.mod_pos_bound; lia).
  rewrite land_64_ltb by done. rewrite (group_split result shift v), <- low7 by lia.
  fold byte. rewrite shiftr_div in Hend by lia. change (2 ^ 7) with 128 in Hend.
  destruct Hend as [[-> Hb']|[-> Hb']].
  - destruct (Z.ltb_spec byte 64); [|lia]. rewrite andb_false_r. f_equal. lia.
  - destruct (Z.ltb_spec byte 64); [lia|]. rewrite andb_true_r.
    destruct (Z.ltb_spec (shift + 7) w) as [Hw|Hw].
    + assert (0 ≤ result + byte * 2 ^ shift < 2 ^ (shift + 7)) as Hacc
        by (apply (append_bound _ 7); change (2 ^ 7) with 128; lia).
      pose proof (Z.pow_le_mono_r 2 (shift + 7) w ltac:(lia) ltac:(lia)).
      rewrite (wrap_small w (result + _)) by (unfold is_uint; lia).
      rewrite accumulate by lia. unfold umax.
      replace (result + byte * 2 ^ shift + (2 ^ w - 1) * 2 ^ (shift + 7))
        with (result + byte * 2 ^ shift + -1 * 2 ^ (shift + 7) + 2 ^ (shift + 7) * 2 ^ w) by lia.
      apply wrap_add_mult. lia.
    + symmetry. apply wrap_add_mult. lia.
Qed.

Lemma reads_signed_last r v :
  0 < r →
  let byte := Z.land v 0x7f in
  Z.shiftr v 7 = 0 ∧ byte < 64 ∨ Z.shiftr v 7 = -1 ∧ 64 ≤ byte →
  reads_signed r v [byte].
Proof.
  intros Hr byte Hend w result shift d [|fuel] Hd Hs Hw Hres Hf; cbn in Hf; [lia|].
  apply read_u8_at in Hd as [Hd _]. cbn [read_signed_loop]. rewrite Hd. cbn [obind].
  assert (0 ≤ byte < 128) as Hb by (subst byte; rewrite low7; apply Z.mod_pos_bound; lia).
  rewrite land_128_ltb by lia. destruct (Z.ltb_spec byte 128); [|lia].
  do 3 eexists. split; [reflexivity|].
  rewrite (low7 byte), Z.mod_small by lia. apply sign_extend_last; [lia..|done].
Qed.

Lemma reads_signed_more r v bs :
  7 < r → reads_signed (r - 7) (Z.shiftr v 7) bs →
  reads_signed r v (Z.lor (Z.land v 0x7f) 0x80 :: bs).
Proof.
  intros Hr IH w result shift d [|fuel] Hd Hs Hw Hres Hf; cbn in Hf; [lia|].
  apply read_u8_at in Hd as [Hd Hd']. cbn [read_signed_loop]. rewrite Hd. cbn [obind].
  destruct (continuation_byte v) as [Hb ->]. rewrite land_128_ltb by lia. zcases; [lia|].
  pose proof (Z.mod_pos_bound v 128 ltac:(lia)).
  assert (0 ≤ result + v mod 128 * 2 ^ shift < 2 ^ (shift + 7)) as Hacc
    by (apply (append_bound _ 7); change (2 ^ 7) with 128; lia).
  pose proof (Z.pow_le_mono_r 2 (shift + 7) w ltac:(lia) ltac:(lia)).
  rewrite accumulate, wrap_small by (unfold is_uint; lia).
  destruct (IH w (result + v mod 128 * 2 ^ shift) (shift + 7) (skip 1 d) fuel)
    as (r'&s'&b'&Hloop&Hres'); [done|lia..|].
  exists r', s', b'. rewrite Hloop, Hres', skip_skip. split; [done|].
  by rewrite (group_split result shift v), shiftr_div by lia.
Qed.

Lemma signed_more_spec v :
  let byte := Z.land v 0x7f in
  let v' := Z.shiftr v 7 in
  let more := negb (((v' =? 0) && (Z.land byte 0x40 =? 0))
                    || ((v' =? -1) && negb (Z.land byte 0x40 =? 0))) in
  if more then v < -64 ∨ 64 ≤ v
  else v' = 0 ∧ byte < 64 ∨ v' = -1 ∧ 64 ≤ byte.
Proof.
  cbv zeta. pose proof (Z.mod_pos_bound v 128 ltac:(lia)).
  pose proof (Z.div_mod v 128 ltac:(lia)).
  rewrite low7, land_64_ltb, shiftr_div by lia. change (2 ^ 7) with 128.
  zcases; cbn; lia.
Qed.

Lemma signed_shift_bound v r :
  - 2 ^ (r - 1) ≤ v < 2 ^ (r - 1) → v < -64 ∨ 64 ≤ v →
  7 < r ∧ - 2 ^ (r - 7 - 1) ≤ Z.shiftr v 7 < 2 ^ (r - 7 - 1).
Proof.
  intros Hv Hb. assert (7 < r) as Hr.
  { destruct (decide (7 < r)); [done|]. pose proof (Z.pow_le_mono_r 2 (r - 1) 6).
    change (2 ^ 6) with 64 in *. lia. }
  split; [done|]. rewrite shiftr_div by lia. change (2 ^ 7) with 128.
  assert (2 ^ (r - 1) = 128 * 2 ^ (r - 7 - 1)) as E.
  { change 128 with (2 ^ 7). rewrite <- Z.pow_add_r by lia. f_equal. lia. }
  split; [apply Z.div_le_lower_bound|apply Z.div_lt_upper_bound]; lia.
Qed.

Lemma write_signed_loop_ok r v :
  0 < r → - 2 ^ (r - 1) ≤ v < 2 ^ (r - 1) →
  ∃ bs, write_signed_loop (max_leb128_len r) v = Ret bs ∧
        (1 <= length bs <= max_leb128_len r)%nat ∧ reads_signed r v bs.
Proof.
  intros Hr Hv. remember (max_leb128_len r) as room eqn:Eroom.
  revert r v Hr Hv Eroom. induction room as [|room IH]; intros r v Hr Hv Eroom.
  { destruct (room_pos r Hr) as [n ?]. congruence. }
  cbn [write_signed_loop]. pose proof (signed_more_spec v) as Hm. cbv zeta in Hm.
  destruct (negb _).
  - destruct (signed_shift_bound v r Hv Hm) as [Hr7 Hv'].
    rewrite room_step in Eroom by done. injection Eroom as Eroom.
    destruct (IH (r - 7) (Z.shiftr v 7)) as (bs&->&Hlen&Hrd); [lia|done|done|].
    eexists. split_and!; [done|cbn; lia|cbn; lia|by apply reads_signed_more].
  - eexists. split_and!; [done|cbn; lia|cbn; lia|by apply reads_signed_last].
Qed.

Lemma read_signed_leb128_at w v bs d :
  0 < w → - 2 ^ (w - 1) ≤ v < 2 ^ (w - 1) →
  write_signed_leb128 w v = Ret bs → at_bytes d bs →
  read_signed_leb128 w d = Ret (v, skip (length bs) d).
Proof.
  intros Hw Hv Hwr Hd. destruct (write_signed_loop_ok w v) as (bs'&Hwr'&Hl&Hrd); [lia..|].
  unfold write_signed_leb128 in Hwr. rewrite Hwr' in Hwr. simplify_eq.
  destruct (Hrd w 0 0 d (S (remaining d)) Hd) as (r'&s'&b'&Hloop&Hres); [lia..| |].
  { destruct Hd as (pre&post&E&Hc). unfold remaining, len. rewrite E, !length_app. lia. }
  unfold read_signed_leb128. rewrite Hloop. cbn [obind].
  unfold signed_result in Hres. rewrite Hres, Z.add_0_l, Z.mul_1_r.
  fold (of_signed w v). by rewrite to_signed_of_signed.
Qed.

(** ** Properties *)

(** Unsigned LEB128 coding, at each of the widths the macros instantiate:
    the writer returns within its [max_leb128_len] byte buffer, and the reader,
    placed at those bytes inside any larger slice, returns the value and stops
    right after them. *)
Theorem leb128_unsigned_roundtrip w v pre post :
  w ∈ [16; 32; 64; 128] → is_uint w v →
  ∃ bs, write_unsigned_leb128 w v = Ret bs ∧
        (1 <= length bs <= max_leb128_len w)%nat ∧
        read_unsigned_leb128 w (mk (pre ++ bs ++ post) (length pre))
        = Ret (v, mk (pre ++ bs ++ post) (length pre + length bs)).
Proof.
  intros Hw Hv. assert (8 ≤ w) by (rewrite !elem_of_cons, elem_of_nil in Hw; lia).
  destruct (write_unsigned_loop_ok w v) as (bs&Hwr&Hl&_); [lia|done|].
  exists bs. split_and!; [done|lia|lia|].
  apply (read_unsigned_leb128_at w v bs); [done..|]. by exists pre, post.
Qed.

Lemma leb128_unsigned_roundtrip_witness :
  ∃ bs, write_unsigned_leb128 32 300 = Ret bs ∧
        (1 <= length bs <= max_leb128_len 32)%nat ∧
        read_unsigned_leb128 32 (mk ([7] ++ bs ++ [9; 9]) 1)
        = Ret (300, mk ([7] ++ bs ++ [9; 9]) (1 + length bs)).
Proof.
  apply (leb128_unsigned_roundtrip 32 300 [7] [9; 9]); [by repeat constructor|].
  split; vm_compute; congruence.
Defined.

(** Signed LEB128 coding: same statement for the two's complement range of
    each width; in particular the sign extension of the reader is right when
    the last group ends below, at and above the width. *)
Theorem leb128_signed_roundtrip w v pre post :
  w ∈ [16; 32; 64; 128] → - 2 ^ (w - 1) ≤ v < 2 ^ (w - 1) →
  ∃ bs, write_signed_leb128 w v = Ret bs ∧
        (1 <= length bs <= max_leb128_len w)%nat ∧
        read_signed_leb128 w (mk (pre ++ bs ++ post) (length pre))
        = Ret (v, mk (pre ++ bs ++ post) (length pre + length bs)).
Proof.
  intros Hw Hv. assert (0 < w) by (rewrite !elem_of_cons, elem_of_nil in Hw; lia).
  destruct (write_signed_loop_ok w v) as (bs&Hwr&Hl&_); [lia|done|].
  exists bs. split_and!; [done|lia|lia|].
  apply (read_signed_leb128_at w v bs); [done..|]. by exists pre, post.
Qed.

Lemma leb128_signed_roundtrip_witness :
  ∃ bs, write_signed_leb128 16 (-32768) = Ret bs ∧
        (1 <= length bs <= max_leb128_len 16)%nat ∧
        read_signed_leb128 16 (mk ([] ++ bs ++ [1]) 0)
        = Ret (-32768, mk ([] ++ bs ++ [1]) (0 + length bs)).
Proof.
  apply (leb128_signed_roundtrip 16 (-32768) [] [1]); [by repeat constructor|].
  split; vm_compute; congruence.
Defined.
