(* ===== verification/Opaque.v ===== *)
(** The opaque encoder and decoder of [rustc_serialize]: [FileEncoder] (a
    fixed-size buffer in front of a file, with delayed error reporting), the
    [Encoder] interface it implements, and the leb128 methods of [MemDecoder].

    The operating system is an argument: [os] lists what the next calls of
    [File::write] answer ([std::fs::File] is not under [src/]).  Once the list
    is used up every write is accepted whole, so an execution of the source
    that terminates is one with a long enough list.  [write] answers at most
    the length of the buffer it was given, as [std::io::Write] documents. *)

From S2P Require Import Prelude MemDecoder Leb128.

(** ** The [Encoder] interface *)

(** [rustc_serialize::serialize::Encoder], the emitting methods the modelled
    code uses. *)
Class Encoder (S : Type) := {
  emit_usize : Z → S → outcome S;
  emit_u128 : Z → S → outcome S;
  emit_u64 : Z → S → outcome S;
  emit_u32 : Z → S → outcome S;
  emit_u16 : Z → S → outcome S;
  emit_u8 : Z → S → outcome S;
  emit_isize : Z → S → outcome S;
  emit_i128 : Z → S → outcome S;
  emit_i64 : Z → S → outcome S;
  emit_i32 : Z → S → outcome S;
  emit_i16 : Z → S → outcome S;
  emit_raw_bytes : list Z → S → outcome S;
}.

(** What an encoder promises: [emitted s bs] says that [s] stands for the byte
    stream [bs]; every method returns and appends the bytes of its argument. *)
Definition appends {S} (emitted : S → list Z → Prop) (op : S → outcome S) (bs : list Z) : Prop :=
  ∀ s pre, emitted s pre → ∃ s', op s = Ret s' ∧ emitted s' (pre ++ bs).

Class EncoderLaws (S : Type) `{Encoder S} := {
  emitted : S → list Z → Prop;
  emit_raw_bytes_appends bs : appends emitted (emit_raw_bytes bs) bs;
  emit_u8_appends v : appends emitted (emit_u8 v) [v];
  emit_u16_appends v : appends emitted (emit_u16 v) (MemDecoder.to_le_bytes 2 v);
  emit_i16_appends v :
    appends emitted (emit_i16 v) (MemDecoder.to_le_bytes 2 (of_signed 16 v));
  emit_usize_appends v bs : write_unsigned_leb128 64 v = Ret bs → appends emitted (emit_usize v) bs;
  emit_u128_appends v bs : write_unsigned_leb128 128 v = Ret bs → appends emitted (emit_u128 v) bs;
  emit_u64_appends v bs : write_unsigned_leb128 64 v = Ret bs → appends emitted (emit_u64 v) bs;
  emit_u32_appends v bs : write_unsigned_leb128 32 v = Ret bs → appends emitted (emit_u32 v) bs;
  emit_isize_appends v bs : write_signed_leb128 64 v = Ret bs → appends emitted (emit_isize v) bs;
  emit_i128_appends v bs : write_signed_leb128 128 v = Ret bs → appends emitted (emit_i128 v) bs;
  emit_i64_appends v bs : write_signed_leb128 64 v = Ret bs → appends emitted (emit_i64 v) bs;
  emit_i32_appends v bs : write_signed_leb128 32 v = Ret bs → appends emitted (emit_i32 v) bs;
}.

Module FileEncoder.

Definition BUF_SIZE : nat := Z.to_nat 8192.

(** What one [File::write] call answers. *)
Inductive io_error := WriteZero | OtherError (code : Z).
Inductive response := WroteUpTo (n : nat) | Interrupted | Failed (e : io_error).

Record t := mk {
  buf : list Z;
  buffered : nat;
  flushed : nat;
  file : list Z;
  os : list response;
  res : option io_error;
}.

(** [new]: [garbage] is what the uninitialised buffer happens to hold. *)
Definition new (garbage : list Z) (os : list response) : t :=
  mk garbage 0 0 [] os None.

Definition position (e : t) : nat := flushed e + buffered e.

(** The write loop of [flush] and [write_all_unbuffered]: [pending] is what
    remains to be written; the result is the number of bytes written, the
    file, the rest of [os] and the error that stopped the loop. *)
Fixpoint write_loop (os : list response) (pending file : list Z)
    : nat * list Z * list response * option io_error :=
  match pending with
  | [] => (O, file, os, None)
  | _ :: _ =>
      match os with
      | [] => (length pending, file ++ pending, [], None)
      | r :: os =>
          match r with
          | WroteUpTo n0 =>
              let n := (n0 `min` length pending)%nat in
              if (n =? 0)%nat then (O, file, os, Some WriteZero)
              else
                let '(k, file, os, err) :=
                  write_loop os (drop n pending) (file ++ take n pending) in
                ((n + k)%nat, file, os, err)
          | Interrupted => write_loop os pending file
          | Failed e => (O, file, os, Some e)
          end
      end
  end.

(** [flush]; the second half is the [Drop] of its [BufGuard]. *)
Definition flush (e : t) : t :=
  match res e with
  | Some _ => e
  | None =>
      let buffer := take (buffered e) (buf e) in
      let '(k, file', os', err) := write_loop (os e) buffer (file e) in
      let e' :=
        if (0 <? k)%nat then
          if (buffered e <=? k)%nat then
            mk (buf e) 0 (flushed e + buffered e) file' os' (res e)
          else
            mk (drop k buffer ++ drop (buffered e - k) (buf e))
               (buffered e - k) (flushed e + k) file' os' (res e)
        else mk (buf e) (buffered e) (flushed e) file' os' (res e) in
      match err with
      | None => e'
      | Some _ => mk (buf e') (buffered e') (flushed e') (file e') (os e') err
      end
  end.

(** A raw write of [bs] at offset [at_] of the buffer; outside of the buffer it
    would be undefined behaviour. *)
Definition poke (buf : list Z) (at_ : nat) (bs : list Z) : outcome (list Z) :=
  if (at_ + length bs <=? length buf)%nat
  then Ret (take at_ buf ++ bs ++ drop (at_ + length bs) buf) else Panic.

Definition with_buffered (e : t) (buf' : list Z) (n : nat) : t :=
  mk buf' n (flushed e) (file e) (os e) (res e).

Definition write_one (value : Z) (e : t) : outcome t :=
  let '(e, at_) :=
    if (BUF_SIZE <? buffered e + 1)%nat then (flush e, O) else (e, buffered e) in
  let! b := poke (buf e) at_ [value] in
  Ret (with_buffered e b (at_ + 1)).

Definition write_all_unbuffered (bs : list Z) (e : t) : outcome t :=
  match res e with
  | Some _ => Ret e
  | None =>
      let e := if (0 <? buffered e)%nat then flush e else e in
      let '(k, file', os', err) := write_loop (os e) bs (file e) in
      Ret (mk (buf e) (buffered e) (flushed e + k) file' os'
             (match err with Some _ => err | None => res e end))
  end.

Definition write_all (bs : list Z) (e : t) : outcome t :=
  if (length bs <=? BUF_SIZE)%nat then
    let '(e, at_) :=
      if (BUF_SIZE <? buffered e + length bs)%nat then (flush e, O) else (e, buffered e) in
    let! b := poke (buf e) at_ bs in
    Ret (with_buffered e b (at_ + length bs))
  else write_all_unbuffered bs e.

(** [write_leb128!]: the encoded bytes go straight into a window of
    [MAX_ENCODED_LEN] bytes of the buffer; the bytes of the window past the
    encoding keep their old contents. *)
Definition write_leb128 (write : Z → Z → outcome (list Z)) (w v : Z) (e : t) : outcome t :=
  let '(e, at_) :=
    if (BUF_SIZE <? buffered e + max_leb128_len w)%nat
    then (flush e, O) else (e, buffered e) in
  rassert (at_ + max_leb128_len w <=? length (buf e))%nat
    (let! encoded := write w v in
     let! b := poke (buf e) at_ encoded in
     Ret (with_buffered e b (at_ + length encoded))).

(** [finish]: the byte count, or the delayed error. *)
Definition finish (e : t) : (nat + io_error) * t :=
  let e := flush e in
  match res e with
  | None => (inl (position e), e)
  | Some err => (inr err, e)
  end.

#[global] Instance encoder : Encoder t := {|
  emit_usize := write_leb128 write_unsigned_leb128 64;
  emit_u128 := write_leb128 write_unsigned_leb128 128;
  emit_u64 := write_leb128 write_unsigned_leb128 64;
  emit_u32 := write_leb128 write_unsigned_leb128 32;
  emit_u16 v := write_all (MemDecoder.to_le_bytes 2 v);
  emit_u8 := write_one;
  emit_isize := write_leb128 write_signed_leb128 64;
  emit_i128 := write_leb128 write_signed_leb128 128;
  emit_i64 := write_leb128 write_signed_leb128 64;
  emit_i32 := write_leb128 write_signed_leb128 32;
  emit_i16 v := write_all (MemDecoder.to_le_bytes 2 (of_signed 16 v));
  emit_raw_bytes := write_all;
|}.

(** [<[u8] as Encodable<FileEncoder>>::encode] *)
Definition encode_bytes (bs : list Z) (e : t) : outcome t :=
  let! e := emit_usize (Z.of_nat (length bs)) e in
  emit_raw_bytes bs e.

(** [<IntEncodedWithFixedSize as Encodable<FileEncoder>>::encode] *)
Definition encode_fixed_u64 (v : Z) (e : t) : outcome t :=
  emit_raw_bytes (MemDecoder.to_le_bytes 8 v) e.

(** ** The byte stream an encoder stands for *)

(** Without an error, what reached the file followed by what is buffered is
    the stream.  After an error nothing is promised of the contents: the error
    stays until [finish] reports it. *)
Definition stands_for (e : t) (bs : list Z) : Prop :=
  length (buf e) = BUF_SIZE ∧ (buffered e <= BUF_SIZE)%nat ∧
  flushed e = length (file e) ∧
  (res e = None → file e ++ take (buffered e) (buf e) = bs).

Lemma write_loop_spec os pending file :
  ∀ k file' os' err, write_loop os pending file = (k, file', os', err) →
  file' = file ++ take k pending ∧ (k <= length pending)%nat ∧
  (err = None → k = length pending).
Proof.
  revert pending file. induction os as [|r os IH]; intros [|b pending] file k file' os' err;
    cbn [write_loop].
  1, 3: intros [= <- <- <- <-]; split_and!; [by rewrite take_nil, app_nil_r|done|done].
  { intros [= <- <- <- <-]. rewrite take_ge by done. done. }
  destruct r as [n0| |er].
  - set (n := (n0 `min` length (b :: pending))%nat).
    assert (n <= length (b :: pending))%nat as Hn by apply Nat.le_min_r.
    destruct (Nat.eqb_spec n 0).
    { intros [= <- <- <- <-]. split_and!; [by rewrite take_0, app_nil_r|lia|done]. }
    destruct (write_loop os (drop n (b :: pending)) (file ++ take n (b :: pending)))
      as [[[k1 f1] o1] e1] eqn:E. intros [= <- <- <- <-].
    apply IH in E as (->&Hk&Herr). rewrite length_drop in *.
    split_and!; [|lia|intros ->; rewrite Herr by done; lia].
    rewrite <- app_assoc, <- (take_take_drop (b :: pending) n k1). done.
  - intros E. by apply IH in E.
  - intros [= <- <- <- <-]. split_and!; [by rewrite take_0, app_nil_r|lia|done].
Qed.

Lemma flush_spec e bs :
  stands_for e bs →
  stands_for (flush e) bs ∧ (res (flush e) = None → res e = None ∧ buffered (flush e) = O).
Proof.
  intros (Hlen&Hb&Hf&Hs). unfold flush. destruct (res e) as [er|] eqn:Eres.
  { split; [|by rewrite Eres]. by split_and!; [..|rewrite Eres]. }
  destruct (write_loop _ _ _) as [[[k f'] o'] err] eqn:E.
  apply write_loop_spec in E as (->&Hk&Herr). rewrite length_take_le in Hk, Herr by lia.
  destruct err as [er|].
  - split; [|by destruct (0 <? k)%nat, (buffered e <=? k)%nat].
    unfold stands_for. destruct (Nat.ltb_spec 0 k); [destruct (Nat.leb_spec (buffered e) k)|];
      cbn; rewrite ?length_app, ?length_drop, ?length_take; split_and!; try lia; done.
  - rewrite Herr in * by done. rewrite Nat.leb_refl, take_take, Nat.min_id.
    specialize (Hs eq_refl). unfold stands_for.
    destruct (Nat.ltb_spec 0 (buffered e)); cbn;
      rewrite ?length_app, ?length_take, ?take_0, ?app_nil_r.
    + split_and!; (lia || done).
    + replace (buffered e) with O in * by lia. rewrite take_0, app_nil_r in *.
      split_and!; rewrite ?length_app, ?app_nil_r; (lia || done).
Qed.

(** Both ways the writers find room: flush and restart at 0, or append. *)
Lemma room_for need (e : t) pre :
  stands_for e pre → (need <= BUF_SIZE)%nat →
  let '(e', at_) := if (BUF_SIZE <? buffered e + need)%nat then (flush e, O) else (e, buffered e) in
  stands_for e' pre ∧ (at_ + need <= BUF_SIZE)%nat ∧ (res e' = None → at_ = buffered e').
Proof.
  intros He Hn. destruct (Nat.ltb_spec BUF_SIZE (buffered e + need)).
  - destruct (flush_spec e pre He) as [? Hz]. split_and!; [done|lia|].
    intros ?. by destruct Hz as [_ ->].
  - by split_and!; [..|lia|].
Qed.

Lemma poke_appends e pre at_ bs :
  stands_for e pre → (res e = None → at_ = buffered e) → (at_ + length bs <= BUF_SIZE)%nat →
  ∃ b, poke (buf e) at_ bs = Ret b ∧
       stands_for (with_buffered e b (at_ + length bs)) (pre ++ bs).
Proof.
  intros (Hlen&Hb&Hf&Hs) Hat Hroom. unfold poke.
  destruct (Nat.leb_spec (at_ + length bs) (length (buf e))); [|lia].
  eexists. split; [done|]. split_and!; cbn; [|lia|done|].
  { rewrite !length_app, length_take, length_drop. lia. }
  intros Hres. rewrite <- Hs, Hat, <- app_assoc by done. f_equal. rewrite Hat in * by done.
  rewrite app_assoc, take_app_le by (rewrite length_app, length_take; lia).
  by rewrite take_ge by (rewrite length_app, length_take; lia).
Qed.

Lemma max_leb128_len_room w : 0 ≤ w ≤ 128 → (max_leb128_len w <= BUF_SIZE)%nat.
Proof.
  intros. unfold max_leb128_len, BUF_SIZE. apply Z2Nat.inj_le; [apply Z.div_pos; lia|lia|].
  apply Z.div_le_upper_bound; lia.
Qed.

Lemma write_one_appends v : appends stands_for (write_one v) [v].
Proof.
  intros e pre He. unfold write_one.
  assert (1 <= BUF_SIZE)%nat as H1 by (unfold BUF_SIZE; lia).
  pose proof (room_for 1 e pre He H1) as Hroom. destruct (if _ : bool then _ else _) as [e' at_].
  destruct Hroom as (He'&Hr&Hat).
  destruct (poke_appends e' pre at_ [v]) as (b&->&Hb); [done..|]. eauto.
Qed.

Lemma write_all_unbuffered_appends bs : appends stands_for (write_all_unbuffered bs) bs.
Proof.
  intros e pre He. unfold write_all_unbuffered. destruct (res e) as [er|] eqn:Eres.
  { eexists. split; [done|]. destruct He as (?&?&?&Hs).
    by split_and!; [..|rewrite Eres]. }
  set (e1 := if (0 <? buffered e)%nat then flush e else e).
  assert (stands_for e1 pre ∧ (res e1 = None → buffered e1 = O)) as [(Hlen&Hb&Hf&Hs) Hz].
  { unfold e1. destruct (Nat.ltb_spec 0 (buffered e)).
    - destruct (flush_spec e pre He) as [? Hz]. split; [done|]. intros ?. by apply Hz.
    - split; [done|]. intros _. lia. }
  destruct (write_loop _ _ _) as [[[k f'] o'] err] eqn:E.
  apply write_loop_spec in E as (->&Hk&Herr). eexists. split; [done|].
  split_and!; cbn; [done|done|rewrite length_app, length_take; lia|].
  destruct err; [done|]. intros E1. rewrite <- Hs, Hz by done.
  by rewrite Herr, take_0, !app_nil_r, take_ge by done.
Qed.

Lemma write_all_appends bs : appends stands_for (write_all bs) bs.
Proof.
  intros e pre He. unfold write_all. destruct (Nat.leb_spec (length bs) BUF_SIZE) as [Hle|].
  - pose proof (room_for (length bs) e pre He Hle) as Hroom.
    destruct (if _ : bool then _ else _) as [e' at_]. destruct Hroom as (He'&Hr&Hat).
    destruct (poke_appends e' pre at_ bs) as (b&->&Hb); [done..|]. eauto.
  - by apply write_all_unbuffered_appends.
Qed.

Lemma write_leb128_appends write w v bs :
  0 ≤ w ≤ 128 → write w v = Ret bs → (length bs <= max_leb128_len w)%nat →
  appends stands_for (write_leb128 write w v) bs.
Proof.
  intros Hw Hwr Hl e pre He. unfold write_leb128.
  pose proof (room_for _ e pre He (max_leb128_len_room w Hw)) as Hroom.
  destruct (if _ : bool then _ else _) as [e' at_]. destruct Hroom as (He'&Hr&Hat).
  destruct (Nat.leb_spec (at_ + max_leb128_len w) (length (buf e'))) as [|Hno];
    [|destruct He' as [Hlen _]; lia].
  cbn [rassert]. rewrite Hwr. cbn [obind].
  destruct (poke_appends e' pre at_ bs) as (b&->&Hb); [done|done|lia|]. eauto.
Qed.

#[global] Program Instance encoder_laws : EncoderLaws t := {|
  emitted := stands_for;
  emit_raw_bytes_appends := write_all_appends;
  emit_u8_appends := write_one_appends;
  emit_u16_appends v := write_all_appends _;
  emit_i16_appends v := write_all_appends _;
|}.
Solve All Obligations with
  intros; apply write_leb128_appends;
  [lia|done|eauto using write_unsigned_loop_length, write_signed_loop_length].

(** ** An operating system that makes progress *)

(** No call fails and none answers zero bytes. *)
Definition progresses (r : response) : Prop :=
  match r with WroteUpTo n => n ≠ O | Interrupted => True | Failed _ => False end.

Definition healthy (e : t) : Prop := res e = None ∧ Forall progresses (os e).

Lemma write_loop_progresses os pending file k file' os' err :
  Forall progresses os → write_loop os pending file = (k, file', os', err) →
  err = None ∧ Forall progresses os'.
Proof.
  revert pending file k file' os' err.
  induction os as [|r os IH]; intros [|b pending] file k file' os' err Hos; cbn [write_loop];
    try by intros [= <- <- <- <-].
  apply Forall_cons_iff in Hos as [Hr Hos]. destruct r as [n0| |er]; [|by apply IH|done].
  destruct (Nat.eqb_spec (n0 `min` length (b :: pending)) 0) as [E|]; [cbn in *; lia|].
  destruct (write_loop os _ _) as [[[k1 f1] o1] e1] eqn:E. intros [= <- <- <- <-].
  by eapply IH.
Qed.

Lemma flush_healthy e : healthy e → healthy (flush e).
Proof.
  intros [Hres Hos]. unfold flush. rewrite Hres.
  destruct (write_loop _ _ _) as [[[k f'] o'] err] eqn:E.
  apply write_loop_progresses in E as [-> ?]; [|done].
  by destruct (0 <? k)%nat, (buffered e <=? k)%nat.
Qed.

Lemma write_all_unbuffered_healthy bs e e' :
  healthy e → write_all_unbuffered bs e = Ret e' → healthy e'.
Proof.
  intros He. unfold write_all_unbuffered. destruct (res e) eqn:Eres; [by intros [= <-]|].
  set (e1 := if (0 <? buffered e)%nat then flush e else e).
  assert (healthy e1) as [Hres1 Hos1]
    by (unfold e1; destruct (0 <? buffered e)%nat; auto using flush_healthy).
  destruct (write_loop _ _ _) as [[[k f'] o'] err] eqn:E.
  apply write_loop_progresses in E as [-> ?]; [|done]. intros [= <-].
  by split; cbn; [rewrite Hres1|].
Qed.

Lemma room_for_healthy need e :
  healthy e →
  healthy (if (BUF_SIZE <? buffered e + need)%nat then (flush e, O) else (e, buffered e)).1.
Proof. intros. destruct (_ <? _)%nat; cbn; auto using flush_healthy. Qed.

Lemma write_one_healthy v e e' : healthy e → write_one v e = Ret e' → healthy e'.
Proof.
  intros He H. unfold write_one in H. apply (room_for_healthy 1) in He.
  destruct (if _ : bool then _ else _) as [e1 at_]. by inv_outcome.
Qed.

Lemma write_all_healthy bs e e' : healthy e → write_all bs e = Ret e' → healthy e'.
Proof.
  intros He H. unfold write_all in H.
  destruct (length bs <=? BUF_SIZE)%nat; [|by eapply write_all_unbuffered_healthy].
  apply (room_for_healthy (length bs)) in He.
  destruct (if _ : bool then _ else _) as [e1 at_]. by inv_outcome.
Qed.

Lemma write_leb128_healthy write w v e e' :
  healthy e → write_leb128 write w v e = Ret e' → healthy e'.
Proof.
  intros He H. unfold write_leb128 in H. apply (room_for_healthy (max_leb128_len w)) in He.
  destruct (if _ : bool then _ else _) as [e1 at_]. by inv_outcome.
Qed.

Lemma finish_healthy e : healthy e → ∃ n e', finish e = (inl n, e').
Proof.
  intros He%flush_healthy. unfold finish. destruct He as [-> _]. eauto.
Qed.

Lemma new_stands_for garbage os :
  length garbage = BUF_SIZE → stands_for (new garbage os) [].
Proof. intros. by split_and!; cbn; [|lia|..]. Qed.

Lemma finish_spec e bs n e' :
  stands_for e bs → finish e = (inl n, e') → file e' = bs ∧ n = length bs.
Proof.
  intros He. unfold finish. destruct (flush_spec e bs He) as [(_&_&Hf&Hs) Hz].
  destruct (res (flush e)) eqn:Eres; [done|]. intros [= <- <-].
  destruct Hz as [_ Hz]; [done|]. unfold position.
  rewrite <- Hs, Hz, Hf, take_0, app_nil_r by done. split; [done|lia].
Qed.

End FileEncoder.
