(* ===== verification/Codec.v ===== *)
(** Encoding a sequence of items with an [Encoder] and reading it back with
    [MemDecoder]: the promise [rustc_serialize::opaque] makes to the metadata
    and incremental-cache code, for every behaviour of the operating system. *)

From S2P Require Import Prelude MemDecoder Leb128 Opaque.
Import MemDecoder.

(** ** The leb128 methods of [MemDecoder]'s [Decoder] implementation *)

Definition read_usize : decoder Z := read_unsigned_leb128 64.
Definition read_u128 : decoder Z := read_unsigned_leb128 128.
Definition read_u64 : decoder Z := read_unsigned_leb128 64.
Definition read_u32 : decoder Z := read_unsigned_leb128 32.
Definition read_isize : decoder Z := read_signed_leb128 64.
Definition read_i128 : decoder Z := read_signed_leb128 128.
Definition read_i64 : decoder Z := read_signed_leb128 64.
Definition read_i32 : decoder Z := read_signed_leb128 32.

(** [<Vec<u8> as Decodable<MemDecoder>>::decode] *)
Definition decode_bytes : decoder (list Z) := λ d,
  let! (len, d) := read_usize d in
  read_raw_bytes (Z.to_nat len) d.

(** ** Items *)

Inductive item :=
| U8 (v : Z) | U16 (v : Z) | U32 (v : Z) | U64 (v : Z) | U128 (v : Z) | Usize (v : Z)
| I16 (v : Z) | I32 (v : Z) | I64 (v : Z) | I128 (v : Z) | Isize (v : Z)
| Raw (bs : list Z) | Bytes (bs : list Z).

(** The items a Rust program can emit: values in the range of their type. *)
Definition item_ok (i : item) : Prop :=
  match i with
  | U8 v => is_uint 8 v | U16 v => is_uint 16 v | U32 v => is_uint 32 v
  | U64 v | Usize v => is_uint 64 v | U128 v => is_uint 128 v
  | I16 v => - 2 ^ 15 ≤ v < 2 ^ 15 | I32 v => - 2 ^ 31 ≤ v < 2 ^ 31
  | I64 v | Isize v => - 2 ^ 63 ≤ v < 2 ^ 63 | I128 v => - 2 ^ 127 ≤ v < 2 ^ 127
  | Raw bs => True
  | Bytes bs => Z.of_nat (length bs) < 2 ^ 64
  end.

Section emit.
Context {S : Type} `{Encoder S}.

Definition emit_item (i : item) : S → outcome S :=
  match i with
  | U8 v => emit_u8 v | U16 v => emit_u16 v | U32 v => emit_u32 v | U64 v => emit_u64 v
  | U128 v => emit_u128 v | Usize v => emit_usize v
  | I16 v => emit_i16 v | I32 v => emit_i32 v | I64 v => emit_i64 v
  | I128 v => emit_i128 v | Isize v => emit_isize v
  | Raw bs => emit_raw_bytes bs
  | Bytes bs => λ s, let! s := emit_usize (Z.of_nat (length bs)) s in emit_raw_bytes bs s
  end.

Fixpoint emit_items (l : list item) (s : S) : outcome S :=
  match l with
  | [] => Ret s
  | i :: l => let! s := emit_item i s in emit_items l s
  end.
End emit.

(** Reading an item of the same kind ([Raw] is read with a known length). *)
Definition read_as {A} (f : A → item) (r : decoder A) : decoder item := λ d,
  let! (v, d) := r d in Ret (f v, d).

Definition read_item (shape : item) : decoder item :=
  match shape with
  | U8 _ => read_as U8 read_u8 | U16 _ => read_as U16 read_u16
  | U32 _ => read_as U32 read_u32 | U64 _ => read_as U64 read_u64
  | U128 _ => read_as U128 read_u128 | Usize _ => read_as Usize read_usize
  | I16 _ => read_as I16 read_i16 | I32 _ => read_as I32 read_i32
  | I64 _ => read_as I64 read_i64 | I128 _ => read_as I128 read_i128
  | Isize _ => read_as Isize read_isize
  | Raw bs => read_as Raw (read_raw_bytes (length bs))
  | Bytes _ => read_as Bytes decode_bytes
  end.

Fixpoint read_items (shapes : list item) : decoder (list item) := λ d,
  match shapes with
  | [] => Ret ([], d)
  | i :: shapes =>
      let! (v, d) := read_item i d in
      let! (l, d) := read_items shapes d in
      Ret (v :: l, d)
  end.

(** ** The wire format: each item has an encoding its reader inverts *)

Definition wire (i : item) (bs : list Z) : Prop :=
  ∀ d, at_bytes d bs → read_item i d = Ret (i, skip (length bs) d).

Lemma wire_unsigned (f : Z → item) w v bs :
  (∀ x, read_item (f x) = read_as f (read_unsigned_leb128 w)) →
  8 ≤ w → is_uint w v → write_unsigned_leb128 w v = Ret bs → wire (f v) bs.
Proof.
  intros Hf Hw Hv Hwr d Hd. rewrite Hf. unfold read_as.
  by rewrite (read_unsigned_leb128_at w v bs).
Qed.

Lemma wire_signed (f : Z → item) w v bs :
  (∀ x, read_item (f x) = read_as f (read_signed_leb128 w)) →
  0 < w → - 2 ^ (w - 1) ≤ v < 2 ^ (w - 1) → write_signed_leb128 w v = Ret bs → wire (f v) bs.
Proof.
  intros Hf Hw Hv Hwr d Hd. rewrite Hf. unfold read_as.
  by rewrite (read_signed_leb128_at w v bs).
Qed.

Lemma wire_bytes bs len :
  Z.of_nat (length bs) < 2 ^ 64 → write_unsigned_leb128 64 (Z.of_nat (length bs)) = Ret len →
  wire (Bytes bs) (len ++ bs).
Proof.
  intros Hl Hwr d [Hd1 Hd2]%at_bytes_app. cbn [read_item]. unfold read_as, decode_bytes, read_usize.
  rewrite (read_unsigned_leb128_at 64 (Z.of_nat (length bs)) len) by (done || lia). cbn [obind].
  rewrite Nat2Z.id, read_raw_bytes_at by done. cbn [obind].
  by rewrite skip_skip, length_app.
Qed.

Lemma write_unsigned_total w v :
  0 < w → is_uint w v → ∃ bs, write_unsigned_leb128 w v = Ret bs.
Proof. intros Hw Hv. destruct (write_unsigned_loop_ok w v) as (?&?&_); eauto. Qed.

Lemma write_signed_total w v :
  0 < w → - 2 ^ (w - 1) ≤ v < 2 ^ (w - 1) → ∃ bs, write_signed_leb128 w v = Ret bs.
Proof. intros Hw Hv. destruct (write_signed_loop_ok w v) as (?&?&_); eauto. Qed.

Section laws.
Context {S : Type} `{EncoderLaws S}.

Lemma appends_seq (op1 op2 : S → outcome S) bs1 bs2 :
  appends emitted op1 bs1 → appends emitted op2 bs2 →
  appends emitted (λ s, let! s := op1 s in op2 s) (bs1 ++ bs2).
Proof.
  intros H1 H2 s pre Hs. destruct (H1 s pre Hs) as (s1&->&Hs1). cbn [obind].
  destruct (H2 s1 _ Hs1) as (s2&->&Hs2). rewrite app_assoc. eauto.
Qed.

Lemma emit_item_wire i : item_ok i → ∃ bs, appends emitted (emit_item i) bs ∧ wire i bs.
Proof.
  destruct i; cbn [item_ok emit_item]; intros Hok.
  - exists [v]. split; [apply emit_u8_appends|].
    intros d Hd. cbn [read_item]. unfold read_as.
    by destruct (read_u8_at d v [] Hd) as [-> _].
  - eexists. split; [apply emit_u16_appends|]. intros d Hd. cbn [read_item]. unfold read_as.
    by rewrite (read_u16_at d v), length_to_le_bytes.
  - destruct (write_unsigned_total 32 v) as [bs Hb]; [lia|done|].
    exists bs. split; [by apply emit_u32_appends|by eapply (wire_unsigned U32)].
  - destruct (write_unsigned_total 64 v) as [bs Hb]; [lia|done|].
    exists bs. split; [by apply emit_u64_appends|by eapply (wire_unsigned U64)].
  - destruct (write_unsigned_total 128 v) as [bs Hb]; [lia|done|].
    exists bs. split; [by apply emit_u128_appends|by eapply (wire_unsigned U128)].
  - destruct (write_unsigned_total 64 v) as [bs Hb]; [lia|done|].
    exists bs. split; [by apply emit_usize_appends|by eapply (wire_unsigned Usize)].
  - eexists. split; [apply emit_i16_appends|]. intros d Hd. cbn [read_item]. unfold read_as.
    by rewrite (read_i16_at d v), length_to_le_bytes.
  - destruct (write_signed_total 32 v) as [bs Hb]; [lia|done|].
    exists bs. split; [by apply emit_i32_appends|by eapply (wire_signed I32 32)].
  - destruct (write_signed_total 64 v) as [bs Hb]; [lia|done|].
    exists bs. split; [by apply emit_i64_appends|by eapply (wire_signed I64 64)].
  - destruct (write_signed_total 128 v) as [bs Hb]; [lia|done|].
    exists bs. split; [by apply emit_i128_appends|by eapply (wire_signed I128 128)].
  - destruct (write_signed_total 64 v) as [bs Hb]; [lia|done|].
    exists bs. split; [by apply emit_isize_appends|by eapply (wire_signed Isize 64)].
  - exists bs. split; [apply emit_raw_bytes_appends|].
    intros d Hd. cbn [read_item]. unfold read_as. by rewrite read_raw_bytes_at.
  - destruct (write_unsigned_total 64 (Z.of_nat (length bs))) as [len Hb]; [lia|split; lia|].
    exists (len ++ bs). split; [|by apply wire_bytes].
    apply (appends_seq (emit_usize _)); [by apply emit_usize_appends|apply emit_raw_bytes_appends].
Qed.

Lemma emit_items_wire items : Forall item_ok items → ∃ bs,
  appends emitted (emit_items items) bs ∧
  ∀ d, at_bytes d bs → read_items items d = Ret (items, skip (length bs) d).
Proof.
  induction 1 as [|i items Hi _ IH].
  - exists []. split.
    + intros s pre Hs. rewrite app_nil_r. eauto.
    + intros d Hd. cbn. unfold skip. by rewrite Nat.add_0_r; destruct d.
  - destruct (emit_item_wire i Hi) as (bs1&Ha1&Hw1). destruct IH as (bs2&Ha2&Hw2).
    exists (bs1 ++ bs2). split; [by apply appends_seq|].
    intros d [Hd1 Hd2]%at_bytes_app. cbn [read_items]. rewrite Hw1 by done. cbn [obind].
    rewrite Hw2 by done. cbn [obind]. by rewrite skip_skip, length_app.
Qed.
End laws.

(** ** [FileEncoder] then [MemDecoder] *)

Import FileEncoder.

Lemma emit_item_healthy i (e e' : FileEncoder.t) : healthy e → emit_item i e = Ret e' → healthy e'.
Proof.
  destruct i; cbn;
    eauto using write_one_healthy, write_all_healthy, write_leb128_healthy.
  intros He Hr. inv_outcome. eauto using write_all_healthy, write_leb128_healthy.
Qed.

Lemma emit_items_healthy l (e e' : FileEncoder.t) : healthy e → emit_items l e = Ret e' → healthy e'.
Proof.
  revert e. induction l as [|i l IH]; intros e He Hr; cbn in Hr; inv_outcome; [done|].
  eauto using emit_item_healthy.
Qed.

(** ** Properties *)

(** C7. Whatever the operating system answers, emitting a sequence of items
    with [FileEncoder] never writes outside its buffer (it returns), and if
    [finish] reports success then the file holds exactly the emitted stream:
    its length is the reported count and [MemDecoder] reads the same items
    back from it, ending at its end. *)
Theorem file_encoder_roundtrip items garbage os :
  Forall item_ok items → length garbage = BUF_SIZE →
  ∃ e, emit_items items (FileEncoder.new garbage os) = Ret e ∧
       ∀ n e', finish e = (inl n, e') →
         n = length (FileEncoder.file e') ∧
         read_items items (MemDecoder.mk (FileEncoder.file e') 0)
         = Ret (items, MemDecoder.mk (FileEncoder.file e') n).
Proof.
  intros Hok Hg. destruct (emit_items_wire (S := FileEncoder.t) items Hok) as (bs&Happ&Hrd).
  destruct (Happ (FileEncoder.new garbage os) []) as (e&He&Hst); [by apply new_stands_for|].
  exists e. split; [done|]. intros n e' Hfin.
  apply (finish_spec _ bs) in Hfin as [-> ->]; [|done]. split; [done|].
  rewrite Hrd; [done|]. exists [], []. by rewrite app_nil_r.
Qed.

Lemma file_encoder_roundtrip_witness :
  ∃ e, emit_items [U16 513; Raw [1; 2]; I32 (-7); Bytes [255]]
         (FileEncoder.new (replicate BUF_SIZE 0) [WroteUpTo 3; Interrupted]) = Ret e ∧
       ∀ n e', finish e = (inl n, e') →
         n = length (FileEncoder.file e') ∧
         read_items [U16 513; Raw [1; 2]; I32 (-7); Bytes [255]]
           (MemDecoder.mk (FileEncoder.file e') 0)
         = Ret ([U16 513; Raw [1; 2]; I32 (-7); Bytes [255]],
                MemDecoder.mk (FileEncoder.file e') n).
Proof.
  apply file_encoder_roundtrip; [|by rewrite length_replicate].
  repeat constructor; vm_compute; congruence.
Defined.

(** C40. If every call of the operating system makes progress (it may interrupt
    and split writes, but neither fails nor answers zero), then encoding any
    sequence of items ends with [finish] reporting success: no spurious error
    is ever recorded. *)
Theorem file_encoder_succeeds items garbage os :
  Forall item_ok items → length garbage = BUF_SIZE → Forall progresses os →
  ∃ e n e', emit_items items (FileEncoder.new garbage os) = Ret e ∧ finish e = (inl n, e').
Proof.
  intros Hok Hg Hos. destruct (emit_items_wire (S := FileEncoder.t) items Hok) as (bs&Happ&_).
  destruct (Happ (FileEncoder.new garbage os) []) as (e&He&_); [by apply new_stands_for|].
  destruct (finish_healthy e) as (n&e'&Hfin); [|eauto].
  apply (emit_items_healthy items (FileEncoder.new garbage os)); done.
Qed.

Lemma file_encoder_succeeds_witness :
  ∃ e n e', emit_items [U64 1; I16 (-2)]
              (FileEncoder.new (replicate BUF_SIZE 0) [Interrupted; WroteUpTo 1]) = Ret e ∧
            finish e = (inl n, e').
Proof.
  apply file_encoder_succeeds; [|by rewrite length_replicate|].
  - repeat constructor; vm_compute; congruence.
  - repeat constructor. cbn. lia.
Defined.
