(* ===== verification/Chars.v ===== *)
(** Characters and strings: a Rust [char] is its code point, a [&str] the list
    of its chars.  [ch] and [str] turn Rocq character and string literals into
    those numbers when a definition is read. *)

From Stdlib Require Export Ascii.
From stdpp Require Export strings.
From S2P Require Import Prelude.

#[global] Open Scope Z_scope.

Definition code (a : ascii) : Z := Z.of_N (N_of_ascii a).
Fixpoint codes (s : string) : list Z :=
  match s with EmptyString => [] | String a s => code a :: codes s end.

Notation "'ch' a" := ltac:(let v := eval vm_compute in (code a%char) in exact v)
  (at level 10, a at level 0, only parsing) : rust_scope.
Notation "'str' a" := ltac:(let v := eval vm_compute in (codes a%string) in exact v)
  (at level 10, a at level 0, only parsing) : rust_scope.

(** A [char] is a Unicode scalar value. *)
Definition is_char (c : Z) : bool :=
  (0 <=? c) && (c <=? 0x10FFFF) && negb ((0xD800 <=? c) && (c <=? 0xDFFF)).

(** [char::len_utf8] *)
Definition len_utf8 (c : Z) : Z :=
  if c <? 0x80 then 1 else if c <? 0x800 then 2 else if c <? 0x10000 then 3 else 4.

(** [str::len]: the number of UTF-8 bytes *)
Fixpoint str_len (s : list Z) : Z :=
  match s with [] => 0 | c :: s => len_utf8 c + str_len s end.

(** [char::is_ascii] *)
Definition is_ascii (c : Z) : bool := c <? 0x80.
Definition is_ascii_digit (c : Z) : bool := (ch "0" <=? c) && (c <=? ch "9").
Definition is_ascii_lower (c : Z) : bool := (ch "a" <=? c) && (c <=? ch "z").
Definition is_ascii_upper (c : Z) : bool := (ch "A" <=? c) && (c <=? ch "Z").
Definition is_ascii_hexdigit (c : Z) : bool :=
  is_ascii_digit c || ((ch "a" <=? c) && (c <=? ch "f")) || ((ch "A" <=? c) && (c <=? ch "F")).

(** [char::to_digit(radix)] for [radix <= 36] *)
Definition to_digit (c radix : Z) : option Z :=
  let d := if is_ascii_digit c then c - ch "0"
           else if is_ascii_lower c then c - ch "a" + 10
           else if is_ascii_upper c then c - ch "A" + 10 else radix in
  if d <? radix then Some d else None.

(** [char::is_digit(10)] *)
Definition is_digit10 (c : Z) : bool := is_ascii_digit c.

Lemma len_utf8_pos c : 1 ≤ len_utf8 c ≤ 4.
Proof. unfold len_utf8. zcases; lia. Qed.

Lemma str_len_nonneg s : 0 ≤ str_len s.
Proof. induction s as [|c s IH]; cbn; [lia|]. pose proof (len_utf8_pos c). lia. Qed.
#[export] Hint Resolve str_len_nonneg : rust.

Lemma str_len_app s1 s2 : str_len (s1 ++ s2) = str_len s1 + str_len s2.
Proof. induction s1 as [|c s1 IH]; cbn; [done|]. rewrite IH. lia. Qed.

Lemma str_len_pos s : s ≠ [] → 0 < str_len s.
Proof.
  destruct s as [|c s]; [done|]. intros _. cbn.
  pose proof (len_utf8_pos c). pose proof (str_len_nonneg s). lia.
Qed.
