(* ===== verification/Lexer.v ===== *)
(** The low-level lexer, crate [rustc_lexer]: [cursor.rs] and [lib.rs].

    A [Cursor] is the remaining chars and the byte length they had when the
    current token began ([len_remaining]); the field [prev] exists only in
    builds with debug assertions and is left out with them.  The loops of the
    lexer consume the remaining chars, so they are structural recursions on
    that list: [first], [second] and [rest] are [Cursor::first],
    [Cursor::second] and what [Cursor::bump] leaves.  The crates [unicode_xid]
    and [unicode_properties] are the class [UnicodeTables]. *)

From S2P Require Import Prelude Chars.

(** ** Third-party character tables *)

Class UnicodeTables := {
  is_xid_start : Z → bool;
  is_xid_continue : Z → bool;
  is_emoji_char : Z → bool;
}.

(** Documented behaviour on ASCII (UAX 31): [XID_Start] is the letters,
    [XID_Continue] the letters, the digits and [_]. *)
Class UnicodeAscii `{UnicodeTables} : Prop := {
  xid_start_ascii c :
    0 ≤ c < 128 → is_xid_start c = is_ascii_lower c || is_ascii_upper c;
  xid_continue_ascii c :
    0 ≤ c < 128 →
    is_xid_continue c
    = is_ascii_lower c || is_ascii_upper c || is_ascii_digit c || (c =? ch "_");
}.

(** ** Tokens *)

Inductive DocStyle := Outer | Inner.

Inductive Base := Binary | Octal | Decimal | Hexadecimal.

(** [base as u32] *)
Definition base_value (b : Base) : Z :=
  match b with Binary => 2 | Octal => 8 | Decimal => 10 | Hexadecimal => 16 end.

Inductive LiteralKind :=
| Int (base : Base) (empty_int : bool)
| Float (base : Base) (empty_exponent : bool)
| Field (base : Base) (empty_field : bool)
| Char (terminated : bool)
| Byte (terminated : bool)
| Str (terminated : bool)
| ByteStr (terminated : bool)
| CStr (terminated : bool)
| RawStr (n_hashes : option Z)
| RawByteStr (n_hashes : option Z)
| RawCStr (n_hashes : option Z).

Inductive RawStrError :=
| InvalidStarter (bad_char : Z)
| NoTerminator (expected found : Z) (possible_terminator_offset : option Z)
| TooManyDelimiters (found : Z).

Inductive TokenKind :=
| LineComment (doc_style : option DocStyle)
| BlockComment (doc_style : option DocStyle) (terminated : bool)
| Whitespace
| Ident
| InvalidIdent
| RawIdent
| UnknownPrefix
| Literal (kind : LiteralKind) (suffix_start : Z)
| Lifetime (starts_with_number : bool)
| Semi | Comma | Dot | OpenParen | CloseParen | OpenBrace | CloseBrace
| OpenBracket | CloseBracket | At | Pound | Tilde | Question | Colon | Dollar
| Eq | Bang | Lt | Gt | Minus | And | Or | Plus | Star | Slash | Caret | Percent
| Unknown
| Eof.

#[global] Instance DocStyle_eq_dec : EqDecision DocStyle.
Proof. solve_decision. Defined.
#[global] Instance Base_eq_dec : EqDecision Base.
Proof. solve_decision. Defined.
#[global] Instance LiteralKind_eq_dec : EqDecision LiteralKind.
Proof. solve_decision. Defined.
#[global] Instance RawStrError_eq_dec : EqDecision RawStrError.
Proof. solve_decision. Defined.
#[global] Instance TokenKind_eq_dec : EqDecision TokenKind.
Proof. solve_decision. Defined.

Record Token := mkToken { kind : TokenKind; tok_len : Z }.

(** ** The cursor *)

Definition EOF_CHAR : Z := 0.

Definition first (chars : list Z) : Z :=
  match chars with [] => EOF_CHAR | c :: _ => c end.
Definition rest (chars : list Z) : list Z :=
  match chars with [] => chars | _ :: chars' => chars' end.
Definition second (chars : list Z) : Z := first (rest chars).
Definition is_eof (chars : list Z) : bool :=
  match chars with [] => true | _ => false end.

Record Cursor := mkCursor { len_remaining : Z; chars : list Z }.

Definition new_cursor (input : list Z) : Cursor := mkCursor (str_len input) input.

(** [pos_within_token]: a [usize] difference cast to [u32] *)
Definition pos_within_token (self : Cursor) : Z :=
  wrap 32 (len_remaining self - str_len (chars self)).

Definition reset_pos_within_token (self : Cursor) : Cursor :=
  mkCursor (str_len (chars self)) (chars self).

Definition set_chars (self : Cursor) (l : list Z) : Cursor :=
  mkCursor (len_remaining self) l.

Definition bump (self : Cursor) : option Z * Cursor :=
  match chars self with
  | [] => (None, self)
  | c :: l => (Some c, set_chars self l)
  end.

(** The loop of [eat_while]. *)
Fixpoint eat_while (predicate : Z → bool) (chars : list Z) : list Z :=
  match chars with
  | [] => chars
  | c :: chars' => if predicate c then eat_while predicate chars' else chars
  end.

(** ** Character classes *)

Definition is_whitespace (c : Z) : bool :=
  (c =? 0x0009) || (c =? 0x000A) || (c =? 0x000B) || (c =? 0x000C) || (c =? 0x000D)
  || (c =? 0x0020) || (c =? 0x0085) || (c =? 0x200E) || (c =? 0x200F)
  || (c =? 0x2028) || (c =? 0x2029).

Section lexer.
Context `{UnicodeTables}.

Definition is_id_start (c : Z) : bool := (c =? ch "_") || is_xid_start c.
Definition is_id_continue (c : Z) : bool := is_xid_continue c.

Definition is_ident (string : list Z) : bool :=
  match string with
  | [] => false
  | start :: chars => is_id_start start && forallb is_id_continue chars
  end.

(** ** Scanners on the remaining chars *)

Definition eat_identifier (chars : list Z) : list Z :=
  if negb (is_id_start (first chars)) then chars
  else eat_while is_id_continue (rest chars).

Definition eat_literal_suffix (chars : list Z) : list Z := eat_identifier chars.

Fixpoint eat_decimal_digits_loop (chars : list Z) (has_digits : bool) : bool * list Z :=
  match chars with
  | [] => (has_digits, chars)
  | c :: chars' =>
      if c =? ch "_" then eat_decimal_digits_loop chars' has_digits
      else if is_ascii_digit c then eat_decimal_digits_loop chars' true
      else (has_digits, chars)
  end.
Definition eat_decimal_digits (chars : list Z) : bool * list Z :=
  eat_decimal_digits_loop chars false.

Fixpoint eat_hexadecimal_digits_loop (chars : list Z) (has_digits : bool) : bool * list Z :=
  match chars with
  | [] => (has_digits, chars)
  | c :: chars' =>
      if c =? ch "_" then eat_hexadecimal_digits_loop chars' has_digits
      else if is_ascii_hexdigit c then eat_hexadecimal_digits_loop chars' true
      else (has_digits, chars)
  end.
Definition eat_hexadecimal_digits (chars : list Z) : bool * list Z :=
  eat_hexadecimal_digits_loop chars false.

Definition eat_float_exponent (chars : list Z) : bool * list Z :=
  eat_decimal_digits
    (if (first chars =? ch "-") || (first chars =? ch "+") then rest chars else chars).

(** [line_comment] *)
Definition line_comment (chars : list Z) : TokenKind * list Z :=
  let chars := rest chars in
  let doc_style :=
    if first chars =? ch "!" then Some Inner
    else if (first chars =? ch "/") && negb (second chars =? ch "/") then Some Outer
    else None in
  (LineComment doc_style, eat_while (λ c, negb (c =? 10)) chars).

Fixpoint block_comment_loop (chars : list Z) (depth : Z) : Z * list Z :=
  match chars with
  | [] => (depth, chars)
  | c :: chars =>
      if (c =? ch "/") && (first chars =? ch "*") then
        block_comment_loop (rest chars) (depth + 1)
      else if (c =? ch "*") && (first chars =? ch "/") then
        if depth - 1 =? 0 then (depth - 1, rest chars)
        else block_comment_loop (rest chars) (depth - 1)
      else block_comment_loop chars depth
  end.

Definition block_comment (chars : list Z) : TokenKind * list Z :=
  let chars := rest chars in
  let doc_style :=
    if first chars =? ch "!" then Some Inner
    else if (first chars =? ch "*")
            && negb ((second chars =? ch "*") || (second chars =? ch "/")) then Some Outer
    else None in
  let '(depth, chars) := block_comment_loop chars 1 in
  (BlockComment doc_style (depth =? 0), chars).

Definition whitespace (chars : list Z) : TokenKind * list Z :=
  (Whitespace, eat_while is_whitespace chars).

Definition raw_ident (chars : list Z) : TokenKind * list Z :=
  (RawIdent, eat_identifier (rest chars)).

(** The prefixes [#], double quote and single quote. *)
Definition is_prefix_end (c : Z) : bool := (c =? ch "#") || (c =? 34) || (c =? ch "'").

Definition is_fake_ident_continue (c : Z) : bool :=
  is_xid_continue c || (negb (is_ascii c) && is_emoji_char c) || (c =? 0x200d).

Definition fake_ident_or_unknown_prefix (chars : list Z) : TokenKind * list Z :=
  let chars := eat_while is_fake_ident_continue chars in
  (if is_prefix_end (first chars) then UnknownPrefix else InvalidIdent, chars).

Definition ident_or_unknown_prefix (chars : list Z) : TokenKind * list Z :=
  let chars := eat_while is_id_continue chars in
  if is_prefix_end (first chars) then (UnknownPrefix, chars)
  else if negb (is_ascii (first chars)) && is_emoji_char (first chars)
  then fake_ident_or_unknown_prefix chars
  else (Ident, chars).

Fixpoint single_quoted_loop (chars : list Z) : bool * list Z :=
  match chars with
  | [] => (false, chars)
  | c :: chars' =>
      if c =? ch "'" then (true, chars')
      else if c =? ch "/" then (false, chars)
      else if (c =? 10) && negb (first chars' =? ch "'") then (false, chars)
      else if c =? ch "\" then single_quoted_loop (rest chars')
      else single_quoted_loop chars'
  end.

Definition single_quoted_string (chars : list Z) : bool * list Z :=
  if (second chars =? ch "'") && negb (first chars =? ch "\")
  then (true, rest (rest chars))
  else single_quoted_loop chars.

Fixpoint double_quoted_string (chars : list Z) : bool * list Z :=
  match chars with
  | [] => (false, chars)
  | c :: chars =>
      if c =? 34 then (true, chars)
      else if (c =? ch "\") && ((first chars =? ch "\") || (first chars =? 34))
      then double_quoted_string (rest chars)
      else double_quoted_string chars
  end.

(** ** Raw strings *)

(** [while self.first() == '#'] *)
Fixpoint eat_start_hashes (chars : list Z) : Z * list Z :=
  match chars with
  | [] => (0, chars)
  | c :: chars' =>
      if c =? ch "#" then let '(n, l) := eat_start_hashes chars' in (n + 1, l)
      else (0, chars)
  end.

(** [while self.first() == '#' && n_end_hashes < n_start_hashes] *)
Fixpoint eat_end_hashes (chars : list Z) (n_end n_start : Z) : Z * list Z :=
  match chars with
  | [] => (n_end, chars)
  | c :: chars' =>
      if (c =? ch "#") && (n_end <? n_start)
      then eat_end_hashes chars' (n_end + 1) n_start
      else (n_end, chars)
  end.

(** The loop of [raw_string_unvalidated]; every round eats a double quote, so
    the fuel [S (length chars)] is not used up. *)
Fixpoint raw_string_loop (fuel : nat) (self : Cursor)
    (start_pos prefix_len n_start max_hashes : Z) (offset : option Z)
    : outcome ((Z + RawStrError) * Cursor) :=
  match fuel with
  | O => Panic
  | S fuel =>
      let self := set_chars self (eat_while (λ c, negb (c =? 34)) (chars self)) in
      if is_eof (chars self) then Ret (inr (NoTerminator n_start max_hashes offset), self)
      else
        let '(n_end, l) := eat_end_hashes (rest (chars self)) 0 n_start in
        let self := set_chars self l in
        if n_end =? n_start then Ret (inl n_start, self)
        else if max_hashes <? n_end then
          raw_string_loop fuel self start_pos prefix_len n_start n_end
            (Some (pos_within_token self - start_pos - n_end + prefix_len))
        else raw_string_loop fuel self start_pos prefix_len n_start max_hashes offset
  end.

Definition raw_string_unvalidated (prefix_len : Z) (self : Cursor)
    : outcome ((Z + RawStrError) * Cursor) :=
  let start_pos := pos_within_token self in
  let '(n_start, l) := eat_start_hashes (chars self) in
  let self := set_chars self l in
  let '(c, self) := bump self in
  if negb (bool_decide (c = Some 34))
  then Ret (inr (InvalidStarter (default EOF_CHAR c)), self)
  else raw_string_loop (S (length (chars self))) self start_pos prefix_len n_start 0 None.

Definition raw_double_quoted_string (prefix_len : Z) (self : Cursor)
    : outcome ((Z + RawStrError) * Cursor) :=
  let! (r, self) := raw_string_unvalidated prefix_len self in
  Ret (match r with
       | inl n => if n <=? 255 then inl n else inr (TooManyDelimiters n)
       | inr e => inr e
       end, self).

Definition ok_of (r : Z + RawStrError) : option Z :=
  match r with inl n => Some n | inr _ => None end.

(** ** Numbers *)

(** What [number] returns after an empty digit string behind a base prefix. *)
Definition empty_number (base : Base) (chars : list Z) : LiteralKind :=
  if (first chars =? ch "g") || (first chars =? ch "G")
  then Field base true else Int base true.

(** The part of [number] after the digits. *)
Definition number_tail (base : Base) (chars : list Z) : LiteralKind * list Z :=
  if (first chars =? ch ".") && negb (second chars =? ch ".")
     && negb (is_id_start (second chars)) then
    let chars := rest chars in
    if is_digit10 (first chars) then
      let chars := snd (eat_decimal_digits chars) in
      if (first chars =? ch "e") || (first chars =? ch "E") then
        let '(ok, chars) := eat_float_exponent (rest chars) in
        (Float base (negb ok), chars)
      else (Float base false, chars)
    else (Float base false, chars)
  else if (first chars =? ch "e") || (first chars =? ch "E") then
    let '(ok, chars) := eat_float_exponent (rest chars) in
    (Float base (negb ok), chars)
  else if (first chars =? ch "g") || (first chars =? ch "G") then (Field base false, chars)
  else (Int base false, chars).

Definition number (first_digit : Z) (chars : list Z) : LiteralKind * list Z :=
  if first_digit =? ch "0" then
    if first chars =? ch "b" then
      let '(has_digits, chars) := eat_decimal_digits (rest chars) in
      if negb has_digits then (empty_number Binary chars, chars)
      else number_tail Binary chars
    else if first chars =? ch "o" then
      let '(has_digits, chars) := eat_decimal_digits (rest chars) in
      if negb has_digits then (empty_number Octal chars, chars)
      else number_tail Octal chars
    else if first chars =? ch "x" then
      let '(has_digits, chars) := eat_hexadecimal_digits (rest chars) in
      if negb has_digits then (empty_number Hexadecimal chars, chars)
      else number_tail Hexadecimal chars
    else if is_ascii_digit (first chars) || (first chars =? ch "_") then
      number_tail Decimal (snd (eat_decimal_digits chars))
    else if (first chars =? ch ".") || (first chars =? ch "e") || (first chars =? ch "E") then
      number_tail Decimal chars
    else if (first chars =? ch "g") || (first chars =? ch "G") then
      (Field Decimal false, chars)
    else (Int Decimal false, chars)
  else number_tail Decimal (snd (eat_decimal_digits chars)).

(** ** Literals with a suffix *)

(** Finishes a quoted literal: the suffix is eaten only after a terminated one. *)
Definition quoted_literal (mk : bool → LiteralKind) (self : Cursor)
    (scanned : bool * list Z) : TokenKind * Cursor :=
  let '(terminated, l) := scanned in
  let self := set_chars self l in
  let suffix_start := pos_within_token self in
  let self := if terminated then set_chars self (eat_literal_suffix (chars self)) else self in
  (Literal (mk terminated) suffix_start, self).

Definition raw_literal (mk : option Z → LiteralKind) (prefix_len : Z) (self : Cursor)
    : outcome (TokenKind * Cursor) :=
  let! (r, self) := raw_double_quoted_string prefix_len self in
  let suffix_start := pos_within_token self in
  let self := match r with
              | inl _ => set_chars self (eat_literal_suffix (chars self))
              | inr _ => self
              end in
  Ret (Literal (mk (ok_of r)) suffix_start, self).

Definition lift (self : Cursor) (r : TokenKind * list Z) : TokenKind * Cursor :=
  (fst r, set_chars self (snd r)).

Definition c_or_byte_string (mk_kind : bool → LiteralKind)
    (mk_kind_raw : option Z → LiteralKind) (single_quoted : option (bool → LiteralKind))
    (self : Cursor) : outcome (TokenKind * Cursor) :=
  let l := chars self in
  match single_quoted with
  | Some mk_single =>
      if first l =? ch "'"
      then Ret (quoted_literal mk_single self (single_quoted_string (rest l)))
      else if first l =? 34
      then Ret (quoted_literal mk_kind self (double_quoted_string (rest l)))
      else if (first l =? ch "r") && ((second l =? 34) || (second l =? ch "#"))
      then raw_literal mk_kind_raw 2 (set_chars self (rest l))
      else Ret (lift self (ident_or_unknown_prefix l))
  | None =>
      if first l =? 34
      then Ret (quoted_literal mk_kind self (double_quoted_string (rest l)))
      else if (first l =? ch "r") && ((second l =? 34) || (second l =? ch "#"))
      then raw_literal mk_kind_raw 2 (set_chars self (rest l))
      else Ret (lift self (ident_or_unknown_prefix l))
  end.

Definition lifetime_or_char (self : Cursor) : TokenKind * Cursor :=
  let l := chars self in
  let can_be_a_lifetime :=
    if second l =? ch "'" then false
    else is_id_start (first l) || is_digit10 (first l) in
  if negb can_be_a_lifetime
  then quoted_literal Char self (single_quoted_string l)
  else
    let starts_with_number := is_digit10 (first l) in
    let l := eat_while is_id_continue (rest l) in
    if first l =? ch "'" then
      let self := set_chars self (rest l) in
      (Literal (Char true) (pos_within_token self), self)
    else (Lifetime starts_with_number, set_chars self l).

Definition number_literal (c : Z) (self : Cursor) : TokenKind * Cursor :=
  let '(literal_kind, l) := number c (chars self) in
  let self := set_chars self l in
  let suffix_start := pos_within_token self in
  (Literal literal_kind suffix_start, set_chars self (eat_literal_suffix (chars self))).

(** The arms of [advance_token] for one-symbol tokens. *)
Definition one_symbol (c : Z) : option TokenKind :=
  if c =? ch ";" then Some Semi else if c =? ch "," then Some Comma
  else if c =? ch "." then Some Dot else if c =? ch "(" then Some OpenParen
  else if c =? ch ")" then Some CloseParen else if c =? ch "{" then Some OpenBrace
  else if c =? ch "}" then Some CloseBrace else if c =? ch "[" then Some OpenBracket
  else if c =? ch "]" then Some CloseBracket else if c =? ch "@" then Some At
  else if c =? ch "#" then Some Pound else if c =? ch "~" then Some Tilde
  else if c =? ch "?" then Some Question else if c =? ch ":" then Some Colon
  else if c =? ch "$" then Some Dollar else if c =? ch "=" then Some Eq
  else if c =? ch "!" then Some Bang else if c =? ch "<" then Some Lt
  else if c =? ch ">" then Some Gt else if c =? ch "-" then Some Minus
  else if c =? ch "&" then Some And else if c =? ch "|" then Some Or
  else if c =? ch "+" then Some Plus else if c =? ch "*" then Some Star
  else if c =? ch "^" then Some Caret else if c =? ch "%" then Some Percent
  else None.

(** The [match first_char] of [advance_token]. *)
Definition token_kind (c : Z) (self : Cursor) : outcome (TokenKind * Cursor) :=
  let l := chars self in
  if c =? ch "/" then
    Ret (lift self (if first l =? ch "/" then line_comment l
                    else if first l =? ch "*" then block_comment l
                    else (Slash, l)))
  else if is_whitespace c then Ret (lift self (whitespace l))
  else if c =? ch "r" then
    if (first l =? ch "#") && is_id_start (second l) then Ret (lift self (raw_ident l))
    else if (first l =? ch "#") || (first l =? 34) then raw_literal RawStr 1 self
    else Ret (lift self (ident_or_unknown_prefix l))
  else if c =? ch "b" then c_or_byte_string ByteStr RawByteStr (Some Byte) self
  else if c =? ch "c" then c_or_byte_string CStr RawCStr None self
  else if is_id_start c then Ret (lift self (ident_or_unknown_prefix l))
  else if is_ascii_digit c then Ret (number_literal c self)
  else match one_symbol c with
  | Some k => Ret (k, self)
  | None =>
      if c =? ch "'" then Ret (lifetime_or_char self)
      else if c =? 34 then Ret (quoted_literal Str self (double_quoted_string l))
      else if negb (is_ascii c) && is_emoji_char c
      then Ret (lift self (fake_ident_or_unknown_prefix l))
      else Ret (Unknown, self)
  end.

Definition advance_token (self : Cursor) : outcome (Token * Cursor) :=
  match bump self with
  | (None, self) => Ret (mkToken Eof 0, self)
  | (Some first_char, self) =>
      let! (k, self) := token_kind first_char self in
      Ret (mkToken k (pos_within_token self), reset_pos_within_token self)
  end.

(** [tokenize]: the tokens until [Eof]; a token eats a char, so the fuel
    [S (length input)] is not used up. *)
Fixpoint tokenize_loop (fuel : nat) (self : Cursor) : outcome (list Token) :=
  match fuel with
  | O => Panic
  | S fuel =>
      let! (token, self) := advance_token self in
      if bool_decide (kind token = Eof) then Ret []
      else let! tokens := tokenize_loop fuel self in Ret (token :: tokens)
  end.

Definition tokenize (input : list Z) : outcome (list Token) :=
  tokenize_loop (S (length input)) (new_cursor input).

(** [validate_raw_str]: [prefix_len] unwrapping bumps, then the raw string. *)
Fixpoint bump_n (n : nat) (self : Cursor) : outcome Cursor :=
  match n with
  | O => Ret self
  | S n => match bump self with (None, _) => Panic | (Some _, self) => bump_n n self end
  end.

Definition validate_raw_str (input : list Z) (prefix_len : nat)
    : outcome (unit + RawStrError) :=
  let! cursor := bump_n prefix_len (new_cursor input) in
  let! (r, _) := raw_double_quoted_string (Z.of_nat prefix_len) cursor in
  Ret (match r with inl _ => inl tt | inr e => inr e end).

(** [input_tail.lines().next().unwrap_or_default()] *)
Fixpoint until_newline (s : list Z) : list Z :=
  match s with [] => [] | c :: s => if c =? 10 then [] else c :: until_newline s end.
Definition strip_cr (line : list Z) : list Z :=
  match reverse line with c :: l => if c =? 13 then reverse l else line | [] => line end.
(** [lines] strips a carriage return only in front of a newline. *)
Definition first_line (s : list Z) : list Z :=
  let line := until_newline s in
  if (length line <? length s)%nat then strip_cr line else line.

Definition is_trivia (k : TokenKind) : bool :=
  match k with
  | Whitespace | LineComment None | BlockComment None _ => true
  | _ => false
  end.

Definition strip_shebang (input : list Z) : outcome (option Z) :=
  match input with
  | c1 :: c2 :: input_tail =>
      if (c1 =? ch "#") && (c2 =? ch "!") then
        let! tokens := tokenize input_tail in
        let next := List.find (λ k, negb (is_trivia k)) (kind <$> tokens) in
        if negb (bool_decide (next = Some OpenBracket))
        then Ret (Some (2 + str_len (first_line input_tail)))
        else Ret None
      else Ret None
  | _ => Ret None
  end.

(** ** Scanners only move forward *)

Lemma rest_suffix l : rest l `suffix_of` l.
Proof. destruct l as [|c l]; cbn; [done|]. by apply suffix_cons_r. Qed.

Lemma eat_while_suffix p l : eat_while p l `suffix_of` l.
Proof.
  induction l as [|c l IH]; cbn; [done|]. destruct (p c); [by apply suffix_cons_r|done].
Qed.

Lemma eat_while_split p l : ∃ pre, l = pre ++ eat_while p l ∧ forallb p pre = true.
Proof.
  induction l as [|c l IH]; cbn; [by exists []|]. destruct (p c) eqn:E; [|by exists []].
  destruct IH as (pre&Hl&Hp). exists (c :: pre). cbn. by rewrite E, <- Hl.
Qed.

Lemma eat_identifier_suffix l : eat_identifier l `suffix_of` l.
Proof.
  unfold eat_identifier. destruct (negb _); [done|].
  etrans; [apply eat_while_suffix|apply rest_suffix].
Qed.

Lemma eat_decimal_digits_loop_suffix l b : snd (eat_decimal_digits_loop l b) `suffix_of` l.
Proof.
  revert b; induction l as [|c l IH]; intros b; cbn; [done|].
  destruct (c =? _), (is_ascii_digit c); try by apply suffix_cons_r. done.
Qed.

Lemma eat_hexadecimal_digits_loop_suffix l b :
  snd (eat_hexadecimal_digits_loop l b) `suffix_of` l.
Proof.
  revert b; induction l as [|c l IH]; intros b; cbn; [done|].
  destruct (c =? _), (is_ascii_hexdigit c); try by apply suffix_cons_r. done.
Qed.

Lemma eat_decimal_digits_suffix l : snd (eat_decimal_digits l) `suffix_of` l.
Proof. apply eat_decimal_digits_loop_suffix. Qed.

Lemma eat_float_exponent_suffix l : snd (eat_float_exponent l) `suffix_of` l.
Proof.
  unfold eat_float_exponent. etrans; [apply eat_decimal_digits_suffix|].
  destruct (_ || _); [apply rest_suffix|done].
Qed.

Lemma block_comment_loop_suffix_aux n l d :
  (length l <= n)%nat → snd (block_comment_loop l d) `suffix_of` l.
Proof.
  revert l d; induction n as [|n IH]; intros [|c l] d Hn; cbn in *; try lia; try done.
  assert (length (rest l) <= n)%nat by (destruct l; cbn in *; lia).
  assert (∀ x, snd (block_comment_loop (rest l) x) `suffix_of` c :: l) as Hrest.
  { intros x. apply suffix_cons_r. etrans; [by apply IH|apply rest_suffix]. }
  destruct ((c =? _) && _); [done|]. destruct ((c =? _) && _).
  - destruct (_ =? 0); [|done]. apply suffix_cons_r, rest_suffix.
  - apply suffix_cons_r, IH. lia.
Qed.

Lemma single_quoted_loop_suffix_aux n l :
  (length l <= n)%nat → snd (single_quoted_loop l) `suffix_of` l.
Proof.
  revert l; induction n as [|n IH]; intros [|c l] Hn; cbn in *; try lia; try done.
  assert (length (rest l) <= n)%nat by (destruct l; cbn in *; lia).
  destruct (c =? ch "'"); [by apply suffix_cons_r|].
  destruct (c =? ch "/"); [done|]. destruct ((c =? 10) && _); [done|].
  destruct (c =? ch "\"); apply suffix_cons_r.
  - etrans; [by apply IH|apply rest_suffix].
  - apply IH. lia.
Qed.

Lemma double_quoted_string_suffix_aux n l :
  (length l <= n)%nat → snd (double_quoted_string l) `suffix_of` l.
Proof.
  revert l; induction n as [|n IH]; intros [|c l] Hn; cbn in *; try lia; try done.
  assert (length (rest l) <= n)%nat by (destruct l; cbn in *; lia).
  destruct (c =? 34); [by apply suffix_cons_r|].
  destruct ((c =? _) && _); apply suffix_cons_r.
  - etrans; [by apply IH|apply rest_suffix].
  - apply IH. lia.
Qed.

Lemma single_quoted_string_suffix l : snd (single_quoted_string l) `suffix_of` l.
Proof.
  unfold single_quoted_string. destruct (_ && _); cbn.
  - etrans; apply rest_suffix.
  - by eapply single_quoted_loop_suffix_aux.
Qed.

Lemma double_quoted_string_suffix l : snd (double_quoted_string l) `suffix_of` l.
Proof. by eapply double_quoted_string_suffix_aux. Qed.

Lemma line_comment_suffix l : snd (line_comment l) `suffix_of` l.
Proof. cbn. etrans; [apply eat_while_suffix|apply rest_suffix]. Qed.

Lemma block_comment_suffix l : snd (block_comment l) `suffix_of` l.
Proof.
  unfold block_comment. pose proof (block_comment_loop_suffix_aux _ (rest l) 1 (le_n _)) as Hs.
  destruct (block_comment_loop _ _). cbn in *. etrans; [done|apply rest_suffix].
Qed.

Lemma ident_or_unknown_prefix_suffix l : snd (ident_or_unknown_prefix l) `suffix_of` l.
Proof.
  unfold ident_or_unknown_prefix. destruct (is_prefix_end _); [apply eat_while_suffix|].
  destruct (_ && _); [|apply eat_while_suffix].
  cbn. etrans; apply eat_while_suffix.
Qed.

Lemma number_tail_suffix b l : snd (number_tail b l) `suffix_of` l.
Proof.
  unfold number_tail.
  assert (∀ l', snd (let '(ok, chars) := eat_float_exponent (rest l') in
                     (Float b (negb ok), chars)) `suffix_of` l') as Hexp.
  { intros l'. pose proof (eat_float_exponent_suffix (rest l')).
    destruct (eat_float_exponent _). cbn in *. etrans; [done|apply rest_suffix]. }
  destruct (_ && _).
  - destruct (is_digit10 _); [|apply rest_suffix].
    assert (snd (eat_decimal_digits (rest l)) `suffix_of` l)
      by (etrans; [apply eat_decimal_digits_suffix|apply rest_suffix]).
    destruct (_ || _); [|done]. etrans; [apply Hexp|done].
  - destruct (_ || _); [apply Hexp|]. destruct (_ || _); done.
Qed.

Lemma number_suffix d l : snd (number d l) `suffix_of` l.
Proof.
  unfold number.
  assert (∀ b (f : list Z → bool * list Z), snd (f (rest l)) `suffix_of` rest l →
    snd (let '(has_digits, chars) := f (rest l) in
         if negb has_digits then (empty_number b chars, chars) else number_tail b chars)
    `suffix_of` l) as Hpre.
  { intros b f Hf. destruct (f (rest l)) as [hd l']. cbn in Hf.
    assert (l' `suffix_of` l) by (etrans; [done|apply rest_suffix]).
    destruct (negb hd); cbn; [done|]. etrans; [apply number_tail_suffix|done]. }
  assert (snd (number_tail Decimal (snd (eat_decimal_digits l))) `suffix_of` l)
    by (etrans; [apply number_tail_suffix|apply eat_decimal_digits_suffix]).
  destruct (d =? _); [|done].
  destruct (_ =? _); [apply (Hpre Binary eat_decimal_digits), eat_decimal_digits_suffix|].
  destruct (_ =? _); [apply (Hpre Octal eat_decimal_digits), eat_decimal_digits_suffix|].
  destruct (_ =? _);
    [apply (Hpre Hexadecimal eat_hexadecimal_digits), eat_hexadecimal_digits_loop_suffix|].
  destruct (_ || _); [done|]. destruct (_ || _ || _); [apply number_tail_suffix|].
  by destruct (_ || _).
Qed.

Lemma eat_start_hashes_suffix l : snd (eat_start_hashes l) `suffix_of` l.
Proof.
  induction l as [|c l IH]; cbn; [done|]. destruct (c =? _); [|done].
  destruct (eat_start_hashes l). by apply suffix_cons_r.
Qed.

Lemma eat_end_hashes_suffix l n m : snd (eat_end_hashes l n m) `suffix_of` l.
Proof.
  revert n; induction l as [|c l IH]; intros n; cbn; [done|].
  destruct (_ && _); [by apply suffix_cons_r|done].
Qed.

Lemma eat_identifier_split l :
  ∃ sfx, l = sfx ++ eat_identifier l ∧ (sfx = [] ∨ is_ident sfx = true).
Proof.
  unfold eat_identifier. destruct (is_id_start (first l)) eqn:E; cbn; [|by exists []; eauto].
  destruct l as [|c l]; cbn in *; [by exists []; eauto|].
  destruct (eat_while_split is_id_continue l) as (pre&Hl&Hp).
  exists (c :: pre). cbn. rewrite E, Hp, <- Hl. eauto.
Qed.

(** [self'] is [self] further on in the same token. *)
Definition moves (self self' : Cursor) : Prop :=
  len_remaining self' = len_remaining self ∧ chars self' `suffix_of` chars self.

#[global] Instance moves_preorder : PreOrder moves.
Proof.
  split.
  - intros self. done.
  - intros s1 s2 s3 [H1 H1'] [H2 H2']. split; [congruence|]. by etrans.
Qed.

Lemma moves_set_chars self l : l `suffix_of` chars self → moves self (set_chars self l).
Proof. done. Qed.

Lemma rest_shorter l : is_eof l = false → (length (rest l) < length l)%nat.
Proof. destruct l; cbn; [done|lia]. Qed.

Lemma raw_string_loop_total fuel self sp pl ns mh off :
  (length (chars self) < fuel)%nat →
  ∃ r self', raw_string_loop fuel self sp pl ns mh off = Ret (r, self') ∧ moves self self'.
Proof.
  revert self mh off; induction fuel as [|fuel IH]; intros self mh off Hf; [lia|].
  cbn [raw_string_loop]. set (l := eat_while _ (chars self)).
  assert (l `suffix_of` chars self) as Hl by apply eat_while_suffix.
  cbn [set_chars chars]. destruct (is_eof l) eqn:Eof; [eauto using moves_set_chars|].
  pose proof (eat_end_hashes_suffix (rest l) 0 ns) as Hs.
  destruct (eat_end_hashes (rest l) 0 ns) as [n_end l2]. cbn in Hs.
  assert (l2 `suffix_of` chars self) as Hl2
    by (etrans; [done|]; etrans; [apply rest_suffix|done]).
  assert (length l2 < fuel)%nat as Hlen.
  { apply suffix_length in Hs, Hl. pose proof (rest_shorter l Eof). lia. }
  destruct (n_end =? ns); [by do 2 eexists|].
  cbv zeta. destruct (mh <? n_end);
    match goal with |- context [raw_string_loop fuel ?s _ _ _ ?m ?o] =>
      destruct (IH s m o Hlen) as (r&self'&->&Hm) end;
    exists r, self'; (split; [done|]); by etrans; [|done].
Qed.

Lemma raw_double_quoted_string_total pl self :
  ∃ r self', raw_double_quoted_string pl self = Ret (r, self') ∧ moves self self'.
Proof.
  unfold raw_double_quoted_string, raw_string_unvalidated.
  pose proof (eat_start_hashes_suffix (chars self)) as Hs.
  destruct (eat_start_hashes (chars self)) as [n l]. cbn in Hs.
  destruct l as [|c l]; cbn; [eauto using moves_set_chars|].
  assert (moves self (set_chars self l)) as Hm
    by (apply moves_set_chars; etrans; [|done]; by apply suffix_cons_r).
  destruct (negb _); cbn [obind]; [eauto|].
  edestruct (raw_string_loop_total (S (length l)) (set_chars self l)) as (r&self'&E&Hm');
    [cbn; lia|].
  cbn in E. unfold set_chars in *. cbn in *. rewrite E. cbn [obind].
  do 2 eexists. split; [done|]. by etrans.
Qed.

(** What one arm of [advance_token] returns: a kind other than [Eof], a cursor
    further on, and for a literal the position where its suffix starts, the
    suffix being empty or an identifier. *)
Definition arm_ok (self : Cursor) (k : TokenKind) (self' : Cursor) : Prop :=
  moves self self' ∧ k ≠ Eof ∧
  ∀ lk s, k = Literal lk s →
    ∃ self1 sfx, moves self self1 ∧ s = pos_within_token self1 ∧
      chars self1 = sfx ++ chars self' ∧ (sfx = [] ∨ is_ident sfx = true).

Lemma arm_lift self (r : TokenKind * list Z) :
  snd r `suffix_of` chars self → fst r ≠ Eof → (∀ lk s, fst r ≠ Literal lk s) →
  arm_ok self (fst (lift self r)) (snd (lift self r)).
Proof.
  intros Hs He Hl. split_and!; [by apply moves_set_chars|done|].
  intros lk s E. by apply Hl in E.
Qed.

Lemma arm_with_suffix self self1 lk :
  moves self self1 →
  arm_ok self (Literal lk (pos_within_token self1))
    (set_chars self1 (eat_literal_suffix (chars self1))).
Proof.
  intros Hm. split_and!; [|done|].
  - etrans; [done|]. apply moves_set_chars, eat_identifier_suffix.
  - intros lk' s [= <- <-]. destruct (eat_identifier_split (chars self1)) as (sfx&Hc&Hid).
    by exists self1, sfx.
Qed.

Lemma arm_no_suffix self self1 lk :
  moves self self1 → arm_ok self (Literal lk (pos_within_token self1)) self1.
Proof.
  intros Hm. split_and!; [done|done|]. intros lk' s [= <- <-].
  exists self1, []. by eauto.
Qed.

Lemma quoted_literal_ok mk self (scanned : bool * list Z) :
  snd scanned `suffix_of` chars self →
  arm_ok self (fst (quoted_literal mk self scanned)) (snd (quoted_literal mk self scanned)).
Proof.
  destruct scanned as [[] l]; cbn -[arm_ok eat_literal_suffix]; intros Hs.
  - by apply (arm_with_suffix self (set_chars self l)), moves_set_chars.
  - by apply arm_no_suffix, moves_set_chars.
Qed.

Lemma raw_literal_ok mk pl self0 self :
  moves self0 self →
  ∃ k self', raw_literal mk pl self = Ret (k, self') ∧ arm_ok self0 k self'.
Proof.
  intros H0. unfold raw_literal.
  destruct (raw_double_quoted_string_total pl self) as (r&self1&->&Hm). cbn [obind].
  do 2 eexists. split; [done|]. assert (moves self0 self1) by (by etrans).
  destruct r; [by apply arm_with_suffix|by apply arm_no_suffix].
Qed.

Lemma number_literal_ok c self :
  arm_ok self (fst (number_literal c self)) (snd (number_literal c self)).
Proof.
  unfold number_literal. pose proof (number_suffix c (chars self)) as Hs.
  destruct (number c (chars self)) as [lk l]. cbn in Hs.
  by apply (arm_with_suffix self (set_chars self l)), moves_set_chars.
Qed.

Lemma lifetime_or_char_ok self :
  arm_ok self (fst (lifetime_or_char self)) (snd (lifetime_or_char self)).
Proof.
  unfold lifetime_or_char.
  destruct (negb _); [apply quoted_literal_ok, single_quoted_string_suffix|].
  set (l := eat_while is_id_continue (rest (chars self))).
  assert (l `suffix_of` chars self) by (etrans; [apply eat_while_suffix|apply rest_suffix]).
  destruct (first l =? ch "'"); cbn [fst snd].
  - apply arm_no_suffix, moves_set_chars. by etrans; [apply rest_suffix|].
  - by split_and!; [apply moves_set_chars|..].
Qed.

Lemma ident_kind l :
  fst (ident_or_unknown_prefix l) ≠ Eof ∧ ∀ lk s, fst (ident_or_unknown_prefix l) ≠ Literal lk s.
Proof.
  unfold ident_or_unknown_prefix, fake_ident_or_unknown_prefix.
  repeat case_match; simplify_eq; done.
Qed.

(** Arms that return [Ret (k, self')] outright. *)
Lemma arm_ret self (r : TokenKind * Cursor) :
  arm_ok self (fst r) (snd r) → ∃ k self', Ret r = Ret (k, self') ∧ arm_ok self k self'.
Proof. destruct r. eauto. Qed.

Lemma ident_ok self :
  ∃ k self', Ret (lift self (ident_or_unknown_prefix (chars self))) = Ret (k, self')
             ∧ arm_ok self k self'.
Proof.
  apply arm_ret. destruct (ident_kind (chars self)).
  by apply arm_lift; [apply ident_or_unknown_prefix_suffix|..].
Qed.

Lemma c_or_byte_string_ok mk mk_raw mk_single self :
  ∃ k self', c_or_byte_string mk mk_raw mk_single self = Ret (k, self') ∧ arm_ok self k self'.
Proof.
  assert (∀ b (f : list Z → bool * list Z) m,
    (∀ l, snd (f l) `suffix_of` l) → b = true →
    ∃ k self', Ret (quoted_literal m self (f (rest (chars self)))) = Ret (k, self')
               ∧ arm_ok self k self') as Hq.
  { intros _ f m Hf _. apply arm_ret, quoted_literal_ok. etrans; [apply Hf|apply rest_suffix]. }
  assert (∀ m, ∃ k self', raw_literal m 2 (set_chars self (rest (chars self))) = Ret (k, self')
                          ∧ arm_ok self k self') as Hr.
  { intros m. apply raw_literal_ok, moves_set_chars, rest_suffix. }
  unfold c_or_byte_string.
  destruct mk_single as [ms|]; repeat (destruct (_ =? _) || destruct (_ && _));
    first [apply Hr | apply ident_ok
          | apply (Hq true double_quoted_string); [apply double_quoted_string_suffix|done]
          | apply (Hq true single_quoted_string); [apply single_quoted_string_suffix|done]].
Qed.

Lemma one_symbol_plain c k : one_symbol c = Some k → k ≠ Eof ∧ ∀ lk s, k ≠ Literal lk s.
Proof. unfold one_symbol. intros E. repeat case_match; simplify_eq; done. Qed.

Lemma token_kind_ok c self : ∃ k self', token_kind c self = Ret (k, self') ∧ arm_ok self k self'.
Proof.
  unfold token_kind.
  destruct (c =? ch "/").
  { apply arm_ret. destruct (_ =? _); [by apply arm_lift; [apply line_comment_suffix|..]|].
    destruct (_ =? _); [|by apply arm_lift].
    apply arm_lift; [apply block_comment_suffix|..]; unfold block_comment;
      by destruct (block_comment_loop _ _). }
  destruct (is_whitespace c). { by apply arm_ret, arm_lift; [apply eat_while_suffix|..]. }
  destruct (c =? ch "r").
  { destruct (_ && _).
    - apply arm_ret, arm_lift; [|done..]. cbn.
      etrans; [apply eat_identifier_suffix|apply rest_suffix].
    - destruct (_ || _); [by apply raw_literal_ok|apply ident_ok]. }
  destruct (c =? ch "b"); [apply c_or_byte_string_ok|].
  destruct (c =? ch "c"); [apply c_or_byte_string_ok|].
  destruct (is_id_start c); [apply ident_ok|].
  destruct (is_ascii_digit c); [apply arm_ret, number_literal_ok|].
  destruct (one_symbol c) as [k|] eqn:E.
  { apply one_symbol_plain in E as [E1 E2]. do 2 eexists. split; [done|].
    split_and!; [done..|]. intros lk s ->. by destruct (E2 lk s). }
  destruct (c =? ch "'"); [apply arm_ret, lifetime_or_char_ok|].
  destruct (c =? 34); [apply arm_ret, quoted_literal_ok, double_quoted_string_suffix|].
  destruct (_ && _).
  - apply arm_ret, arm_lift; [apply eat_while_suffix|..];
      unfold fake_ident_or_unknown_prefix; by destruct (is_prefix_end _).
  - do 2 eexists. split; [done|]. by split_and!.
Qed.

End lexer.
