(* ===== verification/LexerProps.v ===== *)
(** What the lexer promises to [rustc_parse]: tokens partition the input,
    literal suffixes are identifiers, block comments nest, raw strings are
    delimited by their hashes and are re-validated consistently, numbers with
    the suffix [g] are field literals. *)

From S2P Require Import Prelude Chars Lexer.

Section props.
Context `{UnicodeTables}.

(** ** Tokens partition the input *)

(** [tok] describes the text [txt]. *)
Definition token_of (txt : list Z) (tok : Token) : Prop :=
  txt ≠ [] ∧ tok_len tok = str_len txt ∧ kind tok ≠ Eof ∧
  ∀ lk s, kind tok = Literal lk s →
    ∃ body sfx, txt = body ++ sfx ∧ s = str_len body ∧ body ≠ [] ∧
      (sfx = [] ∨ is_ident sfx = true).

(** The cursor between two tokens. *)
Definition at_token_start (self : Cursor) : Prop :=
  len_remaining self = str_len (chars self) ∧ str_len (chars self) < 2 ^ 32.

Lemma pos_after self txt self' :
  at_token_start self → chars self = txt ++ chars self' →
  len_remaining self' = len_remaining self → pos_within_token self' = str_len txt.
Proof.
  intros [Hl Hb] Hc Hr. unfold pos_within_token. rewrite Hr, Hl, Hc, str_len_app in *.
  pose proof (str_len_nonneg txt). pose proof (str_len_nonneg (chars self')).
  rewrite wrap_small; [lia|]. split; lia.
Qed.

Lemma advance_token_ok self c l :
  at_token_start self → chars self = c :: l →
  ∃ tok self' txt, advance_token self = Ret (tok, self') ∧
    chars self = txt ++ chars self' ∧ token_of txt tok ∧ at_token_start self'.
Proof.
  intros Hst Hc. unfold advance_token, bump. rewrite Hc.
  destruct (token_kind_ok c (set_chars self l)) as (k&self1&Htk&Hm&Hk&Hlit).
  rewrite Htk. cbn [obind].
  assert (∀ s, moves (set_chars self l) s → ∃ txt, txt ≠ [] ∧ chars self = txt ++ chars s ∧
            pos_within_token s = str_len txt) as Hpos.
  { intros s [Hlr [txt Hs]]. exists (c :: txt). cbn in Hs, Hlr.
    assert (chars self = (c :: txt) ++ chars s) by (rewrite Hc; cbn; congruence).
    split_and!; [done|done|]. by apply (pos_after self). }
  destruct (Hpos self1 Hm) as (txt&Hne&Htxt&Hp).
  exists (mkToken k (pos_within_token self1)), (reset_pos_within_token self1), txt.
  split_and!; [done|by rewrite <- Hc| |].
  - split_and!; [done..|]. cbn. intros lk s Hks.
    destruct (Hlit lk s Hks) as (self2&sfx&Hm2&->&Hsfx&Hid).
    destruct (Hpos self2 Hm2) as (body&Hbne&Hbody&->).
    exists body, sfx. split_and!; [|done..].
    rewrite Hbody, Hsfx, app_assoc in Htxt. by apply app_inv_tail in Htxt.
  - split; [done|]. destruct Hst as [_ Hb]. cbn. rewrite Htxt, str_len_app in Hb.
    pose proof (str_len_nonneg txt). lia.
Qed.

Lemma tokenize_loop_ok fuel self :
  at_token_start self → (length (chars self) < fuel)%nat →
  ∃ toks txts, tokenize_loop fuel self = Ret toks ∧ concat txts = chars self ∧
               Forall2 token_of txts toks.
Proof.
  revert self. induction fuel as [|fuel IH]; intros self Hst Hf; [lia|].
  cbn [tokenize_loop]. destruct (chars self) as [|c l] eqn:Hc.
  { unfold advance_token, bump. rewrite Hc. cbn. exists [], []. by split_and!. }
  destruct (advance_token_ok self c l Hst Hc) as (tok&self'&txt&->&Htxt&Htok&Hst').
  rewrite Hc in Htxt. cbn [obind]. rewrite bool_decide_eq_false_2 by apply Htok.
  assert (length (chars self') < fuel)%nat as Hlt.
  { apply (f_equal length) in Htxt. rewrite length_app in Htxt. cbn in *.
    destruct Htok as [Hne _]. destruct txt; [done|]. cbn in Htxt. lia. }
  destruct (IH self' Hst' Hlt) as (toks&txts&->&Hcat&Hall). cbn [obind].
  exists (tok :: toks), (txt :: txts). split_and!; [done| |by constructor].
  cbn. by rewrite Hcat, <- Htxt.
Qed.

(** ** Block comments *)

(** The text of a block comment read left to right as opening markers, closing
    markers and other chars. *)
Inductive marker := OpenM | CloseM | CharM (c : Z).

Fixpoint markers (l : list Z) : list marker :=
  match l with
  | [] => []
  | c :: l =>
      if (c =? ch "/") && (first l =? ch "*") then OpenM :: markers (rest l)
      else if (c =? ch "*") && (first l =? ch "/") then CloseM :: markers (rest l)
      else CharM c :: markers l
  end.

Definition marker_text (m : marker) : list Z :=
  match m with OpenM => str "/*" | CloseM => str "*/" | CharM c => [c] end.
Definition markers_text (ms : list marker) : list Z := concat (marker_text <$> ms).

Fixpoint balance (ms : list marker) : Z :=
  match ms with
  | [] => 0
  | OpenM :: ms => balance ms + 1
  | CloseM :: ms => balance ms - 1
  | CharM _ :: ms => balance ms
  end.

Lemma first_cons c l : first l = c → c ≠ EOF_CHAR → l = c :: rest l.
Proof. destruct l; cbn; [done|]. by intros ->. Qed.

Lemma markers_text_markers l : markers_text (markers l) = l.
Proof.
  remember (length l) as n eqn:Hn. assert (length l <= n)%nat as Hle by lia. clear Hn.
  revert l Hle. induction n as [|n IH]; intros [|c l] Hle; cbn in Hle; try lia; try done.
  unfold markers_text in *. cbn [markers].
  assert (length (rest l) <= n)%nat by (destruct l; cbn in *; lia).
  destruct (Z.eqb_spec c (ch "/")); [destruct (Z.eqb_spec (first l) (ch "*")) as [E|]|];
    cbn [andb]; [apply first_cons in E; [|done]; subst; cbn; rewrite IH by done; congruence| |];
    (destruct (Z.eqb_spec c (ch "*")); [destruct (Z.eqb_spec (first l) (ch "/")) as [E|]|]);
    cbn [andb]; try (apply first_cons in E; [|done]; subst; cbn; rewrite IH by done; congruence);
    cbn; by rewrite IH by lia.
Qed.

(** Either the comment is closed by the first marker that brings the nesting
    depth [d] to zero, or the depth stays positive to the end of the input. *)
Definition comment_end (d : Z) (ms : list marker) (depth : Z) (r : list Z) : Prop :=
  (depth = 0 ∧ ∃ p q, ms = p ++ CloseM :: q ∧ d + balance p = 1 ∧ r = markers_text q ∧
     ∀ p1 p2, p = p1 ++ p2 → 1 ≤ d + balance p1) ∨
  (1 ≤ depth ∧ r = [] ∧ ∀ p1 p2, ms = p1 ++ p2 → 1 ≤ d + balance p1).

Lemma comment_end_cons d m ms depth r :
  1 ≤ d → comment_end (d + balance [m]) ms depth r → comment_end d (m :: ms) depth r.
Proof.
  assert (∀ p, balance (m :: p) = balance [m] + balance p) as Hb by (intros; destruct m; cbn; lia).
  intros Hd [(->&p&q&->&Hbal&->&Hpre)|(Hdep&->&Hpre)].
  - left. split; [done|]. exists (m :: p), q. split_and!; [done|rewrite Hb; lia|done|].
    intros [|m1 p1] p2; cbn [app]; [intros _; cbn; lia|]. intros [= <- Hp].
    apply Hpre in Hp. rewrite Hb. lia.
  - right. split_and!; [done..|]. intros [|m1 p1] p2; cbn [app]; [intros _; cbn; lia|].
    intros [= <- Hp]. apply Hpre in Hp. rewrite Hb. lia.
Qed.

Lemma block_comment_loop_spec l d :
  1 ≤ d → let '(depth, r) := block_comment_loop l d in comment_end d (markers l) depth r.
Proof.
  remember (length l) as n eqn:Hn. assert (length l <= n)%nat as Hle by lia. clear Hn.
  revert l d Hle. induction n as [|n IH]; intros [|c l] d Hle Hd; cbn in Hle; try lia;
    [cbn; right; split_and!; [done..|]; intros [] ?; [cbn; lia|done]..|].
  assert (length (rest l) <= n)%nat by (destruct l; cbn in *; lia).
  cbn [block_comment_loop markers].
  destruct ((c =? ch "/") && (first l =? ch "*")) eqn:E1.
  { pose proof (IH (rest l) (d + 1) ltac:(lia) ltac:(lia)) as Hi.
    destruct (block_comment_loop (rest l) (d + 1)). by apply comment_end_cons. }
  destruct ((c =? ch "*") && (first l =? ch "/")) eqn:E2.
  - destruct (Z.eqb_spec (d - 1) 0).
    + left. split; [lia|]. exists [], (markers (rest l)). split_and!; [done|cbn; lia| |].
      * by rewrite markers_text_markers.
      * intros [] ?; [cbn; lia|done].
    + pose proof (IH (rest l) (d - 1) ltac:(lia) ltac:(lia)) as Hi.
      destruct (block_comment_loop (rest l) (d - 1)). by apply comment_end_cons.
  - pose proof (IH l d ltac:(lia) ltac:(lia)) as Hi.
    destruct (block_comment_loop l d). apply comment_end_cons; [done|].
    cbn. by rewrite Z.add_0_r.
Qed.

(** ** Raw strings *)

Definition hashes (n : nat) : list Z := replicate n (ch "#").
#[local] Arguments hashes : simpl never.
Definition no_quote (l : list Z) : Prop := forallb (λ c, negb (c =? 34)) l = true.

Lemma hashes_S n l : hashes (S n) ++ l = ch "#" :: hashes n ++ l.
Proof. done. Qed.

Lemma eat_while_app p pre l : forallb p pre = true → eat_while p (pre ++ l) = eat_while p l.
Proof.
  induction pre as [|c pre IH]; cbn; [done|]. intros [-> ?]%andb_true_iff. auto.
Qed.

Lemma eat_while_stop p l c l' : eat_while p l = c :: l' → p c = false.
Proof.
  induction l as [|d l IH]; cbn; [done|]. destruct (p d) eqn:E; [done|]. by intros [= <- _].
Qed.

Lemma eat_start_hashes_hashes n l :
  first l ≠ ch "#" → eat_start_hashes (hashes n ++ l) = (Z.of_nat n, l).
Proof.
  intros Hl. induction n as [|n IH].
  - change (hashes 0 ++ l) with l. destruct l as [|c l]; cbn in *; [done|]. by destruct (Z.eqb_spec c (ch "#")).
  - rewrite hashes_S. cbn. rewrite IH. f_equal. lia.
Qed.

Lemma eat_start_hashes_inv l :
  ∃ n l', l = hashes n ++ l' ∧ first l' ≠ ch "#" ∧ eat_start_hashes l = (Z.of_nat n, l').
Proof.
  induction l as [|c l IH]; cbn; [by exists O, []|].
  destruct (Z.eqb_spec c (ch "#")) as [->|]; [|by exists O, (c :: l)].
  destruct IH as (n&l'&->&Hf&->). exists (S n), l'. split_and!; [done..|]. f_equal. lia.
Qed.

Lemma eat_end_hashes_hashes k l n m :
  n + Z.of_nat k ≤ m → n + Z.of_nat k = m ∨ first l ≠ ch "#" →
  eat_end_hashes (hashes k ++ l) n m = (n + Z.of_nat k, l).
Proof.
  revert n; induction k as [|k IH]; intros n Hle Hstop.
  - change (hashes 0 ++ l) with l. rewrite Z.add_0_r in *. destruct l as [|c l]; cbn in *; [done|].
    destruct (Z.eqb_spec c (ch "#")), (Z.ltb_spec n m); cbn; try done. lia.
  - rewrite hashes_S. cbn. destruct (Z.ltb_spec n m); [|lia]. rewrite IH by lia. f_equal. lia.
Qed.

Lemma eat_end_hashes_inv l n m :
  n ≤ m → ∃ k l', l = hashes k ++ l' ∧ n + Z.of_nat k ≤ m ∧
    (n + Z.of_nat k = m ∨ first l' ≠ ch "#") ∧ eat_end_hashes l n m = (n + Z.of_nat k, l').
Proof.
  revert n; induction l as [|c l IH]; intros n Hle.
  - exists O, []. cbn. rewrite Z.add_0_r. by split_and!; [..|right|].
  - cbn. destruct (Z.eqb_spec c (ch "#")) as [->|];
      [destruct (Z.ltb_spec n m)|]; cbn.
    + destruct (IH (n + 1)) as (k&l'&->&Hk&Hs&->); [lia|].
      exists (S k), l'. split_and!; [done|lia|destruct Hs; [left; lia|by right]|f_equal; lia].
    + exists O, (ch "#" :: l). split_and!; [done|lia|left; lia|f_equal; lia].
    + exists O, (c :: l). split_and!; [done|lia|by right|f_equal; lia].
Qed.

(** [scan n l r]: the first double quote of [l] that is followed by [n] hashes
    is found, and [r] follows those hashes. *)
Inductive scan (n : nat) : list Z → list Z → Prop :=
| scan_done pre r : no_quote pre → scan n (pre ++ 34 :: hashes n ++ r) r
| scan_more pre k l r :
    no_quote pre → (k < n)%nat → first l ≠ ch "#" → scan n l r →
    scan n (pre ++ 34 :: hashes k ++ l) r.

Lemma scan_loop n l r : scan n l r → ∀ fuel lr sp pl mh off,
  (length l < fuel)%nat →
  raw_string_loop fuel (mkCursor lr l) sp pl (Z.of_nat n) mh off
  = Ret (inl (Z.of_nat n), mkCursor lr r).
Proof.
  induction 1 as [pre r Hq|pre k l r Hq Hk Hl Hs IH]; intros [|fuel] lr sp pl mh off Hf; try lia;
    cbn [raw_string_loop chars set_chars]; rewrite eat_while_app by done;
    cbn [eat_while]; unfold set_chars; cbn [negb chars rest is_eof len_remaining];
    change (34 =? 34) with true; cbn [negb is_eof chars rest].
  - rewrite eat_end_hashes_hashes by lia. by rewrite Z.add_0_l, Z.eqb_refl.
  - rewrite eat_end_hashes_hashes by (try lia; by right). rewrite Z.add_0_l.
    destruct (Z.eqb_spec (Z.of_nat k) (Z.of_nat n)); [lia|].
    rewrite length_app in Hf. cbn in Hf. rewrite length_app in Hf.
    by destruct (_ <? _); rewrite IH by lia.
Qed.

Lemma loop_scan n fuel self sp pl mh off :
  (length (chars self) < fuel)%nat →
  (∃ self', raw_string_loop fuel self sp pl (Z.of_nat n) mh off = Ret (inl (Z.of_nat n), self')
            ∧ scan n (chars self) (chars self')) ∨
  (∃ e self', raw_string_loop fuel self sp pl (Z.of_nat n) mh off = Ret (inr e, self')
            ∧ chars self' = []).
Proof.
  revert self mh off; induction fuel as [|fuel IH]; intros self mh off Hf; [lia|].
  cbn [raw_string_loop]. cbn [chars set_chars].
  destruct (eat_while_split (λ c, negb (c =? 34)) (chars self)) as (pre&Hpre&Hq).
  destruct (eat_while (λ c, negb (c =? 34)) (chars self)) as [|c l] eqn:El; cbn [is_eof rest].
  { right. do 2 eexists. split; [done|]. done. }
  apply eat_while_stop in El. destruct (Z.eqb_spec c 34) as [->|]; [|done].
  destruct (eat_end_hashes_inv l 0 (Z.of_nat n)) as (k&l'&->&Hk&Hstop&->); [lia|].
  rewrite Z.add_0_l in *. cbv zeta. rewrite Hpre.
  destruct (Z.eqb_spec (Z.of_nat k) (Z.of_nat n)) as [Hkn|Hkn].
  { left. eexists. split; [done|]. cbn. assert (k = n) as -> by lia. by apply scan_done. }
  assert (length l' < fuel)%nat as Hlen.
  { apply (f_equal length) in Hpre. rewrite !length_app in Hpre. cbn in Hpre.
    rewrite length_app in Hpre. lia. }
  destruct Hstop as [|Hstop]; [lia|].
  destruct (mh <? Z.of_nat k);
    match goal with |- context [raw_string_loop fuel ?s _ _ _ ?m ?o] =>
      destruct (IH s m o Hlen) as [(self'&->&Hs)|(e&self'&->&Hs)] end;
    [left|right|left|right]; do 1 eexists; try (eexists; by split); (split; [done|]);
    apply scan_more; try done; lia.
Qed.

(** Scanning looks no further than the terminator. *)
Lemma scan_local n l r : scan n l r → ∃ txt, l = txt ++ r ∧ scan n txt [].
Proof.
  induction 1 as [pre r Hq|pre k l r Hq Hk Hl Hs (txt&->&IH)].
  - exists (pre ++ 34 :: hashes n). split; [by rewrite <- app_assoc|].
    rewrite <- (app_nil_r (hashes n)). by apply scan_done.
  - exists (pre ++ 34 :: hashes k ++ txt). split.
    + rewrite <- app_assoc. cbn. by rewrite <- app_assoc.
    + apply scan_more; try done. by destruct txt.
Qed.

(** Every string without the terminator inside is found again. *)
Lemma scan_content n s tail :
  (∀ a b, s ≠ a ++ 34 :: hashes n ++ b) → scan n (s ++ 34 :: hashes n ++ tail) tail.
Proof.
  remember (length s) as len eqn:Hlen. assert (length s <= len)%nat as Hle by lia. clear Hlen.
  revert s Hle. induction len as [|len IH]; intros s Hle Hno.
  { destruct s; [|cbn in Hle; lia]. by apply (scan_done n []). }
  destruct (eat_while_split (λ c, negb (c =? 34)) s) as (pre&Hpre&Hq).
  destruct (eat_while (λ c, negb (c =? 34)) s) as [|c l] eqn:El.
  { rewrite app_nil_r in Hpre. subst. by apply scan_done. }
  apply eat_while_stop in El. destruct (Z.eqb_spec c 34) as [->|]; [|done].
  destruct (eat_end_hashes_inv l 0 (Z.of_nat n)) as (k&l'&->&Hk&Hstop&_); [lia|].
  assert (k ≠ n) by (intros ->; by eapply Hno). subst s.
  rewrite <- app_assoc. cbn. rewrite <- app_assoc. apply scan_more; [done|lia| |].
  - destruct l'; cbn in *; [done|]. lia.
  - apply IH.
    + rewrite length_app in Hle. cbn in Hle. rewrite length_app in Hle. lia.
    + intros a b ->. apply (Hno (pre ++ 34 :: hashes k ++ a) b).
      rewrite <- !app_assoc. cbn. by rewrite <- !app_assoc.
Qed.

Lemma raw_double_quoted_string_eq pl lr n l :
  first l ≠ ch "#" →
  raw_double_quoted_string pl (mkCursor lr (hashes n ++ l)) =
  match l with
  | [] => Ret (inr (InvalidStarter EOF_CHAR), mkCursor lr [])
  | c :: l' =>
      if c =? 34 then
        let! (r, self) := raw_string_loop (S (length l')) (mkCursor lr l')
          (pos_within_token (mkCursor lr (hashes n ++ l))) pl (Z.of_nat n) 0 None in
        Ret (match r with
             | inl n => if n <=? 255 then inl n else inr (TooManyDelimiters n)
             | inr e => inr e
             end, self)
      else Ret (inr (InvalidStarter c), mkCursor lr l')
  end.
Proof.
  intros Hf. unfold raw_double_quoted_string, raw_string_unvalidated. cbn [chars].
  rewrite eat_start_hashes_hashes by done. destruct l as [|c l]; [done|].
  unfold bump. cbn [chars set_chars len_remaining].
  destruct (Z.eqb_spec c 34) as [->|].
  - by rewrite bool_decide_eq_true_2.
  - by rewrite bool_decide_eq_false_2 by congruence.
Qed.

Lemma raw_double_quoted_string_scan pl lr n l r :
  scan n l r → raw_double_quoted_string pl (mkCursor lr (hashes n ++ 34 :: l))
  = Ret (if Z.of_nat n <=? 255 then inl (Z.of_nat n) else inr (TooManyDelimiters (Z.of_nat n)),
         mkCursor lr r).
Proof.
  intros Hs. rewrite raw_double_quoted_string_eq by done. cbn [Z.eqb Pos.eqb].
  by rewrite (scan_loop n l r) by (done || lia).
Qed.

(** A raw string rejected in place is rejected again on its own text. *)
Lemma raw_error_local pl self e self' txt :
  raw_double_quoted_string pl self = Ret (inr e, self') → chars self = txt ++ chars self' →
  ∀ lr pl', ∃ e' self2, raw_double_quoted_string pl' (mkCursor lr txt) = Ret (inr e', self2).
Proof.
  destruct self as [lr0 input]. cbn [chars]. intros Hr Htxt lr pl'.
  destruct (eat_start_hashes_inv input) as (n&l&->&Hf&_).
  rewrite raw_double_quoted_string_eq in Hr by done. destruct l as [|c l].
  { injection Hr as <- <-. cbn [chars] in Htxt. apply app_inv_tail in Htxt as <-.
    rewrite <- (app_nil_r (hashes n)), raw_double_quoted_string_eq by done. by do 2 eexists. }
  destruct (Z.eqb_spec c 34) as [->|Hc].
  - destruct (loop_scan n (S (length l)) (mkCursor lr0 l)
                (pos_within_token (mkCursor lr0 (hashes n ++ 34 :: l))) pl 0 None
                ltac:(cbn; lia)) as [(s1&E1&Hs)|(e1&s1&E1&Hs)];
      rewrite E1 in Hr; cbn [obind chars] in *.
    + destruct (Z.leb_spec (Z.of_nat n) 255) as [|Hn]; [done|]. injection Hr as <- <-.
      destruct (scan_local n l (chars s1) Hs) as (txt1&->&Hs1).
      rewrite app_comm_cons, app_assoc in Htxt. apply app_inv_tail in Htxt as <-.
      rewrite (raw_double_quoted_string_scan pl' lr n txt1 [] Hs1).
      destruct (Z.leb_spec (Z.of_nat n) 255); [lia|]. by do 2 eexists.
    + injection Hr as <- <-. rewrite Hs, app_nil_r in Htxt. subst txt.
      rewrite raw_double_quoted_string_eq by done. cbn [Z.eqb Pos.eqb].
      match goal with |- context [raw_string_loop ?f ?s ?sp ?p _ ?m ?o] =>
        destruct (loop_scan n f s sp p m o ltac:(cbn; lia)) as [(s2&E2&Hs2)|(e2&s2&E2&_)] end;
        rewrite E2; cbn [obind]; [|by do 2 eexists].
      cbn [chars] in Hs2. by rewrite (scan_loop n l _ Hs2) in E1 by lia.
  - injection Hr as <- <-. cbn [chars] in Htxt.
    change (c :: l) with ([c] ++ l) in Htxt. rewrite app_assoc in Htxt.
    apply app_inv_tail in Htxt as <-.
    rewrite raw_double_quoted_string_eq by done.
    destruct (Z.eqb_spec c 34); [done|]. by do 2 eexists.
Qed.

(** ** Numbers with the suffix g *)

Definition is_g (c : Z) : bool := (c =? ch "g") || (c =? ch "G").
Definition decimal_char (c : Z) : bool := is_ascii_digit c || (c =? ch "_").
Definition hexadecimal_char (c : Z) : bool := is_ascii_hexdigit c || (c =? ch "_").

Definition base_prefix (b : Base) : list Z :=
  match b with
  | Binary => str "0b" | Octal => str "0o" | Decimal => [] | Hexadecimal => str "0x"
  end.

(** The digits of a number literal: the lexer takes any decimal digit behind
    [0b] and [0o]; without prefix the first char is a digit. *)
Definition number_digits (b : Base) (ds : list Z) : bool :=
  match b with
  | Binary | Octal => forallb decimal_char ds && existsb is_ascii_digit ds
  | Decimal => forallb decimal_char ds && is_ascii_digit (first ds)
  | Hexadecimal => forallb hexadecimal_char ds && existsb is_ascii_hexdigit ds
  end.

Lemma is_g_cases c : is_g c = true → c = ch "g" ∨ c = ch "G".
Proof. unfold is_g. intros [?%Z.eqb_eq|?%Z.eqb_eq]%orb_true_iff; auto. Qed.

Lemma eat_decimal_digits_stop ds tail h :
  forallb decimal_char ds = true → decimal_char (first tail) = false →
  eat_decimal_digits_loop (ds ++ tail) h = (h || existsb is_ascii_digit ds, tail).
Proof.
  intros Hds Ht. revert h Hds. induction ds as [|c ds IH]; intros h Hds; cbn.
  - rewrite orb_false_r. destruct tail as [|c tail]; [done|]. cbn in Ht |- *.
    apply orb_false_iff in Ht as [-> ->]. done.
  - cbn in Hds. apply andb_true_iff in Hds as [Hc Hds]. unfold decimal_char in Hc.
    destruct (Z.eqb_spec c (ch "_")) as [->|Hu]; cbn.
    + rewrite IH by done. done.
    + rewrite orb_false_r in Hc. rewrite Hc, IH by done. by rewrite orb_true_r.
Qed.

Lemma eat_decimal_digits_app ds tail h :
  forallb decimal_char ds = true → is_g (first tail) = true →
  eat_decimal_digits_loop (ds ++ tail) h = (h || existsb is_ascii_digit ds, tail).
Proof.
  intros Hds Hg%is_g_cases. apply eat_decimal_digits_stop; [done|]. by destruct Hg as [-> | ->].
Qed.

Lemma eat_hexadecimal_digits_app ds tail h :
  forallb hexadecimal_char ds = true → is_g (first tail) = true →
  eat_hexadecimal_digits_loop (ds ++ tail) h = (h || existsb is_ascii_hexdigit ds, tail).
Proof.
  intros Hds Hg%is_g_cases. revert h Hds. induction ds as [|c ds IH]; intros h Hds; cbn.
  - destruct tail as [|c tail]; cbn in Hg; [by destruct Hg|].
    rewrite orb_false_r. by destruct Hg as [-> | ->].
  - cbn in Hds. apply andb_true_iff in Hds as [Hc Hds]. unfold hexadecimal_char in Hc.
    destruct (Z.eqb_spec c (ch "_")) as [->|Hu]; cbn.
    + rewrite IH by done. done.
    + rewrite orb_false_r in Hc. rewrite Hc, IH by done. by rewrite orb_true_r.
Qed.

Lemma number_tail_g b tail : is_g (first tail) = true → number_tail b tail = (Field b false, tail).
Proof.
  intros Hg%is_g_cases. unfold number_tail. by destruct Hg as [-> | ->].
Qed.

(** Reading a whole number, the first char included. *)
Lemma number_field b ds tail c l :
  number_digits b ds = true → is_g (first tail) = true →
  base_prefix b ++ ds ++ tail = c :: l →
  is_ascii_digit c = true ∧ number c l = (Field b false, tail).
Proof.
  intros Hds Hg Hc. destruct b; cbn in Hds, Hc;
    apply andb_true_iff in Hds as [Hds He].
  1,2: injection Hc as <- <-; split; [done|]; cbn;
    unfold eat_decimal_digits; rewrite eat_decimal_digits_app, He by done; cbn;
    by apply number_tail_g.
  2: injection Hc as <- <-; split; [done|]; cbn;
    unfold eat_hexadecimal_digits; rewrite eat_hexadecimal_digits_app, He by done; cbn;
    by apply number_tail_g.
  destruct ds as [|d ds]; [done|]. cbn in Hc, He, Hds. injection Hc as <- <-. split; [done|].
  apply andb_true_iff in Hds as [_ Hds].
  assert (number_tail Decimal (snd (eat_decimal_digits (ds ++ tail))) = (Field Decimal false, tail))
    as Ht by (unfold eat_decimal_digits; rewrite eat_decimal_digits_app by done;
              by apply number_tail_g).
  unfold number. destruct (d =? ch "0"); [|done].
  destruct ds as [|e ds]; cbn [app first] in *.
  - apply is_g_cases in Hg as [-> | ->]; done.
  - apply andb_true_iff in Hds as [Hd _]. unfold decimal_char in Hd. rewrite Hd.
    assert (is_ascii_digit e = true ∨ e = 95) as He'
      by (destruct (is_ascii_digit e); [by left|right; by apply Z.eqb_eq in Hd]).
    assert (48 ≤ e ≤ 57 ∨ e = 95) by (unfold is_ascii_digit in He'; lia).
    do 3 (destruct (Z.eqb_spec e (ch "b")); [lia|]; destruct (Z.eqb_spec e (ch "o")); [lia|];
          destruct (Z.eqb_spec e (ch "x")); [lia|]). done.
Qed.

Lemma number_tail_field b b' e l r :
  number_tail b l = (Field b' e, r) → is_g (first r) = true.
Proof.
  unfold number_tail. intros E. repeat case_match; simplify_eq; done.
Qed.

(** Only the suffix [g] makes a number a field literal. *)
Lemma number_field_inv c l b e r : number c l = (Field b e, r) → is_g (first r) = true.
Proof.
  assert (∀ b l', (empty_number b l', l') = (Field b e, r) → is_g (first r) = true) as He.
  { intros b' l'. unfold empty_number. intros. case_match; simplify_eq; done. }
  unfold number. intros E.
  repeat case_match; simplify_eq; try done; eauto using number_tail_field;
    unfold empty_number in *; case_match; simplify_eq; done.
Qed.

(** ** Inverting [advance_token] *)

Lemma quoted_literal_kind mk self scanned lk s self' :
  quoted_literal mk self scanned = (Literal lk s, self') → ∃ b, lk = mk b.
Proof. unfold quoted_literal. destruct scanned. intros [= <- _ _]. eauto. Qed.

Lemma raw_literal_inv mk pl self lk s self' :
  raw_literal mk pl self = Ret (Literal lk s, self') →
  ∃ r self1, raw_double_quoted_string pl self = Ret (r, self1) ∧ lk = mk (ok_of r) ∧
    (∀ e, r = inr e → self' = self1).
Proof.
  unfold raw_literal. intros ([r self1]&E&Hr)%obind_ret_inv.
  injection Hr as <- <- <-. exists r, self1. split_and!; [done..|]. by intros e ->.
Qed.

Lemma token_kind_literal c self lk s self' :
  token_kind c self = Ret (Literal lk s, self') →
  (raw_literal RawStr 1 self = Ret (Literal lk s, self')) ∨
  (∃ mk l, chars self = ch "r" :: l ∧ (mk = RawByteStr ∨ mk = RawCStr) ∧
     raw_literal mk 2 (set_chars self l) = Ret (Literal lk s, self')) ∨
  (number_literal c self = (Literal lk s, self')) ∨
  (∃ b, lk = Char b ∨ lk = Byte b ∨ lk = Str b ∨ lk = ByteStr b ∨ lk = CStr b).
Proof.
  destruct self as [lr l]. cbn [chars set_chars].
  unfold token_kind, c_or_byte_string, lifetime_or_char, lift, line_comment, block_comment,
    whitespace, raw_ident, ident_or_unknown_prefix, fake_ident_or_unknown_prefix, one_symbol.
  cbn [chars]. intros E.
  destruct l as [|c1 l]; cbn [first rest second] in E.
  all: repeat (case_match; simplify_eq/=; try done);
    repeat match goal with Hq : quoted_literal _ _ _ = (Literal _ _, _) |- _ =>
        apply quoted_literal_kind in Hq as [? ->] end; eauto 10.
  all: match goal with Hr : (_ =? 114) && _ = true |- _ =>
         apply andb_true_iff in Hr as [->%Z.eqb_eq _] end; right; left; by do 2 eexists; eauto.
Qed.

Lemma advance_token_inv self tok self' :
  advance_token self = Ret (tok, self') → kind tok ≠ Eof →
  ∃ c l self1, chars self = c :: l ∧ token_kind c (set_chars self l) = Ret (kind tok, self1) ∧
    tok_len tok = pos_within_token self1 ∧ chars self1 = chars self'.
Proof.
  unfold advance_token, bump. destruct (chars self) as [|c l] eqn:Hc; [by intros [= <- _]|].
  intros ([k self1]&E&Hr)%obind_ret_inv _. injection Hr as <- <-. cbn. by exists c, l, self1.
Qed.

Lemma raw_literal_moves mk pl self k self' :
  raw_literal mk pl self = Ret (k, self') → chars self' `suffix_of` chars self.
Proof.
  intros E. destruct (raw_literal_ok mk pl self self) as (k2&s2&E2&[[_ Hm] _]); [done|].
  congruence.
Qed.

Lemma number_kind c l lk r :
  number c l = (lk, r) →
  match lk with Int _ _ | Float _ _ | Field _ _ => True | _ => False end.
Proof.
  unfold number, number_tail, empty_number. intros E.
  repeat (case_match; simplify_eq/=; try done).
Qed.

Lemma bump_n_2 c1 c2 l :
  bump_n 2 (new_cursor (c1 :: c2 :: l)) = Ret (mkCursor (str_len (c1 :: c2 :: l)) l).
Proof. done. Qed.

(** The length of the prefix [r], [br] or [cr] of an invalid raw literal. *)
Definition invalid_raw_prefix (lk : LiteralKind) : option nat :=
  match lk with
  | RawStr None => Some 1%nat
  | RawByteStr None | RawCStr None => Some 2%nat
  | _ => None
  end.

(** A raw literal that the lexer marks invalid ([n_hashes: None]) is
    rejected again when its own text is validated with the length of its
    prefix, as [report_raw_str_error] does to find out what to report: its
    panic for the answer [Ok] is unreachable. *)
Theorem raw_str_error_found_again self tok self' lk s p txt :
  advance_token self = Ret (tok, self') → kind tok = Literal lk s →
  invalid_raw_prefix lk = Some p → chars self = txt ++ chars self' →
  ∃ e, validate_raw_str txt p = Ret (inr e).
Proof.
  intros Ha Hk Hp Htxt.
  destruct (advance_token_inv self tok self' Ha ltac:(by rewrite Hk))
    as (c&l&self1&Hc&Htk&_&Hc1).
  rewrite Hk in Htk. rewrite Hc, <- Hc1 in Htxt. clear Ha Hk Hc Hc1.
  assert (∀ n pl lr mk self2 txt', raw_literal mk pl self2 = Ret (Literal lk s, self1) →
            lk = mk None → (∀ m, mk (Some m) ≠ mk None) → chars self2 = txt' ++ chars self1 →
            bump_n n (new_cursor txt) = Ret (mkCursor lr txt') →
            ∃ e, validate_raw_str txt n = Ret (inr e)) as Hmain.
  { intros n pl lr mk self2 txt' (r&self3&Hr&Hlk&Hsame)%raw_literal_inv Hmk Hm Hl' Hb.
    destruct r as [m|e]; [by destruct (Hm m); rewrite <- Hmk|]. rewrite (Hsame e eq_refl) in Hl'.
    destruct (raw_error_local pl self2 e self3 txt' Hr Hl' lr (Z.of_nat n))
      as (e'&s'&E). exists e'. unfold validate_raw_str. rewrite Hb. cbn [obind]. by rewrite E. }
  apply token_kind_literal in Htk as [Hr|[(mk&l2&Hl2&Hmk&Hr)|[Hn|(b&Hb)]]].
  - destruct (raw_literal_moves _ _ _ _ _ Hr) as [t Ht]. cbn in Ht.
    rewrite Ht, app_comm_cons in Htxt. apply app_inv_tail in Htxt as <-.
    pose proof Hr as (r&self3&_&Hlk&_)%raw_literal_inv.
    destruct (ok_of r) eqn:Er; subst lk; [done|]. injection Hp as <-.
    by eapply (Hmain 1%nat 1 _ RawStr _ t Hr).
  - destruct (raw_literal_moves _ _ _ _ _ Hr) as [t Ht]. cbn in Ht, Hl2.
    rewrite Hl2, Ht, !app_comm_cons in Htxt. apply app_inv_tail in Htxt as <-.
    pose proof Hr as (r&self3&_&Hlk&_)%raw_literal_inv.
    assert (p = 2%nat ∧ lk = mk None) as [-> Hn].
    { by destruct Hmk as [-> | ->], (ok_of r); subst lk; simplify_eq/=. }
    eapply (Hmain 2%nat 2 _ mk _ t Hr); [done| |done|apply bump_n_2].
    by destruct Hmk as [-> | ->].
  - unfold number_literal in Hn. destruct (number _ _) as [lk' r] eqn:En.
    injection Hn as -> <- <-. apply number_kind in En. by destruct lk.
  - by destruct Hb as [->|[->|[->|[->| ->]]]].
Qed.

(** C6. Tokenizing a source shorter than 4 GiB never panics or runs out of
    fuel, and loses nothing: the tokens describe consecutive non-empty pieces
    of the input, each with its length in bytes, no [Eof] among them; and the
    suffix of a literal token starts at its [suffix_start] and is empty or an
    identifier. *)
Theorem tokenize_lossless input :
  str_len input < 2 ^ 32 →
  ∃ toks txts, tokenize input = Ret toks ∧ concat txts = input ∧ Forall2 token_of txts toks.
Proof. intros Hb. apply (tokenize_loop_ok _ (new_cursor input)); cbn; [done|lia]. Qed.

(** A block comment ends at the first closing marker at which as many
    comments have been closed as were opened since it began, and is unterminated,
    reaching to the end of the input, exactly when there is none. *)
Theorem block_comment_nests l :
  let '(k, r) := block_comment (ch "*" :: l) in ∃ doc,
  (k = BlockComment doc true ∧ ∃ p q, markers l = p ++ CloseM :: q ∧ balance p = 0 ∧
     r = markers_text q ∧ ∀ p1 p2, p = p1 ++ p2 → 0 ≤ balance p1) ∨
  (k = BlockComment doc false ∧ r = [] ∧
     ∀ p1 p2, markers l = p1 ++ p2 → 0 ≤ balance p1).
Proof.
  unfold block_comment. cbn [rest].
  pose proof (block_comment_loop_spec l 1 ltac:(lia)) as Hs.
  destruct (block_comment_loop l 1) as [depth r]. eexists.
  destruct Hs as [(->&p&q&->&Hb&->&Hp)|(Hd&->&Hp)].
  - left. split; [done|]. exists p, q. split_and!; [done|lia|done|].
    intros p1 p2 E. apply Hp in E. lia.
  - right. destruct (Z.eqb_spec depth 0); [lia|]. split_and!; [done..|].
    intros p1 p2 E. apply Hp in E. lia.
Qed.

Lemma str_len_cons_le c l : str_len l ≤ str_len (c :: l).
Proof. cbn. pose proof (len_utf8_pos c). lia. Qed.

Lemma eat_identifier_none l : is_id_start (first l) = false → eat_identifier l = l.
Proof. unfold eat_identifier. by intros ->. Qed.

Lemma eat_identifier_ident sfx tail :
  is_ident sfx = true → is_id_continue (first tail) = false → eat_identifier (sfx ++ tail) = tail.
Proof.
  destruct sfx as [|c sfx]; cbn; [done|]. intros [Hs Hc]%andb_true_iff Ht.
  unfold eat_identifier. cbn. rewrite Hs. cbn. rewrite eat_while_app by done.
  destruct tail; cbn in *; [done|]. by rewrite Ht.
Qed.

Context `{!UnicodeAscii}.

Lemma is_id_start_ascii c :
  0 ≤ c < 128 → is_id_start c = (c =? ch "_") || is_ascii_lower c || is_ascii_upper c.
Proof.
  intros. unfold is_id_start. rewrite xid_start_ascii by done. by rewrite orb_assoc.
Qed.

Lemma is_id_start_digit c : is_ascii_digit c = true → is_id_start c = false.
Proof.
  unfold is_ascii_digit. intros [H1 H2]%andb_true_iff.
  rewrite is_id_start_ascii by lia. unfold is_ascii_lower, is_ascii_upper. lia.
Qed.

(** A raw string is lexed up to its closing hashes. *)
Lemma raw_string_lexes n s tail :
  (n <= 255)%nat → (∀ a b, s ≠ a ++ 34 :: hashes n ++ b) →
  is_id_start (first tail) = false →
  let txt := ch "r" :: hashes n ++ 34 :: s ++ 34 :: hashes n in
  str_len (txt ++ tail) < 2 ^ 32 →
  advance_token (new_cursor (txt ++ tail))
  = Ret (mkToken (Literal (RawStr (Some (Z.of_nat n))) (str_len txt)) (str_len txt),
         new_cursor tail).
Proof.
  intros Hn Hs Ht txt Hlen.
  assert (pos_within_token (mkCursor (str_len (txt ++ tail)) tail) = str_len txt) as Hpos.
  { by apply (pos_after (new_cursor (txt ++ tail))). }
  unfold advance_token, new_cursor, bump. unfold txt at 2. cbn [chars app].
  unfold token_kind, set_chars. cbn [chars len_remaining].
  change (is_whitespace (ch "r")) with false. cbn [Z.eqb Pos.eqb].
  set (l := (hashes n ++ _) ++ tail).
  assert (l = hashes n ++ 34 :: (s ++ 34 :: hashes n ++ tail)) as Hl.
  { unfold l. rewrite <- app_assoc. cbn. by rewrite <- app_assoc. }
  assert (is_id_start 35 = false ∧ is_id_start 34 = false) as [H35 H34]
    by (rewrite !is_id_start_ascii by lia; done).
  assert ((first l =? 35) && is_id_start (second l) = false) as ->.
  { rewrite Hl. destruct n as [|[|n]]; rewrite ?hashes_S; cbn; by rewrite ?H35, ?H34. }
  assert ((first l =? 35) || (first l =? 34) = true) as ->.
  { rewrite Hl. by destruct n; rewrite ?hashes_S. }
  unfold raw_literal. rewrite Hl, (raw_double_quoted_string_scan _ _ n _ tail)
    by (by apply scan_content).
  destruct (Z.leb_spec (Z.of_nat n) 255); [|lia]. cbn [obind ok_of chars].
  unfold set_chars, eat_literal_suffix. cbn [len_remaining chars].
  rewrite eat_identifier_none by done. by rewrite Hpos.
Qed.

(** Round trip of raw strings: the text [s] between [r], [n] hashes and a
    quote, and a quote and [n] hashes, with at most 255 hashes and [s] free of
    the closing sequence, is lexed as one raw string literal with [n] hashes
    that ends right behind the closing hashes. *)
Theorem raw_string_roundtrip n s tail :
  (n <= 255)%nat → (∀ a b, s ≠ a ++ 34 :: hashes n ++ b) →
  is_id_start (first tail) = false →
  let txt := ch "r" :: hashes n ++ 34 :: s ++ 34 :: hashes n in
  str_len (txt ++ tail) < 2 ^ 32 →
  advance_token (new_cursor (txt ++ tail))
  = Ret (mkToken (Literal (RawStr (Some (Z.of_nat n))) (str_len txt)) (str_len txt),
         new_cursor tail).
Proof. apply raw_string_lexes. Qed.

Lemma token_kind_digit c self : is_ascii_digit c = true → token_kind c self = Ret (number_literal c self).
Proof.
  intros Hdig. assert (48 ≤ c ≤ 57) as Hb by (unfold is_ascii_digit in Hdig; lia).
  unfold token_kind. rewrite (is_id_start_digit c Hdig), Hdig.
  assert (is_whitespace c = false) as -> by (unfold is_whitespace; lia).
  destruct (Z.eqb_spec c (ch "/")); [lia|]. destruct (Z.eqb_spec c (ch "r")); [lia|].
  destruct (Z.eqb_spec c (ch "b")); [lia|]. by destruct (Z.eqb_spec c (ch "c")); [lia|].
Qed.

(** The text of a field literal is one token. *)
Lemma field_literal_lexes b ds sfx tail :
  number_digits b ds = true → is_ident sfx = true → is_g (first sfx) = true →
  is_id_continue (first tail) = false →
  let body := base_prefix b ++ ds in
  str_len (body ++ sfx ++ tail) < 2 ^ 32 →
  advance_token (new_cursor (body ++ sfx ++ tail))
  = Ret (mkToken (Literal (Field b false) (str_len body)) (str_len (body ++ sfx)),
         new_cursor tail).
Proof.
  intros Hds Hsfx Hg Ht body Hlen.
  assert (pos_within_token (mkCursor (str_len (body ++ sfx ++ tail)) tail) = str_len (body ++ sfx))
    as Hp1 by (apply (pos_after (new_cursor (body ++ sfx ++ tail))); [done|by rewrite <- app_assoc|done]).
  assert (pos_within_token (mkCursor (str_len (body ++ sfx ++ tail)) (sfx ++ tail)) = str_len body)
    as Hp2 by (by apply (pos_after (new_cursor (body ++ sfx ++ tail)))).
  destruct (base_prefix b ++ ds ++ sfx ++ tail) as [|c l] eqn:Hc.
  { destruct b; [done..| |done]. by destruct ds. }
  destruct (number_field b ds (sfx ++ tail) c l) as [Hdig Hnum]; [done| |done|].
  { by destruct sfx. }
  assert (body ++ sfx ++ tail = c :: l) as Hin by (unfold body; by rewrite <- app_assoc).
  unfold advance_token, new_cursor, bump. cbn [chars]. rewrite Hin in *.
  unfold set_chars. cbn [chars len_remaining]. rewrite token_kind_digit by done.
  unfold number_literal, set_chars, eat_literal_suffix. cbn [chars len_remaining].
  rewrite Hnum. cbn [obind chars len_remaining].
  rewrite eat_identifier_ident by done. by rewrite Hp1, Hp2.
Qed.

(** Field literals: in every base, the digits of a number followed by a
    suffix that starts with [g] or [G] are lexed as one field literal of that
    base, its suffix starting at the [g]. *)
Theorem field_literal_lexed b ds sfx tail :
  number_digits b ds = true → is_ident sfx = true → is_g (first sfx) = true →
  is_id_continue (first tail) = false →
  let body := base_prefix b ++ ds in
  str_len (body ++ sfx ++ tail) < 2 ^ 32 →
  advance_token (new_cursor (body ++ sfx ++ tail))
  = Ret (mkToken (Literal (Field b false) (str_len body)) (str_len (body ++ sfx)),
         new_cursor tail).
Proof. apply field_literal_lexes. Qed.

Lemma eat_identifier_g r :
  is_g (first r) = true →
  ∃ sfx, r = sfx ++ eat_identifier r ∧ is_g (first sfx) = true ∧ is_ident sfx = true.
Proof.
  intros Hg. destruct (eat_identifier_split r) as (sfx&Hr&Hsfx).
  assert (is_id_start (first r) = true) as Hid.
  { apply is_g_cases in Hg as [-> | ->]; by rewrite is_id_start_ascii. }
  exists sfx. destruct sfx as [|c sfx].
  - exfalso. unfold eat_identifier in Hr. rewrite Hid in Hr. cbn in Hr.
    destruct r as [|c r]; [by apply is_g_cases in Hg as []|].
    pose proof (eat_while_suffix is_id_continue r) as Hl%suffix_length.
    apply (f_equal length) in Hr. cbn in Hr. lia.
  - rewrite Hr in Hg. destruct Hsfx; [done|]. by split_and!.
Qed.

(** The text of a field literal has a suffix. *)
Lemma field_token_suffix self tok self' b e s :
  at_token_start self → advance_token self = Ret (tok, self') →
  kind tok = Literal (Field b e) s →
  ∃ body sfx, chars self = body ++ sfx ++ chars self' ∧ s = str_len body ∧
    is_g (first sfx) = true ∧ is_ident sfx = true.
Proof.
  intros Hst Ha Hk.
  destruct (advance_token_inv self tok self' Ha ltac:(by rewrite Hk))
    as (c&l&self1&Hc&Htk&_&Hc1).
  rewrite Hk in Htk. apply token_kind_literal in Htk as [Hr|[(mk&l2&Hl2&Hmk&Hr)|[Hn|(b'&Hb)]]].
  - by apply raw_literal_inv in Hr as (?&?&_&?&_).
  - apply raw_literal_inv in Hr as (?&?&_&?&_). by destruct Hmk as [-> | ->].
  - unfold number_literal in Hn. destruct (number _ _) as [lk' r] eqn:En.
    injection Hn as -> <- <-. pose proof (number_suffix c l) as [t Ht].
    cbn in En, Hc1. rewrite En in Ht. cbn in Ht.
    pose proof (number_field_inv _ _ _ _ _ En) as Hg.
    destruct (eat_identifier_g r Hg) as (sfx&Hr&Hsfx&Hgs).
    unfold eat_literal_suffix in Hc1. rewrite Hc1 in Hr. subst l.
    exists (c :: t), sfx. split_and!; [|by apply (pos_after self (c :: t))|done..].
    rewrite Hc. cbn. by rewrite <- Hr.
  - by destruct Hb as [?|[?|[?|[?|?]]]].
Qed.

(** Nothing else is a field literal: the suffix of a token of that kind,
    whatever its base and whether digits are missing, starts with [g] or [G]. *)
Theorem field_literal_has_suffix self tok self' b e s :
  at_token_start self → advance_token self = Ret (tok, self') →
  kind tok = Literal (Field b e) s →
  ∃ body sfx, chars self = body ++ sfx ++ chars self' ∧ s = str_len body ∧
    is_g (first sfx) = true ∧ is_ident sfx = true.
Proof. apply field_token_suffix. Qed.
End props.

(** ** The properties at concrete inputs *)

(** The Unicode tables cut down to ASCII. *)
Definition ascii_tables : UnicodeTables := {|
  is_xid_start c := is_ascii_lower c || is_ascii_upper c;
  is_xid_continue c := is_ascii_lower c || is_ascii_upper c || is_ascii_digit c || (c =? ch "_");
  is_emoji_char _ := false;
|}.

Lemma ascii_tables_ok : @UnicodeAscii ascii_tables.
Proof. by split. Defined.

Lemma tokenize_lossless_witness :
  ∃ toks txts, @tokenize ascii_tables (str "fn f() { 0x1fg /* a */ }") = Ret toks ∧
    concat txts = str "fn f() { 0x1fg /* a */ }" ∧ Forall2 (@token_of ascii_tables) txts toks.
Proof. apply (@tokenize_lossless ascii_tables). reflexivity. Defined.

Lemma raw_str_error_found_again_witness :
  ∃ e, validate_raw_str (ch "r" :: ch "#" :: 34 :: str "ab") 1 = Ret (inr e).
Proof.
  pose (txt := ch "r" :: ch "#" :: 34 :: str "ab").
  eapply (@raw_str_error_found_again ascii_tables (new_cursor txt)
           (mkToken (Literal (RawStr None) 5) 5) (mkCursor 0 []) (RawStr None) 5 1 txt);
    reflexivity.
Defined.

Lemma raw_string_roundtrip_witness :
  @advance_token ascii_tables (new_cursor (ch "r" :: ch "#" :: 34 :: str "hi" ++ 34 :: str "# x"))
  = Ret (mkToken (Literal (RawStr (Some 1)) 7) 7, new_cursor (str " x")).
Proof.
  apply (@raw_string_roundtrip ascii_tables ascii_tables_ok 1 (str "hi") (str " x"));
    [lia| |reflexivity|reflexivity].
  intros [|a0 [|a1 [|a2 a]]] b; discriminate.
Defined.

Lemma field_literal_lexed_witness :
  @advance_token ascii_tables (new_cursor (str "0x1_fg;"))
  = Ret (mkToken (Literal (Field Hexadecimal false) 5) 6, new_cursor (str ";")).
Proof.
  apply (@field_literal_lexed ascii_tables ascii_tables_ok Hexadecimal (str "1_f") (str "g") (str ";"));
    reflexivity.
Defined.

Lemma field_literal_has_suffix_witness :
  ∃ body sfx, str "0bg+" = body ++ sfx ++ str "+" ∧ 2 = str_len body ∧
    is_g (first sfx) = true ∧ @is_ident ascii_tables sfx = true.
Proof.
  apply (@field_literal_has_suffix ascii_tables ascii_tables_ok (new_cursor (str "0bg+"))
           (mkToken (Literal (Field Binary true) 2) 3) (new_cursor (str "+")) Binary true 2);
    [by split|reflexivity|reflexivity].
Defined.
