(* ===== verification/Unescape.v ===== *)
(** Unescaping of char and string literals, [rustc_lexer/src/unescape.rs], and
    the escaping of the standard library that prints them,
    [library/core/src/escape.rs] and [char::escape_default].

    The scanning functions take the remaining chars and return their result
    together with what remains, also when the result is an error: the callers
    go on behind the error.  The callback of the source is the list of the
    calls made to it, each a byte range and a result. *)

From S2P Require Import Prelude Chars.

Inductive EscapeError :=
| ZeroChars | MoreThanOneChar | LoneSlash | InvalidEscape | BareCarriageReturn
| BareCarriageReturnInRawString | EscapeOnlyChar | TooShortHexEscape
| InvalidCharInHexEscape | OutOfRangeHexEscape | NoBraceInUnicodeEscape
| InvalidCharInUnicodeEscape | EmptyUnicodeEscape | UnclosedUnicodeEscape
| LeadingUnderscoreUnicodeEscape | OverlongUnicodeEscape | LoneSurrogateUnicodeEscape
| OutOfRangeUnicodeEscape | UnicodeEscapeInByte | NonAsciiCharInByte
| UnskippedWhitespaceWarning | MultipleSkippedLinesWarning.

Definition is_fatal (e : EscapeError) : bool :=
  match e with
  | UnskippedWhitespaceWarning | MultipleSkippedLinesWarning => false
  | _ => true
  end.

(** A unit within a C string, [CStrUnit]. *)
Inductive CStrUnit := UByte (b : Z) | UChar (c : Z).

(** [Mode]; the prefix [M] keeps the names apart from the lexer's. *)
Inductive Mode := MChar | MStr | MByte | MByteStr | MRawStr | MRawByteStr | MCStr | MRawCStr.

#[global] Instance EscapeError_eq_dec : EqDecision EscapeError.
Proof. solve_decision. Defined.
#[global] Instance Mode_eq_dec : EqDecision Mode.
Proof. solve_decision. Defined.

Definition in_double_quotes (m : Mode) : bool :=
  match m with
  | MStr | MByteStr | MRawStr | MRawByteStr | MCStr | MRawCStr => true
  | MChar | MByte => false
  end.
Definition ascii_escapes_should_be_ascii (m : Mode) : bool :=
  match m with
  | MChar | MStr | MRawStr => true
  | MByte | MByteStr | MRawByteStr | MCStr | MRawCStr => false
  end.
Definition characters_should_be_ascii (m : Mode) : bool :=
  match m with
  | MByte | MByteStr | MRawByteStr => true
  | MChar | MStr | MRawStr | MCStr | MRawCStr => false
  end.
Definition is_unicode_escape_disallowed (m : Mode) : bool :=
  match m with
  | MByte | MByteStr | MRawByteStr => true
  | MChar | MStr | MRawStr | MCStr | MRawCStr => false
  end.

(** [T: From<u8> + From<char>] *)
Class FromU8Char (T : Type) := { from_u8 : Z → T; from_char : Z → T }.
#[global] Instance char_from : FromU8Char Z := {| from_u8 b := b; from_char c := c |}.
#[global] Instance cstr_from : FromU8Char CStrUnit := {| from_u8 := UByte; from_char := UChar |}.

(** ** Scanners: remaining chars in, result and remaining chars out *)

Definition scanner (A : Type) : Type := list Z → (A + EscapeError) * list Z.

Definition sret {A} (a : A) : scanner A := λ l, (inl a, l).
Definition throw {A} (e : EscapeError) : scanner A := λ l, (inr e, l).
Definition sbind {A B} (s : scanner A) (k : A → scanner B) : scanner B :=
  λ l, match s l with (inl a, l) => k a l | (inr e, l) => (inr e, l) end.
Notation "'let*' x := s 'in' k" := (sbind s (λ x, k))
  (at level 10, x pattern, s at level 100, k at level 200) : rust_scope.

(** [chars.next().ok_or(e)?] and [o.ok_or(e)?] *)
Definition next_or (e : EscapeError) : scanner Z :=
  λ l, match l with [] => (inr e, []) | c :: l => (inl c, l) end.
Definition ok_or {A} (o : option A) (e : EscapeError) : scanner A :=
  match o with Some a => sret a | None => throw e end.

(** The loop of [scan_unicode]; [n_digits] is an [i32], [value] a [u32]. *)
Fixpoint scan_unicode_loop (disallowed : bool) (n_digits value : Z) (chars : list Z)
    : (Z + EscapeError) * list Z :=
  match chars with
  | [] => (inr UnclosedUnicodeEscape, [])
  | c :: chars =>
      if c =? ch "_" then scan_unicode_loop disallowed n_digits value chars
      else if c =? ch "}" then
        (if 6 <? n_digits then inr OverlongUnicodeEscape
         else if disallowed then inr UnicodeEscapeInByte
         else if is_char value then inl value
         else if 0x10FFFF <? value then inr OutOfRangeUnicodeEscape
         else inr LoneSurrogateUnicodeEscape, chars)
      else match to_digit c 16 with
      | None => (inr InvalidCharInUnicodeEscape, chars)
      | Some digit =>
          let n_digits := to_signed 32 (of_signed 32 (n_digits + 1)) in
          if 6 <? n_digits then scan_unicode_loop disallowed n_digits value chars
          else scan_unicode_loop disallowed n_digits (wrap 32 (value * 16 + digit)) chars
      end
  end.

Definition scan_unicode (disallowed : bool) : scanner Z :=
  let* brace := (λ l, match l with
                      | c :: l => if c =? ch "{" then (inl tt, l) else (inr NoBraceInUnicodeEscape, l)
                      | [] => (inr NoBraceInUnicodeEscape, [])
                      end) in
  let* c := next_or UnclosedUnicodeEscape in
  if c =? ch "_" then throw LeadingUnderscoreUnicodeEscape
  else if c =? ch "}" then throw EmptyUnicodeEscape
  else
    let* value := ok_or (to_digit c 16) InvalidCharInUnicodeEscape in
    scan_unicode_loop disallowed 1 value.

Definition scan_hex (m : Mode) : scanner Z :=
  let* hi := next_or TooShortHexEscape in
  let* hi := ok_or (to_digit hi 16) InvalidCharInHexEscape in
  let* lo := next_or TooShortHexEscape in
  let* lo := ok_or (to_digit lo 16) InvalidCharInHexEscape in
  let value := hi * 16 + lo in
  if ascii_escapes_should_be_ascii m && negb (value <=? 0x7F) then throw OutOfRangeHexEscape
  else sret (wrap 8 value).

Definition scan_escape {T} `{FromU8Char T} (m : Mode) : scanner T :=
  let* c := next_or LoneSlash in
  if c =? 34 then sret (from_u8 34)
  else if c =? ch "n" then sret (from_u8 10)
  else if c =? ch "r" then sret (from_u8 13)
  else if c =? ch "t" then sret (from_u8 9)
  else if c =? ch "\" then sret (from_u8 (ch "\"))
  else if c =? ch "'" then sret (from_u8 (ch "'"))
  else if c =? ch "0" then sret (from_u8 0)
  else if c =? ch "x" then let* value := scan_hex m in sret (from_u8 value)
  else if c =? ch "u" then
    let* value := scan_unicode (is_unicode_escape_disallowed m) in sret (from_char value)
  else throw InvalidEscape.

Definition ascii_check (c : Z) (should_be_ascii : bool) : Z + EscapeError :=
  if should_be_ascii && negb (is_ascii c) then inr NonAsciiCharInByte else inl c.

(** ** Char and byte literals *)

Definition unescape_char_or_byte (is_byte : bool) : scanner Z :=
  let* c := next_or ZeroChars in
  let* res := if c =? ch "\" then scan_escape (if is_byte then MByte else MChar)
              else if (c =? 10) || (c =? 9) || (c =? ch "'") then throw EscapeOnlyChar
              else if c =? 13 then throw BareCarriageReturn
              else λ l, (ascii_check c is_byte, l) in
  λ l, match l with [] => (inl res, []) | _ :: l => (inr MoreThanOneChar, l) end.

Definition byte_from_char (c : Z) : Z := wrap 8 c.

Definition unescape_char (src : list Z) : Z + EscapeError :=
  fst (unescape_char_or_byte false src).
Definition unescape_byte (src : list Z) : Z + EscapeError :=
  match fst (unescape_char_or_byte true src) with
  | inl c => inl (byte_from_char c)
  | inr e => inr e
  end.

(** ** String literals *)

(** One call of the callback: a byte range and a result. *)
Definition event (T : Type) : Type := (Z * Z) * (T + EscapeError).

(** [char::is_whitespace]: the Unicode property White_Space *)
Definition char_is_whitespace (c : Z) : bool :=
  ((9 <=? c) && (c <=? 13)) || (c =? 32) || (c =? 0x85) || (c =? 0xA0) || (c =? 0x1680)
  || ((0x2000 <=? c) && (c <=? 0x200A)) || (c =? 0x2028) || (c =? 0x2029) || (c =? 0x202F)
  || (c =? 0x205F) || (c =? 0x3000).

(** The bytes skipped behind an escaped newline. *)
Definition is_skipped (b : Z) : bool := (b =? 32) || (b =? 9) || (b =? 10) || (b =? 13).

Fixpoint skipped (l : list Z) : list Z :=
  match l with [] => [] | c :: l => if is_skipped c then c :: skipped l else [] end.

(** [skip_ascii_whitespace]: the calls made and the chars left.  The skipped
    chars are ASCII, so [first_non_space] counts them; [tail[1..n]] panics
    when [n] is 0. *)
Definition skip_ascii_whitespace (tail : list Z) (start : Z)
    : outcome (list ((Z * Z) * EscapeError) * list Z) :=
  let first_non_space := length (skipped tail) in
  rassert (1 <=? first_non_space)%nat (
  let lines :=
    if existsb (Z.eqb 10) (drop 1 (take first_non_space tail))
    then [((start, start + Z.of_nat first_non_space + 1), MultipleSkippedLinesWarning)] else [] in
  let tail := drop first_non_space tail in
  let space :=
    match tail with
    | c :: _ =>
        if char_is_whitespace c
        then [((start, start + Z.of_nat first_non_space + len_utf8 c + 1),
               UnskippedWhitespaceWarning)] else []
    | [] => []
    end in
  Ret (lines ++ space, tail)).

Definition is_line_continuation (c : Z) (chars : list Z) : bool :=
  (c =? ch "\") && match chars with d :: _ => d =? 10 | [] => false end.

(** The [match c] of [unescape_str_common], line continuations apart. *)
Definition unescape_unit {T} `{FromU8Char T} (m : Mode) (c : Z) : scanner T :=
  if c =? ch "\" then scan_escape m
  else if c =? 10 then sret (from_u8 10)
  else if c =? 9 then sret (from_u8 9)
  else if c =? 34 then throw EscapeOnlyChar
  else if c =? 13 then throw BareCarriageReturn
  else let* c := (λ l, (ascii_check c (characters_should_be_ascii m), l)) in sret (from_char c).

(** The loop of [unescape_str_common]; each round eats a char, so the fuel
    [S (length src)] is not used up. *)
Fixpoint unescape_str_loop {T} `{FromU8Char T} (fuel : nat) (src_len : Z) (m : Mode)
    (chars : list Z) : outcome (list (event T)) :=
  match fuel with
  | O => Panic
  | S fuel =>
      match chars with
      | [] => Ret []
      | c :: chars =>
          let start := src_len - str_len chars - len_utf8 c in
          if is_line_continuation c chars then
            let! (warnings, chars) := skip_ascii_whitespace chars start in
            let! events := unescape_str_loop fuel src_len m chars in
            Ret (((λ w, (fst w, inr (snd w))) <$> warnings) ++ events)
          else
            let '(res, chars) := unescape_unit m c chars in
            let end_ := src_len - str_len chars in
            let! events := unescape_str_loop fuel src_len m chars in
            Ret (((start, end_), res) :: events)
      end
  end.

Definition unescape_str_common {T} `{FromU8Char T} (src : list Z) (m : Mode)
    : outcome (list (event T)) :=
  unescape_str_loop (S (length src)) (str_len src) m src.

Fixpoint unescape_raw_loop (src_len : Z) (is_byte : bool) (chars : list Z) : list (event Z) :=
  match chars with
  | [] => []
  | c :: chars =>
      let start := src_len - str_len chars - len_utf8 c in
      let res := if c =? 13 then inr BareCarriageReturnInRawString else ascii_check c is_byte in
      let end_ := src_len - str_len chars in
      ((start, end_), res) :: unescape_raw_loop src_len is_byte chars
  end.

Definition unescape_raw_str_or_raw_byte_str (src : list Z) (is_byte : bool) : list (event Z) :=
  unescape_raw_loop (str_len src) is_byte src.

Definition unescape_literal (src : list Z) (m : Mode) : outcome (list (event Z)) :=
  match m with
  | MChar | MByte =>
      let '(res, chars) := unescape_char_or_byte (bool_decide (m = MByte)) src in
      Ret [((0, str_len src - str_len chars), res)]
  | MStr | MByteStr => unescape_str_common src m
  | MRawStr | MRawByteStr =>
      Ret (unescape_raw_str_or_raw_byte_str src (bool_decide (m = MRawByteStr)))
  | MCStr | MRawCStr => Panic
  end.

Definition unescape_c_string (src : list Z) (m : Mode) : outcome (list (event CStrUnit)) :=
  if bool_decide (m = MRawCStr) then
    Ret ((λ ev : event Z, (fst ev, match snd ev with inl c => inl (UChar c) | inr e => inr e end))
         <$> unescape_raw_str_or_raw_byte_str src (characters_should_be_ascii m))
  else unescape_str_common src m.

(** ** Escaping *)

Definition HEX_DIGITS : list Z := str "0123456789abcdef".
Definition hex_digit (d : Z) : Z := nth (Z.to_nat d) HEX_DIGITS 0.

(** [u32::leading_zeros] *)
Definition leading_zeros32 (x : Z) : Z := if x =? 0 then 32 else 31 - Z.log2 x.

(** [escape_unicode_into]: the ten chars of the buffer with the prefix copied
    over, from [start] on. *)
Definition escape_unicode (c : Z) : list Z :=
  let digit s := hex_digit (Z.land (Z.shiftr c s) 15) in
  let output := [0; 0; 0; digit 20; digit 16; digit 12; digit 8; digit 4; digit 0; ch "}"] in
  let start := Z.to_nat (leading_zeros32 (Z.lor c 1) / 4 - 2) in
  drop start (take start output ++ str "\u{" ++ drop (start + 3) output).

(** [char::escape_default] *)
Definition escape_default (c : Z) : list Z :=
  if c =? 9 then str "\t"
  else if c =? 13 then str "\r"
  else if c =? 10 then str "\n"
  else if (c =? ch "\") || (c =? ch "'") || (c =? 34) then [ch "\"; c]
  else if (0x20 <=? c) && (c <=? 0x7e) then [c]
  else escape_unicode c.

(** [u8::is_ascii_control] *)
Definition is_ascii_control (b : Z) : bool := (b <=? 0x1F) || (b =? 0x7F).

(** [escape_ascii_into], that is [ascii::escape_default] *)
Definition escape_ascii (b : Z) : list Z :=
  if b =? 9 then str "\t"
  else if b =? 13 then str "\r"
  else if b =? 10 then str "\n"
  else if b =? ch "\" then str "\\"
  else if b =? ch "'" then str "\'"
  else if b =? 34 then [ch "\"; 34]
  else if is_ascii b && negb (is_ascii_control b) then [b]
  else [ch "\"; ch "x"; hex_digit (Z.shiftr b 4); hex_digit (Z.land b 15)].

(** [<str>::escape_default] and [<[u8]>::escape_ascii] *)
Definition escape_str (s : list Z) : list Z := concat (escape_default <$> s).
Definition escape_bytes (s : list Z) : list Z := concat (escape_ascii <$> s).
