(* ===== verification/UnescapeProps.v ===== *)
(** What unescaping promises: literals are cut into units that are unescaped
    independently, values are in range for the literal's kind, and escaping
    followed by unescaping is the identity. *)

From S2P Require Import Prelude Chars Unescape.

#[local] Ltac Zify.zify_post_hook ::= Z.to_euclidean_division_equations.

(** ** Scanners are local *)

(** A scanner reads only what it consumes: its result is the same on the
    consumed chars alone, and after a success on any continuation of them. *)
Definition local {A} (s : scanner A) : Prop :=
  ∀ l, ∃ t, l = t ++ snd (s l) ∧
    match fst (s l) with
    | inl a => ∀ r, s (t ++ r) = (inl a, r)
    | inr e => s t = (inr e, [])
    end.

Lemma local_sret {A} (a : A) : local (sret a).
Proof. intros l. by exists []. Qed.

Lemma local_throw {A} e : local (@throw A e).
Proof. intros l. by exists []. Qed.

Lemma local_const {A} (x : A + EscapeError) : local (λ l, (x, l)).
Proof. intros l. exists []. by destruct x. Qed.

Lemma local_next_or e : local (next_or e).
Proof. intros [|c l]; [by exists []|by exists [c]]. Qed.

Lemma local_ok_or {A} (o : option A) e : local (ok_or o e).
Proof. destruct o; [apply local_sret|apply local_throw]. Qed.

Lemma local_sbind {A B} (s : scanner A) (k : A → scanner B) :
  local s → (∀ a, local (k a)) → local (sbind s k).
Proof.
  intros Hs Hk l. unfold sbind. destruct (Hs l) as (t&Hl&Ht).
  destruct (s l) as [[a|e] r]; cbn in Hl, Ht; [|exists t; cbn; by rewrite Ht].
  destruct (Hk a r) as (t2&Hr&Ht2). exists (t ++ t2). split.
  { rewrite <- app_assoc. congruence. }
  destruct (k a r) as [[b|e] r2]; cbn in Ht2 |- *.
  - intros r'. rewrite <- app_assoc, Ht. apply Ht2.
  - rewrite Ht. done.
Qed.

Lemma local_if {A} (b : bool) (s1 s2 : scanner A) :
  local s1 → local s2 → local (if b then s1 else s2).
Proof. by destruct b. Qed.

Create HintDb scan.
#[export] Hint Resolve local_sret local_throw local_const local_next_or local_ok_or
  local_sbind local_if : scan.

Lemma local_scan_unicode_loop d n v : local (scan_unicode_loop d n v).
Proof.
  intros l. revert n v. induction l as [|c l IH]; intros n v; cbn [scan_unicode_loop];
    [by exists []|].
  assert (∀ n' v', (∀ r, scan_unicode_loop d n v (c :: r) = scan_unicode_loop d n' v' r) →
    ∃ t, c :: l = t ++ snd (scan_unicode_loop d n' v' l) ∧
    match fst (scan_unicode_loop d n' v' l) with
    | inl a => ∀ r, scan_unicode_loop d n v (t ++ r) = (inl a, r)
    | inr e => scan_unicode_loop d n v t = (inr e, [])
    end) as Hstep.
  { intros n' v' Heq. destruct (IH n' v') as (t&Hl&Ht). exists (c :: t).
    split; [cbn; congruence|]. destruct (fst _); intros; rewrite <- ?app_comm_cons, Heq; auto. }
  cbn [scan_unicode_loop] in Hstep.
  destruct (c =? ch "_") eqn:E1. { by apply Hstep. }
  destruct (c =? ch "}") eqn:E2.
  { exists [c]. split; [done|]. cbn [fst snd app].
    set (x := if 6 <? n then _ else _).
    assert (∀ r, scan_unicode_loop d n v (c :: r) = (x, r)) as Hx
      by (intros r; cbn [scan_unicode_loop]; by rewrite E1, E2).
    destruct x; auto. }
  destruct (to_digit c 16) as [dg|] eqn:E3.
  - destruct (6 <? _) eqn:E4; by apply Hstep.
  - exists [c]. split; [done|]. cbn [fst snd scan_unicode_loop]. by rewrite E1, E2, E3.
Qed.
#[export] Hint Resolve local_scan_unicode_loop : scan.

Lemma local_scan_escape {T} `{FromU8Char T} m : local (scan_escape m).
Proof.
  assert (local (scan_unicode (is_unicode_escape_disallowed m))).
  { unfold scan_unicode. apply local_sbind; [|auto 10 with scan].
    intros [|c l]; [by exists []|]. exists [c]. by destruct (c =? ch "{") eqn:E; cbn; rewrite ?E. }
  unfold scan_escape, scan_hex. auto 30 with scan.
Qed.
#[export] Hint Resolve local_scan_escape : scan.

Lemma local_unescape_unit {T} `{FromU8Char T} m c : local (unescape_unit m c).
Proof. unfold unescape_unit. auto 10 with scan. Qed.

(** ** Results of scanners *)

(** Every result satisfies [P] or is a fatal error. *)
Definition yields {A} (P : A → Prop) (s : scanner A) : Prop :=
  ∀ l, match fst (s l) with inl a => P a | inr e => is_fatal e = true end.

Lemma yields_sret {A} (P : A → Prop) a : P a → yields P (sret a).
Proof. by intros ? ?. Qed.

Lemma yields_throw {A} (P : A → Prop) e : is_fatal e = true → yields P (throw e).
Proof. by intros ? ?. Qed.

Lemma yields_sbind {A B} (Q : A → Prop) (P : B → Prop) s k :
  yields Q s → (∀ a, Q a → yields P (k a)) → yields P (sbind s k).
Proof.
  intros Hs Hk l. unfold sbind. specialize (Hs l). destruct (s l) as [[a|e] r]; [|done].
  by apply Hk.
Qed.

Lemma yields_next_or e : is_fatal e = true → yields (λ _, True) (next_or e).
Proof. by intros ? [|c l]. Qed.

Lemma yields_if {A} (P : A → Prop) (b : bool) s1 s2 :
  yields P s1 → yields P s2 → yields P (if b then s1 else s2).
Proof. by destruct b. Qed.

Lemma to_digit_bounds c d : to_digit c 16 = Some d → 0 ≤ d < 16.
Proof.
  unfold to_digit, is_ascii_digit, is_ascii_lower, is_ascii_upper.
  repeat case_match; intros; simplify_eq; lia.
Qed.

Lemma yields_hex_digit c e :
  is_fatal e = true → yields (λ d, 0 ≤ d < 16) (ok_or (to_digit c 16) e).
Proof.
  intros He l. destruct (to_digit c 16) eqn:E; cbn; [|done]. by eapply to_digit_bounds.
Qed.

Lemma yields_scan_unicode d : yields (λ v, is_char v = true ∧ d = false) (scan_unicode d).
Proof.
  assert (∀ l n v, match fst (scan_unicode_loop d n v l) with
                   | inl a => is_char a = true ∧ d = false | inr e => is_fatal e = true end) as Hl.
  { induction l as [|c l IH]; intros n v; cbn [scan_unicode_loop]; [done|].
    destruct (c =? ch "_"); [apply IH|]. destruct (c =? ch "}").
    - destruct (6 <? n); [done|]. destruct d; [done|]. cbn.
      by destruct (is_char v) eqn:E; [|destruct (_ <? v)].
    - destruct (to_digit c 16); [|done]. destruct (6 <? _); apply IH. }
  apply (yields_sbind (λ _, True)). { intros [|c l]; [done|]. by cbn; destruct (c =? _). }
  intros _ _. apply (yields_sbind (λ _, True)); [by apply yields_next_or|].
  intros c _. repeat apply yields_if; try by apply yields_throw.
  eapply yields_sbind; [by apply yields_hex_digit|]. intros v Hv l. apply Hl.
Qed.

Lemma yields_scan_hex m :
  yields (λ b, 0 ≤ b < 256 ∧ (ascii_escapes_should_be_ascii m = true → b < 128)) (scan_hex m).
Proof.
  unfold scan_hex.
  eapply yields_sbind; [by apply yields_next_or|]. intros h _.
  eapply yields_sbind; [by apply yields_hex_digit|]. intros hi Hhi.
  eapply yields_sbind; [by apply yields_next_or|]. intros l _.
  eapply yields_sbind; [by apply yields_hex_digit|]. intros lo Hlo. cbn in Hhi, Hlo.
  destruct (ascii_escapes_should_be_ascii m), (Z.leb_spec (hi * 16 + lo) 0x7F); cbn;
    try (by apply yields_throw); apply yields_sret; rewrite wrap_small by (split; lia);
    (split; [lia|done || (intros; lia)]).
Qed.

(** What the units of a literal of mode [m] may be: a byte where bytes are
    expected, an ASCII byte or a scalar value elsewhere. *)
Definition value_ok (m : Mode) (c : Z) : Prop :=
  if characters_should_be_ascii m then 0 ≤ c < 256 else is_char c = true.
Definition cstr_unit_ok (u : CStrUnit) : Prop :=
  match u with UByte b => 0 ≤ b < 256 | UChar c => is_char c = true end.

Lemma small_is_char c : 0 ≤ c < 128 → is_char c = true.
Proof. unfold is_char. lia. Qed.

Section values.
Context {T} `{FromU8Char T} (P : T → Prop) (m : Mode).
Hypothesis from_u8_ok : ∀ b, 0 ≤ b < 256 →
  (ascii_escapes_should_be_ascii m = true → b < 128) → P (from_u8 b).
Hypothesis from_char_ok : ∀ c, is_char c = true →
  (characters_should_be_ascii m = true → c < 128) → P (from_char c).

Lemma yields_scan_escape : yields P (scan_escape m).
Proof.
  eapply yields_sbind; [by apply yields_next_or|]. intros c _.
  do 7 (apply yields_if; [apply yields_sret, from_u8_ok; lia|]).
  apply yields_if; [|apply yields_if; [|by apply yields_throw]].
  - eapply yields_sbind; [apply yields_scan_hex|]. intros b [? ?]. by apply yields_sret, from_u8_ok.
  - eapply yields_sbind; [apply yields_scan_unicode|]. intros v [? Hd].
    apply yields_sret, from_char_ok; [done|]. by destruct m.
Qed.

Lemma yields_unescape_unit c : is_char c = true → yields P (unescape_unit m c).
Proof.
  intros Hc. apply yields_if; [apply yields_scan_escape|].
  do 2 (apply yields_if; [apply yields_sret, from_u8_ok; lia|]).
  do 2 (apply yields_if; [by apply yields_throw|]).
  apply (yields_sbind (λ d, d = c ∧ (characters_should_be_ascii m = true → c < 128))).
  - intros l. unfold ascii_check, is_ascii. cbn.
    destruct (characters_should_be_ascii m), (Z.ltb_spec c 0x80); cbn; done || (split; done).
  - intros d [-> ?]. by apply yields_sret, from_char_ok.
Qed.
End values.

(** ** Literals are cut into units *)

Section pieces.
Context {T} `{FromU8Char T} (m : Mode).

(** A piece of a literal: its text, and its unit or, for a line continuation,
    none. *)
#[local] Abbreviation piece := (list Z * option (T + EscapeError))%type.

Definition piece_ok (p : piece) : Prop :=
  match p with
  | (txt, Some res) => txt ≠ [] ∧ unescape_str_common txt m = Ret [((0, str_len txt), res)]
  | (txt, None) => ∃ ws, txt = ch "\" :: 10 :: ws ∧ forallb is_skipped ws = true
  end.

(** The callback calls for consecutive pieces from byte [pos] on. *)
Fixpoint place (pos : Z) (ps : list piece) : list (event T) :=
  match ps with
  | [] => []
  | (txt, res) :: ps =>
      match res with Some res => [((pos, pos + str_len txt), res)] | None => [] end
      ++ place (pos + str_len txt) ps
  end.

Definition not_warning (ev : event T) : bool :=
  match snd ev with inl _ => true | inr e => is_fatal e end.

Lemma skipped_split l :
  l = skipped l ++ drop (length (skipped l)) l ∧ forallb is_skipped (skipped l) = true.
Proof.
  induction l as [|c l [IH1 IH2]]; cbn; [done|]. destruct (is_skipped c) eqn:E; [|done].
  cbn. rewrite E, <- IH1. by split.
Qed.

Lemma skip_ascii_whitespace_ok l start :
  ∃ ws warnings r, skip_ascii_whitespace (10 :: l) start = Ret (warnings, r) ∧
    10 :: l = (10 :: ws) ++ r ∧ forallb is_skipped ws = true ∧
    List.filter not_warning ((λ w, (fst w, inr (snd w))) <$> warnings) = [].
Proof.
  destruct (skipped_split l) as [Hl Hws].
  exists (skipped l). unfold skip_ascii_whitespace. cbn [skipped is_skipped Z.eqb Pos.eqb orb length].
  cbn [rassert Nat.leb]. do 2 eexists. split; [done|]. split_and!; [|done|].
  - cbn. by rewrite <- Hl.
  - rewrite fmap_app, List.filter_app. by repeat case_match.
Qed.

Lemma unit_piece c t res :
  is_line_continuation c t = false → unescape_unit m c t = (res, []) →
  piece_ok (c :: t, Some res).
Proof.
  intros Hlc Hu. split; [done|]. unfold unescape_str_common. cbn [unescape_str_loop length].
  rewrite Hlc, Hu. cbn [str_len]. cbn. do 4 f_equal; lia.
Qed.

Lemma local_continuation c t r :
  is_line_continuation c (t ++ r) = false → is_line_continuation c t = false.
Proof. unfold is_line_continuation. destruct t; cbn; [|done]. by rewrite andb_false_r. Qed.

(** One turn of the loop that meets no line continuation. *)
Lemma unit_step c l :
  is_char c = true → is_line_continuation c l = false →
  ∃ res t r, unescape_unit m c l = (res, r) ∧ l = t ++ r ∧ piece_ok (c :: t, Some res) ∧
    match res with inl _ => true | inr e => is_fatal e end = true.
Proof.
  intros Hc Hlc. destruct (local_unescape_unit m c l) as (t&Hl&Ht).
  pose proof (yields_unescape_unit (λ _, True) m ltac:(done) ltac:(done) c Hc l) as Hy.
  destruct (unescape_unit m c l) as [res r]. cbn in *. exists res, t, r.
  rewrite Hl in Hlc. apply local_continuation in Hlc.
  split; [done|]. split; [done|]. split; [|by destruct res].
  apply unit_piece; [done|]. destruct res; [|done].
  specialize (Ht []). by rewrite app_nil_r in Ht.
Qed.

Lemma unescape_str_loop_ok fuel n chars :
  forallb is_char chars = true → (length chars < fuel)%nat →
  ∃ evs ps, unescape_str_loop fuel n m chars = Ret evs ∧ concat (fst <$> ps) = chars ∧
    Forall piece_ok ps ∧ List.filter not_warning evs = place (n - str_len chars) ps.
Proof.
  revert chars. induction fuel as [|fuel IH]; intros chars Hch Hf; [lia|].
  destruct chars as [|c l]; cbn [unescape_str_loop].
  { exists [], []. by split_and!. }
  cbn in Hch, Hf. apply andb_true_iff in Hch as [Hc Hch].
  assert (∀ t r, l = t ++ r → forallb is_char r = true ∧ (length r < fuel)%nat) as Hrec.
  { intros t r ->. rewrite forallb_app in Hch. apply andb_true_iff in Hch as [_ ?].
    rewrite length_app in Hf. split; [done|lia]. }
  destruct (is_line_continuation c l) eqn:Hlc.
  - unfold is_line_continuation in Hlc. apply andb_true_iff in Hlc as [->%Z.eqb_eq Hnl].
    destruct l as [|d l]; [done|]. apply Z.eqb_eq in Hnl as ->.
    destruct (skip_ascii_whitespace_ok l (n - str_len (10 :: l) - len_utf8 (ch "\")))
      as (ws&warnings&r&->&Hr&Hws&Hw).
    destruct (Hrec _ _ Hr) as [Hch' Hf'].
    destruct (IH r Hch' Hf') as (evs&ps&Hevs&Hcat&Hps&Hfil). cbn [obind]. rewrite Hevs. cbn [obind].
    eexists _, ((ch "\" :: 10 :: ws, None) :: ps). split_and!; [done| | |].
    + cbn. rewrite Hcat. by rewrite Hr.
    + constructor; [|done]. by exists ws.
    + rewrite List.filter_app, Hw, Hfil. cbn [place app]. f_equal.
      rewrite Hr. cbn. rewrite str_len_app. lia.
  - destruct (unit_step c l Hc Hlc) as (res&t&r&->&Hl&Hp&Hw).
    destruct (Hrec _ _ Hl) as [Hch' Hf'].
    destruct (IH r Hch' Hf') as (evs&ps&Hevs&Hcat&Hps&Hfil). rewrite Hevs. cbn [obind].
    eexists _, ((c :: t, Some res) :: ps). split_and!; [done| |by constructor|].
    + cbn. by rewrite Hcat, Hl.
    + cbn [List.filter]. unfold not_warning at 1. cbn [snd]. rewrite Hw, Hfil.
      cbn [place app]. subst l. cbn [str_len]. rewrite str_len_app. do 3 f_equal; lia.
Qed.
End pieces.

(** ** Values *)

(** Every unit satisfies [P]. *)
Definition all_units {T} (P : T → Prop) (evs : list (event T)) : Prop :=
  Forall (λ ev, match snd ev with inl a => P a | inr _ => True end) evs.

Lemma unescape_str_loop_values {T} `{FromU8Char T} (P : T → Prop) m fuel n chars evs :
  (∀ c, is_char c = true → yields P (unescape_unit m c)) → forallb is_char chars = true →
  unescape_str_loop fuel n m chars = Ret evs → all_units P evs.
Proof.
  intros HP. revert chars evs. induction fuel as [|fuel IH]; intros chars evs Hch; [done|].
  destruct chars as [|c l]; cbn [unescape_str_loop]; [intros [= <-]; constructor|].
  cbn in Hch. apply andb_true_iff in Hch as [Hc Hch].
  destruct (is_line_continuation c l).
  - intros ([warnings r]&Hs&E)%obind_ret_inv. apply obind_ret_inv in E as (evs'&E&[= <-]).
    unfold skip_ascii_whitespace in Hs.
    destruct (1 <=? length (skipped l))%nat; [|done]. injection Hs as <- <-.
    unfold all_units. rewrite Forall_app. split.
    + rewrite List.Forall_map. apply Forall_true. done.
    + eapply IH; [|done]. rewrite <- (take_drop (length (skipped l)) l), forallb_app in Hch.
      by apply andb_true_iff in Hch as [_ ?].
  - pose proof (HP c Hc l) as Hy. destruct (local_unescape_unit m c l) as (t&Hl&_).
    destruct (unescape_unit m c l) as [res r]. cbn in Hy, Hl.
    intros (evs'&E&[= <-])%obind_ret_inv. constructor; [by destruct res|].
    eapply IH; [|done]. rewrite Hl, forallb_app in Hch. by apply andb_true_iff in Hch as [_ ?].
Qed.

Lemma unescape_raw_values m n chars :
  forallb is_char chars = true →
  all_units (λ c, is_char c = true ∧ (characters_should_be_ascii m = true → 0 ≤ c < 128))
    (unescape_raw_loop n (characters_should_be_ascii m) chars).
Proof.
  induction chars as [|c l IH]; cbn; intros Hch; [constructor|].
  apply andb_true_iff in Hch as [Hc Hch]. constructor; [|by apply IH]. cbn.
  destruct (c =? 13); [done|]. unfold ascii_check, is_ascii.
  destruct (characters_should_be_ascii m), (Z.ltb_spec c 0x80); cbn; try done;
    (split; [done|]); unfold is_char in Hc; lia.
Qed.

Lemma unit_values_ok m c :
  is_char c = true → yields (value_ok m) (unescape_unit (T := Z) m c).
Proof.
  apply yields_unescape_unit; unfold value_ok; cbn; destruct m; cbn; intros; try lia;
    try (by apply small_is_char; lia); unfold is_char in *; try lia.
Qed.

Lemma char_or_byte_values b src :
  forallb is_char src = true →
  match fst (unescape_char_or_byte b src) with
  | inl c => value_ok (if b then MByte else MChar) c
  | inr _ => True
  end.
Proof.
  intros Hch. unfold unescape_char_or_byte, sbind, next_or. destruct src as [|c l]; [done|].
  cbn in Hch. apply andb_true_iff in Hch as [Hc _].
  assert (yields (value_ok (if b then MByte else MChar)) (scan_escape (if b then MByte else MChar)))
    as Hs by (apply yields_scan_escape; destruct b; unfold value_ok; cbn; intros;
              unfold is_char in *; lia).
  specialize (Hs l).
  destruct (c =? ch "\").
  { destruct (scan_escape _ l) as [[v|e] r]; cbn in Hs |- *; [by destruct r|done]. }
  destruct (_ || _); [done|]. destruct (c =? 13); [done|]. unfold ascii_check, is_ascii.
  destruct b; cbn; [|by destruct l]. destruct (Z.ltb_spec c 0x80); cbn; [|done].
  destruct l; cbn; [|done]. unfold value_ok, is_char in *. cbn. lia.
Qed.

(** Unescaping the text of any char, byte or string literal that is not a
    C string never panics, and whatever it accepts is in range: bytes below 256
    in byte and byte string literals, so that [byte_from_char] loses nothing,
    and Unicode scalar values in the others. *)
Theorem unescape_literal_values src m :
  forallb is_char src = true → m ≠ MCStr → m ≠ MRawCStr →
  ∃ evs, unescape_literal src m = Ret evs ∧
    all_units (λ c, value_ok m c ∧ (characters_should_be_ascii m = true → byte_from_char c = c)) evs.
Proof.
  intros Hch H1 H2.
  assert (∀ evs, all_units (value_ok m) evs → all_units (λ c, value_ok m c ∧
            (characters_should_be_ascii m = true → byte_from_char c = c)) evs) as Hbyte.
  { intros evs Hu. eapply Forall_impl; [exact Hu|]. intros [r [c|e]]; cbn; [|done].
    intros Hv. split; [done|]. intros Ha. unfold value_ok in Hv. rewrite Ha in Hv.
    apply wrap_small. unfold is_uint. lia. }
  assert (∀ b, all_units (λ c, is_char c = true ∧ (characters_should_be_ascii m = true → 0 ≤ c < 128))
            (unescape_raw_str_or_raw_byte_str src b) →
            all_units (value_ok m) (unescape_raw_str_or_raw_byte_str src b)) as Hraw.
  { intros b Hu. eapply Forall_impl; [exact Hu|]. intros [r [c|e]]; cbn; [|done].
    intros [Hc Ha]. unfold value_ok. destruct (characters_should_be_ascii m); [|done].
    specialize (Ha eq_refl). lia. }
  destruct m; try done; cbn [unescape_literal].
  1,3: match goal with |- context [unescape_char_or_byte ?b] =>
         pose proof (char_or_byte_values b src Hch) as Hv;
         destruct (unescape_char_or_byte b src) as [res r] end; cbn in Hv;
       eexists; (split; [done|]); apply Hbyte; constructor; [by destruct res|constructor].
  1,2: match goal with |- context [unescape_str_common _ ?m] =>
         destruct (unescape_str_loop_ok (T := Z) m (S (length src)) (str_len src) src Hch
                     ltac:(lia)) as (evs&ps&E&_);
         exists evs; (split; [exact E|]);
         apply Hbyte; eapply (unescape_str_loop_values _ m); [|done|exact E] end;
       intros; by apply unit_values_ok.
  all: eexists; (split; [done|]); apply Hbyte, Hraw;
    first [by apply (unescape_raw_values MRawStr)|by apply (unescape_raw_values MRawByteStr)].
Qed.

(** C9. A string literal is cut into pieces, none lost: each is a line
    continuation, or a unit reported with exactly the byte range of its text
    and with the result its text has on its own.  In particular the loop ends,
    and an error in one unit does not change the others.  Warnings, which have
    ranges of their own, are set apart. *)
Theorem unescape_str_pieces {T} `{FromU8Char T} m src :
  forallb is_char src = true →
  ∃ evs ps, unescape_str_common src m = Ret evs ∧ concat (fst <$> ps) = src ∧
    Forall (piece_ok m) ps ∧ List.filter not_warning evs = place 0 ps.
Proof.
  intros Hch.
  destruct (unescape_str_loop_ok m (S (length src)) (str_len src) src Hch ltac:(lia))
    as (evs&ps&E&Hc&Hp&Hf).
  exists evs, ps. rewrite Z.sub_diag in Hf. by split; [exact E|].
Qed.

(** ** Escaping and unescaping *)

Lemma to_digit_hex_digit d : 0 ≤ d < 16 → to_digit (hex_digit d) 16 = Some d.
Proof.
  intros Hd.
  assert (∀ i, 0 ≤ i < Z.of_nat 16 →
            bool_decide (to_digit (hex_digit i) 16 = Some i) = true) as Hall.
  { apply bounded_forall. vm_compute. reflexivity. }
  specialize (Hall d Hd). by apply bool_decide_eq_true in Hall.
Qed.

Lemma hex_digit_other d : 0 ≤ d < 16 → hex_digit d ≠ ch "_" ∧ hex_digit d ≠ ch "}".
Proof.
  intros Hd.
  assert (∀ i, 0 ≤ i < Z.of_nat 16 → negb (hex_digit i =? ch "_") && negb (hex_digit i =? ch "}") = true)
    as Hall by (apply bounded_forall; reflexivity).
  specialize (Hall d Hd). lia.
Qed.

(** Reading hexadecimal digits, most significant first. *)
Definition hex_value (v : Z) (ds : list Z) : Z := foldl (λ v d, v * 16 + d) v ds.

Lemma scan_unicode_loop_digits ds n v r :
  Forall (λ d, 0 ≤ d < 16) ds → 1 ≤ n → n + Z.of_nat (length ds) ≤ 6 → 0 ≤ v < 16 ^ n →
  is_char (hex_value v ds) = true →
  scan_unicode_loop false n v ((hex_digit <$> ds) ++ ch "}" :: r) = (inl (hex_value v ds), r).
Proof.
  intros Hds. revert n v. induction Hds as [|d ds Hd Hds IH]; intros n v Hn Hlen Hv Hc.
  - cbn in Hc |- *. destruct (Z.ltb_spec 6 n); [cbn in Hlen; lia|]. by rewrite Hc.
  - cbn [length] in Hlen. cbn [fmap list_fmap app scan_unicode_loop].
    destruct (hex_digit_other d Hd) as [H1 H2].
    destruct (Z.eqb_spec (hex_digit d) (ch "_")); [done|].
    destruct (Z.eqb_spec (hex_digit d) (ch "}")); [done|].
    rewrite to_digit_hex_digit by done.
    assert (to_signed 32 (of_signed 32 (n + 1)) = n + 1) as ->
      by (apply to_signed_of_signed; lia).
    destruct (Z.ltb_spec 6 (n + 1)); [lia|].
    assert (16 ^ (n + 1) = 16 * 16 ^ n) as Hp by (rewrite Z.pow_add_r by lia; lia).
    assert (16 ^ (n + 1) ≤ 16 ^ 6) by (apply Z.pow_le_mono_r; lia).
    rewrite wrap_small by (split; lia). apply IH; [lia|lia|lia|done].
Qed.

Definition nibble (c s : Z) : Z := Z.land (Z.shiftr c s) 15.

Lemma nibble_eq c s : 0 ≤ s → nibble c s = c / 2 ^ s mod 16.
Proof.
  intros. unfold nibble. change 15 with (2 ^ 4 - 1).
  by rewrite land_ones_mod, shiftr_div by lia.
Qed.

(** The digits [escape_unicode] prints: as many as needed, at least one. *)
Lemma escape_unicode_eq c :
  0 ≤ c < 2 ^ 24 →
  ∃ d ds, escape_unicode c = str "\u{" ++ (hex_digit <$> d :: ds) ++ str "}" ∧
    Forall (λ d, 0 ≤ d < 16) (d :: ds) ∧ (length ds <= 5)%nat ∧ hex_value d ds = c.
Proof.
  intros Hc.
  set (all := [nibble c 20; nibble c 16; nibble c 12; nibble c 8; nibble c 4; nibble c 0]).
  assert (Forall (λ d, 0 ≤ d < 16) all) as Hall.
  { repeat constructor; rewrite nibble_eq by lia; apply Z.mod_pos_bound; lia. }
  assert (∀ k, Z.log2 (Z.lor c 1) = k → leading_zeros32 (Z.lor c 1) = 31 - k) as Hlz.
  { intros k <-. unfold leading_zeros32. destruct (Z.eqb_spec (Z.lor c 1) 0) as [E|]; [|done].
    apply Z.lor_eq_0_iff in E. lia. }
  assert (Z.log2 (Z.lor c 1) = Z.log2 c) as Hlog.
  { rewrite Z.log2_lor by lia. change (Z.log2 1) with 0. pose proof (Z.log2_nonneg c). lia. }
  pose proof (Hlz _ Hlog) as Hz. clear Hlz.
  assert (∀ k : nat, (k <= 5)%nat → 4 * (5 - Z.of_nat k) ≤ Z.log2 c < 4 * (6 - Z.of_nat k) →
    escape_unicode c = str "\u{" ++ (hex_digit <$> drop k all) ++ str "}") as Hesc.
  { intros k Hk Hr. unfold escape_unicode. rewrite Hz.
    replace ((31 - Z.log2 c) / 4 - 2) with (Z.of_nat k) by lia. rewrite Nat2Z.id.
    do 6 (destruct k as [|k]; [reflexivity|]). lia. }
  assert (∃ k : nat, (k <= 5)%nat ∧ 4 * (5 - Z.of_nat k) ≤ Z.log2 c < 4 * (6 - Z.of_nat k) ∧
            c < 16 ^ (6 - Z.of_nat k)) as (k&Hk&Hr&Hck).
  { pose proof (Z.log2_nonneg c).
    assert (Z.log2 c < 24).
    { destruct (decide (c = 0)) as [->|]; [done|]. apply Z.log2_lt_pow2; lia. }
    exists (Z.to_nat (5 - Z.log2 c / 4)). rewrite Z2Nat.id by lia. split_and!; [lia..|].
    change 16 with (2 ^ 4). rewrite <- Z.pow_mul_r by lia.
    destruct (decide (c = 0)) as [->|]; [apply pow2_pos; lia|].
    apply Z.log2_lt_pow2; lia. }
  rewrite (Hesc k Hk Hr). apply (Forall_drop _ k) in Hall. unfold all in *.
  assert (∀ s, 0 ≤ s → nibble c s = c / 2 ^ s mod 16) as Hn by (intros; by apply nibble_eq).
  do 6 (destruct k as [|k];
    [cbn [drop] in *; do 2 eexists; split_and!; [reflexivity|exact Hall|cbn; lia|];
     cbn [hex_value foldl]; rewrite !Hn by lia; clear - Hc Hck; cbn in Hck; lia|]).
  lia.
Qed.

(** [esc] is undone by one unit of mode [m]: what it prints is one unit that
    reads back as the value, whatever follows. *)
Definition undone {T} `{FromU8Char T} (m : Mode) (esc : list Z) (x : T) : Prop :=
  ∀ r, ∃ c l, esc ++ r = c :: l ∧ is_line_continuation c l = false ∧
    unescape_unit m c l = (inl x, r).

Lemma unescape_str_undone {T} `{FromU8Char T} m (esc : Z → list Z) (f : Z → T) s fuel n :
  Forall (λ c, undone m (esc c) (f c)) s → (length (concat (esc <$> s)) < fuel)%nat →
  ∃ evs, unescape_str_loop fuel n m (concat (esc <$> s)) = Ret evs ∧ snd <$> evs = inl ∘ f <$> s.
Proof.
  intros Hs. revert fuel. induction Hs as [|x s Hx Hs IH]; intros fuel Hf.
  - destruct fuel; [cbn in Hf; lia|]. by exists [].
  - cbn in Hf |- *. destruct fuel as [|fuel]; [lia|].
    destruct (Hx (concat (esc <$> s))) as (c&l&E&Hlc&Hu). rewrite E in Hf |- *.
    cbn [unescape_str_loop]. rewrite Hlc, Hu.
    destruct (local_unescape_unit m c l) as (t&Hl&_). rewrite Hu in Hl. cbn in Hl, Hf.
    destruct (IH fuel) as (evs&->&Hevs).
    { rewrite Hl, length_app in Hf. lia. }
    cbn [obind]. eexists. split; [done|]. cbn. by rewrite Hevs.
Qed.

(** A char that stands for itself. *)
Lemma undone_plain {T} `{FromU8Char T} m c :
  0x20 ≤ c < 0x7F → c ≠ ch "\" → c ≠ 34 → undone m [c] (from_char c).
Proof.
  intros Hc H1 H2 r. exists c, r. split; [done|]. unfold is_line_continuation, unescape_unit.
  destruct (Z.eqb_spec c (ch "\")); [done|]. split; [done|].
  destruct (Z.eqb_spec c 10); [lia|]. destruct (Z.eqb_spec c 9); [lia|].
  destruct (Z.eqb_spec c 34); [done|]. destruct (Z.eqb_spec c 13); [lia|].
  unfold sbind, ascii_check, is_ascii. destruct (Z.ltb_spec c 0x80); [|lia].
  by rewrite andb_false_r.
Qed.

(** Two-char escapes. *)
Lemma undone_backslash {T} `{FromU8Char T} m d x :
  In (d, x) [(ch "t", 9); (ch "r", 13); (ch "n", 10); (ch "\", ch "\"); (ch "'", ch "'"); (34, 34)] →
  undone m [ch "\"; d] (from_u8 x).
Proof.
  intros Hin r. exists (ch "\"), (d :: r).
  repeat (destruct Hin as [[= <- <-]|Hin]; [by split|]). done.
Qed.

Lemma undone_unicode {T} `{FromU8Char T} m c :
  is_unicode_escape_disallowed m = false → is_char c = true →
  undone m (escape_unicode c) (from_char c).
Proof.
  intros Hm Hc r.
  destruct (escape_unicode_eq c) as (d&ds&->&Hds&Hlen&Hv); [unfold is_char in Hc; lia|].
  exists (ch "\"), (str "u{" ++ (hex_digit <$> d :: ds) ++ str "}" ++ r).
  split; [cbn; by rewrite <- app_assoc|]. split; [done|].
  inversion Hds as [|? ? Hd Hds']; subst c. destruct (hex_digit_other d Hd) as [Hd1 Hd2].
  unfold unescape_unit, scan_escape, scan_unicode, sbind, next_or, ok_or.
  cbn [app Z.eqb Pos.eqb fmap list_fmap].
  destruct (Z.eqb_spec (hex_digit d) (ch "_")); [done|].
  destruct (Z.eqb_spec (hex_digit d) (ch "}")); [done|].
  rewrite to_digit_hex_digit by done. rewrite Hm. unfold sret at 2.
  pose proof (scan_unicode_loop_digits ds 1 d r Hds' ltac:(lia) ltac:(lia) ltac:(lia) Hc) as Hl.
  cbn in Hl |- *. by rewrite Hl.
Qed.

Lemma undone_hex {T} `{FromU8Char T} m b :
  ascii_escapes_should_be_ascii m = false → 0 ≤ b < 256 →
  undone m [ch "\"; ch "x"; hex_digit (Z.shiftr b 4); hex_digit (Z.land b 15)] (from_u8 b).
Proof.
  intros Hm Hb r. eexists _, _. split; [done|]. split; [done|].
  pose proof (nibble_eq b 0 ltac:(lia)) as Hlo. unfold nibble in Hlo. rewrite Z.shiftr_0_r in Hlo.
  rewrite Hlo, shiftr_div by lia.
  unfold unescape_unit, scan_escape, scan_hex, sbind, next_or, ok_or. cbn [app Z.eqb Pos.eqb].
  rewrite !to_digit_hex_digit by lia. unfold sret. rewrite Hm. cbn [andb].
  rewrite to_digit_hex_digit by lia. rewrite wrap_small by (split; lia). do 3 f_equal. lia.
Qed.

(** The forms of an escaped char ([uni]) or byte. *)
Inductive escaped (uni : bool) : list Z → Z → Prop :=
| esc_plain c :
    0x20 ≤ c < 0x7F → c ≠ ch "\" → c ≠ 34 → c ≠ ch "'" → escaped uni [c] c
| esc_backslash d x :
    In (d, x) [(ch "t", 9); (ch "r", 13); (ch "n", 10); (ch "\", ch "\"); (ch "'", ch "'"); (34, 34)] →
    escaped uni [ch "\"; d] x
| esc_unicode c : uni = true → is_char c = true → escaped uni (escape_unicode c) c
| esc_hex b :
    uni = false → 0 ≤ b < 256 →
    escaped uni [ch "\"; ch "x"; hex_digit (Z.shiftr b 4); hex_digit (Z.land b 15)] b.

Lemma escape_default_escaped c : is_char c = true → escaped true (escape_default c) c.
Proof.
  intros Hc. unfold escape_default.
  destruct (Z.eqb_spec c 9) as [->|]; [apply esc_backslash; cbn; tauto|].
  destruct (Z.eqb_spec c 13) as [->|]; [apply esc_backslash; cbn; tauto|].
  destruct (Z.eqb_spec c 10) as [->|]; [apply esc_backslash; cbn; tauto|].
  destruct (Z.eqb_spec c (ch "\")) as [->|]; [apply esc_backslash; cbn; tauto|].
  destruct (Z.eqb_spec c (ch "'")) as [->|]; [apply esc_backslash; cbn; tauto|].
  destruct (Z.eqb_spec c 34) as [->|]; [apply esc_backslash; cbn; tauto|]. cbn [orb].
  destruct (_ && _) eqn:E; [apply esc_plain; lia|by apply esc_unicode].
Qed.

Lemma escape_ascii_escaped b : 0 ≤ b < 256 → escaped false (escape_ascii b) b.
Proof.
  intros Hb. unfold escape_ascii.
  destruct (Z.eqb_spec b 9) as [->|]; [apply esc_backslash; cbn; tauto|].
  destruct (Z.eqb_spec b 13) as [->|]; [apply esc_backslash; cbn; tauto|].
  destruct (Z.eqb_spec b 10) as [->|]; [apply esc_backslash; cbn; tauto|].
  destruct (Z.eqb_spec b (ch "\")) as [->|]; [apply esc_backslash; cbn; tauto|].
  destruct (Z.eqb_spec b (ch "'")) as [->|]; [apply esc_backslash; cbn; tauto|].
  destruct (Z.eqb_spec b 34) as [->|]; [apply esc_backslash; cbn; tauto|].
  destruct (_ && _) eqn:E; [|by apply esc_hex].
  unfold is_ascii, is_ascii_control in E. apply esc_plain; lia.
Qed.

(** Escapes are undone in modes that allow them. *)
Lemma escaped_undone {T} `{FromU8Char T} (uni : bool) m e x :
  escaped uni e x →
  (if uni then is_unicode_escape_disallowed m else ascii_escapes_should_be_ascii m) = false →
  undone m e (from_char x) ∨ undone m e (from_u8 x).
Proof.
  intros [c ? ? ? ?|d y Hin|c -> Hc|b -> Hb] Hm.
  - left. by apply undone_plain.
  - right. by apply undone_backslash.
  - left. by apply undone_unicode.
  - right. by apply undone_hex.
Qed.

Lemma escape_default_undone m c :
  is_unicode_escape_disallowed m = false → is_char c = true →
  undone (T := Z) m (escape_default c) c.
Proof.
  intros Hm Hc. by destruct (escaped_undone (T := Z) true m _ c (escape_default_escaped c Hc) Hm).
Qed.

Lemma escape_ascii_undone m b :
  ascii_escapes_should_be_ascii m = false → 0 ≤ b < 256 →
  undone (T := Z) m (escape_ascii b) b.
Proof.
  intros Hm Hb. by destruct (escaped_undone (T := Z) false m _ b (escape_ascii_escaped b Hb) Hm).
Qed.

(** Round trip of string literals: escaping the chars of any string and
    unescaping the result gives the same chars back, without an error or a
    warning. *)
Theorem escape_str_roundtrip s :
  forallb is_char s = true →
  ∃ evs, unescape_literal (escape_str s) MStr = Ret evs ∧ snd <$> evs = inl <$> s.
Proof.
  intros Hs. apply (unescape_str_undone MStr escape_default (λ c, c)); [|unfold escape_str; lia].
  apply Forall_forall. intros c Hc. apply escape_default_undone; [done|].
  rewrite forallb_forall in Hs. apply Hs. by apply list_elem_of_In.
Qed.

(** Round trip of byte string literals: escaping any bytes and unescaping
    the result as a byte string gives the same bytes back. *)
Theorem escape_bytes_roundtrip s :
  Forall (λ b, 0 ≤ b < 256) s →
  ∃ evs, unescape_literal (escape_bytes s) MByteStr = Ret evs ∧ snd <$> evs = inl <$> s.
Proof.
  intros Hs. apply (unescape_str_undone MByteStr escape_ascii (λ c, c)); [|unfold escape_bytes; lia].
  eapply Forall_impl; [exact Hs|]. intros b Hb. by apply escape_ascii_undone.
Qed.

(** ** The properties at concrete inputs *)

Lemma unescape_literal_values_witness :
  ∃ evs, unescape_literal (str "a\xff\u{41}") MByteStr = Ret evs ∧
    all_units (λ c, value_ok MByteStr c ∧
                    (characters_should_be_ascii MByteStr = true → byte_from_char c = c)) evs.
Proof. by apply unescape_literal_values. Defined.

Lemma unescape_str_pieces_witness :
  ∃ (evs : list (event CStrUnit)) ps, unescape_str_common (str "a\q\xff\u{e9}") MCStr = Ret evs ∧
    concat (fst <$> ps) = str "a\q\xff\u{e9}" ∧
    Forall (piece_ok MCStr) ps ∧ List.filter not_warning evs = place 0 ps.
Proof. by apply unescape_str_pieces. Defined.

Lemma escape_str_roundtrip_witness :
  ∃ evs, unescape_literal (escape_str [0x1F600; 10; 34; 65; 0]) MStr = Ret evs ∧
    snd <$> evs = inl <$> [0x1F600; 10; 34; 65; 0].
Proof. by apply escape_str_roundtrip. Defined.

Lemma escape_bytes_roundtrip_witness :
  ∃ evs, unescape_literal (escape_bytes [255; 0; 92; 65]) MByteStr = Ret evs ∧
    snd <$> evs = inl <$> [255; 0; 92; 65].
Proof. apply escape_bytes_roundtrip. repeat first [apply List.Forall_nil | apply List.Forall_cons; [lia|]]. Defined.
