(* ===== verification/Abi.v ===== *)
(** The vocabulary of layouts, [rustc_abi/src/lib.rs]: sizes, alignments,
    integers, the fork's fields and curves, scalars with their valid ranges,
    niches, and the record [LayoutS].

    One-field structs are their field: a [Size] is its [u64] of bytes, an
    [Align] its exponent [pow2].  [try_into] of a [u64] and [bytes_usize] are
    the identity on a 64-bit host. *)

From S2P Require Import Prelude.

(** ** [Align] and [Size] *)

Definition Size := Z.
Definition Align := Z.

Inductive AlignFromBytesError := NotPowerOfTwo (align : Z) | TooLarge (align : Z).

Module Align.
Definition ONE : Align := 0.
Definition MAX : Align := 29.

(** [1 << self.pow2] on [u64] *)
Definition bytes (self : Align) : Z := wshl 64 1 self.
Definition bits (self : Align) : Z := wmul 64 (bytes self) 8.

Definition from_bytes (align : Z) : Align + AlignFromBytesError :=
  if align =? 0 then inl ONE
  else
    let tz := trailing_zeros 64 align in
    if negb (align =? wshl 64 1 tz) then inr (NotPowerOfTwo align)
    else
      let pow2 := wrap 8 tz in
      if MAX <? pow2 then inr (TooLarge align) else inl pow2.

Definition max_for_offset (offset : Size) : Align := wrap 8 (trailing_zeros 64 offset).
Definition restrict_for_offset (self : Align) (offset : Size) : Align :=
  Z.min self (max_for_offset offset).
End Align.

Module Size.
Definition ZERO : Size := 0.
Definition from_bytes (bytes : Z) : Size := bytes.
Definition from_bits (bits : Z) : Size := bits / 8 + (bits mod 8 + 7) / 8.
Definition bytes (self : Size) : Z := self.
Definition bits (self : Size) : outcome Z := unwrap (checked_mul 64 (bytes self) 8).

Definition align_to (self : Size) (align : Align) : Size :=
  let mask := wsub 64 (Align.bytes align) 1 in
  from_bytes (Z.land (wadd 64 (bytes self) mask) (wnot 64 mask)).
Definition is_aligned (self : Size) (align : Align) : bool :=
  let mask := wsub 64 (Align.bytes align) 1 in
  Z.land (bytes self) mask =? 0.

Definition add (self other : Size) : outcome Size :=
  omap_ from_bytes (unwrap (checked_add 64 (bytes self) (bytes other))).
Definition sub (self other : Size) : outcome Size :=
  omap_ from_bytes (unwrap (checked_sub (bytes self) (bytes other))).
Definition mul (self : Size) (count : Z) : outcome Size :=
  omap_ from_bytes (unwrap (checked_mul 64 (bytes self) count)).

Definition sign_extend (self : Size) (value : Z) : outcome Z :=
  let! size := bits self in
  if size =? 0 then Ret 0
  else
    let shift := wsub 64 128 size in
    Ret (of_signed 128 (Z.shiftr (to_signed 128 (wshl 128 value shift)) (shift mod 128))).
Definition truncate (self : Size) (value : Z) : outcome Z :=
  let! size := bits self in
  if size =? 0 then Ret 0
  else
    let shift := wsub 64 128 size in
    Ret (wshr 128 (wshl 128 value shift) shift).

(** The [i128] results are integers between [-2^127] and [2^127 - 1]. *)
Definition signed_int_min (self : Size) : outcome Z :=
  let! size := bits self in
  let! v := sign_extend self (wshl 128 1 (wsub 64 size 1)) in
  Ret (to_signed 128 v).
Definition signed_int_max (self : Size) : outcome Z :=
  let! size := bits self in
  Ret (Z.shiftr (2 ^ 127 - 1) (wsub 64 128 size mod 128)).
Definition unsigned_int_max (self : Size) : outcome Z :=
  let! size := bits self in
  Ret (wshr 128 (umax 128) (wsub 64 128 size)).
End Size.

(** [Align::from_bits] *)
Definition align_from_bits (bits : Z) : Align + AlignFromBytesError :=
  Align.from_bytes (Size.bytes (Size.from_bits bits)).

Record AbiAndPrefAlign := mkAlign { abi : Align; pref : Align }.

Module AbiAndPrefAlign.
Definition new (align : Align) : AbiAndPrefAlign := mkAlign align align.
Definition min (self other : AbiAndPrefAlign) : AbiAndPrefAlign :=
  mkAlign (Z.min (abi self) (abi other)) (Z.min (pref self) (pref other)).
Definition max (self other : AbiAndPrefAlign) : AbiAndPrefAlign :=
  mkAlign (Z.max (abi self) (abi other)) (Z.max (pref self) (pref other)).
End AbiAndPrefAlign.

(** ** Integers and the target *)

Inductive Integer := I8 | I16 | I32 | I64 | I128.

Inductive Endian := Little | Big.

(** [AddressSpace] is its [u32]. *)
Definition AddressSpace := Z.

Record TargetDataLayout := mkDataLayout {
  endian : Endian;
  i1_align : AbiAndPrefAlign;
  i8_align : AbiAndPrefAlign;
  i16_align : AbiAndPrefAlign;
  i32_align : AbiAndPrefAlign;
  i64_align : AbiAndPrefAlign;
  i128_align : AbiAndPrefAlign;
  f32_align : AbiAndPrefAlign;
  f64_align : AbiAndPrefAlign;
  pointer_size : Size;
  pointer_align : AbiAndPrefAlign;
  aggregate_align : AbiAndPrefAlign;
  vector_aligns : list (Size * AbiAndPrefAlign);
  instruction_address_space : AddressSpace;
  c_enum_min_size : Integer;
}.

#[global] Instance Integer_eq_dec : EqDecision Integer.
Proof. solve_decision. Defined.

(** [TargetDataLayout::default]; its alignments unwrap, [align_of] being
    [Align::from_bits(bits).unwrap()]. *)
Definition align_of (bits : Z) : outcome Align :=
  match align_from_bits bits with inl a => Ret a | inr _ => Panic end.

Definition default_data_layout : outcome TargetDataLayout :=
  let! a0 := align_of 0 in
  let! a8 := align_of 8 in
  let! a16 := align_of 16 in
  let! a32 := align_of 32 in
  let! a64 := align_of 64 in
  let! a128 := align_of 128 in
  Ret {| endian := Big;
         i1_align := AbiAndPrefAlign.new a8;
         i8_align := AbiAndPrefAlign.new a8;
         i16_align := AbiAndPrefAlign.new a16;
         i32_align := AbiAndPrefAlign.new a32;
         i64_align := mkAlign a32 a64;
         i128_align := mkAlign a32 a64;
         f32_align := AbiAndPrefAlign.new a32;
         f64_align := AbiAndPrefAlign.new a64;
         pointer_size := Size.from_bits 64;
         pointer_align := AbiAndPrefAlign.new a64;
         aggregate_align := mkAlign a0 a64;
         vector_aligns := [(Size.from_bits 64, AbiAndPrefAlign.new a64);
                           (Size.from_bits 128, AbiAndPrefAlign.new a128)];
         instruction_address_space := 0;
         c_enum_min_size := I32 |}.

Definition obj_size_bound (dl : TargetDataLayout) : outcome Z :=
  let! bits := Size.bits (pointer_size dl) in
  if bits =? 16 then Ret (2 ^ 15) else if bits =? 32 then Ret (2 ^ 31)
  else if bits =? 64 then Ret (2 ^ 47) else Panic.

Definition ptr_sized_integer (dl : TargetDataLayout) : outcome Integer :=
  let! bits := Size.bits (pointer_size dl) in
  if bits =? 16 then Ret I16 else if bits =? 32 then Ret I32
  else if bits =? 64 then Ret I64 else Panic.

(** [u64::next_power_of_two]; it wraps to zero above [2^63]. *)
Definition next_power_of_two (x : Z) : Z :=
  if x <=? 1 then 1 else wrap 64 (2 ^ Z.log2_up x).

Definition vector_align (dl : TargetDataLayout) (vec_size : Size) : outcome AbiAndPrefAlign :=
  match List.find (λ v, fst v =? vec_size) (vector_aligns dl) with
  | Some (_, align) => Ret align
  | None =>
      match Align.from_bytes (next_power_of_two (Size.bytes vec_size)) with
      | inl a => Ret (AbiAndPrefAlign.new a)
      | inr _ => Panic
      end
  end.

(** [Size::checked_add] and [Size::checked_mul] *)
Definition size_checked_add (self offset : Size) (dl : TargetDataLayout) : outcome (option Size) :=
  match checked_add 64 (Size.bytes self) (Size.bytes offset) with
  | None => Ret None
  | Some bytes =>
      let! bound := obj_size_bound dl in
      Ret (if bytes <? bound then Some (Size.from_bytes bytes) else None)
  end.
Definition size_checked_mul (self : Size) (count : Z) (dl : TargetDataLayout)
    : outcome (option Size) :=
  match checked_mul 64 (Size.bytes self) count with
  | None => Ret None
  | Some bytes =>
      let! bound := obj_size_bound dl in
      Ret (if bytes <? bound then Some (Size.from_bytes bytes) else None)
  end.

Module Integer.
Definition size (self : Integer) : Size :=
  match self with
  | I8 => Size.from_bytes 1 | I16 => Size.from_bytes 2 | I32 => Size.from_bytes 4
  | I64 => Size.from_bytes 8 | I128 => Size.from_bytes 16
  end.

Definition align (self : Integer) (dl : TargetDataLayout) : AbiAndPrefAlign :=
  match self with
  | I8 => i8_align dl | I16 => i16_align dl | I32 => i32_align dl
  | I64 => i64_align dl | I128 => i128_align dl
  end.

Definition signed_max (self : Integer) : Z :=
  match self with
  | I8 => 2 ^ 7 - 1 | I16 => 2 ^ 15 - 1 | I32 => 2 ^ 31 - 1
  | I64 => 2 ^ 63 - 1 | I128 => 2 ^ 127 - 1
  end.

Definition fit_signed (x : Z) : Integer :=
  if (- 0x80 <=? x) && (x <=? 0x7f) then I8
  else if (- 0x8000 <=? x) && (x <=? 0x7fff) then I16
  else if (- 0x80000000 <=? x) && (x <=? 0x7fffffff) then I32
  else if (- 0x8000000000000000 <=? x) && (x <=? 0x7fffffffffffffff) then I64
  else I128.

Definition fit_unsigned (x : Z) : Integer :=
  if x <=? 0xff then I8
  else if x <=? 0xffff then I16
  else if x <=? 0xffffffff then I32
  else if x <=? 0xffffffffffffffff then I64
  else I128.

Definition for_align (dl : TargetDataLayout) (wanted : Align) : option Integer :=
  List.find (λ candidate,
      (wanted =? abi (align candidate dl))
      && (Align.bytes wanted =? Size.bytes (size candidate)))
    [I8; I16; I32; I64; I128].

Definition approximate_align (dl : TargetDataLayout) (wanted : Align) : Integer :=
  default I8 (List.find (λ candidate,
      (abi (align candidate dl) <=? wanted)
      && (Size.bytes (size candidate) <=? Align.bytes wanted))
    [I64; I32; I16]).

Definition from_size (sz : Size) : outcome (option Integer) :=
  let! bits := Size.bits sz in
  Ret (if bits =? 8 then Some I8 else if bits =? 16 then Some I16
       else if bits =? 32 then Some I32 else if bits =? 64 then Some I64
       else if bits =? 128 then Some I128 else None).
End Integer.

(** ** Galois fields and elliptic curves *)

Inductive Field :=
| Bls12381Base | Bls12381Scalar | Curve25519Base | Curve25519Scalar | PallasBase | PallasScalar.

Inductive Curve := Bls12381 | Curve25519 | Pallas | Vesta.

#[global] Instance Field_eq_dec : EqDecision Field.
Proof. solve_decision. Defined.
#[global] Instance Curve_eq_dec : EqDecision Curve.
Proof. solve_decision. Defined.

Module Field.
Definition size (self : Field) : Size :=
  match self with
  | Bls12381Base => Size.from_bytes 48
  | Bls12381Scalar => Size.from_bytes 32
  | Curve25519Base => Size.from_bytes 32
  | Curve25519Scalar => Size.from_bytes 32
  | PallasBase => Size.from_bytes 32
  | PallasScalar => Size.from_bytes 32
  end.

Definition real_bits (self : Field) : Z :=
  match self with
  | Bls12381Base => 381
  | Bls12381Scalar => 255
  | Curve25519Base => 255
  | Curve25519Scalar => 253
  | PallasBase => 255
  | PallasScalar => 255
  end.

Definition align : outcome AbiAndPrefAlign :=
  match Align.from_bytes 0 with inl a => Ret (AbiAndPrefAlign.new a) | inr _ => Panic end.
End Field.

Module Curve.
Definition size (self : Curve) : outcome Size :=
  match self with
  | Bls12381 => Size.mul (Field.size Bls12381Base) 2
  | Curve25519 => Size.mul (Field.size Curve25519Base) 2
  | Pallas => Size.mul (Field.size PallasBase) 2
  | Vesta => Size.mul (Field.size PallasScalar) 2
  end.

Definition real_bits (self : Curve) : Z :=
  match self with
  | Bls12381 => wmul 64 (Field.real_bits Bls12381Base) 2
  | Curve25519 => wmul 64 (Field.real_bits Curve25519Base) 2
  | Pallas => wmul 64 (Field.real_bits PallasBase) 2
  | Vesta => wmul 64 (Field.real_bits PallasScalar) 2
  end.

Definition align : outcome AbiAndPrefAlign :=
  match Align.from_bytes 0 with inl a => Ret (AbiAndPrefAlign.new a) | inr _ => Panic end.
End Curve.

(** ** Primitives, ranges, scalars *)

Inductive Primitive := Int (i : Integer) (signed : bool) | F32 | F64 | Pointer (a : AddressSpace).

Module Primitive.
Definition size (self : Primitive) (dl : TargetDataLayout) : Size :=
  match self with
  | Int i _ => Integer.size i
  | F32 => Size.from_bits 32
  | F64 => Size.from_bits 64
  | Pointer _ => pointer_size dl
  end.
Definition align (self : Primitive) (dl : TargetDataLayout) : AbiAndPrefAlign :=
  match self with
  | Int i _ => Integer.align i dl
  | F32 => f32_align dl
  | F64 => f64_align dl
  | Pointer _ => pointer_align dl
  end.
End Primitive.

Record WrappingRange := mkRange { start : Z; end_ : Z }.

#[global] Instance Primitive_eq_dec : EqDecision Primitive.
Proof. solve_decision. Defined.
#[global] Instance WrappingRange_eq_dec : EqDecision WrappingRange.
Proof. solve_decision. Defined.

Module WrappingRange.
Definition full (size : Size) : outcome WrappingRange :=
  let! max := Size.unsigned_int_max size in Ret (mkRange 0 max).
Definition contains (self : WrappingRange) (v : Z) : bool :=
  if start self <=? end_ self then (start self <=? v) && (v <=? end_ self)
  else (start self <=? v) || (v <=? end_ self).
Definition with_start (self : WrappingRange) (s : Z) : WrappingRange := mkRange s (end_ self).
Definition with_end (self : WrappingRange) (e : Z) : WrappingRange := mkRange (start self) e.
Definition is_full_for (self : WrappingRange) (size : Size) : outcome bool :=
  let! max_value := Size.unsigned_int_max size in
  Ret (start self =? Z.land (wadd 128 (end_ self) 1) max_value).
End WrappingRange.

(** [Scalar]; its variant [Union] is [UnionScalar]. *)
Inductive Scalar :=
| Initialized (value : Primitive) (valid_range : WrappingRange)
| UnionScalar (value : Primitive).

#[global] Instance Scalar_eq_dec : EqDecision Scalar.
Proof. solve_decision. Defined.

Module Scalar.
Definition is_bool (self : Scalar) : bool :=
  bool_decide (self = Initialized (Int I8 false) (mkRange 0 1)).
Definition primitive (self : Scalar) : Primitive :=
  match self with Initialized value _ | UnionScalar value => value end.
Definition align (self : Scalar) (dl : TargetDataLayout) : AbiAndPrefAlign :=
  Primitive.align (primitive self) dl.
Definition size (self : Scalar) (dl : TargetDataLayout) : Size :=
  Primitive.size (primitive self) dl.
Definition to_union (self : Scalar) : Scalar := UnionScalar (primitive self).
Definition valid_range (self : Scalar) (dl : TargetDataLayout) : outcome WrappingRange :=
  match self with
  | Initialized _ valid_range => Ret valid_range
  | UnionScalar value => WrappingRange.full (Primitive.size value dl)
  end.
Definition is_always_valid (self : Scalar) (dl : TargetDataLayout) : outcome bool :=
  match self with
  | Initialized _ valid_range => WrappingRange.is_full_for valid_range (size self dl)
  | UnionScalar _ => Ret true
  end.
Definition is_uninit_valid (self : Scalar) : bool :=
  match self with Initialized _ _ => false | UnionScalar _ => true end.
End Scalar.

(** ** Niches *)

Record Niche := mkNiche { offset : Size; value : Primitive; valid_range : WrappingRange }.

Module Niche.
Definition available (self : Niche) (dl : TargetDataLayout) : outcome Z :=
  let v := valid_range self in
  let size := Primitive.size (value self) dl in
  let! bits := Size.bits size in
  rassert (bits <=? 128) (
  let! max_value := Size.unsigned_int_max size in
  Ret (Z.land (wsub 128 (start v) (wadd 128 (end_ v) 1)) max_value)).

Definition from_scalar (dl : TargetDataLayout) (offset : Size) (scalar : Scalar)
    : outcome (option Niche) :=
  match scalar with
  | UnionScalar _ => Ret None
  | Initialized value valid_range =>
      let niche := mkNiche offset value valid_range in
      let! n := available niche dl in
      Ret (if 0 <? n then Some niche else None)
  end.

Definition reserve (self : Niche) (dl : TargetDataLayout) (count : Z)
    : outcome (option (Z * Scalar)) :=
  rassert (0 <? count) (
  let v := valid_range self in
  let size := Primitive.size (value self) dl in
  let! bits := Size.bits size in
  rassert (bits <=? 128) (
  let! max_value := Size.unsigned_int_max size in
  let available := Z.land (wsub 128 (start v) (wadd 128 (end_ v) 1)) max_value in
  if available <? count then Ret None
  else
    let move_start :=
      let start := Z.land (wsub 128 (start v) count) max_value in
      Ret (Some (start, Initialized (value self) (WrappingRange.with_start v start))) in
    let move_end :=
      let start := Z.land (wadd 128 (end_ v) 1) max_value in
      let end_ := Z.land (wadd 128 (end_ v) count) max_value in
      Ret (Some (start, Initialized (value self) (WrappingRange.with_end v end_))) in
    let distance_end_zero := wsub 128 max_value (end_ v) in
    if end_ v <? start v then move_end
    else if start v <=? distance_end_zero then
      if count <=? start v then move_start else move_end
    else
      let end' := Z.land (wadd 128 (end_ v) count) max_value in
      let overshot_zero := (1 <=? end') && (end' <=? end_ v) in
      if overshot_zero then move_start else move_end)).
End Niche.

(** ** Shapes, ABIs, layouts *)

(** [FieldsShape]: [Primitive], [Union], [Array] and [Arbitrary] *)
Inductive FieldsShape :=
| PrimitiveShape
| UnionShape (count : Z)
| ArrayShape (stride : Size) (count : Z)
| ArbitraryShape (offsets : list Size) (memory_index : list Z).

Module FieldsShape.
Definition count (self : FieldsShape) : Z :=
  match self with
  | PrimitiveShape => 0
  | UnionShape count => count
  | ArrayShape _ count => count
  | ArbitraryShape offsets _ => Z.of_nat (length offsets)
  end.

Definition offset (self : FieldsShape) (i : Z) : outcome Size :=
  match self with
  | PrimitiveShape => Panic
  | UnionShape count => rassert (i <? count) (Ret Size.ZERO)
  | ArrayShape stride count => rassert (i <? count) (Size.mul stride i)
  | ArbitraryShape offsets _ => unwrap (offsets !! Z.to_nat i)
  end.

Definition memory_index (self : FieldsShape) (i : Z) : outcome Z :=
  match self with
  | PrimitiveShape => Panic
  | UnionShape _ | ArrayShape _ _ => Ret i
  | ArbitraryShape _ memory_index => unwrap (memory_index !! Z.to_nat i)
  end.

(** [for (field_idx, &mem_idx) in memory_index.iter_enumerated()
    { inverse[mem_idx] = field_idx }], from field [i] on *)
Fixpoint invert_loop (i : Z) (memory_index inverse : list Z) : outcome (list Z) :=
  match memory_index with
  | [] => Ret inverse
  | mem_idx :: rest =>
      rassert (Z.to_nat mem_idx <? length inverse)%nat
        (invert_loop (i + 1) rest (<[Z.to_nat mem_idx := i]> inverse))
  end.

(** The fields in the order [index_by_increasing_offset] yields them: small
    shapes keep the inverse in an array of 64 bytes, the others in a vector. *)
Definition index_by_increasing_offset (self : FieldsShape) : outcome (list Z) :=
  match self with
  | PrimitiveShape | UnionShape _ | ArrayShape _ _ => Ret (seqZ 0 (count self))
  | ArbitraryShape _ memory_index =>
      let use_small := count self <=? 64 in
      let! inverse :=
        if use_small then invert_loop 0 memory_index (replicate 64 0)
        else invert_loop 0 memory_index (replicate (length memory_index) 0) in
      let inverse := if use_small then wrap 8 <$> inverse else inverse in
      unwrap (mapM (λ i, inverse !! Z.to_nat i) (seqZ 0 (count self)))
  end.
End FieldsShape.

(** [Abi]; the variants that would hide type names get the prefix [Abi]. *)
Inductive Abi :=
| Uninhabited
| AbiScalar (s : Scalar)
| ScalarPair (s1 s2 : Scalar)
| Vector (element : Scalar) (count : Z)
| Aggregate (sized : bool)
| AbiField (f : Field)
| AbiCurve (c : Curve).

#[global] Instance Abi_eq_dec : EqDecision Abi.
Proof. solve_decision. Defined.

Module Abi.
Definition is_unsized (self : Abi) : bool :=
  match self with
  | Uninhabited | AbiScalar _ | ScalarPair _ _ | Vector _ _ => false
  | AbiField _ => false
  | AbiCurve _ => false
  | Aggregate sized => negb sized
  end.
Definition is_sized (self : Abi) : bool := negb (is_unsized self).
Definition is_signed (self : Abi) : outcome bool :=
  match self with
  | AbiScalar scal => match Scalar.primitive scal with Int _ signed => Ret signed | _ => Ret false end
  | _ => Panic
  end.
Definition is_uninhabited (self : Abi) : bool :=
  match self with Uninhabited => true | _ => false end.
Definition is_scalar (self : Abi) : bool := match self with AbiScalar _ => true | _ => false end.
Definition is_field (self : Abi) : bool := match self with AbiField _ => true | _ => false end.
Definition is_curve (self : Abi) : bool := match self with AbiCurve _ => true | _ => false end.

Definition inherent_align (self : Abi) (dl : TargetDataLayout)
    : outcome (option AbiAndPrefAlign) :=
  match self with
  | AbiScalar s => Ret (Some (Scalar.align s dl))
  | ScalarPair s1 s2 => Ret (Some (AbiAndPrefAlign.max (Scalar.align s1 dl) (Scalar.align s2 dl)))
  | AbiField _ => omap_ Some Field.align
  | AbiCurve _ => omap_ Some Curve.align
  | Vector element count =>
      let! sz := Size.mul (Scalar.size element dl) count in
      omap_ Some (vector_align dl sz)
  | Uninhabited | Aggregate _ => Ret None
  end.

Definition inherent_size (self : Abi) (dl : TargetDataLayout) : outcome (option Size) :=
  match self with
  | AbiScalar s => Ret (Some (Scalar.size s dl))
  | ScalarPair s1 s2 =>
      let field2_offset := Size.align_to (Scalar.size s1 dl) (abi (Scalar.align s2 dl)) in
      let! sz := Size.add field2_offset (Scalar.size s2 dl) in
      let! align := inherent_align self dl in
      Ret (match align with Some align => Some (Size.align_to sz (abi align)) | None => None end)
  | AbiField f => Ret (Some (Field.size f))
  | AbiCurve c => omap_ Some (Curve.size c)
  | Vector element count =>
      let! sz := Size.mul (Scalar.size element dl) count in
      let! align := inherent_align self dl in
      Ret (match align with Some align => Some (Size.align_to sz (abi align)) | None => None end)
  | Uninhabited | Aggregate _ => Ret None
  end.

Definition to_union (self : Abi) : outcome Abi :=
  match self with
  | AbiScalar s => Ret (AbiScalar (Scalar.to_union s))
  | ScalarPair s1 s2 => Ret (ScalarPair (Scalar.to_union s1) (Scalar.to_union s2))
  | AbiField _ => Panic
  | AbiCurve _ => Panic
  | Vector element count => Ret (Vector (Scalar.to_union element) count)
  | Uninhabited | Aggregate _ => Ret (Aggregate true)
  end.
End Abi.

Inductive TagEncoding :=
| Direct
| NicheEncoding (untagged_variant : Z) (niche_first niche_last : Z) (niche_start : Z).

(** [Variants], over the type [L] of layouts *)
Inductive Variants (L : Type) :=
| Single (index : Z)
| Multiple (tag : Scalar) (tag_encoding : TagEncoding) (tag_field : Z) (variants : list L).
Arguments Single {L} index.
Arguments Multiple {L} tag tag_encoding tag_field variants.

Inductive LayoutS := mkLayout {
  fields : FieldsShape;
  variants : Variants LayoutS;
  layout_abi : Abi;
  largest_niche : option Niche;
  align : AbiAndPrefAlign;
  size : Size;
  max_repr_align : option Align;
  unadjusted_abi_align : Align;
}.

Definition FIRST_VARIANT : Z := 0.

Module LayoutS.
Definition scalar (dl : TargetDataLayout) (s : Scalar) : outcome LayoutS :=
  let! largest_niche := Niche.from_scalar dl Size.ZERO s in
  let size := Scalar.size s dl in
  let align := Scalar.align s dl in
  Ret {| variants := Single FIRST_VARIANT; fields := PrimitiveShape; layout_abi := AbiScalar s;
         largest_niche := largest_niche; size := size; align := align;
         max_repr_align := None; unadjusted_abi_align := abi align |}.

Definition field (f : Field) : outcome LayoutS :=
  let size := Field.size f in
  let! align := Field.align in
  Ret {| variants := Single FIRST_VARIANT; fields := PrimitiveShape; layout_abi := AbiField f;
         largest_niche := None; size := size; align := align;
         max_repr_align := None; unadjusted_abi_align := abi align |}.

Definition curve (c : Curve) : outcome LayoutS :=
  let! size := Curve.size c in
  let! align := Curve.align in
  Ret {| variants := Single FIRST_VARIANT; fields := PrimitiveShape; layout_abi := AbiCurve c;
         largest_niche := None; size := size; align := align;
         max_repr_align := None; unadjusted_abi_align := abi align |}.

Definition is_unsized (self : LayoutS) : bool := Abi.is_unsized (layout_abi self).
Definition is_sized (self : LayoutS) : bool := Abi.is_sized (layout_abi self).

Definition is_zst (self : LayoutS) : bool :=
  match layout_abi self with
  | AbiScalar _ | ScalarPair _ _ | Vector _ _ => false
  | AbiField _ => false
  | AbiCurve _ => false
  | Uninhabited => Size.bytes (size self) =? 0
  | Aggregate sized => sized && (Size.bytes (size self) =? 0)
  end.
End LayoutS.

Inductive StructKind := AlwaysSized | MaybeUnsized | Prefixed (prefix_size : Size) (prefix_align : Align).

(** ** Representation options *)

Inductive IntegerType := PointerType (signed : bool) | Fixed (i : Integer) (signed : bool).

(** The flags of [ReprOptions] as a record; [field_shuffle_seed] is read only
    when fields are shuffled. *)
Record ReprOptions := mkRepr {
  repr_int : option IntegerType;
  repr_align : option Align;
  repr_pack : option Align;
  is_c : bool;
  is_simd : bool;
  is_transparent : bool;
  is_linear : bool;
  randomize_layout : bool;
  field_shuffle_seed : Z;
}.

Module ReprOptions.
Definition packed (self : ReprOptions) : bool :=
  match repr_pack self with Some _ => true | None => false end.
Definition discr_type (self : ReprOptions) : IntegerType :=
  default (PointerType true) (repr_int self).
Definition inhibit_enum_layout_opt (self : ReprOptions) : bool :=
  is_c self || match repr_int self with Some _ => true | None => false end.
Definition inhibit_struct_field_reordering_opt (self : ReprOptions) : bool :=
  match repr_pack self with Some pack => Align.bytes pack =? 1 | None => false end
  || (is_c self || is_simd self || is_linear self)
  || match repr_int self with Some _ => true | None => false end.
Definition can_randomize_type_layout (self : ReprOptions) : bool :=
  negb (inhibit_struct_field_reordering_opt self) && randomize_layout self.
Definition inhibit_union_abi_opt (self : ReprOptions) : bool := is_c self.
End ReprOptions.
