(* ===== verification/AbiProps.v ===== *)
(** What sizes, alignments, integers, ranges and niches promise to the layout
    computation. *)

From S2P Require Import Prelude Abi.

(** ** Machine arithmetic *)

Lemma align_bytes_pow2 p : 0 ≤ p < 64 → Align.bytes p = 2 ^ p.
Proof.
  intros Hp. unfold Align.bytes, wshl. rewrite Z.mod_small, Z.shiftl_1_l by lia.
  apply wrap_small. split; [lia|]. apply Z.pow_lt_mono_r; lia.
Qed.

Lemma align_mask p : 0 ≤ p < 64 → wsub 64 (Align.bytes p) 1 = 2 ^ p - 1.
Proof.
  intros Hp. rewrite align_bytes_pow2 by done. apply wrap_small.
  pose proof (pow2_pos p ltac:(lia)). assert (2 ^ p < 2 ^ 64) by (apply Z.pow_lt_mono_r; lia).
  split; lia.
Qed.

(** Clearing the [p] low bits. *)
Lemma land_wnot_mask w p x :
  0 ≤ p ≤ w → is_uint w x → Z.land x (wnot w (2 ^ p - 1)) = 2 ^ p * (x / 2 ^ p).
Proof.
  intros Hp [Hx1 Hx2]. unfold wnot, umax.
  replace (2 ^ w - 1 - (2 ^ p - 1)) with (Z.shiftl (Z.ones (w - p)) p).
  2: { rewrite shiftl_mul, Z.ones_equiv by lia. unfold Z.pred.
       replace ((2 ^ (w - p) + -1) * 2 ^ p) with (2 ^ (w - p) * 2 ^ p - 2 ^ p) by lia.
       rewrite <- Z.pow_add_r by lia. replace (w - p + p) with w by lia. lia. }
  rewrite Z.mul_comm, <- shiftr_div, <- shiftl_mul by lia.
  apply Z.bits_inj'. intros i Hi. rewrite Z.land_spec.
  destruct (Z.ltb_spec i p).
  - rewrite !Z.shiftl_spec_low by lia. by rewrite andb_false_r.
  - rewrite !Z.shiftl_spec, Z.shiftr_spec by lia. replace (i - p + p) with i by lia.
    destruct (Z.ltb_spec i w).
    + rewrite Z.ones_spec_low by lia. by rewrite andb_true_r.
    + rewrite Z.ones_spec_high by lia. rewrite andb_false_r.
      destruct (decide (x = 0)) as [->|]; [by rewrite Z.bits_0|].
      rewrite Z.bits_above_log2; [done|lia|]. apply Z.log2_lt_pow2; [lia|].
      assert (2 ^ w ≤ 2 ^ i) by (apply Z.pow_le_mono_r; lia). lia.
Qed.

(** ** Sizes *)

Lemma align_to_eq s p :
  0 ≤ p < 64 → 0 ≤ s → s + 2 ^ p - 1 < 2 ^ 64 →
  Size.align_to s p = 2 ^ p * ((s + 2 ^ p - 1) / 2 ^ p).
Proof.
  intros Hp Hs Hb. unfold Size.align_to, Size.from_bytes, Size.bytes. rewrite align_mask by done.
  pose proof (pow2_pos p ltac:(lia)). unfold wadd. rewrite wrap_small by (split; lia).
  replace (s + (2 ^ p - 1)) with (s + 2 ^ p - 1) by lia.
  apply land_wnot_mask; [lia|split; lia].
Qed.

Lemma is_aligned_iff s p :
  0 ≤ p < 64 → Size.is_aligned s p = true ↔ (2 ^ p | s).
Proof.
  intros Hp. unfold Size.is_aligned, Size.bytes. rewrite align_mask, land_ones_mod by lia.
  rewrite Z.eqb_eq. pose proof (pow2_pos p ltac:(lia)). by rewrite Z.mod_divide by lia.
Qed.

(** The least multiple of the alignment that is not below the size. *)
Lemma align_to_least s p :
  0 ≤ p < 64 → 0 ≤ s → s + 2 ^ p - 1 < 2 ^ 64 →
  (2 ^ p | Size.align_to s p) ∧ s ≤ Size.align_to s p ∧
  ∀ t, (2 ^ p | t) → s ≤ t → Size.align_to s p ≤ t.
Proof.
  intros Hp Hs Hb. rewrite align_to_eq by done. pose proof (pow2_pos p ltac:(lia)).
  pose proof (Z.div_mod (s + 2 ^ p - 1) (2 ^ p) ltac:(lia)).
  pose proof (Z.mod_pos_bound (s + 2 ^ p - 1) (2 ^ p) ltac:(lia)).
  split_and!; [apply Z.divide_factor_l|lia|].
  intros t [k ->] Ht. rewrite Z.mul_comm. apply Z.mul_le_mono_nonneg_r; [lia|].
  apply Z.lt_succ_r, Z.div_lt_upper_bound; [lia|]. lia.
Qed.

Lemma align_to_aligned s p :
  0 ≤ p < 64 → 0 ≤ s → s + 2 ^ p - 1 < 2 ^ 64 → (2 ^ p | s) → Size.align_to s p = s.
Proof.
  intros Hp Hs Hb Hd. destruct (align_to_least s p Hp Hs Hb) as (_&H1&H2).
  specialize (H2 s Hd). lia.
Qed.

Lemma align_to_lt s p :
  0 ≤ p < 64 → 0 ≤ s → s + 2 ^ p - 1 < 2 ^ 64 → Size.align_to s p < s + 2 ^ p.
Proof.
  intros Hp Hs Hb. rewrite align_to_eq by done. pose proof (pow2_pos p ltac:(lia)).
  pose proof (Z.mul_div_le (s + 2 ^ p - 1) (2 ^ p)). lia.
Qed.

Lemma size_bits_ret s : 0 ≤ s → s * 8 < 2 ^ 64 → Size.bits s = Ret (s * 8).
Proof.
  intros. unfold Size.bits, checked_mul, Size.bytes. by destruct (Z.ltb_spec (s * 8) (2 ^ 64)); [|lia].
Qed.

(** Sizes that a [u128] can hold. *)
Definition small_size (s : Size) : Prop := 1 ≤ s ≤ 16.

Lemma small_size_bits s : small_size s → Size.bits s = Ret (s * 8) ∧ wsub 64 128 (s * 8) = 128 - s * 8.
Proof.
  intros [H1 H2]. rewrite size_bits_ret by lia. split; [done|]. apply wrap_small. split; lia.
Qed.

Lemma truncate_mod s v :
  small_size s → is_uint 128 v → Size.truncate s v = Ret (v mod 2 ^ (s * 8)).
Proof.
  intros Hs Hv. unfold Size.truncate. destruct (small_size_bits s Hs) as [-> Hsh]. cbn [obind].
  rewrite Hsh. destruct Hs as [H1 H2]. destruct (Z.eqb_spec (s * 8) 0); [lia|].
  unfold wshr, wshl, wrap. rewrite (Z.mod_small (128 - s * 8)) by lia.
  rewrite shiftr_div, shiftl_mul by lia. f_equal.
  replace (2 ^ 128) with (2 ^ (s * 8) * 2 ^ (128 - s * 8))
    by (rewrite <- Z.pow_add_r by lia; f_equal; lia).
  pose proof (pow2_pos (128 - s * 8) ltac:(lia)). pose proof (pow2_pos (s * 8) ltac:(lia)).
  rewrite Z.mul_mod_distr_r by lia. apply Z.div_mul. lia.
Qed.

(** Shifting left and arithmetically back: the low bits, read as signed. *)
Lemma shift_sign_extend s v :
  small_size s →
  Z.shiftr (to_signed 128 (wshl 128 v (128 - s * 8))) ((128 - s * 8) mod 128)
  = to_signed (s * 8) (v mod 2 ^ (s * 8)).
Proof.
  intros [H1 H2]. unfold wshl, wrap. rewrite (Z.mod_small (128 - s * 8)) by lia.
  rewrite shiftr_div, shiftl_mul by lia.
  assert (2 ^ 128 = 2 ^ (s * 8) * 2 ^ (128 - s * 8)) as Hp
    by (rewrite <- Z.pow_add_r by lia; f_equal; lia).
  assert (2 ^ 127 = 2 ^ (s * 8 - 1) * 2 ^ (128 - s * 8)) as Hq
    by (rewrite <- Z.pow_add_r by lia; f_equal; lia).
  pose proof (pow2_pos (128 - s * 8) ltac:(lia)) as Hk.
  pose proof (pow2_pos (s * 8) ltac:(lia)) as Hb.
  rewrite Hp at 1. rewrite Z.mul_mod_distr_r by lia.
  set (m := v mod 2 ^ (s * 8)). unfold to_signed. change (128 - 1) with 127.
  rewrite Hq, Hp. set (k := 2 ^ (128 - s * 8)) in *.
  destruct (Z.ltb_spec m (2 ^ (s * 8 - 1))), (Z.ltb_spec (m * k) (2 ^ (s * 8 - 1) * k)); try nia.
  - by rewrite Z.div_mul by lia.
  - rewrite <- Z.mul_sub_distr_r. by rewrite Z.div_mul by lia.
Qed.

Lemma sign_extend_value s v :
  small_size s → is_uint 128 v →
  Size.sign_extend s v = Ret (of_signed 128 (to_signed (s * 8) (v mod 2 ^ (s * 8)))).
Proof.
  intros Hs Hv. unfold Size.sign_extend. destruct (small_size_bits s Hs) as [-> Hsh]. cbn [obind].
  rewrite Hsh. pose proof Hs as [H1 H2]. destruct (Z.eqb_spec (s * 8) 0); [lia|].
  by rewrite shift_sign_extend.
Qed.

Lemma unsigned_int_max_value s :
  small_size s → Size.unsigned_int_max s = Ret (2 ^ (s * 8) - 1).
Proof.
  intros Hs. unfold Size.unsigned_int_max. destruct (small_size_bits s Hs) as [-> Hsh]. cbn [obind].
  rewrite Hsh. destruct Hs as [H1 H2]. unfold wshr, umax. rewrite (Z.mod_small (128 - s * 8)) by lia.
  f_equal. change (2 ^ 128 - 1) with (Z.ones 128).
  rewrite shiftr_div, Z.ones_div_pow2, Z.ones_equiv by lia.
  replace (128 - (128 - s * 8)) with (s * 8) by lia. lia.
Qed.

(** ** Alignments *)

Lemma pos_trailing_zeros_spec p :
  0 ≤ pos_trailing_zeros p ∧ ∃ k, Zpos p = 2 ^ pos_trailing_zeros p * (2 * k + 1) ∧ 0 ≤ k.
Proof.
  induction p as [p IH|p [Hz (k&IH&Hk)]|]; cbn [pos_trailing_zeros].
  - split; [lia|]. exists (Zpos p). cbn. lia.
  - split; [lia|]. exists k. split; [|done]. rewrite Z.pow_add_r by lia.
    rewrite Pos2Z.inj_xO, IH. lia.
  - split; [lia|]. by exists 0.
Qed.

Lemma trailing_zeros_pow2 p : 0 ≤ p → trailing_zeros 64 (2 ^ p) = p.
Proof.
  intros Hp. pose proof (pow2_pos p Hp). destruct (2 ^ p) as [|q|q] eqn:E; try lia.
  unfold trailing_zeros. destruct (pos_trailing_zeros_spec q) as [Hz (k&Hq&Hk)].
  rewrite <- E in Hq. set (t := pos_trailing_zeros q) in *.
  destruct (decide (t = p)) as [|Hne]; [done|]. exfalso.
  destruct (decide (t < p)).
  - replace (2 ^ p) with (2 ^ t * (2 * 2 ^ (p - t - 1))) in Hq.
    2: { rewrite <- Z.pow_succ_r, <- Z.pow_add_r by lia. f_equal. lia. }
    pose proof (pow2_pos t Hz). apply Z.mul_cancel_l in Hq; lia.
  - assert (2 ^ p < 2 ^ t) by (apply Z.pow_lt_mono_r; lia). nia.
Qed.

(** [from_bytes] accepts zero and the powers of two up to [2^29]. *)
Lemma align_from_bytes_ok n a :
  is_uint 64 n → Align.from_bytes n = inl a ↔ 0 ≤ a ≤ 29 ∧ (n = 2 ^ a ∨ n = 0 ∧ a = 0).
Proof.
  intros [Hn1 Hn2]. unfold Align.from_bytes, Align.ONE, Align.MAX.
  destruct (Z.eqb_spec n 0) as [->|Hn].
  { split; [intros [= <-]; lia|]. intros [Ha [E|[_ ->]]]; [|done].
    pose proof (pow2_pos a ltac:(lia)). lia. }
  assert (∀ p, n = 2 ^ p → 0 ≤ p → wshl 64 1 (trailing_zeros 64 n) = n ∧ trailing_zeros 64 n = p ∧ p < 64)
    as Hpow.
  { intros p -> Hp. assert (p < 64) by (apply (Z.pow_lt_mono_r_iff 2); lia).
    rewrite trailing_zeros_pow2 by done. split_and!; [|done..]. by rewrite <- align_bytes_pow2. }
  split.
  - destruct (Z.eqb_spec n (wshl 64 1 (trailing_zeros 64 n))) as [E|]; cbn [negb]; [|done].
    destruct n as [|q|q]; [done| |lia].
    destruct (pos_trailing_zeros_spec q) as [Hz (k&Hq&Hk)].
    set (t := trailing_zeros 64 (Zpos q)) in *. change (pos_trailing_zeros q) with t in *.
    assert (t < 64).
    { apply (Z.pow_lt_mono_r_iff 2); [lia..|]. pose proof (pow2_pos t Hz). nia. }
    rewrite wrap_small by (split; lia). destruct (Z.ltb_spec 29 t); [done|]. intros [= <-].
    split; [lia|]. left. rewrite E. by apply align_bytes_pow2.
  - intros [Ha [E|[]]]; [|lia]. destruct (Hpow a E ltac:(lia)) as (->&->&_).
    rewrite Z.eqb_refl. cbn [negb]. rewrite wrap_small by (split; lia).
    by destruct (Z.ltb_spec 29 a); [lia|].
Qed.

(** ** Ranges *)

(** [v] counts the values of a [w]-bit range that [r] contains. *)
Definition in_width (w : Z) (r : WrappingRange) : Prop := is_uint w (start r) ∧ is_uint w (end_ r).

(** A wrapping range holds the values met when counting up from its start. *)
Lemma contains_iff w r v :
  0 ≤ w → in_width w r → is_uint w v →
  WrappingRange.contains r v = true ↔
  (v - start r) mod 2 ^ w ≤ (end_ r - start r) mod 2 ^ w.
Proof.
  intros Hw [[Hs1 Hs2] [He1 He2]] [Hv1 Hv2]. unfold WrappingRange.contains.
  assert (∀ x, - 2 ^ w < x < 0 → x mod 2 ^ w = x + 2 ^ w) as Hneg.
  { intros x Hx. symmetry. apply (Z.mod_unique_pos _ _ (-1)); lia. }
  destruct (Z.leb_spec (start r) (end_ r)).
  - rewrite (Z.mod_small (end_ r - start r)) by lia. rewrite andb_true_iff, !Z.leb_le.
    destruct (decide (start r ≤ v)); [rewrite Z.mod_small by lia|rewrite Hneg by lia]; lia.
  - rewrite (Hneg (end_ r - start r)) by lia. rewrite orb_true_iff, !Z.leb_le.
    destruct (decide (start r ≤ v)); [rewrite Z.mod_small by lia|rewrite Hneg by lia]; lia.
Qed.

(** Subtraction on the circle of size [M]. *)
Lemma mod_sub M x c :
  0 ≤ x < M → 0 ≤ c ≤ M → (x - c) mod M = if c <=? x then x - c else x - c + M.
Proof.
  intros Hx Hc. destruct (Z.leb_spec c x); [by rewrite Z.mod_small by lia|].
  symmetry. apply (Z.mod_unique_pos _ _ (-1)); lia.
Qed.

(** [count] values from [s] on, wrapping at [2^w]. *)
Definition in_arc (w s count v : Z) : Prop := (v - s) mod 2 ^ w < count.

(** [r'] adds to [r] exactly the [count] values from [s] on, none of which it
    had. *)
Definition extends (w : Z) (r : WrappingRange) (s count : Z) (r' : WrappingRange) : Prop :=
  in_width w r' ∧ is_uint w s ∧ ∀ v, is_uint w v →
    (WrappingRange.contains r' v = true ↔ WrappingRange.contains r v = true ∨ in_arc w s count v) ∧
    (in_arc w s count v → WrappingRange.contains r v = false).

Section extend.
Variables (w : Z) (r : WrappingRange) (count : Z).
Hypotheses (Hw : 0 ≤ w) (Hr : in_width w r)
  (Hc : 0 < count ≤ (start r - end_ r - 1) mod 2 ^ w).

Lemma arc_length : (start r - end_ r - 1) mod 2 ^ w = 2 ^ w - 1 - (end_ r - start r) mod 2 ^ w.
Proof.
  pose proof (pow2_pos w Hw). pose proof (Z.mod_pos_bound (end_ r - start r) (2 ^ w) ltac:(lia)).
  symmetry. apply (Z.mod_unique_pos _ _ (- ((end_ r - start r) / 2 ^ w) - 1)); [lia|].
  pose proof (Z.div_mod (end_ r - start r) (2 ^ w) ltac:(lia)). lia.
Qed.

Lemma contains_false v : is_uint w v →
  WrappingRange.contains r v = false ↔ (end_ r - start r) mod 2 ^ w < (v - start r) mod 2 ^ w.
Proof.
  intros Hv. rewrite <- not_true_iff_false, (contains_iff w r v Hw Hr Hv). lia.
Qed.

Lemma extends_start :
  let s := (start r - count) mod 2 ^ w in extends w r s count (WrappingRange.with_start r s).
Proof.
  intros s. pose proof (pow2_pos w Hw) as HM.
  pose proof (Z.mod_pos_bound (start r - count) (2 ^ w) HM) as Hs. fold s in Hs.
  pose proof arc_length as Hav. rewrite Hav in Hc.
  pose proof (Z.mod_pos_bound (end_ r - start r) (2 ^ w) HM) as Hd.
  set (d := (end_ r - start r) mod 2 ^ w) in *.
  assert ((end_ r - s) mod 2 ^ w = d + count) as Hlen.
  { transitivity ((d - (- count)) mod 2 ^ w); [|rewrite Z.mod_small; lia].
    unfold d, s. rewrite Zminus_mod_idemp_r, Zminus_mod_idemp_l. f_equal. lia. }
  assert (in_width w (WrappingRange.with_start r s)) as Hr' by (split; [done|apply Hr]).
  split; [done|]. split; [done|]. intros v Hv.
  pose proof (Z.mod_pos_bound (v - s) (2 ^ w) HM) as Hx.
  assert ((v - start r) mod 2 ^ w = ((v - s) mod 2 ^ w - count) mod 2 ^ w) as Hvs.
  { unfold s. rewrite Zminus_mod_idemp_r, Zminus_mod_idemp_l. f_equal. lia. }
  rewrite (mod_sub _ ((v - s) mod 2 ^ w)) in Hvs by lia.
  rewrite contains_false, (contains_iff w _ v Hw Hr' Hv), (contains_iff w r v Hw Hr Hv) by done.
  unfold in_arc. cbn. fold d. rewrite Hlen, Hvs. destruct (Z.leb_spec count ((v - s) mod 2 ^ w)); lia.
Qed.

Lemma extends_end :
  extends w r ((end_ r + 1) mod 2 ^ w) count
    (WrappingRange.with_end r ((end_ r + count) mod 2 ^ w)).
Proof.
  set (s := (end_ r + 1) mod 2 ^ w). pose proof (pow2_pos w Hw) as HM.
  pose proof (Z.mod_pos_bound (end_ r + 1) (2 ^ w) HM) as Hs. fold s in Hs.
  pose proof arc_length as Hav. rewrite Hav in Hc.
  pose proof (Z.mod_pos_bound (end_ r - start r) (2 ^ w) HM) as Hd.
  set (d := (end_ r - start r) mod 2 ^ w) in *.
  assert (((end_ r + count) mod 2 ^ w - start r) mod 2 ^ w = d + count) as Hlen.
  { transitivity ((d - (- count)) mod 2 ^ w); [|rewrite Z.mod_small; lia].
    unfold d. rewrite !Zminus_mod_idemp_l. f_equal. lia. }
  assert (in_width w (WrappingRange.with_end r ((end_ r + count) mod 2 ^ w))) as Hr'
    by (split; [apply Hr|by apply Z.mod_pos_bound]).
  split; [done|]. split; [done|]. intros v Hv.
  pose proof (Z.mod_pos_bound (v - start r) (2 ^ w) HM) as Hx.
  assert ((v - s) mod 2 ^ w = ((v - start r) mod 2 ^ w - (d + 1)) mod 2 ^ w) as Hvs.
  { unfold s, d. rewrite Zminus_mod_idemp_l, Zminus_mod_idemp_r.
    transitivity (((v - start r - 1) - (end_ r - start r) mod 2 ^ w) mod 2 ^ w); [|f_equal; lia].
    rewrite Zminus_mod_idemp_r. f_equal. lia. }
  rewrite (mod_sub _ ((v - start r) mod 2 ^ w)) in Hvs by lia.
  rewrite contains_false, (contains_iff w _ v Hw Hr' Hv), (contains_iff w r v Hw Hr Hv) by done.
  unfold in_arc. cbn. fold d. rewrite Hlen, Hvs.
  destruct (Z.leb_spec (d + 1) ((v - start r) mod 2 ^ w)); lia.
Qed.
End extend.

(** Masking a [u128] with the largest value of a smaller width. *)
Lemma land_max w x : 0 ≤ w ≤ 128 → Z.land (wrap 128 x) (2 ^ w - 1) = x mod 2 ^ w.
Proof.
  intros Hw. rewrite land_ones_mod by lia. unfold wrap. apply Z.mod_mod_divide.
  exists (2 ^ (128 - w)). rewrite <- Z.pow_add_r by lia. f_equal. lia.
Qed.

(** The width in bits of a niche's primitive. *)
Definition niche_bits (n : Niche) (dl : TargetDataLayout) : Z := Primitive.size (value n) dl * 8.

(** A niche as [from_scalar] is given it: the primitive fits in a [u128], the
    range within the primitive. *)
Definition niche_wf (n : Niche) (dl : TargetDataLayout) : Prop :=
  small_size (Primitive.size (value n) dl) ∧ in_width (niche_bits n dl) (valid_range n).

Lemma niche_available_eq n dl :
  niche_wf n dl →
  Niche.available n dl
  = Ret ((start (valid_range n) - end_ (valid_range n) - 1) mod 2 ^ niche_bits n dl).
Proof.
  intros [Hs Hr]. unfold Niche.available. destruct (small_size_bits _ Hs) as [-> _].
  cbn [obind]. fold (niche_bits n dl). pose proof Hs as [H1 H2].
  assert (niche_bits n dl ≤ 128) by (unfold niche_bits; lia).
  destruct (Z.leb_spec (niche_bits n dl) 128); [|lia]. cbn [rassert].
  rewrite unsigned_int_max_value by done. cbn [obind]. fold (niche_bits n dl). f_equal.
  unfold wsub, wadd. rewrite land_max by (unfold niche_bits in *; lia).
  assert (0 ≤ niche_bits n dl) by (unfold niche_bits; lia).
  assert ((2 ^ niche_bits n dl | 2 ^ 128)) as Hdiv.
  { exists (2 ^ (128 - niche_bits n dl)). rewrite <- Z.pow_add_r by lia. f_equal. lia. }
  pose proof (pow2_pos (niche_bits n dl) ltac:(lia)).
  rewrite <- Zminus_mod_idemp_r. unfold wrap.
  rewrite Z.mod_mod_divide by done.
  rewrite Zminus_mod_idemp_r. f_equal. lia.
Qed.

(** How many [w]-bit values a range leaves out. *)
Definition invalid_count (w : Z) (r : WrappingRange) : Z :=
  Z.of_nat (length (List.filter (λ v, negb (WrappingRange.contains r v)) (seqZ 0 (2 ^ w)))).

Lemma filter_seqZ (f : Z → bool) b a n :
  (∀ v, a ≤ v < a + n → f v = b) →
  List.filter f (seqZ a n) = if b then seqZ a n else [].
Proof.
  intros Hf. assert (Forall (λ v, f v = b) (seqZ a n)) as Hall.
  { apply Forall_forall. intros v Hv%list_elem_of_In%elem_of_seqZ. by apply Hf. }
  clear Hf. induction Hall as [|v l Hv Hl IH]; cbn; [by destruct b|].
  rewrite Hv, IH. by destruct b.
Qed.

Lemma seqZ_split3 a b c :
  0 ≤ a → 0 ≤ b → 0 ≤ c → seqZ 0 (a + b + c) = seqZ 0 a ++ seqZ a b ++ seqZ (a + b) c.
Proof.
  intros. rewrite (seqZ_app 0 (a + b) c), (seqZ_app 0 a b) by lia. by rewrite <- app_assoc.
Qed.

Lemma invalid_count_eq w r :
  0 ≤ w → in_width w r → invalid_count w r = (start r - end_ r - 1) mod 2 ^ w.
Proof.
  intros Hw [[Hs1 Hs2] [He1 He2]]. unfold invalid_count, WrappingRange.contains.
  pose proof (pow2_pos w Hw). set (M := 2 ^ w) in *.
  destruct (Z.leb_spec (start r) (end_ r)).
  - replace M with (start r + (end_ r - start r + 1) + (M - end_ r - 1)) at 1 by lia.
    rewrite seqZ_split3, !List.filter_app by lia.
    rewrite (filter_seqZ _ true), (filter_seqZ _ false), (filter_seqZ _ true) by (intros; cbv beta; lia).
    rewrite !length_app, !length_seqZ. cbn [length].
    replace (start r - end_ r - 1) with (start r - (end_ r + 1)) by lia.
    rewrite mod_sub by lia. destruct (Z.leb_spec (end_ r + 1) (start r)); lia.
  - replace M with ((end_ r + 1) + (start r - end_ r - 1) + (M - start r)) at 1 by lia.
    rewrite seqZ_split3, !List.filter_app by lia.
    rewrite (filter_seqZ _ false), (filter_seqZ _ true), (filter_seqZ _ false) by (intros; cbv beta; lia).
    rewrite app_nil_r. cbn [app]. rewrite length_seqZ, Z.mod_small by lia. lia.
Qed.

(** What [reserve] returns, for every count. *)
Lemma niche_reserve_ok n dl count :
  niche_wf n dl → 0 < count < 2 ^ 128 →
  ∃ res, Niche.reserve n dl count = Ret res ∧
  match res with
  | None => invalid_count (niche_bits n dl) (valid_range n) < count
  | Some (s, scalar) =>
      count ≤ invalid_count (niche_bits n dl) (valid_range n) ∧
      ∃ r', scalar = Initialized (value n) r' ∧
            extends (niche_bits n dl) (valid_range n) s count r'
  end.
Proof.
  intros Hn Hc. pose proof Hn as [Hs Hr]. pose proof Hs as [H1 H2].
  pose proof (niche_available_eq n dl Hn) as Ha. unfold Niche.available in Ha.
  destruct (small_size_bits _ Hs) as [Hbits _]. unfold Niche.reserve. rewrite Hbits in *.
  cbn [obind] in *. fold (niche_bits n dl) in *.
  assert (0 ≤ niche_bits n dl ≤ 128) as Hw by (unfold niche_bits; lia).
  destruct (Z.leb_spec (niche_bits n dl) 128); [|lia]. cbn [rassert] in *.
  rewrite unsigned_int_max_value in * by done. cbn [obind] in *. fold (niche_bits n dl) in *.
  injection Ha as Ha. rewrite Ha, invalid_count_eq by (done || lia).
  destruct (Z.ltb_spec 0 count); [|lia]. cbn [rassert].
  destruct (Z.ltb_spec ((start (valid_range n) - end_ (valid_range n) - 1) mod 2 ^ niche_bits n dl) count)
    as [|Hle]; [by eexists|].
  clear Ha. unfold wsub, wadd. rewrite !land_max by lia.
  pose proof (extends_start (niche_bits n dl) (valid_range n) count ltac:(lia) Hr ltac:(lia)) as He1.
  pose proof (extends_end (niche_bits n dl) (valid_range n) count ltac:(lia) Hr ltac:(lia)) as He2.
  repeat case_match; eexists; (split; [done|]); cbn; (split; [done|]); by eexists.
Qed.

(** ** Claims *)

(** [Size::align_to] rounds up to the least multiple of the alignment, and
    [Size::is_aligned] holds exactly of the multiples, whenever the rounding
    does not pass [2^64]. *)
Theorem align_to_correct s a :
  0 ≤ a < 64 → 0 ≤ s → s + 2 ^ a - 1 < 2 ^ 64 →
  Size.is_aligned (Size.align_to s a) a = true ∧ s ≤ Size.align_to s a ∧
  (∀ t, Size.is_aligned t a = true → s ≤ t → Size.align_to s a ≤ t) ∧
  (Size.is_aligned s a = true ↔ (Align.bytes a | s)).
Proof.
  intros Ha Hs Hb. destruct (align_to_least s a Ha Hs Hb) as (H1&H2&H3).
  rewrite !is_aligned_iff, align_bytes_pow2 by done. split_and!; [done|done| |done].
  intros t Ht. rewrite is_aligned_iff in Ht by done. by apply H3.
Qed.

(** For sizes from 1 to 16 bytes, [truncate] keeps the low bits,
    [sign_extend] is the two's complement value of the low bits as an [i128],
    truncating undoes it, and the extreme values are those of the width. *)
Theorem sign_extend_correct s v :
  small_size s → is_uint 128 v →
  ∃ t e, Size.truncate s v = Ret t ∧ t = v mod 2 ^ (s * 8) ∧
    Size.sign_extend s v = Ret e ∧ to_signed 128 e = to_signed (s * 8) t ∧
    Size.truncate s e = Ret t ∧ Size.unsigned_int_max s = Ret (2 ^ (s * 8) - 1).
Proof.
  intros Hs Hv. exists (v mod 2 ^ (s * 8)). eexists. rewrite truncate_mod, sign_extend_value by done.
  pose proof Hs as [H1 H2]. pose proof (pow2_pos (s * 8) ltac:(lia)) as HM.
  pose proof (Z.mod_pos_bound v (2 ^ (s * 8)) HM) as Hm.
  assert (2 ^ (s * 8) = 2 * 2 ^ (s * 8 - 1)) as H2p
    by (rewrite <- Z.pow_succ_r by lia; f_equal; lia).
  assert (2 ^ (s * 8 - 1) ≤ 2 ^ 127) by (apply Z.pow_le_mono_r; lia).
  assert (- 2 ^ 127 ≤ to_signed (s * 8) (v mod 2 ^ (s * 8)) < 2 ^ 127) as Hsg
    by (unfold to_signed; zcases; lia).
  split_and!; [done|done|done| | |by apply unsigned_int_max_value].
  - apply to_signed_of_signed; lia.
  - rewrite truncate_mod by (done || by apply wrap_bounds). f_equal.
    unfold of_signed, wrap. rewrite Z.mod_mod_divide.
    2: { exists (2 ^ (128 - s * 8)). rewrite <- Z.pow_add_r by lia. f_equal. lia. }
    unfold to_signed. destruct (_ <? _); [by rewrite Z.mod_small|].
    rewrite <- Zminus_mod_idemp_r, Z.mod_same, Z.sub_0_r by lia. by rewrite Z.mod_small.
Qed.

(** [Niche::available] is the number of values of the primitive outside
    its valid range, never a panic; and [from_scalar] makes a niche exactly
    when there is one. *)
Theorem niche_available_counts n dl :
  niche_wf n dl →
  Niche.available n dl = Ret (invalid_count (niche_bits n dl) (valid_range n)) ∧
  Niche.from_scalar dl (offset n) (Initialized (value n) (valid_range n))
  = Ret (if 0 <? invalid_count (niche_bits n dl) (valid_range n) then Some n else None).
Proof.
  intros Hn. pose proof Hn as [[H1 H2] Hr].
  assert (Niche.available n dl = Ret (invalid_count (niche_bits n dl) (valid_range n))) as Ha.
  { rewrite niche_available_eq, invalid_count_eq by (done || unfold niche_bits; lia). done. }
  split; [done|]. destruct n as [o v r]. cbn [Niche.from_scalar offset value valid_range] in *.
  by rewrite Ha.
Qed.

(** [Niche::reserve] returns [None] exactly when fewer than [count] values
    are left; otherwise the [count] values from the returned start on,
    wrapping around, were invalid, and the returned scalar has the same
    primitive and a range that contains exactly the old values and those. *)
Theorem niche_reserve_sound n dl count :
  niche_wf n dl → 0 < count < 2 ^ 128 →
  ∃ res, Niche.reserve n dl count = Ret res ∧
  match res with
  | None => invalid_count (niche_bits n dl) (valid_range n) < count
  | Some (s, scalar) =>
      count ≤ invalid_count (niche_bits n dl) (valid_range n) ∧
      ∃ r', scalar = Initialized (value n) r' ∧
            extends (niche_bits n dl) (valid_range n) s count r'
  end.
Proof. apply niche_reserve_ok. Qed.

(** Evaluates closed powers of two in the goal and the hypotheses. *)
#[local] Ltac eval_pow :=
  repeat match goal with
  | |- context [2 ^ ?e] => let v := eval vm_compute in (2 ^ e) in change (2 ^ e) with v
  | H : context [2 ^ ?e] |- _ => let v := eval vm_compute in (2 ^ e) in change (2 ^ e) with v in H
  end.

(** The integers from narrow to wide. *)
Definition int_bits (i : Integer) : Z := Integer.size i * 8.

Lemma fit_narrowest_ok x :
  (- 2 ^ 127 ≤ x < 2 ^ 127 →
     - 2 ^ (int_bits (Integer.fit_signed x) - 1) ≤ x < 2 ^ (int_bits (Integer.fit_signed x) - 1) ∧
     ∀ i, - 2 ^ (int_bits i - 1) ≤ x < 2 ^ (int_bits i - 1) →
          int_bits (Integer.fit_signed x) ≤ int_bits i) ∧
  (is_uint 128 x →
     is_uint (int_bits (Integer.fit_unsigned x)) x ∧
     ∀ i, is_uint (int_bits i) x → int_bits (Integer.fit_unsigned x) ≤ int_bits i).
Proof.
  unfold is_uint, Integer.fit_signed, Integer.fit_unsigned. split; intros Hx.
  - repeat case_match; unfold int_bits, Integer.size, Size.from_bytes; eval_pow;
      (split; [lia|]); intros []; eval_pow; lia.
  - zcases; unfold int_bits, Integer.size, Size.from_bytes; eval_pow;
      (split; [lia|]); intros []; eval_pow; lia.
Qed.

(** [fit_signed] and [fit_unsigned] choose the narrowest integer that can
    represent the value. *)
Theorem fit_narrowest x :
  (- 2 ^ 127 ≤ x < 2 ^ 127 →
     - 2 ^ (int_bits (Integer.fit_signed x) - 1) ≤ x < 2 ^ (int_bits (Integer.fit_signed x) - 1) ∧
     ∀ i, - 2 ^ (int_bits i - 1) ≤ x < 2 ^ (int_bits i - 1) →
          int_bits (Integer.fit_signed x) ≤ int_bits i) ∧
  (is_uint 128 x →
     is_uint (int_bits (Integer.fit_unsigned x)) x ∧
     ∀ i, is_uint (int_bits i) x → int_bits (Integer.fit_unsigned x) ≤ int_bits i).
Proof. apply fit_narrowest_ok. Qed.

(** ** The properties at concrete inputs *)

Lemma align_to_correct_witness :
  Size.is_aligned (Size.align_to 13 3) 3 = true ∧ 13 ≤ Size.align_to 13 3 ∧
  (∀ t, Size.is_aligned t 3 = true → 13 ≤ t → Size.align_to 13 3 ≤ t) ∧
  (Size.is_aligned 13 3 = true ↔ (Align.bytes 3 | 13)).
Proof. by apply align_to_correct. Defined.

Lemma sign_extend_correct_witness :
  ∃ t e, Size.truncate 1 0xfff0 = Ret t ∧ t = 0xfff0 mod 2 ^ (1 * 8) ∧
    Size.sign_extend 1 0xfff0 = Ret e ∧ to_signed 128 e = to_signed (1 * 8) t ∧
    Size.truncate 1 e = Ret t ∧ Size.unsigned_int_max 1 = Ret (2 ^ (1 * 8) - 1).
Proof. apply sign_extend_correct; split; lia. Defined.

(** The default target; a [bool] has 254 values left. *)
Definition default_dl : TargetDataLayout :=
  match default_data_layout with
  | Ret dl => dl
  | Panic => mkDataLayout Big (mkAlign 0 0) (mkAlign 0 0) (mkAlign 0 0) (mkAlign 0 0) (mkAlign 0 0)
      (mkAlign 0 0) (mkAlign 0 0) (mkAlign 0 0) 0 (mkAlign 0 0) (mkAlign 0 0) [] 0 I8
  end.
Definition bool_niche : Niche := mkNiche 0 (Int I8 false) (mkRange 0 1).

Lemma niche_available_counts_witness :
  Niche.available bool_niche default_dl
  = Ret (invalid_count (niche_bits bool_niche default_dl) (valid_range bool_niche)) ∧
  Niche.from_scalar default_dl 0 (Initialized (Int I8 false) (mkRange 0 1))
  = Ret (if 0 <? invalid_count (niche_bits bool_niche default_dl) (valid_range bool_niche)
         then Some bool_niche else None).
Proof. apply (niche_available_counts bool_niche default_dl). by repeat split. Defined.

Lemma niche_reserve_sound_witness :
  ∃ res, Niche.reserve bool_niche default_dl 3 = Ret res ∧
  match res with
  | None => invalid_count (niche_bits bool_niche default_dl) (valid_range bool_niche) < 3
  | Some (s, scalar) =>
      3 ≤ invalid_count (niche_bits bool_niche default_dl) (valid_range bool_niche) ∧
      ∃ r', scalar = Initialized (Int I8 false) r' ∧
            extends (niche_bits bool_niche default_dl) (valid_range bool_niche) s 3 r'
  end.
Proof. apply (niche_reserve_sound bool_niche default_dl 3); [by repeat split|lia]. Defined.

Lemma fit_narrowest_witness :
  - 2 ^ (int_bits (Integer.fit_signed (-200)) - 1) ≤ -200
    < 2 ^ (int_bits (Integer.fit_signed (-200)) - 1) ∧
  is_uint (int_bits (Integer.fit_unsigned 200)) 200.
Proof.
  split.
  - apply (proj1 (fit_narrowest (-200))). lia.
  - apply (proj2 (fit_narrowest 200)). split; lia.
Defined.
