(* ===== verification/Layout.v ===== *)
(** Computing layouts, [rustc_abi/src/layout.rs]: [scalar_pair], [univariant]
    with the two passes of the trait method, [layout_of_never_type],
    [layout_of_union] and the struct case of [layout_of_struct_or_enum].

    A computation that may decline returns [outcome (option A)].  Field indices
    are integers, [inverse_memory_index] the list of them in memory order.
    Debug output is left out; [delay_bug] records a diagnostic and does not
    change the result, so it is left out too.  The feature [randomize] and the
    shuffle of the crate [rand] are the class [Shuffle]. *)

From S2P Require Import Prelude Abi.

(** [let? x := c in k]: the operator [?] on an [Option] *)
Definition obind_opt {A B} (c : outcome (option A)) (k : A → outcome (option B))
    : outcome (option B) :=
  let! o := c in match o with Some a => k a | None => Ret None end.
Notation "'let?' x := c 'in' k" := (obind_opt c (λ x, k))
  (at level 10, x pattern, c at level 100, k at level 200) : rust_scope.

(** [cfg!(feature = "randomize")] and [SliceRandom::shuffle] with the seed *)
Class Shuffle := {
  feature_randomize : bool;
  shuffle : Z → list Z → list Z;
}.
(** Documented: the slice is permuted in place. *)
Class ShufflePerm `{Shuffle} : Prop := {
  shuffle_perm seed l : shuffle seed l ≡ₚ l;
}.

(** [Option<Align>::max], where [None] is least *)
Definition opt_max (a b : option Align) : option Align :=
  match a, b with
  | Some a, Some b => Some (Z.max a b)
  | Some a, None => Some a
  | None, b => b
  end.

(** [largest_niche().map_or(0, |n| n.available(dl))] *)
Definition niche_size (dl : TargetDataLayout) (l : LayoutS) : outcome Z :=
  match largest_niche l with Some n => Niche.available n dl | None => Ret 0 end.

(** ** [scalar_pair] *)

(** [max_by_key], the last of the maxima, on at most two niches *)
Definition max_niche (dl : TargetDataLayout) (a b : option Niche) : outcome (option Niche) :=
  match a, b with
  | Some a, Some b =>
      let! na := Niche.available a dl in
      let! nb := Niche.available b dl in
      Ret (Some (if na <=? nb then b else a))
  | Some a, None => Ret (Some a)
  | None, b => Ret b
  end.

Definition scalar_pair (dl : TargetDataLayout) (a b : Scalar) : outcome LayoutS :=
  let b_align := Scalar.align b dl in
  let align := AbiAndPrefAlign.max (AbiAndPrefAlign.max (Scalar.align a dl) b_align)
                 (aggregate_align dl) in
  let b_offset := Size.align_to (Scalar.size a dl) (abi b_align) in
  let! end_ := Size.add b_offset (Scalar.size b dl) in
  let size := Size.align_to end_ (abi align) in
  let! niche_b := Niche.from_scalar dl b_offset b in
  let! niche_a := Niche.from_scalar dl Size.ZERO a in
  let! largest_niche := max_niche dl niche_b niche_a in
  Ret {| variants := Single FIRST_VARIANT;
         fields := ArbitraryShape [Size.ZERO; b_offset] [0; 1];
         layout_abi := ScalarPair a b;
         largest_niche := largest_niche;
         align := align;
         size := size;
         max_repr_align := None;
         unadjusted_abi_align := abi align |}.

Definition layout_of_never_type (dl : TargetDataLayout) : LayoutS :=
  {| variants := Single FIRST_VARIANT; fields := PrimitiveShape; layout_abi := Uninhabited;
     largest_niche := None; align := i8_align dl; size := Size.ZERO; max_repr_align := None;
     unadjusted_abi_align := abi (i8_align dl) |}.

(** ** Ordering the fields of a struct *)

Inductive NicheBias := BiasStart | BiasEnd.

(** Sort keys are tuples of integers, compared lexicographically. *)
Fixpoint key_le (a b : list Z) : bool :=
  match a, b with
  | x :: a, y :: b => (x <? y) || ((x =? y) && key_le a b)
  | [], _ => true
  | _ :: _, [] => false
  end.

(** [sort_by_key], a stable sort *)
Fixpoint insert_by_key (x : list Z * Z) (l : list (list Z * Z)) : list (list Z * Z) :=
  match l with
  | [] => [x]
  | y :: l => if key_le (fst x) (fst y) then x :: y :: l else y :: insert_by_key x l
  end.
Definition sort_by_key (l : list (list Z * Z)) : list (list Z * Z) := foldr insert_by_key [] l.

Definition mapM_outcome {A B} (f : A → outcome B) : list A → outcome (list B) :=
  fix go l :=
    match l with
    | [] => Ret []
    | x :: l => let! y := f x in let! ys := go l in Ret (y :: ys)
    end.

Section layout.
Context `{Shuffle} (dl : TargetDataLayout).

(** [alignment_group_key] *)
Definition alignment_group_key (pack : option Align) (niche_bias : NicheBias)
    (max_field_align largest_niche_size : Z) (l : LayoutS) : outcome Z :=
  match pack with
  | Some pack => Ret (Align.bytes (Z.min (abi (align l)) pack))
  | None =>
      let align := Align.bytes (abi (align l)) in
      let size := Size.bytes (size l) in
      let! niche_size := niche_size dl l in
      let size_as_align := trailing_zeros 64 (Z.max align size) in
      Ret (if 0 <? largest_niche_size then
             match niche_bias with
             | BiasStart => Z.min (trailing_zeros 64 max_field_align) size_as_align
             | BiasEnd =>
                 if niche_size =? largest_niche_size then trailing_zeros 64 align
                 else size_as_align
             end
           else size_as_align)
  end.

Definition bool_key (b : bool) : Z := if b then 1 else 0.

(** The key for [AlwaysSized] and [MaybeUnsized]; [Reverse] is a change of sign. *)
Definition sized_key (group_key : LayoutS → outcome Z) (niche_bias : NicheBias) (f : LayoutS)
    : outcome (list Z) :=
  let field_size := Size.bytes (size f) in
  let! niche_size := niche_size dl f in
  let niche_size_key :=
    match niche_bias with BiasStart => wnot 128 niche_size | BiasEnd => niche_size end in
  let inner_niche_offset_key :=
    match largest_niche f with
    | None => 0
    | Some n =>
        match niche_bias with
        | BiasStart => Size.bytes (offset n)
        | BiasEnd =>
            wnot 64 (wsub 64 (wsub 64 field_size (Size.bytes (Primitive.size (value n) dl)))
                       (Size.bytes (offset n)))
        end
    end in
  let! group := group_key f in
  Ret [bool_key (negb (LayoutS.is_zst f)); - group; niche_size_key; inner_niche_offset_key].

(** The key for [Prefixed] *)
Definition prefixed_key (group_key : LayoutS → outcome Z) (f : LayoutS) : outcome (list Z) :=
  let! niche_size := niche_size dl f in
  let! group := group_key f in
  Ret [group; niche_size].

Definition is_maybe_unsized (kind : StructKind) : bool :=
  match kind with MaybeUnsized => true | _ => false end.

(** [inverse_memory_index]: the field indices by increasing memory offset *)
Definition field_order (flds : list LayoutS) (repr : ReprOptions) (kind : StructKind)
    (niche_bias : NicheBias) : outcome (list Z) :=
  let len := Z.of_nat (length flds) in
  let inverse_memory_index := seqZ 0 len in
  let optimize := negb (ReprOptions.inhibit_struct_field_reordering_opt repr) in
  if optimize && (1 <? len) then
    let end_ := if is_maybe_unsized kind then len - 1 else len in
    let optimizing := seqZ 0 end_ in
    let tail := seqZ end_ (len - end_) in
    let fields_excluding_tail := take (Z.to_nat end_) flds in
    if ReprOptions.can_randomize_type_layout repr && feature_randomize then
      Ret (shuffle (field_shuffle_seed repr) optimizing ++ tail)
    else
      let max_field_align :=
        foldr Z.max 1 ((λ f, Align.bytes (abi (align f))) <$> fields_excluding_tail) in
      let! sizes := mapM_outcome (niche_size dl) fields_excluding_tail in
      let largest_niche_size := foldr Z.max 0 sizes in
      let group_key := alignment_group_key (repr_pack repr) niche_bias max_field_align
                         largest_niche_size in
      let key :=
        match kind with
        | AlwaysSized | MaybeUnsized => sized_key group_key niche_bias
        | Prefixed _ _ => prefixed_key group_key
        end in
      let! keys := mapM_outcome key fields_excluding_tail in
      Ret ((snd <$> sort_by_key (zip keys optimizing)) ++ tail)
  else Ret inverse_memory_index.

(** ** Placing the fields *)

Record placing := mkPlacing {
  pl_sized : bool;
  pl_offsets : list Size;
  pl_offset : Size;
  pl_align : AbiAndPrefAlign;
  pl_max_repr_align : option Align;
  pl_largest_niche : option Niche;
  pl_largest_niche_available : Z;
}.

(** [if let Some(pack) = pack { a.min(pack) } else { a }] *)
Definition pack_align (pack : option Align) (a : AbiAndPrefAlign) : AbiAndPrefAlign :=
  match pack with
  | Some pack => AbiAndPrefAlign.min a (AbiAndPrefAlign.new pack)
  | None => a
  end.

(** The [if let Some(mut niche) = field.largest_niche()] for a field placed at
    [offset]: the niche to keep and how much it has available *)
Definition pick_niche (niche_bias : NicheBias) (st : placing) (field : LayoutS) (offset : Size)
    : outcome (option Niche * Z) :=
  match largest_niche field with
  | None => Ret (pl_largest_niche st, pl_largest_niche_available st)
  | Some niche =>
      let! available := Niche.available niche dl in
      let prefer_new_niche :=
        match niche_bias with
        | BiasStart => pl_largest_niche_available st <? available
        | BiasEnd => pl_largest_niche_available st <=? available
        end in
      if prefer_new_niche then
        let! niche_offset := Size.add (Abi.offset niche) offset in
        Ret (Some (mkNiche niche_offset (value niche) (valid_range niche)), available)
      else Ret (pl_largest_niche st, pl_largest_niche_available st)
  end.

(** The body of [for &i in &inverse_memory_index] *)
Definition place_field (flds : list LayoutS) (pack : option Align) (niche_bias : NicheBias)
    (st : placing) (i : Z) : outcome (option placing) :=
  let! field := unwrap (flds !! Z.to_nat i) in
  let sized := if LayoutS.is_unsized field then false else pl_sized st in
  let field_align := pack_align pack (align field) in
  let offset := Size.align_to (pl_offset st) (abi field_align) in
  let align := AbiAndPrefAlign.max (pl_align st) field_align in
  let max_repr_align := opt_max (pl_max_repr_align st) (max_repr_align field) in
  let offsets := <[Z.to_nat i := offset]> (pl_offsets st) in
  let! (largest_niche, available) := pick_niche niche_bias st field offset in
  let? offset := size_checked_add offset (size field) dl in
  Ret (Some (mkPlacing sized offsets offset align max_repr_align largest_niche available)).

Fixpoint place_fields (flds : list LayoutS) (pack : option Align) (niche_bias : NicheBias)
    (order : list Z) (st : placing) : outcome (option placing) :=
  match order with
  | [] => Ret (Some st)
  | i :: order =>
      let? st := place_field flds pack niche_bias st i in
      place_fields flds pack niche_bias order st
  end.

Definition start_placing (flds : list LayoutS) (repr : ReprOptions) (kind : StructKind) : placing :=
  let pack := repr_pack repr in
  let align := if ReprOptions.packed repr then i8_align dl else aggregate_align dl in
  let offsets := replicate (length flds) Size.ZERO in
  match kind with
  | Prefixed prefix_size prefix_align =>
      let prefix_align := match pack with Some pack => Z.min prefix_align pack | None => prefix_align end in
      mkPlacing true offsets (Size.align_to prefix_size prefix_align)
        (AbiAndPrefAlign.max align (AbiAndPrefAlign.new prefix_align)) (repr_align repr) None 0
  | _ => mkPlacing true offsets Size.ZERO align (repr_align repr) None 0
  end.

(** ** The ABI of a struct *)

(** [fields.iter_enumerated().filter(|&(_, f)| !f.0.is_zst())] *)
Definition non_zst_fields (flds : list LayoutS) : list (Z * LayoutS) :=
  List.filter (λ p, negb (LayoutS.is_zst (snd p))) (zip (seqZ 0 (Z.of_nat (length flds))) flds).

#[global] Instance AbiAndPrefAlign_eq_dec : EqDecision AbiAndPrefAlign.
Proof. solve_decision. Defined.

(** The ABI of the struct and its only non-ZST field, if it has just one. *)
Definition struct_abi (flds : list LayoutS) (optimize sized : bool) (offsets : list Size)
    (st_align : AbiAndPrefAlign) (st_size : Size) : outcome (Abi * option LayoutS) :=
  let abi0 := Aggregate sized in
  if sized && (0 <? Size.bytes st_size) then
    match non_zst_fields flds with
    | [(i, field)] =>
        let! off := unwrap (A := Size) (offsets !! Z.to_nat i) in
        let fills := (Size.bytes off =? 0) && (abi st_align =? abi (align field))
                     && (st_size =? size field) in
        let a :=
          if fills then
            match layout_abi field with
            | AbiScalar _ | Vector _ _ => if optimize then layout_abi field else abi0
            | ScalarPair _ _ => layout_abi field
            | AbiField _ | AbiCurve _ => layout_abi field
            | _ => abi0
            end
          else abi0 in
        Ret (a, Some field)
    | [(i, a); (j, b)] =>
        match layout_abi a, layout_abi b with
        | AbiScalar a, AbiScalar b =>
            let! off_i := unwrap (A := Size) (offsets !! Z.to_nat i) in
            let! off_j := unwrap (A := Size) (offsets !! Z.to_nat j) in
            let '(off_a, a, off_b, b) :=
              if off_i <? off_j then (off_i, a, off_j, b) else (off_j, b, off_i, a) in
            let! pair_layout := scalar_pair dl a b in
            match fields pair_layout with
            | ArbitraryShape [pair0; pair1] [0; 1] =>
                Ret (if (off_a =? pair0) && (off_b =? pair1)
                        && bool_decide (st_align = align pair_layout)
                        && (st_size =? size pair_layout)
                     then layout_abi pair_layout else abi0, None)
            | _ => Panic
            end
        | _, _ => Ret (abi0, None)
        end
    | _ => Ret (abi0, None)
    end
  else Ret (abi0, None).

(** ** [univariant] *)

Definition univariant_biased (flds : list LayoutS) (repr : ReprOptions) (kind : StructKind)
    (niche_bias : NicheBias) : outcome (option LayoutS) :=
  let pack := repr_pack repr in
  let optimize := negb (ReprOptions.inhibit_struct_field_reordering_opt repr) in
  let! inverse_memory_index := field_order flds repr kind niche_bias in
  let? st := place_fields flds pack niche_bias inverse_memory_index (start_placing flds repr kind) in
  let unadjusted := abi (pl_align st) in
  let align := match repr_align repr with
               | Some repr_align => AbiAndPrefAlign.max (pl_align st) (AbiAndPrefAlign.new repr_align)
               | None => pl_align st
               end in
  let min_size := pl_offset st in
  let! memory_index :=
    if optimize
    then FieldsShape.invert_loop 0 inverse_memory_index (replicate (length inverse_memory_index) 0)
    else Ret inverse_memory_index in
  let size := Size.align_to min_size (abi align) in
  let! (st_abi, single) := struct_abi flds optimize (pl_sized st) (pl_offsets st) align size in
  let st_abi :=
    if existsb (λ f, Abi.is_uninhabited (layout_abi f)) flds then Uninhabited else st_abi in
  let unadjusted :=
    if is_transparent repr then
      match single with Some l => unadjusted_abi_align l | None => abi align end
    else unadjusted in
  Ret (Some {| variants := Single FIRST_VARIANT;
               fields := ArbitraryShape (pl_offsets st) memory_index;
               layout_abi := st_abi;
               largest_niche := pl_largest_niche st;
               align := align;
               size := size;
               max_repr_align := pl_max_repr_align st;
               unadjusted_abi_align := unadjusted |}).

(** The trait method: a second pass may bias the niche to the end. *)
Definition univariant (flds : list LayoutS) (repr : ReprOptions) (kind : StructKind)
    : outcome (option LayoutS) :=
  let? layout := univariant_biased flds repr kind BiasStart in
  match largest_niche layout with
  | Some niche =>
      if is_maybe_unsized kind then Ret (Some layout)
      else
        let head_space := Size.bytes (offset niche) in
        let niche_length := Size.bytes (Primitive.size (value niche) dl) in
        let tail_space := wsub 64 (wsub 64 (Size.bytes (size layout)) head_space) niche_length in
        if (1 <? length flds)%nat && negb (head_space =? 0) && (0 <? tail_space) then
          let! alt := univariant_biased flds repr kind BiasEnd in
          let! alt_layout := unwrap alt in
          let! niche := unwrap (largest_niche alt_layout) in
          let alt_head_space := Size.bytes (offset niche) in
          let prefer_alt_layout := (head_space <? alt_head_space) && (tail_space <? alt_head_space) in
          Ret (Some (if prefer_alt_layout then alt_layout else layout))
        else Ret (Some layout)
  | None => Ret (Some layout)
  end.
(** ** [layout_of_union] *)

(** [common_non_zst_abi_and_align]: [Err(AbiMismatch)], [Ok(None)] or
    [Ok(Some(..))] *)
Inductive CommonAbi := AbiMismatch | NoAbi | Common (a : Abi) (align : Align).

Record union_state := mkUnion {
  un_align : AbiAndPrefAlign;
  un_max_repr_align : option Align;
  un_size : Size;
  un_common : CommonAbi;
}.

(** The body of [for field in only_variant] *)
Definition union_field (st : union_state) (field : LayoutS) : outcome union_state :=
  let align' := AbiAndPrefAlign.max (un_align st) (align field) in
  let max_repr_align := opt_max (un_max_repr_align st) (max_repr_align field) in
  let size := Z.max (un_size st) (size field) in
  let! common :=
    if LayoutS.is_zst field then Ret (un_common st)
    else
      match un_common st with
      | AbiMismatch => Ret AbiMismatch
      | NoAbi =>
          let! field_abi := Abi.to_union (layout_abi field) in
          Ret (Common field_abi (abi (align field)))
      | Common common_abi common_align =>
          let! field_abi := Abi.to_union (layout_abi field) in
          if negb (bool_decide (common_abi = field_abi)) then Ret AbiMismatch
          else
            match common_abi with
            | Aggregate _ => Ret (un_common st)
            | _ => rassert (common_align =? abi (align field)) (Ret (un_common st))
            end
      end in
  Ret (mkUnion align' max_repr_align size common).

Fixpoint union_fields (st : union_state) (flds : list LayoutS) : outcome union_state :=
  match flds with
  | [] => Ret st
  | field :: flds => let! st := union_field st field in union_fields st flds
  end.

Definition layout_of_union (repr : ReprOptions) (vars : list (list LayoutS))
    : outcome (option LayoutS) :=
  let align0 := if ReprOptions.packed repr then i8_align dl else aggregate_align dl in
  let common0 := if ReprOptions.inhibit_union_abi_opt repr then AbiMismatch else NoAbi in
  let! only_variant := unwrap (vars !! Z.to_nat FIRST_VARIANT) in
  let! st := union_fields (mkUnion align0 (repr_align repr) Size.ZERO common0) only_variant in
  let align := pack_align (repr_pack repr) (un_align st) in
  let unadjusted := abi align in
  let align := match repr_align repr with
               | Some repr_align => AbiAndPrefAlign.max align (AbiAndPrefAlign.new repr_align)
               | None => align
               end in
  let! union_abi :=
    match un_common st with
    | AbiMismatch | NoAbi => Ret (Aggregate true)
    | Common a _ =>
        let! inherent := Abi.inherent_align a dl in
        Ret (if bool_decide (abi <$> inherent = Some (abi align)) then a else Aggregate true)
    end in
  match only_variant with
  | [] => Ret None
  | _ =>
      Ret (Some {| variants := Single FIRST_VARIANT;
                   fields := UnionShape (Z.of_nat (length only_variant));
                   layout_abi := union_abi;
                   largest_niche := None;
                   align := align;
                   size := Size.align_to (un_size st) (abi align);
                   max_repr_align := un_max_repr_align st;
                   unadjusted_abi_align := unadjusted |})
  end.

(** ** The struct case of [layout_of_struct_or_enum] *)

(** [hide_niches] *)
Definition hide_niches (s : Scalar) : outcome Scalar :=
  match s with
  | Initialized value _ =>
      let! full := WrappingRange.full (Primitive.size value dl) in Ret (Initialized value full)
  | UnionScalar _ => Ret s
  end.

(** The [match &mut st.abi] for an [UnsafeCell]; [todo!()] panics. *)
Definition hide_abi_niches (a : Abi) : outcome Abi :=
  match a with
  | Uninhabited => Ret Uninhabited
  | AbiScalar s => let! s := hide_niches s in Ret (AbiScalar s)
  | ScalarPair a b => let! a := hide_niches a in let! b := hide_niches b in Ret (ScalarPair a b)
  | Vector element count => let! element := hide_niches element in Ret (Vector element count)
  | Aggregate sized => Ret (Aggregate sized)
  | AbiField _ => Panic
  | AbiCurve _ => Panic
  end.

(** [Bound<u128>]; an [Excluded] bound is ignored like [Unbounded] by
    [if let Bound::Included]. *)
Inductive Bound := Included (b : Z) | Excluded (b : Z) | Unbounded.

#[global] Instance Bound_eq_dec : EqDecision Bound.
Proof. solve_decision. Defined.

(** [scalar.valid_range_mut().start = start] after its assertion *)
Definition narrow_start (max_value : Z) (s : Scalar) (b : Bound) : outcome Scalar :=
  match b with
  | Included start =>
      rassert (start <=? max_value)
        (match s with
         | Initialized v r => Ret (Initialized v (WrappingRange.with_start r start))
         | UnionScalar _ => Panic
         end)
  | _ => Ret s
  end.
Definition narrow_end (max_value : Z) (s : Scalar) (b : Bound) : outcome Scalar :=
  match b with
  | Included end_ =>
      rassert (end_ <=? max_value)
        (match s with
         | Initialized v r => Ret (Initialized v (WrappingRange.with_end r end_))
         | UnionScalar _ => Panic
         end)
  | _ => Ret s
  end.

(** Applies [scalar_valid_range] to the (first) scalar and updates the niche. *)
Definition narrow_scalar (s : Scalar) (niche0 : option Niche) (lo hi : Bound)
    : outcome (Scalar * option Niche) :=
  let! max_value := Size.unsigned_int_max (Scalar.size s dl) in
  let! s := narrow_start max_value s lo in
  let! s := narrow_end max_value s hi in
  let! niche := Niche.from_scalar dl Size.ZERO s in
  match niche, niche0 with
  | Some niche, Some largest =>
      let! n0 := Niche.available largest dl in
      let! n1 := Niche.available niche dl in
      Ret (s, if n0 <=? n1 then Some niche else niche0)
  | Some niche, None => Ret (s, Some niche)
  | None, _ => Ret (s, niche0)
  end.

Definition with_abi_niche (l : LayoutS) (v : Z) (a : Abi) (n : option Niche) : LayoutS :=
  {| fields := fields l; variants := Single v; layout_abi := a; largest_niche := n;
     align := align l; size := size l; max_repr_align := max_repr_align l;
     unadjusted_abi_align := unadjusted_abi_align l |}.

(** The branch [if is_struct]; [v] is [present_first]. *)
Definition layout_of_struct (repr : ReprOptions) (vars : list (list LayoutS))
    (is_enum is_unsafe_cell : bool) (scalar_valid_range : Bound * Bound) (always_sized : bool)
    (v : Z) : outcome (option LayoutS) :=
  let! flds := unwrap (vars !! Z.to_nat v) in
  let kind := if is_enum || bool_decide (flds = []) || always_sized
              then AlwaysSized else MaybeUnsized in
  let? st := univariant flds repr kind in
  if is_unsafe_cell then
    let! a := hide_abi_niches (layout_abi st) in
    Ret (Some (with_abi_niche st v a None))
  else
    let '(lo, hi) := scalar_valid_range in
    match layout_abi st with
    | AbiScalar s =>
        let! (s, n) := narrow_scalar s (largest_niche st) lo hi in
        Ret (Some (with_abi_niche st v (AbiScalar s) n))
    | ScalarPair s s2 =>
        let! (s, n) := narrow_scalar s (largest_niche st) lo hi in
        Ret (Some (with_abi_niche st v (ScalarPair s s2) n))
    | a =>
        rassert (bool_decide (lo = Unbounded) && bool_decide (hi = Unbounded))
          (Ret (Some (with_abi_niche st v a (largest_niche st))))
    end.
End layout.
