(* ===== verification/LayoutProps.v ===== *)
(** What the layout computation promises: the order of fields is a
    permutation, fields are aligned, disjoint and inside the struct, the niche
    of a struct is a niche of one of its fields, and layouts stay well formed. *)

From S2P Require Import Prelude Abi AbiProps Layout.

(** ** Well-formed targets, scalars and layouts *)

(** Alignments are at most [Align::MAX]. *)
Definition align_ok (a : Align) : Prop := 0 ≤ a ≤ 29.

Record target_ok (dl : TargetDataLayout) : Prop := {
  bound_ok : ∃ b, obj_size_bound dl = Ret b ∧ 2 ^ 15 ≤ b ≤ 2 ^ 47;
  pointer_size_ok : small_size (pointer_size dl);
  aggregate_align_ok : align_ok (abi (aggregate_align dl));
  primitive_align_ok p : align_ok (abi (Primitive.align p dl));
}.

Definition scalar_ok (dl : TargetDataLayout) (s : Scalar) : Prop :=
  match s with
  | Initialized v r => in_width (Primitive.size v dl * 8) r
  | UnionScalar _ => True
  end.

Definition abi_ok (dl : TargetDataLayout) (a : Abi) : Prop :=
  match a with
  | AbiScalar s => scalar_ok dl s
  | ScalarPair s1 s2 => scalar_ok dl s1 ∧ scalar_ok dl s2
  | Vector s _ => scalar_ok dl s
  | _ => True
  end.

(** A niche inside [sz] bytes. *)
Definition niche_in (dl : TargetDataLayout) (sz : Size) (n : Niche) : Prop :=
  niche_wf n dl ∧ 0 ≤ offset n ∧ offset n + Primitive.size (value n) dl ≤ sz.

(** The invariant of layouts: a size an object can have, an alignment, a niche
    within the size, scalars with ranges of their width. *)
Record layout_ok (dl : TargetDataLayout) (l : LayoutS) : Prop := {
  size_ok : 0 ≤ size l ≤ 2 ^ 48;
  layout_align_ok : align_ok (abi (align l));
  niche_ok n : largest_niche l = Some n → niche_in dl (size l) n;
  layout_abi_ok : abi_ok dl (layout_abi l);
}.

Definition repr_ok (repr : ReprOptions) : Prop :=
  (∀ a, repr_align repr = Some a → align_ok a) ∧ (∀ a, repr_pack repr = Some a → align_ok a).

Definition kind_ok (kind : StructKind) : Prop :=
  match kind with Prefixed s a => 0 ≤ s ≤ 16 ∧ align_ok a | _ => True end.

Lemma align_ok_pow a : align_ok a → 1 ≤ 2 ^ a ≤ 2 ^ 29.
Proof.
  intros [H1 H2]. pose proof (pow2_pos a H1). split; [lia|]. apply Z.pow_le_mono_r; lia.
Qed.

(** ** Lists and orders *)

Lemma mapM_outcome_ret {A B} (f : A → outcome B) l :
  Forall (λ x, ∃ y, f x = Ret y) l → ∃ ys, mapM_outcome f l = Ret ys ∧ length ys = length l.
Proof.
  induction 1 as [|x l [y Hy] Hl (ys&IH&Hlen)]; cbn; [by exists []|].
  rewrite Hy. cbn [obind]. rewrite IH. cbn. eexists. split; [done|]. cbn. lia.
Qed.

Lemma insert_by_key_perm x l : insert_by_key x l ≡ₚ x :: l.
Proof.
  induction l as [|y l IH]; cbn; [done|]. destruct (key_le _ _); [done|].
  rewrite IH. by apply perm_swap.
Qed.

Lemma sort_by_key_perm l : sort_by_key l ≡ₚ l.
Proof. induction l as [|x l IH]; cbn; [done|]. by rewrite insert_by_key_perm, IH. Qed.

(** ** Primitives and scalars *)

Section props.
Context `{ShufflePerm} (dl : TargetDataLayout) (Hdl : target_ok dl).

Lemma primitive_size_small p : small_size (Primitive.size p dl).
Proof.
  destruct p as [i s| | |a]; cbn; [destruct i; by split|by split|by split|apply Hdl].
Qed.

Lemma niche_wf_scalar o v r : scalar_ok dl (Initialized v r) → niche_wf (mkNiche o v r) dl.
Proof. intros Hs. split; [apply primitive_size_small|done]. Qed.

Lemma available_ret n : niche_wf n dl → ∃ k, Niche.available n dl = Ret k ∧ 0 ≤ k.
Proof.
  intros Hn. rewrite niche_available_eq by done. eexists. split; [done|].
  apply Z.mod_pos_bound, pow2_pos. destruct Hn as [[? ?] _]. unfold niche_bits. lia.
Qed.

Lemma niche_size_ret f : layout_ok dl f → ∃ k, niche_size dl f = Ret k ∧ 0 ≤ k.
Proof.
  intros Hf. unfold niche_size. destruct (largest_niche f) as [n|] eqn:E; [|by exists 0].
  apply available_ret, (niche_ok dl f Hf n E).
Qed.

Lemma from_scalar_ret o s :
  scalar_ok dl s → 0 ≤ o → ∃ n, Niche.from_scalar dl o s = Ret n ∧
    ∀ n', n = Some n' → niche_in dl (o + Scalar.size s dl) n'.
Proof.
  intros Hs Ho. destruct s as [v r|v]; cbn [Niche.from_scalar]; [|by eexists].
  pose proof (niche_wf_scalar o v r Hs) as Hn.
  destruct (available_ret _ Hn) as (k&->&Hk). cbn [obind]. eexists. split; [done|].
  intros n'. case_match; [|done]. intros [= <-]. split; [done|]. cbn. unfold Scalar.size. cbn. lia.
Qed.

Lemma niche_in_mono s s' n : niche_in dl s n → s ≤ s' → niche_in dl s' n.
Proof. intros (Hwf&Ho&Hin) Hle. split; [done|lia]. Qed.

(** ** The order of fields *)

Lemma group_key_ret pack bias m n f :
  layout_ok dl f → ∃ k, alignment_group_key dl pack bias m n f = Ret k.
Proof.
  intros Hf. destruct pack; [by eexists|]. cbn. destruct (niche_size_ret f Hf) as (k&->&_).
  by eexists.
Qed.

Lemma field_order_perm flds repr kind bias :
  Forall (layout_ok dl) flds →
  ∃ order, field_order dl flds repr kind bias = Ret order ∧ order ≡ₚ seqZ 0 (Z.of_nat (length flds)) ∧
    (ReprOptions.inhibit_struct_field_reordering_opt repr = true →
     order = seqZ 0 (Z.of_nat (length flds))).
Proof.
  intros Hf. unfold field_order. set (len := Z.of_nat (length flds)).
  destruct (ReprOptions.inhibit_struct_field_reordering_opt repr) eqn:Hin; cbn [negb andb];
    [by eexists|].
  destruct (Z.ltb_spec 1 len); [|by eexists].
  set (end_ := if is_maybe_unsized kind then len - 1 else len).
  assert (0 ≤ end_ ≤ len) as Hend by (unfold end_; destruct (is_maybe_unsized kind); lia).
  assert (seqZ 0 end_ ++ seqZ end_ (len - end_) = seqZ 0 len) as Hsplit.
  { pose proof (seqZ_app 0 end_ (len - end_)) as E. rewrite Z.add_0_l in E.
    rewrite <- E by lia. f_equal. lia. }
  assert (∀ l, l ≡ₚ seqZ 0 end_ → l ++ seqZ end_ (len - end_) ≡ₚ seqZ 0 len) as Hperm
    by (intros l ->; by rewrite Hsplit).
  destruct (_ && feature_randomize).
  { eexists. split; [done|]. split; [|done]. apply Hperm, shuffle_perm. }
  set (flds' := take (Z.to_nat end_) flds).
  assert (Forall (layout_ok dl) flds') as Hf' by (by apply Forall_take).
  destruct (mapM_outcome_ret (niche_size dl) flds') as (sizes&->&_).
  { eapply List.Forall_impl; [|exact Hf']. intros f Hok.
    destruct (niche_size_ret f Hok) as (k&?&_). by exists k. }
  cbn [obind]. set (gk := alignment_group_key dl _ _ _ _).
  set (key := match kind with Prefixed _ _ => _ | _ => _ end).
  destruct (mapM_outcome_ret key flds') as (keys&->&Hlen).
  { eapply List.Forall_impl; [|exact Hf']. intros f Hok.
    destruct (niche_size_ret f Hok) as (k&Hk&_).
    assert (∃ g, gk f = Ret g) as [g Hg] by (unfold gk; by apply group_key_ret).
    unfold key, sized_key, prefixed_key. destruct kind; rewrite Hk; cbn [obind]; rewrite Hg;
      by eexists. }
  cbn [obind]. eexists. split; [done|]. split; [|done]. apply Hperm.
  rewrite sort_by_key_perm. rewrite snd_zip; [done|].
  rewrite length_seqZ, Hlen. unfold flds'. rewrite length_take. unfold len in *. lia.
Qed.
Lemma seqZ_of_nat n : seqZ 0 (Z.of_nat n) = Z.of_nat <$> seq 0 n.
Proof. unfold seqZ. rewrite Nat2Z.id. apply list_fmap_ext. intros. lia. Qed.

(** The order as natural numbers. *)
Lemma order_nat (order : list Z) n :
  order ≡ₚ seqZ 0 (Z.of_nat n) → ∃ ord, order = Z.of_nat <$> ord ∧ ord ≡ₚ seq 0 n.
Proof.
  intros Hp. rewrite seqZ_of_nat in Hp. destruct (Permutation_map_inv _ _ Hp) as (ord&Ho&Hperm).
  exists ord. split; [done|]. by symmetry.
Qed.

Lemma perm_seq_elem ord n i : ord ≡ₚ seq 0 n → i ∈ ord ↔ (i < n)%nat.
Proof. intros ->. rewrite elem_of_seq. lia. Qed.

Lemma perm_seq_nodup ord n : ord ≡ₚ seq 0 n → NoDup ord.
Proof. intros ->. apply NoDup_seq. Qed.

Lemma invert_loop_spec ord s inverse :
  NoDup ord → (∀ i, i ∈ ord → i < length inverse)%nat →
  ∃ inv, FieldsShape.invert_loop s (Z.of_nat <$> ord) inverse = Ret inv ∧
    length inv = length inverse ∧
    (∀ k i, ord !! k = Some i → inv !! i = Some (s + Z.of_nat k)) ∧
    (∀ j, j ∉ ord → inv !! j = inverse !! j).
Proof.
  intros Hnd. revert s inverse. induction Hnd as [|i ord Hi Hnd IH]; intros s inverse Hlt;
    cbn [fmap list_fmap FieldsShape.invert_loop].
  { exists inverse. split_and!; [done..| |done]. intros k i. by rewrite lookup_nil. }
  rewrite Nat2Z.id.
  assert (i < length inverse)%nat as Hilt by (apply Hlt; left).
  destruct (Nat.ltb_spec i (length inverse)); [|lia]. cbn [rassert].
  destruct (IH (s + 1) (<[i := s]> inverse)) as (inv&->&Hlen&Hin&Hout).
  { intros j Hj. rewrite length_insert. apply Hlt. by right. }
  rewrite length_insert in Hlen. exists inv. split_and!; [done|done| |].
  - intros [|k] j; cbn.
    + intros [= <-]. rewrite Hout, list_lookup_insert_eq by done. f_equal. lia.
    + intros Hk. rewrite (Hin k j Hk). f_equal. lia.
  - intros j Hj. apply not_elem_of_cons in Hj as [Hne Hj].
    rewrite Hout by done. by apply list_lookup_insert_ne.
Qed.

(** ** Placing fields one after the other *)

Section placing.
Variables (flds : list LayoutS) (pack : option Align) (bias : NicheBias).
Hypotheses (Hflds : Forall (layout_ok dl) flds) (Hpack : ∀ a, pack = Some a → align_ok a).

(** The alignment a field is placed with. *)
Definition field_align (f : LayoutS) : Align := abi (pack_align pack (align f)).

Lemma flds_ok i f : flds !! i = Some f → layout_ok dl f.
Proof. intros Hi. by eapply Forall_lookup_1. Qed.

Lemma field_align_ok f : layout_ok dl f → align_ok (field_align f).
Proof.
  intros Hf. unfold field_align, pack_align. pose proof (layout_align_ok dl f Hf) as Ha.
  destruct pack as [p|]; [|done]. specialize (Hpack p eq_refl). unfold align_ok in *. cbn. lia.
Qed.

(** The fields of [ord], in this order, lie at aligned offsets between [cur]
    and [e], each behind the one before. *)
Fixpoint chain (offs : list Size) (cur : Z) (ord : list nat) (e : Z) : Prop :=
  match ord with
  | [] => cur ≤ e
  | i :: ord =>
      ∃ f o, flds !! i = Some f ∧ offs !! i = Some o ∧ cur ≤ o ∧ (2 ^ field_align f | o) ∧
             chain offs (o + size f) ord e
  end.

Lemma chain_snoc offs cur ord e i f o :
  chain offs cur ord e → flds !! i = Some f → offs !! i = Some o → e ≤ o →
  (2 ^ field_align f | o) → chain offs cur (ord ++ [i]) (o + size f).
Proof.
  intros Hc Hf Ho He Hd. revert cur Hc. induction ord as [|j ord IH]; intros cur; cbn.
  - intros Hle. exists f, o. split_and!; [done..|lia|done|lia].
  - intros (g&p&Hg&Hp&Hle&Hdv&Hc). exists g, p. split_and!; [done..|]. by apply IH.
Qed.

Lemma chain_insert offs cur ord e i x :
  i ∉ ord → chain offs cur ord e → chain (<[i := x]> offs) cur ord e.
Proof.
  revert cur. induction ord as [|j ord IH]; intros cur; cbn; [done|].
  intros [Hne Hi]%not_elem_of_cons (g&p&Hg&Hp&Hle&Hdv&Hc). exists g, p.
  rewrite list_lookup_insert_ne by done. split_and!; [done..|]. by apply IH.
Qed.

Lemma chain_elem offs cur ord e i f o :
  chain offs cur ord e → i ∈ ord → flds !! i = Some f → offs !! i = Some o →
  cur ≤ o ∧ o + size f ≤ e ∧ (2 ^ field_align f | o).
Proof.
  assert (∀ ord cur, chain offs cur ord e → cur ≤ e) as Hmono.
  { induction ord0 as [|j ord0 IH]; intros cur0; cbn; [done|].
    intros (g&p&Hg&Hp&Hle&Hdv&Hc). apply IH in Hc.
    pose proof (size_ok dl g (flds_ok j g Hg)). lia. }
  revert cur. induction ord as [|j ord IH]; intros cur Hc Hi Hf Ho; [by apply elem_of_nil in Hi|].
  destruct Hc as (g&p&Hg&Hp&Hle&Hdv&Hc). apply elem_of_cons in Hi as [->|Hi].
  - simplify_eq. pose proof (Hmono _ _ Hc). done.
  - destruct (IH _ Hc Hi Hf Ho) as (H1&H2&H3).
    pose proof (size_ok dl g (flds_ok j g Hg)). split_and!; [lia|done..].
Qed.

Lemma chain_lookup offs cur ord e i :
  chain offs cur ord e → i ∈ ord → ∃ f, flds !! i = Some f.
Proof.
  revert cur. induction ord as [|j ord IH]; intros cur Hc Hi; [by apply elem_of_nil in Hi|].
  destruct Hc as (g&p&Hg&_&_&_&Hc). apply elem_of_cons in Hi as [->|Hi]; [by exists g|].
  by eapply IH.
Qed.

Lemma chain_before offs cur ord e j k i1 i2 f1 o1 o2 :
  chain offs cur ord e → (j < k)%nat → ord !! j = Some i1 → ord !! k = Some i2 →
  flds !! i1 = Some f1 → offs !! i1 = Some o1 → offs !! i2 = Some o2 → o1 + size f1 ≤ o2.
Proof.
  revert cur j k. induction ord as [|i ord IH]; intros cur j k Hc Hjk Hj Hk Hf H1 H2; [done|].
  destruct Hc as (g&p&Hg&Hp&Hle&Hdv&Hc).
  destruct k as [|k]; [lia|]. cbn in Hk. destruct j as [|j]; cbn in Hj.
  - simplify_eq. assert (i2 ∈ ord) as Hin by (by eapply list_elem_of_lookup_2).
    assert (∃ f2, flds !! i2 = Some f2) as [f2 Hf2].
    { by apply (chain_lookup _ _ _ _ _ Hc). }
    by destruct (chain_elem _ _ _ _ _ _ _ Hc Hin Hf2 H2).
  - eapply (IH _ j k); try done. lia.
Qed.
(** The niche kept is the one of a placed field, moved by its offset, and no
    placed field has a larger one. *)
Definition niche_inv (offs : list Size) (done : list nat) (niche : option Niche) (avail : Z) : Prop :=
  (∀ i f, i ∈ done → flds !! i = Some f → ∃ k, niche_size dl f = Ret k ∧ k ≤ avail) ∧
  match niche with
  | None =>
      avail = 0 ∧
      (bias = BiasEnd → ∀ i f, i ∈ done → flds !! i = Some f → largest_niche f = None)
  | Some n =>
      ∃ i f o n0, i ∈ done ∧ flds !! i = Some f ∧ offs !! i = Some o ∧
        largest_niche f = Some n0 ∧ n = mkNiche (offset n0 + o) (value n0) (valid_range n0) ∧
        Niche.available n0 dl = Ret avail
  end.

Lemma niche_inv_insert offs done niche avail i x :
  i ∉ done → niche_inv offs done niche avail → niche_inv (<[i := x]> offs) done niche avail.
Proof.
  intros Hi [Hmax Hn]. split; [done|]. destruct niche as [n|]; [|done].
  destruct Hn as (j&f&o&n0&Hj&Hf&Ho&Hn0&Hn&Hav). exists j, f, o, n0.
  rewrite list_lookup_insert_ne by (intros ->; done). by split_and!.
Qed.

Lemma niche_inv_keep offs done niche avail i :
  (∀ f, flds !! i = Some f →
     ∃ k, niche_size dl f = Ret k ∧ k ≤ avail ∧
          (niche = None → bias = BiasEnd → largest_niche f = None)) →
  niche_inv offs done niche avail → niche_inv offs (done ++ [i]) niche avail.
Proof.
  intros Hi [Hmax Hn]. split.
  - intros j f [Hj| ->%list_elem_of_singleton]%elem_of_app Hf; [by apply (Hmax j f)|].
    destruct (Hi f Hf) as (k&Hk&Hle&_). by exists k.
  - destruct niche as [n|].
    + destruct Hn as (j&f&o&n0&Hj&Hn). exists j, f, o, n0. split; [|done].
      apply elem_of_app. by left.
    + destruct Hn as [Ha Hend]. split; [done|].
      intros Hb j f [Hj| ->%list_elem_of_singleton]%elem_of_app Hf; [by apply (Hend Hb j f)|].
      destruct (Hi f Hf) as (k&_&_&Hnone). by apply Hnone.
Qed.

Lemma pick_niche_ok done st i f o :
  flds !! i = Some f → i ∉ done → (i < length (pl_offsets st))%nat → 0 ≤ o ≤ 2 ^ 50 →
  niche_inv (pl_offsets st) done (pl_largest_niche st) (pl_largest_niche_available st) →
  ∃ n k, pick_niche dl bias st f o = Ret (n, k) ∧
         niche_inv (<[i := o]> (pl_offsets st)) (done ++ [i]) n k.
Proof.
  intros Hf Hi Hlen Ho Hinv. pose proof (flds_ok i f Hf) as Hok. unfold pick_niche.
  pose proof (niche_inv_insert _ _ _ _ i o Hi Hinv) as Hinv'.
  assert (0 ≤ pl_largest_niche_available st) as Hpos.
  { destruct Hinv as [_ Hn]. destruct (pl_largest_niche st) as [n|]; [|lia].
    destruct Hn as (j&g&p&n0&_&Hg&_&Hn0&_&Hav).
    destruct (available_ret n0) as (k&Hk&Hk0); [|congruence].
    apply (niche_ok dl g (flds_ok j g Hg) n0 Hn0). }
  destruct (niche_size_ret f Hok) as (k&Hk&Hk0). pose proof Hk as Hav. unfold niche_size in Hav.
  destruct (largest_niche f) as [n|] eqn:Hn.
  2: { do 2 eexists. split; [done|]. apply niche_inv_keep; [|done].
       intros g Hg. rewrite Hf in Hg. injection Hg as <-. exists k. split_and!; [done| |done].
       injection Hav as <-. lia. }
  destruct (niche_ok dl f Hok n Hn) as (Hwf&Hoff&Hin).
  pose proof (primitive_size_small (value n)) as [? ?]. pose proof (size_ok dl f Hok).
  rewrite Hav. cbn [obind].
  assert (Size.add (Abi.offset n) o = Ret (Abi.offset n + o)) as Hadd.
  { unfold Size.add, checked_add, Size.bytes. destruct (Z.ltb_spec (Abi.offset n + o) (2 ^ 64)); [done|lia]. }
  rewrite Hadd. cbn [obind].
  destruct (match bias with BiasStart => _ | BiasEnd => _ end) eqn:Hpref.
  - do 2 eexists. split; [done|]. split.
    + intros j g [Hj| ->%list_elem_of_singleton]%elem_of_app Hg.
      * destruct Hinv as [Hmax _]. destruct (Hmax j g Hj Hg) as (k'&Hk'&Hle). exists k'.
        split; [done|]. destruct bias; lia.
      * rewrite Hf in Hg. injection Hg as <-. exists k. split; [done|lia].
    + exists i, f, o, n. rewrite list_lookup_insert_eq by done. split_and!; try done.
      apply elem_of_app. right. by apply list_elem_of_singleton.
  - do 2 eexists. split; [done|]. apply niche_inv_keep; [|done].
    intros g Hg. rewrite Hf in Hg. injection Hg as <-. exists k. split; [done|].
    destruct bias; [split; [lia|done]|]. split; [lia|]. intros Hnone.
    destruct Hinv as [_ Hnn]. rewrite Hnone in Hnn. destruct Hnn as [Hz _]. lia.
Qed.
(** The loop invariant: the fields [done] have been placed from [lo] on. *)
Record placed (lo : Z) (done : list nat) (st : placing) : Prop := {
  pd_length : length (pl_offsets st) = length flds;
  pd_bounds : 0 ≤ lo ≤ pl_offset st ∧ pl_offset st ≤ 2 ^ 47;
  pd_chain : chain (pl_offsets st) lo done (pl_offset st);
  pd_align : align_ok (abi (pl_align st));
  pd_aligns i f : i ∈ done → flds !! i = Some f → field_align f ≤ abi (pl_align st);
  pd_niche : niche_inv (pl_offsets st) done (pl_largest_niche st) (pl_largest_niche_available st);
}.

(** The space a field may take, its padding included. *)
Definition field_room (f : LayoutS) : Z := size f + 2 ^ field_align f - 1.

Variable bound : Z.
Hypothesis Hbound : obj_size_bound dl = Ret bound ∧ bound ≤ 2 ^ 47.

Lemma checked_add_eq a b :
  0 ≤ a ≤ 2 ^ 50 → 0 ≤ b ≤ 2 ^ 50 →
  size_checked_add a b dl = Ret (if a + b <? bound then Some (a + b) else None).
Proof.
  intros Ha Hb. unfold size_checked_add, checked_add, Size.bytes.
  destruct (Z.ltb_spec (a + b) (2 ^ 64)); [|lia]. destruct Hbound as [-> _]. done.
Qed.

Lemma place_field_step lo done st i f :
  placed lo done st → i ∉ done → flds !! i = Some f →
  ∃ r, place_field dl flds pack bias st (Z.of_nat i) = Ret r ∧
    match r with
    | None => bound ≤ pl_offset st + field_room f
    | Some st' => placed lo (done ++ [i]) st' ∧ abi (pl_align st) ≤ abi (pl_align st') ∧
                  pl_offset st' ≤ pl_offset st + field_room f ∧ pl_offset st' < bound
    end.
Proof.
  intros [Hlen [[Hlo1 Hlo2] Hcur] Hch Hal Hals Hn] Hi Hf. pose proof (flds_ok i f Hf) as Hok.
  pose proof (field_align_ok f Hok) as Hfa. pose proof (align_ok_pow _ Hfa) as Hpow.
  pose proof (size_ok dl f Hok) as Hsz. assert (i < length flds)%nat as Hil by (by eapply lookup_lt_Some).
  rewrite <- Hlen in Hil. unfold place_field. rewrite Nat2Z.id, Hf. cbn [unwrap obind]. fold (field_align f).
  destruct (align_to_least (pl_offset st) (field_align f)) as (Hdiv&Hge&_);
    [unfold align_ok in Hfa; lia|lia|lia|].
  assert (Size.align_to (pl_offset st) (field_align f) < pl_offset st + 2 ^ field_align f) as Hlt
    by (apply align_to_lt; unfold align_ok in Hfa; lia).
  set (o := Size.align_to (pl_offset st) (field_align f)) in *.
  destruct (pick_niche_ok done st i f o) as (n&k&->&Hn'); [done|done|lia|lia|done|].
  cbn [obind]. unfold obind_opt. rewrite checked_add_eq by lia. cbn [obind].
  destruct (Z.ltb_spec (o + size f) bound) as [Hb|Hb]; (eexists; split; [done|]); cbn;
    [|unfold field_room; lia].
  split; [|unfold field_room; lia]. split; cbn; [by rewrite length_insert|lia| | | |done].
  - eapply chain_snoc; [by apply chain_insert|done|by apply list_lookup_insert_eq|lia|done].
  - fold (field_align f). unfold align_ok in *. lia.
  - intros j g [Hj| ->%list_elem_of_singleton]%elem_of_app Hg.
    + pose proof (Hals j g Hj Hg). lia.
    + rewrite Hf in Hg. injection Hg as <-. fold (field_align f). lia.
Qed.

Definition total_room (ord : list nat) : Z :=
  foldr (λ i z, match flds !! i with Some f => field_room f | None => 0 end + z) 0 ord.

Lemma total_room_nonneg l : 0 ≤ total_room l.
Proof.
  unfold total_room. induction l as [|j l IHl]; cbn; [lia|].
  destruct (flds !! j) as [g|] eqn:Hg; [|lia].
  pose proof (flds_ok j g Hg) as Hgok. pose proof (size_ok dl g Hgok).
  pose proof (align_ok_pow _ (field_align_ok g Hgok)). unfold field_room at 1. lia.
Qed.

Lemma place_fields_ok lo done ord st :
  placed lo done st → NoDup (done ++ ord) → (∀ i, i ∈ ord → i < length flds)%nat →
  ∃ r, place_fields dl flds pack bias (Z.of_nat <$> ord) st = Ret r ∧
    match r with
    | None => bound ≤ pl_offset st + total_room ord
    | Some st' => placed lo (done ++ ord) st' ∧ abi (pl_align st) ≤ abi (pl_align st')
    end.
Proof.
  revert done st. induction ord as [|i ord IH]; intros done st Hpl Hnd Hlt;
    cbn [fmap list_fmap place_fields].
  { eexists. split; [done|]. rewrite app_nil_r. split; [done|lia]. }
  destruct (lookup_lt_is_Some_2 flds i) as [f Hf]; [apply Hlt; left|].
  assert (i ∉ done) as Hi.
  { intros Hd. apply list.NoDup_app in Hnd as (_&Hdis&_). apply (Hdis i Hd). left. }
  destruct (place_field_step lo done st i f Hpl Hi Hf) as (r&->&Hr). unfold obind_opt. cbn [obind].
  pose proof (total_room_nonneg ord) as Hroom.
  assert (total_room (i :: ord) = field_room f + total_room ord) as -> by (cbn; by rewrite Hf).
  destruct r as [st'|]; [|eexists; split; [done|]; cbv iota in Hr |- *; lia].
  destruct Hr as (Hpl'&Hal&Hle&_).
  destruct (IH (done ++ [i]) st' Hpl') as (r&->&Hr).
  { by rewrite <- app_assoc. }
  { intros j Hj. apply Hlt. by right. }
  eexists. split; [done|]. destruct r as [st2|].
  - destruct Hr as [Hp2 Hal2]. rewrite <- app_assoc in Hp2. split; [done|lia].
  - lia.
Qed.
Lemma total_room_perm l1 l2 : l1 ≡ₚ l2 → total_room l1 = total_room l2.
Proof. unfold total_room. induction 1; cbn in *; lia. Qed.

Lemma start_placed repr kind :
  repr_ok repr → kind_ok kind → pack = repr_pack repr →
  placed (pl_offset (start_placing dl flds repr kind)) [] (start_placing dl flds repr kind).
Proof.
  intros [_ Hp] Hk Epack.
  assert (align_ok (abi (if ReprOptions.packed repr then i8_align dl else aggregate_align dl))) as Ha.
  { destruct (ReprOptions.packed repr); [apply (primitive_align_ok dl Hdl (Int I8 false))|apply Hdl]. }
  assert (∀ o a, 0 ≤ o ≤ 2 ^ 47 → align_ok (abi a) →
    placed o [] (mkPlacing true (replicate (length flds) Size.ZERO) o a (repr_align repr) None 0)) as Hst.
  { intros o a Ho Hal. split; cbn; [apply length_replicate|lia|lia|done| |].
    - intros i f Hi. by apply elem_of_nil in Hi.
    - split; [|split; [done|]]; intros; exfalso; by eapply not_elem_of_nil. }
  unfold start_placing. destruct kind as [| |s a]; [by apply Hst..|].
  destruct Hk as [Hs Hka]. set (pa := match repr_pack repr with Some _ => _ | None => _ end).
  assert (align_ok pa) as Hpa.
  { unfold pa. destruct (repr_pack repr) as [q|] eqn:E; [|done]. specialize (Hp q eq_refl).
    unfold align_ok in *. lia. }
  pose proof (align_ok_pow pa Hpa). apply Hst.
  - destruct (align_to_least s pa) as (_&Hge&_); [unfold align_ok in Hpa; lia|lia|lia|].
    pose proof (align_to_lt s pa) as Hlt. unfold align_ok in Hpa. lia.
  - cbn. unfold align_ok in *. lia.
Qed.
End placing.

(** ** Scalar pairs and the ABI of a struct *)

Lemma scalar_pair_ok a b :
  scalar_ok dl a → scalar_ok dl b →
  ∃ l o, scalar_pair dl a b = Ret l ∧ layout_ok dl l ∧
    fields l = ArbitraryShape [0; o] [0; 1] ∧ layout_abi l = ScalarPair a b ∧
    o = Size.align_to (Scalar.size a dl) (abi (Scalar.align b dl)) ∧
    size l = Size.align_to (o + Scalar.size b dl) (abi (align l)) ∧
    abi (align l) = Z.max (Z.max (abi (Scalar.align a dl)) (abi (Scalar.align b dl)))
                      (abi (aggregate_align dl)) ∧
    (2 ^ abi (Scalar.align b dl) | o) ∧ Scalar.size a dl ≤ o ∧ o + Scalar.size b dl ≤ size l ∧
    (2 ^ abi (align l) | size l).
Proof.
  intros Hsa Hsb.
  pose proof (primitive_size_small (Scalar.primitive a)) as [Ha1 Ha2].
  pose proof (primitive_size_small (Scalar.primitive b)) as [Hb1 Hb2].
  pose proof (primitive_align_ok dl Hdl (Scalar.primitive a)) as Haa.
  pose proof (primitive_align_ok dl Hdl (Scalar.primitive b)) as Hba.
  pose proof (aggregate_align_ok dl Hdl) as Hag.
  fold (Scalar.size a dl) (Scalar.size b dl) in *. fold (Scalar.align a dl) (Scalar.align b dl) in *.
  unfold scalar_pair.
  set (al := AbiAndPrefAlign.max (AbiAndPrefAlign.max (Scalar.align a dl) (Scalar.align b dl))
               (aggregate_align dl)).
  assert (align_ok (abi al)) as Hal by (unfold al, align_ok in *; cbn; lia).
  pose proof (align_ok_pow _ Hba) as Hp1. pose proof (align_ok_pow _ Hal) as Hp2.
  destruct (align_to_least (Scalar.size a dl) (abi (Scalar.align b dl))) as (Hd&Hge&_);
    [unfold align_ok in Hba; lia|lia|lia|].
  pose proof (align_to_lt (Scalar.size a dl) (abi (Scalar.align b dl))
                ltac:(unfold align_ok in Hba; lia) ltac:(lia) ltac:(lia)) as Hlt.
  set (o := Size.align_to (Scalar.size a dl) (abi (Scalar.align b dl))) in *.
  assert (Size.add o (Scalar.size b dl) = Ret (o + Scalar.size b dl)) as ->.
  { unfold Size.add, checked_add, Size.bytes.
    destruct (Z.ltb_spec (o + Scalar.size b dl) (2 ^ 64)); [done|lia]. }
  cbn [obind].
  destruct (align_to_least (o + Scalar.size b dl) (abi al)) as (Hd2&Hge2&_);
    [unfold align_ok in Hal; lia|lia|lia|].
  pose proof (align_to_lt (o + Scalar.size b dl) (abi al)
                ltac:(unfold align_ok in Hal; lia) ltac:(lia) ltac:(lia)) as Hlt2.
  set (sz := Size.align_to (o + Scalar.size b dl) (abi al)) in *.
  destruct (from_scalar_ret o b Hsb ltac:(lia)) as (nb&->&Hnb).
  destruct (from_scalar_ret Size.ZERO a Hsa ltac:(done)) as (na&->&Hna). cbn [obind].
  assert (∀ n, nb = Some n ∨ na = Some n → niche_in dl sz n) as Hin.
  { intros n [E|E]; eapply niche_in_mono; [by apply Hnb|lia|by apply Hna|unfold Size.ZERO; lia]. }
  assert (∃ n, max_niche dl nb na = Ret n ∧ ∀ n', n = Some n' → nb = Some n' ∨ na = Some n')
    as (n&->&Hn).
  { destruct nb as [n1|], na as [n2|]; cbn; [|by eexists; eauto..].
    destruct (available_ret n1) as (k1&->&_); [apply Hin; by left|].
    destruct (available_ret n2) as (k2&->&_); [apply Hin; by right|]. cbn [obind].
    eexists. split; [done|]. intros n'. destruct (k1 <=? k2); auto. }
  cbn [obind]. do 2 eexists. split; [done|]. cbn. split_and!; try done.
  split; cbn; [lia|done| |done]. intros n' E. by apply Hin, Hn.
Qed.
Lemma non_zst_lookup flds i f : In (i, f) (non_zst_fields flds) → flds !! Z.to_nat i = Some f.
Proof.
  unfold non_zst_fields. intros [Hin _]%filter_In.
  apply list_elem_of_In, list_elem_of_lookup in Hin as [k Hk].
  apply lookup_zip_Some in Hk as [Hi Hf]. apply lookup_seqZ in Hi as [-> Hk].
  replace (Z.to_nat (0 + Z.of_nat k)) with k by lia. done.
Qed.

(** Where the ABI of a struct comes from: it is an aggregate, or the ABI of a
    field that fills it, or a scalar pair whose own layout it has. *)
Definition abi_source (flds : list LayoutS) (sized : bool) (al : AbiAndPrefAlign) (sz : Size)
    (a : Abi) : Prop :=
  a = Aggregate sized ∨
  (∃ f, f ∈ flds ∧ a = layout_abi f ∧ sz = size f ∧ abi al = abi (align f)) ∨
  (∃ s1 s2 l, a = ScalarPair s1 s2 ∧ scalar_ok dl s1 ∧ scalar_ok dl s2 ∧
              scalar_pair dl s1 s2 = Ret l ∧ al = align l ∧ sz = size l).

Lemma struct_abi_ok flds optimize sized offs al sz :
  Forall (layout_ok dl) flds → length offs = length flds →
  ∃ a single, struct_abi dl flds optimize sized offs al sz = Ret (a, single) ∧
    abi_source flds sized al sz a.
Proof.
  intros Hf Hlen. unfold struct_abi. assert (∀ o : option LayoutS, ∃ a single,
      Ret (Aggregate sized, o) = Ret (a, single) ∧ abi_source flds sized al sz a) as Hagg.
  { intros o. do 2 eexists. split; [done|]. by left. }
  destruct (sized && (0 <? Size.bytes sz)); [|apply Hagg].
  destruct (non_zst_fields flds) as [|[i f] [|[j g] [|? ?]]] eqn:Hnz; try apply Hagg.
  - assert (flds !! Z.to_nat i = Some f) as Hi by (apply non_zst_lookup; rewrite Hnz; by left).
    destruct (lookup_lt_is_Some_2 offs (Z.to_nat i)) as [o ->].
    { rewrite Hlen. by eapply lookup_lt_Some. }
    cbn [unwrap obind].
    destruct ((Size.bytes o =? 0) && (abi al =? abi (align f)) && (sz =? size f)) eqn:E; [|apply Hagg].
    assert (∃ f0, f0 ∈ flds ∧ layout_abi f = layout_abi f0 ∧ sz = size f0 ∧
              abi al = abi (align f0)) as Hfill.
    { exists f. split; [by eapply list_elem_of_lookup_2|]. split; [done|]. lia. }
    do 2 eexists. split; [done|].
    destruct (layout_abi f) eqn:Ea; try (by left); try (right; left; exact Hfill);
      destruct optimize; (by left) || (right; left; exact Hfill).
  - destruct (layout_abi f) as [|a| | | | |] eqn:Ef; try apply Hagg.
    destruct (layout_abi g) as [|b| | | | |] eqn:Eg; try apply Hagg.
    assert (flds !! Z.to_nat i = Some f) as Hi by (apply non_zst_lookup; rewrite Hnz; by left).
    assert (flds !! Z.to_nat j = Some g) as Hj by (apply non_zst_lookup; rewrite Hnz; by right; left).
    destruct (lookup_lt_is_Some_2 offs (Z.to_nat i)) as [oi ->].
    { rewrite Hlen. by eapply lookup_lt_Some. }
    destruct (lookup_lt_is_Some_2 offs (Z.to_nat j)) as [oj ->].
    { rewrite Hlen. by eapply lookup_lt_Some. }
    cbn [unwrap obind].
    assert (scalar_ok dl a ∧ scalar_ok dl b) as [Hsa Hsb].
    { pose proof (layout_abi_ok dl f (flds_ok _ Hf _ _ Hi)) as Hx. rewrite Ef in Hx.
      pose proof (layout_abi_ok dl g (flds_ok _ Hf _ _ Hj)) as Hy. by rewrite Eg in Hy. }
    assert (∀ p q s t, scalar_ok dl s → scalar_ok dl t → ∃ a single,
      (let! pair_layout := scalar_pair dl s t in
       match fields pair_layout with
       | ArbitraryShape [pair0; pair1] [0; 1] =>
           Ret (if (p =? pair0) && (q =? pair1) && bool_decide (al = align pair_layout)
                   && (sz =? size pair_layout)
                then layout_abi pair_layout else Aggregate sized, @None LayoutS)
       | _ => Panic
       end) = Ret (a, single) ∧ abi_source flds sized al sz a) as Hpair.
    { intros p q s t Hs Ht. destruct (scalar_pair_ok s t Hs Ht) as (l&o&El&_&Efl&Eabi&_).
      rewrite El. cbn [obind]. rewrite Efl. do 2 eexists. split; [done|].
      destruct (_ && _) eqn:E; [|by left]. right. right. exists s, t, l.
      rewrite Eabi. apply andb_true_iff in E as [[_ E1%bool_decide_eq_true]%andb_true_iff E2].
      split_and!; try done. lia. }
    destruct (oi <? oj); by apply Hpair.
Qed.

(** The size and alignment of a layout are those its ABI prescribes. *)
Definition abi_consistent (l : LayoutS) : Prop :=
  ∀ s a, Abi.inherent_size (layout_abi l) dl = Ret (Some s) →
         Abi.inherent_align (layout_abi l) dl = Ret (Some a) →
         size l = s ∧ abi (align l) = abi a.

Lemma abi_source_consistent flds sized al sz a l :
  abi (aggregate_align dl) = 0 → Forall abi_consistent flds → abi_source flds sized al sz a →
  layout_abi l = a → size l = sz → align l = al → abi_consistent l.
Proof.
  intros Hag Hf [->|[(f&Hin&->&->&Hal)|(s1&s2&p&->&H1&H2&Hp&->&->)]] Ea Es Eal s a' Hs Ha;
    rewrite Ea in Hs, Ha.
  - done.
  - rewrite Forall_forall in Hf. apply list_elem_of_In in Hin.
    destruct (Hf f Hin s a' Hs Ha) as [<- <-]. by rewrite Es, Eal.
  - destruct (scalar_pair_ok s1 s2 H1 H2) as (l'&o&E&_&_&_&Ho&Hsz&Hla&_&_).
    rewrite Hp in E. injection E as <-. rewrite Es, Eal. cbn in Hs, Ha.
    injection Ha as <-. cbn in *.
    pose proof (primitive_align_ok dl Hdl (Scalar.primitive s1)) as [? ?].
    fold (Scalar.align s1 dl) in *. rewrite <- Ho in Hs.
    assert (abi (align p) = abi (Scalar.align s1 dl) `max` abi (Scalar.align s2 dl)) as Hm by lia.
    split; [|done]. rewrite Hsz, Hm. apply obind_ret_inv in Hs as (e&He&[= <-]).
    unfold Size.add, checked_add, Size.bytes in He. destruct (_ <? _); [|done].
    by injection He as <-.
Qed.
(** ** Structs *)

(** Placement of the fields [flds] of the struct [l] from [lo] on: offsets are
    aligned, in bounds and increase along the memory index, a permutation, so
    that fields do not overlap; the struct is a multiple of its alignment. *)
Definition struct_placed (flds : list LayoutS) (pack : option Align) (lo : Z) (l : LayoutS)
    (offs : list Size) (mi : list Z) : Prop :=
  fields l = ArbitraryShape offs mi ∧ length offs = length flds ∧
  mi ≡ₚ seqZ 0 (Z.of_nat (length flds)) ∧ ((2 ^ abi (align l) | size l) ∧ lo ≤ size l) ∧
  (∀ i f o, flds !! i = Some f → offs !! i = Some o →
     lo ≤ o ∧ o + size f ≤ size l ∧ (2 ^ field_align pack f | o) ∧
     field_align pack f ≤ abi (align l)) ∧
  (∀ i j f oi oj ki kj, flds !! i = Some f → offs !! i = Some oi → offs !! j = Some oj →
     mi !! i = Some ki → mi !! j = Some kj → ki < kj → oi + size f ≤ oj).

(** The niche of a struct is the largest among its fields', moved to where the
    field is. *)
Definition best_niche (flds : list LayoutS) (offs : list Size) (niche : option Niche) : Prop :=
  ∃ avail, (∀ i f, flds !! i = Some f → ∃ k, niche_size dl f = Ret k ∧ k ≤ avail) ∧
  match niche with
  | None => avail = 0
  | Some n =>
      ∃ i f o n0, flds !! i = Some f ∧ offs !! i = Some o ∧ largest_niche f = Some n0 ∧
        n = mkNiche (offset n0 + o) (value n0) (valid_range n0) ∧
        Niche.available n0 dl = Ret avail
  end.

(** Where the first field may be: behind the prefix. *)
Definition struct_start (flds : list LayoutS) (repr : ReprOptions) (kind : StructKind) : Z :=
  pl_offset (start_placing dl flds repr kind).

(** What [univariant] returns. *)
Definition struct_result (flds : list LayoutS) (repr : ReprOptions) (kind : StructKind)
    (l : LayoutS) : Prop :=
  layout_ok dl l ∧
  (∃ offs mi, struct_placed flds (repr_pack repr) (struct_start flds repr kind) l offs mi ∧
     best_niche flds offs (largest_niche l) ∧
     (ReprOptions.inhibit_struct_field_reordering_opt repr = true →
      mi = seqZ 0 (Z.of_nat (length flds)))) ∧
  (abi (aggregate_align dl) = 0 → Forall abi_consistent flds → abi_consistent l) ∧
  Abi.is_uninhabited (layout_abi l) = existsb (λ f, Abi.is_uninhabited (layout_abi f)) flds.

Lemma inverse_perm ord inv n :
  ord ≡ₚ seq 0 n → length inv = n → (∀ k i, ord !! k = Some i → inv !! i = Some (0 + Z.of_nat k)) →
  inv ≡ₚ seqZ 0 (Z.of_nat n).
Proof.
  intros Hp Hlen Hinv. symmetry.
  assert (length ord = n) as Hol by (rewrite Hp; apply length_seq).
  assert (∀ i, (i < n)%nat → ∃ k, ord !! k = Some i) as Hsurj.
  { intros i Hi. apply list_elem_of_lookup. by apply (perm_seq_elem ord n). }
  apply NoDup_Permutation.
  - apply NoDup_seqZ.
  - apply NoDup_alt. intros i j x Hi Hj.
    destruct (Hsurj i) as [ki Hki]; [rewrite <- Hlen; by eapply lookup_lt_Some|].
    destruct (Hsurj j) as [kj Hkj]; [rewrite <- Hlen; by eapply lookup_lt_Some|].
    rewrite (Hinv _ _ Hki) in Hi. rewrite (Hinv _ _ Hkj) in Hj.
    assert (ki = kj) as -> by (injection Hi; injection Hj; lia). congruence.
  - intros x. rewrite elem_of_seqZ. split.
    + intros Hx. assert (Z.to_nat x < length ord)%nat as Hlt by lia.
      destruct (lookup_lt_is_Some_2 _ _ Hlt) as [i Hi]. apply list_elem_of_lookup. exists i.
      rewrite (Hinv _ _ Hi). f_equal. lia.
    + intros [i Hi]%list_elem_of_lookup.
      destruct (Hsurj i) as [k Hk]; [rewrite <- Hlen; by eapply lookup_lt_Some|].
      rewrite (Hinv _ _ Hk) in Hi. injection Hi as <-. apply lookup_lt_Some in Hk. lia.
Qed.
Section finish.
Variables (flds : list LayoutS) (pack : option Align) (bias : NicheBias) (lo : Z) (ord : list nat)
  (st : placing) (l : LayoutS).
Hypotheses (Hflds : Forall (layout_ok dl) flds) (Hpl : placed flds pack bias lo ord st)
  (Hord : ord ≡ₚ seq 0 (length flds)) (Hal : align_ok (abi (align l)))
  (Hle : abi (pl_align st) ≤ abi (align l))
  (Hsize : size l = Size.align_to (pl_offset st) (abi (align l))).

Lemma finish_size :
  (2 ^ abi (align l) | size l) ∧ pl_offset st ≤ size l ≤ 2 ^ 48.
Proof.
  pose proof (pd_bounds _ _ _ _ _ _ Hpl) as [Hlo Hb]. pose proof (align_ok_pow _ Hal).
  unfold align_ok in Hal. destruct (align_to_least (pl_offset st) (abi (align l))) as (Hd&Hge&_);
    [lia..|]. pose proof (align_to_lt (pl_offset st) (abi (align l)) ltac:(lia) ltac:(lia) ltac:(lia)).
  rewrite Hsize. split; [done|lia].
Qed.

Lemma finish_elem i f : flds !! i = Some f → i ∈ ord.
Proof. intros Hi. apply (perm_seq_elem _ _ _ Hord). by eapply lookup_lt_Some. Qed.

Lemma finish_placed mi :
  length mi = length flds → (∀ k i, ord !! k = Some i → mi !! i = Some (0 + Z.of_nat k)) →
  fields l = ArbitraryShape (pl_offsets st) mi →
  struct_placed flds pack lo l (pl_offsets st) mi.
Proof.
  intros Hmi Hinv Hfl. pose proof finish_size as [Hdiv Hsz]. destruct Hpl as [Hlen Hb Hch Hpa Hals Hn].
  split; [done|]. split; [done|]. split; [by eapply inverse_perm|]. split; [split; [done|lia]|]. split.
  - intros i f o Hf Ho. pose proof (finish_elem i f Hf) as Hi.
    destruct (chain_elem _ _ Hflds _ _ _ _ _ _ _ Hch Hi Hf Ho) as (H1'&H2'&H3').
    pose proof (Hals i f Hi Hf). split_and!; [done|lia|done|lia].
  - intros i j f oi oj ki kj Hf Hoi Hoj Hki Hkj Hlt.
    destruct (list_elem_of_lookup_1 _ _ (finish_elem i f Hf)) as [k1 Hk1].
    assert (j ∈ ord) as Hj by (apply (perm_seq_elem _ _ _ Hord); rewrite <- Hlen; by eapply lookup_lt_Some).
    destruct (list_elem_of_lookup_1 _ _ Hj) as [k2 Hk2].
    rewrite (Hinv _ _ Hk1) in Hki. rewrite (Hinv _ _ Hk2) in Hkj.
    assert (k1 < k2)%nat by (injection Hki; injection Hkj; lia).
    by eapply (chain_before _ _ Hflds _ _ _ _ k1 k2).
Qed.

Lemma finish_niche : best_niche flds (pl_offsets st) (pl_largest_niche st).
Proof.
  destruct Hpl as [_ _ _ _ _ [Hmax Hn]]. exists (pl_largest_niche_available st). split.
  - intros i f Hf. apply (Hmax i f); [by eapply finish_elem|done].
  - destruct (pl_largest_niche st) as [n|]; [|by destruct Hn].
    destruct Hn as (i&f&o&n0&_&Hn). by exists i, f, o, n0.
Qed.

Lemma finish_niche_in n : pl_largest_niche st = Some n → niche_in dl (size l) n.
Proof.
  intros E. pose proof finish_size as [_ Hsz]. pose proof Hpl as [_ [Hlo _] Hch _ _ [_ Hn]].
  rewrite E in Hn. destruct Hn as (i&f&o&n0&Hi&Hf&Ho&Hn0&->&_).
  destruct (chain_elem _ _ Hflds _ _ _ _ _ _ _ Hch Hi Hf Ho) as (H1'&H2'&_).
  destruct (niche_ok dl f (flds_ok _ Hflds _ _ Hf) n0 Hn0) as (Hwf&Hoff&Hin).
  split; [done|]. cbn. lia.
Qed.
End finish.

Lemma abi_source_ok flds sized al sz a :
  Forall (layout_ok dl) flds → abi_source flds sized al sz a → abi_ok dl a.
Proof.
  intros Hf [->|[(f&Hin&->&_)|(s1&s2&l&->&H1'&H2'&_)]]; [done| |done].
  rewrite Forall_forall in Hf. apply list_elem_of_In in Hin. apply (Hf f Hin).
Qed.

Lemma abi_source_inhabited flds sized al sz a :
  abi_source flds sized al sz a → existsb (λ f, Abi.is_uninhabited (layout_abi f)) flds = false →
  Abi.is_uninhabited a = false.
Proof.
  intros [->|[(f&Hin&->&_)|(s1&s2&l&->&_)]] Hu; [done| |done].
  apply not_true_iff_false. intros Hf. apply not_true_iff_false in Hu. apply Hu, existsb_exists.
  exists f. split; [by apply list_elem_of_In|done].
Qed.

Lemma memory_index_ok (flds : list LayoutS) repr ord :
  ord ≡ₚ seq 0 (length flds) →
  (ReprOptions.inhibit_struct_field_reordering_opt repr = true →
   Z.of_nat <$> ord = seqZ 0 (Z.of_nat (length flds))) →
  ∃ mi, (if negb (ReprOptions.inhibit_struct_field_reordering_opt repr)
         then FieldsShape.invert_loop 0 (Z.of_nat <$> ord) (replicate (length (Z.of_nat <$> ord)) 0)
         else Ret (Z.of_nat <$> ord)) = Ret mi ∧ length mi = length flds ∧
    (∀ k i, ord !! k = Some i → mi !! i = Some (0 + Z.of_nat k)) ∧
    (ReprOptions.inhibit_struct_field_reordering_opt repr = true →
     mi = seqZ 0 (Z.of_nat (length flds))).
Proof.
  intros Hord Hid. assert (length ord = length flds) as Hol by (rewrite Hord; apply length_seq).
  destruct (ReprOptions.inhibit_struct_field_reordering_opt repr); cbn [negb].
  - exists (Z.of_nat <$> ord). rewrite length_fmap. split_and!; [done..| |auto].
    specialize (Hid eq_refl). rewrite seqZ_of_nat in Hid. apply list_fmap_eq_inj in Hid as ->;
      [|apply _]. intros k i [-> Hk]%lookup_seq. rewrite list_lookup_fmap, lookup_seq_lt by lia. done.
  - destruct (invert_loop_spec ord 0 (replicate (length (Z.of_nat <$> ord)) 0)) as (mi&E&Hlen&Hin&_);
      [by eapply perm_seq_nodup| |].
    + intros i Hi. rewrite length_replicate, length_fmap, Hol. by apply (perm_seq_elem ord).
    + exists mi. rewrite length_replicate, length_fmap in Hlen. split_and!; [done|lia|done|done].
Qed.

Lemma univariant_biased_ok flds repr kind bias bound :
  obj_size_bound dl = Ret bound ∧ bound ≤ 2 ^ 47 → Forall (layout_ok dl) flds → repr_ok repr →
  kind_ok kind →
  ∃ r, univariant_biased dl flds repr kind bias = Ret r ∧
  match r with
  | None =>
      bound ≤ struct_start flds repr kind
              + total_room flds (repr_pack repr) (seq 0 (length flds))
  | Some l =>
      struct_result flds repr kind l ∧
      (bias = BiasEnd → largest_niche l = None →
       ∀ i f, flds !! i = Some f → largest_niche f = None)
  end.
Proof.
  intros Hb Hf Hrepr Hkind. pose proof Hrepr as [Hra Hrp]. unfold univariant_biased.
  destruct (field_order_perm flds repr kind bias Hf) as (order&->&Hperm&Hid). cbn [obind].
  destruct (order_nat order _ Hperm) as (ord&->&Hord).
  assert (NoDup ord) as Hnd by (by eapply perm_seq_nodup).
  pose proof (start_placed flds (repr_pack repr) bias repr kind Hrepr Hkind eq_refl) as Hst.
  destruct (place_fields_ok flds (repr_pack repr) bias Hf Hrp bound Hb _ [] ord _ Hst)
    as (r&->&Hr); [done|intros i; by apply perm_seq_elem|].
  unfold obind_opt at 1. cbn [obind]. destruct r as [st|].
  2: { eexists. split; [done|]. cbn. by rewrite <- (total_room_perm _ _ _ _ Hord). }
  cbn [app] in Hr. destruct Hr as [Hpl Hst_al].
  set (al := match repr_align repr with Some _ => _ | None => _ end).
  assert (align_ok (abi al) ∧ abi (pl_align st) ≤ abi al) as [Hal Hle].
  { pose proof (pd_align _ _ _ _ _ _ Hpl) as Hpa. unfold al.
    destruct (repr_align repr) as [a|] eqn:E; [|split; [done|lia]].
    specialize (Hra a eq_refl). unfold align_ok in *. cbn. lia. }
  destruct (memory_index_ok flds repr ord Hord Hid) as (mi&->&Hmi&Hinv&Hmid). cbn [obind].
  destruct (struct_abi_ok flds (negb (ReprOptions.inhibit_struct_field_reordering_opt repr))
              (pl_sized st) (pl_offsets st) al (Size.align_to (pl_offset st) (abi al)) Hf
              (pd_length _ _ _ _ _ _ Hpl)) as (a&single&->&Ha). cbn [obind].
  eexists. split; [done|]. set (l := mkLayout _ _ _ _ _ _ _ _).
  destruct (finish_size _ _ _ _ _ _ l Hpl Hal eq_refl) as [_ Hsz].
  pose proof Hpl as [_ Hpb _ _ _ [_ Hnn]].
  split; [split; [|split; [|split]]|].
  - split; [lia|done|by eapply finish_niche_in|]. cbn.
    destruct (existsb _ flds); [done|by eapply abi_source_ok].
  - exists (pl_offsets st), mi. split; [by eapply finish_placed|]. split; [by eapply finish_niche|done].
  - intros Hag Hcons. destruct (existsb _ flds) eqn:Eu.
    + done.
    + eapply (abi_source_consistent flds (pl_sized st) al _ a l Hag Hcons Ha); done.
  - cbn. destruct (existsb _ flds) eqn:Eu; [done|by eapply abi_source_inhabited].
  - intros -> Hnone i f Hi. cbn in Hnone. rewrite Hnone in Hnn. apply (proj2 Hnn eq_refl i f); [|done].
    apply (perm_seq_elem _ _ _ Hord). by eapply lookup_lt_Some.
Qed.
(** The fields fit below the object size bound, every padding counted in full. *)
Definition struct_fits (flds : list LayoutS) (repr : ReprOptions) (kind : StructKind) : Prop :=
  ∃ bound, obj_size_bound dl = Ret bound ∧
    struct_start flds repr kind + total_room flds (repr_pack repr) (seq 0 (length flds)) < bound.

Lemma univariant_biased_fits flds repr kind bias :
  Forall (layout_ok dl) flds → repr_ok repr → kind_ok kind → struct_fits flds repr kind →
  ∃ l, univariant_biased dl flds repr kind bias = Ret (Some l) ∧ struct_result flds repr kind l ∧
    (bias = BiasEnd → largest_niche l = None →
     ∀ i f, flds !! i = Some f → largest_niche f = None).
Proof.
  intros Hf Hr Hk (bound&Hb&Hfit). destruct (bound_ok dl Hdl) as (b&Hb'&Hle).
  rewrite Hb in Hb'. injection Hb' as <-.
  destruct (univariant_biased_ok flds repr kind bias bound) as ([l|]&E&Hres); [|done..| |];
    [split; [done|lia]|by exists l|lia].
Qed.

Lemma univariant_fits flds repr kind :
  Forall (layout_ok dl) flds → repr_ok repr → kind_ok kind → struct_fits flds repr kind →
  ∃ l, univariant dl flds repr kind = Ret (Some l) ∧ struct_result flds repr kind l.
Proof.
  intros Hf Hr Hk Hfit. unfold univariant.
  destruct (univariant_biased_fits flds repr kind BiasStart) as (l&->&Hl&_); [done..|].
  unfold obind_opt. cbn [obind].
  destruct (largest_niche l) as [n|] eqn:En; [|by exists l].
  destruct (is_maybe_unsized kind); [by exists l|]. destruct (_ && _ && _); [|by exists l].
  destruct (univariant_biased_fits flds repr kind BiasEnd) as (l2&->&Hl2&Hno); [done..|].
  cbn [obind unwrap]. destruct (largest_niche l2) as [n2|] eqn:En2; cbn [obind unwrap].
  - destruct (_ && _); by eexists.
  - destruct Hl as (_&(offs&mi&_&(av&_&Hn)&_)&_). rewrite En in Hn.
    destruct Hn as (i&f&o&n0&Hi&_&Hn0&_). by rewrite (Hno eq_refl eq_refl i f Hi) in Hn0.
Qed.

(** C2. Struct layout, every order of fields and every [repr] included: when
    the fields fit below the target's object size bound, [univariant] returns
    a layout, without panicking in its second pass either.  Fields lie behind
    the prefix and inside the struct, at offsets aligned to their own (packed)
    alignment, in an order of memory that is a permutation of the fields, so
    that no two overlap; the source order is kept when [repr] forbids
    reordering; the size is a multiple of the alignment, which is at least
    every field's; the struct's niche is the largest of its fields' niches, at
    its place in the struct; the layout is well formed, and if the fields'
    sizes and alignments are those their ABIs prescribe, so are the struct's;
    and the struct is uninhabited exactly if one of its fields is. *)
Theorem univariant_correct flds repr kind :
  Forall (layout_ok dl) flds → repr_ok repr → kind_ok kind → struct_fits flds repr kind →
  ∃ l, univariant dl flds repr kind = Ret (Some l) ∧ struct_result flds repr kind l.
Proof. apply univariant_fits. Qed.

(** ** Unions *)

(** ABIs that [to_union] accepts *)
Definition unionable (a : Abi) : bool :=
  match a with AbiField _ | AbiCurve _ => false | _ => true end.

(** A union without [repr(C)] whose first member that is not zero-sized
    is a field or a curve has no layout: the compiler panics. *)
Theorem union_of_field_panics repr pre f post vars :
  is_c repr = false → Forall (λ z, LayoutS.is_zst z = true) pre →
  unionable (layout_abi f) = false →
  layout_of_union dl repr ((pre ++ f :: post) :: vars) = Panic.
Proof.
  intros Hc Hpre Hf. unfold layout_of_union, ReprOptions.inhibit_union_abi_opt. rewrite Hc.
  change ((_ :: vars) !! Z.to_nat FIRST_VARIANT) with (Some (pre ++ f :: post)). cbn [unwrap obind].
  assert (∀ st, un_common st = NoAbi → union_fields st (pre ++ f :: post) = Panic) as ->; [|done..].
  induction Hpre as [|z pre Hz Hpre IH]; intros st Hst; cbn [app union_fields]; unfold union_field.
  - assert (LayoutS.is_zst f = false) as -> by (unfold LayoutS.is_zst; by destruct (layout_abi f)).
    rewrite Hst. by destruct (layout_abi f).
  - rewrite Hz. cbn [obind]. by apply IH.
Qed.
End props.

(** ** The properties at concrete inputs *)

Definition no_shuffle : Shuffle := {| feature_randomize := false; shuffle _ l := l |}.
Lemma no_shuffle_perm : @ShufflePerm no_shuffle.
Proof. by split. Defined.

Lemma default_dl_ok : target_ok default_dl.
Proof.
  split; [by exists (2 ^ 47)|by split|by split|].
  intros [[] ?| | |?]; by split.
Defined.

Definition scalar_layout (s : Scalar) : LayoutS :=
  match LayoutS.scalar default_dl s with Ret l => l | Panic => layout_of_never_type default_dl end.
Definition bool_layout : LayoutS := scalar_layout (Initialized (Int I8 false) (mkRange 0 1)).
Definition u32_layout : LayoutS := scalar_layout (Initialized (Int I32 false) (mkRange 0 0xffffffff)).
Definition pallas_layout : LayoutS :=
  match LayoutS.field PallasBase with Ret l => l | Panic => layout_of_never_type default_dl end.
Definition repr_rust : ReprOptions := mkRepr None None None false false false false false 0.

Lemma univariant_correct_witness :
  ∃ l, @univariant no_shuffle default_dl [bool_layout; u32_layout; pallas_layout] repr_rust AlwaysSized
       = Ret (Some l) ∧
    @struct_result default_dl [bool_layout; u32_layout; pallas_layout] repr_rust AlwaysSized l.
Proof.
  apply (@univariant_correct no_shuffle no_shuffle_perm default_dl default_dl_ok);
    [|by split|done|by exists (2 ^ 47)].
  repeat first [apply List.Forall_nil | apply List.Forall_cons].
  - split; [done|by split| |by split]. intros n [= <-]. by repeat split.
  - by split.
  - by split.
Defined.

Lemma union_of_field_panics_witness :
  layout_of_union default_dl repr_rust [[pallas_layout; u32_layout]] = Panic.
Proof.
  apply (union_of_field_panics default_dl repr_rust [] pallas_layout [u32_layout] []);
    [done|apply List.Forall_nil|done].
Defined.
