(* ===== verification/Enum.v ===== *)
(** Layouts of enums: [layout_of_struct_or_enum] of [rustc_abi/src/layout.rs]
    as a whole, with the niche-filling and the tagged layout and the choice
    between them, and [Integer::repr_discr] of [rustc_middle/src/ty/layout.rs],
    which its caller passes for the discriminants.

    Variant indices are integers; [TmpLayout] is the pair of the overall layout
    and the layouts of the variants. *)

From S2P Require Import Prelude Abi Layout.

(** ** Discriminant integers *)

(** The derived order of [Integer] *)
Definition integer_rank (i : Integer) : Z :=
  match i with I8 => 0 | I16 => 1 | I32 => 2 | I64 => 3 | I128 => 4 end.
Definition integer_ltb (a b : Integer) : bool := integer_rank a <? integer_rank b.
Definition integer_max (a b : Integer) : Integer := if integer_ltb b a then a else b.

Module IntegerType.
Definition is_signed (self : IntegerType) : bool :=
  match self with PointerType b => b | Fixed _ b => b end.
End IntegerType.

(** [Integer::from_attr] *)
Definition from_attr (dl : TargetDataLayout) (ity : IntegerType) : outcome Integer :=
  match ity with PointerType _ => ptr_sized_integer dl | Fixed x _ => Ret x end.

Definition repr_discr (dl : TargetDataLayout) (repr : ReprOptions) (min max : Z)
    : outcome (Integer * bool) :=
  let unsigned_fit := Integer.fit_unsigned (Z.max (of_signed 128 min) (of_signed 128 max)) in
  let signed_fit := integer_max (Integer.fit_signed min) (Integer.fit_signed max) in
  match repr_int repr with
  | Some ity =>
      let! discr := from_attr dl ity in
      let fit := if IntegerType.is_signed ity then signed_fit else unsigned_fit in
      rassert (negb (integer_ltb discr fit)) (Ret (discr, IntegerType.is_signed ity))
  | None =>
      let at_least := if is_c repr then c_enum_min_size dl else I8 in
      Ret (if 0 <=? min then (integer_max unsigned_fit at_least, false)
           else (integer_max signed_fit at_least, true))
  end.

(** [max_by_key]: the last of the greatest elements *)
Definition max_by_key {A} (key : A → Z) (l : list A) : option A :=
  foldl (λ acc x, match acc with
                  | None => Some x
                  | Some y => if key y <=? key x then Some x else Some y
                  end) None l.

(** [iter_enumerated] *)
Definition enumerate {A} (l : list A) : list (Z * A) := zip (seqZ 0 (Z.of_nat (length l))) l.

(** ** Changes to a layout *)

(** [layout.variants = Variants::Single { index }] *)
Definition with_index (i : Z) (l : LayoutS) : LayoutS :=
  {| fields := fields l; variants := Single i; layout_abi := layout_abi l;
     largest_niche := largest_niche l; align := align l; size := size l;
     max_repr_align := max_repr_align l; unadjusted_abi_align := unadjusted_abi_align l |}.
Definition without_niche (l : LayoutS) : LayoutS :=
  {| fields := fields l; variants := variants l; layout_abi := layout_abi l;
     largest_niche := None; align := align l; size := size l;
     max_repr_align := max_repr_align l; unadjusted_abi_align := unadjusted_abi_align l |}.
Definition with_fields (s : FieldsShape) (a : Abi) (sz : Size) (l : LayoutS) : LayoutS :=
  {| fields := s; variants := variants l; layout_abi := a;
     largest_niche := largest_niche l; align := align l; size := sz;
     max_repr_align := max_repr_align l; unadjusted_abi_align := unadjusted_abi_align l |}.
Record TmpLayout := mkTmp { tmp_layout : LayoutS; tmp_variants : list LayoutS }.

(** What the alignments of the variants are merged into *)
Record merged := mkMerged {
  mg_align : AbiAndPrefAlign;
  mg_max_repr_align : option Align;
  mg_unadjusted : Align;
}.
Definition merge (m : merged) (st : LayoutS) : merged :=
  mkMerged (AbiAndPrefAlign.max (mg_align m) (align st))
    (opt_max (mg_max_repr_align m) (max_repr_align st))
    (Z.max (mg_unadjusted m) (unadjusted_abi_align st)).

Section enums.
Context `{Shuffle} (dl : TargetDataLayout).

(** The closure [scalar_unit] *)
Definition scalar_unit (value : Primitive) : outcome Scalar :=
  let size := Primitive.size value dl in
  let! bits := Size.bits size in
  rassert (bits <=? 128) (let! full := WrappingRange.full size in Ret (Initialized value full)).

(** The closure [absent] *)
Definition absent (flds : list LayoutS) : bool :=
  existsb (λ f, Abi.is_uninhabited (layout_abi f)) flds && forallb LayoutS.is_zst flds.

Definition all_uninhabited (ls : list LayoutS) : bool :=
  forallb (λ v, Abi.is_uninhabited (layout_abi v)) ls.

(** ** The niche-filling layout *)

(** The [map] that lays out the variants, from index [j] on *)
Fixpoint niche_variant_layouts (repr : ReprOptions) (j : Z) (vars : list (list LayoutS))
    (m : merged) : outcome (option (list LayoutS * merged)) :=
  match vars with
  | [] => Ret (Some ([], m))
  | v :: vars =>
      let? st := univariant dl v repr AlwaysSized in
      let st := with_index j st in
      let? (ls, m) := niche_variant_layouts repr (j + 1) vars (merge m st) in
      Ret (Some (st :: ls, m))
  end.

(** The field of the largest variant with the largest niche, and the reserved
    values: [filter_map], [max_by_key] and [and_then] *)
Definition find_niche (flds : list LayoutS) (count : Z)
    : outcome (option (Z * Niche * (Z * Scalar))) :=
  let niches := omap (λ p, (fst p,.) <$> largest_niche (snd p)) (enumerate flds) in
  let! keyed := mapM_outcome (λ p, let! a := Niche.available (snd p) dl in Ret (a, p)) niches in
  match max_by_key fst keyed with
  | None => Ret None
  | Some (_, (j, niche)) =>
      let? reserved := Niche.reserve niche dl count in Ret (Some (j, niche, reserved))
  end.

(** [for (j, offset) in offsets.iter_enumerated_mut()] *)
Definition shift_offsets (flds : list LayoutS) (this_offset : Size) (offsets : list Size)
    : outcome (list Size) :=
  mapM_outcome (λ p,
      let! field := unwrap (flds !! Z.to_nat (fst p)) in
      if negb (LayoutS.is_zst field) then Size.add (snd p) this_offset else Ret (snd p))
    (enumerate offsets).

(** The closure of [all_variants_fit]: the adjusted layout, or [None] if the
    variant does not fit *)
Definition fit_variant (largest : Z) (niche_offset niche_size size_ : Size) (i : Z)
    (flds : list LayoutS) (layout : LayoutS) : outcome (option LayoutS) :=
  if i =? largest then Ret (Some layout)
  else
    let layout := without_niche layout in
    if size layout <=? niche_offset then Ret (Some layout)
    else
      let! niche_end := Size.add niche_offset niche_size in
      let this_offset := Size.align_to niche_end (abi (align layout)) in
      let! this_end := Size.add this_offset (size layout) in
      if size_ <? this_end then Ret None
      else
        match fields layout with
        | ArbitraryShape offsets memory_index =>
            let! offsets := shift_offsets flds this_offset offsets in
            let a := if negb (Abi.is_uninhabited (layout_abi layout)) then Aggregate true
                     else layout_abi layout in
            let! sz := Size.add (size layout) this_offset in
            Ret (Some (with_fields (ArbitraryShape offsets memory_index) a sz layout))
        | _ => Panic
        end.

Fixpoint fit_variants (largest : Z) (niche_offset niche_size size_ : Size) (i : Z)
    (vars : list (list LayoutS)) (ls : list LayoutS) : outcome (option (list LayoutS)) :=
  match vars, ls with
  | flds :: vars, l :: ls =>
      let? l := fit_variant largest niche_offset niche_size size_ i flds l in
      let? ls := fit_variants largest niche_offset niche_size size_ (i + 1) vars ls in
      Ret (Some (l :: ls))
  | _, _ => Ret (Some [])
  end.

(** The ABI of the niche-filling layout *)
Definition niche_abi (ls : list LayoutS) (largest : Z) (large : LayoutS) (niche_offset size_ : Size)
    (align_ : AbiAndPrefAlign) (niche_scalar : Scalar) : Abi :=
  let others_zst :=
    forallb (λ p, (fst p =? largest) || (size (snd p) =? Size.ZERO)) (enumerate ls) in
  let same_size := size_ =? size large in
  let same_align := bool_decide (align_ = align large) in
  if all_uninhabited ls then Uninhabited
  else if same_size && same_align && others_zst then
    match layout_abi large with
    | AbiScalar _ => AbiScalar niche_scalar
    | ScalarPair first second =>
        if niche_offset =? Size.ZERO then ScalarPair niche_scalar (Scalar.to_union second)
        else ScalarPair (Scalar.to_union first) niche_scalar
    | _ => Aggregate true
    end
  else Aggregate true.

(** [calculate_niche_filling_layout] *)
Definition niche_filling_layout (repr : ReprOptions) (vars : list (list LayoutS))
    (dont_niche_optimize_enum : bool) : outcome (option TmpLayout) :=
  if dont_niche_optimize_enum then Ret None
  else if (length vars <? 2)%nat then Ret None
  else
    let m := mkMerged (aggregate_align dl) (repr_align repr) (abi (aggregate_align dl)) in
    let? (ls, m) := niche_variant_layouts repr 0 vars m in
    match max_by_key (λ p, Size.bytes (size (snd p))) (enumerate ls) with
    | None => Ret None
    | Some (largest, large) =>
        let needs_disc := λ p : Z * list LayoutS, negb (fst p =? largest) && negb (absent (snd p)) in
        let! first := unwrap (List.find needs_disc (enumerate vars)) in
        let! last := unwrap (List.find needs_disc (rev (enumerate vars))) in
        let count := fst last - fst first + 1 in
        let! flds := unwrap (vars !! Z.to_nat largest) in
        let? found := find_niche flds count in
        let '(field_index, niche, (niche_start, niche_scalar)) := found in
        let! field_offset := FieldsShape.offset (fields large) field_index in
        let! niche_offset := Size.add (offset niche) field_offset in
        let niche_size := Primitive.size (value niche) dl in
        let size_ := Size.align_to (size large) (abi (mg_align m)) in
        let? ls := fit_variants largest niche_offset niche_size size_ 0 vars ls in
        let! largest_niche := Niche.from_scalar dl niche_offset niche_scalar in
        let a := niche_abi ls largest large niche_offset size_ (mg_align m) niche_scalar in
        Ret (Some (mkTmp
          {| variants := Multiple niche_scalar
                           (NicheEncoding largest (fst first) (fst last) niche_start) 0 [];
             fields := ArbitraryShape [niche_offset] [0];
             layout_abi := a;
             largest_niche := largest_niche;
             size := size_;
             align := mg_align m;
             max_repr_align := mg_max_repr_align m;
             unadjusted_abi_align := mg_unadjusted m |} ls))
    end.

(** ** The tagged layout *)

(** [(val << (128 - bits)) >> (128 - bits)] on an [i128] *)
Definition sign_extend_discr (bits val : Z) : Z :=
  let sh := wsub 64 128 bits mod 128 in
  Z.shiftr (to_signed 128 (wshl 128 (of_signed 128 val) sh)) sh.

(** The loop over the discriminants of the inhabited variants *)
Fixpoint discr_range (vars : list (list LayoutS)) (signed : bool) (bits : Z)
    (discriminants : list (Z * Z)) (range : Z * Z) : outcome (Z * Z) :=
  match discriminants with
  | [] => Ret range
  | (i, val) :: discriminants =>
      let! flds := unwrap (vars !! Z.to_nat i) in
      if existsb (λ f, Abi.is_uninhabited (layout_abi f)) flds
      then discr_range vars signed bits discriminants range
      else
        let val := if signed then sign_extend_discr bits val else val in
        let '(min, max) := range in
        discr_range vars signed bits discriminants
          (if val <? min then val else min, if max <? val then val else max)
  end.

Record tagging := mkTagging {
  tg_start_align : Align;
  tg_size : Size;
  tg_merged : merged;
}.

(** [for field_idx in st.fields.index_by_increasing_offset()], with its [break] *)
Fixpoint first_unmovable (flds : list LayoutS) (order : list Z) (start_align : Align)
    : outcome Align :=
  match order with
  | [] => Ret start_align
  | field_idx :: order =>
      let! field := unwrap (flds !! Z.to_nat field_idx) in
      if negb (LayoutS.is_zst field) || negb (Align.bytes (abi (align field)) =? 1)
      then Ret (Z.min start_align (abi (align field)))
      else first_unmovable flds order start_align
  end.

(** The [map] that lays out the variants behind the tag, from index [i] on *)
Fixpoint tagged_variant_layouts (repr : ReprOptions) (prefix_size : Size) (prefix_align : Align)
    (i : Z) (vars : list (list LayoutS)) (t : tagging) : outcome (option (list LayoutS * tagging)) :=
  match vars with
  | [] => Ret (Some ([], t))
  | flds :: vars =>
      let? st := univariant dl flds repr (Prefixed prefix_size prefix_align) in
      let st := with_index i st in
      let! order := FieldsShape.index_by_increasing_offset (fields st) in
      let! start_align := first_unmovable flds order (tg_start_align t) in
      let t := mkTagging start_align (Z.max (tg_size t) (size st)) (merge (tg_merged t) st) in
      let? (ls, t) := tagged_variant_layouts repr prefix_size prefix_align (i + 1) vars t in
      Ret (Some (st :: ls, t))
  end.

(** The body of [for variant in &mut layout_variants] that makes room for a
    larger tag *)
Definition patch_variant (old_ity_size new_ity_size : Size) (variant : LayoutS) : outcome LayoutS :=
  match fields variant with
  | ArbitraryShape offsets memory_index =>
      let! offsets :=
        mapM_outcome (λ i : Size,
            if i <=? old_ity_size then rassert (i =? old_ity_size) (Ret new_ity_size) else Ret i)
          offsets in
      let sz := if size variant <=? old_ity_size then new_ity_size else size variant in
      Ret (with_fields (ArbitraryShape offsets memory_index) (layout_abi variant) sz variant)
  | _ => Panic
  end.

(** The loop that looks for a primitive common to all variants: the primitive
    with its offset, and whether it is initialized in all of them *)
Fixpoint common_primitive (pairs : list (list LayoutS * LayoutS)) (common : option (Primitive * Size))
    (initialized : bool) : outcome (option (Primitive * Size) * bool) :=
  match pairs with
  | [] => Ret (common, initialized)
  | (flds, layout_variant) :: pairs =>
      match fields layout_variant with
      | ArbitraryShape offsets _ =>
          match List.filter (λ p : LayoutS * Size, negb (LayoutS.is_zst (fst p))) (zip flds offsets) with
          | [] => common_primitive pairs common false
          | [(field, off)] =>
              match layout_abi field with
              | AbiScalar scalar =>
                  let initialized :=
                    initialized && match scalar with Initialized _ _ => true | UnionScalar _ => false end in
                  let prim := Scalar.primitive scalar in
                  match common with
                  | Some cp =>
                      if negb (bool_decide (cp = (prim, off))) then Ret (None, initialized)
                      else common_primitive pairs common initialized
                  | None => common_primitive pairs (Some (prim, off)) initialized
                  end
              | _ => Ret (None, initialized)
              end
          | _ => Ret (None, initialized)
          end
      | _ => Panic
      end
  end.

(** The ABI of the tagged layout *)
Definition tagged_abi (vars : list (list LayoutS)) (ls : list LayoutS) (tag : Scalar) (size_ : Size)
    (align_ : AbiAndPrefAlign) : outcome Abi :=
  if all_uninhabited ls then Ret Uninhabited
  else if Scalar.size tag dl =? size_ then Ret (AbiScalar tag)
  else
    let! (common, initialized) := common_primitive (zip vars ls) None true in
    match common with
    | None => Ret (Aggregate true)
    | Some (prim, off) =>
        let! prim_scalar := if initialized then scalar_unit prim else Ret (UnionScalar prim) in
        let! pl := scalar_pair dl tag prim_scalar in
        match fields pl with
        | ArbitraryShape [pair0; pair1] [0; 1] =>
            Ret (if (pair0 =? Size.ZERO) && (pair1 =? off) && bool_decide (align_ = align pl)
                    && (size_ =? size pl)
                 then layout_abi pl else Aggregate true)
        | _ => Panic
        end
    end.

(** Variants with fields take over a by-value ABI *)
Definition adjust_variant (a : Abi) (size_ : Size) (align_ : AbiAndPrefAlign) (variant : LayoutS)
    : LayoutS :=
  match layout_abi variant with
  | Aggregate _ =>
      if 0 <? FieldsShape.count (fields variant) then
        {| fields := fields variant; variants := variants variant; layout_abi := a;
           largest_niche := largest_niche variant;
           align := mkAlign (Z.max (abi (align variant)) (abi align_)) (pref (align variant));
           size := Z.max (size variant) size_;
           max_repr_align := max_repr_align variant;
           unadjusted_abi_align := unadjusted_abi_align variant |}
      else variant
  | _ => variant
  end.

(** The part of the tagged layout behind the choice of the integer [ity] *)
Definition tagged_finish (vars : list (list LayoutS)) (ls : list LayoutS) (t : tagging)
    (size_ : Size) (ity : Integer) (signed : bool) (min max : Z) : outcome TmpLayout :=
  let! tag_mask := Size.unsigned_int_max (Integer.size ity) in
  let tag := Initialized (Int ity signed)
               (mkRange (Z.land (of_signed 128 min) tag_mask) (Z.land (of_signed 128 max) tag_mask)) in
  let m := tg_merged t in
  let! a := tagged_abi vars ls tag size_ (mg_align m) in
  let ls :=
    match a with
    | AbiScalar _ | ScalarPair _ _ => adjust_variant a size_ (mg_align m) <$> ls
    | _ => ls
    end in
  let! largest_niche := Niche.from_scalar dl Size.ZERO tag in
  Ret (mkTmp
    {| variants := Multiple tag Direct 0 [];
       fields := ArbitraryShape [Size.ZERO] [0];
       largest_niche := largest_niche;
       layout_abi := a;
       align := mg_align m;
       size := size_;
       max_repr_align := mg_max_repr_align m;
       unadjusted_abi_align := mg_unadjusted m |} ls).

(** The integer of the tag: at least [min_ity], larger if the first fields of
    all variants are aligned for it *)
Definition tag_integer (repr : ReprOptions) (min_ity : Integer) (start_align : Align) : Integer :=
  let ity :=
    if is_c repr || match repr_int repr with Some _ => true | None => false end then min_ity
    else default min_ity (Integer.for_align dl start_align) in
  if integer_ltb min_ity ity then ity else min_ity.

(** The range of the discriminants, [(0, 0)] without inhabited variants *)
Definition enum_range (repr : ReprOptions) (vars : list (list LayoutS))
    (discriminants : list (Z * Z)) : outcome (Z * Z) :=
  let discr_type := ReprOptions.discr_type repr in
  let! discr_ity := from_attr dl discr_type in
  let! bits := Size.bits (Integer.size discr_ity) in
  let empty := (2 ^ 127 - 1, - 2 ^ 127) in
  let! range := discr_range vars (IntegerType.is_signed discr_type) bits discriminants empty in
  Ret (if bool_decide (range = empty) then (0, 0) else range).

Definition tagged_layout (repr : ReprOptions) (vars : list (list LayoutS))
    (discr_range_of_repr : Z → Z → outcome (Integer * bool)) (discriminants : list (Z * Z))
    : outcome (option TmpLayout) :=
  let! (min, max) := enum_range repr vars discriminants in
  rassert (min <=? max) (
  let! (min_ity, signed) := discr_range_of_repr min max in
  let! start_align := match Align.from_bytes 256 with inl a => Ret a | inr _ => Panic end in
  rassert (bool_decide (Integer.for_align dl start_align = None)) (
  let prefix_align :=
    if is_c repr
    then foldl (λ a f, Z.max a (abi (align f))) (abi (Integer.align min_ity dl)) (concat vars)
    else abi (Integer.align min_ity dl) in
  let t := mkTagging start_align Size.ZERO
             (mkMerged (aggregate_align dl) (repr_align repr) (abi (aggregate_align dl))) in
  let? (ls, t) :=
    tagged_variant_layouts repr (Integer.size min_ity) prefix_align 0 vars t in
  let size_ := Size.align_to (tg_size t) (abi (mg_align (tg_merged t))) in
  let! bound := obj_size_bound dl in
  if bound <=? Size.bytes size_ then Ret None
  else
    let! typeck_ity := from_attr dl (ReprOptions.discr_type repr) in
    rassert (negb (integer_ltb typeck_ity min_ity)) (
    let ity := tag_integer repr min_ity (tg_start_align t) in
    let! ls :=
      if integer_ltb min_ity ity
      then mapM_outcome (patch_variant (Integer.size min_ity) (Integer.size ity)) ls
      else Ret ls in
    let! tmp := tagged_finish vars ls t size_ ity signed min max in
    Ret (Some tmp)))).

(** ** The choice *)

(** [(Greater, _) => nl, (Equal, Less) => nl, _ => tl] *)
Definition pick_layout (tl nl : TmpLayout) : outcome TmpLayout :=
  let! tn := niche_size dl (tmp_layout tl) in
  let! nn := niche_size dl (tmp_layout nl) in
  let ts := size (tmp_layout tl) in
  let ns := size (tmp_layout nl) in
  Ret (if ns <? ts then nl else if (ts =? ns) && (tn <? nn) then nl else tl).

(** [best_layout.layout.variants = Multiple { .., variants: best_layout.variants }] *)
Definition intern_variants (best : TmpLayout) : outcome LayoutS :=
  let l := tmp_layout best in
  match variants l with
  | Multiple tag tag_encoding tag_field _ =>
      Ret {| variants := Multiple tag tag_encoding tag_field (tmp_variants best);
             fields := fields l; layout_abi := layout_abi l; largest_niche := largest_niche l;
             align := align l; size := size l; max_repr_align := max_repr_align l;
             unadjusted_abi_align := unadjusted_abi_align l |}
  | Single _ => Panic
  end.

Definition layout_of_enum (repr : ReprOptions) (vars : list (list LayoutS))
    (discr_range_of_repr : Z → Z → outcome (Integer * bool)) (discriminants : list (Z * Z))
    (dont_niche_optimize_enum : bool) : outcome (option LayoutS) :=
  let! nl := niche_filling_layout repr vars dont_niche_optimize_enum in
  let? tl := tagged_layout repr vars discr_range_of_repr discriminants in
  let! best := match nl with Some nl => pick_layout tl nl | None => Ret tl end in
  let! l := intern_variants best in
  Ret (Some l).

Definition layout_of_struct_or_enum (repr : ReprOptions) (vars : list (list LayoutS))
    (is_enum is_unsafe_cell : bool) (scalar_valid_range : Bound * Bound)
    (discr_range_of_repr : Z → Z → outcome (Integer * bool)) (discriminants : list (Z * Z))
    (dont_niche_optimize_enum always_sized : bool) : outcome (option LayoutS) :=
  let present := omap (λ p, if absent (snd p) then None else Some (fst p)) (enumerate vars) in
  match present with
  | [] =>
      if is_enum then Ret (Some (layout_of_never_type dl))
      else layout_of_struct dl repr vars is_enum is_unsafe_cell scalar_valid_range always_sized
             FIRST_VARIANT
  | first :: rest =>
      let is_struct :=
        negb is_enum
        || (bool_decide (rest = []) && negb (ReprOptions.inhibit_enum_layout_opt repr)) in
      if is_struct
      then layout_of_struct dl repr vars is_enum is_unsafe_cell scalar_valid_range always_sized first
      else layout_of_enum repr vars discr_range_of_repr discriminants dont_niche_optimize_enum
  end.
End enums.
