(* ===== verification/EnumProps.v ===== *)
(** What enum layouts promise: the fields of every variant lie inside the enum,
    aligned and apart from each other and from the tag, and the tag has room
    for every variant. *)

From S2P Require Import Prelude Abi AbiProps Layout LayoutProps Enum.

(** ** Lists *)

Lemma enumerate_lookup {A} (l : list A) k p :
  enumerate l !! k = Some p ↔ ∃ x, l !! k = Some x ∧ p = (Z.of_nat k, x).
Proof.
  unfold enumerate. destruct p as [i y]. rewrite lookup_zip_Some. cbn [fst snd]. split.
  - intros [[-> _]%lookup_seqZ Hy]. exists y. by rewrite Z.add_0_l.
  - intros (x&Hx&[= -> ->]). split; [|done]. apply lookup_seqZ. apply lookup_lt_Some in Hx. lia.
Qed.

Lemma enumerate_elem {A} (l : list A) k x : l !! k = Some x → (Z.of_nat k, x) ∈ enumerate l.
Proof. intros Hk. apply (list_elem_of_lookup_2 _ k), enumerate_lookup. by exists x. Qed.

Lemma enumerate_nil {A} (l : list A) : enumerate l = [] → l = [].
Proof.
  destruct l as [|x l]; [done|]. intros E. pose proof (enumerate_elem (x :: l) 0 x eq_refl) as Hx.
  rewrite E in Hx. by apply elem_of_nil in Hx.
Qed.

Lemma max_by_key_some {A} (key : A → Z) l x :
  max_by_key key l = Some x → x ∈ l ∧ ∀ y, y ∈ l → key y ≤ key x.
Proof.
  unfold max_by_key. set (step := λ _ _, _).
  assert (∀ l acc, foldl step acc l = Some x →
    (x ∈ l ∨ acc = Some x) ∧ (∀ y, y ∈ l ∨ acc = Some y → key y ≤ key x)) as Hgen.
  { clear l. induction l as [|z l IH]; intros acc; cbn [foldl].
    - intros ->. split; [by right|]. intros y [[]%not_elem_of_nil|[= ->]]. lia.
    - intros [Hx Hm]%IH. unfold step in Hx, Hm.
      assert (∃ w, match acc with None => Some z | Some y => if key y <=? key z then Some z else Some y end
                   = Some w ∧ (w = z ∨ acc = Some w) ∧ key z ≤ key w ∧
                   ∀ y, acc = Some y → key y ≤ key w) as (w&Ew&Hw&Hz&Hacc).
      { destruct acc as [y|]; [destruct (Z.leb_spec (key y) (key z))|]; eexists; (split; [done|]).
        - split_and!; [auto|lia|]. intros ? [= <-]. lia.
        - split_and!; [auto|lia|]. intros ? [= <-]. lia.
        - split_and!; [auto|lia|done]. }
      rewrite Ew in *. assert (key w ≤ key x) by (apply Hm; by right). split.
      + destruct Hx as [Hx|[= <-]]; [left; by right|]. destruct Hw as [->|Hw]; [left; left|by right].
      + intros y [[->|Hy]%elem_of_cons|Hy]; [lia|apply Hm; by left|]. specialize (Hacc y Hy). lia. }
  intros [Hx Hm]%Hgen. split; [by destruct Hx|]. intros y Hy. apply Hm. by left.
Qed.

Lemma max_by_key_none {A} (key : A → Z) l : max_by_key key l = None → l = [].
Proof.
  unfold max_by_key. set (step := λ _ _, _).
  assert (∀ l y, foldl step (Some y) l ≠ None) as Hsome.
  { clear l. induction l as [|z l IH]; intros y; cbn [foldl]; [done|]. unfold step at 2.
    destruct (_ <=? _); apply IH. }
  destruct l as [|z l]; [done|]. cbn [foldl]. intros E. by apply Hsome in E.
Qed.

Lemma find_lookup {A} (p : A → bool) l x :
  List.find p l = Some x →
  ∃ k, l !! k = Some x ∧ p x = true ∧ ∀ j y, l !! j = Some y → p y = true → (k ≤ j)%nat.
Proof.
  induction l as [|z l IH]; cbn; [done|]. destruct (p z) eqn:Hz.
  - intros [= <-]. exists 0%nat. split_and!; [done..|]. lia.
  - intros (k&Hk&Hp&Hmin)%IH. exists (S k). split_and!; [done..|]. intros [|j] y; cbn.
    + intros [= <-]. congruence.
    + intros Hj Hy. specialize (Hmin j y Hj Hy). lia.
Qed.

Lemma find_exists {A} (p : A → bool) l x : x ∈ l → p x = true → ∃ y, List.find p l = Some y.
Proof.
  intros Hx Hp. destruct (List.find p l) as [y|] eqn:E; [by eexists|].
  eapply find_none in E; [|by apply list_elem_of_In]. congruence.
Qed.

(** The first and the last index that [p] holds of. *)
Lemma find_first {A} (p : Z * A → bool) l q :
  List.find p (enumerate l) = Some q →
  p q = true ∧ 0 ≤ fst q ∧ l !! Z.to_nat (fst q) = Some (snd q) ∧
  ∀ j x, l !! j = Some x → p (Z.of_nat j, x) = true → fst q ≤ Z.of_nat j.
Proof.
  intros (k&Hk&Hp&Hmin)%find_lookup. apply enumerate_lookup in Hk as (x&Hx&->). cbn.
  split_and!; [done|lia|by rewrite Nat2Z.id|]. intros j y Hj Hy.
  assert (k ≤ j)%nat; [|lia]. eapply Hmin; [|done]. apply enumerate_lookup. by exists y.
Qed.

Lemma find_last {A} (p : Z * A → bool) l q :
  List.find p (rev (enumerate l)) = Some q →
  p q = true ∧ l !! Z.to_nat (fst q) = Some (snd q) ∧
  ∀ j x, l !! j = Some x → p (Z.of_nat j, x) = true → Z.of_nat j ≤ fst q.
Proof.
  intros (k&Hk&Hp&Hmin)%find_lookup. rewrite rev_alt in Hk, Hmin. change (rev_append ?x []) with (reverse x) in *.
  set (L := enumerate l) in *. assert (k < length L)%nat as Hlt.
  { apply lookup_lt_Some in Hk. by rewrite length_reverse in Hk. }
  rewrite reverse_lookup in Hk by done. apply enumerate_lookup in Hk as (x&Hx&->). cbn.
  split_and!; [done|by rewrite Nat2Z.id|]. intros j y Hj Hy.
  assert (L !! j = Some (Z.of_nat j, y)) as HL by (apply enumerate_lookup; by exists y).
  pose proof (lookup_lt_Some _ _ _ HL) as Hjl.
  assert (k ≤ length L - S j)%nat; [|lia]. eapply Hmin; [|done].
  rewrite reverse_lookup by lia. by replace (length L - S (length L - S j))%nat with j by lia.
Qed.

(** [P] of every variant with its index and its layout. *)
Fixpoint each (P : Z → list LayoutS → LayoutS → Prop) (j : Z) (vars : list (list LayoutS))
    (ls : list LayoutS) : Prop :=
  match vars, ls with
  | [], [] => True
  | v :: vars, l :: ls => P j v l ∧ each P (j + 1) vars ls
  | _, _ => False
  end.

Lemma each_lookup P j vars ls k v :
  each P j vars ls → vars !! k = Some v → ∃ l, ls !! k = Some l ∧ P (j + Z.of_nat k) v l.
Proof.
  revert j ls k. induction vars as [|w vars IH]; intros j ls k He Hk; [done|].
  destruct ls as [|l ls]; [done|]. destruct He as [Hl He]. destruct k as [|k]; cbn in Hk.
  - injection Hk as ->. exists l. rewrite Z.add_0_r. done.
  - destruct (IH (j + 1) ls k He Hk) as (l'&Hl'&HP). exists l'. split; [done|].
    replace (j + Z.of_nat (S k)) with (j + 1 + Z.of_nat k) by lia. done.
Qed.

Lemma each_length P j vars ls : each P j vars ls → length ls = length vars.
Proof.
  revert j ls. induction vars as [|w vars IH]; intros j [|l ls] He; cbn; try done.
  destruct He as [_ He]. f_equal. by eapply IH.
Qed.

Lemma each_impl (P Q : Z → list LayoutS → LayoutS → Prop) j vars ls :
  (∀ i v l, P i v l → Q i v l) → each P j vars ls → each Q j vars ls.
Proof.
  intros HPQ. revert j ls. induction vars as [|w vars IH]; intros j [|l ls] He; cbn; try done.
  destruct He as [Hl He]. split; [by apply HPQ|by apply IH].
Qed.

Lemma each_mapM (P Q : Z → list LayoutS → LayoutS → Prop) (f : LayoutS → outcome LayoutS) j vars ls :
  (∀ i v l, P i v l → ∃ l', f l = Ret l' ∧ Q i v l') → each P j vars ls →
  ∃ ls', mapM_outcome f ls = Ret ls' ∧ each Q j vars ls'.
Proof.
  intros HPQ. revert j ls. induction vars as [|w vars IH]; intros j [|l ls] He; try done.
  { by exists []. }
  destruct He as [Hl He]. destruct (HPQ _ _ _ Hl) as (l'&Hf&HQ). destruct (IH _ _ He) as (ls'&Els&Hls).
  exists (l' :: ls'). cbn [mapM_outcome]. rewrite Hf. cbn [obind]. rewrite Els. done.
Qed.

Lemma each_fmap (P Q : Z → list LayoutS → LayoutS → Prop) (f : LayoutS → LayoutS) j vars ls :
  (∀ i v l, P i v l → Q i v (f l)) → each P j vars ls → each Q j vars (f <$> ls).
Proof.
  intros HPQ. revert j ls. induction vars as [|w vars IH]; intros j [|l ls] He; try done.
  destruct He as [Hl He]. split; [by apply HPQ|by apply IH].
Qed.

(** ** Variants *)

(** The fields [flds] at the offsets [offs]: each below [hi] and aligned, and no
    byte in two of them. *)
Definition fields_placed (pack : option Align) (flds : list LayoutS) (offs : list Size) (hi : Z) : Prop :=
  length offs = length flds ∧
  (∀ i f o, flds !! i = Some f → offs !! i = Some o →
     0 ≤ o ∧ o + size f ≤ hi ∧ (2 ^ field_align pack f | o)) ∧
  (∀ i j f g o p b, flds !! i = Some f → offs !! i = Some o → flds !! j = Some g → offs !! j = Some p →
     o ≤ b < o + size f → p ≤ b < p + size g → i = j).

(** No field has a byte in common with the [n] bytes from [a] on. *)
Definition fields_avoid (flds : list LayoutS) (offs : list Size) (a n : Z) : Prop :=
  ∀ i f o b, flds !! i = Some f → offs !! i = Some o → o ≤ b < o + size f → ¬ a ≤ b < a + n.

(** The layout [l] of variant [j] with the fields [flds] at [offs], in an enum of
    size [sz] and alignment [al]. *)
Record variant_ok (pack : option Align) (sz : Size) (al : Align) (j : Z) (flds : list LayoutS)
    (l : LayoutS) (offs : list Size) : Prop := {
  vo_index : variants l = Single j;
  vo_fields : ∃ mi, fields l = ArbitraryShape offs mi ∧ mi ≡ₚ seqZ 0 (Z.of_nat (length flds));
  vo_placed : fields_placed pack flds offs sz;
  vo_inside i f o : flds !! i = Some f → offs !! i = Some o → 0 < size f → o + size f ≤ size l;
  vo_size : size l ≤ sz;
  vo_align : abi (align l) ≤ al;
  vo_inhabited : Abi.is_uninhabited (layout_abi l) = existsb (λ f, Abi.is_uninhabited (layout_abi f)) flds;
}.

Lemma fields_placed_mono pack flds offs hi hi' :
  fields_placed pack flds offs hi → hi ≤ hi' → fields_placed pack flds offs hi'.
Proof.
  intros (Hlen&Hin&Hdis) Hle. split; [done|]. split; [|done]. intros i f o Hf Ho.
  destruct (Hin i f o Hf Ho) as (?&?&?). split_and!; [done|lia|done].
Qed.

(** A variant whose fields lie within its own size. *)
Lemma variant_within pack sz al j flds l offs mi :
  variants l = Single j → fields l = ArbitraryShape offs mi →
  mi ≡ₚ seqZ 0 (Z.of_nat (length flds)) → fields_placed pack flds offs (size l) → size l ≤ sz →
  abi (align l) ≤ al →
  Abi.is_uninhabited (layout_abi l) = existsb (λ f, Abi.is_uninhabited (layout_abi f)) flds →
  variant_ok pack sz al j flds l offs.
Proof.
  intros Hidx Hfl Hmi Hpl Hsz Hal Hu. split; try done; [by exists mi|by eapply fields_placed_mono|].
  intros i f o Hf Ho _. by apply (proj1 (proj2 Hpl) i f o).
Qed.

Lemma zst_size f : LayoutS.is_zst f = true → size f = 0.
Proof.
  unfold LayoutS.is_zst, Size.bytes. destruct (layout_abi f) as [| | | |[]| |]; cbn; try done; lia.
Qed.

Lemma mapM_outcome_lookup {A B} (f : A → outcome B) l ys k x :
  mapM_outcome f l = Ret ys → l !! k = Some x → ∃ y, ys !! k = Some y ∧ f x = Ret y.
Proof.
  revert ys k. induction l as [|z l IH]; intros ys k E Hk; [done|]. cbn in E.
  apply obind_ret_inv in E as (y&Hy&E). apply obind_ret_inv in E as (ys'&Hys&[= <-]).
  destruct k as [|k]; cbn in Hk |- *; [injection Hk as ->; by exists y|by apply IH].
Qed.

Lemma mapM_outcome_length {A B} (f : A → outcome B) l ys :
  mapM_outcome f l = Ret ys → length ys = length l.
Proof.
  revert ys. induction l as [|z l IH]; intros ys E; cbn in E; [by injection E as <-|].
  apply obind_ret_inv in E as (y&Hy&E). apply obind_ret_inv in E as (ys'&Hys&[= <-]).
  cbn. f_equal. by apply IH.
Qed.

Lemma size_add_ret a b : a + b < 2 ^ 64 → Size.add a b = Ret (a + b).
Proof.
  intros. unfold Size.add, checked_add, Size.bytes. by destruct (Z.ltb_spec (a + b) (2 ^ 64)); [|lia].
Qed.

Lemma pow2_divide a b : 0 ≤ a ≤ b → (2 ^ a | 2 ^ b).
Proof. intros. exists (2 ^ (b - a)). rewrite <- Z.pow_add_r by lia. f_equal. lia. Qed.

Section props.
Context `{ShufflePerm} (dl : TargetDataLayout) (Hdl : target_ok dl).

Lemma struct_placed_fields flds pack lo l offs mi :
  struct_placed flds pack lo l offs mi → 0 ≤ lo → fields_placed pack flds offs (size l).
Proof.
  intros (_&Hlen&Hperm&_&Hin&Hord) Hlo. split; [done|]. split.
  - intros i f o Hf Ho. destruct (Hin i f o Hf Ho) as (?&?&?&_). split_and!; [lia|done..].
  - intros i j f g o p b Hf Ho Hg Hp Hb1 Hb2.
    assert (length mi = length flds) as Hml by (rewrite Hperm, length_seqZ; lia).
    destruct (lookup_lt_is_Some_2 mi i) as [ki Hki]; [rewrite Hml; by eapply lookup_lt_Some|].
    destruct (lookup_lt_is_Some_2 mi j) as [kj Hkj]; [rewrite Hml; by eapply lookup_lt_Some|].
    destruct (Z.lt_trichotomy ki kj) as [Hlt|[->|Hlt]].
    + pose proof (Hord i j f o p ki kj Hf Ho Hp Hki Hkj Hlt). lia.
    + eapply NoDup_lookup; [|done..]. rewrite Hperm. apply NoDup_seqZ.
    + pose proof (Hord j i g p o kj ki Hg Hp Ho Hkj Hki Hlt). lia.
Qed.

(** The size that [univariant] gives the variant with the fields [flds] *)
Definition variant_size (repr : ReprOptions) (kind : StructKind) (flds : list LayoutS) (sz : Size) : Prop :=
  ∃ l, univariant dl flds repr kind = Ret (Some l) ∧ size l = sz.

(** A struct layout with its index, whose alignment [m] has been merged with. *)
Definition laid_out (repr : ReprOptions) (kind : StructKind) (m : merged) (j : Z)
    (flds : list LayoutS) (l : LayoutS) : Prop :=
  struct_result dl flds repr kind l ∧ variants l = Single j ∧ abi (align l) ≤ abi (mg_align m) ∧
  variant_size repr kind flds (size l).

Lemma struct_result_index flds repr kind l j :
  struct_result dl flds repr kind l → struct_result dl flds repr kind (with_index j l).
Proof.
  intros (Hok&Hpl&Hc&Hu). split; [by destruct Hok; split|]. split; [done|]. split; [done|]. done.
Qed.

Lemma merge_ge m st :
  abi (mg_align m) ≤ abi (mg_align (merge m st)) ∧ abi (align st) ≤ abi (mg_align (merge m st)).
Proof. cbn. lia. Qed.

Section niche.
Variables (repr : ReprOptions) (vars : list (list LayoutS)).
Hypothesis Hrepr : repr_ok repr.

Definition variants_fit (kind : StructKind) (vars : list (list LayoutS)) : Prop :=
  Forall (λ flds, Forall (layout_ok dl) flds ∧ struct_fits dl flds repr kind) vars.

Lemma niche_variant_layouts_ok vs j m :
  variants_fit AlwaysSized vs → align_ok (abi (mg_align m)) →
  ∃ ls m', niche_variant_layouts dl repr j vs m = Ret (Some (ls, m')) ∧
    align_ok (abi (mg_align m')) ∧ abi (mg_align m) ≤ abi (mg_align m') ∧
    each (laid_out repr AlwaysSized m') j vs ls.
Proof.
  intros Hfit. revert j m. induction Hfit as [|flds vs [Hf Hfits] Hfit IH]; intros j m Hm;
    cbn [niche_variant_layouts].
  { exists [], m. split_and!; [done|done|lia|done]. }
  destruct (univariant_fits dl Hdl flds repr AlwaysSized Hf Hrepr I Hfits) as (l&E&Hl). rewrite E.
  unfold obind_opt at 1. cbn [obind].
  pose proof (struct_result_index _ _ _ _ j Hl) as Hl'. set (st := with_index j l) in *.
  pose proof (merge_ge m st) as [H1 H2]. pose proof (layout_align_ok dl st (proj1 Hl')) as Hal.
  destruct (IH (j + 1) (merge m st)) as (ls&m'&->&Hm'&Hle&Heach).
  { unfold align_ok in *. cbn. cbn in Hal. lia. }
  unfold obind_opt. cbn [obind]. exists (st :: ls), m'. split_and!; [done|done|lia|].
  split; [|done]. split_and!; [done|done|lia|]. by exists l.
Qed.

Lemma shift_offsets_ok flds this offs hi :
  length offs = length flds → 0 ≤ this ≤ 2 ^ 60 → hi ≤ 2 ^ 60 →
  (∀ i f o, flds !! i = Some f → offs !! i = Some o → o ≤ hi) →
  ∃ offs', shift_offsets flds this offs = Ret offs' ∧ length offs' = length flds ∧
    ∀ i f o, flds !! i = Some f → offs' !! i = Some o →
      ∃ o0, offs !! i = Some o0 ∧ o = if LayoutS.is_zst f then o0 else o0 + this.
Proof.
  intros Hlen Hthis Hhi Hle. unfold shift_offsets. set (g := λ p : Z * Size, _).
  assert (∀ k o f, offs !! k = Some o → flds !! k = Some f →
            g (Z.of_nat k, o) = Ret (if LayoutS.is_zst f then o else o + this)) as Hg.
  { intros k o f Ho Hf. unfold g. cbn [fst snd]. rewrite Nat2Z.id, Hf. cbn [unwrap obind].
    destruct (LayoutS.is_zst f); cbn [negb]; [done|]. apply size_add_ret.
    pose proof (Hle k f o Hf Ho). lia. }
  destruct (mapM_outcome_ret g (enumerate offs)) as (offs'&E&_).
  { apply Forall_lookup_2. intros k p (o&Ho&->)%enumerate_lookup.
    destruct (lookup_lt_is_Some_2 flds k) as [f Hf]; [rewrite <- Hlen; by eapply lookup_lt_Some|].
    eexists. by eapply Hg. }
  exists offs'. split; [done|]. pose proof (mapM_outcome_length _ _ _ E) as Hlen'.
  assert (length (enumerate offs) = length offs) as Hel.
  { unfold enumerate. rewrite length_zip_with, length_seqZ. lia. }
  split; [congruence|]. intros i f o Hf Ho.
  destruct (lookup_lt_is_Some_2 offs i) as [o0 Ho0]; [rewrite Hlen; by eapply lookup_lt_Some|].
  assert (enumerate offs !! i = Some (Z.of_nat i, o0)) as Hi by (apply enumerate_lookup; by exists o0).
  destruct (mapM_outcome_lookup _ _ _ _ _ E Hi) as (y&Hy&Hgy). rewrite (Hg i o0 f Ho0 Hf) in Hgy.
  exists o0. split; [done|]. pose proof (eq_trans (eq_sym Ho) Hy) as [= ->]. by injection Hgy as <-.
Qed.

(** The fields moved behind the niche. *)
Lemma fields_shifted pack flds offs offs' this hi al :
  fields_placed pack flds offs hi → length offs' = length flds →
  (∀ i f o, flds !! i = Some f → offs !! i = Some o → 0 ≤ field_align pack f ≤ al) →
  (∀ i f o, flds !! i = Some f → offs' !! i = Some o →
     ∃ o0, offs !! i = Some o0 ∧ o = if LayoutS.is_zst f then o0 else o0 + this) →
  0 ≤ this → (2 ^ al | this) →
  fields_placed pack flds offs' (hi + this) ∧ ∀ a n, a + n ≤ this → fields_avoid flds offs' a n.
Proof.
  intros (Hlen&Hin&Hdis) Hlen' Hal Hsh Hthis Hdiv.
  assert (∀ i f o b, flds !! i = Some f → offs' !! i = Some o → o ≤ b < o + size f →
    ∃ o0, offs !! i = Some o0 ∧ o = o0 + this) as Hnz.
  { intros i f o b Hf Ho Hb. destruct (Hsh i f o Hf Ho) as (o0&Ho0&->). exists o0.
    split; [done|]. destruct (LayoutS.is_zst f) eqn:Ez; [|done]. apply zst_size in Ez. lia. }
  split; [split; [done|split]|].
  - intros i f o Hf Ho. destruct (Hsh i f o Hf Ho) as (o0&Ho0&->).
    destruct (Hin i f o0 Hf Ho0) as (?&?&?). destruct (LayoutS.is_zst f); split_and!; try lia; [done|].
    apply Z.divide_add_r; [done|]. eapply Z.divide_trans; [|done]. by eapply pow2_divide, Hal.
  - intros i j f g o p b Hf Ho Hg Hp Hb1 Hb2.
    destruct (Hnz i f o b Hf Ho Hb1) as (o0&Ho0&->). destruct (Hnz j g p b Hg Hp Hb2) as (p0&Hp0&->).
    apply (Hdis i j f g o0 p0 (b - this)); try done; lia.
  - intros a n Ha i f o b Hf Ho Hb. destruct (Hnz i f o b Hf Ho Hb) as (o0&Ho0&->).
    destruct (Hin i f o0 Hf Ho0) as (?&_). lia.
Qed.

Section fit.
Variables (largest : Z) (large : LayoutS) (noff nsz esz : Size) (m : merged).
Hypotheses (Hnoff : 0 ≤ noff) (Hnsz : 0 ≤ nsz) (Hend : noff + nsz ≤ esz) (Hesz : esz ≤ 2 ^ 48).

(** What [fit_variant] makes of a variant: the largest one stays as it is, the
    others leave the niche alone. *)
Definition fitted (j : Z) (flds : list LayoutS) (l : LayoutS) : Prop :=
  ∃ offs, variant_ok (repr_pack repr) esz (abi (mg_align m)) j flds l offs ∧
    if decide (j = largest) then l = large
    else fields_avoid flds offs noff nsz ∧ largest_niche l = None.

Lemma laid_out_variant j flds l :
  laid_out repr AlwaysSized m j flds l → size l ≤ esz → Forall (layout_ok dl) flds →
  ∃ offs mi, fields l = ArbitraryShape offs mi ∧ mi ≡ₚ seqZ 0 (Z.of_nat (length flds)) ∧
    fields_placed (repr_pack repr) flds offs (size l) ∧
    ∀ i f o, flds !! i = Some f → offs !! i = Some o →
      0 ≤ field_align (repr_pack repr) f ≤ abi (align l).
Proof.
  intros ((Hok&(offs&mi&Hpl&_)&_&Hu)&Hidx&Hal&_) Hsz Hf. exists offs, mi.
  split_and!; [apply Hpl|apply Hpl|by eapply struct_placed_fields|].
  - intros i f o Hi Ho. destruct Hpl as (_&_&_&_&Hin&_). destruct (Hin i f o Hi Ho) as (_&_&_&?).
    split; [|done]. apply (field_align_ok dl _ (proj2 Hrepr)). by eapply Forall_lookup_1.
Qed.

Lemma fit_variant_ok j flds l :
  laid_out repr AlwaysSized m j flds l → size l ≤ esz → Forall (layout_ok dl) flds →
  (j = largest → l = large) →
  ∃ r, fit_variant largest noff nsz esz j flds l = Ret r ∧
    match r with
    | None => j ≠ largest ∧ 0 < size l ∧ variant_size repr AlwaysSized flds (size l)
    | Some l' => fitted j flds l'
    end.
Proof.
  intros Hl Hsz Hf Hlarge. pose proof (laid_out_variant j flds l Hl Hsz Hf) as (offs&mi&Efl&Hmi&Hpl&Hfa).
  pose proof Hl as ((Hok&_&_&Hu)&Hidx&Hal&Hvs).
  unfold fit_variant, fitted. destruct (Z.eqb_spec j largest) as [->|Hne].
  { eexists. split; [done|]. exists offs. rewrite decide_True by done.
    split; [by eapply variant_within|auto]. }
  cbn [without_niche size]. pose proof (size_ok dl l Hok). pose proof (layout_align_ok dl l Hok) as Hao.
  destruct (Z.leb_spec (size l) noff) as [Hle|Hgt].
  { eexists. split; [done|]. exists offs. rewrite decide_False by done. split; [|split; [|done]].
    - by eapply variant_within.
    - intros i f o b Hi Ho Hb. destruct Hpl as (_&Hin&_). destruct (Hin i f o Hi Ho) as (_&?&_). lia. }
  rewrite size_add_ret by lia. cbn [obind without_niche align].
  pose proof (align_ok_pow _ Hao). unfold align_ok in Hao.
  destruct (align_to_least (noff + nsz) (abi (align l))) as (Hd&Hge&_); [lia..|].
  pose proof (align_to_lt (noff + nsz) (abi (align l)) ltac:(lia) ltac:(lia) ltac:(lia)).
  set (this := Size.align_to (noff + nsz) (abi (align l))) in *.
  rewrite size_add_ret by lia. cbn [obind].
  destruct (Z.ltb_spec esz (this + size l)) as [|Hfits].
  { eexists. split; [done|]. split_and!; [done|lia|done]. }
  cbn [without_niche fields layout_abi size]. rewrite Efl.
  destruct (shift_offsets_ok flds this offs (size l)) as (offs'&->&Hlen'&Hsh); [apply Hpl|lia|lia| |].
  { intros i f o Hi Ho. destruct Hpl as (_&Hin&_). destruct (Hin i f o Hi Ho) as (?&?&_).
    assert (0 ≤ size f) by (apply (size_ok dl f); by eapply Forall_lookup_1). lia. }
  cbn [obind]. rewrite size_add_ret by lia. cbn [obind]. eexists. split; [done|]. exists offs'.
  rewrite decide_False by done.
  destruct (fields_shifted _ flds offs offs' this (size l) (abi (align l)) Hpl Hlen' Hfa Hsh)
    as [Hpl' Hav]; [lia|done|]. split; [|split; [|done]].
  - eapply variant_within; cbn; try done; [lia|].
    by destruct (Abi.is_uninhabited (layout_abi l)) eqn:E; cbn; rewrite ?E.
  - apply Hav. lia.
Qed.

Lemma fit_variants_ok vs ls j :
  each (λ j flds l, laid_out repr AlwaysSized m j flds l ∧ size l ≤ esz ∧
                    Forall (layout_ok dl) flds ∧ (j = largest → l = large)) j vs ls →
  ∃ r, fit_variants largest noff nsz esz j vs ls = Ret r ∧
    match r with
    | None => ∃ k v sz, vs !! k = Some v ∧ j + Z.of_nat k ≠ largest ∧ 0 < sz ∧
                        variant_size repr AlwaysSized v sz
    | Some ls' => each fitted j vs ls'
    end.
Proof.
  revert j ls. induction vs as [|flds vs IH]; intros j [|l ls] He; try done; cbn [fit_variants].
  { by eexists. }
  destruct He as [(Hl&Hsz&Hf&Hlarge) He].
  destruct (fit_variant_ok j flds l Hl Hsz Hf Hlarge) as (r&->&Hr).
  unfold obind_opt at 1. cbn [obind]. destruct r as [l'|].
  2: { eexists. split; [done|]. destruct Hr as (Hne&Hpos&Hvs). exists 0%nat, flds, (size l).
       rewrite Z.add_0_r. by split_and!. }
  destruct (IH _ _ He) as (r&->&Hr'). unfold obind_opt. cbn [obind].
  destruct r as [ls'|]; [by eexists|]. eexists. split; [done|].
  destruct Hr' as (k&v&sz&Hk&Hne&Hpos). exists (S k), v, sz. split; [done|]. split; [lia|done].
Qed.
End fit.
(** Every niche of these fields has fewer than [count] values. *)
Definition niches_below (flds : list LayoutS) (count : Z) : Prop :=
  ∀ i f n, flds !! i = Some f → largest_niche f = Some n →
    invalid_count (niche_bits n dl) (valid_range n) < count.

Lemma niche_invalid_count n k :
  niche_wf n dl → Niche.available n dl = Ret k → invalid_count (niche_bits n dl) (valid_range n) = k.
Proof.
  intros Hn. rewrite niche_available_eq by done. intros [= <-]. pose proof Hn as [[? ?] ?].
  apply invalid_count_eq; [unfold niche_bits; lia|done].
Qed.

Lemma find_niche_ok flds count :
  Forall (layout_ok dl) flds → 0 < count < 2 ^ 128 →
  ∃ r, find_niche dl flds count = Ret r ∧
  match r with
  | None => niches_below flds count
  | Some (j, n, (s, scalar)) =>
      ∃ f r', 0 ≤ j ∧ flds !! Z.to_nat j = Some f ∧ largest_niche f = Some n ∧
        scalar = Initialized (value n) r' ∧ extends (niche_bits n dl) (valid_range n) s count r' ∧
        count ≤ invalid_count (niche_bits n dl) (valid_range n)
  end.
Proof.
  intros Hf Hc. unfold find_niche. set (niches := omap _ _).
  assert (∀ p, p ∈ niches → ∃ f, 0 ≤ fst p ∧ flds !! Z.to_nat (fst p) = Some f ∧
            largest_niche f = Some (snd p)) as Hn.
  { intros p ([k f]&[i Hi]%list_elem_of_lookup&Hp)%list_elem_of_omap.
    apply enumerate_lookup in Hi as (g&Hg&[= -> ->]). cbn in Hp.
    apply fmap_Some in Hp as (n&Hn&->). cbn. exists g. rewrite Nat2Z.id. split_and!; [lia|done..]. }
  assert (∀ p, p ∈ niches → niche_wf (snd p) dl) as Hwf.
  { intros p Hp. destruct (Hn p Hp) as (f&_&Hlk&Hl). apply (niche_ok dl f); [|done].
    by eapply Forall_lookup_1. }
  set (key := λ p : Z * Niche, _). destruct (mapM_outcome_ret key niches) as (keyed&E&_).
  { apply Forall_forall. intros p Hp%list_elem_of_In. unfold key.
    destruct (available_ret dl (snd p) (Hwf p Hp)) as (k&->&_). by eexists. }
  assert (∀ i f n, flds !! i = Some f → largest_niche f = Some n →
    ∃ a, Niche.available n dl = Ret a ∧ (a, (Z.of_nat i, n)) ∈ keyed) as Hkeyed.
  { intros i f n Hi Hlf. assert ((Z.of_nat i, n) ∈ niches) as Hin.
    { apply list_elem_of_omap. exists (Z.of_nat i, f). split; [by apply enumerate_elem|]. cbn. by rewrite Hlf. }
    pose proof Hin as [k Hk]%list_elem_of_lookup.
    destruct (mapM_outcome_lookup _ _ _ _ _ E Hk) as (y&Hy&Hkey). unfold key in Hkey.
    apply obind_ret_inv in Hkey as (a&Ha&[= <-]). exists a. split; [done|]. by eapply list_elem_of_lookup_2. }
  rewrite E. cbn [obind]. destruct (max_by_key fst keyed) as [[a [j n]]|] eqn:Em.
  2: { eexists. split; [done|]. intros i f n Hi Hlf. destruct (Hkeyed i f n Hi Hlf) as (a&_&Hin).
       apply max_by_key_none in Em. rewrite Em in Hin. by apply elem_of_nil in Hin. }
  apply max_by_key_some in Em as [[k Hk]%list_elem_of_lookup Hmax].
  assert (∃ p, niches !! k = Some p) as [p Hp].
  { apply lookup_lt_is_Some_2. rewrite <- (mapM_outcome_length _ _ _ E). by eapply lookup_lt_Some. }
  destruct (mapM_outcome_lookup _ _ _ _ _ E Hp) as (y&Hy&Hkey). rewrite Hk in Hy. injection Hy as <-.
  unfold key in Hkey. apply obind_ret_inv in Hkey as (a'&Ha'&[= -> ->]).
  apply list_elem_of_lookup_2 in Hp. destruct (Hn _ Hp) as (f&Hj&Hlk&Hl). cbn [fst snd] in *.
  destruct (niche_reserve_ok n dl count (Hwf _ Hp) Hc) as (res&->&Hres). unfold obind_opt. cbn [obind].
  destruct res as [[s sc]|].
  - destruct Hres as (Hcount&r'&->&Hext). eexists. split; [done|]. by exists f, r'.
  - eexists. split; [done|]. intros i g n' Hi Hlg. destruct (Hkeyed i g n' Hi Hlg) as (a2&Ha2&Hin).
    specialize (Hmax _ Hin). cbn in Hmax.
    rewrite (niche_invalid_count n a (Hwf _ Hp) Ha') in Hres.
    rewrite (niche_invalid_count n' a2); [lia| |done].
    apply (niche_ok dl g (Forall_lookup_1 _ _ _ _ Hf Hi) n' Hlg).
Qed.

Lemma niche_abi_ok ls largest large noff esz al prim r' :
  abi_ok dl (layout_abi large) → scalar_ok dl (Initialized prim r') →
  abi_ok dl (niche_abi ls largest large noff esz al (Initialized prim r')).
Proof.
  intros Hl Hs. unfold niche_abi. destruct (all_uninhabited ls); [done|].
  destruct (_ && _); [|done]. destruct (layout_abi large); try done. by destruct (_ =? _).
Qed.

(** At least two variants take part. *)
Definition two_present : Prop :=
  ∃ i j vi vj, i ≠ j ∧ vars !! i = Some vi ∧ vars !! j = Some vj ∧ absent vi = false ∧ absent vj = false.

(** The bounds of the niche variants. *)
Lemma niche_variants_ok largest :
  two_present →
  let needs_disc := λ p : Z * list LayoutS, negb (fst p =? largest) && negb (absent (snd p)) in
  ∃ first last, List.find needs_disc (enumerate vars) = Some first ∧
    List.find needs_disc (rev (enumerate vars)) = Some last ∧
    0 ≤ fst first ≤ fst last ∧ fst last < Z.of_nat (length vars) ∧
    ∀ i v, vars !! i = Some v → absent v = false → Z.of_nat i ≠ largest →
      fst first ≤ Z.of_nat i ≤ fst last.
Proof.
  intros (i&j&vi&vj&Hij&Hi&Hj&Hai&Haj) nd.
  assert (∀ k v, vars !! k = Some v → absent v = false → Z.of_nat k ≠ largest →
            nd (Z.of_nat k, v) = true) as Hnd.
  { intros k v _ Hv Hk. unfold nd. cbn. rewrite Hv. by destruct (Z.eqb_spec (Z.of_nat k) largest). }
  assert (∃ p, p ∈ enumerate vars ∧ nd p = true) as (p&Hp&Hpn).
  { destruct (decide (Z.of_nat i = largest)) as [E|E];
      [exists (Z.of_nat j, vj)|exists (Z.of_nat i, vi)]; (split; [|by eapply Hnd; try done; lia]);
      by apply enumerate_elem. }
  destruct (find_exists nd _ _ Hp Hpn) as (first&Hfirst).
  assert (p ∈ rev (enumerate vars)) as Hp' by (by apply list_elem_of_In, (proj1 (in_rev _ _)), list_elem_of_In).
  destruct (find_exists nd _ _ Hp' Hpn) as (last&Hlast). exists first, last.
  destruct (find_first _ _ _ Hfirst) as (Hf1&Hf2&Hf3&Hf4).
  destruct (find_last _ _ _ Hlast) as (Hl1&Hl2&Hl3).
  pose proof (lookup_lt_Some _ _ _ Hl2). split_and!; [done|done|done| | |].
  - specialize (Hl3 _ _ Hf3). rewrite Z2Nat.id in Hl3 by done. apply Hl3. by destruct first.
  - lia.
  - intros k v Hk Hv Hkl. specialize (Hnd k v Hk Hv Hkl). split; [by eapply Hf4|by eapply Hl3].
Qed.

(** A sound niche-filling layout of the enum.  The tag is a niche of a field of
    the variant [largest], at its place in the enum; the variants [first] to
    [last], every other present one among them, are encoded by values that were
    invalid there; and the fields of the other variants leave the tag alone. *)
Definition niche_filled (e : LayoutS) (ls : list LayoutS) : Prop :=
  layout_ok dl e ∧ (2 ^ abi (align e) | size e) ∧
  ∃ prim r r' largest first last s noff,
    (∃ vs, variants e = Multiple (Initialized prim r') (NicheEncoding largest first last s) 0 vs) ∧
    fields e = ArbitraryShape [noff] [0] ∧
    0 ≤ largest < Z.of_nat (length vars) ∧ 0 ≤ first ≤ last ∧ last < Z.of_nat (length vars) ∧
    (∀ i v, vars !! i = Some v → absent v = false → Z.of_nat i ≠ largest → first ≤ Z.of_nat i ≤ last) ∧
    in_width (Primitive.size prim dl * 8) r ∧
    extends (Primitive.size prim dl * 8) r s (last - first + 1) r' ∧
    last - first + 1 ≤ invalid_count (Primitive.size prim dl * 8) r ∧
    length ls = length vars ∧
    ∀ k flds, vars !! k = Some flds →
      ∃ l offs, ls !! k = Some l ∧
        variant_ok (repr_pack repr) (size e) (abi (align e)) (Z.of_nat k) flds l offs ∧
        if decide (Z.of_nat k = largest) then
          ∃ i f o, flds !! i = Some f ∧ offs !! i = Some o ∧
            largest_niche f = Some (mkNiche (noff - o) prim r)
        else fields_avoid flds offs noff (Primitive.size prim dl).

(** When there is no such layout: the niches of a largest variant are too small,
    or another variant has a size of its own and fits neither before nor behind
    the niche. *)
Definition niche_declined : Prop :=
  ∃ k flds sz, vars !! k = Some flds ∧ variant_size repr AlwaysSized flds sz ∧
    (∀ i v szv, vars !! i = Some v → variant_size repr AlwaysSized v szv → szv ≤ sz) ∧
    (niches_below flds (Z.of_nat (length vars)) ∨
     ∃ i v szv, i ≠ k ∧ vars !! i = Some v ∧ 0 < szv ∧ variant_size repr AlwaysSized v szv).

(** The largest variant and the size of the enum. *)
Lemma niche_largest_ok m ls :
  variants_fit AlwaysSized vars → each (laid_out repr AlwaysSized m) 0 vars ls →
  align_ok (abi (mg_align m)) → vars ≠ [] →
  ∃ k large flds, max_by_key (λ p, Size.bytes (size (snd p))) (enumerate ls) = Some (Z.of_nat k, large) ∧
    vars !! k = Some flds ∧ ls !! k = Some large ∧ laid_out repr AlwaysSized m (Z.of_nat k) flds large ∧
    (∀ i v szv, vars !! i = Some v → variant_size repr AlwaysSized v szv → szv ≤ size large) ∧
    let esz := Size.align_to (size large) (abi (mg_align m)) in
    (2 ^ abi (mg_align m) | esz) ∧ size large ≤ esz ≤ 2 ^ 48 ∧
    each (λ j flds l, laid_out repr AlwaysSized m j flds l ∧ size l ≤ esz ∧
                      Forall (layout_ok dl) flds ∧ (j = Z.of_nat k → l = large)) 0 vars ls.
Proof.
  intros Hfit He Hm Hne.
  destruct (max_by_key _ (enumerate ls)) as [[j large]|] eqn:Emax.
  2: { apply max_by_key_none, enumerate_nil in Emax as ->. by destruct vars. }
  apply max_by_key_some in Emax as [[k (x&Hk&[= -> ->])%enumerate_lookup]%list_elem_of_lookup Hmax].
  destruct (lookup_lt_is_Some_2 vars k) as [flds Hflds].
  { rewrite <- (each_length _ _ _ _ He). by eapply lookup_lt_Some. }
  destruct (each_lookup _ _ _ _ _ _ He Hflds) as (l'&Hl'&Hlo). rewrite Hk in Hl'. injection Hl' as <-.
  rewrite Z.add_0_l in Hlo. exists k, x, flds. do 4 (split; [done|]).
  pose proof (size_ok dl x (proj1 (proj1 Hlo))) as Hsz. pose proof (align_ok_pow _ Hm) as Hp.
  unfold align_ok in Hm. destruct (align_to_least (size x) (abi (mg_align m))) as (Hd&Hge&Hleast); [lia..|].
  split.
  { intros i v szv Hi (l&Hl&<-). destruct (each_lookup _ _ _ _ _ _ He Hi) as (l'&Hl'&_&_&_&(l2&Hl2&E2)).
    rewrite Hl in Hl2. injection Hl2 as <-. rewrite E2.
    apply (Hmax (Z.of_nat i, l')). by apply enumerate_elem. }
  intros esz. split_and!; [done|done| |].
  { apply Hleast; [|lia]. apply pow2_divide. lia. }
  assert (∀ i l, ls !! i = Some l → size l ≤ size x ∧ (0 + Z.of_nat i = Z.of_nat k → l = x)) as Hall.
  { intros i l Hi. split; [apply (Hmax (Z.of_nat i, l)); by apply enumerate_elem|].
    intros Eik. assert (i = k) as -> by lia. congruence. }
  fold esz in Hge. clearbody esz. clear Hmax Hk Hflds Hd Hleast Hlo Hne. revert ls He Hall. generalize 0.
  unfold variants_fit in Hfit. induction Hfit as [|v vs [Hv _] Hfit IH]; intros j [|l ls] He Hall; try done.
  destruct He as [Hl He]. split; [|apply IH; [done|]].
  - destruct (Hall 0%nat l eq_refl) as [Hle Hx]. split_and!; [done|lia|done|]. intros Ej. apply Hx. lia.
  - intros i l' Hi. destruct (Hall (S i) l' Hi) as [Hle Hx]. split; [done|]. intros Ei. apply Hx. lia.
Qed.

(** The field that lends its niche lies in the largest variant. *)
Lemma niche_place m k flds large esz j f n :
  laid_out repr AlwaysSized m k flds large → size large ≤ esz → Forall (layout_ok dl) flds →
  0 ≤ j → flds !! Z.to_nat j = Some f → largest_niche f = Some n →
  ∃ o, FieldsShape.offset (fields large) j = Ret o ∧ 0 ≤ o ∧ 0 ≤ offset n ∧
    offset n + o + Primitive.size (value n) dl ≤ esz ∧
    (∃ mi offs, fields large = ArbitraryShape offs mi ∧ offs !! Z.to_nat j = Some o) ∧
    in_width (niche_bits n dl) (valid_range n).
Proof.
  intros ((_&(offs&mi&(Efl&Hlen&_&_&Hin&_)&_)&_)&_) Hle Hf Hj Hlk Hn.
  destruct (lookup_lt_is_Some_2 offs (Z.to_nat j)) as [o Ho]; [rewrite Hlen; by eapply lookup_lt_Some|].
  destruct (Hin _ _ _ Hlk Ho) as (Hlo&Hhi&_).
  destruct (niche_ok dl f (Forall_lookup_1 _ _ _ _ Hf Hlk) n Hn) as ([_ Hw]&Hoff&Hend).
  exists o. rewrite Efl. cbn [FieldsShape.offset].
  change (offs !! Z.to_nat j) with (lookup (A := Size) (Z.to_nat j) offs) in *. rewrite Ho.
  unfold struct_start in Hlo. cbn in Hlo. unfold Size.ZERO in Hlo.
  split_and!; [done|lia|done|lia| |done]. by exists mi, offs.
Qed.

Lemma niche_filling_ok :
  variants_fit AlwaysSized vars → two_present → Z.of_nat (length vars) ≤ 2 ^ 32 →
  ∃ r, niche_filling_layout dl repr vars false = Ret r ∧
    match r with
    | None => niche_declined
    | Some tmp => niche_filled (tmp_layout tmp) (tmp_variants tmp)
    end.
Proof.
  intros Hfit H2 Hlen. unfold niche_filling_layout.
  assert ((length vars <? 2)%nat = false) as ->.
  { destruct H2 as (i&j&vi&vj&Hij&Hi%lookup_lt_Some&Hj%lookup_lt_Some&_). apply Nat.ltb_ge. lia. }
  destruct (niche_variant_layouts_ok vars 0
              (mkMerged (aggregate_align dl) (repr_align repr) (abi (aggregate_align dl))) Hfit)
    as (ls&m&->&Hm&_&He); [apply Hdl|]. unfold obind_opt at 1. cbn [obind].
  destruct (niche_largest_ok m ls Hfit He Hm) as (k&large&flds&->&Hk&Hlk&Hlo&Hmax&Hdiv&Hsz&Hes).
  { destruct H2 as (i&j&vi&vj&_&Hi&_). by intros E; rewrite E in Hi. }
  destruct (niche_variants_ok (Z.of_nat k) H2) as (first&last&->&->&Hfl&Hll&Hall).
  cbn [unwrap obind]. rewrite Nat2Z.id, Hk. cbn [unwrap obind].
  pose proof (Forall_lookup_1 _ _ _ _ Hfit Hk) as [Hflds _]. cbv beta in Hflds.
  destruct (find_niche_ok flds (fst last - fst first + 1) Hflds) as (r&->&Hr); [lia|].
  unfold obind_opt at 1. cbn [obind]. destruct r as [[[j n] [s sc]]|].
  2: { eexists. split; [done|]. exists k, flds, (size large). split_and!; [done|apply Hlo|done|].
       left. intros i f n Hi Hn. specialize (Hr i f n Hi Hn). lia. }
  destruct Hr as (f&r'&Hj&Hf&Hn&->&Hext&Hcount).
  destruct (niche_place m _ flds large _ j f n Hlo (proj1 Hsz) Hflds Hj Hf Hn)
    as (o&->&Ho&Hoff&Hend&(mi&offs&Efl&Hoffs)&Hw). cbn [obind].
  pose proof (primitive_size_small dl Hdl (value n)) as [Hps _].
  rewrite size_add_ret by lia. cbn [obind]. set (noff := offset n + o) in *.
  set (esz := Size.align_to (size large) (abi (mg_align m))) in *.
  destruct (fit_variants_ok (Z.of_nat k) large noff (Primitive.size (value n) dl) esz m
              ltac:(lia) ltac:(lia) ltac:(lia) (proj2 Hsz) vars ls 0 Hes) as (r&->&Hr).
  unfold obind_opt. cbn [obind]. destruct r as [ls'|].
  2: { destruct Hr as (i&v&sz&Hi&Hne&Hpos&Hvsz). eexists. split; [done|].
       exists k, flds, (size large). split_and!; [done|apply Hlo|done|]. right. exists i, v, sz.
       split_and!; [lia|done..]. }
  assert (scalar_ok dl (Initialized (value n) r')) as Hsc by apply Hext.
  destruct (from_scalar_ret dl Hdl noff _ Hsc ltac:(lia)) as (ln&->&Hln). cbn [obind].
  eexists. split; [done|]. cbn [tmp_layout tmp_variants]. split; [|split; [done|]].
  { split; cbn; [lia|done| |].
    - intros n' E. eapply niche_in_mono; [by apply Hln|done].
    - apply niche_abi_ok; [|done]. apply (layout_abi_ok dl large (proj1 (proj1 Hlo))). }
  exists (value n), (valid_range n), r', (Z.of_nat k), (fst first), (fst last), s, noff.
  cbn [variants fields size align].
  split_and!; try done; try lia; [by eexists|by apply lookup_lt_Some in Hk; lia|by eapply each_length|].
  intros i v Hi. destruct (each_lookup _ _ _ _ _ _ Hr Hi) as (l'&Hl'&offs'&Hv&Hcase).
  rewrite Z.add_0_l in *. exists l', offs'. split_and!; [done..|]. case_decide as Ek; [|by apply Hcase].
  assert (i = k) as -> by lia. rewrite Hk in Hi. injection Hi as <-.
  subst l'. destruct Hv as [_ (mi'&Efl'&_) _ _ _ _]. rewrite Efl in Efl'. injection Efl' as <- <-.
  exists (Z.to_nat j), f, o. split_and!; [done..|]. rewrite Hn. f_equal.
  destruct n as [no nv nr]. cbn in *. f_equal. lia.
Qed.
End niche.

(** The niche-filling layout of an enum with at least two present variants,
    whose fields have layouts and whose variants fit below the object size
    bound: the computation returns.  If it yields a layout, the tag is a niche of
    a field of the largest variant, the variants it encodes, among them every
    other present one, get distinct values that are invalid in that niche, all
    fields are aligned, inside the enum and disjoint, and the fields of the other
    variants leave the tag alone.  If it declines, the niches of a largest
    variant have fewer values than there are variants, or another variant is not
    zero-sized. *)
Theorem niche_filling_sound repr vars :
  repr_ok repr → variants_fit repr AlwaysSized vars → two_present vars →
  Z.of_nat (length vars) ≤ 2 ^ 32 →
  ∃ r, niche_filling_layout dl repr vars false = Ret r ∧
    match r with
    | None => niche_declined repr vars
    | Some tmp => niche_filled repr vars (tmp_layout tmp) (tmp_variants tmp)
    end.
Proof. apply niche_filling_ok. Qed.
End props.

(** ** The properties at concrete inputs *)

Lemma bool_layout_ok : layout_ok default_dl bool_layout.
Proof. split; [done|by split| |by split]. intros n [= <-]. by repeat split. Defined.
Lemma u32_layout_ok : layout_ok default_dl u32_layout.
Proof. by split. Defined.

(** The variants of [Option<bool>] *)
Definition option_bool : list (list LayoutS) := [[]; [bool_layout]].

Lemma option_bool_fit kind :
  kind_ok kind → (match kind with Prefixed _ a => a ≤ 4 | _ => True end) →
  @variants_fit default_dl repr_rust kind option_bool.
Proof.
  intros Hk Ha.
  assert (∀ flds, struct_start default_dl flds repr_rust kind ≤ 2 ^ 6) as Hst.
  { intros flds. destruct kind as [| |s a]; [done..|]. destruct Hk as [Hs Hok].
    unfold struct_start. cbn [start_placing pl_offset repr_rust repr_pack].
    assert (2 ^ a ≤ 2 ^ 4) by (apply Z.pow_le_mono_r; unfold align_ok in *; lia).
    pose proof (align_ok_pow a Hok). unfold align_ok in Hok.
    pose proof (align_to_lt s a ltac:(lia) ltac:(lia) ltac:(lia)). lia. }
  repeat first [apply List.Forall_nil | apply List.Forall_cons].
  - split; [by repeat constructor|]. exists (2 ^ 47). split; [done|].
    specialize (Hst []). cbn -[struct_start]. lia.
  - split; [apply List.Forall_cons; [apply bool_layout_ok|apply List.Forall_nil]|]. exists (2 ^ 47). split; [done|].
    specialize (Hst [bool_layout]).
    change (total_room [bool_layout] (repr_pack repr_rust) (seq 0 (length [bool_layout]))) with 1. lia.
Defined.

Lemma niche_filling_sound_witness :
  ∃ r, @niche_filling_layout no_shuffle default_dl repr_rust option_bool false = Ret r ∧
    match r with
    | None => @niche_declined no_shuffle default_dl repr_rust option_bool
    | Some tmp => niche_filled default_dl repr_rust option_bool (tmp_layout tmp) (tmp_variants tmp)
    end.
Proof.
  apply (@niche_filling_sound no_shuffle no_shuffle_perm default_dl default_dl_ok).
  - by split.
  - by apply option_bool_fit.
  - by exists 0%nat, 1%nat, [], [bool_layout].
  - done.
Defined.
