(* ===== verification/TaggedProps.v ===== *)
(** The tagged layout of an enum: the fields of every variant lie behind the
    tag, also after it has been enlarged, and the tag can hold every
    discriminant. *)

From S2P Require Import Prelude Abi AbiProps Layout LayoutProps Enum EnumProps.

(** ** Memory order *)

(** [index_by_increasing_offset] inverts the memory index. *)
Lemma index_by_increasing_offset_ok offs mi n :
  length offs = n → mi ≡ₚ seqZ 0 (Z.of_nat n) →
  ∃ order, FieldsShape.index_by_increasing_offset (ArbitraryShape offs mi) = Ret order ∧
    length order = n ∧ ∀ i k, mi !! i = Some (Z.of_nat k) → order !! k = Some (Z.of_nat i).
Proof.
  intros Hlen Hperm. destruct (order_nat _ _ Hperm) as (ord&->&Hord).
  cbn [FieldsShape.index_by_increasing_offset FieldsShape.count].
  assert (length ord = n) as Hol by (rewrite Hord; apply length_seq).
  assert (∀ N, (n ≤ N)%nat → ∃ inv, FieldsShape.invert_loop 0 (Z.of_nat <$> ord) (replicate N 0) = Ret inv ∧
            ∀ k i, ord !! k = Some i → inv !! i = Some (Z.of_nat k)) as Hinv.
  { intros N HN. destruct (invert_loop_spec ord 0 (replicate N 0)) as (inv&E&_&Hin&_).
    - by eapply perm_seq_nodup.
    - intros i Hi%(perm_seq_elem _ _ _ Hord). rewrite length_replicate. lia.
    - exists inv. split; [done|]. intros k i Hk. by apply Hin. }
  assert (∃ inv, (let! inverse := if Z.of_nat (length offs) <=? 64
                   then FieldsShape.invert_loop 0 (Z.of_nat <$> ord) (replicate 64 0)
                   else FieldsShape.invert_loop 0 (Z.of_nat <$> ord)
                          (replicate (length (Z.of_nat <$> ord)) 0) in
                  Ret (if Z.of_nat (length offs) <=? 64 then wrap 8 <$> inverse else inverse)) = Ret inv ∧
            ∀ k i, ord !! k = Some i → inv !! i = Some (Z.of_nat k)) as (inv&E&Hin).
  { destruct (Z.leb_spec (Z.of_nat (length offs)) 64).
    - destruct (Hinv 64%nat) as (inv&->&Hin); [lia|]. eexists. split; [done|]. intros k i Hk.
      rewrite list_lookup_fmap, (Hin k i Hk). cbn. f_equal. apply wrap_small.
      apply lookup_lt_Some in Hk. split; lia.
    - destruct (Hinv (length (Z.of_nat <$> ord))) as (inv&->&Hin); [rewrite length_fmap; lia|].
      by eexists. }
  apply obind_ret_inv in E as (inverse&->&[= E]). cbn [obind]. rewrite E. clear E inverse.
  destruct (mapM (λ i, inv !! Z.to_nat i) (seqZ 0 (Z.of_nat (length offs)))) as [order|] eqn:Em.
  - apply mapM_Some in Em. exists order. split; [done|].
    pose proof (Forall2_length Em) as Hl. rewrite length_seqZ in Hl. split; [lia|].
    intros i k Hi. rewrite list_lookup_fmap in Hi. apply fmap_Some in Hi as (k'&Hk'&Hkk).
    assert (k = k') as <- by lia.
    assert (k < n)%nat as Hkn by (apply (perm_seq_elem _ _ _ Hord); by eapply list_elem_of_lookup_2).
    assert (seqZ 0 (Z.of_nat (length offs)) !! k = Some (Z.of_nat k)) as Hs by (apply lookup_seqZ; lia).
    destruct (Forall2_lookup_l _ _ _ _ _ Em Hs) as (y&->&Hy). rewrite Nat2Z.id, (Hin _ _ Hk') in Hy. done.
  - exfalso. apply eq_None_not_Some in Em. apply Em, mapM_is_Some_2, Forall_forall.
    intros z Hz%list_elem_of_In%elem_of_seqZ.
    assert (Z.to_nat z ∈ ord) as [k Hk]%list_elem_of_lookup by (apply (perm_seq_elem _ _ _ Hord); lia).
    change (is_Some (inv !! Z.to_nat z)). rewrite (Hin _ _ Hk). by eexists.
Qed.

(** ** Room for a larger tag *)

Definition movable (f : LayoutS) : Prop := LayoutS.is_zst f = true ∧ abi (align f) = 0.

Section props.
Context `{ShufflePerm} (dl : TargetDataLayout) (Hdl : target_ok dl).

Lemma first_unmovable_ok flds order sa :
  Forall (layout_ok dl) flds → (∀ k i, order !! k = Some i → ∃ f, flds !! Z.to_nat i = Some f) →
  ∃ sa', first_unmovable flds order sa = Ret sa' ∧
    ((sa' = sa ∧ ∀ k i f, order !! k = Some i → flds !! Z.to_nat i = Some f → movable f) ∨
     (∃ k i f, order !! k = Some i ∧ flds !! Z.to_nat i = Some f ∧ sa' = Z.min sa (abi (align f)) ∧
        ∀ k' i' f', (k' < k)%nat → order !! k' = Some i' → flds !! Z.to_nat i' = Some f' → movable f')).
Proof.
  intros Hf. induction order as [|i order IH]; intros Hin; cbn [first_unmovable].
  { exists sa. split; [done|]. left. split; [done|]. intros k i f. by rewrite lookup_nil. }
  destruct (Hin 0%nat i eq_refl) as [f Hi]. rewrite Hi. cbn [unwrap obind].
  pose proof (layout_align_ok dl f (Forall_lookup_1 _ _ _ _ Hf Hi)) as Ha.
  pose proof (align_ok_pow _ Ha). unfold align_ok in Ha. rewrite align_bytes_pow2 by lia.
  destruct (LayoutS.is_zst f) eqn:Ez; cbn [negb orb].
  2: { eexists. split; [done|]. right. exists 0%nat, i, f. split_and!; [done..|]. lia. }
  destruct (Z.eqb_spec (2 ^ abi (align f)) 1) as [E|E]; cbn [negb].
  2: { eexists. split; [done|]. right. exists 0%nat, i, f. split_and!; [done..|]. lia. }
  assert (movable f) as Hm.
  { split; [done|]. destruct (decide (abi (align f) = 0)) as [|Hn]; [done|].
    assert (2 ^ 1 ≤ 2 ^ abi (align f)) by (apply Z.pow_le_mono_r; lia). lia. }
  destruct IH as (sa'&->&IH); [intros k j Hk; by apply (Hin (S k) j)|]. exists sa'. split; [done|].
  destruct IH as [[-> IH]|(k&j&g&Hk&Hj&->&IH)]; [left|right].
  - split; [done|]. intros [|k] j g; cbn; [|by apply IH]. intros [= <-] Hj. congruence.
  - exists (S k), j, g. split_and!; [done..|]. intros [|k'] i' f' Hlt Hk' Hi'; cbn in Hk'.
    + congruence.
    + eapply IH; [|done..]. lia.
Qed.

(** Behind the first field that cannot be moved, which is aligned to [sa'], all
    offsets are at least [2 ^ sa']. *)
Lemma unmovable_offsets flds lo l offs mi order sa :
  Forall (layout_ok dl) flds → struct_placed flds None lo l offs mi → 1 ≤ lo → 0 ≤ sa →
  FieldsShape.index_by_increasing_offset (fields l) = Ret order →
  ∃ sa', first_unmovable flds order sa = Ret sa' ∧ 0 ≤ sa' ≤ sa ∧ (sa' = sa ∨ 2 ^ sa' ≤ size l) ∧
    ∀ i f o, flds !! i = Some f → offs !! i = Some o → movable f ∨ 2 ^ sa' ≤ o.
Proof.
  intros Hf (Efl&Hlen&Hperm&_&Hin&Hord) Hlo Hsa Ho. rewrite Efl in Ho.
  destruct (index_by_increasing_offset_ok offs mi _ Hlen Hperm) as (order'&E&Hol&Hoi).
  rewrite Ho in E. injection E as <-.
  assert (length mi = length flds) as Hml by (rewrite Hperm, length_seqZ; lia).
  assert (∀ i f, flds !! i = Some f → ∃ k, mi !! i = Some (Z.of_nat k)) as Hmi.
  { intros i f Hi. destruct (lookup_lt_is_Some_2 mi i) as [z Hz]; [rewrite Hml; by eapply lookup_lt_Some|].
    exists (Z.to_nat z). rewrite Hz. f_equal.
    assert (z ∈ mi) as Hz' by (by eapply list_elem_of_lookup_2). rewrite Hperm, elem_of_seqZ in Hz'. lia. }
  assert (∀ k i, order !! k = Some i → ∃ i', i = Z.of_nat i' ∧ mi !! i' = Some (Z.of_nat k) ∧
            ∃ f, flds !! i' = Some f) as Hinv.
  { intros k i Hk. assert (Z.of_nat k ∈ mi) as Hkm.
    { rewrite Hperm, elem_of_seqZ. apply lookup_lt_Some in Hk. lia. }
    apply list_elem_of_lookup in Hkm as [i' Hi']. exists i'. pose proof (Hoi _ _ Hi') as E.
    rewrite Hk in E. injection E as ->. split_and!; [done..|]. apply lookup_lt_is_Some_2.
    rewrite <- Hml. by eapply lookup_lt_Some. }
  destruct (first_unmovable_ok flds order sa Hf) as (sa'&->&Hcase).
  { intros k i Hk. destruct (Hinv k i Hk) as (i'&->&_&Hi'). by rewrite Nat2Z.id. }
  exists sa'. split; [done|]. destruct Hcase as [[-> Hall]|(k&i&f&Hk&Hi&->&Hbefore)].
  - split_and!; [done..|by left|]. intros i f o Hi _. left. destruct (Hmi i f Hi) as [k Hk].
    eapply (Hall k (Z.of_nat i)); [by apply Hoi|by rewrite Nat2Z.id].
  - destruct (Hinv k i Hk) as (i0&->&Hm0&_). rewrite Nat2Z.id in Hi.
    pose proof (Forall_lookup_1 _ _ _ _ Hf Hi) as Hfok. pose proof (layout_align_ok dl f Hfok) as [Ha1 Ha2].
    destruct (lookup_lt_is_Some_2 offs i0) as [o0 Ho0]; [rewrite Hlen; by eapply lookup_lt_Some|].
    destruct (Hin i0 f o0 Hi Ho0) as (Hlo0&Hhi0&Hdiv&_). cbn in Hdiv.
    pose proof (size_ok dl f Hfok). apply Z.divide_pos_le in Hdiv; [|lia].
    assert (2 ^ Z.min sa (abi (align f)) ≤ 2 ^ abi (align f)) by (apply Z.pow_le_mono_r; lia).
    change (field_align None f) with (abi (align f)) in Hdiv.
    split_and!; [lia|lia|right; lia|]. intros j g o Hj Hoj. destruct (Hmi j g Hj) as [kj Hkj].
    destruct (decide (kj < k)%nat) as [Hlt|Hge].
    + left. eapply (Hbefore kj (Z.of_nat j)); [done|by apply Hoi|by rewrite Nat2Z.id].
    + right. destruct (decide (kj = k)) as [->|Hne].
      * pose proof (Hoi _ _ Hkj) as E. pose proof (Hoi _ _ Hm0) as E0. rewrite E in E0.
        assert (j = i0) as -> by (injection E0; lia).
        assert (o = o0) as -> by (pose proof (eq_trans (eq_sym Ho0) Hoj) as [= ->]; done). lia.
      * pose proof (Hord i0 j f o0 o _ _ Hi Ho0 Hoj Hm0 Hkj ltac:(lia)). lia.
Qed.

Section variants.
Variables (repr : ReprOptions) (ps : Size) (pa : Align).
Hypotheses (Hrepr : repr_ok repr) (Hpack : repr_pack repr = None) (Hps : 1 ≤ ps ≤ 16) (Hpa : align_ok pa).

Lemma prefix_start flds : ps ≤ struct_start dl flds repr (Prefixed ps pa).
Proof.
  unfold struct_start, start_placing. rewrite Hpack. cbn. pose proof (align_ok_pow _ Hpa).
  unfold align_ok in Hpa. destruct (align_to_least ps pa) as (_&?&_); lia.
Qed.

(** What the loop over the variants has merged so far. *)
Record tagging_ok (t : tagging) : Prop := {
  tk_align : align_ok (abi (mg_align (tg_merged t)));
  tk_size : 0 ≤ tg_size t ≤ 2 ^ 48;
  tk_start : 0 ≤ tg_start_align t;
  tk_room : tg_start_align t = 8 ∨ 2 ^ tg_start_align t ≤ tg_size t;
}.

Definition tagging_le (t t' : tagging) : Prop :=
  tg_start_align t' ≤ tg_start_align t ∧ tg_size t ≤ tg_size t' ∧
  abi (mg_align (tg_merged t)) ≤ abi (mg_align (tg_merged t')).

(** A variant behind the prefix; what is not behind [2 ^ start_align] can be moved. *)
Definition behind (t : tagging) (j : Z) (flds : list LayoutS) (l : LayoutS) : Prop :=
  layout_ok dl l ∧ variants l = Single j ∧ abi (align l) ≤ abi (mg_align (tg_merged t)) ∧
  ps ≤ size l ≤ tg_size t ∧
  Abi.is_uninhabited (layout_abi l) = existsb (λ f, Abi.is_uninhabited (layout_abi f)) flds ∧
  ∃ offs mi, fields l = ArbitraryShape offs mi ∧ mi ≡ₚ seqZ 0 (Z.of_nat (length flds)) ∧
    fields_placed None flds offs (size l) ∧
    ∀ i f o, flds !! i = Some f → offs !! i = Some o →
      ps ≤ o ∧ (movable f ∨ 2 ^ tg_start_align t ≤ o).

Lemma behind_mono t t' j flds l :
  0 ≤ tg_start_align t' → tagging_le t t' → behind t j flds l → behind t' j flds l.
Proof.
  intros H0' (Hs&Hz&Ha) (Hok&Hidx&Hal&Hsz&Hu&offs&mi&Efl&Hmi&Hpl&Hoff).
  split_and!; [done|done|lia|lia|lia|done|]. exists offs, mi. split_and!; [done..|].
  intros i f o Hf Ho. destruct (Hoff i f o Hf Ho) as [? [?|?]]; (split; [done|]); [by left|right].
  assert (2 ^ tg_start_align t' ≤ 2 ^ tg_start_align t) by (apply Z.pow_le_mono_r; lia). lia.
Qed.

Lemma behind_variant flds l j order sa :
  Forall (layout_ok dl) flds → struct_result dl flds repr (Prefixed ps pa) l → 0 ≤ sa →
  FieldsShape.index_by_increasing_offset (fields l) = Ret order →
  ∃ sa', first_unmovable flds order sa = Ret sa' ∧ 0 ≤ sa' ≤ sa ∧ (sa' = sa ∨ 2 ^ sa' ≤ size l) ∧
    (∀ t, tg_start_align t = sa' → size l ≤ tg_size t → abi (align l) ≤ abi (mg_align (tg_merged t)) →
     behind t j flds (with_index j l)).
Proof.
  intros Hf (Hok&(offs&mi&Hpl&_)&_&Hu) Hsa Hord. rewrite Hpack in Hpl. pose proof (prefix_start flds) as Hst.
  destruct (unmovable_offsets flds _ l offs mi order sa Hf Hpl ltac:(lia) Hsa Hord)
    as (sa'&Hfirst&Hle&Hroom&Hoff). exists sa'. split_and!; [done|lia|lia|done|].
  intros t Et Hsz Hal. pose proof Hpl as (Efl&_&Hmi&[_ Hlo]&Hin&_).
  split_and!; [by destruct Hok|done|done|cbn; lia|done|done|].
  exists offs, mi. split_and!; [done|done|eapply struct_placed_fields; [done|lia]|].
  intros i f o Hi Ho. rewrite Et. split; [|by eapply Hoff].
  destruct (Hin i f o Hi Ho) as (?&_). lia.
Qed.

Lemma tagged_variant_layouts_ok vs i t :
  variants_fit dl repr (Prefixed ps pa) vs → tagging_ok t →
  ∃ ls t', tagged_variant_layouts dl repr ps pa i vs t = Ret (Some (ls, t')) ∧ tagging_ok t' ∧
    tagging_le t t' ∧ each (behind t') i vs ls ∧
    (tg_size t' = tg_size t ∨ ∃ v, v ∈ vs ∧ variant_size dl repr (Prefixed ps pa) v (tg_size t')).
Proof.
  intros Hfit. revert i t. induction Hfit as [|flds vs [Hf Hfits] Hfit IH]; intros i t Ht;
    cbn [tagged_variant_layouts].
  { exists [], t. do 2 (split; [done|]). split; [split_and!; lia|]. split; [done|by left]. }
  assert (kind_ok (Prefixed ps pa)) as Hk by (split; [lia|done]).
  destruct (univariant_fits dl Hdl flds repr _ Hf Hrepr Hk Hfits) as (l&E&Hl). rewrite E.
  unfold obind_opt at 1. cbn [obind with_index fields].
  pose proof Hl as (Hok&(offs&mi&(Efl&Hlen&Hmi&_)&_)&_&_).
  destruct (index_by_increasing_offset_ok offs mi _ Hlen Hmi) as (order&Hord&_).
  rewrite <- Efl in Hord. rewrite Hord. cbn [obind].
  pose proof Ht as [Hal Hsz Hst Hroom].
  destruct (behind_variant flds l i order (tg_start_align t) Hf Hl Hst Hord)
    as (sa'&->&Hle&Hr&Hb). cbn [obind].
  set (t1 := mkTagging sa' _ _). pose proof (layout_align_ok dl l Hok) as Hla. pose proof (size_ok dl l Hok).
  assert (tagging_ok t1) as Ht1.
  { split; cbn; [unfold align_ok in *; lia|lia|lia|]. destruct Hr as [->|?]; [|right; lia].
    destruct Hroom; [by left|right; lia]. }
  destruct (IH (i + 1) t1 Ht1) as (ls&t'&->&Ht'&Hle'&He&Hmax). unfold obind_opt. cbn [obind].
  exists (with_index i l :: ls), t'. do 2 (split; [done|]). split; [|split].
  { destruct Hle' as (?&?&?). subst t1. cbn in *. split_and!; lia. }
  2: { destruct Hmax as [->|(v&Hv&Hvs)]; [|right; exists v; split; [by right|done]]. cbn.
       destruct (Z.max_spec (tg_size t) (size l)) as [[_ ->]|[_ ->]]; [right|by left].
       exists flds. split; [by left|]. by exists l. }
  split; [|done]. apply (behind_mono t1); [apply Ht'|done|].
  apply Hb; cbn; [done|lia|lia].
Qed.

(** A variant of a tagged enum of size [sz] and alignment [al]: its fields leave
    the tag alone. *)
Definition tagged_variant (sz : Size) (al : Align) (tag_size : Size) (j : Z) (flds : list LayoutS)
    (l : LayoutS) : Prop :=
  ∃ offs, variant_ok None sz al j flds l offs ∧ fields_avoid flds offs 0 tag_size.

Lemma unpatched_ok t sz j flds l :
  tg_size t ≤ sz → behind t j flds l → tagged_variant sz (abi (mg_align (tg_merged t))) ps j flds l.
Proof.
  intros Hsz (Hok&Hidx&Hal&Hl&Hu&offs&mi&Efl&Hmi&Hpl&Hoff). exists offs. split.
  - eapply variant_within; try done. lia.
  - intros i f o b Hf Ho Hb. destruct (Hoff i f o Hf Ho) as [? _]. lia.
Qed.

Lemma patch_offsets_ok (flds : list LayoutS) (offs : list Size) (new : Size) :
  length offs = length flds → (∀ i f o, flds !! i = Some f → offs !! i = Some o → ps ≤ o) →
  ∃ offs', mapM_outcome (λ i : Size, if i <=? ps then rassert (i =? ps) (Ret new) else Ret i) offs
           = Ret offs' ∧ length offs' = length flds ∧
    ∀ i f o', flds !! i = Some f → offs' !! i = Some o' →
      ∃ o, offs !! i = Some o ∧ o' = if o <=? ps then new else o.
Proof.
  intros Hlen Hge. set (g := λ i : Size, _).
  assert (∀ i f o, flds !! i = Some f → offs !! i = Some o → g o = Ret (if o <=? ps then new else o)) as Hg.
  { intros i f o Hf Ho. pose proof (Hge i f o Hf Ho). unfold g. destruct (Z.leb_spec o ps); [|done].
    by destruct (Z.eqb_spec o ps); [|lia]. }
  assert (∀ i o, offs !! i = Some o → ∃ f, flds !! i = Some f) as Hfo.
  { intros i o Ho. apply lookup_lt_is_Some_2. rewrite <- Hlen. by eapply lookup_lt_Some. }
  destruct (mapM_outcome_ret g offs) as (offs'&E&Hl').
  { apply Forall_lookup_2. intros i o Ho. destruct (Hfo i o Ho) as [f Hf]. eexists. by eapply Hg. }
  exists offs'. split; [done|]. split; [congruence|]. intros i f o' Hf Ho'.
  destruct (lookup_lt_is_Some_2 offs i) as [o Ho]; [rewrite Hlen; by eapply lookup_lt_Some|].
  exists o. split; [done|]. destruct (mapM_outcome_lookup _ _ _ _ _ E Ho) as (y&Hy&Hgy).
  rewrite (Hg i f o Hf Ho) in Hgy. pose proof (eq_trans (eq_sym Ho') Hy) as [= ->]. by injection Hgy as <-.
Qed.

Lemma patch_variant_ok t sz new j flds l :
  0 ≤ tg_start_align t → new = 2 ^ tg_start_align t → ps < new ≤ sz → tg_size t ≤ sz →
  behind t j flds l →
  ∃ l', patch_variant ps new l = Ret l' ∧
        tagged_variant sz (abi (mg_align (tg_merged t))) new j flds l'.
Proof.
  intros Hst Enew Hnew Hsz (Hok&Hidx&Hal&Hl&Hu&offs&mi&Efl&Hmi&Hpl&Hoff). unfold patch_variant. rewrite Efl.
  pose proof Hpl as (Hlen&Hin&Hdis).
  destruct (patch_offsets_ok flds offs new Hlen) as (offs'&->&Hlen'&Hpat).
  { intros i f o Hf Ho. by apply (Hoff i f o). }
  cbn [obind]. eexists. split; [done|]. exists offs'.
  (* a field that is moved has no bytes and no alignment; the others stay *)
  assert (∀ i f o', flds !! i = Some f → offs' !! i = Some o' →
    (size f = 0 ∧ abi (align f) = 0 ∧ o' = new) ∨
    (offs !! i = Some o' ∧ (movable f ∨ new ≤ o'))) as Hcase.
  { intros i f o' Hf Ho'. destruct (Hpat i f o' Hf Ho') as (o&Ho&->).
    destruct (Hoff i f o Hf Ho) as [_ Hm]. rewrite <- Enew in Hm. destruct (Z.leb_spec o ps).
    - left. destruct Hm as [[Hz ?]|?]; [|lia]. apply zst_size in Hz. done.
    - right. done. }
  assert (∀ i f o' b, flds !! i = Some f → offs' !! i = Some o' → o' ≤ b < o' + size f →
    offs !! i = Some o' ∧ new ≤ o') as Hbyte.
  { intros i f o' b Hf Ho' Hb. destruct (Hcase i f o' Hf Ho') as [(?&_)|[Ho [[Hz _]|?]]]; [lia| |done].
    apply zst_size in Hz. lia. }
  split; [split; cbn; try done|].
  - by exists mi.
  - split; [done|]. split.
    + intros i f o' Hf Ho'. destruct (Hcase i f o' Hf Ho') as [(Hz&Ha&->)|[Ho _]].
      * split_and!; [lia|lia|]. change (field_align None f) with (abi (align f)). rewrite Ha. apply Z.divide_1_l.
      * destruct (Hin i f o' Hf Ho) as (?&?&?). split_and!; [lia|lia|done].
    + intros i k f g o p b Hf Ho Hg Hp Hb1 Hb2.
      destruct (Hbyte i f o b Hf Ho Hb1) as [Ho' _]. destruct (Hbyte k g p b Hg Hp Hb2) as [Hp' _].
      by eapply Hdis.
  - intros i f o Hf Ho Hsf. destruct (Hbyte i f o o Hf Ho ltac:(lia)) as [Ho' _].
    destruct (Hin i f o Hf Ho') as (?&?&_). destruct (Z.leb_spec (size l) ps); lia.
  - destruct (Z.leb_spec (size l) ps); lia.
  - intros i f o b Hf Ho Hb. destruct (Hbyte i f o b Hf Ho Hb). lia.
Qed.

Lemma adjust_variant_ok a sz al pr tag_size j flds l :
  Abi.is_uninhabited a = false →
  tagged_variant sz al tag_size j flds l →
  tagged_variant sz al tag_size j flds (adjust_variant a sz (mkAlign al pr) l).
Proof.
  intros Ha (offs&[Hidx Hfl Hpl Hins Hsz Hal Hu]&Hav). exists offs. split; [|done].
  unfold adjust_variant. destruct (layout_abi l) eqn:El; try by split; rewrite ?El.
  destruct (_ <? _); [|by split; rewrite ?El]. split; cbn; try done; [|lia|lia|].
  - intros i f o Hf Ho Hs. specialize (Hins i f o Hf Ho Hs). lia.
  - by rewrite Ha.
Qed.
End variants.

(** ** The ABI of the enum *)

Lemma scalar_unit_ok p : ∃ r, scalar_unit dl p = Ret (Initialized p r) ∧ scalar_ok dl (Initialized p r).
Proof.
  pose proof (primitive_size_small dl Hdl p) as Hs. unfold scalar_unit.
  destruct (small_size_bits _ Hs) as [-> _]. cbn [obind]. pose proof Hs as [H1 H2].
  destruct (Z.leb_spec (Primitive.size p dl * 8) 128); [|lia]. cbn [rassert].
  unfold WrappingRange.full. rewrite unsigned_int_max_value by done. cbn [obind].
  eexists. split; [done|]. pose proof (pow2_pos (Primitive.size p dl * 8) ltac:(lia)).
  split; split; cbn; lia.
Qed.

Lemma common_primitive_ok sz al ts j vars ls common init :
  each (tagged_variant sz al ts) j vars ls →
  ∃ c b, common_primitive (zip vars ls) common init = Ret (c, b).
Proof.
  revert j ls common init. induction vars as [|v vars IH]; intros j [|l ls] common init He; try done;
    cbn [zip_with common_primitive]; [by do 2 eexists|].
  destruct He as [(offs&[_ (mi&->&_) _ _ _ _ _]&_) He].
  destruct (List.filter _ _) as [|[f o] [|? ?]]; [by eapply IH| |by do 2 eexists].
  destruct (layout_abi f); try by do 2 eexists.
  destruct common; [|by eapply IH]. destruct (negb _); [by do 2 eexists|by eapply IH].
Qed.

Lemma tagged_abi_ok sz al ts vars ls tag esz eal :
  each (tagged_variant sz al ts) 0 vars ls → scalar_ok dl tag →
  ∃ a, tagged_abi dl vars ls tag esz eal = Ret a ∧ abi_ok dl a.
Proof.
  intros He Ht. unfold tagged_abi. destruct (all_uninhabited ls); [by eexists|].
  destruct (_ =? _); [by eexists|].
  destruct (common_primitive_ok sz al ts 0 vars ls None true He) as (c&b&->). cbn [obind].
  destruct c as [[p o]|]; [|by eexists].
  assert (∃ s, (if b then scalar_unit dl p else Ret (UnionScalar p)) = Ret s ∧ scalar_ok dl s) as (s&->&Hs).
  { destruct b; [|by eexists]. destruct (scalar_unit_ok p) as (r&?&?). by eexists. }
  cbn [obind]. destruct (scalar_pair_ok dl Hdl tag s Ht Hs) as (pl&o'&->&_&Efl&Eabi&_). cbn [obind].
  rewrite Efl. eexists. split; [done|]. rewrite Eabi. by destruct (_ && _).
Qed.

(** What the last part of the tagged layout returns. *)
Lemma tagged_finish_ok vars ls t sz ity signed min max :
  tagging_ok t → each (tagged_variant sz (abi (mg_align (tg_merged t))) (Integer.size ity)) 0 vars ls →
  Integer.size ity ≤ sz ≤ 2 ^ 48 →
  ∃ e ls', tagged_finish dl vars ls t sz ity signed min max = Ret (mkTmp e ls') ∧ layout_ok dl e ∧
    variants e = Multiple (Initialized (Int ity signed)
                   (mkRange (min mod 2 ^ int_bits ity) (max mod 2 ^ int_bits ity))) Direct 0 [] ∧
    fields e = ArbitraryShape [0] [0] ∧ size e = sz ∧ align e = mg_align (tg_merged t) ∧
    each (tagged_variant sz (abi (mg_align (tg_merged t))) (Integer.size ity)) 0 vars ls'.
Proof.
  intros Ht He Hsz. unfold tagged_finish.
  pose proof (primitive_size_small dl Hdl (Int ity signed)) as Hs. cbn in Hs.
  rewrite unsigned_int_max_value by done. cbn [obind]. fold (int_bits ity). pose proof Hs as [H1 H2].
  assert (0 ≤ int_bits ity ≤ 128) as Hw by (unfold int_bits; lia).
  unfold of_signed. rewrite !land_max by done. set (tag := Initialized _ _).
  assert (scalar_ok dl tag) as Hts.
  { split; cbn; fold (int_bits ity); apply Z.mod_pos_bound, pow2_pos; lia. }
  destruct (tagged_abi_ok _ _ _ vars ls tag sz (mg_align (tg_merged t)) He Hts) as (a&->&Ha). cbn [obind].
  destruct (from_scalar_ret dl Hdl Size.ZERO tag Hts ltac:(done)) as (ln&->&Hln). cbn [obind].
  do 2 eexists. split; [done|]. cbn [variants fields size align]. split_and!; try done.
  - split; cbn; [lia|apply Ht| |done]. intros n E. eapply niche_in_mono; [by apply Hln|].
    unfold Size.ZERO, Scalar.size. cbn. lia.
  - destruct (mg_align (tg_merged t)) as [al pr] eqn:Eal. cbn [abi] in *.
    destruct a; try done; (eapply each_fmap; [|exact He]); intros; by apply adjust_variant_ok.
Qed.

(** ** The range of the discriminants *)

Definition inhabited (flds : list LayoutS) : Prop :=
  existsb (λ f, Abi.is_uninhabited (layout_abi f)) flds = false.

Definition empty_range : Z * Z := (2 ^ 127 - 1, - 2 ^ 127).

Section range.
Variables (vars : list (list LayoutS)) (signed : bool) (bits lo hi : Z).
Hypotheses (Hlo : - 2 ^ 127 ≤ lo) (Hhi : hi ≤ 2 ^ 127 - 1).

Definition range_val (val : Z) : Z := if signed then sign_extend_discr bits val else val.
Definition range_in (r : Z * Z) : Prop := r = empty_range ∨ lo ≤ fst r ∧ fst r ≤ snd r ∧ snd r ≤ hi.

Lemma discr_range_ok L r :
  (∀ i val, (i, val) ∈ L → (∃ v, vars !! Z.to_nat i = Some v) ∧ lo ≤ range_val val ≤ hi) →
  range_in r →
  ∃ r', discr_range vars signed bits L r = Ret r' ∧ range_in r' ∧
    (r ≠ empty_range → r' ≠ empty_range ∧ fst r' ≤ fst r ∧ snd r ≤ snd r') ∧
    ∀ i val v, (i, val) ∈ L → vars !! Z.to_nat i = Some v → inhabited v →
      r' ≠ empty_range ∧ fst r' ≤ range_val val ≤ snd r'.
Proof.
  revert r. induction L as [|[i val] L IH]; intros [a b] HL Hr; cbn [discr_range].
  { exists (a, b). split_and!; [done|done| |]; [intros; split_and!; [done|lia|lia]|].
    intros i val v Hin. by apply elem_of_nil in Hin. }
  destruct (HL i val ltac:(left)) as [[v Hv] Hval]. rewrite Hv. cbn [unwrap obind].
  assert (∀ i val, (i, val) ∈ L → (∃ v, vars !! Z.to_nat i = Some v) ∧ lo ≤ range_val val ≤ hi) as HL'.
  { intros i' val' Hin. apply HL. by right. }
  destruct (existsb _ v) eqn:Eu.
  - destruct (IH (a, b) HL' Hr) as (r'&->&Hr'&Hmono&Hall). exists r'. split_and!; [done..|].
    intros i' val' v' [[= -> ->]|Hin]%elem_of_cons Hv' Hinh; [|by eapply Hall].
    unfold inhabited in Hinh. simplify_eq. congruence.
  - fold (range_val val). set (r1 := (_, _)).
    assert (lo ≤ fst r1 ∧ fst r1 ≤ range_val val ≤ snd r1 ∧ snd r1 ≤ hi ∧ r1 ≠ empty_range ∧
            ((a, b) ≠ empty_range → fst r1 ≤ a ∧ b ≤ snd r1)) as (H1'&H2'&H3'&Hne&H4').
    { assert (∀ x y : Z, (x, y) = empty_range → x = 2 ^ 127 - 1 ∧ y = - 2 ^ 127) as Hinj
        by (by intros x y [= -> ->]).
      assert (r1 = empty_range → fst r1 = 2 ^ 127 - 1 ∧ snd r1 = - 2 ^ 127) as Hr1 by apply Hinj.
      destruct Hr as [[-> ->]%Hinj|(?&?&?)]; subst r1; cbn [fst snd] in *.
      - destruct (Z.ltb_spec (range_val val) (2 ^ 127 - 1)), (Z.ltb_spec (- 2 ^ 127) (range_val val));
          split_and!; try lia; try (intros E; specialize (Hr1 E); lia); by intros [].
      - destruct (Z.ltb_spec (range_val val) a), (Z.ltb_spec b (range_val val));
          split_and!; try lia; intros E; specialize (Hr1 E); lia. }
    destruct (IH r1 HL') as (r'&->&Hr'&Hmono&Hall); [right; lia|].
    destruct (Hmono Hne) as (Hne'&Hm1&Hm2). exists r'. split_and!; [done|done| |].
    + intros Hab. destruct (H4' Hab). cbn [fst snd]. split_and!; [done|lia|lia].
    + intros i' val' v' [[= -> ->]|Hin]%elem_of_cons Hv' Hinh; [|by eapply Hall].
      split; [done|lia].
Qed.
End range.

(** ** The integer of the tag *)

Lemma int_bits_bounds i : 8 ≤ int_bits i ≤ 128 ∧ int_bits i = Integer.size i * 8 ∧ small_size (Integer.size i).
Proof. by destruct i. Qed.

Lemma integer_ltb_bits a b : integer_ltb a b = (int_bits a <? int_bits b).
Proof. by destruct a, b. Qed.

Lemma integer_max_bits a b : int_bits (integer_max a b) = Z.max (int_bits a) (int_bits b).
Proof. by destruct a, b. Qed.

Lemma from_attr_ret ity : ∃ i, from_attr dl ity = Ret i.
Proof.
  destruct ity as [s|i s]; [|by eexists]. destruct (bound_ok dl Hdl) as (b&Hb&_).
  cbn. unfold ptr_sized_integer. unfold obj_size_bound in Hb. destruct (Size.bits _) as [bits|]; [|done].
  cbn [obind] in *. destruct (bits =? 16), (bits =? 32), (bits =? 64); (discriminate Hb || by eexists).
Qed.

Section discr.
Variables (repr : ReprOptions) (dity : Integer).
Hypothesis Hdity : from_attr dl (ReprOptions.discr_type repr) = Ret dity.

Definition discr_signed : bool := IntegerType.is_signed (ReprOptions.discr_type repr).

(** The discriminant with the bits [d], as an [i128] *)
Definition discr_value (d : Z) : Z :=
  if discr_signed then to_signed (int_bits dity) d else to_signed 128 d.
Definition discr_lo : Z :=
  if discr_signed then - 2 ^ (int_bits dity - 1) else if int_bits dity =? 128 then - 2 ^ 127 else 0.
Definition discr_hi : Z :=
  if discr_signed then 2 ^ (int_bits dity - 1) - 1
  else if int_bits dity =? 128 then 2 ^ 127 - 1 else 2 ^ int_bits dity - 1.

Lemma discr_bounds_i128 : - 2 ^ 127 ≤ discr_lo ≤ 0 ∧ 0 ≤ discr_hi ≤ 2 ^ 127 - 1.
Proof. unfold discr_lo, discr_hi. destruct dity, discr_signed; split; split; by vm_compute. Qed.

Lemma of_to_signed w d : 0 < w → is_uint w d → of_signed w (to_signed w d) = d.
Proof.
  intros Hw Hd. unfold of_signed, to_signed. destruct (_ <? _); [by apply wrap_small|].
  unfold wrap. rewrite <- Zminus_mod_idemp_r, Z.mod_same, Z.sub_0_r by (pose proof (pow2_pos w); lia).
  by apply Z.mod_small.
Qed.

Lemma uint_widen d : is_uint (int_bits dity) d → is_uint 128 d.
Proof.
  intros [H1 H2]. split; [done|]. assert (2 ^ int_bits dity ≤ 2 ^ 128); [|lia].
  apply Z.pow_le_mono_r; [lia|]. apply int_bits_bounds.
Qed.

Lemma range_val_discr d :
  is_uint (int_bits dity) d →
  range_val discr_signed (int_bits dity) (to_signed 128 d) = discr_value d.
Proof.
  intros Hd. unfold range_val, discr_value. destruct discr_signed; [|done].
  destruct (int_bits_bounds dity) as (Hb&Eb&Hs). unfold sign_extend_discr.
  rewrite of_to_signed by (done || by apply uint_widen).
  assert (wsub 64 128 (int_bits dity) = 128 - int_bits dity) as -> by (apply wrap_small; split; lia).
  rewrite Eb in *. pose proof (shift_sign_extend (Integer.size dity) d Hs) as E.
  unfold wshl in *. rewrite Z.mod_mod by lia. rewrite E. by rewrite Z.mod_small.
Qed.

Lemma discr_value_bounds d : is_uint (int_bits dity) d → discr_lo ≤ discr_value d ≤ discr_hi.
Proof.
  intros Hd. pose proof (uint_widen d Hd) as Hd'. unfold discr_value, discr_lo, discr_hi.
  destruct (int_bits_bounds dity) as (Hb&_&_).
  assert (∀ w, 0 < w → is_uint w d → - 2 ^ (w - 1) ≤ to_signed w d ≤ 2 ^ (w - 1) - 1) as Hsg.
  { intros w Hw [H1 H2]. assert (2 ^ w = 2 * 2 ^ (w - 1)) as E
      by (rewrite <- Z.pow_succ_r by lia; f_equal; lia).
    unfold to_signed. destruct (Z.ltb_spec d (2 ^ (w - 1))); lia. }
  destruct discr_signed; [apply Hsg; [lia|done]|].
  destruct (Z.eqb_spec (int_bits dity) 128) as [E|E]; [apply (Hsg 128); [lia|done]|].
  assert (int_bits dity ≤ 127) as Hle by (destruct dity; cbn in *; lia).
  assert (2 ^ int_bits dity ≤ 2 ^ 127) by (apply Z.pow_le_mono_r; lia). destruct Hd as [Hd1 Hd2].
  unfold to_signed. change (128 - 1) with 127. destruct (Z.ltb_spec d (2 ^ 127)); lia.
Qed.

(** The discriminants as [layout_of_struct_or_enum] gets them *)
Definition discriminants_of (ds : list Z) : list (Z * Z) := enumerate (to_signed 128 <$> ds).

Lemma enum_range_ok vars ds :
  length ds = length vars → Forall (is_uint (int_bits dity)) ds →
  ∃ min max, enum_range dl repr vars (discriminants_of ds) = Ret (min, max) ∧
    discr_lo ≤ min ≤ max ∧ max ≤ discr_hi ∧
    ∀ k v d, vars !! k = Some v → ds !! k = Some d → inhabited v → min ≤ discr_value d ≤ max.
Proof.
  intros Hlen Hds. unfold enum_range. rewrite Hdity. cbn [obind].
  destruct (int_bits_bounds dity) as (Hb&Eb&Hs). destruct (small_size_bits _ Hs) as [-> _]. cbn [obind].
  rewrite <- Eb. fold discr_signed empty_range. pose proof discr_bounds_i128 as [Hlo Hhi].
  assert (∀ k d, ds !! k = Some d → (Z.of_nat k, to_signed 128 d) ∈ discriminants_of ds) as Hin.
  { intros k d Hk. apply enumerate_elem. rewrite list_lookup_fmap, Hk. done. }
  destruct (discr_range_ok vars discr_signed (int_bits dity) discr_lo discr_hi (proj1 Hlo) (proj2 Hhi)
              (discriminants_of ds) empty_range) as (r&->&Hr&_&Hall).
  { intros i val [k (x&Hx&[= -> ->])%enumerate_lookup]%list_elem_of_lookup. rewrite Nat2Z.id.
    rewrite list_lookup_fmap in Hx. apply fmap_Some in Hx as (d&Hd&->).
    pose proof (Forall_lookup_1 _ _ _ _ Hds Hd) as Hu. rewrite range_val_discr by done.
    split; [|by apply discr_value_bounds]. apply lookup_lt_is_Some_2. rewrite <- Hlen.
    by eapply lookup_lt_Some. }
  { by left. }
  cbn [obind]. assert (∀ k v d, vars !! k = Some v → ds !! k = Some d → inhabited v →
    r ≠ empty_range ∧ fst r ≤ discr_value d ≤ snd r) as Hall'.
  { intros k v d Hv Hd Hi. pose proof (Forall_lookup_1 _ _ _ _ Hds Hd) as Hu.
    rewrite <- range_val_discr by done. apply (Hall (Z.of_nat k) _ v); [by apply Hin| |done].
    by rewrite Nat2Z.id. }
  case_bool_decide as Er.
  - exists 0, 0. split_and!; [done|lia..|]. intros k v d Hv Hd Hi. by destruct (Hall' k v d Hv Hd Hi).
  - destruct r as [a b]. destruct Hr as [|(?&?&?)]; [done|]. cbn in *. exists a, b.
    split_and!; [done|lia..|]. intros k v d Hv Hd Hi. by destruct (Hall' k v d Hv Hd Hi).
Qed.

(** The values from [min] to [max] can be told apart in a tag of [w] bits, and
    widening it as its sign says gives them back. *)
Definition tag_fits (w : Z) (sg : bool) (min max : Z) : Prop :=
  max - min < 2 ^ w ∧
  if sg then - 2 ^ (w - 1) ≤ min ∧ max < 2 ^ (w - 1) else w = 128 ∨ 0 ≤ min ∧ max < 2 ^ w.

Lemma tag_fits_signed w min max :
  0 < w → - 2 ^ (w - 1) ≤ min ≤ max → max < 2 ^ (w - 1) → tag_fits w true min max.
Proof.
  intros Hw Hmin Hmax. assert (2 ^ w = 2 * 2 ^ (w - 1)) as E
    by (rewrite <- Z.pow_succ_r by lia; f_equal; lia). split; [lia|]. lia.
Qed.

Lemma tag_fits_unsigned w min max : 0 ≤ min ≤ max → max < 2 ^ w → tag_fits w false min max.
Proof. intros. split; [lia|]. right. lia. Qed.

Lemma tag_fits_wider w w' sg min max :
  0 < w ≤ w' → w' ≤ 128 → min ≤ max → tag_fits w sg min max → tag_fits w' sg min max.
Proof.
  intros Hw Hw' Hle [Hd Hf]. assert (2 ^ w ≤ 2 ^ w') by (apply Z.pow_le_mono_r; lia).
  assert (2 ^ (w - 1) ≤ 2 ^ (w' - 1)) by (apply Z.pow_le_mono_r; lia).
  split; [lia|]. destruct sg; [lia|]. destruct Hf as [->|?]; [left; lia|right; lia].
Qed.

Lemma signed_fit_ok min max :
  - 2 ^ 127 ≤ min ≤ max → max ≤ 2 ^ 127 - 1 →
  let i := integer_max (Integer.fit_signed min) (Integer.fit_signed max) in
  - 2 ^ (int_bits i - 1) ≤ min ∧ max < 2 ^ (int_bits i - 1) ∧
  ∀ i', - 2 ^ (int_bits i' - 1) ≤ min → max < 2 ^ (int_bits i' - 1) → int_bits i ≤ int_bits i'.
Proof.
  intros Hmin Hmax i.
  destruct (proj1 (fit_narrowest_ok min) ltac:(lia)) as [Ha Hal].
  destruct (proj1 (fit_narrowest_ok max) ltac:(lia)) as [Hb Hbl].
  destruct (int_bits_bounds (Integer.fit_signed min)) as (?&_).
  destruct (int_bits_bounds (Integer.fit_signed max)) as (?&_).
  unfold i. rewrite integer_max_bits. set (a := int_bits (Integer.fit_signed min)) in *.
  set (b := int_bits (Integer.fit_signed max)) in *.
  assert (2 ^ (a - 1) ≤ 2 ^ (Z.max a b - 1)) by (apply Z.pow_le_mono_r; lia).
  assert (2 ^ (b - 1) ≤ 2 ^ (Z.max a b - 1)) by (apply Z.pow_le_mono_r; lia).
  split_and!; [lia|lia|]. intros i' H1' H2'. specialize (Hal i' ltac:(lia)). specialize (Hbl i' ltac:(lia)). lia.
Qed.

Lemma unsigned_fit_ok min max :
  0 ≤ min ≤ max → max ≤ 2 ^ 127 - 1 →
  let i := Integer.fit_unsigned (Z.max (of_signed 128 min) (of_signed 128 max)) in
  max < 2 ^ int_bits i ∧ ∀ i', max < 2 ^ int_bits i' → int_bits i ≤ int_bits i'.
Proof.
  intros Hmin Hmax i. unfold i, of_signed. rewrite !wrap_small by (split; lia).
  replace (Z.max min max) with max by lia. destruct (proj2 (fit_narrowest_ok max)) as [[_ Ha] Hal]; [split; lia|].
  split; [done|]. intros i' Hi'. apply Hal. split; lia.
Qed.

Lemma repr_discr_ok min max :
  discr_lo ≤ min ≤ max → max ≤ discr_hi →
  (repr_int repr = None → is_c repr = true → int_bits (c_enum_min_size dl) ≤ int_bits dity) →
  ∃ ity sg, repr_discr dl repr min max = Ret (ity, sg) ∧ int_bits ity ≤ int_bits dity ∧
    tag_fits (int_bits ity) sg min max.
Proof.
  intros Hmin Hmax Hc. pose proof discr_bounds_i128 as [Hlo Hhi].
  destruct (int_bits_bounds dity) as (Hb&_).
  destruct (signed_fit_ok min max ltac:(lia) ltac:(lia)) as (Hs1&Hs2&Hs3). unfold repr_discr.
  set (sf := integer_max (Integer.fit_signed min) (Integer.fit_signed max)) in *.
  destruct (int_bits_bounds sf) as (Hsb&_).
  unfold discr_lo, discr_hi, discr_signed, ReprOptions.discr_type in *.
  destruct (repr_int repr) as [ity|] eqn:Ei; cbn [default from_option] in *; unfold id in *.
  - rewrite Hdity. cbn [obind]. exists dity, (IntegerType.is_signed ity). rewrite integer_ltb_bits.
    destruct (IntegerType.is_signed ity).
    + specialize (Hs3 dity ltac:(lia) ltac:(lia)). destruct (Z.ltb_spec (int_bits dity) (int_bits sf)); [lia|].
      cbn. split_and!; [done|lia|]. apply tag_fits_signed; lia.
    + destruct (Z.eqb_spec (int_bits dity) 128) as [E|E].
      * match goal with |- context [int_bits dity <? int_bits ?x] => destruct (int_bits_bounds x) as (Hx&_);
          destruct (Z.ltb_spec (int_bits dity) (int_bits x)); [lia|] end.
        cbn. split_and!; [done|lia|]. rewrite E. split; [lia|by left].
      * destruct (unsigned_fit_ok min max ltac:(lia) ltac:(lia)) as [_ Hu]. specialize (Hu dity ltac:(lia)).
        destruct (Z.ltb_spec (int_bits dity) (int_bits (Integer.fit_unsigned
          (Z.max (of_signed 128 min) (of_signed 128 max))))); [lia|].
        cbn. split_and!; [done|lia|]. apply tag_fits_unsigned; lia.
  - cbn [IntegerType.is_signed] in *. set (al := if is_c repr then _ else _).
    assert (int_bits al ≤ int_bits dity ∧ int_bits al ≤ 128) as [Hal Hal'].
    { split; [|apply int_bits_bounds]. unfold al. destruct (is_c repr); [by apply Hc|]. change (int_bits I8) with 8. lia. }
    destruct (Z.leb_spec 0 min) as [Hpos|Hneg].
    + destruct (unsigned_fit_ok min max ltac:(lia) ltac:(lia)) as [Hu Hu'].
      set (uf := Integer.fit_unsigned _) in *. destruct (int_bits_bounds uf) as (Hub&_).
      do 2 eexists. split; [done|]. rewrite integer_max_bits. split.
      * assert (2 ^ (int_bits dity - 1) ≤ 2 ^ int_bits dity) by (apply Z.pow_le_mono_r; lia).
        specialize (Hu' dity ltac:(lia)). lia.
      * apply (tag_fits_wider (int_bits uf)); [lia..|]. apply tag_fits_unsigned; lia.
    + do 2 eexists. split; [done|]. rewrite integer_max_bits. split.
      * specialize (Hs3 dity ltac:(lia) ltac:(lia)). lia.
      * apply (tag_fits_wider (int_bits sf)); [lia..|]. apply tag_fits_signed; lia.
Qed.

(** How the variants are laid out behind a tag of type [i]. *)
Definition prefix_align_of (vars : list (list LayoutS)) (i : Integer) : Align :=
  if is_c repr
  then foldl (λ a f, Z.max a (abi (align f))) (abi (Integer.align i dl)) (concat vars)
  else abi (Integer.align i dl).

Lemma prefix_align_ok vars i :
  Forall (Forall (layout_ok dl)) vars → align_ok (prefix_align_of vars i).
Proof.
  intros Hv. unfold prefix_align_of. pose proof (primitive_align_ok dl Hdl (Int i false)) as Ha. cbn in Ha.
  destruct (is_c repr); [|done]. assert (Forall (layout_ok dl) (concat vars)) as Hf by (by apply Forall_concat).
  revert Ha. generalize (abi (Integer.align i dl)). induction Hf as [|f fs Hf Hfs IH]; intros a Ha; [done|].
  cbn. apply IH. pose proof (layout_align_ok dl f Hf). unfold align_ok in *. lia.
Qed.

Lemma tag_integer_ok min_ity sa :
  0 ≤ sa < 64 →
  let ity := tag_integer dl repr min_ity sa in
  (ity = min_ity ∧ integer_ltb min_ity ity = false) ∨
  (integer_ltb min_ity ity = true ∧ Integer.size ity = 2 ^ sa).
Proof.
  intros Hsa. unfold tag_integer. set (i := if is_c repr || _ then min_ity else _).
  assert (i = min_ity ∨ Integer.size i = 2 ^ sa) as Hi.
  { unfold i. destruct (_ || _); [by left|].
    destruct (Integer.for_align dl sa) as [c|] eqn:E; [right|by left]. cbn.
    apply find_some in E as [_ [_ E]%andb_true_iff]. rewrite align_bytes_pow2 in E by done.
    unfold Size.bytes in E. lia. }
  destruct (integer_ltb min_ity i) eqn:E; cbn.
  - right. split; [done|]. destruct Hi as [Hi|Hi]; [|done]. rewrite Hi in E. by destruct min_ity.
  - left. split; [done|]. by destruct min_ity.
Qed.

Lemma for_align_256 : Integer.for_align dl 8 = None.
Proof. unfold Integer.for_align. cbn [List.find]. by rewrite !andb_false_r. Qed.

Variables (vars : list (list LayoutS)) (ds : list Z).
Hypotheses (Hrepr : repr_ok repr) (Hpack : repr_pack repr = None) (Hne : vars ≠ [])
  (Hlen : length ds = length vars) (Hds : Forall (is_uint (int_bits dity)) ds)
  (Hc : repr_int repr = None → is_c repr = true → int_bits (c_enum_min_size dl) ≤ int_bits dity)
  (Hvars : Forall (Forall (layout_ok dl)) vars)
  (Hfit : ∀ i, variants_fit dl repr (Prefixed (Integer.size i) (prefix_align_of vars i)) vars).

(** A sound tagged layout of the enum: a tag at the start that can hold every
    discriminant in use, and variants whose fields lie behind it. *)
Definition tagged (e : LayoutS) (ls : list LayoutS) : Prop :=
  layout_ok dl e ∧ (2 ^ abi (align e) | size e) ∧
  ∃ ity sg min max,
    (∃ vs, variants e = Multiple (Initialized (Int ity sg)
             (mkRange (min mod 2 ^ int_bits ity) (max mod 2 ^ int_bits ity))) Direct 0 vs) ∧
    fields e = ArbitraryShape [0] [0] ∧ Integer.size ity ≤ size e ∧ min ≤ max ∧
    tag_fits (int_bits ity) sg min max ∧
    (∀ k v d, vars !! k = Some v → ds !! k = Some d → inhabited v → min ≤ discr_value d ≤ max) ∧
    length ls = length vars ∧
    ∀ k flds, vars !! k = Some flds →
      ∃ l, ls !! k = Some l ∧
        tagged_variant (size e) (abi (align e)) (Integer.size ity) (Z.of_nat k) flds l.

(** Some variant behind some tag, padded to some alignment, reaches the bound. *)
Definition too_large (bound : Z) : Prop :=
  ∃ i v sz al, v ∈ vars ∧
    variant_size dl repr (Prefixed (Integer.size i) (prefix_align_of vars i)) v sz ∧
    align_ok al ∧ bound ≤ Size.align_to sz al.

(** The variants, moved for a larger tag. *)
Lemma tag_variants_ok min_ity t ls sz :
  tagging_ok t → tg_start_align t ≤ 8 → each (behind (Integer.size min_ity) t) 0 vars ls →
  tg_size t ≤ sz →
  let ity := tag_integer dl repr min_ity (tg_start_align t) in
  int_bits min_ity ≤ int_bits ity ∧ Integer.size ity ≤ sz ∧
  ∃ ls', (if integer_ltb min_ity ity
          then mapM_outcome (patch_variant (Integer.size min_ity) (Integer.size ity)) ls
          else Ret ls) = Ret ls' ∧
    each (tagged_variant sz (abi (mg_align (tg_merged t))) (Integer.size ity)) 0 vars ls'.
Proof.
  intros [Hal Hsz Hst Hroom] Hst8 He Hle ity.
  destruct (tag_integer_ok min_ity (tg_start_align t) ltac:(lia)) as [[E Elt]|[Elt E]]; fold ity in E, Elt;
    rewrite Elt.
  - rewrite E. split; [done|]. split.
    + destruct vars as [|v vs]; [done|]. destruct ls as [|l ls]; [done|].
      destruct He as [(_&_&_&Hsz'&_) _]. lia.
    + exists ls. split; [done|]. eapply each_impl; [|exact He]. intros j v l. by apply unpatched_ok.
  - rewrite integer_ltb_bits in Elt. destruct (int_bits_bounds min_ity) as (_&Em&Hm).
    destruct (int_bits_bounds ity) as (_&Eity&Hity). assert (Integer.size min_ity < Integer.size ity) by lia.
    assert (Integer.size ity ≤ sz).
    { destruct Hroom as [E8|?]; [|lia]. rewrite E8 in E. destruct Hity. rewrite E in *. lia. }
    split; [lia|]. split; [done|]. eapply each_mapM; [|exact He]. intros j v l Hb.
    eapply patch_variant_ok; try done; try lia; by destruct Hm.
Qed.

Lemma tagged_layout_ok bound :
  obj_size_bound dl = Ret bound →
  ∃ r, tagged_layout dl repr vars (repr_discr dl repr) (discriminants_of ds) = Ret r ∧
    match r with
    | None => too_large bound
    | Some tmp => tagged (tmp_layout tmp) (tmp_variants tmp)
    end.
Proof.
  intros Hbound. unfold tagged_layout.
  destruct (enum_range_ok vars ds Hlen Hds) as (min&max&->&Hmin&Hmax&Hall). cbn [obind].
  destruct (Z.leb_spec min max); [|lia]. cbn [rassert].
  destruct (repr_discr_ok min max Hmin Hmax Hc) as (min_ity&sg&->&Hity&Htf). cbn [obind].
  change (Align.from_bytes 256) with (@inl Align AlignFromBytesError 8). cbn [obind].
  rewrite bool_decide_true by apply for_align_256. cbn [rassert].
  match goal with |- context [tagged_variant_layouts dl repr _ ?pa] =>
    change pa with (prefix_align_of vars min_ity) end.
  destruct (int_bits_bounds min_ity) as (Hmb&Em&Hms).
  set (t0 := mkTagging 8 _ _). assert (tagging_ok t0) as Ht0.
  { split; cbn [t0 tg_merged mg_align tg_size tg_start_align]; [apply Hdl|by vm_compute|lia|by left]. }
  destruct (tagged_variant_layouts_ok repr (Integer.size min_ity) (prefix_align_of vars min_ity) Hrepr Hpack
              Hms (prefix_align_ok vars min_ity Hvars) vars 0 t0 (Hfit min_ity) Ht0)
    as (ls&t&->&Ht&(Hst&_)&He&Hmaxsz). unfold obind_opt at 1. cbn [obind].
  pose proof Ht as [Hal0 Htsz Htst _]. pose proof (align_ok_pow _ Hal0). pose proof Hal0 as Hal. unfold align_ok in Hal.
  destruct (align_to_least (tg_size t) (abi (mg_align (tg_merged t)))) as (Hd&Hge&Hleast); [lia..|].
  specialize (Hleast (2 ^ 48) ltac:(apply pow2_divide; lia) ltac:(lia)).
  set (sz := Size.align_to (tg_size t) (abi (mg_align (tg_merged t)))) in *.
  rewrite Hbound. cbn [obind]. destruct (Z.leb_spec bound (Size.bytes sz)).
  { eexists. split; [done|]. destruct Hmaxsz as [E|(v&Hv&Hvs)].
    - destruct vars as [|v vs], ls as [|l ls]; try done. destruct He as [(_&_&_&Hsz'&_) _].
      cbn in E. rewrite E in Hsz'. destruct Hms. unfold Size.ZERO in *. lia.
    - exists min_ity, v, (tg_size t), (abi (mg_align (tg_merged t))). by split_and!. }
  rewrite Hdity. cbn [obind]. rewrite integer_ltb_bits.
  destruct (Z.ltb_spec (int_bits dity) (int_bits min_ity)); [lia|]. cbn [negb rassert].
  destruct (tag_variants_ok min_ity t ls sz Ht Hst He Hge) as (Hbits&Hisz&ls'&->&He').
  set (ity := tag_integer dl repr min_ity (tg_start_align t)) in *. cbn [obind].
  destruct (tagged_finish_ok vars ls' t sz ity sg min max Ht He' ltac:(lia))
    as (e&ls2&->&Hok&Hv&Hfl&Hsz&Hae&He2). cbn [obind]. eexists. split; [done|]. cbn [tmp_layout tmp_variants].
  destruct (int_bits_bounds ity) as (Hib&_). split; [done|]. rewrite Hsz, Hae. split; [done|].
  exists ity, sg, min, max. split_and!; try done; [by eexists| |by eapply each_length|].
  - eapply (tag_fits_wider (int_bits min_ity)); [lia..|done].
  - intros k flds Hk. destruct (each_lookup _ _ _ _ _ _ He2 Hk) as (l&Hl&Htv). by exists l.
Qed.
End discr.

(** The tagged layout of an enum that is not packed, with the discriminants
    [ds] of its type and [Integer::repr_discr]: the computation returns and does
    not run into its assertions.  If it yields a layout, the tag is at the start
    and can tell apart, and widen again, all discriminants of inhabited variants;
    the fields of all variants are aligned, inside the enum, disjoint and behind
    the tag, also where a larger tag was chosen to fill the alignment gap.  It
    declines only if a variant behind a tag reaches the object size bound. *)
Theorem tagged_layout_sound repr dity vars ds bound :
  from_attr dl (ReprOptions.discr_type repr) = Ret dity → repr_ok repr → repr_pack repr = None →
  vars ≠ [] → length ds = length vars → Forall (is_uint (int_bits dity)) ds →
  (repr_int repr = None → is_c repr = true → int_bits (c_enum_min_size dl) ≤ int_bits dity) →
  Forall (Forall (layout_ok dl)) vars →
  (∀ i, variants_fit dl repr (Prefixed (Integer.size i) (prefix_align_of repr vars i)) vars) →
  obj_size_bound dl = Ret bound →
  ∃ r, tagged_layout dl repr vars (repr_discr dl repr) (discriminants_of ds) = Ret r ∧
    match r with
    | None => too_large repr vars bound
    | Some tmp => tagged repr dity vars ds (tmp_layout tmp) (tmp_variants tmp)
    end.
Proof. intros. by apply tagged_layout_ok. Qed.
End props.

(** ** The property at a concrete input *)

Lemma option_bool_tagged i :
  variants_fit default_dl repr_rust
    (Prefixed (Integer.size i) (prefix_align_of default_dl repr_rust option_bool i)) option_bool.
Proof. apply option_bool_fit; by destruct i. Defined.

Lemma option_bool_ok : Forall (Forall (layout_ok default_dl)) option_bool.
Proof.
  repeat first [apply List.Forall_nil | apply bool_layout_ok | apply List.Forall_cons].
Defined.

Lemma tagged_layout_sound_witness :
  ∃ r, @tagged_layout no_shuffle default_dl repr_rust option_bool (repr_discr default_dl repr_rust)
         (discriminants_of [0; 1]) = Ret r ∧
    match r with
    | None => @too_large no_shuffle default_dl repr_rust option_bool (2 ^ 47)
    | Some tmp => tagged default_dl repr_rust I64 option_bool [0; 1] (tmp_layout tmp) (tmp_variants tmp)
    end.
Proof.
  apply (@tagged_layout_sound no_shuffle no_shuffle_perm default_dl default_dl_ok); try done.
  - repeat first [apply List.Forall_nil | apply List.Forall_cons]; by split.
  - apply option_bool_ok.
  - apply option_bool_tagged.
Defined.

(** Making room for a larger tag moves a zero-sized field to the end of the tag,
    but enlarges the variant only if it was no larger than the old tag: in
    [#[repr(align(2))] enum { A(()), B(u32, u32) }] the field of [A] is at 4
    while the layout of [A] has size 2.  The field is inside the enum. *)
Definition unit_layout : LayoutS :=
  match @univariant no_shuffle default_dl [] repr_rust AlwaysSized with
  | Ret (Some l) => l
  | _ => layout_of_never_type default_dl
  end.
Definition repr_align2 : ReprOptions := mkRepr None (Some 1) None false false false false false 0.

Example patched_field_outside_variant :
  match @tagged_layout no_shuffle default_dl repr_align2 [[unit_layout]; [u32_layout; u32_layout]]
          (repr_discr default_dl repr_align2) (discriminants_of [0; 1]) with
  | Ret (Some (mkTmp e (a :: _))) => fields a = ArbitraryShape [4] [0] ∧ size a = 2 ∧ size e = 12
  | _ => False
  end.
Proof. by vm_compute. Qed.
