(* ===== verification/Discriminant.v ===== *)
(** Discriminants of enums: their values ([rustc_middle/src/ty/adt.rs],
    [ty/util.rs], with the distances [rustc_hir_analysis/src/collect.rs] stores),
    and how the interpreter writes and reads them through a layout
    ([rustc_const_eval/src/interpret/discriminant.rs]).

    The [DefId] of an explicit discriminant is the result of evaluating it, and
    the type of a discriminant is its integer with its sign.  Memory is the
    value of the tag field: what [write_discriminant] stores there, and what
    [read_discriminant] finds there. *)

From S2P Require Import Prelude Abi Layout Enum.

(** ** Values *)

(** [VariantDiscr]; [Explicit] holds what [eval_explicit_discr] returns. *)
Inductive VariantDiscr := Explicit (value : option Z) | Relative (distance : Z).

#[global] Instance VariantDiscr_eq_dec : EqDecision VariantDiscr.
Proof. solve_decision. Defined.

(** The loop that makes the variants of an enum, from [distance_from_explicit] on *)
Fixpoint lower_variants (distance_from_explicit : Z) (disr_exprs : list (option (option Z)))
    : list VariantDiscr :=
  match disr_exprs with
  | [] => []
  | Some e :: rest => Explicit e :: lower_variants 1 rest
  | None :: rest =>
      Relative distance_from_explicit :: lower_variants (wadd 32 distance_from_explicit 1) rest
  end.

(** A type of discriminants: [Discr::ty] with its [int_size_and_signed] *)
Record DiscrTy := mkDiscrTy { dt_int : Integer; dt_signed : bool }.

(** [IntegerType::to_ty] *)
Definition discr_to_ty (dl : TargetDataLayout) (ity : IntegerType) : outcome DiscrTy :=
  let! i := from_attr dl ity in Ret (mkDiscrTy i (IntegerType.is_signed ity)).

(** [Discr::checked_add]; the [i128] arithmetic stays in range, as [n] is below
    [i128::MAX] and a value is wrapped only when it is greater than [max - n]. *)
Definition discr_checked_add (ty : DiscrTy) (self_val n : Z) : outcome (Z * bool) :=
  let size := Integer.size (dt_int ty) in
  if dt_signed ty then
    let! min := Size.signed_int_min size in
    let! max := Size.signed_int_max size in
    let! ext := Size.sign_extend size self_val in
    let val := to_signed 128 ext in
    rassert (n <? 2 ^ 127 - 1) (
    let oflo := max - n <? val in
    let val := if oflo then min + (n - (max - val) - 1) else val + n in
    let! val := Size.truncate size (of_signed 128 val) in
    Ret (val, oflo))
  else
    let! max := Size.unsigned_int_max size in
    let oflo := wsub 128 max n <? self_val in
    let val := if oflo then wsub 128 (wsub 128 n (wsub 128 max self_val)) 1 else wadd 128 self_val n in
    Ret (val, oflo).

Definition wrap_incr (ty : DiscrTy) (val : Z) : outcome Z := omap_ fst (discr_checked_add ty val 1).

Definition initial_discriminant : Z := 0.

(** The [map] of [AdtDef::discriminants], with [prev_discr] *)
Fixpoint discriminants_loop (ty : DiscrTy) (prev_discr : option Z) (discrs : list VariantDiscr)
    : outcome (list Z) :=
  match discrs with
  | [] => Ret []
  | v :: discrs =>
      let! discr := match prev_discr with
                    | None => Ret initial_discriminant
                    | Some d => wrap_incr ty d
                    end in
      let discr := match v with Explicit (Some new_discr) => new_discr | _ => discr end in
      let! rest := discriminants_loop ty (Some discr) discrs in
      Ret (discr :: rest)
  end.

(** [AdtDef::discriminants] *)
Definition discriminants (dl : TargetDataLayout) (repr : ReprOptions) (discrs : list VariantDiscr)
    : outcome (list (Z * Z)) :=
  let! ty := discr_to_ty dl (ReprOptions.discr_type repr) in
  let! vals := discriminants_loop ty None discrs in
  Ret (enumerate vals).

(** The [loop] of [discriminant_def_for_variant], with the index as fuel: each
    round moves to a smaller index *)
Fixpoint discriminant_def_loop (fuel : nat) (discrs : list VariantDiscr) (explicit_index : Z)
    : outcome (option Z * Z) :=
  match fuel with
  | O => Panic
  | S fuel =>
      let! v := unwrap (discrs !! Z.to_nat explicit_index) in
      match v with
      | Relative distance =>
          if distance =? 0 then Ret (None, explicit_index)
          else discriminant_def_loop fuel discrs (wsub 32 explicit_index distance)
      | Explicit did => Ret (did, explicit_index)
      end
  end.

Definition discriminant_def_for_variant (discrs : list VariantDiscr) (variant_index : Z)
    : outcome (option Z * Z) :=
  rassert (negb (bool_decide (discrs = []))) (
  let! (expr_did, explicit_index) :=
    discriminant_def_loop (S (Z.to_nat variant_index)) discrs variant_index in
  Ret (expr_did, wsub 32 variant_index explicit_index)).

(** [AdtDef::discriminant_for_variant] *)
Definition discriminant_for_variant (dl : TargetDataLayout) (repr : ReprOptions)
    (discrs : list VariantDiscr) (variant_index : Z) : outcome Z :=
  let! ty := discr_to_ty dl (ReprOptions.discr_type repr) in
  let! (val, offset) := discriminant_def_for_variant discrs variant_index in
  let explicit_value := default initial_discriminant val in
  omap_ fst (discr_checked_add ty explicit_value offset).

(** [dont_niche_optimize_enum] of [layout_of_uncached] *)
Definition dont_niche_optimize_enum (repr : ReprOptions) (discrs : list VariantDiscr) : bool :=
  ReprOptions.inhibit_enum_layout_opt repr
  || existsb (λ p, negb (bool_decide (snd p = Relative (fst p)))) (enumerate discrs).

(** The discriminants as the layout computation gets them, [d.val as i128] *)
Definition discriminants_iter (dl : TargetDataLayout) (repr : ReprOptions) (discrs : list VariantDiscr)
    : outcome (list (Z * Z)) :=
  let! ds := discriminants dl repr discrs in
  Ret ((λ p, (fst p, to_signed 128 (snd p))) <$> ds).

(** The call of [layout_of_struct_or_enum] in [layout_of_uncached], for an enum *)
Definition layout_of_enum_adt `{Shuffle} (dl : TargetDataLayout) (repr : ReprOptions)
    (vars : list (list LayoutS)) (scalar_valid_range : Bound * Bound) (discrs : list VariantDiscr)
    : outcome (option LayoutS) :=
  let! ds := discriminants_iter dl repr discrs in
  layout_of_struct_or_enum dl repr vars true false scalar_valid_range (repr_discr dl repr) ds
    (dont_niche_optimize_enum repr discrs) true.

(** ** Integers of the interpreter *)

(** [Scalar::from_uint] *)
Definition scalar_from_uint (i : Z) (size : Size) : outcome Z :=
  let! t := Size.truncate size i in rassert (t =? i) (Ret i).

Inductive BinOp := Add | Sub.

(** [binary_int_op] for [Add] and [Sub] on operands of one integer type *)
Definition binary_int_op (op : BinOp) (ty : DiscrTy) (l r : Z) : outcome Z :=
  let size := Integer.size (dt_int ty) in
  if dt_signed ty then
    let! l := Size.sign_extend size l in
    let! r := Size.sign_extend size r in
    let l := to_signed 128 l in
    let r := to_signed 128 r in
    let result := match op with Add => l + r | Sub => l - r end in
    Size.truncate size (of_signed 128 result)
  else
    let result := match op with Add => wadd 128 l r | Sub => wsub 128 l r end in
    Size.truncate size result.

(** [cast_from_int_like] to an integer type *)
Definition cast_from_int_like (src dst : DiscrTy) (v : Z) : outcome Z :=
  let! v := if dt_signed src then Size.sign_extend (Integer.size (dt_int src)) v else Ret v in
  Size.truncate (Integer.size (dt_int dst)) v.

(** [Primitive::to_int_ty] *)
Definition to_int_ty (dl : TargetDataLayout) (p : Primitive) : outcome DiscrTy :=
  match p with
  | Int i signed => Ret (mkDiscrTy i signed)
  | Pointer _ => let! i := ptr_sized_integer dl in Ret (mkDiscrTy i false)
  | F32 | F64 => Panic
  end.

(** ** Reading and writing *)

(** An enum: its representation, the discriminants of its variants, the number
    of fields of each *)
Record EnumDef := mkEnum {
  en_repr : ReprOptions;
  en_discrs : list VariantDiscr;
  en_fields : list Z;
}.

Definition is_primitive_shape (s : FieldsShape) : bool :=
  match s with PrimitiveShape => true | _ => false end.

(** [ty_and_layout_for_variant] for an enum, called on the enum's own layout, so
    that the assertion on [original_layout] holds *)
Definition for_variant (dl : TargetDataLayout) (def : EnumDef) (this : LayoutS) (variant_index : Z)
    : outcome LayoutS :=
  let! layout :=
    match variants this with
    | Single index =>
        if (index =? variant_index) && negb (is_primitive_shape (fields this)) then Ret this
        else
          rassert (negb (bool_decide (en_fields def = []))) (
          let! n := unwrap (en_fields def !! Z.to_nat variant_index) in
          Ret {| variants := Single variant_index;
                 fields := if n =? 0 then ArbitraryShape [] [] else UnionShape n;
                 layout_abi := Uninhabited; largest_niche := None; align := i8_align dl;
                 size := Size.ZERO; max_repr_align := None;
                 unadjusted_abi_align := abi (i8_align dl) |})
    | Multiple _ _ _ vs => unwrap (vs !! Z.to_nat variant_index)
    end in
  match variants layout with
  | Single index => rassert (index =? variant_index) (Ret layout)
  | _ => Panic
  end.

Inductive UndefinedBehavior :=
| UninhabitedEnumVariantWritten (v : Z)
| UninhabitedEnumVariantRead (v : Z)
| InvalidTag.

(** [write_discriminant]: the value written to the tag field, if any *)
Definition write_discriminant (dl : TargetDataLayout) (def : EnumDef) (dest : LayoutS)
    (variant_index : Z) : outcome (option Z + UndefinedBehavior) :=
  let! v := for_variant dl def dest variant_index in
  if Abi.is_uninhabited (layout_abi v) then Ret (inr (UninhabitedEnumVariantWritten variant_index))
  else
    match variants dest with
    | Single index => rassert (index =? variant_index) (Ret (inl None))
    | Multiple tag_layout Direct _ _ =>
        let! discr_val := discriminant_for_variant dl (en_repr def) (en_discrs def) variant_index in
        let size := Scalar.size tag_layout dl in
        let! tag_val := Size.truncate size discr_val in
        let! tag_val := scalar_from_uint tag_val size in
        Ret (inl (Some tag_val))
    | Multiple tag_layout (NicheEncoding untagged_variant variants_start _ niche_start) _ _ =>
        if variant_index =? untagged_variant then Ret (inl None)
        else
          let! variant_index_relative := unwrap (checked_sub variant_index variants_start) in
          let! tag_ty := to_int_ty dl (Scalar.primitive tag_layout) in
          let! niche_start_val := scalar_from_uint niche_start (Integer.size (dt_int tag_ty)) in
          let! relative_val := scalar_from_uint variant_index_relative (Integer.size (dt_int tag_ty)) in
          let! tag_val := binary_int_op Add tag_ty relative_val niche_start_val in
          Ret (inl (Some tag_val))
    end.

(** What [read_immediate] finds in the tag field: an integer of the size of the
    tag, or a pointer, of which [scalar_may_be_null] is known. *)
Inductive TagValue := TagInt (bits : Z) | TagPointer (may_be_null : bool).

(** The index the tag stands for.  [project_field] gives the tag the layout
    [LayoutS::scalar] of its scalar, which the two assertions compare with the
    layout of the tag's integer type. *)
Definition decode_tag (dl : TargetDataLayout) (def : EnumDef) (tag : Scalar) (enc : TagEncoding)
    (tag_val : TagValue) : outcome (Z + UndefinedBehavior) :=
  let! discr_ty := discr_to_ty dl (ReprOptions.discr_type (en_repr def)) in
  let! tag_ty := to_int_ty dl (Scalar.primitive tag) in
  let size := Integer.size (dt_int tag_ty) in
  rassert (size =? Scalar.size tag dl) (
  let! signed := Abi.is_signed (AbiScalar tag) in
  rassert (Bool.eqb (dt_signed tag_ty) signed) (
  match enc with
  | Direct =>
      match tag_val with
      | TagPointer _ => Ret (inr InvalidTag)
      | TagInt bits =>
          let! discr_bits := cast_from_int_like tag_ty discr_ty bits in
          let! ds := discriminants dl (en_repr def) (en_discrs def) in
          Ret (match List.find (λ p, snd p =? discr_bits) ds with
               | Some (index, _) => inl index
               | None => inr InvalidTag
               end)
      end
  | NicheEncoding untagged_variant variants_start variants_end niche_start =>
      match tag_val with
      | TagPointer may_be_null =>
          let ptr_valid := (niche_start =? 0) && (variants_start =? variants_end) && negb may_be_null in
          Ret (if ptr_valid then inl untagged_variant else inr InvalidTag)
      | TagInt bits =>
          let! tag_bits := scalar_from_uint bits size in
          let! niche_start_val := scalar_from_uint niche_start size in
          let! relative := binary_int_op Sub tag_ty tag_bits niche_start_val in
          if relative <=? wsub 32 variants_end variants_start then
            rassert (relative <? 2 ^ 32) (
            let! variant_index := unwrap (checked_add 32 variants_start relative) in
            rassert (variant_index <? Z.of_nat (length (en_discrs def))) (Ret (inl variant_index)))
          else Ret (inl untagged_variant)
      end
  end)).

(** [read_discriminant] on an enum *)
Definition read_discriminant (dl : TargetDataLayout) (def : EnumDef) (op : LayoutS) (tag_val : TagValue)
    : outcome (Z + UndefinedBehavior) :=
  let check index :=
    let! v := for_variant dl def op index in
    Ret (if Abi.is_uninhabited (layout_abi v) then inr (UninhabitedEnumVariantRead index)
         else inl index) in
  match variants op with
  | Single index =>
      if bool_decide (en_discrs def = []) then Ret (inr (UninhabitedEnumVariantRead index))
      else check index
  | Multiple tag enc _ _ =>
      let! r := decode_tag dl def tag enc tag_val in
      match r with inr ub => Ret (inr ub) | inl index => check index end
  end.
