(* ===== verification/DiscriminantProps.v ===== *)
(** What discriminants promise: the two computations of their values agree, and
    the interpreter reads back the variant it wrote, through every layout the
    layout computation makes for an enum. *)

From S2P Require Import Prelude Abi AbiProps Layout LayoutProps Enum EnumProps.
From S2P Require Import TaggedProps Discriminant.

(** ** Adding to a discriminant *)

Lemma signed_int_extremes i :
  Size.signed_int_min (Integer.size i) = Ret (- 2 ^ (int_bits i - 1)) ∧
  Size.signed_int_max (Integer.size i) = Ret (2 ^ (int_bits i - 1) - 1).
Proof. by destruct i. Qed.

Lemma sign_extend_int i v :
  is_uint (int_bits i) v →
  ∃ e, Size.sign_extend (Integer.size i) v = Ret e ∧ is_uint 128 e ∧
       to_signed 128 e = to_signed (int_bits i) v.
Proof.
  intros Hv. destruct (int_bits_bounds i) as (Hb&Eb&Hs).
  rewrite sign_extend_value by (done || by eapply uint_widen). rewrite <- Eb.
  eexists. split; [done|]. split; [by apply wrap_bounds|].
  rewrite Z.mod_small by done. apply to_signed_of_signed; [lia|].
  destruct Hv as [Hv1 Hv2].
  assert (2 ^ int_bits i = 2 * 2 ^ (int_bits i - 1)) as E by (rewrite <- Z.pow_succ_r by lia; f_equal; lia).
  assert (2 ^ (int_bits i - 1) ≤ 2 ^ 127) by (apply Z.pow_le_mono_r; lia).
  unfold to_signed. destruct (Z.ltb_spec v (2 ^ (int_bits i - 1))); lia.
Qed.

Lemma truncate_int i x :
  Size.truncate (Integer.size i) (of_signed 128 x) = Ret (x mod 2 ^ int_bits i).
Proof.
  destruct (int_bits_bounds i) as (Hb&Eb&Hs). rewrite truncate_mod by (done || by apply wrap_bounds).
  rewrite <- Eb. f_equal. unfold of_signed, wrap. apply Z.mod_mod_divide, pow2_divide. lia.
Qed.

Lemma truncate_uint i x :
  is_uint 128 x → Size.truncate (Integer.size i) x = Ret (x mod 2 ^ int_bits i).
Proof. intros Hx. rewrite <- truncate_int. unfold of_signed. by rewrite wrap_small. Qed.

Lemma to_signed_mod w v x :
  0 < w → (to_signed w v + x) mod 2 ^ w = (v + x) mod 2 ^ w.
Proof.
  intros Hw. unfold to_signed. destruct (_ <? _); [done|].
  replace (v - 2 ^ w + x) with (v + x + (-1) * 2 ^ w) by lia. apply Z_mod_plus_full.
Qed.

Lemma discr_checked_add_ok ty v n :
  is_uint (int_bits (dt_int ty)) v → 0 ≤ n < 2 ^ int_bits (dt_int ty) → n < 2 ^ 127 - 1 →
  omap_ fst (discr_checked_add ty v n) = Ret ((v + n) mod 2 ^ int_bits (dt_int ty)).
Proof.
  intros Hv Hn Hn'. unfold discr_checked_add. set (i := dt_int ty) in *.
  destruct (int_bits_bounds i) as (Hb&Eb&Hs). pose proof (pow2_pos (int_bits i) ltac:(lia)).
  assert (2 ^ int_bits i ≤ 2 ^ 128) by (apply Z.pow_le_mono_r; lia).
  destruct (dt_signed ty).
  - destruct (signed_int_extremes i) as [-> ->]. cbn [obind].
    destruct (sign_extend_int i v Hv) as (e&->&_&He). cbn [obind]. rewrite He.
    destruct (Z.ltb_spec n (2 ^ 127 - 1)); [|lia]. cbn [rassert].
    rewrite truncate_int. cbn [obind omap_ fst]. f_equal.
    rewrite <- (to_signed_mod (int_bits i) v n) by lia.
    assert (2 ^ int_bits i = 2 * 2 ^ (int_bits i - 1)) as E
      by (rewrite <- Z.pow_succ_r by lia; f_equal; lia).
    destruct (_ <? _); [|done].
    match goal with |- ?x mod _ = ?y mod _ => replace x with (y + (-1) * 2 ^ int_bits i) by lia end.
    apply Z_mod_plus_full.
  - rewrite unsigned_int_max_value by done. cbn [obind omap_ fst]. rewrite <- Eb. f_equal.
    destruct Hv as [Hv1 Hv2]. unfold wsub, wadd.
    rewrite (wrap_small 128 (2 ^ int_bits i - 1 - n)), (wrap_small 128 (2 ^ int_bits i - 1 - v))
      by (split; lia).
    destruct (Z.ltb_spec (2 ^ int_bits i - 1 - n) v).
    + rewrite (wrap_small 128 (n - (2 ^ int_bits i - 1 - v))) by (split; lia).
      rewrite wrap_small by (split; lia). apply (Z.mod_unique_pos _ _ 1); lia.
    + rewrite wrap_small by (split; lia). symmetry. apply Z.mod_small. lia.
Qed.

(** ** The values of all variants *)

Definition explicit_ok (w : Z) (v : VariantDiscr) : Prop :=
  match v with Explicit (Some x) => is_uint w x | Explicit None => False | Relative _ => True end.

(** The values follow each other, starting anew at each explicit one. *)
Definition discr_step (w : Z) (start : Z) (vs : list VariantDiscr) (ds : list Z) (k : nat) : Prop :=
  ∀ v, vs !! k = Some v → ∃ d, ds !! k = Some d ∧
    d = match v with
        | Explicit (Some x) => x
        | _ => match k with O => start | S k' => (nth k' ds 0 + 1) mod 2 ^ w end
        end.

Lemma discriminants_loop_ok ty prev vs :
  let w := int_bits (dt_int ty) in
  Forall (explicit_ok w) vs → (∀ p, prev = Some p → is_uint w p) →
  ∃ ds, discriminants_loop ty prev vs = Ret ds ∧ length ds = length vs ∧ Forall (is_uint w) ds ∧
    ∀ k, discr_step w (match prev with None => 0 | Some p => (p + 1) mod 2 ^ w end) vs ds k.
Proof.
  intros w Hvs. destruct (int_bits_bounds (dt_int ty)) as (Hb&_). fold w in Hb.
  pose proof (pow2_pos w ltac:(lia)) as Hpow.
  assert (2 ^ 8 ≤ 2 ^ w) by (apply Z.pow_le_mono_r; lia).
  revert prev. induction Hvs as [|v vs Hv Hvs IH]; intros prev Hprev; cbn [discriminants_loop].
  { exists []. split_and!; [done..|]. intros k v. by rewrite lookup_nil. }
  set (start := match prev with None => 0 | Some p => _ end).
  assert (match prev with None => Ret initial_discriminant | Some d => wrap_incr ty d end = Ret start
          ∧ is_uint w start) as [-> Hstart].
  { unfold start. destruct prev as [p|]; [|split; [done|split; lia]]. split.
    - apply (discr_checked_add_ok ty p 1); [by apply Hprev|fold w; lia|lia].
    - by apply Z.mod_pos_bound. }
  cbn [obind]. set (d := match v with Explicit _ => _ | Relative _ => _ end).
  assert (is_uint w d) as Hd by (destruct v as [[x|]|x]; done).
  destruct (IH (Some d)) as (ds&->&Hlen&Hds&Hstep); [by intros p [= <-]|]. cbn [obind].
  exists (d :: ds). split_and!; [done|cbn; lia|by constructor|]. intros [|k] v' Hk; cbn in Hk.
  - injection Hk as <-. exists d. by destruct v as [[x|]|x].
  - destruct (Hstep k v' Hk) as (d'&Hd'&Ed'). exists d'. split; [done|].
    rewrite Ed'. destruct v' as [[x|]|x]; [done| |]; by destruct k.
Qed.

(** Where the stored distances lead. *)
Lemma lower_variants_lookup dist exprs k d :
  0 ≤ dist → dist + Z.of_nat (length exprs) < 2 ^ 32 →
  lower_variants dist exprs !! k = Some (Relative d) →
  (d = dist + Z.of_nat k ∧ ∀ m, (m ≤ k)%nat → lower_variants dist exprs !! m = Some (Relative (dist + Z.of_nat m))) ∨
  (∃ j e, (j < k)%nat ∧ d = Z.of_nat (k - j) ∧ lower_variants dist exprs !! j = Some (Explicit e) ∧
     ∀ m, (j < m ≤ k)%nat → lower_variants dist exprs !! m = Some (Relative (Z.of_nat (m - j)))).
Proof.
  revert dist k. induction exprs as [|[e|] exprs IH]; intros dist k Hd Hlen Hk; cbn [lower_variants] in *.
  - done.
  - destruct k as [|k]; [done|]. cbn [length] in Hlen. right.
    destruct (IH 1 k) as [[-> Hall]|(j&e'&Hj&->&He&Hall)]; [lia|lia|done| |].
    + exists 0%nat, e. split_and!; [lia|lia|done|]. intros [|m] Hm; [lia|]. cbn.
      rewrite Hall by lia. do 2 f_equal. lia.
    + exists (S j), e'. split_and!; [lia|done|done|]. intros [|m] Hm; [lia|]. cbn. apply Hall. lia.
  - cbn [length] in Hlen. unfold wadd in *. rewrite wrap_small in * by (split; lia).
    destruct k as [|k]; cbn in Hk.
    + injection Hk as <-. left. split; [lia|]. intros [|m] Hm; [|lia]. cbn. do 2 f_equal. lia.
    + destruct (IH (dist + 1) k) as [[-> Hall]|(j&e'&Hj&->&He&Hall)]; [lia|lia|done|left|right].
      * split; [lia|]. intros [|m] Hm; cbn; [do 2 f_equal; lia|]. rewrite Hall by lia. do 2 f_equal. lia.
      * exists (S j), e'. split_and!; [lia|done|done|]. intros [|m] Hm; [lia|]. cbn. apply Hall. lia.
Qed.

Lemma discr_steps w start vs ds j d m :
  0 ≤ w → (∀ k, discr_step w start vs ds k) → is_uint w d → ds !! j = Some d →
  (∀ i, (j < i ≤ j + m)%nat → ∃ x, vs !! i = Some (Relative x)) →
  ds !! (j + m)%nat = Some ((d + Z.of_nat m) mod 2 ^ w).
Proof.
  intros Hw Hstep Hd Hj. induction m as [|m IH]; intros Hrel.
  { rewrite Nat.add_0_r, Z.add_0_r, Z.mod_small by done. done. }
  assert (ds !! (j + m)%nat = Some ((d + Z.of_nat m) mod 2 ^ w)) as IH'.
  { apply IH. intros i Hi. apply Hrel. lia. }
  destruct (Hrel (j + S m)%nat) as [x Hx]; [lia|].
  destruct (Hstep _ _ Hx) as (d'&Hd'&->). rewrite Hd'. f_equal.
  replace (j + S m)%nat with (S (j + m)) by lia.
  rewrite (nth_lookup_Some _ _ _ _ IH'), Zplus_mod_idemp_l. f_equal. lia.
Qed.

Section values.
Variables (dl : TargetDataLayout) (repr : ReprOptions) (exprs : list (option (option Z))) (ty : DiscrTy).
Hypothesis Hty : discr_to_ty dl (ReprOptions.discr_type repr) = Ret ty.
Let w := int_bits (dt_int ty).
Let vs := lower_variants 0 exprs.
Hypotheses (Hvs : Forall (explicit_ok w) vs)
  (Hlen : Z.of_nat (length exprs) < 2 ^ 32) (Hw : Z.of_nat (length exprs) ≤ 2 ^ w).

Lemma lower_variants_length d es : length (lower_variants d es) = length es.
Proof. revert d. induction es as [|[e|] es IH]; intros d; cbn; [done|f_equal; apply IH..]. Qed.

Lemma discriminants_ok :
  ∃ ds, discriminants dl repr vs = Ret (enumerate ds) ∧ length ds = length exprs ∧
    Forall (is_uint w) ds ∧ ∀ k, discr_step w 0 vs ds k.
Proof.
  destruct (discriminants_loop_ok ty None vs Hvs) as (ds&E&Hl&Hu&Hs); [done|].
  exists ds. unfold discriminants. rewrite Hty. cbn [obind]. rewrite E. cbn [obind].
  split_and!; [done| |done..]. rewrite Hl. apply lower_variants_length.
Qed.

(** The variant the stored distance leads to, and its value *)
Lemma discriminant_def_ok ds k :
  (∀ k, discr_step w 0 vs ds k) → Forall (is_uint w) ds → (k < length exprs)%nat →
  ∃ val n, discriminant_def_for_variant vs (Z.of_nat k) = Ret (val, n) ∧ 0 ≤ n ≤ Z.of_nat k ∧
    is_uint w (default 0 val) ∧ ds !! k = Some ((default 0 val + n) mod 2 ^ w).
Proof.
  intros Hs Hu Hk. assert (0 ≤ w) as Hw0 by (destruct (int_bits_bounds (dt_int ty)); unfold w; lia).
  pose proof (pow2_pos w Hw0) as Hpow. unfold discriminant_def_for_variant.
  destruct (lookup_lt_is_Some_2 vs k) as [v Hv]; [by unfold vs; rewrite lower_variants_length|].
  rewrite bool_decide_false by (intros E; by rewrite E in Hv). cbn [negb rassert].
  rewrite Nat2Z.id. cbn [discriminant_def_loop]. rewrite Nat2Z.id, Hv. cbn [unwrap obind].
  assert (∀ j e, vs !! j = Some (Explicit e) → ∃ x, e = Some x ∧ is_uint w x ∧ ds !! j = Some x) as Hex.
  { intros j e Hj. pose proof (Forall_lookup_1 _ _ _ _ Hvs Hj) as Hok. destruct e as [x|]; [|done].
    exists x. split_and!; [done..|]. destruct (Hs j _ Hj) as (d&Hd&->). done. }
  assert (wsub 32 (Z.of_nat k) (Z.of_nat k) = 0) as Hkk by (unfold wsub; by rewrite Z.sub_diag).
  destruct v as [e|d].
  { destruct (Hex k e Hv) as (x&->&Hx&Hd). cbn [obind]. do 2 eexists. split; [done|]. rewrite Hkk. cbn.
    split_and!; [lia|lia|done..|]. rewrite Hd, Z.add_0_r, Z.mod_small by done. done. }
  destruct (lower_variants_lookup 0 exprs k d ltac:(lia) ltac:(lia) Hv)
    as [[-> Hall]|(j&e&Hj&->&He&Hall)].
  - (* no explicit discriminant before: the first variant *)
    assert (ds !! 0%nat = Some 0) as H0.
    { destruct (Hs 0%nat _ (Hall 0%nat ltac:(lia))) as (d&Hd&->). done. }
    assert (ds !! k = Some ((0 + Z.of_nat k) mod 2 ^ w)) as Hdk.
    { apply (discr_steps w 0 vs ds 0 0 k); [done..|split; lia|done|]. intros i Hi. eexists. apply Hall. lia. }
    exists None, (Z.of_nat k). split; [|by split_and!; [lia|lia|split; cbn; lia|done]].
    destruct (Z.eqb_spec (0 + Z.of_nat k) 0) as [E|E].
    + cbn [obind]. rewrite Hkk. do 2 f_equal. lia.
    + destruct k as [|k]; [lia|]. rewrite Z.add_0_l.
      rewrite Hkk. cbn [discriminant_def_loop]. change (Z.to_nat 0) with 0%nat.
      unfold vs. rewrite (Hall 0%nat ltac:(lia)). cbn [unwrap obind].
      change (0 + Z.of_nat 0 =? 0) with true. cbn [obind]. do 2 f_equal.
      unfold wsub. rewrite Z.sub_0_r. apply wrap_small. split; lia.
  - destruct (Hex j e He) as (x&->&Hx&Hd). exists (Some x), (Z.of_nat (k - j)). split; [|split_and!].
    + destruct (Z.eqb_spec (Z.of_nat (k - j)) 0); [lia|]. destruct k as [|k]; [lia|].
      assert (wsub 32 (Z.of_nat (S k)) (Z.of_nat (S k - j)) = Z.of_nat j) as ->.
      { unfold wsub. rewrite wrap_small; [lia|split; lia]. }
      cbn [discriminant_def_loop]. rewrite Nat2Z.id. unfold vs. rewrite He. cbn [unwrap obind]. do 2 f_equal.
      unfold wsub. rewrite wrap_small; [lia|split; lia].
    + lia.
    + lia.
    + cbn. apply Hx.
    + cbn. replace k with (j + (k - j))%nat at 1 by lia. apply (discr_steps w 0 vs); [done..|].
      intros i Hi. eexists. apply Hall. lia.
Qed.

Lemma discriminant_for_variant_ok ds k d :
  (∀ k, discr_step w 0 vs ds k) → Forall (is_uint w) ds → length ds = length exprs →
  ds !! k = Some d → discriminant_for_variant dl repr vs (Z.of_nat k) = Ret d.
Proof.
  intros Hs Hu Hl Hk. pose proof (lookup_lt_Some _ _ _ Hk).
  destruct (discriminant_def_ok ds k Hs Hu ltac:(lia)) as (val&n&E&Hn&Hv&Hd).
  unfold discriminant_for_variant. rewrite Hty. cbn [obind]. rewrite E. cbn [obind].
  rewrite Hk in Hd. injection Hd as ->.
  apply discr_checked_add_ok; [done|fold w; lia|lia].
Qed.
End values.

(** ** Integers of the interpreter *)

Lemma binary_int_op_ok op ty l r :
  let w := int_bits (dt_int ty) in
  is_uint w l → is_uint w r →
  binary_int_op op ty l r = Ret ((match op with Add => l + r | Sub => l - r end) mod 2 ^ w).
Proof.
  intros w Hl Hr. unfold binary_int_op. destruct (int_bits_bounds (dt_int ty)) as (Hb&_). fold w in Hb.
  destruct (dt_signed ty).
  - destruct (sign_extend_int (dt_int ty) l Hl) as (el&->&_&El). cbn [obind].
    destruct (sign_extend_int (dt_int ty) r Hr) as (er&->&_&Er). cbn [obind]. rewrite El, Er, truncate_int.
    fold w. f_equal. destruct op.
    + rewrite to_signed_mod, Z.add_comm, to_signed_mod by lia. f_equal. lia.
    + rewrite <- Z.add_opp_r, to_signed_mod by lia. unfold to_signed.
      destruct (r <? 2 ^ (w - 1)); [f_equal; lia|].
      replace (l + - (r - 2 ^ w)) with (l - r + 1 * 2 ^ w) by lia. apply Z_mod_plus_full.
  - destruct op; apply truncate_int.
Qed.

Lemma scalar_from_uint_ok i v : is_uint (int_bits i) v → scalar_from_uint v (Integer.size i) = Ret v.
Proof.
  intros Hv. unfold scalar_from_uint. rewrite truncate_uint by (by eapply uint_widen). cbn [obind].
  rewrite Z.mod_small, Z.eqb_refl by done. done.
Qed.

(** The primitives that [to_int_ty] accepts *)
Definition int_like (p : Primitive) : Prop := p ≠ F32 ∧ p ≠ F64.

Lemma to_int_ty_ok dl p :
  target_ok dl → int_like p →
  ∃ ty, to_int_ty dl p = Ret ty ∧ Integer.size (dt_int ty) = Primitive.size p dl.
Proof.
  intros Hdl [H1 H2]. destruct p as [i s| | |a]; [by eexists|done|done|]. cbn.
  destruct (bound_ok dl Hdl) as (b&Hb&_). unfold obj_size_bound, ptr_sized_integer in *.
  destruct (pointer_size_ok dl Hdl) as [Hp1 Hp2]. rewrite size_bits_ret in * by lia. cbn [obind] in *.
  destruct (Z.eqb_spec (pointer_size dl * 8) 16); [eexists; split; [done|cbn; unfold Size.from_bytes; lia]|].
  destruct (Z.eqb_spec (pointer_size dl * 8) 32); [eexists; split; [done|cbn; unfold Size.from_bytes; lia]|].
  destruct (Z.eqb_spec (pointer_size dl * 8) 64); [eexists; split; [done|cbn; unfold Size.from_bytes; lia]|].
  done.
Qed.

(** The assertions on the layout of the tag hold. *)
Lemma to_int_ty_signed dl p r ty :
  to_int_ty dl p = Ret ty → Abi.is_signed (AbiScalar (Initialized p r)) = Ret (dt_signed ty).
Proof.
  destruct p; cbn; [by intros [= <-]|done..|]. destruct (ptr_sized_integer dl); cbn; [|done].
  by intros [= <-].
Qed.

Lemma tag_asserts_ok {A} dl p r ty (k : outcome A) :
  to_int_ty dl p = Ret ty → Integer.size (dt_int ty) = Primitive.size p dl →
  rassert (Integer.size (dt_int ty) =? Scalar.size (Initialized p r) dl) (
    let! signed := Abi.is_signed (AbiScalar (Initialized p r)) in
    rassert (Bool.eqb (dt_signed ty) signed) k) = k.
Proof.
  intros Hty Hsz. rewrite (to_int_ty_signed dl p r ty Hty). unfold Scalar.size. cbn [Scalar.primitive].
  rewrite Hsz, Z.eqb_refl. cbn [rassert obind]. by rewrite eqb_reflx.
Qed.

(** The value of a discriminant and its bits differ by the width or not at all. *)
Lemma discr_value_cases repr dity d :
  is_uint (int_bits dity) d →
  discr_value repr dity d = d ∨ discr_value repr dity d = d - 2 ^ int_bits dity.
Proof.
  intros Hd. unfold discr_value. destruct (discr_signed repr); unfold to_signed; [destruct (_ <? _); auto|].
  destruct (Z.ltb_spec d (2 ^ (128 - 1))) as [|Hge]; [by left|right].
  destruct (decide (int_bits dity = 128)) as [->|Hne]; [done|]. destruct Hd as [_ Hd2].
  destruct (int_bits_bounds dity) as (Hb&_).
  assert (2 ^ int_bits dity ≤ 2 ^ 127) by (apply Z.pow_le_mono_r; lia). change (128 - 1) with 127 in Hge. lia.
Qed.

(** What is written to a tag is widened to the discriminant again. *)
Lemma cast_back_ok repr dity ity sg s' min max d :
  tag_fits (int_bits ity) sg min max → is_uint (int_bits dity) d →
  min ≤ discr_value repr dity d ≤ max →
  cast_from_int_like (mkDiscrTy ity sg) (mkDiscrTy dity s') (d mod 2 ^ int_bits ity) = Ret d.
Proof.
  intros [_ Hf] Hd Hv. unfold cast_from_int_like. cbn [dt_signed dt_int].
  set (w := int_bits ity) in *. set (b := int_bits dity) in *.
  destruct (int_bits_bounds ity) as (Hw&_). destruct (int_bits_bounds dity) as (Hb&_).
  fold w in Hw. fold b in Hb. pose proof (pow2_pos w ltac:(lia)) as Hpw.
  pose proof (Z.mod_pos_bound d (2 ^ w) Hpw) as Ht.
  pose proof (discr_value_cases repr dity d Hd) as Hval. fold b in Hval.
  set (v := discr_value repr dity d) in *.
  destruct (decide (b ≤ w)) as [Hbw|Hbw].
  - (* the tag holds all bits of the discriminant *)
    assert (2 ^ b ≤ 2 ^ w) by (apply Z.pow_le_mono_r; lia). destruct Hd as [Hd1 Hd2].
    rewrite (Z.mod_small d (2 ^ w)) by lia. destruct sg.
    + destruct (sign_extend_int ity d ltac:(split; fold w; lia)) as (e&->&He&Ee). cbn [obind].
      rewrite truncate_uint by done. fold b. f_equal.
      rewrite <- (of_to_signed 128 e) by (lia || done). rewrite Ee. fold w.
      unfold of_signed, wrap. rewrite Z.mod_mod_divide by (apply pow2_divide; lia).
      unfold to_signed. destruct (_ <? _); [by apply Z.mod_small|].
      replace (d - 2 ^ w) with (d + - 2 ^ (w - b) * 2 ^ b).
      { rewrite Z_mod_plus_full. by apply Z.mod_small. }
      rewrite Z.mul_opp_l, <- Z.pow_add_r by lia. replace (w - b + b) with w by lia. lia.
    + cbn [obind]. rewrite truncate_uint by (eapply (uint_widen dity); by split). fold b.
      f_equal. by apply Z.mod_small.
  - destruct sg.
    + assert (d mod 2 ^ w = v mod 2 ^ w) as Emod.
      { destruct Hval as [->| ->]; [done|]. replace (d - 2 ^ b) with (d + - 2 ^ (b - w) * 2 ^ w).
        { by rewrite Z_mod_plus_full. }
        rewrite Z.mul_opp_l, <- Z.pow_add_r by lia. replace (b - w + w) with b by lia. lia. }
      destruct (sign_extend_int ity (d mod 2 ^ w) Ht) as (e&->&He&Ee). cbn [obind].
      rewrite truncate_uint by done. fold b. f_equal.
      rewrite <- (of_to_signed 128 e) by (lia || done). rewrite Ee. fold w.
      unfold of_signed, wrap. rewrite Z.mod_mod_divide by (apply pow2_divide; lia).
      rewrite Emod. pose proof (to_signed_of_signed w v ltac:(lia) ltac:(lia)) as E.
      unfold of_signed, wrap in E. rewrite E. destruct Hval as [->| ->]; [by apply Z.mod_small|].
      replace (d - 2 ^ b) with (d + (-1) * 2 ^ b) by lia. rewrite Z_mod_plus_full. by apply Z.mod_small.
    + destruct Hf as [Hf|Hf]; [lia|]. destruct Hd as [Hd1 Hd2].
      assert (v = d) as Evd by (destruct Hval as [|E]; [done|lia]).
      rewrite (Z.mod_small d (2 ^ w)) by lia. cbn [obind].
      rewrite truncate_uint by (eapply (uint_widen dity); by split). fold b. f_equal. apply Z.mod_small. lia.
Qed.

(** ** Writing and reading back *)

(** The variants of the enum layout [e] are [ls]. *)
Definition has_variants (e : LayoutS) (ls : list LayoutS) : Prop :=
  ∃ tag enc, variants e = Multiple tag enc 0 ls.

(** Writing variant [k] of the enum [e] and reading it back.  With a single
    variant nothing is written, and whatever is in memory is read as [k].  With
    a tag of its own the tag written is read as [k], and a pointer in its place
    is rejected.  With a niche, a tag is written for every variant but the
    untagged one, whose own fields fill the niche: then every integer that is
    valid for them there reads as [k], and a pointer does exactly when the niche
    is the value 0 alone and the pointer is not null; other pointers are
    rejected. *)
Definition reads_back (dl : TargetDataLayout) (def : EnumDef) (e : LayoutS) (k : nat)
    (own : Z → Prop) : Prop :=
  let write := write_discriminant dl def e (Z.of_nat k) in
  let read := read_discriminant dl def e in
  let this := Ret (inl (Z.of_nat k)) in
  let invalid := Ret (inr InvalidTag) in
  let written := ∃ tag, write = Ret (inl (Some tag)) ∧ read (TagInt tag) = this in
  match variants e with
  | Single _ => write = Ret (inl None) ∧ ∀ t, read t = this
  | Multiple _ Direct _ _ => written ∧ ∀ may_be_null, read (TagPointer may_be_null) = invalid
  | Multiple _ (NicheEncoding untagged first last start) _ _ =>
      if decide (Z.of_nat k = untagged) then
        write = Ret (inl None) ∧ (∀ v, own v → read (TagInt v) = this) ∧
        ∀ may_be_null, read (TagPointer may_be_null)
          = if decide (start = 0 ∧ first = last ∧ may_be_null = false) then this else invalid
      else written
  end.

Section roundtrip.
Context (dl : TargetDataLayout) (Hdl : target_ok dl) (def : EnumDef) (vars : list (list LayoutS)).

Lemma for_variant_ok pack sz al e ls k flds l offs :
  has_variants e ls → ls !! k = Some l → variant_ok pack sz al (Z.of_nat k) flds l offs →
  inhabited flds →
  for_variant dl def e (Z.of_nat k) = Ret l ∧ Abi.is_uninhabited (layout_abi l) = false.
Proof.
  intros (tag&enc&E) Hl Hv Hi. unfold for_variant. rewrite E, Nat2Z.id, Hl. cbn [unwrap obind].
  rewrite (vo_index _ _ _ _ _ _ _ Hv), Z.eqb_refl. split; [done|].
  by rewrite (vo_inhabited _ _ _ _ _ _ _ Hv).
Qed.

(** A variant that takes part: inhabited ones are not absent. *)
Lemma inhabited_present flds : inhabited flds → absent flds = false.
Proof. unfold inhabited, absent. by intros ->. Qed.

Lemma niche_decode prim r r' largest first last s v :
  int_like prim → in_width (Primitive.size prim dl * 8) r →
  extends (Primitive.size prim dl * 8) r s (last - first + 1) r' →
  0 ≤ first ≤ last → last < Z.of_nat (length (en_discrs def)) → last < 2 ^ 32 →
  is_uint (Primitive.size prim dl * 8) v →
  (∃ dty, discr_to_ty dl (ReprOptions.discr_type (en_repr def)) = Ret dty) →
  let rel := (v - s) mod 2 ^ (Primitive.size prim dl * 8) in
  decode_tag dl def (Initialized prim r') (NicheEncoding largest first last s) (TagInt v)
  = Ret (inl (if rel <=? last - first then first + rel else largest)).
Proof.
  intros Hp Hr (_&Hs&_) Hfl Hlast H32 Hv (dty&Hdty). cbv zeta.
  destruct (to_int_ty_ok dl prim Hdl Hp) as (ty&Hty&Hsz).
  destruct (int_bits_bounds (dt_int ty)) as (Hb&Eb&_). rewrite Hsz in Eb.
  unfold decode_tag. rewrite Hdty. cbn [obind Scalar.primitive]. rewrite Hty. cbn [obind].
  rewrite (tag_asserts_ok dl prim r' ty _ Hty Hsz). rewrite <- Eb in *.
  rewrite (scalar_from_uint_ok _ v Hv), (scalar_from_uint_ok _ s Hs). cbn [obind].
  rewrite (binary_int_op_ok Sub) by done. cbn [obind].
  set (rel := (v - s) mod 2 ^ int_bits (dt_int ty)).
  assert (wsub 32 last first = last - first) as -> by (apply wrap_small; split; lia).
  assert (0 ≤ rel) by (apply Z.mod_pos_bound, pow2_pos; lia).
  destruct (Z.leb_spec rel (last - first)); [|done].
  destruct (Z.ltb_spec rel (2 ^ 32)); [|lia]. cbn [rassert]. unfold checked_add.
  destruct (Z.ltb_spec (first + rel) (2 ^ 32)); [|lia]. cbn [unwrap obind].
  by destruct (Z.ltb_spec (first + rel) (Z.of_nat (length (en_discrs def)))); [|lia].
Qed.

Lemma niche_decode_pointer prim r' largest first last s b :
  int_like prim → (∃ dty, discr_to_ty dl (ReprOptions.discr_type (en_repr def)) = Ret dty) →
  decode_tag dl def (Initialized prim r') (NicheEncoding largest first last s) (TagPointer b)
  = Ret (if decide (s = 0 ∧ first = last ∧ b = false) then inl largest else inr InvalidTag).
Proof.
  intros Hp (dty&Hdty). destruct (to_int_ty_ok dl prim Hdl Hp) as (ty&Hty&Hsz).
  unfold decode_tag. rewrite Hdty. cbn [obind Scalar.primitive]. rewrite Hty. cbn [obind].
  rewrite (tag_asserts_ok dl prim r' ty _ Hty Hsz).
  destruct (Z.eqb_spec s 0), (Z.eqb_spec first last), b; case_decide; naive_solver.
Qed.

(** The values that a live variant [l] may put in the place of the tag of [e]:
    those that are valid for the niche of one of its fields there. *)
Definition own_value (e l : LayoutS) (flds : list LayoutS) (v : Z) : Prop :=
  ∃ i f o n offs mi, fields l = ArbitraryShape offs mi ∧ flds !! i = Some f ∧ offs !! i = Some o ∧
    largest_niche f = Some n ∧ fields e = ArbitraryShape [o + offset n] [0] ∧
    is_uint (niche_bits n dl) v ∧ WrappingRange.contains (valid_range n) v = true.

(** No other field of the variant has a niche in that place. *)
Lemma own_value_unique pack hi e l flds offs mi i f o n v :
  Forall (layout_ok dl) flds → fields l = ArbitraryShape offs mi → fields_placed pack flds offs hi →
  flds !! i = Some f → offs !! i = Some o → largest_niche f = Some n →
  fields e = ArbitraryShape [o + offset n] [0] →
  own_value e l flds v →
  is_uint (niche_bits n dl) v ∧ WrappingRange.contains (valid_range n) v = true.
Proof.
  intros Hf Efl (_&_&Hdis) Hi Ho Hn Ee (j&g&p&n'&offs'&mi'&Efl'&Hj&Hp&Hn'&Ee'&Hv&Hc).
  rewrite Efl in Efl'. injection Efl' as <- <-. rewrite Ee in Ee'. injection Ee' as Eoff.
  assert (i = j) as <-.
  { destruct (niche_ok dl f (Forall_lookup_1 _ _ _ _ Hf Hi) n Hn) as ([[? _] _]&?&?).
    destruct (niche_ok dl g (Forall_lookup_1 _ _ _ _ Hf Hj) n' Hn') as ([[? _] _]&?&?).
    apply (Hdis i j f g o p (o + offset n)); try done; lia. }
  rewrite Hi in Hj. injection Hj as <-. rewrite Hn in Hn'. by injection Hn' as <-.
Qed.

(** What [write_discriminant] computes for a niche variant. *)
Lemma niche_encode prim s k first :
  int_like prim → let w := Primitive.size prim dl * 8 in
  is_uint w s → is_uint w (k - first) →
  (let! rel := unwrap (checked_sub k first) in
   let! ty := to_int_ty dl prim in
   let! start := scalar_from_uint s (Integer.size (dt_int ty)) in
   let! rel := scalar_from_uint rel (Integer.size (dt_int ty)) in
   binary_int_op Add ty rel start) = Ret ((k - first + s) mod 2 ^ w).
Proof.
  intros Hp w Hs Hrel. destruct (to_int_ty_ok dl prim Hdl Hp) as (ty&Hty&Hsz).
  destruct (int_bits_bounds (dt_int ty)) as (_&Eb&_). rewrite Hsz in Eb. fold w in Eb.
  unfold checked_sub. destruct (Z.leb_spec first k); [|by destruct Hrel; lia]. cbn [unwrap obind].
  rewrite Hty. cbn [obind]. rewrite (scalar_from_uint_ok _ s) by (by rewrite Eb). cbn [obind].
  rewrite (scalar_from_uint_ok _ (k - first)) by (by rewrite Eb). cbn [obind].
  rewrite (binary_int_op_ok Add) by (by rewrite Eb). by rewrite Eb.
Qed.

Lemma niche_reads_back repr e ls k flds l :
  niche_filled dl repr vars e ls → has_variants e ls → Z.of_nat (length vars) < 2 ^ 32 →
  length (en_discrs def) = length vars → Forall (Forall (layout_ok dl)) vars →
  (∃ dty, discr_to_ty dl (ReprOptions.discr_type (en_repr def)) = Ret dty) →
  (∀ flds f n, flds ∈ vars → f ∈ flds → largest_niche f = Some n → int_like (value n)) →
  vars !! k = Some flds → ls !! k = Some l → inhabited flds →
  reads_back dl def e k (own_value e l flds).
Proof.
  intros (_&_&prim&r&r'&largest&first&last&s&noff&(vs&Ev)&Ee&Hlg&Hfl&Hll&Hin&Hw&Hext&Hcount&Hlen&Hvar)
    Hhas H32 Hdef Hok Hdty Hint Hk Hl Hi.
  destruct (Hvar k flds Hk) as (l'&offs&Hl'&Hv&Hcase). rewrite Hl in Hl'. injection Hl' as <-.
  assert (int_like prim) as Hp.
  { destruct (lookup_lt_is_Some_2 vars (Z.to_nat largest)) as [fl Hfl']; [lia|].
    destruct (Hvar _ fl Hfl') as (?&?&_&_&Hc). rewrite decide_True in Hc by lia.
    destruct Hc as (i&f&o&Hf&_&Hn).
    apply (Hint fl f _ (list_elem_of_lookup_2 _ _ _ Hfl') (list_elem_of_lookup_2 _ _ _ Hf) Hn). }
  destruct (for_variant_ok _ _ _ e ls k flds l offs Hhas Hl Hv Hi) as [Hfv Hu].
  assert (∀ t, decode_tag dl def (Initialized prim r') (NicheEncoding largest first last s) t
               = Ret (inl (Z.of_nat k)) →
               read_discriminant dl def e t = Ret (inl (Z.of_nat k))) as Hread.
  { intros t E. unfold read_discriminant. rewrite Ev, E. cbn [obind]. by rewrite Hfv; cbn [obind]; rewrite Hu. }
  set (w := Primitive.size prim dl * 8) in *.
  destruct (primitive_size_small dl Hdl prim) as [Hs1 Hs2].
  assert (0 < w) as Hw0 by (unfold w; lia). pose proof (pow2_pos w ltac:(lia)) as Hpw.
  assert (invalid_count w r < 2 ^ w) as Hic.
  { rewrite invalid_count_eq by (lia || done). by apply Z.mod_pos_bound. }
  assert (∀ v, is_uint w v → decode_tag dl def (Initialized prim r')
      (NicheEncoding largest first last s) (TagInt v)
      = Ret (inl (if (v - s) mod 2 ^ w <=? last - first then first + (v - s) mod 2 ^ w else largest)))
    as Hdec.
  { intros v Hv'. apply (niche_decode prim r); try done; lia. }
  unfold reads_back, write_discriminant. rewrite Hfv. cbn [obind]. rewrite Hu, Ev.
  destruct (Z.eqb_spec (Z.of_nat k) largest) as [E|Hne];
    [rewrite decide_True by done|rewrite decide_False by done].
  - (* the untagged variant *)
    split; [done|]. split; cycle 1.
    { intros b. pose proof (niche_decode_pointer prim r' largest first last s b Hp Hdty) as Eb.
      case_decide; [by apply Hread; rewrite Eb, E|].
      unfold read_discriminant. by rewrite Ev, Eb. }
    intros v Hown. apply Hread. rewrite decide_True in Hcase by done.
    destruct Hcase as (i&f&o&Hf&Ho&Hn). destruct (vo_fields _ _ _ _ _ _ _ Hv) as (mi&Efl&_).
    destruct (own_value_unique _ _ e l flds offs mi i f o _ v (Forall_lookup_1 _ _ _ _ Hok Hk) Efl
                (vo_placed _ _ _ _ _ _ _ Hv) Hf Ho Hn) as [Hvu Hc]; [|done|].
    { cbn. rewrite Ee. do 2 f_equal. lia. }
    unfold niche_bits in Hvu. cbn in Hvu, Hc. fold w in Hvu. rewrite Hdec by done.
    destruct Hext as (_&_&Hext). destruct (Hext v Hvu) as [_ Hno].
    destruct (Z.leb_spec ((v - s) mod 2 ^ w) (last - first)) as [Hle|]; [|by rewrite E].
    rewrite Hno in Hc; [done|]. unfold in_arc. lia.
  - pose proof (Hin k flds Hk (inhabited_present _ Hi) Hne) as Hrange.
    assert (is_uint w s) as Hs by apply Hext. assert (is_uint w (Z.of_nat k - first)) as Hrel by (split; lia).
    pose proof (niche_encode prim s (Z.of_nat k) first Hp Hs Hrel) as Henc. fold w in Henc.
    exists ((Z.of_nat k - first + s) mod 2 ^ w). split.
    { cbn [Scalar.primitive]. revert Henc. generalize (unwrap (checked_sub (Z.of_nat k) first)).
      intros [rel|]; cbn [obind]; [|done]. destruct (to_int_ty dl prim); cbn [obind]; [|done].
      destruct (scalar_from_uint s _); cbn [obind]; [|done]. destruct (scalar_from_uint rel _); cbn [obind]; [|done].
      by intros ->. }
    cbn beta iota. apply Hread. rewrite Hdec by (by apply Z.mod_pos_bound).
    rewrite Zminus_mod_idemp_l. replace (Z.of_nat k - first + s - s) with (Z.of_nat k - first) by lia.
    rewrite Z.mod_small by done. destruct (Z.leb_spec (Z.of_nat k - first) (last - first)); [|lia].
    do 2 f_equal. lia.
Qed.

Lemma find_discriminant ds k d :
  NoDup ds → ds !! k = Some d →
  List.find (λ p : Z * Z, snd p =? d) (enumerate ds) = Some (Z.of_nat k, d).
Proof.
  intros Hnd Hk. destruct (find_exists (λ p : Z * Z, snd p =? d) (enumerate ds) (Z.of_nat k, d)) as [q Hq].
  { by apply enumerate_elem. }
  { apply Z.eqb_refl. }
  rewrite Hq. destruct (find_first _ _ _ Hq) as (Hp&Hpos&Hlk&_). destruct q as [j d']. cbn in *.
  apply Z.eqb_eq in Hp as ->. assert (Z.to_nat j = k) as <- by (by eapply NoDup_lookup).
  do 2 f_equal. lia.
Qed.

Lemma tagged_reads_back dity ds e ls k flds l own :
  tagged dl (en_repr def) dity vars ds e ls → has_variants e ls →
  discr_to_ty dl (ReprOptions.discr_type (en_repr def))
  = Ret (mkDiscrTy dity (IntegerType.is_signed (ReprOptions.discr_type (en_repr def)))) →
  discriminants dl (en_repr def) (en_discrs def) = Ret (enumerate ds) →
  (∀ k d, ds !! k = Some d →
     discriminant_for_variant dl (en_repr def) (en_discrs def) (Z.of_nat k) = Ret d) →
  Forall (is_uint (int_bits dity)) ds → NoDup ds → length ds = length vars →
  vars !! k = Some flds → ls !! k = Some l → inhabited flds →
  reads_back dl def e k own.
Proof.
  intros (_&_&ity&sg&min&max&(vs&Ev)&_&_&_&Hfits&Hall&_&Hvar) Hhas Hdty Hds Hone Hu Hnd Hlen Hk Hl Hi.
  destruct (Hvar k flds Hk) as (l'&Hl'&offs&Hv&_). rewrite Hl in Hl'. injection Hl' as <-.
  destruct (for_variant_ok _ _ _ e ls k flds l offs Hhas Hl Hv Hi) as [Hfv Hun].
  destruct (lookup_lt_is_Some_2 ds k) as [d Hd]; [rewrite Hlen; by eapply lookup_lt_Some|].
  pose proof (Forall_lookup_1 _ _ _ _ Hu Hd) as Hdu. cbv beta in Hdu.
  pose proof (Hall k flds d Hk Hd Hi) as Hval.
  destruct (int_bits_bounds ity) as (Hb&Eb&_). pose proof (pow2_pos (int_bits ity) ltac:(lia)) as Hpw.
  unfold reads_back, write_discriminant. rewrite Hfv. cbn [obind]. rewrite Hun, Ev, (Hone k d Hd).
  cbn [obind Scalar.size Scalar.primitive Primitive.size].
  rewrite truncate_uint by (by eapply uint_widen). cbn [obind].
  rewrite scalar_from_uint_ok by (by apply Z.mod_pos_bound). cbn [obind].
  unfold read_discriminant. rewrite Ev. unfold decode_tag.
  rewrite Hdty. cbn [obind Scalar.primitive to_int_ty].
  split; [|by intros b; rewrite (tag_asserts_ok dl (Int ity sg) _ (mkDiscrTy ity sg))].
  eexists. split; [done|]. rewrite (tag_asserts_ok dl (Int ity sg) _ (mkDiscrTy ity sg)) by done.
  rewrite (cast_back_ok (en_repr def) dity ity sg _ min max d Hfits Hdu Hval). cbn [obind].
  rewrite Hds. cbn [obind]. rewrite (find_discriminant ds k d Hnd Hd). cbn [obind].
  rewrite Hfv. cbn [obind]. by rewrite Hun.
Qed.
End roundtrip.

(** ** The layout of an enum *)

(** An enum as type checking accepts it: its variants [vars], their explicit
    discriminants [exprs], the type [dity] of its discriminants.  Enums are never
    packed; fields have layouts, niches are integers, and every variant fits
    below the object size bound, alone and behind every tag. *)
Record enum_input `{Shuffle} (dl : TargetDataLayout) (repr : ReprOptions) (vars : list (list LayoutS))
    (exprs : list (option (option Z))) (dity : Integer) : Prop := {
  ei_repr : repr_ok repr;
  ei_pack : repr_pack repr = None;
  ei_type : from_attr dl (ReprOptions.discr_type repr) = Ret dity;
  ei_c_enum : repr_int repr = None → is_c repr = true → int_bits (c_enum_min_size dl) ≤ int_bits dity;
  ei_length : length exprs = length vars;
  ei_count : Z.of_nat (length vars) < 2 ^ 32 ∧ Z.of_nat (length vars) ≤ 2 ^ int_bits dity;
  ei_explicit : Forall (explicit_ok (int_bits dity)) (lower_variants 0 exprs);
  ei_distinct ds : discriminants dl repr (lower_variants 0 exprs) = Ret ds → NoDup (snd <$> ds);
  ei_fields : Forall (Forall (layout_ok dl)) vars;
  ei_niches flds f n : flds ∈ vars → f ∈ flds → largest_niche f = Some n → int_like (value n);
  ei_fit : variants_fit dl repr AlwaysSized vars;
  ei_fit_tagged i :
    variants_fit dl repr (Prefixed (Integer.size i) (prefix_align_of dl repr vars i)) vars;
}.

Section choice.
Context `{ShufflePerm} (dl : TargetDataLayout) (Hdl : target_ok dl).

Lemma pick_layout_ok tl nl :
  layout_ok dl (tmp_layout tl) → layout_ok dl (tmp_layout nl) →
  ∃ best, pick_layout dl tl nl = Ret best ∧ (best = tl ∨ best = nl) ∧
    size (tmp_layout best) ≤ size (tmp_layout tl) ∧ size (tmp_layout best) ≤ size (tmp_layout nl).
Proof.
  intros Ht Hn. unfold pick_layout. destruct (niche_size_ret dl _ Ht) as (tn&->&_).
  destruct (niche_size_ret dl _ Hn) as (nn&->&_). cbn [obind]. eexists. split; [done|].
  destruct (Z.ltb_spec (size (tmp_layout nl)) (size (tmp_layout tl))); [split; [by right|lia]|].
  destruct (Z.eqb_spec (size (tmp_layout tl)) (size (tmp_layout nl))); cbn [andb];
    [destruct (_ <? _)|]; (split; [auto|lia]).
Qed.

(** Interning the variants changes nothing else. *)
Lemma intern_niche_filled repr vars tmp :
  niche_filled dl repr vars (tmp_layout tmp) (tmp_variants tmp) →
  ∃ e, intern_variants tmp = Ret e ∧ has_variants e (tmp_variants tmp) ∧
    niche_filled dl repr vars e (tmp_variants tmp) ∧ size e = size (tmp_layout tmp).
Proof.
  intros (Hok&Hdiv&prim&r&r'&largest&first&last&s&noff&(vs&Ev)&Hrest). unfold intern_variants. rewrite Ev.
  eexists. split; [done|]. split; [by do 2 eexists|]. split; [|done].
  split; [by destruct Hok; split|]. split; [done|].
  exists prim, r, r', largest, first, last, s, noff. split; [by eexists|done].
Qed.

Lemma intern_tagged repr dity vars ds tmp :
  tagged dl repr dity vars ds (tmp_layout tmp) (tmp_variants tmp) →
  ∃ e, intern_variants tmp = Ret e ∧ has_variants e (tmp_variants tmp) ∧
    tagged dl repr dity vars ds e (tmp_variants tmp) ∧ size e = size (tmp_layout tmp).
Proof.
  intros (Hok&Hdiv&ity&sg&min&max&(vs&Ev)&Hrest). unfold intern_variants. rewrite Ev.
  eexists. split; [done|]. split; [by do 2 eexists|]. split; [|done].
  split; [by destruct Hok; split|]. split; [done|]. exists ity, sg, min, max. split; [by eexists|done].
Qed.

(** A multi-variant layout of the enum, no larger than either candidate. *)
Definition enum_chosen (repr : ReprOptions) (dity : Integer) (vars : list (list LayoutS)) (ds : list Z)
    (dont : bool) (e : LayoutS) : Prop :=
  ∃ ls, has_variants e ls ∧
    (niche_filled dl repr vars e ls ∨ tagged dl repr dity vars ds e ls) ∧
    (∀ tmp, tagged_layout dl repr vars (repr_discr dl repr) (discriminants_of ds) = Ret (Some tmp) →
       size e ≤ size (tmp_layout tmp)) ∧
    (∀ tmp, niche_filling_layout dl repr vars dont = Ret (Some tmp) → size e ≤ size (tmp_layout tmp)).

Lemma layout_of_enum_ok repr vars exprs dity ds dont bound :
  enum_input dl repr vars exprs dity → length ds = length vars → Forall (is_uint (int_bits dity)) ds →
  obj_size_bound dl = Ret bound → vars ≠ [] → (dont = false → two_present vars) →
  ∃ r, layout_of_enum dl repr vars (repr_discr dl repr) (discriminants_of ds) dont = Ret r ∧
    match r with
    | None => too_large dl repr vars bound
    | Some e => enum_chosen repr dity vars ds dont e
    end.
Proof.
  intros Hin Hlen Hu Hb Hne H2. unfold layout_of_enum, enum_chosen.
  assert (∃ nl, niche_filling_layout dl repr vars dont = Ret nl ∧
            ∀ tmp, nl = Some tmp → niche_filled dl repr vars (tmp_layout tmp) (tmp_variants tmp))
    as (nl&Enl&Hnl).
  { destruct dont; [by exists None|].
    destruct (niche_filling_ok dl Hdl repr vars (ei_repr _ _ _ _ _ Hin) (ei_fit _ _ _ _ _ Hin) (H2 eq_refl))
      as (r&E&Hr); [pose proof (ei_count _ _ _ _ _ Hin); lia|].
    exists r. split; [done|]. by intros tmp ->. }
  destruct (tagged_layout_ok dl Hdl repr dity (ei_type _ _ _ _ _ Hin) vars ds (ei_repr _ _ _ _ _ Hin)
              (ei_pack _ _ _ _ _ Hin) Hne Hlen Hu (ei_c_enum _ _ _ _ _ Hin) (ei_fields _ _ _ _ _ Hin)
              (ei_fit_tagged _ _ _ _ _ Hin) bound Hb) as (tl&Etl&Htl).
  rewrite Enl, Etl. unfold obind_opt. cbn [obind]. destruct tl as [tl|]; [|by eexists].
  assert (∃ best, match nl with Some nl => pick_layout dl tl nl | None => Ret tl end = Ret best ∧
            (best = tl ∨ nl = Some best) ∧ size (tmp_layout best) ≤ size (tmp_layout tl) ∧
            ∀ tmp, nl = Some tmp → size (tmp_layout best) ≤ size (tmp_layout tmp)) as (best&->&Hbest&Ht&Hn).
  { destruct nl as [nl|].
    - destruct (pick_layout_ok tl nl (proj1 Htl) (proj1 (Hnl nl eq_refl))) as (best&->&Hbest&?&?).
      exists best. split_and!; [done| |done|].
      + destruct Hbest as [->| ->]; auto.
      + by intros tmp [= <-].
    - exists tl. split_and!; [done|by left|lia|done]. }
  cbn [obind].
  assert (∃ e, intern_variants best = Ret e ∧ has_variants e (tmp_variants best) ∧
            (niche_filled dl repr vars e (tmp_variants best) ∨ tagged dl repr dity vars ds e (tmp_variants best))
            ∧ size e = size (tmp_layout best)) as (e&->&Hhas&Hsound&Hsz).
  { destruct Hbest as [->|Hbest].
    - destruct (intern_tagged repr dity vars ds tl Htl) as (e&?&?&?&?). exists e. by split_and!; [..|right|].
    - destruct (intern_niche_filled repr vars best (Hnl best Hbest)) as (e&?&?&?&?). exists e.
      by split_and!; [..|left|]. }
  cbn [obind]. eexists. split; [done|]. exists (tmp_variants best). split_and!; [done|done| |].
  - intros tmp [= <-]. lia.
  - intros tmp [= Enl']. rewrite Hsz. by apply Hn.
Qed.

(** [present_variants] *)
Lemma present_spec (vars : list (list LayoutS)) :
  let present := omap (λ p : Z * list LayoutS, if absent (snd p) then None else Some (fst p))
                   (enumerate vars) in
  NoDup present ∧
  ∀ x, x ∈ present ↔ ∃ k v, x = Z.of_nat k ∧ vars !! k = Some v ∧ absent v = false.
Proof.
  intros present. split.
  - unfold present, enumerate. set (f := λ _, _).
    assert (∀ j, NoDup (omap f (zip (seqZ j (Z.of_nat (length vars))) vars)) ∧
      ∀ x, x ∈ omap f (zip (seqZ j (Z.of_nat (length vars))) vars) → j ≤ x) as Hgen; [|apply Hgen].
    induction vars as [|v vars IH]; intros j.
    { rewrite zip_with_nil_r. split; [constructor|]. intros x Hx. by apply elem_of_nil in Hx. }
    cbn [length]. rewrite seqZ_cons by lia. replace (Z.pred (Z.of_nat (S (length vars)))) with
      (Z.of_nat (length vars)) by lia. cbn [zip_with omap list_omap].
    destruct (IH (Z.succ j)) as [Hnd Hge].
    change (f (j, v)) with (if absent v then None else Some j). destruct (absent v).
    { split; [done|]. intros x Hx%Hge. lia. }
    split.
    + constructor; [|done]. intros Hx%Hge. lia.
    + intros x [->|Hx%Hge]%elem_of_cons; lia.
  - intros x. unfold present. rewrite list_elem_of_omap. split.
    + intros ([j v]&[k (y&Hk&[= -> ->])%enumerate_lookup]%list_elem_of_lookup&Hx). cbn in Hx.
      destruct (absent y) eqn:Ea; [done|]. injection Hx as <-. by exists k, y.
    + intros (k&v&->&Hk&Ha). exists (Z.of_nat k, v). split; [by apply enumerate_elem|]. cbn. by rewrite Ha.
Qed.

(** Only variant [k], with fields [flds], is present. *)
Definition only_present (vars : list (list LayoutS)) (k : nat) (flds : list LayoutS) : Prop :=
  vars !! k = Some flds ∧ absent flds = false ∧
  ∀ i v, vars !! i = Some v → absent v = false → i = k.

(** How many variants are present, by the list the code makes of them *)
Lemma present_count (vars : list (list LayoutS)) :
  let present := omap (λ p : Z * list LayoutS, if absent (snd p) then None else Some (fst p))
                   (enumerate vars) in
  (Forall (λ flds, absent flds = true) vars ↔ present = []) ∧
  (∀ k flds, only_present vars k flds ↔ present = [Z.of_nat k] ∧ vars !! k = Some flds) ∧
  (two_present vars ↔ (2 ≤ length present)%nat).
Proof.
  intros present. destruct (present_spec vars) as [Hnd Hpres]. fold present in Hnd, Hpres.
  clearbody present. split_and!.
  - split.
    + intros Habs. destruct present as [|x l]; [done|].
      destruct (proj1 (Hpres x) ltac:(left)) as (k&v&_&Hk&Ha).
      pose proof (Forall_lookup_1 _ _ _ _ Habs Hk). congruence.
    + intros ->. apply Forall_lookup_2. intros k v Hk. destruct (absent v) eqn:Ea; [done|].
      exfalso. apply (not_elem_of_nil (Z.of_nat k)), Hpres. by exists k, v.
  - intros k flds. split.
    + intros (Hk&Ha&Huniq). split; [|done].
      assert (Z.of_nat k ∈ present) as Hin by (apply Hpres; by exists k, flds).
      assert (∀ x, x ∈ present → x = Z.of_nat k) as Hall.
      { intros x (i&v&->&Hi&Hv)%Hpres. by rewrite (Huniq i v Hi Hv). }
      destruct present as [|x [|y l]]; [by apply elem_of_nil in Hin| |].
      * by rewrite (Hall x) by left.
      * apply list.NoDup_cons in Hnd as [Hnot _]. exfalso. apply Hnot.
        rewrite (Hall x), <- (Hall y) by (left || right; left). left.
    + intros [-> Hk]. destruct (proj1 (Hpres (Z.of_nat k)) ltac:(left)) as (k'&v&Ek&Hk'&Ha).
      assert (k' = k) as -> by lia. rewrite Hk in Hk'. injection Hk' as <-. split_and!; [done..|].
      intros i v Hi Hv. assert (Z.of_nat i ∈ [Z.of_nat k]) as E by (apply Hpres; by exists i, v).
      apply list_elem_of_singleton in E. lia.
  - split.
    + intros (i&j&vi&vj&Hne&Hi&Hj&Hvi&Hvj).
      assert (Z.of_nat i ∈ present) as E1 by (apply Hpres; by exists i, vi).
      assert (Z.of_nat j ∈ present) as E2 by (apply Hpres; by exists j, vj).
      destruct present as [|x [|y l]]; [by apply elem_of_nil in E1| |cbn; lia].
      apply list_elem_of_singleton in E1, E2. lia.
    + intros Hlen. destruct present as [|x [|y l]]; cbn in Hlen; [lia..|].
      destruct (proj1 (Hpres x) ltac:(left)) as (i&vi&->&Hi&Hvi).
      destruct (proj1 (Hpres y) ltac:(right; left)) as (j&vj&->&Hj&Hvj).
      exists i, j, vi, vj. split_and!; try done. intros ->.
      apply list.NoDup_cons in Hnd as [Hnot _]. apply Hnot. left.
Qed.

Lemma present_cases (vars : list (list LayoutS)) :
  Forall (λ flds, absent flds = true) vars ∨ (∃ k flds, only_present vars k flds) ∨ two_present vars.
Proof.
  destruct (present_count vars) as (Hc0&Hc1&Hc2). destruct (present_spec vars) as [_ Hpres].
  set (present := omap _ _) in *. destruct present as [|x [|y l]].
  - left. by apply Hc0.
  - right; left. destruct (proj1 (Hpres x) ltac:(left)) as (k&flds&->&Hk&_). exists k, flds. by apply Hc1.
  - right; right. apply Hc2. cbn. lia.
Qed.

Lemma enumerate_inj {A} (l k : list A) : enumerate l = enumerate k → l = k.
Proof.
  intros E%(f_equal (fmap snd)). unfold enumerate in E.
  by rewrite !snd_zip in E by (rewrite length_seqZ; lia).
Qed.

(** Without a valid range of its own, [narrow_scalar] keeps the scalar. *)
Lemma narrow_scalar_unbounded s n :
  scalar_ok dl s → (∀ n', n = Some n' → niche_wf n' dl) →
  ∃ n', narrow_scalar dl s n Unbounded Unbounded = Ret (s, n').
Proof.
  intros Hs Hn. unfold narrow_scalar.
  pose proof (primitive_size_small dl Hdl (Scalar.primitive s)) as Hsz. fold (Scalar.size s dl) in Hsz.
  rewrite unsigned_int_max_value by done. cbn [obind narrow_start narrow_end].
  destruct (from_scalar_ret dl Hdl Size.ZERO s Hs ltac:(done)) as (m&->&Hm). cbn [obind].
  destruct m as [m|]; [|by eexists]. destruct n as [n|]; [|by eexists].
  destruct (available_ret dl n (Hn n eq_refl)) as (a&->&_).
  destruct (available_ret dl m (proj1 (Hm m eq_refl))) as (b&->&_). by eexists.
Qed.

(** An enum with one present variant is laid out as the struct of its fields. *)
Definition single_variant (repr : ReprOptions) (flds : list LayoutS) (k : Z) (e : LayoutS) : Prop :=
  variants e = Single k ∧
  Abi.is_uninhabited (layout_abi e) = existsb (λ f, Abi.is_uninhabited (layout_abi f)) flds ∧
  ∃ offs mi, fields e = ArbitraryShape offs mi ∧
    fields_placed (repr_pack repr) flds offs (size e).

Lemma layout_of_struct_ok repr vars k flds :
  repr_ok repr → vars !! k = Some flds → Forall (layout_ok dl) flds → struct_fits dl flds repr AlwaysSized →
  ∃ e, layout_of_struct dl repr vars true false (Unbounded, Unbounded) true (Z.of_nat k) = Ret (Some e) ∧
    single_variant repr flds (Z.of_nat k) e.
Proof.
  intros Hr Hk Hf Hfit. unfold layout_of_struct. rewrite Nat2Z.id, Hk. cbn [unwrap obind orb].
  destruct (univariant_fits dl Hdl flds repr AlwaysSized Hf Hr I Hfit) as (st&->&Hst).
  unfold obind_opt. cbn [obind]. destruct Hst as (Hok&(offs&mi&Hpl&_)&_&Hu).
  assert (∀ a n, Abi.is_uninhabited a = Abi.is_uninhabited (layout_abi st) →
            single_variant repr flds (Z.of_nat k) (with_abi_niche st (Z.of_nat k) a n)) as Hres.
  { intros a n Ha. split; [done|]. split; [cbn; by rewrite Ha|]. exists offs, mi. split; [apply Hpl|].
    by eapply struct_placed_fields. }
  assert (∀ n', largest_niche st = Some n' → niche_wf n' dl) as Hn.
  { intros n' E. by apply (niche_ok dl st Hok n'). }
  pose proof (layout_abi_ok dl st Hok) as Ha. destruct (layout_abi st) eqn:Ea; cbn [rassert andb];
    try (rewrite !bool_decide_true by done; eexists; split; [done|]; by apply Hres).
  - destruct (narrow_scalar_unbounded s (largest_niche st) Ha Hn) as (n'&->). cbn [obind].
    eexists. split; [done|]. by apply Hres.
  - destruct (narrow_scalar_unbounded s1 (largest_niche st) (proj1 Ha) Hn) as (n'&->). cbn [obind].
    eexists. split; [done|]. by apply Hres.
Qed.

Section input.
Context (repr : ReprOptions) (vars : list (list LayoutS)) (exprs : list (option (option Z)))
  (dity : Integer) (Hin : enum_input dl repr vars exprs dity).

(** The enum as the interpreter sees it *)
Definition enum_def : EnumDef :=
  mkEnum repr (lower_variants 0 exprs) ((λ v : list LayoutS, Z.of_nat (length v)) <$> vars).

Lemma enum_discr_ty :
  discr_to_ty dl (ReprOptions.discr_type repr)
  = Ret (mkDiscrTy dity (IntegerType.is_signed (ReprOptions.discr_type repr))).
Proof. unfold discr_to_ty. by rewrite (ei_type _ _ _ _ _ Hin). Qed.

(** The discriminants of the enum *)
Lemma enum_discriminants :
  ∃ ds, discriminants dl repr (lower_variants 0 exprs) = Ret (enumerate ds) ∧
    discriminants_iter dl repr (lower_variants 0 exprs) = Ret (discriminants_of ds) ∧
    length ds = length vars ∧ Forall (is_uint (int_bits dity)) ds ∧ NoDup ds ∧
    ∀ k d, ds !! k = Some d →
      discriminant_for_variant dl repr (lower_variants 0 exprs) (Z.of_nat k) = Ret d.
Proof.
  destruct Hin as [_ _ _ _ Hl [Hc1 Hc2] Hex Hnd _ _ _ _]. rewrite <- Hl in Hc1, Hc2.
  destruct (discriminants_ok dl repr exprs _ enum_discr_ty Hex) as (ds&E&Hlen&Hu&Hs). exists ds.
  split_and!; [done| |congruence|done| |].
  - unfold discriminants_iter. rewrite E. cbn [obind]. f_equal. apply list_eq. intros k.
    unfold discriminants_of. rewrite list_lookup_fmap.
    destruct (enumerate ds !! k) as [p|] eqn:Ek; cbn.
    + apply enumerate_lookup in Ek as (d&Hd&->). symmetry. apply enumerate_lookup. exists (to_signed 128 d).
      by rewrite list_lookup_fmap, Hd.
    + symmetry. destruct (enumerate (to_signed 128 <$> ds) !! k) as [p|] eqn:Ek'; [|done].
      apply enumerate_lookup in Ek' as (x&Hx&_). rewrite list_lookup_fmap in Hx.
      apply fmap_Some in Hx as (d&Hd&_).
      assert (enumerate ds !! k = Some (Z.of_nat k, d)) by (apply enumerate_lookup; by exists d). congruence.
  - apply Hnd in E. unfold enumerate in E. by rewrite snd_zip in E by (rewrite length_seqZ; lia).
  - intros k d Hk. by eapply (discriminant_for_variant_ok dl repr exprs _ enum_discr_ty).
Qed.

Lemma single_reads_back k flds e own :
  single_variant repr flds (Z.of_nat k) e → vars !! k = Some flds → inhabited flds →
  for_variant dl enum_def e (Z.of_nat k) = Ret e ∧ reads_back dl enum_def e k own.
Proof.
  intros (Ev&Hu&offs&mi&Efl&_) Hk Hi. rewrite Hi in Hu.
  assert (for_variant dl enum_def e (Z.of_nat k) = Ret e) as Hfv.
  { unfold for_variant. rewrite Ev, Z.eqb_refl, Efl. cbn [andb negb is_primitive_shape obind].
    by rewrite Ev, Z.eqb_refl. }
  split; [done|]. unfold reads_back. rewrite Ev. split.
  - unfold write_discriminant. rewrite Hfv. cbn [obind]. by rewrite Hu, Ev, Z.eqb_refl.
  - intros t. unfold read_discriminant. rewrite Ev. rewrite bool_decide_false.
    + rewrite Hfv. cbn [obind]. by rewrite Hu.
    + cbn. intros E. pose proof (lower_variants_length 0 exprs) as Hl. rewrite E in Hl. cbn in Hl.
      rewrite (ei_length _ _ _ _ _ Hin) in Hl. apply lookup_lt_Some in Hk. lia.
Qed.

Lemma chosen_reads_back ds dont e k flds :
  discriminants dl repr (lower_variants 0 exprs) = Ret (enumerate ds) →
  length ds = length vars → Forall (is_uint (int_bits dity)) ds → NoDup ds →
  (∀ k d, ds !! k = Some d →
     discriminant_for_variant dl repr (lower_variants 0 exprs) (Z.of_nat k) = Ret d) →
  enum_chosen repr dity vars ds dont e → vars !! k = Some flds → inhabited flds →
  ∃ l, for_variant dl enum_def e (Z.of_nat k) = Ret l ∧
       reads_back dl enum_def e k (own_value dl e l flds).
Proof.
  intros Hds Hlen Hu Hnd Hone (ls&Hhas&Hsound&_) Hk Hi. pose proof enum_discr_ty as Hty.
  pose proof Hin as [_ _ _ _ Hl [Hc1 _] _ _ Hok Hint _ _].
  assert (∃ l pack sz al offs, ls !! k = Some l ∧ variant_ok pack sz al (Z.of_nat k) flds l offs)
    as (l&pack&sz&al&offs&Hlk&Hv).
  { destruct Hsound as [Hs|Hs].
    - destruct Hs as (_&_&prim&r&r'&lg&fi&la&s&noff&_&_&_&_&_&_&_&_&_&_&Hvar).
      destruct (Hvar k flds Hk) as (l&offs&?&?&_). by do 5 eexists.
    - destruct Hs as (_&_&ity&sg&min&max&_&_&_&_&_&_&_&Hvar).
      destruct (Hvar k flds Hk) as (l&?&offs&?&_). by do 5 eexists. }
  exists l. split; [by eapply for_variant_ok|]. destruct Hsound as [Hs|Hs].
  - eapply (niche_reads_back dl Hdl enum_def vars repr e ls); try done.
    + cbn. rewrite lower_variants_length. done.
    + cbn. rewrite Hty. by eexists.
  - by eapply (tagged_reads_back dl enum_def vars dity ds e ls).
Qed.

(** The layout returned for the enum: [r], or none. *)
Definition enum_result (ds : list Z) (bound : Z) (r : option LayoutS) : Prop :=
  let forbidden := ReprOptions.inhibit_enum_layout_opt repr = true in
  (Forall (λ flds, absent flds = true) vars → r = Some (layout_of_never_type dl)) ∧
  (∀ k flds, only_present vars k flds → ¬ forbidden →
     ∃ e, r = Some e ∧ single_variant repr flds (Z.of_nat k) e) ∧
  (two_present vars ∨ (∃ k flds, only_present vars k flds) ∧ forbidden →
     match r with
     | None => too_large dl repr vars bound
     | Some e => enum_chosen repr dity vars ds (dont_niche_optimize_enum repr (lower_variants 0 exprs)) e
     end).

Lemma enum_layout_cases :
  ∃ r ds bound, layout_of_enum_adt dl repr vars (Unbounded, Unbounded) (lower_variants 0 exprs) = Ret r ∧
    discriminants dl repr (lower_variants 0 exprs) = Ret (enumerate ds) ∧ obj_size_bound dl = Ret bound ∧
    enum_result ds bound r.
Proof.
  destruct enum_discriminants as (ds&Hds&Hiter&Hlen&Hu&_&_).
  destruct (bound_ok dl Hdl) as (bound&Hb&_). unfold layout_of_enum_adt. rewrite Hiter. cbn [obind].
  unfold layout_of_struct_or_enum. destruct (present_spec vars) as [Hnd Hpres].
  destruct (present_count vars) as (Hc0&Hc1&Hc2).
  set (present := omap _ _) in *. destruct present as [|first rest].
  { do 3 eexists. split; [done|]. split_and!; [done..|]. split_and!; [done| |].
    - by intros k flds [Hk _]%Hc1.
    - intros [H2%Hc2|[(k&flds&[Hk _]%Hc1) _]]; cbn in *; [lia|done]. }
  cbn [negb orb]. destruct (proj1 (Hpres first) ltac:(left)) as (k&flds&->&Hk&Ha).
  destruct (bool_decide (rest = []) && negb (ReprOptions.inhibit_enum_layout_opt repr)) eqn:Es.
  - apply andb_true_iff in Es as [Er%bool_decide_eq_true Ei%negb_true_iff]. subst rest.
    destruct (Forall_lookup_1 _ _ _ _ (ei_fit _ _ _ _ _ Hin) Hk) as [Hf Hfit].
    destruct (layout_of_struct_ok repr vars k flds (ei_repr _ _ _ _ _ Hin) Hk Hf Hfit) as (e&->&He).
    do 3 eexists. split; [done|]. split_and!; [done..|]. split_and!.
    + by intros [=]%Hc0.
    + intros k' flds' [[= Ek] Hk']%Hc1 _. assert (k' = k) as -> by lia. exists e. by simplify_eq.
    + intros [H2%Hc2|[_ Hf']]; cbn in *; [lia|congruence].
  - destruct (layout_of_enum_ok repr vars exprs dity ds
                (dont_niche_optimize_enum repr (lower_variants 0 exprs)) bound Hin Hlen Hu Hb)
      as (r&->&Hr).
    + intros E. by rewrite E in Hk.
    + intros Ed. unfold dont_niche_optimize_enum in Ed. apply orb_false_iff in Ed as [Ei _].
      rewrite Ei, andb_true_r in Es. apply bool_decide_eq_false in Es.
      destruct rest as [|second rest]; [done|]. apply Hc2. cbn. lia.
    + do 3 eexists. split; [done|]. split_and!; [done..|]. split_and!; [by intros [=]%Hc0| |done].
      intros k' flds' [[= _ ->] _]%Hc1 Hno. apply not_true_is_false in Hno. by rewrite Hno in Es.
Qed.
End input.
End choice.

(** ** Claims *)

(** [AdtDef::discriminant_for_variant], which follows the stored distances
    to the last explicit discriminant, agrees with [AdtDef::discriminants],
    which counts from variant to variant: on every enum whose explicit
    discriminants evaluate, of at most [2^32 - 1] variants and no more than its
    discriminant type has values, both are defined, explicit discriminants are
    kept, and every other variant has the one before plus one, wrapped at the
    width of the type. *)
Theorem discriminants_agree dl repr exprs ty :
  discr_to_ty dl (ReprOptions.discr_type repr) = Ret ty →
  Forall (explicit_ok (int_bits (dt_int ty))) (lower_variants 0 exprs) →
  Z.of_nat (length exprs) < 2 ^ 32 → Z.of_nat (length exprs) ≤ 2 ^ int_bits (dt_int ty) →
  ∃ ds, discriminants dl repr (lower_variants 0 exprs) = Ret (enumerate ds) ∧
    length ds = length exprs ∧ Forall (is_uint (int_bits (dt_int ty))) ds ∧
    (∀ k, discr_step (int_bits (dt_int ty)) 0 (lower_variants 0 exprs) ds k) ∧
    ∀ k d, ds !! k = Some d →
      discriminant_for_variant dl repr (lower_variants 0 exprs) (Z.of_nat k) = Ret d.
Proof.
  intros Hty Hex Hl Hw. destruct (discriminants_ok dl repr exprs ty Hty Hex) as (ds&E&Hlen&Hu&Hs).
  exists ds. split_and!; [done..|]. intros k d. by eapply discriminant_for_variant_ok.
Qed.

Section claims.
Context `{ShufflePerm} (dl : TargetDataLayout) (Hdl : target_ok dl).

(** C29. The layout of an enum, with [Integer::repr_discr] and the discriminants
    of its definition: the computation returns.  When no variant is present the
    result is the layout of the never type.  When exactly one is, and the [repr]
    does not inhibit layout optimizations, it is the struct of that variant's
    fields.  When two are present, or one under such a [repr], it is a sound
    niche-filling or tagged layout that is no larger than either candidate, or
    the computation declines because a variant behind a tag reaches the target's
    object size bound. *)
Theorem enum_layout_sound repr vars exprs dity :
  enum_input dl repr vars exprs dity →
  ∃ r ds bound, layout_of_enum_adt dl repr vars (Unbounded, Unbounded) (lower_variants 0 exprs) = Ret r ∧
    discriminants dl repr (lower_variants 0 exprs) = Ret (enumerate ds) ∧ obj_size_bound dl = Ret bound ∧
    enum_result dl repr vars exprs dity ds bound r.
Proof. by apply enum_layout_cases. Qed.

(** C3. Discriminants survive memory: in the layout computed for an enum,
    [write_discriminant] succeeds for every inhabited variant, and
    [read_discriminant] returns that variant's index from the tag it wrote.
    When nothing is written because the variant is the only one of the layout,
    any memory is read as this variant.  When nothing is written because it is
    the untagged variant of a niche-filling layout, every integer that its own
    fields may have in the place of the tag is read as this variant, and so is a
    pointer when the niche is the single value 0 and the pointer cannot be null;
    every other pointer is rejected as an invalid tag, as is every pointer where
    a tag of its own is expected. *)
Theorem enum_reads_back repr vars exprs dity :
  enum_input dl repr vars exprs dity →
  ∃ r bound, layout_of_enum_adt dl repr vars (Unbounded, Unbounded) (lower_variants 0 exprs) = Ret r ∧
    obj_size_bound dl = Ret bound ∧
    match r with
    | None => too_large dl repr vars bound
    | Some e => ∀ k flds, vars !! k = Some flds → inhabited flds →
        ∃ l, for_variant dl (enum_def repr vars exprs) e (Z.of_nat k) = Ret l ∧
             reads_back dl (enum_def repr vars exprs) e k (own_value dl e l flds)
    end.
Proof.
  intros Hin. destruct (enum_layout_cases dl Hdl repr vars exprs dity Hin) as (r&ds&bound&E&Hds&Hb&Hc0&Hc1&Hc2).
  exists r, bound. split_and!; [done..|].
  assert (∀ e, enum_chosen dl repr dity vars ds
            (dont_niche_optimize_enum repr (lower_variants 0 exprs)) e →
          ∀ k flds, vars !! k = Some flds → inhabited flds →
            ∃ l, for_variant dl (enum_def repr vars exprs) e (Z.of_nat k) = Ret l ∧
                 reads_back dl (enum_def repr vars exprs) e k (own_value dl e l flds)) as Hchosen.
  { destruct (enum_discriminants dl repr vars exprs dity Hin) as (ds'&Hds'&_&Hlen&Hu&Hnd&Hone).
    rewrite Hds in Hds'. injection Hds' as E'%enumerate_inj. subst ds'.
    intros e He k flds. by eapply (chosen_reads_back dl Hdl repr vars exprs dity Hin ds). }
  lazymatch goal with |- ?G =>
    assert (two_present vars ∨ (∃ k flds, only_present vars k flds)
              ∧ ReprOptions.inhibit_enum_layout_opt repr = true → G) as Hmany
  end.
  { intros Hm%Hc2. destruct r as [e|]; [|done]. exact (Hchosen e Hm). }
  destruct (present_cases vars) as [Habs|[(k&flds&Hk)|Htwo]]; [..|by apply Hmany; left].
  - rewrite (Hc0 Habs). intros k flds Hk Hi. pose proof (Forall_lookup_1 _ _ _ _ Habs Hk) as Ha. cbv beta in Ha.
    by rewrite (inhabited_present flds Hi) in Ha.
  - destruct (ReprOptions.inhibit_enum_layout_opt repr) eqn:Ei; [by apply Hmany; right; eauto|].
    destruct (Hc1 k flds Hk) as (e&->&Hs); [congruence|]. intros k' flds' Hk' Hi.
    destruct Hk as (Hk&_&Huniq).
    assert (k' = k) as -> by (eapply Huniq; [done|by apply inhabited_present]).
    rewrite Hk in Hk'. injection Hk' as <-. exists e. by eapply single_reads_back.
Qed.
End claims.

(** ** The properties at concrete inputs *)

(** [#[repr(u8)] enum { A = 254, B, C, D = 7, E }] *)
Definition repr_u8 : ReprOptions := mkRepr (Some (Fixed I8 false)) None None false false false false false 0.

Lemma discriminants_agree_witness :
  ∃ ds, discriminants default_dl repr_u8
          (lower_variants 0 [Some (Some 254); None; None; Some (Some 7); None]) = Ret (enumerate ds) ∧
    length ds = 5%nat ∧ Forall (is_uint (int_bits I8)) ds ∧
    (∀ k, discr_step (int_bits I8) 0
            (lower_variants 0 [Some (Some 254); None; None; Some (Some 7); None]) ds k) ∧
    ∀ k d, ds !! k = Some d →
      discriminant_for_variant default_dl repr_u8
        (lower_variants 0 [Some (Some 254); None; None; Some (Some 7); None]) (Z.of_nat k) = Ret d.
Proof.
  apply (discriminants_agree default_dl repr_u8 [Some (Some 254); None; None; Some (Some 7); None]
           (mkDiscrTy I8 false)); try done.
  repeat first [apply List.Forall_nil | apply List.Forall_cons]; by split || done.
Defined.

Lemma option_bool_input : @enum_input no_shuffle default_dl repr_rust option_bool [None; None] I64.
Proof.
  split; try done.
  - repeat first [apply List.Forall_nil | apply List.Forall_cons]; done.
  - intros ds E. vm_compute in E. injection E as <-. by apply (bool_decide_unpack _).
  - apply option_bool_ok.
  - intros flds f n [->|[->|[]%elem_of_nil]%elem_of_cons]%elem_of_cons Hf Hn; [by apply elem_of_nil in Hf|].
    apply list_elem_of_singleton in Hf as ->. injection Hn as <-. done.
  - by apply option_bool_fit.
  - apply option_bool_tagged.
Defined.

Lemma enum_layout_sound_witness :
  ∃ r ds bound, @layout_of_enum_adt no_shuffle default_dl repr_rust option_bool (Unbounded, Unbounded)
                  (lower_variants 0 [None; None]) = Ret r ∧
    discriminants default_dl repr_rust (lower_variants 0 [None; None]) = Ret (enumerate ds) ∧
    obj_size_bound default_dl = Ret bound ∧
    @enum_result no_shuffle default_dl repr_rust option_bool [None; None] I64 ds bound r.
Proof.
  apply (@enum_layout_sound no_shuffle no_shuffle_perm default_dl default_dl_ok repr_rust option_bool
           [None; None] I64). apply option_bool_input.
Defined.

Lemma enum_reads_back_witness :
  ∃ r bound, @layout_of_enum_adt no_shuffle default_dl repr_rust option_bool (Unbounded, Unbounded)
               (lower_variants 0 [None; None]) = Ret r ∧
    obj_size_bound default_dl = Ret bound ∧
    match r with
    | None => @too_large no_shuffle default_dl repr_rust option_bool bound
    | Some e => ∀ k flds, option_bool !! k = Some flds → inhabited flds →
        ∃ l, for_variant default_dl (enum_def repr_rust option_bool [None; None]) e (Z.of_nat k) = Ret l ∧
             reads_back default_dl (enum_def repr_rust option_bool [None; None]) e k
               (own_value default_dl e l flds)
    end.
Proof.
  apply (@enum_reads_back no_shuffle no_shuffle_perm default_dl default_dl_ok repr_rust option_bool
           [None; None] I64). apply option_bool_input.
Defined.
