(* ===== verification/Literal.v ===== *)
(** From literal tokens to literals: [rustc_ast/src/util/literal.rs] with the
    types of [token.rs] and [ast.rs], and the cooking of literals in
    [rustc_parse/src/lexer/mod.rs].

    A [Symbol] is the string it stands for.  Errors emitted on the way (they
    stop compilation later but not the lexer) are a list next to the result;
    [span_fatal] and [panic!] end the computation, so they are [Panic].  The
    big integers of the crate [num] are the class [BigUintApi]. *)

From S2P Require Import Prelude Chars Lexer Unescape.

Abbreviation Symbol := (list Z).

(** [symbol.to_string().into_bytes()]: UTF-8 *)
Definition encode_utf8 (c : Z) : list Z :=
  if c <? 0x80 then [c]
  else if c <? 0x800 then [0xC0 + c / 64; 0x80 + c mod 64]
  else if c <? 0x10000 then [0xE0 + c / 4096; 0x80 + (c / 64) mod 64; 0x80 + c mod 64]
  else [0xF0 + c / 262144; 0x80 + (c / 4096) mod 64; 0x80 + (c / 64) mod 64; 0x80 + c mod 64].
Definition into_bytes (s : Symbol) : list Z := concat (encode_utf8 <$> s).

(** ** Tokens and literals *)

(** [token::LitKind] *)
Inductive TokLitKind :=
| TBool | TByte | TChar | TInteger | TField | TFloat | TStr | TStrRaw (n : Z)
| TByteStr | TByteStrRaw (n : Z) | TCStr | TCStrRaw (n : Z) | TErr.

(** [token::Lit] *)
Record Lit := mkLit { lit_kind : TokLitKind; lit_symbol : Symbol; lit_suffix : option Symbol }.

Definition may_have_suffix (k : TokLitKind) : bool :=
  match k with TInteger | TFloat | TField | TErr => true | _ => false end.

Inductive IntTy := Isize | Si8 | Si16 | Si32 | Si64 | Si128.
Inductive UintTy := Usize | Ui8 | Ui16 | Ui32 | Ui64 | Ui128.
Inductive FloatTy := Fl32 | Fl64.
Inductive StrStyle := Cooked | Raw (n : Z).
Inductive LitIntType := Signed (t : IntTy) | Unsigned (t : UintTy) | Unsuffixed.
Inductive LitFloatType := Suffixed (t : FloatTy) | FloatUnsuffixed.

(** [ast::LitKind] *)
Inductive LitKind :=
| LStr (s : Symbol) (style : StrStyle)
| LByteStr (bytes : list Z) (style : StrStyle)
| LCStr (bytes : list Z) (style : StrStyle)
| LByte (b : Z)
| LChar (c : Z)
| LInt (n : Z) (ty : LitIntType)
| LFloat (s : Symbol) (ty : LitFloatType)
| LField (s : Symbol)
| LBool (b : bool)
| LErr.

Inductive LitError :=
| LexerError | InvalidSuffix | InvalidIntSuffix | InvalidFloatSuffix
| NonDecimalFloat (base : Z) | IntTooLarge (base : Z) | NulInCStr (range : Z * Z)
| FieldTooLarge (base : Z).

(** [IntTy::name_str] and the like *)
Definition int_name (t : IntTy) : Symbol :=
  match t with
  | Isize => str "isize" | Si8 => str "i8" | Si16 => str "i16" | Si32 => str "i32"
  | Si64 => str "i64" | Si128 => str "i128"
  end.
Definition uint_name (t : UintTy) : Symbol :=
  match t with
  | Usize => str "usize" | Ui8 => str "u8" | Ui16 => str "u16" | Ui32 => str "u32"
  | Ui64 => str "u64" | Ui128 => str "u128"
  end.
Definition float_name (t : FloatTy) : Symbol :=
  match t with Fl32 => str "f32" | Fl64 => str "f64" end.

(** ** Numbers *)

Definition strip_underscores (s : Symbol) : Symbol := List.filter (λ c, negb (c =? ch "_")) s.

Definition filtered_float_lit (s : Symbol) (suffix : option Symbol) (base : Z)
    : LitKind + LitError :=
  if negb (base =? 10) then inr (NonDecimalFloat base)
  else match suffix with
  | Some suf =>
      if bool_decide (suf = str "f32") then inl (LFloat s (Suffixed Fl32))
      else if bool_decide (suf = str "f64") then inl (LFloat s (Suffixed Fl64))
      else inr InvalidFloatSuffix
  | None => inl (LFloat s FloatUnsuffixed)
  end.

Definition float_lit (s : Symbol) (suffix : option Symbol) : LitKind + LitError :=
  filtered_float_lit (strip_underscores s) suffix 10.

(** [match s.as_bytes()] on the prefix *)
Definition lit_base (s : Symbol) : Z :=
  match s with
  | c :: d :: _ =>
      if c =? ch "0" then
        if d =? ch "x" then 16 else if d =? ch "o" then 8 else if d =? ch "b" then 2 else 10
      else 10
  | _ => 10
  end.
(** [&s[if base != 10 { 2 } else { 0 }..]] *)
Definition strip_prefix (s : Symbol) (base : Z) : Symbol := if base =? 10 then s else drop 2 s.

(** The value of digits, [None] for a char that is not a digit *)
Fixpoint digits_value (radix acc : Z) (s : list Z) : option Z :=
  match s with
  | [] => Some acc
  | c :: s =>
      match to_digit c radix with
      | Some d => digits_value radix (acc * radix + d) s
      | None => None
      end
  end.

(** [u128::from_str_radix(s, radix).ok()]: an optional sign [+], at least one
    digit, no overflow *)
Definition u128_from_str_radix (s : list Z) (radix : Z) : option Z :=
  let digits := match s with c :: s' => if c =? ch "+" then s' else s | [] => s end in
  if bool_decide (digits = []) then None
  else match digits_value radix 0 digits with
  | Some n => if n <? 2 ^ 128 then Some n else None
  | None => None
  end.

Definition int_suffix (suf : Symbol) : option LitIntType :=
  if bool_decide (suf = str "isize") then Some (Signed Isize)
  else if bool_decide (suf = str "i8") then Some (Signed Si8)
  else if bool_decide (suf = str "i16") then Some (Signed Si16)
  else if bool_decide (suf = str "i32") then Some (Signed Si32)
  else if bool_decide (suf = str "i64") then Some (Signed Si64)
  else if bool_decide (suf = str "i128") then Some (Signed Si128)
  else if bool_decide (suf = str "usize") then Some (Unsigned Usize)
  else if bool_decide (suf = str "u8") then Some (Unsigned Ui8)
  else if bool_decide (suf = str "u16") then Some (Unsigned Ui16)
  else if bool_decide (suf = str "u32") then Some (Unsigned Ui32)
  else if bool_decide (suf = str "u64") then Some (Unsigned Ui64)
  else if bool_decide (suf = str "u128") then Some (Unsigned Ui128)
  else None.

(** The end of [integer_lit], once the type is known *)
Definition integer_value (s : Symbol) (base : Z) (ty : LitIntType) : LitKind + LitError :=
  let s := strip_prefix s base in
  match u128_from_str_radix s base with
  | Some i => inl (LInt i ty)
  | None =>
      let from_lexer :=
        (base <? 10)
        && existsb (λ c, match to_digit c 10 with Some d => base <=? d | None => false end) s in
      inr (if from_lexer then LexerError else IntTooLarge base)
  end.

Definition integer_lit (symbol : Symbol) (suffix : option Symbol) : LitKind + LitError :=
  let s := strip_underscores symbol in
  let base := lit_base s in
  match suffix with
  | Some suf =>
      match int_suffix suf with
      | Some ty => integer_value s base ty
      | None =>
          if match suf with c :: _ => c =? ch "f" | [] => false end
          then filtered_float_lit s suffix base
          else inr InvalidIntSuffix
      end
  | None => integer_value s base Unsuffixed
  end.

(** [num::BigUint]: what the compiler calls of it *)
Class BigUintApi := {
  BigUint : Type;
  big_from_str_radix : list Z → Z → option BigUint;
  big_to_bytes_be : BigUint → list Z;
  big_geb : BigUint → BigUint → bool;
}.

Definition field_lit `{BigUintApi} (symbol suffix : Symbol) : LitKind + LitError :=
  let s := strip_underscores symbol in
  let base := lit_base s in
  if negb (bool_decide (suffix = str "G") || bool_decide (suffix = str "g")) then inr InvalidSuffix
  else
    match big_from_str_radix (strip_prefix s base) base with
    | None => inr LexerError
    | Some big_uint =>
        if (48 <? length (big_to_bytes_be big_uint))%nat then inr (FieldTooLarge base)
        else inl (LField s)
    end.

(** ** [LitKind::from_token_lit] *)

(** One call of the closure that collects chars or bytes: what was pushed so
    far, and the last error. *)
Definition collect {A} (push : A → Z) (st : list Z * option LitError) (ev : event A)
    : list Z * option LitError :=
  let '(buf, error) := st in
  match snd ev with
  | inl c => (buf ++ [push c], error)
  | inr err => (buf, if is_fatal err then Some LexerError else error)
  end.

(** [CStrUnit::Char(c) if c.len_utf8() == 1 => buf.push(c as u8)] and the other
    arms of the C string closures *)
Definition collect_c (st : list Z * option LitError) (ev : event CStrUnit)
    : list Z * option LitError :=
  let '(buf, error) := st in
  match snd ev with
  | inl (UByte b) =>
      if b =? 0 then (buf, Some (NulInCStr (fst ev))) else (buf ++ [b], error)
  | inl (UChar c) =>
      if c =? 0 then (buf, Some (NulInCStr (fst ev)))
      else if len_utf8 c =? 1 then (buf ++ [wrap 8 c], error)
      else (buf ++ encode_utf8 c, error)
  | inr err => (buf, if is_fatal err then Some LexerError else error)
  end.

(** [error?; k buf] *)
Definition finish_collect (st : list Z * option LitError) (k : list Z → LitKind)
    : LitKind + LitError :=
  match snd st with Some e => inr e | None => inl (k (fst st)) end.

Definition has (c : Z) (s : Symbol) : bool := existsb (Z.eqb c) s.

(** [unescape_literal] and collect the chars or bytes *)
Definition unescape_collect (push : Z → Z) (s : Symbol) (m : Mode) (k : list Z → LitKind)
    : outcome (LitKind + LitError) :=
  let! evs := unescape_literal s m in
  Ret (finish_collect (foldl (collect push) ([], None) evs) k).

Definition unescape_c_collect (s : Symbol) (m : Mode) (k : list Z → LitKind)
    : outcome (LitKind + LitError) :=
  let! evs := unescape_c_string s m in
  Ret (finish_collect (foldl collect_c ([], None) evs) (λ buf, k (buf ++ [0]))).

Definition from_token_lit `{BigUintApi} (lit : Lit) : outcome (LitKind + LitError) :=
  let s := lit_symbol lit in
  let suffix := lit_suffix lit in
  if match suffix with Some _ => negb (may_have_suffix (lit_kind lit)) | None => false end
  then Ret (inr InvalidSuffix)
  else match lit_kind lit with
  | TBool =>
      let is_true := bool_decide (s = str "true") in
      rassert (is_true || bool_decide (s = str "false")) (Ret (inl (LBool is_true)))
  | TByte => Ret (match unescape_byte s with inl b => inl (LByte b) | inr _ => inr LexerError end)
  | TChar => Ret (match unescape_char s with inl c => inl (LChar c) | inr _ => inr LexerError end)
  | TInteger => Ret (integer_lit s suffix)
  | TFloat => Ret (float_lit s suffix)
  | TField => match suffix with Some suf => Ret (field_lit s suf) | None => Panic end
  | TStr =>
      if has (ch "\") s || has 13 s
      then unescape_collect (λ c, c) s MStr (λ buf, LStr buf Cooked)
      else Ret (inl (LStr s Cooked))
  | TStrRaw n =>
      if has 13 s then unescape_collect (λ c, c) s MRawStr (λ buf, LStr buf (Raw n))
      else Ret (inl (LStr s (Raw n)))
  | TByteStr => unescape_collect byte_from_char s MByteStr (λ buf, LByteStr buf Cooked)
  | TByteStrRaw n =>
      if has 13 s then unescape_collect byte_from_char s MRawByteStr (λ buf, LByteStr buf (Raw n))
      else Ret (inl (LByteStr (into_bytes s) (Raw n)))
  | TCStr => unescape_c_collect s MCStr (λ buf, LCStr buf Cooked)
  | TCStrRaw n => unescape_c_collect s MRawCStr (λ buf, LCStr buf (Raw n))
  | TErr => Ret (inl LErr)
  end.

(** ** Cooking literal tokens *)

(** [&s[..n]] and [&s[n..]] at byte [n]; a slice off a char boundary panics. *)
Fixpoint split_at_byte (n : Z) (s : list Z) : outcome (list Z * list Z) :=
  if n =? 0 then Ret ([], s)
  else match s with
  | [] => Panic
  | c :: s =>
      rassert (len_utf8 c <=? n)
        (let! (a, b) := split_at_byte (n - len_utf8 c) s in Ret (c :: a, b))
  end.

(** [str_from_to(start + lo, start + hi)] within the token [txt] *)
Definition slice (txt : list Z) (lo hi : Z) : outcome (list Z) :=
  let! (a, _) := split_at_byte hi txt in
  let! (_, b) := split_at_byte lo a in
  Ret b.

(** The errors emitted while cooking, with byte ranges relative to the token *)
Inductive CookError :=
| NoDigitsLiteral
| InvalidDigitLiteral (range : Z * Z) (base : Z)
| EmptyExponentFloat
| FloatLiteralUnsupportedBase (base : Base)
| UnescapeError (range : Z * Z) (e : EscapeError)
| UnderscoreLiteralSuffix.

Definition cooked : Type := (TokLitKind * Symbol) * list CookError.

(** The closure of [cook_common]: the errors, moved to the token, and whether
    one is fatal *)
Definition unescape_errors {T} (prefix_len : Z) (evs : list (event T)) : list CookError * bool :=
  let errs := omap (λ ev, match snd ev with inr e => Some (fst ev, e) | inl _ => None end) evs in
  ((λ p, UnescapeError (fst (fst p) + prefix_len, snd (fst p) + prefix_len) (snd p)) <$> errs,
   existsb (λ p, is_fatal (snd p)) errs).

Definition cook_common {T} (kind : TokLitKind) (txt : list Z) (prefix_len postfix_len : Z)
    (unescape : list Z → outcome (list (event T))) : outcome cooked :=
  let! lit_content := slice txt prefix_len (str_len txt - postfix_len) in
  let! evs := unescape lit_content in
  let '(errs, has_fatal_err) := unescape_errors prefix_len evs in
  Ret (if negb has_fatal_err then (kind, lit_content) else (TErr, txt), errs).

Definition cook_quoted (kind : TokLitKind) (m : Mode) (txt : list Z) (prefix_len postfix_len : Z)
    : outcome cooked :=
  cook_common kind txt prefix_len postfix_len (λ s, unescape_literal s m).
Definition cook_c_string (kind : TokLitKind) (m : Mode) (txt : list Z) (prefix_len postfix_len : Z)
    : outcome cooked :=
  cook_common kind txt prefix_len postfix_len (λ s, unescape_c_string s m).

(** The check of the digits behind [0b] and [0o]; [pos] is the byte offset *)
Fixpoint invalid_digits (base pos : Z) (s : list Z) : list CookError :=
  match s with
  | [] => []
  | c :: s =>
      (if negb (c =? ch "_") && match to_digit c base with None => true | Some _ => false end
       then [InvalidDigitLiteral (pos, pos + len_utf8 c) base] else [])
      ++ invalid_digits base (pos + len_utf8 c) s
  end.

(** The arms for [Int] and [Field] *)
Definition cook_number (kind : TokLitKind) (base : Base) (empty : bool) (txt : list Z)
    : outcome cooked :=
  if empty then Ret ((kind, str "0"), [NoDigitsLiteral])
  else
    match base with
    | Binary | Octal =>
        let! s := slice txt 2 (str_len txt) in
        Ret ((kind, txt), invalid_digits (base_value base) 2 s)
    | _ => Ret ((kind, txt), [])
    end.

(** [cook_lexer_literal] on the text of the literal without its suffix *)
Definition cook_lexer_literal (txt : list Z) (kind : LiteralKind) : outcome cooked :=
  match kind with
  | Char terminated => rassert terminated (cook_quoted TChar MChar txt 1 1)
  | Byte terminated => rassert terminated (cook_quoted TByte MByte txt 2 1)
  | Str terminated => rassert terminated (cook_quoted TStr MStr txt 1 1)
  | ByteStr terminated => rassert terminated (cook_quoted TByteStr MByteStr txt 2 1)
  | CStr terminated => rassert terminated (cook_c_string TCStr MCStr txt 2 1)
  | RawStr (Some n) => cook_quoted (TStrRaw n) MRawStr txt (2 + n) (1 + n)
  | RawByteStr (Some n) => cook_quoted (TByteStrRaw n) MRawByteStr txt (3 + n) (1 + n)
  | RawCStr (Some n) => cook_c_string (TCStrRaw n) MRawCStr txt (3 + n) (1 + n)
  | RawStr None | RawByteStr None | RawCStr None => Panic
  | Int base empty_int => cook_number TInteger base empty_int txt
  | Float base empty_exponent =>
      Ret ((TFloat, txt),
           (if empty_exponent then [EmptyExponentFloat] else [])
           ++ match base with Decimal => [] | _ => [FloatLiteralUnsupportedBase base] end)
  | Field base empty_field => cook_number TField base empty_field txt
  end.

(** The arm of [next_token] for literals: cook the text before the suffix and
    take the suffix. *)
Definition cook_literal_token (txt : list Z) (kind : LiteralKind) (suffix_start : Z)
    : outcome (Lit * list CookError) :=
  let! (body, suffix) := split_at_byte suffix_start txt in
  let! (ks, errs) := cook_lexer_literal body kind in
  let '(k, symbol) := ks in
  match suffix with
  | [] => Ret (mkLit k symbol None, errs)
  | _ =>
      if bool_decide (suffix = str "_")
      then Ret (mkLit k symbol None, errs ++ [UnderscoreLiteralSuffix])
      else Ret (mkLit k symbol (Some suffix), errs)
  end.

(** Reading one literal: when the first token of [input] is a literal and ends
    where [input] ends, its text is cooked and converted; otherwise [input] is
    not one literal token. *)
Definition read_literal `{UnicodeTables} `{BigUintApi} (input : list Z)
    : outcome (option (LitKind + LitError) * list CookError) :=
  let! (tok, cursor) := advance_token (new_cursor input) in
  match kind tok with
  | Literal lk suffix_start =>
      let! (txt, behind) := split_at_byte (tok_len tok) input in
      match behind with
      | [] =>
          let! (lit, errs) := cook_literal_token txt lk suffix_start in
          let! res := from_token_lit lit in
          Ret (Some res, errs)
      | _ => Ret (None, [])
      end
  | _ => Ret (None, [])
  end.

(** ** Printing literals *)

(** [write!(f, "{n}")] for a [u128]: at most 39 digits *)
Fixpoint dec_digits (fuel : nat) (n : Z) (acc : list Z) : list Z :=
  match fuel with
  | O => acc
  | S fuel =>
      let acc := (ch "0" + n mod 10) :: acc in
      if n <? 10 then acc else dec_digits fuel (n / 10) acc
  end.
Definition dec_string (n : Z) : list Z := dec_digits 40 n [].

(** [str::from_utf8(bytes).ok()]: sequences of minimal length that encode
    scalar values *)
Definition is_cont (b : Z) : bool := (0x80 <=? b) && (b <=? 0xBF).
Definition cons_char (c lo : Z) (ok : bool) (rest : option (list Z)) : option (list Z) :=
  if ok && (lo <=? c) && is_char c then (c ::.) <$> rest else None.
Fixpoint from_utf8 (bytes : list Z) : option (list Z) :=
  match bytes with
  | [] => Some []
  | b0 :: rest =>
      if b0 <? 0x80 then cons_char b0 0 true (from_utf8 rest)
      else if b0 <? 0xE0 then
        match rest with
        | b1 :: rest =>
            cons_char ((b0 - 0xC0) * 64 + (b1 - 0x80)) 0x80 (is_cont b1) (from_utf8 rest)
        | _ => None
        end
      else if b0 <? 0xF0 then
        match rest with
        | b1 :: b2 :: rest =>
            cons_char ((b0 - 0xE0) * 4096 + (b1 - 0x80) * 64 + (b2 - 0x80)) 0x800
              (is_cont b1 && is_cont b2) (from_utf8 rest)
        | _ => None
        end
      else
        match rest with
        | b1 :: b2 :: b3 :: rest =>
            cons_char ((b0 - 0xF0) * 262144 + (b1 - 0x80) * 4096 + (b2 - 0x80) * 64 + (b3 - 0x80))
              0x10000 (is_cont b1 && is_cont b2 && is_cont b3) (from_utf8 rest)
        | _ => None
        end
  end.

Definition delimited (prefix : list Z) (n : Z) (s : list Z) : list Z :=
  prefix ++ replicate (Z.to_nat n) (ch "#") ++ [34] ++ s ++ [34]
  ++ replicate (Z.to_nat n) (ch "#").

(** [impl fmt::Display for LitKind] *)
Definition lit_display (l : LitKind) : outcome (list Z) :=
  match l with
  | LByte b => Ret (str "b'" ++ escape_ascii b ++ str "'")
  | LChar c => Ret (str "'" ++ escape_default c ++ str "'")
  | LStr s Cooked => Ret ([34] ++ escape_str s ++ [34])
  | LStr s (Raw n) => Ret (delimited (str "r") n s)
  | LByteStr bytes Cooked => Ret (ch "b" :: [34] ++ escape_bytes bytes ++ [34])
  | LByteStr bytes (Raw n) => let! s := unwrap (from_utf8 bytes) in Ret (delimited (str "br") n s)
  | LCStr bytes Cooked => Ret (ch "c" :: [34] ++ escape_bytes bytes ++ [34])
  | LCStr bytes (Raw n) => let! s := unwrap (from_utf8 bytes) in Ret (delimited (str "cr") n s)
  | LInt n ty =>
      Ret (dec_string n ++ match ty with
                           | Unsigned ty => uint_name ty
                           | Signed ty => int_name ty
                           | Unsuffixed => []
                           end)
  | LFloat s ty => Ret (s ++ match ty with Suffixed ty => float_name ty | FloatUnsuffixed => [] end)
  | LField s => Ret s
  | LBool b => Ret (if b then str "true" else str "false")
  | LErr => Ret (str "<bad-literal>")
  end.
