(* ===== verification/LiteralProps.v ===== *)
(** Printing and reading literals: what [Display for LitKind] prints is read
    back by the lexer, the cooking and [from_token_lit] as the same literal,
    for strings, byte strings, chars, bytes and integers; and where it is not. *)

From S2P Require Import Prelude Chars Lexer LexerProps Unescape UnescapeProps Literal.

#[local] Ltac Zify.zify_post_hook ::= Z.to_euclidean_division_equations.

(** ** Slices *)

Lemma split_at_byte_app a b : split_at_byte (str_len a) (a ++ b) = Ret (a, b).
Proof.
  induction a as [|c a IH]; [by destruct b|]. cbn [str_len app split_at_byte].
  pose proof (len_utf8_pos c). pose proof (str_len_nonneg a).
  destruct (Z.eqb_spec (len_utf8 c + str_len a) 0); [lia|].
  destruct (Z.leb_spec (len_utf8 c) (len_utf8 c + str_len a)); [|lia]. cbn [rassert].
  replace (len_utf8 c + str_len a - len_utf8 c) with (str_len a) by lia. by rewrite IH.
Qed.

Lemma split_at_byte_all a : split_at_byte (str_len a) a = Ret (a, []).
Proof. pose proof (split_at_byte_app a []) as E. by rewrite app_nil_r in E. Qed.

Lemma slice_app a b c : slice (a ++ b ++ c) (str_len a) (str_len (a ++ b)) = Ret b.
Proof.
  unfold slice. rewrite app_assoc, split_at_byte_app. cbn [obind].
  by rewrite split_at_byte_app.
Qed.

(** The text of a literal between its delimiters. *)
Lemma slice_quoted pre s post n m :
  str_len pre = n → str_len post = m →
  slice (pre ++ s ++ post) n (str_len (pre ++ s ++ post) - m) = Ret s.
Proof.
  intros <- <-. rewrite <- (slice_app pre s post). f_equal. rewrite !str_len_app. lia.
Qed.

(** ** Escaped text in the lexer *)

(** A char that means nothing to the scanners of quoted literals. *)
Definition is_inert (c : Z) : bool :=
  negb (c =? 34) && negb (c =? ch "\") && negb (c =? ch "'") && negb (c =? ch "/") && negb (c =? 10).

Lemma inert_double l r :
  forallb is_inert l = true → double_quoted_string (l ++ r) = double_quoted_string r.
Proof.
  induction l as [|c l IH]; cbn [app forallb]; [done|]. intros [Hc Hl]%andb_true_iff.
  cbn [double_quoted_string]. unfold is_inert in Hc.
  destruct (Z.eqb_spec c 34); [lia|]. destruct (Z.eqb_spec c (ch "\")); [lia|]. cbn [andb]. auto.
Qed.

Lemma inert_single l r :
  forallb is_inert l = true → single_quoted_loop (l ++ r) = single_quoted_loop r.
Proof.
  induction l as [|c l IH]; cbn [app forallb]; [done|]. intros [Hc Hl]%andb_true_iff.
  cbn [single_quoted_loop]. unfold is_inert in Hc.
  destruct (Z.eqb_spec c (ch "'")); [lia|]. destruct (Z.eqb_spec c (ch "/")); [lia|].
  destruct (Z.eqb_spec c 10); [lia|]. cbn [andb]. destruct (Z.eqb_spec c (ch "\")); [lia|]. auto.
Qed.

Lemma hex_digit_inert d : 0 ≤ d < 16 → is_inert (hex_digit d) = true.
Proof.
  intros Hd. apply (bounded_forall 16 (λ i, is_inert (hex_digit i))); [reflexivity|done].
Qed.

(** A backslash escape is a backslash, one char, and inert chars. *)
Lemma escaped_form uni e x :
  escaped uni e x →
  (e = [x] ∧ 0x20 ≤ x < 0x7F ∧ x ≠ ch "\" ∧ x ≠ 34 ∧ x ≠ ch "'") ∨
  ∃ d t, e = ch "\" :: d :: t ∧ forallb is_inert t = true ∧
         (is_inert d = true ∨ t = [] ∧ (d = ch "\" ∨ d = ch "'" ∨ d = 34)).
Proof.
  intros [c ? ? ? ?|d y Hin|c _ Hc|b _ Hb]; [by left|right..].
  - exists d, []. split; [done|]. split; [done|].
    repeat (destruct Hin as [[= <- <-]|Hin]; [tauto|]). done.
  - destruct (escape_unicode_eq c) as (d&ds&->&Hds&_); [unfold is_char in Hc; lia|].
    exists (ch "u"), (str "{" ++ (hex_digit <$> d :: ds) ++ str "}"). split; [done|].
    split; [|by left]. rewrite !forallb_app.
    change (forallb is_inert (hex_digit <$> d :: ds) && true = true). rewrite andb_true_r.
    apply forallb_forall. intros z Hz%list_elem_of_In.
    apply list_elem_of_fmap in Hz as (i&->&Hi). apply hex_digit_inert.
    rewrite Forall_forall in Hds. by apply Hds.
  - eexists _, _. split; [done|]. split; [|by left]. cbn [forallb].
    pose proof (nibble_eq b 0 ltac:(lia)) as Hlo. unfold nibble in Hlo. rewrite Z.shiftr_0_r in Hlo.
    rewrite Hlo, shiftr_div by lia. rewrite !hex_digit_inert by lia. done.
Qed.

Lemma escaped_double uni e x r :
  escaped uni e x → double_quoted_string (e ++ r) = double_quoted_string r.
Proof.
  intros [(->&Hx&H1&H2&H3)|(d&t&->&Ht&Hd)]%escaped_form.
  - cbn. destruct (Z.eqb_spec x 34); [done|]. by destruct (Z.eqb_spec x (ch "\")).
  - cbn [app double_quoted_string first rest]. change (ch "\" =? 34) with false.
    change (ch "\" =? ch "\") with true. cbn [andb].
    destruct Hd as [Hd|[-> [->|[->| ->]]]]; [|done..].
    unfold is_inert in Hd. destruct (Z.eqb_spec d (ch "\")); [lia|].
    destruct (Z.eqb_spec d 34); [lia|]. cbn [orb double_quoted_string].
    destruct (Z.eqb_spec d 34); [lia|]. destruct (Z.eqb_spec d (ch "\")); [lia|]. cbn [andb].
    by apply inert_double.
Qed.

Lemma escaped_text_double uni (esc : Z → list Z) s r :
  Forall (λ c, escaped uni (esc c) c) s →
  double_quoted_string (concat (esc <$> s) ++ 34 :: r) = (true, r).
Proof.
  induction 1 as [|c s Hc Hs IH]; [done|].
  cbn [fmap list_fmap concat]. rewrite <- app_assoc. by rewrite (escaped_double _ _ _ _ Hc).
Qed.

(** The scanner of char literals. *)
Lemma escaped_single uni e x r :
  escaped uni e x → single_quoted_string (e ++ ch "'" :: r) = (true, r).
Proof.
  intros [(->&Hx&H1&H2&H3)|(d&t&->&Ht&Hd)]%escaped_form; unfold single_quoted_string.
  - cbn. by destruct (Z.eqb_spec x (ch "\")).
  - cbn [app first second rest]. change (ch "\" =? ch "\") with true. cbn [negb].
    rewrite andb_false_r. cbn [single_quoted_loop first rest].
    change (ch "\" =? ch "'") with false. change (ch "\" =? ch "/") with false.
    change (ch "\" =? 10) with false. change (ch "\" =? ch "\") with true. cbn [andb].
    rewrite inert_single by done. done.
Qed.

(** ** Cooking and converting units without errors *)

Lemma unescape_errors_none {T} n (evs : list (event T)) xs :
  snd <$> evs = inl <$> xs → unescape_errors n evs = ([], false).
Proof.
  intros E. unfold unescape_errors.
  match goal with |- context [omap ?f evs] => assert (omap f evs = []) as -> end; [|done].
  revert xs E. induction evs as [|[r x] evs IH]; intros [|y xs]; try done.
  cbn. intros [= -> E]. by eapply IH.
Qed.

Lemma collect_units {A} (push : A → Z) evs xs buf err :
  snd <$> evs = inl <$> xs →
  foldl (collect push) (buf, err) evs = (buf ++ (push <$> xs), err).
Proof.
  revert xs buf. induction evs as [|[r x] evs IH]; intros [|y xs] buf; try done.
  { cbn. by rewrite app_nil_r. }
  cbn [fmap list_fmap foldl snd]. intros [= -> E]. unfold collect at 2. cbn [snd].
  rewrite (IH xs) by done. by rewrite <- app_assoc.
Qed.

Lemma cook_common_clean {T} kind pre s post n m (unescape : list Z → outcome (list (event T))) evs xs :
  str_len pre = n → str_len post = m → unescape s = Ret evs → snd <$> evs = inl <$> xs →
  cook_common kind (pre ++ s ++ post) n m unescape = Ret ((kind, s), []).
Proof.
  intros Hn Hm Hu Hx. unfold cook_common. rewrite slice_quoted by done. cbn [obind].
  rewrite Hu. cbn [obind]. by rewrite (unescape_errors_none _ _ xs).
Qed.

Lemma unescape_collect_clean push s m k evs xs :
  unescape_literal s m = Ret evs → snd <$> evs = inl <$> xs →
  unescape_collect push s m k = Ret (inl (k (push <$> xs))).
Proof.
  intros Hu Hx. unfold unescape_collect. rewrite Hu. cbn [obind].
  by rewrite (collect_units push evs xs).
Qed.

Section read.
Context `{UnicodeTables} `{!UnicodeAscii} `{BigUintApi}.

(** A text that is a single token. *)
Lemma advance_whole txt c l k :
  txt = c :: l → str_len txt < 2 ^ 32 →
  token_kind c (mkCursor (str_len txt) l) = Ret (k, mkCursor (str_len txt) []) →
  advance_token (new_cursor txt) = Ret (mkToken k (str_len txt), new_cursor []).
Proof.
  intros -> Hb Htk. unfold advance_token, bump, new_cursor, set_chars. cbn [chars len_remaining].
  rewrite Htk. cbn [obind]. do 3 f_equal.
  rewrite (pos_after (new_cursor (c :: l)) (c :: l)); [done|done| |done]. cbn. by rewrite app_nil_r.
Qed.

Lemma quoted_whole mk txt l :
  str_len txt < 2 ^ 32 →
  quoted_literal mk (mkCursor (str_len txt) l) (true, [])
  = (Literal (mk true) (str_len txt), mkCursor (str_len txt) []).
Proof.
  intros Hb. unfold quoted_literal, set_chars. cbn [chars len_remaining].
  rewrite (pos_after (new_cursor txt) txt); [|done|cbn; by rewrite app_nil_r|done].
  unfold eat_literal_suffix, eat_identifier. by destruct (negb _).
Qed.

(** Reading a text that is one literal token without suffix. *)
Lemma read_whole txt lk k sym l :
  advance_token (new_cursor txt)
  = Ret (mkToken (Literal lk (str_len txt)) (str_len txt), new_cursor []) →
  cook_lexer_literal txt lk = Ret ((k, sym), []) → from_token_lit (mkLit k sym None) = Ret (inl l) →
  read_literal txt = Ret (Some (inl l), []).
Proof.
  intros Ha Hc Hf. unfold read_literal. rewrite Ha. cbn [obind kind tok_len].
  rewrite split_at_byte_all. cbn [obind]. unfold cook_literal_token.
  rewrite split_at_byte_all. cbn [obind]. rewrite Hc. cbn [obind]. by rewrite Hf.
Qed.

Lemma is_id_start_34 : is_id_start 34 = false ∧ is_id_start 39 = false.
Proof. by rewrite !is_id_start_ascii. Qed.

Lemma escape_str_units s :
  forallb is_char s = true →
  ∃ evs, unescape_literal (escape_str s) MStr = Ret evs ∧ snd <$> evs = inl <$> s.
Proof.
  intros Hs. apply (unescape_str_undone MStr escape_default (λ c, c)); [|unfold escape_str; lia].
  apply Forall_forall. intros c Hc. apply escape_default_undone; [done|].
  rewrite forallb_forall in Hs. apply Hs. by apply list_elem_of_In.
Qed.

Lemma escape_bytes_units s :
  Forall (λ b, 0 ≤ b < 256) s →
  ∃ evs, unescape_literal (escape_bytes s) MByteStr = Ret evs ∧ snd <$> evs = inl <$> s.
Proof.
  intros Hs. apply (unescape_str_undone MByteStr escape_ascii (λ c, c)); [|unfold escape_bytes; lia].
  eapply Forall_impl; [exact Hs|]. intros b Hb. by apply escape_ascii_undone.
Qed.

(** Escaping that adds no backslash changes nothing. *)
Lemma escape_str_plain s :
  forallb is_char s = true → has (ch "\") (escape_str s) = false → escape_str s = s.
Proof.
  unfold escape_str, has. induction s as [|c s IH]; [done|]. cbn [forallb fmap list_fmap concat].
  intros [Hc Hs]%andb_true_iff. rewrite existsb_app. intros [Hn Hr]%orb_false_iff.
  rewrite IH by done.
  destruct (escaped_form _ _ _ (escape_default_escaped c Hc)) as [(->&_)|(d&t&E&_)]; [done|].
  by rewrite E in Hn.
Qed.

Lemma read_str s :
  forallb is_char s = true → str_len ([34] ++ escape_str s ++ [34]) < 2 ^ 32 →
  read_literal ([34] ++ escape_str s ++ [34]) = Ret (Some (inl (LStr s Cooked)), []).
Proof.
  intros Hs Hb. set (txt := [34] ++ escape_str s ++ [34]) in *.
  destruct (escape_str_units s Hs) as (evs&Hu&Hx).
  apply (read_whole txt (Str true) TStr (escape_str s)).
  - apply (advance_whole txt 34 (escape_str s ++ [34])); [done|done|].
    unfold token_kind. cbn [chars]. destruct is_id_start_34 as [-> _].
    change (is_whitespace 34) with false. change (is_ascii_digit 34) with false.
    change (one_symbol 34) with (@None TokenKind). cbn [Z.eqb Pos.eqb].
    unfold escape_str at 2. rewrite (escaped_text_double true escape_default s []).
    + by rewrite quoted_whole.
    + apply Forall_forall. intros c Hc. apply escape_default_escaped.
      rewrite forallb_forall in Hs. apply Hs. by apply list_elem_of_In.
  - cbn [cook_lexer_literal rassert]. by apply (cook_common_clean _ [34] _ [34] _ _ _ evs s).
  - unfold from_token_lit. cbn [lit_symbol lit_suffix lit_kind].
    destruct (has (ch "\") (escape_str s) || has 13 (escape_str s)) eqn:E.
    + rewrite (unescape_collect_clean _ _ _ _ evs s) by done. by rewrite list_fmap_id.
    + apply orb_false_iff in E as [E _]. by rewrite escape_str_plain.
Qed.
Lemma bytes_escaped s :
  Forall (λ b, 0 ≤ b < 256) s → Forall (λ c, escaped false (escape_ascii c) c) s.
Proof. intros Hs. eapply Forall_impl; [exact Hs|]. intros b Hb. by apply escape_ascii_escaped. Qed.

Lemma read_byte_str s :
  Forall (λ b, 0 ≤ b < 256) s → str_len ([ch "b"; 34] ++ escape_bytes s ++ [34]) < 2 ^ 32 →
  read_literal ([ch "b"; 34] ++ escape_bytes s ++ [34]) = Ret (Some (inl (LByteStr s Cooked)), []).
Proof.
  intros Hs Hb. set (txt := [ch "b"; 34] ++ escape_bytes s ++ [34]) in *.
  destruct (escape_bytes_units s Hs) as (evs&Hu&Hx).
  apply (read_whole txt (ByteStr true) TByteStr (escape_bytes s)).
  - apply (advance_whole txt (ch "b") (34 :: escape_bytes s ++ [34])); [done|done|].
    unfold token_kind, c_or_byte_string. cbn [chars first rest].
    change (is_whitespace (ch "b")) with false. cbn [Z.eqb Pos.eqb].
    unfold escape_bytes at 2.
    rewrite (escaped_text_double false escape_ascii s []) by (by apply bytes_escaped).
    by rewrite quoted_whole.
  - cbn [cook_lexer_literal rassert]. by apply (cook_common_clean _ [ch "b"; 34] _ [34] _ _ _ evs s).
  - unfold from_token_lit. cbn [lit_symbol lit_suffix lit_kind].
    rewrite (unescape_collect_clean _ _ _ _ evs s) by done.
    assert (byte_from_char <$> s = s) as ->; [|done].
    clear - Hs. induction Hs as [|b s Hb Hs IH]; [done|]. cbn [fmap list_fmap]. rewrite IH.
    f_equal. apply wrap_small. unfold is_uint. lia.
Qed.

(** Char and byte literals read one escape. *)
Lemma unescape_char_escaped (is_byte : bool) e x :
  escaped (negb is_byte) e x → unescape_char_or_byte is_byte e = (inl x, []).
Proof.
  intros He. pose proof (escaped_undone (T := Z) (negb is_byte) (if is_byte then MByte else MChar)
    e x He ltac:(by destruct is_byte)) as Hun.
  assert (undone (T := Z) (if is_byte then MByte else MChar) e x) as Hu by (by destruct Hun).
  destruct (Hu []) as (c&l&E&_&Hunit). rewrite app_nil_r in E. subst e.
  unfold unescape_char_or_byte, sbind, next_or.
  destruct (escaped_form _ _ _ He) as [([= -> ->]&Hx&Hx1&Hx2&Hx3)|(d&t&[= -> ->]&_)].
  - destruct (Z.eqb_spec x (ch "\")); [done|]. destruct (Z.eqb_spec x 10); [lia|].
    destruct (Z.eqb_spec x 9); [lia|]. destruct (Z.eqb_spec x (ch "'")); [done|]. cbn [orb].
    destruct (Z.eqb_spec x 13); [lia|]. unfold ascii_check, is_ascii.
    destruct (Z.ltb_spec x 0x80); [|lia]. by rewrite andb_false_r.
  - cbn [Z.eqb Pos.eqb]. unfold unescape_unit in Hunit. cbn [Z.eqb Pos.eqb] in Hunit.
    by rewrite Hunit.
Qed.

(** The lexer does not take an escaped char for a lifetime. *)
Lemma lex_char uni e x :
  escaped uni e x → str_len (ch "'" :: e ++ [ch "'"]) < 2 ^ 32 →
  advance_token (new_cursor (ch "'" :: e ++ [ch "'"]))
  = Ret (mkToken (Literal (Char true) (str_len (ch "'" :: e ++ [ch "'"])))
           (str_len (ch "'" :: e ++ [ch "'"])), new_cursor []).
Proof.
  intros He Hb. eapply advance_whole; [done|done|]. unfold token_kind. cbn [chars].
  destruct is_id_start_34 as [_ ->]. change (is_whitespace 39) with false.
  change (is_ascii_digit 39) with false. change (one_symbol 39) with (@None TokenKind).
  cbn [Z.eqb Pos.eqb]. unfold lifetime_or_char. cbn [chars].
  assert ((if second (e ++ [39]) =? 39 then false
           else is_id_start (first (e ++ [39])) || is_digit10 (first (e ++ [39]))) = false) as ->.
  { destruct (escaped_form _ _ _ He) as [(->&_)|(d&t&->&_)]; [done|]. cbn [app first second rest].
    rewrite is_id_start_ascii by done. by destruct (d =? 39). }
  cbn [negb]. rewrite (escaped_single _ _ _ [] He). by rewrite quoted_whole.
Qed.

Lemma lex_byte uni e x :
  escaped uni e x → str_len ([ch "b"; ch "'"] ++ e ++ [ch "'"]) < 2 ^ 32 →
  advance_token (new_cursor ([ch "b"; ch "'"] ++ e ++ [ch "'"]))
  = Ret (mkToken (Literal (Byte true) (str_len ([ch "b"; ch "'"] ++ e ++ [ch "'"])))
           (str_len ([ch "b"; ch "'"] ++ e ++ [ch "'"])), new_cursor []).
Proof.
  intros He Hb. eapply advance_whole; [done|done|]. unfold token_kind, c_or_byte_string.
  cbn [chars first rest]. change (is_whitespace (ch "b")) with false. cbn [Z.eqb Pos.eqb app].
  rewrite (escaped_single _ _ _ [] He). by rewrite quoted_whole.
Qed.

Lemma read_char c :
  is_char c = true → str_len (str "'" ++ escape_default c ++ str "'") < 2 ^ 32 →
  read_literal (str "'" ++ escape_default c ++ str "'") = Ret (Some (inl (LChar c)), []).
Proof.
  intros Hc Hb. pose proof (escape_default_escaped c Hc) as He.
  pose proof (unescape_char_escaped false _ _ He) as Hu.
  apply (read_whole _ (Char true) TChar (escape_default c)).
  - by eapply lex_char.
  - cbn [cook_lexer_literal rassert].
    apply (cook_common_clean _ [ch "'"] _ [ch "'"] _ _ _
             [((0, str_len (escape_default c) - 0), inl c)] [c]); [done..| |done].
    cbn [unescape_literal]. change (bool_decide (MChar = MByte)) with false. by rewrite Hu.
  - unfold from_token_lit. cbn [lit_symbol lit_suffix lit_kind]. unfold unescape_char. by rewrite Hu.
Qed.

Lemma read_byte b :
  0 ≤ b < 256 → str_len (str "b'" ++ escape_ascii b ++ str "'") < 2 ^ 32 →
  read_literal (str "b'" ++ escape_ascii b ++ str "'") = Ret (Some (inl (LByte b)), []).
Proof.
  intros Hb Hl. pose proof (escape_ascii_escaped b Hb) as He.
  pose proof (unescape_char_escaped true _ _ He) as Hu.
  apply (read_whole _ (Byte true) TByte (escape_ascii b)).
  - by eapply lex_byte.
  - cbn [cook_lexer_literal rassert].
    apply (cook_common_clean _ (str "b'") _ (str "'") _ _ _
             [((0, str_len (escape_ascii b) - 0), inl b)] [b]); [done..| |done].
    cbn [unescape_literal]. change (bool_decide (MByte = MByte)) with true. by rewrite Hu.
  - unfold from_token_lit. cbn [lit_symbol lit_suffix lit_kind]. unfold unescape_byte. rewrite Hu.
    cbn [fst]. do 3 f_equal. apply wrap_small. unfold is_uint. lia.
Qed.

(** Raw strings *)
Lemma str_len_hashes n : str_len (hashes n) = Z.of_nat n.
Proof. induction n as [|n IH]; [done|]. change (1 + str_len (hashes n) = Z.of_nat (S n)). lia. Qed.

Lemma raw_units s n :
  has 13 s = false → ∃ evs, unescape_raw_loop n false s = evs ∧ snd <$> evs = inl <$> s.
Proof.
  intros Hs. eexists. split; [done|]. induction s as [|c s IH]; [done|].
  unfold has in Hs. cbn [existsb] in Hs. apply orb_false_iff in Hs as [Hc Hs].
  cbn. rewrite Z.eqb_sym, Hc. f_equal. by apply IH.
Qed.

Lemma read_raw_str n s :
  0 ≤ n ≤ 255 → (∀ a b, s ≠ a ++ 34 :: hashes (Z.to_nat n) ++ b) → has 13 s = false →
  str_len (delimited (str "r") n s) < 2 ^ 32 →
  read_literal (delimited (str "r") n s) = Ret (Some (inl (LStr s (Raw n))), []).
Proof.
  intros Hn Hs Hcr Hb.
  assert (delimited (str "r") n s
          = ch "r" :: hashes (Z.to_nat n) ++ 34 :: s ++ 34 :: hashes (Z.to_nat n)) as E by done.
  destruct (raw_units s (str_len s) Hcr) as (evs&Hu&Hx).
  pose proof (raw_string_lexes (Z.to_nat n) s [] ltac:(lia) Hs) as Hlex.
  cbv zeta in Hlex. rewrite app_nil_r in Hlex. rewrite <- E, Z2Nat.id in Hlex by lia.
  apply (read_whole _ (RawStr (Some n)) (TStrRaw n) s).
  - apply Hlex; [by rewrite is_id_start_ascii|done].
  - cbn [cook_lexer_literal]. unfold cook_quoted.
    replace (delimited (str "r") n s)
      with ((ch "r" :: hashes (Z.to_nat n) ++ [34]) ++ s ++ (34 :: hashes (Z.to_nat n))).
    2: { rewrite E. cbn. by rewrite <- app_assoc. }
    eapply (cook_common_clean _ _ _ _ _ _ _ evs s); [| | |done].
    + change (1 + str_len (hashes (Z.to_nat n) ++ [34]) = 2 + n).
      rewrite str_len_app, str_len_hashes. cbn. lia.
    + change (1 + str_len (hashes (Z.to_nat n)) = 1 + n). rewrite str_len_hashes. lia.
    + cbn [unescape_literal]. unfold unescape_raw_str_or_raw_byte_str.
      change (bool_decide (MRawStr = MRawByteStr)) with false. by rewrite Hu.
  - unfold from_token_lit. cbn [lit_symbol lit_suffix lit_kind]. by rewrite Hcr.
Qed.

(** Raw byte strings: their bytes are ASCII characters. *)
Definition ascii_bytes (bytes : list Z) : Prop := Forall (λ b, 0 ≤ b < 128) bytes.

Lemma ascii_bytes_utf8 bytes :
  ascii_bytes bytes → from_utf8 bytes = Some bytes ∧ into_bytes bytes = bytes.
Proof.
  induction 1 as [|b bytes Hb _ [IH1 IH2]]; [done|]. split.
  - cbn [from_utf8]. destruct (Z.ltb_spec b 0x80); [|lia]. rewrite IH1. unfold cons_char, is_char.
    assert ((0 <=? b) && (b <=? 0x10FFFF) && negb ((0xD800 <=? b) && (b <=? 0xDFFF)) = true) as -> by lia.
    destruct (Z.leb_spec 0 b); [done|lia].
  - change (encode_utf8 b ++ into_bytes bytes = b :: bytes). rewrite IH2. unfold encode_utf8.
    by destruct (Z.ltb_spec b 0x80); [|lia].
Qed.

Lemma raw_byte_units bytes n :
  ascii_bytes bytes → has 13 bytes = false →
  snd <$> unescape_raw_loop n true bytes = inl <$> bytes.
Proof.
  induction 1 as [|b bytes Hb _ IH]; [done|]. intros Hs.
  unfold has in Hs. cbn [existsb] in Hs. apply orb_false_iff in Hs as [Hc Hs].
  cbn [unescape_raw_loop fmap list_fmap snd]. rewrite Z.eqb_sym, Hc. f_equal; [|by apply IH].
  unfold ascii_check, is_ascii. by destruct (Z.ltb_spec b 0x80); [|lia].
Qed.

Lemma raw_byte_string_lexes n s :
  (n <= 255)%nat → (∀ a b, s ≠ a ++ 34 :: hashes n ++ b) →
  let txt := ch "b" :: ch "r" :: hashes n ++ 34 :: s ++ 34 :: hashes n in
  str_len txt < 2 ^ 32 →
  advance_token (new_cursor txt)
  = Ret (mkToken (Literal (RawByteStr (Some (Z.of_nat n))) (str_len txt)) (str_len txt), new_cursor []).
Proof.
  intros Hn Hs txt Hlen. apply (advance_whole txt (ch "b") (tail txt)); [done|done|].
  unfold token_kind, c_or_byte_string. cbn [chars tail txt].
  change (is_whitespace (ch "b")) with false. cbn [Z.eqb Pos.eqb].
  set (l := hashes n ++ 34 :: s ++ 34 :: hashes n).
  assert ((first l =? 34) || (first l =? 35) = true) as Hl by (by unfold l; destruct n).
  change (first (ch "r" :: l)) with (ch "r"). change (second (ch "r" :: l)) with (first l).
  change (rest (ch "r" :: l)) with l. cbn [Z.eqb Pos.eqb andb]. rewrite Hl. unfold raw_literal, set_chars. cbn [len_remaining chars]. unfold l.
  rewrite <- (app_nil_r (34 :: hashes n)).
  rewrite (raw_double_quoted_string_scan _ _ n _ []) by (by apply scan_content).
  destruct (Z.leb_spec (Z.of_nat n) 255); [|lia]. cbn [obind ok_of chars].
  unfold set_chars, eat_literal_suffix. cbn [len_remaining chars].
  rewrite eat_identifier_none by (by rewrite is_id_start_ascii).
  rewrite (pos_after (new_cursor txt) txt); [done|done| |done]. cbn. by rewrite app_nil_r.
Qed.

Lemma read_raw_byte_str n s :
  0 ≤ n ≤ 255 → (∀ a b, s ≠ a ++ 34 :: hashes (Z.to_nat n) ++ b) → has 13 s = false → ascii_bytes s →
  str_len (delimited (str "br") n s) < 2 ^ 32 →
  read_literal (delimited (str "br") n s) = Ret (Some (inl (LByteStr s (Raw n))), []).
Proof.
  intros Hn Hs Hcr Ha Hb.
  assert (delimited (str "br") n s
          = ch "b" :: ch "r" :: hashes (Z.to_nat n) ++ 34 :: s ++ 34 :: hashes (Z.to_nat n)) as E by done.
  pose proof (raw_byte_string_lexes (Z.to_nat n) s ltac:(lia) Hs) as Hlex.
  cbv zeta in Hlex. rewrite <- E, Z2Nat.id in Hlex by lia.
  apply (read_whole _ (RawByteStr (Some n)) (TByteStrRaw n) s); [by apply Hlex| |].
  - cbn [cook_lexer_literal]. unfold cook_quoted.
    replace (delimited (str "br") n s)
      with ((ch "b" :: ch "r" :: hashes (Z.to_nat n) ++ [34]) ++ s ++ (34 :: hashes (Z.to_nat n))).
    2: { rewrite E. cbn. by rewrite <- app_assoc. }
    eapply (cook_common_clean _ _ _ _ _ _ _ (unescape_raw_loop (str_len s) true s) s).
    + change (1 + (1 + str_len (hashes (Z.to_nat n) ++ [34])) = 3 + n).
      rewrite str_len_app, str_len_hashes. cbn. lia.
    + change (1 + str_len (hashes (Z.to_nat n)) = 1 + n). rewrite str_len_hashes. lia.
    + cbn [unescape_literal]. unfold unescape_raw_str_or_raw_byte_str.
      by change (bool_decide (MRawByteStr = MRawByteStr)) with true.
    + by apply raw_byte_units.
  - unfold from_token_lit. cbn [lit_symbol lit_suffix lit_kind]. rewrite Hcr.
    by rewrite (proj2 (ascii_bytes_utf8 s Ha)).
Qed.

(** ** Integers *)

Lemma dec_digits_spec fuel n acc a :
  0 ≤ n < 10 ^ Z.of_nat fuel →
  (0 < fuel)%nat →
  ∃ ds, dec_digits fuel n acc = ds ++ acc ∧ ds ≠ [] ∧ forallb is_ascii_digit ds = true ∧
        digits_value 10 a (ds ++ acc) = digits_value 10 (a * 10 ^ Z.of_nat (length ds) + n) acc.
Proof.
  revert n acc. induction fuel as [|fuel IH]; intros n acc Hn Hf; [lia|]. cbn [dec_digits].
  assert (∀ d, 0 ≤ d < 10 → is_ascii_digit (ch "0" + d) = true ∧ to_digit (ch "0" + d) 10 = Some d) as Hd.
  { intros d Hd. unfold to_digit, is_ascii_digit.
    assert ((48 <=? 48 + d) && (48 + d <=? 57) = true) as -> by lia. split; [done|].
    replace (48 + d - 48) with d by lia. destruct (Z.ltb_spec d 10); [done|lia]. }
  destruct (Z.ltb_spec n 10).
  - exists [ch "0" + n mod 10]. rewrite Z.mod_small by lia. destruct (Hd n) as [H1' H2']; [lia|].
    split_and!; [done|done|by cbn [forallb]; rewrite H1'|].
    cbn [app digits_value length]. by rewrite H2'.
  - destruct (Hd (n mod 10)) as [H1' H2']; [lia|].
    assert (10 ^ Z.of_nat (S fuel) = 10 * 10 ^ Z.of_nat fuel) as Hp
      by (rewrite Nat2Z.inj_succ, Z.pow_succ_r by lia; done).
    destruct (decide (fuel = O)) as [->|]; [cbn in Hn; lia|].
    destruct (IH (n / 10) ((ch "0" + n mod 10) :: acc)) as (ds&->&Hne&Hall&Hv); [lia|lia|].
    exists (ds ++ [ch "0" + n mod 10]). rewrite <- app_assoc. split_and!; [done| | |].
    + by destruct ds.
    + rewrite forallb_app, Hall. cbn [forallb andb]. by rewrite H1'.
    + cbn [app]. rewrite Hv. cbn [digits_value]. rewrite H2'. f_equal.
      rewrite length_app, Nat2Z.inj_add, Z.pow_add_r by lia. cbn [length]. lia.
Qed.

Lemma dec_string_spec n :
  is_uint 128 n →
  ∃ d ds, dec_string n = d :: ds ∧ forallb is_ascii_digit (d :: ds) = true ∧
          digits_value 10 0 (d :: ds) = Some n.
Proof.
  intros [Hn1 Hn2]. destruct (dec_digits_spec 40 n [] 0) as (ds&E&Hne&Hall&Hv); [|lia|].
  { assert (2 ^ 128 < 10 ^ Z.of_nat 40) by reflexivity. lia. }
  unfold dec_string. rewrite app_nil_r in E, Hv. destruct ds as [|d ds]; [done|].
  exists d, ds. split_and!; [done|done|]. rewrite Hv. done.
Qed.

(** The suffixes an integer literal is printed with. *)
Definition int_type_name (ty : LitIntType) : Symbol :=
  match ty with Unsigned ty => uint_name ty | Signed ty => int_name ty | Unsuffixed => [] end.

Lemma int_type_name_ok ty :
  match int_type_name ty with
  | [] => ty = Unsuffixed
  | c :: s => (c = ch "i" ∨ c = ch "u") ∧ is_ident (c :: s) = true ∧ c :: s ≠ str "_" ∧
              int_suffix (c :: s) = Some ty
  end.
Proof.
  assert (∀ c, 0 ≤ c < 128 → is_id_continue c
            = is_ascii_lower c || is_ascii_upper c || is_ascii_digit c || (c =? ch "_")) as Hc
    by apply xid_continue_ascii.
  destruct ty as [[]|[]|]; cbn -[is_id_start is_id_continue int_suffix]; try done;
    rewrite is_id_start_ascii, !Hc by done; (split; [tauto|]); done.
Qed.

Lemma digits_decimal ds : forallb is_ascii_digit ds = true → forallb decimal_char ds = true.
Proof.
  induction ds as [|d ds IH]; [done|]. cbn [forallb]. intros [Hd Hds]%andb_true_iff.
  rewrite IH by done. unfold decimal_char. by rewrite Hd.
Qed.

(** Decimal digits before the end of the text or the [i] or [u] of a suffix. *)
Lemma number_decimal d ds sfx :
  forallb is_ascii_digit (d :: ds) = true → first sfx ∈ [EOF_CHAR; ch "i"; ch "u"] →
  number d (ds ++ sfx) = (Int Decimal false, sfx).
Proof.
  cbn [forallb]. intros [Hd Hds]%andb_true_iff Hs.
  assert (number_tail Decimal sfx = (Int Decimal false, sfx)) as Ht.
  { unfold number_tail. rewrite !elem_of_cons in Hs. destruct Hs as [->|[->|[->|Hs]]]; [done..|].
    by apply elem_of_nil in Hs. }
  assert (eat_decimal_digits (ds ++ sfx) = (existsb is_ascii_digit ds, sfx)) as He.
  { unfold eat_decimal_digits. rewrite eat_decimal_digits_stop; [done|by apply digits_decimal|].
    rewrite !elem_of_cons in Hs. destruct Hs as [->|[->|[->|Hs]]]; [done..|].
    by apply elem_of_nil in Hs. }
  unfold number. destruct (d =? ch "0"); [|by rewrite He].
  destruct ds as [|e ds]; cbn [app first].
  - rewrite !elem_of_cons in Hs. destruct Hs as [->|[->|[->|Hs]]]; [done..|].
    by apply elem_of_nil in Hs.
  - cbn [forallb] in Hds. apply andb_true_iff in Hds as [He' _]. rewrite He'. cbn [orb].
    unfold is_ascii_digit in He'. destruct (Z.eqb_spec e (ch "b")); [lia|].
    destruct (Z.eqb_spec e (ch "o")); [lia|]. destruct (Z.eqb_spec e (ch "x")); [lia|].
    change (e :: ds ++ sfx) with ((e :: ds) ++ sfx). by rewrite He.
Qed.

Lemma strip_underscores_digits ds :
  forallb is_ascii_digit ds = true → strip_underscores ds = ds.
Proof.
  induction ds as [|d ds IH]; [done|]. cbn [forallb]. intros [Hd Hds]%andb_true_iff.
  unfold strip_underscores in *. cbn [List.filter]. unfold is_ascii_digit in Hd.
  destruct (Z.eqb_spec d (ch "_")); [lia|]. cbn [negb]. by rewrite IH.
Qed.

Lemma lit_base_digits ds : forallb is_ascii_digit ds = true → lit_base ds = 10.
Proof.
  destruct ds as [|c [|d ds]]; [done..|]. cbn [forallb lit_base].
  intros [Hc [Hd _]%andb_true_iff]%andb_true_iff. unfold is_ascii_digit in Hd.
  destruct (c =? ch "0"); [|done]. destruct (Z.eqb_spec d (ch "x")); [lia|].
  destruct (Z.eqb_spec d (ch "o")); [lia|]. by destruct (Z.eqb_spec d (ch "b")); [lia|].
Qed.

(** The digits of a [u128] are its value in [integer_lit]. *)
Lemma integer_value_decimal d ds n ty :
  forallb is_ascii_digit (d :: ds) = true → digits_value 10 0 (d :: ds) = Some n → is_uint 128 n →
  integer_value (d :: ds) 10 ty = inl (LInt n ty).
Proof.
  intros Hds Hv [_ Hn]. unfold integer_value, u128_from_str_radix, strip_prefix. cbn [Z.eqb Pos.eqb].
  cbn [forallb] in Hds. apply andb_true_iff in Hds as [Hd _]. unfold is_ascii_digit in Hd.
  destruct (Z.eqb_spec d (ch "+")); [lia|]. rewrite bool_decide_eq_false_2 by done. rewrite Hv.
  destruct (Z.ltb_spec n (2 ^ 128)); [done|lia].
Qed.

Lemma read_int n ty :
  is_uint 128 n → str_len (dec_string n ++ int_type_name ty) < 2 ^ 32 →
  read_literal (dec_string n ++ int_type_name ty) = Ret (Some (inl (LInt n ty)), []).
Proof.
  intros Hn Hb. destruct (dec_string_spec n Hn) as (d&ds&E&Hds&Hv). rewrite E in *.
  set (sfx := int_type_name ty) in *. pose proof (int_type_name_ok ty) as Hty. fold sfx in Hty.
  set (txt := (d :: ds) ++ sfx) in *.
  assert (pos_within_token (mkCursor (str_len txt) sfx) = str_len (d :: ds)) as Hp
    by (by apply (pos_after (new_cursor txt))).
  assert (eat_literal_suffix sfx = []) as He.
  { unfold eat_literal_suffix. destruct sfx as [|c sfx']; [by apply eat_identifier_none, is_id_start_ascii|].
    pose proof (eat_identifier_ident (c :: sfx') []) as Hi. rewrite app_nil_r in Hi.
    apply Hi; [tauto|]. cbn. by rewrite xid_continue_ascii. }
  assert (advance_token (new_cursor txt)
          = Ret (mkToken (Literal (Int Decimal false) (str_len (d :: ds))) (str_len txt), new_cursor []))
    as Ha.
  { apply (advance_whole txt d (ds ++ sfx)); [done|done|]. rewrite token_kind_digit.
    - unfold number_literal. cbn [chars]. rewrite number_decimal; [|done|].
      + unfold set_chars. cbn [chars len_remaining]. by rewrite He, Hp.
      + destruct sfx as [|c sfx']; cbn [first]; [by left|]. destruct Hty as [[-> | ->] _]; [right; left|right; right; left].
    - by apply andb_true_iff in Hds as [? _]. }
  unfold read_literal. rewrite Ha. cbn [obind kind tok_len]. rewrite split_at_byte_all. cbn [obind].
  unfold cook_literal_token, txt. rewrite split_at_byte_app. cbn [obind cook_lexer_literal cook_number].
  destruct sfx as [|c sfx'] eqn:Es.
  - cbn [obind]. unfold from_token_lit. cbn [lit_suffix lit_kind may_have_suffix negb lit_symbol].
    unfold integer_lit. rewrite strip_underscores_digits, lit_base_digits by done.
    rewrite (integer_value_decimal d ds n) by done. by rewrite Hty.
  - destruct Hty as (_&_&Hu&Hi). rewrite bool_decide_eq_false_2 by done. cbn [obind].
    unfold from_token_lit. cbn [lit_suffix lit_kind may_have_suffix negb lit_symbol].
    unfold integer_lit. rewrite strip_underscores_digits, lit_base_digits, Hi by done.
    by rewrite (integer_value_decimal d ds n).
Qed.

(** ** Printing and reading back *)

(** Text that can stand between the delimiters of a raw string with [n] hashes *)
Definition raw_text (n : Z) (s : list Z) : Prop :=
  0 ≤ n ≤ 255 ∧ (∀ a b, s ≠ a ++ 34 :: hashes (Z.to_nat n) ++ b) ∧ has 13 s = false.

(** The literals whose printed form is read back. *)
Definition printable (l : LitKind) : Prop :=
  match l with
  | LStr s Cooked => forallb is_char s = true
  | LStr s (Raw n) => raw_text n s
  | LByteStr bytes Cooked => Forall (λ b, 0 ≤ b < 256) bytes
  | LByteStr bytes (Raw n) => raw_text n bytes ∧ ascii_bytes bytes
  | LByte b => 0 ≤ b < 256
  | LChar c => is_char c = true
  | LInt n _ => is_uint 128 n
  | _ => False
  end.

(** C8. Round trip of literals: the text that [Display for LitKind] prints for
    a string, byte string, byte, char or integer literal, when it is shorter
    than [2^32] bytes, is one literal token from its first to its last
    character, which is cooked without an error and converted by
    [from_token_lit] to the same literal, with its style and type.  Strings
    consist of characters and integers fit 128 bits, as in every literal; raw
    strings have at most 255 hashes and contain neither their closing delimiter
    nor a carriage return, and raw byte strings are ASCII besides.  C strings,
    floats, field literals and booleans are not covered. *)
Theorem display_read_roundtrip l :
  printable l →
  ∃ txt, lit_display l = Ret txt ∧
    (str_len txt < 2 ^ 32 → read_literal txt = Ret (Some (inl l), [])).
Proof.
  destruct l as [s []|bytes []|bytes []|b|c|n ty|s ty|s|b|]; cbn [printable lit_display]; try done;
    intros Hp; try (eexists; split; [done|]; intros Hb).
  - by apply read_str.
  - destruct Hp as (?&?&?). by apply read_raw_str.
  - by apply read_byte_str.
  - destruct Hp as [(?&?&?) Ha]. rewrite (proj1 (ascii_bytes_utf8 bytes Ha)). cbn [unwrap obind].
    eexists. split; [done|]. intros Hb. by apply read_raw_byte_str.
  - by apply read_byte.
  - by apply read_char.
  - by apply read_int.
Qed.

(** Only field tokens are read as field literals. *)
Lemma cook_field body lk k sym errs :
  cook_lexer_literal body lk = Ret ((k, sym), errs) → k = TField → ∃ b e, lk = Field b e.
Proof.
  unfold cook_lexer_literal, cook_quoted, cook_c_string, cook_common, cook_number, rassert.
  intros E ->. destruct lk; try (eexists _, _; reflexivity);
    repeat (case_match || (apply obind_ret_inv in E as (?&?&E)) || simplify_eq/=).
Qed.

Lemma from_token_field lit s : from_token_lit lit = Ret (inl (LField s)) → lit_kind lit = TField.
Proof.
  unfold from_token_lit, unescape_collect, unescape_c_collect, finish_collect, rassert, integer_lit,
    integer_value, float_lit, filtered_float_lit.
  intros E.
  repeat (case_match || (apply obind_ret_inv in E as (?&?&E)) || simplify_eq/=); done.
Qed.

Lemma read_field txt s errs :
  str_len txt < 2 ^ 32 → read_literal txt = Ret (Some (inl (LField s)), errs) →
  existsb is_g txt = true.
Proof.
  intros Hb E. unfold read_literal in E. apply obind_ret_inv in E as ([tok cur]&Ha&E).
  destruct (kind tok) eqn:Hk;
    try done.
  apply obind_ret_inv in E as ([t [|]]&_&E); [|done]. apply obind_ret_inv in E as ([lit es]&Hc&E).
  apply obind_ret_inv in E as (res&Hf&[= -> ->]). apply from_token_field in Hf.
  unfold cook_literal_token in Hc. apply obind_ret_inv in Hc as ([body sfx]&_&Hc).
  apply obind_ret_inv in Hc as ([[k sym] es']&Hc&E).
  assert (k = TField) as Hkf by (repeat case_match; simplify_eq; done).
  destruct (cook_field _ _ _ _ _ Hc Hkf) as (b&e&->).
  destruct (field_token_suffix (new_cursor txt) tok cur b e suffix_start) as (t1&t2&Ht&_&Hg&_); [done..|].
  cbn in Ht. rewrite Ht, !existsb_app. destruct t2 as [|c t2]; [done|]. cbn in Hg |- *. rewrite Hg.
  apply orb_true_r.
Qed.

Lemma number_digits_no_g b ds :
  number_digits b ds = true → existsb is_g (strip_underscores (base_prefix b ++ ds)) = false.
Proof.
  intros Hds. apply not_true_iff_false. intros (c&Hin&Hg)%existsb_exists.
  apply filter_In in Hin as [Hin _]. apply in_app_or in Hin. apply is_g_cases in Hg.
  destruct Hin as [Hin|Hin].
  { destruct b; cbn in Hin; repeat (destruct Hin as [<-|Hin]; [by destruct Hg|]); done. }
  unfold number_digits in Hds.
  assert (decimal_char c = true ∨ hexadecimal_char c = true) as Hc.
  { destruct b; apply andb_true_iff in Hds as [Hds _]; rewrite forallb_forall in Hds; eauto. }
  destruct Hc as [Hc|Hc]; destruct Hg as [-> | ->]; done.
Qed.

(** A printed field literal is not a field literal any more: for every
    number [ds] of base [b] that [field_lit] accepts, the text printed for the
    literal (its symbol, without the suffix [g]) is never read back as a field
    literal. *)
Theorem field_display_loses_suffix b ds sfx s :
  number_digits b ds = true → field_lit (base_prefix b ++ ds) sfx = inl (LField s) →
  ∃ txt, lit_display (LField s) = Ret txt ∧
    (str_len txt < 2 ^ 32 → ∀ s' errs, read_literal txt ≠ Ret (Some (inl (LField s')), errs)).
Proof.
  intros Hds Hf. exists s. split; [done|]. intros Hb s' errs Hr.
  apply read_field in Hr; [|done].
  assert (s = strip_underscores (base_prefix b ++ ds)) as ->
    by (unfold field_lit in Hf; repeat case_match; congruence).
  by rewrite number_digits_no_g in Hr.
Qed.

(** ** C strings *)

(** The unit an escaped byte is read as. *)
Definition c_unit (b : Z) : CStrUnit :=
  match escape_ascii b with [_] => UChar b | _ => UByte b end.

Lemma c_unit_undone b : 0 ≤ b < 256 → undone MCStr (escape_ascii b) (c_unit b).
Proof.
  intros Hb. unfold c_unit.
  destruct (escape_ascii_escaped b Hb) as [c ? ? ? ?|d y Hin|c ? Hc|b _ ?]; [..|done|].
  - exact (@undone_plain CStrUnit cstr_from MCStr c ltac:(done) ltac:(done) ltac:(done)).
  - exact (@undone_backslash CStrUnit cstr_from MCStr d y Hin).
  - exact (@undone_hex CStrUnit cstr_from MCStr b eq_refl Hb).
Qed.

Lemma collect_c_units bytes buf evs :
  Forall (λ b, 0 < b < 256) bytes → snd <$> evs = inl ∘ c_unit <$> bytes →
  ∃ buf', foldl collect_c (buf, None) evs = (buf', None).
Proof.
  intros Hbs. revert buf evs. induction Hbs as [|b bytes Hb _ IH]; intros buf [|[r x] evs]; try done.
  { by eexists. }
  cbn [fmap list_fmap foldl snd]. intros [= -> E]. unfold compose, collect_c at 2, c_unit.
  cbn [snd]. assert ((b =? 0) = false) as Hb0 by lia.
  repeat case_match; simplify_eq; try congruence; by apply IH.
Qed.

(** A printed C string is not read back: the bytes that [from_token_lit]
    keeps end with the NUL terminator, which [Display for LitKind] prints as
    [\x00]; that text is lexed and cooked without an error and then rejected
    by [from_token_lit] with [NulInCStr]. *)
Theorem cstr_display_unreadable bytes :
  Forall (λ b, 0 < b < 256) bytes →
  ∃ txt, lit_display (LCStr (bytes ++ [0]) Cooked) = Ret txt ∧
    (str_len txt < 2 ^ 32 → ∃ range, read_literal txt = Ret (Some (inr (NulInCStr range)), [])).
Proof.
  intros Hbs. eexists. split; [done|]. intros Hb.
  set (all := bytes ++ [0]) in *. set (txt := ch "c" :: [34] ++ escape_bytes all ++ [34]) in *.
  assert (Forall (λ b, 0 ≤ b < 256) all) as Hall.
  { apply Forall_app. split; [|by apply Forall_singleton].
    eapply Forall_impl; [exact Hbs|]. cbn. lia. }
  destruct (unescape_str_undone MCStr escape_ascii c_unit all
              (S (length (escape_bytes all))) (str_len (escape_bytes all))) as (evs&Hu&Hx).
  { eapply Forall_impl; [exact Hall|]. intros b ?. by apply c_unit_undone. }
  { unfold escape_bytes. lia. }
  assert (advance_token (new_cursor txt)
          = Ret (mkToken (Literal (CStr true) (str_len txt)) (str_len txt), new_cursor [])) as Ha.
  { apply (advance_whole txt (ch "c") (34 :: escape_bytes all ++ [34])); [done|done|].
    unfold token_kind, c_or_byte_string. cbn [chars first rest].
    change (is_whitespace (ch "c")) with false. cbn [Z.eqb Pos.eqb].
    unfold escape_bytes at 2.
    rewrite (escaped_text_double false escape_ascii all []) by (by apply bytes_escaped).
    by rewrite quoted_whole. }
  assert (unescape_c_string (escape_bytes all) MCStr = Ret evs) as Hc by exact Hu.
  assert (cook_lexer_literal txt (CStr true) = Ret ((TCStr, escape_bytes all), [])) as Hck.
  { cbn [cook_lexer_literal rassert]. unfold cook_c_string.
    eapply (cook_common_clean _ [ch "c"; 34] _ [34] _ _ _ evs (c_unit <$> all)); [done|done|done|].
    by rewrite Hx, <- list_fmap_compose. }
  unfold all in Hx. rewrite fmap_app in Hx.
  apply fmap_app_inv in Hx as (evs1&evs2&Hx1&Hx2&->).
  destruct (collect_c_units bytes [] evs1) as (buf&Hbuf); [done|done|].
  destruct evs2 as [|[range x] [|]]; try done. injection Hx2 as <-.
  exists range. unfold read_literal. rewrite Ha. cbn [obind kind tok_len].
  rewrite split_at_byte_all. cbn [obind]. unfold cook_literal_token.
  rewrite split_at_byte_all. cbn [obind]. rewrite Hck. cbn [obind].
  unfold from_token_lit. cbn [lit_suffix lit_kind lit_symbol]. unfold unescape_c_collect.
  rewrite Hc. cbn [obind]. by rewrite foldl_app, Hbuf.
Qed.
End read.

(** ** The properties at concrete inputs *)

(** Big integers as [N]. *)
Fixpoint be_bytes (fuel : nat) (n : Z) (acc : list Z) : list Z :=
  match fuel with
  | O => acc
  | S fuel =>
      let acc := n mod 256 :: acc in
      if n <? 256 then acc else be_bytes fuel (n / 256) acc
  end.
Definition n_big_uint : BigUintApi := {|
  BigUint := N;
  big_from_str_radix s radix :=
    if bool_decide (s = []) then None else Z.to_N <$> digits_value radix 0 s;
  big_to_bytes_be n := be_bytes (S (Z.to_nat (Z.log2 (Z.of_N n)))) (Z.of_N n) [];
  big_geb a b := (b <=? a)%N;
|}.

Lemma display_read_roundtrip_witness :
  ∃ txt, lit_display (LStr (str "a\b" ++ [233; 10]) Cooked) = Ret txt ∧
    (str_len txt < 2 ^ 32 →
     @read_literal ascii_tables n_big_uint txt
     = Ret (Some (inl (LStr (str "a\b" ++ [233; 10]) Cooked)), [])).
Proof. by apply (@display_read_roundtrip ascii_tables ascii_tables_ok n_big_uint). Defined.

Lemma field_display_loses_suffix_witness :
  ∃ txt, lit_display (LField (str "0x1f")) = Ret txt ∧
    (str_len txt < 2 ^ 32 →
     ∀ s' errs, @read_literal ascii_tables n_big_uint txt ≠ Ret (Some (inl (LField s')), errs)).
Proof.
  apply (@field_display_loses_suffix ascii_tables ascii_tables_ok n_big_uint
           Hexadecimal (str "1_f") (str "g")); reflexivity.
Defined.

Lemma cstr_display_unreadable_witness :
  ∃ txt, lit_display (LCStr (str "hi" ++ [0]) Cooked) = Ret txt ∧
    (str_len txt < 2 ^ 32 →
     ∃ range, @read_literal ascii_tables n_big_uint txt = Ret (Some (inr (NulInCStr range)), [])).
Proof.
  apply (@cstr_display_unreadable ascii_tables n_big_uint (str "hi")).
  repeat constructor.
Defined.
