(* ===== verification/Fields.v ===== *)
(** Field constants, the core of the fork: the field and curve types of
    [rustc_type_ir], [ScalarField] ([rustc_middle/src/ty/consts/field.rs]), the
    conversion of field literals ([rustc_mir_build/src/build/mod.rs]), the
    overflow lints ([rustc_lint/src/types.rs]), integers and fields in target
    memory ([rustc_middle/src/mir/interpret/mod.rs]) and the curve constants of
    [library/core/src/num/curves.rs].

    The crate [crypto_bigint] is the class [U384Api]; the types [IntTy] and
    [UintTy] of [rustc_ast] and of [rustc_type_ir], which have the same
    variants, are one type each. *)

From S2P Require Import Prelude MemDecoder Leb128 Opaque Chars Lexer Literal Abi.

(** ** Types: [rustc_type_ir] *)

Module IntTy.
Definition bit_width (self : IntTy) : option Z :=
  match self with
  | Isize => None | Si8 => Some 8 | Si16 => Some 16 | Si32 => Some 32 | Si64 => Some 64
  | Si128 => Some 128
  end.
Definition normalize (self : IntTy) (target_width : Z) : outcome IntTy :=
  match self with
  | Isize =>
      if target_width =? 16 then Ret Si16 else if target_width =? 32 then Ret Si32
      else if target_width =? 64 then Ret Si64 else Panic
  | _ => Ret self
  end.
Definition to_unsigned (self : IntTy) : UintTy :=
  match self with
  | Isize => Usize | Si8 => Ui8 | Si16 => Ui16 | Si32 => Ui32 | Si64 => Ui64 | Si128 => Ui128
  end.
End IntTy.

Module UintTy.
Definition bit_width (self : UintTy) : option Z :=
  match self with
  | Usize => None | Ui8 => Some 8 | Ui16 => Some 16 | Ui32 => Some 32 | Ui64 => Some 64
  | Ui128 => Some 128
  end.
Definition normalize (self : UintTy) (target_width : Z) : outcome UintTy :=
  match self with
  | Usize =>
      if target_width =? 16 then Ret Ui16 else if target_width =? 32 then Ret Ui32
      else if target_width =? 64 then Ret Ui64 else Panic
  | _ => Ret self
  end.
Definition to_signed (self : UintTy) : IntTy :=
  match self with
  | Usize => Isize | Ui8 => Si8 | Ui16 => Si16 | Ui32 => Si32 | Ui64 => Si64 | Ui128 => Si128
  end.
End UintTy.

Module FieldTy.
Inductive t :=
| Bls12381Base | Bls12381Scalar | Curve25519Base | Curve25519Scalar | PallasBase | PallasScalar.

Definition name_str (self : t) : Symbol :=
  match self with
  | Bls12381Base => str "__zkllvm_field_bls12381_base"
  | Bls12381Scalar => str "__zkllvm_field_bls12381_scalar"
  | Curve25519Base => str "__zkllvm_field_curve25519_base"
  | Curve25519Scalar => str "__zkllvm_field_curve25519_scalar"
  | PallasBase => str "__zkllvm_field_pallas_base"
  | PallasScalar => str "__zkllvm_field_pallas_scalar"
  end.

Definition bit_width (self : t) : Z :=
  match self with
  | Bls12381Base => 384
  | Bls12381Scalar => 256
  | Curve25519Base => 256
  | Curve25519Scalar => 256
  | PallasBase => 256
  | PallasScalar => 256
  end.

Definition modulus_as_hex (self : t) : Symbol :=
  match self with
  | Bls12381Base => str "1a0111ea397fe69a4b1ba7b6434bacd764774b84f38512bf6730d2a0f6b0f6241eabfffeb153ffffb9feffffffffaaab"
  | Bls12381Scalar => str "73eda753299d7d483339d80809a1d80553bda402fffe5bfeffffffff00000001"
  | Curve25519Base => str "7fffffffffffffffffffffffffffffffffffffffffffffffffffffffffffffed"
  | Curve25519Scalar => str "1000000000000000000000000000000014def9dea2f79cd65812631a5cf5d3ed"
  | PallasBase => str "40000000000000000000000000000000224698fc094cf91b992d30ed00000001"
  | PallasScalar => str "40000000000000000000000000000000224698fc0994a8dd8c46eb2100000001"
  end.
End FieldTy.

Module CurveTy.
Inductive t := Bls12381 | Curve25519 | Pallas | Vesta.

Definition name_str (self : t) : Symbol :=
  match self with
  | Bls12381 => str "__zkllvm_curve_bls12381"
  | Curve25519 => str "__zkllvm_curve_curve25519"
  | Pallas => str "__zkllvm_curve_pallas"
  | Vesta => str "__zkllvm_curve_vesta"
  end.

Definition bit_width (self : t) : Z :=
  match self with Bls12381 => 640 | Curve25519 => 512 | Pallas => 512 | Vesta => 512 end.
End CurveTy.

(** [Field::from_field_ty] and [Curve::from_curve_ty]
    ([rustc_middle/src/ty/layout.rs]) *)
Definition from_field_ty (fty : FieldTy.t) : Abi.Field :=
  match fty with
  | FieldTy.Bls12381Base => Bls12381Base
  | FieldTy.Bls12381Scalar => Bls12381Scalar
  | FieldTy.Curve25519Base => Curve25519Base
  | FieldTy.Curve25519Scalar => Curve25519Scalar
  | FieldTy.PallasBase => PallasBase
  | FieldTy.PallasScalar => PallasScalar
  end.
Definition from_curve_ty (cty : CurveTy.t) : Abi.Curve :=
  match cty with
  | CurveTy.Bls12381 => Bls12381
  | CurveTy.Curve25519 => Curve25519
  | CurveTy.Pallas => Pallas
  | CurveTy.Vesta => Vesta
  end.

(** ** [crypto_bigint::U384] *)

Class U384Api := {
  U384 : Type;
  u384_from_be_bytes : list Z → U384;
  u384_to_be_bytes : U384 → list Z;
  u384_from_le_bytes : list Z → U384;
  u384_to_le_bytes : U384 → list Z;
  u384_from_be_hex : list Z → U384;
  u384_from_u128 : Z → U384;
  u384_leb : U384 → U384 → bool;
  u384_wrapping_rem : U384 → U384 → U384;
  u384_saturating_sub : U384 → U384 → U384;
  u384_as_words : U384 → list Z;
}.

(** ** [ScalarField] *)

Module ScalarField.
Section scalar_field.
Context `{U384Api}.

Record t := mk { data : U384; size_ : Z }.

(** [NonZeroU16::try_from(size.bytes() as u16)], or [bug!] *)
Definition nonzero_u16 (size : Size) : outcome Z :=
  let size := wrap 16 (Size.bytes size) in
  rassert (negb (size =? 0)) (Ret size).

Definition from_be_bytes (bytes_be : list Z) (size : Size) : outcome t :=
  let data := u384_from_be_bytes bytes_be in
  let! size := nonzero_u16 size in
  Ret (mk data size).
Definition from_u384 (i : U384) (size : Size) : outcome t :=
  let! size := nonzero_u16 size in
  Ret (mk i size).
Definition from_uint (i : Z) (size : Size) : outcome t :=
  let! size := nonzero_u16 size in
  Ret (mk (u384_from_u128 i) size).

Definition size (self : t) : Size := Size.from_bytes (size_ self).
Definition words (self : t) : list Z := u384_as_words (data self).

Definition BLS12381_BASE_MODULUS : t :=
  mk (u384_from_be_hex (str "1a0111ea397fe69a4b1ba7b6434bacd764774b84f38512bf6730d2a0f6b0f6241eabfffeb153ffffb9feffffffffaaab")) 48.
Definition BLS12381_SCALAR_MODULUS : t :=
  mk (u384_from_be_hex (str "0000000000000000000000000000000073eda753299d7d483339d80809a1d80553bda402fffe5bfeffffffff00000001")) 32.
Definition CURVE25519_BASE_MODULUS : t :=
  mk (u384_from_be_hex (str "000000000000000000000000000000007fffffffffffffffffffffffffffffffffffffffffffffffffffffffffffffed")) 32.
Definition CURVE25519_SCALAR_MODULUS : t :=
  mk (u384_from_be_hex (str "000000000000000000000000000000001000000000000000000000000000000014def9dea2f79cd65812631a5cf5d3ed")) 32.
Definition PALLAS_BASE_MODULUS : t :=
  mk (u384_from_be_hex (str "0000000000000000000000000000000040000000000000000000000000000000224698fc094cf91b992d30ed00000001")) 32.
Definition PALLAS_SCALAR_MODULUS : t :=
  mk (u384_from_be_hex (str "0000000000000000000000000000000040000000000000000000000000000000224698fc0994a8dd8c46eb2100000001")) 32.

(** [impl Encodable for ScalarField] *)
Definition encode {S} `{Encoder S} (self : t) (s : S) : outcome S :=
  let! s := emit_raw_bytes (u384_to_be_bytes (data self)) s in
  emit_u16 (size_ self) s.

(** [impl Decodable for ScalarField] *)
Definition decode : MemDecoder.decoder t := λ d,
  let! (be_bytes, d) := MemDecoder.read_raw_bytes 48 d in
  let data := u384_from_be_bytes be_bytes in
  let! (size, d) := MemDecoder.read_u16 d in
  rassert (negb (size =? 0)) (Ret (mk data size, d)).
End scalar_field.
End ScalarField.

(** ** Field literals to constants *)

Section parse.
Context `{BigUintApi} `{U384Api}.

(** [match field_ty] in [parse_field_into_scalar_field] *)
Definition field_modulus (field_ty : FieldTy.t) : ScalarField.t :=
  match field_ty with
  | FieldTy.Bls12381Base => ScalarField.BLS12381_BASE_MODULUS
  | FieldTy.Bls12381Scalar => ScalarField.BLS12381_SCALAR_MODULUS
  | FieldTy.Curve25519Base => ScalarField.CURVE25519_BASE_MODULUS
  | FieldTy.Curve25519Scalar => ScalarField.CURVE25519_SCALAR_MODULUS
  | FieldTy.PallasBase => ScalarField.PALLAS_BASE_MODULUS
  | FieldTy.PallasScalar => ScalarField.PALLAS_SCALAR_MODULUS
  end.

(** The part of [parse_field_into_scalar_field] behind the conversion to
    bytes: reduction and negation *)
Definition reduce_field (scalar modulus : ScalarField.t) (size : Size) (neg : bool)
    : outcome ScalarField.t :=
  let! scalar :=
    if u384_leb (ScalarField.data modulus) (ScalarField.data scalar)
    then ScalarField.from_u384
           (u384_wrapping_rem (ScalarField.data scalar) (ScalarField.data modulus)) size
    else Ret scalar in
  if neg && negb (u384_leb (ScalarField.data scalar) (u384_from_u128 0))
  then ScalarField.from_u384
         (u384_saturating_sub (ScalarField.data modulus) (ScalarField.data scalar)) size
  else Ret scalar.

Definition parse_field_into_scalar_field (num : Symbol) (field_ty : FieldTy.t) (neg : bool)
    : outcome (option ScalarField.t) :=
  let base := lit_base num in
  match big_from_str_radix (strip_prefix num base) base with
  | None => Ret None
  | Some big_uint =>
      let bytes_be := big_to_bytes_be big_uint in
      rassert (length bytes_be <=? 48)%nat
        (let rest := replicate (48 - length bytes_be) 0 ++ bytes_be in
         let size := Size.from_bits (FieldTy.bit_width field_ty) in
         let! scalar := ScalarField.from_be_bytes rest size in
         let! scalar := reduce_field scalar (field_modulus field_ty) size neg in
         Ret (Some scalar))
  end.
End parse.

(** ** Lints on literals: [rustc_lint/src/types.rs] *)

Definition int_ty_range (int_ty : IntTy) : Z * Z :=
  match int_ty with
  | Isize => (- 2 ^ 63, 2 ^ 63 - 1)
  | Si8 => (- 2 ^ 7, 2 ^ 7 - 1)
  | Si16 => (- 2 ^ 15, 2 ^ 15 - 1)
  | Si32 => (- 2 ^ 31, 2 ^ 31 - 1)
  | Si64 => (- 2 ^ 63, 2 ^ 63 - 1)
  | Si128 => (- 2 ^ 127, 2 ^ 127 - 1)
  end.

Definition uint_ty_range (uint_ty : UintTy) : Z * Z :=
  (0, match uint_ty with
      | Usize => umax 64
      | Ui8 => umax 8
      | Ui16 => umax 16
      | Ui32 => umax 32
      | Ui64 => umax 64
      | Ui128 => umax 128
      end).

(** One arm of [find_fit!]: the first unsigned type that holds a value that is
    not negated, else the first signed type that holds it *)
Definition find_fit (val : Z) (negative : bool) (utypes : list UintTy) (itypes : list IntTy)
    : option Symbol :=
  let neg := if negative then 1 else 0 in
  match List.find (λ u, negb negative && (val <=? snd (uint_ty_range u))) utypes with
  | Some u => Some (uint_name u)
  | None =>
      match List.find (λ i, val <=? wadd 128 (snd (int_ty_range i)) neg) itypes with
      | Some i => Some (int_name i)
      | None => None
      end
  end.

(** The types of expressions that literals can have; a reference is named by
    what it points to *)
Inductive TyKind :=
| TyInt (t : IntTy) | TyUint (t : UintTy) | TyFloat (t : FloatTy) | TyField (t : FieldTy.t)
| TyBool | TyChar | TyRefStr | TyRefSlice | TyRefArray | TyRefCStr | TyOther.

Definition get_type_suggestion (t : TyKind) (val : Z) (negative : bool) : option Symbol :=
  match t with
  | TyInt Si8 => find_fit val negative [Ui8] [Si16; Si32; Si64; Si128]
  | TyInt Si16 => find_fit val negative [Ui16] [Si32; Si64; Si128]
  | TyInt Si32 => find_fit val negative [Ui32] [Si64; Si128]
  | TyInt Si64 => find_fit val negative [Ui64] [Si128]
  | TyInt Si128 => find_fit val negative [Ui128] []
  | TyUint Ui8 => find_fit val negative [Ui8; Ui16; Ui32; Ui64; Ui128] []
  | TyUint Ui16 => find_fit val negative [Ui16; Ui32; Ui64; Ui128] []
  | TyUint Ui32 => find_fit val negative [Ui32; Ui64; Ui128] []
  | TyUint Ui64 => find_fit val negative [Ui64; Ui128] []
  | TyUint Ui128 => find_fit val negative [Ui128] []
  | _ => None
  end.

(** Whether [lint_int_literal] emits a lint (each path behind its test does),
    with the type the help message names *)
Definition lint_int_literal (pointer_width : Z) (negative : bool) (t : IntTy) (v : Z)
    : outcome (option (option Symbol)) :=
  let! int_type := IntTy.normalize t pointer_width in
  let max := snd (int_ty_range int_type) in
  if (negative && (wadd 128 max 1 <? v)) || (negb negative && (max <? v))
  then Ret (Some (get_type_suggestion (TyInt t) v negative))
  else Ret None.

Definition lint_uint_literal (pointer_width : Z) (lit : LitKind) (t : UintTy)
    : outcome (option (option Symbol)) :=
  let! uint_type := UintTy.normalize t pointer_width in
  let '(min, max) := uint_ty_range uint_type in
  match lit with
  | LByte _ => Ret None
  | LInt lit_val _ =>
      if (lit_val <? min) || (max <? lit_val)
      then Ret (Some (get_type_suggestion (TyUint t) lit_val false)) else Ret None
  | _ => Panic
  end.

Section lint.
Context `{BigUintApi}.

(** The lint [OverflowingField]: the name of the type, and the modulus with the
    base it is printed in *)
Definition lint_field_literal (lit : LitKind) (t : FieldTy.t)
    : outcome (option (Symbol * Z * BigUint)) :=
  match lit with
  | LField s =>
      let base := lit_base s in
      let! big_uint := unwrap (big_from_str_radix (strip_prefix s base) base) in
      let! modulus := unwrap (big_from_str_radix (FieldTy.modulus_as_hex t) 16) in
      if big_geb big_uint modulus then Ret (Some (FieldTy.name_str t, base, modulus)) else Ret None
  | _ => Panic
  end.
End lint.

(** ** Constants in MIR: [lit_to_mir_constant] *)

Inductive LitToConstError := TypeError | Reported.

Section constants.
Context `{BigUintApi} `{U384Api}.

(** [ConstValue]: bytes stand for the allocation that holds them *)
Inductive ConstValue :=
| CScalar (bits : Z) (size : Size)
| CField (f : ScalarField.t)
| CSlice (data : list Z)
| CPointer (data : list Z).

(** The layout of an integer type, of which [trunc] takes the size *)
Definition int_width (pointer_width : Z) (ty : TyKind) : outcome Size :=
  match ty with
  | TyInt t => Ret (Size.from_bits (default pointer_width (IntTy.bit_width t)))
  | TyUint t => Ret (Size.from_bits (default pointer_width (UintTy.bit_width t)))
  | _ => Panic
  end.

(** [Scalar::from_uint] with [ScalarInt::try_from_uint] *)
Definition scalar_from_uint (i : Z) (size : Size) : outcome ConstValue :=
  let! data := Size.truncate size i in
  rassert (data =? i) (rassert (negb (wrap 8 (Size.bytes size) =? 0)) (Ret (CScalar i size))).

(** The closure [trunc] *)
Definition trunc (pointer_width : Z) (ty : TyKind) (n : Z) : outcome ConstValue :=
  let! width := int_width pointer_width ty in
  let! result := Size.truncate width n in
  scalar_from_uint result width.

(** [(n as i128).overflowing_neg().0 as u128] *)
Definition negate_u128 (n : Z) : Z := of_signed 128 (- to_signed 128 n).

(** [lit_to_mir_constant]; the float arm is [parse_float] *)
Definition lit_to_mir_constant (pointer_width : Z)
    (parse_float : Symbol → FloatTy → bool → outcome (option ConstValue))
    (lit : LitKind) (ty : TyKind) (neg : bool) : outcome (ConstValue + LitToConstError) :=
  match lit, ty with
  | LStr s _, TyRefStr => Ret (inl (CSlice (into_bytes s)))
  | LByteStr data _, TyRefSlice => Ret (inl (CSlice data))
  | LByteStr data _, TyRefArray => Ret (inl (CPointer data))
  | LCStr data _, TyRefCStr => Ret (inl (CSlice data))
  | LByte n, TyUint Ui8 =>
      let! v := scalar_from_uint n (Size.from_bytes 1) in Ret (inl v)
  | LInt n _, TyUint _ | LInt n _, TyInt _ =>
      let! v := trunc pointer_width ty (if neg then negate_u128 n else n) in Ret (inl v)
  | LFloat n _, TyFloat fty =>
      let! v := parse_float n fty neg in
      Ret (match v with Some v => inl v | None => inr Reported end)
  | LField n, TyField fty =>
      let! v := parse_field_into_scalar_field n fty neg in
      Ret (match v with Some v => inl (CField v) | None => inr Reported end)
  | LBool b, TyBool => Ret (inl (CScalar (if b then 1 else 0) (Size.from_bytes 1)))
  | LChar c, TyChar => Ret (inl (CScalar c (Size.from_bytes 4)))
  | LErr, _ => Ret (inr Reported)
  | _, _ => Ret (inr TypeError)
  end.
End constants.

(** ** Integers and fields in target memory *)

(** [target.write(src)] on a slice: as much as fits, the rest is left alone *)
Definition slice_write (target src : list Z) : list Z :=
  take (length target) src ++ drop (length src) target.

(** [a[from..]] *)
Definition slice_from (a : list Z) (from : Z) : outcome (list Z) :=
  rassert (from <=? Z.of_nat (length a)) (Ret (drop (Z.to_nat from) a)).

(** [source.read(&mut buf[from..])] *)
Definition slice_read_at (buf : list Z) (from : Z) (source : list Z) : outcome (list Z) :=
  let! tail := slice_from buf from in
  Ret (take (Z.to_nat from) buf ++ slice_write tail source).

(** [16 - len] in [usize] *)
Definition payload_start (len : nat) : Z := wsub 64 16 (Z.of_nat len).

Definition write_target_uint (endianness : Endian) (target : list Z) (data : Z)
    : outcome (list Z) :=
  match endianness with
  | Little => Ret (slice_write target (MemDecoder.to_le_bytes 16 data))
  | Big =>
      let! payload := slice_from (rev (MemDecoder.to_le_bytes 16 data))
                        (payload_start (length target)) in
      Ret (slice_write target payload)
  end.

Definition read_target_uint (endianness : Endian) (source : list Z) : outcome Z :=
  let buf := replicate 16 0 in
  match endianness with
  | Little =>
      let! buf := slice_read_at buf 0 source in
      Ret (MemDecoder.from_le_bytes buf)
  | Big =>
      let! buf := slice_read_at buf (payload_start (length source)) source in
      Ret (MemDecoder.from_le_bytes (rev buf))
  end.

Section target_field.
Context `{U384Api}.

Definition write_target_field (endianness : Endian) (target : list Z) (data : U384)
    : outcome (list Z) :=
  match endianness with
  | Little => Ret (slice_write target (u384_to_le_bytes data))
  | Big =>
      let! payload := slice_from (u384_to_be_bytes data) (payload_start (length target)) in
      Ret (slice_write target payload)
  end.

Definition read_target_field (endianness : Endian) (source : list Z) : outcome U384 :=
  let buf := replicate 48 0 in
  match endianness with
  | Little =>
      let! buf := slice_read_at buf 0 source in
      Ret (u384_from_le_bytes buf)
  | Big =>
      let! buf := slice_read_at buf (payload_start (length source)) source in
      Ret (u384_from_be_bytes buf)
  end.
End target_field.

(** ** The constants of [library/core/src/num/curves.rs] *)

Module consts.
Definition BLS12381_CURVE_ZERO_X : list Z := str "0x0g".
Definition BLS12381_CURVE_ZERO_Y : list Z := str "0x1g".
Definition BLS12381_CURVE_ONE_X : list Z := str "0x17f1d3a73197d7942695638c4fa9ac0fc3688c4f9774b905a14e3a3f171bac586c55e83ff97a1aeffb3af00adb22c6bbg".
Definition BLS12381_CURVE_ONE_Y : list Z := str "0x8b3f481e3aaa0f1a09e30ed741d8ae4fcf5e095d5d00af600db18cb2c04b3edd03cc744a2888ae40caa232946c5e7e1g".
Definition CURVE25519_CURVE_ZERO_X : list Z := str "0x0g".
Definition CURVE25519_CURVE_ZERO_Y : list Z := str "0x1g".
Definition CURVE25519_CURVE_ONE_X : list Z := str "0x216936d3cd6e53fec0a4e231fdd6dc5c692cc7609525a7b2c9562d608f25d51ag".
Definition CURVE25519_CURVE_ONE_Y : list Z := str "0x6666666666666666666666666666666666666666666666666666666666666658g".
Definition PALLAS_CURVE_ZERO_X : list Z := str "0x0g".
Definition PALLAS_CURVE_ZERO_Y : list Z := str "0x1g".
Definition PALLAS_CURVE_ONE_X : list Z := str "0x40000000000000000000000000000000224698fc094cf91b992d30ed00000000g".
Definition PALLAS_CURVE_ONE_Y : list Z := str "0x2g".
Definition VESTA_CURVE_ZERO_X : list Z := str "0x0g".
Definition VESTA_CURVE_ZERO_Y : list Z := str "0x1g".
Definition VESTA_CURVE_ONE_X : list Z := str "0x40000000000000000000000000000000224698fc0994a8dd8c46eb2100000000g".
Definition VESTA_CURVE_ONE_Y : list Z := str "0x2g".
End consts.

(** The type of the coordinates in [from_coordinates] *)
Definition base_field (c : CurveTy.t) : FieldTy.t :=
  match c with
  | CurveTy.Bls12381 => FieldTy.Bls12381Base
  | CurveTy.Curve25519 => FieldTy.Curve25519Base
  | CurveTy.Pallas => FieldTy.PallasBase
  | CurveTy.Vesta => FieldTy.PallasScalar
  end.

(** The coordinates [zero] and [one] pass to [from_coordinates]
    ([impl_zero_one!]) *)
Definition curve_zero (c : CurveTy.t) : list Z * list Z :=
  match c with
  | CurveTy.Bls12381 => (consts.BLS12381_CURVE_ZERO_X, consts.BLS12381_CURVE_ZERO_Y)
  | CurveTy.Curve25519 => (consts.CURVE25519_CURVE_ZERO_X, consts.CURVE25519_CURVE_ZERO_Y)
  | CurveTy.Pallas => (consts.PALLAS_CURVE_ZERO_X, consts.PALLAS_CURVE_ZERO_Y)
  | CurveTy.Vesta => (consts.VESTA_CURVE_ZERO_X, consts.VESTA_CURVE_ZERO_Y)
  end.
Definition curve_one (c : CurveTy.t) : list Z * list Z :=
  match c with
  | CurveTy.Bls12381 => (consts.BLS12381_CURVE_ONE_X, consts.BLS12381_CURVE_ONE_Y)
  | CurveTy.Curve25519 => (consts.CURVE25519_CURVE_ONE_X, consts.CURVE25519_CURVE_ONE_Y)
  | CurveTy.Pallas => (consts.PALLAS_CURVE_ONE_X, consts.PALLAS_CURVE_ONE_Y)
  | CurveTy.Vesta => (consts.VESTA_CURVE_ONE_X, consts.VESTA_CURVE_ONE_Y)
  end.
