(* ===== verification/FieldsProps.v ===== *)
(** Field constants are what their literals say: the laws of the big integer
    crates, the value of a field literal from its text to the constant in MIR,
    the overflow lints, the tables of field and curve types, and the
    representation of constants in target memory and in metadata. *)

From S2P Require Import Prelude MemDecoder Leb128 Opaque Chars Lexer LexerProps Literal.
From S2P Require Import LiteralProps Abi AbiProps Fields.

#[local] Ltac Zify.zify_post_hook ::= Z.to_euclidean_division_equations.

Import MemDecoder.

(** ** The big integer crates *)

Abbreviation is_byte b := (0 ≤ b < 256).

(** Big-endian bytes as a number *)
Definition be_value (bs : list Z) : Z := from_le_bytes (rev bs).

(** The documented behaviour of [num::BigUint] on what the compiler passes:
    [from_str_radix] reads digits and rejects text with another char (apart
    from separators and a sign), [to_bytes_be] gives the shortest big-endian
    bytes. *)
Class BigUintLaws `{BigUintApi} := {
  big_val : BigUint → Z;
  big_parse s radix n :
    2 ≤ radix ≤ 36 → s ≠ [] → digits_value radix 0 s = Some n →
    ∃ u, big_from_str_radix s radix = Some u ∧ big_val u = n;
  big_parse_none s radix :
    2 ≤ radix ≤ 36 → has (ch "_") s = false → has (ch "+") s = false →
    digits_value radix 0 s = None → big_from_str_radix s radix = None;
  big_bytes u :
    ∃ b bs, big_to_bytes_be u = b :: bs ∧ Forall (λ b, is_byte b) (b :: bs) ∧
      be_value (b :: bs) = big_val u ∧ (b = 0 → bs = []);
  big_geb_val a b : big_geb a b = (big_val b <=? big_val a);
}.

(** The documented behaviour of [crypto_bigint::U384]. *)
Class U384Laws `{U384Api} := {
  u384_val : U384 → Z;
  u384_range x : is_uint 384 (u384_val x);
  u384_inj x y : u384_val x = u384_val y → x = y;
  u384_be_bytes_val bs :
    length bs = 48%nat → Forall (λ b, is_byte b) bs →
    u384_val (u384_from_be_bytes bs) = be_value bs;
  u384_to_be_bytes_val x :
    length (u384_to_be_bytes x) = 48%nat ∧ Forall (λ b, is_byte b) (u384_to_be_bytes x) ∧
    be_value (u384_to_be_bytes x) = u384_val x;
  u384_le_bytes_val bs :
    length bs = 48%nat → Forall (λ b, is_byte b) bs →
    u384_val (u384_from_le_bytes bs) = from_le_bytes bs;
  u384_to_le_bytes_val x : u384_to_le_bytes x = to_le_bytes 48 (u384_val x);
  u384_hex_val s n :
    length s = 96%nat → digits_value 16 0 s = Some n → u384_val (u384_from_be_hex s) = n;
  u384_u128_val n : is_uint 128 n → u384_val (u384_from_u128 n) = n;
  u384_leb_val x y : u384_leb x y = (u384_val x <=? u384_val y);
  u384_rem_val x y : u384_val y ≠ 0 → u384_val (u384_wrapping_rem x y) = u384_val x mod u384_val y;
  u384_sub_val x y : u384_val (u384_saturating_sub x y) = Z.max 0 (u384_val x - u384_val y);
}.

(** ** Bytes *)

Lemma from_le_bytes_app a b :
  from_le_bytes (a ++ b) = from_le_bytes a + 256 ^ Z.of_nat (length a) * from_le_bytes b.
Proof.
  induction a as [|c a IH]; cbn [from_le_bytes app length]; [lia|].
  rewrite IH, Nat2Z.inj_succ, Z.pow_succ_r by lia. lia.
Qed.

Lemma from_le_bytes_range bs :
  Forall (λ b, is_byte b) bs → 0 ≤ from_le_bytes bs < 256 ^ Z.of_nat (length bs).
Proof.
  induction 1 as [|b bs Hb _ IH]; cbn [from_le_bytes length]; [done|].
  rewrite Nat2Z.inj_succ, Z.pow_succ_r by lia. lia.
Qed.

Lemma from_le_bytes_zeros n : from_le_bytes (replicate n 0) = 0.
Proof. induction n as [|n IH]; cbn [replicate from_le_bytes]; lia. Qed.

Lemma rev_zeros n : rev (replicate n 0) = replicate n 0.
Proof.
  rewrite rev_alt. change (rev_append (replicate n 0) []) with (reverse (replicate n 0)).
  apply reverse_replicate.
Qed.

Lemma be_value_zeros n bs : be_value (replicate n 0 ++ bs) = be_value bs.
Proof.
  unfold be_value. rewrite rev_app_distr, from_le_bytes_app.
  rewrite rev_zeros, from_le_bytes_zeros. lia.
Qed.

(** The shortest bytes of a number are at most 48 iff it is below [2 ^ 384]. *)
Lemma big_bytes_fit `{BigUintLaws} u :
  (length (big_to_bytes_be u) <= 48)%nat ↔ big_val u < 2 ^ 384.
Proof.
  destruct (big_bytes u) as (b&bs&->&Hb&Hv&Hmin). rewrite <- Hv. unfold be_value.
  cbn [rev]. rewrite from_le_bytes_app, length_rev. cbn [from_le_bytes].
  rewrite Forall_cons in Hb. destruct Hb as [Hb Hbs].
  assert (Forall (λ b, is_byte b) (rev bs)) as Hr by (by apply Forall_rev).
  apply from_le_bytes_range in Hr. rewrite length_rev in Hr. cbn [length].
  change (2 ^ 384) with (256 ^ 48). split; intros Hl.
  - assert (256 ^ Z.of_nat (length bs) * 256 ≤ 256 ^ 48); [|nia].
    rewrite Z.mul_comm, <- Z.pow_succ_r by lia. apply Z.pow_le_mono_r; lia.
  - destruct (decide (b = 0)) as [->|Hb0]; [rewrite Hmin by done; cbn; lia|].
    destruct (decide (S (length bs) <= 48)%nat); [done|exfalso].
    assert (256 ^ 48 ≤ 256 ^ Z.of_nat (length bs)) by (apply Z.pow_le_mono_r; lia). nia.
Qed.

(** ** The constants of the field types *)

(** The prime of a field *)
Definition prime (t : FieldTy.t) : Z := default 0 (digits_value 16 0 (FieldTy.modulus_as_hex t)).

Lemma field_modulus_val `{U384Laws} t : u384_val (ScalarField.data (field_modulus t)) = prime t.
Proof. destruct t; apply u384_hex_val; reflexivity. Qed.

Lemma prime_bounds t :
  2 ^ (Field.real_bits (from_field_ty t) - 1) < prime t < 2 ^ Field.real_bits (from_field_ty t).
Proof. by destruct t; vm_compute. Qed.

Lemma prime_pos t : 1 < prime t.
Proof. by destruct t. Qed.

Lemma field_size_of t :
  ScalarField.nonzero_u16 (Size.from_bits (FieldTy.bit_width t))
  = Ret (FieldTy.bit_width t / 8).
Proof. by destruct t. Qed.

(** The tables of the field types agree: the layout of a field type has the
    bits that [FieldTy::bit_width] says, the modulus in [ScalarField] is the
    one of [FieldTy::modulus_as_hex] and has the size of the layout, and the
    width passed to LLVM ([Field::real_bits]) is the least that holds every
    element. *)
Theorem field_tables_agree `{U384Laws} t :
  Size.bits (Field.size (from_field_ty t)) = Ret (FieldTy.bit_width t) ∧
  digits_value 16 0 (FieldTy.modulus_as_hex t) = Some (u384_val (ScalarField.data (field_modulus t))) ∧
  ScalarField.size (field_modulus t) = Field.size (from_field_ty t) ∧
  Z.log2 (u384_val (ScalarField.data (field_modulus t)) - 1) + 1 = Field.real_bits (from_field_ty t) ∧
  Field.real_bits (from_field_ty t) ≤ FieldTy.bit_width t.
Proof. rewrite field_modulus_val. by destruct t; vm_compute. Qed.

(** The tables of the curve types: a curve element is two elements of the
    base field, and [CurveTy::bit_width] is the width of its layout for every
    curve but BLS12-381, where it is less than the bits the element needs. *)
Theorem curve_tables c :
  Curve.size (from_curve_ty c) = Size.mul (Field.size (from_field_ty (base_field c))) 2 ∧
  Curve.real_bits (from_curve_ty c) = 2 * Field.real_bits (from_field_ty (base_field c)) ∧
  match c with
  | CurveTy.Bls12381 => CurveTy.bit_width c < Curve.real_bits (from_curve_ty c)
  | _ => ∃ s, Curve.size (from_curve_ty c) = Ret s ∧ Size.bits s = Ret (CurveTy.bit_width c)
  end.
Proof.
  split; [by destruct c|]. split; [by destruct c|].
  destruct c; [reflexivity|exists 64..]; by split.
Qed.

(** ** The value of a field literal *)

Section value.
Context `{BL : BigUintLaws} `{UL : U384Laws}.

Lemma reduce_field_val data size16 t neg :
  ∃ sf, reduce_field (ScalarField.mk data size16) (field_modulus t)
          (Size.from_bits (FieldTy.bit_width t)) neg = Ret sf ∧
    u384_val (ScalarField.data sf) = (if neg then - u384_val data else u384_val data) mod prime t ∧
    (size16 = FieldTy.bit_width t / 8 → ScalarField.size_ sf = FieldTy.bit_width t / 8).
Proof.
  pose proof (prime_pos t) as Hp. unfold reduce_field, ScalarField.from_u384.
  rewrite field_size_of. cbn [obind ScalarField.data].
  rewrite u384_leb_val, field_modulus_val.
  set (red := if prime t <=? u384_val data then _ else _).
  assert (∃ x, red = Ret (ScalarField.mk x (if prime t <=? u384_val data
                                             then FieldTy.bit_width t / 8 else size16)) ∧
               u384_val x = u384_val data mod prime t) as (x&->&Hx).
  { unfold red. destruct (Z.leb_spec (prime t) (u384_val data)); eexists; (split; [done|]).
    - rewrite u384_rem_val; rewrite field_modulus_val; [done|lia].
    - pose proof (u384_range data) as [? _]. by rewrite Z.mod_small by lia. }
  cbn [obind ScalarField.data]. rewrite u384_leb_val, (u384_u128_val 0) by done. rewrite Hx.
  pose proof (Z.mod_pos_bound (u384_val data) (prime t) ltac:(lia)).
  destruct neg; cbn [andb].
  - destruct (Z.leb_spec (u384_val data mod prime t) 0); cbn [negb].
    + eexists. split; [done|]. cbn. split; [|by case_match].
      rewrite Hx, Z.mod_opp_l_z by lia. lia.
    + eexists. split; [done|]. cbn. split; [|done].
      rewrite u384_sub_val, field_modulus_val, Hx, Z.mod_opp_l_nz by lia. lia.
  - eexists. split; [done|]. cbn. split; [done|by case_match].
Qed.

(** The digits of a number once prefix and underscores are gone. *)
Lemma strip_text b ds :
  number_digits b ds = true →
  let s := strip_underscores (base_prefix b ++ ds) in
  lit_base s = base_value b ∧ strip_prefix s (base_value b) = strip_underscores ds.
Proof.
  intros Hds. cbv zeta. destruct b; [by split|by split| |by split]. split; [|done].
  apply andb_true_iff in Hds as [Hds _]. apply lit_base_digits. cbn [base_prefix app].
  apply forallb_forall. intros c [Hin Hu]%filter_In. rewrite forallb_forall in Hds.
  apply Hds in Hin. unfold decimal_char in Hin. destruct (is_ascii_digit c); [done|].
  by rewrite Z.eqb_sym in Hu; destruct (ch "_" =? c) eqn:E; rewrite Z.eqb_sym, E in Hin.
Qed.

Lemma strip_nonempty b ds : number_digits b ds = true → strip_underscores ds ≠ [].
Proof.
  intros Hds. assert (∃ c, In c ds ∧ c ≠ ch "_") as (c&Hin&Hc).
  { destruct b; apply andb_true_iff in Hds as [_ Hds].
    3: { destruct ds as [|c ds]; [done|]. exists c. split; [by left|]. by intros ->. }
    all: apply existsb_exists in Hds as (c&?&Hc); exists c; split; [done|]; by intros ->. }
  assert (In c (strip_underscores ds)) as Hin'.
  { apply filter_In. split; [done|]. by destruct (Z.eqb_spec c (ch "_")). }
  by intros E; rewrite E in Hin'.
Qed.

Lemma base_value_range b : 2 ≤ base_value b ≤ 36.
Proof. destruct b; cbn; lia. Qed.

(** What [field_lit] and [parse_field_into_scalar_field] read. *)
Lemma field_text_val b ds n :
  number_digits b ds = true → digits_value (base_value b) 0 (strip_underscores ds) = Some n →
  let s := strip_underscores (base_prefix b ++ ds) in
  ∃ u, big_from_str_radix (strip_prefix s (lit_base s)) (lit_base s) = Some u ∧ big_val u = n ∧
    lit_base s = base_value b.
Proof.
  intros Hds Hv s. destruct (strip_text b ds Hds) as [Eb Es]. fold s in Eb, Es. rewrite Eb, Es.
  destruct (big_parse (strip_underscores ds) (base_value b) n) as (u&?&?);
    [apply base_value_range|by eapply strip_nonempty|done|eauto].
Qed.

Lemma field_lit_val b ds n g :
  number_digits b ds = true → digits_value (base_value b) 0 (strip_underscores ds) = Some n →
  g = str "g" ∨ g = str "G" →
  field_lit (base_prefix b ++ ds) g
  = if n <? 2 ^ 384 then inl (LField (strip_underscores (base_prefix b ++ ds)))
    else inr (FieldTooLarge (base_value b)).
Proof.
  intros Hds Hv Hg. destruct (field_text_val b ds n Hds Hv) as (u&Hu&Hval&Hb).
  unfold field_lit. rewrite Hu, Hb.
  assert (negb (bool_decide (g = str "G") || bool_decide (g = str "g")) = false) as ->
    by (by destruct Hg as [-> | ->]).
  pose proof (big_bytes_fit u) as Hfit. rewrite Hval in Hfit.
  destruct (Z.ltb_spec n (2 ^ 384)), (Nat.ltb_spec 48 (length (big_to_bytes_be u))); try done; lia.
Qed.

Lemma parse_field_val b ds n t neg :
  number_digits b ds = true → digits_value (base_value b) 0 (strip_underscores ds) = Some n →
  n < 2 ^ 384 →
  ∃ sf, parse_field_into_scalar_field (strip_underscores (base_prefix b ++ ds)) t neg
        = Ret (Some sf) ∧
    u384_val (ScalarField.data sf) = (if neg then - n else n) mod prime t ∧
    ScalarField.size sf = Field.size (from_field_ty t).
Proof.
  intros Hds Hv Hn. destruct (field_text_val b ds n Hds Hv) as (u&Hu&Hval&Hb).
  unfold parse_field_into_scalar_field. rewrite Hu.
  assert (length (big_to_bytes_be u) <= 48)%nat as Hlen by (apply big_bytes_fit; lia).
  destruct (Nat.leb_spec (length (big_to_bytes_be u)) 48); [|lia]. cbn [rassert].
  unfold ScalarField.from_be_bytes. rewrite field_size_of. cbn [obind].
  set (data := u384_from_be_bytes _).
  assert (u384_val data = n) as Hd.
  { unfold data. destruct (big_bytes u) as (b'&bs&E&Hbs&Hbv&_). rewrite E in *.
    rewrite u384_be_bytes_val, be_value_zeros; [lia| |].
    - rewrite length_app, length_replicate. lia.
    - apply Forall_app. split; [|done]. apply Forall_replicate. lia. }
  destruct (reduce_field_val data (FieldTy.bit_width t / 8) t neg) as (sf&->&Hsf&Hsz).
  cbn [obind]. exists sf. rewrite Hsf, Hd. split_and!; [done|done|].
  unfold ScalarField.size. rewrite Hsz by done. by destruct t.
Qed.

(** ** From the text to the constant *)

Lemma valid_digits_cook base ds acc n pos :
  digits_value base acc (strip_underscores ds) = Some n → invalid_digits base pos ds = [].
Proof.
  revert acc pos. induction ds as [|c ds IH]; intros acc pos Hv; [done|].
  unfold strip_underscores in Hv. cbn [List.filter invalid_digits] in *.
  destruct (c =? ch "_"); cbn [negb andb app] in *; [by eapply IH|].
  cbn [digits_value] in Hv. destruct (to_digit c base); [|done]. by eapply IH.
Qed.

Context `{UnicodeTables} `{!UnicodeAscii}.

Lemma read_field_literal b ds n g :
  number_digits b ds = true → digits_value (base_value b) 0 (strip_underscores ds) = Some n →
  g = str "g" ∨ g = str "G" → str_len (base_prefix b ++ ds ++ g) < 2 ^ 32 →
  read_literal (base_prefix b ++ ds ++ g)
  = Ret (Some (field_lit (base_prefix b ++ ds) g), []).
Proof.
  intros Hds Hv Hg Hlen.
  assert (is_ident g = true ∧ is_g (first g) = true ∧ g ≠ [] ∧ g ≠ str "_") as (Hi&Hfg&Hne&Hnu).
  { destruct Hg as [-> | ->]; split_and!; try done; cbn -[is_id_start]; by rewrite is_id_start_ascii. }
  pose proof (field_literal_lexes b ds g [] Hds Hi Hfg ltac:(by apply xid_continue_ascii)) as Hlex.
  cbv zeta in Hlex. rewrite app_nil_r, <- app_assoc in Hlex. specialize (Hlex Hlen).
  unfold read_literal. rewrite Hlex. cbn [obind kind tok_len].
  replace (base_prefix b ++ ds ++ g) with ((base_prefix b ++ ds) ++ g) by (by rewrite app_assoc).
  rewrite split_at_byte_all. cbn [obind]. unfold cook_literal_token. rewrite split_at_byte_app.
  cbn [obind cook_lexer_literal].
  assert (cook_number TField b false (base_prefix b ++ ds)
          = Ret ((TField, base_prefix b ++ ds), [])) as ->.
  { unfold cook_number. pose proof (valid_digits_cook _ _ _ _ 2 Hv) as Hcook.
    pose proof (slice_app (base_prefix b) ds []) as Hs. rewrite app_nil_r in Hs.
    destruct b; [| |done|done]; cbn [base_value] in Hcook |- *;
      (replace 2 with (str_len (base_prefix Binary)) at 1 by done);
      change (str_len (base_prefix Octal)) with (str_len (base_prefix Binary)) in Hs;
      rewrite Hs; cbn [obind]; by rewrite Hcook. }
  cbn [obind]. destruct g as [|c g]; [done|]. rewrite bool_decide_eq_false_2 by done.
  cbn [obind]. done.
Qed.

(** C1. The value of field literals.  The text of a number in any base with
    the suffix [g] or [G], its digits of value [n], is read without an error:
    as [FieldTooLarge] when [n] needs more than 384 bits, and otherwise as a
    field literal that becomes, at every field type and with or without a
    minus sign, a constant of the layout's size whose value is [n] or [- n]
    reduced modulo the prime of the field. *)
Theorem field_literal_value b ds n g t neg pw pf :
  number_digits b ds = true → digits_value (base_value b) 0 (strip_underscores ds) = Some n →
  g = str "g" ∨ g = str "G" → str_len (base_prefix b ++ ds ++ g) < 2 ^ 32 →
  if n <? 2 ^ 384 then
    ∃ s sf, read_literal (base_prefix b ++ ds ++ g) = Ret (Some (inl (LField s)), []) ∧
      lit_to_mir_constant pw pf (LField s) (TyField t) neg = Ret (inl (CField sf)) ∧
      u384_val (ScalarField.data sf) = (if neg then - n else n) mod prime t ∧
      ScalarField.size sf = Field.size (from_field_ty t)
  else read_literal (base_prefix b ++ ds ++ g)
       = Ret (Some (inr (FieldTooLarge (base_value b))), []).
Proof.
  intros Hds Hv Hg Hlen. rewrite (read_field_literal b ds n g) by done.
  rewrite (field_lit_val b ds n g) by done.
  destruct (Z.ltb_spec n (2 ^ 384)); [|done].
  destruct (parse_field_val b ds n t neg) as (sf&Hp&Hval&Hsz); [done..|].
  exists (strip_underscores (base_prefix b ++ ds)), sf. cbn [lit_to_mir_constant]. by rewrite Hp.
Qed.

(** C10. The overflow lint of field literals fires, without a panic, exactly on
    the literals that [parse_field_into_scalar_field] reduces: those whose
    digits are not the value of the constant. *)
Theorem field_lint_iff_reduced b ds n g t s :
  number_digits b ds = true → digits_value (base_value b) 0 (strip_underscores ds) = Some n →
  field_lit (base_prefix b ++ ds) g = inl (LField s) →
  ∃ lint sf, lint_field_literal (LField s) t = Ret lint ∧
    parse_field_into_scalar_field s t false = Ret (Some sf) ∧
    (lint = None ↔ u384_val (ScalarField.data sf) = n) ∧
    (∀ nm base m, lint = Some (nm, base, m) →
       nm = FieldTy.name_str t ∧ base = base_value b ∧ big_val m = prime t).
Proof.
  intros Hds Hv Hf.
  assert (g = str "g" ∨ g = str "G") as Hg.
  { unfold field_lit in Hf. destruct (bool_decide (g = str "G")) eqn:E1;
      [right; by apply bool_decide_eq_true in E1|].
    destruct (bool_decide (g = str "g")) eqn:E2; [left; by apply bool_decide_eq_true in E2|done]. }
  rewrite (field_lit_val b ds n g) in Hf by done.
  destruct (Z.ltb_spec n (2 ^ 384)); [|done]. injection Hf as <-.
  destruct (parse_field_val b ds n t false) as (sf&Hp&Hval&_); [done..|].
  destruct (field_text_val b ds n Hds Hv) as (u&Hu&Hun&Hb).
  destruct (big_parse (FieldTy.modulus_as_hex t) 16 (prime t)) as (m&Hm&Hmp);
    [lia|by destruct t|by destruct t|].
  unfold lint_field_literal. rewrite Hu, Hm. cbn [unwrap obind]. rewrite big_geb_val, Hun, Hmp.
  pose proof (prime_pos t).
  assert (0 ≤ n) as Hn0.
  { rewrite <- Hun. destruct (big_bytes u) as (b'&bs&_&Hbs&<-&_). unfold be_value.
    apply from_le_bytes_range. by apply Forall_rev. }
  destruct (Z.leb_spec (prime t) n); eexists _, sf; (split; [done|]); (split; [done|]); rewrite Hval.
  - split; [|by intros ??? [= <- <- <-]]. split; [done|]. intros E.
    pose proof (Z.mod_pos_bound n (prime t)). lia.
  - split; [|done]. rewrite Z.mod_small by lia. done.
Qed.
End value.

(** ** Integer literals *)

Definition pointer_width_ok (pw : Z) : Prop := pw = 16 ∨ pw = 32 ∨ pw = 64.

(** The width of an integer type on the target *)
Definition width_of (pw : Z) (w : option Z) : Z := default pw w.


Lemma int_norm pw t :
  pointer_width_ok pw →
  ∃ t', IntTy.normalize t pw = Ret t' ∧
    let w := width_of pw (IntTy.bit_width t) in
    snd (int_ty_range t') = 2 ^ (w - 1) - 1 ∧ Size.from_bits w * 8 = w ∧ 8 ≤ w ≤ 128.
Proof.
  intros Hpw. destruct t; [destruct Hpw as [->|[->| ->]]|..];
    (eexists; split; [done|]; split; [done|]; split; [done|]; cbn; lia).
Qed.

Lemma uint_norm pw t :
  pointer_width_ok pw →
  ∃ t', UintTy.normalize t pw = Ret t' ∧
    let w := width_of pw (UintTy.bit_width t) in
    uint_ty_range t' = (0, 2 ^ w - 1) ∧ Size.from_bits w * 8 = w ∧ 8 ≤ w ≤ 128.
Proof.
  intros Hpw. destruct t; [destruct Hpw as [->|[->| ->]]|..];
    (eexists; split; [done|]; split; [done|]; split; [done|]; cbn; lia).
Qed.

Lemma to_signed_mod_iff w x :
  1 ≤ w → to_signed w (x mod 2 ^ w) = x ↔ - 2 ^ (w - 1) ≤ x < 2 ^ (w - 1).
Proof.
  intros Hw. assert (2 ^ w = 2 * 2 ^ (w - 1)) as H2
    by (rewrite <- Z.pow_succ_r by lia; f_equal; lia).
  pose proof (pow2_pos (w - 1) ltac:(lia)).
  pose proof (Z.mod_pos_bound x (2 ^ w) ltac:(lia)). split.
  - intros <-. unfold to_signed. destruct (Z.ltb_spec (x mod 2 ^ w) (2 ^ (w - 1))); lia.
  - intros Hx. apply to_signed_of_signed; lia.
Qed.

Lemma negate_u128_mod n w :
  0 ≤ w ≤ 128 → is_uint 128 n → is_uint 128 (negate_u128 n) ∧ negate_u128 n mod 2 ^ w = (- n) mod 2 ^ w.
Proof.
  intros Hw Hn. unfold negate_u128. split; [by apply wrap_bounds|].
  assert (∃ k, - to_signed 128 n = - n + k * 2 ^ 128) as [k ->].
  { unfold to_signed. destruct (n <? 2 ^ (128 - 1)); [exists 0|exists 1]; lia. }
  unfold of_signed. rewrite wrap_add_mult by lia. unfold wrap.
  apply Z.mod_mod_divide. exists (2 ^ (128 - w)). rewrite <- Z.pow_add_r by lia. f_equal. lia.
Qed.

Lemma if_Ret {A} (b : bool) (x y : A) : (if b then Ret x else Ret y) = Ret (if b then x else y).
Proof. by destruct b. Qed.

Section integers.
Context `{BigUintApi} `{U384Api}.

Lemma trunc_val pw ty s n :
  int_width pw ty = Ret s → small_size s → is_uint 128 n →
  trunc pw ty n = Ret (CScalar (n mod 2 ^ (s * 8)) s).
Proof.
  intros Hw Hs Hn. unfold trunc. rewrite Hw. cbn [obind]. rewrite truncate_mod by done. cbn [obind].
  pose proof Hs as [H1 H2]. pose proof (pow2_pos (s * 8) ltac:(lia)) as HM.
  pose proof (Z.mod_pos_bound n (2 ^ (s * 8)) HM) as Hm.
  assert (2 ^ (s * 8) ≤ 2 ^ 128) by (apply Z.pow_le_mono_r; lia).
  unfold scalar_from_uint. rewrite truncate_mod by (done || split; lia). cbn [obind].
  rewrite Z.mod_mod by lia. rewrite Z.eqb_refl. cbn [rassert].
  unfold Size.bytes. rewrite wrap_small by (split; lia). destruct (Z.eqb_spec s 0); [lia|done].
Qed.

(** Signed integer literals: the constant for [v] or [- v] at a signed type
    is its two's complement at the width of the type (of the target's pointers
    for [isize]), and the overflow lint fires exactly when that constant does
    not have the value written in the source. *)
Theorem int_literal_lint pw pf t v lt neg :
  pointer_width_ok pw → is_uint 128 v →
  ∃ bits size lint,
    lit_to_mir_constant pw pf (LInt v lt) (TyInt t) neg = Ret (inl (CScalar bits size)) ∧
    size * 8 = width_of pw (IntTy.bit_width t) ∧ is_uint (size * 8) bits ∧
    lint_int_literal pw neg t v = Ret lint ∧
    (lint = None ↔ to_signed (size * 8) bits = (if neg then - v else v)).
Proof.
  intros Hpw Hv. destruct (int_norm pw t Hpw) as (t'&Hn&Hmax&Hsz&Hw). cbv zeta in *.
  set (w := width_of pw (IntTy.bit_width t)) in *. set (s := Size.from_bits w) in *.
  assert (small_size s) as Hs by (split; lia).
  pose proof (pow2_pos w ltac:(lia)) as HM.
  set (x := if neg then - v else v).
  exists (x mod 2 ^ (s * 8)), s. eexists.
  assert (trunc pw (TyInt t) (if neg then negate_u128 v else v)
          = Ret (CScalar (x mod 2 ^ (s * 8)) s)) as Ht.
  { destruct (negate_u128_mod v (s * 8) ltac:(lia) Hv) as [Hnu Hnm].
    rewrite (trunc_val _ _ s) by (done || by destruct neg). unfold x. by destruct neg; rewrite ?Hnm. }
  cbn [lit_to_mir_constant]. rewrite Ht. split_and!; [done|lia|..].
  - rewrite Hsz. apply Z.mod_pos_bound. lia.
  - unfold lint_int_literal. rewrite Hn. cbn [obind]. by apply if_Ret.
  - cbn beta. rewrite Hsz, to_signed_mod_iff, Hmax by lia.
    assert (2 ^ (w - 1) ≤ 2 ^ 127) by (apply Z.pow_le_mono_r; lia).
    pose proof (pow2_pos (w - 1) ltac:(lia)). destruct Hv as [Hv0 _].
    unfold wadd. rewrite wrap_small by (split; lia). unfold x.
    destruct neg; cbn [andb negb orb]; rewrite ?orb_false_r.
    + destruct (Z.ltb_spec (2 ^ (w - 1) - 1 + 1) v); split; (done || lia).
    + destruct (Z.ltb_spec (2 ^ (w - 1) - 1) v); split; (done || lia).
Qed.

(** Unsigned integer literals: the constant is the literal modulo the
    width of the type, and the overflow lint fires exactly when they differ. *)
Theorem uint_literal_lint pw pf t v lt :
  pointer_width_ok pw → is_uint 128 v →
  ∃ bits size lint,
    lit_to_mir_constant pw pf (LInt v lt) (TyUint t) false = Ret (inl (CScalar bits size)) ∧
    size * 8 = width_of pw (UintTy.bit_width t) ∧ is_uint (size * 8) bits ∧
    lint_uint_literal pw (LInt v lt) t = Ret lint ∧ (lint = None ↔ bits = v).
Proof.
  intros Hpw Hv. destruct (uint_norm pw t Hpw) as (t'&Hn&Hr&Hsz&Hw). cbv zeta in *.
  set (w := width_of pw (UintTy.bit_width t)) in *. set (s := Size.from_bits w) in *.
  pose proof (pow2_pos w ltac:(lia)) as HM. destruct Hv as [Hv0 Hv].
  exists (v mod 2 ^ (s * 8)), s. eexists. cbn [lit_to_mir_constant].
  rewrite (trunc_val _ _ s) by (done || split; lia). split_and!; [done|lia|..].
  - rewrite Hsz. apply Z.mod_pos_bound. lia.
  - unfold lint_uint_literal. rewrite Hn. cbn [obind]. rewrite Hr. by apply if_Ret.
  - cbn beta. rewrite Hsz. destruct (Z.ltb_spec v 0); [lia|]. cbn [orb].
    destruct (Z.ltb_spec (2 ^ w - 1) v).
    + split; [done|]. intros E. pose proof (Z.mod_pos_bound v (2 ^ w) HM). lia.
    + rewrite Z.mod_small by lia. done.
Qed.
End integers.

(** ** Target memory *)

Lemma take_to_le_bytes n m v : (n <= m)%nat → take n (to_le_bytes m v) = to_le_bytes n v.
Proof.
  revert m v. induction n as [|n IH]; intros [|m] v Hn; cbn; [done..|lia|].
  by rewrite IH by lia.
Qed.

Lemma from_to_le_bytes_small n v :
  is_uint (8 * Z.of_nat n) v → from_le_bytes (to_le_bytes n v) = v.
Proof. intros Hv. by rewrite from_to_le_bytes, Z.mod_small. Qed.

Lemma to_le_bytes_bytes n v : Forall (λ b, is_byte b) (to_le_bytes n v).
Proof. apply Forall_forall. intros b. apply to_le_bytes_byte. Qed.

(** Writing the low bytes of a buffer that is long enough fills the target. *)
Lemma slice_write_le target m v :
  (length target <= m)%nat → slice_write target (to_le_bytes m v) = to_le_bytes (length target) v.
Proof.
  intros Hl. unfold slice_write. rewrite take_to_le_bytes by done.
  rewrite drop_ge, app_nil_r; [done|]. by rewrite length_to_le_bytes.
Qed.

Lemma slice_write_same target src : length target = length src → slice_write target src = src.
Proof. intros E. unfold slice_write. by rewrite E, firstn_all, <- E, drop_all, app_nil_r. Qed.

Lemma slice_read_le source m :
  (length source <= m)%nat →
  slice_read_at (replicate m 0) 0 source = Ret (source ++ replicate (m - length source) 0).
Proof.
  intros Hl. unfold slice_read_at, slice_from.
  destruct (Z.leb_spec 0 (Z.of_nat (length (replicate m 0)))); [|lia].
  cbn [rassert obind Z.to_nat]. rewrite drop_0, take_0. unfold slice_write. cbn [app].
  rewrite take_ge, drop_replicate by (by rewrite length_replicate). done.
Qed.

Lemma payload_start_small n : (n <= 16)%nat → payload_start n = 16 - Z.of_nat n.
Proof. intros. apply wrap_small. split; lia. Qed.

(** Integers in target memory: a value of up to 16 bytes written to a
    buffer of its size, in either byte order, fills the buffer and is read
    back from it. *)
Theorem uint_memory_roundtrip e target data :
  (length target <= 16)%nat → is_uint (8 * Z.of_nat (length target)) data →
  ∃ bs, write_target_uint e target data = Ret bs ∧ length bs = length target ∧
    Forall (λ b, is_byte b) bs ∧ read_target_uint e bs = Ret data.
Proof.
  intros Hl Hd. set (n := length target) in *. destruct e; cbn [write_target_uint].
  - rewrite slice_write_le by done. fold n. eexists. split; [done|].
    rewrite length_to_le_bytes. split; [done|]. split; [apply to_le_bytes_bytes|].
    cbn [read_target_uint]. rewrite slice_read_le by (by rewrite length_to_le_bytes). cbn [obind].
    rewrite from_le_bytes_app, from_le_bytes_zeros, from_to_le_bytes_small by done. f_equal. lia.
  - fold n. rewrite payload_start_small by done. unfold slice_from.
    rewrite length_rev, length_to_le_bytes.
    destruct (Z.leb_spec (16 - Z.of_nat n) (Z.of_nat 16)); [|lia]. cbn [rassert obind].
    rewrite skipn_rev, length_to_le_bytes.
    replace (16 - Z.to_nat (16 - Z.of_nat n))%nat with n by lia.
    rewrite take_to_le_bytes by done.
    rewrite slice_write_same by (by rewrite length_rev, length_to_le_bytes).
    eexists. split; [done|]. rewrite length_rev, length_to_le_bytes. split; [done|].
    split; [apply Forall_rev, to_le_bytes_bytes|].
    cbn [read_target_uint]. rewrite length_rev, length_to_le_bytes, payload_start_small by done.
    unfold slice_read_at, slice_from. rewrite length_replicate.
    destruct (Z.leb_spec (16 - Z.of_nat n) (Z.of_nat 16)); [|lia]. cbn [rassert obind].
    rewrite slice_write_same.
    + rewrite rev_app_distr, rev_involutive, from_le_bytes_app, from_to_le_bytes_small by done.
      rewrite take_replicate, rev_zeros, from_le_bytes_zeros. f_equal. lia.
    + rewrite length_drop, length_replicate, length_rev, length_to_le_bytes. lia.
Qed.

Section memory.
Context `{UL : U384Laws}.

(** Field constants in little-endian memory: a constant whose value fits
    the buffer of its type fills it and is read back from it. *)
Theorem field_memory_little target data :
  (length target <= 48)%nat → is_uint (8 * Z.of_nat (length target)) (u384_val data) →
  ∃ bs, write_target_field Little target data = Ret bs ∧ length bs = length target ∧
    from_le_bytes bs = u384_val data ∧ read_target_field Little bs = Ret data.
Proof.
  intros Hl Hd. cbn [write_target_field]. rewrite u384_to_le_bytes_val, slice_write_le by done.
  eexists. split; [done|]. rewrite length_to_le_bytes, from_to_le_bytes_small by done.
  split; [done|]. split; [done|]. cbn [read_target_field].
  rewrite slice_read_le by (by rewrite length_to_le_bytes). cbn [obind]. f_equal. apply u384_inj.
  rewrite u384_le_bytes_val.
  - rewrite from_le_bytes_app, from_le_bytes_zeros, from_to_le_bytes_small by done. lia.
  - rewrite length_app, length_replicate, length_to_le_bytes. lia.
  - apply Forall_app. split; [apply to_le_bytes_bytes|]. apply Forall_replicate. lia.
Qed.

(** Field constants in big-endian memory: at the size of every field type,
    writing a constant and reading it panic, because the start of the payload
    is computed for a 16-byte value. *)
Theorem field_memory_big_panics t target data :
  Z.of_nat (length target) = Field.size (from_field_ty t) →
  write_target_field Big target data = Panic ∧ read_target_field Big target = Panic.
Proof.
  intros Hl.
  assert (Z.of_nat (length target) = 48 ∨ Z.of_nat (length target) = 32) as Hn
    by (rewrite Hl; destruct t; auto).
  assert (payload_start (length target) = 2 ^ 64 + 16 - Z.of_nat (length target)) as Hp.
  { unfold payload_start, wsub, wrap. destruct Hn as [-> | ->]; reflexivity. }
  destruct (u384_to_be_bytes_val data) as (Hlen&_).
  cbn [write_target_field read_target_field]. unfold slice_read_at, slice_from. rewrite Hp, Hlen.
  rewrite length_replicate.
  destruct (Z.leb_spec (2 ^ 64 + 16 - Z.of_nat (length target)) (Z.of_nat 48)); [lia|done].
Qed.

(** Metadata: what [encode] of a [ScalarField] hands to any encoder that
    keeps the [Encoder] laws is decoded by [MemDecoder] as the same constant,
    consuming exactly those bytes. *)
Theorem scalar_field_codec {S} `{EncoderLaws S} (sf : ScalarField.t) :
  0 < ScalarField.size_ sf < 2 ^ 16 →
  ∃ bs, appends emitted (ScalarField.encode sf) bs ∧
    ∀ d, at_bytes d bs → ScalarField.decode d = Ret (sf, skip (length bs) d).
Proof.
  intros Hs. destruct sf as [x n]. cbn in Hs. destruct (u384_to_be_bytes_val x) as (Hlen&Hb&Hv).
  exists (u384_to_be_bytes x ++ to_le_bytes 2 n). split.
  - intros s pre Hp. unfold ScalarField.encode. cbn [ScalarField.data ScalarField.size_].
    destruct (emit_raw_bytes_appends (u384_to_be_bytes x) s pre Hp) as (s1&->&Hp1). cbn [obind].
    destruct (emit_u16_appends n s1 _ Hp1) as (s2&->&Hp2). exists s2. by rewrite app_assoc.
  - intros d [Hd1 Hd2]%at_bytes_app. unfold ScalarField.decode.
    rewrite <- Hlen, read_raw_bytes_at by done. cbn [obind].
    rewrite (read_u16_at _ n) by (done || split; lia). cbn [obind].
    destruct (Z.eqb_spec n 0); [lia|]. cbn [negb rassert].
    rewrite skip_skip, length_app, length_to_le_bytes. do 3 f_equal.
    apply u384_inj. rewrite u384_be_bytes_val by done. done.
Qed.
End memory.

(** ** The curve constants *)

(** The equations of the curves: short Weierstrass with [a = 0] for BLS12-381,
    Pallas and Vesta, twisted Edwards with [d = -121665/121666] (multiplied
    out) for Curve25519 *)
Definition on_curve (c : CurveTy.t) (x y : Z) : bool :=
  let p := prime (base_field c) in
  match c with
  | CurveTy.Bls12381 => (y * y - (x * x * x + 4)) mod p =? 0
  | CurveTy.Curve25519 => (121666 * (y * y - x * x - 1) + 121665 * (x * x * (y * y))) mod p =? 0
  | CurveTy.Pallas | CurveTy.Vesta => (y * y - (x * x * x + 5)) mod p =? 0
  end.

(** The digits of a hexadecimal field literal *)
Definition hex_body (txt : list Z) : list Z := take (length txt - 3) (drop 2 txt).
Definition hex_value (txt : list Z) : Z := default 0 (digits_value 16 0 (hex_body txt)).

Section curves.
Context `{BL : BigUintLaws} `{UL : U384Laws} `{UT : UnicodeTables} `{!UnicodeAscii}.

(** The constant that the compiler makes of a literal of field type [t] *)
Definition is_constant (txt : list Z) (t : FieldTy.t) (v : Z) : Prop :=
  ∃ s sf, read_literal txt = Ret (Some (inl (LField s)), []) ∧
    lint_field_literal (LField s) t = Ret None ∧
    parse_field_into_scalar_field s t false = Ret (Some sf) ∧ u384_val (ScalarField.data sf) = v.

(** A hexadecimal literal without separators, below the prime *)
Definition is_hex_literal (txt : list Z) (t : FieldTy.t) : bool :=
  bool_decide (base_prefix Hexadecimal ++ hex_body txt ++ str "g" = txt)
  && number_digits Hexadecimal (hex_body txt)
  && bool_decide (strip_underscores (hex_body txt) = hex_body txt)
  && bool_decide (digits_value 16 0 (hex_body txt) = Some (hex_value txt))
  && (0 <=? hex_value txt) && (hex_value txt <? prime t) && (str_len txt <? 2 ^ 32).

Lemma hex_constant txt t : is_hex_literal txt t = true → is_constant txt t (hex_value txt).
Proof.
  unfold is_hex_literal. rewrite !andb_true_iff, !bool_decide_eq_true.
  intros ((((((Ht&Hd)&Hu)&Hv)&Hr0)&Hr1)&Hl). rewrite <- Hu in Hv at 1.
  assert (0 ≤ hex_value txt < prime t) as Hr by lia. assert (str_len txt < 2 ^ 32) as Hl' by lia.
  assert (hex_value txt < 2 ^ 384) as H384
    by (assert (prime t < 2 ^ 384) by (by destruct t); lia).
  destruct (parse_field_val Hexadecimal (hex_body txt) (hex_value txt) t false)
    as (sf&Hp&Hval&_); [done..|].
  destruct (field_text_val Hexadecimal (hex_body txt) (hex_value txt) Hd Hv) as (u&Hbig&Hun&Hb).
  destruct (big_parse (FieldTy.modulus_as_hex t) 16 (prime t)) as (m&Hm&Hmp);
    [lia|by destruct t|by destruct t|].
  eexists _, sf. split_and!; [| |exact Hp|by rewrite Hval, Z.mod_small].
  - rewrite <- Ht at 1. rewrite (read_field_literal _ _ (hex_value txt)); [|done|done|by left|by rewrite Ht].
    rewrite (field_lit_val _ _ (hex_value txt)) by (done || by left).
    destruct (Z.ltb_spec (hex_value txt) (2 ^ 384)); [done|lia].
  - unfold lint_field_literal. rewrite Hbig, Hm. cbn [unwrap obind].
    rewrite big_geb_val, Hun, Hmp. destruct (Z.leb_spec (prime t) (hex_value txt)); [lia|done].
Qed.

(** The curve constants of the core library: the compiler reads the
    coordinates of [one] and [zero] as constants of the base field without a
    lint, and the coordinates of [one] satisfy the equation of the curve. *)
Theorem curve_constants c :
  ∃ x y x0 y0, is_constant (fst (curve_one c)) (base_field c) x ∧
    is_constant (snd (curve_one c)) (base_field c) y ∧ on_curve c x y = true ∧
    is_constant (fst (curve_zero c)) (base_field c) x0 ∧
    is_constant (snd (curve_zero c)) (base_field c) y0 ∧ x0 = 0 ∧ y0 = 1.
Proof.
  exists (hex_value (fst (curve_one c))), (hex_value (snd (curve_one c))),
    (hex_value (fst (curve_zero c))), (hex_value (snd (curve_zero c))).
  split_and!; try (apply hex_constant); destruct c; vm_compute; reflexivity.
Qed.
End curves.

(** ** The crates have models *)

Lemma digits_value_nonneg radix acc s n :
  0 ≤ radix → 0 ≤ acc → digits_value radix acc s = Some n → 0 ≤ n.
Proof.
  intros Hr. revert acc. induction s as [|c s IH]; intros acc Ha; cbn; [by intros [= <-]|].
  destruct (to_digit c radix) as [d|] eqn:Hd; [|done]. intros E. eapply IH; [|exact E].
  assert (0 ≤ d); [|nia]. unfold to_digit, is_ascii_digit, is_ascii_lower, is_ascii_upper in Hd.
  repeat case_match; simplify_eq; lia.
Qed.

Lemma be_bytes_spec fuel n acc :
  0 ≤ n < 256 ^ Z.of_nat fuel → (0 < fuel)%nat →
  ∃ b bs, be_bytes fuel n acc = b :: bs ++ acc ∧ Forall (λ b, is_byte b) (b :: bs) ∧
    be_value (b :: bs) = n ∧ (b = 0 → bs = []).
Proof.
  revert n acc. induction fuel as [|fuel IH]; intros n acc Hn Hf; [lia|]. cbn [be_bytes].
  destruct (Z.ltb_spec n 256).
  - exists n, []. rewrite Z.mod_small by lia. split_and!; [done|apply Forall_singleton; lia|cbn; lia|done].
  - assert (256 ^ Z.of_nat (S fuel) = 256 * 256 ^ Z.of_nat fuel) as Hp
      by (rewrite Nat2Z.inj_succ, Z.pow_succ_r by lia; done).
    destruct (decide (fuel = O)) as [->|]; [cbn in Hn; lia|].
    destruct (IH (n / 256) (n mod 256 :: acc)) as (b&bs&->&Hb&Hv&Hz); [lia|lia|].
    exists b, (bs ++ [n mod 256]). split_and!.
    + by rewrite <- app_assoc.
    + change (b :: bs ++ [n mod 256]) with ((b :: bs) ++ [n mod 256]). apply Forall_app.
      split; [done|]. apply Forall_singleton. lia.
    + change (b :: bs ++ [n mod 256]) with ((b :: bs) ++ [n mod 256]). unfold be_value in *.
      rewrite rev_app_distr. cbn [rev app from_le_bytes] in Hv |- *. rewrite Hv. lia.
    + intros ->. specialize (Hz eq_refl). subst bs. unfold be_value in Hv. cbn in Hv. lia.
Qed.

#[local, refine] Instance n_big_uint_laws : @BigUintLaws n_big_uint := {| big_val := Z.of_N : @BigUint n_big_uint → Z |}.
Proof.
  - intros s radix n Hr Hs Hv. exists (Z.to_N n). cbn. rewrite bool_decide_eq_false_2, Hv by done.
    split; [done|]. apply Z2N.id. eapply digits_value_nonneg; [|done|exact Hv]. lia.
  - intros s radix Hr _ _ Hv. cbn. rewrite Hv. by case_bool_decide.
  - intros u. cbn -[be_bytes].
    destruct (be_bytes_spec (S (Z.to_nat (Z.log2 (Z.of_N u)))) (Z.of_N u) []) as (b&bs&->&?); [|lia|].
    { split; [lia|]. rewrite Nat2Z.inj_succ, Z2Nat.id by apply Z.log2_nonneg.
      destruct (decide (u = 0%N)) as [->|]; [done|].
      destruct (Z.log2_spec (Z.of_N u)) as [_ Hlt]; [lia|]. eapply Z.lt_le_trans; [exact Hlt|].
      apply Z.pow_le_mono_l. pose proof (Z.log2_nonneg (Z.of_N u)). lia. }
    exists b, bs. by rewrite app_nil_r.
  - intros a b. cbn. destruct (N.leb_spec b a), (Z.leb_spec (Z.of_N b) (Z.of_N a)); try done; lia.
Defined.

Definition u384 : Type := {z : Z | (0 <=? z) && (z <? 2 ^ 384) = true}.
Lemma to_u384_ok z : (0 <=? z mod 2 ^ 384) && (z mod 2 ^ 384 <? 2 ^ 384) = true.
Proof. pose proof (Z.mod_pos_bound z (2 ^ 384) ltac:(done)). lia. Qed.
Definition to_u384 (z : Z) : u384 := exist _ (z mod 2 ^ 384) (to_u384_ok z).

Definition z_u384 : U384Api := {|
  U384 := u384;
  u384_from_be_bytes bs := to_u384 (be_value bs);
  u384_to_be_bytes x := rev (to_le_bytes 48 (proj1_sig x));
  u384_from_le_bytes bs := to_u384 (from_le_bytes bs);
  u384_to_le_bytes x := to_le_bytes 48 (proj1_sig x);
  u384_from_be_hex s := to_u384 (default 0 (digits_value 16 0 s));
  u384_from_u128 n := to_u384 n;
  u384_leb x y := proj1_sig x <=? proj1_sig y;
  u384_wrapping_rem x y := to_u384 (proj1_sig x mod proj1_sig y);
  u384_saturating_sub x y := to_u384 (Z.max 0 (proj1_sig x - proj1_sig y));
  u384_as_words x := (λ i, Z.shiftr (proj1_sig x) (64 * i) mod 2 ^ 64) <$> [0; 1; 2; 3; 4; 5];
|}.

Lemma u384_bounds (x : u384) : is_uint 384 (proj1_sig x).
Proof. destruct x as [z Hz]. cbn. split; lia. Qed.

Lemma to_u384_val z : is_uint 384 z → proj1_sig (to_u384 z) = z.
Proof. intros Hz. cbn [to_u384 proj1_sig]. by apply Z.mod_small. Qed.

(** 96 hexadecimal digits are 384 bits. *)
Lemma digits_value_hex s acc n :
  0 ≤ acc → digits_value 16 acc s = Some n → n < (acc + 1) * 16 ^ Z.of_nat (length s).
Proof.
  revert acc. induction s as [|c s IH]; intros acc Ha; cbn [digits_value length]; [intros [= <-]; lia|].
  destruct (to_digit c 16) as [d|] eqn:Hd; [|done]. intros E.
  assert (0 ≤ d < 16) as Hd'.
  { unfold to_digit, is_ascii_digit, is_ascii_lower, is_ascii_upper in Hd.
    repeat case_match; simplify_eq; lia. }
  apply IH in E; [|lia]. rewrite Nat2Z.inj_succ, Z.pow_succ_r by lia.
  pose proof (Z.pow_pos_nonneg 16 (Z.of_nat (length s))). nia.
Qed.

Lemma le_bytes_48 bs :
  length bs = 48%nat → Forall (λ b, is_byte b) bs → is_uint 384 (from_le_bytes bs).
Proof. intros Hl Hb. apply from_le_bytes_range in Hb. rewrite Hl in Hb. exact Hb. Qed.

#[local, refine] Instance z_u384_laws : @U384Laws z_u384 := {| u384_val := @proj1_sig Z _ : @U384 z_u384 → Z |}.
Proof.
  - apply u384_bounds.
  - intros [x Hx] [y Hy]. cbn. intros ->. f_equal. apply proof_irrel.
  - intros bs Hl Hb. apply to_u384_val. apply le_bytes_48; [by rewrite length_rev|by apply Forall_rev].
  - intros x. cbn [u384_to_be_bytes z_u384]. rewrite length_rev, length_to_le_bytes. split; [done|].
    split; [apply Forall_rev, to_le_bytes_bytes|]. unfold be_value. rewrite rev_involutive.
    apply from_to_le_bytes_small, u384_bounds.
  - intros bs Hl Hb. apply to_u384_val. by apply le_bytes_48.
  - done.
  - intros s n Hl Hv. cbn -[to_u384]. rewrite Hv. apply to_u384_val. split.
    + by eapply digits_value_nonneg; [..|exact Hv].
    + apply digits_value_hex in Hv; [|lia]. rewrite Hl in Hv. exact Hv.
  - intros n [? ?]. apply to_u384_val. split; [lia|].
    assert (2 ^ 128 < 2 ^ 384) by done. lia.
  - done.
  - intros x y Hy. apply to_u384_val. pose proof (u384_bounds x) as [? ?].
    pose proof (u384_bounds y) as [? ?]. cbn in Hy. split; [apply Z.mod_pos_bound; lia|].
    pose proof (Z.mod_pos_bound (proj1_sig x) (proj1_sig y)). lia.
  - intros x y. apply to_u384_val. pose proof (u384_bounds x) as [? ?].
    pose proof (u384_bounds y) as [? ?]. split; lia.
Defined.

(** ** The properties at concrete inputs *)

(** No float is parsed in these examples. *)
Definition no_float : Symbol → FloatTy → bool → outcome (option (@ConstValue z_u384)) :=
  λ _ _ _, Ret None.

Lemma field_tables_agree_witness :
  digits_value 16 0 (FieldTy.modulus_as_hex FieldTy.PallasBase)
  = Some (@u384_val _ z_u384_laws (ScalarField.data (@field_modulus z_u384 FieldTy.PallasBase))).
Proof. apply (@field_tables_agree z_u384 z_u384_laws FieldTy.PallasBase). Defined.

Lemma field_literal_value_witness :
  ∃ s sf,
    @read_literal ascii_tables n_big_uint (str "0x2_0g") = Ret (Some (inl (LField s)), []) ∧
    @lit_to_mir_constant n_big_uint z_u384 64 no_float (LField s) (TyField FieldTy.PallasBase) true
    = Ret (inl (CField sf)) ∧
    @u384_val _ z_u384_laws (ScalarField.data sf) = (- 32) mod prime FieldTy.PallasBase ∧
    ScalarField.size sf = 32.
Proof.
  apply (@field_literal_value n_big_uint n_big_uint_laws z_u384 z_u384_laws
           ascii_tables ascii_tables_ok Hexadecimal (str "2_0") 32 (str "g") FieldTy.PallasBase true
           64 no_float); [reflexivity|reflexivity|by left|reflexivity].
Defined.

Lemma field_lint_iff_reduced_witness :
  ∃ lint sf,
    @lint_field_literal n_big_uint (LField (str "17")) FieldTy.Bls12381Scalar = Ret lint ∧
    @parse_field_into_scalar_field n_big_uint z_u384 (str "17") FieldTy.Bls12381Scalar false
    = Ret (Some sf) ∧
    (lint = None ↔ @u384_val _ z_u384_laws (ScalarField.data sf) = 17) ∧
    (∀ nm base m, lint = Some (nm, base, m) →
       nm = FieldTy.name_str FieldTy.Bls12381Scalar ∧ base = 10 ∧
       @big_val _ n_big_uint_laws m = prime FieldTy.Bls12381Scalar).
Proof.
  apply (@field_lint_iff_reduced n_big_uint n_big_uint_laws z_u384 z_u384_laws
           Decimal (str "1_7") 17 (str "g")); reflexivity.
Defined.

Lemma int_literal_lint_witness :
  ∃ bits size lint,
    @lit_to_mir_constant n_big_uint z_u384 32 no_float (LInt 200 Unsuffixed) (TyInt Si8) true
    = Ret (inl (CScalar bits size)) ∧
    size * 8 = 8 ∧ is_uint (size * 8) bits ∧ lint_int_literal 32 true Si8 200 = Ret lint ∧
    (lint = None ↔ to_signed (size * 8) bits = - 200).
Proof.
  apply (@int_literal_lint n_big_uint z_u384 32 no_float Si8 200 Unsuffixed true);
    [right; by left|by split].
Defined.

Lemma uint_literal_lint_witness :
  ∃ bits size lint,
    @lit_to_mir_constant n_big_uint z_u384 16 no_float (LInt 70000 Unsuffixed) (TyUint Usize) false
    = Ret (inl (CScalar bits size)) ∧
    size * 8 = 16 ∧ is_uint (size * 8) bits ∧
    lint_uint_literal 16 (LInt 70000 Unsuffixed) Usize = Ret lint ∧ (lint = None ↔ bits = 70000).
Proof.
  apply (@uint_literal_lint n_big_uint z_u384 16 no_float Usize 70000 Unsuffixed);
    [by left|by split].
Defined.

Lemma uint_memory_roundtrip_witness :
  ∃ bs, write_target_uint Big [0; 0; 0; 0] 0x01020304 = Ret bs ∧ length bs = 4%nat ∧
    Forall (λ b, is_byte b) bs ∧ read_target_uint Big bs = Ret 0x01020304.
Proof. apply (uint_memory_roundtrip Big [0; 0; 0; 0]); [cbn; lia|by split]. Defined.

Lemma field_memory_little_witness :
  ∃ bs, @write_target_field z_u384 Little (replicate 32 0) (to_u384 77) = Ret bs ∧
    length bs = 32%nat ∧ from_le_bytes bs = 77 ∧
    @read_target_field z_u384 Little bs = Ret (to_u384 77).
Proof.
  apply (@field_memory_little z_u384 z_u384_laws (replicate 32 0) (to_u384 77)); [cbn; lia|by split].
Defined.

Lemma field_memory_big_panics_witness :
  @write_target_field z_u384 Big (replicate 32 0) (to_u384 77) = Panic ∧
  @read_target_field z_u384 Big (replicate 32 0) = Panic.
Proof. by apply (@field_memory_big_panics z_u384 z_u384_laws FieldTy.PallasBase). Defined.

Lemma scalar_field_codec_witness :
  ∃ bs, appends emitted (ScalarField.encode (S := FileEncoder.t) (ScalarField.mk (to_u384 5 : @U384 z_u384) 32)) bs ∧
    ∀ d, at_bytes d bs →
      @ScalarField.decode z_u384 d = Ret (ScalarField.mk (to_u384 5 : @U384 z_u384) 32, skip (length bs) d).
Proof. by apply (@scalar_field_codec z_u384 z_u384_laws FileEncoder.t). Defined.

Lemma curve_constants_witness :
  ∃ x y x0 y0,
    @is_constant n_big_uint z_u384 z_u384_laws ascii_tables
      (fst (curve_one CurveTy.Pallas)) FieldTy.PallasBase x ∧
    @is_constant n_big_uint z_u384 z_u384_laws ascii_tables
      (snd (curve_one CurveTy.Pallas)) FieldTy.PallasBase y ∧
    on_curve CurveTy.Pallas x y = true ∧
    @is_constant n_big_uint z_u384 z_u384_laws ascii_tables
      (fst (curve_zero CurveTy.Pallas)) FieldTy.PallasBase x0 ∧
    @is_constant n_big_uint z_u384 z_u384_laws ascii_tables
      (snd (curve_zero CurveTy.Pallas)) FieldTy.PallasBase y0 ∧ x0 = 0 ∧ y0 = 1.
Proof.
  apply (@curve_constants n_big_uint n_big_uint_laws z_u384 z_u384_laws ascii_tables ascii_tables_ok).
Defined.
