(* ===== verification/Slice.v ===== *)
(** * Slices and vectors

    The parts of [library/core/src/slice/mod.rs] and [compiler/rustc_index/src]
    that the index sets and sorted maps rest on: the binary search
    ([binary_search_by], [partition_point]) as it is written, with its
    invariants, the bounds of ranges, typed indices ([idx.rs]) and the vectors
    they index ([vec.rs], [slice.rs]).  Positions in a vector are [nat]. *)

From stdpp Require Import sorting.
From S2P Require Import Prelude.

(** [Result] *)
Inductive result (T E : Type) : Type :=
| Ok (t : T)
| Err (e : E).
Arguments Ok {T E} t.
Arguments Err {T E} e.

#[global] Instance result_eq_dec `{EqDecision T, EqDecision E} : EqDecision (result T E).
Proof. solve_decision. Defined.

(** [core::ops::Bound], and the two bounds of a [RangeBounds] *)
Inductive Bound (T : Type) : Type :=
| Included (t : T)
| Excluded (t : T)
| Unbounded.
Arguments Included {T} t.
Arguments Excluded {T} t.
Arguments Unbounded {T}.

Record RangeBounds (T : Type) : Type := { start_bound : Bound T; end_bound : Bound T }.
Arguments start_bound {T} _.
Arguments end_bound {T} _.
Arguments Build_RangeBounds {T} _ _.

(** [a..b] and [a..=b] *)
Definition range {T} (a b : T) : RangeBounds T :=
  {| start_bound := Included a; end_bound := Excluded b |}.
Definition range_inclusive {T} (a b : T) : RangeBounds T :=
  {| start_bound := Included a; end_bound := Included b |}.

(** [binary_search_by]: the body of the [while] loop.  [get_unchecked] out of
    bounds is undefined behaviour, a [Panic] here; the fuel bounds the rounds. *)
Fixpoint binary_search_loop {T} (fuel : nat) (f : T → comparison) (s : list T)
    (size left right : nat) : outcome (result nat nat) :=
  if (left <? right)%nat then
    match fuel with
    | O => Panic
    | S fuel =>
        let mid := (left + size / 2)%nat in
        let! x := unwrap (s !! mid) in
        match f x with
        | Lt => binary_search_loop fuel f s (right - (mid + 1)) (mid + 1) right
        | Gt => binary_search_loop fuel f s (mid - left) left mid
        | Eq => Ret (Ok mid)
        end
    end
  else Ret (Err left).

Definition binary_search_by {T} (s : list T) (f : T → comparison) : outcome (result nat nat) :=
  binary_search_loop (length s) f s (length s) 0 (length s).

Definition partition_point {T} (s : list T) (pred : T → bool) : outcome nat :=
  let! r := binary_search_by s (λ x, if pred x then Lt else Gt) in
  match r with Ok i => Ret i | Err i => Ret i end.

(** [v[i]] *)
Definition index {T} (v : list T) (i : nat) : outcome T := unwrap (v !! i).

(** [v[i] = x] *)
Definition index_set {T} (v : list T) (i : nat) (x : T) : outcome (list T) :=
  rassert (i <? length v)%nat (Ret (<[i := x]> v)).

(** [Vec::insert], [Vec::remove], [Vec::drain(a..b)] (the vector that is left)
    and [Vec::splice(a..b, xs)] *)
Definition vec_insert {T} (v : list T) (i : nat) (x : T) : outcome (list T) :=
  rassert (i <=? length v)%nat (Ret (take i v ++ x :: drop i v)).
Definition vec_remove {T} (v : list T) (i : nat) : outcome (list T * T) :=
  let! x := index v i in Ret (take i v ++ drop (S i) v, x).
Definition vec_splice {T} (v : list T) (a b : nat) (xs : list T) : outcome (list T) :=
  rassert ((a <=? b)%nat && (b <=? length v)%nat) (Ret (take a v ++ xs ++ drop b v)).
Definition vec_drain {T} (v : list T) (a b : nat) : outcome (list T) := vec_splice v a b [].
(** [&v[a..b]] *)
Definition subslice {T} (v : list T) (a b : nat) : outcome (list T) :=
  rassert ((a <=? b)%nat && (b <=? length v)%nat) (Ret (drop a (take b v))).

(** [Idx]: an index type holds the integers up to its maximum, which is
    [u64::MAX] for [usize], [u32::MAX] for [u32] and 0xFFFF_FF00 by default for
    the types of [newtype_index!]. *)
Class Idx : Type := { idx_max : Z }.
Definition idx_new `{Idx} (i : Z) : outcome Z := rassert (i <=? idx_max) (Ret i).

Definition idx_usize : Idx := {| idx_max := umax 64 |}.
Definition idx_u32 : Idx := {| idx_max := umax 32 |}.
Definition idx_newtype : Idx := {| idx_max := 0xFFFFFF00 |}.

(** [IndexVec::ensure_contains_elem]: the vector and the element at [elem] *)
Definition ensure_contains_elem {T} (v : list T) (elem : nat) (fill : T) : outcome (list T * T) :=
  let min_new_len := (elem + 1)%nat in
  let v := if (length v <? min_new_len)%nat
           then v ++ replicate (min_new_len - length v) fill else v in
  let! x := index v elem in Ret (v, x).

(** [IndexSlice::pick2_mut]: the two elements *)
Definition pick2_mut {T} (v : list T) (a b : nat) : outcome (T * T) :=
  rassert (negb (a =? b)%nat)
    (let pick_ord a b :=
       rassert (b <=? length v)%nat
         (let! x := index (take b v) a in let! y := index (drop b v) 0 in Ret (x, y)) in
     if (a <? b)%nat then pick_ord a b
     else let! (c2, c1) := pick_ord b a in Ret (c1, c2)).

(** * Binary search *)

(** The loop ends within [fuel] rounds when the size is below [2 ^ fuel], stays
    in bounds, and its result splits the slice for the part that was seen. *)
Lemma binary_search_loop_ret {T} (f : T → comparison) s fuel : ∀ size left right,
  (size = right - left)%nat → (left ≤ right ≤ length s)%nat → (size < 2 ^ fuel)%nat →
  ∃ r, binary_search_loop fuel f s size left right = Ret r ∧
    match r with
    | Ok i => (left ≤ i < right)%nat ∧ ∃ x, s !! i = Some x ∧ f x = Eq
    | Err i => (left ≤ i ≤ right)%nat ∧
        (i = left ∨ ∃ x, s !! (i - 1)%nat = Some x ∧ f x = Lt ∧ (left < i)%nat) ∧
        (i = right ∨ ∃ x, s !! i = Some x ∧ f x = Gt)
    end.
Proof.
  induction fuel as [|fuel IH]; intros size left right Hs Hlr Hf; cbn [binary_search_loop].
  - destruct (Nat.ltb_spec left right); [cbn in Hf; lia|].
    eexists; split; [done|]. cbn. lia.
  - destruct (Nat.ltb_spec left right) as [Hl|]; [|eexists; split; [done|]; cbn; lia].
    assert (size / 2 < size)%nat as Hd by (apply Nat.div_lt; lia).
    pose proof (Nat.div_mod_eq size 2) as Hm.
    pose proof (Nat.mod_upper_bound size 2 ltac:(lia)) as Hu.
    rewrite Nat.pow_succ_r' in Hf.
    destruct (lookup_lt_is_Some_2 s (left + size / 2)) as [x Hx]; [lia|].
    rewrite Hx. cbn [unwrap obind]. destruct (f x) eqn:Hfx.
    + exists (Ok (left + size / 2)%nat). split; [done|]. split; [lia|eauto].
    + destruct (IH (right - (left + size / 2 + 1)) (left + size / 2 + 1) right)%nat
        as (r & -> & Hr); [done|lia|lia|].
      exists r. split; [done|]. destruct r as [i|i].
      * destruct Hr as [? ?]. split; [lia|done].
      * destruct Hr as (? & [->|(y & ? & ? & ?)] & ?); (split; [lia|split; [|done]]).
        -- right. exists x. split_and!; [|done|lia].
           by replace (left + size / 2 + 1 - 1)%nat with (left + size / 2)%nat by lia.
        -- right. exists y. split_and!; [done|done|lia].
    + destruct (IH (left + size / 2 - left) left (left + size / 2))%nat
        as (r & -> & Hr); [done|lia|lia|].
      exists r. split; [done|]. destruct r as [i|i].
      * destruct Hr as [? ?]. split; [lia|done].
      * destruct Hr as (? & ? & [->|?]); (split; [lia|split; [done|]]); eauto.
Qed.

(** [f] orders the slice: everything below [Less], then [Equal], then [Greater]. *)
Definition ordered_by {T} (f : T → comparison) (s : list T) : Prop :=
  ∀ i j x y, (i ≤ j)%nat → s !! i = Some x → s !! j = Some y →
    (f y = Lt → f x = Lt) ∧ (f x = Gt → f y = Gt).

Lemma pow2_gt_nat n : (n < 2 ^ n)%nat.
Proof. apply Nat.pow_gt_lin_r. lia. Qed.

Lemma binary_search_by_ret {T} (s : list T) (f : T → comparison) :
  ∃ r, binary_search_by s f = Ret r ∧
    match r with
    | Ok i => ∃ x, s !! i = Some x ∧ f x = Eq
    | Err i => (i ≤ length s)%nat ∧
        (i = 0%nat ∨ ∃ x, s !! (i - 1)%nat = Some x ∧ f x = Lt ∧ (0 < i)%nat) ∧
        (i = length s ∨ ∃ x, s !! i = Some x ∧ f x = Gt)
    end.
Proof.
  destruct (binary_search_loop_ret f s (length s) (length s) 0 (length s)) as (r & Hr & H);
    [lia|lia|apply pow2_gt_nat|].
  exists r. split; [done|]. destruct r as [i|i].
  - by destruct H as [_ H].
  - destruct H as (? & ? & ?). done || (split; [lia|done]).
Qed.

(** On an ordered slice the result is the element looked for or the position
    that splits the slice. *)
Lemma binary_search_by_ordered {T} (s : list T) (f : T → comparison) :
  ordered_by f s →
  ∃ r, binary_search_by s f = Ret r ∧
    match r with
    | Ok i => ∃ x, s !! i = Some x ∧ f x = Eq
    | Err i => (i ≤ length s)%nat ∧
        Forall (λ x, f x = Lt) (take i s) ∧ Forall (λ x, f x = Gt) (drop i s)
    end.
Proof.
  intros Ho. destruct (binary_search_by_ret s f) as (r & Hr & H). exists r. split; [done|].
  destruct r as [i|i]; [done|]. destruct H as (Hi & Hl & Hg). split_and!; [done| |];
    apply Forall_lookup; intros j y Hy.
  - destruct Hl as [->|(x & Hx & Hfx & ?)]; [by rewrite take_0 in Hy|].
    apply lookup_take_Some in Hy as [Hy ?]. by apply (Ho j (i - 1)%nat y x); [lia|..].
  - rewrite lookup_drop in Hy. destruct Hg as [->|(x & Hx & Hfx)].
    + apply lookup_lt_Some in Hy. lia.
    + by apply (Ho i (i + j)%nat x y); [lia|..].
Qed.

(** [partition_point] on a partitioned slice *)
Lemma partition_point_app {T} (p : T → bool) (l1 l2 : list T) :
  Forall (λ x, p x = true) l1 → Forall (λ x, p x = false) l2 →
  partition_point (l1 ++ l2) p = Ret (length l1).
Proof.
  intros H1 H2. unfold partition_point. set (f := λ x, if p x then Lt else Gt).
  rewrite Forall_lookup in H1, H2.
  destruct (binary_search_by_ret (l1 ++ l2) f) as (r & -> & H). cbn [obind].
  unfold f in H. destruct r as [i|i].
  { destruct H as (x & _ & Hx). by destruct (p x). }
  destruct H as (Hi & Hl & Hg). f_equal.
  destruct (decide (i < length l1)%nat) as [Hlt|Hge].
  - destruct Hg as [->|(x & Hx & Hp)]; [rewrite length_app in Hlt; lia|].
    rewrite lookup_app_l in Hx by done. by rewrite (H1 _ _ Hx) in Hp.
  - destruct (decide (i = length l1)) as [|Hne]; [done|].
    destruct Hl as [->|(x & Hx & Hp & _)]; [lia|].
    rewrite lookup_app_r in Hx by lia. by rewrite (H2 _ _ Hx) in Hp.
Qed.

Lemma partition_point_ret {T} (p : T → bool) (s : list T) :
  ∃ i, partition_point s p = Ret i ∧ (i ≤ length s)%nat.
Proof.
  unfold partition_point.
  destruct (binary_search_by_ret s (λ x, if p x then Lt else Gt)) as (r & -> & H).
  destruct r as [i|i]; cbn.
  - destruct H as (x & Hx & _). apply lookup_lt_Some in Hx. eauto with lia.
  - destruct H. eauto.
Qed.

(** * Vectors *)

Lemma vec_insert_app {T} (l1 l2 : list T) x :
  vec_insert (l1 ++ l2) (length l1) x = Ret (l1 ++ x :: l2).
Proof.
  unfold vec_insert. rewrite (proj2 (Nat.leb_le _ _)) by (rewrite length_app; lia). cbn.
  by rewrite take_app_length, drop_app_length.
Qed.

Lemma index_app {T} (l1 l2 : list T) x : index (l1 ++ x :: l2) (length l1) = Ret x.
Proof. unfold index. by rewrite list_lookup_middle. Qed.

Lemma index_set_app {T} (l1 l2 : list T) x y :
  index_set (l1 ++ x :: l2) (length l1) y = Ret (l1 ++ y :: l2).
Proof.
  unfold index_set. rewrite (proj2 (Nat.ltb_lt _ _)) by (rewrite length_app; cbn; lia). cbn.
  by rewrite insert_app_r_alt, Nat.sub_diag by lia.
Qed.

Lemma vec_splice_app {T} (l1 l2 l3 xs : list T) :
  vec_splice (l1 ++ l2 ++ l3) (length l1) (length l1 + length l2) xs = Ret (l1 ++ xs ++ l3).
Proof.
  unfold vec_splice.
  rewrite !(proj2 (Nat.leb_le _ _)) by (rewrite ?length_app; lia). cbn.
  rewrite take_app_length. rewrite (assoc_L (++) l1 l2 l3), <- length_app.
  by rewrite drop_app_length.
Qed.

Lemma subslice_app {T} (l1 l2 l3 : list T) :
  subslice (l1 ++ l2 ++ l3) (length l1) (length l1 + length l2) = Ret l2.
Proof.
  unfold subslice.
  rewrite !(proj2 (Nat.leb_le _ _)) by (rewrite ?length_app; lia). cbn.
  rewrite (assoc_L (++) l1 l2 l3), <- length_app, take_app_length.
  by rewrite drop_app_length.
Qed.

Lemma vec_remove_app {T} (l1 l2 : list T) x :
  vec_remove (l1 ++ x :: l2) (length l1) = Ret (l1 ++ l2, x).
Proof.
  unfold vec_remove. rewrite index_app. cbn [obind]. rewrite take_app_length.
  replace (drop (S (length l1)) (l1 ++ x :: l2)) with l2; [done|].
  replace (S (length l1)) with (length l1 + 1)%nat by lia.
  by rewrite <- drop_drop, drop_app_length.
Qed.

Lemma pick2_mut_ret {T} (v : list T) a b x y :
  a ≠ b → v !! a = Some x → v !! b = Some y → pick2_mut v a b = Ret (x, y).
Proof.
  intros Hne Ha Hb. unfold pick2_mut. rewrite (proj2 (Nat.eqb_neq a b)) by done. cbn [negb rassert].
  assert (∀ i j p q, (i < j)%nat → v !! i = Some p → v !! j = Some q →
    rassert (j <=? length v)%nat
      (let! x := index (take j v) i in let! y := index (drop j v) 0 in Ret (x, y)) = Ret (p, q)) as Hp.
  { intros i j p q ? Hi Hj. rewrite (proj2 (Nat.leb_le _ _)) by (apply lookup_lt_Some in Hj; lia).
    cbn [rassert]. unfold index. rewrite lookup_take_lt, Hi by done. cbn.
    by rewrite lookup_drop, Nat.add_0_r, Hj. }
  destruct (Nat.ltb_spec a b); [by apply Hp|].
  rewrite (Hp b a y x) by (done || lia). done.
Qed.

(** * Sorted lists of indices *)

Lemma seqZ_sorted n : ∀ a, StronglySorted Z.lt (seqZ a n).
Proof.
  destruct (decide (n ≤ 0)); [intros a; rewrite seqZ_nil by done; constructor|].
  replace n with (Z.of_nat (Z.to_nat n)) by lia. generalize (Z.to_nat n) as k.
  induction k as [|k IH]; intros a; [constructor|]. rewrite seqZ_cons by lia.
  replace (Z.pred (Z.of_nat (S k))) with (Z.of_nat k) by lia. constructor; [apply IH|].
  apply list.Forall_forall. intros x Hx%elem_of_seqZ. lia.
Qed.

Lemma filter_ext_in {A} (P P' : A → Prop) `{!∀ x, Decision (P x), !∀ x, Decision (P' x)}
    (l : list A) :
  (∀ x, x ∈ l → P x ↔ P' x) → filter P l = filter P' l.
Proof.
  induction l as [|x l IH]; intros Hx; [done|]. rewrite !filter_cons.
  rewrite IH by (intros y ?; apply Hx; by right). specialize (Hx x ltac:(by left)).
  destruct (decide (P x)), (decide (P' x)); tauto || done.
Qed.

Lemma sorted_filter {A} (R : relation A) (P : A → Prop) `{!∀ x, Decision (P x)} (l : list A) :
  StronglySorted R l → StronglySorted R (filter P l).
Proof.
  induction 1 as [|x l Hs IH Hx]; [constructor|]. rewrite filter_cons. case_decide; [|done].
  constructor; [done|]. rewrite list.Forall_forall in *. intros y Hy.
  apply Hx. by apply list_elem_of_filter in Hy as [_ ?].
Qed.

(** * Filters *)

Lemma filter_none {A} (P : A → Prop) `{!∀ x, Decision (P x)} (l : list A) : (∀ x, x ∈ l → ¬ P x) → filter P l = [].
Proof.
  induction l as [|x l IH]; intros Hno; [done|]. rewrite filter_cons, decide_False by (apply Hno; left).
  apply IH. intros y Hy. apply Hno. by right.
Qed.

Lemma filter_all {A} (P : A → Prop) `{!∀ x, Decision (P x)} (l : list A) : Forall P l → filter P l = l.
Proof. induction 1 as [|x l Hx _ IH]; [done|]. by rewrite filter_cons, decide_True, IH. Qed.

Lemma filter_nothing {A} (P : A → Prop) `{!∀ x, Decision (P x)} (l : list A) : Forall (λ x, ¬ P x) l → filter P l = [].
Proof. induction 1 as [|x l Hx _ IH]; [done|]. by rewrite filter_cons, decide_False. Qed.

Lemma filter_length_le {A} (P Q : A → Prop) `{!∀ x, Decision (P x), !∀ x, Decision (Q x)} (l : list A) :
  (∀ x, P x → Q x) → (length (filter P l) ≤ length (filter Q l))%nat.
Proof.
  intros HPQ. induction l as [|x l IH]; [done|]. rewrite !filter_cons.
  destruct (decide (P x)) as [Hp|]; [rewrite decide_True by auto|case_decide]; cbn; lia.
Qed.

Lemma filter_length_lt {A} (P Q : A → Prop) `{!∀ x, Decision (P x), !∀ x, Decision (Q x)} (l : list A) x :
  (∀ x, P x → Q x) → x ∈ l → Q x → ¬ P x → (length (filter P l) < length (filter Q l))%nat.
Proof.
  intros HPQ Hx Hq Hp. induction l as [|y l IH]; [by apply elem_of_nil in Hx|]. rewrite !filter_cons.
  apply elem_of_cons in Hx as [<-|Hx].
  - rewrite decide_False, decide_True by done. cbn. pose proof (filter_length_le P Q l HPQ). lia.
  - specialize (IH Hx). destruct (decide (P y)) as [Hy|]; [rewrite decide_True by auto|case_decide]; cbn; lia.
Qed.
