(* ===== verification/IndexSet.v ===== *)
(** * The interface of index sets

    [rustc_index] has several types for sets of indices below a domain size.
    What their clients rely on is stated here once: [IndexSet] has the
    operations common to the types and the laws that relate them to sets of
    integers.  The types are instances ([IndexSetInstances]); what is proved
    from the laws holds of all of them. *)

From S2P Require Import Prelude.
From S2P Require Import Slice.

(** The indices of a range, below [dom] when it has no end *)
Definition in_range (dom : Z) (r : RangeBounds Z) (x : Z) : Prop :=
  0 ≤ x ∧
  match start_bound r with Included a => a ≤ x | Excluded a => a < x | Unbounded => True end ∧
  match end_bound r with Included b => x ≤ b | Excluded b => x < b | Unbounded => x < dom end.

(** An update of a set with elements [E] to one with elements [E']: the new
    elements are [P], and the answer tells whether there was a change. *)
Definition set_update (E E' : Z → Prop) (changed : bool) (P : Z → Prop) : Prop :=
  (∀ y, E' y ↔ P y) ∧ (changed = true ↔ ∃ y, ¬ (E y ↔ P y)).

Class IndexSet (S : Type) : Type := {
  is_wf : Z → S → Prop;
  is_elem : S → Z → Prop;
  is_new_empty : Z → outcome S;
  is_contains : S → Z → outcome bool;
  is_insert : S → Z → outcome (S * bool);
  is_insert_all : S → outcome S;
  is_union : S → S → outcome (S * bool);
  (* the domains the type supports *)
  is_domain : Z → Prop;
  law_elem dom s x : is_wf dom s → is_elem s x → 0 ≤ x < dom;
  law_empty dom : is_domain dom →
    ∃ s, is_new_empty dom = Ret s ∧ is_wf dom s ∧ ∀ x, ¬ is_elem s x;
  law_contains dom s x : is_wf dom s → 0 ≤ x < dom →
    ∃ b, is_contains s x = Ret b ∧ (b = true ↔ is_elem s x);
  law_insert dom s x : is_wf dom s → 0 ≤ x < dom →
    ∃ s' b, is_insert s x = Ret (s', b) ∧ is_wf dom s' ∧
      set_update (is_elem s) (is_elem s') b (λ y, is_elem s y ∨ y = x);
  law_insert_all dom s : is_wf dom s →
    ∃ s', is_insert_all s = Ret s' ∧ is_wf dom s' ∧ ∀ y, is_elem s' y ↔ 0 ≤ y < dom;
  law_union dom s o : is_wf dom s → is_wf dom o →
    ∃ s' b, is_union s o = Ret (s', b) ∧ is_wf dom s' ∧
      set_update (is_elem s) (is_elem s') b (λ y, is_elem s y ∨ is_elem o y);
}.

(** Types that can remove elements too *)
Class IndexSetRemove (S : Type) `{IndexSet S} : Type := {
  is_remove : S → Z → outcome (S * bool);
  law_remove dom s x : is_wf dom s → 0 ≤ x < dom →
    ∃ s' b, is_remove s x = Ret (s', b) ∧ is_wf dom s' ∧
      set_update (is_elem s) (is_elem s') b (λ y, is_elem s y ∧ y ≠ x);
}.
