(* ===== verification/Interval.v ===== *)
(** * Sets of intervals

    [compiler/rustc_index/src/interval.rs]: [IntervalSet], a set of indices as a
    sorted vector of inclusive [u32] intervals, and [SparseIntervalMatrix], a
    vector of such sets.  The liveness of locals in the borrow checker is kept in
    them.  Arithmetic on interval ends is that of [u32]. *)

From S2P Require Import Prelude.
From S2P Require Import Slice.

Module IntervalSet.

Record t : Type := { map : list (Z * Z); domain : Z }.

#[export] Instance t_eq_dec : EqDecision t.
Proof. solve_decision. Defined.

Definition with_map (s : t) (m : list (Z * Z)) : t := {| map := m; domain := domain s |}.

Definition inclusive_start (r : RangeBounds Z) : Z :=
  match start_bound r with
  | Included start => wrap 32 start
  | Excluded start => wadd 32 (wrap 32 start) 1
  | Unbounded => 0
  end.

Definition inclusive_end (dom : Z) (r : RangeBounds Z) : option Z :=
  match end_bound r with
  | Included end_ => Some (wrap 32 end_)
  | Excluded end_ => e ← checked_sub end_ 1; Some (wrap 32 e)
  | Unbounded => e ← checked_sub dom 1; Some (wrap 32 e)
  end.

Definition new (dom : Z) : t := {| map := []; domain := dom |}.

Definition clear (s : t) : t := with_map s [].

Section WithIdx.
Context `{Idx}.

(** One item of [iter_intervals]: a half-open range of indices *)
Definition interval_range (i : Z * Z) : outcome (Z * Z) :=
  let! a := idx_new (fst i) in
  let! b := idx_new (snd i + 1) in
  Ret (a, b).

Fixpoint iter_intervals_loop (m : list (Z * Z)) : outcome (list (Z * Z)) :=
  match m with
  | [] => Ret []
  | i :: m => let! r := interval_range i in let! rs := iter_intervals_loop m in Ret (r :: rs)
  end.

Definition iter_intervals (s : t) : outcome (list (Z * Z)) := iter_intervals_loop (map s).

(** [iter]: the indices of the intervals, in order *)
Definition iter (s : t) : outcome (list Z) :=
  let! rs := iter_intervals s in
  Ret (mjoin ((λ '(a, b), seqZ a (b - a)) <$> rs)).

(** The intervals after an insertion of [start..=end_], and whether the set grew *)
Definition insert_interval (m : list (Z * Z)) (start end_ : Z) : outcome (list (Z * Z) * bool) :=
  let! next := partition_point m (λ r, fst r <=? wadd 32 end_ 1) in
  match next with
  | S right_ =>
      let! (prev_start, prev_end) := index m right_ in
      if start <=? wadd 32 prev_end 1 then
        if start <? prev_start then
          let! left_ := partition_point m (λ l, wadd 32 (snd l) 1 <? start) in
          let! l := index m left_ in
          let min := Z.min (fst l) start in
          let max := Z.max prev_end end_ in
          let! m := index_set m right_ (min, max) in
          if negb (left_ =? right_)%nat then
            let! m := vec_drain m left_ right_ in Ret (m, true)
          else Ret (m, true)
        else if prev_end <? end_ then
          let! m := index_set m right_ (prev_start, end_) in Ret (m, true)
        else Ret (m, false)
      else
        let! m := vec_insert m (right_ + 1) (start, end_) in Ret (m, true)
  | O =>
      if decide (m = []) then Ret (m ++ [(start, end_)], true)
      else let! m := vec_insert m next (start, end_) in Ret (m, true)
  end.

Definition insert_range (s : t) (r : RangeBounds Z) : outcome (t * bool) :=
  let start := inclusive_start r in
  match inclusive_end (domain s) r with
  | None => Ret (s, false)
  | Some end_ =>
      if end_ <? start then Ret (s, false)
      else let! (m, b) := insert_interval (map s) start end_ in Ret (with_map s m, b)
  end.

Definition insert (s : t) (point : Z) : outcome (t * bool) :=
  insert_range s (range_inclusive point point).

Definition contains (s : t) (needle : Z) : outcome bool :=
  let needle := wrap 32 needle in
  let! last := partition_point (map s) (λ r, fst r <=? needle) in
  match last with
  | O => Ret false
  | S last => let! (_, prev_end) := index (map s) last in Ret (needle <=? prev_end)
  end.

(** The closure [contains] of [superset]: the answer and the interval it saves
    in [current] *)
Definition superset_contains (sup sub : Z * Z) : option bool * option (Z * Z) :=
  if snd sup <? fst sub then (None, None)
  else if (snd sub <=? snd sup) && (fst sup <=? fst sub) then (Some true, Some sup)
  else (Some false, None).

(** [sup_iter.find_map(..)]: the answer, the saved interval and the rest of the
    iterator *)
Fixpoint superset_find_map (sup_iter : list (Z * Z)) (sub : Z * Z)
    : outcome (option bool * option (Z * Z) * list (Z * Z)) :=
  match sup_iter with
  | [] => Ret (None, None, [])
  | i :: sup_iter =>
      let! sup := interval_range i in
      match superset_contains sup sub with
      | (Some b, current) => Ret (Some b, current, sup_iter)
      | (None, _) => superset_find_map sup_iter sub
      end
  end.

Fixpoint superset_loop (current : option (Z * Z)) (sup_iter other : list (Z * Z)) : outcome bool :=
  match other with
  | [] => Ret true
  | i :: other =>
      let! sub := interval_range i in
      let '(answer, current) :=
        match current with
        | Some sup => superset_contains sup sub
        | None => (None, None)
        end in
      match answer with
      | Some b => if b then superset_loop current sup_iter other else Ret false
      | None =>
          let! (answer, current, sup_iter) := superset_find_map sup_iter sub in
          match answer with
          | Some true => superset_loop current sup_iter other
          | Some false | None => Ret false
          end
      end
  end.

Definition superset (s other : t) : outcome bool := superset_loop None (map s) (map other).

Definition is_empty (s : t) : bool := bool_decide (map s = []).

Definition first_unset_in (s : t) (r : RangeBounds Z) : outcome (option Z) :=
  let start := inclusive_start r in
  match inclusive_end (domain s) r with
  | None => Ret None
  | Some end_ =>
      if end_ <? start then Ret None
      else
        let! last := partition_point (map s) (λ r, fst r <=? start) in
        match last with
        | O => let! i := idx_new start in Ret (Some i)
        | S last =>
            let! (_, prev_end) := index (map s) last in
            if prev_end <? start then let! i := idx_new start in Ret (Some i)
            else if prev_end <? end_ then let! i := idx_new (prev_end + 1) in Ret (Some i)
            else Ret None
        end
  end.

Definition last_set_in (s : t) (r : RangeBounds Z) : outcome (option Z) :=
  let start := inclusive_start r in
  match inclusive_end (domain s) r with
  | None => Ret None
  | Some end_ =>
      if end_ <? start then Ret None
      else
        let! last := partition_point (map s) (λ r, fst r <=? end_) in
        match last with
        | O => Ret None
        | S last =>
            let! (_, prev_end) := index (map s) last in
            if start <=? prev_end
            then let! i := idx_new (Z.min prev_end end_) in Ret (Some i) else Ret None
        end
  end.

(** [end.try_into().unwrap()] panics when the last index is not a [u32]. *)
Definition insert_all (s : t) : outcome t :=
  let s := clear s in
  match checked_sub (domain s) 1 with
  | Some end_ => rassert (end_ <? 2 ^ 32) (Ret (with_map s (map s ++ [(0, end_)])))
  | None => Ret s
  end.

Fixpoint union_loop (s : t) (other : list (Z * Z)) (did_insert : bool) : outcome (t * bool) :=
  match other with
  | [] => Ret (s, did_insert)
  | i :: other =>
      let! (a, b) := interval_range i in
      let! (s, grew) := insert_range s (range a b) in
      union_loop s other (did_insert || grew)
  end.

Definition union (s other : t) : outcome (t * bool) :=
  rassert (domain s =? domain other) (union_loop s (map other) false).

Fixpoint check_loop (current : option Z) (m : list (Z * Z)) (dom : Z) : bool :=
  match m with
  | [] => match current with Some x => x <? wrap 32 dom | None => true end
  | (start, end_) :: m =>
      if (end_ <? start) || match current with Some x => start <=? wadd 32 x 1 | None => false end
      then false else check_loop (Some end_) m dom
  end.

Definition check_invariants (s : t) : bool := check_loop None (map s) (domain s).

End WithIdx.

End IntervalSet.

Module SparseIntervalMatrix.

Record t : Type := { rows : list IntervalSet.t; column_size : Z }.

Definition with_rows (m : t) (r : list IntervalSet.t) : t :=
  {| rows := r; column_size := column_size m |}.

Definition new (columns : Z) : t := {| rows := []; column_size := columns |}.

(** [rows]: the indices of the rows *)
Definition row_indices (m : t) : list nat := seq 0 (length (rows m)).

Definition row (m : t) (r : nat) : option IntervalSet.t := rows m !! r.

Definition ensure_row (m : t) (r : nat) : outcome (t * IntervalSet.t) :=
  let! (v, x) := ensure_contains_elem (rows m) r (IntervalSet.new (column_size m)) in
  Ret (with_rows m v, x).

(** A mutation of the row that [ensure_row] returns *)
Definition update_row {A} (m : t) (r : nat) (f : IntervalSet.t → outcome (IntervalSet.t * A))
    : outcome (t * A) :=
  let! (m, s) := ensure_row m r in
  let! (s, a) := f s in
  Ret (with_rows m (<[r := s]> (rows m)), a).

Section WithIdx.
Context `{Idx}.

Definition union_row (m : t) (r : nat) (from : IntervalSet.t) : outcome (t * bool) :=
  update_row m r (λ s, IntervalSet.union s from).

Definition union_rows (m : t) (read write : nat) : outcome (t * bool) :=
  if (read =? write)%nat || bool_decide (rows m !! read = None) then Ret (m, false)
  else
    let! (m, _) := ensure_row m write in
    let! (read_row, write_row) := pick2_mut (rows m) read write in
    let! (s, b) := IntervalSet.union write_row read_row in
    Ret (with_rows m (<[write := s]> (rows m)), b).

Definition insert_all_into_row (m : t) (r : nat) : outcome t :=
  let! (m, _) := update_row m r (λ s, let! s := IntervalSet.insert_all s in Ret (s, tt)) in
  Ret m.

Definition insert_range (m : t) (r : nat) (rg : RangeBounds Z) : outcome t :=
  let! (m, _) := update_row m r (λ s, IntervalSet.insert_range s rg) in Ret m.

Definition insert (m : t) (r : nat) (point : Z) : outcome (t * bool) :=
  update_row m r (λ s, IntervalSet.insert s point).

Definition contains (m : t) (r : nat) (point : Z) : outcome bool :=
  match row m r with
  | Some s => IntervalSet.contains s point
  | None => Ret false
  end.

End WithIdx.

End SparseIntervalMatrix.
