(* ===== verification/IntervalProps.v ===== *)
(** * Properties of sets of intervals

    The invariant of [IntervalSet] (sorted, non-adjacent intervals inside the
    domain, the one [check_invariants] tests) is kept by every operation, and
    under it the operations implement those of a mathematical set of indices. *)

From stdpp Require Import sorting.
From S2P Require Import Prelude.
From S2P Require Import Slice.
From S2P Require Import IndexSet.
From S2P Require Import Interval.

(** * Sorted, non-adjacent intervals *)

(** The intervals are above [lo], below [hi], and a gap apart. *)
Fixpoint separated (lo hi : Z) (m : list (Z * Z)) : Prop :=
  match m with
  | [] => True
  | (a, b) :: m => lo ≤ a ≤ b ∧ b < hi ∧ separated (b + 2) hi m
  end.

(** The indices an interval list stands for *)
Definition covers (m : list (Z * Z)) (x : Z) : Prop := Exists (λ r, fst r ≤ x ≤ snd r) m.

(** Where an interval after [m] may start *)
Definition after (lo : Z) (m : list (Z * Z)) : Z :=
  match list.last m with Some (_, b) => b + 2 | None => lo end.

Lemma after_cons lo a b m : after lo ((a, b) :: m) = after (b + 2) m.
Proof. unfold after. rewrite last_cons. by destruct (list.last m) as [[]|]. Qed.

Lemma after_snoc lo m a b : after lo (m ++ [(a, b)]) = b + 2.
Proof. unfold after. by rewrite last_snoc. Qed.

Lemma separated_app lo hi m1 : ∀ m2, separated lo hi (m1 ++ m2) ↔
  separated lo hi m1 ∧ separated (after lo m1) hi m2.
Proof.
  revert lo. induction m1 as [|[a b] m1 IH]; intros lo m2; [cbn; tauto|].
  rewrite after_cons. cbn. rewrite IH. tauto.
Qed.

Lemma separated_lower lo lo' hi m : lo ≤ lo' → separated lo' hi m → separated lo hi m.
Proof. destruct m as [|[a b] m]; cbn; [done|]. intros ? (? & ? & ?). split_and!; [lia..|done]. Qed.

Lemma separated_forall lo hi m :
  separated lo hi m → Forall (λ r, lo ≤ fst r ≤ snd r ∧ snd r < hi) m.
Proof.
  revert lo. induction m as [|[a b] m IH]; intros lo; cbn; [constructor|].
  intros (? & ? & Hm). constructor; [cbn; lia|].
  eapply List.Forall_impl; [|apply IH, Hm]. cbn. lia.
Qed.

(** A list whose intervals all start later *)
Lemma separated_raise lo lo' hi m :
  separated lo hi m → Forall (λ r, lo' ≤ fst r) m → separated lo' hi m.
Proof.
  destruct m as [|[a b] m]; cbn; [done|]. intros (? & ? & ?) Hf. inversion Hf; cbn in *.
  split_and!; [lia..|done].
Qed.

Lemma separated_before lo hi m : 
  separated lo hi m → Forall (λ r, snd r + 2 ≤ after lo m) m.
Proof.
  revert lo. induction m as [|[a b] m IH]; intros lo; [constructor|]. rewrite after_cons.
  cbn. intros (? & ? & Hm). constructor; [|by apply IH].
  cbn. destruct m as [|[c d] m]; [done|].
  pose proof (IH _ Hm) as Hb. inversion Hb. destruct Hm. cbn in *. lia.
Qed.

Lemma after_ge lo hi m : separated lo hi m → lo ≤ after lo m.
Proof.
  revert lo. induction m as [|[a b] m IH]; intros lo; [done|]. rewrite after_cons.
  cbn. intros (? & ? & Hm). specialize (IH _ Hm). lia.
Qed.

(** A predicate that is true of every interval before one it is true of splits
    the list. *)
Lemma separated_split lo hi m (p : Z * Z → bool) :
  (∀ r r', snd r + 2 ≤ fst r' → fst r ≤ snd r → fst r' ≤ snd r' → p r' = true → p r = true) →
  separated lo hi m →
  ∃ m1 m2, m = m1 ++ m2 ∧ Forall (λ r, p r = true) m1 ∧ Forall (λ r, p r = false) m2.
Proof.
  intros Hp. revert lo. induction m as [|[a b] m IH]; intros lo; cbn.
  { exists [], []. split_and!; constructor. }
  intros (? & ? & Hm). destruct (p (a, b)) eqn:E.
  - destruct (IH _ Hm) as (m1 & m2 & -> & ? & ?).
    exists ((a, b) :: m1), m2. split_and!; [done|by constructor|done].
  - exists [], ((a, b) :: m). split_and!; [done|constructor|]. constructor; [done|].
    eapply List.Forall_impl; [|apply separated_forall, Hm]. intros [c d] [? ?]. cbn in *.
    destruct (p (c, d)) eqn:E'; [|done]. rewrite (Hp (a, b) (c, d)) in E; cbn; done || lia.
Qed.

Lemma covers_nil x : ¬ covers [] x.
Proof. intros H. inversion H. Qed.
Lemma covers_cons a b m x : covers ((a, b) :: m) x ↔ a ≤ x ≤ b ∨ covers m x.
Proof. unfold covers. rewrite Exists_cons. done. Qed.
Lemma covers_app m1 m2 x : covers (m1 ++ m2) x ↔ covers m1 x ∨ covers m2 x.
Proof. apply Exists_app. Qed.

(** Bounds on what separated lists cover *)
Lemma covers_bounds lo hi m x : separated lo hi m → covers m x → lo ≤ x < hi.
Proof.
  intros Hm%separated_forall Hx. unfold covers in Hx. rewrite list.Exists_exists in Hx.
  rewrite list.Forall_forall in Hm. destruct Hx as (r & Hr & ?). specialize (Hm _ Hr). cbn in *. lia.
Qed.

Lemma covers_after lo hi m x : separated lo hi m → covers m x → x + 2 ≤ after lo m.
Proof.
  intros Hm%separated_before Hx. unfold covers in Hx. rewrite list.Exists_exists in Hx.
  rewrite list.Forall_forall in Hm. destruct Hx as (r & Hr & ?). specialize (Hm _ Hr). cbn in *. lia.
Qed.

(** The indices next to an interval are not covered. *)
Lemma separated_gap lo hi m1 a b m2 :
  separated lo hi (m1 ++ (a, b) :: m2) →
  ¬ covers (m1 ++ (a, b) :: m2) (a - 1) ∧ ¬ covers (m1 ++ (a, b) :: m2) (b + 1).
Proof.
  intros [H1 (? & ? & H2)]%separated_app.
  rewrite !covers_app, !covers_cons. split; intros [Hc|[?|Hc]]; try lia.
  all: try (apply (covers_after _ _ _ _ H1) in Hc; lia).
  all: apply (covers_bounds _ _ _ _ H2) in Hc; lia.
Qed.

Lemma wadd_one x : 0 ≤ x < 2 ^ 32 - 1 → wadd 32 x 1 = x + 1.
Proof. intros. apply wrap_small. unfold is_uint. lia. Qed.

(** Membership in a concatenation *)
Ltac elem_app := rewrite ?elem_of_app, ?elem_of_cons; tauto.

(** * Insertion of one interval *)

(** What the insertion of [start..=end_] into [m] must give *)
Definition inserted (hi : Z) (m : list (Z * Z)) (start end_ : Z) (m' : list (Z * Z)) (grew : bool) : Prop :=
  separated 0 hi m' ∧
  (∀ x, covers m' x ↔ covers m x ∨ start ≤ x ≤ end_) ∧
  (grew = true ↔ ∃ x, start ≤ x ≤ end_ ∧ ¬ covers m x).
Section InsertInterval.
Context (hi start end_ : Z) (Hhi : hi < 2 ^ 32) (Hse : 0 ≤ start ≤ end_) (Hend : end_ < hi).

(** An interval that touches no other *)
Lemma insert_between m1 m2 :
  separated 0 hi (m1 ++ m2) → after 0 m1 ≤ start →
  Forall (λ r, end_ + 2 ≤ fst r) m2 →
  inserted hi (m1 ++ m2) start end_ (m1 ++ (start, end_) :: m2) true.
Proof.
  intros [K1 K2]%separated_app Ha HF. pose proof (separated_raise _ _ _ _ K2 HF) as K3.
  split_and!.
  - apply separated_app. split; [done|]. cbn. split_and!; [lia..|done].
  - intros x. rewrite !covers_app, covers_cons. tauto.
  - split; [|done]. intros _. exists start. split; [lia|].
    rewrite covers_app. intros [Hc|Hc].
    + apply (covers_after _ _ _ _ K1) in Hc. lia.
    + apply (covers_bounds _ _ _ _ K3) in Hc. lia.
Qed.

(** The last interval that starts up to [end_ + 1] is extended. *)
Lemma insert_extend m1 ps pe m2 :
  separated 0 hi (m1 ++ (ps, pe) :: m2) → ps ≤ start ≤ pe + 1 → pe < end_ →
  Forall (λ r, end_ + 2 ≤ fst r) m2 →
  inserted hi (m1 ++ (ps, pe) :: m2) start end_ (m1 ++ (ps, end_) :: m2) true.
Proof.
  intros Hm ? ? HF. pose proof (separated_gap _ _ _ _ _ _ Hm) as [_ Hg].
  apply separated_app in Hm as [K1 (? & ? & K2)].
  split_and!.
  - apply separated_app. split; [done|]. cbn. split_and!; [lia..|].
    by apply (separated_raise _ _ _ _ K2).
  - intros x. rewrite !covers_app, !covers_cons.
    split; [intros [?|[?|?]]|intros [[?|[?|?]]|?]]; try tauto; try (right; left; lia).
    destruct (decide (x ≤ pe)); [left; right; left; lia|right; lia].
  - split; [|done]. intros _. exists (pe + 1). split; [lia|done].
Qed.

(** The first of the intervals that are merged *)
Lemma merged_head lo k ps pe m2 a b :
  separated lo hi (k ++ (ps, pe) :: m2) → Forall (λ r, start ≤ snd r + 1) k →
  head (k ++ [(ps, pe)]) = Some (a, b) → start < ps →
  lo ≤ a ≤ b ∧ a ≤ ps ∧ b ≤ pe ∧ start ≤ b + 1 ∧
  (∀ x, a ≤ x ≤ b → covers (k ++ [(ps, pe)]) x) ∧ (∀ x, covers k x → a ≤ x < ps).
Proof.
  intros [K1 (Hps & ? & _)]%separated_app Hk Hh ?.
  destruct k as [|[c d] k]; cbn in Hh; injection Hh as -> ->.
  - change (after lo []) with lo in Hps. cbn. split_and!; [lia..| |].
    + intros x ?. apply covers_cons. lia.
    + intros x Hc. by apply covers_nil in Hc.
  - apply Forall_inv in Hk. cbn in *. destruct K1 as (? & ? & K1). rewrite after_cons in Hps.
    pose proof (after_ge _ _ _ K1). split_and!; [lia..|intros x ?; apply covers_cons; lia|].
    intros x [?|Hx]%covers_cons; [lia|].
    pose proof (covers_after _ _ _ _ K1 Hx). pose proof (covers_bounds _ _ _ _ K1 Hx). lia.
Qed.

(** The intervals [k ++ [(ps, pe)]], the first of which starts at [a], are merged. *)
Lemma insert_merge m1 k ps pe m2 a b :
  separated 0 hi (m1 ++ k ++ (ps, pe) :: m2) →
  Forall (λ r, snd r + 1 < start) m1 → Forall (λ r, start ≤ snd r + 1) k →
  head (k ++ [(ps, pe)]) = Some (a, b) →
  start < ps → ps ≤ end_ + 1 → Forall (λ r, end_ + 2 ≤ fst r) m2 →
  inserted hi (m1 ++ k ++ (ps, pe) :: m2) start end_
    (m1 ++ (Z.min a start, Z.max pe end_) :: m2) true.
Proof.
  intros Hm Hm1 Hk Hh ? ? HF.
  assert (¬ covers (m1 ++ k ++ (ps, pe) :: m2) (ps - 1)) as Hg.
  { rewrite (assoc_L (++)). by apply separated_gap with (lo := 0) (hi := hi); rewrite <- (assoc_L (++)). }
  apply separated_app in Hm as [K1 K2]. pose proof K2 as [K3 (Hps & ? & K4)]%separated_app.
  destruct (merged_head (after 0 m1) k ps pe m2 a b) as (? & ? & ? & ? & Hab & Hkx); [done..|].
  split_and!.
  - apply separated_app. split; [done|]. cbn. split_and!; try lia.
    + destruct (list.last m1) as [[c d]|] eqn:E; [|unfold after in *; rewrite E in *; lia].
      unfold after in *. rewrite E in *. apply last_Some in E as [m' ->].
      apply Forall_app in Hm1 as [_ Hd%Forall_inv]. cbn in Hd. lia.
    + apply (separated_raise _ _ _ _ K4).
      apply list.Forall_forall. intros r Hr. rewrite list.Forall_forall in HF. specialize (HF _ Hr).
      apply separated_forall in K4. rewrite list.Forall_forall in K4. specialize (K4 _ Hr). cbn in *. lia.
  - intros x. specialize (Hab x). specialize (Hkx x).
    rewrite !covers_app, !covers_cons. rewrite covers_app, covers_cons in Hab.
    assert (¬ covers [] x) by apply covers_nil.
    split.
    + intros [?|[Hx|?]]; [tauto| |tauto].
      destruct (decide (x < start)); [destruct Hab as [?|[?|?]]; [lia|tauto..]|].
      destruct (decide (end_ < x)); [left; right; right; left; lia|right; lia].
    + intros [[?|[Hk'|[?|?]]]|?]; try tauto; right; left; try lia. specialize (Hkx Hk'). lia.
  - split; [|done]. intros _. exists (ps - 1). split; [lia|done].
Qed.

(** The split of the intervals at [end_ + 1] that the first search finds *)
Lemma split_at_end m c :
  separated 0 hi m → 0 ≤ c →
  ∃ m1 m2, m = m1 ++ m2 ∧ Forall (λ r, fst r ≤ c) m1 ∧ Forall (λ r, c + 1 ≤ fst r) m2 ∧
    partition_point m (λ r, fst r <=? c) = Ret (length m1).
Proof.
  intros Hm Hc. destruct (separated_split 0 hi m (λ r, fst r <=? c)) as (m1 & m2 & -> & H1 & H2).
  { intros r r' ? ? ? ?%Z.leb_le. apply Z.leb_le. lia. }
  { done. }
  exists m1, m2. split_and!; [done|..|by apply partition_point_app].
  - eapply List.Forall_impl; [|exact H1]. intros r ?%Z.leb_le. done.
  - eapply List.Forall_impl; [|exact H2]. intros r ?%Z.leb_gt. lia.
Qed.

(** The merging branch, whose second search finds the first interval that is
    merged *)
Lemma insert_interval_merge m1 ps pe m2 :
  separated 0 hi (m1 ++ (ps, pe) :: m2) → start < ps → ps ≤ end_ + 1 →
  Forall (λ r, end_ + 2 ≤ fst r) m2 →
  ∃ m', (let m := m1 ++ (ps, pe) :: m2 in
    let! left_ := partition_point m (λ l, wadd 32 (snd l) 1 <? start) in
    let! l := index m left_ in
    let! m := index_set m (length m1) (Z.min (fst l) start, Z.max pe end_) in
    if negb (left_ =? length m1)%nat
    then let! m := vec_drain m left_ (length m1) in Ret (m, true) else Ret (m, true))
    = Ret (m', true) ∧ inserted hi (m1 ++ (ps, pe) :: m2) start end_ m' true.
Proof.
  cbv zeta. intros Hm ? ? HF. pose proof Hm as [K1 K2]%separated_app. destruct K2 as (? & ? & K2).
  destruct (separated_split 0 hi m1 (λ l, snd l + 1 <? start)) as (k1 & k2 & -> & Hk1 & Hk2).
  { intros r r' ? ? ? ?%Z.ltb_lt. apply Z.ltb_lt. lia. }
  { done. }
  assert (∀ r, r ∈ (k1 ++ k2) ++ (ps, pe) :: m2 → wadd 32 (snd r) 1 = snd r + 1) as Hw.
  { intros r Hr. apply separated_forall in Hm. rewrite list.Forall_forall in Hm.
    specialize (Hm _ Hr). apply wadd_one. lia. }
  assert (partition_point ((k1 ++ k2) ++ (ps, pe) :: m2) (λ l, wadd 32 (snd l) 1 <? start)
    = Ret (length k1)) as ->.
  { rewrite <- (assoc_L (++)). apply partition_point_app.
    - rewrite list.Forall_forall in *. intros r Hr. rewrite Hw by elem_app. by apply Hk1.
    - rewrite list.Forall_forall in *. intros r [Hr|[->|Hr]%elem_of_cons]%elem_of_app.
      + rewrite Hw by elem_app. by apply Hk2.
      + rewrite Hw by elem_app. apply Z.ltb_ge. cbn. lia.
      + rewrite Hw by elem_app. apply Z.ltb_ge.
        apply separated_forall in K2. rewrite list.Forall_forall in K2. specialize (K2 _ Hr). lia. }
  cbn [obind].
  destruct (head (k2 ++ [(ps, pe)])) as [[a b]|] eqn:Hh; [|by destruct k2].
  assert (index ((k1 ++ k2) ++ (ps, pe) :: m2) (length k1) = Ret (a, b)) as ->.
  { rewrite <- (assoc_L (++)). destruct k2; cbn in Hh; simplify_eq; apply index_app. }
  cbn [obind fst]. rewrite index_set_app. cbn [obind].
  eexists. split; [|rewrite <- (assoc_L (++)); eapply (insert_merge k1 k2 ps pe m2 a b)].
  - destruct (Nat.eqb_spec (length k1) (length (k1 ++ k2))) as [Hl|_]; cbn [negb].
    + rewrite length_app in Hl. destruct k2; [|cbn in Hl; lia]. by rewrite app_nil_r.
    + unfold vec_drain. rewrite <- (assoc_L (++)), length_app, vec_splice_app. done.
  - by rewrite (assoc_L (++)).
  - eapply List.Forall_impl; [|exact Hk1]. intros r ?%Z.ltb_lt. done.
  - eapply List.Forall_impl; [|exact Hk2]. intros r ?%Z.ltb_ge. done.
  - done.
  - done.
  - done.
  - done.
Qed.

Lemma insert_interval_spec m :
  separated 0 hi m →
  ∃ m' grew, IntervalSet.insert_interval m start end_ = Ret (m', grew) ∧
    inserted hi m start end_ m' grew.
Proof.
  intros Hm. destruct (split_at_end m (end_ + 1)) as (m1 & m2 & -> & H1 & H2 & Hp); [done|lia|].
  unfold IntervalSet.insert_interval. rewrite (wadd_one end_), Hp by lia. cbn [obind].
  assert (Forall (λ r, end_ + 2 ≤ fst r) m2) as HF.
  { eapply List.Forall_impl; [|exact H2]. cbn. lia. }
  destruct m1 as [|[ps pe] m1 _] using rev_ind.
  - cbn [length]. destruct (decide _) as [Hn|].
    + exists [(start, end_)], true. cbn in Hn |- *. subst m2. split; [done|].
      by apply (insert_between [] []); [|change (0 ≤ start); lia|].
    + exists ((start, end_) :: m2), true. rewrite (vec_insert_app []). split; [done|].
      by apply (insert_between [] m2); [|change (0 ≤ start); lia|].
  - rewrite length_app. cbn [length]. rewrite Nat.add_1_r.
    rewrite <- (assoc_L (++)) in Hm |- *. cbn [app] in *. rewrite index_app. cbn [obind].
    pose proof Hm as [K1 (? & ? & K2)]%separated_app.
    apply Forall_app in H1 as [_ H1%Forall_inv]. cbn in H1.
    pose proof (after_ge _ _ _ K1). rewrite wadd_one by lia.
    destruct (Z.leb_spec start (pe + 1)); [destruct (Z.ltb_spec start ps);
      [|destruct (Z.ltb_spec pe end_)]|].
    + destruct (insert_interval_merge m1 ps pe m2) as (m' & Hr & Hi); [done..|].
      exists m', true. split; [exact Hr|done].
    + rewrite index_set_app. eexists _, true. split; [done|]. by apply insert_extend.
    + eexists _, false. split; [done|]. split_and!; [done|..].
      * intros x. rewrite covers_app, covers_cons. split; [tauto|]. intros [?|?]; [done|].
        right; left; lia.
      * split; [done|]. intros (x & ? & Hx). contradict Hx. rewrite covers_app, covers_cons.
        right; left; lia.
    + rewrite (cons_middle (ps, pe) m1 m2), (assoc_L (++)).
      replace (length m1 + 1)%nat with (length (m1 ++ [(ps, pe)])) by (rewrite length_app; cbn; lia).
      rewrite vec_insert_app. eexists _, true. split; [done|].
      apply insert_between; [by rewrite <- (assoc_L (++))|rewrite after_snoc; lia|done].
Qed.

End InsertInterval.

(** * The abstract set *)

(** The invariant: a 32-bit domain, and separated intervals inside it *)
Definition wf_set (s : IntervalSet.t) : Prop :=
  0 ≤ IntervalSet.domain s < 2 ^ 32 ∧
  separated 0 (IntervalSet.domain s) (IntervalSet.map s).

#[export] Instance interval_set_elem_of : ElemOf Z IntervalSet.t :=
  λ x s, covers (IntervalSet.map s) x.

(** The bounds of a range are indices and its end is in the domain. *)
Definition range_ok (dom : Z) (r : RangeBounds Z) : Prop :=
  match start_bound r with
  | Included a => 0 ≤ a < 2 ^ 32 | Excluded a => 0 ≤ a < 2 ^ 32 - 1 | Unbounded => True
  end ∧
  match end_bound r with
  | Included b => 0 ≤ b < dom | Excluded b => 0 ≤ b ≤ dom | Unbounded => True
  end.

(** What the two functions on bounds compute *)
Lemma inclusive_bounds dom r :
  0 ≤ dom < 2 ^ 32 → range_ok dom r →
  0 ≤ IntervalSet.inclusive_start r ∧
  match IntervalSet.inclusive_end dom r with
  | None => ∀ x, ¬ in_range dom r x
  | Some e => e < dom ∧ ∀ x, in_range dom r x ↔ IntervalSet.inclusive_start r ≤ x ≤ e
  end.
Proof.
  unfold range_ok, in_range, IntervalSet.inclusive_start, IntervalSet.inclusive_end.
  intros Hd [Hs He].
  assert (match start_bound r with
    | Included a => wrap 32 a = a | Excluded a => wadd 32 (wrap 32 a) 1 = a + 1
    | Unbounded => True end) as Hw.
  { destruct (start_bound r); [..|done].
    - apply wrap_small. unfold is_uint. lia.
    - rewrite wrap_small by (unfold is_uint; lia). apply wadd_one. lia. }
  split; [destruct (start_bound r); rewrite ?Hw; lia|].
  destruct (end_bound r) as [b|b|]; unfold checked_sub;
    try (destruct (Z.leb_spec 1 b)); try (destruct (Z.leb_spec 1 dom)); cbn;
    rewrite ?wrap_small by (unfold is_uint; lia);
    destruct (start_bound r); rewrite ?Hw; try split; intros; lia.
Qed.

Lemma insert_range_spec s r :
  wf_set s → range_ok (IntervalSet.domain s) r →
  ∃ s' grew, IntervalSet.insert_range s r = Ret (s', grew) ∧
    wf_set s' ∧ IntervalSet.domain s' = IntervalSet.domain s ∧
    (∀ x, x ∈ s' ↔ x ∈ s ∨ in_range (IntervalSet.domain s) r x) ∧
    (grew = true ↔ ∃ x, in_range (IntervalSet.domain s) r x ∧ x ∉ s).
Proof.
  intros [Hd Hm] Hr. destruct (inclusive_bounds _ _ Hd Hr) as [Hs He].
  unfold IntervalSet.insert_range. destruct (IntervalSet.inclusive_end _ r) as [e|].
  2: { exists s, false. split_and!; try done; [intros x; specialize (He x); tauto|]. split; [done|].
       intros (x & Hx & _). by destruct (He x). }
  destruct He as [? He]. set (a := IntervalSet.inclusive_start r) in *.
  destruct (Z.ltb_spec e a).
  - exists s, false. split_and!; try done.
    + intros x. rewrite He. split; [tauto|]. intros [?|?]; [done|lia].
    + split; [done|]. intros (x & Hx%He & _). lia.
  - destruct (insert_interval_spec (IntervalSet.domain s) a e ltac:(lia) ltac:(lia) ltac:(lia)
      (IntervalSet.map s) Hm) as (m' & grew & -> & Hm' & Hc & Hg).
    exists (IntervalSet.with_map s m'), grew. split_and!; try done.
    + intros x. rewrite He. apply Hc.
    + rewrite Hg. split; intros (x & ? & ?); exists x; (split; [by apply He|done]).
Qed.

(** * Searching *)

(** The interval that may hold [c], among those that start up to [c] *)
Lemma covers_split hi m1 m2 c x :
  separated 0 hi (m1 ++ m2) → Forall (λ r, fst r ≤ c) m1 → Forall (λ r, c + 1 ≤ fst r) m2 →
  x ≤ c → covers (m1 ++ m2) x ↔ covers m1 x.
Proof.
  intros [K1 K2]%separated_app _ HF ?. rewrite covers_app. split; [|tauto].
  intros [?|Hx]; [done|].
  apply (covers_bounds _ _ _ _ (separated_raise _ _ _ _ K2 HF)) in Hx. lia.
Qed.

Lemma covers_last hi m1 a b x :
  separated 0 hi (m1 ++ [(a, b)]) → a ≤ x → covers (m1 ++ [(a, b)]) x ↔ x ≤ b.
Proof.
  intros [K1 (? & ? & _)]%separated_app ?. rewrite covers_app, covers_cons. split; [|intros; lia].
  intros [Hx|[?|Hx]]; [|lia|by apply covers_nil in Hx].
  apply (covers_after _ _ _ _ K1) in Hx. lia.
Qed.

(** A search for the last interval that starts up to [c] *)
Lemma search_spec hi m c :
  separated 0 hi m → 0 ≤ c →
  ∃ n, partition_point m (λ r, fst r <=? c) = Ret n ∧
    match n with
    | O => ∀ x, covers m x → c < x
    | S i => ∃ a b, index m i = Ret (a, b) ∧ 0 ≤ a ≤ b ∧ b < hi ∧ a ≤ c ∧
        (∀ x, a ≤ x ≤ c → covers m x ↔ x ≤ b) ∧ ¬ covers m (b + 1) ∧
        (∀ x, a ≤ x ≤ b → covers m x)
    end.
Proof.
  intros Hm Hc. destruct (split_at_end hi m c Hm Hc) as (m1 & m2 & -> & H1 & H2 & ->).
  exists (length m1). split; [done|].
  destruct m1 as [|[a b] m1 _] using rev_ind; cbn [length].
  - intros x Hx. apply (covers_bounds _ _ _ _ (separated_raise _ _ _ _ Hm H2)) in Hx. lia.
  - rewrite length_app, Nat.add_1_r. exists a, b.
    assert (separated 0 hi (m1 ++ [(a, b)])) as K by (by apply separated_app in Hm as [? _]).
    assert (separated 0 hi (m1 ++ (a, b) :: m2)) as K' by (by rewrite <- (assoc_L (++)) in Hm).
    pose proof K as [K1 (? & ? & _)]%separated_app.
    pose proof (after_ge _ _ _ K1). pose proof H1 as [_ Ha%Forall_inv]%Forall_app. cbn in Ha.
    split_and!; try (done || lia).
    + rewrite <- (assoc_L (++)). apply index_app.
    + intros x ?. rewrite (covers_split hi _ _ c) by (done || lia). apply (covers_last hi); [done|lia].
    + rewrite <- (assoc_L (++)). by apply (separated_gap 0 hi).
    + intros x ?. rewrite !covers_app, covers_cons. left; right; left; lia.
Qed.

Lemma contains_spec s x :
  wf_set s → 0 ≤ x < 2 ^ 32 →
  ∃ b, IntervalSet.contains s x = Ret b ∧ (b = true ↔ x ∈ s).
Proof.
  intros [Hd Hm] Hx. unfold IntervalSet.contains. rewrite (wrap_small 32 x) by done.
  destruct (search_spec _ _ x Hm ltac:(lia)) as (n & -> & Hn). cbn [obind].
  destruct n as [|i].
  - exists false. split; [done|]. split; [done|]. intros Hc%Hn. lia.
  - destruct Hn as (a & b & -> & ? & ? & ? & Hc & _). cbn [obind].
    eexists. split; [done|]. unfold elem_of, interval_set_elem_of. rewrite Hc, Z.leb_le by lia. done.
Qed.

(** * Queries on ranges *)

Section Queries.
Context `{Idx}.

Lemma idx_new_ret x : x ≤ idx_max → idx_new x = Ret x.
Proof. intros. unfold idx_new. by rewrite (proj2 (Z.leb_le _ _)). Qed.

Lemma first_unset_in_spec s r :
  wf_set s → IntervalSet.domain s ≤ idx_max → range_ok (IntervalSet.domain s) r →
  ∃ o, IntervalSet.first_unset_in s r = Ret o ∧
    match o with
    | Some x => in_range (IntervalSet.domain s) r x ∧ (x ∉ s) ∧
        ∀ y, in_range (IntervalSet.domain s) r y → y < x → y ∈ s
    | None => ∀ y, in_range (IntervalSet.domain s) r y → y ∈ s
    end.
Proof.
  intros [Hd Hm] Hi Hr. destruct (inclusive_bounds _ _ Hd Hr) as [Hs He].
  unfold IntervalSet.first_unset_in. destruct (IntervalSet.inclusive_end _ r) as [e|].
  2: { exists None. split; [done|]. intros y Hy. by destruct (He y). }
  destruct He as [? He]. set (a := IntervalSet.inclusive_start r) in *.
  destruct (Z.ltb_spec e a).
  { exists None. split; [done|]. intros y Hy%He. lia. }
  destruct (search_spec _ _ a Hm Hs) as (n & -> & Hn). cbn [obind]. destruct n as [|i].
  { rewrite idx_new_ret by lia. exists (Some a). split; [done|]. split_and!.
    - apply He. lia.
    - intros Hx%Hn. lia.
    - intros y Hy%He ?. lia. }
  destruct Hn as (c & b & -> & ? & ? & ? & Hc & Hb & Hin). cbn [obind].
  destruct (Z.ltb_spec b a).
  { rewrite idx_new_ret by lia. exists (Some a). split; [done|]. split_and!.
    - apply He. lia.
    - intros Hx%Hc; lia.
    - intros y Hy%He ?. lia. }
  destruct (Z.ltb_spec b e).
  - rewrite idx_new_ret by lia. exists (Some (b + 1)). split; [done|]. split_and!.
    + apply He. lia.
    + done.
    + intros y Hy%He ?. apply Hin. lia.
  - exists None. split; [done|]. intros y Hy%He. apply Hin. lia.
Qed.

Lemma last_set_in_spec s r :
  wf_set s → IntervalSet.domain s ≤ idx_max → range_ok (IntervalSet.domain s) r →
  ∃ o, IntervalSet.last_set_in s r = Ret o ∧
    match o with
    | Some x => in_range (IntervalSet.domain s) r x ∧ x ∈ s ∧
        ∀ y, in_range (IntervalSet.domain s) r y → x < y → y ∉ s
    | None => ∀ y, in_range (IntervalSet.domain s) r y → y ∉ s
    end.
Proof.
  intros [Hd Hm] Hi Hr. destruct (inclusive_bounds _ _ Hd Hr) as [Hs He].
  unfold IntervalSet.last_set_in. destruct (IntervalSet.inclusive_end _ r) as [e|].
  2: { exists None. split; [done|]. intros y Hy. by destruct (He y). }
  destruct He as [? He]. set (a := IntervalSet.inclusive_start r) in *.
  destruct (Z.ltb_spec e a).
  { exists None. split; [done|]. intros y Hy%He. lia. }
  destruct (search_spec _ _ e Hm ltac:(lia)) as (n & -> & Hn). cbn [obind]. destruct n as [|i].
  { exists None. split; [done|]. intros y Hy%He Hx%Hn. lia. }
  destruct Hn as (c & b & -> & ? & ? & ? & Hc & Hb & Hin). cbn [obind].
  destruct (Z.leb_spec a b).
  - rewrite idx_new_ret by lia. exists (Some (Z.min b e)). split; [done|].
    destruct (decide (a ≤ Z.min b e)); [|lia]. split_and!.
    + apply He. lia.
    + apply Hin. lia.
    + intros y Hy%He ? Hx%Hc; lia.
  - exists None. split; [done|]. intros y Hy%He Hx.
    destruct (decide (c ≤ y)); [|lia]. apply Hc in Hx; lia.
Qed.

(** * Whole sets *)

Lemma insert_all_spec s :
  wf_set s →
  ∃ s', IntervalSet.insert_all s = Ret s' ∧ wf_set s' ∧
    IntervalSet.domain s' = IntervalSet.domain s ∧
    ∀ x, x ∈ s' ↔ 0 ≤ x < IntervalSet.domain s.
Proof.
  intros [Hd Hm]. unfold IntervalSet.insert_all, checked_sub. cbn [IntervalSet.clear IntervalSet.with_map IntervalSet.domain].
  destruct (Z.leb_spec 1 (IntervalSet.domain s)).
  - rewrite (proj2 (Z.ltb_lt _ _)) by lia. cbn [rassert]. eexists. split; [done|].
    split; [split; cbn; lia|split; [done|]].
    intros x. unfold elem_of, interval_set_elem_of. cbn. rewrite covers_cons.
    split; [intros [?|Hx]; [lia|by apply covers_nil in Hx]|lia].
  - eexists. split; [done|]. split; [split; cbn; [lia|done]|split; [done|]].
    intros x. split; [intros Hx; by apply covers_nil in Hx|lia].
Qed.

Lemma interval_range_ret a b : a ≤ b → b < idx_max → IntervalSet.interval_range (a, b) = Ret (a, b + 1).
Proof. intros. unfold IntervalSet.interval_range. cbn. by rewrite !idx_new_ret by lia. Qed.

Lemma union_loop_spec m : ∀ lo s did,
  wf_set s → IntervalSet.domain s ≤ idx_max → 0 ≤ lo → separated lo (IntervalSet.domain s) m →
  ∃ s' grew, IntervalSet.union_loop s m did = Ret (s', grew) ∧
    wf_set s' ∧ IntervalSet.domain s' = IntervalSet.domain s ∧
    (∀ x, x ∈ s' ↔ x ∈ s ∨ covers m x) ∧
    (grew = true ↔ did = true ∨ ∃ x, covers m x ∧ x ∉ s).
Proof.
  induction m as [|[a b] m IH]; intros lo s did Hs Hi Hlo; cbn [separated IntervalSet.union_loop].
  { intros _. exists s, did. split_and!; try done.
    - intros x. split; [tauto|]. intros [?|Hx]; [done|by apply covers_nil in Hx].
    - split; [tauto|]. intros [?|(x & Hx & _)]; [done|by apply covers_nil in Hx]. }
  intros (? & ? & Hm). rewrite interval_range_ret by lia. cbn [obind].
  destruct (insert_range_spec s (range a (b + 1))) as (s1 & g1 & -> & Hs1 & Hd1 & Hx1 & Hg1); [done| |].
  { destruct Hs as [? _]. unfold range_ok. cbn. lia. }
  cbn [obind].
  assert (∀ x, in_range (IntervalSet.domain s) (range a (b + 1)) x ↔ a ≤ x ≤ b) as Hr.
  { intros x. unfold in_range. cbn. lia. }
  destruct (IH (b + 2) s1 (did || g1)) as (s2 & g2 & -> & Hs2 & Hd2 & Hx2 & Hg2); rewrite ?Hd1; try done; [lia|].
  exists s2, g2. rewrite Hd2, Hd1. split_and!; try done.
  - intros x. rewrite Hx2, Hx1, Hr, covers_cons. tauto.
  - rewrite Hg2, orb_true_iff, Hg1. split.
    + intros [[?|(x & ?%Hr & ?)]|(x & ? & Hn)]; [tauto|right; exists x; rewrite covers_cons; tauto|].
      right. exists x. rewrite covers_cons. rewrite Hx1 in Hn. tauto.
    + intros [?|(x & [?|?]%covers_cons & Hn)]; [tauto| |].
      * left; right. exists x. rewrite Hr. tauto.
      * right. exists x. rewrite Hx1, Hr. split; [done|]. intros [?|?]; [done|].
        pose proof (covers_bounds _ _ _ x Hm ltac:(done)). lia.
Qed.

Lemma union_spec s other :
  wf_set s → wf_set other → IntervalSet.domain s = IntervalSet.domain other →
  IntervalSet.domain s ≤ idx_max →
  ∃ s' grew, IntervalSet.union s other = Ret (s', grew) ∧
    wf_set s' ∧ IntervalSet.domain s' = IntervalSet.domain s ∧
    (∀ x, x ∈ s' ↔ x ∈ s ∨ x ∈ other) ∧ (grew = true ↔ ∃ x, x ∈ other ∧ x ∉ s).
Proof.
  intros Hs [_ Ho] Hd Hi. unfold IntervalSet.union.
  rewrite (proj2 (Z.eqb_eq _ _)) by done. cbn [rassert]. rewrite <- Hd in Ho.
  destruct (union_loop_spec (IntervalSet.map other) 0 s false) as (s' & g & -> & ? & ? & Hx & Hg);
    try done.
  exists s', g. split_and!; try done. rewrite Hg. split; [intros [?|?]; [done|]|]; eauto.
Qed.

Lemma iter_intervals_spec hi m : ∀ lo, hi ≤ idx_max → separated lo hi m →
  IntervalSet.iter_intervals_loop m = Ret ((λ '(a, b), (a, b + 1)) <$> m).
Proof.
  induction m as [|[a b] m IH]; intros lo Hi; [done|]. cbn.
  intros (? & ? & Hm). rewrite interval_range_ret by lia. cbn. by rewrite (IH (b + 2)).
Qed.

Lemma iter_spec s :
  wf_set s → IntervalSet.domain s ≤ idx_max →
  ∃ l, IntervalSet.iter s = Ret l ∧ StronglySorted Z.lt l ∧ ∀ x, x ∈ l ↔ x ∈ s.
Proof.
  intros [Hd Hm] Hi. unfold IntervalSet.iter, IntervalSet.iter_intervals.
  rewrite (iter_intervals_spec (IntervalSet.domain s) _ 0) by done. cbn [obind].
  eexists. split; [done|]. unfold elem_of at 2, interval_set_elem_of. revert Hm.
  generalize 0 at 1 as lo. induction (IntervalSet.map s) as [|[a b] m IH]; intros lo.
  { intros _. cbn. split; [constructor|]. intros x. split; intros Hx; [by apply elem_of_nil in Hx|by apply covers_nil in Hx]. }
  intros (? & ? & Hm). cbn. destruct (IH _ Hm) as [Hs Hx]. split.
  - apply StronglySorted_app_2; [|apply seqZ_sorted|done].
    intros x y Hx1%elem_of_seqZ Hy%Hx. apply (covers_bounds _ _ _ _ Hm) in Hy. lia.
  - intros x. rewrite elem_of_app, elem_of_seqZ, covers_cons, Hx. split; intros [?|?]; tauto || lia.
Qed.

(** * Inclusion *)

(** One comparison of [superset]: the interval is behind, holds [c..=d], or
    shows that something of [c..=d] is missing. *)
Lemma superset_contains_spec lo hi a b m c d :
  separated lo hi ((a, b) :: m) → c ≤ d →
  match IntervalSet.superset_contains (a, b + 1) (c, d + 1) with
  | (None, _) => ∀ x, c ≤ x → covers ((a, b) :: m) x ↔ covers m x
  | (Some true, cur) => cur = Some (a, b + 1) ∧ a ≤ c ∧ d ≤ b
  | (Some false, _) => ∃ x, c ≤ x ≤ d ∧ ¬ covers ((a, b) :: m) x
  end.
Proof.
  intros Hm Hcd. pose proof (separated_gap lo hi [] a b m Hm) as [_ Hg]. cbn [app] in Hg.
  destruct Hm as (? & ? & Hm). unfold IntervalSet.superset_contains. cbn [fst snd].
  destruct (Z.ltb_spec (b + 1) c).
  { intros x ?. rewrite covers_cons. split; [intros [?|?]; [lia|done]|tauto]. }
  destruct (Z.leb_spec (d + 1) (b + 1)), (Z.leb_spec a c); cbn [andb]; try (split_and!; done || lia).
  2: { exists (b + 1). split; [lia|done]. }
  all: exists c; split; [lia|]; rewrite covers_cons; intros [?|Hc]; [lia|].
  all: apply (covers_bounds _ _ _ _ Hm) in Hc; lia.
Qed.

Lemma superset_find_map_spec hi c d m : ∀ lo,
  separated lo hi m → hi ≤ idx_max → c ≤ d →
  ∃ answer cur rest, IntervalSet.superset_find_map m (c, d + 1) = Ret (answer, cur, rest) ∧
    match answer with
    | Some true => ∃ a b, cur = Some (a, b + 1) ∧ a ≤ c ∧ d ≤ b ∧ separated lo hi ((a, b) :: rest) ∧
        ∀ x, c ≤ x → covers m x ↔ covers ((a, b) :: rest) x
    | _ => ∃ x, c ≤ x ≤ d ∧ ¬ covers m x
    end.
Proof.
  induction m as [|[a b] m IH]; intros lo Hm Hi Hcd; cbn [IntervalSet.superset_find_map].
  { eexists None, None, []. split; [done|]. exists c. split; [lia|apply covers_nil]. }
  pose proof (superset_contains_spec lo hi a b m c d Hm Hcd) as Hs.
  pose proof Hm as (? & ? & Hm'). rewrite interval_range_ret by lia. cbn [obind].
  destruct (IntervalSet.superset_contains (a, b + 1) (c, d + 1)) as [[[]|] cur].
  - destruct Hs as (-> & ? & ?). eexists (Some true), _, m. split; [done|].
    exists a, b. split_and!; done.
  - eexists (Some false), _, m. split; [done|]. done.
  - destruct (IH (b + 2) Hm' Hi Hcd) as (answer & cur' & rest & -> & Hr).
    exists answer, cur', rest. split; [done|]. destruct answer as [[]|].
    + destruct Hr as (a' & b' & ? & ? & ? & Hr & Hx). exists a', b'. split_and!; try done.
      * apply (separated_lower _ (b + 2)); [lia|done].
      * intros x ?. rewrite Hs by done. by apply Hx.
    + destruct Hr as (x & ? & ?). exists x. rewrite Hs by lia. done.
    + destruct Hr as (x & ? & ?). exists x. rewrite Hs by lia. done.
Qed.

(** The intervals the loop may still use: the saved one and the rest *)
Definition sup_left (current : option (Z * Z)) (m : list (Z * Z)) : list (Z * Z) :=
  match current with Some (a, e) => (a, e - 1) :: m | None => m end.

Lemma superset_loop_spec hi other : ∀ lo lo' current m,
  separated lo hi (sup_left current m) → separated lo' hi other → hi ≤ idx_max →
  ∃ b, IntervalSet.superset_loop current m other = Ret b ∧
    (b = true ↔ ∀ x, covers other x → covers (sup_left current m) x).
Proof.
  induction other as [|[c d] other IH]; intros lo lo' current m Hm Ho Hi;
    cbn [IntervalSet.superset_loop].
  { exists true. split; [done|]. split; [|done]. intros _ x Hx. by apply covers_nil in Hx. }
  destruct Ho as (? & ? & Ho). rewrite interval_range_ret by lia. cbn [obind].
  (* a missing index answers no *)
  assert (∀ M : list (Z * Z), (∃ x, c ≤ x ≤ d ∧ ¬ covers M x) →
    false = true ↔ ∀ x, covers ((c, d) :: other) x → covers M x) as Hno.
  { intros M (x & ? & Hx). split; [done|]. intros Hall. destruct Hx. apply Hall, covers_cons. lia. }
  (* an interval that holds [c..=d] is kept, and what is before [c] is not needed *)
  assert (∀ M a b rest, separated lo hi ((a, b) :: rest) → a ≤ c → d ≤ b →
    (∀ x, c ≤ x → covers M x ↔ covers ((a, b) :: rest) x) →
    ∃ r, IntervalSet.superset_loop (Some (a, b + 1)) rest other = Ret r ∧
      (r = true ↔ ∀ x, covers ((c, d) :: other) x → covers M x)) as Hyes.
  { intros M a b rest Hr ? ? Hx.
    assert (sup_left (Some (a, b + 1)) rest = (a, b) :: rest) as E by (cbn; do 2 f_equal; lia).
    destruct (IH lo (d + 2) (Some (a, b + 1)) rest) as (r & -> & Hb); rewrite ?E; try done.
    rewrite E in Hb. exists r. split; [done|]. rewrite Hb. split; intros Hall x.
    - intros [?|Hc]%covers_cons; apply Hx; [lia|apply covers_cons; lia| |by apply Hall].
      apply (covers_bounds _ _ _ _ Ho) in Hc. lia.
    - intros Hc. apply Hx; [apply (covers_bounds _ _ _ _ Ho) in Hc; lia|].
      apply Hall, covers_cons. by right. }
  (* the search in the rest, when the saved interval is behind *)
  assert (∀ M, separated lo hi m → (∀ x, c ≤ x → covers M x ↔ covers m x) →
    ∃ r, (let! (answer, cur, rest) := IntervalSet.superset_find_map m (c, d + 1) in
      match answer with
      | Some true => IntervalSet.superset_loop cur rest other
      | _ => Ret false
      end) = Ret r ∧
      (r = true ↔ ∀ x, covers ((c, d) :: other) x → covers M x)) as Hfind.
  { intros M Hmm Hx. destruct (superset_find_map_spec hi c d m lo) as (answer & cur & rest & -> & Hr);
      [done..|lia|]. cbn [obind].
    assert (answer ≠ Some true → ∃ x, c ≤ x ≤ d ∧ ¬ covers M x) as Hmiss.
    { intros Hne. destruct answer as [[]|]; [done|..]; destruct Hr as (x & ? & Hc);
        exists x; rewrite Hx by lia; done. }
    destruct answer as [[]|].
    - destruct Hr as (a & b & -> & ? & ? & Hr & Hx'). apply (Hyes M a b); [done..|].
      intros x ?. rewrite Hx by done. by apply Hx'.
    - exists false. split; [done|]. by apply Hno, Hmiss.
    - exists false. split; [done|]. by apply Hno, Hmiss. }
  destruct current as [[a e]|]; [|by apply Hfind].
  cbn [sup_left] in Hm |- *. replace (a, e) with (a, e - 1 + 1) by (f_equal; lia).
  pose proof (superset_contains_spec lo hi a (e - 1) m c d Hm ltac:(lia)) as Hs.
  destruct (IntervalSet.superset_contains (a, e - 1 + 1) (c, d + 1)) as [[[]|] cur].
  - destruct Hs as (-> & ? & ?). by apply Hyes.
  - exists false. split; [done|]. by apply Hno.
  - apply Hfind; [|done]. destruct Hm as (? & ? & Hm). apply (separated_lower _ (e - 1 + 2)); [lia|done].
Qed.

Lemma superset_spec s other :
  wf_set s → wf_set other → IntervalSet.domain s = IntervalSet.domain other →
  IntervalSet.domain s ≤ idx_max →
  ∃ b, IntervalSet.superset s other = Ret b ∧ (b = true ↔ ∀ x, x ∈ other → x ∈ s).
Proof.
  intros [_ Hs] [_ Ho] Hd Hi. rewrite <- Hd in Ho.
  by apply (superset_loop_spec (IntervalSet.domain s) _ 0 0 None).
Qed.

End Queries.

(** * Canonicity and the dynamic check *)

Lemma separated_ext hi m1 : ∀ m2 lo lo',
  separated lo hi m1 → separated lo' hi m2 → (∀ x, covers m1 x ↔ covers m2 x) → m1 = m2.
Proof.
  induction m1 as [|[a b] m1 IH]; intros [|[c d] m2] lo lo' H1 H2 Hx.
  - done.
  - destruct H2 as (? & _). destruct (covers_nil c). apply Hx, covers_cons. lia.
  - destruct H1 as (? & _). destruct (covers_nil a). apply Hx, covers_cons. lia.
  - pose proof (separated_gap lo hi [] a b m1 H1) as [_ Hb]. cbn [app] in Hb.
    pose proof (separated_gap lo' hi [] c d m2 H2) as [_ Hd]. cbn [app] in Hd.
    rewrite Hx, covers_cons in Hb. rewrite <- Hx, covers_cons in Hd.
    destruct H1 as (? & ? & H1), H2 as (? & ? & H2).
    assert (covers ((a, b) :: m1) c) as Hc by (apply Hx, covers_cons; lia).
    assert (covers ((c, d) :: m2) a) as Ha by (apply Hx, covers_cons; lia).
    assert (a = c) as <-.
    { apply covers_cons in Hc, Ha. destruct Hc as [?|Hc], Ha as [?|Ha]; try lia.
      - apply (covers_bounds _ _ _ _ H2) in Ha. lia.
      - apply (covers_bounds _ _ _ _ H1) in Hc. lia.
      - apply (covers_bounds _ _ _ _ H1) in Hc. apply (covers_bounds _ _ _ _ H2) in Ha. lia. }
    assert (b = d) as <- by lia.
    f_equal. apply (IH _ (b + 2) (b + 2)); [done..|]. intros x. specialize (Hx x).
    rewrite !covers_cons in Hx. split; intros Hcx; pose proof Hcx as Hc'.
    + apply (covers_bounds _ _ _ _ H1) in Hc'. destruct Hx as [Hx _]. destruct Hx; [tauto|lia|done].
    + apply (covers_bounds _ _ _ _ H2) in Hc'. destruct Hx as [_ Hx]. destruct Hx; [tauto|lia|done].
Qed.

(** [check_invariants] decides the invariant for intervals of [u32] that do not
    end at [u32::MAX], where its [x + 1] would overflow. *)
Lemma check_loop_spec dom m : ∀ current,
  0 ≤ dom < 2 ^ 32 →
  Forall (λ r, 0 ≤ fst r ∧ 0 ≤ snd r < 2 ^ 32 - 1) m →
  match current with Some x => 0 ≤ x < 2 ^ 32 - 1 | None => True end →
  IntervalSet.check_loop current m dom = true ↔
  (match current with Some x => m = [] → x < dom | None => True end) ∧
  separated (match current with Some x => x + 2 | None => 0 end) dom m.
Proof.
  induction m as [|[a b] m IH]; intros current Hd Hm Hx; cbn [IntervalSet.check_loop separated].
  { destruct current as [x|]; [|done]. rewrite wrap_small by (unfold is_uint; lia).
    rewrite Z.ltb_lt. tauto. }
  inversion Hm as [|? ? [Ha Hb] Hm']; subst. cbn in Ha, Hb.
  assert (∀ c, (if (b <? a) || c then false else IntervalSet.check_loop (Some b) m dom) = true ↔
    a ≤ b ∧ c = false ∧ (m = [] → b < dom) ∧ separated (b + 2) dom m) as Hc.
  { intros c. rewrite <- (IH (Some b)) by done.
    destruct (Z.ltb_spec b a), c; cbn; (split; [done || (intros; split_and!; done)|]);
      intros (? & ? & ?); done || lia. }
  rewrite Hc.
  assert ((m = [] → b < dom) ∧ separated (b + 2) dom m ↔ b < dom ∧ separated (b + 2) dom m) as ->.
  { split; intros [? Hs]; (split; [|done]); [|done]. destruct m as [|[c d] m]; [auto|].
    destruct Hs. lia. }
  destruct current as [x|]; [rewrite wadd_one, Z.leb_gt by lia|]; split; intros; split_and!;
    try done; try tauto; try lia.
Qed.

Lemma check_invariants_spec s :
  0 ≤ IntervalSet.domain s < 2 ^ 32 →
  Forall (λ r, 0 ≤ fst r ∧ 0 ≤ snd r < 2 ^ 32 - 1) (IntervalSet.map s) →
  IntervalSet.check_invariants s = true ↔ wf_set s.
Proof.
  intros Hd Hm. unfold IntervalSet.check_invariants. rewrite (check_loop_spec _ _ None) by done.
  unfold wf_set. tauto.
Qed.

Lemma wf_check_invariants s : wf_set s → IntervalSet.check_invariants s = true.
Proof.
  intros Hw. pose proof Hw as [Hd Hm%separated_forall]. apply check_invariants_spec; [done| |done].
  eapply List.Forall_impl; [|exact Hm]. cbn. lia.
Qed.

Lemma wf_new dom : 0 ≤ dom < 2 ^ 32 → wf_set (IntervalSet.new dom).
Proof. done. Qed.

(** * Matrices *)

Module Matrix := SparseIntervalMatrix.

(** Every row is a set over the columns. *)
Definition wf_matrix (m : Matrix.t) : Prop :=
  0 ≤ Matrix.column_size m < 2 ^ 32 ∧
  Forall (λ s, wf_set s ∧ IntervalSet.domain s = Matrix.column_size m) (Matrix.rows m).

(** The pairs of the relation a matrix stands for *)
Definition mem (m : Matrix.t) (r : nat) (x : Z) : Prop :=
  ∃ s, Matrix.row m r = Some s ∧ x ∈ s.

Section MatrixProps.
Context `{Idx}.

(** [ensure_row] adds empty rows only. *)
Lemma ensure_row_spec m r :
  wf_matrix m →
  ∃ m' s, Matrix.ensure_row m r = Ret (m', s) ∧ wf_matrix m' ∧
    Matrix.column_size m' = Matrix.column_size m ∧ Matrix.row m' r = Some s ∧
    wf_set s ∧ IntervalSet.domain s = Matrix.column_size m ∧
    (length (Matrix.rows m) ≤ length (Matrix.rows m'))%nat ∧
    ∀ r' x, mem m' r' x ↔ mem m r' x.
Proof.
  intros [Hc Hr]. unfold Matrix.ensure_row, ensure_contains_elem.
  set (fill := IntervalSet.new (Matrix.column_size m)).
  set (v := if (_ <? _)%nat then _ else _).
  assert (∃ k, v = Matrix.rows m ++ replicate k fill) as [k Hv].
  { unfold v. case_match; eauto. exists 0%nat. by rewrite app_nil_r. }
  assert (r < length v)%nat as Hl.
  { unfold v. destruct (Nat.ltb_spec (length (Matrix.rows m)) (r + 1));
      rewrite ?length_app, ?length_replicate; lia. }
  apply lookup_lt_is_Some_2 in Hl as [s Hs]. unfold index. rewrite Hs. cbn [unwrap obind].
  assert (Forall (λ s, wf_set s ∧ IntervalSet.domain s = Matrix.column_size m) v) as Hf.
  { rewrite Hv. apply Forall_app. split; [done|]. apply Forall_replicate. done. }
  exists (Matrix.with_rows m v), s. split_and!; try done.
  - rewrite list.Forall_forall in Hf. by apply (Hf s), list_elem_of_lookup_2 with r.
  - rewrite list.Forall_forall in Hf. by apply (Hf s), list_elem_of_lookup_2 with r.
  - cbn. rewrite Hv, length_app. lia.
  - intros r' x. unfold mem, Matrix.row. cbn. rewrite Hv. split; intros (s' & Hs' & Hx).
    + apply lookup_app_Some in Hs' as [?|[_ Hs']]; [eauto|].
      apply lookup_replicate in Hs' as [-> _]. by apply covers_nil in Hx.
    + exists s'. split; [by apply lookup_app_l_Some|done].
Qed.

(** Replacing a row *)
Lemma set_row_spec m r s0 s :
  wf_matrix m → Matrix.row m r = Some s0 → wf_set s →
  IntervalSet.domain s = Matrix.column_size m →
  wf_matrix (Matrix.with_rows m (<[r := s]> (Matrix.rows m))) ∧
  ∀ r' x, mem (Matrix.with_rows m (<[r := s]> (Matrix.rows m))) r' x ↔
    if decide (r' = r) then x ∈ s else mem m r' x.
Proof.
  unfold Matrix.row. intros [Hc Hr] H0 Hs Hd. split.
  - split; [done|]. cbn. apply Forall_insert; done.
  - intros r' x. unfold mem, Matrix.row. cbn. destruct (decide (r' = r)) as [->|Hne].
    + rewrite list_lookup_insert_eq by (by eapply lookup_lt_Some).
      split; [intros (? & [= <-] & ?); done|eauto].
    + by rewrite list_lookup_insert_ne by done.
Qed.

(** An operation on a row, from its effect on the row's set *)
Lemma update_row_spec {A} m r (f : IntervalSet.t → outcome (IntervalSet.t * A))
    (P : IntervalSet.t → IntervalSet.t → A → Prop) :
  wf_matrix m →
  (∀ s, wf_set s → IntervalSet.domain s = Matrix.column_size m →
    ∃ s' a, f s = Ret (s', a) ∧ wf_set s' ∧ IntervalSet.domain s' = IntervalSet.domain s ∧ P s s' a) →
  ∃ m' a s s', Matrix.update_row m r f = Ret (m', a) ∧ wf_matrix m' ∧
    Matrix.column_size m' = Matrix.column_size m ∧ P s s' a ∧
    (∀ x, x ∈ s ↔ mem m r x) ∧
    (∀ r' x, mem m' r' x ↔ if decide (r' = r) then x ∈ s' else mem m r' x).
Proof.
  intros Hm Hf. unfold Matrix.update_row.
  destruct (ensure_row_spec m r Hm) as (m1 & s & -> & Hm1 & Hc1 & Hr & Hs & Hd & _ & Hx). cbn [obind].
  destruct (Hf s Hs Hd) as (s' & a & -> & Hs' & Hd' & HP). cbn [obind].
  destruct (set_row_spec m1 r s s' Hm1 Hr Hs' ltac:(congruence)) as [Hw Hin].
  eexists _, a, s, s'. split; [done|]. split; [done|]. split; [done|]. split; [done|]. split.
  - intros x. rewrite <- Hx. unfold mem. rewrite Hr. split; [eauto|intros (? & [= <-] & ?); done].
  - intros r' x. rewrite Hin. case_decide; [done|apply Hx].
Qed.

(** [union_rows] adds row [read] to row [write] and nothing else. *)
Lemma union_rows_spec m read write :
  wf_matrix m → Matrix.column_size m ≤ idx_max →
  ∃ m' grew, Matrix.union_rows m read write = Ret (m', grew) ∧ wf_matrix m' ∧
    (∀ r x, mem m' r x ↔ mem m r x ∨ r = write ∧ mem m read x) ∧
    (grew = true ↔ ∃ x, mem m read x ∧ ¬ mem m write x).
Proof.
  intros Hm Hi. unfold Matrix.union_rows. destruct (Nat.eqb_spec read write) as [<-|Hne].
  { exists m, false. split_and!; try done; [intros r x; split; [tauto|]|].
    - intros [?|[-> ?]]; done.
    - split; [done|]. intros (? & ? & ?). done. }
  destruct (Matrix.rows m !! read) as [sr|] eqn:Er.
  2: { cbn. exists m, false. split_and!; try done; [intros r x; split; [tauto|]|].
       - intros [?|[_ (s & Hs & _)]]; [done|]. unfold Matrix.row in Hs. congruence.
       - split; [done|]. intros (x & (s & Hs & _) & _). unfold Matrix.row in Hs. congruence. }
  rewrite bool_decide_eq_false_2 by done. cbn [orb].
  destruct (ensure_row_spec m write Hm) as (m1 & sw & -> & Hm1 & Hc1 & Hw & Hsw & Hdw & Hlen & Hx).
  cbn [obind].
  assert (∃ sr', Matrix.rows m1 !! read = Some sr') as [sr' Hr'].
  { apply lookup_lt_is_Some_2. apply lookup_lt_Some in Er. lia. }
  assert (pick2_mut (Matrix.rows m1) read write = Ret (sr', sw)) as ->.
  { unfold Matrix.row in Hw. by apply pick2_mut_ret. }
  cbn [obind].
  assert (wf_set sr' ∧ IntervalSet.domain sr' = Matrix.column_size m1) as [Hsr Hdr].
  { destruct Hm1 as [_ Hf]. rewrite list.Forall_forall in Hf.
    by apply Hf, list_elem_of_lookup_2 with read. }
  destruct (union_spec sw sr') as (s' & g & -> & Hs' & Hd' & Hin & Hg); [done|done|congruence|lia|].
  cbn [obind].
  destruct (set_row_spec m1 write sw s' Hm1 Hw Hs' ltac:(congruence)) as [Hmw Hmem].
  assert (∀ x, x ∈ sw ↔ mem m write x) as E1.
  { intros x. rewrite <- Hx. unfold mem. rewrite Hw. split; [eauto|intros (? & [= <-] & ?); done]. }
  assert (∀ x, x ∈ sr' ↔ mem m read x) as E2.
  { intros x. rewrite <- Hx. unfold mem, Matrix.row. rewrite Hr'.
    split; [eauto|intros (? & [= <-] & ?); done]. }
  eexists _, g. split; [done|]. split; [done|]. split.
  - intros r x. rewrite Hmem. case_decide as Hrw.
    + subst r. rewrite Hin, E1, E2. tauto.
    + rewrite Hx. tauto.
  - rewrite Hg. split; intros (x & Hx1 & Hx2); exists x.
    + by rewrite <- E1, <- E2.
    + by rewrite E1, E2.
Qed.

End MatrixProps.
