(* ===== verification/BitSets.v ===== *)
(** * Bit sets

    [compiler/rustc_index/src/bit_set.rs]: dense sets of indices as [u64] words
    ([BitSet]) with their iterator, sorted arrays of up to eight indices
    ([SparseBitSet]), the sets that switch between the two ([HybridBitSet]),
    growing sets and sets in one machine integer.  Elements and words are [Z],
    positions of words [nat].  An iterator is the list of its items; updates
    return the new set with the answer of the method. *)

From S2P Require Import Prelude.
From S2P Require Import Slice.

Definition WORD_BITS : Z := 64.
Definition CHUNK_WORDS : Z := 32.
Definition CHUNK_BITS : Z := CHUNK_WORDS * WORD_BITS.

(** [for x in l { .. }] with a state *)
Fixpoint fold_outcome {A B} (f : B → A → outcome B) (l : list A) (b : B) : outcome B :=
  match l with
  | [] => Ret b
  | x :: l => let! b := f b x in fold_outcome f l b
  end.

Definition num_words (domain_size : Z) : nat :=
  Z.to_nat (wsub 64 (wadd 64 domain_size WORD_BITS) 1 / WORD_BITS).

Definition word_index_and_mask (elem : Z) : nat * Z :=
  (Z.to_nat (elem / WORD_BITS), wshl 64 1 (elem mod WORD_BITS)).

Definition clear_excess_bits_in_final_word (domain_size : Z) (words : list Z) : outcome (list Z) :=
  let num_bits_in_final_word := domain_size mod WORD_BITS in
  if 0 <? num_bits_in_final_word then
    let mask := wsub 64 (wshl 64 1 num_bits_in_final_word) 1 in
    let! w := index words (length words - 1) in
    index_set words (length words - 1) (Z.land w mask)
  else Ret words.

Definition leading_zeros (word : Z) : Z := if word =? 0 then 64 else 63 - Z.log2 word.

Definition max_bit (word : Z) : Z := wsub 64 (WORD_BITS - 1) (leading_zeros word).

Definition inclusive_start_end (r : RangeBounds Z) (domain : Z) : outcome (option (Z * Z)) :=
  let start := match start_bound r with
    | Included start => start | Excluded start => wadd 64 start 1 | Unbounded => 0 end in
  let end_ := match end_bound r with
    | Included end_ => Some end_
    | Excluded end_ => checked_sub end_ 1
    | Unbounded => Some (wsub 64 domain 1) end in
  match end_ with
  | None => Ret None
  | Some end_ =>
      rassert (end_ <? domain)
        (if end_ <? start then Ret None else Ret (Some (start, end_)))
  end.

(** [bitwise]: the words after the operation, and the bits that changed *)
Fixpoint bitwise_loop (op : Z → Z → Z) (out_vec in_vec : list Z) (changed : Z) : list Z * Z :=
  match out_vec, in_vec with
  | old_val :: out_vec, in_elem :: in_vec =>
      let new_val := op old_val in_elem in
      let (ws, c) := bitwise_loop op out_vec in_vec (Z.lor changed (Z.lxor old_val new_val)) in
      (new_val :: ws, c)
  | _, _ => (out_vec, changed)
  end.

Definition bitwise (op : Z → Z → Z) (out_vec in_vec : list Z) : outcome (list Z * bool) :=
  rassert (length out_vec =? length in_vec)%nat
    (let (ws, changed) := bitwise_loop op out_vec in_vec 0 in Ret (ws, negb (changed =? 0))).

Fixpoint bitwise_changes_loop (op : Z → Z → Z) (out_vec in_vec : list Z) : bool :=
  match out_vec, in_vec with
  | old_val :: out_vec, in_elem :: in_vec =>
      if negb (old_val =? op old_val in_elem) then true
      else bitwise_changes_loop op out_vec in_vec
  | _, _ => false
  end.

Definition bitwise_changes (op : Z → Z → Z) (out_vec in_vec : list Z) : outcome bool :=
  rassert (length out_vec =? length in_vec)%nat (Ret (bitwise_changes_loop op out_vec in_vec)).

(** [iter.position(p)] and [iter.rposition(p)] *)
Fixpoint position {A} (p : A → bool) (l : list A) : option nat :=
  match l with
  | [] => None
  | x :: l => if p x then Some 0%nat else S <$> position p l
  end.
Fixpoint rposition {A} (p : A → bool) (l : list A) : option nat :=
  match l with
  | [] => None
  | x :: l =>
      match rposition p l with
      | Some i => Some (S i)
      | None => if p x then Some 0%nat else None
      end
  end.

(** [self_update(elem) | changed] over the items of an iterator *)
Definition sequential_update {S} (self_update : S → Z → outcome (S * bool)) (s : S) (it : list Z)
    : outcome (S * bool) :=
  fold_outcome (λ '(s, changed) elem,
    let! (s, b) := self_update s elem in Ret (s, b || changed)) it (s, false).

Module BitIter.

Record t : Type := { word : Z; offset : Z; iter : list Z }.

Definition new (words : list Z) : t :=
  {| word := 0; offset := umax 64 - (WORD_BITS - 1); iter := words |}.

Section WithIdx.
Context `{Idx}.

(** The item from a word that is not zero *)
Definition take_bit (word offset : Z) (iter : list Z) : outcome (Z * t) :=
  let bit_pos := trailing_zeros 64 word in
  let bit := wshl 64 1 bit_pos in
  let! i := idx_new (wadd 64 bit_pos offset) in
  Ret (i, {| word := Z.lxor word bit; offset := offset; iter := iter |}).

Fixpoint next_loop (word offset : Z) (iter : list Z) : outcome (option (Z * t)) :=
  if negb (word =? 0) then let! r := take_bit word offset iter in Ret (Some r)
  else
    match iter with
    | [] => Ret None
    | word :: iter => next_loop word (wadd 64 offset WORD_BITS) iter
    end.

Definition next (it : t) : outcome (option (Z * t)) := next_loop (word it) (offset it) (iter it).

(** All items *)
Fixpoint collect_loop (fuel : nat) (it : t) : outcome (list Z) :=
  match fuel with
  | O => Panic
  | S fuel =>
      let! o := next it in
      match o with
      | None => Ret []
      | Some (x, it) => let! xs := collect_loop fuel it in Ret (x :: xs)
      end
  end.

Definition collect (words : list Z) : outcome (list Z) :=
  collect_loop (S (64 * length words)) (new words).

End WithIdx.

End BitIter.

Module BitSet.

Record t : Type := { domain_size : Z; words : list Z }.

Definition with_words (s : t) (ws : list Z) : t := {| domain_size := domain_size s; words := ws |}.

Definition new_empty (dom : Z) : t := {| domain_size := dom; words := replicate (num_words dom) 0 |}.

Definition clear_excess_bits (s : t) : outcome t :=
  let! ws := clear_excess_bits_in_final_word (domain_size s) (words s) in Ret (with_words s ws).

Definition new_filled (dom : Z) : outcome t :=
  clear_excess_bits {| domain_size := dom; words := replicate (num_words dom) (wnot 64 0) |}.

Definition clear (s : t) : t := with_words s (replicate (length (words s)) 0).

Definition count (s : t) : Z := foldr Z.add 0 (count_ones <$> words s).

Definition contains (s : t) (elem : Z) : outcome bool :=
  rassert (elem <? domain_size s)
    (let (word_index, mask) := word_index_and_mask elem in
     let! w := index (words s) word_index in Ret (negb (Z.land w mask =? 0))).

Definition superset (s other : t) : outcome bool :=
  rassert (domain_size s =? domain_size other)
    (Ret (forallb (λ p, Z.land (fst p) (snd p) =? snd p) (zip (words s) (words other)))).

Definition is_empty (s : t) : bool := forallb (λ a, a =? 0) (words s).

(** [*word_ref = f(word)] at the word of [elem], and whether it changed *)
Definition update_word (s : t) (elem : Z) (f : Z → Z → Z) : outcome (t * bool) :=
  rassert (elem <? domain_size s)
    (let (word_index, mask) := word_index_and_mask elem in
     let! word := index (words s) word_index in
     let new_word := f word mask in
     let! ws := index_set (words s) word_index new_word in
     Ret (with_words s ws, negb (new_word =? word))).

Definition insert (s : t) (elem : Z) : outcome (t * bool) := update_word s elem Z.lor.

Definition remove (s : t) (elem : Z) : outcome (t * bool) :=
  update_word s elem (λ word mask, Z.land word (wnot 64 mask)).

(** [words[i] |= bits] *)
Definition or_word (ws : list Z) (i : nat) (bits : Z) : outcome (list Z) :=
  let! w := index ws i in index_set ws i (Z.lor w bits).

(** The words with the bits of [start..=end_] set *)
Definition fill_range (ws : list Z) (start end_ : Z) : outcome (list Z) :=
  let (start_word_index, start_mask) := word_index_and_mask start in
  let (end_word_index, end_mask) := word_index_and_mask end_ in
  let! ws := fold_outcome (λ ws i, index_set ws i (wnot 64 0))
    (seq (start_word_index + 1) (end_word_index - (start_word_index + 1))) ws in
  if negb (start_word_index =? end_word_index)%nat then
    let! ws := or_word ws start_word_index (wnot 64 (wsub 64 start_mask 1)) in
    or_word ws end_word_index (Z.lor end_mask (wsub 64 end_mask 1))
  else or_word ws start_word_index (Z.lor end_mask (wsub 64 end_mask start_mask)).

Definition insert_range (s : t) (elems : RangeBounds Z) : outcome t :=
  let! o := inclusive_start_end elems (domain_size s) in
  match o with
  | None => Ret s
  | Some (start, end_) => let! ws := fill_range (words s) start end_ in Ret (with_words s ws)
  end.

Definition insert_all (s : t) : outcome t :=
  clear_excess_bits (with_words s (replicate (length (words s)) (wnot 64 0))).

Definition union (s other : t) : outcome (t * bool) :=
  rassert (domain_size s =? domain_size other)
    (let! (ws, c) := bitwise Z.lor (words s) (words other) in Ret (with_words s ws, c)).

Definition subtract (s other : t) : outcome (t * bool) :=
  rassert (domain_size s =? domain_size other)
    (let! (ws, c) := bitwise (λ a b, Z.land a (wnot 64 b)) (words s) (words other) in
     Ret (with_words s ws, c)).

Definition intersect (s other : t) : outcome (t * bool) :=
  rassert (domain_size s =? domain_size other)
    (let! (ws, c) := bitwise Z.land (words s) (words other) in Ret (with_words s ws, c)).

(** [clone_from] *)
Definition clone_from (s from : t) : t := {| domain_size := domain_size from; words := words from |}.

Section WithIdx.
Context `{Idx}.

Definition iter (s : t) : outcome (list Z) := BitIter.collect (words s).

(** The greatest element of [start..=end_] *)
Definition last_set_between (s : t) (start end_ : Z) : outcome (option Z) :=
  let (start_word_index, _) := word_index_and_mask start in
  let (end_word_index, end_mask) := word_index_and_mask end_ in
  let! w := index (words s) end_word_index in
  let end_word := Z.land w (Z.lor end_mask (wsub 64 end_mask 1)) in
  let pos := max_bit end_word + WORD_BITS * Z.of_nat end_word_index in
  if negb (end_word =? 0) && (start <=? pos) then let! i := idx_new pos in Ret (Some i)
  else
    let! ws := subslice (words s) start_word_index end_word_index in
    match rposition (λ w, negb (w =? 0)) ws with
    | Some offset =>
        let word_idx := (start_word_index + offset)%nat in
        let! start_word := index (words s) word_idx in
        let pos := max_bit start_word + WORD_BITS * Z.of_nat word_idx in
        if start <=? pos then let! i := idx_new pos in Ret (Some i) else Ret None
    | None => Ret None
    end.

Definition last_set_in (s : t) (r : RangeBounds Z) : outcome (option Z) :=
  let! o := inclusive_start_end r (domain_size s) in
  match o with
  | None => Ret None
  | Some (start, end_) => last_set_between s start end_
  end.

End WithIdx.

End BitSet.

(** [arrayvec::ArrayVec<T, CAP>], seen through its slice of elements: what the
    sparse sets call of it. *)
Class ArrayVecApi : Type := {
  av_push : nat → list Z → Z → outcome (list Z);
  av_insert : nat → list Z → nat → Z → outcome (list Z);
  av_remove : list Z → nat → outcome (list Z);
  av_retain : list Z → (Z → outcome bool) → outcome (list Z);
}.

(** The elements a predicate that may panic is true of *)
Fixpoint filter_outcome (p : Z → outcome bool) (l : list Z) : outcome (list Z) :=
  match l with
  | [] => Ret []
  | x :: l =>
      let! b := p x in
      let! l := filter_outcome p l in
      Ret (if b then x :: l else l)
  end.

(** Its documented behaviour, below the capacity and in bounds *)
Class ArrayVecLaws (A : ArrayVecApi) : Prop := {
  av_push_law cap v x : (length v < cap)%nat → av_push cap v x = Ret (v ++ [x]);
  av_insert_law cap v i x : (length v < cap)%nat → (i ≤ length v)%nat →
    av_insert cap v i x = Ret (take i v ++ x :: drop i v);
  av_remove_law v i : (i < length v)%nat → av_remove v i = Ret (take i v ++ drop (S i) v);
  av_retain_law v p : av_retain v p = filter_outcome p v;
}.

Definition SPARSE_MAX : nat := 8.

Module SparseBitSet.

Record t : Type := { domain_size : Z; elems : list Z }.

Definition with_elems (s : t) (es : list Z) : t := {| domain_size := domain_size s; elems := es |}.

Definition new_empty (dom : Z) : t := {| domain_size := dom; elems := [] |}.

Definition len (s : t) : nat := length (elems s).

Definition is_empty (s : t) : bool := (len s =? 0)%nat.

Definition contains (s : t) (elem : Z) : outcome bool :=
  rassert (elem <? domain_size s) (Ret (existsb (Z.eqb elem) (elems s))).

Definition iter (s : t) : list Z := elems s.

(** [to_dense] inserts the elements into an empty dense set. *)
Definition to_dense (s : t) : outcome BitSet.t :=
  fold_outcome (λ dense elem, let! (dense, _) := BitSet.insert dense elem in Ret dense)
    (elems s) (BitSet.new_empty (domain_size s)).

(** [RangeBounds::contains] *)
Definition range_contains (r : RangeBounds Z) (x : Z) : bool :=
  (match start_bound r with Included a => a <=? x | Excluded a => a <? x | Unbounded => true end) &&
  (match end_bound r with Included b => x <=? b | Excluded b => x <? b | Unbounded => true end).

Definition last_set_in (s : t) (r : RangeBounds Z) : option Z :=
  fold_left (λ last_leq e, if range_contains r e then Some e else last_leq) (iter s) None.

Section WithArrayVec.
Context `{ArrayVecApi}.

Definition insert (s : t) (elem : Z) : outcome (t * bool) :=
  rassert (elem <? domain_size s)
    (let! (es, changed) :=
       match position (λ e, elem <=? e) (elems s) with
       | Some i =>
           let! e := index (elems s) i in
           if e =? elem then Ret (elems s, false)
           else let! es := av_insert SPARSE_MAX (elems s) i elem in Ret (es, true)
       | None => let! es := av_push SPARSE_MAX (elems s) elem in Ret (es, true)
       end in
     rassert (length es <=? SPARSE_MAX)%nat (Ret (with_elems s es, changed))).

Definition remove (s : t) (elem : Z) : outcome (t * bool) :=
  rassert (elem <? domain_size s)
    (match position (λ e, e =? elem) (elems s) with
     | Some i => let! es := av_remove (elems s) i in Ret (with_elems s es, true)
     | None => Ret (s, false)
     end).

Definition sparse_intersect (s : t) (other_contains : Z → outcome bool) : outcome (t * bool) :=
  let size := length (elems s) in
  let! es := av_retain (elems s) other_contains in
  Ret (with_elems s es, negb (length es =? size)%nat).

End WithArrayVec.

End SparseBitSet.

(** [BitSet::reverse_union_sparse]: the loop over the elements of the sparse
    set, with the words, the word not yet merged, the bits for it and whether
    the dense set has other bits *)
Definition reverse_union_step (st : list Z * nat * Z * bool) (x : Z)
    : outcome (list Z * nat * Z * bool) :=
  let '(ws, current_index, new_bit_mask, not_already) := st in
  let (word_index, mask) := word_index_and_mask x in
  if (current_index <? word_index)%nat then
    let! ws := BitSet.or_word ws current_index new_bit_mask in
    let! w := index ws current_index in
    let! skipped := subslice ws (current_index + 1) word_index in
    let not_already := not_already || negb (Z.lxor w new_bit_mask =? 0)
                       || existsb (λ x, negb (x =? 0)) skipped in
    Ret (ws, word_index, Z.lor 0 mask, not_already)
  else Ret (ws, current_index, Z.lor new_bit_mask mask, not_already).

Definition reverse_union_sparse (s : BitSet.t) (sparse : SparseBitSet.t) : outcome (BitSet.t * bool) :=
  rassert (SparseBitSet.domain_size sparse =? BitSet.domain_size s)
    (let! s := BitSet.clear_excess_bits s in
     let! (ws, current_index, new_bit_mask, not_already) :=
       fold_outcome reverse_union_step (SparseBitSet.iter sparse) (BitSet.words s, 0%nat, 0, false) in
     let! ws := BitSet.or_word ws current_index new_bit_mask in
     let! w := index ws current_index in
     let! tail := subslice ws (current_index + 1) (length ws) in
     let not_already := not_already || negb (Z.lxor w new_bit_mask =? 0)
                        || existsb (λ x, negb (x =? 0)) tail in
     Ret (BitSet.with_words s ws, not_already)).

Module HybridBitSet.

Inductive t : Type :=
| Sparse (s : SparseBitSet.t)
| Dense (s : BitSet.t).

Definition new_empty (dom : Z) : t := Sparse (SparseBitSet.new_empty dom).

Definition domain_size (s : t) : Z :=
  match s with Sparse s => SparseBitSet.domain_size s | Dense s => BitSet.domain_size s end.

Definition clear (s : t) : t := new_empty (domain_size s).

Definition contains (s : t) (elem : Z) : outcome bool :=
  match s with Sparse s => SparseBitSet.contains s elem | Dense s => BitSet.contains s elem end.

Definition is_empty (s : t) : bool :=
  match s with Sparse s => SparseBitSet.is_empty s | Dense s => BitSet.is_empty s end.

Definition to_dense (s : t) : outcome BitSet.t :=
  match s with Sparse s => SparseBitSet.to_dense s | Dense s => Ret s end.

Definition insert_all (s : t) : outcome t :=
  match s with
  | Sparse _ => let! d := BitSet.new_filled (domain_size s) in Ret (Dense d)
  | Dense d => let! d := BitSet.insert_all d in Ret (Dense d)
  end.

(** [BitSet::to_hybrid] *)
Definition to_hybrid (s : BitSet.t) : t := Dense s.

(** An update of the dense or of the sparse set inside *)
Definition on_dense {A} (c : outcome (BitSet.t * A)) : outcome (t * A) :=
  let! (d, a) := c in Ret (Dense d, a).
Definition on_sparse {A} (c : outcome (SparseBitSet.t * A)) : outcome (t * A) :=
  let! (d, a) := c in Ret (Sparse d, a).

Section WithParams.
Context `{Idx} `{ArrayVecApi}.

Definition iter (s : t) : outcome (list Z) :=
  match s with Sparse s => Ret (SparseBitSet.iter s) | Dense s => BitSet.iter s end.

Definition last_set_in (s : t) (r : RangeBounds Z) : outcome (option Z) :=
  match s with
  | Sparse s => Ret (SparseBitSet.last_set_in s r)
  | Dense s => BitSet.last_set_in s r
  end.

(** [it.all(p)] *)
Fixpoint all (p : Z → outcome bool) (l : list Z) : outcome bool :=
  match l with
  | [] => Ret true
  | x :: l => let! b := p x in if b then all p l else Ret false
  end.

Definition superset (s other : t) : outcome bool :=
  match s, other with
  | Dense self_dense, Dense other_dense => BitSet.superset self_dense other_dense
  | _, _ =>
      rassert (domain_size s =? domain_size other)
        (let! it := iter other in all (contains s) it)
  end.

Definition insert (s : t) (elem : Z) : outcome (t * bool) :=
  match s with
  | Sparse sparse =>
      if (SparseBitSet.len sparse <? SPARSE_MAX)%nat then on_sparse (SparseBitSet.insert sparse elem)
      else
        let! present := SparseBitSet.contains sparse elem in
        if present then Ret (s, false)
        else
          let! dense := SparseBitSet.to_dense sparse in
          let! (dense, changed) := BitSet.insert dense elem in
          rassert changed (Ret (Dense dense, changed))
  | Dense dense => on_dense (BitSet.insert dense elem)
  end.

Definition insert_range (s : t) (elems : RangeBounds Z) : outcome t :=
  let start := match start_bound elems with
    | Included start => start | Excluded start => wadd 64 start 1 | Unbounded => 0 end in
  let end_ := match end_bound elems with
    | Included end_ => wadd 64 end_ 1
    | Excluded end_ => end_
    | Unbounded => wsub 64 (domain_size s) 1 end in
  match checked_sub end_ start with
  | None => Ret s
  | Some len =>
      match s with
      | Sparse sparse =>
          if Z.of_nat (SparseBitSet.len sparse) + len <? Z.of_nat SPARSE_MAX then
            let! sparse := fold_outcome (λ sparse elem,
              let! x := idx_new elem in
              let! (sparse, _) := SparseBitSet.insert sparse x in Ret sparse)
              (seqZ start (end_ - start)) sparse in
            Ret (Sparse sparse)
          else
            let! dense := SparseBitSet.to_dense sparse in
            let! dense := BitSet.insert_range dense elems in Ret (Dense dense)
      | Dense dense => let! dense := BitSet.insert_range dense elems in Ret (Dense dense)
      end
  end.

Definition remove (s : t) (elem : Z) : outcome (t * bool) :=
  match s with
  | Sparse sparse => on_sparse (SparseBitSet.remove sparse elem)
  | Dense dense => on_dense (BitSet.remove dense elem)
  end.

(** The copy of the sparse set with the elements of the dense one, and whether
    the dense set has others *)
Definition dense_sparse_intersect (dense : BitSet.t) (sparse : SparseBitSet.t)
    : outcome (SparseBitSet.t * bool) :=
  let! (sparse_copy, _) := SparseBitSet.sparse_intersect sparse (BitSet.contains dense) in
  let n := Z.of_nat (SparseBitSet.len sparse_copy) in
  Ret (sparse_copy, negb (n =? BitSet.count dense)).

(** hybrid REL dense *)
Definition union_dense (s : t) (other : BitSet.t) : outcome (t * bool) :=
  rassert (domain_size s =? BitSet.domain_size other)
    (match s with
     | Sparse sparse => on_dense (reverse_union_sparse other sparse)
     | Dense dense => on_dense (BitSet.union dense other)
     end).

Definition subtract_dense (s : t) (other : BitSet.t) : outcome (t * bool) :=
  rassert (domain_size s =? BitSet.domain_size other)
    (match s with
     | Sparse sparse =>
         let! it := BitSet.iter other in
         on_sparse (sequential_update SparseBitSet.remove sparse it)
     | Dense dense => on_dense (BitSet.subtract dense other)
     end).

Definition intersect_dense (s : t) (other : BitSet.t) : outcome (t * bool) :=
  rassert (domain_size s =? BitSet.domain_size other)
    (match s with
     | Sparse sparse => on_sparse (SparseBitSet.sparse_intersect sparse (BitSet.contains other))
     | Dense dense => on_dense (BitSet.intersect dense other)
     end).

(** dense REL hybrid *)
Definition dense_union (s : BitSet.t) (other : t) : outcome (BitSet.t * bool) :=
  rassert (BitSet.domain_size s =? domain_size other)
    (match other with
     | Sparse sparse => sequential_update BitSet.insert s (SparseBitSet.iter sparse)
     | Dense dense => BitSet.union s dense
     end).

Definition dense_subtract (s : BitSet.t) (other : t) : outcome (BitSet.t * bool) :=
  rassert (BitSet.domain_size s =? domain_size other)
    (match other with
     | Sparse sparse => sequential_update BitSet.remove s (SparseBitSet.iter sparse)
     | Dense dense => BitSet.subtract s dense
     end).

Definition dense_intersect (s : BitSet.t) (other : t) : outcome (BitSet.t * bool) :=
  rassert (BitSet.domain_size s =? domain_size other)
    (match other with
     | Sparse sparse =>
         let! (updated, changed) := dense_sparse_intersect s sparse in
         let! s := fold_outcome (λ s elem, let! (s, _) := BitSet.insert s elem in Ret s)
           (SparseBitSet.iter updated) (BitSet.clear s) in
         Ret (s, changed)
     | Dense dense => BitSet.intersect s dense
     end).

(** hybrid REL hybrid *)
Definition union (s other : t) : outcome (t * bool) :=
  rassert (domain_size s =? domain_size other)
    (match s with
     | Sparse _ =>
         match other with
         | Sparse other_sparse =>
             fold_outcome (λ '(s, changed) elem,
               let! (s, b) := insert s elem in Ret (s, changed || b))
               (SparseBitSet.iter other_sparse) (s, false)
         | Dense other_dense => union_dense s other_dense
         end
     | Dense self_dense => on_dense (dense_union self_dense other)
     end).

Definition subtract (s other : t) : outcome (t * bool) :=
  rassert (domain_size s =? domain_size other)
    (match s with
     | Sparse self_sparse =>
         let! it := iter other in
         on_sparse (sequential_update SparseBitSet.remove self_sparse it)
     | Dense self_dense => on_dense (dense_subtract self_dense other)
     end).

Definition intersect (s other : t) : outcome (t * bool) :=
  rassert (domain_size s =? domain_size other)
    (match s with
     | Sparse self_sparse => on_sparse (SparseBitSet.sparse_intersect self_sparse (contains other))
     | Dense self_dense =>
         match other with
         | Sparse other_sparse => on_sparse (dense_sparse_intersect self_dense other_sparse)
         | Dense other_dense => on_dense (BitSet.intersect self_dense other_dense)
         end
     end).

End WithParams.

End HybridBitSet.

Module GrowableBitSet.

(** The wrapped dense set *)
Definition t : Type := BitSet.t.

Definition ensure (s : t) (min_domain_size : Z) : t :=
  let dom := if BitSet.domain_size s <? min_domain_size then min_domain_size
             else BitSet.domain_size s in
  let min_num_words := num_words min_domain_size in
  let ws := if (length (BitSet.words s) <? min_num_words)%nat
            then BitSet.words s ++ replicate (min_num_words - length (BitSet.words s)) 0
            else BitSet.words s in
  {| BitSet.domain_size := dom; BitSet.words := ws |}.

Definition new_empty : t := BitSet.new_empty 0.

Definition with_capacity (capacity : Z) : t := BitSet.new_empty capacity.

Definition insert (s : t) (elem : Z) : outcome (t * bool) :=
  BitSet.insert (ensure s (wadd 64 elem 1)) elem.

Definition remove (s : t) (elem : Z) : outcome (t * bool) :=
  BitSet.remove (ensure s (wadd 64 elem 1)) elem.

Definition is_empty (s : t) : bool := BitSet.is_empty s.

Definition contains (s : t) (elem : Z) : bool :=
  let (word_index, mask) := word_index_and_mask elem in
  match BitSet.words s !! word_index with
  | Some word => negb (Z.land word mask =? 0)
  | None => false
  end.

Definition iter `{Idx} (s : t) : outcome (list Z) := BitSet.iter s.

Definition len (s : t) : Z := BitSet.count s.

End GrowableBitSet.

Module FiniteBitSet.

(** [checked_shl] and [checked_shr] of [u32], [u64] and [u128], of width [w] *)
Definition checked_shl (w a rhs : Z) : option Z :=
  if rhs <? w then Some (wshl w a rhs) else None.
Definition checked_shr (w a rhs : Z) : option Z :=
  if rhs <? w then Some (wshr w a rhs) else None.

Definition new_empty : Z := 0.

Definition set (w s index : Z) : Z := Z.lor s (default 0 (checked_shl w 1 index)).

Definition clear (w s index : Z) : Z := Z.land s (wnot w (default 0 (checked_shl w 1 index))).

Definition set_range (w s start end_ : Z) : Z :=
  let bits := default 0 (checked_shl w
    (wnot w (default 0 (checked_shl w (umax w) (wsub 32 end_ start)))) start) in
  Z.lor s bits.

Definition is_empty (s : Z) : bool := s =? 0.

Definition within_domain (w index : Z) : bool := index <? w.

Definition contains (w s index : Z) : option bool :=
  if within_domain w index
  then Some (Z.land (default 1 (checked_shr w s index)) 1 =? 1) else None.

End FiniteBitSet.
