(* ===== verification/BitSetProps.v ===== *)
(** * Properties of bit sets

    Dense sets first: the bits of a word list, how the word operations act on
    them, and the operations of [BitSet] as operations on sets of integers. *)

From stdpp Require Import sorting.
From S2P Require Import Prelude.
From S2P Require Import Slice.
From S2P Require Import IndexSet.
From S2P Require Import BitSets.

(** * Bits of machine words *)

Lemma is_uint_bits w z : 0 ≤ w → is_uint w z ↔ 0 ≤ z ∧ ∀ i, w ≤ i → Z.testbit z i = false.
Proof.
  intros Hw. split.
  - intros [? ?]. split; [done|]. intros i Hi. destruct (decide (z = 0)) as [->|]; [apply Z.bits_0|].
    apply Z.bits_above_log2; [done|]. apply Z.log2_lt_pow2; [lia|].
    apply Z.lt_le_trans with (2 ^ w); [done|]. apply Z.pow_le_mono_r; lia.
  - intros [? Hb]. split; [done|]. destruct (decide (z = 0)) as [->|]; [auto with rust|].
    apply Z.log2_lt_pow2; [lia|]. destruct (Z.lt_ge_cases (Z.log2 z) w) as [|Hge]; [done|].
    specialize (Hb _ Hge). rewrite Z.bit_log2 in Hb by lia. congruence.
Qed.

Lemma is_uint_high w z i : 0 ≤ w ≤ i → is_uint w z → Z.testbit z i = false.
Proof. intros ? Hz. apply (proj1 (is_uint_bits w z ltac:(lia))) in Hz as [_ Hz]. apply Hz. lia. Qed.

Lemma is_uint_lor w a b : 0 ≤ w → is_uint w a → is_uint w b → is_uint w (Z.lor a b).
Proof.
  intros Hw. rewrite !is_uint_bits by done. intros [? Ha] [? Hb]. split.
  - by apply Z.lor_nonneg.
  - intros i Hi. by rewrite Z.lor_spec, Ha, Hb.
Qed.

Lemma is_uint_land w a b : 0 ≤ w → is_uint w a → 0 ≤ b → is_uint w (Z.land a b).
Proof.
  intros Hw. rewrite !is_uint_bits by done. intros [? Ha] ?. split.
  - apply Z.land_nonneg. by left.
  - intros i Hi. by rewrite Z.land_spec, Ha.
Qed.

Lemma wnot_uint w a : is_uint w a → is_uint w (wnot w a).
Proof. unfold is_uint, wnot, umax. lia. Qed.

Lemma wnot_testbit w a i : 0 ≤ w → is_uint w a → 0 ≤ i < w →
  Z.testbit (wnot w a) i = negb (Z.testbit a i).
Proof.
  intros Hw Ha Hi. unfold wnot, umax. replace (2 ^ w - 1) with (Z.ones w) by (rewrite Z.ones_equiv; lia).
  rewrite Z.sub_nocarry_ldiff.
  - rewrite Z.ldiff_spec, Z.ones_spec_low by lia. done.
  - apply Z.bits_inj'. intros n Hn. rewrite Z.ldiff_spec, Z.bits_0.
    destruct (decide (n < w)).
    + rewrite Z.ones_spec_low by lia. apply andb_false_r.
    + rewrite (is_uint_high w a n) by (done || lia). done.
Qed.

Lemma pow2_testbit n i : 0 ≤ n → Z.testbit (2 ^ n) i = (i =? n).
Proof. intros. rewrite Z.pow2_bits_eqb by done. apply Z.eqb_sym. Qed.

Lemma pow2_uint w n : 0 ≤ n < w → is_uint w (2 ^ n).
Proof. intros. split; [apply Z.pow_nonneg; lia|]. apply Z.pow_lt_mono_r; lia. Qed.

Lemma land_pow2 a n : 0 ≤ n → (Z.land a (2 ^ n) =? 0) = negb (Z.testbit a n).
Proof.
  intros Hn. destruct (Z.testbit a n) eqn:E; cbn.
  - apply Z.eqb_neq. intros H0. apply (f_equal (λ z, Z.testbit z n)) in H0.
    by rewrite Z.land_spec, E, pow2_testbit, Z.eqb_refl, Z.bits_0 in H0.
  - apply Z.eqb_eq, Z.bits_inj'. intros i Hi. rewrite Z.land_spec, pow2_testbit, Z.bits_0 by done.
    destruct (Z.eqb_spec i n) as [->|]; [by rewrite E|apply andb_false_r].
Qed.

(** Words are equal when their bits are. *)
Lemma uint_ext w a b : 0 ≤ w → is_uint w a → is_uint w b →
  (∀ i, 0 ≤ i < w → Z.testbit a i = Z.testbit b i) → a = b.
Proof.
  intros Hw Ha Hb H. apply Z.bits_inj'. intros i Hi. destruct (decide (i < w)); [by apply H|].
  by rewrite !(is_uint_high w) by (done || lia).
Qed.

(** The low and the high bits of a word, as the code writes them *)
Lemma ones_testbit n i : 0 ≤ n → 0 ≤ i → Z.testbit (2 ^ n - 1) i = (i <? n).
Proof.
  intros. rewrite Z.sub_1_r, <- Z.ones_equiv. destruct (Z.ltb_spec i n).
  - by rewrite Z.ones_spec_low by lia.
  - by rewrite Z.ones_spec_high by lia.
Qed.

(** * Bits of word lists *)

Definition bit (ws : list Z) (x : Z) : bool :=
  match ws !! Z.to_nat (x / 64) with Some w => Z.testbit w (x mod 64) | None => false end.

Lemma div_mod_64 x : x = 64 * (x / 64) + x mod 64 ∧ 0 ≤ x mod 64 < 64.
Proof. split; [apply Z.div_mod; lia|apply Z.mod_pos_bound; lia]. Qed.

Lemma bit_at ws i k : (0 ≤ k < 64) → bit ws (64 * Z.of_nat i + k) =
  match ws !! i with Some w => Z.testbit w k | None => false end.
Proof.
  intros Hk. unfold bit.
  rewrite <- (Z.div_unique (64 * Z.of_nat i + k) 64 (Z.of_nat i) k) by lia.
  rewrite <- (Z.mod_unique (64 * Z.of_nat i + k) 64 (Z.of_nat i) k) by lia.
  by rewrite Nat2Z.id.
Qed.

(** Every index is a bit of some word. *)
Lemma word_bit x : 0 ≤ x → ∃ i k, x = 64 * Z.of_nat i + k ∧ 0 ≤ k < 64 ∧
  x / 64 = Z.of_nat i ∧ x mod 64 = k.
Proof.
  intros Hx. pose proof (div_mod_64 x). exists (Z.to_nat (x / 64)), (x mod 64).
  assert (0 ≤ x / 64) by (apply Z.div_pos; lia). rewrite Z2Nat.id by done. lia.
Qed.

Lemma bit_insert ws i w x : (i < length ws)%nat → 0 ≤ x →
  bit (<[i := w]> ws) x = if decide (x / 64 = Z.of_nat i) then Z.testbit w (x mod 64) else bit ws x.
Proof.
  intros Hi Hx. unfold bit. destruct (word_bit x Hx) as (j & k & -> & Hk & -> & ->).
  rewrite Nat2Z.id. destruct (decide _) as [E|E].
  - apply Nat2Z.inj in E as ->. by rewrite list_lookup_insert_eq.
  - rewrite list_lookup_insert_ne; [done|congruence].
Qed.

Lemma bits_ext ws ws' :
  length ws = length ws' → Forall (is_uint 64) ws → Forall (is_uint 64) ws' →
  (∀ x, 0 ≤ x → bit ws x = bit ws' x) → ws = ws'.
Proof.
  intros Hl Hw Hw' H. apply list_eq_same_length with (length ws); [done|done|].
  intros i a b _ Ha Hb. rewrite Forall_lookup in Hw, Hw'.
  apply (uint_ext 64); [lia|by eapply Hw|by eapply Hw'|]. intros k Hk.
  specialize (H (64 * Z.of_nat i + k) ltac:(lia)). by rewrite !bit_at, Ha, Hb in H.
Qed.

Lemma bit_beyond ws x : 64 * Z.of_nat (length ws) ≤ x → bit ws x = false.
Proof.
  intros Hx. destruct (word_bit x) as (i & k & -> & Hk & _ & _); [lia|].
  rewrite bit_at by done. by rewrite lookup_ge_None_2 by lia.
Qed.

(** Two word lists have the same bits or differ in one. *)
Lemma bit_diff ws ws' :
  (∀ x, 0 ≤ x → bit ws x = bit ws' x) ∨ ∃ x, 0 ≤ x ∧ bit ws x ≠ bit ws' x.
Proof.
  set (n := 64 * Z.of_nat (length ws `max` length ws')).
  destruct (decide (Exists (λ x, bit ws x ≠ bit ws' x) (seqZ 0 n))) as [H|H].
  - right. apply list.Exists_exists in H as (x & Hx%elem_of_seqZ & ?). exists x. split; [lia|done].
  - left. intros x Hx. destruct (decide (x < n)).
    + destruct (decide (bit ws x = bit ws' x)) as [|E]; [done|]. destruct H.
      apply list.Exists_exists. exists x. split; [apply elem_of_seqZ; lia|done].
    + rewrite !bit_beyond by lia. done.
Qed.

(** * Dense sets *)

(** The invariant of dense words: one word per 64 indices, no bits at or above
    the domain size *)
Definition dense_domain (dom : Z) : Prop := 0 ≤ dom ≤ 2 ^ 64 - 64.

Record wf_words (dom : Z) (ws : list Z) : Prop := {
  wfw_domain : dense_domain dom;
  wfw_length : length ws = num_words dom;
  wfw_uint : Forall (is_uint 64) ws;
  wfw_excess x : dom ≤ x → bit ws x = false;
}.

Definition wf_bitset (dom : Z) (s : BitSet.t) : Prop :=
  BitSet.domain_size s = dom ∧ wf_words dom (BitSet.words s).

Definition dense_elem (s : BitSet.t) (x : Z) : Prop := 0 ≤ x ∧ bit (BitSet.words s) x = true.

#[export] Instance bitset_elem_of : ElemOf Z BitSet.t := λ x s, dense_elem s x.

Lemma num_words_eq dom : dense_domain dom → Z.of_nat (num_words dom) = (dom + 63) / 64.
Proof.
  intros Hd. unfold num_words, wadd, wsub, WORD_BITS.
  assert (wrap 64 (wrap 64 (dom + 64) - 1) = dom + 63) as ->.
  { unfold dense_domain in Hd. destruct (decide (dom + 64 = 2 ^ 64)) as [E|].
    - rewrite E. unfold wrap. rewrite Z.mod_same by lia.
      replace (dom + 63) with (2 ^ 64 - 1) by lia. done.
    - rewrite !wrap_small; unfold is_uint; [lia|lia|]. rewrite wrap_small; unfold is_uint; lia. }
  rewrite Z2Nat.id; [done|]. apply Z.div_pos; unfold dense_domain in *; lia.
Qed.

Lemma num_words_bounds dom : dense_domain dom →
  dom ≤ 64 * Z.of_nat (num_words dom) ≤ dom + 63.
Proof. intros Hd. rewrite num_words_eq by done. pose proof (div_mod_64 (dom + 63)). lia. Qed.

Lemma word_lookup dom ws x : wf_words dom ws → 0 ≤ x < dom →
  ∃ w, ws !! Z.to_nat (x / 64) = Some w ∧ is_uint 64 w ∧ (Z.to_nat (x / 64) < length ws)%nat.
Proof.
  intros [Hd Hl Hu _] Hx. pose proof (num_words_bounds dom Hd). pose proof (div_mod_64 x).
  destruct (word_bit x) as (i & k & ? & ? & Hi & _); [lia|].
  rewrite Hi, Nat2Z.id.
  destruct (lookup_lt_is_Some_2 ws i) as [w Hw]; [lia|].
  exists w. split_and!; [done|by apply (Forall_lookup_1 _ _ _ _ Hu Hw)|by eapply lookup_lt_Some].
Qed.

Lemma mask_pow2 x : wshl 64 1 (x mod WORD_BITS) = 2 ^ (x mod 64).
Proof.
  unfold WORD_BITS. pose proof (div_mod_64 x). rewrite wshl_small by lia. rewrite Z.mul_1_l.
  apply wrap_small, pow2_uint. lia.
Qed.

(** The dense sets below a domain are determined by their bits. *)
Lemma wf_bitset_ext dom s s' :
  wf_bitset dom s → wf_bitset dom s' → (∀ x, x ∈ s ↔ x ∈ s') → s = s'.
Proof.
  intros [Hd Hw] [Hd' Hw'] H. destruct s as [d ws], s' as [d' ws']. cbn in *. f_equal; [congruence|].
  apply bits_ext; [by rewrite !(wfw_length dom)|by eapply wfw_uint..|].
  intros x Hx. specialize (H x). unfold elem_of, bitset_elem_of, dense_elem in H. cbn in H.
  destruct (bit ws x), (bit ws' x); try done; exfalso; intuition congruence.
Qed.

Lemma contains_dense dom s x : wf_bitset dom s → 0 ≤ x < dom →
  BitSet.contains s x = Ret (bit (BitSet.words s) x).
Proof.
  intros [Hd Hw] Hx. unfold BitSet.contains. rewrite Hd, (proj2 (Z.ltb_lt _ _)) by lia. cbn [rassert].
  unfold word_index_and_mask, index. destruct (word_lookup _ _ _ Hw Hx) as (w & Hl & ? & _).
  change WORD_BITS with 64 in *. rewrite Hl. cbn [unwrap obind]. rewrite mask_pow2, land_pow2.
  - unfold bit. by rewrite Hl, negb_involutive.
  - pose proof (div_mod_64 x). lia.
Qed.

(** Replacing the word of an index by one that differs in its bit only *)
Lemma update_word_spec dom s x f v :
  wf_bitset dom s → 0 ≤ x < dom →
  (∀ w, is_uint 64 w → is_uint 64 (f w (2 ^ (x mod 64)))) →
  (∀ w i, is_uint 64 w → 0 ≤ i < 64 →
    Z.testbit (f w (2 ^ (x mod 64))) i = if i =? x mod 64 then v else Z.testbit w i) →
  ∃ s', BitSet.update_word s x f = Ret (s', negb (eqb (bit (BitSet.words s) x) v)) ∧
    wf_bitset dom s' ∧
    ∀ y, 0 ≤ y → bit (BitSet.words s') y = if y =? x then v else bit (BitSet.words s) y.
Proof.
  intros [Hd Hw] Hx Hf Hb. unfold BitSet.update_word. rewrite Hd, (proj2 (Z.ltb_lt _ _)) by lia.
  cbn [rassert]. unfold word_index_and_mask, index, index_set. rewrite mask_pow2.
  destruct (word_lookup _ _ _ Hw Hx) as (w & Hl & Hwu & Hlen). pose proof (div_mod_64 x) as [Hxe Hxk].
  change WORD_BITS with 64 in *. rewrite Hl. cbn [unwrap obind].
  rewrite (proj2 (Nat.ltb_lt _ _)) by done. cbn [rassert obind].
  set (w' := f w (2 ^ (x mod 64))).
  assert (∀ y, 0 ≤ y → bit (<[Z.to_nat (x / 64) := w']> (BitSet.words s)) y =
    if y =? x then v else bit (BitSet.words s) y) as Hbit.
  { intros y Hy. rewrite bit_insert by done. pose proof (div_mod_64 y).
    assert (0 ≤ x / 64) by (apply Z.div_pos; lia). rewrite Z2Nat.id by done.
    destruct (decide (y / 64 = x / 64)) as [E|E].
    - unfold w'. rewrite Hb by (done || lia). destruct (Z.eqb_spec (y mod 64) (x mod 64)), (Z.eqb_spec y x);
        try done; try lia. unfold bit. by rewrite E, Hl.
    - destruct (Z.eqb_spec y x) as [->|]; [done|done]. }
  exists (BitSet.with_words s (<[Z.to_nat (x / 64) := w']> (BitSet.words s))).
  split; [|split; [|exact Hbit]].
  - do 2 f_equal. f_equal.
    assert (bit (BitSet.words s) x = Z.testbit w (x mod 64)) as -> by (unfold bit; by rewrite Hl).
    destruct (Z.eqb_spec w' w) as [E|E].
    + rewrite <- E. unfold w'. rewrite Hb, Z.eqb_refl by done. symmetry. apply eqb_reflx.
    + symmetry. apply eqb_false_iff. intros Ev. apply E.
      apply (uint_ext 64); [lia|by apply Hf|done|]. intros i Hi. unfold w'. rewrite Hb by done.
      destruct (Z.eqb_spec i (x mod 64)) as [->|]; congruence.
  - split; [done|]. destruct Hw as [Hdom Hlen' Hu He]. cbn [BitSet.with_words BitSet.words].
    split; [done|by rewrite length_insert|..].
    + apply Forall_insert; [done|]. by apply Hf.
    + intros y Hy. unfold dense_domain in Hdom. rewrite Hbit by lia.
      destruct (Z.eqb_spec y x); [lia|]. by apply He.
Qed.

Lemma elem_dense_bit s x : 0 ≤ x → x ∈ s ↔ bit (BitSet.words s) x = true.
Proof. intros. unfold elem_of, bitset_elem_of, dense_elem. tauto. Qed.

(** From bits to [set_update] *)
Lemma set_update_bits (E E' : Z → Prop) (P : Z → Prop) (old new : Z → bool) changed :
  (∀ y, E y ↔ 0 ≤ y ∧ old y = true) → (∀ y, E' y ↔ 0 ≤ y ∧ new y = true) →
  (∀ y, P y ↔ 0 ≤ y ∧ new y = true) →
  (changed = true ↔ ∃ y, 0 ≤ y ∧ old y ≠ new y) →
  set_update E E' changed P.
Proof.
  intros HE HE' HP Hc. split; [intros y; rewrite HE', HP; done|]. rewrite Hc.
  split; intros (y & Hy); exists y.
  - rewrite HE, HP. destruct Hy as [? Hy]. destruct (old y), (new y); intuition congruence.
  - rewrite HE, HP in Hy. destruct (decide (0 ≤ y)); [|tauto]. split; [done|]. intros Heq. rewrite Heq in Hy. tauto.
Qed.

Lemma set_update_proper E E' c (P P' : Z → Prop) :
  (∀ y, P y ↔ P' y) → set_update E E' c P → set_update E E' c P'.
Proof.
  intros HP [H1 H2]. split; [intros y; by rewrite H1|]. rewrite H2.
  split; intros (y & Hy); exists y; specialize (HP y); tauto.
Qed.

(** A change of one bit *)
Lemma set_update_point s s' x v :
  0 ≤ x →
  (∀ y, 0 ≤ y → bit (BitSet.words s') y = if y =? x then v else bit (BitSet.words s) y) →
  set_update (dense_elem s) (dense_elem s') (negb (eqb (bit (BitSet.words s) x) v))
    (λ y, if decide (y = x) then v = true else dense_elem s y).
Proof.
  intros Hx Hb.
  apply (set_update_bits _ _ _ (bit (BitSet.words s)) (bit (BitSet.words s'))); try done.
  - intros y. unfold dense_elem. destruct (decide (y = x)) as [->|Hne].
    + rewrite Hb, Z.eqb_refl by lia. tauto.
    + split; intros [? Hy]; (split; [done|]); rewrite Hb in * by done;
        destruct (Z.eqb_spec y x); congruence.
  - rewrite negb_true_iff, eqb_false_iff. split.
    + intros Hn. exists x. split; [lia|]. by rewrite Hb, Z.eqb_refl by lia.
    + intros (y & Hy & Hne). rewrite Hb in Hne by done. by destruct (Z.eqb_spec y x) as [->|].
Qed.

Lemma insert_dense dom s x : wf_bitset dom s → 0 ≤ x < dom →
  ∃ s' b, BitSet.insert s x = Ret (s', b) ∧ wf_bitset dom s' ∧
    set_update (dense_elem s) (dense_elem s') b (λ y, dense_elem s y ∨ y = x).
Proof.
  intros Hs Hx. pose proof (div_mod_64 x).
  destruct (update_word_spec dom s x Z.lor true Hs Hx) as (s' & Hr & Hw & Hb).
  - intros w Hw. apply is_uint_lor; [lia|done|apply pow2_uint; lia].
  - intros w i Hw Hi. rewrite Z.lor_spec, pow2_testbit by lia.
    destruct (Z.eqb_spec i (x mod 64)) as [->|]; by rewrite ?orb_true_r, ?orb_false_r.
  - eexists _, _. split; [exact Hr|]. split; [done|].
    eapply set_update_proper; [|by apply set_update_point; [lia|]].
    intros y. cbn. case_decide; [|tauto]. tauto.
Qed.

Lemma remove_dense dom s x : wf_bitset dom s → 0 ≤ x < dom →
  ∃ s' b, BitSet.remove s x = Ret (s', b) ∧ wf_bitset dom s' ∧
    set_update (dense_elem s) (dense_elem s') b (λ y, dense_elem s y ∧ y ≠ x).
Proof.
  intros Hs Hx. pose proof (div_mod_64 x).
  assert (is_uint 64 (2 ^ (x mod 64))) as Hm by (apply pow2_uint; lia).
  destruct (update_word_spec dom s x (λ word mask, Z.land word (wnot 64 mask)) false Hs Hx)
    as (s' & Hr & Hw & Hb).
  - intros w Hw. apply is_uint_land; [lia|done|]. by apply wnot_uint.
  - intros w i Hw Hi. rewrite Z.land_spec, wnot_testbit, pow2_testbit by (done || lia).
    destruct (Z.eqb_spec i (x mod 64)) as [->|]; by rewrite ?andb_false_r, ?andb_true_r.
  - eexists _, _. split; [exact Hr|]. split; [done|].
    eapply set_update_proper; [|by apply set_update_point; [lia|]].
    intros y. cbn. case_decide; [|tauto]. split; [done|tauto].
Qed.

(** ** Word by word *)

Lemma bitwise_loop_spec op ws : ∀ ws' c,
  length ws = length ws' →
  bitwise_loop op ws ws' c =
    (zip_with op ws ws',
     Z.lor (foldr Z.lor 0 (zip_with Z.lxor ws (zip_with op ws ws'))) c).
Proof.
  induction ws as [|w ws IH]; intros [|w' ws'] c Hl; try done. cbn. rewrite IH by (cbn in Hl; lia).
  f_equal. apply Z.bits_inj'. intros i _. rewrite !Z.lor_spec, !Z.lxor_spec.
  by destruct (Z.testbit c i), (Z.testbit (foldr _ _ _) i), (Z.testbit w i), (Z.testbit (op w w') i).
Qed.

Lemma lor_xor_zero ws : ∀ ws', length ws = length ws' →
  foldr Z.lor 0 (zip_with Z.lxor ws ws') = 0 ↔ ws = ws'.
Proof.
  induction ws as [|w ws IH]; intros [|w' ws'] Hl; try done. cbn.
  rewrite Z.lor_eq_0_iff, Z.lxor_eq_0_iff, IH by (cbn in Hl; lia).
  split; [intros [-> ->]; done|by intros [= -> ->]].
Qed.

Lemma bitwise_ret op ws ws' : length ws = length ws' →
  bitwise op ws ws' = Ret (zip_with op ws ws', negb (bool_decide (zip_with op ws ws' = ws))).
Proof.
  intros Hl. unfold bitwise. rewrite (proj2 (Nat.eqb_eq _ _)) by done. cbn [rassert].
  rewrite bitwise_loop_spec by done. rewrite Z.lor_0_r.
  assert (length ws = length (zip_with op ws ws')) by (rewrite length_zip_with; lia).
  pose proof (lor_xor_zero ws (zip_with op ws ws') ltac:(done)) as Hz.
  do 3 f_equal. case_bool_decide as E.
  - apply Z.eqb_eq, Hz. done.
  - apply Z.eqb_neq. rewrite Hz. congruence.
Qed.

Lemma bit_zip_with op g ws ws' x :
  length ws = length ws' → g false false = false → Forall (is_uint 64) ws → Forall (is_uint 64) ws' →
  (∀ a b i, is_uint 64 a → is_uint 64 b → 0 ≤ i < 64 →
    Z.testbit (op a b) i = g (Z.testbit a i) (Z.testbit b i)) →
  bit (zip_with op ws ws') x = g (bit ws x) (bit ws' x).
Proof.
  intros Hl Hg Hu Hu' Hop. unfold bit. rewrite lookup_zip_with. pose proof (div_mod_64 x).
  destruct (ws !! _) as [a|] eqn:Ea; cbn.
  - destruct (lookup_lt_is_Some_2 ws' (Z.to_nat (x / 64))) as [b Eb].
    { apply lookup_lt_Some in Ea. lia. }
    rewrite Eb. cbn. apply Hop; [exact (Forall_lookup_1 _ _ _ _ Hu Ea)|exact (Forall_lookup_1 _ _ _ _ Hu' Eb)|lia].
  - apply lookup_ge_None in Ea. rewrite lookup_ge_None_2 by lia. done.
Qed.

(** A word operation that acts on bits as [g] acts on the sets as [g]. *)
Lemma bitwise_dense dom s o op g :
  wf_bitset dom s → wf_bitset dom o → g false false = false →
  (∀ a b, is_uint 64 a → is_uint 64 b → is_uint 64 (op a b)) →
  (∀ a b i, is_uint 64 a → is_uint 64 b → 0 ≤ i < 64 →
    Z.testbit (op a b) i = g (Z.testbit a i) (Z.testbit b i)) →
  ∃ ws c, bitwise op (BitSet.words s) (BitSet.words o) = Ret (ws, c) ∧
    wf_bitset dom (BitSet.with_words s ws) ∧
    set_update (dense_elem s) (dense_elem (BitSet.with_words s ws)) c
      (λ y, 0 ≤ y ∧ g (bit (BitSet.words s) y) (bit (BitSet.words o) y) = true).
Proof.
  intros [Hd Hw] [Hd' Hw'] Hg Hu Hop.
  assert (length (BitSet.words s) = length (BitSet.words o)) as Hl.
  { destruct Hw, Hw'. congruence. }
  rewrite bitwise_ret by done. eexists _, _. split; [done|].
  assert (∀ y, bit (zip_with op (BitSet.words s) (BitSet.words o)) y =
    g (bit (BitSet.words s) y) (bit (BitSet.words o) y)) as Hb.
  { intros y. apply bit_zip_with; try done; [by apply Hw|by apply Hw']. }
  assert (Forall (is_uint 64) (zip_with op (BitSet.words s) (BitSet.words o))) as Huz.
  { apply Forall_lookup. intros i w (a & b & -> & Ha & Hb')%lookup_zip_with_Some.
    apply Hu; [apply (Forall_lookup_1 _ _ _ _ (wfw_uint _ _ Hw) Ha)|
      apply (Forall_lookup_1 _ _ _ _ (wfw_uint _ _ Hw') Hb')]. }
  split.
  - split; [done|]. cbn [BitSet.words BitSet.with_words]. split; try done.
    + apply Hw.
    + rewrite length_zip_with. rewrite <- Hl, Nat.min_id. apply Hw.
    + intros x Hx. by rewrite Hb, (wfw_excess _ _ Hw), (wfw_excess _ _ Hw') by done.
  - apply (set_update_bits _ _ _ (bit (BitSet.words s))
      (bit (zip_with op (BitSet.words s) (BitSet.words o)))); try done.
    + intros y. by rewrite Hb.
    + rewrite negb_true_iff, bool_decide_eq_false.
      destruct (bit_diff (BitSet.words s) (zip_with op (BitSet.words s) (BitSet.words o))) as [H|(y & H)].
      * split; [|intros (y & ? & Hne); by rewrite H in Hne].
        intros Hne. destruct Hne. symmetry. apply bits_ext; try done; [|apply Hw].
        rewrite length_zip_with. lia.
      * split; [eauto|]. intros _ E. rewrite E in H. tauto.
Qed.

Lemma union_dense_spec dom s o : wf_bitset dom s → wf_bitset dom o →
  ∃ s' b, BitSet.union s o = Ret (s', b) ∧ wf_bitset dom s' ∧
    set_update (dense_elem s) (dense_elem s') b (λ y, dense_elem s y ∨ dense_elem o y).
Proof.
  intros Hs Ho. unfold BitSet.union. rewrite (proj1 Hs), (proj1 Ho), Z.eqb_refl. cbn [rassert].
  destruct (bitwise_dense dom s o Z.lor orb Hs Ho) as (ws & c & -> & Hw & Hu); try done.
  { intros. apply is_uint_lor; done. }
  { intros. apply Z.lor_spec. }
  cbn [obind]. eexists _, c. split; [done|]. split; [done|].
  eapply set_update_proper; [|exact Hu]. intros y. cbn. unfold dense_elem. rewrite orb_true_iff. tauto.
Qed.

Lemma intersect_dense_spec dom s o : wf_bitset dom s → wf_bitset dom o →
  ∃ s' b, BitSet.intersect s o = Ret (s', b) ∧ wf_bitset dom s' ∧
    set_update (dense_elem s) (dense_elem s') b (λ y, dense_elem s y ∧ dense_elem o y).
Proof.
  intros Hs Ho. unfold BitSet.intersect. rewrite (proj1 Hs), (proj1 Ho), Z.eqb_refl. cbn [rassert].
  destruct (bitwise_dense dom s o Z.land andb Hs Ho) as (ws & c & -> & Hw & Hu); try done.
  { intros a b ? Hb. apply is_uint_land; [done|done|]. by destruct Hb. }
  { intros. apply Z.land_spec. }
  cbn [obind]. eexists _, c. split; [done|]. split; [done|].
  eapply set_update_proper; [|exact Hu]. intros y. cbn. unfold dense_elem. rewrite andb_true_iff. tauto.
Qed.

Lemma subtract_dense_spec dom s o : wf_bitset dom s → wf_bitset dom o →
  ∃ s' b, BitSet.subtract s o = Ret (s', b) ∧ wf_bitset dom s' ∧
    set_update (dense_elem s) (dense_elem s') b (λ y, dense_elem s y ∧ ¬ dense_elem o y).
Proof.
  intros Hs Ho. unfold BitSet.subtract. rewrite (proj1 Hs), (proj1 Ho), Z.eqb_refl. cbn [rassert].
  destruct (bitwise_dense dom s o (λ a b, Z.land a (wnot 64 b)) (λ a b, a && negb b) Hs Ho)
    as (ws & c & -> & Hw & Hu); try done.
  { intros a b ? Hb. apply is_uint_land; [done|done|]. by apply wnot_uint in Hb as []. }
  { intros. rewrite Z.land_spec, wnot_testbit; done. }
  cbn [obind]. eexists _, c. split; [done|]. split; [done|].
  eapply set_update_proper; [|exact Hu]. intros y. cbn. unfold dense_elem.
  rewrite andb_true_iff, negb_true_iff. destruct (bit (BitSet.words o) y); intuition congruence.
Qed.

(** ** Whole sets *)

Lemma bit_replicate n w x : 0 ≤ x →
  bit (replicate n w) x = (x <? 64 * Z.of_nat n) && Z.testbit w (x mod 64).
Proof.
  intros Hx. destruct (word_bit x Hx) as (i & k & -> & Hk & _ & ->). rewrite bit_at by done.
  destruct (Z.ltb_spec (64 * Z.of_nat i + k) (64 * Z.of_nat n)).
  - by rewrite lookup_replicate_2 by lia.
  - rewrite (proj1 (lookup_replicate_None _ _ _)) by lia. done.
Qed.

Lemma clear_excess_spec dom ws :
  dense_domain dom → length ws = num_words dom → Forall (is_uint 64) ws →
  ∃ ws', clear_excess_bits_in_final_word dom ws = Ret ws' ∧ wf_words dom ws' ∧
    ∀ x, 0 ≤ x → bit ws' x = bit ws x && (x <? dom).
Proof.
  intros Hd Hl Hu. unfold clear_excess_bits_in_final_word. change WORD_BITS with 64.
  pose proof (num_words_bounds dom Hd) as Hn. pose proof (div_mod_64 dom) as [Hdm Hk].
  destruct (Z.ltb_spec 0 (dom mod 64)) as [Hm|Hm].
  - assert (Z.of_nat (length ws) = dom / 64 + 1) as Hlen by lia.
    assert (0 ≤ dom) by (by destruct Hd).
    rewrite wshl_small, Z.mul_1_l, wrap_small by (done || lia || (apply pow2_uint; lia)).
    unfold wsub. rewrite wrap_small.
    2: { pose proof (pow2_uint 64 (dom mod 64) ltac:(lia)) as Hp. unfold is_uint in *.
         pose proof (pow2_pos (dom mod 64) ltac:(lia)). lia. }
    unfold index, index_set.
    destruct (lookup_lt_is_Some_2 ws (length ws - 1)) as [w Hw]; [lia|]. rewrite Hw. cbn [unwrap obind].
    rewrite (proj2 (Nat.ltb_lt _ _)) by lia. cbn [rassert].
    set (ws' := <[(length ws - 1)%nat := _]> ws).
    assert (∀ x, 0 ≤ x → bit ws' x = bit ws x && (x <? dom)) as Hb.
    { intros x Hx. unfold ws'. rewrite bit_insert by lia.
      destruct (word_bit x Hx) as (i & k & -> & Hik & -> & ->). destruct (decide _) as [E|E].
      - rewrite Z.land_spec, ones_testbit by lia. apply Nat2Z.inj in E as ->. rewrite bit_at, Hw by done.
        f_equal. destruct (Z.ltb_spec k (dom mod 64)), (Z.ltb_spec (64 * Z.of_nat (length ws - 1) + k) dom);
          done || lia.
      - destruct (Z.ltb_spec (64 * Z.of_nat i + k) dom); [by rewrite andb_true_r|].
        rewrite andb_false_r. apply bit_beyond. lia. }
    exists ws'. split; [done|]. split; [|done]. split.
    + done.
    + unfold ws'. by rewrite length_insert.
    + apply Forall_insert; [done|]. apply is_uint_land; [lia|by apply (Forall_lookup_1 _ _ _ _ Hu Hw)|].
      pose proof (pow2_pos (dom mod 64) ltac:(lia)). lia.
    + intros x Hx. unfold dense_domain in Hd. rewrite Hb by lia.
      rewrite (proj2 (Z.ltb_ge _ _)) by lia. apply andb_false_r.
  - assert (∀ x, 0 ≤ x → bit ws x = bit ws x && (x <? dom)) as Hb.
    { intros x Hx. destruct (Z.ltb_spec x dom); [by rewrite andb_true_r|]. rewrite bit_beyond by lia. done. }
    exists ws. split; [done|]. split; [|done]. split; try done.
    intros x Hx. unfold dense_domain in Hd. rewrite Hb by lia.
    rewrite (proj2 (Z.ltb_ge _ _)) by lia. apply andb_false_r.
Qed.

Lemma wnot_zero_uint : is_uint 64 (wnot 64 0).
Proof. done. Qed.

Lemma wnot_zero_testbit i : 0 ≤ i < 64 → Z.testbit (wnot 64 0) i = true.
Proof. intros. rewrite wnot_testbit by done. by rewrite Z.bits_0. Qed.

Lemma filled_dense dom (ws : list Z) :
  dense_domain dom → length ws = num_words dom →
  ∃ s', BitSet.clear_excess_bits {| BitSet.domain_size := dom;
      BitSet.words := replicate (length ws) (wnot 64 0) |} = Ret s' ∧
    wf_bitset dom s' ∧ ∀ y, dense_elem s' y ↔ 0 ≤ y < dom.
Proof.
  intros Hd Hl. unfold BitSet.clear_excess_bits. cbn [BitSet.domain_size BitSet.words].
  destruct (clear_excess_spec dom (replicate (length ws) (wnot 64 0))) as (ws' & -> & Hw & Hb);
    [done|by rewrite length_replicate|by apply Forall_replicate|].
  cbn [obind]. eexists. split; [done|]. split; [split; done|].
  intros y. unfold dense_elem. cbn [BitSet.words BitSet.with_words].
  pose proof (num_words_bounds dom Hd). pose proof (div_mod_64 y). split.
  - intros [? Hy]. rewrite Hb, andb_true_iff, Z.ltb_lt in Hy by done. lia.
  - intros [? ?]. split; [done|]. rewrite Hb, bit_replicate, wnot_zero_testbit by lia.
    rewrite !(proj2 (Z.ltb_lt _ _)) by lia. done.
Qed.

Lemma insert_all_dense dom s : wf_bitset dom s →
  ∃ s', BitSet.insert_all s = Ret s' ∧ wf_bitset dom s' ∧ ∀ y, dense_elem s' y ↔ 0 ≤ y < dom.
Proof.
  intros [Hd Hw]. unfold BitSet.insert_all, BitSet.with_words. rewrite Hd.
  apply filled_dense; apply Hw.
Qed.

Lemma new_filled_dense dom : dense_domain dom →
  ∃ s', BitSet.new_filled dom = Ret s' ∧ wf_bitset dom s' ∧ ∀ y, dense_elem s' y ↔ 0 ≤ y < dom.
Proof.
  intros Hd. destruct (filled_dense dom (replicate (num_words dom) 0)) as (s' & Hr & ?);
    [done|by rewrite length_replicate|].
  rewrite length_replicate in Hr. eauto.
Qed.

Lemma zeros_dense dom n : dense_domain dom → n = num_words dom →
  wf_words dom (replicate n 0) ∧ ∀ x, bit (replicate n 0) x = false.
Proof.
  intros Hd Hn. assert (∀ x, bit (replicate n 0) x = false) as Hb.
  { intros x. unfold bit. destruct (_ !! _) as [w|] eqn:E; [|done].
    apply lookup_replicate in E as [-> _]. apply Z.bits_0. }
  split; [|done]. split; [done|by rewrite length_replicate|by apply Forall_replicate|done].
Qed.

Lemma new_empty_dense dom : dense_domain dom →
  wf_bitset dom (BitSet.new_empty dom) ∧ ∀ x, ¬ dense_elem (BitSet.new_empty dom) x.
Proof.
  intros Hd. destruct (zeros_dense dom _ Hd eq_refl) as [Hw Hb]. split; [split; done|].
  intros x [_ Hx]. cbn in Hx. by rewrite Hb in Hx.
Qed.

Lemma clear_dense dom s : wf_bitset dom s → wf_bitset dom (BitSet.clear s) ∧ ∀ x, ¬ dense_elem (BitSet.clear s) x.
Proof.
  intros [Hd Hw]. destruct (zeros_dense dom (length (BitSet.words s))) as [Hw' Hb]; [apply Hw..|].
  split; [split; done|]. intros x [_ Hx]. cbn in Hx. by rewrite Hb in Hx.
Qed.

Lemma superset_dense dom s o : wf_bitset dom s → wf_bitset dom o →
  ∃ b, BitSet.superset s o = Ret b ∧ (b = true ↔ ∀ x, dense_elem o x → dense_elem s x).
Proof.
  intros [Hd Hw] [Hd' Hw']. unfold BitSet.superset. rewrite Hd, Hd', Z.eqb_refl. cbn [rassert].
  eexists. split; [done|]. rewrite forallb_forall. split.
  - intros H x [Hx Hb]. split; [done|]. unfold bit in *.
    destruct (BitSet.words o !! _) as [b|] eqn:Eb; [|done].
    destruct (lookup_lt_is_Some_2 (BitSet.words s) (Z.to_nat (x / 64))) as [a Ea].
    { rewrite (wfw_length _ _ Hw), <- (wfw_length _ _ Hw'). by eapply lookup_lt_Some. }
    rewrite Ea. specialize (H (a, b)). cbn in H. rewrite Z.eqb_eq in H.
    rewrite <- H, Z.land_spec, andb_true_iff in Hb; [tauto|].
    apply list_elem_of_In. apply list_elem_of_lookup_2 with (Z.to_nat (x / 64)).
    rewrite lookup_zip_with, Ea. cbn. by rewrite Eb.
  - intros H [a b] Hab. apply list_elem_of_In, list_elem_of_lookup in Hab as [i Hi].
    apply lookup_zip_with_Some in Hi as (a' & b' & [= <- <-] & Ha & Hb). cbn.
    apply Z.eqb_eq, (uint_ext 64); [lia| | |].
    + apply is_uint_land; [lia|apply (Forall_lookup_1 _ _ _ _ (wfw_uint _ _ Hw) Ha)|].
      by destruct (Forall_lookup_1 _ _ _ _ (wfw_uint _ _ Hw') Hb).
    + apply (Forall_lookup_1 _ _ _ _ (wfw_uint _ _ Hw') Hb).
    + intros k Hk. rewrite Z.land_spec. specialize (H (64 * Z.of_nat i + k)).
      unfold dense_elem in H. rewrite !bit_at, Ha, Hb in H by done.
      destruct (Z.testbit b k); [|apply andb_false_r]. rewrite andb_true_r. apply H. lia.
Qed.

Lemma is_empty_dense dom s : wf_bitset dom s → BitSet.is_empty s = true ↔ ∀ x, ¬ dense_elem s x.
Proof.
  intros [_ Hw]. unfold BitSet.is_empty. rewrite forallb_forall. split.
  - intros H x [_ Hx]. unfold bit in Hx. destruct (_ !! _) as [w|] eqn:E; [|done].
    specialize (H w). rewrite Z.eqb_eq in H. rewrite H in Hx; [by rewrite Z.bits_0 in Hx|].
    by apply list_elem_of_In, list_elem_of_lookup_2 with (Z.to_nat (x / 64)).
  - intros H w [i Hi]%list_elem_of_In%list_elem_of_lookup. apply Z.eqb_eq, (uint_ext 64); [lia| |done|].
    + apply (Forall_lookup_1 _ _ _ _ (wfw_uint _ _ Hw) Hi).
    + intros k Hk. rewrite Z.bits_0. specialize (H (64 * Z.of_nat i + k)). unfold dense_elem in H.
      rewrite bit_at, Hi in H by done. destruct (Z.testbit w k); [|done]. destruct H. split; [lia|done].
Qed.

Lemma fold_outcome_app {A B} (f : B → A → outcome B) l l' b :
  fold_outcome f (l ++ l') b = let! b := fold_outcome f l b in fold_outcome f l' b.
Proof. revert b. induction l as [|x l IH]; intros b; [done|]. cbn. destruct (f b x); [apply IH|done]. Qed.

Lemma fold_outcome_ext {A B} (f g : B → A → outcome B) l :
  (∀ b x, f b x = g b x) → ∀ b, fold_outcome f l b = fold_outcome g l b.
Proof.
  intros Hfg. induction l as [|x l IH]; intros b; [done|]. cbn [fold_outcome]. rewrite Hfg.
  destruct (g b x); [apply IH|done].
Qed.
