(* ===== verification/BitIterProps.v ===== *)
(** * Iteration, counting and ranges of dense sets

    [BitIter] yields the elements in increasing order, [count] is their number,
    [insert_range] adds exactly a range and [last_set_in] finds the greatest
    element in one. *)

From stdpp Require Import sorting.
From S2P Require Import Prelude.
From S2P Require Import Slice.
From S2P Require Import IndexSet.
From S2P Require Import BitSets.
From S2P Require Import BitSetProps.

(** * The bits of a word in order *)

Definition ones_of (w : Z) : list Z := filter (λ k, Z.testbit w k = true) (seqZ 0 64).

(** The items that words starting at [off] give *)
Fixpoint items (off : Z) (ws : list Z) : list Z :=
  match ws with [] => [] | w :: ws => (Z.add off <$> ones_of w) ++ items (off + 64) ws end.

Lemma pos_lowest_bit p :
  0 ≤ pos_trailing_zeros p ∧ Z.testbit (Zpos p) (pos_trailing_zeros p) = true ∧
  ∀ i, i < pos_trailing_zeros p → Z.testbit (Zpos p) i = false.
Proof.
  induction p as [p _|p (Hp & Ht & Hl)|]; cbn [pos_trailing_zeros].
  - split_and!; [lia|done|]. intros i Hi. by rewrite Z.testbit_neg_r.
  - change (Zpos p~0) with (2 * Zpos p). split_and!; [lia| |].
    + rewrite Z.add_comm, Z.add_1_r, Z.double_bits_succ. done.
    + intros i Hi. destruct (decide (i ≤ 0)) as [Hi0|].
      * destruct (decide (i = 0)) as [->|]; [by rewrite Z.testbit_even_0|].
        by rewrite Z.testbit_neg_r by lia.
      * replace i with (Z.succ (i - 1)) by lia. rewrite Z.double_bits_succ. apply Hl. lia.
  - split_and!; [lia|done|]. intros i Hi. by rewrite Z.testbit_neg_r.
Qed.

Lemma trailing_zeros_spec w : is_uint 64 w → w ≠ 0 →
  0 ≤ trailing_zeros 64 w < 64 ∧ Z.testbit w (trailing_zeros 64 w) = true ∧
  ∀ i, i < trailing_zeros 64 w → Z.testbit w i = false.
Proof.
  intros Hw Hn. destruct w as [|p|p]; [done| |destruct Hw; lia]. cbn [trailing_zeros].
  destruct (pos_lowest_bit p) as (? & Ht & ?). split_and!; try done.
  destruct (Z.lt_ge_cases (pos_trailing_zeros p) 64) as [|Hge]; [done|].
  rewrite (is_uint_high 64) in Ht by (done || lia). done.
Qed.

(** The first element of a filtered sorted list *)
Lemma filter_first (P P' : Z → Prop) `{!∀ x, Decision (P x), !∀ x, Decision (P' x)} k l :
  StronglySorted Z.lt l → k ∈ l → P k → (∀ i, i < k → ¬ P i) → (∀ i, P' i ↔ P i ∧ i ≠ k) →
  filter P l = k :: filter P' l.
Proof.
  intros Hs Hk HP Hlt HP'. induction Hs as [|x l Hs IH Hx]; [by apply elem_of_nil in Hk|].
  rewrite list.Forall_forall in Hx. rewrite !filter_cons. destruct (decide (x = k)) as [->|Hne].
  - rewrite decide_True by done. rewrite (decide_False (P := P' k)) by (rewrite HP'; tauto). f_equal.
    apply filter_ext_in. intros y Hy%Hx. rewrite HP'. intuition lia.
  - apply elem_of_cons in Hk as [?|Hk]; [congruence|].
    assert (¬ P x) by (apply Hlt; specialize (Hx k Hk); lia).
    rewrite !decide_False by (rewrite ?HP'; tauto). by apply IH.
Qed.

Lemma seq64_sorted : StronglySorted Z.lt (seqZ 0 64).
Proof. apply seqZ_sorted. Qed.

Lemma ones_of_zero : ones_of 0 = [].
Proof. done. Qed.

Lemma elem_ones_of w k : k ∈ ones_of w ↔ 0 ≤ k < 64 ∧ Z.testbit w k = true.
Proof. unfold ones_of. rewrite list_elem_of_filter, elem_of_seqZ. split; [intros [? ?]|intros [? ?]]; split; done || lia. Qed.

Lemma ones_of_step w : is_uint 64 w → w ≠ 0 →
  let k := trailing_zeros 64 w in
  is_uint 64 (Z.lxor w (wshl 64 1 k)) ∧ 0 ≤ k < 64 ∧
  ones_of w = k :: ones_of (Z.lxor w (wshl 64 1 k)).
Proof.
  intros Hw Hn k. destruct (trailing_zeros_spec w Hw Hn) as (Hk & Ht & Hl). fold k in Hk, Ht, Hl.
  assert (wshl 64 1 k = 2 ^ k) as ->.
  { rewrite wshl_small, Z.mul_1_l by lia. apply wrap_small, pow2_uint. lia. }
  assert (∀ i, Z.testbit (Z.lxor w (2 ^ k)) i = Z.testbit w i && negb (i =? k)) as Hb.
  { intros i. rewrite Z.lxor_spec, pow2_testbit by lia. destruct (Z.eqb_spec i k) as [->|].
    - by rewrite Ht.
    - by rewrite xorb_false_r, andb_true_r. }
  split_and!; try lia.
  - apply is_uint_bits; [lia|]. split.
    + apply Z.lxor_nonneg. split; intros _; [apply Z.pow_nonneg; lia|]. by destruct Hw.
    + intros i Hi. rewrite Hb, (is_uint_high 64) by (done || lia). done.
  - apply filter_first.
    + apply seqZ_sorted.
    + apply elem_of_seqZ. lia.
    + done.
    + intros i Hi. by rewrite Hl.
    + intros i. rewrite Hb, andb_true_iff, negb_true_iff, Z.eqb_neq. tauto.
Qed.

(** * The iterator *)

Section Iter.
Context `{Idx}.

(** An iterator past its initial state, all of whose items are below [top] *)
Definition iter_ok (top w off : Z) (ws : list Z) : Prop :=
  is_uint 64 w ∧ Forall (is_uint 64) ws ∧
  0 ≤ off ∧ off + 64 * (1 + Z.of_nat (length ws)) ≤ 2 ^ 64 ∧
  Forall (λ x, x < top) (items off (w :: ws)).

(** A word with bits left gives its lowest one. *)
Lemma next_loop_bit top w off ws :
  iter_ok top w off ws → top ≤ idx_max + 1 → w ≠ 0 →
  ∃ x xs w', items off (w :: ws) = x :: xs ∧
    BitIter.next_loop w off ws =
      Ret (Some (x, {| BitIter.word := w'; BitIter.offset := off; BitIter.iter := ws |})) ∧
    iter_ok top w' off ws ∧ items off (w' :: ws) = xs.
Proof.
  intros (Hw & Hws & Hoff & Hlen & Htop) Hmax Hn.
  destruct (ones_of_step w Hw Hn) as (Hw' & Hk & E). cbn zeta in *.
  assert (BitIter.next_loop w off ws = let! r := BitIter.take_bit w off ws in Ret (Some r)) as ->.
  { destruct ws; cbn [BitIter.next_loop]; by rewrite (proj2 (Z.eqb_neq w 0)). }
  cbn [items] in *. rewrite E in *. rewrite fmap_cons in *. cbn [app] in *.
  apply Forall_inv in Htop as Hx. apply Forall_inv_tail in Htop.
  unfold BitIter.take_bit, wadd. rewrite (Z.add_comm _ off), wrap_small by (unfold is_uint; lia).
  unfold idx_new. rewrite (proj2 (Z.leb_le _ _)) by lia. cbn [rassert obind].
  eexists _, _, _. split; [done|]. split; [done|]. split; [|done]. done.
Qed.

Lemma next_loop_spec top ws : ∀ w off,
  iter_ok top w off ws → top ≤ idx_max + 1 →
  match items off (w :: ws) with
  | [] => BitIter.next_loop w off ws = Ret None
  | x :: xs => ∃ w' off' ws',
      BitIter.next_loop w off ws =
        Ret (Some (x, {| BitIter.word := w'; BitIter.offset := off'; BitIter.iter := ws' |})) ∧
      iter_ok top w' off' ws' ∧ items off' (w' :: ws') = xs
  end.
Proof.
  induction ws as [|w' ws IH]; intros w off Hok Hmax.
  all: destruct (decide (w = 0)) as [->|Hn];
    [|destruct (next_loop_bit top w off _ Hok Hmax Hn) as (x & xs & w2 & -> & -> & ? & ?);
      by eexists _, _, _].
  { done. }
  destruct Hok as (Hw & Hws & Hoff & Hlen & Htop). cbn [length] in Hlen.
  apply Forall_inv in Hws as Hw'. apply Forall_inv_tail in Hws.
  change (items off (0 :: w' :: ws)) with (items (off + 64) (w' :: ws)) in *.
  change (BitIter.next_loop 0 off (w' :: ws)) with (BitIter.next_loop w' (wadd 64 off 64) ws).
  unfold wadd. rewrite wrap_small by (unfold is_uint; lia).
  apply (IH w' (off + 64)); [|done]. split_and!; try done; lia.
Qed.

Lemma collect_loop_spec top fuel : ∀ w off ws,
  iter_ok top w off ws → top ≤ idx_max + 1 → (length (items off (w :: ws)) < fuel)%nat →
  BitIter.collect_loop fuel {| BitIter.word := w; BitIter.offset := off; BitIter.iter := ws |}
  = Ret (items off (w :: ws)).
Proof.
  induction fuel as [|fuel IH]; intros w off ws Hok Hmax Hf; [lia|]. cbn [BitIter.collect_loop].
  unfold BitIter.next. cbn [BitIter.word BitIter.offset BitIter.iter].
  pose proof (next_loop_spec top ws w off Hok Hmax) as Hn.
  destruct (items off (w :: ws)) as [|x xs]; [by rewrite Hn|].
  destruct Hn as (w' & off' & ws' & -> & Hok' & <-). cbn [obind length] in *.
  rewrite (IH w' off' ws') by (done || lia). done.
Qed.

Lemma length_ones_of w : (length (ones_of w) ≤ 64)%nat.
Proof. unfold ones_of. etrans; [apply length_filter|]. by rewrite length_seqZ. Qed.

Lemma length_items ws : ∀ off, (length (items off ws) ≤ 64 * length ws)%nat.
Proof.
  induction ws as [|w ws IH]; intros off; [done|]. cbn [items length].
  rewrite length_app, length_fmap. specialize (IH (off + 64)). pose proof (length_ones_of w). lia.
Qed.

Lemma elem_items ws : ∀ off x, Forall (is_uint 64) ws →
  x ∈ items off ws ↔ off ≤ x ∧ bit ws (x - off) = true.
Proof.
  induction ws as [|w ws IH]; intros off x Hu.
  { cbn. rewrite elem_of_nil. split; [done|]. intros [_ Hb]. done. }
  apply Forall_inv in Hu as Hw. apply Forall_inv_tail in Hu. cbn [items].
  rewrite elem_of_app, IH, list_elem_of_fmap by done.
  split.
  - intros [(k & -> & [Hk Hb]%elem_ones_of)|[Hx Hb]].
    + split; [lia|]. replace (off + k - off) with (64 * Z.of_nat 0 + k) by lia. by rewrite bit_at.
    + split; [lia|]. destruct (word_bit (x - (off + 64))) as (i & k & E & Hk & _); [lia|].
      rewrite E, bit_at in Hb by done.
      replace (x - off) with (64 * Z.of_nat (S i) + k) by lia. by rewrite bit_at.
  - intros [Hx Hb]. destruct (word_bit (x - off)) as (i & k & E & Hk & _); [lia|].
    rewrite E, bit_at in Hb by done. destruct i as [|i]; cbn in Hb.
    + left. exists k. split; [lia|]. by apply elem_ones_of.
    + right. split; [lia|]. replace (x - (off + 64)) with (64 * Z.of_nat i + k) by lia. by rewrite bit_at.
Qed.

Lemma items_sorted ws : ∀ off, Forall (is_uint 64) ws → StronglySorted Z.lt (items off ws).
Proof.
  induction ws as [|w ws IH]; intros off Hu; [constructor|].
  apply Forall_inv_tail in Hu. cbn [items]. apply StronglySorted_app_2.
  - intros x y (k & -> & [? _]%elem_ones_of)%list_elem_of_fmap [? _]%elem_items; [lia|done].
  - assert (StronglySorted Z.lt (ones_of w)) as Hs by (apply sorted_filter, seqZ_sorted).
    induction Hs as [|k l Hs IHs Hk]; cbn; constructor; [done|].
    apply Forall_fmap. eapply List.Forall_impl; [|exact Hk]. cbn. lia.
  - by apply IH.
Qed.

(** A fresh iterator over words whose bits are below [top] *)
Lemma collect_items top ws :
  Forall (is_uint 64) ws → 64 * Z.of_nat (length ws) ≤ 2 ^ 64 →
  (∀ x, top ≤ x → bit ws x = false) → 0 ≤ top ≤ idx_max + 1 →
  BitIter.collect ws = Ret (items 0 ws).
Proof.
  intros Hu Hl Hb Hmax. unfold BitIter.collect, BitIter.new.
  assert (Forall (λ x, x < top) (items 0 ws)) as Htop.
  { apply list.Forall_forall. intros x Hx. apply elem_items in Hx as [_ Hx]; [|done].
    rewrite Z.sub_0_r in Hx. destruct (Z.lt_ge_cases x top) as [|Hge]; [done|]. by rewrite Hb in Hx. }
  pose proof (length_items ws 0) as Hlen.
  destruct ws as [|w ws]; [done|]. cbn [BitIter.collect_loop].
  unfold BitIter.next. cbn [BitIter.word BitIter.offset BitIter.iter].
  change (BitIter.next_loop 0 (umax 64 - (WORD_BITS - 1)) (w :: ws)) with (BitIter.next_loop w 0 ws).
  assert (iter_ok top w 0 ws) as Hok.
  { apply Forall_inv in Hu as Hwu. apply Forall_inv_tail in Hu. cbn [length] in Hl. split_and!; try done; lia. }
  pose proof (next_loop_spec top ws w 0 Hok ltac:(lia)) as Hnext.
  destruct (items 0 (w :: ws)) as [|x xs]; [by rewrite Hnext|].
  destruct Hnext as (w' & off' & ws' & -> & Hok' & <-). cbn [obind length] in *.
  rewrite (collect_loop_spec top) by (done || lia). done.
Qed.

(** All the elements in increasing order *)
Lemma iter_dense dom s :
  wf_bitset dom s → dom ≤ idx_max + 1 →
  BitSet.iter s = Ret (items 0 (BitSet.words s)) ∧
  StronglySorted Z.lt (items 0 (BitSet.words s)) ∧
  ∀ x, x ∈ items 0 (BitSet.words s) ↔ x ∈ s.
Proof.
  intros [_ Hw] Hmax. pose proof (wfw_uint _ _ Hw) as Hu.
  pose proof (num_words_bounds _ (wfw_domain _ _ Hw)) as Hn.
  pose proof (wfw_length _ _ Hw) as Hl. pose proof (wfw_domain _ _ Hw) as Hd. unfold dense_domain in Hd.
  split_and!; [|by apply items_sorted|].
  - apply (collect_items dom); [done|lia|apply Hw|lia].
  - intros x. rewrite elem_items by done. by rewrite Z.sub_0_r.
Qed.

End Iter.

(** * Counting *)

Lemma count_ones_double z : 0 ≤ z → count_ones z = Z.b2z (Z.odd z) + count_ones (Z.div2 z).
Proof. intros. destruct z as [|[p|p|]|]; [done..|lia]. Qed.

Lemma filter_of_fmap {A B} (f : A → B) (P : B → Prop) `{!∀ x, Decision (P x)} (l : list A) :
  filter P (f <$> l) = f <$> filter (P ∘ f) l.
Proof.
  induction l as [|x l IH]; [done|]. rewrite fmap_cons, !filter_cons. unfold compose at 1.
  destruct (decide (P (f x))); by rewrite ?fmap_cons, IH.
Qed.

Lemma count_ones_filter n : ∀ z, 0 ≤ z < 2 ^ Z.of_nat n →
  count_ones z = Z.of_nat (length (filter (λ k, Z.testbit z k = true) (seqZ 0 (Z.of_nat n)))).
Proof.
  induction n as [|n IH]; intros z Hz.
  { assert (z = 0) as -> by (cbn in Hz; lia). done. }
  rewrite Nat2Z.inj_succ, Z.pow_succ_r in Hz by lia.
  rewrite count_ones_double by lia. pose proof (Z.div2_odd z) as E.
  assert (0 ≤ Z.b2z (Z.odd z) ≤ 1) by (destruct (Z.odd z); cbn; lia).
  rewrite (IH (Z.div2 z)) by lia.
  rewrite (seqZ_cons 0 (Z.of_nat (S n))) by lia. replace (Z.pred (Z.of_nat (S n))) with (Z.of_nat n) by lia.
  change (Z.succ 0) with (1 + 0). rewrite <- (fmap_add_seqZ 1 0), filter_cons, filter_of_fmap, Z.bit0_odd.
  rewrite (filter_ext_in ((λ k, Z.testbit z k = true) ∘ Z.add 1) (λ k, Z.testbit (Z.div2 z) k = true)).
  - destruct (Z.odd z); [rewrite decide_True by done|rewrite decide_False by done];
      cbn [length]; rewrite length_fmap; cbn [Z.b2z]; lia.
  - intros k [? ?]%elem_of_seqZ. unfold compose. rewrite Z.div2_spec, Z.shiftr_spec by lia.
    by rewrite Z.add_comm.
Qed.

Lemma count_items ws : ∀ off, Forall (is_uint 64) ws →
  foldr Z.add 0 (count_ones <$> ws) = Z.of_nat (length (items off ws)).
Proof.
  induction ws as [|w ws IH]; intros off Hu; [done|].
  apply Forall_inv in Hu as Hw. apply Forall_inv_tail in Hu. cbn [items fmap list_fmap foldr].
  rewrite length_app, length_fmap, (IH (off + 64)) by done.
  unfold ones_of. rewrite (count_ones_filter 64) by done. change (Z.of_nat 64) with 64. lia.
Qed.

(** Sorted lists without duplicates with the same elements are equal. *)
Lemma sorted_ext (l l' : list Z) : StronglySorted Z.lt l → StronglySorted Z.lt l' →
  (∀ x, x ∈ l ↔ x ∈ l') → l = l'.
Proof.
  intros Hl. revert l'. induction Hl as [|x l Hl IH Hx]; intros l' Hl' H.
  { destruct l' as [|y l']; [done|]. specialize (H y). rewrite elem_of_nil, elem_of_cons in H. tauto. }
  destruct Hl' as [|y l' Hl' Hy].
  { specialize (H x). rewrite elem_of_nil, elem_of_cons in H. tauto. }
  rewrite list.Forall_forall in Hx, Hy.
  assert (x = y) as <-.
  { pose proof (proj1 (H x) ltac:(left)) as [?|Hxy]%elem_of_cons; [done|].
    pose proof (proj2 (H y) ltac:(left)) as [?|Hyx]%elem_of_cons; [done|].
    specialize (Hx _ Hyx). specialize (Hy _ Hxy). lia. }
  f_equal. apply IH; [done|]. intros z. specialize (H z). rewrite !elem_of_cons in H.
  specialize (Hx z). specialize (Hy z).
  split; intros Hz; [destruct (proj1 H ltac:(by right)) as [->|]|destruct (proj2 H ltac:(by right)) as [->|]];
    try done; [specialize (Hx Hz)|specialize (Hy Hz)]; lia.
Qed.

(** * Ranges *)

(** Words with the same length and the bits of [new] *)
Definition words_become (ws ws' : list Z) (new : Z → bool) : Prop :=
  length ws' = length ws ∧ Forall (is_uint 64) ws' ∧
  ∀ x, 0 ≤ x < 64 * Z.of_nat (length ws) → bit ws' x = new x.

Lemma or_word_spec ws i bits :
  Forall (is_uint 64) ws → (i < length ws)%nat → is_uint 64 bits →
  ∃ ws', BitSet.or_word ws i bits = Ret ws' ∧
    words_become ws ws' (λ x, bit ws x || (x / 64 =? Z.of_nat i) && Z.testbit bits (x mod 64)).
Proof.
  intros Hu Hi Hb. unfold BitSet.or_word, index, index_set.
  destruct (lookup_lt_is_Some_2 ws i Hi) as [w Hw]. rewrite Hw. cbn [unwrap obind].
  rewrite (proj2 (Nat.ltb_lt _ _)) by done. cbn [rassert]. eexists. split; [done|]. split_and!.
  - by rewrite length_insert.
  - apply Forall_insert; [done|]. apply is_uint_lor; [lia| |done]. apply (Forall_lookup_1 _ _ _ _ Hu Hw).
  - intros x [Hx _]. rewrite bit_insert by done. destruct (decide _) as [E|E].
    + rewrite Z.lor_spec, E, Z.eqb_refl. unfold bit. by rewrite E, Nat2Z.id, Hw.
    + rewrite (proj2 (Z.eqb_neq _ _)) by done. by rewrite orb_false_r.
Qed.

Lemma fill_words_spec n : ∀ a ws,
  Forall (is_uint 64) ws → (a + n ≤ length ws)%nat →
  ∃ ws', fold_outcome (λ ws i, index_set ws i (wnot 64 0)) (seq a n) ws = Ret ws' ∧
    words_become ws ws' (λ x, bit ws x || (Z.of_nat a <=? x / 64) && (x / 64 <? Z.of_nat (a + n))).
Proof.
  induction n as [|n IH]; intros a ws Hu Hl.
  { exists ws. split; [done|]. split_and!; try done. intros x Hx. symmetry.
    destruct (Z.leb_spec (Z.of_nat a) (x / 64)), (Z.ltb_spec (x / 64) (Z.of_nat (a + 0)));
      try lia; apply orb_false_r. }
  cbn [seq fold_outcome]. unfold index_set at 1. rewrite (proj2 (Nat.ltb_lt _ _)) by lia. cbn [rassert obind].
  destruct (IH (S a) (<[a := wnot 64 0]> ws)) as (ws' & Hr & Hlen & Hu' & Hb).
  { by apply Forall_insert. }
  { rewrite length_insert. lia. }
  rewrite length_insert in Hlen, Hb. exists ws'. split; [done|]. split_and!; [done|done|].
  intros x Hx. rewrite Hb, bit_insert by lia. pose proof (div_mod_64 x).
  destruct (decide (x / 64 = Z.of_nat a)) as [E|E].
  - rewrite wnot_zero_testbit by lia.
    destruct (Z.leb_spec (Z.of_nat a) (x / 64)), (Z.ltb_spec (x / 64) (Z.of_nat (a + S n))); try lia.
  - f_equal. destruct (Z.leb_spec (Z.of_nat a) (x / 64)), (Z.leb_spec (Z.of_nat (S a)) (x / 64)),
      (Z.ltb_spec (x / 64) (Z.of_nat (a + S n))), (Z.ltb_spec (x / 64) (Z.of_nat (S a + n)));
      done || lia.
Qed.

(** The masks of the two ends of a range *)
Lemma start_mask_spec s i : 0 ≤ s < 64 → 0 ≤ i < 64 →
  is_uint 64 (wnot 64 (wsub 64 (2 ^ s) 1)) ∧
  Z.testbit (wnot 64 (wsub 64 (2 ^ s) 1)) i = (s <=? i).
Proof.
  intros Hs Hi. pose proof (pow2_uint 64 s Hs) as Hp. pose proof (pow2_pos s ltac:(lia)).
  unfold wsub. rewrite wrap_small by (unfold is_uint in *; lia).
  assert (is_uint 64 (2 ^ s - 1)) as Hu by (unfold is_uint in *; lia).
  split; [by apply wnot_uint|]. rewrite wnot_testbit, ones_testbit by (done || lia).
  destruct (Z.ltb_spec i s), (Z.leb_spec s i); done || lia.
Qed.

Lemma end_mask_spec e i : 0 ≤ e < 64 → 0 ≤ i < 64 →
  is_uint 64 (Z.lor (2 ^ e) (wsub 64 (2 ^ e) 1)) ∧
  Z.testbit (Z.lor (2 ^ e) (wsub 64 (2 ^ e) 1)) i = (i <=? e).
Proof.
  intros He Hi. pose proof (pow2_uint 64 e He) as Hp. pose proof (pow2_pos e ltac:(lia)).
  unfold wsub. rewrite wrap_small by (unfold is_uint in *; lia).
  split; [apply is_uint_lor; [lia|done|unfold is_uint in *; lia]|].
  rewrite Z.lor_spec, pow2_testbit, ones_testbit by lia.
  destruct (Z.eqb_spec i e), (Z.ltb_spec i e), (Z.leb_spec i e); done || lia.
Qed.

Lemma both_mask_spec s e i : 0 ≤ s ≤ e → e < 64 → 0 ≤ i < 64 →
  is_uint 64 (Z.lor (2 ^ e) (wsub 64 (2 ^ e) (2 ^ s))) ∧
  Z.testbit (Z.lor (2 ^ e) (wsub 64 (2 ^ e) (2 ^ s))) i = (s <=? i) && (i <=? e).
Proof.
  intros Hs He Hi. pose proof (pow2_uint 64 e ltac:(lia)) as Hp. pose proof (pow2_pos s ltac:(lia)).
  assert (2 ^ s ≤ 2 ^ e) by (apply Z.pow_le_mono_r; lia).
  unfold wsub. rewrite wrap_small by (unfold is_uint in *; lia).
  split; [apply is_uint_lor; [lia|done|unfold is_uint in *; lia]|].
  replace (2 ^ e - 2 ^ s) with (Z.shiftl (2 ^ (e - s) - 1) s).
  2: { rewrite shiftl_mul, Z.mul_sub_distr_r, <- Z.pow_add_r by lia. f_equal; [f_equal; lia|lia]. }
  rewrite Z.lor_spec, pow2_testbit by lia. destruct (decide (s ≤ i)).
  - rewrite Z.shiftl_spec, ones_testbit by lia.
    destruct (Z.eqb_spec i e), (Z.ltb_spec (i - s) (e - s)), (Z.leb_spec s i), (Z.leb_spec i e); done || lia.
  - rewrite Z.shiftl_spec_low by lia.
    destruct (Z.eqb_spec i e), (Z.leb_spec s i); done || lia.
Qed.

(** The ranges the dense sets accept: their end is asserted to be in the domain,
    which an open end of an empty domain is not. *)
Definition bit_range_ok (dom : Z) (r : RangeBounds Z) : Prop :=
  match start_bound r with
  | Included a => 0 ≤ a | Excluded a => 0 ≤ a < 2 ^ 64 - 1 | Unbounded => True
  end ∧
  match end_bound r with
  | Included b => 0 ≤ b < dom | Excluded b => 0 ≤ b ≤ dom | Unbounded => 0 < dom
  end.

Lemma inclusive_start_end_spec dom r :
  dense_domain dom → bit_range_ok dom r →
  ∃ o, inclusive_start_end r dom = Ret o ∧
    match o with
    | None => ∀ x, ¬ in_range dom r x
    | Some (s, e) => 0 ≤ s ≤ e ∧ e < dom ∧ ∀ x, in_range dom r x ↔ s ≤ x ≤ e
    end.
Proof.
  unfold dense_domain, bit_range_ok, in_range, inclusive_start_end. intros Hd [Hs He].
  set (start := match start_bound r with Included _ => _ | _ => _ end).
  assert (0 ≤ start ∧ ∀ x, 0 ≤ x → match start_bound r with
    | Included a => a ≤ x | Excluded a => a < x | Unbounded => True end ↔ start ≤ x) as [H0 Hstart].
  { unfold start, wadd. destruct (start_bound r) as [a|a|]; [| |]; try (split; [lia|intros; lia]).
    rewrite wrap_small by (unfold is_uint; lia). split; [lia|intros; lia]. }
  set (o := match end_bound r with Included _ => _ | _ => _ end).
  assert (match o with
    | Some e => e < dom ∧ ∀ x, match end_bound r with
        | Included b => x ≤ b | Excluded b => x < b | Unbounded => x < dom end ↔ x ≤ e
    | None => ∀ x, 0 ≤ x → ¬ match end_bound r with
        | Included b => x ≤ b | Excluded b => x < b | Unbounded => x < dom end end) as Ho.
  { unfold o, checked_sub, wsub. destruct (end_bound r) as [b|b|].
    - split; [lia|intros; lia].
    - destruct (Z.leb_spec 1 b); [split; [lia|intros; lia]|intros; lia].
    - rewrite wrap_small by (unfold is_uint; lia). split; [lia|intros; lia]. }
  clearbody o start. destruct o as [e|].
  - destruct Ho as [? Ho]. rewrite (proj2 (Z.ltb_lt _ _)) by done. cbn [rassert].
    destruct (Z.ltb_spec e start).
    + exists None. split; [done|]. intros x (Hx & Ha%Hstart & Hz%Ho); lia.
    + exists (Some (start, e)). split; [done|]. split_and!; [lia..|].
      intros x. rewrite Ho. split.
      * intros (? & Ha%Hstart & ?); lia.
      * intros [? ?]. split_and!; [lia|apply Hstart; lia|lia].
  - exists None. split; [done|]. intros x (Hx & _ & Hz). by apply (Ho x).
Qed.

(** Case analysis on the comparisons of a goal, for boolean equations *)
Ltac bool_cases :=
  repeat match goal with
  | |- context [?a <=? ?b] => destruct (Z.leb_spec a b)
  | |- context [?a <? ?b] => destruct (Z.ltb_spec a b)
  | |- context [?a =? ?b] => destruct (Z.eqb_spec a b)
  end; cbn; done || lia.

(** The bits after [fill_range] *)
Lemma fill_range_spec ws st e :
  Forall (is_uint 64) ws → 0 ≤ st ≤ e → e < 64 * Z.of_nat (length ws) →
  ∃ ws', BitSet.fill_range ws st e = Ret ws' ∧
    words_become ws ws' (λ x, bit ws x || (st <=? x) && (x <=? e)).
Proof.
  intros Hu Hse He. unfold BitSet.fill_range, word_index_and_mask. rewrite !mask_pow2.
  change WORD_BITS with 64.
  destruct (word_bit st) as (i & k & Es & Hk & -> & ->); [lia|].
  destruct (word_bit e) as (j & l & Ee & Hl & -> & ->); [lia|]. rewrite !Nat2Z.id.
  destruct (fill_words_spec (j - (i + 1)) (i + 1) ws Hu) as (w1 & -> & Hl1 & Hu1 & Hb1); [lia|].
  cbn [obind]. destruct (Nat.eqb_spec i j) as [->|Hne]; cbn [negb].
  - destruct (both_mask_spec k l 0) as [Hm _]; [lia..|].
    destruct (or_word_spec w1 j _ Hu1 ltac:(lia) Hm) as (w2 & -> & Hl2 & Hu2 & Hb2).
    exists w2. split; [done|]. split_and!; [congruence|done|]. intros x Hx.
    rewrite Hb2, Hb1 by (rewrite ?Hl1; lia). destruct (word_bit x) as (m & n & -> & Hn & -> & ->); [lia|].
    rewrite (proj2 (both_mask_spec k l n ltac:(lia) ltac:(lia) Hn)).
    rewrite <- orb_assoc. f_equal. subst st e. bool_cases.
  - destruct (start_mask_spec k 0) as [Hm1 _]; [lia..|]. destruct (end_mask_spec l 0) as [Hm2 _]; [lia..|].
    destruct (or_word_spec w1 i _ Hu1 ltac:(lia) Hm1) as (w2 & -> & Hl2 & Hu2 & Hb2). cbn [obind].
    destruct (or_word_spec w2 j _ Hu2 ltac:(lia) Hm2) as (w3 & -> & Hl3 & Hu3 & Hb3).
    exists w3. split; [done|]. split_and!; [congruence|done|]. intros x Hx.
    rewrite Hb3, Hb2, Hb1 by (rewrite ?Hl2, ?Hl1; lia).
    destruct (word_bit x) as (m & n & -> & Hn & -> & ->); [lia|].
    rewrite (proj2 (start_mask_spec k n ltac:(lia) Hn)), (proj2 (end_mask_spec l n ltac:(lia) Hn)).
    rewrite <- !orb_assoc. f_equal. subst st e. bool_cases.
Qed.

Lemma insert_range_dense dom s r :
  wf_bitset dom s → bit_range_ok dom r →
  ∃ s', BitSet.insert_range s r = Ret s' ∧ wf_bitset dom s' ∧
    ∀ x, dense_elem s' x ↔ dense_elem s x ∨ in_range dom r x.
Proof.
  intros [Hd Hw] Hr. unfold BitSet.insert_range. rewrite Hd.
  destruct (inclusive_start_end_spec dom r (wfw_domain _ _ Hw) Hr) as (o & -> & Ho). cbn [obind].
  destruct o as [[st e]|].
  2: { exists s. split_and!; try done. intros x. specialize (Ho x). tauto. }
  destruct Ho as (Hse & He & Hin). pose proof (num_words_bounds _ (wfw_domain _ _ Hw)) as Hnw.
  pose proof (wfw_length _ _ Hw) as Hl0.
  destruct (fill_range_spec (BitSet.words s) st e (wfw_uint _ _ Hw)) as (ws' & -> & Hlen & Hu' & Hb); [lia..|].
  cbn [obind]. exists (BitSet.with_words s ws'). split; [done|].
  assert (∀ x, 0 ≤ x → bit ws' x = bit (BitSet.words s) x || (st <=? x) && (x <=? e)) as Hb'.
  { intros x Hx. destruct (decide (x < 64 * Z.of_nat (length (BitSet.words s)))); [apply Hb; lia|].
    rewrite !bit_beyond by lia. bool_cases. }
  split.
  - split; [done|]. cbn [BitSet.words BitSet.with_words]. split; [apply Hw|congruence|done|].
    intros x Hx. destruct (wfw_domain _ _ Hw). rewrite Hb', (wfw_excess _ _ Hw) by lia. bool_cases.
  - intros x. rewrite Hin. unfold dense_elem. cbn [BitSet.words BitSet.with_words]. split.
    + intros [Hx Hbx]. rewrite Hb', orb_true_iff, andb_true_iff, !Z.leb_le in Hbx by done. tauto.
    + intros Hx. assert (0 ≤ x) by lia. rewrite Hb', orb_true_iff, andb_true_iff, !Z.leb_le by done. tauto.
Qed.

(** * The last element in a range *)

Lemma max_bit_spec w : is_uint 64 w → w ≠ 0 →
  max_bit w = Z.log2 w ∧ 0 ≤ Z.log2 w < 64 ∧ Z.testbit w (Z.log2 w) = true ∧
  ∀ i, Z.log2 w < i → Z.testbit w i = false.
Proof.
  intros Hw Hn. destruct Hw as [H0 H1].
  assert (0 ≤ Z.log2 w < 64) as Hl.
  { split; [apply Z.log2_nonneg|]. apply Z.log2_lt_pow2; lia. }
  split_and!; [|lia|lia|apply Z.bit_log2; lia|intros; apply Z.bits_above_log2; lia].
  unfold max_bit, leading_zeros, WORD_BITS, wsub. rewrite (proj2 (Z.eqb_neq w 0)) by done.
  replace (64 - 1 - (63 - Z.log2 w)) with (Z.log2 w) by lia. apply wrap_small. unfold is_uint. lia.
Qed.

Lemma rposition_spec {A} (p : A → bool) l :
  match rposition p l with
  | Some i => (∃ x, l !! i = Some x ∧ p x = true) ∧ ∀ j y, (i < j)%nat → l !! j = Some y → p y = false
  | None => ∀ j y, l !! j = Some y → p y = false
  end.
Proof.
  induction l as [|x l IH]; cbn [rposition]; [done|]. destruct (rposition p l) as [i|].
  - destruct IH as [(y & Hy & Hp) IH]. split; [by exists y|].
    intros [|j] z Hj Hz; [lia|]. apply (IH j z); [lia|done].
  - destruct (p x) eqn:E.
    + split; [by exists x|]. intros [|j] z Hj Hz; [lia|by apply (IH j)].
    + intros [|j] z Hz; [by injection Hz as <-|by apply (IH j)].
Qed.

Lemma subslice_lookup {A} (v : list A) a b : (a ≤ b ≤ length v)%nat →
  ∃ l, subslice v a b = Ret l ∧ ∀ o, l !! o = if decide (a + o < b)%nat then v !! (a + o)%nat else None.
Proof.
  intros Hab. unfold subslice. rewrite !(proj2 (Nat.leb_le _ _)) by lia. cbn [andb rassert].
  eexists. split; [done|]. intros o. rewrite lookup_drop. case_decide.
  - by rewrite lookup_take_lt by lia.
  - by rewrite lookup_take_ge by lia.
Qed.

Section LastSet.
Context `{Idx}.

(** What [last_set_in] answers about [st..=e] *)
Definition last_in (s : BitSet.t) (st e : Z) (o : option Z) : Prop :=
  match o with
  | Some x => st ≤ x ≤ e ∧ dense_elem s x ∧ ∀ y, x < y ≤ e → ¬ dense_elem s y
  | None => ∀ y, st ≤ y ≤ e → ¬ dense_elem s y
  end.

(** The greatest bit of a nonzero word, all above it up to [e] being clear *)
Lemma last_in_word s i w st e :
  is_uint 64 w → w ≠ 0 → 0 ≤ st → 64 * Z.of_nat i + Z.log2 w ≤ e →
  (∀ k, 0 ≤ k < 64 → 64 * Z.of_nat i + k ≤ e →
    bit (BitSet.words s) (64 * Z.of_nat i + k) = Z.testbit w k) →
  (∀ y, 64 * (Z.of_nat i + 1) ≤ y ≤ e → ¬ dense_elem s y) →
  let pos := max_bit w + WORD_BITS * Z.of_nat i in
  (st ≤ pos → last_in s st e (Some pos)) ∧
  (pos < st → last_in s st e None).
Proof.
  intros Hw Hn Hst He Hbit Habove. destruct (max_bit_spec w Hw Hn) as (-> & Hl & Ht & Ha).
  cbv zeta. unfold WORD_BITS. rewrite Z.add_comm.
  assert (∀ y, 64 * Z.of_nat i + Z.log2 w < y ≤ e → ¬ dense_elem s y) as Hgt.
  { intros y Hy Hd. destruct (decide (64 * (Z.of_nat i + 1) ≤ y)); [by apply (Habove y); [lia|]|].
    destruct Hd as [_ Hb]. replace y with (64 * Z.of_nat i + (y - 64 * Z.of_nat i)) in Hb by lia.
    rewrite Hbit, Ha in Hb by lia. done. }
  split.
  - intros Hpos. split_and!; [lia|lia| |done]. split; [lia|]. by rewrite Hbit by lia.
  - intros Hpos y Hy. apply Hgt. lia.
Qed.

(** A position in the domain is an index. *)
Lemma idx_new_some x : x ≤ idx_max → (let! i := idx_new x in Ret (Some i)) = Ret (Some x).
Proof. intros. unfold idx_new. by rewrite (proj2 (Z.leb_le _ _)). Qed.

(** The search in the words before the last one *)
Lemma last_set_search dom s i j st e :
  wf_bitset dom s → dom ≤ idx_max + 1 → e < dom → 0 ≤ st →
  64 * Z.of_nat i ≤ st < 64 * (Z.of_nat i + 1) → (i ≤ j)%nat →
  64 * Z.of_nat j ≤ e → (∀ y, 64 * Z.of_nat j ≤ y ≤ e → ¬ dense_elem s y) →
  ∃ o, (let! ws := subslice (BitSet.words s) i j in
    match rposition (λ w, negb (w =? 0)) ws with
    | Some offset =>
        let word_idx := (i + offset)%nat in
        let! start_word := index (BitSet.words s) word_idx in
        let pos := max_bit start_word + WORD_BITS * Z.of_nat word_idx in
        if st <=? pos then let! i := idx_new pos in Ret (Some i) else Ret None
    | None => Ret None
    end) = Ret o ∧ last_in s st e o.
Proof.
  intros [_ Hw] Hmax He Hst Hi Hij Hj Hno. pose proof (num_words_bounds _ (wfw_domain _ _ Hw)).
  pose proof (wfw_length _ _ Hw).
  destruct (subslice_lookup (BitSet.words s) i j) as (ws & -> & Hws); [lia|]. cbn [obind].
  pose proof (rposition_spec (λ w, negb (w =? 0)) ws) as Hp.
  (* the words after [m] and before [j] are zero *)
  assert (∀ m : nat, (i ≤ m)%nat → (∀ n w, (m < n)%nat → ws !! (n - i)%nat = Some w → negb (w =? 0) = false) →
    ∀ y, 64 * (Z.of_nat m + 1) ≤ y ≤ e → ¬ dense_elem s y) as Hzero.
  { intros m Hm Hz y Hy Hd. destruct (decide (64 * Z.of_nat j ≤ y)); [by apply (Hno y); [lia|]|].
    destruct Hd as [Hy0 Hb]. destruct (word_bit y Hy0) as (q & k & -> & Hk & _). rewrite bit_at in Hb by done.
    specialize (Hz q). rewrite Hws in Hz. replace (i + (q - i))%nat with q in Hz by lia.
    rewrite decide_True in Hz by lia. destruct (BitSet.words s !! q) as [w|]; [|done].
    specialize (Hz w ltac:(lia) eq_refl). apply negb_false_iff, Z.eqb_eq in Hz as ->.
    by rewrite Z.bits_0 in Hb. }
  destruct (rposition _ ws) as [off|].
  - destruct Hp as [(w & Hwo & Hwn) Hp]. rewrite Hws in Hwo. case_decide as Hoff; [|done].
    unfold index. rewrite Hwo. cbn [unwrap obind]. apply negb_true_iff, Z.eqb_neq in Hwn.
    pose proof (Forall_lookup_1 _ _ _ _ (wfw_uint _ _ Hw) Hwo) as Hwu.
    pose proof (max_bit_spec w Hwu Hwn) as (Em & Hlw & _).
    destruct (last_in_word s (i + off) w st e) as [Hyes Hnot]; try done; [lia| |
      apply Hzero; [lia|intros n w' Hn; apply Hp; lia]|].
    { intros k Hk _. by rewrite bit_at, Hwo. }
    cbv zeta in *. destruct (Z.leb_spec st (max_bit w + WORD_BITS * Z.of_nat (i + off))) as [Hle|Hgt].
    + rewrite idx_new_some by (rewrite Em; unfold WORD_BITS; lia). eauto.
    + eauto.
  - exists None. split; [done|]. intros y Hy Hd.
    destruct (decide (64 * (Z.of_nat i + 1) ≤ y)).
    + apply (Hzero i (le_n _)) with y; [|lia|done]. intros n w _. apply Hp.
    + destruct (decide (64 * Z.of_nat j ≤ y)); [by apply (Hno y); [lia|]|].
      destruct Hd as [_ Hb]. specialize (Hp 0%nat). rewrite Hws, Nat.add_0_r in Hp.
      rewrite decide_True in Hp by lia. replace y with (64 * Z.of_nat i + (y - 64 * Z.of_nat i)) in Hb by lia.
      rewrite bit_at in Hb by lia. destruct (BitSet.words s !! i) as [w|]; [|done].
      specialize (Hp w eq_refl). apply negb_false_iff, Z.eqb_eq in Hp as ->. by rewrite Z.bits_0 in Hb.
Qed.

Lemma last_set_between_spec dom s st e :
  wf_bitset dom s → dom ≤ idx_max + 1 → 0 ≤ st ≤ e → e < dom →
  ∃ o, BitSet.last_set_between s st e = Ret o ∧ last_in s st e o.
Proof.
  intros Hs Hmax Hse He. pose proof Hs as [_ Hw].
  unfold BitSet.last_set_between, word_index_and_mask. rewrite !mask_pow2. unfold WORD_BITS.
  destruct (word_lookup _ _ e Hw ltac:(lia)) as (w & Hwe & Hwu & _).
  destruct (word_bit st) as (i & k & Es & Hk & -> & _); [lia|].
  destruct (word_bit e) as (j & l & Ee & Hl & Ej & ->); [lia|]. rewrite Ej, Nat2Z.id in *.
  unfold index at 1. rewrite Hwe. cbn [unwrap obind]. rewrite Nat2Z.id.
  destruct (end_mask_spec l 0) as [Hmu _]; [lia..|].
  set (ew := Z.land w _). assert (is_uint 64 ew) as Heu by (apply is_uint_land; [lia|done|by destruct Hmu]).
  assert (∀ n, 0 ≤ n < 64 → 64 * Z.of_nat j + n ≤ e →
    bit (BitSet.words s) (64 * Z.of_nat j + n) = Z.testbit ew n) as Hbit.
  { intros n Hn Hne. unfold ew. rewrite Z.land_spec, (proj2 (end_mask_spec l n ltac:(lia) Hn)).
    rewrite bit_at, Hwe by done. rewrite (proj2 (Z.leb_le _ _)) by lia. by rewrite andb_true_r. }
  destruct (Z.eqb_spec ew 0) as [E0|En]; cbn [negb andb].
  - apply (last_set_search dom); try done; try lia. intros y Hy [_ Hb].
    replace y with (64 * Z.of_nat j + (y - 64 * Z.of_nat j)) in Hb by lia.
    rewrite Hbit, E0, Z.bits_0 in Hb by lia. done.
  - destruct (max_bit_spec ew Heu En) as (Em & Hlw & Ht & _).
    assert (Z.log2 ew ≤ l).
    { unfold ew in Ht at 1. rewrite Z.land_spec, (proj2 (end_mask_spec l _ ltac:(lia) Hlw)) in Ht.
      apply andb_true_iff in Ht as [_ ?%Z.leb_le]. done. }
    destruct (last_in_word s j ew st e) as [Hyes Hnot]; try done; [lia..|].
    cbv zeta in *. unfold WORD_BITS in *.
    destruct (Z.leb_spec st (max_bit ew + 64 * Z.of_nat j)) as [Hle|Hgt].
    + rewrite idx_new_some by (rewrite Em; lia). eauto.
    + exists None. split; [|by apply Hnot]. rewrite Em in Hgt.
      assert (i = j) as -> by lia. destruct (subslice_lookup (BitSet.words s) j j) as (ws & -> & Hws).
      { split; [done|]. apply lookup_lt_Some in Hwe. lia. }
      destruct ws as [|w' ws]; [done|]. specialize (Hws 0%nat). rewrite decide_False in Hws by lia. done.
Qed.

Lemma last_set_in_dense dom s r :
  wf_bitset dom s → bit_range_ok dom r → dom ≤ idx_max + 1 →
  ∃ o, BitSet.last_set_in s r = Ret o ∧
    match o with
    | Some x => in_range dom r x ∧ dense_elem s x ∧ ∀ y, in_range dom r y → x < y → ¬ dense_elem s y
    | None => ∀ y, in_range dom r y → ¬ dense_elem s y
    end.
Proof.
  intros Hs Hr Hmax. unfold BitSet.last_set_in. pose proof Hs as [Hd Hw]. rewrite Hd.
  destruct (inclusive_start_end_spec dom r (wfw_domain _ _ Hw) Hr) as (o & -> & Ho). cbn [obind].
  destruct o as [[st e]|]; [|exists None; split; [done|]; intros y Hy; by destruct (Ho y)].
  destruct Ho as (Hse & He & Hin).
  destruct (last_set_between_spec dom s st e Hs Hmax Hse He) as (o & -> & Hl). exists o. split; [done|].
  destruct o as [x|].
  - destruct Hl as (? & ? & Hl). split_and!; [by apply Hin|done|]. intros y Hy%Hin ?. apply Hl. lia.
  - intros y Hy%Hin. by apply Hl.
Qed.

End LastSet.
