(* ===== verification/HybridProps.v ===== *)
(** * Properties of sparse, hybrid and growable bit sets

    Sparse sets are sorted arrays, hybrid sets switch from them to dense ones;
    every operation, in each combination of the representations, is the
    operation on sets of integers, with one exception for open ranges. *)

From stdpp Require Import sorting.
From S2P Require Import Prelude.
From S2P Require Import Slice.
From S2P Require Import IndexSet.
From S2P Require Import BitSets.
From S2P Require Import BitSetProps.
From S2P Require Import BitIterProps.

#[export] Instance dense_elem_dec s x : Decision (dense_elem s x).
Proof. unfold dense_elem. apply _. Defined.

(** * Updates by a list of elements *)

Section Sequential.
Context {S : Type} (wf : S → Prop) (E : S → Z → Prop) (ok : Z → Prop).
Context (upd : S → Z → outcome (S * bool)).

(** Insertions one by one *)
Lemma sequential_insert :
  (∀ s x, wf s → ok x → ∃ s' b, upd s x = Ret (s', b) ∧ wf s' ∧
    set_update (E s) (E s') b (λ y, E s y ∨ y = x)) →
  (∀ s y, Decision (E s y)) →
  ∀ l s acc, wf s → Forall ok l →
  ∃ s' b, fold_outcome (λ '(s, changed) elem,
      let! (s, b) := upd s elem in Ret (s, b || changed)) l (s, acc) = Ret (s', b) ∧ wf s' ∧
    (∀ y, E s' y ↔ E s y ∨ y ∈ l) ∧ (b = true ↔ acc = true ∨ ∃ y, y ∈ l ∧ ¬ E s y).
Proof.
  intros Hupd Hdec. induction l as [|x l IH]; intros s acc Hs Hl; cbn [fold_outcome].
  { exists s, acc. split_and!; try done.
    - intros y. rewrite elem_of_nil. tauto.
    - split; [tauto|]. intros [?|(y & Hy & _)]; [done|by apply elem_of_nil in Hy]. }
  apply Forall_inv in Hl as Hx. apply Forall_inv_tail in Hl.
  destruct (Hupd s x Hs Hx) as (s1 & b1 & -> & Hs1 & He1 & Hb1). cbn [obind].
  destruct (IH s1 (b1 || acc) Hs1 Hl) as (s2 & b2 & -> & Hs2 & He2 & Hb2).
  exists s2, b2. split; [done|]. split; [done|]. split.
  - intros y. rewrite He2, He1, elem_of_cons. tauto.
  - rewrite Hb2, orb_true_iff, Hb1.
    assert ((∃ y, ¬ (E s y ↔ E s y ∨ y = x)) ↔ ¬ E s x) as ->.
    { split; [intros (y & Hy)|intros Hn; exists x; tauto].
      destruct (decide (y = x)) as [->|]; tauto. }
    split.
    + intros [[?|?]|(y & Hy & Hn)]; [right; exists x; split; [by left|done]|by left|].
      right. exists y. rewrite He1 in Hn. split; [by right|tauto].
    + intros [?|(y & [->|Hy]%elem_of_cons & Hn)]; [tauto|tauto|].
      destruct (decide (y = x)) as [->|]; [tauto|]. right. exists y. rewrite He1. tauto.
Qed.

(** Removals one by one *)
Lemma sequential_remove :
  (∀ s x, wf s → ok x → ∃ s' b, upd s x = Ret (s', b) ∧ wf s' ∧
    set_update (E s) (E s') b (λ y, E s y ∧ y ≠ x)) →
  (∀ s y, Decision (E s y)) →
  ∀ l s acc, wf s → Forall ok l →
  ∃ s' b, fold_outcome (λ '(s, changed) elem,
      let! (s, b) := upd s elem in Ret (s, b || changed)) l (s, acc) = Ret (s', b) ∧ wf s' ∧
    (∀ y, E s' y ↔ E s y ∧ y ∉ l) ∧ (b = true ↔ acc = true ∨ ∃ y, y ∈ l ∧ E s y).
Proof.
  intros Hupd Hdec. induction l as [|x l IH]; intros s acc Hs Hl; cbn [fold_outcome].
  { exists s, acc. split_and!; try done.
    - intros y. rewrite elem_of_nil. tauto.
    - split; [tauto|]. intros [?|(y & Hy & _)]; [done|by apply elem_of_nil in Hy]. }
  apply Forall_inv in Hl as Hx. apply Forall_inv_tail in Hl.
  destruct (Hupd s x Hs Hx) as (s1 & b1 & -> & Hs1 & He1 & Hb1). cbn [obind].
  destruct (IH s1 (b1 || acc) Hs1 Hl) as (s2 & b2 & -> & Hs2 & He2 & Hb2).
  exists s2, b2. split; [done|]. split; [done|]. split.
  - intros y. rewrite He2, He1, elem_of_cons. tauto.
  - rewrite Hb2, orb_true_iff, Hb1.
    assert ((∃ y, ¬ (E s y ↔ E s y ∧ y ≠ x)) ↔ E s x) as ->.
    { split; [intros (y & Hy)|intros Hn; exists x; tauto].
      destruct (decide (y = x)) as [->|]; [|tauto]. destruct (decide (E s x)); tauto. }
    split.
    + intros [[?|?]|(y & Hy & Hn)]; [right; exists x; split; [by left|done]|by left|].
      right. exists y. rewrite He1 in Hn. split; [by right|tauto].
    + intros [?|(y & [->|Hy]%elem_of_cons & Hn)]; [tauto|tauto|].
      destruct (decide (y = x)) as [->|]; [tauto|]. right. exists y. rewrite He1. tauto.
Qed.

End Sequential.

(** The answers as [set_update] *)
Lemma set_update_added (E E' : Z → Prop) (l : Z → Prop) b :
  (∀ y, Decision (l y)) →
  (∀ y, E' y ↔ E y ∨ l y) → (b = true ↔ ∃ y, l y ∧ ¬ E y) →
  set_update E E' b (λ y, E y ∨ l y).
Proof.
  intros Hdec H1 H2. split; [done|]. rewrite H2. split; intros (y & Hy); exists y; [tauto|].
  destruct (decide (l y)); tauto.
Qed.

Lemma set_update_removed (E E' : Z → Prop) (l : Z → Prop) b :
  (∀ y, Decision (E y)) → (∀ y, Decision (l y)) →
  (∀ y, E' y ↔ E y ∧ ¬ l y) → (b = true ↔ ∃ y, l y ∧ E y) →
  set_update E E' b (λ y, E y ∧ ¬ l y).
Proof.
  intros Hdec Hdec' H1 H2. split; [done|]. rewrite H2. split; intros (y & Hy); exists y; [tauto|].
  destruct (decide (l y)), (decide (E y)); tauto.
Qed.

(** * Sparse sets *)

Record wf_sparse (dom : Z) (s : SparseBitSet.t) : Prop := {
  wfs_domain : SparseBitSet.domain_size s = dom;
  wfs_sorted : StronglySorted Z.lt (SparseBitSet.elems s);
  wfs_below : Forall (λ x, 0 ≤ x < dom) (SparseBitSet.elems s);
  wfs_length : (length (SparseBitSet.elems s) ≤ SPARSE_MAX)%nat;
}.

Definition sparse_elem (s : SparseBitSet.t) (x : Z) : Prop := x ∈ SparseBitSet.elems s.

#[export] Instance sparse_elem_dec s x : Decision (sparse_elem s x).
Proof. unfold sparse_elem. apply _. Defined.

Lemma position_spec {A} (p : A → bool) l :
  match position p l with
  | Some i => ∃ l1 x l2, l = l1 ++ x :: l2 ∧ i = length l1 ∧ p x = true ∧ Forall (λ y, p y = false) l1
  | None => Forall (λ y, p y = false) l
  end.
Proof.
  induction l as [|x l IH]; cbn [position]; [constructor|]. destruct (p x) eqn:E.
  - by exists [], x, l.
  - destruct (position p l) as [i|]; cbn.
    + destruct IH as (l1 & y & l2 & -> & -> & ? & ?). exists (x :: l1), y, l2.
      split_and!; try done. by constructor.
    + by constructor.
Qed.

Lemma sorted_app_inv (l1 l2 : list Z) x :
  StronglySorted Z.lt (l1 ++ x :: l2) →
  StronglySorted Z.lt (l1 ++ l2) ∧ Forall (λ y, y < x) l1 ∧ Forall (λ y, x < y) l2.
Proof.
  rewrite !StronglySorted_app. intros (H1 & H2 & H3). inversion H3 as [|? ? Hs Hx]; subst.
  split_and!; try done.
  - intros y z Hy Hz. apply H1; [done|by right].
  - apply list.Forall_forall. intros y Hy. apply H1; [done|by left].
Qed.

Lemma sorted_insert (l1 l2 : list Z) x :
  StronglySorted Z.lt (l1 ++ l2) → Forall (λ y, y < x) l1 → Forall (λ y, x < y) l2 →
  StronglySorted Z.lt (l1 ++ x :: l2).
Proof.
  rewrite !StronglySorted_app. intros (H1 & H2 & H3) Hl1 Hl2. rewrite list.Forall_forall in Hl1, Hl2.
  split_and!; [|done|].
  - intros y z Hy [->|Hz]%elem_of_cons; [by apply Hl1|by apply H1].
  - constructor; [done|]. by apply list.Forall_forall.
Qed.

Lemma contains_sparse dom s x : wf_sparse dom s → 0 ≤ x < dom →
  SparseBitSet.contains s x = Ret (bool_decide (sparse_elem s x)).
Proof.
  intros [Hd _ _ _] Hx. unfold SparseBitSet.contains. rewrite Hd, (proj2 (Z.ltb_lt _ _)) by lia.
  cbn [rassert]. f_equal. apply eq_true_iff_eq. rewrite bool_decide_eq_true, existsb_exists.
  unfold sparse_elem. split.
  - intros (y & Hy%list_elem_of_In & Heq%Z.eqb_eq). by subst y.
  - intros Hy%list_elem_of_In. exists x. by rewrite Z.eqb_refl.
Qed.

Section Sparse.
Context {A : ArrayVecApi} {AL : ArrayVecLaws A}.

Lemma insert_sparse dom s x :
  wf_sparse dom s → 0 ≤ x < dom → (length (SparseBitSet.elems s) < SPARSE_MAX)%nat →
  ∃ s' b, SparseBitSet.insert s x = Ret (s', b) ∧ wf_sparse dom s' ∧
    set_update (sparse_elem s) (sparse_elem s') b (λ y, sparse_elem s y ∨ y = x).
Proof.
  intros [Hd Hs Hb Hl] Hx Hlen. unfold SparseBitSet.insert. rewrite Hd, (proj2 (Z.ltb_lt _ _)) by lia.
  cbn [rassert]. destruct s as [dom' es]. cbn [SparseBitSet.elems SparseBitSet.domain_size] in *. subst dom'.
  (* the array with [x] put between [l1] and [l2] *)
  assert (∀ l1 l2, es = l1 ++ l2 → Forall (λ y, y < x) l1 → Forall (λ y, x < y) l2 →
    wf_sparse dom {| SparseBitSet.domain_size := dom; SparseBitSet.elems := l1 ++ x :: l2 |} ∧
    set_update (sparse_elem {| SparseBitSet.domain_size := dom; SparseBitSet.elems := es |})
      (λ y, y ∈ l1 ++ x :: l2) true
      (λ y, sparse_elem {| SparseBitSet.domain_size := dom; SparseBitSet.elems := es |} y ∨ y = x)) as Hnew.
  { intros l1 l2 -> H1 H2. split.
    - split; cbn; [done|by apply sorted_insert| |rewrite length_app in *; cbn; lia].
      apply Forall_app in Hb as [? ?]. apply Forall_app. split; [done|]. by constructor.
    - apply set_update_added; [apply _| |].
      + intros y. unfold sparse_elem. cbn. rewrite !elem_of_app, elem_of_cons. tauto.
      + split; [|done]. intros _. exists x. split; [done|]. unfold sparse_elem. cbn.
        rewrite list.Forall_forall in H1, H2.
        intros [Hy%H1|Hy%H2]%elem_of_app; lia. }
  pose proof (position_spec (λ e, x <=? e) es) as Hp. destruct (position _ es) as [i|].
  - destruct Hp as (l1 & e & l2 & -> & -> & He & Hl1). rewrite index_app. cbn [obind].
    assert (Forall (λ y, y < x) l1) as Hlt.
    { eapply List.Forall_impl; [|exact Hl1]. intros y ?%Z.leb_gt. done. }
    destruct (Z.eqb_spec e x) as [->|Hne].
    + cbn [obind]. rewrite (proj2 (Nat.leb_le _ _)) by done. cbn [rassert].
      eexists _, false. split; [done|]. split; [done|].
      apply set_update_added; [apply _| |].
      * intros y. split; [tauto|]. intros [?|Hy]; [done|subst y]. unfold sparse_elem. cbn. rewrite elem_of_app.
        right. by left.
      * split; [done|]. intros (y & -> & Hn). destruct Hn. unfold sparse_elem. cbn. rewrite elem_of_app.
        right. by left.
    + rewrite av_insert_law by (done || (rewrite length_app; lia)). cbn [obind].
      rewrite take_app_length, drop_app_length.
      destruct (Hnew l1 (e :: l2)) as [Hw Hu]; try done.
      { apply sorted_app_inv in Hs as (_ & _ & Hgt). apply Z.leb_le in He.
        constructor; [lia|]. eapply List.Forall_impl; [|exact Hgt]. cbn. lia. }
      rewrite (proj2 (Nat.leb_le _ _)) by (apply (wfs_length _ _ Hw)). cbn [rassert].
      eexists _, true. split; [done|]. split; [exact Hw|exact Hu].
  - rewrite av_push_law by done. cbn [obind].
    destruct (Hnew es []) as [Hw Hu]; [by rewrite app_nil_r| |constructor|].
    { eapply List.Forall_impl; [|exact Hp]. intros y ?%Z.leb_gt. done. }
    rewrite (proj2 (Nat.leb_le _ _)) by (apply (wfs_length _ _ Hw)). cbn [rassert].
    eexists _, true. split; [done|]. split; [exact Hw|exact Hu].
Qed.

Lemma remove_sparse dom s x :
  wf_sparse dom s → 0 ≤ x < dom →
  ∃ s' b, SparseBitSet.remove s x = Ret (s', b) ∧ wf_sparse dom s' ∧
    set_update (sparse_elem s) (sparse_elem s') b (λ y, sparse_elem s y ∧ y ≠ x).
Proof.
  intros [Hd Hs Hb Hl] Hx. unfold SparseBitSet.remove. rewrite Hd, (proj2 (Z.ltb_lt _ _)) by lia.
  cbn [rassert]. pose proof (position_spec (λ e, e =? x) (SparseBitSet.elems s)) as Hp.
  destruct s as [dom' es]. cbn [SparseBitSet.elems SparseBitSet.domain_size] in *. subst dom'.
  destruct (position _ es) as [i|].
  - destruct Hp as (l1 & e & l2 & -> & -> & Heq & _). apply Z.eqb_eq in Heq as ->.
    rewrite av_remove_law by (rewrite length_app; cbn; lia). cbn [obind].
    pose proof (vec_remove_app l1 l2 x) as Hrem. unfold vec_remove in Hrem. rewrite index_app in Hrem.
    cbn [obind] in Hrem. injection Hrem as ->.
    destruct (sorted_app_inv _ _ _ Hs) as (Hs' & Hl1 & Hl2). rewrite list.Forall_forall in Hl1, Hl2.
    eexists _, true. split; [done|]. split.
    + split; cbn; [done|done| |rewrite length_app in *; cbn in Hl; lia].
      apply Forall_app in Hb as [? ?%Forall_inv_tail]. by apply Forall_app.
    + assert (x ∉ l1 ++ l2) as Hn.
      { intros [Hy%Hl1|Hy%Hl2]%elem_of_app; lia. }
      apply (set_update_removed _ _ (λ y, y = x)); [apply _|apply _| |].
      * intros y. unfold sparse_elem. cbn. rewrite !elem_of_app, elem_of_cons.
        rewrite elem_of_app in Hn. split; [|tauto]. intros Hy. split; [tauto|]. intros ->. done.
      * split; [|done]. intros _. exists x. split; [done|]. unfold sparse_elem. cbn.
        rewrite elem_of_app, elem_of_cons. tauto.
  - eexists _, false. split; [done|]. split; [done|].
    assert (x ∉ es) as Hn.
    { rewrite list.Forall_forall in Hp. intros Hx'%Hp. by rewrite Z.eqb_refl in Hx'. }
    apply (set_update_removed _ _ (λ y, y = x)); [apply _|apply _| |].
    + intros y. unfold sparse_elem. cbn. split; [|tauto]. intros Hy. split; [done|]. by intros ->.
    + split; [done|]. intros (y & -> & Hy). done.
Qed.

(** Filtering a sparse set by the membership in another set *)
Lemma filter_outcome_ret (p : Z → outcome bool) (P : Z → Prop) `{!∀ x, Decision (P x)} l :
  Forall (λ x, p x = Ret (bool_decide (P x))) l → filter_outcome p l = Ret (filter P l).
Proof.
  induction 1 as [|x l Hx _ IH]; [done|]. cbn [filter_outcome]. rewrite Hx. cbn [obind].
  rewrite IH. cbn [obind]. rewrite filter_cons. case_bool_decide; [by rewrite decide_True|by rewrite decide_False].
Qed.

Lemma length_filter_eq (P : Z → Prop) `{!∀ x, Decision (P x)} (l : list Z) :
  length (filter P l) = length l ↔ ∀ x, x ∈ l → P x.
Proof.
  induction l as [|x l IH]; [split; [intros _ x Hx; by apply elem_of_nil in Hx|done]|].
  rewrite filter_cons. pose proof (length_filter P l). case_decide as Hx; cbn [length].
  - split.
    + intros [= Hl] y [->|Hy]%elem_of_cons; [done|]. by apply IH.
    + intros Hall. f_equal. apply IH. intros y Hy. apply Hall. by right.
  - split; [intros; lia|]. intros Hall. destruct Hx. apply Hall. by left.
Qed.

Lemma sparse_intersect_spec dom s (p : Z → outcome bool) (P : Z → Prop) `{!∀ x, Decision (P x)} :
  wf_sparse dom s → (∀ x, 0 ≤ x < dom → p x = Ret (bool_decide (P x))) →
  ∃ s' b, SparseBitSet.sparse_intersect s p = Ret (s', b) ∧ wf_sparse dom s' ∧
    set_update (sparse_elem s) (sparse_elem s') b (λ y, sparse_elem s y ∧ P y).
Proof.
  intros [Hd Hs Hb Hl] Hp. unfold SparseBitSet.sparse_intersect. rewrite av_retain_law.
  rewrite (filter_outcome_ret p P).
  2: { eapply List.Forall_impl; [|exact Hb]. intros x Hx. by apply Hp. }
  cbn [obind]. eexists _, _. split; [done|]. split.
  - split; cbn; [done|by apply sorted_filter| |].
    + apply list.Forall_forall. intros x [_ Hx]%list_elem_of_filter.
      rewrite list.Forall_forall in Hb. by apply Hb.
    + etrans; [apply length_filter|done].
  - split.
    + intros y. unfold sparse_elem. cbn. rewrite list_elem_of_filter. tauto.
    + rewrite negb_true_iff, Nat.eqb_neq, length_filter_eq. unfold sparse_elem. split.
      * intros Hn. destruct (decide (Forall P (SparseBitSet.elems s))) as [Hf|Hf].
        { destruct Hn. by apply list.Forall_forall. }
        apply not_Forall_Exists in Hf; [|apply _]. apply list.Exists_exists in Hf as (y & Hy & Hny).
        exists y. unfold compose in Hny. tauto.
      * intros (y & Hy) Hall. specialize (Hall y). destruct (decide (y ∈ SparseBitSet.elems s)); tauto.
Qed.

End Sparse.

(** * The union of a sparse set into a dense one *)

Lemma existsb_nonzero (l : list Z) : existsb (λ x, negb (x =? 0)) l = true ↔ ∃ i w, l !! i = Some w ∧ w ≠ 0.
Proof.
  rewrite existsb_exists. split.
  - intros (w & Hw%list_elem_of_In & Hn%negb_true_iff%Z.eqb_neq). apply list_elem_of_lookup in Hw as [i Hi]. eauto.
  - intros (i & w & Hi & Hn). exists w. split; [by apply list_elem_of_In, list_elem_of_lookup_2 with i|].
    by apply negb_true_iff, Z.eqb_neq.
Qed.

Lemma nonzero_bit w : is_uint 64 w → w ≠ 0 ↔ ∃ k, 0 ≤ k < 64 ∧ Z.testbit w k = true.
Proof.
  intros Hw. split.
  - intros Hn. destruct (max_bit_spec w Hw Hn) as (_ & ? & ? & _). eauto.
  - intros (k & _ & Hk) ->. by rewrite Z.bits_0 in Hk.
Qed.

(** Some word of a part of the words is not zero. *)
Lemma any_nonzero ws a b : (a ≤ b ≤ length ws)%nat → Forall (is_uint 64) ws →
  ∃ l, subslice ws a b = Ret l ∧
    (existsb (λ x, negb (x =? 0)) l = true ↔
     ∃ x, 64 * Z.of_nat a ≤ x < 64 * Z.of_nat b ∧ bit ws x = true).
Proof.
  intros Hab Hu. destruct (subslice_lookup ws a b Hab) as (l & -> & Hl). exists l. split; [done|].
  rewrite existsb_nonzero. split.
  - intros (i & w & Hi & Hn). rewrite Hl in Hi. case_decide; [|done].
    apply nonzero_bit in Hn as (k & Hk & Ht); [|apply (Forall_lookup_1 _ _ _ _ Hu Hi)].
    exists (64 * Z.of_nat (a + i) + k). split; [lia|]. by rewrite bit_at, Hi.
  - intros (x & Hx & Hb). destruct (word_bit x) as (i & k & -> & Hk & _); [lia|].
    rewrite bit_at in Hb by done. destruct (ws !! i) as [w|] eqn:Ew; [|done].
    exists (i - a)%nat, w. rewrite Hl, decide_True by lia.
    replace (a + (i - a))%nat with i by lia. split; [done|].
    apply nonzero_bit; [apply (Forall_lookup_1 _ _ _ _ Hu Ew)|eauto].
Qed.

(** The bits of a list of elements *)
Definition lbit (l : list Z) (x : Z) : bool := bool_decide (x ∈ l).

(** The loop of [reverse_union_sparse] after the elements [done] of the set: the
    words below [cur] are merged, the bits for word [cur] are in [mask]. *)
Record reverse_inv (orig : list Z) (l : list Z) (ws : list Z) (cur : nat) (mask : Z) (na : bool) : Prop := {
  ri_length : length ws = length orig;
  ri_uint : Forall (is_uint 64) ws;
  ri_cur : (cur < length ws)%nat;
  ri_below : Forall (λ x, 0 ≤ x ∧ x / 64 ≤ Z.of_nat cur) l;
  ri_mask_uint : is_uint 64 mask;
  ri_mask k : 0 ≤ k < 64 → Z.testbit mask k = lbit l (64 * Z.of_nat cur + k);
  ri_bits x : 0 ≤ x → bit ws x = bit orig x || lbit l x && (x / 64 <? Z.of_nat cur);
  ri_na : na = true ↔ ∃ x, 0 ≤ x ∧ x / 64 < Z.of_nat cur ∧ bit orig x = true ∧ x ∉ l;
}.

(** Merging word [cur]: the words and whether it has bits that are not in [l] *)
Lemma merge_word orig l ws cur mask na :
  reverse_inv orig l ws cur mask na →
  ∃ ws1 w1, BitSet.or_word ws cur mask = Ret ws1 ∧ index ws1 cur = Ret w1 ∧
    length ws1 = length orig ∧ Forall (is_uint 64) ws1 ∧
    (∀ x, 0 ≤ x → bit ws1 x = bit orig x || lbit l x && (x / 64 <=? Z.of_nat cur)) ∧
    (na || negb (Z.lxor w1 mask =? 0) = true ↔
     ∃ x, 0 ≤ x ∧ x / 64 ≤ Z.of_nat cur ∧ bit orig x = true ∧ x ∉ l).
Proof.
  intros [Hl Hu Hc Hb Hmu Hm Hbits Hna].
  destruct (or_word_spec ws cur mask Hu Hc Hmu) as (ws1 & -> & Hl1 & Hu1 & Hb1).
  assert (∀ x, 0 ≤ x → bit ws1 x = bit orig x || lbit l x && (x / 64 <=? Z.of_nat cur)) as Hbit.
  { intros x Hx. destruct (decide (x < 64 * Z.of_nat (length ws))).
    - rewrite Hb1, Hbits by lia. destruct (word_bit x Hx) as (i & k & -> & Hk & -> & ->).
      rewrite <- orb_assoc. f_equal. destruct (Z.eqb_spec (Z.of_nat i) (Z.of_nat cur)) as [->|].
      + rewrite Hm by done. destruct (lbit l _); bool_cases.
      + destruct (lbit l _); bool_cases.
    - rewrite !bit_beyond by (rewrite ?Hl1; lia). symmetry. cbn. apply andb_false_iff. right.
      apply Z.leb_gt. destruct (word_bit x Hx) as (i & k & -> & Hk & -> & _). lia. }
  destruct (lookup_lt_is_Some_2 ws1 cur) as [w1 Hw1]; [lia|].
  exists ws1, w1. split; [done|]. unfold index. rewrite Hw1. split_and!; try done; [congruence|].
  assert (∀ k, 0 ≤ k < 64 → Z.testbit w1 k = bit orig (64 * Z.of_nat cur + k) || Z.testbit mask k) as Ht.
  { intros k Hk. pose proof (Hbit (64 * Z.of_nat cur + k) ltac:(lia)) as H1. rewrite bit_at, Hw1 in H1 by done.
    rewrite H1, Hm by done. destruct (word_bit (64 * Z.of_nat cur + k)) as (i & k' & E & Hk' & -> & _); [lia|].
    f_equal. rewrite (proj2 (Z.leb_le _ _)) by lia. apply andb_true_r. }
  rewrite orb_true_iff, Hna, negb_true_iff, Z.eqb_neq.
  assert (is_uint 64 (Z.lxor w1 mask)) as Hxu.
  { pose proof (Forall_lookup_1 _ _ _ _ Hu1 Hw1) as Hwu. apply is_uint_bits; [lia|]. split.
    - apply Z.lxor_nonneg. by destruct Hwu, Hmu.
    - intros i Hi. rewrite Z.lxor_spec, !(is_uint_high 64) by (done || lia). done. }
  rewrite nonzero_bit by done. split.
  - intros [(x & ? & ? & ?)|(k & Hk & Hx)]; [exists x; split_and!; tauto || lia|].
    exists (64 * Z.of_nat cur + k). rewrite Z.lxor_spec, Ht in Hx by done.
    destruct (word_bit (64 * Z.of_nat cur + k)) as (i & k' & E & Hk' & -> & _); [lia|].
    rewrite Hm in Hx by done. unfold lbit in Hx.
    destruct (bit orig (64 * Z.of_nat cur + k)); case_bool_decide; try done; split_and!; done || lia.
  - intros (x & Hx & Hc' & Hbx & Hn). destruct (decide (x / 64 = Z.of_nat cur)) as [E|].
    + right. exists (x mod 64). pose proof (div_mod_64 x). split; [lia|].
      rewrite Z.lxor_spec, Ht, Hm by lia.
      replace (64 * Z.of_nat cur + x mod 64) with x by lia. rewrite Hbx.
      unfold lbit. rewrite bool_decide_eq_false_2 by done. done.
    + left. exists x. split_and!; done || lia.
Qed.

Lemma lbit_snoc l x y : lbit (l ++ [x]) y = lbit l y || (y =? x).
Proof.
  unfold lbit. apply eq_true_iff_eq. rewrite orb_true_iff, !bool_decide_eq_true, elem_of_app, Z.eqb_eq.
  by rewrite list_elem_of_singleton.
Qed.

Lemma div_64_le x y : x ≤ y → x / 64 ≤ y / 64.
Proof. intros. apply Z.div_le_mono; lia. Qed.

(** An element in the current word *)
Lemma reverse_inv_same orig l ws cur mask na x :
  reverse_inv orig l ws cur mask na → 0 ≤ x → x / 64 = Z.of_nat cur →
  reverse_inv orig (l ++ [x]) ws cur (Z.lor mask (2 ^ (x mod 64))) na.
Proof.
  intros [Hl Hu Hcu Hbl Hmu Hm Hbits Hna] Hx Hcx. pose proof (div_mod_64 x) as [Ex Hxk]. split; try done.
  - apply Forall_app. split; [done|]. repeat constructor; lia.
  - apply is_uint_lor; [lia|done|]. by apply pow2_uint.
  - intros k Hk. rewrite Z.lor_spec, Hm, pow2_testbit, lbit_snoc by lia. f_equal. bool_cases.
  - intros y Hy. rewrite Hbits, lbit_snoc by done. f_equal.
    destruct (lbit l y); cbn; [done|]. destruct (Z.eqb_spec y x) as [->|]; [|done]. bool_cases.
  - rewrite Hna. split; intros (y & ? & ? & ? & Hn); exists y; split_and!; try done.
    + rewrite elem_of_app, list_elem_of_singleton. intros [?| ->]; [done|lia].
    + rewrite elem_of_app in Hn. tauto.
Qed.

(** An element in a later word, after word [cur] was merged *)
Lemma reverse_inv_next orig l ws1 cur na1 skipped x wi :
  length ws1 = length orig → Forall (is_uint 64) ws1 →
  Forall (λ x, 0 ≤ x ∧ x / 64 ≤ Z.of_nat cur) l →
  (∀ x, 0 ≤ x → bit ws1 x = bit orig x || lbit l x && (x / 64 <=? Z.of_nat cur)) →
  (na1 = true ↔ ∃ x, 0 ≤ x ∧ x / 64 ≤ Z.of_nat cur ∧ bit orig x = true ∧ x ∉ l) →
  (skipped = true ↔ ∃ x, 64 * Z.of_nat (cur + 1) ≤ x < 64 * Z.of_nat wi ∧ bit ws1 x = true) →
  0 ≤ x → x / 64 = Z.of_nat wi → (cur < wi < length ws1)%nat →
  reverse_inv orig (l ++ [x]) ws1 wi (2 ^ (x mod 64)) (na1 || skipped).
Proof.
  intros Hl1 Hu1 Hbl Hb1 Hna Hsl Hx Ewi Hc. pose proof (div_mod_64 x) as [Ex Hxk].
  rewrite list.Forall_forall in Hbl.
  assert (∀ y, 64 * Z.of_nat (cur + 1) ≤ y → y ∉ l) as Hnew.
  { intros y Hy Hin. destruct (Hbl _ Hin) as [? Hy'].
    destruct (word_bit y) as (i & k & E & Hk & E1 & _); [done|]. lia. }
  split; try done.
  - lia.
  - apply Forall_app. split; [|repeat constructor; lia].
    apply list.Forall_forall. intros y Hy. destruct (Hbl y Hy). lia.
  - by apply pow2_uint.
  - intros k Hk. rewrite pow2_testbit, lbit_snoc by lia. unfold lbit.
    rewrite bool_decide_eq_false_2 by (apply Hnew; lia). bool_cases.
  - intros y Hy. rewrite Hb1, lbit_snoc by done. f_equal. destruct (lbit l y) eqn:E; cbn.
    + apply bool_decide_eq_true in E. destruct (Hbl _ E). bool_cases.
    + destruct (Z.eqb_spec y x) as [->|]; [|done]. bool_cases.
  - rewrite orb_true_iff, Hna, Hsl.
    assert (∀ y, 0 ≤ y → y / 64 < Z.of_nat wi ↔
      y / 64 ≤ Z.of_nat cur ∨ 64 * Z.of_nat (cur + 1) ≤ y < 64 * Z.of_nat wi) as Hsplit.
    { intros y Hy. destruct (word_bit y Hy) as (i & k & -> & Hk & -> & _). lia. }
    assert (∀ y, 64 * Z.of_nat (cur + 1) ≤ y → bit ws1 y = bit orig y) as Hlate.
    { intros y Hy. rewrite Hb1 by lia. unfold lbit. rewrite bool_decide_eq_false_2 by by apply Hnew.
      apply orb_false_r. }
    setoid_rewrite elem_of_app. setoid_rewrite list_elem_of_singleton. split.
    + intros [(y & Hy & ? & ? & ?)|(y & Hy & Hb)]; exists y.
      * split_and!; try done; [lia|]. intros [?| ->]; [done|lia].
      * assert (y / 64 < Z.of_nat wi) by (apply Hsplit; lia).
        rewrite Hlate in Hb by lia. split_and!; [lia|done|done|].
        intros [Hin| ->]; [by apply (Hnew y); [lia|]|lia].
    + intros (y & Hy & Hyw%Hsplit & Hb & Hn); [|done]. destruct Hyw; [left|right]; exists y.
      * tauto.
      * by rewrite Hlate by lia.
Qed.

(** One element of the sparse set *)
Lemma reverse_step orig l ws cur mask na x :
  reverse_inv orig l ws cur mask na → 0 ≤ x →
  x < 64 * Z.of_nat (length orig) → Z.of_nat cur ≤ x / 64 →
  ∃ ws' cur' mask' na', reverse_union_step (ws, cur, mask, na) x = Ret (ws', cur', mask', na') ∧
    reverse_inv orig (l ++ [x]) ws' cur' mask' na' ∧ Z.of_nat cur' = x / 64.
Proof.
  intros Hinv Hx Hxl Hcx. unfold reverse_union_step, word_index_and_mask. rewrite mask_pow2.
  change WORD_BITS with 64. destruct (word_bit x Hx) as (wi & k & Exk & Hk & Ewi & _).
  assert (x / 64 = Z.of_nat wi) as Ewi' by done. rewrite Ewi, Nat2Z.id in *.
  destruct (Nat.ltb_spec cur wi) as [Hc|Hc].
  - destruct (merge_word _ _ _ _ _ _ Hinv) as (ws1 & w1 & -> & H1 & Hl1 & Hu1 & Hb1 & Hna). cbn [obind].
    rewrite H1. cbn [obind].
    destruct (any_nonzero ws1 (cur + 1) wi) as (sl & -> & Hsl); [lia|done|]. cbn [obind].
    eexists ws1, wi, _, _. split; [done|]. split; [|done]. rewrite Z.lor_0_l.
    apply (reverse_inv_next orig l ws1 cur); try done; [apply (ri_below _ _ _ _ _ _ Hinv)|lia].
  - assert (cur = wi) as -> by lia. eexists _, _, _, _. split; [done|]. split; [|done].
    by apply reverse_inv_same.
Qed.

Lemma reverse_loop orig l2 : ∀ l1 ws cur mask na,
  reverse_inv orig l1 ws cur mask na → StronglySorted Z.lt (l1 ++ l2) →
  Forall (λ x, 0 ≤ x < 64 * Z.of_nat (length orig)) l2 →
  Forall (λ x, Z.of_nat cur ≤ x / 64) l2 →
  ∃ ws' cur' mask' na', fold_outcome reverse_union_step l2 (ws, cur, mask, na) = Ret (ws', cur', mask', na') ∧
    reverse_inv orig (l1 ++ l2) ws' cur' mask' na'.
Proof.
  induction l2 as [|x l2 IH]; intros l1 ws cur mask na Hinv Hs Hb Hc; cbn [fold_outcome].
  { eexists _, _, _, _. split; [done|]. by rewrite app_nil_r. }
  apply Forall_inv in Hb as Hx. apply Forall_inv_tail in Hb.
  apply Forall_inv in Hc as Hcx. apply Forall_inv_tail in Hc.
  destruct (sorted_app_inv _ _ _ Hs) as (_ & Hlt & Hgt).
  destruct (reverse_step orig l1 ws cur mask na x) as (ws' & cur' & mask' & na' & -> & Hinv' & Hcur');
    try done; [lia..|]. cbn [obind].
  rewrite cons_middle, (assoc_L (++)) in Hs |- *. apply IH; try done.
  eapply List.Forall_impl; [|exact Hgt]. cbn. intros y Hy. rewrite Hcur'. apply div_64_le. lia.
Qed.

Lemma reverse_union_sparse_spec dom s sp :
  wf_bitset dom s → wf_sparse dom sp → 0 < dom →
  ∃ s' b, reverse_union_sparse s sp = Ret (s', b) ∧ wf_bitset dom s' ∧
    (∀ y, dense_elem s' y ↔ sparse_elem sp y ∨ dense_elem s y) ∧
    (b = true ↔ ∃ y, dense_elem s y ∧ ¬ sparse_elem sp y).
Proof.
  intros [Hd Hw] [Hd' Hs Hb Hlen] Hpos. unfold reverse_union_sparse, SparseBitSet.iter. rewrite Hd, Hd', Z.eqb_refl.
  cbn [rassert]. unfold BitSet.clear_excess_bits. rewrite Hd.
  destruct (clear_excess_spec dom (BitSet.words s)) as (ws0 & -> & Hw0 & Hb0); [apply Hw..|].
  assert (ws0 = BitSet.words s) as ->.
  { apply bits_ext; [by rewrite !(wfw_length dom)|apply Hw0|apply Hw|].
    intros x Hx. rewrite Hb0 by done. destruct (Z.ltb_spec x dom); [apply andb_true_r|].
    by rewrite (wfw_excess _ _ Hw). }
  cbn [obind BitSet.with_words BitSet.words BitSet.domain_size]. clear Hw0 Hb0.
  pose proof (num_words_bounds _ (wfw_domain _ _ Hw)) as Hnw. pose proof (wfw_length _ _ Hw) as Hl.
  destruct (reverse_loop (BitSet.words s) (SparseBitSet.elems sp) [] (BitSet.words s) 0 0 false)
    as (ws & cur & mask & na & -> & Hinv).
  { split; try done.
    - apply Hw.
    - lia.
    - intros k Hk. rewrite Z.bits_0. symmetry. apply bool_decide_eq_false_2, not_elem_of_nil.
    - intros x Hx. unfold lbit. rewrite bool_decide_eq_false_2 by apply not_elem_of_nil. symmetry. apply orb_false_r.
    - split; [done|]. intros (x & Hx & Hlt & _). assert (0 ≤ x / 64) by (apply Z.div_pos; lia). lia. }
  { done. }
  { eapply List.Forall_impl; [|exact Hb]. cbn. lia. }
  { eapply List.Forall_impl; [|exact Hb]. cbn. intros x Hx. apply Z.div_pos; lia. }
  cbn [app obind] in *.
  destruct (merge_word _ _ _ _ _ _ Hinv) as (ws1 & w1 & -> & H1 & Hl1 & Hu1 & Hb1 & Hna). cbn [obind].
  rewrite H1. cbn [obind]. pose proof (ri_cur _ _ _ _ _ _ Hinv) as Hcur. pose proof (ri_length _ _ _ _ _ _ Hinv) as Hlw.
  destruct (any_nonzero ws1 (cur + 1) (length ws1)) as (tl & -> & Htl); [lia|done|]. cbn [obind].
  pose proof (ri_below _ _ _ _ _ _ Hinv) as Hbelow. rewrite list.Forall_forall in Hbelow, Hb.
  assert (∀ x, 0 ≤ x → bit ws1 x = bit (BitSet.words s) x || lbit (SparseBitSet.elems sp) x) as Hbit.
  { intros x Hx. rewrite Hb1 by done. f_equal. unfold lbit. case_bool_decide as Hin; [|done].
    destruct (Hbelow _ Hin). bool_cases. }
  eexists _, _. split; [done|]. split; [|split].
  - split; [done|]. cbn [BitSet.with_words BitSet.words]. split; [apply Hw|congruence|done|].
    intros x Hx. rewrite Hbit, (wfw_excess _ _ Hw) by lia. cbn.
    apply bool_decide_eq_false_2. intros Hin%Hb. lia.
  - intros y. unfold dense_elem, sparse_elem. cbn [BitSet.with_words BitSet.words]. split.
    + intros [Hy Hby]. rewrite Hbit in Hby by done. unfold lbit in Hby.
      apply orb_true_iff in Hby as [?|?%bool_decide_eq_true]; tauto.
    + intros [Hin|[Hy Hby]].
      * destruct (Hb _ Hin). split; [lia|]. rewrite Hbit by lia. unfold lbit.
        rewrite bool_decide_eq_true_2 by done. apply orb_true_r.
      * split; [done|]. by rewrite Hbit, Hby.
  - rewrite orb_true_iff, Hna, Htl. unfold dense_elem, sparse_elem. split.
    + intros [(y & ? & ? & ? & ?)|(y & Hy & Hby)]; [exists y; tauto|].
      assert (y ∉ SparseBitSet.elems sp) as Hn.
      { intros Hin. destruct (Hbelow _ Hin) as [? Hyd].
        destruct (word_bit y) as (i & k & E & Hk & E1 & _); [lia|]. lia. }
      exists y. split; [|done]. split; [lia|]. rewrite Hbit in Hby by lia. unfold lbit in Hby.
      rewrite bool_decide_eq_false_2 in Hby by done. by rewrite orb_false_r in Hby.
    + intros (y & [Hy Hby] & Hn). destruct (decide (y / 64 ≤ Z.of_nat cur)); [left; exists y; tauto|].
      right. exists y. split; [|by rewrite Hbit, Hby].
      destruct (decide (y < 64 * Z.of_nat (length ws1))).
      * destruct (word_bit y) as (i & k & E & Hk & E1 & _); [lia|]. lia.
      * rewrite bit_beyond in Hby by lia. done.
Qed.

(** One more element makes a sorted array at most one longer. *)
Lemma sorted_length_le (s' s : SparseBitSet.t) x :
  StronglySorted Z.lt (SparseBitSet.elems s') → StronglySorted Z.lt (SparseBitSet.elems s) →
  (∀ y, sparse_elem s' y ↔ sparse_elem s y ∨ y = x) →
  (length (SparseBitSet.elems s') ≤ S (length (SparseBitSet.elems s)))%nat.
Proof.
  intros Hs' Hs He.
  assert (NoDup (SparseBitSet.elems s')) as Hnd.
  { clear - Hs'. induction Hs' as [|y l _ IH Hy]; constructor; [|done]. rewrite list.Forall_forall in Hy.
    intros Hin%Hy. lia. }
  change (S (length (SparseBitSet.elems s))) with (length (x :: SparseBitSet.elems s)).
  apply submseteq_length, NoDup_submseteq; [done|]. intros y Hy%He. apply elem_of_cons.
  destruct Hy; [by right|by left].
Qed.

(** * Hybrid sets *)

Definition wf_hybrid (dom : Z) (s : HybridBitSet.t) : Prop :=
  dense_domain dom ∧
  match s with HybridBitSet.Sparse s => wf_sparse dom s | HybridBitSet.Dense s => wf_bitset dom s end.

Definition hybrid_elem (s : HybridBitSet.t) (x : Z) : Prop :=
  match s with HybridBitSet.Sparse s => sparse_elem s x | HybridBitSet.Dense s => dense_elem s x end.

#[export] Instance hybrid_elem_dec s x : Decision (hybrid_elem s x).
Proof. destruct s; cbn; apply _. Defined.

Lemma dense_elem_below dom s x : wf_bitset dom s → dense_elem s x → 0 ≤ x < dom.
Proof.
  intros [_ Hw] [Hx Hb]. split; [done|]. destruct (Z.lt_ge_cases x dom) as [|Hge]; [done|].
  by rewrite (wfw_excess _ _ Hw) in Hb.
Qed.

Lemma sparse_elem_below dom s x : wf_sparse dom s → sparse_elem s x → 0 ≤ x < dom.
Proof. intros [_ _ Hb _] Hx. rewrite list.Forall_forall in Hb. by apply Hb. Qed.

Lemma hybrid_elem_below dom s x : wf_hybrid dom s → hybrid_elem s x → 0 ≤ x < dom.
Proof. destruct s; intros [_ ?]; cbn; [by apply sparse_elem_below|by apply dense_elem_below]. Qed.

Lemma hybrid_domain dom s : wf_hybrid dom s → HybridBitSet.domain_size s = dom.
Proof. destruct s; intros [_ Hs]; [apply (wfs_domain _ _ Hs)|by destruct Hs]. Qed.

Lemma contains_hybrid dom s x : wf_hybrid dom s → 0 ≤ x < dom →
  HybridBitSet.contains s x = Ret (bool_decide (hybrid_elem s x)).
Proof.
  destruct s as [s|s]; intros [_ Hs] Hx; cbn [HybridBitSet.contains hybrid_elem].
  - by apply (contains_sparse dom).
  - rewrite (contains_dense dom) by done. f_equal. apply eq_true_iff_eq.
    rewrite bool_decide_eq_true. unfold dense_elem. intuition lia.
Qed.

(** Inserting the elements of a list into a dense set *)
Lemma fold_insert_dense dom l : ∀ s, wf_bitset dom s → Forall (λ x, 0 ≤ x < dom) l →
  ∃ s', fold_outcome (λ s elem, let! (s, _) := BitSet.insert s elem in Ret s) l s = Ret s' ∧
    wf_bitset dom s' ∧ ∀ y, dense_elem s' y ↔ dense_elem s y ∨ y ∈ l.
Proof.
  induction l as [|x l IH]; intros s Hs Hl; cbn [fold_outcome].
  { exists s. split_and!; try done. intros y. rewrite elem_of_nil. tauto. }
  apply Forall_inv in Hl as Hx. apply Forall_inv_tail in Hl.
  destruct (insert_dense dom s x Hs Hx) as (s1 & b & -> & Hs1 & He & _). cbn [obind].
  destruct (IH s1 Hs1 Hl) as (s2 & -> & Hs2 & He2). exists s2. split_and!; try done.
  intros y. rewrite He2, He, elem_of_cons. tauto.
Qed.

Lemma to_dense_sparse dom s : dense_domain dom → wf_sparse dom s →
  ∃ s', SparseBitSet.to_dense s = Ret s' ∧ wf_bitset dom s' ∧ ∀ y, dense_elem s' y ↔ sparse_elem s y.
Proof.
  intros Hdom [Hd Hs Hb Hl]. unfold SparseBitSet.to_dense. rewrite Hd.
  destruct (new_empty_dense dom Hdom) as [Hw He].
  destruct (fold_insert_dense dom (SparseBitSet.elems s) _ Hw Hb) as (s' & -> & Hw' & He').
  exists s'. split_and!; try done. intros y. rewrite He'. specialize (He y). unfold sparse_elem. tauto.
Qed.

Section Hybrid.
Context `{Idx} {A : ArrayVecApi} {AL : ArrayVecLaws A}.

(** The updates of the set inside *)
Lemma on_dense_spec dom E P (c : outcome (BitSet.t * bool)) :
  dense_domain dom →
  (∃ s' b, c = Ret (s', b) ∧ wf_bitset dom s' ∧ set_update E (dense_elem s') b P) →
  ∃ s' b, HybridBitSet.on_dense c = Ret (s', b) ∧ wf_hybrid dom s' ∧ set_update E (hybrid_elem s') b P.
Proof. intros Hd (s' & b & -> & Hw & Hu). eexists _, b. split; [done|]. done. Qed.

Lemma on_sparse_spec dom E P (c : outcome (SparseBitSet.t * bool)) :
  dense_domain dom →
  (∃ s' b, c = Ret (s', b) ∧ wf_sparse dom s' ∧ set_update E (sparse_elem s') b P) →
  ∃ s' b, HybridBitSet.on_sparse c = Ret (s', b) ∧ wf_hybrid dom s' ∧ set_update E (hybrid_elem s') b P.
Proof. intros Hd (s' & b & -> & Hw & Hu). eexists _, b. split; [done|]. done. Qed.

Lemma insert_hybrid dom s x : wf_hybrid dom s → 0 ≤ x < dom →
  ∃ s' b, HybridBitSet.insert s x = Ret (s', b) ∧ wf_hybrid dom s' ∧
    set_update (hybrid_elem s) (hybrid_elem s') b (λ y, hybrid_elem s y ∨ y = x).
Proof.
  destruct s as [s|s]; intros [Hd Hs] Hx; cbn [HybridBitSet.insert].
  2: { apply (on_dense_spec dom); [done|]. by apply insert_dense. }
  destruct (Nat.ltb_spec (SparseBitSet.len s) SPARSE_MAX).
  { apply (on_sparse_spec dom); [done|]. by apply insert_sparse. }
  rewrite (contains_sparse dom) by done. cbn [obind]. case_bool_decide as Hin.
  - eexists _, false. split; [done|]. split; [done|]. apply set_update_added; [apply _| |].
    + intros y. split; [tauto|]. intros [?| ->]; done.
    + split; [done|]. intros (y & -> & Hn). done.
  - destruct (to_dense_sparse dom s Hd Hs) as (d & -> & Hwd & Hed). cbn [obind].
    destruct (insert_dense dom d x Hwd Hx) as (d' & b & -> & Hwd' & Hu1 & Hu2). cbn [obind].
    assert (b = true) as -> by (apply Hu2; exists x; rewrite Hed; tauto).
    eexists _, true. split; [done|]. split; [done|]. apply set_update_added; [apply _| |].
    + intros y. cbn. rewrite Hu1, Hed. done.
    + split; [|done]. intros _. exists x. done.
Qed.

Lemma remove_hybrid dom s x : wf_hybrid dom s → 0 ≤ x < dom →
  ∃ s' b, HybridBitSet.remove s x = Ret (s', b) ∧ wf_hybrid dom s' ∧
    set_update (hybrid_elem s) (hybrid_elem s') b (λ y, hybrid_elem s y ∧ y ≠ x).
Proof.
  destruct s as [s|s]; intros [Hd Hs] Hx; cbn [HybridBitSet.remove].
  - apply (on_sparse_spec dom); [done|]. by apply remove_sparse.
  - apply (on_dense_spec dom); [done|]. by apply remove_dense.
Qed.

Lemma insert_all_hybrid dom s : wf_hybrid dom s →
  ∃ s', HybridBitSet.insert_all s = Ret s' ∧ wf_hybrid dom s' ∧ ∀ y, hybrid_elem s' y ↔ 0 ≤ y < dom.
Proof.
  intros Hs. pose proof (hybrid_domain _ _ Hs) as Hd. pose proof Hs as [Hdom Hw]. unfold HybridBitSet.insert_all.
  destruct s as [s|s].
  - rewrite Hd. destruct (new_filled_dense dom Hdom) as (s' & -> & ? & ?). by eexists.
  - destruct (insert_all_dense dom s Hw) as (s' & -> & ? & ?). by eexists.
Qed.

Lemma iter_hybrid dom s : wf_hybrid dom s → dom ≤ idx_max + 1 →
  ∃ l, HybridBitSet.iter s = Ret l ∧ StronglySorted Z.lt l ∧ ∀ x, x ∈ l ↔ hybrid_elem s x.
Proof.
  destruct s as [s|s]; intros [_ Hs] Hmax; cbn [HybridBitSet.iter].
  - eexists. split; [done|]. split; [apply (wfs_sorted _ _ Hs)|done].
  - destruct (iter_dense dom s Hs Hmax) as (-> & ? & ?). eauto.
Qed.

Lemma all_spec (p : Z → outcome bool) (P : Z → Prop) `{!∀ x, Decision (P x)} l :
  Forall (λ x, p x = Ret (bool_decide (P x))) l →
  ∃ b, HybridBitSet.all p l = Ret b ∧ (b = true ↔ ∀ x, x ∈ l → P x).
Proof.
  induction 1 as [|x l Hx _ (b & Hr & IH)]; cbn [HybridBitSet.all].
  { exists true. split; [done|]. split; [|done]. intros _ x Hx. by apply elem_of_nil in Hx. }
  rewrite Hx. cbn [obind]. case_bool_decide as HP.
  - rewrite Hr. exists b. split; [done|]. rewrite IH. split.
    + intros Hall y [->|Hy]%elem_of_cons; [done|by apply Hall].
    + intros Hall y Hy. apply Hall. by right.
  - exists false. split; [done|]. split; [done|]. intros Hall. destruct HP. apply Hall. by left.
Qed.

Lemma superset_hybrid dom s o : wf_hybrid dom s → wf_hybrid dom o → dom ≤ idx_max + 1 →
  ∃ b, HybridBitSet.superset s o = Ret b ∧ (b = true ↔ ∀ x, hybrid_elem o x → hybrid_elem s x).
Proof.
  intros Hs Ho Hmax.
  assert (∃ b, rassert (HybridBitSet.domain_size s =? HybridBitSet.domain_size o)
    (let! it := HybridBitSet.iter o in HybridBitSet.all (HybridBitSet.contains s) it) = Ret b ∧
    (b = true ↔ ∀ x, hybrid_elem o x → hybrid_elem s x)) as Hgen.
  { rewrite (hybrid_domain _ _ Hs), (hybrid_domain _ _ Ho), Z.eqb_refl. cbn [rassert].
    destruct (iter_hybrid dom o Ho Hmax) as (l & -> & _ & Hl). cbn [obind].
    destruct (all_spec (HybridBitSet.contains s) (hybrid_elem s) l) as (b & -> & Hb).
    - apply list.Forall_forall. intros x Hx. apply (contains_hybrid dom); [done|].
      by apply (hybrid_elem_below dom o), Hl.
    - exists b. split; [done|]. rewrite Hb. split; intros Hall x Hx; by apply Hall, Hl. }
  destruct s as [s|s], o as [o|o]; try exact Hgen. by apply (superset_dense dom s o (proj2 Hs) (proj2 Ho)).
Qed.

(** ** Relations between representations *)

Lemma union_dense_hybrid dom s o : wf_hybrid dom s → wf_bitset dom o →
  (0 < dom ∨ ∃ d, s = HybridBitSet.Dense d) →
  ∃ s' b, HybridBitSet.union_dense s o = Ret (s', b) ∧ wf_hybrid dom s' ∧
    set_update (hybrid_elem s) (hybrid_elem s') b (λ y, hybrid_elem s y ∨ dense_elem o y).
Proof.
  intros Hs Ho Hpos. unfold HybridBitSet.union_dense.
  rewrite (hybrid_domain _ _ Hs), (proj1 Ho), Z.eqb_refl. cbn [rassert]. pose proof Hs as [Hd Hw].
  destruct s as [s|s].
  - apply (on_dense_spec dom); [done|]. destruct Hpos as [Hpos|[d [=]]].
    destruct (reverse_union_sparse_spec dom o s Ho Hw Hpos) as (s' & b & -> & ? & He & Hb).
    eexists _, b. split; [done|]. split; [done|]. by apply set_update_added; [apply _| |].
  - apply (on_dense_spec dom); [done|]. by apply union_dense_spec.
Qed.

Lemma dense_union_hybrid dom s o : wf_bitset dom s → wf_hybrid dom o →
  ∃ s' b, HybridBitSet.dense_union s o = Ret (s', b) ∧ wf_bitset dom s' ∧
    set_update (dense_elem s) (dense_elem s') b (λ y, dense_elem s y ∨ hybrid_elem o y).
Proof.
  intros Hs Ho. unfold HybridBitSet.dense_union. rewrite (hybrid_domain _ _ Ho), (proj1 Hs), Z.eqb_refl.
  cbn [rassert]. pose proof Ho as [_ Hw]. destruct o as [o|o]; [|by apply union_dense_spec].
  unfold sequential_update.
  destruct (sequential_insert (wf_bitset dom) dense_elem (λ x, 0 ≤ x < dom) BitSet.insert)
    with (l := SparseBitSet.iter o) (s := s) (acc := false) as (s' & b & -> & Hs' & He & Hb).
  - intros. by apply insert_dense.
  - apply _.
  - done.
  - apply (wfs_below _ _ Hw).
  - eexists _, b. split; [done|]. split; [done|]. apply set_update_added; [apply _|exact He|].
    rewrite Hb. split; [intros [?|?]; done|by right].
Qed.

Lemma union_hybrid dom s o : wf_hybrid dom s → wf_hybrid dom o → 0 < dom →
  ∃ s' b, HybridBitSet.union s o = Ret (s', b) ∧ wf_hybrid dom s' ∧
    set_update (hybrid_elem s) (hybrid_elem s') b (λ y, hybrid_elem s y ∨ hybrid_elem o y).
Proof.
  intros Hs Ho Hpos. unfold HybridBitSet.union.
  rewrite (hybrid_domain _ _ Hs), (hybrid_domain _ _ Ho), Z.eqb_refl. cbn [rassert].
  pose proof Hs as [Hd Hw]. pose proof Ho as [_ Hwo]. destruct s as [s|s].
  - destruct o as [o|o]; [|by apply (union_dense_hybrid dom); [| |left]].
    destruct (sequential_insert (wf_hybrid dom) hybrid_elem (λ x, 0 ≤ x < dom) HybridBitSet.insert)
      with (l := SparseBitSet.iter o) (s := HybridBitSet.Sparse s) (acc := false) as (s' & b & Hr & Hs' & He & Hb).
    + intros. by apply insert_hybrid.
    + apply _.
    + done.
    + apply (wfs_below _ _ Hwo).
    + eexists _, b. split; [|split; [exact Hs'|]].
      * rewrite <- Hr. apply fold_outcome_ext. intros [s0 c] x.
        destruct (HybridBitSet.insert s0 x) as [[s1 b1]|]; [|done]. cbn. by rewrite orb_comm.
      * apply set_update_added; [apply _|exact He|]. rewrite Hb. split; [intros [?|?]; done|by right].
  - apply (on_dense_spec dom); [done|]. by apply dense_union_hybrid.
Qed.

(** Removing the elements of a list from a sparse set, as [subtract] does *)
Lemma sparse_subtract_list dom s l (L : Z → Prop) `{!∀ y, Decision (L y)} :
  wf_sparse dom s → Forall (λ x, 0 ≤ x < dom) l → (∀ y, y ∈ l ↔ L y) →
  ∃ s' b, sequential_update SparseBitSet.remove s l = Ret (s', b) ∧ wf_sparse dom s' ∧
    set_update (sparse_elem s) (sparse_elem s') b (λ y, sparse_elem s y ∧ ¬ L y).
Proof.
  intros Hs Hl HL. unfold sequential_update.
  destruct (sequential_remove (wf_sparse dom) sparse_elem (λ x, 0 ≤ x < dom) SparseBitSet.remove)
    with (l := l) (s := s) (acc := false) as (s' & b & -> & Hs' & He & Hb).
  - intros. by apply remove_sparse.
  - apply _.
  - done.
  - done.
  - eexists _, b. split; [done|]. split; [done|]. apply set_update_removed; [apply _|apply _| |].
    + intros y. by rewrite He, HL.
    + rewrite Hb. split; [intros [?|(y & Hy & ?)]; [done|]; exists y; by rewrite <- HL|].
      intros (y & Hy & ?). right. exists y. by rewrite HL.
Qed.

Lemma subtract_dense_hybrid dom s o : wf_hybrid dom s → wf_bitset dom o → dom ≤ idx_max + 1 →
  ∃ s' b, HybridBitSet.subtract_dense s o = Ret (s', b) ∧ wf_hybrid dom s' ∧
    set_update (hybrid_elem s) (hybrid_elem s') b (λ y, hybrid_elem s y ∧ ¬ dense_elem o y).
Proof.
  intros Hs Ho Hmax. unfold HybridBitSet.subtract_dense.
  rewrite (hybrid_domain _ _ Hs), (proj1 Ho), Z.eqb_refl. cbn [rassert]. pose proof Hs as [Hd Hw].
  destruct s as [s|s]; [|apply (on_dense_spec dom); [done|]; by apply subtract_dense_spec].
  destruct (iter_dense dom o Ho Hmax) as (-> & _ & Hl). cbn [obind].
  apply (on_sparse_spec dom); [done|]. apply sparse_subtract_list; try done; [apply _|].
  apply list.Forall_forall. intros x Hx%Hl. by apply (dense_elem_below dom o).
Qed.

Lemma dense_subtract_hybrid dom s o : wf_bitset dom s → wf_hybrid dom o →
  ∃ s' b, HybridBitSet.dense_subtract s o = Ret (s', b) ∧ wf_bitset dom s' ∧
    set_update (dense_elem s) (dense_elem s') b (λ y, dense_elem s y ∧ ¬ hybrid_elem o y).
Proof.
  intros Hs Ho. unfold HybridBitSet.dense_subtract. rewrite (hybrid_domain _ _ Ho), (proj1 Hs), Z.eqb_refl.
  cbn [rassert]. pose proof Ho as [_ Hw]. destruct o as [o|o]; [|by apply subtract_dense_spec].
  unfold sequential_update.
  destruct (sequential_remove (wf_bitset dom) dense_elem (λ x, 0 ≤ x < dom) BitSet.remove)
    with (l := SparseBitSet.iter o) (s := s) (acc := false) as (s' & b & -> & Hs' & He & Hb).
  - intros. by apply remove_dense.
  - apply _.
  - done.
  - apply (wfs_below _ _ Hw).
  - eexists _, b. split; [done|]. split; [done|]. apply set_update_removed; [apply _|apply _|exact He|].
    rewrite Hb. split; [intros [?|?]; done|by right].
Qed.

Lemma subtract_hybrid dom s o : wf_hybrid dom s → wf_hybrid dom o → dom ≤ idx_max + 1 →
  ∃ s' b, HybridBitSet.subtract s o = Ret (s', b) ∧ wf_hybrid dom s' ∧
    set_update (hybrid_elem s) (hybrid_elem s') b (λ y, hybrid_elem s y ∧ ¬ hybrid_elem o y).
Proof.
  intros Hs Ho Hmax. unfold HybridBitSet.subtract.
  rewrite (hybrid_domain _ _ Hs), (hybrid_domain _ _ Ho), Z.eqb_refl. cbn [rassert]. pose proof Hs as [Hd Hw].
  destruct s as [s|s]; [|apply (on_dense_spec dom); [done|]; by apply dense_subtract_hybrid].
  destruct (iter_hybrid dom o Ho Hmax) as (l & -> & _ & Hl). cbn [obind].
  apply (on_sparse_spec dom); [done|]. apply sparse_subtract_list; try done; [apply _|].
  apply list.Forall_forall. intros x Hx%Hl. by apply (hybrid_elem_below dom o).
Qed.

Lemma intersect_dense_hybrid dom s o : wf_hybrid dom s → wf_bitset dom o →
  ∃ s' b, HybridBitSet.intersect_dense s o = Ret (s', b) ∧ wf_hybrid dom s' ∧
    set_update (hybrid_elem s) (hybrid_elem s') b (λ y, hybrid_elem s y ∧ dense_elem o y).
Proof.
  intros Hs Ho. unfold HybridBitSet.intersect_dense.
  rewrite (hybrid_domain _ _ Hs), (proj1 Ho), Z.eqb_refl. cbn [rassert]. pose proof Hs as [Hd Hw].
  destruct s as [s|s]; [|apply (on_dense_spec dom); [done|]; by apply intersect_dense_spec].
  apply (on_sparse_spec dom); [done|]. apply (sparse_intersect_spec dom s _ (dense_elem o)); [done|].
  intros x Hx. by apply (contains_hybrid dom (HybridBitSet.Dense o)).
Qed.

(** The number of elements of a dense set and of a sorted list in it *)
Lemma count_dense_list dom s (l : list Z) :
  wf_bitset dom s → StronglySorted Z.lt l → (∀ x, x ∈ l → dense_elem s x) →
  Z.of_nat (length l) = BitSet.count s ↔ ∀ x, dense_elem s x → x ∈ l.
Proof.
  intros [_ Hw] Hs Hsub. unfold BitSet.count. rewrite (count_items _ 0) by apply Hw.
  pose proof (items_sorted (BitSet.words s) 0 (wfw_uint _ _ Hw)) as Hi.
  assert (∀ x, x ∈ items 0 (BitSet.words s) ↔ dense_elem s x) as Hx.
  { intros x. rewrite elem_items, Z.sub_0_r by apply Hw. done. }
  (* [l] is the part of the items that is in it *)
  assert (l = filter (λ x, x ∈ l) (items 0 (BitSet.words s))) as El.
  { apply sorted_ext; [done|by apply sorted_filter|]. intros x. rewrite list_elem_of_filter, Hx.
    split; [|tauto]. intros Hin. split; [done|by apply Hsub]. }
  rewrite Nat2Z.inj_iff. rewrite El at 1. rewrite length_filter_eq.
  split; intros Hall x Hin; by apply Hall, Hx.
Qed.

Lemma dense_sparse_intersect_spec dom d sp : wf_bitset dom d → wf_sparse dom sp →
  ∃ s' b, HybridBitSet.dense_sparse_intersect d sp = Ret (s', b) ∧ wf_sparse dom s' ∧
    set_update (dense_elem d) (sparse_elem s') b (λ y, dense_elem d y ∧ sparse_elem sp y).
Proof.
  intros Hd Hs. unfold HybridBitSet.dense_sparse_intersect.
  destruct (sparse_intersect_spec dom sp (BitSet.contains d) (dense_elem d) Hs) as (s' & b & -> & Hs' & He & _).
  { intros x Hx. apply (contains_hybrid dom (HybridBitSet.Dense d)); [|done].
    split; [apply (wfw_domain _ _ (proj2 Hd))|done]. }
  cbn [obind]. eexists _, _. split; [done|]. split; [done|]. split; [intros y; rewrite He; tauto|].
  pose proof (count_dense_list dom d (SparseBitSet.elems s') Hd (wfs_sorted _ _ Hs')) as Hc.
  rewrite negb_true_iff, Z.eqb_neq. unfold SparseBitSet.len.
  rewrite Hc by (intros x Hx; apply (He x) in Hx; tauto).
  assert (∀ x, x ∈ SparseBitSet.elems s' ↔ sparse_elem sp x ∧ dense_elem d x) as He' by exact He.
  (* the elements of [d] that are not in [sp], if any *)
  destruct (decide (Forall (λ x, sparse_elem sp x) (items 0 (BitSet.words d)))) as [Hf|Hf].
  - rewrite list.Forall_forall in Hf.
    assert (∀ x, dense_elem d x → sparse_elem sp x) as Hin.
    { intros x Hx. apply Hf. apply elem_items; [apply (proj2 Hd)|]. rewrite Z.sub_0_r. done. }
    split.
    + intros Hn. destruct Hn. intros x Hx. apply He'. split; [by apply Hin|done].
    + intros (y & Hy). specialize (Hin y). tauto.
  - apply not_Forall_Exists in Hf; [|apply _]. apply list.Exists_exists in Hf as (y & Hy & Hn).
    apply elem_items in Hy as Hdy; [|apply (proj2 Hd)]. rewrite Z.sub_0_r in Hdy. unfold compose in Hn.
    assert (dense_elem d y) as Hyd by done. split.
    + intros _. exists y. tauto.
    + intros _ Hall. specialize (Hall y Hyd). apply He' in Hall. tauto.
Qed.

Lemma dense_intersect_hybrid dom s o : wf_bitset dom s → wf_hybrid dom o →
  ∃ s' b, HybridBitSet.dense_intersect s o = Ret (s', b) ∧ wf_bitset dom s' ∧
    set_update (dense_elem s) (dense_elem s') b (λ y, dense_elem s y ∧ hybrid_elem o y).
Proof.
  intros Hs Ho. unfold HybridBitSet.dense_intersect. rewrite (hybrid_domain _ _ Ho), (proj1 Hs), Z.eqb_refl.
  cbn [rassert]. pose proof Ho as [_ Hw]. destruct o as [o|o]; [|by apply intersect_dense_spec].
  destruct (dense_sparse_intersect_spec dom s o Hs Hw) as (u & b & -> & Hu & He & Hb). cbn [obind].
  destruct (clear_dense dom s Hs) as [Hc Hce].
  destruct (fold_insert_dense dom (SparseBitSet.iter u) _ Hc (wfs_below _ _ Hu)) as (s' & -> & Hs' & He').
  cbn [obind]. eexists _, b. split; [done|]. split; [done|]. split; [|done].
  intros y. rewrite He'. specialize (He y). specialize (Hce y). unfold sparse_elem at 1 in He.
  unfold SparseBitSet.iter. cbn [hybrid_elem]. tauto.
Qed.

Lemma intersect_hybrid dom s o : wf_hybrid dom s → wf_hybrid dom o →
  ∃ s' b, HybridBitSet.intersect s o = Ret (s', b) ∧ wf_hybrid dom s' ∧
    set_update (hybrid_elem s) (hybrid_elem s') b (λ y, hybrid_elem s y ∧ hybrid_elem o y).
Proof.
  intros Hs Ho. unfold HybridBitSet.intersect.
  rewrite (hybrid_domain _ _ Hs), (hybrid_domain _ _ Ho), Z.eqb_refl. cbn [rassert].
  pose proof Hs as [Hd Hw]. pose proof Ho as [_ Hwo]. destruct s as [s|s].
  - apply (on_sparse_spec dom); [done|]. apply (sparse_intersect_spec dom s _ (hybrid_elem o)); [done|].
    intros x Hx. by apply (contains_hybrid dom).
  - destruct o as [o|o].
    + apply (on_sparse_spec dom); [done|]. by apply dense_sparse_intersect_spec.
    + apply (on_dense_spec dom); [done|]. by apply intersect_dense_spec.
Qed.

(** ** Ranges *)

(** The elements of a range, inserted one by one *)
Lemma fold_insert_sparse dom : dom ≤ idx_max + 1 → ∀ l s, wf_sparse dom s → Forall (λ x, 0 ≤ x < dom) l →
  (length (SparseBitSet.elems s) + length l < SPARSE_MAX)%nat →
  ∃ s', fold_outcome (λ sparse elem, let! x := idx_new elem in
      let! (sparse, _) := SparseBitSet.insert sparse x in Ret sparse) l s = Ret s' ∧
    wf_sparse dom s' ∧ ∀ y, sparse_elem s' y ↔ sparse_elem s y ∨ y ∈ l.
Proof.
  intros Hmax. induction l as [|x l IH]; intros s Hs Hl Hlen; cbn [fold_outcome].
  { exists s. split_and!; try done. intros y. rewrite elem_of_nil. tauto. }
  apply Forall_inv in Hl as Hx. apply Forall_inv_tail in Hl. unfold idx_new at 1. cbn [length] in Hlen.
  rewrite (proj2 (Z.leb_le _ _)) by lia. cbn [rassert obind].
  destruct (insert_sparse dom s x Hs Hx) as (s1 & b & -> & Hs1 & He1 & _); [lia|]. cbn [obind].
  pose proof (sorted_length_le s1 s x (wfs_sorted _ _ Hs1) (wfs_sorted _ _ Hs) He1).
  destruct (IH s1 Hs1 Hl ltac:(lia)) as (s2 & -> & Hs2 & He2).
  exists s2. split_and!; try done. intros y. rewrite He2, He1, elem_of_cons. tauto.
Qed.

(** A range that ends where it says: [insert_range] adds it.  (An open end is
    another matter, see [open_range_misses_last].) *)
Lemma insert_range_hybrid dom s r :
  wf_hybrid dom s → bit_range_ok dom r → end_bound r ≠ Unbounded → dom ≤ idx_max + 1 →
  ∃ s', HybridBitSet.insert_range s r = Ret s' ∧ wf_hybrid dom s' ∧
    ∀ x, hybrid_elem s' x ↔ hybrid_elem s x ∨ in_range dom r x.
Proof.
  intros Hs Hr Hend Hmax. unfold HybridBitSet.insert_range.
  rewrite (hybrid_domain _ _ Hs). pose proof Hs as [Hd Hw]. pose proof Hr as [Hrs Hre].
  set (start := match start_bound r with Included _ => _ | _ => _ end).
  set (end_ := match end_bound r with Included _ => _ | _ => _ end).
  assert (0 ≤ start ∧ 0 ≤ end_ ≤ dom ∧ ∀ x, in_range dom r x ↔ start ≤ x < end_) as (Hst & He & Hin).
  { unfold start, end_, in_range, wadd, dense_domain in *.
    destruct (start_bound r); [| rewrite wrap_small by (unfold is_uint; lia) |];
      (destruct (end_bound r); [rewrite wrap_small by (unfold is_uint; lia)| |done]);
      split_and!; intros; lia. }
  clearbody start end_. unfold checked_sub. destruct (Z.leb_spec start end_) as [Hle|Hgt].
  2: { exists s. split_and!; try done. intros x. rewrite Hin. split; [tauto|]. intros [?|?]; [done|lia]. }
  assert (∀ d, wf_bitset dom d → (∀ y, dense_elem d y ↔ hybrid_elem s y) →
    ∃ s', (let! dense := BitSet.insert_range d r in Ret (HybridBitSet.Dense dense)) = Ret s' ∧
      wf_hybrid dom s' ∧ ∀ x, hybrid_elem s' x ↔ hybrid_elem s x ∨ in_range dom r x) as Hdense.
  { intros d Hwd Hed. destruct (insert_range_dense dom d r Hwd Hr) as (d' & -> & Hwd' & Hed').
    eexists. split; [done|]. split; [done|]. intros x. cbn [hybrid_elem]. by rewrite Hed', Hed. }
  destruct s as [s|s]; [|by apply Hdense].
  destruct (Z.ltb_spec (Z.of_nat (SparseBitSet.len s) + (end_ - start)) (Z.of_nat SPARSE_MAX)) as [Hfit|_].
  2: { destruct (to_dense_sparse dom s Hd Hw) as (d & -> & Hwd & Hed). by apply Hdense. }
  clear Hdense.
  destruct (fold_insert_sparse dom Hmax (seqZ start (end_ - start)) s Hw) as (s' & -> & Hs' & He').
  - apply list.Forall_forall. intros x Hx%elem_of_seqZ. lia.
  - unfold SparseBitSet.len in Hfit. rewrite length_seqZ. lia.
  - cbn [obind]. eexists. split; [done|]. split; [done|]. intros x. cbn [hybrid_elem].
    rewrite He', elem_of_seqZ, Hin. split; intros [?|?]; (by left) || (right; lia).
Qed.

(** An open range in a sparse set that has room: the last index of the domain is
    left out. *)
Lemma open_range_sparse dom s start :
  dense_domain dom → wf_sparse dom s → 0 ≤ start < dom → dom ≤ idx_max + 1 →
  Z.of_nat (SparseBitSet.len s) + (dom - 1 - start) < Z.of_nat SPARSE_MAX →
  ∃ s', HybridBitSet.insert_range (HybridBitSet.Sparse s)
      {| start_bound := Included start; end_bound := Unbounded |} = Ret (HybridBitSet.Sparse s') ∧
    wf_sparse dom s' ∧ ∀ x, sparse_elem s' x ↔ sparse_elem s x ∨ start ≤ x < dom - 1.
Proof.
  intros Hd Hs Hst Hmax Hlen. unfold HybridBitSet.insert_range.
  cbn [start_bound end_bound HybridBitSet.domain_size]. rewrite (wfs_domain _ _ Hs).
  unfold dense_domain in Hd. unfold wsub, checked_sub. rewrite wrap_small by (unfold is_uint; lia).
  rewrite (proj2 (Z.leb_le _ _)), (proj2 (Z.ltb_lt _ _)) by (done || lia).
  destruct (fold_insert_sparse dom Hmax (seqZ start (dom - 1 - start)) s Hs) as (s' & -> & Hs' & He').
  - apply list.Forall_forall. intros x Hx%elem_of_seqZ. lia.
  - unfold SparseBitSet.len in Hlen. rewrite length_seqZ. lia.
  - cbn [obind]. eexists. split; [done|]. split; [done|]. intros x.
    rewrite He', elem_of_seqZ. split; intros [?|?]; (by left) || (right; lia).
Qed.

End Hybrid.

(** * Growable sets *)

Lemma ensure_growable dom m s : wf_bitset dom s → dense_domain m →
  wf_bitset (Z.max dom m) (GrowableBitSet.ensure s m) ∧
  ∀ x, bit (BitSet.words (GrowableBitSet.ensure s m)) x = bit (BitSet.words s) x.
Proof.
  intros [Hd Hw] Hm. unfold GrowableBitSet.ensure. cbn [BitSet.words]. rewrite Hd.
  pose proof (wfw_domain _ _ Hw) as Hdom. pose proof (wfw_length _ _ Hw) as Hl.
  set (ws := if (_ <? _)%nat then _ else _).
  assert (∃ k, ws = BitSet.words s ++ replicate k 0 ∧
    length ws = num_words (Z.max dom m)) as (k & Ek & Elen).
  { unfold ws. assert (∀ a b, dense_domain a → dense_domain b → a ≤ b → (num_words a ≤ num_words b)%nat) as Hmono.
    { intros a b Ha Hb Hab. apply Nat2Z.inj_le. rewrite !num_words_eq by done. apply Z.div_le_mono; lia. }
    destruct (Z.max_spec dom m) as [[? ->]|[? ->]]; destruct (Nat.ltb_spec (length (BitSet.words s)) (num_words m)).
    - eexists. split; [done|]. rewrite length_app, length_replicate. lia.
    - exists 0%nat. rewrite app_nil_r. split; [done|]. pose proof (Hmono dom m Hdom Hm). lia.
    - pose proof (Hmono m dom Hm Hdom). lia.
    - exists 0%nat. by rewrite app_nil_r. }
  clearbody ws. subst ws.
  assert (∀ x, bit (BitSet.words s ++ replicate k 0) x = bit (BitSet.words s) x) as Hb.
  { intros x. unfold bit. destruct (decide (Z.to_nat (x / 64) < length (BitSet.words s))%nat).
    - by rewrite lookup_app_l by done.
    - rewrite lookup_app_r by lia. rewrite (lookup_ge_None_2 (BitSet.words s)) by lia.
      destruct (replicate k 0 !! _) as [w|] eqn:E; [|done]. apply lookup_replicate in E as [-> _]. apply Z.bits_0. }
  split; [|done]. split.
  - cbn. destruct (Z.ltb_spec dom m); lia.
  - cbn [BitSet.words]. split.
    + unfold dense_domain in *. lia.
    + done.
    + apply Forall_app. split; [apply Hw|by apply Forall_replicate].
    + intros x Hx. rewrite Hb. apply (wfw_excess _ _ Hw). lia.
Qed.

Lemma contains_growable dom s x : wf_bitset dom s → 0 ≤ x →
  GrowableBitSet.contains s x = bit (BitSet.words s) x.
Proof.
  intros [_ Hw] Hx. unfold GrowableBitSet.contains, word_index_and_mask, bit. change WORD_BITS with 64.
  rewrite mask_pow2. destruct (BitSet.words s !! _) as [w|]; [|done].
  rewrite land_pow2, negb_involutive by (apply (div_mod_64 x)). done.
Qed.

(** Insertion grows the domain as needed, and only then. *)
Lemma insert_growable dom s x : wf_bitset dom s → 0 ≤ x < 2 ^ 64 - 64 →
  ∃ s' b, GrowableBitSet.insert s x = Ret (s', b) ∧ wf_bitset (Z.max dom (x + 1)) s' ∧
    set_update (dense_elem s) (dense_elem s') b (λ y, dense_elem s y ∨ y = x).
Proof.
  intros Hs Hx. unfold GrowableBitSet.insert, wadd. rewrite wrap_small by (unfold is_uint; lia).
  destruct (ensure_growable dom (x + 1) s Hs) as [He Hb]; [unfold dense_domain; lia|].
  destruct (insert_dense _ _ x He) as (s' & b & Hr & Hs' & Hu); [lia|]. eexists _, b. split; [exact Hr|].
  split; [done|].
  assert (∀ y, dense_elem (GrowableBitSet.ensure s (x + 1)) y ↔ dense_elem s y) as Hd.
  { intros y. unfold dense_elem. by rewrite Hb. }
  destruct Hu as [H1 H2]. split; [intros y; by rewrite H1, Hd|]. rewrite H2.
  split; intros (y & Hy); exists y; specialize (Hd y); tauto.
Qed.

Lemma remove_growable dom s x : wf_bitset dom s → 0 ≤ x < 2 ^ 64 - 64 →
  ∃ s' b, GrowableBitSet.remove s x = Ret (s', b) ∧ wf_bitset (Z.max dom (x + 1)) s' ∧
    set_update (dense_elem s) (dense_elem s') b (λ y, dense_elem s y ∧ y ≠ x).
Proof.
  intros Hs Hx. unfold GrowableBitSet.remove, wadd. rewrite wrap_small by (unfold is_uint; lia).
  destruct (ensure_growable dom (x + 1) s Hs) as [He Hb]; [unfold dense_domain; lia|].
  destruct (remove_dense _ _ x He) as (s' & b & Hr & Hs' & Hu); [lia|]. eexists _, b. split; [exact Hr|].
  split; [done|].
  assert (∀ y, dense_elem (GrowableBitSet.ensure s (x + 1)) y ↔ dense_elem s y) as Hd.
  { intros y. unfold dense_elem. by rewrite Hb. }
  destruct Hu as [H1 H2]. split; [intros y; by rewrite H1, Hd|]. rewrite H2.
  split; intros (y & Hy); exists y; specialize (Hd y); tauto.
Qed.

(** * Sets in one integer *)

Lemma finite_contains w s i : 0 < w → is_uint w s → 0 ≤ i →
  FiniteBitSet.contains w s i = if i <? w then Some (Z.testbit s i) else None.
Proof.
  intros Hw Hs Hi. unfold FiniteBitSet.contains, FiniteBitSet.within_domain, FiniteBitSet.checked_shr.
  destruct (Z.ltb_spec i w); [|done]. cbn [from_option id]. unfold wshr. rewrite (Z.mod_small i w) by lia. f_equal.
  assert (Z.land (Z.shiftr s i) 1 = Z.b2z (Z.testbit s i)) as ->.
  { rewrite Z.testbit_spec', <- shiftr_div by lia. change 1 with (Z.ones 1). by rewrite Z.land_ones. }
  by destruct (Z.testbit s i).
Qed.

Lemma finite_mask w i : 0 < w → 0 ≤ i → i < w →
  default 0 (FiniteBitSet.checked_shl w 1 i) = 2 ^ i.
Proof.
  intros Hw Hi Hlt. unfold FiniteBitSet.checked_shl. rewrite (proj2 (Z.ltb_lt _ _)) by done. cbn [from_option id].
  rewrite wshl_small, Z.mul_1_l by lia. by apply wrap_small, pow2_uint.
Qed.

(** [set_range] sets the bits of the range that fit. *)
Lemma finite_set_range w s a b j : 0 < w → is_uint w s → 0 ≤ a ≤ b → b < 2 ^ 32 → 0 ≤ j < w →
  Z.testbit (FiniteBitSet.set_range w s a b) j = Z.testbit s j || (a <=? j) && (j <? b).
Proof.
  intros Hw Hs Hab Hb Hj. unfold FiniteBitSet.set_range. rewrite Z.lor_spec. f_equal.
  unfold wsub. rewrite wrap_small by (unfold is_uint; lia). unfold FiniteBitSet.checked_shl.
  set (inner := wnot w _).
  assert (0 ≤ inner ∧ ∀ i, 0 ≤ i < w → Z.testbit inner i = (i <? b - a)) as [Hi0 Hinner].
  { unfold inner. destruct (Z.ltb_spec (b - a) w); cbn [from_option id].
    - assert (is_uint w (wshl w (umax w) (b - a))) as Hu by (apply wrap_bounds; lia).
      split; [by apply wnot_uint in Hu as []|].
      intros i Hi. rewrite wnot_testbit by (done || lia). rewrite wshl_small by lia.
      unfold wrap. rewrite Z.mod_pow2_bits_low by lia.
      destruct (decide (i < b - a)).
      + rewrite Z.mul_pow2_bits_low by lia. rewrite (proj2 (Z.ltb_lt _ _)) by done. done.
      + rewrite Z.mul_pow2_bits by lia. unfold umax. rewrite ones_testbit by lia. bool_cases.
    - split; [unfold wnot, umax; pose proof (pow2_pos w); lia|].
      intros i Hi. rewrite wnot_testbit by (done || lia || (split; [lia|apply pow2_pos; lia])).
      rewrite Z.bits_0. bool_cases. }
  destruct (Z.ltb_spec a w); cbn [from_option id].
  - rewrite wshl_small by lia. unfold wrap. rewrite Z.mod_pow2_bits_low by lia.
    destruct (decide (j < a)); [rewrite Z.mul_pow2_bits_low by lia; bool_cases|].
    rewrite Z.mul_pow2_bits by lia. rewrite Hinner by lia. bool_cases.
  - rewrite Z.bits_0. bool_cases.
Qed.
