(* ===== verification/ChunkedBitSets.v ===== *)
(** * Chunked bit sets

    [ChunkedBitSet] of [compiler/rustc_index/src/bit_set.rs]: a set in chunks of
    2048 indices, of which those without zeros or without ones are not stored.
    The words of a mixed chunk are shared by [Rc] and copied before they are
    changed ([Rc::make_mut]), so a chunk is a value here. *)

From S2P Require Import Prelude.
From S2P Require Import Slice.
From S2P Require Import BitSets.

(** [Chunk]: the domain size of the chunk, and for a mixed one the number of its
    ones and its [CHUNK_WORDS] words *)
Inductive Chunk : Type :=
| Zeros (chunk_domain_size : Z)
| Ones (chunk_domain_size : Z)
| Mixed (chunk_domain_size count : Z) (words : list Z).

Definition num_chunks (domain_size : Z) : outcome nat :=
  rassert (0 <? domain_size)
    (Ret (Z.to_nat (wsub 64 (wadd 64 domain_size CHUNK_BITS) 1 / CHUNK_BITS))).

Definition chunk_index (elem : Z) : nat := Z.to_nat (elem / CHUNK_BITS).

Definition chunk_word_index_and_mask (elem : Z) : nat * Z := word_index_and_mask (elem mod CHUNK_BITS).

(** [Rc::<[Word; CHUNK_WORDS]>::new_zeroed()] *)
Definition zeroed_words : list Z := replicate (Z.to_nat CHUNK_WORDS) 0.

(** [*chunk_ref = ..] over a part [0..n] of the words *)
Definition with_prefix (words : list Z) (n : nat) (f : list Z → outcome (list Z)) : outcome (list Z) :=
  let! ws := subslice words 0 n in
  let! ws := f ws in
  Ret (ws ++ drop n words).

Definition chunk_new (chunk_domain_size : Z) (is_empty : bool) : Chunk :=
  let chunk_domain_size := wrap 16 chunk_domain_size in
  if is_empty then Zeros chunk_domain_size else Ones chunk_domain_size.

Definition chunk_count (c : Chunk) : Z :=
  match c with Zeros _ => 0 | Ones sz => sz | Mixed _ count _ => count end.

Module ChunkedBitSet.

Record t : Type := { domain_size : Z; chunks : list Chunk }.

Definition with_chunks (s : t) (cs : list Chunk) : t :=
  {| domain_size := domain_size s; chunks := cs |}.

Definition new (dom : Z) (is_empty : bool) : outcome t :=
  let! cs :=
    if dom =? 0 then Ret []
    else
      let final_chunk_domain_size :=
        let n := dom mod CHUNK_BITS in if n =? 0 then CHUNK_BITS else n in
      let! n := num_chunks dom in
      let cs := replicate n (chunk_new CHUNK_BITS is_empty) in
      index_set cs (length cs - 1) (chunk_new final_chunk_domain_size is_empty) in
  Ret {| domain_size := dom; chunks := cs |}.

Definition new_empty (dom : Z) : outcome t := new dom true.

Definition new_filled (dom : Z) : outcome t := new dom false.

Definition count (s : t) : Z := foldr Z.add 0 (chunk_count <$> chunks s).

Definition contains (s : t) (elem : Z) : outcome bool :=
  rassert (elem <? domain_size s)
    (let! chunk := index (chunks s) (chunk_index elem) in
     match chunk with
     | Zeros _ => Ret false
     | Ones _ => Ret true
     | Mixed _ _ words =>
         let (word_index, mask) := chunk_word_index_and_mask elem in
         let! w := index words word_index in Ret (negb (Z.land w mask =? 0))
     end).

(** The chunk after an insertion of [elem] *)
Definition chunk_insert (chunk : Chunk) (elem : Z) : outcome (Chunk * bool) :=
  let (word_index, mask) := chunk_word_index_and_mask elem in
  match chunk with
  | Zeros chunk_domain_size =>
      if 1 <? chunk_domain_size then
        let! words := BitSet.or_word zeroed_words word_index mask in
        Ret (Mixed chunk_domain_size 1 words, true)
      else Ret (Ones chunk_domain_size, true)
  | Ones _ => Ret (chunk, false)
  | Mixed chunk_domain_size count words =>
      let! w := index words word_index in
      if Z.land w mask =? 0 then
        let count := wadd 16 count 1 in
        if count <? chunk_domain_size then
          let! words := BitSet.or_word words word_index mask in
          Ret (Mixed chunk_domain_size count words, true)
        else Ret (Ones chunk_domain_size, true)
      else Ret (chunk, false)
  end.

(** [words[i] &= !mask] *)
Definition clear_word_bit (words : list Z) (i : nat) (mask : Z) : outcome (list Z) :=
  let! w := index words i in index_set words i (Z.land w (wnot 64 mask)).

Definition chunk_remove (chunk : Chunk) (elem : Z) : outcome (Chunk * bool) :=
  let (word_index, mask) := chunk_word_index_and_mask elem in
  match chunk with
  | Zeros _ => Ret (chunk, false)
  | Ones chunk_domain_size =>
      if 1 <? chunk_domain_size then
        let num_words := num_words chunk_domain_size in
        let! words := with_prefix zeroed_words num_words (λ ws,
          clear_excess_bits_in_final_word chunk_domain_size (replicate (length ws) (wnot 64 0))) in
        let! words := clear_word_bit words word_index mask in
        Ret (Mixed chunk_domain_size (wsub 16 chunk_domain_size 1) words, true)
      else Ret (Zeros chunk_domain_size, true)
  | Mixed chunk_domain_size count words =>
      let! w := index words word_index in
      if negb (Z.land w mask =? 0) then
        let count := wsub 16 count 1 in
        if 0 <? count then
          let! words := clear_word_bit words word_index mask in
          Ret (Mixed chunk_domain_size count words, true)
        else Ret (Zeros chunk_domain_size, true)
      else Ret (chunk, false)
  end.

(** An operation on the chunk of [elem] *)
Definition on_chunk (s : t) (elem : Z) (f : Chunk → Z → outcome (Chunk * bool)) : outcome (t * bool) :=
  rassert (elem <? domain_size s)
    (let! chunk := index (chunks s) (chunk_index elem) in
     let! (chunk, changed) := f chunk elem in
     let! cs := index_set (chunks s) (chunk_index elem) chunk in
     Ret (with_chunks s cs, changed)).

Definition insert (s : t) (elem : Z) : outcome (t * bool) := on_chunk s elem chunk_insert.

Definition remove (s : t) (elem : Z) : outcome (t * bool) := on_chunk s elem chunk_remove.

Definition insert_all (s : t) : t :=
  with_chunks s ((λ c, match c with
    | Zeros sz | Ones sz | Mixed sz _ _ => Ones sz end) <$> chunks s).

(** The body of the loop of [union] *)
Definition chunk_union (self_chunk other_chunk : Chunk) : outcome (Chunk * bool) :=
  match self_chunk, other_chunk with
  | _, Zeros _ | Ones _, _ => Ret (self_chunk, false)
  | Zeros _, Ones _ | Mixed _ _ _, Ones _ | Zeros _, Mixed _ _ _ => Ret (other_chunk, true)
  | Mixed self_chunk_domain_size _ self_chunk_words, Mixed _ _ other_chunk_words =>
      let num_words := num_words self_chunk_domain_size in
      let! a := subslice self_chunk_words 0 num_words in
      let! b := subslice other_chunk_words 0 num_words in
      let! changes := bitwise_changes Z.lor a b in
      if changes then
        let! words := with_prefix self_chunk_words num_words (λ a,
          let! (ws, _) := bitwise Z.lor a b in Ret ws) in
        let! used := subslice words 0 num_words in
        let self_chunk_count := wrap 16 (foldr Z.add 0 (count_ones <$> used)) in
        if self_chunk_count =? self_chunk_domain_size then Ret (Ones self_chunk_domain_size, true)
        else Ret (Mixed self_chunk_domain_size self_chunk_count words, true)
      else Ret (self_chunk, false)
  end.

Fixpoint union_loop (self_chunks other_chunks : list Chunk) : outcome (list Chunk * bool) :=
  match self_chunks, other_chunks with
  | c :: self_chunks, o :: other_chunks =>
      let! (c, changed) := chunk_union c o in
      let! (cs, changed') := union_loop self_chunks other_chunks in
      Ret (c :: cs, changed || changed')
  | _, _ => Ret (self_chunks, false)
  end.

Definition union (s other : t) : outcome (t * bool) :=
  rassert (domain_size s =? domain_size other)
    (let! (cs, changed) := union_loop (chunks s) (chunks other) in
     Ret (with_chunks s cs, changed)).

(** [Clone::clone_from] panics for different domains. *)
Definition clone_from (s from : t) : outcome t :=
  rassert (domain_size s =? domain_size from) (Ret (with_chunks s (chunks from))).

Section WithIdx.
Context `{Idx}.

(** The inner loop of [ChunkedBitIter::next] in a mixed chunk: the item, if the
    chunk has one from [idx] on, and the next index.  A chunk ends after at most
    [CHUNK_BITS] rounds, which is the fuel. *)
Fixpoint mixed_next (fuel : nat) (words : list Z) (idx : Z) : outcome (option Z * Z) :=
  match fuel with
  | O => Panic
  | S fuel =>
      let! elem := idx_new idx in
      let idx := idx + 1 in
      let (word_index, mask) := chunk_word_index_and_mask elem in
      let! w := index words word_index in
      if negb (Z.land w mask =? 0) then Ret (Some elem, idx)
      else if idx mod CHUNK_BITS =? 0 then Ret (None, idx)
      else mixed_next fuel words idx
  end.

(** [ChunkedBitIter::next]: the item and the next index.  Each round leaves a
    chunk, so that the number of chunks and one more is enough fuel. *)
Fixpoint next_loop (fuel : nat) (s : t) (idx : Z) : outcome (option (Z * Z)) :=
  if idx <? domain_size s then
    match fuel with
    | O => Panic
    | S fuel =>
        let! elem := idx_new idx in
        let! chunk := index (chunks s) (chunk_index elem) in
        match chunk with
        | Zeros chunk_domain_size => next_loop fuel s (idx + chunk_domain_size)
        | Ones _ => Ret (Some (elem, idx + 1))
        | Mixed _ _ words =>
            let! (o, idx) := mixed_next (Z.to_nat CHUNK_BITS) words idx in
            match o with
            | Some x => Ret (Some (x, idx))
            | None => next_loop fuel s idx
            end
        end
    end
  else Ret None.

Definition next (s : t) (idx : Z) : outcome (option (Z * Z)) :=
  next_loop (S (length (chunks s))) s idx.

(** All items from [idx] on, by [next] *)
Fixpoint collect_loop (fuel : nat) (s : t) (idx : Z) : outcome (list Z) :=
  match fuel with
  | O => Panic
  | S fuel =>
      let! o := next s idx in
      match o with
      | None => Ret []
      | Some (x, idx) => let! xs := collect_loop fuel s idx in Ret (x :: xs)
      end
  end.

Definition collect (s : t) : outcome (list Z) := collect_loop (S (Z.to_nat (domain_size s))) s 0.

(** The items of one chunk in [ChunkedBitIter::fold] *)
Definition fold_chunk (base : Z) (chunk : Chunk) : outcome (list Z) :=
  match chunk with
  | Zeros _ => Ret []
  | Ones limit => fold_outcome (λ acc j, let! x := idx_new (base + j) in Ret (acc ++ [x])) (seqZ 0 limit) []
  | Mixed _ _ words =>
      let! items := BitIter.collect words in
      fold_outcome (λ acc item, let! x := idx_new (item + base) in Ret (acc ++ [x])) items []
  end.

Fixpoint fold_chunks (i : Z) (cs : list Chunk) : outcome (list Z) :=
  match cs with
  | [] => Ret []
  | c :: cs =>
      let! xs := fold_chunk (i * CHUNK_BITS) c in
      let! ys := fold_chunks (i + 1) cs in
      Ret (xs ++ ys)
  end.

(** The items that [ChunkedBitIter::fold] passes to its function, in order, for
    an iterator at [idx]: by [next] up to the start of a chunk, then chunk by
    chunk *)
Fixpoint fold_loop (fuel : nat) (s : t) (idx : Z) : outcome (list Z) :=
  if negb (idx mod CHUNK_BITS =? 0) then
    match fuel with
    | O => Panic
    | S fuel =>
        let! o := next s idx in
        match o with
        | None => Ret []
        | Some (item, idx) => let! xs := fold_loop fuel s idx in Ret (item :: xs)
        end
    end
  else
    let start_chunk := Z.to_nat (idx / CHUNK_BITS) in
    let! cs := subslice (chunks s) start_chunk (length (chunks s)) in
    fold_chunks (Z.of_nat start_chunk) cs.

Definition fold (s : t) (idx : Z) : outcome (list Z) :=
  fold_loop (S (Z.to_nat (domain_size s))) s idx.

(** The items of a fresh iterator, as [sequential_update] gets them *)
Definition iter (s : t) : outcome (list Z) := fold s 0.

Section WithArrayVec.
Context `{ArrayVecApi}.

(** chunked REL hybrid *)
Definition union_hybrid (s : t) (other : HybridBitSet.t) : outcome (t * bool) :=
  rassert (domain_size s =? HybridBitSet.domain_size other)
    (let! it := HybridBitSet.iter other in sequential_update insert s it).

Definition subtract_hybrid (s : t) (other : HybridBitSet.t) : outcome (t * bool) :=
  rassert (domain_size s =? HybridBitSet.domain_size other)
    (let! it := HybridBitSet.iter other in sequential_update remove s it).

End WithArrayVec.

(** dense REL chunked *)
Definition dense_union (s : BitSet.t) (other : t) : outcome (BitSet.t * bool) :=
  let! it := iter other in sequential_update BitSet.insert s it.

End WithIdx.

(** The words of one chunk in the intersection of a dense set with a chunked one *)
Definition intersect_words (words : list Z) (chunk : Chunk) : outcome (list Z * bool) :=
  match chunk with
  | Zeros _ => Ret (replicate (length words) 0, existsb (λ w, negb (w =? 0)) words)
  | Ones _ => Ret (words, false)
  | Mixed _ _ data =>
      fold_outcome (λ '(acc, changed) '(i, word),
        let! d := index data i in
        let new_val := Z.land word d in
        Ret (acc ++ [new_val], changed || negb (new_val =? word)))
        (zip (seq 0 (length words)) words) ([], false)
  end.

(** The body of the loop: the words of chunk [i], of which the last chunk may
    have fewer *)
Definition intersect_chunk (words : list Z) (i : nat) (c : Chunk) : outcome (list Z * bool) :=
  let start := (i * Z.to_nat CHUNK_WORDS)%nat in
  let! rest := subslice words start (length words) in
  let n := if (Z.to_nat CHUNK_WORDS <? length rest)%nat then Z.to_nat CHUNK_WORDS else length rest in
  let! (ws, b) := intersect_words (take n rest) c in
  Ret (take start words ++ ws ++ drop (start + n) words, b).

Fixpoint intersect_loop (words : list Z) (i : nat) (cs : list Chunk) (changed : bool)
    : outcome (list Z * bool) :=
  match cs with
  | [] => Ret (words, changed)
  | c :: cs =>
      let! (words, b) := intersect_chunk words i c in
      intersect_loop words (S i) cs (changed || b)
  end.

Definition dense_intersect (s : BitSet.t) (other : t) : outcome (BitSet.t * bool) :=
  rassert (BitSet.domain_size s =? domain_size other)
    (let! (ws, changed) := intersect_loop (BitSet.words s) 0 (chunks other) false in
     Ret (BitSet.with_words s ws, changed)).

End ChunkedBitSet.
