(* ===== verification/ChunkedProps.v ===== *)
(** * Properties of chunked bit sets

    The invariant of chunks (a mixed chunk has a zero and a one, its count is
    the number of its ones, unused words are zero), the operations as operations
    on sets of integers, and the agreement of the two ways of iterating. *)

From stdpp Require Import sorting.
From S2P Require Import Prelude.
From S2P Require Import Slice.
From S2P Require Import IndexSet.
From S2P Require Import BitSets.
From S2P Require Import BitSetProps.
From S2P Require Import BitIterProps.
From S2P Require Import HybridProps.
From S2P Require Import ChunkedBitSets.

(** * Counting the ones of a word list *)

Lemma sorted_nodup (l : list Z) : StronglySorted Z.lt l → NoDup l.
Proof.
  induction 1 as [|y l _ IH Hy]; constructor; [|done]. rewrite list.Forall_forall in Hy.
  intros Hin%Hy. lia.
Qed.

Lemma items_nodup ws : Forall (is_uint 64) ws → NoDup (items 0 ws).
Proof. intros. by apply sorted_nodup, items_sorted. Qed.

Lemma elem_items_0 ws x : Forall (is_uint 64) ws → x ∈ items 0 ws ↔ 0 ≤ x ∧ bit ws x = true.
Proof. intros. by rewrite elem_items, Z.sub_0_r. Qed.

(** One more bit *)
Lemma items_add ws ws' k :
  Forall (is_uint 64) ws → Forall (is_uint 64) ws' → 0 ≤ k → bit ws k = false →
  (∀ x, 0 ≤ x → bit ws' x = bit ws x || (x =? k)) →
  length (items 0 ws') = S (length (items 0 ws)).
Proof.
  intros Hu Hu' Hk Hf Hb. change (S (length (items 0 ws))) with (length (k :: items 0 ws)).
  apply Permutation_length, NoDup_Permutation.
  - by apply items_nodup.
  - constructor; [|by apply items_nodup]. rewrite elem_items_0 by done. rewrite Hf. intros [_ ?]. done.
  - intros x. rewrite elem_of_cons, !elem_items_0 by done. split.
    + intros [Hx Hbx]. rewrite Hb, orb_true_iff, Z.eqb_eq in Hbx by done. tauto.
    + intros [->|[Hx Hbx]]; (split; [done|]); rewrite Hb by done; [by rewrite Z.eqb_refl, orb_true_r|by rewrite Hbx].
Qed.

Lemma items_below ws sz : Forall (is_uint 64) ws → 0 ≤ sz → (∀ x, sz ≤ x → bit ws x = false) →
  items 0 ws ⊆+ seqZ 0 sz.
Proof.
  intros Hu Hsz Hb. apply NoDup_submseteq; [by apply items_nodup|]. intros x Hx.
  rewrite elem_items_0 in Hx by done. destruct Hx as [Hx Hbx]. apply elem_of_seqZ.
  destruct (Z.lt_ge_cases x sz) as [|Hge]; [lia|]. by rewrite Hb in Hbx.
Qed.

Lemma items_full ws sz : Forall (is_uint 64) ws → 0 ≤ sz → (∀ x, sz ≤ x → bit ws x = false) →
  Z.of_nat (length (items 0 ws)) = sz → ∀ x, 0 ≤ x → bit ws x = (x <? sz).
Proof.
  intros Hu Hsz Hb Hl x Hx. destruct (Z.ltb_spec x sz); [|by apply Hb].
  assert (items 0 ws ≡ₚ seqZ 0 sz) as Hp.
  { apply submseteq_length_Permutation; [by apply items_below|]. rewrite length_seqZ. lia. }
  assert (x ∈ items 0 ws) as Hin by (rewrite Hp; apply elem_of_seqZ; lia).
  by apply elem_items_0 in Hin as [_ ?].
Qed.

Lemma items_count_le ws sz : Forall (is_uint 64) ws → 0 ≤ sz → (∀ x, sz ≤ x → bit ws x = false) →
  Z.of_nat (length (items 0 ws)) ≤ sz.
Proof.
  intros Hu Hsz Hb. pose proof (submseteq_length _ _ (items_below ws sz Hu Hsz Hb)) as Hl.
  rewrite length_seqZ in Hl. lia.
Qed.

Lemma items_pos ws k : Forall (is_uint 64) ws → 0 ≤ k → bit ws k = true → (0 < length (items 0 ws))%nat.
Proof.
  intros Hu Hk Hb. assert (k ∈ items 0 ws) as Hin by (by apply elem_items_0).
  destruct (items 0 ws); [by apply elem_of_nil in Hin|cbn; lia].
Qed.

Lemma items_empty ws : Forall (is_uint 64) ws → length (items 0 ws) = 0%nat → ∀ x, 0 ≤ x → bit ws x = false.
Proof.
  intros Hu Hl x Hx. destruct (bit ws x) eqn:E; [|done]. pose proof (items_pos ws x Hu Hx E). lia.
Qed.

(** * Chunks *)

(** The words of a mixed chunk over [sz] indices *)
Record chunk_words (sz : Z) (ws : list Z) : Prop := {
  cw_length : length ws = 32%nat;
  cw_uint : Forall (is_uint 64) ws;
  cw_excess x : sz ≤ x → bit ws x = false;
}.

Definition wf_chunk (sz : Z) (c : Chunk) : Prop :=
  1 ≤ sz ≤ 2048 ∧
  match c with
  | Zeros z | Ones z => z = sz
  | Mixed z count ws =>
      z = sz ∧ chunk_words sz ws ∧ count = Z.of_nat (length (items 0 ws)) ∧ 0 < count < sz
  end.

Definition chunk_bit (c : Chunk) (k : Z) : bool :=
  match c with Zeros _ => false | Ones sz => k <? sz | Mixed _ _ ws => bit ws k end.

Lemma chunk_bit_excess sz c k : wf_chunk sz c → sz ≤ k → chunk_bit c k = false.
Proof.
  intros [? Hc] Hk. destruct c; cbn; [done|subst; apply Z.ltb_ge; lia|].
  destruct Hc as (_ & Hw & _). by apply (cw_excess _ _ Hw).
Qed.

Lemma chunk_mask elem k : elem mod CHUNK_BITS = k → 0 ≤ k →
  chunk_word_index_and_mask elem = (Z.to_nat (k / 64), 2 ^ (k mod 64)).
Proof.
  intros <- Hk. unfold chunk_word_index_and_mask, word_index_and_mask. by rewrite mask_pow2.
Qed.

Lemma chunk_word_lookup sz ws k : chunk_words sz ws → 0 ≤ k < 2048 →
  ∃ w, ws !! Z.to_nat (k / 64) = Some w ∧ is_uint 64 w ∧ (Z.to_nat (k / 64) < length ws)%nat ∧
    Z.testbit w (k mod 64) = bit ws k.
Proof.
  intros [Hl Hu _] Hk. destruct (word_bit k) as (i & j & -> & Hj & E1 & E2); [lia|].
  rewrite E1, E2, Nat2Z.id. destruct (lookup_lt_is_Some_2 ws i) as [w Hw]; [lia|].
  exists w. split_and!; [done|apply (Forall_lookup_1 _ _ _ _ Hu Hw)|lia|]. by rewrite bit_at, Hw.
Qed.

(** Setting the bit of [k] *)
Lemma chunk_or_word sz ws k : chunk_words sz ws → 0 ≤ k < sz → sz ≤ 2048 →
  ∃ ws', BitSet.or_word ws (Z.to_nat (k / 64)) (2 ^ (k mod 64)) = Ret ws' ∧ chunk_words sz ws' ∧
    ∀ x, 0 ≤ x → bit ws' x = bit ws x || (x =? k).
Proof.
  intros Hw Hk Hsz. destruct (chunk_word_lookup sz ws k Hw ltac:(lia)) as (w & _ & _ & Hlt & _).
  pose proof (div_mod_64 k) as [Ek Hkm].
  destruct (or_word_spec ws (Z.to_nat (k / 64)) (2 ^ (k mod 64)) (cw_uint _ _ Hw) Hlt) as (ws' & -> & Hl & Hu & Hb).
  { apply pow2_uint. lia. }
  assert (0 ≤ k / 64) by (apply Z.div_pos; lia). rewrite Z2Nat.id in Hb by done.
  assert (∀ x, 0 ≤ x → bit ws' x = bit ws x || (x =? k)) as Hbit.
  { intros x Hx. destruct (decide (x < 64 * Z.of_nat (length ws))).
    - rewrite Hb by lia. f_equal. rewrite pow2_testbit by lia. pose proof (div_mod_64 x). bool_cases.
    - rewrite !bit_beyond by lia. pose proof (cw_length _ _ Hw). bool_cases. }
  exists ws'. split; [done|]. split; [|done]. split; [by rewrite Hl, (cw_length _ _ Hw)|done|].
  intros x Hx. rewrite Hbit, (cw_excess _ _ Hw) by lia. bool_cases.
Qed.

(** Clearing the bit of [k] *)
Lemma chunk_clear_word sz ws k : chunk_words sz ws → 0 ≤ k < sz → sz ≤ 2048 →
  ∃ ws', ChunkedBitSet.clear_word_bit ws (Z.to_nat (k / 64)) (2 ^ (k mod 64)) = Ret ws' ∧ chunk_words sz ws' ∧
    ∀ x, 0 ≤ x → bit ws' x = bit ws x && negb (x =? k).
Proof.
  intros Hw Hk Hsz. destruct (chunk_word_lookup sz ws k Hw ltac:(lia)) as (w & Hl & Hwu & Hlt & _).
  pose proof (div_mod_64 k) as [Ek Hkm]. unfold ChunkedBitSet.clear_word_bit, index, index_set.
  rewrite Hl. cbn [unwrap obind]. rewrite (proj2 (Nat.ltb_lt _ _)) by done. cbn [rassert].
  pose proof (pow2_uint 64 (k mod 64) ltac:(lia)) as Hpu. assert (0 ≤ k / 64) by (apply Z.div_pos; lia).
  eexists. split; [done|].
  assert (∀ x, 0 ≤ x → bit (<[Z.to_nat (k / 64) := Z.land w (wnot 64 (2 ^ (k mod 64)))]> ws) x
    = bit ws x && negb (x =? k)) as Hbit.
  { intros x Hx. pose proof (div_mod_64 x). rewrite bit_insert by done. rewrite Z2Nat.id by done.
    destruct (decide (x / 64 = k / 64)) as [E|E].
    - rewrite Z.land_spec, wnot_testbit, pow2_testbit by (done || lia). unfold bit. rewrite E, Hl.
      f_equal. f_equal. bool_cases.
    - destruct (Z.eqb_spec x k); [lia|]. by rewrite andb_true_r. }
  split; [|exact Hbit]. split.
  - rewrite length_insert. apply Hw.
  - apply Forall_insert; [apply Hw|]. apply is_uint_land; [lia|done|]. by apply wnot_uint in Hpu as [].
  - intros x Hx. rewrite Hbit, (cw_excess _ _ Hw) by lia. done.
Qed.

Lemma zeroed_chunk_words sz : 0 ≤ sz → chunk_words sz zeroed_words ∧ ∀ x, bit zeroed_words x = false.
Proof.
  intros Hsz. assert (∀ x, bit zeroed_words x = false) as Hb.
  { intros x. unfold bit. destruct (_ !! _) as [w|] eqn:E; [|done].
    apply lookup_replicate in E as [-> _]. apply Z.bits_0. }
  split; [|done]. split; [done|unfold zeroed_words; by apply Forall_replicate|done].
Qed.

Lemma items_zeroed : length (items 0 zeroed_words) = 0%nat.
Proof. done. Qed.

(** ** Insertion and removal in a chunk *)

Lemma wf_mixed sz ws : 1 ≤ sz ≤ 2048 → chunk_words sz ws →
  0 < Z.of_nat (length (items 0 ws)) < sz →
  wf_chunk sz (Mixed sz (Z.of_nat (length (items 0 ws))) ws).
Proof. intros. split; [done|]. done. Qed.

Lemma chunk_insert_spec sz c elem k :
  wf_chunk sz c → elem mod CHUNK_BITS = k → 0 ≤ k < sz →
  ∃ c', ChunkedBitSet.chunk_insert c elem = Ret (c', negb (chunk_bit c k)) ∧ wf_chunk sz c' ∧
    ∀ j, 0 ≤ j → chunk_bit c' j = chunk_bit c j || (j =? k).
Proof.
  intros Hwf He Hk. pose proof Hwf as [Hsz Hc]. unfold ChunkedBitSet.chunk_insert.
  rewrite (chunk_mask elem k) by (done || lia). destruct c as [z|z|z count ws]; cbn [chunk_bit].
  - subst z. destruct (zeroed_chunk_words sz) as [Hz Hzb]; [lia|].
    destruct (Z.ltb_spec 1 sz).
    + destruct (chunk_or_word sz zeroed_words k Hz Hk ltac:(lia)) as (ws' & -> & Hw' & Hb). cbn [obind].
      pose proof (items_add zeroed_words ws' k (cw_uint _ _ Hz) (cw_uint _ _ Hw') ltac:(lia) (Hzb k) Hb) as Hl.
      rewrite items_zeroed in Hl. eexists. split; [done|]. split.
      * replace 1 with (Z.of_nat (length (items 0 ws'))) by lia. apply wf_mixed; try done. lia.
      * intros j Hj. cbn [chunk_bit]. by rewrite Hb, Hzb.
    + eexists. split; [done|]. split; [done|]. intros j Hj. cbn. bool_cases.
  - subst z. rewrite (proj2 (Z.ltb_lt k sz)) by lia. eexists. split; [done|]. split; [done|].
    intros j Hj. cbn. bool_cases.
  - destruct Hc as (-> & Hw & Hcount & Hlt).
    destruct (chunk_word_lookup sz ws k Hw ltac:(lia)) as (w & Hl & Hwu & _ & Ht). unfold index.
    rewrite Hl. cbn [unwrap obind]. rewrite land_pow2, Ht by (apply (div_mod_64 k)).
    destruct (bit ws k) eqn:Hbk; cbn [negb].
    { eexists. split; [done|]. split; [done|]. intros j Hj. cbn.
      destruct (Z.eqb_spec j k) as [->|]; [by rewrite Hbk|by rewrite orb_false_r]. }
    unfold wadd. rewrite wrap_small by (unfold is_uint; lia).
    destruct (chunk_or_word sz ws k Hw Hk ltac:(lia)) as (ws' & Hr & Hw' & Hb).
    pose proof (items_add ws ws' k (cw_uint _ _ Hw) (cw_uint _ _ Hw') ltac:(lia) Hbk Hb) as Hli.
    destruct (Z.ltb_spec (count + 1) sz).
    + rewrite Hr. cbn [obind]. eexists. split; [done|]. split; [|exact Hb].
      replace (count + 1) with (Z.of_nat (length (items 0 ws'))) by lia. apply wf_mixed; try done. lia.
    + eexists. split; [done|]. split; [done|]. intros j Hj. cbn [chunk_bit]. rewrite <- Hb by done.
      symmetry. apply (items_full ws' sz); [apply Hw'|lia|apply Hw'|lia|done].
Qed.

(** The words of a full chunk *)
Lemma full_chunk_words sz : 1 ≤ sz ≤ 2048 →
  ∃ ws, with_prefix zeroed_words (num_words sz) (λ ws,
      clear_excess_bits_in_final_word sz (replicate (length ws) (wnot 64 0))) = Ret ws ∧
    chunk_words sz ws ∧ ∀ x, 0 ≤ x → bit ws x = (x <? sz).
Proof.
  intros Hsz. assert (dense_domain sz) as Hd by (unfold dense_domain; lia).
  pose proof (num_words_bounds sz Hd) as Hn. unfold with_prefix.
  assert (length zeroed_words = 32%nat) as Hlz by done.
  unfold subslice. rewrite !(proj2 (Nat.leb_le _ _)) by lia. cbn [andb rassert obind]. rewrite drop_0.
  rewrite length_take, Nat.min_l by lia.
  destruct (clear_excess_spec sz (replicate (num_words sz) (wnot 64 0))) as (ws & -> & Hw & Hb);
    [done|by rewrite length_replicate|by apply Forall_replicate|]. cbn [obind].
  assert (∀ x, 0 ≤ x → bit (ws ++ drop (num_words sz) zeroed_words) x = (x <? sz)) as Hbit.
  { intros x Hx. destruct (decide (x < 64 * Z.of_nat (num_words sz))) as [Hlt|Hge].
    - assert (bit (ws ++ drop (num_words sz) zeroed_words) x = bit ws x) as ->.
      { unfold bit. destruct (word_bit x Hx) as (i & k & -> & Hk & -> & _). rewrite Nat2Z.id.
        rewrite lookup_app_l by (rewrite (wfw_length _ _ Hw); lia). done. }
      rewrite Hb, bit_replicate by done. rewrite (proj2 (Z.ltb_lt _ _)) by done.
      rewrite wnot_zero_testbit by (apply (div_mod_64 x)). done.
    - rewrite (proj2 (Z.ltb_ge x sz)) by lia. unfold bit.
      destruct (word_bit x Hx) as (i & k & -> & Hk & -> & _). rewrite Nat2Z.id.
      rewrite lookup_app_r by (rewrite (wfw_length _ _ Hw); lia). rewrite lookup_drop.
      destruct (zeroed_words !! _) as [w|] eqn:E; [|done]. apply lookup_replicate in E as [-> _]. apply Z.bits_0. }
  eexists. split; [done|]. split; [|exact Hbit]. split.
  - rewrite length_app, length_drop, (wfw_length _ _ Hw). lia.
  - apply Forall_app. split; [apply Hw|]. apply Forall_drop. unfold zeroed_words. by apply Forall_replicate.
  - intros x Hx. rewrite Hbit by lia. apply Z.ltb_ge. lia.
Qed.

Lemma chunk_remove_spec sz c elem k :
  wf_chunk sz c → elem mod CHUNK_BITS = k → 0 ≤ k < sz →
  ∃ c', ChunkedBitSet.chunk_remove c elem = Ret (c', chunk_bit c k) ∧ wf_chunk sz c' ∧
    ∀ j, 0 ≤ j → chunk_bit c' j = chunk_bit c j && negb (j =? k).
Proof.
  intros Hwf He Hk. pose proof Hwf as [Hsz Hc]. unfold ChunkedBitSet.chunk_remove.
  rewrite (chunk_mask elem k) by (done || lia).
  (* taking the bit of [k] out of words that have it *)
  assert (∀ ws ws', chunk_words sz ws → chunk_words sz ws' → bit ws k = true →
    (∀ x, 0 ≤ x → bit ws' x = bit ws x && negb (x =? k)) →
    length (items 0 ws) = S (length (items 0 ws'))) as Hdel.
  { intros ws ws' Hw Hw' Hbk Hb. apply (items_add ws' ws k); [apply Hw'|apply Hw|lia| |].
    - rewrite Hb, Z.eqb_refl by lia. apply andb_false_r.
    - intros x Hx. rewrite Hb by done. destruct (Z.eqb_spec x k) as [->|]; [by rewrite orb_true_r|].
      by rewrite orb_false_r, andb_true_r. }
  destruct c as [z|z|z count ws]; cbn [chunk_bit].
  - eexists. split; [done|]. split; [done|]. done.
  - subst z. rewrite (proj2 (Z.ltb_lt k sz)) by lia. destruct (Z.ltb_spec 1 sz).
    + destruct (full_chunk_words sz Hsz) as (ws & -> & Hw & Hb). cbn [obind].
      destruct (chunk_clear_word sz ws k Hw Hk ltac:(lia)) as (ws' & -> & Hw' & Hb'). cbn [obind].
      assert (bit ws k = true) as Hbk by (rewrite Hb by lia; apply Z.ltb_lt; lia).
      pose proof (Hdel ws ws' Hw Hw' Hbk Hb') as Hl.
      assert (Z.of_nat (length (items 0 ws)) = sz) as Hfull.
      { rewrite (Permutation_length (l' := seqZ 0 sz)); [rewrite length_seqZ; lia|].
        apply NoDup_Permutation; [by apply items_nodup, Hw|apply NoDup_seqZ|].
        intros x. rewrite elem_items_0, elem_of_seqZ by apply Hw. split.
        - intros [Hx Hbx]. rewrite Hb, Z.ltb_lt in Hbx by done. lia.
        - intros [? ?]. split; [lia|]. rewrite Hb by lia. apply Z.ltb_lt. lia. }
      eexists. split; [done|]. split.
      * unfold wsub. rewrite wrap_small by (unfold is_uint; lia).
        replace (sz - 1) with (Z.of_nat (length (items 0 ws'))) by lia. apply wf_mixed; try done. lia.
      * intros j Hj. cbn [chunk_bit]. by rewrite Hb', Hb.
    + eexists. split; [done|]. split; [done|]. intros j Hj. cbn. bool_cases.
  - destruct Hc as (-> & Hw & Hcount & Hlt).
    destruct (chunk_word_lookup sz ws k Hw ltac:(lia)) as (w & Hl & Hwu & _ & Ht). unfold index.
    rewrite Hl. cbn [unwrap obind]. rewrite land_pow2, Ht, negb_involutive by (apply (div_mod_64 k)).
    destruct (bit ws k) eqn:Hbk.
    2: { eexists. split; [done|]. split; [done|]. intros j Hj. cbn.
         destruct (Z.eqb_spec j k) as [->|]; [by rewrite Hbk|by rewrite andb_true_r]. }
    unfold wsub. rewrite wrap_small by (unfold is_uint; lia).
    destruct (chunk_clear_word sz ws k Hw Hk ltac:(lia)) as (ws' & Hr & Hw' & Hb').
    pose proof (Hdel ws ws' Hw Hw' Hbk Hb') as Hli.
    destruct (Z.ltb_spec 0 (count - 1)).
    + rewrite Hr. cbn [obind]. eexists. split; [done|]. split; [|exact Hb'].
      replace (count - 1) with (Z.of_nat (length (items 0 ws'))) by lia. apply wf_mixed; try done. lia.
    + eexists. split; [done|]. split; [done|]. intros j Hj. cbn [chunk_bit]. rewrite <- Hb' by done.
      symmetry. apply (items_empty ws'); [apply Hw'|lia|done].
Qed.

(** ** Union of chunks *)

Lemma mixed_has_one sz ws : chunk_words sz ws → 0 < Z.of_nat (length (items 0 ws)) →
  ∃ k, 0 ≤ k < sz ∧ bit ws k = true.
Proof.
  intros Hw Hl. destruct (items 0 ws) as [|k l] eqn:E; [cbn in Hl; lia|].
  assert (k ∈ items 0 ws) as [Hk Hb]%elem_items_0; [rewrite E; by left| |apply Hw].
  exists k. split; [|done]. destruct (Z.lt_ge_cases k sz) as [|Hge]; [lia|].
  by rewrite (cw_excess _ _ Hw) in Hb.
Qed.

Lemma mixed_has_zero sz ws : 0 ≤ sz → chunk_words sz ws → Z.of_nat (length (items 0 ws)) < sz →
  ∃ k, 0 ≤ k < sz ∧ bit ws k = false.
Proof.
  intros Hsz Hw Hl. destruct (decide (Forall (λ k, bit ws k = true) (seqZ 0 sz))) as [Hf|Hf].
  - exfalso. rewrite list.Forall_forall in Hf.
    assert (seqZ 0 sz ⊆+ items 0 ws) as Hsub%submseteq_length.
    { apply NoDup_submseteq; [apply NoDup_seqZ|]. intros x Hx. apply elem_items_0; [apply Hw|].
      split; [apply elem_of_seqZ in Hx; lia|by apply Hf]. }
    rewrite length_seqZ in Hsub. lia.
  - apply not_Forall_Exists in Hf; [|apply _]. apply list.Exists_exists in Hf as (k & Hk%elem_of_seqZ & Hn).
    exists k. split; [lia|]. unfold compose in Hn. by destruct (bit ws k).
Qed.

Lemma bitwise_changes_ret op ws : ∀ ws', length ws = length ws' →
  bitwise_changes op ws ws' = Ret (negb (bool_decide (zip_with op ws ws' = ws))).
Proof.
  unfold bitwise_changes. intros ws' Hl. rewrite (proj2 (Nat.eqb_eq _ _)) by done. cbn [rassert]. f_equal.
  revert ws' Hl. induction ws as [|w ws IH]; intros [|w' ws'] Hl; try done.
  cbn. rewrite IH by (cbn in Hl; lia). destruct (Z.eqb_spec w (op w w')) as [E|E]; cbn.
  - apply eq_true_iff_eq. rewrite !negb_true_iff, !bool_decide_eq_false. rewrite <- E. intuition congruence.
  - symmetry. apply negb_true_iff, bool_decide_eq_false. congruence.
Qed.

(** The words of a chunk past those in use are zero. *)
Lemma unused_words_zero sz ws i w : 1 ≤ sz ≤ 2048 → chunk_words sz ws →
  (num_words sz ≤ i)%nat → ws !! i = Some w → w = 0.
Proof.
  intros Hsz Hw Hi Hl. pose proof (num_words_bounds sz ltac:(unfold dense_domain; lia)) as Hn.
  apply (uint_ext 64); [lia|apply (Forall_lookup_1 _ _ _ _ (cw_uint _ _ Hw) Hl)|done|].
  intros k Hk. rewrite Z.bits_0. pose proof (cw_excess _ _ Hw (64 * Z.of_nat i + k)) as He.
  rewrite bit_at, Hl in He by done. apply He. lia.
Qed.

(** The union of the words in use is the union of all. *)
Lemma prefix_union sz a b : 1 ≤ sz ≤ 2048 → chunk_words sz a → chunk_words sz b →
  zip_with Z.lor (take (num_words sz) a) (take (num_words sz) b) ++ drop (num_words sz) a = zip_with Z.lor a b.
Proof.
  intros Hsz Ha Hb. pose proof (num_words_bounds sz ltac:(unfold dense_domain; lia)) as Hn.
  apply list_eq. intros i. destruct (decide (i < num_words sz)%nat) as [Hi|Hi].
  - rewrite lookup_app_l by (rewrite length_zip_with, !length_take, (cw_length _ _ Ha), (cw_length _ _ Hb); lia).
    by rewrite !lookup_zip_with, !lookup_take_lt by done.
  - rewrite lookup_app_r by (rewrite length_zip_with, !length_take; lia).
    rewrite length_zip_with, !length_take, (cw_length _ _ Ha), (cw_length _ _ Hb).
    replace ((num_words sz `min` 32) `min` (num_words sz `min` 32))%nat with (num_words sz) by lia.
    rewrite lookup_drop, lookup_zip_with. replace (num_words sz + (i - num_words sz))%nat with i by lia.
    destruct (a !! i) as [w|] eqn:E; cbn; [|done].
    destruct (lookup_lt_is_Some_2 b i) as [w' E'].
    { rewrite (cw_length _ _ Hb), <- (cw_length _ _ Ha). by eapply lookup_lt_Some. }
    rewrite E'. cbn. rewrite (unused_words_zero sz b i w' Hsz Hb ltac:(lia) E'). by rewrite Z.lor_0_r.
Qed.

Lemma count_used sz ws : 1 ≤ sz ≤ 2048 → chunk_words sz ws →
  foldr Z.add 0 (count_ones <$> take (num_words sz) ws) = Z.of_nat (length (items 0 ws)).
Proof.
  intros Hsz Hw. rewrite <- (count_items ws 0) by apply Hw.
  rewrite <- (take_drop (num_words sz) ws) at 2. rewrite fmap_app.
  assert (∀ l k, foldr Z.add 0 (l ++ k) = foldr Z.add 0 l + foldr Z.add 0 k) as Happ.
  { induction l as [|x l IH]; intros k; cbn; [done|]. rewrite IH. lia. }
  rewrite Happ. assert (Forall (λ w, w = 0) (drop (num_words sz) ws)) as Hz.
  { apply Forall_lookup. intros i w Hi. rewrite lookup_drop in Hi.
    apply (unused_words_zero sz ws _ w Hsz Hw) in Hi; [done|lia]. }
  assert (foldr Z.add 0 (count_ones <$> drop (num_words sz) ws) = 0) as ->; [|lia].
  induction Hz as [|w l -> _ IH]; [done|]. cbn. by rewrite IH.
Qed.

Lemma chunk_words_lor sz a b : chunk_words sz a → chunk_words sz b →
  chunk_words sz (zip_with Z.lor a b) ∧ ∀ x, bit (zip_with Z.lor a b) x = bit a x || bit b x.
Proof.
  intros Ha Hb.
  assert (∀ x, bit (zip_with Z.lor a b) x = bit a x || bit b x) as Hbit.
  { intros x. apply bit_zip_with; [by rewrite (cw_length _ _ Ha), (cw_length _ _ Hb)|done|apply Ha|apply Hb|].
    intros. apply Z.lor_spec. }
  split; [|done]. split.
  - rewrite length_zip_with, (cw_length _ _ Ha), (cw_length _ _ Hb). done.
  - apply Forall_lookup. intros i w (x & y & -> & Hx & Hy)%lookup_zip_with_Some.
    apply is_uint_lor; [lia|apply (Forall_lookup_1 _ _ _ _ (cw_uint _ _ Ha) Hx)|
      apply (Forall_lookup_1 _ _ _ _ (cw_uint _ _ Hb) Hy)].
  - intros x Hx. by rewrite Hbit, (cw_excess _ _ Ha), (cw_excess _ _ Hb).
Qed.

(** What the union of two chunks must give *)
Definition chunk_joined (sz : Z) (a b c : Chunk) (changed : bool) : Prop :=
  wf_chunk sz c ∧ (∀ j, 0 ≤ j → chunk_bit c j = chunk_bit a j || chunk_bit b j) ∧
  (changed = true ↔ ∃ j, 0 ≤ j ∧ chunk_bit b j = true ∧ chunk_bit a j = false).

Lemma chunk_joined_same sz a b : wf_chunk sz a →
  (∀ j, 0 ≤ j → chunk_bit b j = true → chunk_bit a j = true) → chunk_joined sz a b a false.
Proof.
  intros Ha Hsub. split; [done|]. split.
  - intros j Hj. specialize (Hsub j Hj). destruct (chunk_bit a j), (chunk_bit b j); try done; by rewrite Hsub.
  - split; [done|]. intros (j & Hj & Hb & Hn). specialize (Hsub j Hj Hb). congruence.
Qed.

Lemma chunk_joined_other sz a b k : wf_chunk sz b → 0 ≤ k →
  (∀ j, 0 ≤ j → chunk_bit a j = true → chunk_bit b j = true) →
  chunk_bit b k = true → chunk_bit a k = false → chunk_joined sz a b b true.
Proof.
  intros Hb Hk Hsub Hbk Hak. split; [done|]. split.
  - intros j Hj. specialize (Hsub j Hj). destruct (chunk_bit a j), (chunk_bit b j); try done; by rewrite Hsub.
  - split; [|done]. intros _. eauto.
Qed.

(** Two mixed chunks *)
Lemma chunk_union_mixed sz ca cb a b :
  wf_chunk sz (Mixed sz ca a) → wf_chunk sz (Mixed sz cb b) →
  ∃ c changed, ChunkedBitSet.chunk_union (Mixed sz ca a) (Mixed sz cb b) = Ret (c, changed) ∧
    chunk_joined sz (Mixed sz ca a) (Mixed sz cb b) c changed.
Proof.
  intros Hca Hcb. pose proof Hca as [Hsz (_ & Ha & Hcnt & Hlt)]. pose proof Hcb as [_ (_ & Hb & _ & _)].
  pose proof (num_words_bounds sz ltac:(unfold dense_domain; lia)) as Hn.
  assert (num_words sz ≤ 32)%nat as Hnw by lia.
  assert (∀ ws, chunk_words sz ws → subslice ws 0 (num_words sz) = Ret (take (num_words sz) ws)) as Hsl.
  { intros ws Hws. unfold subslice. rewrite !(proj2 (Nat.leb_le _ _)) by (rewrite ?(cw_length _ _ Hws); lia).
    cbn [andb rassert]. by rewrite drop_0. }
  assert (length (take (num_words sz) a) = length (take (num_words sz) b)) as Hlen.
  { by rewrite !length_take, (cw_length _ _ Ha), (cw_length _ _ Hb). }
  destruct (chunk_words_lor sz a b Ha Hb) as [Hu Hbit].
  unfold ChunkedBitSet.chunk_union, with_prefix. rewrite !Hsl by done. cbn [obind].
  rewrite bitwise_changes_ret by done. cbn [obind].
  pose proof (prefix_union sz a b Hsz Ha Hb) as Hpre. case_bool_decide as Hsame; cbn [negb].
  - rewrite Hsame, take_drop in Hpre.
    eexists _, false. split; [done|]. apply chunk_joined_same; [done|].
    intros j Hj. cbn [chunk_bit]. intros Hbj. specialize (Hbit j). rewrite <- Hpre, Hbj, orb_true_r in Hbit. done.
  - rewrite bitwise_ret by done. cbn [obind]. rewrite Hpre, Hsl by done. cbn [obind].
    rewrite count_used by done.
    pose proof (items_count_le _ sz (cw_uint _ _ Hu) ltac:(lia) (cw_excess _ _ Hu)) as Hle.
    rewrite (wrap_small 16) by (unfold is_uint; lia).
    assert (∃ j, 0 ≤ j ∧ bit b j = true ∧ bit a j = false) as Hnew.
    { destruct (bit_diff a (zip_with Z.lor a b)) as [Heq|(j & Hj & Hne)].
      - exfalso. apply Hsame. rewrite (bits_ext (zip_with Z.lor a b) a) in Hpre.
        + rewrite <- (take_drop (num_words sz) a) in Hpre at 3. by apply app_inv_tail in Hpre.
        + by rewrite (cw_length _ _ Hu), (cw_length _ _ Ha).
        + apply Hu.
        + apply Ha.
        + intros x Hx. symmetry. by apply Heq.
      - exists j. rewrite Hbit in Hne. destruct (bit a j), (bit b j); done. }
    destruct (Z.eqb_spec (Z.of_nat (length (items 0 (zip_with Z.lor a b)))) sz) as [E|E].
    + eexists _, true. split; [done|]. split; [done|]. split; [|done].
      intros j Hj. cbn [chunk_bit]. rewrite <- Hbit. symmetry.
      apply (items_full _ sz); [apply Hu|lia|apply Hu|done|done].
    + eexists _, true. split; [done|]. split; [|split; [intros j Hj; apply Hbit|done]].
      apply wf_mixed; [done|done|]. split; [|lia].
      destruct Hnew as (j & Hj & Hbj & _). pose proof (items_pos (zip_with Z.lor a b) j (cw_uint _ _ Hu) Hj) as Hp.
      rewrite Hbit, Hbj, orb_true_r in Hp. specialize (Hp eq_refl). lia.
Qed.

Lemma chunk_union_spec sz a b : wf_chunk sz a → wf_chunk sz b →
  ∃ c changed, ChunkedBitSet.chunk_union a b = Ret (c, changed) ∧ chunk_joined sz a b c changed.
Proof.
  intros Ha Hb. pose proof Ha as [Hsz Ha']. pose proof Hb as [_ Hb'].
  assert (∀ j, sz ≤ j → chunk_bit b j = false) as Hexc by (intros; by apply (chunk_bit_excess sz)).
  assert (∀ j, sz ≤ j → chunk_bit a j = false) as Hexa by (intros; by apply (chunk_bit_excess sz)).
  destruct b as [z|z|z cb wb].
  - exists a, false. split; [by destruct a|]. by apply chunk_joined_same.
  - subst z. destruct a as [z|z|z ca wa]; cbn [ChunkedBitSet.chunk_union].
    + exists (Ones sz), true. split; [done|]. apply (chunk_joined_other _ _ _ 0); try done. cbn. apply Z.ltb_lt. lia.
    + eexists _, false. split; [done|]. apply chunk_joined_same; [done|]. subst z. done.
    + destruct Ha' as (-> & Hw & Hcnt & Hlt). eexists _, true. split; [done|].
      destruct (mixed_has_zero sz wa) as (k & Hk & Hkb); [lia|done|lia|].
      apply (chunk_joined_other _ _ _ k); try done; [lia| |].
      * intros j Hj Hj'. cbn. apply Z.ltb_lt. destruct (Z.lt_ge_cases j sz) as [|Hge]; [done|].
        by rewrite Hexa in Hj'.
      * cbn. apply Z.ltb_lt. lia.
  - destruct Hb' as (-> & Hw & Hcnt & Hlt). destruct a as [z|z|z ca wa].
    + eexists _, true. split; [done|]. destruct (mixed_has_one sz wb) as (k & Hk & Hkb); [done|lia|].
      by apply (chunk_joined_other _ _ _ k); [|lia|..].
    + eexists _, false. split; [done|]. subst z. apply chunk_joined_same; [done|].
      intros j Hj Hj'. cbn [chunk_bit]. apply Z.ltb_lt. destruct (Z.lt_ge_cases j sz) as [|Hge]; [done|].
      by rewrite Hexc in Hj'.
    + destruct Ha' as (-> & _). by apply chunk_union_mixed.
Qed.

(** * Chunked sets *)

(** The number of indices of chunk [i] *)
Definition chunk_size (dom : Z) (i : nat) : Z := Z.min 2048 (dom - 2048 * Z.of_nat i).

Definition chunked_domain (dom : Z) : Prop := 0 ≤ dom ≤ 2 ^ 64 - 2048.

Record wf_chunked (dom : Z) (s : ChunkedBitSet.t) : Prop := {
  wfc_size : ChunkedBitSet.domain_size s = dom;
  wfc_domain : chunked_domain dom;
  wfc_length : Z.of_nat (length (ChunkedBitSet.chunks s)) = (dom + 2047) / 2048;
  wfc_chunk i c : ChunkedBitSet.chunks s !! i = Some c → wf_chunk (chunk_size dom i) c;
}.

Definition cbit (cs : list Chunk) (x : Z) : bool :=
  match cs !! Z.to_nat (x / 2048) with Some c => chunk_bit c (x mod 2048) | None => false end.

Definition chunked_elem (s : ChunkedBitSet.t) (x : Z) : Prop :=
  0 ≤ x ∧ cbit (ChunkedBitSet.chunks s) x = true.

#[export] Instance chunked_elem_dec s x : Decision (chunked_elem s x).
Proof. unfold chunked_elem. apply _. Defined.

Lemma div_mod_2048 x : x = 2048 * (x / 2048) + x mod 2048 ∧ 0 ≤ x mod 2048 < 2048.
Proof. split; [apply Z.div_mod; lia|apply Z.mod_pos_bound; lia]. Qed.

(** Every index is at some place of some chunk. *)
Lemma chunk_place x : 0 ≤ x → ∃ i k, x = 2048 * Z.of_nat i + k ∧ 0 ≤ k < 2048 ∧
  x / 2048 = Z.of_nat i ∧ x mod 2048 = k.
Proof.
  intros Hx. pose proof (div_mod_2048 x). exists (Z.to_nat (x / 2048)), (x mod 2048).
  assert (0 ≤ x / 2048) by (apply Z.div_pos; lia). rewrite Z2Nat.id by done. lia.
Qed.

Lemma chunk_div_mod i k : 0 ≤ k < 2048 →
  (2048 * Z.of_nat i + k) / 2048 = Z.of_nat i ∧ (2048 * Z.of_nat i + k) mod 2048 = k.
Proof.
  intros Hk. split.
  - symmetry. apply Z.div_unique with k; lia.
  - symmetry. apply Z.mod_unique with (Z.of_nat i); lia.
Qed.

Lemma cbit_at cs i k : 0 ≤ k < 2048 → cbit cs (2048 * Z.of_nat i + k) =
  match cs !! i with Some c => chunk_bit c k | None => false end.
Proof. intros Hk. unfold cbit. destruct (chunk_div_mod i k Hk) as [-> ->]. by rewrite Nat2Z.id. Qed.

Lemma chunk_count_bounds dom : chunked_domain dom →
  dom ≤ 2048 * ((dom + 2047) / 2048) ≤ dom + 2047.
Proof. intros Hd. pose proof (div_mod_2048 (dom + 2047)). lia. Qed.

Lemma chunk_lookup dom s x : wf_chunked dom s → 0 ≤ x < dom →
  ∃ i k c, x = 2048 * Z.of_nat i + k ∧ 0 ≤ k < chunk_size dom i ∧ chunk_index x = i ∧
    x mod CHUNK_BITS = k ∧ ChunkedBitSet.chunks s !! i = Some c ∧ wf_chunk (chunk_size dom i) c ∧
    cbit (ChunkedBitSet.chunks s) x = chunk_bit c k.
Proof.
  intros [Hs Hd Hl Hc] Hx. destruct (chunk_place x) as (i & k & -> & Hk & E1 & E2); [lia|].
  pose proof (chunk_count_bounds dom Hd).
  destruct (lookup_lt_is_Some_2 (ChunkedBitSet.chunks s) i) as [c Hci]; [lia|].
  exists i, k, c. unfold chunk_size. split_and!; try done; try lia.
  - unfold chunk_index. change CHUNK_BITS with 2048. rewrite E1. lia.
  - by apply Hc.
  - by rewrite cbit_at, Hci.
Qed.

Lemma chunked_elem_below dom s x : wf_chunked dom s → chunked_elem s x → 0 ≤ x < dom.
Proof.
  intros [Hs Hd Hl Hc] [Hx Hb]. split; [done|]. destruct (Z.lt_ge_cases x dom) as [|Hge]; [done|].
  destruct (chunk_place x Hx) as (i & k & -> & Hk & _). rewrite cbit_at in Hb by done.
  destruct (ChunkedBitSet.chunks s !! i) as [c|] eqn:E; [|done].
  rewrite (chunk_bit_excess (chunk_size dom i)) in Hb; [done|by apply Hc|]. unfold chunk_size. lia.
Qed.

Lemma contains_chunked dom s x : wf_chunked dom s → 0 ≤ x < dom →
  ChunkedBitSet.contains s x = Ret (cbit (ChunkedBitSet.chunks s) x).
Proof.
  intros Hs Hx. unfold ChunkedBitSet.contains. rewrite (wfc_size _ _ Hs), (proj2 (Z.ltb_lt _ _)) by lia.
  cbn [rassert]. destruct (chunk_lookup dom s x Hs Hx) as (i & k & c & -> & Hk & -> & Ek & Hc & Hwc & ->).
  unfold index. rewrite Hc. cbn [unwrap obind]. unfold chunk_size in Hk. destruct c as [z|z|z n ws]; cbn [chunk_bit].
  - done.
  - destruct Hwc as [_ ->]. by rewrite (proj2 (Z.ltb_lt _ _)) by (unfold chunk_size; lia).
  - destruct Hwc as [Hsz (-> & Hw & _)]. rewrite (chunk_mask _ k) by (done || lia).
    destruct (chunk_word_lookup _ ws k Hw ltac:(lia)) as (w & Hl & _ & _ & Ht). unfold index.
    rewrite Hl. cbn [unwrap obind]. rewrite land_pow2, Ht, negb_involutive by (apply (div_mod_64 k)). done.
Qed.

(** An operation on the chunk of [x] that changes its place there *)
Lemma on_chunk_spec dom s x f v :
  wf_chunked dom s → 0 ≤ x < dom →
  (∀ sz c k, wf_chunk sz c → x mod CHUNK_BITS = k → 0 ≤ k < sz →
    ∃ c', f c x = Ret (c', negb (eqb (chunk_bit c k) v)) ∧ wf_chunk sz c' ∧
      ∀ j, 0 ≤ j → chunk_bit c' j = if j =? k then v else chunk_bit c j) →
  ∃ s', ChunkedBitSet.on_chunk s x f = Ret (s', negb (eqb (cbit (ChunkedBitSet.chunks s) x) v)) ∧
    wf_chunked dom s' ∧
    ∀ y, 0 ≤ y → cbit (ChunkedBitSet.chunks s') y = if y =? x then v else cbit (ChunkedBitSet.chunks s) y.
Proof.
  intros Hs Hx Hf. unfold ChunkedBitSet.on_chunk. rewrite (wfc_size _ _ Hs), (proj2 (Z.ltb_lt _ _)) by lia.
  cbn [rassert]. destruct (chunk_lookup dom s x Hs Hx) as (i & k & c & Ex & Hk & -> & Ek & Hc & Hwc & ->).
  unfold index, index_set. rewrite Hc. cbn [unwrap obind].
  destruct (Hf _ c k Hwc Ek Hk) as (c' & -> & Hwc' & Hb). cbn [obind].
  pose proof (lookup_lt_Some _ _ _ Hc) as Hi. rewrite (proj2 (Nat.ltb_lt _ _)) by done. cbn [rassert obind].
  eexists. split; [done|]. split.
  - destruct Hs as [Hsz Hd Hl Hcs]. split; cbn; [done|done|by rewrite length_insert|].
    intros j d Hj. apply list_lookup_insert_Some in Hj as [(-> & -> & _)|[_ Hj]]; [done|by apply Hcs].
  - intros y Hy. cbn [ChunkedBitSet.chunks ChunkedBitSet.with_chunks]. unfold chunk_size in Hk.
    destruct (chunk_place y Hy) as (j & l & -> & Hl & _). rewrite !cbit_at by done.
    destruct (decide (j = i)) as [->|Hne].
    + rewrite list_lookup_insert_eq, Hc by done. rewrite Hb by lia. subst x.
      destruct (Z.eqb_spec l k), (Z.eqb_spec (2048 * Z.of_nat i + l) (2048 * Z.of_nat i + k)); done || lia.
    + rewrite list_lookup_insert_ne by done.
      destruct (Z.eqb_spec (2048 * Z.of_nat j + l) x); [lia|done].
Qed.

(** A change of one index *)
Lemma chunked_update_point s s' x v :
  0 ≤ x →
  (∀ y, 0 ≤ y → cbit (ChunkedBitSet.chunks s') y = if y =? x then v else cbit (ChunkedBitSet.chunks s) y) →
  set_update (chunked_elem s) (chunked_elem s') (negb (eqb (cbit (ChunkedBitSet.chunks s) x) v))
    (λ y, if decide (y = x) then v = true else chunked_elem s y).
Proof.
  intros Hx Hb.
  apply (set_update_bits _ _ _ (cbit (ChunkedBitSet.chunks s)) (cbit (ChunkedBitSet.chunks s'))); try done.
  - intros y. unfold chunked_elem. destruct (decide (y = x)) as [->|Hne].
    + rewrite Hb, Z.eqb_refl by lia. tauto.
    + split; intros [? Hy]; (split; [done|]); rewrite Hb in * by done;
        destruct (Z.eqb_spec y x); congruence.
  - rewrite negb_true_iff, eqb_false_iff. split.
    + intros Hn. exists x. split; [lia|]. by rewrite Hb, Z.eqb_refl by lia.
    + intros (y & Hy & Hne). rewrite Hb in Hne by done. by destruct (Z.eqb_spec y x) as [->|].
Qed.

Lemma insert_chunked dom s x : wf_chunked dom s → 0 ≤ x < dom →
  ∃ s' b, ChunkedBitSet.insert s x = Ret (s', b) ∧ wf_chunked dom s' ∧
    set_update (chunked_elem s) (chunked_elem s') b (λ y, chunked_elem s y ∨ y = x).
Proof.
  intros Hs Hx.
  destruct (on_chunk_spec dom s x ChunkedBitSet.chunk_insert true Hs Hx) as (s' & Hr & Hw & Hb).
  - intros sz c k Hc Hk Hlt. destruct (chunk_insert_spec sz c x k Hc Hk Hlt) as (c' & -> & Hw & Hb).
    exists c'. split; [by destruct (chunk_bit c k)|]. split; [done|].
    intros j Hj. rewrite Hb by done. destruct (Z.eqb_spec j k); [by rewrite orb_true_r|by rewrite orb_false_r].
  - eexists _, _. split; [exact Hr|]. split; [done|].
    eapply set_update_proper; [|by apply chunked_update_point; [lia|]].
    intros y. cbn. case_decide; tauto.
Qed.

Lemma remove_chunked dom s x : wf_chunked dom s → 0 ≤ x < dom →
  ∃ s' b, ChunkedBitSet.remove s x = Ret (s', b) ∧ wf_chunked dom s' ∧
    set_update (chunked_elem s) (chunked_elem s') b (λ y, chunked_elem s y ∧ y ≠ x).
Proof.
  intros Hs Hx.
  destruct (on_chunk_spec dom s x ChunkedBitSet.chunk_remove false Hs Hx) as (s' & Hr & Hw & Hb).
  - intros sz c k Hc Hk Hlt. destruct (chunk_remove_spec sz c x k Hc Hk Hlt) as (c' & -> & Hw & Hb).
    exists c'. split; [by destruct (chunk_bit c k)|]. split; [done|].
    intros j Hj. rewrite Hb by done. destruct (Z.eqb_spec j k); [by rewrite andb_false_r|by rewrite andb_true_r].
  - eexists _, _. split; [exact Hr|]. split; [done|].
    eapply set_update_proper; [|by apply chunked_update_point; [lia|]].
    intros y. cbn. case_decide; [|tauto]. split; [done|tauto].
Qed.

Lemma insert_all_chunked dom s : wf_chunked dom s →
  wf_chunked dom (ChunkedBitSet.insert_all s) ∧
  ∀ y, chunked_elem (ChunkedBitSet.insert_all s) y ↔ 0 ≤ y < dom.
Proof.
  intros Hs. pose proof Hs as [Hsz Hd Hl Hc].
  assert (∀ i c, ChunkedBitSet.chunks (ChunkedBitSet.insert_all s) !! i = Some c → c = Ones (chunk_size dom i)
    ∧ 1 ≤ chunk_size dom i ≤ 2048) as Hones.
  { intros i c. cbn. rewrite list_lookup_fmap. destruct (ChunkedBitSet.chunks s !! i) as [d|] eqn:E; [|done].
    cbn. intros [= <-]. destruct (Hc i d E) as [Hsz' Hd']. split; [|done].
    destruct d; [by subst|by subst|]. by destruct Hd' as (-> & _). }
  assert (wf_chunked dom (ChunkedBitSet.insert_all s)) as Hw.
  { split; cbn; [done|done|by rewrite length_fmap|]. intros i c Hi. destruct (Hones i c Hi) as [-> ?]. done. }
  split; [done|]. intros y. split; [by apply chunked_elem_below|].
  intros Hy. split; [lia|]. destruct (chunk_lookup dom _ y Hw Hy) as (i & k & c & _ & Hk & _ & _ & Hi & _ & ->).
  destruct (Hones i c Hi) as [-> _]. cbn. apply Z.ltb_lt. lia.
Qed.

Lemma new_chunked dom e : chunked_domain dom →
  ∃ s, ChunkedBitSet.new dom e = Ret s ∧ wf_chunked dom s ∧
    ∀ x, chunked_elem s x ↔ e = false ∧ 0 ≤ x < dom.
Proof.
  intros Hd. unfold ChunkedBitSet.new.
  assert (∀ cs, Z.of_nat (length cs) = (dom + 2047) / 2048 →
    (∀ i c, cs !! i = Some c → c = (if e then Zeros else Ones) (chunk_size dom i)) →
    wf_chunked dom {| ChunkedBitSet.domain_size := dom; ChunkedBitSet.chunks := cs |} ∧
    ∀ x, chunked_elem {| ChunkedBitSet.domain_size := dom; ChunkedBitSet.chunks := cs |} x
      ↔ e = false ∧ 0 ≤ x < dom) as Hgen.
  { intros cs Hl Hcs. pose proof (chunk_count_bounds dom Hd) as Hb.
    assert (wf_chunked dom {| ChunkedBitSet.domain_size := dom; ChunkedBitSet.chunks := cs |}) as Hw.
    { split; try done. cbn. intros i c Hi. apply lookup_lt_Some in Hi as Hlt. rewrite (Hcs i c Hi).
      split; [unfold chunk_size; lia|by destruct e]. }
    split; [done|]. intros x. split.
    - intros Hx. pose proof (chunked_elem_below _ _ _ Hw Hx) as Hxd. split; [|done]. destruct Hx as [_ Hx].
      destruct (chunk_lookup dom _ x Hw Hxd) as (i & k & c & _ & _ & _ & _ & Hi & _ & E). rewrite E in Hx.
      rewrite (Hcs i c Hi) in Hx. by destruct e.
    - intros [-> Hx]. split; [lia|].
      destruct (chunk_lookup dom _ x Hw Hx) as (i & k & c & _ & Hk & _ & _ & Hi & _ & ->).
      rewrite (Hcs i c Hi). cbn. apply Z.ltb_lt. lia. }
  destruct (Z.eqb_spec dom 0) as [->|Hne].
  { cbn [obind]. eexists. split; [done|]. by apply Hgen. }
  unfold chunked_domain in Hd. unfold num_chunks, wadd, wsub. change CHUNK_BITS with 2048.
  rewrite (proj2 (Z.ltb_lt _ _)) by lia. cbn [rassert obind].
  assert (wrap 64 (wrap 64 (dom + 2048) - 1) = dom + 2047) as ->.
  { destruct (decide (dom + 2048 = 2 ^ 64)) as [E|].
    - rewrite E. unfold wrap. rewrite Z.mod_same by lia. replace (dom + 2047) with (2 ^ 64 - 1) by lia. done.
    - rewrite (wrap_small 64 (dom + 2048)) by (unfold is_uint; lia). rewrite wrap_small by (unfold is_uint; lia). lia. }
  pose proof (chunk_count_bounds dom Hd) as Hb. unfold index_set. rewrite length_replicate.
  rewrite (proj2 (Nat.ltb_lt _ _)) by lia. cbn [rassert obind]. eexists. split; [done|]. apply Hgen.
  - rewrite length_insert, length_replicate. lia.
  - assert (∀ z, 0 ≤ z ≤ 2048 → chunk_new z e = (if e then Zeros else Ones) z) as Hnew.
    { intros z Hz. unfold chunk_new. rewrite wrap_small by (unfold is_uint; lia). by destruct e. }
    pose proof (div_mod_2048 dom) as [Edom Hmod].
    intros i c Hi. apply list_lookup_insert_Some in Hi as [(Ei & Ec & _)|[Hni Hi]].
    + subst c. rewrite Hnew by (destruct (Z.eqb_spec (dom mod 2048) 0); lia). f_equal. unfold chunk_size.
      destruct (Z.eqb_spec (dom mod 2048) 0); lia.
    + apply lookup_replicate in Hi as [-> Hi]. rewrite Hnew by lia. f_equal. unfold chunk_size. lia.
Qed.

(** ** Union *)

Definition chunk_at (cs : list Chunk) (i : nat) (k : Z) : bool :=
  match cs !! i with Some c => chunk_bit c k | None => false end.

Lemma union_loop_chunks cs : ∀ (sz : nat → Z) os,
  length cs = length os →
  (∀ i c, cs !! i = Some c → wf_chunk (sz i) c) → (∀ i c, os !! i = Some c → wf_chunk (sz i) c) →
  ∃ cs' changed, ChunkedBitSet.union_loop cs os = Ret (cs', changed) ∧ length cs' = length cs ∧
    (∀ i c, cs' !! i = Some c → wf_chunk (sz i) c) ∧
    (∀ i k, 0 ≤ k → chunk_at cs' i k = chunk_at cs i k || chunk_at os i k) ∧
    (changed = true ↔ ∃ i k, 0 ≤ k ∧ chunk_at os i k = true ∧ chunk_at cs i k = false).
Proof.
  induction cs as [|c cs IH]; intros sz [|o os] Hl Hcs Hos; try done; cbn [ChunkedBitSet.union_loop].
  { exists [], false. split_and!; try done. split; [done|]. by intros (i & k & _ & ? & _). }
  destruct (chunk_union_spec (sz 0%nat) c o) as (c' & b & -> & Hc' & Hbit & Hb);
    [by apply (Hcs 0%nat)|by apply (Hos 0%nat)|]. cbn [obind].
  destruct (IH (λ i, sz (S i)) os) as (cs' & b' & -> & Hl' & Hcs' & Hbit' & Hb');
    [cbn in Hl; lia|intros i; apply (Hcs (S i))|intros i; apply (Hos (S i))|].
  cbn [obind]. eexists _, _. split; [done|]. split_and!.
  - cbn. lia.
  - intros [|i] d Hd; [by injection Hd as <-|by apply Hcs'].
  - intros [|i] k Hk; [by apply Hbit|by apply Hbit'].
  - rewrite orb_true_iff, Hb, Hb'. split.
    + intros [(k & ?)|(i & k & ?)]; [by exists 0%nat, k|by exists (S i), k].
    + intros ([|i] & k & ?); [left; by exists k|right; by exists i, k].
Qed.

Lemma chunk_at_excess dom s i k : wf_chunked dom s → 2048 ≤ k → chunk_at (ChunkedBitSet.chunks s) i k = false.
Proof.
  intros Hs Hk. unfold chunk_at. destruct (_ !! i) as [c|] eqn:E; [|done].
  apply (chunk_bit_excess (chunk_size dom i)); [by apply (wfc_chunk _ _ Hs)|]. unfold chunk_size. lia.
Qed.

Lemma union_chunked dom s o : wf_chunked dom s → wf_chunked dom o →
  ∃ s' b, ChunkedBitSet.union s o = Ret (s', b) ∧ wf_chunked dom s' ∧
    set_update (chunked_elem s) (chunked_elem s') b (λ y, chunked_elem s y ∨ chunked_elem o y).
Proof.
  intros Hs Ho. unfold ChunkedBitSet.union. rewrite (wfc_size _ _ Hs), (wfc_size _ _ Ho), Z.eqb_refl.
  cbn [rassert].
  destruct (union_loop_chunks (ChunkedBitSet.chunks s) (chunk_size dom) (ChunkedBitSet.chunks o))
    as (cs & b & -> & Hl & Hcs & Hbit & Hb).
  { apply Nat2Z.inj. by rewrite (wfc_length _ _ Hs), (wfc_length _ _ Ho). }
  { apply (wfc_chunk _ _ Hs). }
  { apply (wfc_chunk _ _ Ho). }
  cbn [obind].
  assert (∀ y, 0 ≤ y → cbit cs y = cbit (ChunkedBitSet.chunks s) y || cbit (ChunkedBitSet.chunks o) y) as Hc.
  { intros y Hy. destruct (chunk_place y Hy) as (i & k & -> & Hk & _). rewrite !cbit_at by done. apply Hbit. lia. }
  eexists _, b. split; [done|]. split.
  - split; cbn; [apply Hs|apply Hs|rewrite Hl; apply Hs|exact Hcs].
  - apply (set_update_bits _ _ _ (cbit (ChunkedBitSet.chunks s)) (cbit cs)); try done.
    + intros y. unfold chunked_elem. destruct (decide (0 ≤ y)); [|tauto].
      rewrite Hc, orb_true_iff by done. tauto.
    + rewrite Hb. split.
      * intros (i & k & Hk & Hko & Hks). exists (2048 * Z.of_nat i + k).
        assert (k < 2048).
        { destruct (Z.lt_ge_cases k 2048) as [|Hge]; [done|]. by rewrite (chunk_at_excess dom) in Hko. }
        split; [lia|]. rewrite Hc, !cbit_at by lia. unfold chunk_at in Hko, Hks. by rewrite Hko, Hks.
      * intros (y & Hy & Hne). rewrite Hc in Hne by done.
        destruct (chunk_place y Hy) as (i & k & -> & Hk & _). rewrite !cbit_at in Hne by done.
        exists i, k. unfold chunk_at. split; [lia|].
        destruct (match ChunkedBitSet.chunks s !! i with Some c => _ | None => _ end),
          (match ChunkedBitSet.chunks o !! i with Some c => _ | None => _ end); done.
Qed.
