(* ===== verification/ChunkedIterProps.v ===== *)
(** * Iteration over chunked bit sets

    [next] and [fold] of [ChunkedBitIter] yield the same items, the elements in
    increasing order, from every position an iterator can be at; the relations
    of chunked sets with dense and hybrid ones rest on it. *)

From stdpp Require Import sorting.
From S2P Require Import Prelude.
From S2P Require Import Slice.
From S2P Require Import IndexSet.
From S2P Require Import BitSets.
From S2P Require Import BitSetProps.
From S2P Require Import BitIterProps.
From S2P Require Import HybridProps.
From S2P Require Import ChunkedBitSets.
From S2P Require Import ChunkedProps.

Section Iter.
Context `{Idx} (dom : Z) (s : ChunkedBitSet.t).
Context (Hs : wf_chunked dom s) (Hmax : dom + 2047 ≤ idx_max).

(** Where an iterator can be: inside a chunk only after it found an item there *)
Definition iter_pos (idx : Z) : Prop :=
  0 ≤ idx ≤ 2048 * Z.of_nat (length (ChunkedBitSet.chunks s)) ∧
  (idx mod 2048 = 0 ∨ dom ≤ idx ∨
   ∀ c, ChunkedBitSet.chunks s !! chunk_index idx = Some c → ∀ z, c ≠ Zeros z).

Lemma idx_new_below x : x < dom + 2048 → idx_new x = Ret x.
Proof. intros. unfold idx_new. by rewrite (proj2 (Z.leb_le _ _)) by lia. Qed.

(** The search in a mixed chunk *)
Lemma mixed_next_spec i sz ws fuel : ∀ idx,
  chunk_words sz ws → (i < length (ChunkedBitSet.chunks s))%nat →
  2048 * Z.of_nat i ≤ idx < 2048 * (Z.of_nat i + 1) →
  2048 * (Z.of_nat i + 1) - idx ≤ Z.of_nat fuel →
  ∃ o idx', ChunkedBitSet.mixed_next fuel ws idx = Ret (o, idx') ∧
    match o with
    | Some x => idx' = x + 1 ∧ idx ≤ x < 2048 * (Z.of_nat i + 1) ∧ bit ws (x - 2048 * Z.of_nat i) = true ∧
        ∀ y, idx ≤ y < x → bit ws (y - 2048 * Z.of_nat i) = false
    | None => idx' = 2048 * (Z.of_nat i + 1) ∧
        ∀ y, idx ≤ y < 2048 * (Z.of_nat i + 1) → bit ws (y - 2048 * Z.of_nat i) = false
    end.
Proof.
  induction fuel as [|fuel IH]; intros idx Hw Hi Hidx Hf; [lia|]. cbn [ChunkedBitSet.mixed_next].
  pose proof (chunk_count_bounds dom (wfc_domain _ _ Hs)). pose proof (wfc_length _ _ Hs) as Hl.
  rewrite idx_new_below by lia. cbn [obind]. set (k := idx - 2048 * Z.of_nat i).
  assert (idx = 2048 * Z.of_nat i + k) as E by lia. destruct (chunk_div_mod i k ltac:(lia)) as [_ Ek].
  rewrite <- E in Ek. rewrite (chunk_mask idx k) by (done || lia).
  destruct (chunk_word_lookup sz ws k Hw ltac:(lia)) as (w & Hlw & _ & _ & Ht). unfold index. rewrite Hlw.
  cbn [unwrap obind]. rewrite land_pow2, Ht, negb_involutive by (apply (div_mod_64 k)).
  destruct (bit ws k) eqn:Hb.
  { exists (Some idx), (idx + 1). split; [done|]. split_and!; done || lia. }
  destruct (Z.eqb_spec ((idx + 1) mod CHUNK_BITS) 0) as [E0|E0].
  - assert (idx + 1 = 2048 * (Z.of_nat i + 1)) as E1.
    { change CHUNK_BITS with 2048 in E0. pose proof (div_mod_2048 (idx + 1)). lia. }
    exists None, (idx + 1). split; [done|]. split; [done|]. intros y Hy.
    assert (y = idx) as -> by lia. done.
  - assert (idx + 1 < 2048 * (Z.of_nat i + 1)) as Hlt.
    { destruct (Z.lt_ge_cases (idx + 1) (2048 * (Z.of_nat i + 1))) as [|Hge]; [done|]. destruct E0.
      change CHUNK_BITS with 2048. replace (idx + 1) with ((Z.of_nat i + 1) * 2048) by lia. apply Z_mod_mult. }
    destruct (IH (idx + 1) Hw Hi ltac:(lia) ltac:(lia)) as (o & idx' & -> & Ho). exists o, idx'. split; [done|].
    assert (∀ y, idx ≤ y → y < idx + 1 → bit ws (y - 2048 * Z.of_nat i) = false) as Hfirst.
    { intros y ? ?. assert (y = idx) as -> by lia. done. }
    destruct o as [x|].
    + destruct Ho as (-> & ? & ? & Ho). split_and!; try done; [lia..|]. intros y Hy.
      destruct (decide (y < idx + 1)); [apply Hfirst; lia|apply Ho; lia].
    + destruct Ho as (-> & Ho). split; [done|]. intros y Hy.
      destruct (decide (y < idx + 1)); [apply Hfirst; lia|apply Ho; lia].
Qed.

(** [next] finds the first element from [idx] on. *)
Definition next_result (idx : Z) (o : option (Z * Z)) : Prop :=
  match o with
  | Some (x, idx') => idx' = x + 1 ∧ idx ≤ x ∧ chunked_elem s x ∧ iter_pos idx' ∧
      ∀ y, idx ≤ y < x → ¬ chunked_elem s y
  | None => ∀ y, idx ≤ y → ¬ chunked_elem s y
  end.

(** No element between two positions carries the search over. *)
Lemma next_result_skip idx idx' o :
  idx ≤ idx' → (∀ y, idx ≤ y < idx' → ¬ chunked_elem s y) → next_result idx' o → next_result idx o.
Proof.
  intros Hle Hno. destruct o as [[x j]|]; cbn.
  - intros (-> & ? & ? & ? & Hr). split_and!; try done; [lia|]. intros y Hy.
    destruct (decide (y < idx')); [apply Hno; lia|apply Hr; lia].
  - intros Hr y Hy. destruct (decide (y < idx')); [apply Hno; lia|apply Hr; lia].
Qed.

(** The position after an item *)
Lemma iter_pos_after i k c : ChunkedBitSet.chunks s !! i = Some c → (∀ z, c ≠ Zeros z) → 0 ≤ k < 2048 →
  iter_pos (2048 * Z.of_nat i + k + 1).
Proof.
  intros Hc Hz Hk. apply lookup_lt_Some in Hc as Hi. split; [lia|].
  destruct (decide (k + 1 = 2048)).
  - left. replace (2048 * Z.of_nat i + k + 1) with ((Z.of_nat i + 1) * 2048) by lia. apply Z_mod_mult.
  - right; right. intros d Hd. unfold chunk_index in Hd. change CHUNK_BITS with 2048 in Hd.
    replace (2048 * Z.of_nat i + k + 1) with (2048 * Z.of_nat i + (k + 1)) in Hd by lia.
    destruct (chunk_div_mod i (k + 1) ltac:(lia)) as [E _]. rewrite E, Nat2Z.id in Hd. by simplify_eq.
Qed.

Lemma next_loop_spec_chunked fuel : ∀ idx, iter_pos idx →
  dom ≤ idx ∨ Z.of_nat (length (ChunkedBitSet.chunks s)) - idx / 2048 < Z.of_nat fuel →
  ∃ o, ChunkedBitSet.next_loop fuel s idx = Ret o ∧ next_result idx o.
Proof.
  pose proof (wfc_length _ _ Hs) as Hlen. pose proof (chunk_count_bounds dom (wfc_domain _ _ Hs)) as Hcnt.
  induction fuel as [|fuel IH]; intros idx Hpos Hf; cbn [ChunkedBitSet.next_loop]; rewrite (wfc_size _ _ Hs).
  all: destruct (Z.ltb_spec idx dom) as [Hlt|Hge].
  2, 4: exists None; split; [done|]; intros y Hy He%(chunked_elem_below _ _ _ Hs); lia.
  { destruct Hpos as [? _]. destruct (chunk_place idx) as (i & k & E & Hk & Ei & _); [lia|]. lia. }
  destruct Hpos as [Hbound Hpos]. rewrite idx_new_below by lia. cbn [obind].
  destruct (chunk_lookup dom s idx Hs ltac:(lia)) as (i & k & c & E & Hk & Ei & Ek & Hc & Hwc & Hcb).
  assert (idx / 2048 = Z.of_nat i) as Ediv.
  { rewrite E. apply chunk_div_mod. unfold chunk_size in Hk. lia. }
  rewrite Ei in *. unfold index. rewrite Hc. cbn [unwrap obind]. apply lookup_lt_Some in Hc as Hi.
  assert (∀ y, 2048 * Z.of_nat i ≤ y < 2048 * (Z.of_nat i + 1) →
    chunked_elem s y ↔ chunk_bit c (y - 2048 * Z.of_nat i) = true) as Hin.
  { intros y Hy. unfold chunked_elem. replace y with (2048 * Z.of_nat i + (y - 2048 * Z.of_nat i)) at 2 by lia.
    rewrite cbit_at, Hc by lia. intuition lia. }
  unfold chunk_size in Hk. destruct c as [z|z|z n ws].
  - destruct Hwc as [Hsz ->]. assert (k = 0) as ->.
    { destruct Hpos as [Hm|[?|Hz]]; [|lia|by destruct (Hz _ Hc (chunk_size dom i))].
      change CHUNK_BITS with 2048 in Ek. lia. }
    rewrite Z.add_0_r in E.
    destruct (IH (idx + chunk_size dom i)) as (o & -> & Ho).
    + split; [unfold chunk_size; lia|]. unfold chunk_size. destruct (Z.min_spec 2048 (dom - 2048 * Z.of_nat i))
        as [[? ->]|[? ->]]; [left|right; left; lia].
      replace (idx + 2048) with ((Z.of_nat i + 1) * 2048) by lia. apply Z_mod_mult.
    + unfold chunk_size. destruct (Z.min_spec 2048 (dom - 2048 * Z.of_nat i)) as [[? ->]|[? ->]]; [right|left; lia].
      destruct (chunk_div_mod (S i) 0 ltac:(lia)) as [E1 _].
      replace (idx + 2048) with (2048 * Z.of_nat (S i) + 0) by lia. lia.
    + exists o. split; [done|]. eapply next_result_skip; [| |exact Ho]; [unfold chunk_size; lia|].
      intros y Hy. unfold chunk_size in Hy. rewrite Hin by lia. done.
  - destruct Hwc as [Hsz ->]. exists (Some (idx, idx + 1)). split; [done|]. cbn. split_and!; [done|lia| | |intros y Hy; lia].
    + split; [lia|]. rewrite Hcb. cbn. apply Z.ltb_lt. unfold chunk_size. lia.
    + rewrite E. apply (iter_pos_after i k _ Hc); [done|lia].
  - destruct Hwc as [Hsz (-> & Hw & _)].
    destruct (mixed_next_spec i _ ws (Z.to_nat CHUNK_BITS) idx Hw Hi) as (o & idx' & -> & Ho).
    { lia. }
    { change (Z.of_nat (Z.to_nat CHUNK_BITS)) with 2048. lia. }
    cbn [obind]. destruct o as [x|].
    + destruct Ho as (-> & Hx & Hbx & Hno). exists (Some (x, x + 1)). split; [done|]. cbn. split_and!; try done; [lia|..].
      * by apply Hin; [lia|].
      * replace (x + 1) with (2048 * Z.of_nat i + (x - 2048 * Z.of_nat i) + 1) by lia.
        apply (iter_pos_after i _ _ Hc); [done|lia].
      * intros y Hy. rewrite Hin by lia. cbn. by rewrite Hno.
    + destruct Ho as (-> & Hno).
      destruct (IH (2048 * (Z.of_nat i + 1))) as (o & -> & Ho).
      * split; [lia|]. left. rewrite Z.mul_comm. apply Z_mod_mult.
      * right. destruct (chunk_div_mod (S i) 0 ltac:(lia)) as [E1 _].
        replace (2048 * (Z.of_nat i + 1)) with (2048 * Z.of_nat (S i) + 0) by lia. lia.
      * exists o. split; [done|]. eapply next_result_skip; [| |exact Ho]; [lia|].
        intros y Hy. rewrite Hin by lia. cbn. by rewrite Hno by lia.
Qed.

Lemma next_spec idx : iter_pos idx → ∃ o, ChunkedBitSet.next s idx = Ret o ∧ next_result idx o.
Proof.
  intros Hpos. apply next_loop_spec_chunked; [done|]. right. destruct Hpos as [[? ?] _].
  assert (0 ≤ idx / 2048) by (apply Z.div_pos; lia). lia.
Qed.

(** The items from [idx] on: sorted, and exactly the elements from there *)
Definition items_from (idx : Z) (l : list Z) : Prop :=
  StronglySorted Z.lt l ∧ ∀ x, x ∈ l ↔ idx ≤ x ∧ chunked_elem s x.

Lemma items_from_cons idx x l : idx ≤ x → chunked_elem s x →
  (∀ y, idx ≤ y < x → ¬ chunked_elem s y) → items_from (x + 1) l → items_from idx (x :: l).
Proof.
  intros Hle Hx Hno [Hl He]. split.
  - constructor; [done|]. apply list.Forall_forall. intros y [? _]%He. lia.
  - intros y. rewrite elem_of_cons, He. split.
    + intros [->|[? ?]]; [done|]. split; [lia|done].
    + intros [? Hy]. destruct (decide (y = x)); [by left|]. right. split; [|done].
      destruct (decide (y < x)); [|lia]. by destruct (Hno y).
Qed.

Lemma items_from_ext idx l l' : items_from idx l → items_from idx l' → l = l'.
Proof. intros [Hl He] [Hl' He']. apply sorted_ext; try done. intros x. by rewrite He, He'. Qed.

Lemma collect_loop_chunked fuel : ∀ idx, iter_pos idx → Z.max 0 (dom - idx) < Z.of_nat fuel →
  ∃ l, ChunkedBitSet.collect_loop fuel s idx = Ret l ∧ items_from idx l.
Proof.
  induction fuel as [|fuel IH]; intros idx Hpos Hf; cbn [ChunkedBitSet.collect_loop]; [lia|].
  destruct (next_spec idx Hpos) as (o & -> & Ho). cbn [obind]. destruct o as [[x idx']|].
  - destruct Ho as (-> & Hle & Hx & Hpos' & Hno). pose proof (chunked_elem_below _ _ _ Hs Hx).
    destruct (IH (x + 1) Hpos' ltac:(lia)) as (l & -> & Hl). cbn [obind].
    eexists. split; [done|]. by apply items_from_cons.
  - exists []. split; [done|]. split; [constructor|]. intros y. rewrite elem_of_nil.
    split; [done|]. intros [? ?]. by apply (Ho y).
Qed.

(** ** [fold] *)

Lemma fold_push (base : Z) l : ∀ acc, Forall (λ j, j + base < dom + 2048) l →
  fold_outcome (λ acc item, let! x := idx_new (item + base) in Ret (acc ++ [x])) l acc
  = Ret (acc ++ ((λ j, j + base) <$> l)).
Proof.
  induction l as [|j l IH]; intros acc Hl; cbn [fold_outcome]; [by rewrite app_nil_r|].
  apply Forall_inv in Hl as Hj. apply Forall_inv_tail in Hl.
  rewrite idx_new_below by done. cbn [obind]. rewrite IH by done. by rewrite <- (assoc_L (++)).
Qed.

Lemma sorted_shift (base : Z) (l : list Z) : StronglySorted Z.lt l → StronglySorted Z.lt ((λ j, j + base) <$> l).
Proof.
  induction 1 as [|x l Hl IH Hx]; cbn; constructor; [done|]. apply Forall_fmap.
  eapply List.Forall_impl; [|exact Hx]. cbn. lia.
Qed.

(** The items of chunk [i] *)
Lemma fold_chunk_spec i c : ChunkedBitSet.chunks s !! i = Some c →
  ∃ l, ChunkedBitSet.fold_chunk (Z.of_nat i * CHUNK_BITS) c = Ret l ∧ StronglySorted Z.lt l ∧
    ∀ x, x ∈ l ↔ 2048 * Z.of_nat i ≤ x < 2048 * (Z.of_nat i + 1) ∧ chunked_elem s x.
Proof.
  intros Hc. apply lookup_lt_Some in Hc as Hi. pose proof (wfc_chunk _ _ Hs i c Hc) as Hwc.
  pose proof (chunk_count_bounds dom (wfc_domain _ _ Hs)). pose proof (wfc_length _ _ Hs) as Hlen.
  (* from the places in the chunk to the elements *)
  assert (∀ ks, StronglySorted Z.lt ks → (∀ k, k ∈ ks ↔ 0 ≤ k < 2048 ∧ chunk_bit c k = true) →
    StronglySorted Z.lt ((λ j, j + Z.of_nat i * CHUNK_BITS) <$> ks) ∧
    ∀ x, x ∈ (λ j, j + Z.of_nat i * CHUNK_BITS) <$> ks ↔
      2048 * Z.of_nat i ≤ x < 2048 * (Z.of_nat i + 1) ∧ chunked_elem s x) as Hgen.
  { intros ks Hks Hk. split; [by apply sorted_shift|]. intros x. rewrite list_elem_of_fmap.
    change CHUNK_BITS with 2048. unfold chunked_elem. split.
    - intros (k & -> & [Hlt Hb]%Hk). split; [lia|]. split; [lia|].
      replace (k + Z.of_nat i * 2048) with (2048 * Z.of_nat i + k) by lia. by rewrite cbit_at, Hc.
    - intros (Hx & _ & Hb). exists (x - 2048 * Z.of_nat i). split; [lia|]. apply Hk. split; [lia|].
      replace x with (2048 * Z.of_nat i + (x - 2048 * Z.of_nat i)) in Hb by lia. by rewrite cbit_at, Hc in Hb by lia. }
  destruct c as [z|z|z n ws]; cbn [ChunkedBitSet.fold_chunk].
  - exists []. split; [done|]. destruct (Hgen []) as [? Hx]; [constructor| |done].
    intros k. rewrite elem_of_nil. cbn. intuition congruence.
  - destruct Hwc as [Hsz ->]. pose proof Hsz as Hsz'. unfold chunk_size in Hsz'.
    pose proof (fold_push (Z.of_nat i * CHUNK_BITS) (seqZ 0 (chunk_size dom i)) []) as Hp.
    eexists. split.
    + rewrite <- Hp.
      * apply fold_outcome_ext. intros b x. by rewrite Z.add_comm.
      * apply list.Forall_forall. intros x Hx%elem_of_seqZ. change CHUNK_BITS with 2048. unfold chunk_size in Hx. lia.
    + cbn [app]. apply Hgen; [apply seqZ_sorted|]. intros k. rewrite elem_of_seqZ. cbn [chunk_bit].
      rewrite Z.ltb_lt. unfold chunk_size. lia.
  - destruct Hwc as [Hsz (-> & Hw & _)]. unfold chunk_size in Hsz.
    rewrite (collect_items (chunk_size dom i)); [|apply Hw|rewrite (cw_length _ _ Hw); lia|apply Hw|unfold chunk_size; lia].
    cbn [obind]. rewrite fold_push.
    + cbn [app]. eexists. split; [done|]. apply Hgen; [apply items_sorted, Hw|]. intros k.
      rewrite elem_items_0 by apply Hw. cbn [chunk_bit]. split; [|tauto]. intros [Hk Hb]. split; [|done].
      split; [done|]. destruct (Z.lt_ge_cases k 2048) as [|Hge]; [done|].
      rewrite (cw_excess _ _ Hw) in Hb; [done|unfold chunk_size; lia].
    + apply list.Forall_forall. intros k Hk. apply elem_items_0 in Hk as [Hk Hb]; [|apply Hw].
      change CHUNK_BITS with 2048. destruct (Z.lt_ge_cases k 2048) as [|Hge]; [lia|].
      rewrite (cw_excess _ _ Hw) in Hb; [done|unfold chunk_size; lia].
Qed.

Lemma fold_chunks_spec cs : ∀ i, drop i (ChunkedBitSet.chunks s) = cs →
  ∃ l, ChunkedBitSet.fold_chunks (Z.of_nat i) cs = Ret l ∧ items_from (2048 * Z.of_nat i) l.
Proof.
  induction cs as [|c cs IH]; intros i Hd; cbn [ChunkedBitSet.fold_chunks].
  { exists []. split; [done|]. split; [constructor|]. intros x. rewrite elem_of_nil. split; [done|].
    intros [Hx He]. apply (f_equal length) in Hd. rewrite length_drop in Hd. cbn in Hd.
    pose proof (chunked_elem_below _ _ _ Hs He). pose proof (chunk_count_bounds dom (wfc_domain _ _ Hs)).
    pose proof (wfc_length _ _ Hs). lia. }
  assert (ChunkedBitSet.chunks s !! i = Some c) as Hc.
  { rewrite <- (Nat.add_0_r i), <- lookup_drop, Hd. done. }
  destruct (fold_chunk_spec i c Hc) as (xs & -> & Hxs & Hx). cbn [obind].
  replace (Z.of_nat i + 1) with (Z.of_nat (S i)) by lia.
  destruct (IH (S i)) as (ys & -> & Hys & Hy).
  { rewrite <- Nat.add_1_r, <- drop_drop, Hd. done. }
  cbn [obind]. eexists. split; [done|]. split.
  - apply StronglySorted_app_2; [|done|done]. intros x y [? _]%Hx [? _]%Hy. lia.
  - intros x. rewrite elem_of_app, Hx, Hy. split; [intros [[? ?]|[? ?]]; (split; [lia|done])|].
    intros [? ?]. destruct (decide (x < 2048 * (Z.of_nat i + 1))); [left|right]; (split; [lia|done]).
Qed.

Lemma fold_loop_chunked fuel : ∀ idx, iter_pos idx → Z.max 0 (dom - idx) < Z.of_nat fuel →
  ∃ l, ChunkedBitSet.fold_loop fuel s idx = Ret l ∧ items_from idx l.
Proof.
  induction fuel as [|fuel IH]; intros idx Hpos Hf; [lia|]. cbn [ChunkedBitSet.fold_loop].
  change CHUNK_BITS with 2048. destruct (Z.eqb_spec (idx mod 2048) 0) as [E|E]; cbn [negb].
  - pose proof Hpos as [[? ?] _]. pose proof (div_mod_2048 idx) as [Ei _].
    assert (0 ≤ idx / 2048) by (apply Z.div_pos; lia). unfold subslice.
    rewrite !(proj2 (Nat.leb_le _ _)) by lia. cbn [andb rassert obind]. rewrite take_ge by done.
    destruct (fold_chunks_spec (drop (Z.to_nat (idx / 2048)) (ChunkedBitSet.chunks s)) (Z.to_nat (idx / 2048)))
      as (l & -> & Hl); [done|]. exists l. split; [done|].
    replace (2048 * Z.of_nat (Z.to_nat (idx / 2048))) with idx in Hl by lia. done.
  - destruct (next_spec idx Hpos) as (o & -> & Ho). cbn [obind]. destruct o as [[x idx']|].
    + destruct Ho as (-> & Hle & Hx & Hpos' & Hno). pose proof (chunked_elem_below _ _ _ Hs Hx).
      destruct (IH (x + 1) Hpos' ltac:(lia)) as (l & -> & Hl). cbn [obind].
      eexists. split; [done|]. by apply items_from_cons.
    + exists []. split; [done|]. split; [constructor|]. intros y. rewrite elem_of_nil.
      split; [done|]. intros [? ?]. by apply (Ho y).
Qed.

(** From every position, [fold] and repeated [next] give the elements from there. *)
Lemma fold_next idx : iter_pos idx →
  ∃ l, ChunkedBitSet.fold s idx = Ret l ∧
    ChunkedBitSet.collect_loop (S (Z.to_nat (ChunkedBitSet.domain_size s))) s idx = Ret l ∧ items_from idx l.
Proof.
  intros Hpos. pose proof Hpos as [[? _] _]. unfold ChunkedBitSet.fold. rewrite (wfc_size _ _ Hs).
  destruct (fold_loop_chunked (S (Z.to_nat dom)) idx Hpos) as (l & Hr & Hl); [lia|].
  destruct (collect_loop_chunked (S (Z.to_nat dom)) idx Hpos) as (l' & Hr' & Hl'); [lia|].
  exists l. split; [done|]. split; [|done]. rewrite Hr'. f_equal. by apply (items_from_ext idx).
Qed.

Lemma iter_pos_start : iter_pos 0.
Proof. split; [lia|]. by left. Qed.

Lemma iter_chunked :
  ∃ l, ChunkedBitSet.iter s = Ret l ∧ StronglySorted Z.lt l ∧ ∀ x, x ∈ l ↔ chunked_elem s x.
Proof.
  destruct (fold_next 0 iter_pos_start) as (l & Hr & _ & Hl & He). exists l. split; [done|]. split; [done|].
  intros x. rewrite He. split; [tauto|]. intros Hx. split; [|done]. by destruct Hx.
Qed.

End Iter.

(** * Relations with other representations *)

Section Relations.
Context `{Idx} {A : ArrayVecApi} {AL : ArrayVecLaws A}.

Lemma union_hybrid_chunked dom s o : wf_chunked dom s → wf_hybrid dom o → dom ≤ idx_max + 1 →
  ∃ s' b, ChunkedBitSet.union_hybrid s o = Ret (s', b) ∧ wf_chunked dom s' ∧
    set_update (chunked_elem s) (chunked_elem s') b (λ y, chunked_elem s y ∨ hybrid_elem o y).
Proof.
  intros Hs Ho Hmax. unfold ChunkedBitSet.union_hybrid.
  rewrite (wfc_size _ _ Hs), (hybrid_domain _ _ Ho), Z.eqb_refl. cbn [rassert].
  destruct (iter_hybrid dom o Ho Hmax) as (l & -> & _ & Hl). cbn [obind]. unfold sequential_update.
  destruct (sequential_insert (wf_chunked dom) chunked_elem (λ x, 0 ≤ x < dom) ChunkedBitSet.insert)
    with (l := l) (s := s) (acc := false) as (s' & b & -> & Hs' & He & Hb).
  - intros. by apply insert_chunked.
  - apply _.
  - done.
  - apply list.Forall_forall. intros x Hx%Hl. by apply (hybrid_elem_below dom o).
  - eexists _, b. split; [done|]. split; [done|]. apply set_update_added; [apply _| |].
    + intros y. by rewrite He, Hl.
    + rewrite Hb. split; [intros [?|(y & Hy & ?)]; [done|]; exists y; by rewrite <- Hl|].
      intros (y & Hy & ?). right. exists y. by rewrite Hl.
Qed.

Lemma subtract_hybrid_chunked dom s o : wf_chunked dom s → wf_hybrid dom o → dom ≤ idx_max + 1 →
  ∃ s' b, ChunkedBitSet.subtract_hybrid s o = Ret (s', b) ∧ wf_chunked dom s' ∧
    set_update (chunked_elem s) (chunked_elem s') b (λ y, chunked_elem s y ∧ ¬ hybrid_elem o y).
Proof.
  intros Hs Ho Hmax. unfold ChunkedBitSet.subtract_hybrid.
  rewrite (wfc_size _ _ Hs), (hybrid_domain _ _ Ho), Z.eqb_refl. cbn [rassert].
  destruct (iter_hybrid dom o Ho Hmax) as (l & -> & _ & Hl). cbn [obind]. unfold sequential_update.
  destruct (sequential_remove (wf_chunked dom) chunked_elem (λ x, 0 ≤ x < dom) ChunkedBitSet.remove)
    with (l := l) (s := s) (acc := false) as (s' & b & -> & Hs' & He & Hb).
  - intros. by apply remove_chunked.
  - apply _.
  - done.
  - apply list.Forall_forall. intros x Hx%Hl. by apply (hybrid_elem_below dom o).
  - eexists _, b. split; [done|]. split; [done|]. apply set_update_removed; [apply _|apply _| |].
    + intros y. by rewrite He, Hl.
    + rewrite Hb. split; [intros [?|(y & Hy & ?)]; [done|]; exists y; by rewrite <- Hl|].
      intros (y & Hy & ?). right. exists y. by rewrite Hl.
Qed.

Lemma dense_union_chunked dom s o : wf_bitset dom s → wf_chunked dom o → dom + 2047 ≤ idx_max →
  ∃ s' b, ChunkedBitSet.dense_union s o = Ret (s', b) ∧ wf_bitset dom s' ∧
    set_update (dense_elem s) (dense_elem s') b (λ y, dense_elem s y ∨ chunked_elem o y).
Proof.
  intros Hs Ho Hmax. unfold ChunkedBitSet.dense_union.
  destruct (iter_chunked dom o Ho Hmax) as (l & -> & _ & Hl). cbn [obind]. unfold sequential_update.
  destruct (sequential_insert (wf_bitset dom) dense_elem (λ x, 0 ≤ x < dom) BitSet.insert)
    with (l := l) (s := s) (acc := false) as (s' & b & -> & Hs' & He & Hb).
  - intros. by apply insert_dense.
  - apply _.
  - done.
  - apply list.Forall_forall. intros x Hx%Hl. by apply (chunked_elem_below dom o).
  - eexists _, b. split; [done|]. split; [done|]. apply set_update_added; [apply _| |].
    + intros y. by rewrite He, Hl.
    + rewrite Hb. split; [intros [?|(y & Hy & ?)]; [done|]; exists y; by rewrite <- Hl|].
      intros (y & Hy & ?). right. exists y. by rewrite Hl.
Qed.

End Relations.

(** ** Intersection of a dense set with a chunked one *)

(** The loop over the words of a mixed chunk *)
Lemma intersect_mixed_words data ws : ∀ acc c a,
  (a + length ws ≤ length data)%nat →
  fold_outcome (λ '(acc, changed) '(i, word),
      let! d := index data i in
      let new_val := Z.land word d in
      Ret (acc ++ [new_val], changed || negb (new_val =? word)))
    (zip (seq a (length ws)) ws) (acc, c)
  = Ret (acc ++ zip_with Z.land ws (drop a data),
         c || negb (bool_decide (zip_with Z.land ws (drop a data) = ws))).
Proof.
  induction ws as [|w ws IH]; intros acc c a Hl; cbn [length seq zip zip_with fold_outcome].
  { rewrite app_nil_r. rewrite bool_decide_eq_true_2 by done. by rewrite orb_false_r. }
  cbn [length] in Hl. destruct (lookup_lt_is_Some_2 data a) as [d Hd]; [lia|].
  unfold index at 1. rewrite Hd. cbn [unwrap obind]. rewrite IH by lia.
  rewrite (drop_S data d a) by done. cbn [zip_with]. rewrite <- (assoc_L (++)). cbn [app].
  do 2 f_equal. rewrite <- orb_assoc. f_equal. apply eq_true_iff_eq.
  rewrite orb_true_iff, !negb_true_iff, !bool_decide_eq_false, Z.eqb_neq.
  destruct (decide (Z.land w d = w)) as [E|E].
  - rewrite E. intuition congruence.
  - split; [intros _; congruence|tauto].
Qed.

Lemma intersect_words_spec sz ws c :
  Forall (is_uint 64) ws → (length ws ≤ 32)%nat → wf_chunk sz c → (∀ k, sz ≤ k → bit ws k = false) →
  ∃ ws', ChunkedBitSet.intersect_words ws c = Ret (ws', negb (bool_decide (ws' = ws))) ∧
    length ws' = length ws ∧ Forall (is_uint 64) ws' ∧
    ∀ k, 0 ≤ k → bit ws' k = bit ws k && chunk_bit c k.
Proof.
  intros Hu Hl [Hsz Hc] He. destruct c as [z|z|z n data]; cbn [ChunkedBitSet.intersect_words chunk_bit].
  - exists (replicate (length ws) 0). rewrite length_replicate. split_and!; [|done|by apply Forall_replicate|].
    + do 2 f_equal. apply eq_true_iff_eq. rewrite negb_true_iff, bool_decide_eq_false, existsb_nonzero. split.
      * intros (i & w & Hi & Hn) E. rewrite <- E in Hi. by apply lookup_replicate in Hi as [-> _].
      * intros Hne. destruct (decide (Exists (λ w, w ≠ 0) ws)) as [Hex|Hex].
        { apply list.Exists_exists in Hex as (w & [i Hi]%list_elem_of_lookup & Hn). eauto. }
        destruct Hne. apply list_eq_same_length with (length ws); [done|by rewrite length_replicate|].
        intros i a b _ Ha Hb. apply lookup_replicate in Ha as [-> _].
        destruct (decide (b = 0)); [done|]. destruct Hex. apply list.Exists_exists. exists b.
        split; [by apply list_elem_of_lookup_2 with i|done].
    + intros k Hk. rewrite bit_replicate, Z.bits_0, !andb_false_r by done. done.
  - subst z. exists ws. rewrite bool_decide_eq_true_2 by done. split_and!; try done.
    intros k Hk. destruct (Z.ltb_spec k sz); [by rewrite andb_true_r|]. by rewrite He.
  - destruct Hc as (-> & Hw & _). rewrite intersect_mixed_words by (rewrite (cw_length _ _ Hw); lia).
    cbn [app orb]. rewrite drop_0. eexists. split; [done|].
    assert (length (zip_with Z.land ws data) = length ws) as Hlz.
    { rewrite length_zip_with, (cw_length _ _ Hw). lia. }
    assert (zip_with Z.land ws data = zip_with Z.land ws (take (length ws) data)) as Hz.
    { apply list_eq. intros i. rewrite !lookup_zip_with. destruct (ws !! i) as [w|] eqn:E; [|done].
      apply lookup_lt_Some in E. by rewrite lookup_take_lt. }
    split_and!; [done|..].
    + apply Forall_lookup. intros i w (x & y & -> & Hx & Hy)%lookup_zip_with_Some.
      apply is_uint_land; [lia|apply (Forall_lookup_1 _ _ _ _ Hu Hx)|].
      by destruct (Forall_lookup_1 _ _ _ _ (cw_uint _ _ Hw) Hy).
    + intros k Hk. rewrite Hz, (bit_zip_with _ andb).
      * destruct (bit ws k) eqn:Eb; [|done]. cbn. unfold bit.
        rewrite lookup_take_lt; [done|]. unfold bit in Eb.
        destruct (ws !! _) as [w|] eqn:E; [|done]. by apply lookup_lt_Some in E.
      * rewrite length_take, (cw_length _ _ Hw). lia.
      * done.
      * done.
      * apply Forall_take, Hw.
      * intros. apply Z.land_spec.
Qed.

(** Replacing the words [a..a+n] *)
Lemma bit_splice ws ws' a n x :
  0 ≤ x → (a + n ≤ length ws)%nat → length ws' = n →
  bit (take a ws ++ ws' ++ drop (a + n) ws) x =
    if decide (64 * Z.of_nat a ≤ x < 64 * Z.of_nat (a + n)) then bit ws' (x - 64 * Z.of_nat a) else bit ws x.
Proof.
  intros Hx Hl Hn. destruct (word_bit x Hx) as (i & k & -> & Hk & _).
  destruct (decide _) as [Hin|Hout].
  - replace (64 * Z.of_nat i + k - 64 * Z.of_nat a) with (64 * Z.of_nat (i - a) + k) by lia.
    rewrite !bit_at by done. rewrite lookup_app_r by (rewrite length_take; lia).
    rewrite lookup_app_l by (rewrite length_take; lia). rewrite length_take.
    by replace (i - a `min` length ws)%nat with (i - a)%nat by lia.
  - rewrite !bit_at by done. destruct (decide (i < a)%nat).
    + rewrite lookup_app_l by (rewrite length_take; lia). by rewrite lookup_take_lt by lia.
    + rewrite lookup_app_r by (rewrite length_take; lia). rewrite lookup_app_r by (rewrite length_take; lia).
      rewrite lookup_drop, length_take, Hn. replace (a + n + (i - a `min` length ws - n))%nat with i by lia. done.
Qed.

(** One chunk: its indices are intersected, the others stay. *)
Lemma intersect_chunk_spec dom o i ch ws :
  wf_chunked dom o → ChunkedBitSet.chunks o !! i = Some ch → wf_words dom ws →
  ∃ ws' b, ChunkedBitSet.intersect_chunk ws i ch = Ret (ws', b) ∧ wf_words dom ws' ∧
    (∀ x, 0 ≤ x → bit ws' x =
      if decide (2048 * Z.of_nat i ≤ x < 2048 * (Z.of_nat i + 1))
      then bit ws x && cbit (ChunkedBitSet.chunks o) x else bit ws x) ∧
    (b = true ↔ ∃ x, 0 ≤ x ∧ bit ws' x ≠ bit ws x).
Proof.
  intros Ho Hch Hw. apply lookup_lt_Some in Hch as Hilt. pose proof (wfc_chunk _ _ Ho i ch Hch) as Hwc.
  pose proof (wfc_length _ _ Ho) as Hlo. pose proof (chunk_count_bounds dom (wfc_domain _ _ Ho)) as Hcnt.
  pose proof (num_words_bounds dom (wfw_domain _ _ Hw)) as Hnw. pose proof (wfw_length _ _ Hw) as Hlw.
  unfold ChunkedBitSet.intersect_chunk. change (Z.to_nat CHUNK_WORDS) with 32%nat. set (start := (i * 32)%nat).
  unfold subslice. rewrite !(proj2 (Nat.leb_le _ _)) by lia. cbn [andb rassert obind]. rewrite (take_ge ws) by lia.
  set (n := if (32 <? length (drop start ws))%nat then 32%nat else length (drop start ws)).
  assert (n = Nat.min 32 (length ws - start)) as En.
  { unfold n. rewrite length_drop. destruct (Nat.ltb_spec 32 (length ws - start)); lia. }
  clearbody n. set (part := take n (drop start ws)).
  assert (length part = n) as Hlp by (unfold part; rewrite length_take, length_drop; lia).
  assert (Forall (is_uint 64) part) as Hup by apply Forall_take, Forall_drop, Hw.
  assert (∀ k, 0 ≤ k < 64 * Z.of_nat n → bit part k = bit ws (2048 * Z.of_nat i + k)) as Hpart.
  { intros k Hk. destruct (word_bit k) as (j & l & -> & Hl & _); [lia|].
    replace (2048 * Z.of_nat i + (64 * Z.of_nat j + l)) with (64 * Z.of_nat (start + j) + l) by lia.
    rewrite !bit_at by done. unfold part. by rewrite lookup_take_lt, lookup_drop by lia. }
  destruct (intersect_words_spec (chunk_size dom i) part ch) as (part' & -> & Hl' & Hu' & Hb'); try done.
  { lia. }
  { intros k Hk. destruct (decide (k < 64 * Z.of_nat n)); [|apply bit_beyond; lia].
    destruct Hwc as [Hsz _]. rewrite Hpart by lia. apply (wfw_excess _ _ Hw). unfold chunk_size in Hk. lia. }
  cbn [obind]. eexists _, _. split; [done|]. set (ws1 := take start ws ++ part' ++ drop (start + n) ws).
  assert (∀ x, 0 ≤ x → bit ws1 x = if decide (64 * Z.of_nat start ≤ x < 64 * Z.of_nat (start + n))
    then bit part' (x - 64 * Z.of_nat start) else bit ws x) as Hsp.
  { intros x Hx. unfold ws1. apply bit_splice; congruence || lia. }
  assert (∀ x, 0 ≤ x → bit ws1 x = if decide (2048 * Z.of_nat i ≤ x < 2048 * (Z.of_nat i + 1))
    then bit ws x && cbit (ChunkedBitSet.chunks o) x else bit ws x) as Hb1.
  { intros x Hx. rewrite Hsp by done. destruct (decide (64 * Z.of_nat start ≤ x < _)).
    - rewrite decide_True by lia. replace (64 * Z.of_nat start) with (2048 * Z.of_nat i) by lia.
      rewrite Hb', Hpart by lia. replace (2048 * Z.of_nat i + (x - 2048 * Z.of_nat i)) with x by lia.
      f_equal. replace x with (2048 * Z.of_nat i + (x - 2048 * Z.of_nat i)) at 2 by lia. by rewrite cbit_at, Hch by lia.
    - case_decide; [|done]. by rewrite bit_beyond by lia. }
  split; [|split; [done|]].
  - split; [apply Hw| | |].
    + unfold ws1. rewrite !length_app, length_take, length_drop, Hl', <- Hlw. lia.
    + apply Forall_app. split; [apply Forall_take, Hw|]. apply Forall_app. split; [done|apply Forall_drop, Hw].
    + intros x Hx. destruct (wfw_domain _ _ Hw). rewrite Hb1, (wfw_excess _ _ Hw) by lia. by case_decide.
  - rewrite negb_true_iff, bool_decide_eq_false. split.
    + intros Hne. destruct (bit_diff part' part) as [Heq|(k & Hk & Hdiff)].
      { destruct Hne. apply bits_ext; [lia|done..]. }
      assert (k < 64 * Z.of_nat n).
      { destruct (Z.lt_ge_cases k (64 * Z.of_nat n)); [done|]. rewrite !bit_beyond in Hdiff by lia. done. }
      exists (2048 * Z.of_nat i + k). split; [lia|]. rewrite Hsp, decide_True, <- Hpart by lia.
      by replace (2048 * Z.of_nat i + k - 64 * Z.of_nat start) with k by lia.
    + intros (x & Hx & Hdiff) E. rewrite Hsp in Hdiff by done. case_decide as Hin; [|done].
      rewrite E, Hpart in Hdiff by lia. by replace (2048 * Z.of_nat i + (x - 64 * Z.of_nat start)) with x in Hdiff by lia.
Qed.

(** The loop over the chunks from [i] on *)
Lemma intersect_loop_spec dom o cs : ∀ i ws c,
  wf_chunked dom o → drop i (ChunkedBitSet.chunks o) = cs → wf_words dom ws →
  ∃ ws' c', ChunkedBitSet.intersect_loop ws i cs c = Ret (ws', c') ∧ wf_words dom ws' ∧
    (∀ x, 0 ≤ x → bit ws' x = bit ws x && (cbit (ChunkedBitSet.chunks o) x || (x <? 2048 * Z.of_nat i))) ∧
    (c' = true ↔ c = true ∨ ∃ x, 0 ≤ x ∧ bit ws' x ≠ bit ws x).
Proof.
  induction cs as [|ch cs IH]; intros i ws c Ho Hd Hw; cbn [ChunkedBitSet.intersect_loop].
  { exists ws, c. split; [done|]. split; [done|]. split.
    - intros x Hx. destruct (Z.ltb_spec x (2048 * Z.of_nat i)).
      + by rewrite orb_true_r, andb_true_r.
      + rewrite (wfw_excess _ _ Hw); [done|]. apply (f_equal length) in Hd. rewrite length_drop in Hd. cbn in Hd.
        pose proof (wfc_length _ _ Ho). pose proof (chunk_count_bounds dom (wfc_domain _ _ Ho)). lia.
    - split; [tauto|]. intros [?|(x & _ & ?)]; done. }
  destruct (intersect_chunk_spec dom o i ch ws Ho) as (ws1 & b & -> & Hw1 & Hb1 & Hb); [|done|].
  { rewrite <- (Nat.add_0_r i), <- lookup_drop, Hd. done. }
  cbn [obind]. destruct (IH (S i) ws1 (c || b) Ho) as (ws' & c' & -> & Hw' & Hbits & Hc'); [|done|].
  { rewrite <- Nat.add_1_r, <- drop_drop, Hd. done. }
  exists ws', c'. split; [done|]. split; [done|]. split.
  - intros x Hx. rewrite Hbits, Hb1 by done. case_decide as Hin.
    + rewrite <- andb_assoc. f_equal. destruct (cbit _ x); [done|]. bool_cases.
    + f_equal. destruct (cbit _ x); [done|]. bool_cases.
  - rewrite Hc', orb_true_iff, Hb.
    assert (∀ x, 0 ≤ x → bit ws1 x = false → bit ws' x = false) as Hm1 by (intros x Hx E; by rewrite Hbits, E).
    assert (∀ x, 0 ≤ x → bit ws x = false → bit ws1 x = false) as Hm0.
    { intros x Hx E. rewrite Hb1, E by done. by case_decide. }
    split.
    + intros [[?|(x & Hx & Hdiff)]|(x & Hx & Hdiff)]; [by left|right; exists x; split; [done|]..];
        specialize (Hm1 x Hx); specialize (Hm0 x Hx); destruct (bit ws x), (bit ws1 x), (bit ws' x); intuition congruence.
    + intros [?|(x & Hx & Hdiff)]; [tauto|]. destruct (decide (bit ws1 x = bit ws x)) as [E|E].
      * right. exists x. rewrite E. done.
      * left; right. eauto.
Qed.

Lemma dense_intersect_chunked dom s o : wf_bitset dom s → wf_chunked dom o →
  ∃ s' b, ChunkedBitSet.dense_intersect s o = Ret (s', b) ∧ wf_bitset dom s' ∧
    set_update (dense_elem s) (dense_elem s') b (λ y, dense_elem s y ∧ chunked_elem o y).
Proof.
  intros [Hd Hw] Ho. unfold ChunkedBitSet.dense_intersect. rewrite Hd, (wfc_size _ _ Ho), Z.eqb_refl. cbn [rassert].
  destruct (intersect_loop_spec dom o (ChunkedBitSet.chunks o) 0 (BitSet.words s) false Ho)
    as (ws & b & -> & Hw' & Hbits & Hb); [done|done|]. cbn [obind].
  eexists _, b. split; [done|]. split; [done|].
  apply (set_update_bits _ _ _ (bit (BitSet.words s)) (bit ws)); try done.
  - intros y. unfold dense_elem, chunked_elem. destruct (decide (0 ≤ y)); [|tauto].
    rewrite Hbits, andb_true_iff by done. rewrite (proj2 (Z.ltb_ge y _)) by lia. rewrite orb_false_r. tauto.
  - rewrite Hb. split; [intros [?|(y & ? & ?)]; [done|]; exists y; by split|].
    intros (y & ? & ?). right. exists y. by split.
Qed.
