(* ===== verification/IndexSetInstances.v ===== *)
(** * The index sets of rustc_index as one interface

    The four set types are instances of [IndexSet], the ones that can remove
    elements of [IndexSetRemove].  [Client] is a machine with registers that
    hold sets; its runs are those of the same machine over mathematical sets,
    whichever type the registers have, so that two types always answer alike. *)

From stdpp Require Import gmap.
From S2P Require Import Prelude.
From S2P Require Import Slice.
From S2P Require Import IndexSet.
From S2P Require Import Interval.
From S2P Require Import IntervalProps.
From S2P Require Import BitSets.
From S2P Require Import BitSetProps.
From S2P Require Import BitIterProps.
From S2P Require Import HybridProps.
From S2P Require Import ChunkedBitSets.
From S2P Require Import ChunkedProps.
From S2P Require Import ChunkedIterProps.

(** * Instances *)

#[export] Instance covers_dec m x : Decision (covers m x).
Proof. unfold covers. apply _. Defined.

Lemma set_update_grew (E E' P : Z → Prop) b :
  (∀ y, Decision (P y)) → (∀ y, E' y ↔ E y ∨ P y) → (b = true ↔ ∃ y, P y ∧ ¬ E y) →
  set_update E E' b (λ y, E y ∨ P y).
Proof. intros. by apply set_update_added. Qed.

#[export] Program Instance interval_index_set `{Idx} : IndexSet IntervalSet.t := {|
  is_wf dom s := wf_set s ∧ IntervalSet.domain s = dom ∧ dom ≤ idx_max;
  is_elem s x := x ∈ s;
  is_new_empty dom := Ret (IntervalSet.new dom);
  is_contains := IntervalSet.contains;
  is_insert := IntervalSet.insert;
  is_insert_all := IntervalSet.insert_all;
  is_union := IntervalSet.union;
  is_domain dom := 0 ≤ dom < 2 ^ 32 ∧ dom ≤ idx_max;
|}.
Next Obligation.
  cbn. intros ? dom s x ([Hd Hm] & <- & _) Hx. apply (covers_bounds _ _ _ x Hm) in Hx. lia.
Qed.
Next Obligation.
  cbn. intros ? dom [Hd Hi]. eexists. split; [done|]. split; [split_and!; [by apply wf_new|done..]|].
  intros x Hx. by apply covers_nil in Hx.
Qed.
Next Obligation.
  cbn. intros ? dom s x (Hw & <- & _) Hx. apply contains_spec; [done|]. destruct Hw. lia.
Qed.
Next Obligation.
  cbn. intros ? dom s x (Hw & <- & Hi) Hx. pose proof Hw as [? _].
  destruct (insert_range_spec s (range_inclusive x x) Hw) as (s' & g & Hr & Hw' & Hd & He & Hg).
  { unfold range_ok. cbn. lia. }
  assert (∀ y, in_range (IntervalSet.domain s) (range_inclusive x x) y ↔ y = x) as Hin.
  { intros y. unfold in_range. cbn. lia. }
  exists s', g. split; [done|]. split; [split_and!; congruence|].
  apply set_update_grew; [apply _|..].
  - intros y. by rewrite He, Hin.
  - rewrite Hg. by setoid_rewrite Hin.
Qed.
Next Obligation.
  cbn. intros ? dom s (Hw & <- & Hi). destruct (insert_all_spec s Hw) as (s' & Hr & Hw' & Hd & He).
  exists s'. by split_and!.
Qed.
Next Obligation.
  cbn. intros ? dom s o (Hw & <- & Hi) (Ho & Hd & _).
  destruct (union_spec s o Hw Ho (eq_sym Hd) Hi) as (s' & g & Hr & Hw' & Hd' & He & Hg).
  exists s', g. split; [done|]. split; [split_and!; congruence|].
  apply set_update_grew; [intros; apply covers_dec|done..].
Qed.

#[export] Program Instance bitset_index_set : IndexSet BitSet.t := {|
  is_wf := wf_bitset;
  is_elem := dense_elem;
  is_new_empty dom := Ret (BitSet.new_empty dom);
  is_contains := BitSet.contains;
  is_insert := BitSet.insert;
  is_insert_all := BitSet.insert_all;
  is_union := BitSet.union;
  is_domain := dense_domain;
|}.
Next Obligation. exact dense_elem_below. Qed.
Next Obligation. intros dom Hd. eexists. split; [done|]. by apply new_empty_dense. Qed.
Next Obligation.
  cbn. intros dom s x Hs Hx. pose proof (contains_hybrid dom (HybridBitSet.Dense s) x) as H.
  cbn in H. rewrite H by (done || by split; [apply Hs|]). eexists. split; [done|]. apply bool_decide_eq_true.
Qed.
Next Obligation. exact insert_dense. Qed.
Next Obligation. exact insert_all_dense. Qed.
Next Obligation. exact union_dense_spec. Qed.

#[export] Instance bitset_index_set_remove : IndexSetRemove BitSet.t :=
  {| is_remove := BitSet.remove; law_remove := remove_dense |}.

(** A sparse set is empty in an empty domain; its union with a dense one is not
    supported there ([union_empty_domain_panics]). *)
#[export] Program Instance hybrid_index_set {A : ArrayVecApi} {AL : ArrayVecLaws A} : IndexSet HybridBitSet.t := {|
  is_wf dom s := wf_hybrid dom s ∧ 0 < dom;
  is_elem := hybrid_elem;
  is_new_empty dom := Ret (HybridBitSet.new_empty dom);
  is_contains := HybridBitSet.contains;
  is_insert := HybridBitSet.insert;
  is_insert_all := HybridBitSet.insert_all;
  is_union := HybridBitSet.union;
  is_domain dom := dense_domain dom ∧ 0 < dom;
|}.
Next Obligation. intros A AL dom s x [Hs _]. by apply hybrid_elem_below. Qed.
Next Obligation.
  intros A AL dom [Hd Hp]. eexists. split; [done|]. split; [split; [split; [done|]|done]|].
  - split; cbn; [done|constructor|constructor|lia].
  - intros x Hx. by apply elem_of_nil in Hx.
Qed.
Next Obligation.
  intros A AL dom s x [Hs _] Hx. cbn. rewrite (contains_hybrid dom) by done.
  eexists. split; [done|]. apply bool_decide_eq_true.
Qed.
Next Obligation.
  intros A AL dom s x [Hs Hp] Hx. destruct (insert_hybrid dom s x Hs Hx) as (s' & b & ? & ? & ?). eauto 6.
Qed.
Next Obligation.
  intros A AL dom s [Hs Hp]. destruct (insert_all_hybrid dom s Hs) as (s' & ? & ? & ?). eauto 6.
Qed.
Next Obligation.
  intros A AL dom s o [Hs Hp] [Ho _]. destruct (union_hybrid dom s o Hs Ho Hp) as (s' & b & ? & ? & ?). eauto 6.
Qed.

#[export] Program Instance hybrid_index_set_remove {A : ArrayVecApi} {AL : ArrayVecLaws A} :
  IndexSetRemove HybridBitSet.t := {| is_remove := HybridBitSet.remove |}.
Next Obligation.
  intros A AL dom s x [Hs Hp] Hx. destruct (remove_hybrid dom s x Hs Hx) as (s' & b & ? & ? & ?).
  exists s', b. by split_and!.
Qed.

#[export] Program Instance chunked_index_set : IndexSet ChunkedBitSet.t := {|
  is_wf := wf_chunked;
  is_elem := chunked_elem;
  is_new_empty := ChunkedBitSet.new_empty;
  is_contains := ChunkedBitSet.contains;
  is_insert := ChunkedBitSet.insert;
  is_insert_all s := Ret (ChunkedBitSet.insert_all s);
  is_union := ChunkedBitSet.union;
  is_domain := chunked_domain;
|}.
Next Obligation. exact chunked_elem_below. Qed.
Next Obligation.
  intros dom Hd. destruct (new_chunked dom true Hd) as (s & Hr & Hw & He). exists s. split_and!; [done..|].
  intros x Hx%He. by destruct Hx.
Qed.
Next Obligation.
  intros dom s x Hs Hx. eexists. split; [by apply (contains_chunked dom)|].
  unfold chunked_elem. split; [intros ?; split; [lia|done]|tauto].
Qed.
Next Obligation. exact insert_chunked. Qed.
Next Obligation. intros dom s Hs. eexists. split; [done|]. by apply insert_all_chunked. Qed.
Next Obligation. exact union_chunked. Qed.

#[export] Instance chunked_index_set_remove : IndexSetRemove ChunkedBitSet.t :=
  {| is_remove := ChunkedBitSet.remove; law_remove := remove_chunked |}.

(** * A client *)

(** One command on registers that hold sets over one domain *)
Inductive command : Type :=
| Contains (r : nat) (x : Z)
| Insert (r : nat) (x : Z)
| Remove (r : nat) (x : Z)
| InsertAll (r : nat)
| Union (r o : nat).

(** The machine over mathematical sets; [None] when a register or an index is
    out of range *)
Definition in_domain (dom x : Z) : bool := (0 <=? x) && (x <? dom).
Definition member (x : Z) (s : gset Z) : bool := bool_decide (x ∈ s).
Definition included (t s : gset Z) : bool := bool_decide (t ⊆ s).

Definition ref_step (dom : Z) (regs : list (gset Z)) (c : command) : option (list (gset Z) * bool) :=
  match c with
  | Contains r x => s ← regs !! r; if in_domain dom x then Some (regs, member x s) else None
  | Insert r x =>
      s ← regs !! r; if in_domain dom x then Some (<[r := {[x]} ∪ s]> regs, negb (member x s)) else None
  | Remove r x =>
      s ← regs !! r; if in_domain dom x then Some (<[r := s ∖ {[x]}]> regs, member x s) else None
  | InsertAll r => _ ← regs !! r; Some (<[r := list_to_set (seqZ 0 dom)]> regs, true)
  | Union r o =>
      s ← regs !! r; t ← regs !! o; Some (<[r := s ∪ t]> regs, negb (included t s))
  end.

Fixpoint ref_run (dom : Z) (regs : list (gset Z)) (cs : list command) : option (list (gset Z) * list bool) :=
  match cs with
  | [] => Some (regs, [])
  | c :: cs =>
      '(regs, b) ← ref_step dom regs c; '(regs, bs) ← ref_run dom regs cs; Some (regs, b :: bs)
  end.

Lemma pair_some_inj {A B} (a a' : A) (b b' : B) : Some (a, b) = Some (a', b') → a = a' ∧ b = b'.
Proof. by intros [= -> ->]. Qed.

(** When the reference answers that a set changed *)
Lemma added_changes x (g : gset Z) : negb (member x g) = true ↔ ∃ y, ¬ (y ∈ g ↔ y ∈ {[x]} ∪ g).
Proof.
  unfold member. rewrite negb_true_iff, bool_decide_eq_false.
  split; [intros ?; exists x; set_solver|]. intros (y & Hy) Hin. set_solver.
Qed.

Lemma removed_changes x (g : gset Z) : member x g = true ↔ ∃ y, ¬ (y ∈ g ↔ y ∈ g ∖ {[x]}).
Proof.
  unfold member. rewrite bool_decide_eq_true. split; [intros ?; exists x; set_solver|].
  intros (y & Hy). destruct (decide (y = x)) as [->|]; [|set_solver]. destruct (decide (x ∈ g)); set_solver.
Qed.

Lemma union_changes (t g : gset Z) : negb (included t g) = true ↔ ∃ y, ¬ (y ∈ g ↔ y ∈ g ∪ t).
Proof.
  unfold included. rewrite negb_true_iff, bool_decide_eq_false. setoid_rewrite elem_of_union. split.
  - intros Hn. destruct (decide (set_Exists (λ y, y ∉ g) t)) as [(y & Hy & Hg)|Hno]; [exists y; tauto|].
    destruct Hn. intros y Hy. destruct (decide (y ∈ g)); [done|]. destruct Hno. by exists y.
  - intros (y & Hy) Hs. specialize (Hs y). tauto.
Qed.

Section Client.
Context {S : Type} `{IndexSetRemove S}.

(** The same machine over a set type, with the operations of the type *)
Definition step (regs : list S) (c : command) : outcome (list S * bool) :=
  match c with
  | Contains r x => let! s := index regs r in let! b := is_contains s x in Ret (regs, b)
  | Insert r x => let! s := index regs r in let! (s, b) := is_insert s x in Ret (<[r := s]> regs, b)
  | Remove r x => let! s := index regs r in let! (s, b) := is_remove s x in Ret (<[r := s]> regs, b)
  | InsertAll r => let! s := index regs r in let! s := is_insert_all s in Ret (<[r := s]> regs, true)
  | Union r o =>
      let! s := index regs r in let! t := index regs o in
      let! (s, b) := is_union s t in Ret (<[r := s]> regs, b)
  end.

Fixpoint run (regs : list S) (cs : list command) : outcome (list S * list bool) :=
  match cs with
  | [] => Ret (regs, [])
  | c :: cs => let! (regs, b) := step regs c in let! (regs, bs) := run regs cs in Ret (regs, b :: bs)
  end.

Definition sim (dom : Z) (s : S) (g : gset Z) : Prop := is_wf dom s ∧ ∀ x, is_elem s x ↔ x ∈ g.

Lemma index_ret {A} (l : list A) i a : l !! i = Some a → index l i = Ret a.
Proof. intros Hi. unfold index. by rewrite Hi. Qed.

(** The answer of an update, as one about mathematical sets *)
Lemma sim_update dom s s' b c g (P : Z → Prop) g' :
  sim dom s g → is_wf dom s' → set_update (is_elem s) (is_elem s') b P →
  (∀ y, P y ↔ y ∈ g') → (c = true ↔ ∃ y, ¬ (y ∈ g ↔ y ∈ g')) → sim dom s' g' ∧ b = c.
Proof.
  intros [_ Hg] Hw [He Hb] HP HQ. split; [split; [done|]; intros y; by rewrite He, HP|].
  apply eq_true_iff_eq. rewrite Hb, HQ. by setoid_rewrite Hg; setoid_rewrite HP.
Qed.

(** One step of the machine is one step of the reference. *)
Lemma step_sim dom regs gs c gs' b :
  Forall2 (sim dom) regs gs → ref_step dom gs c = Some (gs', b) →
  ∃ regs', step regs c = Ret (regs', b) ∧ Forall2 (sim dom) regs' gs'.
Proof.
  intros Hr Hs. assert (∀ r g, gs !! r = Some g → ∃ s, index regs r = Ret s ∧ sim dom s g) as Hreg.
  { intros r g Hg. destruct (Forall2_lookup_r _ _ _ _ _ Hr Hg) as (s & Hs' & ?). exists s.
    split; [by apply index_ret|done]. }
  destruct c as [r x|r x|r x|r|r o]; unfold ref_step in Hs; cbn [step];
    destruct (gs !! r) as [g|] eqn:Hg; try done; cbn [mbind option_bind] in Hs;
    destruct (Hreg _ _ Hg) as (s & -> & Hsim); cbn [obind];
    try (destruct (in_domain dom x) eqn:Hx; [|done]; unfold in_domain in Hx);
    try (destruct (gs !! o) as [h|] eqn:Ho; [|done]); apply pair_some_inj in Hs as [<- <-].
  - destruct Hsim as [Hw He]. destruct (law_contains dom s x Hw ltac:(lia)) as (b' & -> & Hb).
    exists regs. split; [|done]. cbn [obind]. do 2 f_equal. apply eq_true_iff_eq.
    unfold member. by rewrite bool_decide_eq_true, Hb, He.
  - destruct (law_insert dom s x (proj1 Hsim) ltac:(lia)) as (s' & b' & -> & Hw' & Hu).
    destruct (sim_update dom s s' b' (negb (member x g)) g _ ({[x]} ∪ g) Hsim Hw' Hu) as [Hs' ->]; [|apply added_changes|].
    + intros y. rewrite elem_of_union, elem_of_singleton, (proj2 Hsim). tauto.
    + eexists. split; [done|]. by apply Forall2_insert.
  - destruct (law_remove dom s x (proj1 Hsim) ltac:(lia)) as (s' & b' & -> & Hw' & Hu).
    destruct (sim_update dom s s' b' (member x g) g _ (g ∖ {[x]}) Hsim Hw' Hu) as [Hs' ->]; [|apply removed_changes|].
    + intros y. rewrite elem_of_difference, elem_of_singleton, (proj2 Hsim). tauto.
    + eexists. split; [done|]. by apply Forall2_insert.
  - destruct (law_insert_all dom s (proj1 Hsim)) as (s' & -> & Hw' & He).
    eexists. split; [done|]. apply Forall2_insert; [done|]. split; [done|].
    intros y. rewrite He, elem_of_list_to_set, elem_of_seqZ. lia.
  - destruct (Hreg _ _ Ho) as (t & -> & Hsim'). cbn [obind].
    destruct (law_union dom s t (proj1 Hsim) (proj1 Hsim')) as (s' & b' & -> & Hw' & Hu).
    destruct (sim_update dom s s' b' (negb (included h g)) g _ (g ∪ h) Hsim Hw' Hu) as [Hs' ->]; [|apply union_changes|].
    + intros y. by rewrite elem_of_union, (proj2 Hsim), (proj2 Hsim').
    + eexists. split; [done|]. by apply Forall2_insert.
Qed.

Lemma run_sim dom cs : ∀ regs gs gs' bs,
  Forall2 (sim dom) regs gs → ref_run dom gs cs = Some (gs', bs) →
  ∃ regs', run regs cs = Ret (regs', bs) ∧ Forall2 (sim dom) regs' gs'.
Proof.
  induction cs as [|c cs IH]; intros regs gs gs' bs Hr Hs; cbn in Hs |- *.
  { apply pair_some_inj in Hs as [<- <-]. by exists regs. }
  destruct (ref_step dom gs c) as [[gs1 b]|] eqn:E; [|done]. cbn in Hs.
  destruct (ref_run dom gs1 cs) as [[gs2 bs2]|] eqn:E2; [|done]. apply pair_some_inj in Hs as [<- <-].
  destruct (step_sim _ _ _ _ _ _ Hr E) as (regs1 & -> & Hr1). cbn [obind].
  destruct (IH _ _ _ _ Hr1 E2) as (regs2 & -> & Hr2). by exists regs2.
Qed.

(** Registers that all start empty *)
Definition start (dom : Z) (n : nat) : outcome (list S) := let! s := is_new_empty dom in Ret (replicate n s).

Lemma start_sim dom n : is_domain dom →
  ∃ regs, start dom n = Ret regs ∧ Forall2 (sim dom) regs (replicate n ∅).
Proof.
  intros Hd. unfold start. destruct (law_empty dom Hd) as (s & -> & Hw & He). eexists. split; [done|].
  apply Forall2_replicate. split; [done|]. intros x. split; [intros Hx; by apply He in Hx|]. by intros Hx%elem_of_empty.
Qed.

Lemma run_refines dom n cs gs bs :
  is_domain dom → ref_run dom (replicate n ∅) cs = Some (gs, bs) →
  ∃ regs, (let! regs := start dom n in run regs cs) = Ret (regs, bs) ∧ Forall2 (sim dom) regs gs.
Proof.
  intros Hd Hr. destruct (start_sim dom n Hd) as (regs & -> & Hs). by apply run_sim with (replicate n ∅).
Qed.

End Client.

(** * ArrayVec as a list *)

(** A vector that behaves as documented, for concrete runs *)
Definition list_array_vec : ArrayVecApi := {|
  av_push cap v x := rassert (length v <? cap)%nat (Ret (v ++ [x]));
  av_insert cap v i x := rassert ((length v <? cap)%nat && (i <=? length v)%nat) (Ret (take i v ++ x :: drop i v));
  av_remove v i := rassert (i <? length v)%nat (Ret (take i v ++ drop (S i) v));
  av_retain v p := filter_outcome p v;
|}.

#[export] Instance list_array_vec_laws : ArrayVecLaws list_array_vec.
Proof.
  split; intros; cbn [av_push av_insert av_remove av_retain list_array_vec].
  - by rewrite (proj2 (Nat.ltb_lt _ _)).
  - by rewrite (proj2 (Nat.ltb_lt _ _)), (proj2 (Nat.leb_le _ _)).
  - by rewrite (proj2 (Nat.ltb_lt _ _)).
  - done.
Qed.
