(* ===== verification/BitMatrices.v ===== *)
(** * Bit matrices

    The two matrix types of [compiler/rustc_index/src/bit_set.rs]: [BitMatrix],
    all rows in one vector of words, and [SparseBitMatrix], a vector of rows
    that are instantiated as [HybridBitSet]s on demand.  Row indices are [nat],
    column indices [Z]. *)

From S2P Require Import Prelude.
From S2P Require Import Slice.
From S2P Require Import BitSets.

Module BitMatrix.

Record t : Type := { num_rows : nat; num_columns : Z; words : list Z }.

Definition with_words (m : t) (ws : list Z) : t :=
  {| num_rows := num_rows m; num_columns := num_columns m; words := ws |}.

Definition new (num_rows : nat) (num_columns : Z) : t :=
  let words_per_row := num_words num_columns in
  {| num_rows := num_rows; num_columns := num_columns;
     words := replicate (Z.to_nat (wrap 64 (Z.of_nat (num_rows * words_per_row)))) 0 |}.

Definition from_row_n (row : BitSet.t) (num_rows : nat) : outcome t :=
  let num_columns := BitSet.domain_size row in
  let words_per_row := num_words num_columns in
  rassert (words_per_row =? length (BitSet.words row))%nat
    (Ret {| num_rows := num_rows; num_columns := num_columns;
            words := concat (replicate num_rows (BitSet.words row)) |}).

Definition rows (m : t) : list nat := seq 0 (num_rows m).

Definition range (m : t) (row : nat) : nat * nat :=
  let words_per_row := num_words (num_columns m) in
  let start := (row * words_per_row)%nat in (start, (start + words_per_row)%nat).

Definition insert (m : t) (row : nat) (column : Z) : outcome (t * bool) :=
  rassert ((row <? num_rows m)%nat && (column <? num_columns m))
    (let (start, _) := range m row in
     let (word_index, mask) := word_index_and_mask column in
     let! word := index (words m) (start + word_index) in
     let new_word := Z.lor word mask in
     let! ws := index_set (words m) (start + word_index) new_word in
     Ret (with_words m ws, negb (word =? new_word))).

Definition contains (m : t) (row : nat) (column : Z) : outcome bool :=
  rassert ((row <? num_rows m)%nat && (column <? num_columns m))
    (let (start, _) := range m row in
     let (word_index, mask) := word_index_and_mask column in
     let! word := index (words m) (start + word_index) in
     Ret (negb (Z.land word mask =? 0))).

(** The loop over the bits of one word in [intersect_rows] *)
Fixpoint intersect_bits `{Idx} (bits : list Z) (base v : Z) (result : list Z) : outcome (list Z) :=
  match bits with
  | [] => Ret result
  | bit :: bits =>
      if v =? 0 then Ret result
      else
        let! result := if negb (Z.land v 1 =? 0)
          then let! c := idx_new (base * WORD_BITS + bit) in Ret (result ++ [c]) else Ret result in
        intersect_bits bits base (Z.shiftr v 1) result
  end.

Definition intersect_rows `{Idx} (m : t) (row1 row2 : nat) : outcome (list Z) :=
  rassert ((row1 <? num_rows m)%nat && (row2 <? num_rows m)%nat)
    (let (row1_start, row1_end) := range m row1 in
     let (row2_start, row2_end) := range m row2 in
     fold_outcome (λ result base,
       let! a := index (words m) (row1_start + base) in
       let! b := index (words m) (row2_start + base) in
       intersect_bits (seqZ 0 WORD_BITS) (Z.of_nat base) (Z.land a b) result)
       (seq 0 ((row1_end - row1_start) `min` (row2_end - row2_start))) []).

(** The loop of [union_rows] and [union_row_with]: [read] gives the word to add
    to the word at [write_index]. *)
Definition union_words (read : list Z → nat → outcome Z) (write_start n : nat) (ws : list Z)
    : outcome (list Z * bool) :=
  fold_outcome (λ '(ws, changed) k,
    let! word := index ws (write_start + k) in
    let! other := read ws k in
    let new_word := Z.lor word other in
    let! ws := index_set ws (write_start + k) new_word in
    Ret (ws, changed || negb (word =? new_word))) (seq 0 n) (ws, false).

Definition union_rows (m : t) (read write : nat) : outcome (t * bool) :=
  rassert ((read <? num_rows m)%nat && (write <? num_rows m)%nat)
    (let (read_start, read_end) := range m read in
     let (write_start, write_end) := range m write in
     let! (ws, changed) := union_words (λ ws k, index ws (read_start + k)) write_start
       ((read_end - read_start) `min` (write_end - write_start)) (words m) in
     Ret (with_words m ws, changed)).

Definition union_row_with (m : t) (with_ : BitSet.t) (write : nat) : outcome (t * bool) :=
  rassert (write <? num_rows m)%nat (rassert (BitSet.domain_size with_ =? num_columns m)
    (let (write_start, write_end) := range m write in
     let! (ws, changed) := union_words (λ _ k, index (BitSet.words with_) k) write_start
       (length (BitSet.words with_) `min` (write_end - write_start)) (words m) in
     Ret (with_words m ws, changed))).

Definition insert_all_into_row (m : t) (row : nat) : outcome t :=
  rassert (row <? num_rows m)%nat
    (let (start, end_) := range m row in
     let! ws := fold_outcome (λ ws i, index_set ws i (wnot 64 0)) (seq start (end_ - start)) (words m) in
     let! prefix := subslice ws 0 end_ in
     let! prefix := clear_excess_bits_in_final_word (num_columns m) prefix in
     Ret (with_words m (prefix ++ drop end_ ws))).

Definition iter `{Idx} (m : t) (row : nat) : outcome (list Z) :=
  rassert (row <? num_rows m)%nat
    (let (start, end_) := range m row in
     let! ws := subslice (words m) start end_ in BitIter.collect ws).

Definition count (m : t) (row : nat) : outcome Z :=
  let (start, end_) := range m row in
  let! ws := subslice (words m) start end_ in Ret (foldr Z.add 0 (count_ones <$> ws)).

End BitMatrix.

Module SparseBitMatrix.

Record t : Type := { num_columns : Z; row_sets : list (option HybridBitSet.t) }.

Definition with_rows (m : t) (rs : list (option HybridBitSet.t)) : t :=
  {| num_columns := num_columns m; row_sets := rs |}.

Definition new (num_columns : Z) : t := {| num_columns := num_columns; row_sets := [] |}.

(** [IndexVec::get_or_insert_with] on the rows: the matrix and the row *)
Definition ensure_row (m : t) (row : nat) : outcome (t * HybridBitSet.t) :=
  let! (rs, r) := ensure_contains_elem (row_sets m) row None in
  match r with
  | Some s => Ret (with_rows m rs, s)
  | None =>
      let s := HybridBitSet.new_empty (num_columns m) in
      Ret (with_rows m (<[row := Some s]> rs), s)
  end.

(** A method call on the row that [ensure_row] returns a reference to *)
Definition update_row {A} (m : t) (row : nat) (f : HybridBitSet.t → outcome (HybridBitSet.t * A)) : outcome (t * A) :=
  let! (m, s) := ensure_row m row in
  let! (s, a) := f s in
  Ret (with_rows m (<[row := Some s]> (row_sets m)), a).

(** A method call on a row that exists *)
Definition on_row (m : t) (row : nat) (f : HybridBitSet.t → outcome (HybridBitSet.t * bool)) : outcome (t * bool) :=
  match row_sets m !! row with
  | Some (Some s) => let! (s, b) := f s in Ret (with_rows m (<[row := Some s]> (row_sets m)), b)
  | _ => Ret (m, false)
  end.

Definition row (m : t) (row : nat) : option HybridBitSet.t :=
  match row_sets m !! row with Some r => r | None => None end.

Definition clear (m : t) (row : nat) : t :=
  match row_sets m !! row with
  | Some (Some s) => with_rows m (<[row := Some (HybridBitSet.clear s)]> (row_sets m))
  | _ => m
  end.

Definition contains (m : t) (r : nat) (column : Z) : outcome bool :=
  match row m r with Some s => HybridBitSet.contains s column | None => Ret false end.

Definition rows (m : t) : list nat := seq 0 (length (row_sets m)).

Section WithParams.
Context `{Idx} `{ArrayVecApi}.

Definition insert (m : t) (row : nat) (column : Z) : outcome (t * bool) :=
  update_row m row (λ s, HybridBitSet.insert s column).

Definition remove (m : t) (row : nat) (column : Z) : outcome (t * bool) :=
  on_row m row (λ s, HybridBitSet.remove s column).

Definition union_rows (m : t) (read write : nat) : outcome (t * bool) :=
  if (read =? write)%nat || match row m read with None => true | Some _ => false end then Ret (m, false)
  else
    let! (m, _) := ensure_row m write in
    let! (read_row, write_row) := pick2_mut (row_sets m) read write in
    match read_row, write_row with
    | Some read_row, Some write_row =>
        let! (write_row, changed) := HybridBitSet.union write_row read_row in
        Ret (with_rows m (<[write := Some write_row]> (row_sets m)), changed)
    | _, _ => Panic
    end.

Definition insert_all_into_row (m : t) (row : nat) : outcome t :=
  let! (m, _) := update_row m row (λ s, let! s := HybridBitSet.insert_all s in Ret (s, tt)) in Ret m.

Definition iter (m : t) (r : nat) : outcome (list Z) :=
  match row m r with Some s => HybridBitSet.iter s | None => Ret [] end.

(** The relations with a [HybridBitSet] *)
Definition intersect_row (m : t) (row : nat) (set : HybridBitSet.t) : outcome (t * bool) :=
  on_row m row (λ s, HybridBitSet.intersect s set).

Definition subtract_row (m : t) (row : nat) (set : HybridBitSet.t) : outcome (t * bool) :=
  on_row m row (λ s, HybridBitSet.subtract s set).

Definition union_row (m : t) (row : nat) (set : HybridBitSet.t) : outcome (t * bool) :=
  update_row m row (λ s, HybridBitSet.union s set).

End WithParams.

End SparseBitMatrix.
