(* ===== verification/BitMatrixProps.v ===== *)
(** * Correctness of the bit matrices

    A dense matrix is seen row by row: [mrow m r] is the row as a [BitSet] over
    the columns, and every operation on cells and rows is the operation on that
    set and leaves the other rows alone.  The sparse matrix is a map from rows
    to sets. *)

From stdpp Require Import sorting.
From S2P Require Import Prelude.
From S2P Require Import Slice.
From S2P Require Import IndexSet.
From S2P Require Import BitSets.
From S2P Require Import BitSetProps.
From S2P Require Import BitIterProps.
From S2P Require Import HybridProps.
From S2P Require Import BitMatrices.

(** Different lists differ at an index. *)
Lemma list_neq_lookup {A} `{EqDecision A} (l l' : list A) : l ≠ l' → ∃ i, l !! i ≠ l' !! i.
Proof.
  intros Hne.
  destruct (decide (Exists (λ i, l !! i ≠ l' !! i) (seq 0 (length l `max` length l')))) as [He|He].
  { apply list.Exists_exists in He as (i & _ & Hi). eauto. }
  destruct Hne. apply list_eq. intros i. destruct (decide (l !! i = l' !! i)) as [|Hi]; [done|].
  destruct (decide (i < length l `max` length l')%nat); [|by rewrite !lookup_ge_None_2 by lia].
  destruct He. apply list.Exists_exists. exists i. split; [apply elem_of_seq; lia|done].
Qed.

(** * Rows of a vector of words *)

Definition row_of (ws : list Z) (n r : nat) : list Z := take n (drop (r * n) ws).

Lemma row_of_lookup ws n r i : row_of ws n r !! i = if decide (i < n)%nat then ws !! (r * n + i)%nat else None.
Proof.
  unfold row_of. case_decide.
  - by rewrite lookup_take_lt, lookup_drop by done.
  - by rewrite lookup_take_ge by lia.
Qed.

(** Row by row equality *)
Lemma row_of_ext ws ws' n r r' :
  (∀ i, (i < n)%nat → ws !! (r * n + i)%nat = ws' !! (r' * n + i)%nat) → row_of ws n r = row_of ws' n r'.
Proof. intros H. apply list_eq. intros i. rewrite !row_of_lookup. case_decide; [by apply H|done]. Qed.

Lemma row_of_insert ws n r r' i w : (i < n)%nat →
  row_of (<[(r * n + i)%nat := w]> ws) n r' = if decide (r' = r) then <[i := w]> (row_of ws n r) else row_of ws n r'.
Proof.
  intros Hi. case_decide as E; [subst r'|].
  - apply list_eq. intros j. rewrite row_of_lookup. destruct (decide (j = i)) as [->|Hne].
    + rewrite decide_True by done. destruct (decide (r * n + i < length ws)%nat) as [Hl|Hl].
      * by rewrite !list_lookup_insert_eq by (try lia; unfold row_of; rewrite length_take, length_drop; lia).
      * rewrite !list_insert_ge; [|unfold row_of; rewrite length_take, length_drop; lia|lia].
        by rewrite row_of_lookup, decide_True.
    + rewrite !list_lookup_insert_ne by lia. by rewrite row_of_lookup.
  - apply row_of_ext. intros j Hj. rewrite list_lookup_insert_ne; [done|]. nia.
Qed.

Lemma row_in_bounds (rows r n : nat) i : (r < rows)%nat → (i < n)%nat → (r * n + i < rows * n)%nat.
Proof. nia. Qed.

(** * Dense matrices *)

Definition words_per_row (m : BitMatrix.t) : nat := num_words (BitMatrix.num_columns m).

Definition mrow (m : BitMatrix.t) (r : nat) : BitSet.t :=
  {| BitSet.domain_size := BitMatrix.num_columns m;
     BitSet.words := row_of (BitMatrix.words m) (words_per_row m) r |}.

Record wf_bitmatrix (m : BitMatrix.t) : Prop := {
  wfm_domain : dense_domain (BitMatrix.num_columns m);
  wfm_length : length (BitMatrix.words m) = (BitMatrix.num_rows m * words_per_row m)%nat;
  wfm_row r : (r < BitMatrix.num_rows m)%nat → wf_bitset (BitMatrix.num_columns m) (mrow m r);
}.

(** [m'] is [m] with row [r] replaced by [s] *)
Record row_set (m : BitMatrix.t) (r : nat) (s : BitSet.t) (m' : BitMatrix.t) : Prop := {
  rs_rows : BitMatrix.num_rows m' = BitMatrix.num_rows m;
  rs_columns : BitMatrix.num_columns m' = BitMatrix.num_columns m;
  rs_length : length (BitMatrix.words m') = length (BitMatrix.words m);
  rs_row : mrow m' r = s;
  rs_other r' : r' ≠ r → mrow m' r' = mrow m r';
}.

Lemma row_set_wf m r s m' :
  wf_bitmatrix m → wf_bitset (BitMatrix.num_columns m) s → row_set m r s m' → wf_bitmatrix m'.
Proof.
  intros [Hd Hl Hr] Hs [E1 E2 E3 E4 E5]. split; [by rewrite E2|unfold words_per_row; by rewrite E3, E1, E2|].
  intros r' Hr'. rewrite E1 in Hr'. rewrite E2. destruct (decide (r' = r)) as [->|Hne]; [by rewrite E4|]. rewrite E5 by done. by apply Hr.
Qed.

Lemma row_set_words m r ws row :
  length ws = length (BitMatrix.words m) → row_of ws (words_per_row m) r = row →
  (∀ r', r' ≠ r → row_of ws (words_per_row m) r' = row_of (BitMatrix.words m) (words_per_row m) r') →
  row_set m r (BitSet.with_words (mrow m r) row) (BitMatrix.with_words m ws).
Proof.
  intros Hl <- Ho. split; try done. intros r' Hr'. unfold mrow, words_per_row.
  cbn [BitMatrix.with_words BitMatrix.num_columns BitMatrix.words]. f_equal. by apply Ho.
Qed.

(** What an update of a row returns *)
Lemma row_set_done m r s b b' m' (P : Z → Prop) :
  wf_bitmatrix m → wf_bitset (BitMatrix.num_columns m) s → row_set m r s m' →
  set_update (dense_elem (mrow m r)) (dense_elem s) b P → b' = b →
  ∃ m1 s1 b1, Ret (m', b') = Ret (m1, b1) ∧ wf_bitmatrix m1 ∧ row_set m r s1 m1 ∧
    set_update (dense_elem (mrow m r)) (dense_elem s1) b1 P.
Proof. intros ? ? ? ? ->. exists m', s, b. split_and!; try done. by eapply row_set_wf. Qed.

(** The word of a cell is in the row. *)
Lemma cell_word m r c : wf_bitmatrix m → (r < BitMatrix.num_rows m)%nat → 0 ≤ c < BitMatrix.num_columns m →
  ∃ w, BitMatrix.words m !! (r * words_per_row m + Z.to_nat (c / 64))%nat = Some w ∧
    BitSet.words (mrow m r) !! Z.to_nat (c / 64) = Some w ∧
    (Z.to_nat (c / 64) < words_per_row m)%nat ∧
    (r * words_per_row m + Z.to_nat (c / 64) < length (BitMatrix.words m))%nat.
Proof.
  intros [Hd Hl Hr] Hlt Hc. destruct (Hr r Hlt) as [_ Hw]. destruct (word_lookup _ _ _ Hw Hc) as (w & Hw' & _ & Hi).
  exists w. cbn [mrow BitSet.words] in *. rewrite row_of_lookup in Hw'. case_decide; [|done].
  rewrite row_of_lookup, decide_True by done. split_and!; try done. rewrite Hl. by apply row_in_bounds.
Qed.

Lemma contains_matrix m r c : wf_bitmatrix m → (r < BitMatrix.num_rows m)%nat → 0 ≤ c < BitMatrix.num_columns m →
  BitMatrix.contains m r c = Ret (bit (BitSet.words (mrow m r)) c).
Proof.
  intros Hm Hr Hc. rewrite <- (contains_dense (BitMatrix.num_columns m)) by (done || by apply Hm).
  destruct (cell_word m r c Hm Hr Hc) as (w & Hw & Hw' & _). unfold BitMatrix.contains, BitSet.contains.
  rewrite (proj2 (Nat.ltb_lt _ _)), (proj2 (Z.ltb_lt _ _)) by (done || lia). cbn [andb BitMatrix.range mrow BitSet.domain_size].
  rewrite (proj2 (Z.ltb_lt _ _)) by (done || lia). cbn [rassert]. unfold BitMatrix.range, word_index_and_mask, index.
  change WORD_BITS with 64. fold (words_per_row m). by rewrite Hw, Hw'.
Qed.

Lemma insert_matrix m r c : wf_bitmatrix m → (r < BitMatrix.num_rows m)%nat → 0 ≤ c < BitMatrix.num_columns m →
  ∃ m' s b, BitMatrix.insert m r c = Ret (m', b) ∧ wf_bitmatrix m' ∧ row_set m r s m' ∧
    set_update (dense_elem (mrow m r)) (dense_elem s) b (λ y, dense_elem (mrow m r) y ∨ y = c).
Proof.
  intros Hm Hr Hc. destruct (cell_word m r c Hm Hr Hc) as (w & Hw & Hw' & Hi & Hlen).
  destruct (insert_dense (BitMatrix.num_columns m) (mrow m r) c) as (s & b & Hins & Hs & Hu); [by apply Hm|done|].
  unfold BitSet.insert, BitSet.update_word in Hins. cbn [mrow BitSet.domain_size] in Hins.
  rewrite (proj2 (Z.ltb_lt _ _)) in Hins by lia. cbn [rassert] in Hins.
  unfold word_index_and_mask, index, index_set in Hins. change WORD_BITS with 64 in Hins.
  change (BitSet.words _) with (BitSet.words (mrow m r)) in Hins. rewrite Hw' in Hins. cbn [unwrap obind] in Hins.
  rewrite (proj2 (Nat.ltb_lt _ _)) in Hins by (by eapply lookup_lt_Some). cbn [rassert obind] in Hins.
  injection Hins as <- <-.
  unfold BitMatrix.insert. rewrite (proj2 (Nat.ltb_lt _ _)), (proj2 (Z.ltb_lt _ _)) by (done || lia).
  cbn [andb rassert]. unfold BitMatrix.range, word_index_and_mask, index, index_set. change WORD_BITS with 64.
  fold (words_per_row m). rewrite Hw. cbn [unwrap obind].
  rewrite (proj2 (Nat.ltb_lt _ _)) by done. cbn [rassert obind].
  eapply row_set_done; [done|exact Hs| |exact Hu|by rewrite Z.eqb_sym].
  apply row_set_words; [by rewrite length_insert|..].
  - by rewrite row_of_insert, decide_True by done.
  - intros r' Hr'. by rewrite row_of_insert, decide_False by done.
Qed.

(** ** Unions of rows *)

(** The words [start .. start + n] of [ws'] are those of [ws] with [os] added,
    the others are the same. *)
Definition words_joined (ws os ws' : list Z) (start n : nat) : Prop :=
  length ws' = length ws ∧
  ∀ i, ws' !! i = if decide (start ≤ i < start + n)%nat
    then w ← ws !! i; o ← os !! (i - start)%nat; Some (Z.lor w o) else ws !! i.

Lemma union_words_loop (read : list Z → nat → outcome Z) ws os start n :
  (start + length os ≤ length ws)%nat → (n ≤ length os)%nat →
  (∀ k o ws', os !! k = Some o → words_joined ws os ws' start k → read ws' k = Ret o) →
  ∃ ws' c, BitMatrix.union_words read start n ws = Ret (ws', c) ∧ words_joined ws os ws' start n ∧
    (c = true ↔ ∃ i, ws' !! i ≠ ws !! i).
Proof.
  intros Hlen. unfold BitMatrix.union_words. induction n as [|n IH]; intros Hn Hread.
  { exists ws, false. split; [done|]. split.
    - split; [done|]. intros i. by rewrite decide_False by lia.
    - split; [done|]. intros (i & Hi). done. }
  destruct IH as (ws' & c & IH & [Hl Hj] & Hc); [lia|done|].
  rewrite seq_S, fold_outcome_app, IH. cbn [obind fold_outcome Nat.add].
  destruct (lookup_lt_is_Some_2 os n) as [o Ho]; [lia|].
  destruct (lookup_lt_is_Some_2 ws (start + n)) as [w Hw]; [lia|].
  assert (ws' !! (start + n)%nat = Some w) as Hw' by (rewrite Hj, decide_False by lia; done).
  unfold index at 1. rewrite Hw'. cbn [unwrap obind]. rewrite (Hread n o ws' Ho) by (by split). cbn [obind].
  unfold index_set. rewrite (proj2 (Nat.ltb_lt _ _)) by lia. cbn [rassert obind].
  eexists _, _. split; [done|]. split; [split; [by rewrite length_insert|]|].
  - intros i. destruct (decide (i = start + n)%nat) as [->|Hne].
    + rewrite list_lookup_insert_eq, decide_True, Hw by lia. cbn.
      replace (start + n - start)%nat with n by lia. by rewrite Ho.
    + rewrite list_lookup_insert_ne, Hj by lia. repeat case_decide; done || lia.
  - rewrite orb_true_iff, negb_true_iff, Z.eqb_neq, Hc. split.
    + intros [(i & Hi)|Hne].
      * exists i. destruct (decide (i = start + n)%nat) as [->|]; [congruence|].
        by rewrite list_lookup_insert_ne by lia.
      * exists (start + n)%nat. rewrite list_lookup_insert_eq, Hw by lia. congruence.
    + intros (i & Hi). destruct (decide (i = start + n)%nat) as [->|].
      * right. rewrite list_lookup_insert_eq, Hw in Hi by lia. congruence.
      * left. exists i. by rewrite list_lookup_insert_ne in Hi by lia.
Qed.

Lemma joined_row m ws' os r n :
  wf_bitmatrix m → (r < BitMatrix.num_rows m)%nat → n = words_per_row m → length os = n →
  words_joined (BitMatrix.words m) os ws' (r * n) n →
  row_of ws' n r = zip_with Z.lor (row_of (BitMatrix.words m) n r) os ∧
  ∀ r', r' ≠ r → row_of ws' n r' = row_of (BitMatrix.words m) n r'.
Proof.
  intros Hm Hr -> Hos [Hl Hj]. set (n := words_per_row m) in *. split.
  - apply list_eq. intros i. rewrite lookup_zip_with, !row_of_lookup. case_decide; [|done].
    rewrite Hj, decide_True by lia. by replace (r * n + i - r * n)%nat with i by lia.
  - intros r' Hr'. apply row_of_ext. intros i Hi. rewrite Hj, decide_False by nia. done.
Qed.

(** Adding the words of a set over the columns to a row *)
Lemma union_words_row m read write o :
  wf_bitmatrix m → (write < BitMatrix.num_rows m)%nat → wf_bitset (BitMatrix.num_columns m) o →
  (∀ k w ws', BitSet.words o !! k = Some w →
    words_joined (BitMatrix.words m) (BitSet.words o) ws' (write * words_per_row m) k → read ws' k = Ret w) →
  ∃ m' s b, (let! (ws, changed) := BitMatrix.union_words read (write * words_per_row m) (words_per_row m)
      (BitMatrix.words m) in Ret (BitMatrix.with_words m ws, changed)) = Ret (m', b) ∧
    wf_bitmatrix m' ∧ row_set m write s m' ∧
    set_update (dense_elem (mrow m write)) (dense_elem s) b (λ y, dense_elem (mrow m write) y ∨ dense_elem o y).
Proof.
  intros Hm Hr Ho Hread. pose proof (wfm_row _ Hm _ Hr) as Hrow.
  assert (length (BitSet.words o) = words_per_row m) as Hos by (apply (wfw_length _ _ (proj2 Ho))).
  pose proof (wfm_length _ Hm) as Hlen.
  destruct (union_words_loop read (BitMatrix.words m) (BitSet.words o) (write * words_per_row m) (words_per_row m))
    as (ws' & c & -> & Hj & Hc); [nia|lia|done|]. cbn [obind].
  destruct (joined_row m ws' (BitSet.words o) write _ Hm Hr eq_refl Hos Hj) as [Hjr Hjo].
  destruct (union_dense_spec _ _ _ Hrow Ho) as (s & b & Hun & Hs & Hu).
  unfold BitSet.union in Hun. rewrite (proj1 Hrow), (proj1 Ho), Z.eqb_refl in Hun. cbn [rassert] in Hun.
  rewrite bitwise_ret in Hun by (rewrite Hos; apply (wfw_length _ _ (proj2 Hrow))).
  cbn [obind] in Hun. injection Hun as <- <-.
  eapply row_set_done; [done|exact Hs| |exact Hu|].
  - by apply row_set_words; [destruct Hj|..].
  - apply eq_true_iff_eq. rewrite Hc, negb_true_iff, bool_decide_eq_false.
    change (BitSet.words (mrow m write)) with (row_of (BitMatrix.words m) (words_per_row m) write).
    rewrite <- Hjr. split.
    + intros (i & Hi) E. destruct Hj as [_ Hj]. rewrite Hj in Hi. case_decide as Hd; [|done].
      apply (f_equal (λ l, l !! (i - write * words_per_row m)%nat)) in E. rewrite !row_of_lookup in E.
      rewrite !decide_True in E by lia.
      replace (write * words_per_row m + (i - write * words_per_row m))%nat with i in E by lia.
      rewrite Hj, decide_True in E by lia. done.
    + intros Hne. apply list_neq_lookup. congruence.
Qed.

(** [union_rows]: a word that is read was not written before, since the rows
    are the same or apart. *)
Lemma union_rows_matrix m read write :
  wf_bitmatrix m → (read < BitMatrix.num_rows m)%nat → (write < BitMatrix.num_rows m)%nat →
  ∃ m' s b, BitMatrix.union_rows m read write = Ret (m', b) ∧ wf_bitmatrix m' ∧ row_set m write s m' ∧
    set_update (dense_elem (mrow m write)) (dense_elem s) b
      (λ y, dense_elem (mrow m write) y ∨ dense_elem (mrow m read) y).
Proof.
  intros Hm Hr Hw. unfold BitMatrix.union_rows, BitMatrix.range.
  rewrite !(proj2 (Nat.ltb_lt _ _)) by done. cbn [andb rassert]. fold (words_per_row m).
  rewrite (Nat.add_comm (read * _)), (Nat.add_comm (write * _)), !Nat.add_sub, Nat.min_id.
  apply union_words_row; [done..|by apply Hm|].
  intros k w ws' Hk [Hl Hj]. cbn [mrow BitSet.words] in Hk. rewrite row_of_lookup in Hk.
  case_decide as Hlt; [|done]. unfold index. rewrite Hj, decide_False, Hk; [done|].
  destruct (decide (read = write)) as [->|]; [lia|nia].
Qed.

Lemma union_row_with_matrix m o write :
  wf_bitmatrix m → (write < BitMatrix.num_rows m)%nat → wf_bitset (BitMatrix.num_columns m) o →
  ∃ m' s b, BitMatrix.union_row_with m o write = Ret (m', b) ∧ wf_bitmatrix m' ∧ row_set m write s m' ∧
    set_update (dense_elem (mrow m write)) (dense_elem s) b (λ y, dense_elem (mrow m write) y ∨ dense_elem o y).
Proof.
  intros Hm Hw Ho. unfold BitMatrix.union_row_with, BitMatrix.range.
  rewrite (proj2 (Nat.ltb_lt _ _)), (proj1 Ho), Z.eqb_refl by done. cbn [rassert]. fold (words_per_row m).
  rewrite (Nat.add_comm (write * _)), Nat.add_sub.
  replace (length (BitSet.words o)) with (words_per_row m) by (symmetry; apply (wfw_length _ _ (proj2 Ho))).
  rewrite Nat.min_id. apply union_words_row; [done..|].
  intros k w ws' Hk _. unfold index. by rewrite Hk.
Qed.

(** ** Whole rows *)

Lemma fill_row n : ∀ a ws, (a + n ≤ length ws)%nat →
  ∃ ws', fold_outcome (λ ws i, index_set ws i (wnot 64 0)) (seq a n) ws = Ret ws' ∧ length ws' = length ws ∧
    ∀ i, ws' !! i = if decide (a ≤ i < a + n)%nat then Some (wnot 64 0) else ws !! i.
Proof.
  induction n as [|n IH]; intros a ws Hl.
  { exists ws. split_and!; [done..|]. intros i. by rewrite decide_False by lia. }
  cbn [seq fold_outcome]. unfold index_set at 1. rewrite (proj2 (Nat.ltb_lt _ _)) by lia. cbn [rassert obind].
  destruct (IH (S a) (<[a := wnot 64 0]> ws)) as (ws' & -> & Hl' & Hi); [rewrite length_insert; lia|].
  exists ws'. split_and!; [done|by rewrite Hl', length_insert|]. intros i. rewrite Hi.
  destruct (decide (i = a)) as [->|].
  - rewrite decide_False, decide_True, list_lookup_insert_eq by lia. done.
  - rewrite list_lookup_insert_ne by lia. repeat case_decide; done || lia.
Qed.

(** A row given by its words *)
Lemma row_set_lookup m r s ws' :
  wf_bitmatrix m → wf_bitset (BitMatrix.num_columns m) s → length ws' = length (BitMatrix.words m) →
  (∀ i, (i < words_per_row m)%nat → ws' !! (r * words_per_row m + i)%nat = BitSet.words s !! i) →
  (∀ i, ¬ (r * words_per_row m ≤ i < r * words_per_row m + words_per_row m)%nat → ws' !! i = BitMatrix.words m !! i) →
  wf_bitmatrix (BitMatrix.with_words m ws') ∧ row_set m r s (BitMatrix.with_words m ws').
Proof.
  intros Hm Hs Hl Hin Hout. assert (row_set m r s (BitMatrix.with_words m ws')) as Hset.
  { destruct s as [ds wss]. pose proof Hs as [Hds Hws]. cbn in Hds, Hin, Hws. subst ds. split; try done.
    - unfold mrow, words_per_row in *. cbn. f_equal. apply list_eq. intros i. rewrite row_of_lookup.
      case_decide; [by apply Hin|]. rewrite lookup_ge_None_2; [done|]. rewrite (wfw_length _ _ Hws). lia.
    - intros r' Hr'. unfold mrow, words_per_row in *. cbn. f_equal. apply row_of_ext.
      intros i Hin'. apply Hout. nia. }
  split; [by eapply row_set_wf|done].
Qed.

Lemma insert_all_matrix m r : wf_bitmatrix m → (r < BitMatrix.num_rows m)%nat →
  ∃ m' s, BitMatrix.insert_all_into_row m r = Ret m' ∧ wf_bitmatrix m' ∧ row_set m r s m' ∧
    ∀ y, dense_elem s y ↔ 0 ≤ y < BitMatrix.num_columns m.
Proof.
  intros Hm Hr. unfold BitMatrix.insert_all_into_row, BitMatrix.range.
  rewrite (proj2 (Nat.ltb_lt _ _)) by done. cbn [rassert]. fold (words_per_row m). set (n := words_per_row m).
  rewrite (Nat.add_comm (r * n)), Nat.add_sub, (Nat.add_comm n).
  pose proof (wfm_length _ Hm) as Hlen. fold n in Hlen. assert (r * n + n ≤ length (BitMatrix.words m))%nat as Hle by nia.
  destruct (fill_row n (r * n) _ Hle) as (ws & -> & Hl & Hi). cbn [obind]. unfold subslice. rewrite !(proj2 (Nat.leb_le _ _)) by lia. cbn [andb rassert obind]. rewrite drop_0.
  (* the same computation on the row alone *)
  pose proof (wfm_domain _ Hm) as Hd. pose proof (num_words_bounds _ Hd) as Hn.
  change (num_words _) with n in Hn. pose proof (wfm_row _ Hm _ Hr) as Hrow.
  destruct (insert_all_dense _ _ Hrow) as (s & Hins & Hs & He).
  unfold BitSet.insert_all, BitSet.clear_excess_bits in Hins.
  cbn [BitSet.domain_size BitSet.words BitSet.with_words mrow] in Hins.
  assert (length (row_of (BitMatrix.words m) (words_per_row m) r) = n) as Hrl.
  { unfold row_of. rewrite length_take, length_drop. fold n. lia. }
  rewrite Hrl in Hins. unfold clear_excess_bits_in_final_word in *. change WORD_BITS with 64 in *.
  set (mask := wsub 64 _ 1) in *. rewrite length_take, Nat.min_l by lia. rewrite length_replicate in Hins.
  destruct (Z.ltb_spec 0 (BitMatrix.num_columns m `mod` 64)) as [Hmod|Hmod].
  - assert (1 ≤ n)%nat by (pose proof (div_mod_64 (BitMatrix.num_columns m)); unfold dense_domain in Hd; lia).
    unfold index, index_set in *. rewrite lookup_take_lt, Hi, decide_True by lia.
    rewrite lookup_replicate_2 in Hins by lia. cbn [unwrap obind] in *.
    rewrite length_take, Nat.min_l by lia. rewrite length_replicate in Hins.
    rewrite !(proj2 (Nat.ltb_lt _ _)) in * by lia. cbn [rassert obind] in *. injection Hins as <-.
    eexists _, _. split; [done|]. apply and_assoc. split; [|exact He]. apply row_set_lookup; [done|done|..]; fold n.
    + rewrite length_app, length_insert, length_take, length_drop. lia.
    + intros i Hin. rewrite lookup_app_l by (rewrite length_insert, length_take; lia).
      cbn [BitSet.with_words BitSet.words]. destruct (decide (i = n - 1)%nat) as [->|].
      * replace (r * n + (n - 1))%nat with (r * n + n - 1)%nat by lia.
        by rewrite !list_lookup_insert_eq by (rewrite ?length_take, ?length_replicate; lia).
      * rewrite !list_lookup_insert_ne, lookup_take_lt, Hi, decide_True by lia. by rewrite lookup_replicate_2 by lia.
    + intros i Hout. destruct (decide (i < r * n)%nat).
      * rewrite lookup_app_l, list_lookup_insert_ne, lookup_take_lt, Hi, decide_False
          by (rewrite ?length_insert, ?length_take; lia). done.
      * rewrite lookup_app_r, length_insert, length_take, lookup_drop, Nat.min_l, Hi, decide_False
          by (rewrite ?length_insert, ?length_take; lia). f_equal. lia.
  - cbn [obind] in *. injection Hins as <-. rewrite take_drop.
    eexists _, _. split; [done|]. apply and_assoc. split; [|exact He]. apply row_set_lookup; [done|done|done|..]; fold n.
    + intros i Hin. cbn [BitSet.words BitSet.with_words]. rewrite Hi, decide_True, lookup_replicate_2 by lia. done.
    + intros i Hout. by rewrite Hi, decide_False.
Qed.

Lemma new_matrix rows cols : dense_domain cols → Z.of_nat (rows * num_words cols) < 2 ^ 64 →
  wf_bitmatrix (BitMatrix.new rows cols) ∧
  ∀ r x, (r < rows)%nat → ¬ dense_elem (mrow (BitMatrix.new rows cols) r) x.
Proof.
  intros Hd Hlt.
  assert (∀ r, (r < rows)%nat → mrow (BitMatrix.new rows cols) r = BitSet.new_empty cols) as Hrow.
  { intros r Hr. unfold mrow, BitSet.new_empty, words_per_row. cbn [BitMatrix.new BitMatrix.num_columns BitMatrix.words].
    rewrite wrap_small, Nat2Z.id by (unfold is_uint; lia). f_equal. apply list_eq. intros i. rewrite row_of_lookup.
    case_decide.
    - by rewrite !lookup_replicate_2 by nia.
    - rewrite lookup_ge_None_2; [done|]. rewrite length_replicate. lia. }
  destruct (new_empty_dense cols Hd) as [Hw He]. split; [split|].
  - done.
  - unfold words_per_row. cbn [BitMatrix.new BitMatrix.num_columns BitMatrix.words BitMatrix.num_rows].
    by rewrite length_replicate, wrap_small, Nat2Z.id by (unfold is_uint; lia).
  - intros r Hr. rewrite Hrow by done. done.
  - intros r x Hr. rewrite Hrow by done. apply He.
Qed.

Lemma row_subslice m r : wf_bitmatrix m → (r < BitMatrix.num_rows m)%nat →
  subslice (BitMatrix.words m) (r * words_per_row m) (r * words_per_row m + words_per_row m) =
    Ret (BitSet.words (mrow m r)).
Proof.
  intros Hm Hr. pose proof (wfm_length _ Hm). unfold subslice.
  rewrite !(proj2 (Nat.leb_le _ _)) by nia. cbn [andb rassert]. f_equal.
  cbn [mrow BitSet.words]. unfold row_of. by rewrite take_drop_commute.
Qed.

Section MatrixIter.
Context `{Idx}.

Lemma iter_matrix m r : wf_bitmatrix m → (r < BitMatrix.num_rows m)%nat →
  BitMatrix.num_columns m ≤ idx_max + 1 → BitMatrix.iter m r = BitSet.iter (mrow m r).
Proof.
  intros Hm Hr Hmax. unfold BitMatrix.iter, BitMatrix.range. rewrite (proj2 (Nat.ltb_lt _ _)) by done.
  cbn [rassert]. fold (words_per_row m). by rewrite row_subslice.
Qed.

Lemma count_matrix m r : wf_bitmatrix m → (r < BitMatrix.num_rows m)%nat →
  BitMatrix.count m r = Ret (BitSet.count (mrow m r)).
Proof.
  intros Hm Hr. unfold BitMatrix.count, BitMatrix.range. fold (words_per_row m). by rewrite row_subslice.
Qed.

(** The bits of one word, shifted out one at a time *)
Lemma intersect_bits_ret (base w : Z) n : ∀ k result, is_uint 64 w → 0 ≤ k → k + Z.of_nat n = 64 →
  (∀ i, 0 ≤ i → Z.testbit w i = true → base * 64 + i ≤ idx_max) →
  BitMatrix.intersect_bits (seqZ k (Z.of_nat n)) base (Z.shiftr w k) result =
    Ret (result ++ (Z.add (base * 64) <$> filter (λ i, Z.testbit w i = true) (seqZ k (Z.of_nat n)))).
Proof.
  induction n as [|n IH]; intros k result Hw Hk Hn Hmax; [cbn; by rewrite app_nil_r|].
  rewrite seqZ_cons by lia. replace (Z.pred (Z.of_nat (S n))) with (Z.of_nat n) by lia.
  cbn [BitMatrix.intersect_bits]. destruct (Z.eqb_spec (Z.shiftr w k) 0) as [E|E].
  { rewrite filter_none; [by rewrite fmap_nil, app_nil_r|]. intros i Hin Hi.
    assert (Z.testbit (Z.shiftr w k) (i - k) = false) as Hb by (by rewrite E, Z.bits_0).
    assert (k ≤ i) by (apply elem_of_cons in Hin as [->|Hin]; [lia|apply elem_of_seqZ in Hin; lia]).
    rewrite Z.shiftr_spec in Hb by lia. replace (i - k + k) with i in Hb by lia. congruence. }
  assert (negb (Z.land (Z.shiftr w k) 1 =? 0) = Z.testbit w k) as ->.
  { change 1 with (2 ^ 0) at 1. rewrite land_pow2, negb_involutive by lia. by rewrite Z.shiftr_spec, Z.add_0_l by lia. }
  rewrite filter_cons. rewrite Z.shiftr_shiftr by lia. change WORD_BITS with 64.
  destruct (Z.testbit w k) eqn:Hb.
  - unfold idx_new. rewrite (proj2 (Z.leb_le _ _)) by (by apply Hmax). cbn [rassert obind].
    replace (k + 1) with (Z.succ k) by lia. rewrite IH by (done || lia).
    rewrite decide_True by done. rewrite fmap_cons. by rewrite <- app_assoc.
  - cbn [obind]. replace (k + 1) with (Z.succ k) by lia. rewrite IH by (done || lia).
    by rewrite decide_False by done.
Qed.

Lemma intersect_fold m r1 r2 zs : ∀ b acc,
  zs = drop b (zip_with Z.land (BitSet.words (mrow m r1)) (BitSet.words (mrow m r2))) →
  Forall (is_uint 64) zs → Forall (λ x, x ≤ idx_max) (items (64 * Z.of_nat b) zs) →
  (b + length zs = words_per_row m)%nat →
  fold_outcome (λ result base,
       let! a := index (BitMatrix.words m) (r1 * words_per_row m + base) in
       let! b := index (BitMatrix.words m) (r2 * words_per_row m + base) in
       BitMatrix.intersect_bits (seqZ 0 WORD_BITS) (Z.of_nat base) (Z.land a b) result) (seq b (length zs)) acc =
    Ret (acc ++ items (64 * Z.of_nat b) zs).
Proof.
  induction zs as [|z zs IH]; intros b acc Hz Hu Hmax Hl; [cbn; by rewrite app_nil_r|].
  cbn [length seq fold_outcome]. cbn [length] in Hl.
  assert (zip_with Z.land (BitSet.words (mrow m r1)) (BitSet.words (mrow m r2)) !! b = Some z) as Hzb.
  { rewrite <- (Nat.add_0_r b), <- lookup_drop, <- Hz. done. }
  apply lookup_zip_with_Some in Hzb as (x & y & Hxy & Hx & Hy).
  cbn [mrow BitSet.words] in Hx, Hy. rewrite row_of_lookup in Hx, Hy.
  rewrite decide_True in Hx, Hy by lia. unfold index. rewrite Hx, Hy. cbn [unwrap obind]. rewrite <- Hxy.
  rewrite <- (Z.shiftr_0_r z). change WORD_BITS with (Z.of_nat 64). cbn [items] in Hmax |- *.
  apply Forall_inv in Hu as Hzu. apply Forall_inv_tail in Hu. apply Forall_app in Hmax as [Hmax1 Hmax2].
  rewrite intersect_bits_ret; [|done|lia|lia|].
  - cbn [obind]. rewrite (IH (S b)).
    + rewrite <- app_assoc. rewrite (Z.mul_comm (Z.of_nat b)).
      replace (64 * Z.of_nat (S b)) with (64 * Z.of_nat b + 64) by lia. done.
    + rewrite <- Nat.add_1_r, <- drop_drop, <- Hz. done.
    + done.
    + by replace (64 * Z.of_nat (S b)) with (64 * Z.of_nat b + 64) by lia.
    + lia.
  - intros i Hi Hb. rewrite Forall_fmap, list.Forall_forall in Hmax1.
    assert (i < 64).
    { destruct (Z.lt_ge_cases i 64) as [|Hge]; [done|]. by rewrite (is_uint_high 64) in Hb by (done || lia). }
    specialize (Hmax1 i). cbn in Hmax1. rewrite Z.mul_comm. apply Hmax1, elem_ones_of. lia || (split; [lia|done]).
Qed.

(** The columns of both rows in increasing order *)
Lemma intersect_rows_matrix m r1 r2 :
  wf_bitmatrix m → (r1 < BitMatrix.num_rows m)%nat → (r2 < BitMatrix.num_rows m)%nat →
  BitMatrix.num_columns m ≤ idx_max + 1 →
  ∃ l, BitMatrix.intersect_rows m r1 r2 = Ret l ∧ StronglySorted Z.lt l ∧
    ∀ x, x ∈ l ↔ dense_elem (mrow m r1) x ∧ dense_elem (mrow m r2) x.
Proof.
  intros Hm H1 H2 Hmax. unfold BitMatrix.intersect_rows, BitMatrix.range.
  rewrite !(proj2 (Nat.ltb_lt _ _)) by done. cbn [andb rassert]. fold (words_per_row m).
  rewrite (Nat.add_comm (r1 * _)), (Nat.add_comm (r2 * _)), !Nat.add_sub, Nat.min_id.
  destruct (intersect_dense_spec _ _ _ (wfm_row _ Hm _ H1) (wfm_row _ Hm _ H2)) as (s & b & Hint & Hs & He & _).
  destruct (wfm_row _ Hm _ H1) as [Hd1 Hw1]. destruct (wfm_row _ Hm _ H2) as [Hd2 Hw2].
  unfold BitSet.intersect in Hint. rewrite Hd1, Hd2, Z.eqb_refl in Hint. cbn [rassert] in Hint.
  rewrite bitwise_ret in Hint by (by rewrite (wfw_length _ _ Hw1), (wfw_length _ _ Hw2)).
  cbn [obind] in Hint. injection Hint as <- <-. destruct Hs as [_ Hs].
  cbn [BitSet.with_words BitSet.words] in Hs. set (zs := zip_with Z.land _ _) in *.
  assert (length zs = words_per_row m) as Hlz by apply (wfw_length _ _ Hs).
  pose proof (intersect_fold m r1 r2 zs 0 [] eq_refl (wfw_uint _ _ Hs)) as Hfold. rewrite Hlz in Hfold.
  exists (items 0 zs). split; [apply Hfold; [|lia]|split; [apply items_sorted, Hs|]].
  - apply list.Forall_forall. intros x Hx. apply elem_items in Hx as [Hx Hb]; [|apply Hs].
    destruct (Z.lt_ge_cases x (BitMatrix.num_columns m)) as [|Hge]; [lia|].
    rewrite (wfw_excess _ _ Hs) in Hb by lia. done.
  - intros x. rewrite elem_items, Z.sub_0_r by apply Hs. specialize (He x). unfold dense_elem in *.
    cbn [BitSet.words BitSet.with_words] in He. by rewrite He.
Qed.

End MatrixIter.

(** * Sparse matrices *)

Module Sparse := SparseBitMatrix.

Definition wf_sparse_matrix (m : Sparse.t) : Prop :=
  dense_domain (Sparse.num_columns m) ∧
  ∀ r s, Sparse.row m r = Some s → wf_hybrid (Sparse.num_columns m) s.

Definition smem (m : Sparse.t) (r : nat) (x : Z) : Prop :=
  match Sparse.row m r with Some s => hybrid_elem s x | None => False end.

(** [m'] is [m] with row [r] replaced by [s], and perhaps more rows that are not
    instantiated *)
Definition srow_set (m : Sparse.t) (r : nat) (s : HybridBitSet.t) (m' : Sparse.t) : Prop :=
  Sparse.num_columns m' = Sparse.num_columns m ∧
  ∀ r', Sparse.row m' r' = if decide (r' = r) then Some s else Sparse.row m r'.

Lemma srow_set_wf m r s m' :
  wf_sparse_matrix m → wf_hybrid (Sparse.num_columns m) s → srow_set m r s m' → wf_sparse_matrix m'.
Proof.
  intros [Hd Hr] Hs [Hc Hrow]. split; [by rewrite Hc|]. intros r' s'. rewrite Hrow, Hc.
  case_decide; [by intros [= <-]|apply Hr].
Qed.

Lemma srow_insert m r s : (r < length (Sparse.row_sets m))%nat →
  srow_set m r s (Sparse.with_rows m (<[r := Some s]> (Sparse.row_sets m))).
Proof.
  intros Hr. split; [done|]. intros r'. unfold Sparse.row. cbn [Sparse.with_rows Sparse.row_sets].
  case_decide as E; [subst r'; by rewrite list_lookup_insert_eq|by rewrite list_lookup_insert_ne by done].
Qed.

Lemma ensure_row_sparse m r : wf_sparse_matrix m →
  ∃ m' s, Sparse.ensure_row m r = Ret (m', s) ∧ wf_sparse_matrix m' ∧ srow_set m r s m' ∧
    wf_hybrid (Sparse.num_columns m) s ∧ (r < length (Sparse.row_sets m'))%nat ∧
    ∀ x, hybrid_elem s x ↔ smem m r x.
Proof.
  intros Hm. pose proof Hm as [Hd Hw]. unfold Sparse.ensure_row, ensure_contains_elem.
  set (rs := if (length (Sparse.row_sets m) <? r + 1)%nat then _ else _).
  assert ((r < length rs)%nat ∧ ∀ i, Sparse.row (Sparse.with_rows m rs) i = Sparse.row m i) as [Hlen Hrow].
  { unfold rs. destruct (Nat.ltb_spec (length (Sparse.row_sets m)) (r + 1)); [|split; [lia|done]].
    split; [rewrite length_app, length_replicate; lia|]. intros i. unfold Sparse.row. cbn [Sparse.with_rows Sparse.row_sets].
    rewrite lookup_app. destruct (Sparse.row_sets m !! i) as [o|] eqn:E; [done|].
    set (o := replicate _ _ !! _). destruct o as [o'|] eqn:E'; [|done]. by apply lookup_replicate in E' as [-> _]. }
  destruct (lookup_lt_is_Some_2 rs r Hlen) as [o Ho]. unfold index. rewrite Ho. cbn [unwrap obind].
  specialize (Hrow r) as Hr. unfold Sparse.row at 1 in Hr. cbn [Sparse.with_rows Sparse.row_sets] in Hr. rewrite Ho in Hr.
  destruct o as [s|].
  - exists (Sparse.with_rows m rs), s. assert (srow_set m r s (Sparse.with_rows m rs)) as Hset.
    { split; [done|]. intros i. rewrite Hrow. case_decide as E; [subst i; done|done]. }
    split_and!; try done; [by eapply srow_set_wf; eauto|by apply (Hw r)|].
    intros x. unfold smem. by rewrite <- Hr.
  - exists (Sparse.with_rows m (<[r := Some (HybridBitSet.new_empty (Sparse.num_columns m))]> rs)).
    eexists. split; [done|].
    assert (wf_hybrid (Sparse.num_columns m) (HybridBitSet.new_empty (Sparse.num_columns m))) as Hn.
    { split; [done|]. split; cbn; [done|constructor|constructor|lia]. }
    assert (srow_set m r (HybridBitSet.new_empty (Sparse.num_columns m))
      (Sparse.with_rows m (<[r := Some (HybridBitSet.new_empty (Sparse.num_columns m))]> rs))) as Hset.
    { destruct (srow_insert (Sparse.with_rows m rs) r (HybridBitSet.new_empty (Sparse.num_columns m)) Hlen) as [? Hi].
      split; [done|]. intros i. etrans; [apply Hi|]. by rewrite Hrow. }
    split_and!; try done; [by eapply srow_set_wf|cbn; by rewrite length_insert|].
    intros x. unfold smem. rewrite <- Hr. split; [|done]. intros Hx. by apply elem_of_nil in Hx.
Qed.

(** An update of one row is an update of one row of the relation. *)
Definition smem_update (m m' : Sparse.t) (r : nat) (b : bool) (P : Z → Prop) : Prop :=
  wf_sparse_matrix m' ∧ Sparse.num_columns m' = Sparse.num_columns m ∧
  set_update (smem m r) (smem m' r) b P ∧ ∀ r', r' ≠ r → ∀ x, smem m' r' x ↔ smem m r' x.

Lemma smem_update_set m m' r s b (P : Z → Prop) :
  wf_sparse_matrix m → wf_hybrid (Sparse.num_columns m) s → srow_set m r s m' →
  set_update (smem m r) (hybrid_elem s) b P → smem_update m m' r b P.
Proof.
  intros Hm Hs [Hc Hrow] [He Hb]. split_and!; [by eapply srow_set_wf; [| |split]|done| |].
  - split; [|done]. intros y. unfold smem at 1. rewrite Hrow, decide_True by done. apply He.
  - intros r' Hr' x. unfold smem. by rewrite Hrow, decide_False.
Qed.

Lemma set_update_from (E E1 E' : Z → Prop) b P P' :
  (∀ y, E1 y ↔ E y) → (∀ y, P' y ↔ P y) → set_update E1 E' b P' → set_update E E' b P.
Proof.
  intros HE HP [H1 H2]. split; [intros y; by rewrite H1, HP|]. rewrite H2.
  split; intros (y & Hy); exists y; specialize (HE y); specialize (HP y); tauto.
Qed.

Lemma update_row_sparse m r f (P : (Z → Prop) → Z → Prop) :
  wf_sparse_matrix m →
  (∀ E E' y, (∀ y, E y ↔ E' y) → P E y ↔ P E' y) →
  (∀ s, wf_hybrid (Sparse.num_columns m) s →
    ∃ s' b, f s = Ret (s', b) ∧ wf_hybrid (Sparse.num_columns m) s' ∧
      set_update (hybrid_elem s) (hybrid_elem s') b (P (hybrid_elem s))) →
  ∃ m' b, Sparse.update_row m r f = Ret (m', b) ∧ smem_update m m' r b (P (smem m r)).
Proof.
  intros Hm HP Hf. unfold Sparse.update_row.
  destruct (ensure_row_sparse m r Hm) as (m1 & s & -> & Hm1 & [Hc Hrow] & Hs & Hlen & He). cbn [obind].
  destruct (Hf s Hs) as (s' & b & -> & Hs' & Hu). cbn [obind]. eexists _, _. split; [done|].
  apply (smem_update_set m _ r s'); [done|done| |].
  - destruct (srow_insert m1 r s' Hlen) as [? Hi]. split; [by rewrite <- Hc|]. intros i.
    etrans; [apply Hi|]. rewrite Hrow. by repeat case_decide.
  - eapply set_update_from; [apply He| |exact Hu]. intros y. by apply HP.
Qed.

Section SparseOps.
Context `{Idx} {A : ArrayVecApi} {AL : ArrayVecLaws A}.

Lemma insert_sparse_matrix m r c : wf_sparse_matrix m → 0 ≤ c < Sparse.num_columns m →
  ∃ m' b, Sparse.insert m r c = Ret (m', b) ∧ smem_update m m' r b (λ y, smem m r y ∨ y = c).
Proof.
  intros Hm Hc. apply (update_row_sparse m r _ (λ E y, E y ∨ y = c)); [done| |].
  - intros E E' y HE. by rewrite HE.
  - intros s Hs. by apply insert_hybrid.
Qed.

(** A row that was never written has no elements to remove. *)
Lemma remove_sparse_matrix m r c : wf_sparse_matrix m → 0 ≤ c < Sparse.num_columns m →
  ∃ m' b, Sparse.remove m r c = Ret (m', b) ∧ smem_update m m' r b (λ y, smem m r y ∧ y ≠ c).
Proof.
  intros Hm Hc. unfold Sparse.remove, Sparse.on_row.
  assert (smem m r = match Sparse.row m r with Some s => hybrid_elem s | None => λ _, False end) as HE.
  { unfold smem. by destruct (Sparse.row m r). }
  unfold Sparse.row in HE. destruct (Sparse.row_sets m !! r) as [[s|]|] eqn:E.
  - assert (Sparse.row m r = Some s) as Hr by (unfold Sparse.row; by rewrite E).
    destruct (remove_hybrid _ _ c (proj2 Hm _ _ Hr) Hc) as (s' & b & -> & Hs' & Hu). cbn [obind].
    eexists _, _. split; [done|]. apply (smem_update_set _ _ _ s'); [done|done| |by rewrite HE].
    apply srow_insert. by eapply lookup_lt_Some.
  - exists m, false. split; [done|]. split_and!; try done. rewrite HE. split; [tauto|].
    split; [done|]. intros (y & Hy). tauto.
  - exists m, false. split; [done|]. split_and!; try done. rewrite HE. split; [tauto|].
    split; [done|]. intros (y & Hy). tauto.
Qed.

Lemma union_row_sparse m r o :
  wf_sparse_matrix m → 0 < Sparse.num_columns m → wf_hybrid (Sparse.num_columns m) o →
  ∃ m' b, Sparse.union_row m r o = Ret (m', b) ∧ smem_update m m' r b (λ y, smem m r y ∨ hybrid_elem o y).
Proof.
  intros Hm Hp Ho. apply (update_row_sparse m r _ (λ E y, E y ∨ hybrid_elem o y)); [done| |].
  - intros E E' y HE. by rewrite HE.
  - intros s Hs. by apply union_hybrid.
Qed.

Lemma smem_none m r : Sparse.row m r = None → ∀ x, ¬ smem m r x.
Proof. intros E x. unfold smem. rewrite E. tauto. Qed.

Lemma union_rows_sparse m read write : wf_sparse_matrix m → 0 < Sparse.num_columns m →
  ∃ m' b, Sparse.union_rows m read write = Ret (m', b) ∧
    smem_update m m' write b (λ y, smem m write y ∨ smem m read y).
Proof.
  intros Hm Hp. unfold Sparse.union_rows.
  destruct (Nat.eqb_spec read write) as [->|Hne]; cbn [orb].
  { exists m, false. split; [done|]. split_and!; try done. split; [tauto|]. split; [done|]. intros (y & Hy). tauto. }
  destruct (Sparse.row m read) as [o|] eqn:Hread.
  2: { exists m, false. split; [done|]. pose proof (smem_none _ _ Hread) as Hno.
       split_and!; try done. split; [intros y; specialize (Hno y); tauto|]. split; [done|].
       intros (y & Hy). specialize (Hno y). tauto. }
  destruct (ensure_row_sparse m write Hm) as (m1 & s & -> & Hm1 & [Hc Hrow] & Hs & Hlen & He). cbn [obind].
  assert (∀ i t, Sparse.row m1 i = Some t → Sparse.row_sets m1 !! i = Some (Some t)) as Hget.
  { intros i t. unfold Sparse.row. destruct (Sparse.row_sets m1 !! i) as [[?|]|]; [by intros [= ->]|done..]. }
  rewrite (pick2_mut_ret _ read write (Some o) (Some s)); [|done|..]; cycle 1.
  { apply Hget. by rewrite Hrow, decide_False by done. }
  { apply Hget. by rewrite Hrow, decide_True by done. }
  cbn [obind]. destruct (union_hybrid _ s o Hs (proj2 Hm _ _ Hread) Hp) as (s' & b & -> & Hs' & Hu). cbn [obind].
  eexists _, _. split; [done|]. apply (smem_update_set _ _ _ s'); [done|done| |].
  - destruct (srow_insert m1 write s' Hlen) as [? Hi]. split; [by rewrite <- Hc|]. intros i.
    etrans; [apply Hi|]. rewrite Hrow. by repeat case_decide.
  - eapply set_update_from; [apply He| |exact Hu]. intros y. cbn beta.
    assert (smem m read y ↔ hybrid_elem o y) as Ho by (unfold smem; by rewrite Hread). rewrite (He y). tauto.
Qed.

End SparseOps.
