(* ===== verification/IndexClaims.v ===== *)
(** * What rustc_index promises

    The claims on the index sets and matrices, from the lemmas of the types. *)

From stdpp Require Import gmap sorting.
From S2P Require Import Prelude.
From S2P Require Import Slice.
From S2P Require Import IndexSet.
From S2P Require Import Interval.
From S2P Require Import IntervalProps.
From S2P Require Import BitSets.
From S2P Require Import BitSetProps.
From S2P Require Import BitIterProps.
From S2P Require Import HybridProps.
From S2P Require Import ChunkedBitSets.
From S2P Require Import ChunkedProps.
From S2P Require Import ChunkedIterProps.
From S2P Require Import IndexSetInstances.
From S2P Require Import BitMatrices.
From S2P Require Import BitMatrixProps.

(** * One specification for the set types *)

(** C30. Dense, hybrid and chunked bit sets all implement mathematical sets of
    indices: a program that queries, inserts, removes, fills and unites sets in
    registers gets the answers of the same program on mathematical sets (whether an
    index is in, whether a set changed), without a panic, and the registers end with
    the elements of the reference; on dense and on chunked sets over every domain of
    at most [2^64 - 2048] indices, on hybrid sets over those that are not empty.
    Over the empty domain hybrid sets are an exception: filling one set and then
    uniting another, still sparse, with it panics. *)
Theorem index_sets_refine {A : ArrayVecApi} {AL : ArrayVecLaws A} (dom : Z) (n : nat) (cs : list command)
    (gs : list (gset Z)) (bs : list bool) :
  0 ≤ dom ≤ 2 ^ 64 - 2048 → ref_run dom (replicate n ∅) cs = Some (gs, bs) →
  (∃ regs : list BitSet.t, (let! regs := start dom n in run regs cs) = Ret (regs, bs) ∧ Forall2 (sim dom) regs gs) ∧
  (∃ regs : list ChunkedBitSet.t, (let! regs := start dom n in run regs cs) = Ret (regs, bs) ∧ Forall2 (sim dom) regs gs) ∧
  (0 < dom → ∃ regs : list HybridBitSet.t,
     (let! regs := start dom n in run regs cs) = Ret (regs, bs) ∧ Forall2 (sim dom) regs gs) ∧
  (dom = 0 → (let! regs := start dom 2 in run (regs : list HybridBitSet.t) [InsertAll 1; Union 0 1]) = Panic).
Proof.
  intros Hd Hr. split_and!; try intros Hp; [apply run_refines..|by subst]; try done;
    cbn [is_domain bitset_index_set hybrid_index_set chunked_index_set];
    unfold dense_domain, chunked_domain; lia.
Qed.

(** Ten insertions make a hybrid set dense. *)
Definition example_commands : list command :=
  ((λ x, Insert 0 (x * 7)) <$> seqZ 0 10) ++
  [Insert 1 5; Union 1 0; Remove 1 14; Contains 1 14; Contains 1 63; Union 1 0; Union 1 0; InsertAll 0; Remove 0 69].

Definition example_answers : list bool :=
  replicate 10 true ++ [true; true; true; false; true; true; false; true; true].

Lemma index_sets_refine_witness :
  let A := list_array_vec in
  ∃ gs, ref_run 70 (replicate 2 ∅) example_commands = Some (gs, example_answers) ∧
    ∃ regs : list HybridBitSet.t,
      (let! regs := start 70 2 in run regs example_commands) = Ret (regs, example_answers) ∧ Forall2 (sim 70) regs gs.
Proof.
  intros A. eexists. split; [vm_compute; reflexivity|].
  apply (index_sets_refine 70 2 example_commands); [lia|vm_compute; reflexivity|lia].
Defined.

(** * Interval sets *)

(** C31. [IntervalSet::insert_range] keeps the representation canonical: intervals
    sorted, disjoint, not adjacent and inside the domain, so that the
    [check_invariants] of the code always holds and two sets with the same elements
    are the same list; the elements are those of the set and of the range, and the
    answer tells whether there is a new one. *)
Theorem interval_insert_canonical (s : IntervalSet.t) (r : RangeBounds Z) :
  wf_set s → range_ok (IntervalSet.domain s) r →
  ∃ s' grew, IntervalSet.insert_range s r = Ret (s', grew) ∧
    wf_set s' ∧ IntervalSet.check_invariants s' = true ∧
    (∀ x, x ∈ s' ↔ x ∈ s ∨ in_range (IntervalSet.domain s) r x) ∧
    (grew = true ↔ ∃ x, in_range (IntervalSet.domain s) r x ∧ x ∉ s) ∧
    ∀ o, wf_set o → IntervalSet.domain o = IntervalSet.domain s →
      (∀ x, x ∈ o ↔ x ∈ s ∨ in_range (IntervalSet.domain s) r x) → o = s'.
Proof.
  intros Hs Hr. destruct (insert_range_spec s r Hs Hr) as (s' & g & Hi & Hw & Hd & He & Hg).
  exists s', g. split_and!; try done; [by apply wf_check_invariants|]. intros o [_ Ho] Hdo Heo.
  assert (IntervalSet.map o = IntervalSet.map s') as Em.
  { rewrite Hdo in Ho. destruct Hw as [_ Hw]. rewrite Hd in Hw. apply (separated_ext _ _ _ _ _ Ho Hw).
    intros x. change (x ∈ o ↔ x ∈ s'). by rewrite Heo, He. }
  destruct o, s'. cbn in *. congruence.
Qed.

Definition two_intervals : IntervalSet.t := {| IntervalSet.map := [(2, 4); (8, 9)]; IntervalSet.domain := 20 |}.

Lemma two_intervals_wf : wf_set two_intervals.
Proof. apply check_invariants_spec; cbn; [lia|repeat constructor; cbn; lia|reflexivity]. Qed.

Lemma interval_insert_canonical_witness :
  ∃ s' grew, IntervalSet.insert_range two_intervals (range 5 8) = Ret (s', grew) ∧ wf_set s' ∧
    s' = {| IntervalSet.map := [(2, 9)]; IntervalSet.domain := 20 |} ∧ grew = true.
Proof.
  destruct (interval_insert_canonical two_intervals (range 5 8)) as (s' & g & Hi & Hw & _).
  - exact two_intervals_wf.
  - split; cbn; lia.
  - exists s', g. split; [exact Hi|]. split; [exact Hw|]. vm_compute in Hi. injection Hi as <- <-. split; reflexivity.
Defined.

(** The queries of interval sets answer for the elements: [contains],
    [first_unset_in] (the first missing index of a range), [last_set_in] (the last
    element of a range), [superset], and [iter], which lists the elements in order. *)
Theorem interval_queries_correct `{Idx} (s other : IntervalSet.t) (r : RangeBounds Z) (x : Z) :
  wf_set s → wf_set other → IntervalSet.domain s = IntervalSet.domain other → IntervalSet.domain s ≤ idx_max →
  range_ok (IntervalSet.domain s) r → 0 ≤ x < 2 ^ 32 →
  (∃ b, IntervalSet.contains s x = Ret b ∧ (b = true ↔ x ∈ s)) ∧
  (∃ o, IntervalSet.first_unset_in s r = Ret o ∧
    match o with
    | Some x => in_range (IntervalSet.domain s) r x ∧ (x ∉ s) ∧ ∀ y, in_range (IntervalSet.domain s) r y → y < x → y ∈ s
    | None => ∀ y, in_range (IntervalSet.domain s) r y → y ∈ s
    end) ∧
  (∃ o, IntervalSet.last_set_in s r = Ret o ∧
    match o with
    | Some x => in_range (IntervalSet.domain s) r x ∧ x ∈ s ∧ ∀ y, in_range (IntervalSet.domain s) r y → x < y → y ∉ s
    | None => ∀ y, in_range (IntervalSet.domain s) r y → y ∉ s
    end) ∧
  (∃ b, IntervalSet.superset s other = Ret b ∧ (b = true ↔ ∀ x, x ∈ other → x ∈ s)) ∧
  (∃ l, IntervalSet.iter s = Ret l ∧ StronglySorted Z.lt l ∧ ∀ x, x ∈ l ↔ x ∈ s).
Proof.
  intros Hs Ho Hd Hi Hr Hx.
  split_and!; [by apply contains_spec|by apply first_unset_in_spec|by apply last_set_in_spec|by apply superset_spec|by apply iter_spec].
Qed.

Lemma interval_queries_correct_witness :
  let Ix := idx_u32 in
  (∃ b, IntervalSet.superset two_intervals two_intervals = Ret b ∧ (b = true ↔ ∀ x, x ∈ two_intervals → x ∈ two_intervals)) ∧
  IntervalSet.first_unset_in two_intervals (range 2 9) = Ret (Some 5) ∧
  IntervalSet.last_set_in two_intervals (range 2 8) = Ret (Some 4).
Proof.
  intros Ix. split; [|split; reflexivity].
  apply (interval_queries_correct (H := Ix) two_intervals two_intervals (range 2 9) 3).
  - exact two_intervals_wf.
  - exact two_intervals_wf.
  - reflexivity.
  - vm_compute. discriminate.
  - split; cbn; lia.
  - lia.
Defined.

(** * Bit sets *)

(** The operations of [HybridBitSet] with another hybrid set give union,
    difference and intersection of the elements and tell whether there was a
    change, and [superset] decides inclusion, for each of the four combinations of
    sparse and dense sets. *)
Theorem hybrid_operations_correct {Ix : Idx} {A : ArrayVecApi} {AL : ArrayVecLaws A} (dom : Z) (s o : HybridBitSet.t) :
  wf_hybrid dom s → wf_hybrid dom o → 0 < dom ≤ idx_max + 1 →
  (∃ s' b, HybridBitSet.union s o = Ret (s', b) ∧ wf_hybrid dom s' ∧
    set_update (hybrid_elem s) (hybrid_elem s') b (λ y, hybrid_elem s y ∨ hybrid_elem o y)) ∧
  (∃ s' b, HybridBitSet.subtract s o = Ret (s', b) ∧ wf_hybrid dom s' ∧
    set_update (hybrid_elem s) (hybrid_elem s') b (λ y, hybrid_elem s y ∧ ¬ hybrid_elem o y)) ∧
  (∃ s' b, HybridBitSet.intersect s o = Ret (s', b) ∧ wf_hybrid dom s' ∧
    set_update (hybrid_elem s) (hybrid_elem s') b (λ y, hybrid_elem s y ∧ hybrid_elem o y)) ∧
  (∃ b, HybridBitSet.superset s o = Ret b ∧ (b = true ↔ ∀ x, hybrid_elem o x → hybrid_elem s x)).
Proof.
  intros Hs Ho [Hp Hm]. split_and!; [by apply union_hybrid|by apply subtract_hybrid|by apply intersect_hybrid|].
  by apply (superset_hybrid dom).
Qed.

(** Sets over 100 indices *)
Definition sparse_example : HybridBitSet.t :=
  HybridBitSet.Sparse {| SparseBitSet.domain_size := 100; SparseBitSet.elems := [3; 64; 99] |}.
Definition dense_example : HybridBitSet.t := HybridBitSet.Dense (BitSet.new_empty 100).

Lemma examples_wf : wf_hybrid 100 sparse_example ∧ wf_hybrid 100 dense_example.
Proof.
  assert (dense_domain 100) as Hd by (split; lia). split; (split; [done|]).
  - split; cbn; [done|repeat constructor; lia|repeat constructor; lia|vm_compute; lia].
  - cbn. by apply new_empty_dense.
Qed.

Lemma hybrid_operations_correct_witness :
  let A := list_array_vec in let Ix := idx_u32 in
  ∃ s' b, HybridBitSet.subtract sparse_example dense_example = Ret (s', b) ∧ wf_hybrid 100 s' ∧
    set_update (hybrid_elem sparse_example) (hybrid_elem s') b (λ y, hybrid_elem sparse_example y ∧ ¬ hybrid_elem dense_example y).
Proof.
  intros A Ix. destruct (hybrid_operations_correct (A := A) (Ix := Ix) 100 sparse_example dense_example) as (_ & H & _).
  - apply examples_wf.
  - apply examples_wf.
  - split; [lia|vm_compute; discriminate].
  - exact H.
Defined.

(** [HybridBitSet::insert_range] with an open end leaves the last index of the
    domain out when the set stays sparse: [Bound::Unbounded] stands for
    [domain_size() - 1], which is then used as an exclusive end.  The same range on
    the dense set of the same elements contains it. *)
Theorem open_range_misses_last {Ix : Idx} {A : ArrayVecApi} {AL : ArrayVecLaws A} (dom start : Z) (s : SparseBitSet.t) :
  dense_domain dom → wf_sparse dom s → 0 ≤ start < dom → dom ≤ idx_max + 1 →
  Z.of_nat (SparseBitSet.len s) + (dom - 1 - start) < Z.of_nat SPARSE_MAX → ¬ sparse_elem s (dom - 1) →
  let open := {| start_bound := Included start; end_bound := Unbounded |} in
  ∃ s' d d', HybridBitSet.insert_range (HybridBitSet.Sparse s) open = Ret (HybridBitSet.Sparse s') ∧
    ¬ sparse_elem s' (dom - 1) ∧
    SparseBitSet.to_dense s = Ret d ∧ BitSet.insert_range d open = Ret d' ∧ dense_elem d' (dom - 1).
Proof.
  intros Hd Hs Hst Hm Hlen Hno open.
  destruct (open_range_sparse dom s start Hd Hs Hst Hm Hlen) as (s' & Hr & _ & He).
  destruct (to_dense_sparse dom s Hd Hs) as (d & Hdn & Hwd & _).
  destruct (insert_range_dense dom d open Hwd) as (d' & Hr' & _ & He'); [split; cbn; lia|].
  exists s', d, d'. split_and!; try done; [rewrite He; intros [?|?]; [done|lia]|].
  apply He'. right. unfold in_range. cbn. lia.
Qed.

Lemma open_range_misses_last_witness :
  let A := list_array_vec in let Ix := idx_u32 in
  let open := {| start_bound := Included 2; end_bound := Unbounded |} in
  ∃ s' d d', HybridBitSet.insert_range (HybridBitSet.new_empty 5) open = Ret (HybridBitSet.Sparse s') ∧
    ¬ sparse_elem s' 4 ∧
    SparseBitSet.to_dense (SparseBitSet.new_empty 5) = Ret d ∧ BitSet.insert_range d open = Ret d' ∧ dense_elem d' 4.
Proof.
  intros A Ix. apply (open_range_misses_last (A := A) (Ix := Ix) 5 2 (SparseBitSet.new_empty 5)).
  - split; lia.
  - split; cbn; [reflexivity|constructor|constructor|lia].
  - lia.
  - vm_compute. discriminate.
  - vm_compute. reflexivity.
  - intros Hx. apply elem_of_nil in Hx. exact Hx.
Defined.

(** [HybridBitSet::union] panics over an empty domain when the set is sparse
    and the other one dense, although both are empty: [reverse_union_sparse] reads
    the first word, and there is none. *)
Theorem union_empty_domain_panics {A : ArrayVecApi} {AL : ArrayVecLaws A} (s : SparseBitSet.t) (d : BitSet.t) :
  wf_hybrid 0 (HybridBitSet.Sparse s) → wf_hybrid 0 (HybridBitSet.Dense d) →
  HybridBitSet.union (HybridBitSet.Sparse s) (HybridBitSet.Dense d) = Panic.
Proof.
  intros [_ Hs] [_ [Hd Hw]]. assert (BitSet.words d = []) as E by (apply nil_length_inv; by rewrite (wfw_length _ _ Hw)).
  assert (SparseBitSet.elems s = []) as Es.
  { destruct (SparseBitSet.elems s) as [|x l] eqn:El; [done|]. pose proof (wfs_below _ _ Hs) as Hb. rewrite El in Hb.
    apply Forall_inv in Hb. lia. }
  pose proof (wfs_domain _ _ Hs) as Ed. destruct s, d. cbn in *. subst. reflexivity.
Qed.

Lemma union_empty_domain_panics_witness :
  let A := list_array_vec in
  HybridBitSet.union (HybridBitSet.Sparse (SparseBitSet.new_empty 0)) (HybridBitSet.Dense (BitSet.new_empty 0)) = Panic.
Proof.
  intros A. assert (dense_domain 0) as Hd by (split; lia). apply (union_empty_domain_panics (A := A)).
  - split; [exact Hd|]. split; cbn; [reflexivity|constructor|constructor|lia].
  - split; [exact Hd|]. apply new_empty_dense. exact Hd.
Defined.

(** * Chunked iteration *)

(** [ChunkedBitIter::fold], which goes chunk by chunk, gives the items that
    calls of [next] give one by one, from any position that [next] stops at; they
    are the elements from that position on, in order, and the calls of [next]
    come to an end. *)
Theorem chunked_fold_equals_next `{Idx} (dom idx : Z) (s : ChunkedBitSet.t) :
  wf_chunked dom s → dom + 2047 ≤ idx_max → iter_pos dom s idx →
  ∃ l, ChunkedBitSet.fold s idx = Ret l ∧
    ChunkedBitSet.collect_loop (S (Z.to_nat (ChunkedBitSet.domain_size s))) s idx = Ret l ∧
    StronglySorted Z.lt l ∧ ∀ x, x ∈ l ↔ idx ≤ x ∧ chunked_elem s x.
Proof. intros Hs Hm Hp. by apply (fold_next dom s Hs Hm). Qed.

Lemma chunked_fold_equals_next_witness :
  let Ix := idx_u32 in
  ∃ s l, ChunkedBitSet.new 10 false = Ret s ∧ ChunkedBitSet.fold s 0 = Ret l ∧
    ChunkedBitSet.collect_loop (S (Z.to_nat (ChunkedBitSet.domain_size s))) s 0 = Ret l ∧
    StronglySorted Z.lt l ∧ ∀ x, x ∈ l ↔ 0 ≤ x ∧ chunked_elem s x.
Proof.
  intros Ix. assert (chunked_domain 10) as Hd by (split; lia).
  destruct (new_chunked 10 false Hd) as (s & Hn & Hs & _).
  destruct (chunked_fold_equals_next (H := Ix) 10 0 s) as (l & Hl).
  - exact Hs.
  - vm_compute. discriminate.
  - apply iter_pos_start.
  - exists s, l. split; [exact Hn|exact Hl].
Defined.

(** * Matrices *)

Lemma set_update_grown (E E' P : Z → Prop) b : (∀ y, Decision (P y)) →
  set_update E E' b (λ y, E y ∨ P y) → (∀ y, E' y ↔ E y ∨ P y) ∧ (b = true ↔ ∃ y, P y ∧ ¬ E y).
Proof.
  intros HP [He Hb]. split; [done|]. rewrite Hb. split; intros (y & Hy); exists y; [|tauto].
  destruct (HP y); tauto.
Qed.

#[local] Instance smem_dec m r x : Decision (smem m r x).
Proof. unfold smem. destruct (Sparse.row m r); apply _. Defined.

(** [union_rows] of the three matrix types (dense rows, sparse rows, rows of
    intervals): the written row gains the elements of the read row, no other row
    changes, and the answer tells whether the row grew; reading and writing the
    same row, and rows that do not exist yet, included. *)
Theorem matrices_union_rows {Ix : Idx} {A : ArrayVecApi} {AL : ArrayVecLaws A}
    (m : BitMatrix.t) (sm : Sparse.t) (im : Matrix.t) (read write : nat) :
  wf_bitmatrix m → (read < BitMatrix.num_rows m)%nat → (write < BitMatrix.num_rows m)%nat →
  wf_sparse_matrix sm → 0 < Sparse.num_columns sm → wf_matrix im → Matrix.column_size im ≤ idx_max →
  (∃ m' b, BitMatrix.union_rows m read write = Ret (m', b) ∧ wf_bitmatrix m' ∧
    (∀ r x, (r < BitMatrix.num_rows m)%nat →
      dense_elem (mrow m' r) x ↔ dense_elem (mrow m r) x ∨ r = write ∧ dense_elem (mrow m read) x) ∧
    (b = true ↔ ∃ x, dense_elem (mrow m read) x ∧ ¬ dense_elem (mrow m write) x)) ∧
  (∃ m' b, Sparse.union_rows sm read write = Ret (m', b) ∧ wf_sparse_matrix m' ∧
    (∀ r x, smem m' r x ↔ smem sm r x ∨ r = write ∧ smem sm read x) ∧
    (b = true ↔ ∃ x, smem sm read x ∧ ¬ smem sm write x)) ∧
  (∃ m' b, Matrix.union_rows im read write = Ret (m', b) ∧ wf_matrix m' ∧
    (∀ r x, mem m' r x ↔ mem im r x ∨ r = write ∧ mem im read x) ∧
    (b = true ↔ ∃ x, mem im read x ∧ ¬ mem im write x)).
Proof.
  intros Hm Hr Hw Hs Hp Hi Hc. split_and!; [| |by apply union_rows_spec].
  - destruct (union_rows_matrix m read write Hm Hr Hw) as (m' & s & b & Hu & Hw' & Hrow & He & Hb). exists m', b.
    destruct (set_update_grown _ _ _ _ (λ y, _ : Decision (dense_elem (mrow m read) y)) (conj He Hb)) as [He' Hb'].
    split_and!; try done. intros r x _. destruct (decide (r = write)) as [->|Hn].
    + rewrite (rs_row _ _ _ _ Hrow), He'. tauto.
    + rewrite (rs_other _ _ _ _ Hrow) by done. tauto.
  - destruct (union_rows_sparse sm read write Hs Hp) as (m' & b & Hu & Hw' & _ & Hset & Hother). exists m', b.
    destruct (set_update_grown _ _ _ _ _ Hset) as [He' Hb']. split_and!; try done.
    intros r x. destruct (decide (r = write)) as [->|Hn]; [rewrite He'; tauto|rewrite Hother by done; tauto].
Qed.

Lemma matrices_union_rows_witness :
  let A := list_array_vec in let Ix := idx_u32 in
  ∃ m' b, BitMatrix.union_rows (BitMatrix.new 3 70) 1 2 = Ret (m', b) ∧ wf_bitmatrix m' ∧
    Sparse.union_rows (Sparse.new 70) 1 2 = Ret (Sparse.new 70, false).
Proof.
  intros A Ix. assert (dense_domain 70) as Hd by (split; lia).
  destruct (matrices_union_rows (A := A) (Ix := Ix) (BitMatrix.new 3 70) (Sparse.new 70) (Matrix.new 70) 1 2) as ((m' & b & Hu & Hw & _) & _).
  - apply new_matrix; [exact Hd|vm_compute; reflexivity].
  - cbn. lia.
  - cbn. lia.
  - split; [exact Hd|]. intros r s Hr. discriminate Hr.
  - reflexivity.
  - split; [cbn; lia|constructor].
  - vm_compute. discriminate.
  - exists m', b. split; [exact Hu|]. split; [exact Hw|]. reflexivity.
Defined.

(** * Binary search *)

Lemma binary_search_loop_fuel {T} (f : T → comparison) s n m : ∀ size left right r r',
  binary_search_loop n f s size left right = Ret r → binary_search_loop m f s size left right = Ret r' → r = r'.
Proof.
  revert m. induction n as [|n IH]; intros [|m] size left right r r'; cbn [binary_search_loop];
    destruct (left <? right)%nat; try congruence.
  destruct (s !! _) as [x|]; cbn [unwrap obind]; [|congruence]. destruct (f x); [congruence|apply IH..].
Qed.

(** [slice::binary_search_by] terminates in a number of rounds logarithmic in
    the length (any number with [length s < 2 ^ rounds]), and never reads out of
    bounds, whatever the comparison answers; on a slice that is ordered for the
    comparison it finds a match, or the place that has smaller elements before it
    and larger ones after it. *)
Theorem binary_search_correct {T} (s : list T) (f : T → comparison) :
  ∃ r, binary_search_by s f = Ret r ∧
    (∀ rounds, (length s < 2 ^ rounds)%nat → binary_search_loop rounds f s (length s) 0 (length s) = Ret r) ∧
    match r with Ok i => ∃ x, s !! i = Some x ∧ f x = Eq | Err i => (i ≤ length s)%nat end ∧
    (ordered_by f s → ∀ i, r = Err i → Forall (λ x, f x = Lt) (take i s) ∧ Forall (λ x, f x = Gt) (drop i s)).
Proof.
  destruct (binary_search_by_ret s f) as (r & Hr & H). exists r. split_and!; [done| | |].
  - intros rounds Hn. destruct (binary_search_loop_ret f s rounds (length s) 0 (length s)) as (r' & Hr' & _); [lia|lia|done|].
    rewrite Hr'. f_equal. by eapply binary_search_loop_fuel.
  - destruct r; [done|by destruct H].
  - intros Ho i ->. destruct (binary_search_by_ordered s f Ho) as (r' & Hr' & H'). rewrite Hr in Hr'. injection Hr' as <-.
    by destruct H' as (_ & ? & ?).
Qed.

(** * Dense ranges *)

(** The word-level loops of [BitSet]: [insert_range] adds the indices of a
    range, masks of the first and the last word included, [last_set_in] finds the
    last element of a range, [iter] lists the elements in order (and ends), and
    [count] is their number. *)
Theorem dense_ranges_correct {Ix : Idx} (dom : Z) (s : BitSet.t) (r : RangeBounds Z) :
  wf_bitset dom s → bit_range_ok dom r → dom ≤ idx_max + 1 →
  (∃ s', BitSet.insert_range s r = Ret s' ∧ wf_bitset dom s' ∧ ∀ x, dense_elem s' x ↔ dense_elem s x ∨ in_range dom r x) ∧
  (∃ o, BitSet.last_set_in s r = Ret o ∧
    match o with
    | Some x => in_range dom r x ∧ dense_elem s x ∧ ∀ y, in_range dom r y → x < y → ¬ dense_elem s y
    | None => ∀ y, in_range dom r y → ¬ dense_elem s y
    end) ∧
  (∃ l, BitSet.iter s = Ret l ∧ StronglySorted Z.lt l ∧ (∀ x, x ∈ l ↔ dense_elem s x) ∧ BitSet.count s = Z.of_nat (length l)).
Proof.
  intros Hs Hr Hm. split_and!; [by apply insert_range_dense|by apply last_set_in_dense|].
  destruct (iter_dense dom s Hs Hm) as (Hi & Hsort & He). exists (items 0 (BitSet.words s)). split_and!; try done.
  apply count_items. apply Hs.
Qed.

Lemma dense_ranges_correct_witness :
  let Ix := idx_u32 in let r := range_inclusive 60 130 in
  ∃ s', BitSet.insert_range (BitSet.new_empty 200) r = Ret s' ∧ wf_bitset 200 s' ∧
    (∀ x, dense_elem s' x ↔ dense_elem (BitSet.new_empty 200) x ∨ in_range 200 r x) ∧ BitSet.count s' = 71.
Proof.
  intros Ix r. assert (dense_domain 200) as Hd by (split; lia).
  destruct (dense_ranges_correct (Ix := Ix) 200 (BitSet.new_empty 200) r) as ((s' & Hi & Hw & He) & _).
  - apply new_empty_dense. exact Hd.
  - split; cbn; lia.
  - vm_compute. discriminate.
  - exists s'. split; [exact Hi|]. split; [exact Hw|]. split; [exact He|].
    vm_compute in Hi. injection Hi as <-. reflexivity.
Defined.
