(* ===== verification/GraphSearch.v ===== *)
(** * Depth-first search

    The depth-first searches of the compiler differ in how they store what is left
    to do.  This file has the machine that they all run: a stack of nodes with the
    successors not looked at yet, the nodes visited and the nodes finished, in the
    order in which they finish.  Its invariant gives the properties of a postorder;
    the programs are proved to run the machine ([GraphProps], [TraversalProps]). *)

From stdpp Require Import gmap relations.
From S2P Require Import Prelude.

(** [s] comes before [n] in the list. *)
Definition before {A} (s n : A) (l : list A) : Prop := ∃ l1 l2, l = l1 ++ n :: l2 ∧ s ∈ l1.

Lemma before_app {A} (s n : A) l l' : before s n l → before s n (l ++ l').
Proof. intros (l1 & l2 & -> & Hs). exists l1, (l2 ++ l'). by rewrite <- app_assoc. Qed.

Lemma before_last {A} (s n : A) l : s ∈ l → before s n (l ++ [n]).
Proof. intros Hs. by exists l, []. Qed.

Lemma before_elem {A} (s n : A) l : before s n l → s ∈ l ∧ n ∈ l.
Proof. intros (l1 & l2 & -> & Hs). rewrite !elem_of_app, !elem_of_cons. auto. Qed.

Lemma before_index {A} (s n : A) l : NoDup l → before s n l →
  ∃ i j, l !! i = Some s ∧ l !! j = Some n ∧ (i < j)%nat.
Proof.
  intros _ (l1 & l2 & -> & Hs). apply list_elem_of_lookup in Hs as [i Hi]. exists i, (length l1). split_and!.
  - by apply lookup_app_l_Some.
  - by rewrite lookup_app_r, Nat.sub_diag.
  - by apply lookup_lt_Some in Hi.
Qed.

Lemma before_irrefl {A} (n : A) l : NoDup l → ¬ before n n l.
Proof.
  intros Hn Hb. destruct (before_index _ _ _ Hn Hb) as (i & j & Hi & Hj & Hlt).
  pose proof (NoDup_lookup _ _ _ _ Hn Hi Hj). lia.
Qed.

Lemma before_trans {A} (a b c : A) l : NoDup l → before a b l → before b c l → before a c l.
Proof.
  intros Hn Hab (l1 & l2 & E & Hb). destruct (before_index _ _ _ Hn Hab) as (i & j & Hi & Hj & Hlt).
  exists l1, l2. split; [done|]. apply list_elem_of_lookup in Hb as [k Hk].
  assert (l !! k = Some b) as Hk' by (rewrite E; by apply lookup_app_l_Some).
  pose proof (NoDup_lookup _ _ _ _ Hn Hk' Hj) as ->. apply lookup_lt_Some in Hk. subst l.
  rewrite lookup_app_l in Hi by lia. by eapply list_elem_of_lookup_2.
Qed.

Section Dfs.
Context (edge : Z → Z → Prop).

(** Paths that do not enter a node of [avoid] *)
Definition avoiding (avoid : gset Z) : relation Z := λ a b, edge a b ∧ b ∉ avoid.

Record dfs : Type := Dfs { visited : gset Z; stack : list (Z * list Z); finished : list Z }.

(** With [back = false], no successor is looked at that is on the stack. *)
Inductive dfs_step (back : bool) (avoid : gset Z) : dfs → dfs → Prop :=
| Push v n s pend st fin p : s ∉ v → (∀ x, x ∈ p ↔ edge s x) →
    dfs_step back avoid (Dfs v ((n, s :: pend) :: st) fin) (Dfs ({[s]} ∪ v) ((s, p) :: (n, pend) :: st) fin)
| Skip v n s pend st fin : s ∈ v → back = true ∨ s ∈ fin ∨ s ∈ avoid →
    dfs_step back avoid (Dfs v ((n, s :: pend) :: st) fin) (Dfs v ((n, pend) :: st) fin)
| Finish v n st fin :
    dfs_step back avoid (Dfs v ((n, []) :: st) fin) (Dfs v st (fin ++ [n])).

Definition dfs_start (avoid : gset Z) (root : Z) (p : list Z) : dfs := Dfs ({[root]} ∪ avoid) [(root, p)] [].

(** * The invariant *)

Definition nodes (st : list (Z * list Z)) : list Z := st.*1.

(** Each frame is that of a successor of the node below it. *)
Definition chained (st : list (Z * list Z)) : Prop :=
  ∀ st1 n p m q st2, st = st1 ++ (n, p) :: (m, q) :: st2 → edge m n.

(** What is known of a successor [x] of [n], with [above] and [below] on the stack *)
Definition looked_at (back : bool) (avoid : gset Z) (fin above below : list Z) (n x : Z) : Prop :=
  x ∈ avoid ∨ x ∈ fin ∨ x ∈ above ∨ back = true ∧ x ∈ n :: below.

Definition consumed (back : bool) (avoid : gset Z) (fin : list Z) (st : list (Z * list Z)) : Prop :=
  ∀ st1 n p st2, st = st1 ++ (n, p) :: st2 → ∀ x, edge n x →
    x ∈ p ∨ looked_at back avoid fin (nodes st1) (nodes st2) n x.

Record dfs_inv (back : bool) (avoid : gset Z) (root : Z) (s : dfs) : Prop := {
  inv_visited x : x ∈ visited s ↔ x ∈ avoid ∨ x ∈ finished s ∨ x ∈ nodes (stack s);
  inv_nodup : NoDup (nodes (stack s) ++ finished s);
  inv_reached x : x ∈ nodes (stack s) ++ finished s → (x ∉ avoid) ∧ rtc (avoiding avoid) root x;
  inv_pending n p : (n, p) ∈ stack s → ∀ x, x ∈ p → edge n x;
  inv_consumed : consumed back avoid (finished s) (stack s);
  inv_chained : chained (stack s);
  inv_root : list.last (finished s ++ nodes (stack s)) = Some root;
  inv_finished n x : n ∈ finished s → edge n x →
    x ∈ avoid ∨ before x n (finished s) ∨ back = true ∧ x ∈ nodes (stack s) ++ finished s ∧ rtc edge x n;
}.

Lemma chained_tail f st : chained (f :: st) → chained st.
Proof. intros Hc st1 n p m q st2 ->. by apply (Hc (f :: st1) n p m q st2). Qed.

Lemma chained_cons n p st :
  chained st → (∀ m q st2, st = (m, q) :: st2 → edge m n) → chained ((n, p) :: st).
Proof.
  intros Hc Hn [|f st1] a pa b q st2 E; cbn in E.
  - injection E as <- <- ->. by apply (Hn b q st2).
  - injection E as <- ->. by apply (Hc st1 a pa b q st2).
Qed.

(** A frame may lose pending successors. *)
Lemma chained_head n p p' st : chained ((n, p) :: st) → chained ((n, p') :: st).
Proof.
  intros Hc. apply chained_cons; [by eapply chained_tail|]. intros m q st2 ->. by apply (Hc [] n p m q st2).
Qed.

(** A node on the stack reaches the ones above it. *)
Lemma chain_reaches st : ∀ n p x, chained ((n, p) :: st) → x ∈ n :: nodes st → rtc edge x n.
Proof.
  induction st as [|[m q] st IH]; intros n p x Hc Hx.
  { apply list_elem_of_singleton in Hx as ->. apply rtc_refl. }
  apply elem_of_cons in Hx as [->|Hx]; [apply rtc_refl|].
  eapply rtc_r; [|by apply (Hc [] n p m q st)]. apply (IH m q); [by eapply chained_tail|done].
Qed.

Lemma consumed_cons back avoid fin n p st :
  (∀ x, edge n x → x ∈ p ∨ looked_at back avoid fin [] (nodes st) n x) →
  (∀ st1 m q st2, st = st1 ++ (m, q) :: st2 → ∀ x, edge m x →
    x ∈ q ∨ looked_at back avoid fin (n :: nodes st1) (nodes st2) m x) →
  consumed back avoid fin ((n, p) :: st).
Proof.
  intros Hn Hst [|f st1] m q st2 E x Hx; cbn in E.
  - injection E as <- <- ->. by apply Hn.
  - injection E as <- ->. by apply (Hst st1).
Qed.

Lemma start_inv back avoid root p : root ∉ avoid → (∀ x, x ∈ p ↔ edge root x) →
  dfs_inv back avoid root (dfs_start avoid root p).
Proof.
  intros Hr Hp. split; cbn.
  - intros x. rewrite elem_of_union, elem_of_singleton, elem_of_nil, list_elem_of_singleton. tauto.
  - apply NoDup_singleton.
  - intros x ->%list_elem_of_singleton. split; [done|apply rtc_refl].
  - intros n q [= -> ->]%list_elem_of_singleton x Hx. by apply Hp.
  - apply consumed_cons; [intros x Hx; left; by apply Hp|]. by intros [|? ?] ? ? ? ?.
  - by intros [|? [|? ?]] ? ? ? ? ? ?.
  - done.
  - intros n x Hn. by apply elem_of_nil in Hn.
Qed.

Ltac mem :=
  unfold looked_at, nodes in *; cbn in *;
  rewrite ?elem_of_union, ?elem_of_singleton, ?elem_of_app, ?elem_of_cons, ?elem_of_app, ?elem_of_nil in *; tauto.

Lemma push_inv back avoid root v n s pend st fin p : s ∉ v → (∀ x, x ∈ p ↔ edge s x) →
  dfs_inv back avoid root (Dfs v ((n, s :: pend) :: st) fin) →
  dfs_inv back avoid root (Dfs ({[s]} ∪ v) ((s, p) :: (n, pend) :: st) fin).
Proof.
  intros Hs Hp [Hv Hnd Hre Hpe Hco Hch Hro Hfi]. cbn in *.
  assert (edge n s) as Hedge by (apply (Hpe n (s :: pend)); left).
  assert (¬ (s ∈ avoid ∨ s ∈ fin ∨ s ∈ n :: nodes st)) as Hnew by (by rewrite <- Hv).
  split; cbn.
  - intros x. rewrite elem_of_union, elem_of_singleton, Hv. mem.
  - apply list.NoDup_cons. split; [clear Hre|done]. mem.
  - intros x [->|Hx]%elem_of_cons; [|by apply Hre]. split; [tauto|].
    eapply rtc_r; [apply (Hre n); left|split; tauto].
  - intros m q [[= -> ->]|[[= -> ->]|Hin]%elem_of_cons]%elem_of_cons x Hx; [by apply Hp| |].
    + apply (Hpe n (s :: pend)); [left|by right].
    + apply (Hpe m q); [by right|done].
  - apply consumed_cons; [intros x Hx; left; by apply Hp|].
    intros [|f st1] m q st2 E x Hx; cbn in E.
    + injection E as <- <- <-. destruct (Hco [] n (s :: pend) st eq_refl x Hx) as [[->|]%elem_of_cons|Hl]; [|by left|].
      * right. right. right. left. left.
      * right. clear Hre Hv Hfi. mem.
    + injection E as <- ->. destruct (Hco ((n, s :: pend) :: st1) m q st2 eq_refl x Hx) as [|Hl]; [by left|].
      right. clear Hre Hv Hfi. mem.
  - apply chained_cons; [by eapply chained_head|]. by intros m q st2 [= <- <- <-].
  - rewrite list.last_app in Hro |- *. cbn in *. done.
  - intros m x Hm Hx. destruct (Hfi m x Hm Hx) as [?|[?|(? & ? & ?)]]; [by left|by right; left|].
    right. right. split_and!; [done|by right|done].
Qed.

Lemma skip_inv back avoid root v n s pend st fin : s ∈ v → back = true ∨ s ∈ fin ∨ s ∈ avoid →
  dfs_inv back avoid root (Dfs v ((n, s :: pend) :: st) fin) →
  dfs_inv back avoid root (Dfs v ((n, pend) :: st) fin).
Proof.
  intros Hs Hok [Hv Hnd Hre Hpe Hco Hch Hro Hfi]. cbn in *. split; cbn; try done.
  - intros m q [[= -> ->]|Hin]%elem_of_cons x Hx; [apply (Hpe n (s :: pend)); [left|by right]|].
    apply (Hpe m q); [by right|done].
  - apply consumed_cons.
    + intros x Hx. destruct (Hco [] n (s :: pend) st eq_refl x Hx) as [[->|]%elem_of_cons|]; [|by left|by right].
      right. apply Hv in Hs. clear Hre Hv Hfi Hpe. mem.
    + intros st1 m q st2 -> x Hx. by apply (Hco ((n, s :: pend) :: st1) m q st2).
  - by eapply chained_head.
Qed.

Lemma finish_inv back avoid root v n st fin :
  dfs_inv back avoid root (Dfs v ((n, []) :: st) fin) → dfs_inv back avoid root (Dfs v st (fin ++ [n])).
Proof.
  intros [Hv Hnd Hre Hpe Hco Hch Hro Hfi]. cbn in *. split; cbn.
  - intros x. rewrite Hv. clear Hre Hv Hfi Hpe. mem.
  - revert Hnd. apply NoDup_Permutation_proper. cbn. solve_Permutation.
  - intros x Hx. apply Hre. clear Hre Hv Hfi Hpe. mem.
  - intros m q Hin. apply (Hpe m q). by right.
  - intros st1 m q st2 -> x Hx. destruct (Hco ((n, []) :: st1) m q st2 eq_refl x Hx) as [|Hl]; [by left|].
    right. clear Hre Hv Hfi Hpe. mem.
  - by eapply chained_tail.
  - by rewrite <- app_assoc.
  - intros m x [Hm| ->%list_elem_of_singleton]%elem_of_app Hx.
    + destruct (Hfi m x Hm Hx) as [?|[?|(? & Hin & ?)]]; [by left|right; left; by apply before_app|].
      right. right. split_and!; [done| |done]. clear Hre Hv Hfi Hpe. mem.
    + destruct (Hco [] n [] st eq_refl x Hx) as [Hn|[?|[?|[Hn|[Hb Hl]]]]].
      * by apply elem_of_nil in Hn.
      * by left.
      * right. left. by apply before_last.
      * by apply elem_of_nil in Hn.
      * right. right. split_and!; [done| |by eapply chain_reaches]. clear Hre Hv Hfi Hpe. mem.
Qed.

Lemma step_inv back avoid root s s' : dfs_step back avoid s s' → dfs_inv back avoid root s → dfs_inv back avoid root s'.
Proof. intros [] ?; [by apply push_inv|by eapply skip_inv|by apply finish_inv]. Qed.

Lemma run_inv back avoid root s s' : rtc (dfs_step back avoid) s s' → dfs_inv back avoid root s → dfs_inv back avoid root s'.
Proof. induction 1; eauto using step_inv. Qed.

(** * Postorders *)

(** [l] has the nodes that are reached from [root], each after its successors
    unless the edge closes a cycle. *)
Record postorder_of (back : bool) (avoid : gset Z) (root : Z) (l : list Z) : Prop := {
  po_nodup : NoDup l;
  po_nodes x : x ∈ l ↔ rtc (avoiding avoid) root x;
  po_last : list.last l = Some root;
  po_order n x : n ∈ l → edge n x → x ∈ avoid ∨ before x n l ∨ back = true ∧ rtc edge x n;
}.

Lemma finished_postorder back avoid root v l : dfs_inv back avoid root (Dfs v [] l) → postorder_of back avoid root l.
Proof.
  intros [Hv Hnd Hre Hpe Hco Hch Hro Hfi]. cbn in *. rewrite app_nil_r in Hro. split; [done| |done|].
  - intros x. split; [intros Hx; by apply Hre|]. intros Hx.
    assert (root ∈ l) as Hroot by (by apply last_Some_elem_of). clear Hro Hre. revert Hroot.
    induction Hx as [|y z x [Hyz Hz] _ IH]; intros Hy; [done|]. apply IH.
    destruct (Hfi y z Hy Hyz) as [?|[Hb|(_ & Hr & _)]]; [done|exact (proj1 (before_elem _ _ _ Hb))|done].
  - intros n x Hn Hx. destruct (Hfi n x Hn Hx) as [?|[?|(? & ? & ?)]]; tauto.
Qed.

(** Without cycles, a postorder is a reverse topological order. *)
Lemma postorder_topological back root l : postorder_of back ∅ root l →
  (∀ x, rtc edge root x → ¬ tc edge x x) → ∀ n x, n ∈ l → edge n x → before x n l.
Proof.
  intros Hp Hac n x Hn Hx. destruct (po_order _ _ _ _ Hp n x Hn Hx) as [?|[?|[_ Hr]]]; [set_solver|done|].
  destruct (Hac n).
  - apply (po_nodes _ _ _ _ Hp) in Hn. eapply rtc_subrel; [|done]. by intros ? ? [? _].
  - by eapply tc_rtc_r; [apply tc_once|].
Qed.

(** A search that meets no node on its stack has seen no cycle. *)
Lemma postorder_acyclic root l : postorder_of false ∅ root l → ∀ x, rtc edge root x → ¬ tc edge x x.
Proof.
  intros Hp x Hx Hc. assert (∀ y, tc edge x y → before y x l) as Hb.
  { intros y Hy. assert (x ∈ l) as Hxl.
    { apply (po_nodes _ _ _ _ Hp). eapply rtc_subrel; [|done]. intros ? ? ?. split; [done|set_solver]. }
    clear Hx Hc. induction Hy as [x y Hxy|x z y Hxz _ IH].
    - destruct (po_order _ _ _ _ Hp x y Hxl Hxy) as [?|[?|[? _]]]; [set_solver|done|done].
    - destruct (po_order _ _ _ _ Hp x z Hxl Hxz) as [?|[Hzx|[? _]]]; [set_solver| |done].
      apply before_trans with z; [apply Hp|apply IH; exact (proj1 (before_elem _ _ _ Hzx))|done]. }
  apply (before_irrefl x l); [apply Hp|auto].
Qed.

End Dfs.
