(* ===== verification/Graph.v ===== *)
(** * Graphs and their traversals

    [compiler/rustc_data_structures/src/graph/mod.rs] and [graph/iterate/mod.rs]:
    the traits of directed graphs, the postorder walk, the depth-first search and
    the search with three colours, which looks for cycles.  A stack is a list with
    its top first. *)

From S2P Require Import Prelude.
From S2P Require Import Slice.
From S2P Require Import BitSets.

(** [WithNumNodes], [WithSuccessors] and [WithStartNode]; a graph may panic on a
    node that it does not have. *)
Class WithNumNodes (G : Type) : Type := { num_nodes : G → Z }.
Class WithSuccessors (G : Type) : Type := { successors : G → Z → outcome (list Z) }.
Class WithStartNode (G : Type) : Type := { start_node : G → Z }.

Section Iterate.
Context {G : Type} `{WithNumNodes G} `{WithSuccessors G}.

(** The bounds of the loops below: nodes, and edges *)
Definition node_count (g : G) : nat := Z.to_nat (num_nodes g).
Definition edge_count (g : G) : nat :=
  sum_list_with (λ n, match successors g n with Ret l => length l | Panic => 0%nat end) (seqZ 0 (num_nodes g)).

(** ** Postorder *)

(** The inner loop of [post_order_walk]: the first successor that is not visited,
    and the iterator behind it *)
Fixpoint next_successor (visited : list bool) (iter : list Z) : outcome (option (Z * list Z)) :=
  match iter with
  | [] => Ret None
  | successor :: iter =>
      let! v := index visited (Z.to_nat successor) in
      if v then next_successor visited iter else Ret (Some (successor, iter))
  end.

(** ['recurse: while let Some(frame) = stack.last_mut()] *)
Fixpoint post_order_loop (fuel : nat) (g : G) (stack : list (Z * list Z)) (result : list Z) (visited : list bool)
    : outcome (list Z) :=
  match fuel with
  | O => Panic
  | S fuel =>
      match stack with
      | [] => Ret result
      | (node, iter) :: stack =>
          let! visited := index_set visited (Z.to_nat node) true in
          let! next := next_successor visited iter in
          match next with
          | Some (successor, iter) =>
              let! succs := successors g successor in
              post_order_loop fuel g ((successor, succs) :: (node, iter) :: stack) result visited
          | None => post_order_loop fuel g stack (result ++ [node]) visited
          end
      end
  end.

(** A node is pushed and popped at most once. *)
Definition post_order_walk (g : G) (node : Z) (result : list Z) (visited : list bool) : outcome (list Z) :=
  let! v := index visited (Z.to_nat node) in
  if v then Ret result
  else
    let! succs := successors g node in
    post_order_loop (S (2 * node_count g)) g [(node, succs)] result visited.

Definition post_order_from_to (g : G) (start_node : Z) (end_node : option Z) : outcome (list Z) :=
  let visited := replicate (node_count g) false in
  let! visited :=
    match end_node with Some end_node => index_set visited (Z.to_nat end_node) true | None => Ret visited end in
  post_order_walk g start_node [] visited.

Definition post_order_from (g : G) (start_node : Z) : outcome (list Z) := post_order_from_to g start_node None.

Definition reverse_post_order (g : G) (start_node : Z) : outcome (list Z) :=
  let! vec := post_order_from g start_node in Ret (reverse vec).

(** ** Depth-first search *)

Record DepthFirstSearch : Type := { dfs_stack : list Z; dfs_visited : BitSet.t }.

Definition dfs_new (g : G) : DepthFirstSearch := {| dfs_stack := []; dfs_visited := BitSet.new_empty (num_nodes g) |}.

Definition push_start_node (d : DepthFirstSearch) (start_node : Z) : outcome DepthFirstSearch :=
  let! (v, fresh) := BitSet.insert (dfs_visited d) start_node in
  Ret {| dfs_stack := if fresh then start_node :: dfs_stack d else dfs_stack d; dfs_visited := v |}.

Definition with_start_node (d : DepthFirstSearch) (start_node : Z) : outcome DepthFirstSearch := push_start_node d start_node.

(** [stack.extend(successors.filter(|&m| visited.insert(m)))] *)
Definition extend_unvisited (d : DepthFirstSearch) (succs : list Z) : outcome DepthFirstSearch :=
  fold_outcome push_start_node succs d.

Definition dfs_next (g : G) (d : DepthFirstSearch) : outcome (DepthFirstSearch * option Z) :=
  match dfs_stack d with
  | [] => Ret (d, None)
  | n :: stack =>
      let! succs := successors g n in
      let! d := extend_unvisited {| dfs_stack := stack; dfs_visited := dfs_visited d |} succs in
      Ret (d, Some n)
  end.

(** The nodes that [next] yields until it ends *)
Fixpoint dfs_collect (fuel : nat) (g : G) (d : DepthFirstSearch) : outcome (DepthFirstSearch * list Z) :=
  match fuel with
  | O => Panic
  | S fuel =>
      let! (d, o) := dfs_next g d in
      match o with
      | None => Ret (d, [])
      | Some n => let! (d, l) := dfs_collect fuel g d in Ret (d, n :: l)
      end
  end.

Definition complete_search (g : G) (d : DepthFirstSearch) : outcome DepthFirstSearch :=
  let! (d, _) := dfs_collect (S (node_count g)) g d in Ret d.

Definition is_visited (d : DepthFirstSearch) (node : Z) : outcome bool := BitSet.contains (dfs_visited d) node.

(** [WithSuccessors::depth_first_search] *)
Definition depth_first_search (g : G) (from : Z) : outcome DepthFirstSearch := with_start_node (dfs_new g) from.

(** ** The search with three colours *)

Inductive NodeStatus : Type := Visited | Settled.

Record Event : Type := { node : Z; becomes : NodeStatus }.

(** [TriColorVisitor]: the methods with the state of the visitor; [Some] is
    [ControlFlow::Break]. *)
Record TriColorVisitor (S B : Type) : Type := {
  node_examined : S → Z → option NodeStatus → S * option B;
  node_settled : S → Z → S * option B;
  ignore_edge : S → Z → Z → S * bool;
}.
Arguments node_examined {S B}.
Arguments node_settled {S B}.
Arguments ignore_edge {S B}.

Section TriColor.
Context {S B : Type} (visitor : TriColorVisitor S B).

Definition push_successors (v : S) (n : Z) (succs : list Z) (stack : list Event) : S * list Event :=
  fold_left (λ '(v, stack) succ,
    let (v, ignore) := ignore_edge visitor v n succ in
    (v, if ignore then stack else {| node := succ; becomes := Visited |} :: stack)) succs (v, stack).

(** One event, taken from the stack *)
Definition handle_event (g : G) (v : S) (e : Event) (stack : list Event) (visited settled : BitSet.t)
    : outcome (S * list Event * BitSet.t * BitSet.t * option B) :=
  match becomes e with
  | Settled =>
      let! (settled, not_previously_settled) := BitSet.insert settled (node e) in
      rassert not_previously_settled
        (let (v, val) := node_settled visitor v (node e) in Ret (v, stack, visited, settled, val))
  | Visited =>
      let! (visited, not_previously_visited) := BitSet.insert visited (node e) in
      let! prior_status :=
        if not_previously_visited then Ret None
        else let! s := BitSet.contains settled (node e) in Ret (Some (if s then Settled else Visited)) in
      let (v, val) := node_examined visitor v (node e) prior_status in
      match val, prior_status with
      | Some val, _ => Ret (v, stack, visited, settled, Some val)
      | None, Some _ => Ret (v, stack, visited, settled, None)
      | None, None =>
          let! succs := successors g (node e) in
          let (v, stack) := push_successors v (node e) succs ({| node := node e; becomes := Settled |} :: stack) in
          Ret (v, stack, visited, settled, None)
      end
  end.

Fixpoint run_loop (fuel : nat) (g : G) (v : S) (stack : list Event) (visited settled : BitSet.t) : outcome (S * option B) :=
  match fuel with
  | O => Panic
  | Datatypes.S fuel =>
      match stack with
      | [] => Ret (v, None)
      | e :: stack =>
          let! (v, stack, visited, settled, val) := handle_event g v e stack visited settled in
          match val with
          | Some val => Ret (v, Some val)
          | None => run_loop fuel g v stack visited settled
          end
      end
  end.

(** An event for the root, at most one for each edge and one [Settled] event for
    each node, and the last round that finds the stack empty *)
Definition run_from (g : G) (root : Z) (v : S) : outcome (S * option B) :=
  run_loop (2 + node_count g + edge_count g) g v [{| node := root; becomes := Visited |}]
    (BitSet.new_empty (num_nodes g)) (BitSet.new_empty (num_nodes g)).

Definition run_from_start `{WithStartNode G} (g : G) (v : S) : outcome (S * option B) := run_from g (start_node g) v.

End TriColor.

Definition CycleDetector : TriColorVisitor unit unit := {|
  node_examined _ _ prior_status := match prior_status with Some Visited => (tt, Some tt) | _ => (tt, None) end;
  node_settled _ _ := (tt, None);
  ignore_edge _ _ _ := (tt, false);
|}.

Definition is_cyclic `{WithStartNode G} (g : G) : outcome bool :=
  let! (_, r) := run_from_start CycleDetector g tt in Ret (match r with Some _ => true | None => false end).

End Iterate.
