(* ===== verification/GraphProps.v ===== *)
(** * The traversals of graphs

    [post_order_from_to] gives a postorder, [DepthFirstSearch] visits what can be
    reached, and [is_cyclic] finds a cycle exactly when one can be reached from the
    start node; all of them end.  The postorder walk and the search with three
    colours run the machine of [GraphSearch]. *)

From stdpp Require Import gmap relations.
From S2P Require Import Prelude.
From S2P Require Import Slice.
From S2P Require Import IndexSet.
From S2P Require Import BitSets.
From S2P Require Import BitSetProps.
From S2P Require Import HybridProps.
From S2P Require Import GraphSearch.
From S2P Require Import Graph.

Section Props.
Context {G : Type} {HN : WithNumNodes G} {HS : WithSuccessors G}.

Definition edge (g : G) (a b : Z) : Prop := ∃ l, successors g a = Ret l ∧ b ∈ l.

Definition is_node (g : G) (n : Z) : Prop := 0 ≤ n < num_nodes g.

(** Every node has successors, and they are nodes. *)
Definition wf_graph (g : G) : Prop :=
  dense_domain (num_nodes g) ∧
  ∀ n, is_node g n → ∃ l, successors g n = Ret l ∧ Forall (is_node g) l.

Lemma edge_of g n l : successors g n = Ret l → ∀ x, x ∈ l ↔ edge g n x.
Proof. intros Hl x. unfold edge. split; [eauto|]. intros (l' & Hl' & ?). congruence. Qed.

Lemma edge_node g a b : wf_graph g → is_node g a → edge g a b → is_node g b.
Proof.
  intros [_ Hg] Ha (l & Hl & Hb). destruct (Hg a Ha) as (l' & Hl' & Hf). rewrite Hl in Hl'. injection Hl' as <-.
  by eapply list.Forall_forall.
Qed.

Lemma reached_node g a b : wf_graph g → is_node g a → rtc (edge g) a b → is_node g b.
Proof. intros Hg Ha Hr. induction Hr as [|a c b Hac _ IH]; [done|]. apply IH. by eapply edge_node. Qed.

(** The nodes that are not in [v] *)
Definition unvisited (g : G) (v : gset Z) : nat := length (filter (λ x, x ∉ v) (seqZ 0 (num_nodes g))).

Lemma unvisited_add g v x : is_node g x → x ∉ v → (unvisited g ({[x]} ∪ v) < unvisited g v)%nat.
Proof.
  intros Hx Hv. apply (filter_length_lt _ _ _ x); [set_solver|apply elem_of_seqZ; unfold is_node in Hx; lia|done|set_solver].
Qed.

Lemma unvisited_le g v : (unvisited g v ≤ node_count g)%nat.
Proof. unfold unvisited, node_count. etrans; [apply length_filter|]. by rewrite length_seqZ. Qed.

(** ** Postorder *)

Definition flagged (g : G) (v : gset Z) (flags : list bool) : Prop :=
  length flags = node_count g ∧ ∀ x, is_node g x → flags !! Z.to_nat x = Some (bool_decide (x ∈ v)).

Lemma flagged_set g v flags x : flagged g v flags → is_node g x →
  ∃ flags', index_set flags (Z.to_nat x) true = Ret flags' ∧ flagged g ({[x]} ∪ v) flags'.
Proof.
  intros [Hl Hf] Hx. unfold index_set. unfold is_node, node_count in *. rewrite (proj2 (Nat.ltb_lt _ _)) by lia.
  eexists. split; [done|]. split; [by rewrite length_insert|]. intros y Hy. destruct (decide (y = x)) as [->|Hne].
  - rewrite list_lookup_insert_eq by lia. f_equal. symmetry. apply bool_decide_eq_true, elem_of_union. left. by apply elem_of_singleton.
  - rewrite list_lookup_insert_ne by (unfold is_node in *; lia). rewrite Hf by done. f_equal. apply bool_decide_ext. rewrite elem_of_union, elem_of_singleton. tauto.
Qed.

(** The inner loop skips the visited successors. *)
Lemma next_successor_steps g v flags n st fin avoid : ∀ iter, flagged g v flags → Forall (is_node g) iter →
  ∃ o, next_successor flags iter = Ret o ∧
    match o with
    | Some (s, rest) => is_node g s ∧ (s ∉ v) ∧ Forall (is_node g) rest ∧
        rtc (dfs_step (edge g) true avoid) (Dfs v ((n, iter) :: st) fin) (Dfs v ((n, s :: rest) :: st) fin)
    | None => rtc (dfs_step (edge g) true avoid) (Dfs v ((n, iter) :: st) fin) (Dfs v ((n, []) :: st) fin)
    end.
Proof.
  induction iter as [|s iter IH]; intros Hf Hn; cbn [next_successor].
  { exists None. split; [done|apply rtc_refl]. }
  pose proof (Forall_inv Hn) as Hs. apply Forall_inv_tail in Hn.
  unfold index. rewrite (proj2 Hf s Hs). cbn [unwrap obind]. case_bool_decide as Hv.
  - destruct (IH Hf Hn) as (o & -> & Ho). exists o. split; [done|]. destruct o as [[s' rest]|].
    + destruct Ho as (? & ? & ? & ?). split_and!; try done. eapply rtc_l; [apply Skip; auto|done].
    + eapply rtc_l; [apply Skip; auto|done].
  - exists (Some (s, iter)). split; [done|]. split_and!; try done.
Qed.

(** The frames: their nodes and pending successors are nodes. *)
Definition frames_ok (g : G) (st : list (Z * list Z)) : Prop := Forall (λ f, is_node g f.1 ∧ Forall (is_node g) f.2) st.

Lemma post_order_loop_runs g avoid : wf_graph g → ∀ fuel st fin v flags,
  frames_ok g st → flagged g v flags → (∀ x, x ∈ nodes (tail st) → x ∈ v) →
  let v' := match st with [] => v | (n, _) :: _ => {[n]} ∪ v end in
  (2 * unvisited g v' + length st < fuel)%nat →
  ∃ l w, post_order_loop fuel g st fin flags = Ret l ∧ rtc (dfs_step (edge g) true avoid) (Dfs v' st fin) (Dfs w [] l).
Proof.
  intros Hg. induction fuel as [|fuel IH]; intros st fin v flags Hst Hf Htl v' Hm; [lia|]. cbn [post_order_loop].
  destruct st as [|[n iter] st]; [exists fin, v; split; [done|apply rtc_refl]|]. cbn in v'.
  pose proof (Forall_inv Hst) as [Hn Hit]. apply Forall_inv_tail in Hst. cbn in Hn, Hit.
  destruct (flagged_set g v flags n Hf Hn) as (flags' & -> & Hf'). cbn [obind]. fold v' in Hf'.
  destruct (next_successor_steps g v' flags' n st fin avoid iter Hf' Hit) as (o & -> & Ho). cbn [obind].
  destruct o as [[s rest]|].
  - destruct Ho as (Hs & Hsv & Hrest & Hrun). destruct (proj2 Hg s Hs) as (succs & Esucc & Hsuccs).
    rewrite Esucc. cbn [obind]. pose proof (unvisited_add g v' s Hs Hsv).
    destruct (IH ((s, succs) :: (n, rest) :: st) fin v' flags') as (l & w & -> & Hrun').
    + constructor; [by split|]. constructor; [by split|done].
    + done.
    + cbn. intros x [->|Hx]%elem_of_cons; apply elem_of_union; [left; by apply elem_of_singleton|right; by apply Htl].
    + cbn in *. lia.
    + exists l, w. split; [done|]. etrans; [exact Hrun|]. eapply rtc_l; [|exact Hrun'].
      apply Push; [done|by apply edge_of].
  - assert (match st with [] => v' | (m, _) :: _ => {[m]} ∪ v' end = v') as Ev.
    { destruct st as [|[m q] st]; [done|]. apply subseteq_union_1_L, singleton_subseteq_l, elem_of_union_r, Htl. left. }
    destruct (IH st (fin ++ [n]) v' flags' Hst Hf') as (l & w & -> & Hrun').
    + intros x Hx. apply elem_of_union_r, Htl. cbn. destruct st; [done|by right].
    + cbn zeta. rewrite Ev. cbn in *. lia.
    + exists l, w. split; [done|]. etrans; [exact Ho|]. eapply rtc_l; [apply Finish|]. by rewrite Ev in Hrun'.
Qed.

Lemma flagged_none g : flagged g ∅ (replicate (node_count g) false).
Proof.
  split; [by rewrite length_replicate|]. intros x Hx. rewrite lookup_replicate_2 by (unfold is_node, node_count in *; lia).
  by rewrite bool_decide_eq_false_2 by set_solver.
Qed.

Definition avoided (end_node : option Z) : gset Z := match end_node with Some e => {[e]} | None => ∅ end.

(** The end node is not entered; a walk that starts there is empty. *)
Lemma post_order_spec g root end_node : wf_graph g → is_node g root → (∀ e, end_node = Some e → is_node g e) →
  ∃ l, post_order_from_to g root end_node = Ret l ∧
    if decide (end_node = Some root) then l = [] else postorder_of (edge g) true (avoided end_node) root l.
Proof.
  intros Hg Hr He. unfold post_order_from_to.
  assert (∃ flags, match end_node with
                   | Some e => index_set (replicate (node_count g) false) (Z.to_nat e) true
                   | None => Ret (replicate (node_count g) false)
                   end = Ret flags ∧ flagged g (avoided end_node) flags) as (flags & -> & Hf).
  { destruct end_node as [e|]; cbn.
    - destruct (flagged_set g ∅ _ e (flagged_none g) (He e eq_refl)) as (flags & -> & Hf). exists flags.
      by rewrite union_empty_r_L in Hf.
    - eexists. split; [done|apply flagged_none]. }
  cbn [obind]. unfold post_order_walk, index. rewrite (proj2 Hf root Hr). cbn [unwrap obind].
  assert (root ∈ avoided end_node ↔ end_node = Some root) as Hin.
  { destruct end_node as [e|]; cbn; [rewrite elem_of_singleton; split; congruence|set_solver]. }
  case_bool_decide as Hv.
  { exists []. split; [done|]. by rewrite decide_True by tauto. }
  destruct (proj2 Hg root Hr) as (succs & Es & Hs). rewrite Es. cbn [obind].
  destruct (post_order_loop_runs g (avoided end_node) Hg (S (2 * node_count g)) [(root, succs)] [] (avoided end_node) flags)
    as (l & w & -> & Hrun).
  - constructor; [by split|constructor].
  - done.
  - intros x Hx. by apply elem_of_nil in Hx.
  - pose proof (unvisited_add g (avoided end_node) root Hr Hv). pose proof (unvisited_le g (avoided end_node)). cbn in *. lia.
  - exists l. split; [done|]. rewrite decide_False by tauto.
    eapply finished_postorder, run_inv; [exact Hrun|]. apply start_inv; [done|by apply edge_of].
Qed.

(** ** Depth-first search *)

Definition holds (g : G) (v : gset Z) (s : BitSet.t) : Prop :=
  wf_bitset (num_nodes g) s ∧ ∀ x, dense_elem s x ↔ x ∈ v.

Lemma holds_empty g : wf_graph g → holds g ∅ (BitSet.new_empty (num_nodes g)).
Proof.
  intros [Hd _]. destruct (new_empty_dense _ Hd) as [Hw He]. split; [done|]. intros x. split; [|set_solver].
  intros Hx. by apply He in Hx.
Qed.

Lemma holds_insert g v s x : holds g v s → is_node g x →
  ∃ s', BitSet.insert s x = Ret (s', bool_decide (x ∉ v)) ∧ holds g ({[x]} ∪ v) s'.
Proof.
  intros [Hw He] Hx. destruct (insert_dense _ _ _ Hw Hx) as (s' & b & -> & Hw' & He' & Hb). exists s'. split.
  - do 2 f_equal. apply eq_true_iff_eq. rewrite Hb, bool_decide_eq_true, <- He. split.
    + intros (y & Hy) Hin. destruct (decide (y = x)) as [->|]; tauto.
    + intros Hno. exists x. tauto.
  - split; [done|]. intros y. rewrite He', He, elem_of_union, elem_of_singleton. tauto.
Qed.

Lemma holds_contains g v s x : holds g v s → is_node g x → BitSet.contains s x = Ret (bool_decide (x ∈ v)).
Proof.
  intros [Hw He] Hx. rewrite (contains_dense _ _ _ Hw Hx). f_equal. apply eq_true_iff_eq.
  rewrite bool_decide_eq_true, <- He. unfold dense_elem. unfold is_node in Hx. split; [intros; split; [lia|done]|tauto].
Qed.

(** The nodes that are new go onto the stack, and the potential does not grow. *)
Lemma extend_spec g v : ∀ succs st s, holds g v s → Forall (is_node g) succs →
  ∃ new v' s', extend_unvisited {| dfs_stack := st; dfs_visited := s |} succs =
      Ret {| dfs_stack := new ++ st; dfs_visited := s' |} ∧
    holds g v' s' ∧ NoDup new ∧ (∀ x, x ∈ new ↔ x ∈ succs ∧ x ∉ v) ∧ (∀ x, x ∈ v' ↔ x ∈ v ∨ x ∈ succs) ∧
    (unvisited g v' + length new ≤ unvisited g v)%nat.
Proof.
  intros succs. revert v. induction succs as [|x succs IH]; intros v st s Hs Hn.
  { exists [], v, s. split_and!; try done; [constructor| | |cbn; lia]; intros y; rewrite elem_of_nil; tauto. }
  pose proof (Forall_inv Hn) as Hx. apply Forall_inv_tail in Hn. unfold extend_unvisited. cbn [fold_outcome].
  unfold push_start_node at 1. cbn [dfs_visited dfs_stack].
  destruct (holds_insert g v s x Hs Hx) as (s1 & -> & Hs1). cbn [obind].
  destruct (IH ({[x]} ∪ v) (if bool_decide (x ∉ v) then x :: st else st) s1 Hs1 Hn) as (new & v' & s' & Hr & Hh & Hnd & Hne & Hv' & Hu).
  unfold extend_unvisited in Hr. rewrite Hr. clear Hr IH. setoid_rewrite elem_of_union in Hne. setoid_rewrite elem_of_union in Hv'.
  setoid_rewrite elem_of_singleton in Hne. setoid_rewrite elem_of_singleton in Hv'.
  case_bool_decide as Hxv.
  - exists (new ++ [x]), v', s'. rewrite <- app_assoc. split_and!; try done.
    + apply list.NoDup_app. split_and!; [done| |apply NoDup_singleton]. intros y Hy%Hne ->%list_elem_of_singleton. tauto.
    + intros y. rewrite elem_of_app, list_elem_of_singleton, elem_of_cons, Hne.
      destruct (decide (y = x)) as [->|]; tauto.
    + intros y. rewrite Hv', elem_of_cons. tauto.
    + pose proof (unvisited_add g v x Hx Hxv). rewrite length_app. cbn. lia.
  - exists new, v', s'. split_and!; try done.
    + intros y. rewrite Hne, elem_of_cons. destruct (decide (y = x)) as [->|]; tauto.
    + intros y. rewrite Hv', elem_of_cons. tauto.
    + replace ({[x]} ∪ v) with v in Hu by (symmetry; apply subseteq_union_1_L; by apply singleton_subseteq_l). done.
Qed.

Record dfs_result (g : G) (st : list Z) (v v' : gset Z) (l : list Z) : Prop := {
  dr_nodup : NoDup l;
  dr_elem x : x ∈ l ↔ x ∈ st ∨ (x ∈ v' ∧ x ∉ v);
  dr_sub : v ⊆ v';
  dr_closed x y : x ∈ l → edge g x y → y ∈ v';
  dr_reached x : x ∈ l → ∃ y, y ∈ st ∧ rtc (edge g) y x;
}.

Lemma dfs_collect_spec g : wf_graph g → ∀ fuel st v s, holds g v s → NoDup st → Forall (is_node g) st →
  (∀ x, x ∈ st → x ∈ v) → (unvisited g v + length st < fuel)%nat →
  ∃ s' v' l, dfs_collect fuel g {| dfs_stack := st; dfs_visited := s |} = Ret ({| dfs_stack := []; dfs_visited := s' |}, l) ∧
    holds g v' s' ∧ dfs_result g st v v' l.
Proof.
  intros Hg. induction fuel as [|fuel IH]; intros st v s Hs Hnd Hst Hin Hf; [lia|]. cbn [dfs_collect].
  unfold dfs_next. cbn [dfs_stack dfs_visited]. destruct st as [|n st].
  { exists s, v, []. split; [done|]. split; [done|]. split; [constructor| |done| |].
    - intros x. rewrite !elem_of_nil. tauto.
    - intros x y Hx. by apply elem_of_nil in Hx.
    - intros x Hx. by apply elem_of_nil in Hx. }
  pose proof (Forall_inv Hst) as Hn. apply Forall_inv_tail in Hst. apply list.NoDup_cons in Hnd as [Hnst Hnd].
  destruct (proj2 Hg n Hn) as (succs & Es & Hsuccs). rewrite Es. cbn [obind].
  destruct (extend_spec g v succs st s Hs Hsuccs) as (new & v1 & s1 & -> & Hs1 & Hnd1 & Hne & Hv1 & Hu). cbn [obind].
  destruct (IH (new ++ st) v1 s1 Hs1) as (s' & v' & l & -> & Hs' & [Hl He Hsub Hcl Hre]).
  - apply list.NoDup_app. split_and!; [done| |done]. intros x Hx%Hne Hx'. apply Hx, Hin. by right.
  - apply Forall_app. split; [|done]. apply list.Forall_forall. intros x Hx%Hne. eapply list.Forall_forall; [exact Hsuccs|tauto].
  - intros x [Hx%Hne|Hx]%elem_of_app; apply Hv1; [tauto|]. left. apply Hin. by right.
  - rewrite length_app. cbn in Hf. lia.
  - cbn [obind]. exists s', v', (n :: l). split; [done|]. split; [done|].
    assert (n ∈ v) as Hnv by (apply Hin; left).
    assert (∀ x, x ∈ succs → x ∈ v') as Hsucc' by (intros x Hx; apply Hsub, Hv1; by right).
    split.
    + apply list.NoDup_cons. split; [|done]. rewrite He, elem_of_app, Hne, Hv1. tauto.
    + intros x. rewrite !elem_of_cons, He, elem_of_app, Hne, Hv1.
      pose proof (Hsucc' x). destruct (decide (x ∈ succs)); tauto.
    + intros x Hx. apply Hsub, Hv1. by left.
    + intros x y [->|Hx]%elem_of_cons Hxy; [|by eapply Hcl]. apply Hsucc'. by eapply edge_of.
    + intros x [->|Hx]%elem_of_cons; [exists n; split; [left|apply rtc_refl]|].
      destruct (Hre x Hx) as (y & [Hy%Hne|Hy]%elem_of_app & Hyx).
      * exists n. split; [left|]. eapply rtc_l; [|done]. eapply edge_of; [done|tauto].
      * exists y. split; [by right|done].
Qed.

(** A complete search from one node visits what can be reached from it. *)
Lemma depth_first_spec g root : wf_graph g → is_node g root →
  ∃ d s l, depth_first_search g root = Ret d ∧
    dfs_collect (S (node_count g)) g d = Ret ({| dfs_stack := []; dfs_visited := s |}, l) ∧
    NoDup l ∧ (∀ x, x ∈ l ↔ rtc (edge g) root x) ∧ wf_bitset (num_nodes g) s ∧
    ∀ x, dense_elem s x ↔ rtc (edge g) root x.
Proof.
  intros Hg Hr. unfold depth_first_search, with_start_node, push_start_node, dfs_new. cbn [dfs_visited dfs_stack].
  destruct (holds_insert g ∅ _ root (holds_empty g Hg) Hr) as (s0 & -> & Hs0). cbn [obind].
  rewrite bool_decide_eq_true_2 by set_solver. eexists.
  destruct (dfs_collect_spec g Hg (S (node_count g)) [root] ({[root]} ∪ ∅) s0 Hs0) as (s & v & l & Hc & Hs & [Hl He Hsub Hcl Hre]).
  - apply NoDup_singleton.
  - by constructor.
  - intros x ->%list_elem_of_singleton. set_solver.
  - pose proof (unvisited_add g ∅ root Hr ltac:(set_solver)). pose proof (unvisited_le g ∅). cbn. lia.
  - exists s, l. split; [done|]. split; [exact Hc|].
    assert (∀ x, x ∈ v ↔ x ∈ l) as Hvl.
    { intros x. rewrite He, list_elem_of_singleton. split; [|intros [->|[? _]]; [apply Hsub, elem_of_union_l; by apply elem_of_singleton|done]].
      intros Hx. destruct (decide (x = root)); [by left|right]. split; [done|].
      by intros [?%elem_of_singleton|?%elem_of_empty]%elem_of_union. }
    assert (∀ x, x ∈ l ↔ rtc (edge g) root x) as Hreach.
    { intros x. split; [intros Hx; destruct (Hre x Hx) as (y & ->%list_elem_of_singleton & ?); done|].
      intros Hx. assert (root ∈ l) as Hroot by (apply He; left; by apply list_elem_of_singleton).
      clear Hre Hc Hs0. revert Hroot. clear Hr He Hsub. induction Hx as [|a b x Hab _ IH]; [done|]. intros Ha. apply IH, Hvl. by eapply Hcl. }
    destruct Hs as [Hw Hs]. split_and!; try done. intros x. by rewrite Hs, Hvl.
Qed.

(** ** Cycles *)

Definition visit (x : Z) : Event := {| node := x; becomes := Visited |}.

(** The events that stand for the frames of the machine *)
Definition events (st : list (Z * list Z)) : list Event :=
  st ≫= λ f, (visit <$> f.2) ++ [{| node := f.1; becomes := Settled |}].

Lemma length_events n p st : length (events ((n, p) :: st)) = (S (length p) + length (events st))%nat.
Proof. unfold events. cbn [mbind list_bind fst snd]. rewrite !length_app, length_fmap. cbn. lia. Qed.

Lemma push_successors_detector n succs : ∀ stack,
  push_successors CycleDetector tt n succs stack = (tt, (visit <$> reverse succs) ++ stack).
Proof.
  unfold push_successors. induction succs as [|s succs IH]; intros stack; [done|]. cbn [fold_left CycleDetector ignore_edge].
  rewrite IH, reverse_cons, fmap_app, <- app_assoc. done.
Qed.

(** The events that are still to come: the ones on the stack, and what the nodes
    not visited yet will add *)
Definition node_events (g : G) (n : Z) : nat := match successors g n with Ret l => S (length l) | Panic => 1 end.

(** A weight of the nodes that are not visited yet *)
Definition unseen (f : Z → nat) (g : G) (v : gset Z) : nat := sum_list_with f (filter (λ x, x ∉ v) (seqZ 0 (num_nodes g))).

Lemma unseen_filter_le (f : Z → nat) (v : gset Z) (x : Z) (l : list Z) :
  (sum_list_with f (filter (λ z, z ∉ {[x]} ∪ v) l) ≤ sum_list_with f (filter (λ z, z ∉ v) l))%nat.
Proof.
  induction l as [|z l IH]; [done|]. rewrite !filter_cons. destruct (decide (z ∉ {[x]} ∪ v)) as [Hz|Hz].
  - rewrite decide_True by (intros ?; by apply Hz, elem_of_union_r). cbn. lia.
  - case_decide; cbn; lia.
Qed.

Lemma unseen_add f g v x : is_node g x → x ∉ v → (unseen f g ({[x]} ∪ v) + f x ≤ unseen f g v)%nat.
Proof.
  intros Hx Hv. unfold unseen. assert (x ∈ seqZ 0 (num_nodes g)) as Hin by (apply elem_of_seqZ; unfold is_node in Hx; lia).
  revert Hin. induction (seqZ 0 (num_nodes g)) as [|y l IH]; intros Hin; [by apply elem_of_nil in Hin|]. rewrite !filter_cons.
  pose proof (unseen_filter_le f v x l) as Hle. destruct (decide (y = x)) as [->|Hne].
  - rewrite decide_False by (intros Hn; by apply Hn, elem_of_union_l, elem_of_singleton). rewrite decide_True by done. cbn. lia.
  - apply elem_of_cons in Hin as [?|Hin]; [congruence|]. specialize (IH Hin).
    assert (y ∉ {[x]} ∪ v ↔ y ∉ v) as Hiff by (rewrite elem_of_union, elem_of_singleton; tauto).
    destruct (decide (y ∉ v)); [rewrite decide_True by tauto|rewrite decide_False by tauto]; cbn; lia.
Qed.

Definition to_come (g : G) : gset Z → nat := unseen (node_events g) g.

Lemma to_come_all g : (to_come g ∅ ≤ node_count g + edge_count g)%nat.
Proof.
  unfold to_come, unseen, node_count, edge_count. rewrite filter_all by (apply list.Forall_forall; set_solver).
  rewrite <- (length_seqZ 0). induction (seqZ 0 (num_nodes g)) as [|x l IH]; [done|]. cbn. unfold node_events at 1.
  destruct (successors g x); lia.
Qed.

(** The loop with [CycleDetector] runs the machine until it meets a node on the
    stack. *)
Lemma run_loop_runs g root : wf_graph g → ∀ fuel v st fin vs ss,
  dfs_inv (edge g) false ∅ root (Dfs v st fin) → frames_ok g st → holds g v vs → holds g (list_to_set fin) ss →
  (length (events st) + to_come g v < fuel)%nat →
  ∃ r, run_loop CycleDetector fuel g tt (events st) vs ss = Ret (tt, r) ∧
    match r with
    | Some _ => ∃ x, rtc (edge g) root x ∧ tc (edge g) x x
    | None => ∃ w l, rtc (dfs_step (edge g) false ∅) (Dfs v st fin) (Dfs w [] l)
    end.
Proof.
  intros Hg. induction fuel as [|fuel IH]; intros v st fin vs ss Hi Hst Hv Hf Hm; [lia|]. cbn [run_loop].
  destruct st as [|[n pend] st]; [exists None; split; [done|]; exists v, fin; apply rtc_refl|].
  pose proof (Forall_inv Hst) as [Hn Hp]. cbn in Hn, Hp. pose proof (Forall_inv_tail Hst) as Hst'.
  destruct pend as [|x pend].
  - change (events ((n, []) :: st)) with ({| node := n; becomes := Settled |} :: events st) in *. cbn [handle_event becomes node].
    destruct (holds_insert g (list_to_set fin) ss n Hf Hn) as (ss' & -> & Hf'). cbn [obind].
    assert (n ∉ fin) as Hnf.
    { pose proof (inv_nodup _ _ _ _ _ Hi) as Hnd. cbn in Hnd. apply list.NoDup_cons in Hnd as [Hnd _].
      intros Hin. apply Hnd, elem_of_app. by right. }
    rewrite bool_decide_eq_true_2 by (by rewrite elem_of_list_to_set). cbn [rassert obind CycleDetector node_settled].
    destruct (IH v st (fin ++ [n]) vs ss') as (r & -> & Hr).
    + by apply finish_inv.
    + done.
    + done.
    + by rewrite list_to_set_app_L, list_to_set_singleton_L, (comm_L (∪)).
    + cbn in Hm. lia.
    + exists r. split; [done|]. destruct r; [done|]. destruct Hr as (w & l & Hr). exists w, l.
      eapply rtc_l; [apply Finish|done].
  - change (events ((n, x :: pend) :: st)) with (visit x :: events ((n, pend) :: st)) in *. cbn [handle_event becomes node visit].
    pose proof (Forall_inv Hp) as Hx. apply Forall_inv_tail in Hp.
    destruct (holds_insert g v vs x Hv Hx) as (vs' & -> & Hv'). cbn [obind].
    case_bool_decide as Hxv.
    + cbn [obind CycleDetector node_examined]. destruct (proj2 Hg x Hx) as (succs & Es & Hsuccs). rewrite Es. cbn [obind].
      rewrite push_successors_detector. cbn [obind].
      change ((visit <$> reverse succs) ++ {| node := x; becomes := Settled |} :: events ((n, pend) :: st))
        with ((visit <$> reverse succs) ++ [{| node := x; becomes := Settled |}] ++ events ((n, pend) :: st)). rewrite app_assoc.
      assert (∀ y, y ∈ reverse succs ↔ edge g x y) as Hedge.
      { intros y. rewrite elem_of_reverse. by apply edge_of. }
      destruct (IH ({[x]} ∪ v) ((x, reverse succs) :: (n, pend) :: st) fin vs' ss) as (r & Hr & Hres).
      * by apply push_inv.
      * constructor; [split; [done|by apply Forall_reverse]|]. by constructor.
      * done.
      * done.
      * pose proof (unseen_add (node_events g) g v x Hx Hxv) as Hadd. fold (to_come g) in Hadd. unfold node_events in Hadd. rewrite Es in Hadd.
        rewrite (length_events x), length_reverse. cbn [length] in Hm. lia.
      * exists r. split; [exact Hr|]. destruct r; [done|]. destruct Hres as (w & l & Hrun). exists w, l.
        eapply rtc_l; [by apply Push|done].
    + assert ({[x]} ∪ v = v) as Ev by (apply subseteq_union_1_L; by apply singleton_subseteq_l).
      rewrite Ev in Hv'. rewrite (holds_contains g (list_to_set fin) ss x Hf Hx). cbn [obind].
      case_bool_decide as Hxf; cbn [obind CycleDetector node_examined].
      * apply elem_of_list_to_set in Hxf. destruct (IH v ((n, pend) :: st) fin vs' ss) as (r & -> & Hr).
        -- eapply skip_inv; [exact Hxv| |done]. auto.
        -- by constructor.
        -- done.
        -- done.
        -- cbn [length] in Hm. lia.
        -- exists r. split; [done|]. destruct r; [done|]. destruct Hr as (w & l & Hr). exists w, l.
           eapply rtc_l; [|done]. apply Skip; auto.
      * exists (Some tt). split; [done|]. rewrite elem_of_list_to_set in Hxf.
        destruct (proj1 (inv_visited _ _ _ _ _ Hi x) Hxv) as [?|[?|Hin]]; [set_solver|done|]. cbn in Hin.
        assert (edge g n x) as Hnx by (eapply (inv_pending _ _ _ _ _ Hi); left).
        exists x. split.
        -- destruct (inv_reached _ _ _ _ _ Hi x) as [_ Hr]; [by apply elem_of_app; left|].
           eapply rtc_subrel; [|done]. by intros ? ? [? _].
        -- eapply tc_rtc_l; [by eapply chain_reaches; [apply (inv_chained _ _ _ _ _ Hi)|]|by apply tc_once].
Qed.

(** [is_cyclic] is exact. *)
Lemma is_cyclic_spec `{WithStartNode G} g : wf_graph g → is_node g (start_node g) →
  ∃ b, is_cyclic g = Ret b ∧ (b = true ↔ ∃ x, rtc (edge g) (start_node g) x ∧ tc (edge g) x x).
Proof.
  intros Hg Hr. unfold is_cyclic, run_from_start, run_from. set (root := start_node g) in *.
  destruct (proj2 Hg root Hr) as (succs & Es & Hsuccs).
  assert (∀ y, y ∈ reverse succs ↔ edge g root y) as Hedge by (intros y; rewrite elem_of_reverse; by apply edge_of).
  set (fuel := S (node_count g + edge_count g)). change (2 + node_count g + edge_count g)%nat with (S fuel).
  cbn [run_loop handle_event becomes node visit].
  destruct (holds_insert g ∅ _ root (holds_empty g Hg) Hr) as (vs & -> & Hvs). cbn [obind].
  rewrite bool_decide_eq_true_2 by set_solver. cbn [obind CycleDetector node_examined]. rewrite Es. cbn [obind].
  rewrite push_successors_detector. cbn [obind].
  destruct (run_loop_runs g root Hg fuel ({[root]} ∪ ∅) [(root, reverse succs)] [] vs
    (BitSet.new_empty (num_nodes g))) as (r & Hrun & Hres).
  - apply start_inv; [set_solver|done].
  - constructor; [split; [done|by apply Forall_reverse]|constructor].
  - done.
  - by apply holds_empty.
  - pose proof (unseen_add (node_events g) g ∅ root Hr ltac:(set_solver)) as Hadd. pose proof (to_come_all g) as Hall.
    fold (to_come g) in Hadd.
    unfold node_events in Hadd. rewrite Es in Hadd. rewrite length_events, length_reverse. unfold fuel. cbn. lia.
  - unfold events in Hrun. cbn [mbind list_bind] in Hrun. rewrite app_nil_r in Hrun. cbn [fst snd] in Hrun. rewrite Hrun. cbn [obind].
    eexists. split; [done|]. destruct r as [u|]; [done|]. split; [done|]. intros (x & Hx & Hc). destruct Hres as (w & l & Hres).
    destruct (postorder_acyclic (edge g) root l) with x; [|done|done].
    eapply finished_postorder, run_inv; [exact Hres|]. apply start_inv; [set_solver|done].
Qed.
End Props.

(** [post_order_from_to] of a graph returns the nodes that can be reached from
    the start node without entering the end node, each once and the start node
    last; a successor of a node comes before it unless it leads back to the node.
    [reverse_post_order] is the reverse of the walk without an end node.  A
    complete [DepthFirstSearch] yields what can be reached, each node once, and has
    visited exactly that. *)
Theorem graph_searches_correct {G : Type} `{WithNumNodes G} `{WithSuccessors G} (g : G) (root end_ : Z) :
  wf_graph g → is_node g root → is_node g end_ → end_ ≠ root →
  (∃ l, post_order_from_to g root (Some end_) = Ret l ∧ postorder_of (edge g) true {[end_]} root l) ∧
  (∃ l, reverse_post_order g root = Ret (reverse l) ∧ postorder_of (edge g) true ∅ root l) ∧
  ∃ d s l, depth_first_search g root = Ret d ∧
    dfs_collect (S (node_count g)) g d = Ret ({| dfs_stack := []; dfs_visited := s |}, l) ∧
    NoDup l ∧ (∀ x, x ∈ l ↔ rtc (edge g) root x) ∧ ∀ x, dense_elem s x ↔ rtc (edge g) root x.
Proof.
  intros Hg Hr He Hne. split_and!.
  - destruct (post_order_spec g root (Some end_)) as (l & Hl & Hpo); [done|done|by intros ? [= <-]|].
    rewrite decide_False in Hpo by congruence. by exists l.
  - destruct (post_order_spec g root None) as (l & Hl & Hpo); [done|done|done|]. exists l.
    unfold reverse_post_order, post_order_from. rewrite Hl. done.
  - destruct (depth_first_spec g root Hg Hr) as (d & s & l & Hd & Hc & Hnd & Hl & _ & Hs). by exists d, s, l.
Qed.

(** [is_cyclic] ends on every graph and finds a cycle exactly when a node that
    can be reached from the start node can reach itself. *)
Theorem is_cyclic_exact {G : Type} `{WithNumNodes G} `{WithSuccessors G} `{WithStartNode G} (g : G) :
  wf_graph g → is_node g (start_node g) →
  ∃ b, is_cyclic g = Ret b ∧ (b = true ↔ ∃ x, rtc (edge g) (start_node g) x ∧ tc (edge g) x x).
Proof. apply is_cyclic_spec. Qed.

(** Graphs as lists of successors *)
#[local] Instance list_num_nodes : WithNumNodes (list (list Z)) := {| num_nodes g := Z.of_nat (length g) |}.
#[local] Instance list_successors : WithSuccessors (list (list Z)) := {| successors g n := index g (Z.to_nat n) |}.
#[local] Instance list_start_node : WithStartNode (list (list Z)) := {| start_node _ := 0 |}.

Lemma list_graph_wf (g : list (list Z)) : dense_domain (Z.of_nat (length g)) →
  Forall (Forall (λ x, 0 ≤ x < Z.of_nat (length g))) g → wf_graph g.
Proof.
  intros Hd Hg. split; [done|]. intros n Hn. unfold is_node in Hn. cbn in Hn. cbn. unfold index.
  destruct (lookup_lt_is_Some_2 g (Z.to_nat n)) as [l Hl]; [lia|]. rewrite Hl. exists l. split; [done|].
  by apply (Forall_lookup_1 _ _ _ _ Hg Hl).
Qed.

Lemma graph_searches_correct_witness :
  (∃ l, post_order_from_to [[1; 2]; [3]; [3; 0]; [4]; []] 0 (Some 3) = Ret l ∧ l = [1; 2; 0]) ∧
  ∃ l, reverse_post_order [[1; 2]; [3]; [3; 0]; [4]; []] 0 = Ret (reverse l) ∧ l = [4; 3; 1; 2; 0].
Proof.
  destruct (graph_searches_correct [[1; 2]; [3]; [3; 0]; [4]; []] 0 3) as ((l & Hl & _) & (l' & Hl' & _) & _).
  - apply list_graph_wf; [split; vm_compute; congruence|]. repeat constructor; cbn; lia.
  - split; cbn; lia.
  - split; cbn; lia.
  - lia.
  - split; [exists l; split; [exact Hl|vm_compute in Hl; congruence]|]. exists l'. split; [exact Hl'|].
    apply (inj reverse). vm_compute in Hl'. injection Hl' as Hl'. vm_compute. by symmetry.
Defined.

Lemma is_cyclic_exact_witness :
  (∃ b, is_cyclic [[1; 2]; [3]; [3; 0]; [4]; []] = Ret b ∧ b = true) ∧
  ∃ b, is_cyclic [[1; 2]; [3]; [3]; [4]; []] = Ret b ∧ b = false.
Proof.
  destruct (is_cyclic_exact [[1; 2]; [3]; [3; 0]; [4]; []]) as (b & Hb & _).
  - apply list_graph_wf; [split; vm_compute; congruence|]. repeat constructor; cbn; lia.
  - split; cbn; lia.
  - split; [exists b; split; [exact Hb|vm_compute in Hb; congruence]|]. eexists. split; [vm_compute; reflexivity|reflexivity].
Defined.
