(* ===== verification/Mir.v ===== *)
(** * The control-flow graph of MIR

    [compiler/rustc_middle/src/mir]: terminators with their successors and edges
    ([syntax.rs], [terminator.rs]), the blocks of a body with the caches of their
    graph ([basic_blocks.rs]) and the traversals ([traversal.rs]).  Statements,
    places and operands are parameters; of a terminator the parts are kept that
    control flow and dataflow read.  A cache is the function that fills it. *)

From stdpp Require Import gmap.
From S2P Require Import Prelude.
From S2P Require Import Slice.
From S2P Require Import BitSets.
From S2P Require Import Graph.

(** * Terminators *)

Inductive UnwindAction : Type := UnwindContinue | UnwindUnreachable | UnwindTerminate | Cleanup (bb : Z).

(** [SwitchTargets]: the values, and their targets with the fallback at the end *)
Record SwitchTargets : Type := { values : list Z; all_targets : list Z }.

Definition switch_new (targets : list (Z * Z)) (otherwise : Z) : SwitchTargets :=
  {| values := targets.*1; all_targets := targets.*2 ++ [otherwise] |}.

Definition static_if (value then_ else_ : Z) : SwitchTargets :=
  {| values := [value]; all_targets := [then_; else_] |}.

Definition otherwise (t : SwitchTargets) : outcome Z := unwrap (list.last (all_targets t)).

Definition targets_iter (t : SwitchTargets) : list (Z * Z) := zip (values t) (all_targets t).

Fixpoint find_target (l : list (Z * Z)) (value : Z) : option Z :=
  match l with
  | [] => None
  | (v, t) :: l => if v =? value then Some t else find_target l value
  end.

Definition target_for_value (t : SwitchTargets) (value : Z) : outcome Z :=
  match find_target (targets_iter t) value with Some bb => Ret bb | None => otherwise t end.

(** The operands of inline assembly, with the places that they write *)
Inductive InlineAsmOperand (Place Operand : Type) : Type :=
| AsmIn (value : Operand)
| AsmOut (late : bool) (place : option Place)
| AsmInOut (late : bool) (in_value : Operand) (out_place : option Place)
| AsmConst
| AsmSymFn
| AsmSymStatic.
Arguments AsmIn {Place Operand}.
Arguments AsmOut {Place Operand}.
Arguments AsmInOut {Place Operand}.
Arguments AsmConst {Place Operand}.
Arguments AsmSymFn {Place Operand}.
Arguments AsmSymStatic {Place Operand}.

Module TerminatorKind.

Inductive t (Place Operand : Type) : Type :=
| Goto (target : Z)
| SwitchInt (discr : Operand) (targets : SwitchTargets)
| Resume
| Terminate
| Return
| Unreachable
| Drop (place : Place) (target : Z) (unwind : UnwindAction) (replace : bool)
| Call (func : Operand) (args : list Operand) (destination : Place) (target : option Z) (unwind : UnwindAction)
| Assert (cond : Operand) (expected : bool) (target : Z) (unwind : UnwindAction)
| Yield (value : Operand) (resume : Z) (resume_arg : Place) (drop : option Z)
| GeneratorDrop
| FalseEdge (real_target imaginary_target : Z)
| FalseUnwind (real_target : Z) (unwind : UnwindAction)
| InlineAsm (operands : list (InlineAsmOperand Place Operand)) (destination : option Z) (unwind : UnwindAction).

Arguments Goto {Place Operand}.
Arguments SwitchInt {Place Operand}.
Arguments Resume {Place Operand}.
Arguments Terminate {Place Operand}.
Arguments Return {Place Operand}.
Arguments Unreachable {Place Operand}.
Arguments Drop {Place Operand}.
Arguments Call {Place Operand}.
Arguments Assert {Place Operand}.
Arguments Yield {Place Operand}.
Arguments GeneratorDrop {Place Operand}.
Arguments FalseEdge {Place Operand}.
Arguments FalseUnwind {Place Operand}.
Arguments InlineAsm {Place Operand}.

End TerminatorKind.

(** Where a call, a yield or inline assembly writes when it returns *)
Inductive CallReturnPlaces (Place Operand : Type) : Type :=
| ReturnCall (place : Place)
| ReturnYield (place : Place)
| ReturnInlineAsm (operands : list (InlineAsmOperand Place Operand)).
Arguments ReturnCall {Place Operand}.
Arguments ReturnYield {Place Operand}.
Arguments ReturnInlineAsm {Place Operand}.

Inductive TerminatorEdges (Place Operand : Type) : Type :=
| EdgesNone
| Single (target : Z)
| Double (target unwind : Z)
| AssignOnReturn (return_ : option Z) (unwind : UnwindAction) (place : CallReturnPlaces Place Operand)
| SwitchInt (targets : SwitchTargets) (discr : Operand).
Arguments EdgesNone {Place Operand}.
Arguments Single {Place Operand}.
Arguments Double {Place Operand}.
Arguments AssignOnReturn {Place Operand}.
Arguments SwitchInt {Place Operand}.

Section Terminators.
Context {Place Operand : Type}.

(** [CallReturnPlaces::for_each]: the places, in order *)
Definition return_places (p : CallReturnPlaces Place Operand) : list Place :=
  match p with
  | ReturnCall place | ReturnYield place => [place]
  | ReturnInlineAsm operands =>
      omap (λ op, match op with AsmOut _ (Some place) | AsmInOut _ _ (Some place) => Some place | _ => None end) operands
  end.

Definition terminator_if (cond : Operand) (t f : Z) : TerminatorKind.t Place Operand := TerminatorKind.SwitchInt cond (static_if 0 f t).

Definition terminator_successors (k : TerminatorKind.t Place Operand) : list Z :=
  match k with
  | TerminatorKind.Call _ _ _ (Some t) (Cleanup u)
  | TerminatorKind.Yield _ t _ (Some u)
  | TerminatorKind.Drop _ t (Cleanup u) _
  | TerminatorKind.Assert _ _ t (Cleanup u)
  | TerminatorKind.FalseUnwind t (Cleanup u)
  | TerminatorKind.InlineAsm _ (Some t) (Cleanup u) => [t; u]
  | TerminatorKind.Goto t
  | TerminatorKind.Call _ _ _ None (Cleanup t)
  | TerminatorKind.Call _ _ _ (Some t) _
  | TerminatorKind.Yield _ t _ None
  | TerminatorKind.Drop _ t _ _
  | TerminatorKind.Assert _ _ t _
  | TerminatorKind.FalseUnwind t _
  | TerminatorKind.InlineAsm _ None (Cleanup t)
  | TerminatorKind.InlineAsm _ (Some t) _ => [t]
  | TerminatorKind.Resume
  | TerminatorKind.Terminate
  | TerminatorKind.GeneratorDrop
  | TerminatorKind.Return
  | TerminatorKind.Unreachable
  | TerminatorKind.Call _ _ _ None _
  | TerminatorKind.InlineAsm _ None _ => []
  | TerminatorKind.SwitchInt _ targets => all_targets targets
  | TerminatorKind.FalseEdge real_target imaginary_target => [real_target; imaginary_target]
  end.

Definition terminator_unwind (k : TerminatorKind.t Place Operand) : option UnwindAction :=
  match k with
  | TerminatorKind.Call _ _ _ _ unwind
  | TerminatorKind.Assert _ _ _ unwind
  | TerminatorKind.Drop _ _ unwind _
  | TerminatorKind.FalseUnwind _ unwind
  | TerminatorKind.InlineAsm _ _ unwind => Some unwind
  | _ => None
  end.

Definition as_switch (k : TerminatorKind.t Place Operand) : option (Operand * SwitchTargets) :=
  match k with TerminatorKind.SwitchInt discr targets => Some (discr, targets) | _ => None end.

Definition as_goto (k : TerminatorKind.t Place Operand) : option Z :=
  match k with TerminatorKind.Goto target => Some target | _ => None end.

Definition terminator_edges (k : TerminatorKind.t Place Operand) : TerminatorEdges Place Operand :=
  match k with
  | TerminatorKind.Return
  | TerminatorKind.Resume
  | TerminatorKind.Terminate
  | TerminatorKind.GeneratorDrop
  | TerminatorKind.Unreachable => EdgesNone
  | TerminatorKind.Goto target => Single target
  | TerminatorKind.Assert _ _ target unwind
  | TerminatorKind.Drop _ target unwind _
  | TerminatorKind.FalseUnwind target unwind =>
      match unwind with
      | Cleanup unwind => Double target unwind
      | UnwindContinue | UnwindTerminate | UnwindUnreachable => Single target
      end
  | TerminatorKind.FalseEdge real_target imaginary_target => Double real_target imaginary_target
  | TerminatorKind.Yield _ target resume_arg drop =>
      AssignOnReturn (Some target) (match drop with Some bb => Cleanup bb | None => UnwindTerminate end)
        (ReturnYield resume_arg)
  | TerminatorKind.Call _ _ destination target unwind => AssignOnReturn target unwind (ReturnCall destination)
  | TerminatorKind.InlineAsm operands destination unwind => AssignOnReturn destination unwind (ReturnInlineAsm operands)
  | TerminatorKind.SwitchInt discr targets => SwitchInt targets discr
  end.

End Terminators.

(** * Blocks *)

Record BasicBlockData (Stmt Place Operand : Type) : Type := {
  statements : list Stmt;
  terminator : option (TerminatorKind.t Place Operand);
  is_cleanup : bool;
}.
Arguments statements {Stmt Place Operand}.
Arguments terminator {Stmt Place Operand}.
Arguments is_cleanup {Stmt Place Operand}.
Arguments Build_BasicBlockData {Stmt Place Operand}.

Definition START_BLOCK : Z := 0.

(** [iter().enumerate()] *)
Definition enumerate {A} (l : list A) : list (nat * A) := zip (seq 0 (length l)) l.

Section Blocks.
Context {Stmt Place Operand : Type}.

(** [BasicBlocks]: the vector of blocks *)
Abbreviation BasicBlocks := (list (BasicBlockData Stmt Place Operand)).

(** The accessor [terminator()], which expects one *)
Definition block_terminator (data : BasicBlockData Stmt Place Operand) : outcome (TerminatorKind.t Place Operand) :=
  unwrap (terminator data).

(** The successors of a block, none when it has no terminator *)
Definition block_successors (data : BasicBlockData Stmt Place Operand) : list Z :=
  match terminator data with Some term => terminator_successors term | None => [] end.

(** [preds[succ].push(bb)] *)
Definition push_predecessor (bb : Z) (preds : list (list Z)) (succ : Z) : outcome (list (list Z)) :=
  let! l := index preds (Z.to_nat succ) in index_set preds (Z.to_nat succ) (l ++ [bb]).

Definition predecessors (blocks : BasicBlocks) : outcome (list (list Z)) :=
  fold_outcome (λ preds p, fold_outcome (push_predecessor (Z.of_nat (fst p))) (block_successors (snd p)) preds)
    (enumerate blocks) (replicate (length blocks) []).

(** [switch_sources.entry(key).or_default().push(value)] *)
Definition push_source (key : Z * Z) (value : option Z) (m : gmap (Z * Z) (list (option Z))) : gmap (Z * Z) (list (option Z)) :=
  <[key := default [] (m !! key) ++ [value]]> m.

Definition switch_block_sources (bb : Z) (targets : SwitchTargets) (m : gmap (Z * Z) (list (option Z)))
    : outcome (gmap (Z * Z) (list (option Z))) :=
  let m := fold_left (λ m vt, push_source (snd vt, bb) (Some (fst vt)) m) (targets_iter targets) m in
  let! other := otherwise targets in Ret (push_source (other, bb) None m).

Definition switch_sources (blocks : BasicBlocks) : outcome (gmap (Z * Z) (list (option Z))) :=
  fold_outcome (λ m p,
    match terminator (snd p) with
    | Some (TerminatorKind.SwitchInt _ targets) => switch_block_sources (Z.of_nat (fst p)) targets m
    | _ => Ret m
    end) (enumerate blocks) ∅.

(** The graph of the blocks *)
#[export] Instance blocks_num_nodes : WithNumNodes BasicBlocks := {| num_nodes blocks := Z.of_nat (length blocks) |}.

#[export] Instance blocks_successors : WithSuccessors BasicBlocks := {|
  successors blocks n :=
    let! data := index blocks (Z.to_nat n) in
    let! term := block_terminator data in Ret (terminator_successors term);
|}.

#[export] Instance blocks_start_node : WithStartNode BasicBlocks := {| start_node _ := START_BLOCK |}.

Definition is_cfg_cyclic (blocks : BasicBlocks) : outcome bool := is_cyclic blocks.

(** ** Traversals; a worklist or stack has its top first.  [root_is_start_block] is
    read by [size_hint] only, whose argument it is here. *)

Record Preorder : Type := { pre_visited : BitSet.t; worklist : list Z }.

Definition preorder_new (blocks : BasicBlocks) (root : Z) : Preorder :=
  {| pre_visited := BitSet.new_empty (Z.of_nat (length blocks)); worklist := [root] |}.

(** The loop of [next] only pops until it finds a new block. *)
Fixpoint preorder_next_loop (blocks : BasicBlocks) (visited : BitSet.t) (worklist : list Z) : outcome (Preorder * option Z) :=
  match worklist with
  | [] => Ret ({| pre_visited := visited; worklist := [] |}, None)
  | idx :: worklist =>
      let! (visited, fresh) := BitSet.insert visited idx in
      if fresh then
        let! data := index blocks (Z.to_nat idx) in
        Ret ({| pre_visited := visited; worklist := reverse (block_successors data) ++ worklist |}, Some idx)
      else preorder_next_loop blocks visited worklist
  end.

Definition preorder_next (blocks : BasicBlocks) (p : Preorder) : outcome (Preorder * option Z) :=
  preorder_next_loop blocks (pre_visited p) (worklist p).

(** All items; there is at most one for each block. *)
Fixpoint preorder_collect (fuel : nat) (blocks : BasicBlocks) (p : Preorder) : outcome (Preorder * list Z) :=
  match fuel with
  | O => Panic
  | S fuel =>
      let! (p, o) := preorder_next blocks p in
      match o with
      | None => Ret (p, [])
      | Some bb => let! (p, l) := preorder_collect fuel blocks p in Ret (p, bb :: l)
      end
  end.

Definition preorder_size_hint (root_is_start_block : bool) (blocks : BasicBlocks) (p : Preorder) : Z * option Z :=
  let upper := wsub 64 (Z.of_nat (length blocks)) (BitSet.count (pre_visited p)) in
  let lower := if root_is_start_block then upper else Z.of_nat (length (worklist p)) in
  (lower, Some upper).

Definition preorder (blocks : BasicBlocks) : Preorder := preorder_new blocks START_BLOCK.

Definition reachable (blocks : BasicBlocks) : outcome (list Z) :=
  let! (_, l) := preorder_collect (S (length blocks)) blocks (preorder blocks) in Ret l.

Definition reachable_as_bitset (blocks : BasicBlocks) : outcome BitSet.t :=
  let! (p, _) := preorder_collect (S (length blocks)) blocks (preorder blocks) in Ret (pre_visited p).

(** [visit_stack]: a block with the successors that [next_back] still yields *)
Record Postorder : Type := { po_visited : BitSet.t; visit_stack : list (Z * list Z) }.

(** [if let Some(term) = ...terminator { visit_stack.push((bb, term.successors())) }] *)
Definition push_block (blocks : BasicBlocks) (bb : Z) (stack : list (Z * list Z)) : outcome (list (Z * list Z)) :=
  let! data := index blocks (Z.to_nat bb) in
  Ret (match terminator data with Some term => (bb, reverse (terminator_successors term)) :: stack | None => stack end).

Fixpoint traverse_loop (fuel : nat) (blocks : BasicBlocks) (po : Postorder) : outcome Postorder :=
  match fuel with
  | O => Panic
  | S fuel =>
      match visit_stack po with
      | (n, bb :: iter) :: stack =>
          let! (visited, fresh) := BitSet.insert (po_visited po) bb in
          let! stack := if fresh then push_block blocks bb ((n, iter) :: stack) else Ret ((n, iter) :: stack) in
          traverse_loop fuel blocks {| po_visited := visited; visit_stack := stack |}
      | _ => Ret po
      end
  end.

(** Every round takes a successor from an iterator, and a block has one iterator. *)
Definition successor_count (blocks : BasicBlocks) : nat := sum_list_with (λ data, length (block_successors data)) blocks.

Definition traverse_successor (blocks : BasicBlocks) (po : Postorder) : outcome Postorder :=
  traverse_loop (S (successor_count blocks)) blocks po.

Definition postorder_new (blocks : BasicBlocks) (root : Z) : outcome Postorder :=
  let visited := BitSet.new_empty (Z.of_nat (length blocks)) in
  let! data := index blocks (Z.to_nat root) in
  match terminator data with
  | Some term =>
      let! (visited, _) := BitSet.insert visited root in
      traverse_successor blocks
        {| po_visited := visited; visit_stack := [(root, reverse (terminator_successors term))] |}
  | None => Ret {| po_visited := visited; visit_stack := [] |}
  end.

Definition postorder_next (blocks : BasicBlocks) (po : Postorder) : outcome (Postorder * option Z) :=
  match visit_stack po with
  | [] => Ret (po, None)
  | (bb, _) :: stack =>
      let! po := traverse_successor blocks {| po_visited := po_visited po; visit_stack := stack |} in
      Ret (po, Some bb)
  end.

Definition postorder_size_hint (root_is_start_block : bool) (blocks : BasicBlocks) (po : Postorder) : Z * option Z :=
  let upper := wsub 64 (Z.of_nat (length blocks)) (BitSet.count (po_visited po)) in
  let lower := if root_is_start_block then upper else Z.of_nat (length (visit_stack po)) in
  (lower, Some upper).

Fixpoint postorder_collect (fuel : nat) (blocks : BasicBlocks) (po : Postorder) : outcome (list Z) :=
  match fuel with
  | O => Panic
  | S fuel =>
      let! (po, o) := postorder_next blocks po in
      match o with
      | None => Ret []
      | Some bb => let! l := postorder_collect fuel blocks po in Ret (bb :: l)
      end
  end.

(** [BasicBlocks::reverse_postorder] *)
Definition reverse_postorder (blocks : BasicBlocks) : outcome (list Z) :=
  let! po := postorder_new blocks START_BLOCK in
  let! l := postorder_collect (S (length blocks)) blocks po in Ret (reverse l).

(** [traversal::postorder] walks the cached order backwards. *)
Definition postorder (blocks : BasicBlocks) : outcome (list Z) :=
  let! rpo := reverse_postorder blocks in Ret (reverse rpo).

End Blocks.

(** * Cached blocks

    [BasicBlocks] with its cache: the functions above fill a cell on its first use.
    The cell of the dominators is left out. *)

Module BasicBlocks.
Section Cached.
Context {Stmt Place Operand : Type}.

Record Cache : Type := {
  cell_predecessors : option (list (list Z));
  cell_switch_sources : option (gmap (Z * Z) (list (option Z)));
  cell_is_cyclic : option bool;
  cell_reverse_postorder : option (list Z);
}.

Record t : Type := { basic_blocks : list (BasicBlockData Stmt Place Operand); cache : Cache }.

Definition default_cache : Cache :=
  {| cell_predecessors := None; cell_switch_sources := None; cell_is_cyclic := None; cell_reverse_postorder := None |}.

Definition new (basic_blocks : list (BasicBlockData Stmt Place Operand)) : t :=
  {| basic_blocks := basic_blocks; cache := default_cache |}.

(** [OnceCell::get_or_init] *)
Definition get_or_init {A} (cell : option A) (f : outcome A) : outcome A :=
  match cell with Some a => Ret a | None => f end.

Definition predecessors (b : t) : outcome (t * list (list Z)) :=
  let! p := get_or_init (cell_predecessors (cache b)) (Mir.predecessors (basic_blocks b)) in
  Ret ({| basic_blocks := basic_blocks b;
          cache := {| cell_predecessors := Some p; cell_switch_sources := cell_switch_sources (cache b);
                      cell_is_cyclic := cell_is_cyclic (cache b); cell_reverse_postorder := cell_reverse_postorder (cache b) |} |}, p).

Definition switch_sources (b : t) : outcome (t * gmap (Z * Z) (list (option Z))) :=
  let! s := get_or_init (cell_switch_sources (cache b)) (Mir.switch_sources (basic_blocks b)) in
  Ret ({| basic_blocks := basic_blocks b;
          cache := {| cell_predecessors := cell_predecessors (cache b); cell_switch_sources := Some s;
                      cell_is_cyclic := cell_is_cyclic (cache b); cell_reverse_postorder := cell_reverse_postorder (cache b) |} |}, s).

Definition is_cfg_cyclic (b : t) : outcome (t * bool) :=
  let! c := get_or_init (cell_is_cyclic (cache b)) (Mir.is_cfg_cyclic (basic_blocks b)) in
  Ret ({| basic_blocks := basic_blocks b;
          cache := {| cell_predecessors := cell_predecessors (cache b); cell_switch_sources := cell_switch_sources (cache b);
                      cell_is_cyclic := Some c; cell_reverse_postorder := cell_reverse_postorder (cache b) |} |}, c).

Definition reverse_postorder (b : t) : outcome (t * list Z) :=
  let! r := get_or_init (cell_reverse_postorder (cache b)) (Mir.reverse_postorder (basic_blocks b)) in
  Ret ({| basic_blocks := basic_blocks b;
          cache := {| cell_predecessors := cell_predecessors (cache b); cell_switch_sources := cell_switch_sources (cache b);
                      cell_is_cyclic := cell_is_cyclic (cache b); cell_reverse_postorder := Some r |} |}, r).

Definition invalidate_cfg_cache (b : t) : t := {| basic_blocks := basic_blocks b; cache := default_cache |}.

(** Writes [blocks] through the reference that the function returns *)
Definition as_mut (b : t) (blocks : list (BasicBlockData Stmt Place Operand)) : t :=
  let b := invalidate_cfg_cache b in {| basic_blocks := blocks; cache := cache b |}.

Definition as_mut_preserves_cfg (b : t) (blocks : list (BasicBlockData Stmt Place Operand)) : t :=
  {| basic_blocks := blocks; cache := cache b |}.

End Cached.
Arguments t : clear implicits.
End BasicBlocks.
