(* ===== verification/TraversalProps.v ===== *)
(** * The traversals of a body

    The postorder of [traversal.rs] runs the machine of [GraphSearch], so that the
    reverse postorder of a body has its reachable blocks, each once, the start
    block first, and is a topological order when there is no cycle.  The preorder
    visits the same blocks, each behind one of its predecessors. *)

From stdpp Require Import gmap relations.
From S2P Require Import Prelude.
From S2P Require Import Slice.
From S2P Require Import IndexSet.
From S2P Require Import BitSets.
From S2P Require Import BitSetProps.
From S2P Require Import HybridProps.
From S2P Require Import GraphSearch.
From S2P Require Import Graph.
From S2P Require Import GraphProps.
From S2P Require Import Mir.

(** * Edges *)

Section Edges.
Context {Place Operand : Type}.

(** The blocks that the edges of a terminator lead to *)
Definition edge_targets (e : TerminatorEdges Place Operand) : list Z :=
  match e with
  | EdgesNone => []
  | Single t => [t]
  | Double t u => [t; u]
  | AssignOnReturn ret unwind _ =>
      match ret with Some t => [t] | None => [] end ++ match unwind with Cleanup u => [u] | _ => [] end
  | SwitchInt t _ => all_targets t
  end.

(** [edges] and [successors] of a terminator agree. *)
Lemma terminator_edges_targets (k : TerminatorKind.t Place Operand) : edge_targets (terminator_edges k) = terminator_successors k.
Proof.
  destruct k as [| | | | | |? ? []|? ? ? [] []|? ? ? []|? ? ? []| | |? []|? [] []]; done.
Qed.
End Edges.

Section Traversal.
Context {Stmt Place Operand : Type}.
Implicit Types blocks : list (BasicBlockData Stmt Place Operand).

(** Every block of a finished body has a terminator, and it leads to blocks. *)
Definition wf_blocks blocks : Prop := wf_graph blocks ∧ (0 < length blocks)%nat.

Lemma start_is_node blocks : wf_blocks blocks → is_node blocks START_BLOCK.
Proof. intros [_ Hl]. unfold is_node, START_BLOCK. cbn. lia. Qed.

Lemma cfg_cyclic_spec blocks : wf_blocks blocks →
  ∃ b, is_cfg_cyclic blocks = Ret b ∧ (b = true ↔ ∃ x, rtc (edge blocks) START_BLOCK x ∧ tc (edge blocks) x x).
Proof. intros Hb. exact (is_cyclic_spec (H := blocks_start_node) blocks (proj1 Hb) (start_is_node blocks Hb)). Qed.

Lemma block_of blocks bb : wf_graph blocks → is_node blocks bb →
  ∃ data term, blocks !! Z.to_nat bb = Some data ∧ terminator data = Some term ∧
    successors blocks bb = Ret (terminator_successors term) ∧ Forall (is_node blocks) (terminator_successors term).
Proof.
  intros [_ Hg] Hbb. destruct (Hg bb Hbb) as (l & Hl & Hf). cbn in Hl. unfold index in Hl.
  destruct (blocks !! Z.to_nat bb) as [data|] eqn:E; [|done]. cbn in Hl. unfold block_terminator in Hl.
  destruct (terminator data) as [term|] eqn:Et; [|done]. cbn in Hl. injection Hl as <-.
  exists data, term. split_and!; try done. cbn. unfold index. rewrite E. cbn. unfold block_terminator. by rewrite Et.
Qed.

(** ** Postorder *)

Definition pending_count (st : list (Z * list Z)) : nat := sum_list_with (λ f, length f.2) st.

(** The successors of the blocks that are not visited yet *)
Definition block_weight blocks (n : Z) : nat :=
  match blocks !! Z.to_nat n with Some data => length (block_successors data) | None => 0 end.

Definition budget blocks (v : gset Z) (st : list (Z * list Z)) : nat :=
  (pending_count st + unseen (block_weight blocks) blocks v)%nat.

Definition exhausted (st : list (Z * list Z)) : Prop := match st with (_, _ :: _) :: _ => False | _ => True end.

(** [traverse_successor] pushes blocks until the top of the stack has no successor
    left. *)
Lemma traverse_runs blocks : wf_graph blocks → ∀ fuel st v vs fin,
  frames_ok blocks st → holds blocks v vs → (budget blocks v st < fuel)%nat →
  ∃ v' vs' st', traverse_loop fuel blocks {| po_visited := vs; visit_stack := st |} =
      Ret {| po_visited := vs'; visit_stack := st' |} ∧
    holds blocks v' vs' ∧ frames_ok blocks st' ∧ exhausted st' ∧
    rtc (dfs_step (edge blocks) true ∅) (Dfs v st fin) (Dfs v' st' fin) ∧
    (budget blocks v' st' ≤ budget blocks v st)%nat ∧
    (unvisited blocks v' + length st' ≤ unvisited blocks v + length st)%nat.
Proof.
  intros Hg. induction fuel as [|fuel IH]; intros st v vs fin Hst Hv Hf; [lia|]. cbn [traverse_loop visit_stack po_visited].
  assert (exhausted st → ∃ v' vs' st', Ret {| po_visited := vs; visit_stack := st |} =
      Ret {| po_visited := vs'; visit_stack := st' |} ∧
    holds blocks v' vs' ∧ frames_ok blocks st' ∧ exhausted st' ∧
    rtc (dfs_step (edge blocks) true ∅) (Dfs v st fin) (Dfs v' st' fin) ∧
    (budget blocks v' st' ≤ budget blocks v st)%nat ∧
    (unvisited blocks v' + length st' ≤ unvisited blocks v + length st)%nat) as Hend.
  { intros He. exists v, vs, st. split_and!; try done. }
  destruct st as [|[n [|bb iter]] st]; [by apply Hend|by apply Hend|]. clear Hend.
  pose proof (Forall_inv Hst) as [Hn Hit]. apply Forall_inv_tail in Hst. cbn in Hn, Hit.
  pose proof (Forall_inv Hit) as Hbb. apply Forall_inv_tail in Hit.
  destruct (holds_insert blocks v vs bb Hv Hbb) as (vs1 & -> & Hv1). cbn [obind]. case_bool_decide as Hbv.
  - destruct (block_of blocks bb Hg Hbb) as (data & term & Ed & Et & Es & Hsucc).
    unfold push_block, index. rewrite Ed. cbn [unwrap obind]. rewrite Et.
    assert (budget blocks ({[bb]} ∪ v) ((bb, reverse (terminator_successors term)) :: (n, iter) :: st) <
      budget blocks v ((n, bb :: iter) :: st))%nat as Hb.
    { unfold budget, pending_count. cbn. rewrite length_reverse.
      pose proof (unseen_add (block_weight blocks) blocks v bb Hbb Hbv) as Hadd. unfold block_weight at 2 in Hadd.
      rewrite Ed in Hadd. unfold block_successors in Hadd. rewrite Et in Hadd. lia. }
    edestruct (IH ((bb, reverse (terminator_successors term)) :: (n, iter) :: st) ({[bb]} ∪ v) vs1 fin)
      as (v' & vs' & st' & -> & Hv' & Hst' & He & Hrun & Hb' & Hu).
    + constructor; [split; [done|by apply Forall_reverse]|]. by constructor.
    + done.
    + lia.
    + exists v', vs', st'. split_and!; try done; [|lia|].
      * eapply rtc_l; [|exact Hrun]. apply Push; [done|]. intros x. rewrite elem_of_reverse. by apply edge_of.
      * pose proof (unvisited_add blocks v bb Hbb Hbv). cbn in *. lia.
  - assert ({[bb]} ∪ v = v) as Ev by (apply subseteq_union_1_L; by apply singleton_subseteq_l). rewrite Ev in Hv1. cbn [obind].
    destruct (IH ((n, iter) :: st) v vs1 fin) as (v' & vs' & st' & -> & Hv' & Hst' & He & Hrun & Hb' & Hu).
    + by constructor.
    + done.
    + unfold budget, pending_count in *. cbn in *. lia.
    + exists v', vs', st'. split_and!; try done.
      * eapply rtc_l; [|exact Hrun]. apply Skip; auto.
      * unfold budget, pending_count in *. cbn in *. lia.
Qed.

Lemma postorder_collect_runs blocks : wf_graph blocks → ∀ fuel st v vs fin,
  frames_ok blocks st → holds blocks v vs → exhausted st → (budget blocks v st ≤ successor_count blocks)%nat →
  (unvisited blocks v + length st < fuel)%nat →
  ∃ l w, postorder_collect fuel blocks {| po_visited := vs; visit_stack := st |} = Ret l ∧
    rtc (dfs_step (edge blocks) true ∅) (Dfs v st fin) (Dfs w [] (fin ++ l)).
Proof.
  intros Hg. induction fuel as [|fuel IH]; intros st v vs fin Hst Hv He Hb Hf; [lia|].
  cbn [postorder_collect]. unfold postorder_next. cbn [visit_stack po_visited].
  destruct st as [|[n pend] st]; [exists [], v; split; [done|]; rewrite app_nil_r; apply rtc_refl|].
  destruct pend; [|done]. apply Forall_inv_tail in Hst. unfold traverse_successor.
  destruct (traverse_runs blocks Hg (S (successor_count blocks)) st v vs (fin ++ [n])) as (v' & vs' & st' & -> & Hv' & Hst' & He' & Hrun & Hb' & Hu).
  - done.
  - done.
  - unfold budget, pending_count in *. cbn in Hb. lia.
  - cbn [obind]. destruct (IH st' v' vs' (fin ++ [n])) as (l & w & -> & Hrun'); [done..| | |].
    + unfold budget, pending_count in *. cbn in Hb. lia.
    + cbn in Hf. lia.
    + cbn [obind]. exists (n :: l), w. split; [done|]. eapply rtc_l; [apply Finish|]. etrans; [exact Hrun|].
      by rewrite <- app_assoc in Hrun'.
Qed.

Lemma seqZ_nat n : seqZ 0 (Z.of_nat n) = Z.of_nat <$> seq 0 n.
Proof. unfold seqZ. rewrite Nat2Z.id. apply list_fmap_ext. intros. lia. Qed.

Lemma lookup_seq_map {A B} (f : option A → B) (l : list A) :
  (λ n, f (l !! Z.to_nat n)) <$> seqZ 0 (Z.of_nat (length l)) = (λ x, f (Some x)) <$> l.
Proof.
  rewrite seqZ_nat, <- list_fmap_compose. apply list_eq. intros i. rewrite !list_lookup_fmap.
  destruct (decide (i < length l)%nat) as [Hi|Hi].
  - rewrite lookup_seq_lt by done. destruct (lookup_lt_is_Some_2 l i Hi) as [x Hx]. cbn. by rewrite Nat2Z.id, Hx.
  - rewrite lookup_seq_ge by lia. by rewrite lookup_ge_None_2 by lia.
Qed.

Lemma sum_list_fmap {A} (f : A → nat) l : sum_list (f <$> l) = sum_list_with f l.
Proof. induction l; [done|]. cbn. by f_equal. Qed.

Lemma unseen_none blocks : unseen (block_weight blocks) blocks ∅ = successor_count blocks.
Proof.
  unfold unseen, successor_count. rewrite filter_all by (apply list.Forall_forall; set_solver).
  pose proof (lookup_seq_map (λ o, match o with Some data => length (block_successors data) | None => 0%nat end) blocks) as H.
  unfold block_weight. cbn [num_nodes blocks_num_nodes]. apply (f_equal sum_list) in H.
  by rewrite !sum_list_fmap in H.
Qed.
(** The order of [reverse_postorder] is found, and it is the reverse of a postorder
    of the graph. *)
Lemma reverse_postorder_spec blocks : wf_blocks blocks →
  ∃ l, reverse_postorder blocks = Ret (reverse l) ∧ postorder_of (edge blocks) true ∅ START_BLOCK l.
Proof.
  intros [Hg Hl]. pose proof (start_is_node blocks (conj Hg Hl)) as Hr. unfold reverse_postorder, postorder_new.
  destruct (block_of blocks START_BLOCK Hg Hr) as (data & term & Ed & Et & Es & Hsucc).
  unfold index. rewrite Ed. cbn [unwrap obind]. rewrite Et.
  destruct (holds_insert blocks ∅ _ START_BLOCK (holds_empty blocks Hg) Hr) as (vs & Hins & Hvs).
  cbn [num_nodes blocks_num_nodes] in Hins. rewrite Hins. cbn [obind]. unfold traverse_successor.
  set (st := [(START_BLOCK, reverse (terminator_successors term))]).
  assert (budget blocks ({[START_BLOCK]} ∪ ∅) st ≤ successor_count blocks)%nat as Hb.
  { rewrite <- unseen_none. pose proof (unseen_add (block_weight blocks) blocks ∅ START_BLOCK Hr ltac:(set_solver)) as Hadd.
    unfold block_weight at 2 in Hadd. rewrite Ed in Hadd. unfold block_successors in Hadd. rewrite Et in Hadd.
    unfold budget, pending_count. cbn. rewrite length_reverse. lia. }
  destruct (traverse_runs blocks Hg (S (successor_count blocks)) st ({[START_BLOCK]} ∪ ∅) vs [])
    as (v' & vs' & st' & -> & Hv' & Hst' & He & Hrun & Hb' & Hu); [|done|lia|].
  { constructor; [split; [done|by apply Forall_reverse]|constructor]. }
  cbn [obind]. pose proof (unvisited_add blocks ∅ START_BLOCK Hr ltac:(set_solver)).
  pose proof (unvisited_le blocks ∅) as Hle. unfold node_count in Hle. cbn in Hle. rewrite Nat2Z.id in Hle.
  destruct (postorder_collect_runs blocks Hg (S (length blocks)) st' v' vs' []) as (l & w & -> & Hrun'); [done..|lia| |].
  { cbn in Hu. lia. }
  cbn [obind]. exists l. split; [done|]. eapply finished_postorder, run_inv; [etrans; [exact Hrun|exact Hrun']|].
  apply start_inv; [set_solver|]. intros x. rewrite elem_of_reverse. by apply edge_of.
Qed.
(** The order in which the engine queues the blocks *)
Lemma order_spec (forward : bool) (body : list (BasicBlockData Stmt Place Operand)) : wf_blocks body →
  ∃ order, (if forward then reverse_postorder body else postorder body) = Ret order ∧ NoDup order ∧
    (∀ x, x ∈ order ↔ rtc (edge body) START_BLOCK x) ∧ Forall (λ x, 0 ≤ x < Z.of_nat (length body)) order ∧
    (length order ≤ length body)%nat.
Proof.
  intros Hb. destruct (reverse_postorder_spec body Hb) as (l & Hl & Hpo).
  exists (if forward then reverse l else l).
  assert (∀ x, x ∈ (if forward then reverse l else l) ↔ x ∈ l) as Hmem by (intros x; destruct forward; [apply elem_of_reverse|done]).
  assert (NoDup (if forward then reverse l else l)) as Hnd.
  { destruct forward; [rewrite reverse_Permutation|]; apply Hpo. }
  assert (∀ x, x ∈ (if forward then reverse l else l) ↔ rtc (edge body) START_BLOCK x) as Hre.
  { intros x. rewrite Hmem, (po_nodes _ _ _ _ _ Hpo). split; apply rtc_subrel; [by intros ? ? [? _]|].
    intros a c Hac. split; [done|set_solver]. }
  assert (Forall (λ x, 0 ≤ x < Z.of_nat (length body)) (if forward then reverse l else l)) as Hin.
  { apply list.Forall_forall. intros x Hx%Hre. eapply reached_node in Hx; [exact Hx|apply Hb|by apply start_is_node]. }
  split_and!; [|done..|].
  - unfold postorder. rewrite Hl. destruct forward; [done|]. cbn [obind]. by rewrite reverse_involutive.
  - rewrite <- (Nat2Z.id (length body)), <- (length_seqZ 0 (Z.of_nat (length body))). apply submseteq_length, NoDup_submseteq; [done|].
    intros x Hx. apply elem_of_seqZ. rewrite list.Forall_forall in Hin. specialize (Hin x Hx). lia.
Qed.

(** ** Preorder *)

(** [out] has been yielded and the blocks of [wl] wait. *)
Record preorder_inv blocks (root : Z) (out wl : list Z) : Prop := {
  pre_nodup : NoDup out;
  pre_nodes : Forall (is_node blocks) (out ++ wl);
  pre_behind x : x ∈ out → x = root ∨ ∃ p, before p x out ∧ edge blocks p x;
  pre_waiting x : x ∈ wl → x = root ∨ ∃ p, p ∈ out ∧ edge blocks p x;
  pre_closed p x : p ∈ out → edge blocks p x → x ∈ out ++ wl;
  pre_root : out = [] ∧ head wl = Some root ∨ head out = Some root;
}.

Lemma preorder_skip blocks root out x wl :
  preorder_inv blocks root out (x :: wl) → x ∈ out → preorder_inv blocks root out wl.
Proof.
  intros [Hnd Hn Hb Hw Hc Hr] Hx. split; try done.
  - apply Forall_app in Hn as [? ?%Forall_inv_tail]. by apply Forall_app.
  - intros y Hy. apply Hw. by right.
  - intros p y Hp Hpy. specialize (Hc p y Hp Hpy). rewrite elem_of_app, elem_of_cons in Hc. rewrite elem_of_app.
    destruct Hc as [?|[ -> |?]]; auto.
  - destruct Hr as [(-> & _)|?]; [by apply elem_of_nil in Hx|by right].
Qed.

Lemma preorder_yield blocks root out x wl succs :
  preorder_inv blocks root out (x :: wl) → x ∉ out → (∀ y, y ∈ succs ↔ edge blocks x y) → Forall (is_node blocks) succs →
  preorder_inv blocks root (out ++ [x]) (reverse succs ++ wl).
Proof.
  intros [Hnd Hn Hb Hw Hc Hr] Hx Hs Hsn. apply Forall_app in Hn as [Hno Hnw]. split.
  - apply list.NoDup_app. split_and!; [done| |apply NoDup_singleton]. by intros y Hy ->%list_elem_of_singleton.
  - rewrite !Forall_app. split_and!; [done| | |by eapply Forall_inv_tail]; [constructor; [by eapply Forall_inv|constructor]|by apply Forall_reverse].
  - intros y [Hy| ->%list_elem_of_singleton]%elem_of_app.
    + destruct (Hb y Hy) as [?|(p & ? & ?)]; [by left|]. right. exists p. split; [by apply before_app|done].
    + destruct (Hw x) as [?|(p & ? & ?)]; [left|by left|]. right. exists p. split; [by apply before_last|done].
  - intros y [Hy|Hy]%elem_of_app.
    + right. exists x. rewrite elem_of_app, list_elem_of_singleton. split; [by right|]. by apply Hs, elem_of_reverse.
    + destruct (Hw y) as [?|(p & ? & ?)]; [by right|by left|]. right. exists p. rewrite elem_of_app. auto.
  - intros p y [Hp| ->%list_elem_of_singleton]%elem_of_app Hpy; rewrite !elem_of_app, list_elem_of_singleton, elem_of_reverse.
    + specialize (Hc p y Hp Hpy). rewrite elem_of_app, elem_of_cons in Hc. tauto.
    + right. left. by apply Hs.
  - right. destruct Hr as [(-> & Hr)|Hr]; [by injection Hr as ->|]. by destruct out.
Qed.

Lemma preorder_next_spec blocks root out : wf_graph blocks → ∀ wl vs,
  preorder_inv blocks root out wl → holds blocks (list_to_set out) vs →
  ∃ p o, preorder_next_loop blocks vs wl = Ret (p, o) ∧
    match o with
    | None => worklist p = [] ∧ preorder_inv blocks root out [] ∧ holds blocks (list_to_set out) (pre_visited p)
    | Some x => (x ∉ out) ∧ preorder_inv blocks root (out ++ [x]) (worklist p) ∧
        holds blocks (list_to_set (out ++ [x])) (pre_visited p)
    end.
Proof.
  intros Hg. induction wl as [|x wl IH]; intros vs Hi Hv; cbn [preorder_next_loop].
  { eexists _, None. split; [done|]. done. }
  assert (is_node blocks x) as Hx.
  { pose proof (pre_nodes _ _ _ _ Hi) as Hn. apply Forall_app in Hn as [_ Hn]. by eapply Forall_inv. }
  destruct (holds_insert blocks _ vs x Hv Hx) as (vs' & -> & Hv'). cbn [obind].
  case_bool_decide as Hxo; rewrite elem_of_list_to_set in Hxo.
  - destruct (block_of blocks x Hg Hx) as (data & term & Ed & Et & Es & Hsucc). unfold index. rewrite Ed. cbn [unwrap obind].
    unfold block_successors. rewrite Et. eexists _, (Some x). split; [done|]. cbn [worklist pre_visited]. split_and!; [done| |].
    + apply preorder_yield; [done|done|by apply edge_of|done].
    + by rewrite list_to_set_app_L, list_to_set_singleton_L, (comm_L (∪)).
  - replace ({[x]} ∪ list_to_set out) with (list_to_set out : gset Z) in Hv'.
    2: { symmetry. apply subseteq_union_1_L, singleton_subseteq_l. by apply elem_of_list_to_set. }
    apply IH; [by eapply preorder_skip|done].
Qed.

Lemma preorder_collect_spec blocks root : wf_graph blocks → ∀ fuel out p,
  preorder_inv blocks root out (worklist p) → holds blocks (list_to_set out) (pre_visited p) →
  (unvisited blocks (list_to_set out) < fuel)%nat →
  ∃ p' l, preorder_collect fuel blocks p = Ret (p', l) ∧
    preorder_inv blocks root (out ++ l) [] ∧ holds blocks (list_to_set (out ++ l)) (pre_visited p').
Proof.
  intros Hg. induction fuel as [|fuel IH]; intros out p Hi Hv Hf; [lia|]. cbn [preorder_collect]. unfold preorder_next.
  destruct (preorder_next_spec blocks root out Hg _ _ Hi Hv) as (p1 & o & -> & Ho). cbn [obind]. destruct o as [x|].
  - destruct Ho as (Hx & Hi1 & Hv1). destruct (IH (out ++ [x]) p1 Hi1 Hv1) as (p' & l & -> & Hi' & Hv').
    + assert (is_node blocks x) as Hn.
      { pose proof (pre_nodes _ _ _ _ Hi1) as Hn. rewrite !Forall_app in Hn. by eapply Forall_inv, Hn. }
      pose proof (unvisited_add blocks (list_to_set out) x Hn ltac:(by rewrite elem_of_list_to_set)) as Hu.
      rewrite list_to_set_app_L, list_to_set_singleton_L, (comm_L (∪)). lia.
    + cbn [obind]. exists p', (x :: l). rewrite <- app_assoc in Hi', Hv'. done.
  - destruct Ho as (_ & Hi1 & Hv1). exists p1, []. by rewrite app_nil_r.
Qed.

(** A preorder: the blocks that can be reached, each behind one that leads to it *)
Record preorder_of blocks (root : Z) (l : list Z) : Prop := {
  pr_nodup : NoDup l;
  pr_nodes x : x ∈ l ↔ rtc (edge blocks) root x;
  pr_head : head l = Some root;
  pr_behind x : x ∈ l → x = root ∨ ∃ p, before p x l ∧ edge blocks p x;
}.

Lemma finished_preorder blocks root l : preorder_inv blocks root l [] → preorder_of blocks root l.
Proof.
  intros [Hnd Hn Hb Hw Hc Hr]. assert (head l = Some root) as Hh by (destruct Hr as [[_ ?]|?]; done).
  assert (root ∈ l) as Hrl by (destruct l; [done|]; injection Hh as ->; left).
  split; [done| |done|done]. intros x. split.
  - intros Hx. apply list_elem_of_lookup in Hx as [i Hi]. revert x Hi. induction (lt_wf i) as [i _ IH]. intros x Hi.
    destruct (Hb x) as [->|(p & Hp & Hpx)]; [by eapply list_elem_of_lookup_2|apply rtc_refl|].
    destruct (before_index _ _ _ Hnd Hp) as (j & k & Hj & Hk & Hlt). pose proof (NoDup_lookup _ _ _ _ Hnd Hi Hk) as ->.
    eapply rtc_r; [by eapply IH|done].
  - intros Hx. clear Hb Hw Hh Hr. induction Hx as [|a b c Hab _ IH]; [done|]. apply IH. specialize (Hc _ _ Hrl Hab).
    by rewrite app_nil_r in Hc.
Qed.

Lemma preorder_spec blocks : wf_blocks blocks →
  ∃ l s, reachable blocks = Ret l ∧ preorder_of blocks START_BLOCK l ∧
    reachable_as_bitset blocks = Ret s ∧ holds blocks (list_to_set l) s.
Proof.
  intros [Hg Hl]. pose proof (start_is_node blocks (conj Hg Hl)) as Hr. unfold reachable, reachable_as_bitset.
  destruct (preorder_collect_spec blocks START_BLOCK Hg (S (length blocks)) [] (preorder blocks)) as (p & l & -> & Hi & Hv).
  - split; cbn.
    + apply NoDup_nil_2.
    + constructor; [done|apply Forall_nil_2].
    + intros x Hx. by apply elem_of_nil in Hx.
    + intros x ->%list_elem_of_singleton. by left.
    + intros x y Hx. by apply elem_of_nil in Hx.
    + by left.
  - exact (holds_empty blocks Hg).
  - pose proof (unvisited_le blocks (list_to_set [])) as Hle. unfold node_count in Hle. cbn in *. rewrite Nat2Z.id in Hle. lia.
  - cbn [obind]. exists l, (pre_visited p). split_and!; [done|by apply finished_preorder|done|done].
Qed.
(** ** Predecessors *)

(** The blocks that lead to the block at [y], in order, one entry for each edge *)
Definition incoming (l : list (nat * BasicBlockData Stmt Place Operand)) (y : nat) : list Z :=
  l ≫= λ p, (λ _, Z.of_nat p.1) <$> filter (λ s, Z.to_nat s = y) (block_successors p.2).

Lemma push_predecessors bb succs : ∀ preds, Forall (λ s, (Z.to_nat s < length preds)%nat) succs →
  ∃ preds', fold_outcome (push_predecessor bb) succs preds = Ret preds' ∧ length preds' = length preds ∧
    ∀ y l, preds !! y = Some l → preds' !! y = Some (l ++ ((λ _, bb) <$> filter (λ s, Z.to_nat s = y) succs)).
Proof.
  induction succs as [|s succs IH]; intros preds Hs.
  { exists preds. split_and!; try done. intros y l Hl. by rewrite app_nil_r. }
  pose proof (Forall_inv Hs) as Hlt. apply Forall_inv_tail in Hs. cbn [fold_outcome]. unfold push_predecessor at 1, index, index_set.
  destruct (lookup_lt_is_Some_2 preds _ Hlt) as [l0 Hl0]. rewrite Hl0. cbn [unwrap obind].
  rewrite (proj2 (Nat.ltb_lt _ _)) by done. cbn [rassert obind].
  destruct (IH (<[Z.to_nat s := l0 ++ [bb]]> preds)) as (preds' & -> & Hlen & Hget).
  { by rewrite length_insert. }
  exists preds'. split_and!; [done|by rewrite Hlen, length_insert|]. intros y l Hy. rewrite filter_cons.
  case_decide as E; subst.
  - rewrite Hl0 in Hy. injection Hy as <-. rewrite (Hget (Z.to_nat s) (l0 ++ [bb])); [by rewrite <- app_assoc|].
    by apply list_lookup_insert_eq.
  - apply Hget. by rewrite list_lookup_insert_ne.
Qed.

Lemma predecessors_fold (l : list (nat * BasicBlockData Stmt Place Operand)) : ∀ preds,
  Forall (λ p, Forall (λ s, (Z.to_nat s < length preds)%nat) (block_successors p.2)) l →
  ∃ preds', fold_outcome (λ preds p, fold_outcome (push_predecessor (Z.of_nat (fst p))) (block_successors (snd p)) preds) l preds =
      Ret preds' ∧ length preds' = length preds ∧
    ∀ y k, preds !! y = Some k → preds' !! y = Some (k ++ incoming l y).
Proof.
  induction l as [|[i data] l IH]; intros preds Hl.
  { exists preds. split_and!; try done. intros y k Hk. cbn. by rewrite app_nil_r. }
  pose proof (Forall_inv Hl) as Hd. apply Forall_inv_tail in Hl. cbn [fold_outcome fst snd].
  destruct (push_predecessors (Z.of_nat i) (block_successors data) preds Hd) as (preds1 & -> & Hlen1 & Hget1). cbn [obind].
  destruct (IH preds1) as (preds' & -> & Hlen & Hget); [by rewrite Hlen1|].
  exists preds'. split_and!; [done|congruence|]. intros y k Hk. rewrite (Hget y _ (Hget1 y k Hk)). cbn. by rewrite app_assoc.
Qed.

Lemma enumerate_at {A} (l : list A) i x : (i, x) ∈ enumerate l ↔ l !! i = Some x.
Proof.
  unfold enumerate. rewrite list_elem_of_lookup. setoid_rewrite lookup_zip_Some. split.
  - intros (k & Hk & Hx). apply lookup_seq in Hk as [-> _]. done.
  - intros Hx. exists i. split; [|done]. apply lookup_seq. split; [done|by eapply lookup_lt_Some].
Qed.

Lemma succ_edge blocks i data y : wf_graph blocks → blocks !! i = Some data → y ∈ block_successors data ↔ edge blocks (Z.of_nat i) y.
Proof.
  intros Hg Hi. assert (is_node blocks (Z.of_nat i)) as Hn by (unfold is_node; cbn; apply lookup_lt_Some in Hi; lia).
  destruct (block_of blocks _ Hg Hn) as (d & term & Ed & Et & Es & _). rewrite Nat2Z.id, Hi in Ed. injection Ed as <-.
  unfold block_successors. rewrite Et. by apply edge_of.
Qed.

Lemma predecessors_spec blocks : wf_graph blocks →
  ∃ preds, predecessors blocks = Ret preds ∧ length preds = length blocks ∧
    ∀ y, is_node blocks y → preds !! Z.to_nat y = Some (incoming (enumerate blocks) (Z.to_nat y)) ∧
      ∀ x, x ∈ incoming (enumerate blocks) (Z.to_nat y) ↔ is_node blocks x ∧ edge blocks x y.
Proof.
  intros Hg. unfold predecessors.
  assert (∀ i data s, blocks !! i = Some data → s ∈ block_successors data → is_node blocks s) as Hnodes.
  { intros i data s Hi Hs. eapply edge_node; [done| |by eapply succ_edge]. apply lookup_lt_Some in Hi. unfold is_node. cbn. lia. }
  destruct (predecessors_fold (enumerate blocks) (replicate (length blocks) [])) as (preds & -> & Hlen & Hget).
  { apply list.Forall_forall. intros [i data] Hi%enumerate_at. cbn. apply list.Forall_forall. intros s Hs.
    specialize (Hnodes i data s Hi Hs). unfold is_node in Hnodes. cbn in Hnodes. rewrite length_replicate. lia. }
  exists preds. rewrite length_replicate in Hlen. split_and!; [done|done|]. intros y Hy. split.
  - rewrite (Hget _ []); [done|]. apply lookup_replicate_2. unfold is_node in Hy. cbn in Hy. lia.
  - intros x. unfold incoming. rewrite list_elem_of_bind. split.
    + intros ([i data] & (s & -> & [Hs1 Hs]%list_elem_of_filter)%list_elem_of_fmap & Hi%enumerate_at). cbn in *.
      assert (s = y) as -> by (specialize (Hnodes i data s Hi Hs); unfold is_node in *; lia).
      split; [unfold is_node; cbn; apply lookup_lt_Some in Hi; lia|]. by eapply succ_edge.
    + intros [Hx Hxy]. destruct (block_of blocks x Hg Hx) as (data & term & Ed & Et & _).
      exists (Z.to_nat x, data). unfold is_node in Hx. split; [|by apply enumerate_at]. cbn.
      apply list_elem_of_fmap. exists y. split; [lia|]. apply list_elem_of_filter. split; [done|].
      eapply (succ_edge blocks (Z.to_nat x)); [done|done|]. by rewrite Z2Nat.id by lia.
Qed.
(** A check of a body *)
Definition blocks_check blocks : bool :=
  forallb (λ data, match terminator data with
    | Some t => forallb (λ s, (0 <=? s) && (s <? Z.of_nat (length blocks))) (terminator_successors t)
    | None => false
    end) blocks && (0 <? length blocks)%nat.

Lemma blocks_checked blocks : dense_domain (Z.of_nat (length blocks)) → blocks_check blocks = true → wf_blocks blocks.
Proof.
  unfold blocks_check. intros Hd [Hb Hl%Nat.ltb_lt]%andb_prop. split; [|done]. split; [done|]. intros n Hn.
  unfold is_node in Hn. cbn in Hn. destruct (lookup_lt_is_Some_2 blocks (Z.to_nat n)) as [data Hdata]; [lia|].
  rewrite forallb_forall in Hb. specialize (Hb data (proj1 (list_elem_of_In _ _) (list_elem_of_lookup_2 _ _ _ Hdata))).
  cbn. unfold index, block_terminator. rewrite Hdata. cbn. destruct (terminator data) as [t|]; [|done]. cbn.
  eexists. split; [done|]. apply list.Forall_forall. intros x Hx%list_elem_of_In. rewrite forallb_forall in Hb. specialize (Hb x Hx).
  unfold is_node. cbn. lia.
Qed.

(** ** The sources of switches *)

(** [SwitchTargets] has a target for each value and the fallback. *)
Definition wf_targets (t : SwitchTargets) : Prop := length (all_targets t) = S (length (values t)).

Definition wf_switches blocks : Prop :=
  ∀ i data discr t, blocks !! i = Some data → terminator data = Some (TerminatorKind.SwitchInt discr t) → wf_targets t.

(** The values for which a switch goes to [target], [None] for the fallback *)
Definition sources (t : SwitchTargets) (target : Z) : list (option Z) :=
  ((λ vt, Some vt.1) <$> filter (λ vt, vt.2 = target) (targets_iter t)) ++
  (if decide (list.last (all_targets t) = Some target) then [None] else []).

Definition recorded (m : gmap (Z * Z) (list (option Z))) (k : Z * Z) : list (option Z) := default [] (m !! k).

(** An entry that exists is not empty. *)
Definition no_empty (m : gmap (Z * Z) (list (option Z))) : Prop := ∀ k, m !! k ≠ Some [].

Lemma push_source_spec k v m : no_empty m →
  no_empty (push_source k v m) ∧ ∀ k', recorded (push_source k v m) k' = recorded m k' ++ (if decide (k' = k) then [v] else []).
Proof.
  intros Hm. unfold push_source, recorded. split; intros k'.
  - destruct (decide (k' = k)) as [->|Hne]; [rewrite lookup_insert_eq|by rewrite lookup_insert_ne].
    intros E. injection E as E. by apply app_eq_nil in E as [_ ?].
  - case_decide as E; [subst; by rewrite lookup_insert_eq|]. by rewrite lookup_insert_ne, app_nil_r.
Qed.

Lemma push_sources_spec bb (l : list (Z * Z)) : ∀ m, no_empty m →
  let m' := fold_left (λ m vt, push_source (snd vt, bb) (Some (fst vt)) m) l m in
  no_empty m' ∧ ∀ t b, recorded m' (t, b) = recorded m (t, b) ++
    (if decide (b = bb) then (λ vt, Some vt.1) <$> filter (λ vt, vt.2 = t) l else []).
Proof.
  induction l as [|[v t0] l IH]; intros m Hm; cbn [fold_left fst snd]; cbn zeta.
  { split; [done|]. intros t b. case_decide; by rewrite app_nil_r. }
  destruct (push_source_spec (t0, bb) (Some v) m Hm) as [Hm1 Hr1]. destruct (IH _ Hm1) as [Hm' Hr']. split; [done|].
  intros t b. rewrite Hr', Hr1, filter_cons, <- app_assoc. cbn [snd]. f_equal.
  destruct (decide (b = bb)) as [->|Hb].
  - destruct (decide (t0 = t)) as [->|Ht]; [by rewrite decide_True|]. by rewrite decide_False by congruence.
  - by rewrite decide_False by congruence.
Qed.

Lemma switch_block_spec bb t m : wf_targets t → no_empty m →
  ∃ m', switch_block_sources bb t m = Ret m' ∧ no_empty m' ∧
    ∀ x b, recorded m' (x, b) = recorded m (x, b) ++ (if decide (b = bb) then sources t x else []).
Proof.
  intros Ht Hm. unfold switch_block_sources, otherwise.
  destruct (push_sources_spec bb (targets_iter t) m Hm) as [Hm1 Hr1]. cbn zeta.
  destruct (list.last (all_targets t)) as [other|] eqn:El.
  2: { apply last_None in El. unfold wf_targets in Ht. rewrite El in Ht. done. }
  cbn [unwrap obind]. destruct (push_source_spec (other, bb) None _ Hm1) as [Hm' Hr']. eexists. split_and!; [done|done|].
  intros x b. rewrite Hr', Hr1, <- app_assoc. f_equal. unfold sources. rewrite El. destruct (decide (b = bb)) as [->|Hb].
  - f_equal. destruct (decide (x = other)) as [->|Hx]; [by rewrite !decide_True|]. by rewrite !decide_False by congruence.
  - by rewrite decide_False by congruence.
Qed.

(** The sources that the switch of a block has *)
Definition block_sources (data : option (BasicBlockData Stmt Place Operand)) (target : Z) : list (option Z) :=
  match data with
  | Some data => match terminator data with Some (TerminatorKind.SwitchInt _ t) => sources t target | _ => [] end
  | None => []
  end.

Lemma switch_fold_spec (l : list (BasicBlockData Stmt Place Operand)) : ∀ k m,
  (∀ i data discr t, l !! i = Some data → terminator data = Some (TerminatorKind.SwitchInt discr t) → wf_targets t) → no_empty m →
  ∃ m', fold_outcome (λ m p,
      match terminator (snd p) with
      | Some (TerminatorKind.SwitchInt _ targets) => switch_block_sources (Z.of_nat (fst p)) targets m
      | _ => Ret m
      end) (zip (seq k (length l)) l) m = Ret m' ∧ no_empty m' ∧
    ∀ x b, recorded m' (x, Z.of_nat b) = recorded m (x, Z.of_nat b) ++ (if decide (k ≤ b)%nat then block_sources (l !! (b - k)%nat) x else []).
Proof.
  induction l as [|data l IH]; intros k m Hl Hm.
  { exists m. split_and!; try done. intros x b. rewrite lookup_nil. case_decide; by rewrite app_nil_r. }
  cbn [length seq zip zip_with fold_outcome fst snd].
  assert (∃ m1, match terminator data with
      | Some (TerminatorKind.SwitchInt _ targets) => switch_block_sources (Z.of_nat k) targets m
      | _ => Ret m end = Ret m1 ∧ no_empty m1 ∧
      ∀ x b, recorded m1 (x, b) = recorded m (x, b) ++ (if decide (b = Z.of_nat k) then block_sources (Some data) x else []))
    as (m1 & -> & Hm1 & Hr1).
  { destruct (terminator data) as [term|] eqn:Et; [destruct term|]; try (exists m; split_and!; try done; intros x b; cbn; rewrite Et; case_decide; by rewrite app_nil_r).
    destruct (switch_block_spec (Z.of_nat k) targets m) as (m1 & -> & ? & Hr); [by eapply (Hl 0%nat)|done|].
    exists m1. split_and!; try done. intros x b. rewrite Hr. cbn. by rewrite Et. }
  cbn [obind]. destruct (IH (S k) m1) as (m' & -> & Hm' & Hr').
  { intros i d discr t Hi. by apply (Hl (S i)). }
  { done. }
  exists m'. split_and!; try done. intros x b. rewrite Hr', Hr1, <- app_assoc. f_equal.
  destruct (decide (b = k)) as [->|Hb].
  - rewrite decide_True by done. rewrite decide_False by lia. rewrite decide_True by lia. by rewrite Nat.sub_diag, app_nil_r.
  - rewrite decide_False by lia. destruct (decide (S k ≤ b)%nat).
    + rewrite decide_True by lia. by replace (b - k)%nat with (S (b - S k)) by lia.
    + by rewrite decide_False by lia.
Qed.

Lemma switch_sources_spec blocks : wf_switches blocks →
  ∃ m, switch_sources blocks = Ret m ∧ no_empty m ∧
    ∀ x b, recorded m (x, Z.of_nat b) = block_sources (blocks !! b) x.
Proof.
  intros Hw. destruct (switch_fold_spec blocks 0 ∅ Hw) as (m & Hm & Hne & Hr).
  { intros k. by rewrite lookup_empty. }
  exists m. split_and!; [exact Hm|done|]. intros x b. rewrite Hr. rewrite decide_True by lia. by rewrite Nat.sub_0_r.
Qed.

(** A switch has a source for each of its targets. *)
Lemma sources_target t x : wf_targets t → x ∈ all_targets t ↔ sources t x ≠ [].
Proof.
  intros Ht. unfold sources, targets_iter, wf_targets in *. revert Ht. generalize (all_targets t). intros tgts. destruct tgts as [|o ts _] using rev_ind; [done|]. intros Ht. rewrite last_snoc. rewrite length_app in Ht. cbn in Ht. assert (length (values t) = length ts) as Hl by lia.
  replace (zip (values t) (ts ++ [o])) with (zip (values t) ts).
  2: { rewrite <- (app_nil_r (values t)) at 2. rewrite zip_with_app by done. cbn. by rewrite app_nil_r. }
  rewrite elem_of_app, list_elem_of_singleton. split.
  - intros [Hx| ->]; [|rewrite decide_True by done; by intros [_ ?]%app_eq_nil].
    apply list_elem_of_lookup in Hx as [i Hi]. destruct (lookup_lt_is_Some_2 (values t) i) as [v Hv]; [apply lookup_lt_Some in Hi; lia|].
    intros [Hn _]%app_eq_nil. assert (Some v ∈ (λ vt, Some vt.1) <$> filter (λ vt, vt.2 = x) (zip (values t) ts)) as Hin.
    { apply list_elem_of_fmap. exists (v, x). split; [done|]. apply list_elem_of_filter. split; [done|].
      apply list_elem_of_lookup. exists i. apply lookup_zip_Some. done. }
    rewrite Hn in Hin. by apply elem_of_nil in Hin.
  - intros Hs. destruct (decide (Some o = Some x)) as [E'|_]; [injection E' as ->; by right|]. left. rewrite app_nil_r in Hs.
    destruct (filter _ _) as [|[v y] f] eqn:Ef; [done|]. assert ((v, y) ∈ filter (λ vt : Z * Z, vt.2 = x) (zip (values t) ts)) as Hin by (rewrite Ef; left).
    apply list_elem_of_filter in Hin as [Hy Hin]. cbn in Hy. subst y. by eapply elem_of_zip_r.
Qed.
End Traversal.

Lemma before_reverse {A} (a b : A) l : NoDup l → before a b l → before b a (reverse l).
Proof.
  intros Hnd (l1 & l2 & -> & Ha). apply list_elem_of_split in Ha as (k1 & k2 & ->).
  exists (reverse l2 ++ b :: reverse k2), (reverse k1).
  split; [|apply elem_of_app; right; left]. rewrite !reverse_app, !reverse_cons, <- !app_assoc. done.
Qed.

(** C36. [reverse_postorder] of a body lists the blocks that can be reached from the
    start block, each once and the start block first.  When [is_cfg_cyclic] finds
    no cycle it is a topological order: each block comes before its successors.
    [postorder] is the same list backwards. *)
Theorem reverse_postorder_correct {Stmt Place Operand : Type} (blocks : list (BasicBlockData Stmt Place Operand)) :
  wf_blocks blocks →
  ∃ rpo, reverse_postorder blocks = Ret rpo ∧ postorder blocks = Ret (reverse rpo) ∧ NoDup rpo ∧
    head rpo = Some START_BLOCK ∧ (∀ x, x ∈ rpo ↔ rtc (edge blocks) START_BLOCK x) ∧
    (is_cfg_cyclic blocks = Ret false → ∀ n x, n ∈ rpo → edge blocks n x → before n x rpo).
Proof.
  intros Hb. destruct (reverse_postorder_spec blocks Hb) as (l & Hl & Hpo).
  destruct (order_spec true blocks Hb) as (order & Hord & Hnd & Hre & _). rewrite Hl in Hord. injection Hord as <-.
  exists (reverse l). unfold postorder. rewrite Hl. split_and!; try done.
  - rewrite head_reverse. apply Hpo.
  - intros Hc n x Hn Hx. rewrite elem_of_reverse in Hn. apply before_reverse; [apply Hpo|].
    eapply postorder_topological; [exact Hpo| |done|done]. intros y Hy Hyc.
    destruct (cfg_cyclic_spec blocks Hb) as (b & Hb' & Hiff). rewrite Hc in Hb'. injection Hb' as <-.
    pose proof (proj2 Hiff (ex_intro _ y (conj Hy Hyc))) as E. done.
Qed.

(** [preorder] and [reachable] visit the blocks that can be reached from the
    start block, each once and, apart from the start block, behind a block that
    leads to it; [reachable_as_bitset] is the set of these blocks. *)
Theorem preorder_correct {Stmt Place Operand : Type} (blocks : list (BasicBlockData Stmt Place Operand)) :
  wf_blocks blocks →
  ∃ l s, reachable blocks = Ret l ∧ NoDup l ∧ head l = Some START_BLOCK ∧
    (∀ x, x ∈ l ↔ rtc (edge blocks) START_BLOCK x) ∧
    (∀ x, x ∈ l → x = START_BLOCK ∨ ∃ p, before p x l ∧ edge blocks p x) ∧
    reachable_as_bitset blocks = Ret s ∧ ∀ x, dense_elem s x ↔ rtc (edge blocks) START_BLOCK x.
Proof.
  intros Hb. destruct (preorder_spec blocks Hb) as (l & s & Hl & [Hnd Hno Hh Hbe] & Hs & _ & He). exists l, s.
  split_and!; try done. intros x. by rewrite He, elem_of_list_to_set.
Qed.

(** The caches of [BasicBlocks] agree with the terminators.  [predecessors] has,
    for each block, the blocks that lead to it, one entry per edge and in the order
    of the blocks; [switch_sources] has an entry for a target and a block exactly
    when a switch of the block goes there, with the values for which it does; the
    edges of a terminator lead to its successors. *)
Theorem block_caches_correct {Stmt Place Operand : Type} (blocks : list (BasicBlockData Stmt Place Operand)) :
  wf_blocks blocks → wf_switches blocks →
  ∃ preds m, predecessors blocks = Ret preds ∧ switch_sources blocks = Ret m ∧
    (∀ y, is_node blocks y → preds !! Z.to_nat y = Some (incoming (enumerate blocks) (Z.to_nat y)) ∧
      ∀ x, x ∈ incoming (enumerate blocks) (Z.to_nat y) ↔ is_node blocks x ∧ edge blocks x y) ∧
    (∀ y b data discr t, blocks !! b = Some data → terminator data = Some (TerminatorKind.SwitchInt discr t) →
      m !! (y, Z.of_nat b) = (if decide (y ∈ all_targets t) then Some (sources t y) else None)) ∧
    ∀ b data t, blocks !! b = Some data → terminator data = Some t →
      successors blocks (Z.of_nat b) = Ret (edge_targets (terminator_edges t)).
Proof.
  intros Hb Hw. destruct (predecessors_spec blocks (proj1 Hb)) as (preds & Hp & _ & Hin).
  destruct (switch_sources_spec blocks Hw) as (m & Hm & Hne & Hr). exists preds, m. split_and!; try done.
  - intros y b data discr t Hd Ht. specialize (Hr y b). rewrite Hd in Hr. unfold recorded, block_sources in Hr. rewrite Ht in Hr.
    pose proof (sources_target t y (Hw b data discr t Hd Ht)) as Hs. specialize (Hne (y, Z.of_nat b)).
    destruct (m !! (y, Z.of_nat b)) as [k|]; cbn in Hr; subst.
    + rewrite decide_True; [done|]. apply Hs. congruence.
    + rewrite decide_False; [done|]. rewrite Hs. congruence.
  - intros b data t Hd Ht. cbn. unfold index, block_terminator. rewrite Nat2Z.id, Hd. cbn. rewrite Ht. cbn.
    by rewrite terminator_edges_targets.
Qed.

(** A diamond, with the terminator of its last block, and a block that cannot be reached *)
Definition diamond (last : TerminatorKind.t unit unit) : list (BasicBlockData unit unit unit) := [
  {| statements := [tt]; terminator := Some (TerminatorKind.SwitchInt tt (switch_new [(0, 1); (7, 2)] 1)); is_cleanup := false |};
  {| statements := []; terminator := Some (TerminatorKind.Goto 3); is_cleanup := false |};
  {| statements := []; terminator := Some (TerminatorKind.Drop tt 3 (Cleanup 4) false); is_cleanup := false |};
  {| statements := []; terminator := Some last; is_cleanup := false |};
  {| statements := []; terminator := Some TerminatorKind.Resume; is_cleanup := true |};
  {| statements := []; terminator := Some (TerminatorKind.Goto 1); is_cleanup := false |}].

Lemma reverse_postorder_correct_witness :
  ∃ rpo, reverse_postorder (diamond TerminatorKind.Return) = Ret rpo ∧ rpo = [0; 2; 4; 1; 3] ∧
    ∀ n x, n ∈ rpo → edge (diamond TerminatorKind.Return) n x → before n x rpo.
Proof.
  destruct (reverse_postorder_correct (diamond TerminatorKind.Return)) as (rpo & Hr & _ & _ & _ & _ & Ht).
  - apply blocks_checked; [split; vm_compute; congruence|reflexivity].
  - exists rpo. split; [done|]. split; [vm_compute in Hr; congruence|]. apply Ht. reflexivity.
Defined.

Lemma preorder_correct_witness :
  ∃ l, reachable (diamond (TerminatorKind.Goto 0)) = Ret l ∧ l = [0; 1; 3; 2; 4] ∧ NoDup l.
Proof.
  destruct (preorder_correct (diamond (TerminatorKind.Goto 0))) as (l & s & Hl & Hnd & _).
  - apply blocks_checked; [split; vm_compute; congruence|reflexivity].
  - exists l. split; [done|]. split; [vm_compute in Hl; congruence|done].
Defined.

Lemma block_caches_correct_witness :
  ∃ preds m, predecessors (diamond TerminatorKind.Return) = Ret preds ∧ switch_sources (diamond TerminatorKind.Return) = Ret m ∧
    preds = [[]; [0; 0; 5]; [0]; [1; 2]; [2]; []] ∧ m !! (1, 0) = Some [Some 0; None].
Proof.
  destruct (block_caches_correct (diamond TerminatorKind.Return)) as (preds & m & Hp & Hm & _ & Hs & _).
  - apply blocks_checked; [split; vm_compute; congruence|reflexivity].
  - intros [|[|[|[|[|[|i]]]]]] data discr t Hi Ht; try discriminate; injection Hi as <-; cbn in Ht; try discriminate. injection Ht as _ <-. reflexivity.
  - exists preds, m. split_and!; [done|done|vm_compute in Hp; congruence|].
    etransitivity; [exact (Hs 1 0%nat _ tt (switch_new [(0, 1); (7, 2)] 1) eq_refl eq_refl)|]. reflexivity.
Defined.
