(* ===== verification/TransitiveRelation.v ===== *)
(** * Transitive relations

    [compiler/rustc_data_structures/src/transitive_relation.rs]: a builder that
    collects elements and edges, the closure of the edges as a [BitMatrix], and
    the bounds that region inference asks for.  The elements are in an
    [indexmap] set ([FxIndexSetApi] is what the code calls of it), the edges in a
    hash set, whose order of iteration is a parameter. *)

From S2P Require Import Prelude.
From S2P Require Import Slice.
From S2P Require Import BitSets.
From S2P Require Import BitMatrices.

(** [FxIndexSet<T>] seen through its elements in order of insertion *)
Class FxIndexSetApi (T : Type) : Type := {
  fx_get_index_of : list T → T → option nat;
  fx_insert_full : list T → T → list T * nat;
}.

(** Its documented behaviour *)
Class FxIndexSetLaws (T : Type) (A : FxIndexSetApi T) : Prop := {
  fx_get_law l a i : NoDup l → fx_get_index_of l a = Some i ↔ l !! i = Some a;
  fx_insert_new l a : NoDup l → a ∉ l → fx_insert_full l a = (l ++ [a], length l);
  fx_insert_old l a i : NoDup l → l !! i = Some a → fx_insert_full l a = (l, i);
}.

Record Edge : Type := { source : nat; target : nat }.

#[export] Instance Edge_eq_dec : EqDecision Edge.
Proof. solve_decision. Defined.

(** The order in which a [FxHashSet<Edge>] with given contents is iterated *)
Class HashOrder : Type := { hash_iter : list Edge → list Edge }.
Class HashOrderLaws (HO : HashOrder) : Prop := { hash_iter_perm l : hash_iter l ≡ₚ l }.

#[local] Existing Instance idx_usize.

Section Relation.
Context {T : Type} {A : FxIndexSetApi T} {HO : HashOrder}.

Record Builder : Type := { elements : list T; edges : list Edge }.

Definition builder_default : Builder := {| elements := []; edges := [] |}.

Definition is_empty (b : Builder) : bool := match edges b with [] => true | _ => false end.

Definition index_of (b : Builder) (a : T) : option nat := fx_get_index_of (elements b) a.

Definition add_index (b : Builder) (a : T) : Builder * nat :=
  let (es, i) := fx_insert_full (elements b) a in ({| elements := es; edges := edges b |}, i).

Definition insert_edge (e : Edge) (es : list Edge) : list Edge := if decide (e ∈ es) then es else es ++ [e].

Definition add (b : Builder) (x y : T) : Builder :=
  let (b, i) := add_index b x in
  let (b, j) := add_index b y in
  {| elements := elements b; edges := insert_edge {| source := i; target := j |} (edges b) |}.

(** One pass over the edges in [freeze] *)
Definition freeze_round (es : list Edge) (m : BitMatrix.t) : outcome (BitMatrix.t * bool) :=
  fold_outcome (λ '(m, changed) e,
    let! (m, c1) := BitMatrix.insert m (source e) (Z.of_nat (target e)) in
    let! (m, c2) := BitMatrix.union_rows m (target e) (source e) in
    Ret (m, changed || c1 || c2)) (hash_iter es) (m, false).

(** [while changed]: [fuel] bounds the number of passes. *)
Fixpoint freeze_loop (fuel : nat) (es : list Edge) (m : BitMatrix.t) : outcome BitMatrix.t :=
  match fuel with
  | O => Panic
  | S fuel =>
      let! (m, changed) := freeze_round es m in
      if changed then freeze_loop fuel es m else Ret m
  end.

Record Relation : Type := { builder : Builder; closure : BitMatrix.t }.

(** There are [n * n] cells to set, and a last pass that sets none. *)
Definition freeze (b : Builder) : outcome Relation :=
  let n := length (elements b) in
  let! m := freeze_loop (S (n * n)) (edges b) (BitMatrix.new n (Z.of_nat n)) in
  Ret {| builder := b; closure := m |}.

(** The elements at the indices of a row or a list of candidates *)
Fixpoint elements_at (b : Builder) (ixs : list Z) : outcome (list T) :=
  match ixs with
  | [] => Ret []
  | i :: ixs =>
      let! x := index (elements b) (Z.to_nat i) in
      let! xs := elements_at b ixs in Ret (x :: xs)
  end.

Definition contains (r : Relation) (a b : T) : outcome bool :=
  match index_of (builder r) a, index_of (builder r) b with
  | Some a, Some b => BitMatrix.contains (closure r) a (Z.of_nat b)
  | _, _ => Ret false
  end.

Definition reachable_from (r : Relation) (a : T) : outcome (list T) :=
  match index_of (builder r) a with
  | Some a => let! ixs := BitMatrix.iter (closure r) a in elements_at (builder r) ixs
  | None => Ret []
  end.

(** The inner loop of [pare_down]: [candidates], [j] and [dead] are its state,
    [n] the number of rounds left. *)
Fixpoint pare_inner (m : BitMatrix.t) (candidate_i : Z) (n j dead : nat) (candidates : list Z)
    : outcome (list Z) :=
  match n, candidates !! j with
  | S n, Some candidate_j =>
      let! c := BitMatrix.contains m (Z.to_nat candidate_i) candidate_j in
      if c then pare_inner m candidate_i n (S j) (S dead) candidates
      else
        let! candidates := index_set candidates (j - dead) candidate_j in
        pare_inner m candidate_i n (S j) dead candidates
  | _, _ => Ret (take (j - dead) candidates)
  end.

(** Its outer loop, at most one round for each candidate *)
Fixpoint pare_outer (m : BitMatrix.t) (n i : nat) (candidates : list Z) : outcome (list Z) :=
  match n, candidates !! i with
  | S n, Some candidate_i =>
      let i := S i in
      let! candidates := pare_inner m candidate_i (length candidates - i) i 0 candidates in
      pare_outer m n i candidates
  | _, _ => Ret candidates
  end.

Definition pare_down (candidates : list Z) (m : BitMatrix.t) : outcome (list Z) :=
  pare_outer m (length candidates) 0 candidates.

(** Steps (2) to (3b) of the comment in [minimal_upper_bounds] *)
Definition minimize (candidates : list Z) (m : BitMatrix.t) : outcome (list Z) :=
  let! candidates := pare_down candidates m in
  pare_down (reverse candidates) m.

Definition minimal_upper_bounds (r : Relation) (a b : T) : outcome (list T) :=
  match index_of (builder r) a, index_of (builder r) b with
  | Some a, Some b =>
      let (a, b) := if (b <? a)%nat then (b, a) else (a, b) in
      let! ab := BitMatrix.contains (closure r) a (Z.of_nat b) in
      let! lub_indices :=
        if ab then Ret [Z.of_nat b]
        else
          let! ba := BitMatrix.contains (closure r) b (Z.of_nat a) in
          if ba then Ret [Z.of_nat a]
          else
            let! candidates := BitMatrix.intersect_rows (closure r) a b in
            minimize candidates (closure r) in
      elements_at (builder r) (reverse lub_indices)
  | _, _ => Ret []
  end.

(** [loop] over a stack; [fuel] bounds the number of rounds, [None] is no
    answer within them. *)
Fixpoint postdominator_loop (fuel : nat) (r : Relation) (mubs : list T) : outcome (option (option T)) :=
  match fuel with
  | O => Ret None
  | S fuel =>
      match mubs with
      | [] => Ret (Some None)
      | [x] => Ret (Some (Some x))
      | _ =>
          let! m := unwrap (list.last mubs) in
          let mubs := take (length mubs - 1) mubs in
          let! n := unwrap (list.last mubs) in
          let mubs := take (length mubs - 1) mubs in
          let! bounds := minimal_upper_bounds r n m in
          postdominator_loop fuel r (mubs ++ bounds)
      end
  end.

Definition postdom_upper_bound (fuel : nat) (r : Relation) (a b : T) : outcome (option (option T)) :=
  let! mubs := minimal_upper_bounds r a b in postdominator_loop fuel r mubs.

Definition retain_not_reaching (m : BitMatrix.t) (a : nat) (es : list Z) : outcome (list Z) :=
  filter_outcome (λ e, let! c := BitMatrix.contains m (Z.to_nat e) (Z.of_nat a) in Ret (negb c)) es.

Definition parents (r : Relation) (a : T) : outcome (list T) :=
  match index_of (builder r) a with
  | None => Ret []
  | Some a =>
      let! ancestors := BitMatrix.intersect_rows (closure r) a a in
      let! ancestors := retain_not_reaching (closure r) a ancestors in
      let! ancestors := minimize ancestors (closure r) in
      elements_at (builder r) (reverse ancestors)
  end.

Fixpoint base_edges_at (b : Builder) (es : list Edge) : outcome (list (T * T)) :=
  match es with
  | [] => Ret []
  | e :: es =>
      let! x := index (elements b) (source e) in
      let! y := index (elements b) (target e) in
      let! xs := base_edges_at b es in Ret ((x, y) :: xs)
  end.

Definition base_edges (r : Relation) : outcome (list (T * T)) := base_edges_at (builder r) (hash_iter (edges (builder r))).

End Relation.

Arguments Builder T : clear implicits.
Arguments Relation T : clear implicits.

(** [maybe_map]: [None] when the function has no value at an end-point *)
Definition builder_maybe_map {T U} `{HashOrder} `{FxIndexSetApi U} (b : Builder T) (f : T → option U)
    : outcome (option (Builder U)) :=
  fold_outcome (λ res e,
    match res with
    | None => Ret None
    | Some res =>
        let! x := index (elements b) (source e) in
        match f x with
        | None => Ret None
        | Some x =>
            let! y := index (elements b) (target e) in
            match f y with
            | None => Ret None
            | Some y => Ret (Some (add res x y))
            end
        end
    end) (hash_iter (edges b)) (Some builder_default).

Definition relation_maybe_map {T U} `{HashOrder} `{FxIndexSetApi U} (r : Relation T) (f : T → option U)
    : outcome (option (Relation U)) :=
  let! b := builder_maybe_map (builder r) f in
  match b with
  | None => Ret None
  | Some b => let! r := freeze b in Ret (Some r)
  end.
