(* ===== verification/TransitiveRelationProps.v ===== *)
(** * Correctness of the transitive relations

    [freeze] terminates and its matrix is the transitive closure of the edges;
    [pare_down] keeps the candidates that no earlier one reaches, so that
    [minimal_upper_bounds] is an antichain below all common upper bounds; the
    loop of [mutual_immediate_postdominator] ends, and its answer is an upper
    bound. *)

From stdpp Require Import sorting relations.
From S2P Require Import Prelude.
From S2P Require Import Slice.
From S2P Require Import IndexSet.
From S2P Require Import BitSets.
From S2P Require Import BitSetProps.
From S2P Require Import BitIterProps.
From S2P Require Import BitMatrices.
From S2P Require Import BitMatrixProps.
From S2P Require Import TransitiveRelation.

#[local] Existing Instance idx_usize.

Lemma usize_max : idx_max = 2 ^ 64 - 1.
Proof. done. Qed.

(** * Square matrices as relations on indices *)

Definition square (n : nat) (m : BitMatrix.t) : Prop :=
  wf_bitmatrix m ∧ BitMatrix.num_rows m = n ∧ BitMatrix.num_columns m = Z.of_nat n.

Definition reach (m : BitMatrix.t) (i j : nat) : Prop := bit (BitSet.words (mrow m i)) (Z.of_nat j) = true.

#[export] Instance reach_dec m i j : Decision (reach m i j).
Proof. unfold reach. apply _. Defined.

Lemma reach_elem m i j : reach m i j ↔ dense_elem (mrow m i) (Z.of_nat j).
Proof. unfold reach, dense_elem. intuition lia. Qed.

Lemma reach_bound n m i j : square n m → (i < n)%nat → reach m i j → (j < n)%nat.
Proof.
  intros (Hm & Hr & Hc) Hi [_ Hb]%reach_elem. destruct (decide (j < n)%nat) as [|Hge]; [done|].
  destruct (wfm_row _ Hm i) as [_ Hw]; [lia|]. rewrite (wfw_excess _ _ Hw) in Hb by lia. done.
Qed.

Lemma contains_reach n m i j : square n m → (i < n)%nat → (j < n)%nat →
  BitMatrix.contains m i (Z.of_nat j) = Ret (bool_decide (reach m i j)).
Proof.
  intros (Hm & Hr & Hc) Hi Hj. rewrite contains_matrix by (done || lia). f_equal. apply eq_true_iff_eq.
  by rewrite bool_decide_eq_true.
Qed.

(** What a change of one row does to the relation *)
Lemma row_set_reach m r s m' b (P : Z → Prop) :
  row_set m r s m' → set_update (dense_elem (mrow m r)) (dense_elem s) b P →
  ∀ i j, reach m' i j ↔ if decide (i = r) then P (Z.of_nat j) else reach m i j.
Proof.
  intros [_ _ _ Hrow Ho] [He _] i j. rewrite !reach_elem. case_decide as E; [subst i|].
  - rewrite Hrow, He. done.
  - rewrite Ho by done. by rewrite reach_elem.
Qed.

Lemma row_set_square n m r s m' : square n m → wf_bitmatrix m' → row_set m r s m' → square n m'.
Proof. intros (_ & Hr & Hc) Hw [Hr' Hc' _ _ _]. split_and!; [done|congruence..]. Qed.

Lemma insert_reach n m r c : square n m → (r < n)%nat → (c < n)%nat →
  ∃ m' b, BitMatrix.insert m r (Z.of_nat c) = Ret (m', b) ∧ square n m' ∧
    (∀ i j, reach m' i j ↔ reach m i j ∨ i = r ∧ j = c) ∧ (b = true ↔ ¬ reach m r c).
Proof.
  intros Hs Hr Hc. pose proof Hs as (Hm & Hrow & Hcol).
  destruct (insert_matrix m r (Z.of_nat c)) as (m' & s & b & -> & Hw & Hset & Hu); [done|lia|lia|].
  exists m', b. split; [done|]. split; [by eapply row_set_square|]. split.
  - intros i j. rewrite (row_set_reach _ _ _ _ _ _ Hset Hu). case_decide as E; [subst i|tauto].
    rewrite <- reach_elem. split; intros [?|?]; [by left|right; lia|by left|right; lia].
  - destruct Hu as [_ ->]. rewrite reach_elem. split.
    + intros (y & Hy) Hin. destruct Hy. split; [tauto|]. intros [?| ->]; done.
    + intros Hn. exists (Z.of_nat c). tauto.
Qed.

Lemma union_rows_reach n m read write : square n m → (read < n)%nat → (write < n)%nat →
  ∃ m' b, BitMatrix.union_rows m read write = Ret (m', b) ∧ square n m' ∧
    (∀ i j, reach m' i j ↔ reach m i j ∨ i = write ∧ reach m read j) ∧
    (b = true ↔ ∃ j, reach m read j ∧ ¬ reach m write j).
Proof.
  intros Hs Hr Hc. pose proof Hs as (Hm & Hrow & Hcol).
  destruct (union_rows_matrix m read write) as (m' & s & b & -> & Hw & Hset & Hu); [done|lia|lia|].
  exists m', b. split; [done|]. split; [by eapply row_set_square|]. split.
  - intros i j. rewrite (row_set_reach _ _ _ _ _ _ Hset Hu). case_decide as E; [subst i; rewrite <- !reach_elem|]; tauto.
  - destruct Hu as [_ ->]. split.
    + intros (y & Hy). destruct (decide (0 ≤ y)) as [Hp|]; [|unfold dense_elem in Hy; tauto].
      exists (Z.to_nat y). rewrite !reach_elem, Z2Nat.id by done.
      unfold dense_elem in *. destruct (bit (BitSet.words (mrow m read)) y), (bit (BitSet.words (mrow m write)) y);
        intuition congruence.
    + intros (j & H1 & H2). exists (Z.of_nat j). rewrite !reach_elem in *. tauto.
Qed.

(** * The closure *)

Definition edges_ok (n : nat) (es : list Edge) : Prop := Forall (λ e, source e < n ∧ target e < n)%nat es.

(** The relation has the edges and what they make reachable in one more step. *)
Definition closed (es : list Edge) (m : BitMatrix.t) : Prop :=
  ∀ e, e ∈ es → reach m (source e) (target e) ∧ ∀ j, reach m (target e) j → reach m (source e) j.

Definition preserves (es : list Edge) (P : nat → nat → Prop) : Prop :=
  ∀ e, e ∈ es → P (source e) (target e) ∧ ∀ j, P (target e) j → P (source e) j.

(** One pass: it only adds, and only what every closed relation has; it answers
    whether it added something, and when not the relation is closed. *)
Record pass (n : nat) (es : list Edge) (m m' : BitMatrix.t) (changed : bool) : Prop := {
  pass_square : square n m';
  pass_grow i j : reach m i j → reach m' i j;
  pass_sound P : preserves es P → (∀ i j, reach m i j → P i j) → ∀ i j, reach m' i j → P i j;
  pass_changed : changed = true → ∃ i j, (i < n ∧ j < n)%nat ∧ reach m' i j ∧ ¬ reach m i j;
  pass_closed : changed = false → closed es m ∧ ∀ i j, reach m' i j → reach m i j;
}.

Lemma pass_edge n m e : square n m → (source e < n ∧ target e < n)%nat →
  ∃ m' b, (let! (m, c1) := BitMatrix.insert m (source e) (Z.of_nat (target e)) in
    let! (m, c2) := BitMatrix.union_rows m (target e) (source e) in Ret (m, c1 || c2)) = Ret (m', b) ∧
    pass n [e] m m' b.
Proof.
  intros Hs [H1 H2]. destruct (insert_reach n m (source e) (target e) Hs H1 H2) as (m1 & c1 & -> & Hs1 & Hr1 & Hc1).
  cbn [obind]. destruct (union_rows_reach n m1 (target e) (source e) Hs1 H2 H1) as (m2 & c2 & -> & Hs2 & Hr2 & Hc2).
  cbn [obind]. eexists _, _. split; [done|]. split; [done|..].
  - intros i j Hij. rewrite Hr2, Hr1. tauto.
  - intros P HP Hm i j. destruct (HP e ltac:(left)) as [He Hj].
    rewrite Hr2, !Hr1. intros [[?|[-> ->]]|[-> [?|[? ->]]]]; auto.
  - intros [Hb|Hb]%orb_true_iff.
    + apply Hc1 in Hb. exists (source e), (target e). rewrite Hr2, Hr1. tauto.
    + apply Hc2 in Hb as (j & Hj1 & Hj2). exists (source e), j. rewrite Hr2.
      pose proof (reach_bound n m1 _ _ Hs1 H2 Hj1). rewrite (Hr1 (source e) j) in Hj2. tauto.
  - intros [Hb1 Hb2]%orb_false_iff. rewrite Hb1 in Hc1. rewrite Hb2 in Hc2.
    assert (reach m (source e) (target e)) as Hin by (destruct (decide (reach m (source e) (target e))) as [|Hn]; [done|by apply Hc1 in Hn]).
    assert (∀ i j, reach m1 i j → reach m i j) as Hm1.
    { intros i j. rewrite Hr1. intros [?|[-> ->]]; done. }
    assert (∀ j, reach m1 (target e) j → reach m1 (source e) j) as Hsub.
    { intros j Hj. destruct (decide (reach m1 (source e) j)); [done|]. exfalso.
      discriminate (proj2 Hc2 ltac:(eauto)). }
    split.
    + intros e' ->%list_elem_of_singleton. split; [done|]. intros j Hj. apply Hm1, Hsub, Hr1. by left.
    + intros i j. rewrite Hr2. intros [?|[-> Hj]]; [by apply Hm1|]. by apply Hm1, Hsub.
Qed.

Lemma pass_app n es es' m m1 m2 b b' :
  pass n es m m1 b → pass n es' m1 m2 b' → pass n (es ++ es') m m2 (b || b').
Proof.
  intros [Hs Hg Ho Hc Hl] [Hs' Hg' Ho' Hc' Hl']. split; [done|auto|..].
  - intros P HP Hm. apply Ho'; [|apply Ho; [|done]]; intros e He; apply HP; apply elem_of_app; auto.
  - intros [Hb|Hb]%orb_true_iff.
    + destruct (Hc Hb) as (i & j & ? & ? & ?). exists i, j. auto.
    + destruct (Hc' Hb) as (i & j & ? & ? & ?). exists i, j. split; [done|]. split; [done|]. auto.
  - intros [Hb Hb']%orb_false_iff. destruct (Hl Hb) as [Hcl Hsame]. destruct (Hl' Hb') as [Hcl' Hsame'].
    split; [|auto]. intros e [He|He]%elem_of_app; [by apply Hcl|]. destruct (Hcl' e He) as [H1 H2].
    split; [by apply Hsame|]. intros j Hj. by apply Hsame, H2, Hg.
Qed.

Lemma pass_nil n m : square n m → pass n [] m m false.
Proof. intros Hs. split; [done|done|done|done|]. intros _. split; [|done]. intros e He. by apply elem_of_nil in He. Qed.

Lemma round_spec n es : ∀ m acc, square n m → edges_ok n es →
  ∃ m' b, fold_outcome (λ '(m, changed) e,
    let! (m, c1) := BitMatrix.insert m (source e) (Z.of_nat (target e)) in
    let! (m, c2) := BitMatrix.union_rows m (target e) (source e) in
    Ret (m, changed || c1 || c2)) es (m, acc) = Ret (m', acc || b) ∧ pass n es m m' b.
Proof.
  induction es as [|e es IH]; intros m acc Hs Hok.
  { exists m, false. rewrite orb_false_r. split; [done|]. by apply pass_nil. }
  apply Forall_inv in Hok as He. apply Forall_inv_tail in Hok. cbn [fold_outcome].
  destruct (pass_edge n m e Hs He) as (m1 & b1 & E & Hp1).
  destruct (BitMatrix.insert _ _ _) as [[m0 c1]|]; [|done]. cbn [obind] in *.
  destruct (BitMatrix.union_rows _ _ _) as [[m0' c2]|]; [|done]. cbn [obind] in *. injection E as -> <-.
  destruct (IH m1 (acc || c1 || c2) (pass_square _ _ _ _ _ Hp1) Hok) as (m2 & b2 & -> & Hp2).
  eexists _, _. split; [by rewrite <- !orb_assoc|]. rewrite orb_assoc. by apply (pass_app n [e] es m m1 m2).
Qed.

(** ** The loop ends *)

(** The cells that are not set *)
Definition missing (n : nat) (m : BitMatrix.t) : nat :=
  length (filter (λ p, ¬ reach m p.1 p.2) (list_prod (seq 0 n) (seq 0 n))).

Lemma missing_bound n m : (missing n m ≤ n * n)%nat.
Proof. unfold missing. etrans; [apply length_filter|]. by rewrite length_prod, length_seq. Qed.

Lemma missing_lt n es m m' : pass n es m m' true → (missing n m' < missing n m)%nat.
Proof.
  intros [_ Hg _ Hc _]. destruct (Hc eq_refl) as (i & j & Hij & H1 & H2).
  apply (filter_length_lt _ _ _ (i, j)); cbn; [|by apply list_elem_of_In, in_prod; apply in_seq; lia|done|tauto].
  intros [a b]. cbn. auto.
Qed.

Section Closure.
Context {HO : HashOrder} {HL : HashOrderLaws HO}.

Lemma elem_hash_iter es e : e ∈ hash_iter es ↔ e ∈ es.
Proof. by rewrite hash_iter_perm. Qed.

Lemma freeze_round_spec n es m : square n m → edges_ok n es →
  ∃ m' b, freeze_round es m = Ret (m', b) ∧ pass n es m m' b.
Proof.
  intros Hs Hok. destruct (round_spec n (hash_iter es) m false Hs) as (m' & b & Hr & Hp).
  { unfold edges_ok. by rewrite hash_iter_perm. }
  exists m', b. split; [done|]. destruct Hp as [? ? Ho ? Hl].
  assert (∀ P, preserves es P → preserves (hash_iter es) P) as Hpres.
  { intros P HP e He. apply HP. by apply elem_hash_iter. }
  split; [done..| |done|].
  - intros P HP. by apply Ho, Hpres.
  - intros Hb. destruct (Hl Hb) as [Hc ?]. split; [|done]. intros e He. apply Hc. by apply elem_hash_iter.
Qed.

Lemma freeze_loop_spec n es fuel : ∀ m, square n m → edges_ok n es → (missing n m < fuel)%nat →
  ∃ m', freeze_loop fuel es m = Ret m' ∧ square n m' ∧ closed es m' ∧
    ∀ P, preserves es P → (∀ i j, reach m i j → P i j) → ∀ i j, reach m' i j → P i j.
Proof.
  induction fuel as [|fuel IH]; intros m Hs Hok Hf; [lia|]. cbn [freeze_loop].
  destruct (freeze_round_spec n es m Hs Hok) as (m1 & b & -> & Hp). cbn [obind]. destruct b.
  - pose proof (missing_lt _ _ _ _ Hp). destruct (IH m1 (pass_square _ _ _ _ _ Hp) Hok) as (m2 & -> & ? & ? & Hsound); [lia|].
    exists m2. split_and!; [done..|]. intros P HP Hm. apply Hsound; [done|]. by apply (pass_sound _ _ _ _ _ Hp).
  - destruct (pass_closed _ _ _ _ _ Hp eq_refl) as [Hc Hsame]. exists m1. split_and!; [done|by apply Hp| |].
    + intros e He. destruct (Hc e He) as [H1 H2]. split; [by apply Hp|]. intros j Hj. by apply Hp, H2, Hsame.
    + apply Hp.
Qed.

(** A closed relation below every closed relation is the closure. *)
Definition edge_rel (es : list Edge) (i j : nat) : Prop := {| source := i; target := j |} ∈ es.

Lemma closed_tc es m i j : closed es m → tc (edge_rel es) i j → reach m i j.
Proof.
  intros Hc. induction 1 as [i j He|i k j He _ IH].
  - by destruct (Hc _ He).
  - destruct (Hc _ He) as [_ Hs]. by apply Hs.
Qed.

Lemma tc_preserves es : preserves es (tc (edge_rel es)).
Proof.
  intros [i j] He. split; [by apply tc_once|]. intros k Hk. by eapply tc_l.
Qed.

(** Sizes whose matrix fits the memory *)
Definition small (n : nat) : Prop := Z.of_nat n < 2 ^ 32.

Lemma small_domain n : small n → dense_domain (Z.of_nat n).
Proof. unfold small, dense_domain. lia. Qed.

Lemma new_square n : small n → square n (BitMatrix.new n (Z.of_nat n)) ∧ ∀ i j, ¬ reach (BitMatrix.new n (Z.of_nat n)) i j.
Proof.
  intros Hn. pose proof (small_domain n Hn) as Hd. pose proof (num_words_bounds _ Hd) as Hw. unfold small in Hn.
  destruct (new_matrix n (Z.of_nat n) Hd) as [Hwf He]; [nia|]. split; [by split_and!|].
  intros i j Hr%reach_elem. destruct (decide (i < n)%nat) as [|Hge]; [by eapply He|].
  destruct Hr as [_ Hb]. cbn [mrow BitSet.words] in Hb. unfold bit in Hb. rewrite row_of_lookup in Hb.
  case_decide as Hlt; [|done]. rewrite lookup_ge_None_2 in Hb; [done|]. rewrite (wfm_length _ Hwf). cbn in *. nia.
Qed.

Record wf_builder {T} (b : Builder T) : Prop := {
  wfb_nodup : NoDup (elements b);
  wfb_edges : edges_ok (length (elements b)) (edges b);
  wfb_small : small (length (elements b));
}.

Lemma freeze_spec {T} (b : Builder T) : wf_builder b →
  ∃ r, freeze b = Ret r ∧ builder r = b ∧ square (length (elements b)) (closure r) ∧
    ∀ i j, reach (closure r) i j ↔ tc (edge_rel (edges b)) i j.
Proof.
  intros [_ Hok Hn]. unfold freeze. destruct (new_square _ Hn) as [Hs He].
  pose proof (missing_bound (length (elements b)) (BitMatrix.new (length (elements b)) (Z.of_nat (length (elements b))))).
  destruct (freeze_loop_spec _ (edges b) (S (length (elements b) * length (elements b))) _ Hs Hok)
    as (m & -> & Hsq & Hc & Hsound); [lia|].
  eexists. split; [done|]. split_and!; [done..|]. intros i j. split; [|by apply closed_tc].
  apply (Hsound _ (tc_preserves _)). intros ? ? Hr. by apply He in Hr.
Qed.

End Closure.

(** * Elements *)

Section Elements.
Context {T : Type} {A : FxIndexSetApi T} {AL : FxIndexSetLaws T A} {HO : HashOrder} {HL : HashOrderLaws HO}.
Implicit Types b : Builder T.

(** The edges between elements *)
Definition related b (x y : T) : Prop :=
  ∃ i j, elements b !! i = Some x ∧ elements b !! j = Some y ∧ edge_rel (edges b) i j.

Lemma nodup_index (l : list T) i j x : NoDup l → l !! i = Some x → l !! j = Some x → i = j.
Proof. intros Hn Hi Hj. by eapply NoDup_lookup. Qed.

Lemma index_of_some b x i : wf_builder b → index_of b x = Some i ↔ elements b !! i = Some x.
Proof. intros Hb. apply fx_get_law, Hb. Qed.

Lemma index_of_none b x : wf_builder b → index_of b x = None → x ∉ elements b.
Proof.
  intros Hb E [i Hi]%list_elem_of_lookup. by rewrite <- index_of_some, E in Hi.
Qed.

(** [add_index] keeps the indices of the elements and gives one to [a]. *)
Lemma add_index_spec b x :
  NoDup (elements b) →
  ∃ es i, add_index b x = ({| elements := es; edges := edges b |}, i) ∧ NoDup es ∧
    es !! i = Some x ∧ elements b `prefix_of` es ∧ (length es ≤ S (length (elements b)))%nat.
Proof.
  intros Hn. unfold add_index. destruct (fx_get_index_of (elements b) x) as [i|] eqn:E.
  - apply fx_get_law in E; [|done]. rewrite (fx_insert_old _ _ i) by done.
    eexists _, _. split; [done|]. split_and!; [done..|lia].
  - assert (x ∉ elements b) as Hx.
    { intros [i Hi]%list_elem_of_lookup. apply (fx_get_law _ _ _ Hn) in Hi. congruence. }
    rewrite fx_insert_new by done. eexists _, _. split; [done|]. split_and!.
    + apply list.NoDup_app. split_and!; [done| |apply NoDup_singleton]. intros y Hy ->%list_elem_of_singleton. done.
    + by rewrite lookup_app_r, Nat.sub_diag by lia.
    + by eexists.
    + rewrite length_app. cbn. lia.
Qed.

Lemma edges_ok_mono n n' es : (n ≤ n')%nat → edges_ok n es → edges_ok n' es.
Proof. intros Hn. apply List.Forall_impl. lia. Qed.

Lemma elem_insert_edge e e' es : e ∈ insert_edge e' es ↔ e ∈ es ∨ e = e'.
Proof.
  unfold insert_edge. case_decide; [|by rewrite elem_of_app, list_elem_of_singleton].
  split; [tauto|]. intros [?| ->]; done.
Qed.

Lemma add_spec b x y : wf_builder b → small (2 + length (elements b)) →
  wf_builder (add b x y) ∧ (length (elements (add b x y)) ≤ 2 + length (elements b))%nat ∧
  ∀ u v, related (add b x y) u v ↔ related b u v ∨ u = x ∧ v = y.
Proof.
  intros [Hn Hok Hs] Hsmall. unfold add.
  destruct (add_index_spec b x Hn) as (es & i & -> & Hn1 & Hi & Hp1 & Hl1).
  destruct (add_index_spec {| elements := es; edges := edges b |} y Hn1) as (es' & j & -> & Hn2 & Hj & Hp2 & Hl2).
  cbn [elements edges] in *. assert (es' !! i = Some x) as Hi' by (by eapply prefix_lookup_Some).
  assert (elements b `prefix_of` es') as Hp by (by etrans).
  pose proof (lookup_lt_Some _ _ _ Hi'). pose proof (lookup_lt_Some _ _ _ Hj). pose proof (prefix_length _ _ Hp).
  split; [split; cbn [elements edges]; [done|..]|split; [cbn; lia|]].
  - apply list.Forall_forall. intros e [He| ->]%elem_insert_edge; [|cbn; lia].
    apply (edges_ok_mono _ (length es')) in Hok; [|done]. unfold edges_ok in Hok. rewrite list.Forall_forall in Hok. by apply Hok.
  - unfold small in *. lia.
  - intros u v. unfold related, edge_rel. cbn [elements edges]. setoid_rewrite elem_insert_edge. split.
    + intros (k & l & Hk & Hl & [He|[= -> ->]]).
      * left. exists k, l. unfold edges_ok in Hok. rewrite list.Forall_forall in Hok. destruct (Hok _ He) as [Hks Hlt]. cbn in Hks, Hlt.
        split_and!; [|..|done].
        -- destruct Hp as [w ->]. by rewrite lookup_app_l in Hk by lia.
        -- destruct Hp as [w ->]. by rewrite lookup_app_l in Hl by lia.
      * right. split; congruence.
    + intros [(k & l & Hk & Hl & He)|[-> ->]].
      * exists k, l. split_and!; [by eapply prefix_lookup_Some..|by left].
      * exists i, j. split_and!; [done..|by right].
Qed.

(** A path of edges between indices is one between elements. *)
Lemma tc_related b i j x y : wf_builder b → elements b !! i = Some x → elements b !! j = Some y →
  tc (edge_rel (edges b)) i j ↔ tc (related b) x y.
Proof.
  intros Hb Hx Hy. pose proof Hb as [Hn Hok _]. unfold edges_ok in Hok. rewrite list.Forall_forall in Hok. split.
  - intros Hp. revert x Hx. induction Hp as [i j He|i k j He Hp IH]; intros x Hx.
    + apply tc_once. by exists i, j.
    + destruct (Hok _ He) as [_ Hk]. cbn in Hk. destruct (lookup_lt_is_Some_2 _ _ Hk) as [z Hz].
      eapply tc_l; [by exists i, k|]. by apply IH.
  - intros Hp. revert i Hx. induction Hp as [x y (i' & j' & Hi & Hj & He)|x z y (i' & k & Hi & Hk & He) Hp IH]; intros i Hx.
    + apply tc_once. by rewrite (nodup_index _ _ _ _ Hn Hx Hi), (nodup_index _ _ _ _ Hn Hy Hj).
    + rewrite (nodup_index _ _ _ _ Hn Hx Hi). eapply tc_l; [exact He|]. by apply IH.
Qed.

(** A frozen relation and its closure *)
Definition wf_relation (r : Relation T) : Prop :=
  wf_builder (builder r) ∧ square (length (elements (builder r))) (closure r) ∧
  ∀ i j, reach (closure r) i j ↔ tc (edge_rel (edges (builder r))) i j.

Lemma freeze_wf b : wf_builder b → ∃ r, freeze b = Ret r ∧ builder r = b ∧ wf_relation r.
Proof.
  intros Hb. destruct (freeze_spec b Hb) as (r & Hr & E & Hs & He). exists r. split_and!; [done..|].
  unfold wf_relation. rewrite E. done.
Qed.

Lemma tc_related_elem b x y : tc (related b) x y → x ∈ elements b ∧ y ∈ elements b.
Proof.
  induction 1 as [x y (i & j & Hi & Hj & _)|x z y (i & k & Hi & Hk & _) _ IH].
  - split; by eapply list_elem_of_lookup_2.
  - split; [by eapply list_elem_of_lookup_2|tauto].
Qed.

Lemma contains_relation r x y : wf_relation r →
  ∃ c, contains r x y = Ret c ∧ (c = true ↔ tc (related (builder r)) x y).
Proof.
  intros (Hb & Hs & Hc). unfold contains.
  destruct (index_of (builder r) x) as [i|] eqn:Ei, (index_of (builder r) y) as [j|] eqn:Ej;
    [apply index_of_some in Ei, Ej; try done|..].
  - pose proof (lookup_lt_Some _ _ _ Ei). pose proof (lookup_lt_Some _ _ _ Ej).
    rewrite (contains_reach _ _ _ _ Hs) by done. eexists. split; [done|].
    rewrite bool_decide_eq_true, Hc. by apply tc_related.
  - eexists. split; [done|]. split; [done|]. intros [_ Hy]%tc_related_elem. by apply index_of_none in Ej.
  - eexists. split; [done|]. split; [done|]. intros [Hx _]%tc_related_elem. by apply index_of_none in Ei.
  - eexists. split; [done|]. split; [done|]. intros [Hx _]%tc_related_elem. by apply index_of_none in Ei.
Qed.

(** ** From indices to elements *)

Lemma elements_at_spec b ixs :
  Forall (λ i, 0 ≤ i < Z.of_nat (length (elements b))) ixs →
  ∃ xs, elements_at b ixs = Ret xs ∧ Forall2 (λ i x, elements b !! Z.to_nat i = Some x) ixs xs.
Proof.
  induction ixs as [|i ixs IH]; intros Hok; [by exists []|].
  apply Forall_inv in Hok as Hi. apply Forall_inv_tail in Hok. cbn [elements_at].
  destruct (lookup_lt_is_Some_2 (elements b) (Z.to_nat i)) as [x Hx]; [lia|]. unfold index. rewrite Hx. cbn [unwrap obind].
  destruct (IH Hok) as (xs & -> & Hxs). exists (x :: xs). split; [done|]. by constructor.
Qed.

Lemma elem_forall2 b ixs xs x : Forall2 (λ i x, elements b !! Z.to_nat i = Some x) ixs xs →
  x ∈ xs ↔ ∃ i, i ∈ ixs ∧ elements b !! Z.to_nat i = Some x.
Proof.
  intros Hf. split.
  - intros [k Hk]%list_elem_of_lookup. destruct (Forall2_lookup_r _ _ _ _ _ Hf Hk) as (i & Hi & ?).
    exists i. split; [by eapply list_elem_of_lookup_2|done].
  - intros (i & [k Hk]%list_elem_of_lookup & Hx). destruct (Forall2_lookup_l _ _ _ _ _ Hf Hk) as (y & Hy & E).
    assert (x = y) as -> by congruence. by eapply list_elem_of_lookup_2.
Qed.

Lemma reachable_from_spec r x : wf_relation r →
  ∃ xs, reachable_from r x = Ret xs ∧ ∀ y, y ∈ xs ↔ tc (related (builder r)) x y.
Proof.
  intros (Hb & Hs & Hc). unfold reachable_from. destruct (index_of (builder r) x) as [i|] eqn:Ei.
  2: { exists []. split; [done|]. intros y. rewrite elem_of_nil. split; [done|].
       intros [Hx _]%tc_related_elem. by apply index_of_none in Ei. }
  apply index_of_some in Ei; [|done]. pose proof (lookup_lt_Some _ _ _ Ei) as Hi.
  pose proof Hs as (Hm & Hrow & Hcol). pose proof (wfb_small _ Hb) as Hsm. unfold small in Hsm.
  rewrite iter_matrix; [|done|lia|rewrite Hcol, usize_max; lia].
  destruct (iter_dense _ (mrow (closure r) i) ltac:(apply (wfm_row _ Hm); lia)) as (-> & _ & He);
    [rewrite Hcol, usize_max; lia|]. cbn [obind].
  assert (∀ k, k ∈ items 0 (BitSet.words (mrow (closure r) i)) ↔ 0 ≤ k ∧ reach (closure r) i (Z.to_nat k)) as Hk.
  { intros k. rewrite He. unfold elem_of, bitset_elem_of, reach, dense_elem. split; intros [? Hb']; (split; [done|]);
      by rewrite Z2Nat.id in * by done. }
  destruct (elements_at_spec (builder r) (items 0 (BitSet.words (mrow (closure r) i)))) as (xs & -> & Hxs).
  { apply list.Forall_forall. intros k [? Hr]%Hk. apply (reach_bound _ _ _ _ Hs) in Hr; lia. }
  exists xs. split; [done|]. intros y. rewrite (elem_forall2 _ _ _ _ Hxs). split.
  - intros (k & [? Hr]%Hk & Hy). apply Hc in Hr. by eapply tc_related.
  - intros Hp. destruct (tc_related_elem _ _ _ Hp) as [_ [j Hj]%list_elem_of_lookup].
    exists (Z.of_nat j). rewrite Hk, Nat2Z.id. split; [|done]. split; [lia|]. by apply Hc, (tc_related _ _ _ _ _ Hb Ei Hj).
Qed.

End Elements.

(** * Paring down *)

Section PareDown.
Context (n : nat) (m : BitMatrix.t) (Hs : square n m).

Definition rz (x y : Z) : Prop := reach m (Z.to_nat x) (Z.to_nat y).

#[local] Instance rz_dec x y : Decision (rz x y).
Proof. unfold rz. apply _. Defined.

Definition in_bounds (l : list Z) : Prop := Forall (λ x, 0 ≤ x < Z.of_nat n) l.

Lemma contains_rz x y : 0 ≤ x < Z.of_nat n → 0 ≤ y < Z.of_nat n →
  BitMatrix.contains m (Z.to_nat x) y = Ret (bool_decide (rz x y)).
Proof. intros Hx Hy. rewrite <- (Z2Nat.id y) at 1 by lia. apply (contains_reach n); [done|lia..]. Qed.

(** The inner loop moves the candidates that are not reached over the dead ones. *)
Lemma pare_inner_ret x rest : ∀ p dead, 0 ≤ x < Z.of_nat n → in_bounds rest →
  pare_inner m x (length rest) (length p + length dead) (length dead) (p ++ dead ++ rest) =
    Ret (p ++ filter (λ y, ¬ rz x y) rest).
Proof.
  induction rest as [|y rest IH]; intros p dead Hx Hok.
  { cbn. by rewrite Nat.add_sub, !app_nil_r, take_app_length. }
  apply Forall_inv in Hok as Hy. apply Forall_inv_tail in Hok. cbn [length pare_inner].
  assert ((p ++ dead ++ y :: rest) !! (length p + length dead)%nat = Some y) as ->.
  { rewrite (assoc_L (++)), lookup_app_r, length_app, Nat.sub_diag by (rewrite length_app; lia). done. }
  rewrite contains_rz by done. cbn [obind]. rewrite filter_cons. case_bool_decide as E.
  - rewrite decide_False by tauto. specialize (IH p (dead ++ [y]) Hx Hok).
    rewrite length_app, Nat.add_1_r, Nat.add_succ_r, <- (assoc_L (++) dead) in IH. exact IH.
  - rewrite decide_True by done. rewrite Nat.add_sub. unfold index_set.
    rewrite (proj2 (Nat.ltb_lt _ _)) by (rewrite !length_app; cbn; lia). cbn [rassert obind].
    replace (p ++ y :: filter (λ y, ¬ rz x y) rest) with ((p ++ [y]) ++ filter (λ y, ¬ rz x y) rest)
      by (by rewrite <- app_assoc).
    destruct dead as [|d dead].
    + specialize (IH (p ++ [y]) [] Hx Hok). cbn [length app] in *.
      rewrite length_app, !Nat.add_0_r, Nat.add_1_r in *.
      rewrite list_insert_id; [by rewrite <- app_assoc in IH|]. by rewrite lookup_app_r, Nat.sub_diag by lia.
    + specialize (IH (p ++ [y]) (dead ++ [y]) Hx Hok).
      rewrite !length_app in IH. cbn [length] in *.
      replace (length p + 1 + (length dead + 1))%nat with (S (length p + S (length dead))) in IH by lia.
      rewrite Nat.add_1_r in IH. rewrite <- IH. f_equal.
      rewrite insert_app_r_alt, Nat.sub_diag by lia. cbn. by rewrite <- !app_assoc.
Qed.

(** What [pare_down] keeps of [q]: no candidate that an earlier one reaches,
    and one that reaches each of the others *)
Record pared (q res : list Z) : Prop := {
  pared_sub : sublist res q;
  pared_first : StronglySorted (λ x y, ¬ rz x y) res;
  pared_cover x : x ∈ q → x ∈ res ∨ ∃ y, y ∈ res ∧ rz y x;
}.

Lemma pare_outer_ret k : ∀ p q, in_bounds q → (length q ≤ k)%nat →
  ∃ res, pare_outer m k (length p) (p ++ q) = Ret (p ++ res) ∧ pared q res.
Proof.
  induction k as [|k IH]; intros p q Hq Hk.
  { destruct q; [|cbn in Hk; lia]. exists []. split; [done|]. split; [done|constructor|]. intros x Hx. by apply elem_of_nil in Hx. }
  cbn [pare_outer]. destruct q as [|x q].
  { rewrite app_nil_r, lookup_ge_None_2 by done. exists []. rewrite app_nil_r. split; [done|].
    split; [done|constructor|]. intros x Hx. by apply elem_of_nil in Hx. }
  apply Forall_inv in Hq as Hx. apply Forall_inv_tail in Hq. rewrite lookup_app_r, Nat.sub_diag by lia. cbn [lookup list_lookup].
  pose proof (pare_inner_ret x q (p ++ [x]) [] Hx Hq) as Hin. cbn [length app] in Hin.
  rewrite Nat.add_0_r, length_app, Nat.add_1_r, <- app_assoc in Hin. cbn [app] in Hin.
  replace (length (p ++ x :: q) - S (length p))%nat with (length q) by (rewrite length_app; cbn; lia).
  rewrite Hin. cbn [obind]. cbn [length] in Hk.
  assert (in_bounds (filter (λ y, ¬ rz x y) q)) as Hf.
  { apply list.Forall_forall. intros y [_ Hy]%list_elem_of_filter. unfold in_bounds in Hq. rewrite list.Forall_forall in Hq. by apply Hq. }
  destruct (IH (p ++ [x]) (filter (λ y, ¬ rz x y) q) Hf) as (res & Hr & [Hsub Hfirst Hcov]).
  { pose proof (length_filter (λ y, ¬ rz x y) q). lia. }
  rewrite length_app, Nat.add_1_r in Hr. exists (x :: res).
  split; [replace (p ++ x :: res) with ((p ++ [x]) ++ res) by (by rewrite <- app_assoc); done|]. split.
  - apply sublist_skip. etrans; [exact Hsub|]. apply sublist_filter.
  - constructor; [done|]. apply list.Forall_forall. intros y Hy.
    apply (sublist_subseteq _ _ Hsub) in Hy. by apply list_elem_of_filter in Hy as [? _].
  - intros y [->|Hy]%elem_of_cons; [left; left|]. destruct (decide (rz x y)) as [Hxy|Hxy].
    + right. exists x. split; [left|done].
    + destruct (Hcov y) as [?|(z & ? & ?)]; [by apply list_elem_of_filter|left; by right|].
      right. exists z. split; [by right|done].
Qed.

Lemma pare_down_ret q : in_bounds q → ∃ res, pare_down q m = Ret res ∧ pared q res.
Proof. intros Hq. by apply (pare_outer_ret (length q) [] q). Qed.

Lemma in_bounds_sub l l' : (∀ x, x ∈ l → x ∈ l') → in_bounds l' → in_bounds l.
Proof. unfold in_bounds. rewrite !list.Forall_forall. auto. Qed.

Lemma sorted_sublist {B} (R : B → B → Prop) l l' : sublist l l' → StronglySorted R l' → StronglySorted R l.
Proof.
  induction 1 as [|x l l' Hsub IH|x l l' Hsub IH]; intros Hl; [done|..]; inversion_clear Hl as [|? ? Hl' Hx]; [|auto].
  constructor; [auto|]. rewrite list.Forall_forall in *. intros y Hy. apply Hx. by eapply sublist_subseteq.
Qed.

Lemma sorted_reverse {B} (R : B → B → Prop) l : StronglySorted R l → StronglySorted (flip R) (reverse l).
Proof.
  induction 1 as [|x l Hl IH Hx]; [constructor|]. rewrite reverse_cons. apply StronglySorted_app_2; [|done|].
  - intros y z Hy%list_elem_of_In ->%list_elem_of_singleton. rewrite list.Forall_forall in Hx.
    apply Hx. by apply elem_of_reverse, list_elem_of_In.
  - repeat constructor.
Qed.

Lemma sorted_both {B} (R S : B → B → Prop) l x y : StronglySorted R l → StronglySorted S l →
  x ∈ l → y ∈ l → x ≠ y → (R x y ∧ S x y) ∨ (R y x ∧ S y x).
Proof.
  intros Hr Hss Hx Hy Hne. induction Hr as [|z l Hr IH Hz]; [by apply elem_of_nil in Hx|].
  inversion_clear Hss as [|? ? Hs' Hz']. rewrite list.Forall_forall in Hz, Hz'.
  apply elem_of_cons in Hx as [->|Hx], Hy as [->|Hy]; auto. done.
Qed.

(** An antichain that covers the candidates *)
Record minimal (q res : list Z) : Prop := {
  minimal_sub x : x ∈ res → x ∈ q;
  minimal_nodup : NoDup res;
  minimal_antichain x y : x ∈ res → y ∈ res → x ≠ y → ¬ rz x y;
  minimal_cover x : x ∈ q → x ∈ res ∨ ∃ y, y ∈ res ∧ rz y x;
}.

Lemma minimize_ret q : in_bounds q → NoDup q → (∀ x y z, rz x y → rz y z → rz x z) →
  ∃ res, minimize q m = Ret res ∧ minimal q res.
Proof.
  intros Hq Hn Htr. unfold minimize. destruct (pare_down_ret q Hq) as (l & -> & [Hsub Hfirst Hcov]). cbn [obind].
  assert (∀ x, x ∈ l → x ∈ q) as Hin by (intros x; by apply sublist_subseteq).
  destruct (pare_down_ret (reverse l)) as (res & -> & [Hsub' Hfirst' Hcov']).
  { apply (in_bounds_sub _ q); [|done]. intros x Hx. by apply Hin, elem_of_reverse. }
  assert (∀ x, x ∈ res → x ∈ l) as Hin' 
    by (intros x Hx%(sublist_subseteq _ _ Hsub'); by rewrite elem_of_reverse in Hx).
  exists res. split; [done|]. split; [auto|..].
  - eapply sublist_NoDup; [|exact Hsub']. rewrite reverse_Permutation. by eapply sublist_NoDup.
  - intros x y Hx Hy Hne. apply sorted_reverse, (sorted_sublist _ _ _ Hsub') in Hfirst.
    destruct (sorted_both _ _ _ x y Hfirst Hfirst' Hx Hy Hne) as [[? ?]|[? ?]]; done.
  - intros x Hx. assert (∀ y, y ∈ l → y ∈ res ∨ ∃ z, z ∈ res ∧ rz z y) as Hl.
    { intros y Hy. apply Hcov'. by apply elem_of_reverse. }
    destruct (Hcov x Hx) as [?|(y & Hy & Hyx)]; [auto|].
    destruct (Hl y Hy) as [?|(z & ? & ?)]; right; eauto.
Qed.

End PareDown.

(** * Upper bounds *)

Section Bounds.
Context {T : Type} {A : FxIndexSetApi T} {AL : FxIndexSetLaws T A} {HO : HashOrder} {HL : HashOrderLaws HO}.
Context (r : Relation T) (Hwf : wf_relation r).

(** [x < y] in the relation *)
Definition above (x y : T) : Prop := tc (related (builder r)) x y.

Lemma above_trans x y z : above x y → above y z → above x z.
Proof. apply tc_transitive. Qed.

Lemma above_index i j x y : elements (builder r) !! i = Some x → elements (builder r) !! j = Some y →
  reach (closure r) i j ↔ above x y.
Proof. destruct Hwf as (Hb & _ & Hc). intros Hi Hj. rewrite Hc. by apply tc_related. Qed.

Lemma rz_trans x y z : rz (closure r) x y → rz (closure r) y z → rz (closure r) x z.
Proof. destruct Hwf as (_ & _ & Hc). unfold rz. rewrite !Hc. apply tc_transitive. Qed.

(** The indices that both rows have *)
Lemma candidates_spec a b : (a < length (elements (builder r)))%nat → (b < length (elements (builder r)))%nat →
  ∃ q, BitMatrix.intersect_rows (closure r) a b = Ret q ∧ NoDup q ∧ in_bounds (length (elements (builder r))) q ∧
    ∀ k, k ∈ q ↔ 0 ≤ k ∧ reach (closure r) a (Z.to_nat k) ∧ reach (closure r) b (Z.to_nat k).
Proof.
  destruct Hwf as (Hb & Hs & Hc). intros Ha Hb'. pose proof Hs as (Hm & Hrow & Hcol).
  pose proof (wfb_small _ Hb) as Hsm. unfold small in Hsm.
  destruct (intersect_rows_matrix (closure r) a b) as (q & -> & Hsort & Hq); [done|lia|lia|rewrite Hcol, usize_max; lia|].
  assert (∀ k, k ∈ q ↔ 0 ≤ k ∧ reach (closure r) a (Z.to_nat k) ∧ reach (closure r) b (Z.to_nat k)) as Hk.
  { intros k. rewrite Hq. unfold reach, dense_elem. split.
    - intros [[? ?] [_ ?]]. by rewrite Z2Nat.id.
    - intros (? & H1 & H2). by rewrite Z2Nat.id in H1, H2 by done. }
  exists q. split_and!; [done|..|done].
  - clear -Hsort. induction Hsort as [|x l Hl IH Hx]; constructor; [|done]. intros Hin.
    rewrite list.Forall_forall in Hx. specialize (Hx x Hin). lia.
  - apply list.Forall_forall. intros k (? & Hr & _)%Hk. apply (reach_bound _ _ _ _ Hs Ha) in Hr. lia.
Qed.

(** The elements at an antichain of indices *)
Lemma minimal_elements q res P :
  in_bounds (length (elements (builder r))) q → minimal (closure r) q res →
  (∀ k, k ∈ q ↔ 0 ≤ k ∧ ∃ z, elements (builder r) !! Z.to_nat k = Some z ∧ P z) →
  ∃ xs, elements_at (builder r) (reverse res) = Ret xs ∧ NoDup xs ∧
    (∀ z, z ∈ xs → P z) ∧ (∀ z z', z ∈ xs → z' ∈ xs → z ≠ z' → ¬ above z z') ∧
    (∀ u, u ∈ elements (builder r) → P u → u ∈ xs ∨ ∃ z, z ∈ xs ∧ above z u).
Proof.
  intros Hq [Hsub Hn Hanti Hcov] HP. pose proof Hwf as (Hb & _ & _).
  assert (in_bounds (length (elements (builder r))) (reverse res)) as Hok.
  { apply (in_bounds_sub _ _ q); [|done]. intros x Hx. by apply Hsub, elem_of_reverse. }
  destruct (elements_at_spec _ _ Hok) as (xs & -> & Hxs). exists xs. split; [done|].
  assert (∀ z, z ∈ xs ↔ ∃ k, k ∈ res ∧ elements (builder r) !! Z.to_nat k = Some z) as Hz.
  { intros z. rewrite (elem_forall2 _ _ _ _ Hxs). by setoid_rewrite elem_of_reverse. }
  assert (∀ k k' z, k ∈ res → k' ∈ res → elements (builder r) !! Z.to_nat k = Some z →
    elements (builder r) !! Z.to_nat k' = Some z → k = k') as Hinj.
  { intros k k' z Hk%Hsub%HP Hk'%Hsub%HP E E'. pose proof (nodup_index _ _ _ _ (wfb_nodup _ Hb) E E'). lia. }
  split_and!.
  - apply NoDup_alt. intros i j z Hi Hj.
    destruct (Forall2_lookup_r _ _ _ _ _ Hxs Hi) as (k & Hk & Ek). destruct (Forall2_lookup_r _ _ _ _ _ Hxs Hj) as (k' & Hk' & Ek').
    assert (k = k') as <-.
    { apply (Hinj _ _ z); try done; apply elem_of_reverse; by eapply list_elem_of_lookup_2. }
    eapply (NoDup_lookup (reverse res)); [|exact Hk|exact Hk']. by rewrite reverse_Permutation.
  - intros z (k & Hk%Hsub%HP & E)%Hz. destruct Hk as (_ & z' & ? & ?). congruence.
  - intros z z' (k & Hk & E)%Hz (k' & Hk' & E')%Hz Hne. rewrite <- (above_index _ _ _ _ E E'). apply Hanti; [done..|].
    intros ->. congruence.
  - intros u [i Hi]%list_elem_of_lookup Hu. destruct (Hcov (Z.of_nat i)) as [Hin|(k & Hk & Hr)].
    + apply HP. split; [lia|]. exists u. by rewrite Nat2Z.id.
    + left. apply Hz. exists (Z.of_nat i). by rewrite Nat2Z.id.
    + right. pose proof (proj1 (HP _) (Hsub _ Hk)) as (_ & z & Ez & _). exists z. split; [apply Hz; eauto|].
      unfold rz in Hr. rewrite Nat2Z.id in Hr. by apply (above_index _ _ _ _ Ez Hi).
Qed.

(** What the bounds of two elements are: nothing when one of them is unknown,
    the greater one when they are comparable, otherwise an antichain of common
    upper bounds that every common upper bound is in or above *)
Record mubs (x y : T) (xs : list T) : Prop := {
  mubs_unknown : x ∉ elements (builder r) ∨ y ∉ elements (builder r) → xs = [];
  mubs_comparable : above x y ∨ above y x → ∃ z, xs = [z] ∧ (z = y ∧ above x y ∨ z = x ∧ above y x);
  mubs_nodup : NoDup xs;
  mubs_bound z : z ∈ xs → (z = x ∨ above x z) ∧ (z = y ∨ above y z);
  mubs_antichain z z' : z ∈ xs → z' ∈ xs → z ≠ z' → ¬ above z z';
  mubs_above z : ¬ above x y → ¬ above y x → z ∈ xs → above x z ∧ above y z;
  mubs_cover u : ¬ above x y → ¬ above y x → above x u → above y u → u ∈ xs ∨ ∃ z, z ∈ xs ∧ above z u;
}.

Lemma mubs_sym x y xs : mubs x y xs → mubs y x xs.
Proof.
  intros [H1 H2 H3 H4 H5 H6 H7]. split; [tauto| |done| |done|..].
  - intros H. destruct H2 as (z & -> & Hz); [tauto|]. exists z. tauto.
  - intros z Hz. specialize (H4 z Hz). tauto.
  - intros z ? ? Hz. specialize (H6 z). tauto.
  - intros u ? ? ? ?. by apply H7.
Qed.

(** One element above another *)
Lemma mubs_single x y i j :
  elements (builder r) !! i = Some x → elements (builder r) !! j = Some y → above x y →
  ∃ xs, elements_at (builder r) (reverse [Z.of_nat j]) = Ret xs ∧ mubs x y xs.
Proof.
  intros Hi Hj Hxy. exists [y]. split; [cbn; unfold index; by rewrite Nat2Z.id, Hj|]. split.
  - intros [[]|[]]; by eapply list_elem_of_lookup_2.
  - intros _. exists y. auto.
  - apply NoDup_singleton.
  - intros z ->%list_elem_of_singleton. auto.
  - intros z z' ->%list_elem_of_singleton ->%list_elem_of_singleton. done.
  - done.
  - done.
Qed.

Lemma mubs_incomparable x y i j :
  elements (builder r) !! i = Some x → elements (builder r) !! j = Some y → ¬ above x y → ¬ above y x →
  ∃ xs, (let! q := BitMatrix.intersect_rows (closure r) i j in
    let! l := minimize q (closure r) in elements_at (builder r) (reverse l)) = Ret xs ∧ mubs x y xs.
Proof.
  intros Hi Hj H1 H2. pose proof Hwf as (Hb & Hs & _).
  destruct (candidates_spec i j) as (q & -> & Hn & Hok & Hq); [by eapply lookup_lt_Some..|]. cbn [obind].
  destruct (minimize_ret _ _ Hs q Hok Hn rz_trans) as (l & -> & Hl). cbn [obind].
  destruct (minimal_elements q l (λ z, above x z ∧ above y z) Hok Hl) as (xs & -> & Hnx & Hb1 & Hb2 & Hb3).
  { intros k. rewrite Hq. split.
    - intros (? & Ha & Hb'). split; [done|]. pose proof (reach_bound _ _ _ _ Hs (lookup_lt_Some _ _ _ Hi) Ha) as Hk.
      destruct (lookup_lt_is_Some_2 _ _ Hk) as [z Hz]. exists z. by rewrite <- (above_index _ _ _ _ Hi Hz), <- (above_index _ _ _ _ Hj Hz).
    - intros (? & z & Hz & ? & ?). by rewrite (above_index _ _ _ _ Hi Hz), (above_index _ _ _ _ Hj Hz). }
  exists xs. split; [done|]. split; try done.
  - intros [[]|[]]; by eapply list_elem_of_lookup_2.
  - tauto.
  - intros z [? ?]%Hb1. auto.
  - intros z _ _ Hz. by apply Hb1.
  - intros u _ _ Hu1 Hu2. apply Hb3; [|done]. by apply tc_related_elem in Hu1 as [_ ?].
Qed.

Lemma minimal_upper_bounds_spec x y : ∃ xs, minimal_upper_bounds r x y = Ret xs ∧ mubs x y xs.
Proof.
  pose proof Hwf as (Hb & Hs & _). unfold minimal_upper_bounds.
  assert (∀ u v, u ∉ elements (builder r) ∨ v ∉ elements (builder r) → mubs u v []) as Hnone.
  { intros u v Hn. assert (¬ above u v ∧ ¬ above v u) as [Hu Hv].
    { split; intros [? ?]%tc_related_elem; tauto. }
    split; [done|tauto|by apply list.NoDup_nil|by intros z ?%elem_of_nil|by intros z z' ?%elem_of_nil|by intros z _ _ ?%elem_of_nil|].
    intros w _ _ [? _]%tc_related_elem [? _]%tc_related_elem. tauto. }
  destruct (index_of (builder r) x) as [i|] eqn:Ei, (index_of (builder r) y) as [j|] eqn:Ej;
    try apply index_of_none in Ei; try apply index_of_none in Ej; try done; try (exists []; split; [done|]; by auto).
  apply index_of_some in Ei, Ej; try done.
  assert (∀ a b u v, elements (builder r) !! a = Some u → elements (builder r) !! b = Some v →
    ∃ xs, (let! ab := BitMatrix.contains (closure r) a (Z.of_nat b) in
      let! lub_indices := if ab then Ret [Z.of_nat b] else
          let! ba := BitMatrix.contains (closure r) b (Z.of_nat a) in
          if ba then Ret [Z.of_nat a] else
            let! candidates := BitMatrix.intersect_rows (closure r) a b in minimize candidates (closure r) in
      elements_at (builder r) (reverse lub_indices)) = Ret xs ∧ mubs u v xs) as Hgo.
  { intros a b u v Ha Hb'. pose proof (lookup_lt_Some _ _ _ Ha). pose proof (lookup_lt_Some _ _ _ Hb').
    rewrite !(contains_reach _ _ _ _ Hs) by done. cbn [obind]. case_bool_decide as Hab.
    { cbn [obind]. apply (mubs_single u v a b); [done..|]. by apply (above_index a b). }
    case_bool_decide as Hba.
    { cbn [obind]. destruct (mubs_single v u b a) as (xs & ? & ?); [done..|by apply (above_index b a)|].
      exists xs. split; [done|]. by apply mubs_sym. }
    rewrite (above_index _ _ _ _ Ha Hb') in Hab. rewrite (above_index _ _ _ _ Hb' Ha) in Hba.
    destruct (mubs_incomparable u v a b Ha Hb' Hab Hba) as (xs & Hxs & ?). exists xs. split; [|done].
    destruct (BitMatrix.intersect_rows (closure r) a b); [|done]. done. }
  destruct (Nat.ltb_spec j i).
  - destruct (Hgo j i y x Ej Ei) as (xs & Hxs & ?). exists xs. split; [done|]. by apply mubs_sym.
  - by apply Hgo.
Qed.

(** ** Termination of [mutual_immediate_postdominator] *)

#[local] Instance above_dec x y : Decision (above x y).
Proof.
  refine (match contains r x y as c return contains r x y = c → _ with
    | Ret true => λ E, left _ | _ => λ E, right _ end eq_refl);
    destruct (contains_relation r x y Hwf) as (c & Hc & Ha); rewrite E in Hc; try done; injection Hc as <-.
  - by apply Ha.
  - intros H%Ha. done.
Defined.

(** The number of elements strictly above one *)
Definition height (x : T) : nat := length (filter (λ y, above x y ∧ ¬ above y x) (elements (builder r))).

Lemma height_lt x z : above x z → ¬ above z x → (height z < height x)%nat.
Proof.
  intros Hxz Hzx. apply (filter_length_lt _ _ _ z).
  - intros y [H1 H2]. split; [by eapply above_trans|]. intros Hyx. apply H2. by eapply above_trans.
  - by apply tc_related_elem in Hxz as [_ ?].
  - done.
  - tauto.
Qed.

Definition base : nat := S (length (elements (builder r))).

Definition weight (xs : list T) : nat := foldr (λ x w, base ^ height x + w)%nat 0%nat xs.

Lemma weight_app xs ys : weight (xs ++ ys) = (weight xs + weight ys)%nat.
Proof. induction xs as [|x xs IH]; [done|]. cbn [app weight foldr]. fold (weight xs) (weight (xs ++ ys)). lia. Qed.

Lemma weight_one x : (1 ≤ base ^ height x)%nat.
Proof. apply Nat.neq_0_lt_0, Nat.pow_nonzero. done. Qed.

Lemma weight_bound xs h : (∀ x, x ∈ xs → (height x < h)%nat) → NoDup xs → (∀ x, x ∈ xs → x ∈ elements (builder r)) →
  (weight xs < base ^ h)%nat.
Proof.
  intros Hh Hn Hin. assert (length xs < base)%nat as Hlen.
  { unfold base. apply Nat.lt_succ_r, submseteq_length. by apply NoDup_submseteq. }
  destruct h as [|h].
  { destruct xs as [|x xs]; [cbn; lia|]. specialize (Hh x ltac:(left)). lia. }
  assert (weight xs ≤ length xs * base ^ h)%nat as Hw.
  { clear Hn Hin Hlen. induction xs as [|x xs IH]; [done|]. cbn [weight foldr length]. fold (weight xs).
    assert (base ^ height x ≤ base ^ h)%nat.
    { apply Nat.pow_le_mono_r; [done|]. specialize (Hh x ltac:(left)). lia. }
    specialize (IH ltac:(intros y Hy; apply Hh; by right)). lia. }
  rewrite Nat.pow_succ_r'. assert (1 ≤ base ^ h)%nat by (apply Nat.neq_0_lt_0, Nat.pow_nonzero; done). nia.
Qed.

(** The bounds of two elements weigh less than the two. *)
Lemma mubs_weight x y xs : mubs x y xs → (weight xs < base ^ height x + base ^ height y)%nat.
Proof.
  intros [_ Hcmp Hn _ _ Habove _]. pose proof (weight_one x). pose proof (weight_one y).
  destruct (decide (above x y ∨ above y x)) as [Hc|Hc].
  - destruct (Hcmp Hc) as (z & -> & [[-> _]|[-> _]]); cbn; lia.
  - assert (weight xs < base ^ height x)%nat; [|lia]. apply weight_bound; [|done|].
    + intros z Hz. destruct (Habove z) as [Hxz Hyz]; [tauto..|]. apply height_lt; [done|].
      intros Hzx. apply Hc. right. by eapply above_trans.
    + intros z Hz. destruct (Habove z) as [Hxz _]; [tauto..|]. by apply tc_related_elem in Hxz as [_ ?].
Qed.

Lemma two_last (xs : list T) : xs = [] ∨ (∃ x, xs = [x]) ∨ ∃ pre n m, xs = pre ++ [n; m].
Proof.
  destruct xs as [|m xs _] using rev_ind; [by left|]. destruct xs as [|n xs _] using rev_ind; [right; left; by exists m|].
  right; right. exists xs, n, m. by rewrite <- app_assoc.
Qed.

(** The loop ends, and what it finds has every property of the elements it
    started from that holds of greater elements too. *)
Lemma postdominator_loop_spec (P : T → Prop) : (∀ u v, P u → above u v → P v) →
  ∀ k xs, (weight xs < k)%nat → Forall P xs →
  ∃ o, (∀ fuel, (weight xs < fuel)%nat → postdominator_loop fuel r xs = Ret (Some o)) ∧ ∀ z, o = Some z → P z.
Proof.
  intros HP. induction k as [|k IH]; intros xs Hk Hxs; [lia|].
  destruct (two_last xs) as [->|[[x ->]|(pre & n & m & ->)]].
  - exists None. split; [|done]. intros [|fuel] Hf; [lia|done].
  - exists (Some x). split; [|intros z [= <-]; by apply Forall_inv in Hxs]. intros [|fuel] Hf; [lia|done].
  - destruct (minimal_upper_bounds_spec n m) as (ys & Hys & Hm).
    apply Forall_app in Hxs as [Hpre Hnm]. apply Forall_inv in Hnm as HPn. pose proof (mubs_weight _ _ _ Hm) as Hlt.
    assert (weight (pre ++ ys) < weight (pre ++ [n; m]))%nat as Hdec.
    { rewrite !weight_app. unfold weight at 4. cbn. lia. }
    destruct (IH (pre ++ ys)) as (o & Ho & Hz); [lia|apply Forall_app; split; [done|]|].
    { apply list.Forall_forall. intros z Hin. destruct (mubs_bound _ _ _ Hm z Hin) as [[->|Hnz] _]; [done|by eapply HP]. }
    exists o. split; [|done]. intros [|fuel] Hf; [lia|]. cbn [postdominator_loop].
    assert (list.last (pre ++ [n; m]) = Some m) as Hl1 by (rewrite last_app; done).
    assert (take (length (pre ++ [n; m]) - 1) (pre ++ [n; m]) = pre ++ [n]) as Hl2.
    { replace (pre ++ [n; m]) with ((pre ++ [n]) ++ [m]) by (by rewrite <- app_assoc).
      rewrite length_app, Nat.add_sub. by rewrite take_app_length. }
    rewrite Hl1, Hl2. rewrite last_snoc. cbn [unwrap obind]. rewrite length_app, Nat.add_sub, take_app_length, Hys.
    cbn [obind]. rewrite Ho by lia. destruct (pre ++ [n; m]) as [|? [|? ?]] eqn:E; try done;
      apply (f_equal length) in E; rewrite length_app in E; cbn in E; lia.
Qed.

Lemma postdom_upper_bound_spec x y :
  ∃ o k, (∀ fuel, (k ≤ fuel)%nat → postdom_upper_bound fuel r x y = Ret (Some o)) ∧
    ∀ z, o = Some z → (z = x ∨ above x z) ∧ (z = y ∨ above y z).
Proof.
  unfold postdom_upper_bound. destruct (minimal_upper_bounds_spec x y) as (xs & -> & Hm). cbn [obind].
  destruct (postdominator_loop_spec (λ z, (z = x ∨ above x z) ∧ (z = y ∨ above y z))) with (S (weight xs)) xs as (o & Ho & Hz).
  - intros u v [Hx Hy] Huv. split; right; [destruct Hx as [->|]|destruct Hy as [->|]]; try done; by eapply above_trans.
  - lia.
  - apply list.Forall_forall. apply (mubs_bound _ _ _ Hm).
  - exists o, (S (weight xs)). split; [|done]. intros fuel Hf. apply Ho. lia.
Qed.

(** ** Parents *)

Lemma retain_spec a q : (a < length (elements (builder r)))%nat → in_bounds (length (elements (builder r))) q →
  retain_not_reaching (closure r) a q = Ret (filter (λ k, ¬ rz (closure r) k (Z.of_nat a)) q).
Proof.
  intros Ha. pose proof Hwf as (_ & Hs & _). unfold retain_not_reaching. induction q as [|k q IH]; intros Hq; [done|].
  apply Forall_inv in Hq as Hk. apply Forall_inv_tail in Hq. cbn [filter_outcome].
  rewrite (contains_rz _ _ Hs k (Z.of_nat a)) by lia. cbn [obind]. rewrite IH by done. cbn [obind].
  rewrite filter_cons. by case_bool_decide; [rewrite decide_False by tauto|rewrite decide_True by done].
Qed.

(** The antichain of the elements just above one, cycles left aside *)
Lemma parents_spec x :
  ∃ xs, parents r x = Ret xs ∧ NoDup xs ∧ (∀ z, z ∈ xs → above x z ∧ ¬ above z x) ∧
    (∀ z z', z ∈ xs → z' ∈ xs → z ≠ z' → ¬ above z z') ∧
    ∀ u, above x u → ¬ above u x → u ∈ xs ∨ ∃ z, z ∈ xs ∧ above z u.
Proof.
  pose proof Hwf as (Hb & Hs & _). unfold parents. destruct (index_of (builder r) x) as [i|] eqn:Ei.
  2: { apply index_of_none in Ei; [|done]. exists []. split; [done|]. split; [by apply list.NoDup_nil|].
       split; [by intros z ?%elem_of_nil|]. split; [by intros z z' ?%elem_of_nil|].
       intros u [? _]%tc_related_elem. done. }
  apply index_of_some in Ei; [|done]. pose proof (lookup_lt_Some _ _ _ Ei) as Hi.
  destruct (candidates_spec i i Hi Hi) as (q & -> & Hn & Hok & Hq). cbn [obind]. rewrite retain_spec by done. cbn [obind].
  set (q' := filter _ q).
  assert (in_bounds (length (elements (builder r))) q') as Hok'.
  { apply (in_bounds_sub _ _ q); [|done]. by intros k [_ ?]%list_elem_of_filter. }
  destruct (minimize_ret _ _ Hs q' Hok') as (l & -> & Hl); [by apply list.NoDup_filter|apply rz_trans|]. cbn [obind].
  destruct (minimal_elements q' l (λ z, above x z ∧ ¬ above z x) Hok' Hl) as (xs & -> & ? & ? & ? & Hc).
  - intros k. unfold q'. rewrite list_elem_of_filter, Hq. unfold rz. rewrite Nat2Z.id. split.
    + intros (Hk & ? & Ha & _). split; [done|]. pose proof (reach_bound _ _ _ _ Hs Hi Ha) as Hlt.
      destruct (lookup_lt_is_Some_2 _ _ Hlt) as [z Hz]. exists z.
      by rewrite <- (above_index _ _ _ _ Ei Hz), <- (above_index _ _ _ _ Hz Ei).
    + intros (? & z & Hz & H1 & H2). rewrite (above_index _ _ _ _ Ei Hz), (above_index _ _ _ _ Hz Ei). done.
  - exists xs. split_and!; try done. intros u Hu1 Hu2. apply Hc; [|done]. by apply tc_related_elem in Hu1 as [_ ?].
Qed.

End Bounds.

(** * Building relations *)

Section Building.
Context {T : Type} {A : FxIndexSetApi T} {AL : FxIndexSetLaws T A} {HO : HashOrder} {HL : HashOrderLaws HO}.

Definition add_all (ps : list (T * T)) (b : Builder T) : Builder T := foldl (λ b p, add b p.1 p.2) b ps.

Lemma default_wf : wf_builder (builder_default (T := T)) ∧ ∀ u v, ¬ related (builder_default (T := T)) u v.
Proof.
  split; [split; [by apply list.NoDup_nil|by constructor|done]|]. intros u v (i & j & Hi & _). done.
Qed.

Lemma add_all_spec ps : ∀ b, wf_builder b → small (2 * length ps + length (elements b)) →
  wf_builder (add_all ps b) ∧ ∀ u v, related (add_all ps b) u v ↔ related b u v ∨ (u, v) ∈ ps.
Proof.
  induction ps as [|[x y] ps IH]; intros b Hb Hs.
  { split; [done|]. intros u v. cbn. rewrite elem_of_nil. tauto. }
  unfold small in Hs. cbn [length] in Hs.
  destruct (add_spec b x y Hb) as (Hb' & Hl & Hr); [unfold small; lia|].
  destruct (IH (add b x y) Hb') as [Hw He]; [unfold small; lia|].
  split; [done|]. intros u v. cbn [add_all foldl fst snd]. fold (add_all ps (add b x y)). rewrite He, Hr, elem_of_cons.
  split; [intros [[?|[-> ->]]|?]|intros [?|[[= -> ->]|?]]]; auto.
Qed.

End Building.

(** * Concrete sets, for runs *)

Definition list_index_set {T} `{EqDecision T} : FxIndexSetApi T := {|
  fx_get_index_of l a := fst <$> list_find (λ x, x = a) l;
  fx_insert_full l a := match list_find (λ x, x = a) l with Some (i, _) => (l, i) | None => (l ++ [a], length l) end;
|}.

#[export] Instance list_index_set_laws {T} `{EqDecision T} : FxIndexSetLaws T list_index_set.
Proof.
  assert (∀ (l : list T) a i, NoDup l → l !! i = Some a → list_find (λ x, x = a) l = Some (i, a)) as Hfind.
  { intros l a i Hn Hi. apply list_find_Some. split_and!; [done..|]. intros j y Hj Hlt ->.
    pose proof (NoDup_lookup _ _ _ _ Hn Hi Hj). lia. }
  split; intros l a; cbn [fx_get_index_of fx_insert_full list_index_set].
  - intros i Hn. split.
    + intros ([k y] & E & ->)%fmap_Some. apply list_find_Some in E as (Hi & -> & _). done.
    + intros Hi. apply fmap_Some. exists (i, a). split; [by apply Hfind|done].
  - intros Hn Ha. destruct (list_find (λ x, x = a) l) as [[i y]|] eqn:E; [|done].
    apply list_find_Some in E as (Hi & -> & _). destruct Ha. by eapply list_elem_of_lookup_2.
  - intros i Hn Hi. pose proof (Hfind l a i Hn Hi) as E. by rewrite E.
Qed.

Definition insertion_order : HashOrder := {| hash_iter l := l |}.

#[export] Instance insertion_order_laws : HashOrderLaws insertion_order.
Proof. by split. Qed.

(** * The properties *)

Section Claims.
Context {T : Type} {A : FxIndexSetApi T} {AL : FxIndexSetLaws T A} {HO : HashOrder} {HL : HashOrderLaws HO}.

Lemma closure_of_pairs (ps : list (T * T)) : small (2 * length ps) →
  ∃ r, freeze (add_all ps builder_default) = Ret r ∧ wf_relation r ∧
    ∀ x y, above r x y ↔ tc (λ u v, (u, v) ∈ ps) x y.
Proof.
  intros Hs. destruct (default_wf (T := T)) as [Hd Hn].
  destruct (add_all_spec ps _ Hd) as [Hb Hr]; [by rewrite Nat.add_0_r|].
  destruct (freeze_wf _ Hb) as (r & Hf & E & Hwf). exists r. split_and!; [done..|].
  intros x y. unfold above. rewrite E.
  assert (∀ u v, related (add_all ps builder_default) u v ↔ (u, v) ∈ ps) as He.
  { intros u v. rewrite Hr. specialize (Hn u v). tauto. }
  split; induction 1 as [u v Huv|u w v Huw _ IH]; try (apply tc_once; by apply He); (eapply tc_l; [by apply He|exact IH]).
Qed.

(** C34. [freeze] terminates, and the relation it returns answers [contains] and
    [reachable_from] by the transitive closure of the pairs that were added,
    whatever the iteration order of the hash set of edges. *)
Theorem transitive_closure (ps : list (T * T)) :
  small (2 * length ps) →
  ∃ r, freeze (add_all ps builder_default) = Ret r ∧
    (∀ x y, ∃ c, contains r x y = Ret c ∧ (c = true ↔ tc (λ u v, (u, v) ∈ ps) x y)) ∧
    ∀ x, ∃ ys, reachable_from r x = Ret ys ∧ ∀ y, y ∈ ys ↔ tc (λ u v, (u, v) ∈ ps) x y.
Proof.
  intros Hs. destruct (closure_of_pairs ps Hs) as (r & Hr & Hwf & Habove). exists r. split_and!; [done|..].
  - intros x y. setoid_rewrite <- Habove. by apply contains_relation.
  - intros x. setoid_rewrite <- Habove. by apply reachable_from_spec.
Qed.

(** [minimal_upper_bounds] of two elements neither of which reaches the
    other: common upper bounds none of which reaches another, and every common
    upper bound is one of them or above one of them.  When one reaches the
    other, the greater one is the only answer. *)
Theorem minimal_upper_bounds_correct (ps : list (T * T)) (x y : T) :
  small (2 * length ps) →
  let R := tc (λ u v, (u, v) ∈ ps) in
  ∃ r xs, freeze (add_all ps builder_default) = Ret r ∧ minimal_upper_bounds r x y = Ret xs ∧ NoDup xs ∧
    (∀ z z', z ∈ xs → z' ∈ xs → z ≠ z' → ¬ R z z') ∧
    ((R x y ∨ R y x) → ∃ z, xs = [z] ∧ (z = y ∧ R x y ∨ z = x ∧ R y x)) ∧
    (¬ R x y → ¬ R y x →
      (∀ z, z ∈ xs → R x z ∧ R y z) ∧ ∀ u, R x u → R y u → u ∈ xs ∨ ∃ z, z ∈ xs ∧ R z u).
Proof.
  intros Hs R. destruct (closure_of_pairs ps Hs) as (r & Hr & Hwf & Habove).
  destruct (minimal_upper_bounds_spec r Hwf x y) as (xs & Hxs & [_ Hc Hn _ Ha Hb Hu]).
  setoid_rewrite Habove in Hc. setoid_rewrite Habove in Ha. setoid_rewrite Habove in Hb. setoid_rewrite Habove in Hu.
  exists r, xs. split_and!; try done. intros H1 H2. split; [intros z Hz; by apply Hb|intros u; by apply Hu].
Qed.

(** [postdom_upper_bound] terminates on every relation, cyclic ones
    included, and an element it returns is at or above both arguments. *)
Theorem postdom_upper_bound_terminates (ps : list (T * T)) (x y : T) :
  small (2 * length ps) →
  let R := tc (λ u v, (u, v) ∈ ps) in
  ∃ r o k, freeze (add_all ps builder_default) = Ret r ∧
    (∀ fuel, (k ≤ fuel)%nat → postdom_upper_bound fuel r x y = Ret (Some o)) ∧
    ∀ z, o = Some z → (z = x ∨ R x z) ∧ (z = y ∨ R y z).
Proof.
  intros Hs R. destruct (closure_of_pairs ps Hs) as (r & Hr & Hwf & Habove).
  destruct (postdom_upper_bound_spec r Hwf x y) as (o & k & Ho & Hz). setoid_rewrite Habove in Hz.
  by exists r, o, k.
Qed.

End Claims.

#[local] Existing Instance list_index_set.
#[local] Existing Instance insertion_order.

(** 0 and 1 below 2, 3 and 4 *)
Definition two_below_three : list (nat * nat) := [(0, 2); (0, 3); (0, 4); (1, 2); (1, 3); (1, 4)]%nat.

Lemma transitive_closure_witness :
  small (2 * length two_below_three) ∧
  ∃ r, freeze (add_all two_below_three builder_default) = Ret r ∧
    (∀ x y, ∃ c, contains r x y = Ret c ∧ (c = true ↔ tc (λ u v, (u, v) ∈ two_below_three) x y)) ∧
    ∀ x, ∃ ys, reachable_from r x = Ret ys ∧ ∀ y, y ∈ ys ↔ tc (λ u v, (u, v) ∈ two_below_three) x y.
Proof. split; [done|]. apply (transitive_closure two_below_three). done. Defined.

Lemma minimal_upper_bounds_correct_witness :
  small (2 * length two_below_three) ∧
  ∃ r xs, freeze (add_all two_below_three builder_default) = Ret r ∧ minimal_upper_bounds r 0%nat 1%nat = Ret xs.
Proof.
  split; [done|].
  destruct (minimal_upper_bounds_correct two_below_three 0%nat 1%nat) as (r & xs & Hr & Hxs & _); [done|].
  exists r, xs. split; [exact Hr|exact Hxs].
Defined.

Lemma postdom_upper_bound_terminates_witness :
  small (2 * length two_below_three) ∧
  ∃ r o k, freeze (add_all two_below_three builder_default) = Ret r ∧
    ∀ fuel, (k ≤ fuel)%nat → postdom_upper_bound fuel r 0%nat 1%nat = Ret (Some o).
Proof.
  split; [done|].
  destruct (postdom_upper_bound_terminates two_below_three 0%nat 1%nat) as (r & o & k & Hr & Ho & _); [done|].
  exists r, o, k. split; [exact Hr|exact Ho].
Defined.

(** The answer of [mutual_immediate_postdominator] need not be above the
    points it was asked about: of 2, 3 and 4, which have no common upper bound,
    it drops the last two when they turn out to have none and answers 2. *)
Theorem postdominator_drops_points :
  ∃ r, freeze (add_all two_below_three builder_default) = Ret r ∧
    minimal_upper_bounds r 0%nat 1%nat = Ret [2; 3; 4]%nat ∧
    postdominator_loop 10 r [2; 3; 4]%nat = Ret (Some (Some 2%nat)) ∧
    contains r 3%nat 2%nat = Ret false ∧ contains r 4%nat 2%nat = Ret false.
Proof. eexists. split; [vm_compute; reflexivity|]. split_and!; vm_compute; reflexivity. Qed.
