(* ===== verification/SortedMap.v ===== *)
(** * Sorted maps

    [compiler/rustc_data_structures/src/sorted_map.rs] and
    [sorted_map/index_map.rs]: maps as vectors sorted by key, searched with the
    binary search of the standard library, and the multi-map that keeps the order
    of insertion beside a vector of indices sorted by key. *)

From S2P Require Import Prelude.
From S2P Require Import Slice.
From S2P Require Import BitSets.

(** [core::cmp::Ord], with the laws that its documentation requires *)
Class Ord (K : Type) : Type := { cmp : K → K → comparison }.
Class OrdLaws (K : Type) (O : Ord K) : Prop := {
  cmp_eq a b : cmp a b = Eq ↔ a = b;
  cmp_opp a b : cmp b a = CompOpp (cmp a b);
  cmp_trans a b c : cmp a b = Lt → cmp b c = Lt → cmp a c = Lt;
}.

Definition ltb {K} `{Ord K} (a b : K) : bool := match cmp a b with Lt => true | _ => false end.
Definition eqb {K} `{Ord K} (a b : K) : bool := match cmp a b with Eq => true | _ => false end.

(** Integers and [Size] *)
#[export] Instance Z_Ord : Ord Z := {| cmp := Z.compare |}.

(** [slice::sort_unstable_by] by key leaves the order of equal keys open. *)
Class SortUnstable (K V : Type) : Type := { sort_unstable : list (K * V) → list (K * V) }.

(** [slice::sort_by_key] is stable: an element goes before the first one that is
    not smaller when the ones behind it are already sorted. *)
Fixpoint sort_insert {A} (le : A → A → bool) (x : A) (l : list A) : list A :=
  match l with
  | [] => [x]
  | y :: l => if le x y then x :: y :: l else y :: sort_insert le x l
  end.
Definition stable_sort {A} (le : A → A → bool) (l : list A) : list A := foldr (sort_insert le) [] l.

(** [Vec::dedup_by]: an element goes when it is the same as the last one kept. *)
Fixpoint dedup_after {A} (same : A → A → bool) (last : A) (l : list A) : list A :=
  match l with
  | [] => []
  | x :: l => if same x last then dedup_after same last l else x :: dedup_after same x l
  end.
Definition dedup_by {A} (same : A → A → bool) (l : list A) : list A :=
  match l with [] => [] | x :: l => x :: dedup_after same x l end.

Module SortedMap.

Section Ops.
Context {K V : Type} `{Ord K}.

Record t : Type := { data : list (K * V) }.

Definition new : t := {| data := [] |}.

Definition from_presorted_elements (elements : list (K * V)) : t := {| data := elements |}.

Definition lookup_index_for (m : t) (key : K) : outcome (result nat nat) :=
  binary_search_by (data m) (λ p, cmp (fst p) key).

Definition insert (m : t) (key : K) (value : V) : outcome (t * option V) :=
  let! r := lookup_index_for m key in
  match r with
  | Ok i =>
      let! slot := index (data m) i in
      let! d := index_set (data m) i (fst slot, value) in
      Ret ({| data := d |}, Some (snd slot))
  | Err i => let! d := vec_insert (data m) i (key, value) in Ret ({| data := d |}, None)
  end.

Definition remove (m : t) (key : K) : outcome (t * option V) :=
  let! r := lookup_index_for m key in
  match r with
  | Ok i => let! (d, x) := vec_remove (data m) i in Ret ({| data := d |}, Some (snd x))
  | Err _ => Ret (m, None)
  end.

Definition get (m : t) (key : K) : outcome (option V) :=
  let! r := lookup_index_for m key in
  match r with
  | Ok i => let! slot := index (data m) i in Ret (Some (snd slot))
  | Err _ => Ret None
  end.

(** [get_mut]: [f] is what the caller does through the reference. *)
Definition get_mut (m : t) (key : K) (f : V → V) : outcome (t * option V) :=
  let! r := lookup_index_for m key in
  match r with
  | Ok i =>
      let! slot := index (data m) i in
      let! d := index_set (data m) i (fst slot, f (snd slot)) in
      Ret ({| data := d |}, Some (snd slot))
  | Err _ => Ret (m, None)
  end.

Definition get_mut_or_insert_default (m : t) (key : K) (default : V) (f : V → V) : outcome (t * V) :=
  let! r := lookup_index_for m key in
  let! (d, i) := match r with
    | Ok i => Ret (data m, i)
    | Err i => let! d := vec_insert (data m) i (key, default) in Ret (d, i)
    end in
  let! slot := index d i in
  let! d := index_set d i (fst slot, f (snd slot)) in
  Ret ({| data := d |}, snd slot).

Definition clear (m : t) : t := {| data := [] |}.
Definition iter (m : t) : list (K * V) := data m.
Definition keys (m : t) : list K := fst <$> data m.
Definition values (m : t) : list V := snd <$> data m.
Definition len (m : t) : nat := length (data m).
Definition is_empty (m : t) : bool := (len m =? 0)%nat.

Definition range_slice_indices (m : t) (r : RangeBounds K) : outcome (nat * nat) :=
  let! start := match start_bound r with
    | Included k => let! i := lookup_index_for m k in match i with Ok i | Err i => Ret i end
    | Excluded k => let! i := lookup_index_for m k in match i with Ok i => Ret (i + 1)%nat | Err i => Ret i end
    | Unbounded => Ret 0%nat
    end in
  let! end_ := match end_bound r with
    | Included k => let! i := lookup_index_for m k in match i with Ok i => Ret (i + 1)%nat | Err i => Ret i end
    | Excluded k => let! i := lookup_index_for m k in match i with Ok i | Err i => Ret i end
    | Unbounded => Ret (length (data m))
    end in
  Ret (start, end_).

Definition range (m : t) (r : RangeBounds K) : outcome (list (K * V)) :=
  let! (start, end_) := range_slice_indices m r in subslice (data m) start end_.

Definition remove_range (m : t) (r : RangeBounds K) : outcome t :=
  let! (start, end_) := range_slice_indices m r in
  let! d := vec_splice (data m) start end_ [] in Ret {| data := d |}.

Definition offset_keys (m : t) (f : K → K) : t := {| data := prod_map f id <$> data m |}.

Definition insert_rest (m : t) (elements : list (K * V)) : outcome t :=
  fold_outcome (λ m kv, let! (m, _) := insert m (fst kv) (snd kv) in Ret m) elements m.

Definition insert_presorted (m : t) (elements : list (K * V)) : outcome t :=
  match elements with
  | [] => Ret m
  | first :: rest =>
      let! start_index := lookup_index_for m (fst first) in
      match start_index with
      | Ok i => let! d := index_set (data m) i first in insert_rest {| data := d |} rest
      | Err i =>
          let! whole := if (i =? length (data m))%nat then Ret true
            else
              let! last := unwrap (list.last elements) in
              let! next := index (data m) i in Ret (ltb (fst last) (fst next)) in
          if whole then let! d := vec_splice (data m) i i elements in Ret {| data := d |}
          else let! d := vec_insert (data m) i first in insert_rest {| data := d |} rest
      end
  end.

Definition contains_key (m : t) (key : K) : outcome bool :=
  let! o := get m key in Ret (match o with Some _ => true | None => false end).

(** [map[&key]] *)
Definition index_key (m : t) (key : K) : outcome V := let! o := get m key in unwrap o.

Definition from_iter `{SortUnstable K V} (l : list (K * V)) : t :=
  {| data := dedup_by (λ p q, eqb (fst p) (fst q)) (sort_unstable l) |}.

End Ops.
Arguments t : clear implicits.

End SortedMap.

Module SortedIndexMultiMap.

Section Ops.
Context {K V : Type} `{Ord K}.

Record t : Type := { items : list (K * V); idx_sorted_by_item_key : list nat }.

Definition new : t := {| items := []; idx_sorted_by_item_key := [] |}.
Definition len (m : t) : nat := length (items m).
Definition is_empty (m : t) : bool := (len m =? 0)%nat.
Definition iter (m : t) : list (K * V) := items m.
Definition iter_enumerated (m : t) : list (nat * (K * V)) := zip (seq 0 (length (items m))) (items m).
Definition get (m : t) (idx : nat) : option (K * V) := items m !! idx.

(** The key of an item; [&items[idx]] with an index out of range does not occur
    in a map that [from_iter] made. *)
Definition key_lt (m : t) (key : K) (i : nat) : bool :=
  match items m !! i with Some (k, _) => ltb k key | None => false end.

(** [map_while]: the items up to the first with another key *)
Fixpoint while_key (m : t) (key : K) (ixs : list nat) : outcome (list (nat * V)) :=
  match ixs with
  | [] => Ret []
  | i :: ixs =>
      let! (k, v) := index (items m) i in
      if eqb k key then let! rest := while_key m key ixs in Ret ((i, v) :: rest) else Ret []
  end.

Definition get_by_key_enumerated (m : t) (key : K) : outcome (list (nat * V)) :=
  let! lower_bound := partition_point (idx_sorted_by_item_key m) (key_lt m key) in
  while_key m key (drop lower_bound (idx_sorted_by_item_key m)).

Definition get_by_key (m : t) (key : K) : outcome (list V) :=
  let! l := get_by_key_enumerated m key in Ret (snd <$> l).

Definition contains_key (m : t) (key : K) : outcome bool :=
  let! l := get_by_key m key in Ret (match l with [] => false | _ => true end).

(** [sort_by_key] on indices: [a] before [b] when its key is not greater *)
Definition key_le (l : list (K * V)) (a b : nat) : bool :=
  match l !! a, l !! b with Some (ka, _), Some (kb, _) => negb (ltb kb ka) | _, _ => false end.

Definition from_iter (l : list (K * V)) : t :=
  {| items := l; idx_sorted_by_item_key := stable_sort (key_le l) (seq 0 (length l)) |}.

End Ops.
Arguments t : clear implicits.

End SortedIndexMultiMap.
