(* ===== verification/SortedMapProps.v ===== *)
(** * Correctness of the sorted maps

    A [SortedMap] whose keys increase is a finite map ([assoc]), the keys stay
    sorted, the sorted data is determined by the map, and ranges are the entries
    with keys in the range.  [SortedIndexMultiMap] gives the items of a key in the
    order of insertion. *)

From stdpp Require Import sorting.
From S2P Require Import Prelude.
From S2P Require Import Slice.
From S2P Require Import BitSets.
From S2P Require Import SortedMap.

(** * Orders *)

Section Order.
Context {K : Type} {O : Ord K} {OL : OrdLaws K O}.

Lemma cmp_refl a : cmp a a = Eq.
Proof. by apply cmp_eq. Qed.

Lemma cmp_gt a b : cmp a b = Gt ↔ cmp b a = Lt.
Proof. rewrite (cmp_opp a b). by destruct (cmp a b). Qed.

Lemma cmp_lt_ne a b : cmp a b = Lt → a ≠ b.
Proof. intros Hlt ->. by rewrite cmp_refl in Hlt. Qed.

Lemma cmp_asym a b : cmp a b = Lt → cmp b a ≠ Lt.
Proof. intros Hlt. rewrite (cmp_opp a b), Hlt. done. Qed.

Lemma eqb_true a b : eqb a b = true ↔ a = b.
Proof. unfold eqb. rewrite <- cmp_eq. by destruct (cmp a b). Qed.

Lemma eqb_false a b : eqb a b = false ↔ a ≠ b.
Proof. rewrite <- not_true_iff_false, eqb_true. done. Qed.

Lemma eqb_same a : eqb a a = true.
Proof. by apply eqb_true. Qed.

Lemma ltb_true a b : ltb a b = true ↔ cmp a b = Lt.
Proof. unfold ltb. by destruct (cmp a b). Qed.

End Order.

(** * Sorted data as a finite map *)

Section Assoc.
Context {K V : Type} {O : Ord K} {OL : OrdLaws K O}.
Implicit Types l : list (K * V).

Fixpoint assoc (k : K) l : option V :=
  match l with [] => None | (k', v) :: l => if eqb k' k then Some v else assoc k l end.

Definition key_lt : K * V → K * V → Prop := λ p q, cmp (fst p) (fst q) = Lt.

Definition sorted l : Prop := StronglySorted key_lt l.

(** All keys of [l] below or above [k] *)
Definition keys_below (k : K) l : Prop := Forall (λ p, cmp (fst p) k = Lt) l.
Definition keys_above (k : K) l : Prop := Forall (λ p, cmp k (fst p) = Lt) l.

Lemma assoc_app k l1 l2 : assoc k (l1 ++ l2) = match assoc k l1 with Some v => Some v | None => assoc k l2 end.
Proof. induction l1 as [|[k' v] l1 IH]; [done|]. cbn. by destruct (eqb k' k). Qed.

Lemma assoc_ne k l : Forall (λ p, fst p ≠ k) l → assoc k l = None.
Proof. induction 1 as [|[k' v] l Hne _ IH]; [done|]. cbn in *. by rewrite (proj2 (eqb_false _ _)). Qed.

Lemma assoc_below k l : keys_below k l → assoc k l = None.
Proof. intros Hb. apply assoc_ne. eapply List.Forall_impl; [|exact Hb]. intros p Hp. by apply cmp_lt_ne. Qed.

Lemma assoc_above k l : keys_above k l → assoc k l = None.
Proof. intros Hb. apply assoc_ne. eapply List.Forall_impl; [|exact Hb]. intros p Hp E. by apply cmp_lt_ne in Hp. Qed.

Lemma assoc_elem k v l : sorted l → assoc k l = Some v ↔ (k, v) ∈ l.
Proof.
  induction 1 as [|[k' v'] l Hl IH Hk]; cbn; [by rewrite elem_of_nil|].
  rewrite elem_of_cons. destruct (eqb k' k) eqn:E.
  - apply eqb_true in E as ->. split; [intros [= ->]; by left|]. intros [[= ->]|Hin]; [done|].
    rewrite list.Forall_forall in Hk. specialize (Hk _ Hin). unfold key_lt in Hk. cbn in Hk. by rewrite cmp_refl in Hk.
  - apply eqb_false in E. rewrite IH. split; [by right|]. intros [[= -> ->]|]; done.
Qed.

(** Sorting of a concatenation *)
Lemma sorted_app l1 l2 : sorted (l1 ++ l2) ↔
  sorted l1 ∧ sorted l2 ∧ ∀ p q, p ∈ l1 → q ∈ l2 → key_lt p q.
Proof.
  unfold sorted. split.
  - intros Hs. split_and!; [by eapply StronglySorted_app_1_l|by eapply StronglySorted_app_1_r|].
    intros p q. by apply StronglySorted_app_1_elem_of.
  - intros (H1 & H2 & H3). by apply StronglySorted_app_2.
Qed.

Lemma sorted_split k v l1 l2 : sorted (l1 ++ (k, v) :: l2) → keys_below k l1 ∧ keys_above k l2.
Proof.
  intros (_ & H2 & H3)%sorted_app. split.
  - apply list.Forall_forall. intros p Hp. apply (H3 p (k, v) Hp). left.
  - by inversion_clear H2.
Qed.

Lemma sorted_map_insert k v l1 l2 : sorted (l1 ++ l2) → keys_below k l1 → keys_above k l2 → sorted (l1 ++ (k, v) :: l2).
Proof.
  intros (H1 & H2 & H3)%sorted_app Hb Ha. apply sorted_app. split_and!; [done|by constructor|].
  unfold keys_below in Hb. rewrite list.Forall_forall in Hb. intros p q Hp [->|Hq]%elem_of_cons; [by apply Hb|by apply H3].
Qed.

Lemma sorted_set k v v' l1 l2 : sorted (l1 ++ (k, v) :: l2) → sorted (l1 ++ (k, v') :: l2).
Proof.
  intros Hs. pose proof (sorted_split _ _ _ _ Hs) as [Hb Ha]. apply sorted_map_insert; [|done..].
  apply sorted_app in Hs as (H1 & H2 & H3). apply sorted_app. split_and!; [done|by inversion_clear H2|].
  intros p q Hp Hq. apply H3; [done|by right].
Qed.

Lemma sorted_delete k v l1 l2 : sorted (l1 ++ (k, v) :: l2) → sorted (l1 ++ l2).
Proof.
  intros (H1 & H2 & H3)%sorted_app. apply sorted_app. split_and!; [done|by inversion_clear H2|].
  intros p q Hp Hq. apply H3; [done|by right].
Qed.

(** The map with one key set, or without it *)
Lemma assoc_set k v l1 l2 k' : keys_below k l1 →
  assoc k' (l1 ++ (k, v) :: l2) = if eqb k k' then Some v else assoc k' (l1 ++ l2).
Proof.
  intros Hb. rewrite !assoc_app. cbn. destruct (eqb k k') eqn:E; [|done].
  apply eqb_true in E as <-. by rewrite assoc_below.
Qed.

Lemma assoc_absent k l1 l2 : keys_below k l1 → keys_above k l2 → assoc k (l1 ++ l2) = None.
Proof. intros Hb Ha. rewrite assoc_app, assoc_below by done. by apply assoc_above. Qed.

(** Sorted data with the same entries is the same. *)
Lemma sorted_map_ext l l' : sorted l → sorted l' → (∀ k, assoc k l = assoc k l') → l = l'.
Proof.
  intros Hl. revert l'. induction Hl as [|[k v] l Hl IH Hk]; intros l' Hl' H.
  { destruct l' as [|[k v] l']; [done|]. specialize (H k). cbn in H. by rewrite eqb_same in H. }
  destruct Hl' as [|[k' v'] l' Hl' Hk'].
  { specialize (H k). cbn in H. by rewrite eqb_same in H. }
  assert (k' = k) as ->.
  { pose proof (H k) as H1. pose proof (H k') as H2. cbn in H1, H2. rewrite eqb_same in H1, H2.
    destruct (eqb k' k) eqn:E; [by apply eqb_true in E|]. rewrite (proj2 (eqb_false k k')) in H2.
    - symmetry in H1. apply assoc_elem in H1, H2; try done.
      rewrite list.Forall_forall in Hk, Hk'. specialize (Hk _ H2). specialize (Hk' _ H1).
      unfold key_lt in *. cbn in *. by apply cmp_asym in Hk.
    - apply eqb_false in E. congruence. }
  pose proof (H k) as H1. cbn in H1. rewrite eqb_same in H1. injection H1 as ->. f_equal. apply IH; [done|].
  intros k'. specialize (H k'). cbn in H. destruct (eqb k k') eqn:E; [|done]. apply eqb_true in E as <-.
  by rewrite !assoc_above.
Qed.

End Assoc.

(** * Operations *)

Section Ops.
Context {K V : Type} {O : Ord K} {OL : OrdLaws K O}.
Implicit Types m : SortedMap.t K V.

Definition wf_map m : Prop := sorted (SortedMap.data m).
Definition lookup m (k : K) : option V := assoc k (SortedMap.data m).

(** Where the binary search ends *)
Definition found (l : list (K * V)) (k : K) (r : result nat nat) : Prop :=
  match r with
  | Ok i => ∃ l1 v l2, l = l1 ++ (k, v) :: l2 ∧ i = length l1
  | Err i => ∃ l1 l2, l = l1 ++ l2 ∧ i = length l1 ∧ keys_below k l1 ∧ keys_above k l2
  end.

Lemma lookup_index_spec m k : wf_map m → ∃ r, SortedMap.lookup_index_for m k = Ret r ∧ found (SortedMap.data m) k r.
Proof.
  intros Hm. unfold SortedMap.lookup_index_for.
  destruct (binary_search_by_ordered (SortedMap.data m) (λ p, cmp (fst p) k)) as (r & Hr & H).
  { intros i j p q Hij Hp Hq. destruct (decide (i = j)) as [->|Hne]; [assert (p = q) as -> by congruence; done|].
    assert (cmp (fst p) (fst q) = Lt) as Hpq.
    { apply (StronglySorted_app_1_elem_of key_lt (take j (SortedMap.data m)) (drop j (SortedMap.data m))).
      - by rewrite take_drop.
      - apply list_elem_of_lookup_2 with i. rewrite lookup_take_lt by lia. done.
      - apply list_elem_of_lookup_2 with 0%nat. by rewrite lookup_drop, Nat.add_0_r. }
    split; [intros Hq'; by eapply cmp_trans|]. rewrite !cmp_gt. intros Hp'. by eapply cmp_trans. }
  exists r. split; [done|]. destruct r as [i|i]; cbn.
  - destruct H as ([k' v] & Hi & Hk). apply cmp_eq in Hk. cbn in Hk. subst k'.
    exists (take i (SortedMap.data m)), v, (drop (S i) (SortedMap.data m)). split.
    + symmetry. by apply take_drop_middle.
    + rewrite length_take_le; [done|]. apply lookup_lt_Some in Hi. lia.
  - destruct H as (Hi & Hb & Ha). exists (take i (SortedMap.data m)), (drop i (SortedMap.data m)).
    split_and!; [by rewrite take_drop|by rewrite length_take_le|done|].
    eapply List.Forall_impl; [|exact Ha]. intros p. by rewrite cmp_gt.
Qed.

Lemma index_middle {A} (l1 l2 : list A) x : index (l1 ++ x :: l2) (length l1) = Ret x.
Proof. unfold index. by rewrite list_lookup_middle. Qed.

Lemma index_set_middle {A} (l1 l2 : list A) x y : index_set (l1 ++ x :: l2) (length l1) y = Ret (l1 ++ y :: l2).
Proof.
  unfold index_set. rewrite (proj2 (Nat.ltb_lt _ _)) by (rewrite length_app; cbn; lia). cbn [rassert].
  by rewrite insert_app_r_alt, Nat.sub_diag by lia.
Qed.

Lemma vec_remove_middle {A} (l1 l2 : list A) x : vec_remove (l1 ++ x :: l2) (length l1) = Ret (l1 ++ l2, x).
Proof.
  unfold vec_remove. rewrite index_middle. cbn [obind]. rewrite take_app_length, drop_app_ge by lia.
  by replace (S (length l1) - length l1)%nat with 1%nat by lia.
Qed.

(** The map after a key is set to a value *)
Definition sets (m m' : SortedMap.t K V) (k : K) (v : V) : Prop :=
  wf_map m' ∧ ∀ k', lookup m' k' = if eqb k k' then Some v else lookup m k'.

(** Setting a key that is there *)
Lemma sets_present m k v v' l1 l2 : wf_map m → SortedMap.data m = l1 ++ (k, v) :: l2 →
  lookup m k = Some v ∧ sets m {| SortedMap.data := l1 ++ (k, v') :: l2 |} k v'.
Proof.
  unfold wf_map, sets, lookup. intros Hm E. rewrite E in *. pose proof (sorted_split _ _ _ _ Hm) as [Hb Ha]. split_and!.
  - by rewrite assoc_set, eqb_same.
  - by eapply sorted_set.
  - intros k'. cbn [SortedMap.data]. rewrite !assoc_set by done. by destruct (eqb k k').
Qed.

Lemma sets_absent m k v l1 l2 : wf_map m → SortedMap.data m = l1 ++ l2 → keys_below k l1 → keys_above k l2 →
  lookup m k = None ∧ sets m {| SortedMap.data := l1 ++ (k, v) :: l2 |} k v.
Proof.
  unfold wf_map, sets, lookup. intros Hm E Hb Ha. rewrite E in *. split_and!.
  - by apply assoc_absent.
  - by apply sorted_map_insert.
  - intros k'. cbn [SortedMap.data]. by rewrite assoc_set.
Qed.

Lemma insert_map m k v : wf_map m → ∃ m', SortedMap.insert m k v = Ret (m', lookup m k) ∧ sets m m' k v.
Proof.
  intros Hm. unfold SortedMap.insert. destruct (lookup_index_spec m k Hm) as (r & -> & Hr). cbn [obind].
  destruct r as [i|i]; cbn in Hr.
  - destruct Hr as (l1 & v0 & l2 & E & ->). destruct (sets_present m k v0 v l1 l2 Hm E) as [Hl Hs].
    rewrite Hl, E, index_middle. cbn [obind]. rewrite index_set_middle. by eexists.
  - destruct Hr as (l1 & l2 & E & -> & Hb & Ha). destruct (sets_absent m k v l1 l2 Hm E Hb Ha) as [Hl Hs].
    rewrite Hl, E, vec_insert_app. by eexists.
Qed.

Lemma get_map m k : wf_map m → SortedMap.get m k = Ret (lookup m k).
Proof.
  intros Hm. unfold SortedMap.get. destruct (lookup_index_spec m k Hm) as (r & -> & Hr). cbn [obind].
  destruct r as [i|i]; cbn in Hr.
  - destruct Hr as (l1 & v0 & l2 & E & ->). destruct (sets_present m k v0 v0 l1 l2 Hm E) as [Hl Hs].
    by rewrite Hl, E, index_middle.
  - destruct Hr as (l1 & l2 & E & -> & Hb & Ha). unfold lookup. by rewrite E, assoc_absent.
Qed.

Lemma remove_map m k : wf_map m →
  ∃ m', SortedMap.remove m k = Ret (m', lookup m k) ∧ wf_map m' ∧
    ∀ k', lookup m' k' = if eqb k k' then None else lookup m k'.
Proof.
  intros Hm. unfold SortedMap.remove. destruct (lookup_index_spec m k Hm) as (r & -> & Hr). cbn [obind].
  destruct r as [i|i]; cbn in Hr.
  - destruct Hr as (l1 & v0 & l2 & E & ->). destruct (sets_present m k v0 v0 l1 l2 Hm E) as [Hl Hs].
    rewrite Hl, E, vec_remove_middle. cbn [obind]. eexists. split; [done|].
    unfold wf_map, lookup in *. rewrite E in *. cbn [SortedMap.data].
    pose proof (sorted_split _ _ _ _ Hm) as [Hb Ha]. split; [by eapply sorted_delete|].
    intros k'. rewrite assoc_set by done. destruct (eqb k k') eqn:Ek; [|done].
    apply eqb_true in Ek as <-. by apply assoc_absent.
  - destruct Hr as (l1 & l2 & E & -> & Hb & Ha). assert (lookup m k = None) as Hl.
    { unfold lookup. by rewrite E, assoc_absent. }
    rewrite Hl. exists m. split_and!; [done..|]. intros k'. destruct (eqb k k') eqn:Ek; [|done]. by apply eqb_true in Ek as <-.
Qed.

Lemma get_mut_map m k f : wf_map m →
  ∃ m', SortedMap.get_mut m k f = Ret (m', lookup m k) ∧ wf_map m' ∧
    ∀ k', lookup m' k' = if eqb k k' then f <$> lookup m k else lookup m k'.
Proof.
  intros Hm. unfold SortedMap.get_mut. destruct (lookup_index_spec m k Hm) as (r & -> & Hr). cbn [obind].
  destruct r as [i|i]; cbn in Hr.
  - destruct Hr as (l1 & v0 & l2 & E & ->). destruct (sets_present m k v0 (f v0) l1 l2 Hm E) as [Hl [Hw Hs]].
    rewrite Hl, E, index_middle. cbn [obind]. rewrite index_set_middle. by eexists.
  - destruct Hr as (l1 & l2 & E & -> & Hb & Ha). assert (lookup m k = None) as Hl.
    { unfold lookup. by rewrite E, assoc_absent. }
    rewrite Hl. exists m. split_and!; [done..|]. intros k'. destruct (eqb k k') eqn:Ek; [|done]. by apply eqb_true in Ek as <-.
Qed.

Lemma get_mut_or_insert_map m k d f : wf_map m →
  let v := match lookup m k with Some v => v | None => d end in
  ∃ m', SortedMap.get_mut_or_insert_default m k d f = Ret (m', v) ∧ sets m m' k (f v).
Proof.
  intros Hm. unfold SortedMap.get_mut_or_insert_default. destruct (lookup_index_spec m k Hm) as (r & -> & Hr). cbn [obind].
  destruct r as [i|i]; cbn in Hr.
  - destruct Hr as (l1 & v0 & l2 & E & ->). destruct (sets_present m k v0 (f v0) l1 l2 Hm E) as [Hl Hs].
    rewrite Hl, E. cbn [obind]. rewrite index_middle. cbn [obind]. rewrite index_set_middle. by eexists.
  - destruct Hr as (l1 & l2 & E & -> & Hb & Ha). destruct (sets_absent m k (f d) l1 l2 Hm E Hb Ha) as [Hl Hs].
    rewrite Hl, E, vec_insert_app. cbn [obind]. rewrite index_middle. cbn [obind]. rewrite index_set_middle. by eexists.
Qed.

(** ** Ranges *)

Definition after_start (r : RangeBounds K) (k : K) : Prop :=
  match start_bound r with Included a => cmp k a ≠ Lt | Excluded a => cmp a k = Lt | Unbounded => True end.

Definition before_end (r : RangeBounds K) (k : K) : Prop :=
  match end_bound r with Included b => cmp b k ≠ Lt | Excluded b => cmp k b = Lt | Unbounded => True end.

#[local] Instance comparison_eq_dec : EqDecision comparison.
Proof. solve_decision. Defined.

#[export] Instance after_start_dec r k : Decision (after_start r k).
Proof. unfold after_start. destruct (start_bound r); apply _. Defined.

#[export] Instance before_end_dec r k : Decision (before_end r k).
Proof. unfold before_end. destruct (end_bound r); apply _. Defined.

(** [i] splits the data into entries with and without [P] *)
Definition splits_at (l : list (K * V)) (i : nat) (P Q : K → Prop) : Prop :=
  (i ≤ length l)%nat ∧ Forall (λ p, P (fst p)) (take i l) ∧ Forall (λ p, Q (fst p)) (drop i l).

Lemma splits_app l1 l2 (P Q : K → Prop) :
  Forall (λ p, P (fst p)) l1 → Forall (λ p, Q (fst p)) l2 → splits_at (l1 ++ l2) (length l1) P Q.
Proof.
  intros H1 H2. split; [rewrite length_app; lia|]. by rewrite take_app_length, drop_app_length.
Qed.

Lemma splits_app_S l1 p l2 (P Q : K → Prop) :
  Forall (λ p, P (fst p)) l1 → P (fst p) → Forall (λ p, Q (fst p)) l2 →
  splits_at (l1 ++ p :: l2) (length l1 + 1) P Q.
Proof.
  intros H1 Hp H2. replace (l1 ++ p :: l2) with ((l1 ++ [p]) ++ l2) by (by rewrite <- app_assoc).
  replace (length l1 + 1)%nat with (length (l1 ++ [p])) by (by rewrite length_app). apply splits_app; [|done].
  apply Forall_app. auto.
Qed.

(** The two ways in which a bound becomes a position: before the entries that
    are not below [k], or before those that are above it *)
Lemma bound_index m k : wf_map m →
  ∃ r, SortedMap.lookup_index_for m k = Ret r ∧
    splits_at (SortedMap.data m) (match r with Ok i | Err i => i end) (λ x, cmp x k = Lt) (λ x, cmp x k ≠ Lt) ∧
    splits_at (SortedMap.data m) (match r with Ok i => i + 1 | Err i => i end)%nat (λ x, cmp k x ≠ Lt) (λ x, cmp k x = Lt).
Proof.
  intros Hm. destruct (lookup_index_spec m k Hm) as (r & -> & Hr). exists r. split; [done|].
  unfold wf_map in Hm. destruct r as [i|i]; cbn in Hr.
  - destruct Hr as (l1 & v & l2 & E & ->). rewrite E in *. apply sorted_split in Hm as [Hb Ha]. split.
    + apply splits_app; [done|]. constructor; [cbn; by rewrite cmp_refl|].
      eapply List.Forall_impl; [|exact Ha]. intros p. cbn. apply cmp_asym.
    + apply splits_app_S; [|cbn; by rewrite cmp_refl|done]. eapply List.Forall_impl; [|exact Hb]. intros p. cbn. apply cmp_asym.
  - destruct Hr as (l1 & l2 & E & -> & Hb & Ha). rewrite E. split; apply splits_app; try done.
    + eapply List.Forall_impl; [|exact Ha]. intros p. cbn. apply cmp_asym.
    + eapply List.Forall_impl; [|exact Hb]. intros p. cbn. apply cmp_asym.
Qed.

Lemma splits_impl l i (P Q P' Q' : K → Prop) :
  (∀ x, P x → P' x) → (∀ x, Q x → Q' x) → splits_at l i P Q → splits_at l i P' Q'.
Proof. intros HP HQ (? & H1 & H2). split_and!; [done|..]; eapply List.Forall_impl; try done; cbn; auto. Qed.

Lemma start_index_spec m r : wf_map m →
  ∃ s, match start_bound r with
    | Included k => let! i := SortedMap.lookup_index_for m k in match i with Ok i | Err i => Ret i end
    | Excluded k => let! i := SortedMap.lookup_index_for m k in match i with Ok i => Ret (i + 1)%nat | Err i => Ret i end
    | Unbounded => Ret 0%nat end = Ret s ∧
    splits_at (SortedMap.data m) s (λ k, ¬ after_start r k) (after_start r).
Proof.
  intros Hm. unfold after_start. destruct (start_bound r) as [k|k|].
  - destruct (bound_index m k Hm) as (i & -> & H & _). cbn [obind]. exists (match i with Ok i | Err i => i end).
    split; [by destruct i|]. eapply splits_impl; [..|exact H]; [|done]. cbn. intros x Hx. rewrite Hx. tauto.
  - destruct (bound_index m k Hm) as (i & -> & _ & H). cbn [obind].
    exists (match i with Ok i => i + 1 | Err i => i end)%nat. split; [by destruct i|done].
  - eexists. split; [done|]. split; [lia|]. split; [constructor|]. by apply list.Forall_forall.
Qed.

Lemma end_index_spec m r : wf_map m →
  ∃ e, match end_bound r with
    | Included k => let! i := SortedMap.lookup_index_for m k in match i with Ok i => Ret (i + 1)%nat | Err i => Ret i end
    | Excluded k => let! i := SortedMap.lookup_index_for m k in match i with Ok i | Err i => Ret i end
    | Unbounded => Ret (length (SortedMap.data m)) end = Ret e ∧
    splits_at (SortedMap.data m) e (before_end r) (λ k, ¬ before_end r k).
Proof.
  intros Hm. unfold before_end. destruct (end_bound r) as [k|k|].
  - destruct (bound_index m k Hm) as (i & -> & _ & H). cbn [obind].
    exists (match i with Ok i => i + 1 | Err i => i end)%nat. split; [by destruct i|].
    eapply splits_impl; [..|exact H]; [done|]. cbn. intros x Hx. rewrite Hx. tauto.
  - destruct (bound_index m k Hm) as (i & -> & H & _). cbn [obind]. exists (match i with Ok i | Err i => i end).
    split; [by destruct i|done].
  - eexists. split; [done|]. split; [done|]. rewrite drop_all. split; [|constructor]. by apply list.Forall_forall.
Qed.

Definition in_keys (r : RangeBounds K) (p : K * V) : Prop := after_start r (fst p) ∧ before_end r (fst p).

(** The three parts of the data, when the start is not after the end *)
Lemma range_parts (l : list (K * V)) r s e :
  splits_at l s (λ k, ¬ after_start r k) (after_start r) → splits_at l e (before_end r) (λ k, ¬ before_end r k) →
  (∀ k, ¬ after_start r k → before_end r k) →
  (s ≤ e)%nat ∧ drop s (take e l) = filter (in_keys r) l ∧ take s l ++ drop e l = filter (λ p, ¬ in_keys r p) l.
Proof.
  intros (Hs & Hs1 & Hs2) (He & He1 & He2) Hr. rewrite Forall_lookup in Hs1, Hs2, He1, He2. assert (s ≤ e)%nat as Hle.
  - destruct (decide (s ≤ e)%nat) as [|Hlt]; [done|]. exfalso.
    destruct (lookup_lt_is_Some_2 l e) as [p Hp]; [lia|].
    apply (He2 0%nat p); [by rewrite lookup_drop, Nat.add_0_r|]. apply Hr. apply (Hs1 e p). by rewrite lookup_take_lt by lia.
  - split; [done|].
    assert (l = take s l ++ drop s (take e l) ++ drop e l) as E.
    { rewrite <- (take_drop e l) at 1. rewrite <- (take_drop s (take e l)) at 1.
      rewrite take_take, Nat.min_l by done. by rewrite <- app_assoc. }
    assert (Forall (λ p, ¬ after_start r (fst p)) (take s l)) as F1 by (apply Forall_lookup; eauto).
    assert (Forall (λ p, ¬ before_end r (fst p)) (drop e l)) as F3 by (apply Forall_lookup; eauto).
    assert (Forall (in_keys r) (drop s (take e l))) as F2.
    { apply Forall_lookup. intros i p Hp. rewrite lookup_drop in Hp. apply lookup_take_Some in Hp as [Hp Hi]. split.
      - apply (Hs2 i p). by rewrite lookup_drop.
      - apply (He1 (s + i)%nat p). by rewrite lookup_take_lt by lia. }
    set (a := take s l) in *. set (b := drop s (take e l)) in *. set (c := drop e l) in *. clearbody a b c. rewrite E.
    rewrite !list.filter_app. unfold in_keys in *.
    rewrite (filter_nothing _ a), (filter_all _ b), (filter_nothing _ c), (filter_all _ a), (filter_nothing _ b), (filter_all _ c);
      try done; try (eapply List.Forall_impl; [|done]; cbn; tauto). by rewrite app_nil_r.
Qed.

Lemma range_map m r : wf_map m → (∀ k, ¬ after_start r k → before_end r k) →
  SortedMap.range m r = Ret (filter (in_keys r) (SortedMap.data m)).
Proof.
  intros Hm Hr. unfold SortedMap.range, SortedMap.range_slice_indices.
  destruct (start_index_spec m r Hm) as (s & -> & Hs). cbn [obind]. destruct (end_index_spec m r Hm) as (e & -> & He). cbn [obind].
  destruct (range_parts _ _ _ _ Hs He Hr) as (Hle & <- & _). unfold subslice. destruct He as [He _].
  by rewrite !(proj2 (Nat.leb_le _ _)).
Qed.

Lemma remove_range_map m r : wf_map m → (∀ k, ¬ after_start r k → before_end r k) →
  SortedMap.remove_range m r = Ret {| SortedMap.data := filter (λ p, ¬ in_keys r p) (SortedMap.data m) |}.
Proof.
  intros Hm Hr. unfold SortedMap.remove_range, SortedMap.range_slice_indices.
  destruct (start_index_spec m r Hm) as (s & -> & Hs). cbn [obind]. destruct (end_index_spec m r Hm) as (e & -> & He). cbn [obind].
  destruct (range_parts _ _ _ _ Hs He Hr) as (Hle & _ & <-). unfold vec_splice. destruct He as [He _].
  by rewrite !(proj2 (Nat.leb_le _ _)).
Qed.

Lemma sorted_filtered (P : K * V → Prop) `{!∀ x, Decision (P x)} l : sorted l → sorted (filter P l).
Proof.
  intros Hl. induction Hl as [|p l Hl IH Hp]; [constructor|]. rewrite filter_cons. case_decide; [|done].
  constructor; [done|]. rewrite list.Forall_forall in *. intros q [_ Hq]%list_elem_of_filter. by apply Hp.
Qed.

(** ** Presorted elements *)

(** Entries that are inserted one after the other *)
Lemma insert_rest_map l : ∀ m, wf_map m → sorted l →
  ∃ m', SortedMap.insert_rest m l = Ret m' ∧ wf_map m' ∧
    ∀ k, lookup m' k = match assoc k l with Some v => Some v | None => lookup m k end.
Proof.
  induction l as [|[k v] l IH]; intros m Hm Hl; [by exists m|]. inversion_clear Hl as [|? ? Hl' Hk].
  unfold SortedMap.insert_rest. cbn [fold_outcome fst snd]. destruct (insert_map m k v Hm) as (m1 & -> & Hm1 & Hs). cbn [obind].
  destruct (IH m1 Hm1 Hl') as (m2 & Hr & Hm2 & He). exists m2. split; [exact Hr|]. split; [done|].
  intros k'. rewrite He, Hs. cbn. destruct (eqb k k') eqn:E; [|done]. apply eqb_true in E as <-. by rewrite assoc_above.
Qed.

Lemma sorted_last (l : list (K * V)) p q : sorted l → list.last l = Some p → q ∈ l → q = p ∨ key_lt q p.
Proof.
  intros Hl Hp Hq. destruct l as [|x l _] using rev_ind; [done|]. rewrite last_snoc in Hp. injection Hp as ->.
  apply sorted_app in Hl as (_ & _ & Hc). apply elem_of_app in Hq as [Hq|Hq%list_elem_of_singleton]; [|by left].
  right. apply Hc; [done|left].
Qed.

(** Elements that fit between two entries *)
Lemma sorted_between (l1 l l2 : list (K * V)) :
  sorted (l1 ++ l2) → sorted l → (∀ p q, p ∈ l1 → q ∈ l → key_lt p q) → (∀ p q, p ∈ l → q ∈ l2 → key_lt p q) →
  sorted (l1 ++ l ++ l2) ∧
  ∀ k, assoc k (l1 ++ l ++ l2) = match assoc k l with Some v => Some v | None => assoc k (l1 ++ l2) end.
Proof.
  intros (H1 & H2 & H3)%sorted_app Hl Hc1 Hc2. split.
  - apply sorted_app. split_and!; [done|apply sorted_app; by split_and!|].
    intros p q Hp [Hq|Hq]%elem_of_app; [by apply Hc1|by apply H3].
  - intros k. rewrite !assoc_app. destruct (assoc k l) as [v|] eqn:E; [|by destruct (assoc k l1)].
    rewrite assoc_ne; [done|]. apply list.Forall_forall. intros p Hp Ek. apply assoc_elem in E; [|done].
    specialize (Hc1 _ _ Hp E). unfold key_lt in Hc1. cbn in Hc1. by rewrite Ek, cmp_refl in Hc1.
Qed.

(** [insert_presorted] in the case in which the elements are copied as a whole *)
Lemma splice_map m k v l l1 l2 p :
  wf_map m → sorted ((k, v) :: l) → SortedMap.data m = l1 ++ l2 → keys_below k l1 →
  list.last ((k, v) :: l) = Some p → (l2 = [] ∨ ∃ q l2', l2 = q :: l2' ∧ key_lt p q) →
  ∃ m', (let! d := vec_splice (SortedMap.data m) (length l1) (length l1) ((k, v) :: l) in
      Ret {| SortedMap.data := d |}) = Ret m' ∧
    wf_map m' ∧ ∀ k', lookup m' k' = match assoc k' ((k, v) :: l) with Some v => Some v | None => lookup m k' end.
Proof.
  intros Hm Hl E Hb Hp Hfit. unfold wf_map, lookup in *. rewrite E in *. unfold vec_splice.
  rewrite !(proj2 (Nat.leb_le _ _)) by (rewrite ?length_app; lia). cbn [andb rassert obind].
  rewrite take_app_length, drop_app_length. eexists. split; [done|]. cbn [SortedMap.data].
  unfold keys_below in Hb. rewrite list.Forall_forall in Hb.
  apply (sorted_between l1 ((k, v) :: l) l2); [done|done|..].
  - intros x y Hx [->|Hy]%elem_of_cons; [by apply Hb|]. inversion_clear Hl as [|? ? _ Hk].
    rewrite list.Forall_forall in Hk. eapply cmp_trans; [by apply Hb|]. by apply Hk.
  - intros x y Hx Hy. assert (key_lt p y) as Hpy.
    { destruct Hfit as [->|(q & l2' & -> & Hpq)]; [by apply elem_of_nil in Hy|].
      apply elem_of_cons in Hy as [->|Hy]; [done|]. apply sorted_app in Hm as (_ & Hm & _). inversion_clear Hm as [|? ? _ Hq].
      rewrite list.Forall_forall in Hq. eapply cmp_trans; [exact Hpq|]. by apply Hq. }
    destruct (sorted_last _ _ x Hl Hp Hx) as [->|Hxp]; [done|]. by eapply cmp_trans.
Qed.

Lemma insert_presorted_map m l : wf_map m → sorted l →
  ∃ m', SortedMap.insert_presorted m l = Ret m' ∧ wf_map m' ∧
    ∀ k, lookup m' k = match assoc k l with Some v => Some v | None => lookup m k end.
Proof.
  intros Hm Hl. unfold SortedMap.insert_presorted. destruct l as [|[k v] l]; [by exists m|].
  cbn [fst]. destruct (lookup_index_spec m k Hm) as (r & -> & Hr). cbn [obind fst snd].
  assert (∀ m1, sets m m1 k v → ∃ m', SortedMap.insert_rest m1 l = Ret m' ∧ wf_map m' ∧
    ∀ k', lookup m' k' = match assoc k' ((k, v) :: l) with Some v => Some v | None => lookup m k' end) as Hrest.
  { intros m1 [Hm1 Hs]. inversion Hl as [|? ? Hl' Hk]; subst. destruct (insert_rest_map l m1 Hm1 Hl') as (m2 & -> & ? & He).
    exists m2. split_and!; [done..|]. intros k'. rewrite He, Hs. cbn. destruct (eqb k k') eqn:E; [|done].
    apply eqb_true in E as <-. by rewrite assoc_above. }
  destruct r as [i|i]; cbn in Hr.
  - destruct Hr as (l1 & v0 & l2 & E & ->). destruct (sets_present m k v0 v l1 l2 Hm E) as [_ Hs].
    rewrite E, index_set_middle. cbn [obind]. by apply Hrest.
  - destruct Hr as (l1 & l2 & E & -> & Hb & Ha). destruct (sets_absent m k v l1 l2 Hm E Hb Ha) as [_ Hs].
    destruct (list.last ((k, v) :: l)) as [p|] eqn:Hp; [|by apply last_None in Hp].
    destruct (Nat.eqb_spec (length l1) (length (SortedMap.data m))) as [Hlen|Hlen]; cbn [obind unwrap].
    { rewrite E, length_app in Hlen. destruct l2; [|cbn in Hlen; lia]. apply (splice_map m k v l l1 [] p); auto. }
    destruct l2 as [|q l2]; [by rewrite E, app_nil_r in Hlen|].
    assert (index (SortedMap.data m) (length l1) = Ret q) as -> by (rewrite E; apply index_middle). cbn [obind].
    destruct (ltb (fst p) (fst q)) eqn:Hlt.
    + apply ltb_true in Hlt. apply (splice_map m k v l l1 (q :: l2) p); eauto 6.
    + rewrite E, vec_insert_app. cbn [obind]. by apply Hrest.
Qed.

(** ** From unsorted elements *)

Definition keys_le : K * V → K * V → Prop := λ p q, cmp (fst q) (fst p) ≠ Lt.

Lemma keys_le_lt p q : keys_le p q → fst p ≠ fst q → key_lt p q.
Proof.
  unfold keys_le, key_lt. rewrite (cmp_opp (fst p) (fst q)). intros Hle Hne.
  destruct (cmp (fst p) (fst q)) eqn:E; [by apply cmp_eq in E|done|by destruct Hle].
Qed.

Lemma dedup_after_spec l : ∀ last, StronglySorted keys_le (last :: l) →
  let d := dedup_after (λ p q, eqb (fst p) (fst q)) last l in
  sorted (last :: d) ∧ (∀ p, p ∈ d → p ∈ l) ∧ ∀ p, p ∈ l → ∃ q, q ∈ last :: d ∧ fst q = fst p.
Proof.
  induction l as [|x l IH]; intros last Hl; cbn.
  { split_and!; [repeat constructor|done|]. intros p Hp. by apply elem_of_nil in Hp. }
  inversion Hl as [|? ? Hl' Hlast]; subst. apply Forall_inv in Hlast as Hx. apply Forall_inv_tail in Hlast.
  destruct (eqb (fst x) (fst last)) eqn:E.
  - apply eqb_true in E. inversion_clear Hl' as [|? ? Hl'' _].
    destruct (IH last) as (H1 & H2 & H3); [by constructor|]. split_and!; [done|intros p Hp; right; by apply H2|].
    intros p [->|Hp]%elem_of_cons; [|by apply H3]. exists last. split; [left|done].
  - apply eqb_false in E. destruct (IH x Hl') as (H1 & H2 & H3).
    assert (key_lt last x) as Hlt by (by apply keys_le_lt).
    split_and!.
    + constructor; [done|]. constructor; [done|]. inversion_clear H1 as [|? ? _ Hd].
      eapply List.Forall_impl; [|exact Hd]. intros q Hq. by eapply cmp_trans.
    + intros p [->|Hp]%elem_of_cons; [left|right; by apply H2].
    + intros p [->|Hp]%elem_of_cons; [exists x; split; [right; left|done]|].
      destruct (H3 p Hp) as (q & Hq & ?). exists q. split; [by right|done].
Qed.

(** What is documented of [sort_unstable_by] *)
Class SortUnstableLaws (S : SortUnstable K V) : Prop := {
  sort_perm l : sort_unstable l ≡ₚ l;
  sort_sorted l : StronglySorted keys_le (sort_unstable l);
}.

Lemma from_iter_map {S : SortUnstable K V} {SL : SortUnstableLaws S} l :
  wf_map (SortedMap.from_iter l) ∧
  (∀ k v, lookup (SortedMap.from_iter l) k = Some v → (k, v) ∈ l) ∧
  ∀ p, p ∈ l → is_Some (lookup (SortedMap.from_iter l) (fst p)).
Proof.
  unfold wf_map, lookup, SortedMap.from_iter. cbn [SortedMap.data].
  pose proof (sort_sorted l) as Hs. pose proof (sort_perm l) as Hp. unfold dedup_by.
  destruct (sort_unstable l) as [|x s] eqn:E.
  - symmetry in Hp. apply Permutation_nil_r in Hp as ->. split_and!; [constructor|done|]. intros p Hp. by apply elem_of_nil in Hp.
  - destruct (dedup_after_spec s x Hs) as (H1 & H2 & H3). split_and!; [done|..].
    + intros k v Hk%(assoc_elem _ _ _ H1). rewrite <- Hp. apply elem_of_cons in Hk as [->|Hk]; [left|right; by apply H2].
    + intros p Hin. rewrite <- Hp in Hin.
      assert (∃ q, q ∈ x :: dedup_after (λ p q, eqb (fst p) (fst q)) x s ∧ fst q = fst p) as ([k v] & Hq & Hk).
      { apply elem_of_cons in Hin as [->|Hin]; [exists x; split; [left|done]|by apply H3]. }
      exists v. apply assoc_elem; [done|]. cbn in Hk. by rewrite <- Hk.
Qed.

End Ops.

(** * The multi-map *)

Section StableSort.
Context {A : Type} (le : A → A → bool) (D : A → Prop).
Hypothesis le_total : ∀ a b, D a → D b → le a b = true ∨ le b a = true.
Hypothesis le_trans : ∀ a b c, D a → D b → D c → le a b = true → le b c = true → le a c = true.

Lemma sort_insert_perm x l : sort_insert le x l ≡ₚ x :: l.
Proof.
  induction l as [|y l IH]; [done|]. cbn. destruct (le x y); [done|]. rewrite IH. apply Permutation_swap.
Qed.

Lemma stable_sort_perm l : stable_sort le l ≡ₚ l.
Proof. unfold stable_sort. induction l as [|x l IH]; [done|]. cbn. by rewrite sort_insert_perm, IH. Qed.

Lemma sort_insert_sorted x l : D x → Forall D l →
  StronglySorted (λ a b, le a b = true) l → StronglySorted (λ a b, le a b = true) (sort_insert le x l).
Proof.
  intros Hx HD. induction 1 as [|y l Hl IH Hy]; [repeat constructor|].
  apply Forall_inv in HD as HDy. apply Forall_inv_tail in HD. cbn. destruct (le x y) eqn:E.
  - constructor; [by constructor|]. constructor; [done|]. rewrite list.Forall_forall in Hy, HD |- *.
    intros z Hz. apply (le_trans x y z); auto.
  - constructor; [by apply IH|]. rewrite sort_insert_perm. constructor; [|done]. destruct (le_total x y); congruence.
Qed.

Lemma stable_sort_sorted l : Forall D l → StronglySorted (λ a b, le a b = true) (stable_sort le l).
Proof.
  intros HD. induction l as [|x l IH]; [constructor|]. apply Forall_inv in HD as HDx. apply Forall_inv_tail in HD.
  change (stable_sort le (x :: l)) with (sort_insert le x (stable_sort le l)).
  apply sort_insert_sorted; [done| |by apply IH]. by rewrite stable_sort_perm.
Qed.

(** Elements that are equal in the order keep their order. *)
Lemma stable_sort_stable (P : A → Prop) `{!∀ x, Decision (P x)} l :
  (∀ a b, P a → P b → le a b = true) → filter P (stable_sort le l) = filter P l.
Proof.
  intros HP. unfold stable_sort. induction l as [|x l IH]; [done|]. cbn [foldr]. rewrite filter_cons, <- IH. clear IH.
  induction (foldr (sort_insert le) [] l) as [|y s IHs]; cbn [sort_insert]; [by rewrite filter_cons|].
  destruct (le x y) eqn:E; [by rewrite filter_cons|]. rewrite !(filter_cons _ y), IHs.
  destruct (decide (P y)) as [Hy|]; [|done]. assert (¬ P x) by (intros Hx; rewrite HP in E; done). by rewrite !decide_False by done.
Qed.

End StableSort.

(** A list along which a comparison does not decrease, in its three parts *)
Lemma three_way {A} (c : A → comparison) (l : list A) :
  StronglySorted (λ a b, (c a = Gt → c b = Gt) ∧ (c a = Eq → c b ≠ Lt)) l →
  ∃ l1 l2 l3, l = l1 ++ l2 ++ l3 ∧ Forall (λ a, c a = Lt) l1 ∧ Forall (λ a, c a = Eq) l2 ∧ Forall (λ a, c a = Gt) l3.
Proof.
  induction 1 as [|x l Hl (l1 & l2 & l3 & -> & H1 & H2 & H3) Hx]; [by exists [], [], []|].
  apply Forall_app in Hx as [Hx1 Hx2]. apply Forall_app in Hx2 as [Hx2 Hx3].
  destruct (c x) eqn:E.
  - assert (l1 = []) as -> by (destruct l1 as [|y l1]; [done|]; apply Forall_inv in Hx1, H1; destruct Hx1 as [_ Hx1]; by destruct (Hx1 eq_refl)).
    exists [], (x :: l2), l3. split_and!; try done. by constructor.
  - exists (x :: l1), l2, l3. split_and!; try done. by constructor.
  - assert (l1 = []) as -> by (destruct l1 as [|y l1]; [done|]; apply Forall_inv in Hx1, H1; destruct Hx1 as [Hx1 _]; rewrite Hx1 in H1; done).
    assert (l2 = []) as -> by (destruct l2 as [|y l2]; [done|]; apply Forall_inv in Hx2, H2; destruct Hx2 as [Hx2 _]; rewrite Hx2 in H2; done).
    exists [], [], (x :: l3). split_and!; try done. by constructor.
Qed.

Section MultiMap.
Context {K V : Type} {O : Ord K} {OL : OrdLaws K O}.
Implicit Types l : list (K * V).

Lemma key_le_alt l a b p q : l !! a = Some p → l !! b = Some q →
  SortedIndexMultiMap.key_le l a b = true ↔ keys_le p q.
Proof.
  intros Ha Hb. unfold SortedIndexMultiMap.key_le, keys_le. rewrite Ha, Hb. destruct p as [ka ?], q as [kb ?]. cbn.
  rewrite negb_true_iff, <- not_true_iff_false, ltb_true. done.
Qed.

Lemma keys_le_refl (p : K * V) : keys_le p p.
Proof. unfold keys_le. by rewrite cmp_refl. Qed.

Lemma keys_le_trans (p q r : K * V) : keys_le p q → keys_le q r → keys_le p r.
Proof.
  unfold keys_le. intros H1 H2 H3. destruct (cmp (fst p) (fst q)) eqn:E.
  - apply cmp_eq in E. by rewrite E in H3.
  - apply H2. by eapply cmp_trans.
  - by apply cmp_gt in E.
Qed.

(** The items with a key, with their indices, in the order of insertion *)
Fixpoint items_of (k : K) (i : nat) l : list (nat * V) :=
  match l with
  | [] => []
  | (k', v) :: l => if eqb k' k then (i, v) :: items_of k (S i) l else items_of k (S i) l
  end.

(** How the key at an index compares with [k] *)
Definition key_cmp l (k : K) (i : nat) : comparison := match l !! i with Some p => cmp (fst p) k | None => Gt end.

Definition entry l (i : nat) : option (nat * V) := (λ p, (i, snd p)) <$> l !! i.

Lemma keys_le_cmp (p q : K * V) k : keys_le p q →
  (cmp (fst p) k = Gt → cmp (fst q) k = Gt) ∧ (cmp (fst p) k = Eq → cmp (fst q) k ≠ Lt).
Proof.
  unfold keys_le. intros Hle. split.
  - rewrite !cmp_gt. intros Hk. destruct (cmp k (fst q)) eqn:E; [|done|].
    + apply cmp_eq in E. rewrite <- E in Hle. done.
    + apply cmp_gt in E. destruct Hle. by eapply cmp_trans.
  - intros E%cmp_eq. by rewrite E in Hle.
Qed.

Lemma sorted_impl {B} (D : B → Prop) (R R' : B → B → Prop) (l : list B) :
  Forall D l → (∀ a b, D a → D b → R a b → R' a b) → StronglySorted R l → StronglySorted R' l.
Proof.
  intros HD Himp. induction 1 as [|x l Hl IH Hx]; [constructor|].
  apply Forall_inv in HD as HDx. apply Forall_inv_tail in HD. constructor; [by apply IH|].
  rewrite list.Forall_forall in *. intros y Hy. apply Himp; auto.
Qed.

Lemma sorted_indices l k :
  StronglySorted (λ a b, (key_cmp l k a = Gt → key_cmp l k b = Gt) ∧ (key_cmp l k a = Eq → key_cmp l k b ≠ Lt))
    (stable_sort (SortedIndexMultiMap.key_le l) (seq 0 (length l))).
Proof.
  set (D := λ i, (i < length l)%nat).
  assert (∀ i, D i → ∃ p, l !! i = Some p) as Hget by (intros i Hi; by apply lookup_lt_is_Some_2).
  assert (Forall D (seq 0 (length l))) as HD by (apply list.Forall_forall; intros i Hi%elem_of_seq; unfold D; lia).
  apply (sorted_impl D (λ a b, SortedIndexMultiMap.key_le l a b = true)).
  - by rewrite stable_sort_perm.
  - intros a b (p & Hp)%Hget (q & Hq)%Hget Hle. apply (key_le_alt l a b p q Hp Hq) in Hle.
    unfold key_cmp. rewrite Hp, Hq. by apply keys_le_cmp.
  - apply (stable_sort_sorted _ D); [..|done].
    + intros a b (p & Hp)%Hget (q & Hq)%Hget. rewrite (key_le_alt l a b p q), (key_le_alt l b a q p) by done.
      unfold keys_le. destruct (cmp (fst q) (fst p)) eqn:E; [by left| |by left]. right. by apply cmp_asym.
    + intros a b c (p & Hp)%Hget (q & Hq)%Hget (r & Hr)%Hget.
      rewrite (key_le_alt l a b p q), (key_le_alt l b c q r), (key_le_alt l a c p r) by done. apply keys_le_trans.
Qed.

#[local] Instance key_comparison_eq_dec : EqDecision comparison.
Proof. solve_decision. Defined.

Lemma items_of_filter k l : ∀ i L, drop i L = l →
  omap (entry L) (filter (λ j, key_cmp L k j = Eq) (seq i (length l))) = items_of k i l.
Proof.
  induction l as [|[k' v] l IH]; intros i L E; [done|]. cbn [length seq items_of].
  assert (L !! i = Some (k', v)) as Hi by (by rewrite <- (Nat.add_0_r i), <- lookup_drop, E).
  assert (drop (S i) L = l) as E' by (by rewrite <- Nat.add_1_r, <- drop_drop, E).
  rewrite filter_cons. specialize (IH (S i) L E').
  assert (key_cmp L k i = cmp k' k) as Hc by (unfold key_cmp; by rewrite Hi). unfold eqb.
  destruct (decide (key_cmp L k i = Eq)) as [He|He]; rewrite Hc in He.
  - rewrite He. cbn. unfold entry at 1. rewrite Hi. cbn. by rewrite IH.
  - destruct (cmp k' k); done.
Qed.

Lemma while_key_ret l ixs k B C :
  Forall (λ i, key_cmp l k i = Eq) B → Forall (λ i, key_cmp l k i = Gt ∧ is_Some (l !! i)) C →
  SortedIndexMultiMap.while_key {| SortedIndexMultiMap.items := l; SortedIndexMultiMap.idx_sorted_by_item_key := ixs |} k (B ++ C) =
    Ret (omap (entry l) B).
Proof.
  induction 1 as [|i B Hi _ IH]; intros HC; cbn [app].
  - destruct HC as [|i C [Hi [[k' v] Hp]] _]; [done|]. cbn [SortedIndexMultiMap.while_key SortedIndexMultiMap.items].
    unfold index, key_cmp in *. rewrite Hp in *. cbn [unwrap obind fst] in *. unfold eqb. by rewrite Hi.
  - cbn [SortedIndexMultiMap.while_key SortedIndexMultiMap.items]. unfold key_cmp in Hi. unfold index.
    destruct (l !! i) as [[k' v]|] eqn:Hp; [|done]. cbn [unwrap obind fst] in *. unfold eqb. rewrite Hi, IH by done.
    cbn. unfold entry at 2. by rewrite Hp.
Qed.

Lemma get_by_key_spec l k :
  SortedIndexMultiMap.get_by_key_enumerated (SortedIndexMultiMap.from_iter l) k = Ret (items_of k 0 l).
Proof.
  unfold SortedIndexMultiMap.get_by_key_enumerated, SortedIndexMultiMap.from_iter.
  cbn [SortedIndexMultiMap.idx_sorted_by_item_key]. set (idx := stable_sort _ _). set (m := SortedIndexMultiMap.Build_t _ _).
  assert (filter (λ j, key_cmp l k j = Eq) idx = filter (λ j, key_cmp l k j = Eq) (seq 0 (length l))) as Hstable.
  { apply stable_sort_stable. unfold key_cmp. intros a b Ha Hb.
    destruct (l !! a) as [p|] eqn:Ea, (l !! b) as [q|] eqn:Eb; try done. apply cmp_eq in Ha, Hb.
    apply (key_le_alt l a b p q Ea Eb). unfold keys_le. rewrite Ha, Hb. by rewrite cmp_refl. }
  assert (Forall (λ i, is_Some (l !! i)) idx) as Hin.
  { unfold idx. rewrite stable_sort_perm. apply list.Forall_forall. intros i Hi%elem_of_seq. apply lookup_lt_is_Some_2. lia. }
  destruct (three_way _ _ (sorted_indices l k)) as (A & B & C & E & HA & HB & HC). fold idx in E. rewrite E in *.
  assert (∀ i, SortedIndexMultiMap.key_lt m k i = match key_cmp l k i with Lt => true | _ => false end) as Hlt.
  { intros i. unfold SortedIndexMultiMap.key_lt, key_cmp, m. cbn. destruct (l !! i) as [[k' v]|]; done. }
  rewrite partition_point_app; cycle 1.
  { eapply List.Forall_impl; [|exact HA]. intros i Hi. cbn in Hi. by rewrite Hlt, Hi. }
  { apply Forall_app. split; [eapply List.Forall_impl; [|exact HB]|eapply List.Forall_impl; [|exact HC]];
      intros i Hi; cbn in Hi; by rewrite Hlt, Hi. }
  cbn [obind]. rewrite drop_app_length. unfold m. rewrite while_key_ret; [|done|].
  - f_equal. rewrite <- (items_of_filter k l 0 l) by done. rewrite <- Hstable. f_equal.
    rewrite !list.filter_app, (filter_nothing _ A), (filter_all _ B), (filter_nothing _ C); [by rewrite app_nil_r|..|done|];
      eapply List.Forall_impl; try done; cbn; intros i Hi; rewrite Hi; done.
  - apply Forall_app in Hin as [_ Hin]. apply Forall_app in Hin as [_ Hin]. rewrite list.Forall_forall in *. auto.
Qed.

End MultiMap.

(** * Sequences of operations *)

Inductive map_op (K V : Type) : Type :=
| OpGet (k : K)
| OpInsert (k : K) (v : V)
| OpRemove (k : K)
| OpPresorted (l : list (K * V)).
Arguments OpGet {K V} k.
Arguments OpInsert {K V} k v.
Arguments OpRemove {K V} k.
Arguments OpPresorted {K V} l.

Section Sequences.
Context {K V : Type} {O : Ord K} {OL : OrdLaws K O}.

(** On a sorted map: the map and the answer *)
Definition map_step (m : SortedMap.t K V) (op : map_op K V) : outcome (SortedMap.t K V * option V) :=
  match op with
  | OpGet k => let! o := SortedMap.get m k in Ret (m, o)
  | OpInsert k v => SortedMap.insert m k v
  | OpRemove k => SortedMap.remove m k
  | OpPresorted l => let! m := SortedMap.insert_presorted m l in Ret (m, None)
  end.

Fixpoint map_run (m : SortedMap.t K V) (ops : list (map_op K V)) : outcome (SortedMap.t K V * list (option V)) :=
  match ops with
  | [] => Ret (m, [])
  | op :: ops => let! (m, o) := map_step m op in let! (m, os) := map_run m ops in Ret (m, o :: os)
  end.

(** On a function from keys to values *)
Definition ref_map_step (f : K → option V) (op : map_op K V) : (K → option V) * option V :=
  match op with
  | OpGet k => (f, f k)
  | OpInsert k v => (λ k', if eqb k k' then Some v else f k', f k)
  | OpRemove k => (λ k', if eqb k k' then None else f k', f k)
  | OpPresorted l => (λ k', match assoc k' l with Some v => Some v | None => f k' end, None)
  end.

Fixpoint ref_map_run (f : K → option V) (ops : list (map_op K V)) : (K → option V) * list (option V) :=
  match ops with
  | [] => (f, [])
  | op :: ops => let (f, o) := ref_map_step f op in let (f, os) := ref_map_run f ops in (f, o :: os)
  end.

Definition op_ok (op : map_op K V) : Prop := match op with OpPresorted l => sorted l | _ => True end.

Lemma map_step_sim m f op : wf_map m → (∀ k, lookup m k = f k) → op_ok op →
  ∃ m', map_step m op = Ret (m', snd (ref_map_step f op)) ∧ wf_map m' ∧ ∀ k, lookup m' k = fst (ref_map_step f op) k.
Proof.
  intros Hm Hf Hok. destruct op as [k|k v|k|l]; cbn.
  - exists m. by rewrite get_map, Hf.
  - destruct (insert_map m k v Hm) as (m' & -> & Hw & Hs). exists m'. rewrite Hf. split_and!; [done..|].
    intros k'. by rewrite Hs, Hf.
  - destruct (remove_map m k Hm) as (m' & -> & Hw & Hs). exists m'. rewrite Hf. split_and!; [done..|].
    intros k'. by rewrite Hs, Hf.
  - destruct (insert_presorted_map m l Hm Hok) as (m' & -> & Hw & Hs). exists m'. split_and!; [done..|].
    intros k'. by rewrite Hs, Hf.
Qed.

Lemma map_run_sim ops : ∀ m f, wf_map m → (∀ k, lookup m k = f k) → Forall op_ok ops →
  ∃ m', map_run m ops = Ret (m', snd (ref_map_run f ops)) ∧ wf_map m' ∧ ∀ k, lookup m' k = fst (ref_map_run f ops) k.
Proof.
  induction ops as [|op ops IH]; intros m f Hm Hf Hok; cbn; [by exists m|].
  apply Forall_inv in Hok as Hop. apply Forall_inv_tail in Hok.
  destruct (map_step_sim m f op Hm Hf Hop) as (m1 & -> & Hm1 & Hf1). cbn [obind].
  destruct (ref_map_step f op) as [f1 o]. cbn [fst snd] in *.
  destruct (IH m1 f1 Hm1 Hf1 Hok) as (m2 & -> & Hm2 & Hf2). destruct (ref_map_run f1 ops) as [f2 os]. by exists m2.
Qed.

(** A sorted map behaves as a finite map: any sequence of lookups,
    insertions, removals and insertions of presorted elements runs without a
    panic, gives the answers that a function from keys to values gives, keeps the
    keys strictly increasing, and ends with the same entries. *)
Theorem sorted_map_refines (ops : list (map_op K V)) :
  Forall op_ok ops →
  ∃ m, map_run SortedMap.new ops = Ret (m, snd (ref_map_run (λ _, None) ops)) ∧ wf_map m ∧
    ∀ k, SortedMap.get m k = Ret (fst (ref_map_run (λ _, None) ops) k).
Proof.
  intros Hok. destruct (map_run_sim ops SortedMap.new (λ _, None)) as (m & Hr & Hw & Hf); [constructor|done..|].
  exists m. split_and!; [done..|]. intros k. by rewrite get_map, Hf.
Qed.

(** [range] and [remove_range] on a sorted map: the entries with keys in the
    range, in order, and the map without them, for every kind of bound, as long
    as no key is both before the start and after the end; the sorted data is
    determined by the entries. *)
Theorem sorted_map_ranges (m : SortedMap.t K V) (r : RangeBounds K) :
  wf_map m → (∀ k, ¬ after_start r k → before_end r k) →
  SortedMap.range m r = Ret (filter (in_keys r) (SortedMap.data m)) ∧
  (∃ m', SortedMap.remove_range m r = Ret m' ∧ wf_map m' ∧
    SortedMap.data m' = filter (λ p, ¬ in_keys r p) (SortedMap.data m)) ∧
  ∀ m', wf_map m' → (∀ k, lookup m' k = lookup m k) → m' = m.
Proof.
  intros Hm Hr. split_and!.
  - by apply range_map.
  - eexists. split; [by apply remove_range_map|]. split; [by apply sorted_filtered|done].
  - intros m' Hm' He. destruct m as [d], m' as [d']. f_equal. by apply sorted_map_ext.
Qed.

(** The multi-map finds the items of a key: exactly those, with their indices,
    in the order in which they were inserted. *)
Theorem multimap_finds_items (l : list (K * V)) (k : K) :
  SortedIndexMultiMap.get_by_key_enumerated (SortedIndexMultiMap.from_iter l) k = Ret (items_of k 0 l) ∧
  SortedIndexMultiMap.get_by_key (SortedIndexMultiMap.from_iter l) k = Ret (snd <$> items_of k 0 l).
Proof.
  split; [apply get_by_key_spec|]. unfold SortedIndexMultiMap.get_by_key. by rewrite get_by_key_spec.
Qed.

End Sequences.

(** * Integer keys *)

#[export] Instance Z_OrdLaws : OrdLaws Z Z_Ord.
Proof.
  split; cbn; intros.
  - apply Z.compare_eq_iff.
  - by rewrite Z.compare_antisym.
  - rewrite Z.compare_lt_iff in *. lia.
Qed.

Definition example_ops : list (map_op Z Z) :=
  [OpInsert 5 50; OpInsert 2 20; OpPresorted [(1, 10); (3, 30); (6, 60)]; OpRemove 2; OpInsert 3 31; OpGet 6].

Lemma sorted_map_refines_witness :
  Forall op_ok example_ops ∧
  ∃ m, map_run SortedMap.new example_ops = Ret (m, [None; None; None; Some 20; Some 30; Some 60]) ∧ wf_map m.
Proof.
  assert (Forall op_ok example_ops) as Hok by (repeat constructor). split; [exact Hok|].
  destruct (sorted_map_refines example_ops Hok) as (m & Hr & Hw & _). exists m. split; [exact Hr|exact Hw].
Defined.

Lemma sorted_map_ranges_witness :
  SortedMap.range (SortedMap.from_presorted_elements [(1, 10); (3, 30); (6, 60)]) (range 2 6) = Ret [(3, 30)].
Proof.
  destruct (sorted_map_ranges (SortedMap.from_presorted_elements [(1, 10); (3, 30); (6, 60)]) (range 2 6)) as [Hr _].
  - repeat constructor.
  - intros k. unfold after_start, before_end. cbn. rewrite !Z.compare_lt_iff. lia.
  - rewrite Hr. vm_compute. reflexivity.
Defined.

Lemma multimap_finds_items_witness :
  SortedIndexMultiMap.get_by_key (SortedIndexMultiMap.from_iter [(2, 20); (1, 10); (2, 21); (1, 11)]) 2 = Ret [20; 21].
Proof.
  destruct (multimap_finds_items [(2, 20); (1, 10); (2, 21); (1, 11)] 2) as [_ Hr]. rewrite Hr. reflexivity.
Defined.
