(* ===== verification/Dataflow.v ===== *)
(** * The dataflow framework of MIR

    [compiler/rustc_mir_dataflow/src/framework]: the lattices ([lattice.rs]), the
    gen/kill transfer functions and the analysis traits ([mod.rs]), the two
    directions ([direction.rs]) and the solver ([engine.rs]) with the work queue of
    [rustc_data_structures/src/work_queue.rs].  A body is its blocks, as in [Mir].
    Statements, places, operands and the analysis are parameters, as the traits are
    in the source; the effects of an analysis are functions of the state
    ([&mut self] serves caches of the analyses).  A basic block is its index. *)

From stdpp Require Import gmap.
From S2P Require Import Prelude.
From S2P Require Import Slice.
From S2P Require Import BitSets.
From S2P Require Import ChunkedBitSets.
From S2P Require Import Graph.
From S2P Require Import Mir.

(** * Lattices *)

(** [JoinSemiLattice] and [MeetSemiLattice]: the new value and whether it changed *)
Class JoinSemiLattice (D : Type) : Type := { join : D → D → outcome (D * bool) }.
Class MeetSemiLattice (D : Type) : Type := { meet : D → D → outcome (D * bool) }.

#[export] Instance bool_join : JoinSemiLattice bool :=
  {| join a b := match a, b with false, true => Ret (true, true) | _, _ => Ret (a, false) end |}.

#[export] Instance bool_meet : MeetSemiLattice bool :=
  {| meet a b := match a, b with true, false => Ret (false, true) | _, _ => Ret (a, false) end |}.

(** [IndexVec<I, T>]: element by element *)
Fixpoint pointwise {D} (f : D → D → outcome (D * bool)) (xs ys : list D) (changed : bool) : outcome (list D * bool) :=
  match xs, ys with
  | x :: xs, y :: ys =>
      let! (x, c) := f x y in
      let! (xs, changed) := pointwise f xs ys (changed || c) in Ret (x :: xs, changed)
  | _, _ => Ret (xs, changed)
  end.

#[export] Instance vec_join {D} `{JoinSemiLattice D} : JoinSemiLattice (list D) :=
  {| join xs ys := rassert (length xs =? length ys)%nat (pointwise join xs ys false) |}.

#[export] Instance vec_meet {D} `{MeetSemiLattice D} : MeetSemiLattice (list D) :=
  {| meet xs ys := rassert (length xs =? length ys)%nat (pointwise meet xs ys false) |}.

#[export] Instance bitset_join : JoinSemiLattice BitSet.t := {| join := BitSet.union |}.
#[export] Instance bitset_meet : MeetSemiLattice BitSet.t := {| meet := BitSet.intersect |}.
#[export] Instance chunked_join : JoinSemiLattice ChunkedBitSet.t := {| join := ChunkedBitSet.union |}.
(** [ChunkedBitSet::intersect] with another chunked set is [unimplemented!]. *)
#[export] Instance chunked_meet : MeetSemiLattice ChunkedBitSet.t := {| meet _ _ := Panic |}.

Inductive Dual (D : Type) : Type := dual (d : D).
Arguments dual {D} d.
Definition undual {D} (d : Dual D) : D := match d with dual d => d end.

#[export] Instance dual_join {D} `{MeetSemiLattice D} : JoinSemiLattice (Dual D) :=
  {| join a b := let! (d, c) := meet (undual a) (undual b) in Ret (dual d, c) |}.

#[export] Instance dual_meet {D} `{JoinSemiLattice D} : MeetSemiLattice (Dual D) :=
  {| meet a b := let! (d, c) := join (undual a) (undual b) in Ret (dual d, c) |}.

Inductive FlatSet (T : Type) : Type := Bottom | Elem (t : T) | Top.
Arguments Bottom {T}.
Arguments Elem {T} t.
Arguments Top {T}.

#[export] Instance flat_join {T} `{EqDecision T} : JoinSemiLattice (FlatSet T) :=
  {| join a b := match a, b with
     | Top, _ | _, Bottom => Ret (a, false)
     | Elem x, Elem y => if decide (x = y) then Ret (a, false) else Ret (Top, true)
     | Bottom, Elem x => Ret (Elem x, true)
     | _, _ => Ret (Top, true)
     end |}.

#[export] Instance flat_meet {T} `{EqDecision T} : MeetSemiLattice (FlatSet T) :=
  {| meet a b := match a, b with
     | Bottom, _ | _, Top => Ret (a, false)
     | Elem x, Elem y => if decide (x = y) then Ret (a, false) else Ret (Bottom, true)
     | Top, Elem x => Ret (Elem x, true)
     | _, _ => Ret (Bottom, true)
     end |}.

Inductive MaybeReachable (D : Type) : Type := Unreachable | Reachable (d : D).
Arguments Unreachable {D}.
Arguments Reachable {D} d.

Definition is_reachable {D} (m : MaybeReachable D) : bool :=
  match m with Reachable _ => true | Unreachable => false end.

#[export] Instance maybe_join {D} `{JoinSemiLattice D} : JoinSemiLattice (MaybeReachable D) :=
  {| join a b := match a, b with
     | _, Unreachable => Ret (a, false)
     | Unreachable, _ => Ret (b, true)
     | Reachable x, Reachable y => let! (d, c) := join x y in Ret (Reachable d, c)
     end |}.

(** * Gen/kill *)

Class BitSetExt (D : Type) : Type := {
  ext_contains : D → Z → outcome bool;
  ext_union : D → HybridBitSet.t → outcome D;
  ext_subtract : D → HybridBitSet.t → outcome D;
}.

Class GenKill (D : Type) : Type := { gen : D → Z → outcome D; kill : D → Z → outcome D }.

Definition gen_all {D} `{GenKill D} (d : D) (elems : list Z) : outcome D := fold_outcome gen elems d.
Definition kill_all {D} `{GenKill D} (d : D) (elems : list Z) : outcome D := fold_outcome kill elems d.

(** The value of a call whose answer is not used *)
Definition fst_of {A B} (o : outcome (A * B)) : outcome A := let! (a, _) := o in Ret a.

Section GenKillSets.
Context `{Idx} `{ArrayVecApi}.

#[export] Instance bitset_ext : BitSetExt BitSet.t :=
  {| ext_contains := BitSet.contains;
     ext_union s o := fst_of (HybridBitSet.dense_union s o);
     ext_subtract s o := fst_of (HybridBitSet.dense_subtract s o) |}.

#[export] Instance chunked_ext : BitSetExt ChunkedBitSet.t :=
  {| ext_contains := ChunkedBitSet.contains;
     ext_union s o := fst_of (ChunkedBitSet.union_hybrid s o);
     ext_subtract s o := fst_of (ChunkedBitSet.subtract_hybrid s o) |}.

#[export] Instance dual_bitset_ext : BitSetExt (Dual BitSet.t) :=
  {| ext_contains d := BitSet.contains (undual d);
     ext_union d o := let! s := ext_union (undual d) o in Ret (dual s);
     ext_subtract d o := let! s := ext_subtract (undual d) o in Ret (dual s) |}.

#[export] Instance maybe_ext {D} `{BitSetExt D} : BitSetExt (MaybeReachable D) :=
  {| ext_contains m x := match m with Unreachable => Ret false | Reachable d => ext_contains d x end;
     ext_union m o := match m with Unreachable => Ret Unreachable | Reachable d => let! d := ext_union d o in Ret (Reachable d) end;
     ext_subtract m o :=
       match m with Unreachable => Ret Unreachable | Reachable d => let! d := ext_subtract d o in Ret (Reachable d) end |}.

Record GenKillSet : Type := { gen_set : HybridBitSet.t; kill_set : HybridBitSet.t }.

Definition identity (universe : Z) : GenKillSet :=
  {| gen_set := HybridBitSet.new_empty universe; kill_set := HybridBitSet.new_empty universe |}.

Definition apply_trans {D} `{BitSetExt D} (t : GenKillSet) (state : D) : outcome D :=
  let! state := ext_union state (gen_set t) in ext_subtract state (kill_set t).

#[export] Instance trans_gen_kill : GenKill GenKillSet :=
  {| gen t x :=
       let! g := fst_of (HybridBitSet.insert (gen_set t) x) in
       let! k := fst_of (HybridBitSet.remove (kill_set t) x) in
       Ret {| gen_set := g; kill_set := k |};
     kill t x :=
       let! k := fst_of (HybridBitSet.insert (kill_set t) x) in
       let! g := fst_of (HybridBitSet.remove (gen_set t) x) in
       Ret {| gen_set := g; kill_set := k |} |}.

End GenKillSets.

#[export] Instance bitset_gen_kill : GenKill BitSet.t :=
  {| gen s x := fst_of (BitSet.insert s x); kill s x := fst_of (BitSet.remove s x) |}.

#[export] Instance chunked_gen_kill : GenKill ChunkedBitSet.t :=
  {| gen s x := fst_of (ChunkedBitSet.insert s x); kill s x := fst_of (ChunkedBitSet.remove s x) |}.

#[export] Instance dual_gen_kill : GenKill (Dual BitSet.t) :=
  {| gen d x := let! s := gen (undual d) x in Ret (dual s); kill d x := let! s := kill (undual d) x in Ret (dual s) |}.

#[export] Instance maybe_gen_kill {D} `{GenKill D} : GenKill (MaybeReachable D) :=
  {| gen m x := match m with Unreachable => Ret Unreachable | Reachable d => let! d := gen d x in Ret (Reachable d) end;
     kill m x := match m with Unreachable => Ret Unreachable | Reachable d => let! d := kill d x in Ret (Reachable d) end |}.

(** * The work queue *)

Module WorkQueue.

Record t : Type := { deque : list Z; set : BitSet.t }.

Definition with_none (len : Z) : t := {| deque := []; set := BitSet.new_empty len |}.

Definition insert (q : t) (element : Z) : outcome (t * bool) :=
  let! (s, added) := BitSet.insert (set q) element in
  if added then Ret ({| deque := deque q ++ [element]; set := s |}, true)
  else Ret ({| deque := deque q; set := s |}, false).

Definition pop (q : t) : outcome (t * option Z) :=
  match deque q with
  | element :: rest =>
      let! (s, _) := BitSet.remove (set q) element in Ret ({| deque := rest; set := s |}, Some element)
  | [] => Ret (q, None)
  end.

End WorkQueue.

(** * Bodies and analyses *)

Record Location : Type := { loc_block : Z; statement_index : nat }.

Record SwitchIntTarget : Type := { value : option Z; switch_target : Z }.

Section Framework.
Context {Stmt Place Operand D : Type}.

Abbreviation BasicBlockData := (BasicBlockData Stmt Place Operand).
Abbreviation Body := (list BasicBlockData).
Abbreviation Term := (TerminatorKind.t Place Operand).
Abbreviation TerminatorEdges := (TerminatorEdges Place Operand).

(** [Analysis].  [apply_switch_int_edge_effects] is the callback that the analysis
    passes to [SwitchIntEdgeEffects::apply], if it calls it. *)
Record Analysis : Type := {
  bottom_value : Body → D;
  initialize_start_block : Body → D → outcome D;
  apply_before_statement_effect : D → Stmt → Location → outcome D;
  apply_statement_effect : D → Stmt → Location → outcome D;
  apply_before_terminator_effect : D → Term → Location → outcome D;
  apply_terminator_effect : D → Term → Location → outcome (D * TerminatorEdges);
  apply_call_return_effect : D → Z → CallReturnPlaces Place Operand → outcome D;
  apply_switch_int_edge_effects : Z → Operand → option (D → SwitchIntTarget → outcome D);
}.

Variable analysis : Analysis.

(** One statement: its effect before it and its own *)
Definition apply_statement (block : Z) (state : D) (p : nat * Stmt) : outcome D :=
  let location := {| loc_block := block; statement_index := fst p |} in
  let! state := apply_before_statement_effect analysis state (snd p) location in
  apply_statement_effect analysis state (snd p) location.

(** The effects of the statements, or the cached transfer function of the block *)
Definition statement_effects (block : Z) (stmts : list (nat * Stmt)) (cached : option (Z → D → outcome D)) (state : D)
    : outcome D :=
  match cached with
  | Some statement_effect => statement_effect block state
  | None => fold_outcome (apply_statement block) stmts state
  end.

Definition terminator_effects (block : Z) (data : BasicBlockData) (state : D) : outcome (D * TerminatorEdges) :=
  let location := {| loc_block := block; statement_index := length (statements data) |} in
  let! term := block_terminator data in
  let! state := apply_before_terminator_effect analysis state term location in
  apply_terminator_effect analysis state term location.

Definition forward_apply_effects_in_block (state : D) (block : Z) (data : BasicBlockData)
    (cached : option (Z → D → outcome D)) : outcome (D * TerminatorEdges) :=
  let! state := statement_effects block (enumerate (statements data)) cached state in
  terminator_effects block data state.

Definition backward_apply_effects_in_block (state : D) (block : Z) (data : BasicBlockData)
    (cached : option (Z → D → outcome D)) : outcome (D * TerminatorEdges) :=
  let! (state, edges) := terminator_effects block data state in
  let! state := statement_effects block (reverse (enumerate (statements data))) cached state in
  Ret (state, edges).

(** [propagate] with the state that it captures *)
Section Join.
Context {B : Type} (propagate : B → Z → D → outcome B).

(** [ForwardSwitchIntEdgeEffectsApplier::apply] *)
Definition forward_switch_apply (f : D → SwitchIntTarget → outcome D) (targets : SwitchTargets) (exit_state : D) (acc : B)
    : outcome B :=
  let! acc := fold_outcome (λ acc vt,
    let! tmp := f exit_state {| value := Some (fst vt); switch_target := snd vt |} in
    propagate acc (snd vt) tmp) (targets_iter targets) acc in
  let! other := otherwise targets in
  let! exit_state := f exit_state {| value := None; switch_target := other |} in
  propagate acc other exit_state.

Definition forward_join_state (exit_state : D) (bb : Z) (edges : TerminatorEdges) (acc : B) : outcome B :=
  match edges with
  | EdgesNone => Ret acc
  | Single target => propagate acc target exit_state
  | Double target unwind =>
      let! acc := propagate acc target exit_state in propagate acc unwind exit_state
  | AssignOnReturn return_ unwind place =>
      let! acc := match unwind with Cleanup unwind => propagate acc unwind exit_state | _ => Ret acc end in
      match return_ with
      | Some return_ =>
          let! exit_state := apply_call_return_effect analysis exit_state bb place in
          propagate acc return_ exit_state
      | None => Ret acc
      end
  | SwitchInt targets discr =>
      match apply_switch_int_edge_effects analysis bb discr with
      | Some f => forward_switch_apply f targets exit_state acc
      | None => fold_outcome (λ acc target, propagate acc target exit_state) (all_targets targets) acc
      end
  end.

(** [BackwardSwitchIntEdgeEffectsApplier::apply] *)
Definition backward_switch_apply (f : D → SwitchIntTarget → outcome D) (body : Body) (bb pred : Z) (exit_state : D) (acc : B)
    : outcome B :=
  let! sources := switch_sources body in
  let! values := unwrap (sources !! (bb, pred)) in
  fold_outcome (λ acc v,
    let! tmp := f exit_state {| value := v; switch_target := bb |} in
    propagate acc pred tmp) values acc.

Definition backward_join_pred (body : Body) (exit_state : D) (bb : Z) (acc : B) (pred : Z) : outcome B :=
  let! data := index body (Z.to_nat pred) in
  let! term := block_terminator data in
  let returns block place :=
    let! tmp := apply_call_return_effect analysis exit_state block place in propagate acc pred tmp in
  match term with
  | TerminatorKind.Call _ _ destination (Some dest) _ =>
      if dest =? bb then returns pred (ReturnCall destination) else propagate acc pred exit_state
  | TerminatorKind.InlineAsm operands (Some dest) _ =>
      if dest =? bb then returns pred (ReturnInlineAsm operands) else propagate acc pred exit_state
  | TerminatorKind.Yield _ resume resume_arg _ =>
      if resume =? bb then returns resume (ReturnYield resume_arg) else propagate acc pred exit_state
  | TerminatorKind.SwitchInt discr _ =>
      match apply_switch_int_edge_effects analysis pred discr with
      | Some f => backward_switch_apply f body bb pred exit_state acc
      | None => propagate acc pred exit_state
      end
  | _ => propagate acc pred exit_state
  end.

Definition backward_join_state (body : Body) (exit_state : D) (bb : Z) (acc : B) : outcome B :=
  let! preds := predecessors body in
  let! preds := index preds (Z.to_nat bb) in
  fold_outcome (backward_join_pred body exit_state bb) preds acc.

(** What one block does in either direction: the effects, then the joins *)
Definition flow_block (forward : bool) (body : Body) (cached : option (Z → D → outcome D)) (bb : Z) (state : D) (acc : B)
    : outcome B :=
  let! bb_data := index body (Z.to_nat bb) in
  if forward then
    let! (state, edges) := forward_apply_effects_in_block state bb bb_data cached in
    forward_join_state state bb edges acc
  else
    let! (state, edges) := backward_apply_effects_in_block state bb bb_data cached in
    backward_join_state body state bb acc.

End Join.

(** * The engine *)

Section Engine.
Context `{JoinSemiLattice D} `{EqDecision D}.

Definition engine_new (forward : bool) (body : Body) : outcome (list D) :=
  let entry_sets := replicate (length body) (bottom_value analysis body) in
  let! start := index entry_sets 0 in
  let! start := initialize_start_block analysis body start in
  let! entry_sets := index_set entry_sets 0 start in
  if negb forward && negb (bool_decide (start = bottom_value analysis body)) then Panic else Ret entry_sets.

(** The closure that [iterate_to_fixpoint] passes as [propagate] *)
Definition propagate_into (acc : list D * WorkQueue.t) (target : Z) (state : D) : outcome (list D * WorkQueue.t) :=
  let (entry_sets, dirty_queue) := acc in
  let! old := index entry_sets (Z.to_nat target) in
  let! (new, set_changed) := join old state in
  let! entry_sets := index_set entry_sets (Z.to_nat target) new in
  if set_changed then
    let! (dirty_queue, _) := WorkQueue.insert dirty_queue target in Ret (entry_sets, dirty_queue)
  else Ret (entry_sets, dirty_queue).

(** [while let Some(bb) = dirty_queue.pop()], at most [fuel] rounds *)
Fixpoint fixpoint_loop (fuel : nat) (forward : bool) (body : Body) (cached : option (Z → D → outcome D))
    (entry_sets : list D) (dirty_queue : WorkQueue.t) : outcome (list D) :=
  match fuel with
  | O => Panic
  | S fuel =>
      let! (dirty_queue, popped) := WorkQueue.pop dirty_queue in
      match popped with
      | None => Ret entry_sets
      | Some bb =>
          let! state := index entry_sets (Z.to_nat bb) in
          let! (entry_sets, dirty_queue) :=
            flow_block propagate_into forward body cached bb state (entry_sets, dirty_queue) in
          fixpoint_loop fuel forward body cached entry_sets dirty_queue
      end
  end.

Definition iterate_to_fixpoint (fuel : nat) (forward : bool) (body : Body) (cached : option (Z → D → outcome D))
    (entry_sets : list D) : outcome (list D) :=
  let! order := if forward then reverse_postorder body else postorder body in
  let! dirty_queue := fold_outcome (λ q bb, fst_of (WorkQueue.insert q bb)) order
    (WorkQueue.with_none (Z.of_nat (length body))) in
  fixpoint_loop fuel forward body cached entry_sets dirty_queue.

End Engine.

(** * Cumulative transfer functions *)

Section GenKillEngine.
Context `{Idx} `{ArrayVecApi} `{BitSetExt D}.

(** [before_statement_effect] and [statement_effect] of a [GenKillAnalysis], on a
    transfer function *)
Context (trans_effect : Z → GenKillSet → nat * Stmt → outcome GenKillSet).

Definition gen_kill_statement_effects_in_block (forward : bool) (block : Z) (data : BasicBlockData) (trans : GenKillSet)
    : outcome GenKillSet :=
  let stmts := enumerate (statements data) in
  fold_outcome (trans_effect block) (if forward then stmts else reverse stmts) trans.

(** The cached transfer functions of [Engine::new_gen_kill], one per block *)
Fixpoint trans_for_blocks (forward : bool) (universe : Z) (bb : nat) (blocks : list BasicBlockData) : outcome (list GenKillSet) :=
  match blocks with
  | [] => Ret []
  | data :: blocks =>
      let! trans := gen_kill_statement_effects_in_block forward (Z.of_nat bb) data (identity universe) in
      let! rest := trans_for_blocks forward universe (S bb) blocks in Ret (trans :: rest)
  end.

Definition cached_trans (trans_for_block : list GenKillSet) (bb : Z) (state : D) : outcome D :=
  let! trans := index trans_for_block (Z.to_nat bb) in apply_trans trans state.

(** The functions are computed ahead of time when a block may run more than once. *)
Definition new_gen_kill (forward : bool) (universe : Z) (body : Body) : outcome (option (Z → D → outcome D)) :=
  let! is_cfg_cyclic := is_cfg_cyclic body in
  if negb is_cfg_cyclic then Ret None
  else
    let! trans_for_block := trans_for_blocks forward universe 0 body in
    Ret (Some (cached_trans trans_for_block)).

End GenKillEngine.

End Framework.
