(* ===== verification/GenKillProps.v ===== *)
(** * Work queues and cumulative transfer functions

    The work queue is a queue without duplicates.  The transfer function that
    [GenKillSet] builds up from a sequence of [gen] and [kill] calls acts on a
    state as the calls do, so that [Engine::new_gen_kill] may apply it in their
    place. *)

From stdpp Require Import sorting.
From S2P Require Import Prelude.
From S2P Require Import Slice.
From S2P Require Import IndexSet.
From S2P Require Import BitSets.
From S2P Require Import BitSetProps.
From S2P Require Import BitIterProps.
From S2P Require Import HybridProps.
From S2P Require Import ChunkedBitSets.
From S2P Require Import ChunkedProps.
From S2P Require Import ChunkedIterProps.
From S2P Require Import IndexSetInstances.
From S2P Require Import Graph.
From S2P Require Import Mir.
From S2P Require Import Dataflow.

(** * The work queue *)

(** The bit set has the elements of the queue, which has no duplicates. *)
Record wf_queue (n : Z) (q : WorkQueue.t) : Prop := {
  wfq_set : wf_bitset n (WorkQueue.set q);
  wfq_nodup : NoDup (WorkQueue.deque q);
  wfq_elem x : dense_elem (WorkQueue.set q) x ↔ x ∈ WorkQueue.deque q;
}.

Lemma queue_with_none n : dense_domain n → wf_queue n (WorkQueue.with_none n).
Proof.
  intros Hn. destruct (new_empty_dense n Hn) as [Hw He]. split; cbn; [done|by apply list.NoDup_nil|].
  intros x. rewrite elem_of_nil. split; [apply He|done].
Qed.

Lemma queue_insert n q x : wf_queue n q → 0 ≤ x < n →
  ∃ q', WorkQueue.insert q x = Ret (q', bool_decide (x ∉ WorkQueue.deque q)) ∧ wf_queue n q' ∧
    WorkQueue.deque q' = if decide (x ∈ WorkQueue.deque q) then WorkQueue.deque q else WorkQueue.deque q ++ [x].
Proof.
  intros [Hs Hn He] Hx. unfold WorkQueue.insert.
  destruct (insert_dense n _ x Hs Hx) as (s' & b & -> & Hs' & Hu & Hb). cbn [obind].
  assert (b = bool_decide (x ∉ WorkQueue.deque q)) as ->.
  { apply eq_true_iff_eq. rewrite Hb, bool_decide_eq_true. split.
    - intros (y & Hy) Hin. rewrite <- He in Hin. destruct Hy. split; [tauto|]. intros [?| ->]; done.
    - intros Hin. exists x. rewrite He. tauto. }
  case_bool_decide as Hin; (eexists; split; [done|]).
  - rewrite decide_False by done. split; [|done]. split; cbn; [done|..].
    + apply list.NoDup_app. split_and!; [done| |apply NoDup_singleton]. by intros y Hy ->%list_elem_of_singleton.
    + intros y. by rewrite Hu, He, elem_of_app, list_elem_of_singleton.
  - assert (x ∈ WorkQueue.deque q) as Hin' by (destruct (decide (x ∈ WorkQueue.deque q)); tauto).
    rewrite decide_True by done. split; [|done]. split; cbn; [done..|].
    intros y. rewrite Hu, He. split; [intros [?| ->]; done|by left].
Qed.

Lemma queue_pop n q : wf_queue n q →
  match WorkQueue.deque q with
  | [] => WorkQueue.pop q = Ret (q, None)
  | x :: rest => ∃ q', WorkQueue.pop q = Ret (q', Some x) ∧ wf_queue n q' ∧ WorkQueue.deque q' = rest ∧ 0 ≤ x < n ∧ x ∉ rest
  end.
Proof.
  intros [Hs Hn He]. unfold WorkQueue.pop. destruct (WorkQueue.deque q) as [|x rest] eqn:E; [done|].
  assert (dense_elem (WorkQueue.set q) x) as Hx by (apply He; left).
  pose proof (dense_elem_below n _ x Hs Hx) as Hb. destruct (remove_dense n _ x Hs Hb) as (s' & b & -> & Hs' & Hu & _).
  cbn [obind]. apply list.NoDup_cons in Hn as [Hx' Hn]. eexists. split; [done|]. split_and!; cbn; try done; try lia.
  split; cbn; [done..|]. intros y. rewrite Hu, He, elem_of_cons. split; [tauto|]. intros Hy. split; [by right|].
  intros ->. done.
Qed.

(** * States of a gen/kill analysis *)

(** What a set type promises as the state of a gen/kill analysis *)
Class StateLaws {Ix : Idx} {A : ArrayVecApi} (D : Type) `{GenKill D} `{BitSetExt D} : Type := {
  st_wf : Z → D → Prop;
  st_elem : D → Z → Prop;
  st_gen n s x : st_wf n s → 0 ≤ x < n →
    ∃ s', gen s x = Ret s' ∧ st_wf n s' ∧ ∀ y, st_elem s' y ↔ st_elem s y ∨ y = x;
  st_kill n s x : st_wf n s → 0 ≤ x < n →
    ∃ s', kill s x = Ret s' ∧ st_wf n s' ∧ ∀ y, st_elem s' y ↔ st_elem s y ∧ y ≠ x;
  st_union n s o : st_wf n s → wf_hybrid n o → n ≤ idx_max + 1 →
    ∃ s', ext_union s o = Ret s' ∧ st_wf n s' ∧ ∀ y, st_elem s' y ↔ st_elem s y ∨ hybrid_elem o y;
  st_subtract n s o : st_wf n s → wf_hybrid n o → n ≤ idx_max + 1 →
    ∃ s', ext_subtract s o = Ret s' ∧ st_wf n s' ∧ ∀ y, st_elem s' y ↔ st_elem s y ∧ ¬ hybrid_elem o y;
}.

Lemma fst_of_update {B} (o : outcome (B * bool)) (wf : B → Prop) (E : Z → Prop) (F : B → Z → Prop) (P : Z → Prop) :
  (∃ s b, o = Ret (s, b) ∧ wf s ∧ set_update E (F s) b P) →
  ∃ s, fst_of o = Ret s ∧ wf s ∧ ∀ y, F s y ↔ P y.
Proof. intros (s & b & -> & Hw & He & _). by exists s. Qed.

Section Instances.
Context {Ix : Idx} {A : ArrayVecApi} {AL : ArrayVecLaws A}.

#[export] Program Instance bitset_state : StateLaws BitSet.t := {| st_wf := wf_bitset; st_elem := dense_elem |}.
Next Obligation. intros. by eapply fst_of_update, insert_dense. Qed.
Next Obligation. intros. by eapply fst_of_update, remove_dense. Qed.
Next Obligation. intros. by eapply fst_of_update, dense_union_hybrid. Qed.
Next Obligation. intros. by eapply fst_of_update, dense_subtract_hybrid. Qed.

#[export] Program Instance chunked_state : StateLaws ChunkedBitSet.t := {| st_wf := wf_chunked; st_elem := chunked_elem |}.
Next Obligation. intros. by eapply fst_of_update, insert_chunked. Qed.
Next Obligation. intros. by eapply fst_of_update, remove_chunked. Qed.
Next Obligation. intros. by eapply fst_of_update, union_hybrid_chunked. Qed.
Next Obligation. intros. by eapply fst_of_update, subtract_hybrid_chunked. Qed.

End Instances.

(** * Cumulative transfer functions *)

(** What a statement effect of a [GenKillAnalysis] does with its argument *)
Inductive action : Type := Gen (x : Z) | Kill (x : Z).

Definition run_action {D} `{GenKill D} (d : D) (a : action) : outcome D :=
  match a with Gen x => gen d x | Kill x => kill d x end.

Definition run_actions {D} `{GenKill D} (l : list action) (d : D) : outcome D := fold_outcome run_action l d.

Definition action_elem (a : action) : Z := match a with Gen x | Kill x => x end.

Definition actions_ok (n : Z) (l : list action) : Prop := Forall (λ a, 0 ≤ action_elem a < n) l.

(** The elements after a sequence of actions *)
Definition act (E : Z → Prop) (a : action) : Z → Prop :=
  match a with Gen x => λ y, E y ∨ y = x | Kill x => λ y, E y ∧ y ≠ x end.

Definition acts (l : list action) (E : Z → Prop) : Z → Prop := foldl act E l.

Section Cumulative.
Context {Ix : Idx} {A : ArrayVecApi} {AL : ArrayVecLaws A}.

Definition wf_trans (n : Z) (t : GenKillSet) : Prop := wf_hybrid n (gen_set t) ∧ wf_hybrid n (kill_set t).

(** The elements of a state after a transfer function *)
Definition trans_elem (t : GenKillSet) (E : Z → Prop) (y : Z) : Prop :=
  (E y ∨ hybrid_elem (gen_set t) y) ∧ ¬ hybrid_elem (kill_set t) y.

Lemma trans_action n t a : wf_trans n t → 0 ≤ action_elem a < n →
  ∃ t', run_action t a = Ret t' ∧ wf_trans n t' ∧ ∀ E y, trans_elem t' E y ↔ act (trans_elem t E) a y.
Proof.
  intros [Hg Hk] Ha. destruct a as [x|x]; cbn in Ha |- *.
  - destruct (fst_of_update _ _ _ _ _ (insert_hybrid n _ x Hg Ha)) as (g & -> & Hg' & Eg).
    destruct (fst_of_update _ _ _ _ _ (remove_hybrid n _ x Hk Ha)) as (k & -> & Hk' & Ek). cbn [obind].
    eexists. split; [done|]. split; [done|]. intros E y. unfold trans_elem. cbn [gen_set kill_set]. rewrite Eg, Ek.
    destruct (decide (y = x)); tauto.
  - destruct (fst_of_update _ _ _ _ _ (insert_hybrid n _ x Hk Ha)) as (k & -> & Hk' & Ek).
    destruct (fst_of_update _ _ _ _ _ (remove_hybrid n _ x Hg Ha)) as (g & -> & Hg' & Eg). cbn [obind].
    eexists. split; [done|]. split; [done|]. intros E y. unfold trans_elem. cbn [gen_set kill_set]. rewrite Eg, Ek.
    destruct (decide (y = x)); tauto.
Qed.

Lemma act_proper a (E E' : Z → Prop) : (∀ y, E y ↔ E' y) → ∀ y, act E a y ↔ act E' a y.
Proof. intros HE y. destruct a; cbn; by rewrite HE. Qed.

Lemma acts_proper l : ∀ (E E' : Z → Prop), (∀ y, E y ↔ E' y) → ∀ y, acts l E y ↔ acts l E' y.
Proof.
  induction l as [|a l IH]; intros E E' HE y; [apply HE|]. unfold acts. cbn [foldl]. apply (IH (act E a) (act E' a)).
  by apply act_proper.
Qed.

Lemma trans_actions n l : ∀ t, wf_trans n t → actions_ok n l →
  ∃ t', run_actions l t = Ret t' ∧ wf_trans n t' ∧ ∀ E y, trans_elem t' E y ↔ acts l (trans_elem t E) y.
Proof.
  unfold run_actions. induction l as [|a l IH]; intros t Ht Hl; [by exists t|].
  apply Forall_inv in Hl as Ha. apply Forall_inv_tail in Hl. cbn [fold_outcome].
  destruct (trans_action n t a Ht Ha) as (t1 & -> & Ht1 & E1). cbn [obind].
  destruct (IH t1 Ht1 Hl) as (t2 & Hr & Ht2 & E2). exists t2. split; [exact Hr|]. split; [done|].
  intros E y. rewrite E2. unfold acts. cbn [foldl]. apply acts_proper. apply E1.
Qed.

Context {D : Type} {G : GenKill D} {X : BitSetExt D} {SL : StateLaws D}.

Lemma state_actions n l : ∀ s : D, st_wf n s → actions_ok n l →
  ∃ s', run_actions l s = Ret s' ∧ st_wf n s' ∧ ∀ y, st_elem s' y ↔ acts l (st_elem s) y.
Proof.
  unfold run_actions. induction l as [|a l IH]; intros s Hs Hl; [by exists s|].
  apply Forall_inv in Hl as Ha. apply Forall_inv_tail in Hl. cbn [fold_outcome].
  assert (∃ s1, run_action s a = Ret s1 ∧ st_wf n s1 ∧ ∀ y, st_elem s1 y ↔ act (st_elem s) a y) as (s1 & -> & Hs1 & E1).
  { destruct a as [x|x]; [by apply st_gen|by apply st_kill]. }
  cbn [obind]. destruct (IH s1 Hs1 Hl) as (s2 & Hr & Hs2 & E2). exists s2. split; [exact Hr|]. split; [done|].
  intros y. rewrite E2. unfold acts. cbn [foldl]. by apply acts_proper.
Qed.

Lemma apply_trans_spec n t (s : D) : wf_trans n t → st_wf n s → n ≤ idx_max + 1 →
  ∃ s', apply_trans t s = Ret s' ∧ st_wf n s' ∧ ∀ y, st_elem s' y ↔ trans_elem t (st_elem s) y.
Proof.
  intros [Hg Hk] Hs Hn. unfold apply_trans. destruct (st_union n s _ Hs Hg Hn) as (s1 & -> & Hs1 & E1). cbn [obind].
  destruct (st_subtract n s1 _ Hs1 Hk Hn) as (s2 & -> & Hs2 & E2). exists s2. split_and!; [done..|].
  intros y. unfold trans_elem. by rewrite E2, E1.
Qed.

Lemma identity_wf n : dense_domain n → wf_trans n (identity n) ∧ ∀ E y, trans_elem (identity n) E y ↔ E y.
Proof.
  intros Hd. assert (wf_hybrid n (HybridBitSet.new_empty n)) as Hw.
  { split; [done|]. split; cbn; [done|constructor|constructor|lia]. }
  split; [done|]. intros E y. unfold trans_elem. cbn. unfold sparse_elem. cbn. rewrite elem_of_nil. tauto.
Qed.

(** A transfer function built from actions acts as the actions do. *)
Lemma cumulative n l (s : D) : dense_domain n → n ≤ idx_max + 1 → actions_ok n l → st_wf n s →
  ∃ t s1 s2, run_actions l (identity n) = Ret t ∧ apply_trans t s = Ret s1 ∧ run_actions l s = Ret s2 ∧
    st_wf n s1 ∧ st_wf n s2 ∧ ∀ y, st_elem s1 y ↔ st_elem s2 y.
Proof.
  intros Hd Hn Hl Hs. destruct (identity_wf n Hd) as [Hi Ei].
  destruct (trans_actions n l _ Hi Hl) as (t & Ht & Hwt & Et).
  destruct (apply_trans_spec n t s Hwt Hs Hn) as (s1 & H1 & Hs1 & E1).
  destruct (state_actions n l s Hs Hl) as (s2 & H2 & Hs2 & E2). exists t, s1, s2. split_and!; [done..|].
  intros y. rewrite E1, E2, Et. by apply acts_proper.
Qed.

End Cumulative.

(** * Blocks *)

Section Blocks.
Context {Ix : Idx} {A : ArrayVecApi} {AL : ArrayVecLaws A}.
Context {D : Type} {G : GenKill D} {X : BitSetExt D} {SL : StateLaws D}.
Context {Stmt Place Operand : Type}.

(** A [GenKillAnalysis]: the calls of [gen] and [kill] that its statement effects
    make, the same on a state and on a transfer function *)
Context (calls : Z → nat * Stmt → list action).
Context (analysis : Analysis (Stmt := Stmt) (Place := Place) (Operand := Operand) (D := D)).
Hypothesis statement_calls : ∀ bb s p, apply_statement analysis bb s p = run_actions (calls bb p) s.

Definition calls_ok (n : Z) : Prop := ∀ bb p, actions_ok n (calls bb p).

Lemma run_actions_app {T} `{GenKill T} l l' (t : T) :
  run_actions (l ++ l') t = let! t := run_actions l t in run_actions l' t.
Proof. apply fold_outcome_app. Qed.

Lemma fold_calls {T} `{GenKill T} bb (ps : list (nat * Stmt)) : ∀ t : T,
  fold_outcome (λ t p, run_actions (calls bb p) t) ps t = run_actions (concat (calls bb <$> ps)) t.
Proof.
  induction ps as [|p ps IH]; intros t; [done|]. cbn [fold_outcome fmap list_fmap concat]. rewrite run_actions_app.
  destruct (run_actions (calls bb p) t); [apply IH|done].
Qed.

Lemma concat_ok n bb (ps : list (nat * Stmt)) : calls_ok n → actions_ok n (concat (calls bb <$> ps)).
Proof. intros Hok. induction ps as [|p ps IH]; [constructor|]. apply Forall_app. split; [apply Hok|done]. Qed.

Definition ordered (forward : bool) (data : BasicBlockData Stmt Place Operand)
    : list (nat * Stmt) :=
  if forward then enumerate (statements data) else reverse (enumerate (statements data)).

Lemma trans_for_blocks_spec n forward : dense_domain n → calls_ok n → ∀ blocks i,
  ∃ ts, trans_for_blocks (λ bb t p, run_actions (calls bb p) t) forward n i blocks = Ret ts ∧
    length ts = length blocks ∧
    ∀ j data, blocks !! j = Some data → ∃ t, ts !! j = Some t ∧
      run_actions (concat (calls (Z.of_nat (i + j)) <$> ordered forward data)) (identity n) = Ret t.
Proof.
  intros Hd Hok blocks. induction blocks as [|data blocks IH]; intros i; [by exists []|]. cbn [trans_for_blocks].
  unfold gen_kill_statement_effects_in_block. fold (ordered forward data). rewrite fold_calls.
  destruct (trans_actions n (concat (calls (Z.of_nat i) <$> ordered forward data)) (identity n)) as (t & Ht & _);
    [by apply identity_wf|by apply concat_ok|]. rewrite Ht. cbn [obind].
  destruct (IH (S i)) as (ts & -> & Hl & Hts). exists (t :: ts). cbn [obind length]. split_and!; [done|lia|].
  intros [|j] data'; cbn; [intros [= <-]; exists t; by rewrite Nat.add_0_r|]. intros Hj.
  replace (i + S j)%nat with (S i + j)%nat by lia. by apply Hts.
Qed.

(** The cached function of a block acts on a state as its statements do. *)
Lemma cached_block n forward blocks ts bb data (s : D) :
  dense_domain n → n ≤ idx_max + 1 → calls_ok n → st_wf n s → 0 ≤ bb →
  trans_for_blocks (λ bb t p, run_actions (calls bb p) t) forward n 0 blocks = Ret ts →
  blocks !! Z.to_nat bb = Some data →
  ∃ s1 s2, statement_effects analysis bb (ordered forward data) (Some (cached_trans ts)) s = Ret s1 ∧
    statement_effects analysis bb (ordered forward data) None s = Ret s2 ∧
    st_wf n s1 ∧ st_wf n s2 ∧ ∀ y, st_elem s1 y ↔ st_elem s2 y.
Proof.
  intros Hd Hn Hok Hs Hbb Hts Hdata.
  destruct (trans_for_blocks_spec n forward Hd Hok blocks 0) as (ts' & Hts' & _ & Hj). rewrite Hts in Hts'. injection Hts' as <-.
  destruct (Hj _ _ Hdata) as (t & Ht & Hrun). cbn [Nat.add] in Hrun. rewrite Z2Nat.id in Hrun by done.
  destruct (cumulative n (concat (calls bb <$> ordered forward data)) s Hd Hn) as (t' & s1 & s2 & Ht' & H1 & H2 & Hrest);
    [by apply concat_ok|done|]. rewrite Hrun in Ht'. injection Ht' as <-.
  exists s1, s2. split; [|split; [|done]].
  - cbn [statement_effects]. unfold cached_trans, index. rewrite Ht. done.
  - cbn [statement_effects]. rewrite (fold_outcome_ext _ (λ t p, run_actions (calls bb p) t)) by (intros; apply statement_calls).
    by rewrite fold_calls.
Qed.

End Blocks.

(** * Over dense sets *)

Section DenseClaim.
Context {Ix : Idx} {A : ArrayVecApi} {AL : ArrayVecLaws A}.
Context {Stmt Place Operand : Type}.

(** C33. [Engine::new_gen_kill] may replace the statement effects of a block by the
    cumulative transfer function of the block, in both directions: on a dense
    state the cached function and the statements give the same set. *)
Theorem gen_kill_cached_agrees
    (calls : Z → nat * Stmt → list action)
    (analysis : Analysis (Stmt := Stmt) (Place := Place) (Operand := Operand) (D := BitSet.t))
    (n : Z) (forward : bool) (blocks : list (BasicBlockData Stmt Place Operand))
    (bb : Z) (data : BasicBlockData Stmt Place Operand) (s : BitSet.t) :
  (∀ bb s p, apply_statement analysis bb s p = run_actions (calls bb p) s) →
  dense_domain n → n ≤ idx_max + 1 → calls_ok calls n → wf_bitset n s → 0 ≤ bb → blocks !! Z.to_nat bb = Some data →
  ∃ ts s', trans_for_blocks (λ bb t p, run_actions (calls bb p) t) forward n 0 blocks = Ret ts ∧
    statement_effects analysis bb (ordered forward data) (Some (cached_trans ts)) s = Ret s' ∧
    statement_effects analysis bb (ordered forward data) None s = Ret s'.
Proof.
  intros Hcalls Hd Hn Hok Hs Hbb Hdata.
  destruct (trans_for_blocks_spec calls n forward Hd Hok blocks 0) as (ts & Hts & _).
  destruct (cached_block calls analysis Hcalls n forward blocks ts bb data s) as (s1 & s2 & H1 & H2 & Hw1 & Hw2 & He); try done.
  exists ts, s2. split_and!; try done. rewrite H1. f_equal. by apply (wf_bitset_ext n).
Qed.

End DenseClaim.

(** Three statements *)
Definition example_calls (bb : Z) (p : nat * nat) : list action :=
  match snd p with 0 => [Gen 1; Gen 2] | 1 => [Kill 1; Gen 3] | _ => [Kill 2; Gen 1] end%nat.

Definition calls_analysis : Analysis (Stmt := nat) (Place := unit) (Operand := unit) (D := BitSet.t) := {|
  bottom_value _ := BitSet.new_empty 10;
  initialize_start_block _ s := Ret s;
  apply_before_statement_effect s _ _ := Ret s;
  apply_statement_effect s st loc := run_actions (example_calls (loc_block loc) (statement_index loc, st)) s;
  apply_before_terminator_effect s _ _ := Ret s;
  apply_terminator_effect s _ _ := Ret (s, EdgesNone);
  apply_call_return_effect s _ _ := Ret s;
  apply_switch_int_edge_effects _ _ := None;
|}.

Definition example_block : BasicBlockData nat unit unit :=
  {| statements := [0; 1; 2]%nat; terminator := Some TerminatorKind.Return; is_cleanup := false |}.

Lemma gen_kill_cached_agrees_witness :
  let A := list_array_vec in let Ix := idx_u32 in
  ∃ ts s', trans_for_blocks (λ bb t p, run_actions (example_calls bb p) t) true 10 0 [example_block] = Ret ts ∧
    statement_effects calls_analysis 0 (ordered true example_block) (Some (cached_trans ts)) (BitSet.new_empty 10) = Ret s' ∧
    statement_effects calls_analysis 0 (ordered true example_block) None (BitSet.new_empty 10) = Ret s'.
Proof.
  intros A Ix. apply (gen_kill_cached_agrees (A := A) (Ix := Ix) example_calls calls_analysis 10 true [example_block] 0).
  - intros bb s [i st]. reflexivity.
  - split; lia.
  - vm_compute. discriminate.
  - intros bb [i [|[|st]]]; repeat constructor; cbn; lia.
  - apply new_empty_dense. split; lia.
  - lia.
  - reflexivity.
Defined.
