(* ===== verification/DataflowProps.v ===== *)
(** * The dataflow engine reaches the least fixpoint

    A block, in either direction, is a list of states that it propagates
    ([flows]).  Over a lattice whose chains are finite, [iterate_to_fixpoint]
    terminates, whatever the transfer functions; its entry sets contain what every
    reachable block propagates, and nothing more than any solution of the flow
    equations when the transfer functions are monotone. *)

From stdpp Require Import gmap relations sorting.
From S2P Require Import Prelude.
From S2P Require Import Slice.
From S2P Require Import IndexSet.
From S2P Require Import BitSets.
From S2P Require Import BitSetProps.
From S2P Require Import BitIterProps.
From S2P Require Import HybridProps.
From S2P Require Import GraphSearch.
From S2P Require Import Graph.
From S2P Require Import GraphProps.
From S2P Require Import Mir.
From S2P Require Import TraversalProps.
From S2P Require Import Dataflow.
From S2P Require Import GenKillProps.

(** * Lattices *)

(** What the engine needs of a lattice: [join] is a least upper bound, it tells
    whether there was a change, and a change lowers [height]. *)
Class JoinLaws (D : Type) `{JoinSemiLattice D} : Type := {
  lat_wf : D → Prop;
  lat_le : D → D → Prop;
  lat_height : D → nat;
  lat_refl d : lat_le d d;
  lat_trans a b c : lat_le a b → lat_le b c → lat_le a c;
  lat_join a b : lat_wf a → lat_wf b →
    ∃ d c, join a b = Ret (d, c) ∧ lat_wf d ∧ lat_le a d ∧ lat_le b d ∧
      (∀ u, lat_wf u → lat_le a u → lat_le b u → lat_le d u) ∧
      (c = false → d = a) ∧ (c = true → lat_height d < lat_height a)%nat;
}.

#[export] Program Instance bool_laws : JoinLaws bool := {|
  lat_wf _ := True; lat_le a b := a = true → b = true; lat_height b := if b then 0%nat else 1%nat;
|}.
Next Obligation. cbn. auto. Qed.
Next Obligation. cbn. auto. Qed.
Next Obligation.
  intros [] [] _ _; cbn; eexists _, _; split_and!; try done; cbn; intros; try done; try lia; auto.
Qed.

Definition flat_le {T} (a b : FlatSet T) : Prop :=
  match a, b with Bottom, _ | _, Top => True | Elem x, Elem y => x = y | _, _ => False end.

Definition flat_height {T} (a : FlatSet T) : nat := match a with Bottom => 2 | Elem _ => 1 | Top => 0 end.

#[export] Program Instance flat_laws {T} `{EqDecision T} : JoinLaws (FlatSet T) :=
  {| lat_wf _ := True; lat_le := flat_le; lat_height := flat_height |}.
Next Obligation. intros T ? []; cbn; done. Qed.
Next Obligation. intros T ? [] [] []; cbn; congruence || done. Qed.
Next Obligation.
  intros T ? [|x|] [|y|] _ _; cbn; try case_decide; eexists _, _; split_and!; cbn; try done; try lia.
  all: try (intros [|z|]; cbn; congruence || done).
  all: intros; cbn; congruence || lia.
Qed.

Definition maybe_wf {D} `{JoinLaws D} (m : MaybeReachable D) : Prop :=
  match m with Unreachable => True | Reachable d => lat_wf d end.

Definition maybe_le {D} `{JoinLaws D} (a b : MaybeReachable D) : Prop :=
  match a, b with Unreachable, _ => True | Reachable x, Reachable y => lat_le x y | _, _ => False end.

Definition maybe_height {D} `{JoinLaws D} (bound : nat) (a : MaybeReachable D) : nat :=
  match a with Unreachable => S bound | Reachable d => lat_height d end.

#[export] Program Instance maybe_laws {D} `{JoinLaws D} (bound : nat) (Hb : ∀ d : D, lat_wf d → (lat_height d ≤ bound)%nat) :
  JoinLaws (MaybeReachable D) := {| lat_wf := maybe_wf; lat_le := maybe_le; lat_height := maybe_height bound |}.
Next Obligation. intros D ? ? bound Hb []; [done|apply lat_refl]. Qed.
Next Obligation. intros D ? ? bound Hb [] [] []; try done. apply lat_trans. Qed.
Next Obligation.
  intros D ? ? bound Hb [|a] [|b] Ha Hb'; cbn in *.
  - eexists _, _. split_and!; try done.
  - eexists _, _. split_and!; try done; [apply lat_refl|]. intros _. specialize (Hb b Hb'). cbn. lia.
  - eexists _, _. split_and!; try done. apply lat_refl.
  - destruct (lat_join a b Ha Hb') as (d & c & -> & ? & ? & ? & Hu & Hf & Ht). eexists _, _. split_and!; try done.
    + intros [|u]; [done|]. apply Hu.
    + intros E. by rewrite Hf.
Qed.

(** Dense sets over one domain, ordered by inclusion *)
Definition absent (n : Z) (s : BitSet.t) : nat := length (filter (λ x, ¬ dense_elem s x) (seqZ 0 n)).

#[export] Program Instance bitset_laws (n : Z) : JoinLaws BitSet.t := {|
  lat_wf := wf_bitset n;
  lat_le s o := ∀ x, dense_elem s x → dense_elem o x;
  lat_height := absent n;
|}.
Next Obligation. cbn. auto. Qed.
Next Obligation. cbn. auto. Qed.
Next Obligation.
  intros n s o Hs Ho. destruct (union_dense_spec n s o Hs Ho) as (s' & b & Hr & Hw & He & Hb).
  exists s', b. split_and!; try done.
  - intros x Hx. rewrite He. by left.
  - intros x Hx. rewrite He. by right.
  - intros u _ H1 H2 x [?|?]%He; auto.
  - intros ->. apply (wf_bitset_ext n); [done..|]. intros x. change (dense_elem s' x ↔ dense_elem s x). rewrite He.
    destruct (decide (dense_elem o x ∧ ¬ dense_elem s x)) as [Hx|Hx].
    + discriminate (proj2 Hb ltac:(exists x; tauto)).
    + destruct (decide (dense_elem s x)), (decide (dense_elem o x)); tauto.
  - intros ->. destruct (proj1 Hb eq_refl) as (x & Hx).
    assert (dense_elem o x ∧ ¬ dense_elem s x) as [Hox Hsx] by (destruct (decide (dense_elem s x)), (decide (dense_elem o x)); tauto).
    apply (filter_length_lt _ _ _ x).
    + intros y Hy Hy'. apply Hy, He. by left.
    + apply elem_of_seqZ. pose proof (dense_elem_below n o x Ho Hox). lia.
    + done.
    + rewrite He. tauto.
Qed.

(** * What a block propagates *)

Create HintDb flows.

Section Flows.
Context {Stmt Place Operand D : Type}.
Context (analysis : Analysis (Stmt := Stmt) (Place := Place) (Operand := Operand) (D := D)).

(** A computation that only calls [propagate]: it is a list of calls. *)
Definition calls_only (f : ∀ B, (B → Z → D → outcome B) → B → outcome B) : Prop :=
  ∃ r, ∀ B (p : B → Z → D → outcome B) acc, f B p acc = let! l := r in fold_outcome (λ acc q, p acc (fst q) (snd q)) l acc.

Lemma calls_nothing : calls_only (λ B p acc, Ret acc).
Proof. by exists (Ret []). Qed.

Lemma calls_one t d : calls_only (λ B p acc, p acc t d).
Proof. exists (Ret [(t, d)]). intros B p acc. cbn. by destruct (p acc t d). Qed.

Lemma calls_effect {A} (e : outcome A) f : (∀ a, calls_only (f a)) → calls_only (λ B p acc, let! a := e in f a B p acc).
Proof. intros Hf. destruct e as [a|]; [apply Hf|]. by exists Panic. Qed.

Lemma calls_seq f g : calls_only f → calls_only g → calls_only (λ B p acc, let! acc := f B p acc in g B p acc).
Proof.
  intros [r Hr] [r' Hr']. exists (let! l := r in let! l' := r' in Ret (l ++ l')). intros B p acc. rewrite Hr.
  destruct r as [l|]; [|done]. cbn [obind]. destruct r' as [l'|]; cbn [obind].
  - rewrite fold_outcome_app. destruct (fold_outcome _ l acc); cbn [obind]; [apply Hr'|done].
  - destruct (fold_outcome _ l acc); cbn [obind]; [apply Hr'|done].
Qed.

Lemma calls_fold {A} (f : A → ∀ B, (B → Z → D → outcome B) → B → outcome B) l :
  (∀ x, calls_only (f x)) → calls_only (λ B p acc, fold_outcome (λ acc x, f x B p acc) l acc).
Proof.
  intros Hf. induction l as [|x l IH]; [apply calls_nothing|]. cbn [fold_outcome]. by apply calls_seq.
Qed.

Hint Resolve calls_nothing calls_one calls_effect calls_seq calls_fold : flows.

Lemma forward_calls s bb edges : calls_only (λ B p acc, forward_join_state analysis p s bb edges acc).
Proof.
  unfold forward_join_state, forward_switch_apply. destruct edges as [|t|t u|ret unwind place|ts discr]; auto with flows.
  - apply calls_seq; [destruct unwind; auto with flows|]. destruct ret; [|auto with flows].
    apply calls_effect. intros s'. apply calls_one.
  - destruct (apply_switch_int_edge_effects analysis bb discr) as [f|].
    + apply (calls_seq (λ B p acc, fold_outcome _ _ acc)).
      * apply (calls_fold (λ vt B p acc, let! tmp := f s _ in p acc (snd vt) tmp)). intros vt.
        apply calls_effect. intros tmp. apply calls_one.
      * apply (calls_effect (otherwise ts) (λ other B p acc, let! e := f s _ in p acc other e)). intros other.
        apply calls_effect. intros e. apply calls_one.
    + apply (calls_fold (λ t B p acc, p acc t s)). intros t. apply calls_one.
Qed.

Lemma backward_calls body s bb : calls_only (λ B p acc, backward_join_state analysis p body s bb acc).
Proof.
  unfold backward_join_state. destruct (predecessors body) as [ps|]; [|by exists Panic]. cbn [obind].
  apply (calls_effect _ (λ preds B p acc, fold_outcome (backward_join_pred analysis p body s bb) preds acc)).
  intros preds. apply (calls_fold (λ pred B p acc, backward_join_pred analysis p body s bb acc pred)). intros pred.
  unfold backward_join_pred. destruct (index body (Z.to_nat pred)) as [data|]; [|by exists Panic]. cbn [obind].
  destruct (block_terminator data) as [term|]; [|by exists Panic]. cbn [obind].
  assert (∀ block place, calls_only (λ B p acc, let! tmp := apply_call_return_effect analysis s block place in p acc pred tmp)) as Hret.
  { intros block place. apply calls_effect. intros tmp. apply calls_one. }
  destruct term as [|discr targets| | | | | |? ? place [dest|] ?| | | | | |? [dest|] ?]; try apply calls_one;
    try (case_match; [apply Hret|apply calls_one]).
  destruct (apply_switch_int_edge_effects analysis pred discr) as [f|]; [|apply calls_one]. unfold backward_switch_apply.
  destruct (switch_sources body) as [m|]; [|by exists Panic]. cbn [obind].
  apply (calls_effect _ (λ values B p acc, fold_outcome _ values acc)). intros values.
  apply (calls_fold (λ v B p acc, let! tmp := f s _ in p acc pred tmp)). intros v. apply calls_effect. intros tmp. apply calls_one.
Qed.

(** The states that a block propagates, from a given entry state *)
Definition flows (forward : bool) (body : list (BasicBlockData Stmt Place Operand)) (cached : option (Z → D → outcome D)) (bb : Z) (d : D) : outcome (list (Z * D)) :=
  flow_block analysis (λ acc t d, Ret (acc ++ [(t, d)])) forward body cached bb d [].

Lemma fold_collect (l acc : list (Z * D)) : fold_outcome (λ acc q, Ret (acc ++ [(fst q, snd q)])) l acc = Ret (acc ++ l).
Proof.
  revert acc. induction l as [|[t d] l IH]; intros acc; [cbn; by rewrite app_nil_r|]. cbn [fold_outcome obind].
  rewrite IH. by rewrite <- app_assoc.
Qed.

(** A block propagates its flows, whatever [propagate] does with them. *)
Lemma flow_block_flows {B} (p : B → Z → D → outcome B) forward body cached bb d acc :
  flow_block analysis p forward body cached bb d acc =
    let! l := flows forward body cached bb d in fold_outcome (λ acc q, p acc (fst q) (snd q)) l acc.
Proof.
  assert (calls_only (λ B p acc, flow_block analysis p forward body cached bb d acc)) as [r Hr].
  { unfold flow_block. destruct (index body (Z.to_nat bb)) as [data|]; [|by exists Panic]. cbn [obind].
    destruct forward.
    - destruct (forward_apply_effects_in_block analysis d bb data cached) as [[s e]|]; [|by exists Panic]. apply forward_calls.
    - destruct (backward_apply_effects_in_block analysis d bb data cached) as [[s e]|]; [|by exists Panic]. apply backward_calls. }
  unfold flows. rewrite !Hr. destruct r as [l|]; [|done]. cbn [obind]. by rewrite fold_collect.
Qed.

End Flows.

(** * The loop *)

Section Engine.
Context {Stmt Place Operand D : Type}.
Context (analysis : Analysis (Stmt := Stmt) (Place := Place) (Operand := Operand) (D := D)).
Context `{JL : JoinLaws D}.
Context (forward : bool) (body : list (BasicBlockData Stmt Place Operand)).
Context (cached : option (Z → D → outcome D)).

(** The number of blocks *)
Definition nblocks : Z := Z.of_nat (length body).

(** The effects of the analysis are defined on well-formed states and lead to
    blocks of the body. *)
Definition flows_ok : Prop := ∀ bb d, 0 ≤ bb < nblocks → lat_wf d →
  ∃ l, flows analysis forward body cached bb d = Ret l ∧ Forall (λ q, 0 ≤ fst q < nblocks ∧ lat_wf (snd q)) l.

Hypothesis Hflows : flows_ok.

Definition wf_entries (es : list D) : Prop := length es = length body ∧ Forall lat_wf es.

Definition total_height (es : list D) : nat := sum_list_with lat_height es.

(** The rounds that are left at most: one for each block in the queue, and one
    for each time an entry set can still change *)
Definition potential (es : list D) (q : WorkQueue.t) : nat := (length (WorkQueue.deque q) + total_height es)%nat.

(** [es'], [q'] come from [es], [q] by joins: entry sets grow, the blocks whose
    entry sets change are in the queue, and the potential does not grow. *)
Record advance (es : list D) (q : WorkQueue.t) (es' : list D) (q' : WorkQueue.t) : Prop := {
  adv_wf : wf_entries es';
  adv_queue : wf_queue nblocks q';
  adv_le i d d' : es !! i = Some d → es' !! i = Some d' → lat_le d d';
  adv_keep x : x ∈ WorkQueue.deque q → x ∈ WorkQueue.deque q';
  adv_same x : 0 ≤ x → x ∈ WorkQueue.deque q' ∨ es' !! Z.to_nat x = es !! Z.to_nat x;
  adv_potential : (potential es' q' ≤ potential es q)%nat;
}.

Lemma advance_refl es q : wf_entries es → wf_queue nblocks q → advance es q es q.
Proof.
  intros He Hq. split; try done; [|by right]. intros i d d' E E'. rewrite E in E'. injection E' as ->. apply lat_refl.
Qed.

Lemma advance_trans es q es1 q1 es2 q2 : length es = length body →
  advance es q es1 q1 → advance es1 q1 es2 q2 → advance es q es2 q2.
Proof.
  intros Hl [[Hl1 H1] ? Hle Hk Hs Hp] [Hw ? Hle' Hk' Hs' Hp']. split; [done|done| |auto| |lia].
  - intros i d d2 E E2. destruct (lookup_lt_is_Some_2 es1 i) as [d1 E1].
    { apply lookup_lt_Some in E. lia. }
    eapply lat_trans; eauto.
  - intros x Hx. destruct (Hs' x Hx) as [?|E2]; [by left|]. destruct (Hs x Hx) as [?|E1]; [left; auto|right; congruence].
Qed.

Lemma total_height_insert es i old new : es !! i = Some old →
  (total_height (<[i := new]> es) + lat_height old = total_height es + lat_height new)%nat.
Proof.
  intros Hi. unfold total_height. rewrite <- (take_drop_middle es i old Hi) at 2.
  rewrite insert_take_drop by (by eapply lookup_lt_Some). rewrite !sum_list_with_app. cbn. lia.
Qed.

(** One call of [propagate] *)
Lemma propagate_spec es q t d :
  wf_entries es → wf_queue nblocks q → 0 ≤ t < nblocks → lat_wf d →
  ∃ es' q', propagate_into (es, q) t d = Ret (es', q') ∧ advance es q es' q' ∧
    (∀ e, es' !! Z.to_nat t = Some e → lat_le d e) ∧
    ∀ U, length U = length es → Forall lat_wf U → (∀ i x u, es !! i = Some x → U !! i = Some u → lat_le x u) →
      (∀ u, U !! Z.to_nat t = Some u → lat_le d u) →
      ∀ i x u, es' !! i = Some x → U !! i = Some u → lat_le x u.
Proof.
  intros [Hl Hes] Hq Ht Hd. unfold propagate_into. assert (Z.to_nat t < length es)%nat as Hlt by (unfold nblocks in Ht; lia).
  destruct (lookup_lt_is_Some_2 es (Z.to_nat t)) as [old Hold]; [lia|]. unfold index. rewrite Hold. cbn [unwrap obind].
  assert (lat_wf old) as Hwo by (by apply (Forall_lookup_1 _ _ _ _ Hes Hold)).
  destruct (lat_join old d Hwo Hd) as (new & c & -> & Hwn & Hle & Hge & Hlub & Hf & Hh). cbn [obind].
  unfold index_set. rewrite (proj2 (Nat.ltb_lt _ _)) by lia. cbn [rassert obind].
  set (es' := <[Z.to_nat t := new]> es).
  assert (wf_entries es') as Hw'.
  { split; [unfold es'; by rewrite length_insert|]. by apply Forall_insert. }
  assert (∀ i x x', es !! i = Some x → es' !! i = Some x' → lat_le x x') as Hle'.
  { intros i x x' E E'. unfold es' in E'. destruct (decide (i = Z.to_nat t)) as [->|].
    - rewrite list_lookup_insert_eq in E' by lia. congruence.
    - rewrite list_lookup_insert_ne in E' by done. rewrite E in E'. injection E' as ->. apply lat_refl. }
  assert (∀ e, es' !! Z.to_nat t = Some e → lat_le d e) as Hd'.
  { intros e E. unfold es' in E. rewrite list_lookup_insert_eq in E by lia. congruence. }
  assert (∀ U, length U = length es → Forall lat_wf U → (∀ i x u, es !! i = Some x → U !! i = Some u → lat_le x u) →
      (∀ u, U !! Z.to_nat t = Some u → lat_le d u) →
      ∀ i x u, es' !! i = Some x → U !! i = Some u → lat_le x u) as HU.
  { intros U HlU HwU HeU HdU i x u E Eu. unfold es' in E. destruct (decide (i = Z.to_nat t)) as [->|].
    - rewrite list_lookup_insert_eq in E by lia. injection E as <-.
      apply Hlub; [by apply (Forall_lookup_1 _ _ _ _ HwU Eu)|by eapply HeU|by apply HdU].
    - rewrite list_lookup_insert_ne in E by done. by eapply HeU. }
  pose proof (total_height_insert es (Z.to_nat t) old new Hold) as Hsum. fold es' in Hsum.
  destruct c.
  - destruct (queue_insert nblocks q t Hq Ht) as (q' & -> & Hq' & Hdq). cbn [obind]. exists es', q'. split; [done|].
    split; [|done]. assert (∀ x, x ∈ WorkQueue.deque q → x ∈ WorkQueue.deque q') as Hkeep.
    { intros x Hx. rewrite Hdq. case_decide; [done|]. apply elem_of_app. by left. }
    split; try done.
    + intros x Hx. destruct (decide (x = t)) as [->|].
      * left. rewrite Hdq. case_decide; [done|]. apply elem_of_app. right. by apply list_elem_of_singleton.
      * right. unfold es'. rewrite list_lookup_insert_ne; [done|lia].
    + unfold potential. rewrite Hdq. specialize (Hh eq_refl). case_decide; rewrite ?length_app; cbn; lia.
  - exists es', q. split; [done|]. 
    assert (es' = es) as E by (unfold es'; rewrite Hf by done; by apply list_insert_id).
    split; [|done]. rewrite E in *. by apply advance_refl.
Qed.

(** The entry sets contain propagated states. *)
Definition covered (es : list D) (l : list (Z * D)) : Prop :=
  ∀ t d e, (t, d) ∈ l → es !! Z.to_nat t = Some e → lat_le d e.

Definition below (es U : list D) : Prop := ∀ i x u, es !! i = Some x → U !! i = Some u → lat_le x u.

Lemma covered_advance es q es' q' l : length es = length body →
  advance es q es' q' → covered es l → covered es' l.
Proof.
  intros Hl [[Hl' _] _ Hle _ _ _] Hc t d e Hin E. destruct (lookup_lt_is_Some_2 es (Z.to_nat t)) as [e0 E0].
  { apply lookup_lt_Some in E. lia. }
  eapply lat_trans; [by eapply Hc|by eapply Hle].
Qed.

Lemma propagate_all l : ∀ es q, wf_entries es → wf_queue nblocks q →
  Forall (λ p, 0 ≤ fst p < nblocks ∧ lat_wf (snd p)) l →
  ∃ es' q', fold_outcome (λ acc p, propagate_into acc (fst p) (snd p)) l (es, q) = Ret (es', q') ∧
    advance es q es' q' ∧ covered es' l ∧
    ∀ U, wf_entries U → below es U → covered U l → below es' U.
Proof.
  induction l as [|[t d] l IH]; intros es q He Hq Hl.
  { exists es, q. split; [done|]. split; [by apply advance_refl|]. split; [|done]. intros t d e Hin. by apply elem_of_nil in Hin. }
  pose proof (Forall_inv Hl) as [Ht Hd]. apply Forall_inv_tail in Hl. cbn [fst snd] in Ht, Hd. cbn [fold_outcome fst snd].
  destruct (propagate_spec es q t d He Hq Ht Hd) as (es1 & q1 & -> & Ha1 & Hc1 & HU1). cbn [obind].
  destruct (IH es1 q1 (adv_wf _ _ _ _ Ha1) (adv_queue _ _ _ _ Ha1) Hl) as (es2 & q2 & -> & Ha2 & Hc2 & HU2).
  exists es2, q2. split; [done|]. split; [by eapply advance_trans; [apply He|..]|]. split.
  - intros t' d' e [[= -> ->]|Hin]%elem_of_cons Hlk; [|by eapply Hc2].
    apply (covered_advance es1 q1 es2 q2 [(t, d)]) with t; [apply (adv_wf _ _ _ _ Ha1)|done| |left|done].
    by intros ? ? ? [= -> ->]%list_elem_of_singleton; auto.
  - intros U HU Hb Hc. apply HU2; [done| |intros t' d' e' Hin; apply (Hc t' d' e'); by right].
    refine (HU1 U _ _ Hb _); [destruct HU, He; congruence|by destruct HU|]. intros u. apply (Hc t d u). left.
Qed.

(** Nothing that a block propagates is missing from the entry sets. *)
Definition settled (es : list D) (bb : Z) : Prop :=
  ∀ d l, es !! Z.to_nat bb = Some d → flows analysis forward body cached bb d = Ret l → covered es l.

(** A solution of the flow equations *)
Definition solution (U : list D) : Prop :=
  wf_entries U ∧ ∀ bb u d l, 0 ≤ bb < nblocks → U !! Z.to_nat bb = Some u → lat_wf d → lat_le d u →
    flows analysis forward body cached bb d = Ret l → covered U l.

(** The transfer functions are monotone: of a larger state a block propagates
    larger states, to the same blocks. *)
Definition monotone_flows : Prop := ∀ bb a b la lb, 0 ≤ bb < nblocks → lat_wf a → lat_wf b → lat_le a b →
  flows analysis forward body cached bb a = Ret la → flows analysis forward body cached bb b = Ret lb →
  ∀ t x, (t, x) ∈ la → ∃ y, (t, y) ∈ lb ∧ lat_le x y.

Lemma settled_solution U : monotone_flows → wf_entries U → (∀ bb, 0 ≤ bb < nblocks → settled U bb) → solution U.
Proof.
  intros Hm HU Hs. split; [done|]. intros bb u d l Hbb Hu Hd Hle Hl t x e Hin He.
  assert (lat_wf u) as Hwu by (destruct HU as [_ HU]; by apply (Forall_lookup_1 _ _ _ _ HU Hu)).
  destruct (Hflows bb u Hbb Hwu) as (lu & Hlu & _).
  destruct (Hm bb d u l lu Hbb Hd Hwu Hle Hl Hlu t x Hin) as (y & Hy & Hxy).
  eapply lat_trans; [exact Hxy|]. by eapply (Hs bb Hbb u lu).
Qed.

Lemma fixpoint_loop_spec order fuel : Forall (λ x, 0 ≤ x) order → ∀ es q, wf_entries es → wf_queue nblocks q →
  (∀ x, x ∈ order → x ∈ WorkQueue.deque q ∨ settled es x) → (potential es q < fuel)%nat →
  ∃ es', fixpoint_loop analysis fuel forward body cached es q = Ret es' ∧ wf_entries es' ∧ below es es' ∧
    (∀ x, x ∈ order → settled es' x) ∧ ∀ U, solution U → below es U → below es' U.
Proof.
  intros Hord. rewrite list.Forall_forall in Hord. induction fuel as [|fuel IH]; intros es q He Hq Hinv Hf; [lia|].
  cbn [fixpoint_loop]. pose proof (queue_pop nblocks q Hq) as Hpop. destruct (WorkQueue.deque q) as [|bb rest] eqn:Edq.
  { rewrite Hpop. cbn [obind]. exists es. split_and!; try done.
    - intros i x u E E'. rewrite E in E'. injection E' as ->. apply lat_refl.
    - intros x Hx. destruct (Hinv x Hx) as [Hn|]; [by apply elem_of_nil in Hn|done]. }
  destruct Hpop as (q0 & -> & Hq0 & Edq0 & Hbb & _). cbn [obind]. pose proof He as [Hl Hwf].
  destruct (lookup_lt_is_Some_2 es (Z.to_nat bb)) as [d Hd]; [unfold nblocks in Hbb; lia|].
  unfold index. rewrite Hd. cbn [unwrap obind]. rewrite flow_block_flows.
  assert (lat_wf d) as Hwd by (by apply (Forall_lookup_1 _ _ _ _ Hwf Hd)).
  destruct (Hflows bb d Hbb Hwd) as (l & Hlf & Hlok). rewrite Hlf. cbn [obind].
  destruct (propagate_all l es q0 He Hq0 Hlok) as (es1 & q1 & -> & Ha & Hc & HU). cbn [obind].
  destruct (IH es1 q1) as (es2 & -> & Hw2 & Hb2 & Hs2 & HU2).
  - by apply Ha.
  - by apply Ha.
  - intros x Hx. destruct (adv_same _ _ _ _ Ha x (Hord x Hx)) as [|Esame]; [by left|].
    destruct (decide (x = bb)) as [->|Hne].
    + right. intros d' l' E' Hl'. rewrite Esame, Hd in E'. injection E' as <-. rewrite Hlf in Hl'. injection Hl' as <-. done.
    + destruct (Hinv x Hx) as [[?|Hin]%elem_of_cons|Hset]; [done|left; apply (adv_keep _ _ _ _ Ha); by rewrite Edq0|].
      right. intros d' l' E' Hl'. rewrite Esame in E'. eapply covered_advance; [done|exact Ha|]. by eapply Hset.
  - pose proof (adv_potential _ _ _ _ Ha). unfold potential in *. rewrite Edq0, Edq in *. cbn in *. lia.
  - exists es2. split_and!; try done.
    + intros i x u E E2. destruct (lookup_lt_is_Some_2 es1 i) as [y Ey].
      { apply lookup_lt_Some in E. destruct (adv_wf _ _ _ _ Ha) as [Hl1 _]. lia. }
      eapply lat_trans; [by eapply (adv_le _ _ _ _ Ha)|by eapply Hb2].
    + intros U HsU Hb. apply HU2; [done|]. destruct HsU as [HwU HfU]. apply HU; [done|done|].
      destruct (lookup_lt_is_Some_2 U (Z.to_nat bb)) as [u Hu]; [destruct HwU; unfold nblocks in Hbb; lia|].
      by apply (HfU bb u d l Hbb Hu Hwd); [eapply Hb|].
Qed.

(** The queue that the traversal fills *)
Lemma fill_queue order : ∀ q, wf_queue nblocks q → Forall (λ x, 0 ≤ x < nblocks) order →
  ∃ q', fold_outcome (λ q bb, fst_of (WorkQueue.insert q bb)) order q = Ret q' ∧ wf_queue nblocks q' ∧
    (∀ x, x ∈ WorkQueue.deque q' ↔ x ∈ WorkQueue.deque q ∨ x ∈ order) ∧
    (length (WorkQueue.deque q') ≤ length (WorkQueue.deque q) + length order)%nat.
Proof.
  induction order as [|x order IH]; intros q Hq Hok.
  { exists q. split_and!; [done..| |lia]. intros x. rewrite elem_of_nil. tauto. }
  apply Forall_inv in Hok as Hx. apply Forall_inv_tail in Hok. cbn [fold_outcome].
  destruct (queue_insert nblocks q x Hq Hx) as (q1 & -> & Hq1 & Hd1). cbn [fst_of obind].
  destruct (IH q1 Hq1 Hok) as (q2 & -> & Hq2 & He2 & Hl2). exists q2. split_and!; [done..| |].
  - intros y. rewrite He2, Hd1, elem_of_cons. case_decide.
    + split; [tauto|]. intros [?|[-> |?]]; tauto.
    + rewrite elem_of_app, list_elem_of_singleton. tauto.
  - rewrite Hd1 in Hl2. case_decide; rewrite ?length_app in Hl2; cbn in *; lia.
Qed.

(** An order without repetition is the queue. *)
Lemma fill_queue_order order : dense_domain nblocks → NoDup order → Forall (λ x, 0 ≤ x < nblocks) order →
  ∃ q, fold_outcome (λ q bb, fst_of (WorkQueue.insert q bb)) order (WorkQueue.with_none nblocks) = Ret q ∧
    wf_queue nblocks q ∧ WorkQueue.deque q = order.
Proof.
  intros Hd Hnd Hok. assert (∀ q, wf_queue nblocks q → NoDup (WorkQueue.deque q ++ order) →
    ∃ q', fold_outcome (λ q bb, fst_of (WorkQueue.insert q bb)) order q = Ret q' ∧ wf_queue nblocks q' ∧
      WorkQueue.deque q' = WorkQueue.deque q ++ order) as H'.
  { clear Hnd. induction order as [|x order IH]; intros q Hq Hn; [exists q; by rewrite app_nil_r|].
    pose proof (Forall_inv Hok) as Hx. apply Forall_inv_tail in Hok. cbn [fold_outcome].
    destruct (queue_insert nblocks q x Hq Hx) as (q1 & -> & Hq1 & Hd1). cbn [fst_of obind].
    rewrite decide_False in Hd1.
    2: { apply list.NoDup_app in Hn as (_ & Hn & _). intros Hin. apply (Hn x Hin). left. }
    rewrite (cons_middle x), app_assoc, <- Hd1 in Hn. destruct (IH Hok q1 Hq1 Hn) as (q' & -> & Hq' & Hd').
    exists q'. rewrite Hd', Hd1, <- app_assoc. done. }
  apply (H' (WorkQueue.with_none nblocks)); [by apply queue_with_none|done].
Qed.

Lemma iterate_spec es fuel : wf_blocks body → wf_entries es → (length body + total_height es < fuel)%nat →
  ∃ es', iterate_to_fixpoint analysis fuel forward body cached es = Ret es' ∧ wf_entries es' ∧ below es es' ∧
    (∀ x, rtc (edge body) START_BLOCK x → settled es' x) ∧ ∀ U, solution U → below es U → below es' U.
Proof.
  intros Hb He Hf. unfold iterate_to_fixpoint.
  destruct (order_spec forward body Hb) as (order & -> & _ & Hre & Hord & Hle). cbn [obind].
  destruct (fill_queue order (WorkQueue.with_none nblocks)) as (q & Hq & Hwq & Helem & Hlen); [apply queue_with_none, Hb|done|].
  unfold nblocks in Hq at 1. rewrite Hq. cbn [obind]. setoid_rewrite <- Hre.
  apply (fixpoint_loop_spec order); [|done|done| |].
  - eapply List.Forall_impl; [|exact Hord]. cbn. lia.
  - intros x Hx. left. apply Helem. by right.
  - unfold potential. cbn in Hlen. lia.
Qed.

End Engine.

