(* ===== verification/AnalysisProps.v ===== *)
(** * The engine on a body

    What the engine needs follows from the effects of the analysis and from the
    graph of the body: the states that a block propagates go to its successors, or
    to its predecessors, and they keep a relation that all effects keep.  With
    that, the engine finds the least fixpoint from monotone effects, and on a body
    without cycles every block runs exactly once. *)

From stdpp Require Import gmap relations sorting.
From S2P Require Import Prelude.
From S2P Require Import Slice.
From S2P Require Import IndexSet.
From S2P Require Import BitSets.
From S2P Require Import BitSetProps.
From S2P Require Import HybridProps.
From S2P Require Import GraphSearch.
From S2P Require Import Graph.
From S2P Require Import GraphProps.
From S2P Require Import Mir.
From S2P Require Import TraversalProps.
From S2P Require Import Dataflow.
From S2P Require Import GenKillProps.
From S2P Require Import DataflowProps.

(** * Related runs *)

Section Related.
Context {Stmt Place Operand D : Type}.
Context (analysis : Analysis (Stmt := Stmt) (Place := Place) (Operand := Operand) (D := D)).
Context (forward : bool) (body : list (BasicBlockData Stmt Place Operand)) (cached : option (Z → D → outcome D)).
Context (rel : D → D → Prop).

(** An effect is defined on related states and relates its results. *)
Definition keeps (f : D → outcome D) : Prop := ∀ d d', rel d d' → ∃ e e', f d = Ret e ∧ f d' = Ret e' ∧ rel e e'.

(** Where a terminator of [bb] may lead *)
Definition edges_ok (bb : Z) (e : TerminatorEdges Place Operand) : Prop :=
  Forall (edge body bb) (edge_targets e) ∧ match e with SwitchInt t _ => all_targets t ≠ [] | _ => True end.

Record effects_keep : Prop := {
  keep_before_statement s loc : keeps (λ d, apply_before_statement_effect analysis d s loc);
  keep_statement s loc : keeps (λ d, apply_statement_effect analysis d s loc);
  keep_before_terminator t loc : keeps (λ d, apply_before_terminator_effect analysis d t loc);
  keep_terminator bb data t loc d d' :
    body !! Z.to_nat bb = Some data → terminator data = Some t → rel d d' →
    ∃ e e' edges, apply_terminator_effect analysis d t loc = Ret (e, edges) ∧
      apply_terminator_effect analysis d' t loc = Ret (e', edges) ∧ rel e e' ∧ edges_ok bb edges;
  keep_return bb place : keeps (λ d, apply_call_return_effect analysis d bb place);
  keep_switch bb discr f t : apply_switch_int_edge_effects analysis bb discr = Some f → keeps (λ d, f d t);
  keep_cached bb f : is_node body bb → cached = Some f → keeps (f bb);
}.

(** Two computations that call [propagate] on the same blocks of [T], with related
    states *)
Definition sends (T : Z → Prop) (f g : ∀ B, (B → Z → D → outcome B) → B → outcome B) : Prop :=
  ∃ l l', (∀ B p acc, f B p acc = fold_outcome (λ acc q, p acc (fst q) (snd q)) l acc) ∧
    (∀ B p acc, g B p acc = fold_outcome (λ acc q, p acc (fst q) (snd q)) l' acc) ∧
    Forall2 (λ p q, p.1 = q.1 ∧ T p.1 ∧ rel p.2 q.2) l l'.

Lemma sends_nothing T : sends T (λ B p acc, Ret acc) (λ B p acc, Ret acc).
Proof. exists [], []. split_and!; done. Qed.

Lemma sends_one (T : Z → Prop) t d d' : T t → rel d d' → sends T (λ B p acc, p acc t d) (λ B p acc, p acc t d').
Proof.
  intros Ht Hd. exists [(t, d)], [(t, d')]. split_and!; [intros B p acc; cbn; by destruct (p acc t _)..|].
  constructor; [done|constructor].
Qed.

Lemma sends_seq T f g f' g' : sends T f f' → sends T g g' →
  sends T (λ B p acc, let! acc := f B p acc in g B p acc) (λ B p acc, let! acc := f' B p acc in g' B p acc).
Proof.
  intros (l1 & l1' & H1 & H1' & HF1) (l2 & l2' & H2 & H2' & HF2). exists (l1 ++ l2), (l1' ++ l2'). split_and!.
  - intros B p acc. rewrite fold_outcome_app, H1. destruct (fold_outcome _ l1 acc); [apply H2|done].
  - intros B p acc. rewrite fold_outcome_app, H1'. destruct (fold_outcome _ l1' acc); [apply H2'|done].
  - by apply Forall2_app.
Qed.

Lemma sends_fold {A} T (f g : A → ∀ B, (B → Z → D → outcome B) → B → outcome B) l : (∀ x, x ∈ l → sends T (f x) (g x)) →
  sends T (λ B p acc, fold_outcome (λ acc x, f x B p acc) l acc) (λ B p acc, fold_outcome (λ acc x, g x B p acc) l acc).
Proof.
  induction l as [|x l IH]; intros Hl; [apply sends_nothing|]. cbn [fold_outcome].
  apply sends_seq; [apply Hl; left|]. apply IH. intros y Hy. apply Hl. by right.
Qed.

Lemma sends_effect (T : Z → Prop) (e : D → outcome D) t d d' : keeps e → T t → rel d d' →
  sends T (λ B p acc, let! s := e d in p acc t s) (λ B p acc, let! s := e d' in p acc t s).
Proof. intros He Ht Hd. destruct (He d d' Hd) as (a & a' & -> & -> & Ha). by apply sends_one. Qed.

Hypothesis Hkeep : effects_keep.

Lemma keeps_fold {A} (f : D → A → outcome D) (l : list A) :
  (∀ x, keeps (λ d, f d x)) → keeps (fold_outcome f l).
Proof.
  intros Hf. induction l as [|x l IH]; intros d d' Hd; [by exists d, d'|]. cbn [fold_outcome].
  destruct (Hf x d d' Hd) as (e & e' & -> & -> & He). by apply IH.
Qed.

Lemma keeps_statements bb stmts : is_node body bb → keeps (statement_effects analysis bb stmts cached).
Proof.
  intros Hbb. unfold statement_effects. destruct cached as [f|] eqn:E; [by eapply keep_cached|]. apply keeps_fold.
  intros [i s] d d' Hd. unfold apply_statement. cbn.
  destruct (keep_before_statement Hkeep s {| loc_block := bb; statement_index := i |} d d' Hd) as (e & e' & -> & -> & He).
  by apply (keep_statement Hkeep).
Qed.

Lemma terminator_related bb data term d d' :
  body !! Z.to_nat bb = Some data → terminator data = Some term → rel d d' →
  ∃ e e' edges, terminator_effects analysis bb data d = Ret (e, edges) ∧
    terminator_effects analysis bb data d' = Ret (e', edges) ∧ rel e e' ∧ edges_ok bb edges.
Proof.
  intros Ed Et Hd. unfold terminator_effects, block_terminator. rewrite Et. cbn [unwrap obind].
  destruct (keep_before_terminator Hkeep term {| loc_block := bb; statement_index := length (statements data) |} d d' Hd)
    as (e & e' & -> & -> & He). by apply (keep_terminator Hkeep bb data).
Qed.
(** Forward, the targets of the edges *)
Lemma forward_sends bb edges s s' : rel s s' → edges_ok bb edges →
  sends (edge body bb) (λ B p acc, forward_join_state analysis p s bb edges acc) (λ B p acc, forward_join_state analysis p s' bb edges acc).
Proof.
  intros Hs [He Hne]. rewrite list.Forall_forall in He. unfold forward_join_state.
  destruct edges as [|t|t u|ret unwind place|ts discr]; cbn in He.
  - apply sends_nothing.
  - apply sends_one; [apply He; left|done].
  - apply sends_seq; (apply sends_one; [apply He|done]); [left|right; left].
  - apply (sends_seq _ (λ B p acc, match unwind with Cleanup u => p acc u s | _ => Ret acc end)
      _ (λ B p acc, match unwind with Cleanup u => p acc u s' | _ => Ret acc end)).
    + destruct unwind; try apply sends_nothing. apply sends_one; [apply He, elem_of_app; right; left|done].
    + destruct ret as [r|]; [|apply sends_nothing].
      apply (sends_effect _ (λ d, apply_call_return_effect analysis d bb place)); [apply (keep_return Hkeep)|apply He; left|done].
  - destruct (apply_switch_int_edge_effects analysis bb discr) as [f|] eqn:Ef.
    + unfold forward_switch_apply. destruct (otherwise ts) as [other|] eqn:Eo.
      2: { unfold otherwise in Eo. destruct (list.last (all_targets ts)) eqn:El; [done|]. by apply last_None in El. }
      unfold otherwise in Eo. destruct (list.last (all_targets ts)) as [o|] eqn:El; [|done]. cbn in Eo. injection Eo as ->.
      apply (sends_seq _ (λ B p acc, fold_outcome (λ acc vt, let! tmp := f s _ in p acc (snd vt) tmp) _ acc)
        _ (λ B p acc, fold_outcome (λ acc vt, let! tmp := f s' _ in p acc (snd vt) tmp) _ acc)).
      * apply (sends_fold _ (λ vt B p acc, let! tmp := f s _ in p acc (snd vt) tmp) (λ vt B p acc, let! tmp := f s' _ in p acc (snd vt) tmp)).
        intros [v t] Hin. apply (sends_effect _ (λ d, f d _)); [by eapply keep_switch| |done]. apply He. by eapply elem_of_zip_r.
      * cbn [obind]. apply (sends_effect _ (λ d, f d _)); [by eapply keep_switch| |done]. apply He. by apply last_Some_elem_of.
    + apply (sends_fold _ (λ t B p acc, p acc t s) (λ t B p acc, p acc t s')). intros t Ht. apply sends_one; [by apply He|done].
Qed.

(** A switch has sources in the cache for each of its targets. *)
Lemma sources_found data discr t pred bb : wf_switches body → is_node body pred →
  body !! Z.to_nat pred = Some data → terminator data = Some (TerminatorKind.SwitchInt discr t) → bb ∈ all_targets t →
  ∃ m values, switch_sources body = Ret m ∧ m !! (bb, pred) = Some values.
Proof.
  intros Hw Hp Ed Et Hin. destruct (switch_sources_spec body Hw) as (m & -> & _ & Hr). exists m.
  specialize (Hr bb (Z.to_nat pred)). unfold is_node in Hp. rewrite Z2Nat.id, Ed in Hr by lia. unfold recorded, block_sources in Hr. rewrite Et in Hr.
  destruct (m !! (bb, pred)) as [values|] eqn:Em; [by exists values|]. cbn in Hr.
  apply sources_target in Hin; [|by eapply Hw]. congruence.
Qed.

(** Backward, the predecessors *)
Lemma backward_sends bb s s' : wf_graph body → wf_switches body → is_node body bb → rel s s' →
  sends (λ t, is_node body t ∧ edge body t bb) (λ B p acc, backward_join_state analysis p body s bb acc)
    (λ B p acc, backward_join_state analysis p body s' bb acc).
Proof.
  intros Hg Hw Hbb Hs. unfold backward_join_state. destruct (predecessors_spec body Hg) as (preds & -> & _ & Hpreds). cbn [obind].
  destruct (Hpreds bb Hbb) as [Hget Hin]. unfold index at 1 2. rewrite Hget. cbn [unwrap obind].
  apply (sends_fold _ (λ pred B p acc, backward_join_pred analysis p body s bb acc pred)
    (λ pred B p acc, backward_join_pred analysis p body s' bb acc pred)). intros pred [Hp Hedge]%Hin.
  destruct (block_of body pred Hg Hp) as (data & term & Ed & Et & Es & _). unfold backward_join_pred, index, block_terminator.
  rewrite Ed. cbn [unwrap obind]. rewrite Et. cbn [unwrap obind].
  assert (∀ block place, sends (λ t, is_node body t ∧ edge body t bb)
    (λ B p acc, let! tmp := apply_call_return_effect analysis s block place in p acc pred tmp)
    (λ B p acc, let! tmp := apply_call_return_effect analysis s' block place in p acc pred tmp)) as Hret.
  { intros block place. apply (sends_effect _ (λ d, apply_call_return_effect analysis d block place)); [apply (keep_return Hkeep)|done|done]. }
  assert (sends (λ t, is_node body t ∧ edge body t bb) (λ B p acc, p acc pred s) (λ B p acc, p acc pred s')) as Hone by by apply sends_one.
  destruct term as [|discr targets| | | | | |? ? place [dest|] ?| | | | | |? [dest|] ?]; try apply Hone;
    try (case_match; [apply Hret|apply Hone]).
  destruct (apply_switch_int_edge_effects analysis pred discr) as [f|] eqn:Ef; [|apply Hone]. unfold backward_switch_apply.
  destruct (sources_found data discr targets pred bb Hw Hp Ed Et) as (m & values & -> & Hm).
  { destruct Hedge as (succs & Hsu & Hb). rewrite Es in Hsu. by injection Hsu as <-. }
  cbn [obind]. rewrite Hm. cbn [unwrap obind].
  apply (sends_fold _ (λ v B p acc, let! tmp := f s _ in p acc pred tmp) (λ v B p acc, let! tmp := f s' _ in p acc pred tmp)).
  intros v _. apply (sends_effect _ (λ d, f d _)); [by eapply keep_switch|done|done].
Qed.

(** Where a block sends its states *)
Definition leads (bb t : Z) : Prop := if forward then edge body bb t else is_node body t ∧ edge body t bb.

Lemma flows_related bb d d' : wf_graph body → wf_switches body → is_node body bb → rel d d' →
  ∃ l l', flows analysis forward body cached bb d = Ret l ∧ flows analysis forward body cached bb d' = Ret l' ∧
    Forall2 (λ p q, p.1 = q.1 ∧ leads bb p.1 ∧ rel p.2 q.2) l l'.
Proof.
  intros Hg Hw Hbb Hd. destruct (block_of body bb Hg Hbb) as (data & term & Ed & Et & _).
  assert (sends (leads bb) (λ B p acc, flow_block analysis p forward body cached bb d acc)
    (λ B p acc, flow_block analysis p forward body cached bb d' acc)) as (l & l' & Hl & Hl' & HF).
  { unfold flow_block, leads, index. rewrite Ed. cbn [unwrap obind]. destruct forward.
    - unfold forward_apply_effects_in_block.
      destruct (keeps_statements bb (enumerate (statements data)) Hbb d d' Hd) as (e & e' & -> & -> & He). cbn [obind].
      destruct (terminator_related bb data term e e' Ed Et He) as (a & a' & edges & -> & -> & Ha & Hok). by apply forward_sends.
    - unfold backward_apply_effects_in_block.
      destruct (terminator_related bb data term d d' Ed Et Hd) as (a & a' & edges & -> & -> & Ha & Hok). cbn [obind].
      destruct (keeps_statements bb (reverse (enumerate (statements data))) Hbb a a' Ha) as (e & e' & -> & -> & He). by apply backward_sends. }
  exists l, l'. unfold flows. rewrite Hl, Hl', !fold_collect. done.
Qed.
End Related.

(** * Solving *)

Section Solve.
Context {Stmt Place Operand D : Type} `{JL : JoinLaws D}.
Context (analysis : Analysis (Stmt := Stmt) (Place := Place) (Operand := Operand) (D := D)).
Context (forward : bool) (body : list (BasicBlockData Stmt Place Operand)) (cached : option (Z → D → outcome D)).

(** The effects are defined on well-formed states, and keep them well-formed. *)
Definition effects_defined : Prop := effects_keep analysis body cached (λ a b, a = b ∧ lat_wf a).

(** The effects are monotone. *)
Definition effects_monotone : Prop := effects_keep analysis body cached (λ a b, lat_wf a ∧ lat_wf b ∧ lat_le a b).

Hypothesis Hgraph : wf_blocks body.
Hypothesis Hswitch : wf_switches body.

Lemma leads_node bb t : is_node body bb → leads forward body bb t → is_node body t.
Proof. unfold leads. intros Hbb Ht. destruct forward; [by eapply edge_node; [apply Hgraph|..]|tauto]. Qed.

Lemma flows_lead bb d : effects_defined → is_node body bb → lat_wf d →
  ∃ l, flows analysis forward body cached bb d = Ret l ∧ Forall (λ q, leads forward body bb (fst q) ∧ lat_wf (snd q)) l.
Proof.
  intros He Hbb Hd. destruct (flows_related analysis forward body cached _ He bb d d (proj1 Hgraph) Hswitch Hbb (conj eq_refl Hd))
    as (l & l' & Hl & Hl' & HF). exists l. split; [done|]. rewrite Hl in Hl'. injection Hl' as <-.
  apply list.Forall_forall. intros q Hq. apply list_elem_of_lookup in Hq as [i Hi].
  destruct (Forall2_lookup_lr _ _ _ _ _ _ HF Hi Hi) as (_ & Ht & E & Hw). done.
Qed.

Lemma defined_flows : effects_defined → flows_ok analysis forward body cached.
Proof.
  intros He bb d Hbb Hd. destruct (flows_lead bb d He Hbb Hd) as (l & Hl & HF). exists l. split; [done|].
  eapply List.Forall_impl; [|exact HF]. intros [t x] [Ht Hx]. split; [|done]. by eapply leads_node.
Qed.

Lemma monotone_effects : effects_monotone → monotone_flows analysis forward body cached.
Proof.
  intros He bb a b la lb Hbb Ha Hb Hle Hla Hlb t x Hin.
  destruct (flows_related analysis forward body cached _ He bb a b (proj1 Hgraph) Hswitch Hbb (conj Ha (conj Hb Hle)))
    as (l & l' & Hl & Hl' & HF). rewrite Hla in Hl. rewrite Hlb in Hl'. injection Hl as <-. injection Hl' as <-.
  apply list_elem_of_lookup in Hin as [i Hi]. destruct (Forall2_lookup_l _ _ _ _ _ HF Hi) as ([t' y] & Hy & Et & _ & _ & _ & Hxy).
  cbn in Et, Hxy. subst t'. exists y. split; [by eapply list_elem_of_lookup_2|done].
Qed.

(** ** One round for each block *)

Lemma fixpoint_loop_more n m es q r : fixpoint_loop analysis n forward body cached es q = Ret r → (n ≤ m)%nat →
  fixpoint_loop analysis m forward body cached es q = Ret r.
Proof.
  revert m es q. induction n as [|n IH]; intros m es q Hr Hle; [done|]. destruct m as [|m]; [lia|]. cbn [fixpoint_loop] in *.
  destruct (WorkQueue.pop q) as [[q1 [bb|]]|]; cbn [obind] in *; [|done|done].
  destruct (index es (Z.to_nat bb)) as [d|]; [|done]. cbn [obind] in *.
  destruct (flow_block _ _ _ _ _ _ _ _) as [[es1 q2]|]; [|done]. cbn [obind] in *. apply IH; [done|lia].
Qed.

(** States for blocks that wait in the queue do not change the queue. *)
Lemma propagate_waiting (l : list (Z * D)) : ∀ es q es' q', wf_queue (nblocks body) q →
  Forall (λ p, fst p ∈ WorkQueue.deque q ∧ 0 ≤ fst p < nblocks body) l →
  fold_outcome (λ acc p, propagate_into acc (fst p) (snd p)) l (es, q) = Ret (es', q') →
  WorkQueue.deque q' = WorkQueue.deque q.
Proof.
  induction l as [|[t d] l IH]; intros es q es' q' Hq Hl Hr; [by injection Hr as _ <-|]. cbn [fold_outcome fst snd] in Hr.
  pose proof (Forall_inv Hl) as [Ht Hn]. apply Forall_inv_tail in Hl. cbn in Ht, Hn. unfold propagate_into at 1 in Hr.
  destruct (index es (Z.to_nat t)) as [old|]; [|done]. cbn [obind] in Hr.
  destruct (join old d) as [[new c]|]; [|done]. cbn [obind] in Hr.
  destruct (index_set es (Z.to_nat t) new) as [es1|]; [|done]. cbn [obind] in Hr. destruct c; [|by eapply IH].
  destruct (queue_insert (nblocks body) q t Hq Hn) as (q1 & Eq1 & Hq1 & Hd). rewrite Eq1 in Hr. cbn [obind] in Hr.
  rewrite decide_True in Hd by done. rewrite <- Hd. eapply IH; [done| |done]. by rewrite Hd.
Qed.

(** Every block leads to blocks that come later. *)
Definition forwards (order : list Z) : Prop :=
  ∀ pre x post, order = pre ++ x :: post → ∀ t, leads forward body x t → t ∈ post.

Lemma single_pass_loop : effects_defined → ∀ order es q, wf_entries body es → wf_queue (nblocks body) q →
  WorkQueue.deque q = order → forwards order →
  (∃ es', fixpoint_loop analysis (S (length order)) forward body cached es q = Ret es') ∧
  fixpoint_loop analysis (length order) forward body cached es q = Panic.
Proof.
  intros Heff. induction order as [|bb order IH]; intros es q He Hq Hd Hfw.
  { cbn. pose proof (queue_pop (nblocks body) q Hq) as Hpop. rewrite Hd in Hpop. rewrite Hpop. cbn. split; [by exists es|done]. }
  cbn [length]. pose proof (queue_pop (nblocks body) q Hq) as Hpop. rewrite Hd in Hpop.
  destruct Hpop as (q0 & Epop & Hq0 & Edq0 & Hbb & _). pose proof He as [Hlen Hwf].
  destruct (lookup_lt_is_Some_2 es (Z.to_nat bb)) as [d Ed]; [unfold nblocks in Hbb; lia|].
  assert (lat_wf d) as Hwd by (by apply (Forall_lookup_1 _ _ _ _ Hwf Ed)).
  destruct (flows_lead bb d Heff Hbb Hwd) as (l & Hl & HF).
  assert (Forall (λ p, fst p ∈ WorkQueue.deque q0 ∧ 0 ≤ fst p < nblocks body) l) as Hwait.
  { eapply List.Forall_impl; [|exact HF]. intros [t x] [Ht Hx]. cbn in *. split; [|by eapply leads_node].
    rewrite Edq0. by eapply (Hfw []). }
  destruct (propagate_all body l es q0 He Hq0) as (es1 & q1 & Hfold & Ha & _).
  { eapply List.Forall_impl; [|exact HF]. intros [t x] [Ht Hx]. cbn in *. split; [by eapply leads_node|done]. }
  pose proof (propagate_waiting l es q0 es1 q1 Hq0 Hwait Hfold) as Hdq.
  assert (∀ n, fixpoint_loop analysis (S n) forward body cached es q = fixpoint_loop analysis n forward body cached es1 q1) as Hstep.
  { intros n. cbn [fixpoint_loop]. rewrite Epop. cbn [obind]. unfold index. rewrite Ed. cbn [unwrap obind].
    rewrite flow_block_flows, Hl. cbn [obind]. by rewrite Hfold. }
  rewrite !Hstep. apply IH; [apply Ha|apply Ha|congruence|].
  intros pre x post E. by apply (Hfw (bb :: pre)); rewrite E.
Qed.
End Solve.

(** ** The order of the blocks *)

Section Order.
Context {Stmt Place Operand : Type}.
Context (body : list (BasicBlockData Stmt Place Operand)).

Lemma before_split {A} (a b : A) l pre post : NoDup l → before a b l → l = pre ++ b :: post → a ∈ pre.
Proof.
  intros Hnd Hb E. destruct (before_index _ _ _ Hnd Hb) as (i & j & Hi & Hj & Hlt).
  assert (l !! length pre = Some b) as Hp by (rewrite E; by apply list_lookup_middle).
  pose proof (NoDup_lookup _ _ _ _ Hnd Hj Hp) as ->. rewrite E, lookup_app_l in Hi by done. by eapply list_elem_of_lookup_2.
Qed.

Lemma before_split_r {A} (a b : A) l pre post : NoDup l → before a b l → l = pre ++ a :: post → b ∈ post.
Proof.
  intros Hnd Hb E. destruct (before_index _ _ _ Hnd Hb) as (i & j & Hi & Hj & Hlt).
  assert (l !! length pre = Some a) as Hp by (rewrite E; by apply list_lookup_middle).
  pose proof (NoDup_lookup _ _ _ _ Hnd Hi Hp) as ->. rewrite E, lookup_app_r, lookup_cons in Hj by lia.
  destruct (j - length pre)%nat as [|k] eqn:Ek; [lia|]. by eapply list_elem_of_lookup_2.
Qed.

(** Without a cycle the queue starts in an order in which every block leads to
    later ones. *)
Lemma acyclic_forwards forward : wf_blocks body → is_cfg_cyclic body = Ret false →
  (forward = false → ∀ x, is_node body x → rtc (edge body) START_BLOCK x) →
  ∃ order, (if forward then reverse_postorder body else postorder body) = Ret order ∧ NoDup order ∧
    Forall (λ x, 0 ≤ x < nblocks body) order ∧ forwards forward body order.
Proof.
  intros Hb Hcyc Hall. destruct (order_spec forward body Hb) as (order & Hord & Hnd & Hre & Hin & _).
  exists order. split_and!; [done..|]. destruct (reverse_postorder_spec body Hb) as (l & Hl & Hpo).
  destruct (cfg_cyclic_spec body Hb) as (b & Hb' & Hiff). rewrite Hcyc in Hb'. injection Hb' as <-.
  assert (∀ n x, n ∈ l → edge body n x → before x n l) as Htop.
  { eapply postorder_topological; [done|]. intros x Hx Hc. pose proof (proj2 Hiff (ex_intro _ x (conj Hx Hc))) as E. done. }
  pose proof (po_nodup _ _ _ _ _ Hpo) as Hndl. unfold postorder in Hord. rewrite Hl in Hord.
  destruct forward; cbn [obind] in Hord; injection Hord as <-; intros pre x post E t Ht; cbn in Ht.
  - assert (l = reverse post ++ x :: reverse pre) as E'.
    { rewrite <- (reverse_involutive l), E, reverse_app, reverse_cons. by rewrite <- app_assoc. }
    apply elem_of_reverse. apply (before_split t x l (reverse post) (reverse pre)); [done| |done]. apply Htop; [|done].
    rewrite E', elem_of_app, elem_of_cons. auto.
  - destruct Ht as [Hn Ht]. rewrite reverse_involutive in E.
    apply (before_split_r x t l pre post); [done| |done]. apply Htop; [|done].
    specialize (Hall eq_refl t Hn). apply Hre in Hall. by rewrite reverse_involutive in Hall.
Qed.
End Order.

(** C32. [Engine::iterate_to_fixpoint] terminates on a body, in both directions: a
    budget of one round per block and one per possible change of an entry set is
    enough.  Its entry sets contain the initial ones, and what each block that can
    be reached propagates from its entry set is in the entry sets of the blocks
    that it leads to; with monotone effects they are the least such: below any
    other entry sets that contain the initial ones and are closed under every
    block. *)
Theorem dataflow_least_fixpoint {Stmt Place Operand D : Type} `{JL : JoinLaws D}
    (analysis : Analysis (Stmt := Stmt) (Place := Place) (Operand := Operand) (D := D))
    (forward : bool) (body : list (BasicBlockData Stmt Place Operand)) (cached : option (Z → D → outcome D))
    (es : list D) (fuel : nat) :
  wf_blocks body → wf_switches body → effects_defined analysis body cached → wf_entries body es →
  (length body + total_height es < fuel)%nat →
  ∃ es', iterate_to_fixpoint analysis fuel forward body cached es = Ret es' ∧ below es es' ∧
    (∀ bb, rtc (edge body) START_BLOCK bb → settled analysis forward body cached es' bb) ∧
    (effects_monotone analysis body cached → ∀ U, wf_entries body U → below es U →
      (∀ bb, is_node body bb → settled analysis forward body cached U bb) → below es' U).
Proof.
  intros Hb Hs He Hes Hf. pose proof (defined_flows analysis forward body cached Hb Hs He) as Hfl.
  destruct (iterate_spec analysis forward body cached Hfl es fuel Hb Hes Hf) as (es' & Hr & _ & Hbel & Hset & HU).
  exists es'. split_and!; [done..|]. intros Hm U HwU HbU HsU. apply HU; [|done].
  apply settled_solution; [done| |done|done]. by apply monotone_effects.
Qed.

(** As the comment of [new_gen_kill] says, a body without cycles needs the
    transfer function of each block exactly once: the engine ends after one round
    for each block that can be reached, and not earlier.  Backward this holds when
    every block can be reached, since the others are not in the queue at the
    start. *)
Theorem acyclic_single_pass {Stmt Place Operand D : Type} `{JL : JoinLaws D}
    (analysis : Analysis (Stmt := Stmt) (Place := Place) (Operand := Operand) (D := D))
    (forward : bool) (body : list (BasicBlockData Stmt Place Operand)) (cached : option (Z → D → outcome D)) (es : list D) :
  wf_blocks body → wf_switches body → effects_defined analysis body cached → wf_entries body es →
  is_cfg_cyclic body = Ret false → (forward = false → ∀ x, is_node body x → rtc (edge body) START_BLOCK x) →
  ∃ order es', (if forward then reverse_postorder body else postorder body) = Ret order ∧
    iterate_to_fixpoint analysis (S (length order)) forward body cached es = Ret es' ∧
    iterate_to_fixpoint analysis (length order) forward body cached es = Panic ∧
    ∀ bb, rtc (edge body) START_BLOCK bb → settled analysis forward body cached es' bb.
Proof.
  intros Hb Hs He Hes Hcyc Hall. pose proof (defined_flows analysis forward body cached Hb Hs He) as Hfl.
  destruct (acyclic_forwards body forward Hb Hcyc Hall) as (order & Hord & Hnd & Hin & Hfw).
  destruct (iterate_spec analysis forward body cached Hfl es _ Hb Hes (Nat.lt_succ_diag_r _)) as (es' & Hr & _ & _ & Hset & _).
  exists order, es'. unfold iterate_to_fixpoint in *. rewrite Hord in *. cbn [obind] in *.
  destruct (fill_queue_order body order) as (q & Hq & Hwq & Hdq); [apply Hb|done|done|]. unfold nblocks in Hq at 1. rewrite Hq in *. cbn [obind] in *.
  destruct (single_pass_loop analysis forward body cached Hb Hs He order es q Hes Hwq Hdq Hfw) as [(r & Hr1) Hp].
  assert (r = es') as ->; [|done].
  eapply fixpoint_loop_more in Hr; [|apply (Nat.le_max_l _ (S (length order)))].
  eapply fixpoint_loop_more in Hr1; [|apply (Nat.le_max_r (S (length body + total_height es)) _)]. congruence.
Qed.

(** A loop: block 1 sets the state and branches to itself and to block 2.  Without
    the branch back, a line. *)
Definition loop_analysis : Analysis (Stmt := unit) (Place := unit) (Operand := unit) (D := bool) := {|
  bottom_value _ := false;
  initialize_start_block _ s := Ret s;
  apply_before_statement_effect s _ _ := Ret s;
  apply_statement_effect s _ loc := Ret (s || (loc_block loc =? 1));
  apply_before_terminator_effect s _ _ := Ret s;
  apply_terminator_effect s t _ := Ret (s, terminator_edges t);
  apply_call_return_effect s _ _ := Ret s;
  apply_switch_int_edge_effects _ _ := None;
|}.

Definition branch_body (back : Z) : list (BasicBlockData unit unit unit) := [
  {| statements := [tt]; terminator := Some (TerminatorKind.Goto 1); is_cleanup := false |};
  {| statements := [tt]; terminator := Some (TerminatorKind.SwitchInt tt (static_if 0 back 2)); is_cleanup := false |};
  {| statements := []; terminator := Some TerminatorKind.Return; is_cleanup := false |}].

Lemma branch_blocks back : 0 ≤ back < 3 → wf_blocks (branch_body back) ∧ wf_switches (branch_body back).
Proof.
  intros Hb. split.
  - apply blocks_checked; [split; vm_compute; congruence|]. assert (back = 0 ∨ back = 1 ∨ back = 2) as [-> |[-> | ->]] by lia; reflexivity.
  - intros [|[|[|i]]] data discr t Hi Ht; try discriminate; injection Hi as <-; cbn in Ht; try discriminate. injection Ht as _ <-. done.
Qed.

Lemma branch_effects back (rel : bool → bool → Prop) :
  (∀ a b c, rel a b → rel (a || c) (b || c)) → 0 ≤ back < 3 → effects_keep loop_analysis (branch_body back) None rel.
Proof.
  intros Hrel Hback. split; try (intros; intros d d' Hd; do 2 eexists; split_and!; [done..|auto]); try done.
  intros bb data t loc d d' Hdata Ht Hd. do 3 eexists. split_and!; [done|done|done|]. split.
  - apply list.Forall_forall. intros x Hx. rewrite terminator_edges_targets in Hx.
    exists (terminator_successors t). split; [|done]. cbn. unfold index, block_terminator. rewrite Hdata. cbn. by rewrite Ht.
  - destruct (Z.to_nat bb) as [|[|[|i]]]; try discriminate; injection Hdata as <-; cbn in Ht; injection Ht as <-; done.
Qed.

Lemma dataflow_least_fixpoint_witness :
  ∃ es', iterate_to_fixpoint loop_analysis 20 true (branch_body 1) None [false; false; false] = Ret es' ∧
    es' = [false; true; true] ∧ settled loop_analysis true (branch_body 1) None es' 1 ∧
    effects_monotone loop_analysis (branch_body 1) None.
Proof.
  destruct (dataflow_least_fixpoint loop_analysis true (branch_body 1) None [false; false; false] 20) as (es' & Hr & _ & Hs & _).
  - apply branch_blocks. lia.
  - apply branch_blocks. lia.
  - apply branch_effects; [|lia]. by intros a b c [-> ?].
  - split; [reflexivity|repeat constructor].
  - vm_compute. lia.
  - exists es'. split; [exact Hr|]. split; [vm_compute in Hr; congruence|]. split.
    + apply Hs. apply rtc_once. exists [1]. split; [reflexivity|left].
    + apply branch_effects; [|lia]. intros [] [] []; cbn; tauto.
Defined.

Lemma acyclic_single_pass_witness :
  ∃ order es', postorder (branch_body 2) = Ret order ∧ order = [2; 1; 0] ∧
    iterate_to_fixpoint loop_analysis 4 false (branch_body 2) None [false; false; false] = Ret es' ∧
    iterate_to_fixpoint loop_analysis 3 false (branch_body 2) None [false; false; false] = Panic ∧ es' = [true; false; false].
Proof.
  destruct (acyclic_single_pass loop_analysis false (branch_body 2) None [false; false; false]) as (order & es' & Ho & Hr & Hp & _).
  - apply branch_blocks. lia.
  - apply branch_blocks. lia.
  - apply branch_effects; [|lia]. by intros a b c [-> ?].
  - split; [reflexivity|repeat constructor].
  - reflexivity.
  - intros _ x Hx. unfold is_node in Hx. cbn in Hx. assert (edge (branch_body 2) 0 1) by (exists [1]; split; [reflexivity|left]).
    assert (edge (branch_body 2) 1 2) by (exists [2; 2]; split; [reflexivity|left]).
    assert (x = 0 ∨ x = 1 ∨ x = 2) as [-> |[-> | ->]] by lia; [apply rtc_refl|by apply rtc_once|].
    eapply rtc_l; [done|by apply rtc_once].
  - cbv iota in Ho. assert (order = [2; 1; 0]) as -> by (vm_compute in Ho; congruence).
    exists [2; 1; 0], es'. split_and!; try done. vm_compute in Hr. congruence.
Defined.
