(* ===== verification/CacheProps.v ===== *)
(** * The caches of a body stay coherent

    A filled cell of [BasicBlocks] has the value that its function would compute
    from the blocks now: uses fill cells, [as_mut] empties them, and an update
    through [as_mut_preserves_cfg] that keeps its promise leaves them true. *)

From stdpp Require Import gmap relations.
From S2P Require Import Prelude.
From S2P Require Import Slice.
From S2P Require Import BitSets.
From S2P Require Import Graph.
From S2P Require Import Mir.
From S2P Require Import TraversalProps.
From S2P Require Import Dataflow.

Section Same.
Context {Stmt Place Operand : Type}.
Implicit Types blocks : list (BasicBlockData Stmt Place Operand).

(** What the graph of the blocks depends on: the successors and the switches *)
Definition block_flow (data : BasicBlockData Stmt Place Operand) : option (list Z * option SwitchTargets) :=
  (λ t, (terminator_successors t, snd <$> as_switch t)) <$> terminator data.

(** The promise of [as_mut_preserves_cfg] *)
Definition same_cfg blocks blocks' : Prop := block_flow <$> blocks = block_flow <$> blocks'.

Lemma same_block_successors (a b : BasicBlockData Stmt Place Operand) : block_flow a = block_flow b → block_successors a = block_successors b.
Proof.
  unfold block_flow, block_successors. destruct (terminator a), (terminator b); cbn; congruence.
Qed.

Lemma same_length blocks blocks' : same_cfg blocks blocks' → length blocks = length blocks'.
Proof. intros H. apply (f_equal length) in H. by rewrite !length_fmap in H. Qed.

Lemma same_lookup blocks blocks' i : same_cfg blocks blocks' → block_flow <$> blocks !! i = block_flow <$> blocks' !! i.
Proof. intros H. rewrite <- !list_lookup_fmap. by rewrite H. Qed.

Lemma same_enumerate blocks blocks' : same_cfg blocks blocks' →
  Forall2 (λ p q, p.1 = q.1 ∧ block_flow p.2 = block_flow q.2) (enumerate blocks) (enumerate blocks').
Proof.
  intros Hs. unfold enumerate. rewrite <- (same_length _ _ Hs). apply Forall2_same_length_lookup. split.
  - rewrite !length_zip, length_seq, (same_length _ _ Hs). done.
  - intros i [k a] [k' b] Ha Hb. apply lookup_zip_Some in Ha as [Ha1 Ha2], Hb as [Hb1 Hb2]. cbn. split; [congruence|].
    pose proof (same_lookup _ _ i Hs) as E. rewrite Ha2, Hb2 in E. by injection E.
Qed.

Lemma fold_outcome_related {A A' B} (f : B → A → outcome B) (g : B → A' → outcome B) l l' :
  Forall2 (λ x y, ∀ b, f b x = g b y) l l' → ∀ b, fold_outcome f l b = fold_outcome g l' b.
Proof.
  induction 1 as [|x y l l' Hxy _ IH]; intros b; [done|]. cbn [fold_outcome]. rewrite Hxy. by destruct (g b y); [apply IH|].
Qed.

Lemma same_predecessors blocks blocks' : same_cfg blocks blocks' → predecessors blocks = predecessors blocks'.
Proof.
  intros Hs. unfold predecessors. rewrite (same_length _ _ Hs). apply fold_outcome_related.
  eapply Forall2_impl; [|by apply same_enumerate]. intros [i a] [j b] [E1 E2]; cbn in *; subst. intros preds.
  by rewrite (same_block_successors a b).
Qed.

Lemma same_switch_sources blocks blocks' : same_cfg blocks blocks' → switch_sources blocks = switch_sources blocks'.
Proof.
  intros Hs. unfold switch_sources. apply fold_outcome_related. eapply Forall2_impl; [|by apply same_enumerate].
  intros [i a] [j b] [E1 E2]; cbn in *; subst. intros m. unfold block_flow in E2.
  destruct (terminator a) as [ta|], (terminator b) as [tb|]; try done. cbn in E2. injection E2 as _ E2.
  destruct ta, tb; cbn in E2; try done. by injection E2 as ->.
Qed.

Lemma same_successors blocks blocks' n : same_cfg blocks blocks' → successors blocks n = successors blocks' n.
Proof.
  intros Hs. cbn. unfold index, block_terminator. pose proof (same_lookup _ _ (Z.to_nat n) Hs) as E.
  destruct (blocks !! Z.to_nat n) as [a|], (blocks' !! Z.to_nat n) as [b|]; try done. cbn in *. injection E as E. unfold block_flow in E.
  destruct (terminator a), (terminator b); cbn in *; congruence.
Qed.
End Same.

(** * Searches depend on the successors only *)

Section Extensional.
Context {G : Type} `{WithNumNodes G} `{WithSuccessors G} `{WithStartNode G}.
Context (g g' : G).
Hypothesis Hnum : num_nodes g = num_nodes g'.
Hypothesis Hsucc : ∀ n, successors g n = successors g' n.

Lemma run_loop_ext {S B} (visitor : TriColorVisitor S B) fuel : ∀ v stack vs ss,
  run_loop visitor fuel g v stack vs ss = run_loop visitor fuel g' v stack vs ss.
Proof.
  induction fuel as [|fuel IH]; intros v stack vs ss; [done|]. cbn [run_loop]. destruct stack as [|e stack]; [done|].
  assert (handle_event visitor g v e stack vs ss = handle_event visitor g' v e stack vs ss) as ->.
  { unfold handle_event. destruct (becomes e); [|done]. destruct (BitSet.insert vs (node e)) as [[vs1 fresh]|]; [|done]. cbn [obind].
    match goal with |- obind ?o _ = _ => destruct o as [prior|]; [|done] end. cbn [obind].
    destruct (node_examined _ _ visitor v (node e) prior) as [v1 [val|]]; [done|]. destruct prior; [done|]. by rewrite Hsucc. }
  destruct (handle_event visitor g' v e stack vs ss) as [[[[[v1 stack1] vs1] ss1] val]|]; [|done]. cbn [obind].
  destruct val; [done|]. apply IH.
Qed.

Lemma edge_count_ext : edge_count g = edge_count g'.
Proof.
  unfold edge_count. rewrite Hnum. induction (seqZ 0 (num_nodes g')) as [|x l IH]; [done|]. cbn. by rewrite Hsucc, IH.
Qed.

Lemma is_cyclic_ext : start_node g = start_node g' → is_cyclic g = is_cyclic g'.
Proof.
  intros Hstart. unfold is_cyclic, run_from_start, run_from. unfold node_count. rewrite edge_count_ext, Hnum, Hstart.
  by rewrite run_loop_ext.
Qed.
End Extensional.

(** Postorders run on the blocks. *)
Section Traversals.
Context {Stmt Place Operand : Type}.
Context (blocks blocks' : list (BasicBlockData Stmt Place Operand)).
Hypothesis Hs : same_cfg blocks blocks'.

Lemma push_block_ext bb st : push_block blocks bb st = push_block blocks' bb st.
Proof.
  unfold push_block, index. pose proof (same_lookup _ _ (Z.to_nat bb) Hs) as E.
  destruct (blocks !! Z.to_nat bb) as [a|], (blocks' !! Z.to_nat bb) as [b|]; try done. cbn in *. injection E as E. unfold block_flow in E.
  destruct (terminator a), (terminator b); cbn in *; congruence.
Qed.

Lemma traverse_loop_ext fuel : ∀ po, traverse_loop fuel blocks po = traverse_loop fuel blocks' po.
Proof.
  induction fuel as [|fuel IH]; intros po; [done|]. cbn [traverse_loop]. destruct (visit_stack po) as [|[n [|bb iter]] st]; [done|done|].
  destruct (BitSet.insert (po_visited po) bb) as [[vs fresh]|]; [|done]. cbn [obind]. rewrite push_block_ext.
  destruct (if fresh then _ else _); [apply IH|done].
Qed.

Lemma successor_count_ext : successor_count blocks = successor_count blocks'.
Proof.
  unfold successor_count, same_cfg in *. clear -Hs. revert blocks' Hs. induction blocks as [|a l IH]; intros [|b l'] E; try done.
  cbn in *. injection E as E1 E2. rewrite (same_block_successors a b) by done. by rewrite (IH l').
Qed.

Lemma traverse_successor_ext po : traverse_successor blocks po = traverse_successor blocks' po.
Proof. unfold traverse_successor. rewrite successor_count_ext. apply traverse_loop_ext. Qed.

Lemma postorder_collect_ext fuel : ∀ po, postorder_collect fuel blocks po = postorder_collect fuel blocks' po.
Proof.
  induction fuel as [|fuel IH]; intros po; [done|]. cbn [postorder_collect]. unfold postorder_next.
  destruct (visit_stack po) as [|[bb it] st]; [done|]. rewrite traverse_successor_ext. destruct (traverse_successor blocks' _) as [po'|]; [|done].
  cbn [obind]. by rewrite IH.
Qed.

Lemma reverse_postorder_ext : reverse_postorder blocks = reverse_postorder blocks'.
Proof.
  unfold reverse_postorder, postorder_new. rewrite (same_length _ _ Hs). unfold index.
  pose proof (same_lookup _ _ (Z.to_nat START_BLOCK) Hs) as E.
  destruct (blocks !! Z.to_nat START_BLOCK) as [a|], (blocks' !! Z.to_nat START_BLOCK) as [b|]; try done. cbn [unwrap obind].
  cbn in E. injection E as E. unfold block_flow in E. destruct (terminator a) as [ta|], (terminator b) as [tb|]; cbn in E; [|done|done|].
  - injection E as E _. rewrite E. destruct (BitSet.insert _ START_BLOCK) as [[vs fresh]|]; [|done]. cbn [obind]. rewrite traverse_successor_ext.
    destruct (traverse_successor blocks' _) as [po|]; [|done]. cbn [obind]. by rewrite postorder_collect_ext.
  - cbn [obind]. by rewrite postorder_collect_ext.
Qed.

Lemma is_cfg_cyclic_ext : is_cfg_cyclic blocks = is_cfg_cyclic blocks'.
Proof.
  unfold is_cfg_cyclic. apply (is_cyclic_ext (H1 := blocks_start_node)); [cbn; by rewrite (same_length _ _ Hs)| |done].
  intros n. by apply same_successors.
Qed.
End Traversals.

(** * Coherence *)

Section Coherent.
Context {Stmt Place Operand : Type}.
Abbreviation t := (BasicBlocks.t Stmt Place Operand).

(** A cell is empty or has the value of its function. *)
Definition cell_ok {A} (cell : option A) (f : outcome A) : Prop := match cell with None => True | Some a => f = Ret a end.

Record coherent (b : t) : Prop := {
  co_predecessors : cell_ok (BasicBlocks.cell_predecessors (BasicBlocks.cache b)) (predecessors (BasicBlocks.basic_blocks b));
  co_switch_sources : cell_ok (BasicBlocks.cell_switch_sources (BasicBlocks.cache b)) (switch_sources (BasicBlocks.basic_blocks b));
  co_is_cyclic : cell_ok (BasicBlocks.cell_is_cyclic (BasicBlocks.cache b)) (is_cfg_cyclic (BasicBlocks.basic_blocks b));
  co_reverse_postorder :
    cell_ok (BasicBlocks.cell_reverse_postorder (BasicBlocks.cache b)) (reverse_postorder (BasicBlocks.basic_blocks b));
}.

Lemma cell_get {A} (cell : option A) f : cell_ok cell f → BasicBlocks.get_or_init cell f = f.
Proof. by destruct cell. Qed.

Inductive cache_op : Type :=
| UsePredecessors
| UseSwitchSources
| UseIsCyclic
| UseReversePostorder
| Invalidate
| AsMut (blocks : list (BasicBlockData Stmt Place Operand))
| PreservesCfg (blocks : list (BasicBlockData Stmt Place Operand)).

Definition run_cache_op (b : t) (op : cache_op) : outcome t :=
  match op with
  | UsePredecessors => fst_of (BasicBlocks.predecessors b)
  | UseSwitchSources => fst_of (BasicBlocks.switch_sources b)
  | UseIsCyclic => fst_of (BasicBlocks.is_cfg_cyclic b)
  | UseReversePostorder => fst_of (BasicBlocks.reverse_postorder b)
  | Invalidate => Ret (BasicBlocks.invalidate_cfg_cache b)
  | AsMut blocks => Ret (BasicBlocks.as_mut b blocks)
  | PreservesCfg blocks => Ret (BasicBlocks.as_mut_preserves_cfg b blocks)
  end.

(** The promise that comes with [as_mut_preserves_cfg] *)
Definition promise_kept (b : t) (op : cache_op) : Prop :=
  match op with PreservesCfg blocks => same_cfg (BasicBlocks.basic_blocks b) blocks | _ => True end.

Lemma run_cache_op_coherent b op b' : coherent b → promise_kept b op → run_cache_op b op = Ret b' → coherent b'.
Proof.
  intros [Hp Hw Hc Hr] Hkept Hrun. destruct op as [| | | | |blocks|blocks]; cbn in *.
  - unfold BasicBlocks.predecessors in Hrun. rewrite (cell_get _ _ Hp) in Hrun. destruct (predecessors _) as [p|] eqn:E; [|done].
    injection Hrun as <-. split; cbn; done.
  - unfold BasicBlocks.switch_sources in Hrun. rewrite (cell_get _ _ Hw) in Hrun. destruct (switch_sources _) as [p|] eqn:E; [|done].
    injection Hrun as <-. split; cbn; done.
  - unfold BasicBlocks.is_cfg_cyclic in Hrun. rewrite (cell_get _ _ Hc) in Hrun. destruct (is_cfg_cyclic _) as [p|] eqn:E; [|done].
    injection Hrun as <-. split; cbn; done.
  - unfold BasicBlocks.reverse_postorder in Hrun. rewrite (cell_get _ _ Hr) in Hrun. destruct (reverse_postorder _) as [p|] eqn:E; [|done].
    injection Hrun as <-. split; cbn; done.
  - injection Hrun as <-. split; done.
  - injection Hrun as <-. split; done.
  - injection Hrun as <-. split; cbn [BasicBlocks.as_mut_preserves_cfg BasicBlocks.basic_blocks BasicBlocks.cache]; [rewrite <- (same_predecessors _ _ Hkept)|rewrite <- (same_switch_sources _ _ Hkept)
      |rewrite <- (is_cfg_cyclic_ext _ _ Hkept)|rewrite <- (reverse_postorder_ext _ _ Hkept)]; done.
Qed.

(** A history in which the promises are kept *)
Inductive cache_run : t → list cache_op → t → Prop :=
| run_none b : cache_run b [] b
| run_more b op b1 ops b' : promise_kept b op → run_cache_op b op = Ret b1 → cache_run b1 ops b' → cache_run b (op :: ops) b'.

Lemma cache_run_coherent b ops b' : cache_run b ops b' → coherent b → coherent b'.
Proof. induction 1; eauto using run_cache_op_coherent. Qed.

Lemma new_coherent blocks : coherent (BasicBlocks.new blocks).
Proof. split; done. Qed.
End Coherent.

(** C38. The CFG caches of [BasicBlocks] are coherent.  After any history of uses and
    updates in which updates through [as_mut_preserves_cfg] keep the successors of
    every block, in their order, and its switches, the accessors of predecessors,
    switch sources, cyclicity and reverse postorder return what the blocks have now:
    the cached value is that of a fresh computation. *)
Theorem cfg_caches_coherent {Stmt Place Operand : Type} (blocks : list (BasicBlockData Stmt Place Operand))
    (ops : list cache_op) (b : BasicBlocks.t Stmt Place Operand) :
  cache_run (BasicBlocks.new blocks) ops b →
  (let! (_, p) := BasicBlocks.predecessors b in Ret p) = predecessors (BasicBlocks.basic_blocks b) ∧
  (let! (_, s) := BasicBlocks.switch_sources b in Ret s) = switch_sources (BasicBlocks.basic_blocks b) ∧
  (let! (_, c) := BasicBlocks.is_cfg_cyclic b in Ret c) = is_cfg_cyclic (BasicBlocks.basic_blocks b) ∧
  (let! (_, r) := BasicBlocks.reverse_postorder b in Ret r) = reverse_postorder (BasicBlocks.basic_blocks b).
Proof.
  intros Hrun. destruct (cache_run_coherent _ _ _ Hrun (new_coherent blocks)) as [Hp Hw Hc Hr].
  unfold BasicBlocks.predecessors, BasicBlocks.switch_sources, BasicBlocks.is_cfg_cyclic, BasicBlocks.reverse_postorder.
  rewrite (cell_get _ _ Hp), (cell_get _ _ Hw), (cell_get _ _ Hc), (cell_get _ _ Hr).
  split_and!; match goal with |- _ = ?o => by destruct o end.
Qed.

Lemma cfg_caches_coherent_witness :
  ∃ b, cache_run (BasicBlocks.new (diamond TerminatorKind.Return))
      [UsePredecessors; UseIsCyclic; PreservesCfg (diamond TerminatorKind.Resume); AsMut (diamond (TerminatorKind.Goto 0)); UseReversePostorder] b ∧
    (let! (_, c) := BasicBlocks.is_cfg_cyclic b in Ret c) = Ret true.
Proof.
  assert (∃ b, cache_run (BasicBlocks.new (diamond TerminatorKind.Return))
      [UsePredecessors; UseIsCyclic; PreservesCfg (diamond TerminatorKind.Resume); AsMut (diamond (TerminatorKind.Goto 0)); UseReversePostorder] b ∧
      BasicBlocks.basic_blocks b = diamond (TerminatorKind.Goto 0)) as (b & Hb & Eb).
  { eexists. split; [repeat (eapply run_more; [first [exact I|reflexivity]|vm_compute; reflexivity|]); apply run_none|reflexivity]. }
  exists b. split; [exact Hb|].
  destruct (cfg_caches_coherent (diamond TerminatorKind.Return) _ b Hb) as (_ & _ & Hc & _). rewrite Hc, Eb. reflexivity.
Defined.

(** The [size_hint] of the traversals is no bound on what they yield.  A new
    [Postorder] announces at most three blocks and yields five, since the blocks on
    its stack count as visited; a new [Preorder] announces at least six and yields
    five, since a block cannot be reached. *)
Theorem traversal_size_hints_wrong :
  let body := diamond TerminatorKind.Return in
  (∃ po l, postorder_new body START_BLOCK = Ret po ∧ postorder_collect (S (length body)) body po = Ret l ∧
    postorder_size_hint true body po = (3, Some 3) ∧ length l = 5%nat) ∧
  ∃ l, reachable body = Ret l ∧ preorder_size_hint true body (preorder body) = (6, Some 6) ∧ length l = 5%nat.
Proof.
  split.
  - eexists _, _. split; [vm_compute; reflexivity|]. split; [vm_compute; reflexivity|]. split; vm_compute; reflexivity.
  - eexists. split; [vm_compute; reflexivity|]. split; vm_compute; reflexivity.
Qed.
