(* ===== verification/Cursor.v ===== *)
(** * Cursors and visitors over dataflow results

    [compiler/rustc_mir_dataflow/src/framework]: the effects of a range
    ([mod.rs], [direction.rs]), the cursor ([cursor.rs]) and the visitor
    ([visitor.rs]), which recompute the states inside a block from the entry sets.
    The results of an analysis are its entry sets. *)

From S2P Require Import Prelude.
From S2P Require Import Slice.
From S2P Require Import BitSets.
From S2P Require Import Graph.
From S2P Require Import Mir.
From S2P Require Import Dataflow.

Inductive Effect : Type := Before | Primary.

#[export] Instance effect_eq_dec : EqDecision Effect.
Proof. solve_decision. Defined.

(** The derived order *)
Definition effect_cmp (a b : Effect) : comparison :=
  match a, b with
  | Before, Primary => Lt
  | Primary, Before => Gt
  | _, _ => Eq
  end.

(** [Ordering::then_with] *)
Definition then_with (a b : comparison) : comparison := match a with Eq => b | _ => a end.

Record EffectIndex : Type := { effect_statement : Z; effect : Effect }.

#[export] Instance effect_index_eq_dec : EqDecision EffectIndex.
Proof. solve_decision. Defined.

Definition at_index (e : Effect) (i : Z) : EffectIndex := {| effect_statement := i; effect := e |}.

Definition next_in_forward_order (x : EffectIndex) : EffectIndex :=
  match effect x with
  | Before => at_index Primary (effect_statement x)
  | Primary => at_index Before (wadd 64 (effect_statement x) 1)
  end.

Definition next_in_backward_order (x : EffectIndex) : EffectIndex :=
  match effect x with
  | Before => at_index Primary (effect_statement x)
  | Primary => at_index Before (wsub 64 (effect_statement x) 1)
  end.

Definition precedes_in_forward_order (x other : EffectIndex) : bool :=
  match then_with (effect_statement x ?= effect_statement other) (effect_cmp (effect x) (effect other)) with
  | Lt => true
  | _ => false
  end.

Definition precedes_in_backward_order (x other : EffectIndex) : bool :=
  match then_with (effect_statement other ?= effect_statement x) (effect_cmp (effect x) (effect other)) with
  | Lt => true
  | _ => false
  end.

Section Cursor.
Context {Stmt Place Operand D : Type}.
Abbreviation BasicBlockData := (BasicBlockData Stmt Place Operand).
Abbreviation Body := (list BasicBlockData).
Context (analysis : Analysis (Stmt := Stmt) (Place := Place) (Operand := Operand) (D := D)).

Definition location_at (block i : Z) : Location := {| loc_block := block; statement_index := Z.to_nat i |}.

(** The parts of the effect of a statement or a terminator, with the lookups *)
Definition before_at (block : Z) (data : BasicBlockData) (i : Z) (state : D) : outcome D :=
  let! statement := index (statements data) (Z.to_nat i) in
  apply_before_statement_effect analysis state statement (location_at block i).

Definition statement_at (block : Z) (data : BasicBlockData) (i : Z) (state : D) : outcome D :=
  let! statement := index (statements data) (Z.to_nat i) in
  apply_statement_effect analysis state statement (location_at block i).

Definition both_at (block : Z) (data : BasicBlockData) (state : D) (i : Z) : outcome D :=
  let! state := before_at block data i state in statement_at block data i state.

Definition before_terminator_at (block : Z) (data : BasicBlockData) (i : Z) (state : D) : outcome D :=
  let! term := block_terminator data in
  apply_before_terminator_effect analysis state term (location_at block i).

Definition terminator_at (block : Z) (data : BasicBlockData) (i : Z) (state : D) : outcome D :=
  let! term := block_terminator data in
  fst_of (apply_terminator_effect analysis state term (location_at block i)).

Definition terminator_index (data : BasicBlockData) : Z := Z.of_nat (length (statements data)).

(** The range [first..last] *)
Definition range (first last : Z) : list Z := seqZ first (last - first).

(** [Forward::apply_effects_in_range], from the first statement whose effects are
    not applied *)
Definition forward_range_rest (block : Z) (data : BasicBlockData) (first_unapplied_index : Z) (to : EffectIndex) (state : D)
    : outcome D :=
  let! state := fold_outcome (both_at block data) (range first_unapplied_index (effect_statement to)) state in
  if effect_statement to =? terminator_index data then
    let! state := before_terminator_at block data (effect_statement to) state in
    match effect to with Primary => terminator_at block data (effect_statement to) state | Before => Ret state end
  else
    let! state := before_at block data (effect_statement to) state in
    match effect to with Primary => statement_at block data (effect_statement to) state | Before => Ret state end.

Definition forward_apply_effects_in_range (state : D) (block : Z) (data : BasicBlockData) (from to : EffectIndex) : outcome D :=
  let terminator_index := terminator_index data in
  rassert (effect_statement to <=? terminator_index) (rassert (negb (precedes_in_forward_order to from))
    match effect from with
    | Before => forward_range_rest block data (effect_statement from) to state
    | Primary =>
        if effect_statement from =? terminator_index then terminator_at block data terminator_index state
        else
          let! state := statement_at block data (effect_statement from) state in
          if decide (from = to) then Ret state
          else forward_range_rest block data (wadd 64 (effect_statement from) 1) to state
    end).

(** The statement or terminator at [from], for [Backward]: [inl] is the state at an
    early return, [inr] the state and the next statement *)
Definition backward_range_first (block : Z) (data : BasicBlockData) (from to : EffectIndex) (state : D) : outcome (D + D * Z) :=
  let terminator_index := terminator_index data in
  let i := effect_statement from in
  if i =? terminator_index then
    let! (state, done) :=
      match effect from with
      | Before =>
          let! state := before_terminator_at block data i state in
          Ret (state, bool_decide (to = at_index Before terminator_index))
      | Primary => Ret (state, false)
      end in
    if done : bool then Ret (inl state)
    else
      let! state := terminator_at block data i state in
      if decide (to = at_index Primary terminator_index) then Ret (inl state) else Ret (inr (state, wsub 64 i 1))
  else
    match effect from with
    | Primary =>
        let! state := statement_at block data i state in
        if decide (to = at_index Primary i) then Ret (inl state) else Ret (inr (state, wsub 64 i 1))
    | Before => Ret (inr (state, i))
    end.

Definition backward_apply_effects_in_range (state : D) (block : Z) (data : BasicBlockData) (from to : EffectIndex) : outcome D :=
  let terminator_index := terminator_index data in
  rassert (effect_statement from <=? terminator_index) (rassert (negb (precedes_in_backward_order to from))
    (let! next := backward_range_first block data from to state in
     match next with
     | inl state => Ret state
     | inr (state, next_effect) =>
         let! state := fold_outcome (both_at block data)
           ((λ i, i + 1) <$> reverse (range (effect_statement to) next_effect)) state in
         let! state := before_at block data (effect_statement to) state in
         match effect to with Before => Ret state | Primary => statement_at block data (effect_statement to) state end
     end)).

Definition apply_effects_in_range (forward : bool) : D → Z → BasicBlockData → EffectIndex → EffectIndex → outcome D :=
  if forward then forward_apply_effects_in_range else backward_apply_effects_in_range.

(** * The cursor *)

Record CursorPosition : Type := { pos_block : Z; curr_effect_index : option EffectIndex }.

Definition block_entry (block : Z) : CursorPosition := {| pos_block := block; curr_effect_index := None |}.

(** [ResultsCursor], with the entry sets of its results; [reachable_blocks] exists
    with debug assertions only. *)
Record ResultsCursor : Type := {
  entry_sets : list D;
  cursor_state : D;
  pos : CursorPosition;
  state_needs_reset : bool;
}.

Definition get (c : ResultsCursor) : D := cursor_state c.

Definition cursor_new (body : Body) (entry_sets : list D) : ResultsCursor :=
  {| entry_sets := entry_sets; cursor_state := bottom_value analysis body; pos := block_entry START_BLOCK; state_needs_reset := true |}.

Definition entry_set_for_block (entry_sets : list D) (block : Z) : outcome D := index entry_sets (Z.to_nat block).

Definition seek_to_block_entry (c : ResultsCursor) (block : Z) : outcome ResultsCursor :=
  let! state := entry_set_for_block (entry_sets c) block in
  Ret {| entry_sets := entry_sets c; cursor_state := state; pos := block_entry block; state_needs_reset := false |}.

Definition terminator_loc (body : Body) (bb : Z) : outcome Location :=
  let! data := index body (Z.to_nat bb) in Ret {| loc_block := bb; statement_index := length (statements data) |}.

(** The order of locations *)
Definition location_le (a b : Location) : bool :=
  match then_with (loc_block a ?= loc_block b) (statement_index a ?= statement_index b)%nat with Gt => false | _ => true end.

(** Back to the entry of the block if the state has been changed, is that of
    another block or has advanced past the target; [None] when it is the target's. *)
Definition seek_reset (forward : bool) (c : ResultsCursor) (target : Location) (effect_ : Effect) : outcome (option ResultsCursor) :=
  if state_needs_reset c || negb (pos_block (pos c) =? loc_block target) then
    let! c := seek_to_block_entry c (loc_block target) in Ret (Some c)
  else
    match curr_effect_index (pos c) with
    | Some curr =>
        let ord := effect_statement curr ?= Z.of_nat (statement_index target) in
        let ord := if forward then ord else CompOpp ord in
        match then_with ord (effect_cmp (effect curr) effect_) with
        | Eq => Ret None
        | Gt => let! c := seek_to_block_entry c (loc_block target) in Ret (Some c)
        | Lt => Ret (Some c)
        end
    | None => Ret (Some c)
    end.

Definition next_effect (forward : bool) (data : BasicBlockData) (c : ResultsCursor) : EffectIndex :=
  match curr_effect_index (pos c) with
  | Some x => if forward then next_in_forward_order x else next_in_backward_order x
  | None => at_index Before (if forward then 0 else terminator_index data)
  end.

Definition seek_after (forward : bool) (body : Body) (c : ResultsCursor) (target : Location) (effect_ : Effect) : outcome ResultsCursor :=
  let! last := terminator_loc body (loc_block target) in
  rassert (location_le target last)
    (let! o := seek_reset forward c target effect_ in
     match o with
     | None => Ret c
     | Some c =>
         let! data := index body (Z.to_nat (loc_block target)) in
         let target_effect_index := at_index effect_ (Z.of_nat (statement_index target)) in
         let! state := apply_effects_in_range forward (cursor_state c) (loc_block target) data (next_effect forward data c) target_effect_index in
         Ret {| entry_sets := entry_sets c; cursor_state := state;
                pos := {| pos_block := loc_block target; curr_effect_index := Some target_effect_index |};
                state_needs_reset := state_needs_reset c |}
     end).

Definition seek_to_block_start (forward : bool) (body : Body) (c : ResultsCursor) (block : Z) : outcome ResultsCursor :=
  if forward then seek_to_block_entry c block
  else seek_after forward body c {| loc_block := block; statement_index := 0 |} Primary.

Definition seek_to_block_end (forward : bool) (body : Body) (c : ResultsCursor) (block : Z) : outcome ResultsCursor :=
  if negb forward then seek_to_block_entry c block
  else let! last := terminator_loc body block in seek_after forward body c last Primary.

Definition seek_before_primary_effect (forward : bool) (body : Body) (c : ResultsCursor) (target : Location) : outcome ResultsCursor :=
  seek_after forward body c target Before.

Definition seek_after_primary_effect (forward : bool) (body : Body) (c : ResultsCursor) (target : Location) : outcome ResultsCursor :=
  seek_after forward body c target Primary.

Definition apply_custom_effect (c : ResultsCursor) (f : D → outcome D) : outcome ResultsCursor :=
  let! state := f (cursor_state c) in
  Ret {| entry_sets := entry_sets c; cursor_state := state; pos := pos c; state_needs_reset := true |}.

(** * The visitor *)

(** [ResultsVisitor]: the methods with the state of the visitor *)
Record ResultsVisitor (V : Type) : Type := {
  visit_block_start : V → D → BasicBlockData → Z → V;
  visit_statement_before_primary_effect : V → D → Stmt → Location → V;
  visit_statement_after_primary_effect : V → D → Stmt → Location → V;
  visit_terminator_before_primary_effect : V → D → TerminatorKind.t Place Operand → Location → V;
  visit_terminator_after_primary_effect : V → D → TerminatorKind.t Place Operand → Location → V;
  visit_block_end : V → D → BasicBlockData → Z → V;
}.
Arguments visit_block_start {V}.
Arguments visit_statement_before_primary_effect {V}.
Arguments visit_statement_after_primary_effect {V}.
Arguments visit_terminator_before_primary_effect {V}.
Arguments visit_terminator_after_primary_effect {V}.
Arguments visit_block_end {V}.

Section Visitor.
Context {V : Type} (vis : ResultsVisitor V).

Definition visit_statement (block : Z) (acc : V * D) (p : nat * Stmt) : outcome (V * D) :=
  let (v, state) := acc in
  let loc := {| loc_block := block; statement_index := fst p |} in
  let! state := apply_before_statement_effect analysis state (snd p) loc in
  let v := visit_statement_before_primary_effect vis v state (snd p) loc in
  let! state := apply_statement_effect analysis state (snd p) loc in
  Ret (visit_statement_after_primary_effect vis v state (snd p) loc, state).

Definition visit_terminator (block : Z) (data : BasicBlockData) (acc : V * D) : outcome (V * D) :=
  let (v, state) := acc in
  let loc := {| loc_block := block; statement_index := length (statements data) |} in
  let! term := block_terminator data in
  let! state := apply_before_terminator_effect analysis state term loc in
  let v := visit_terminator_before_primary_effect vis v state term loc in
  let! (state, _) := apply_terminator_effect analysis state term loc in
  Ret (visit_terminator_after_primary_effect vis v state term loc, state).

(** Of [Backward] and of [Forward] *)
Definition visit_results_in_block (forward : bool) (entry_sets : list D) (block : Z) (data : BasicBlockData) (v : V) : outcome V :=
  let! state := entry_set_for_block entry_sets block in
  if forward then
    let v := visit_block_start vis v state data block in
    let! acc := fold_outcome (visit_statement block) (enumerate (statements data)) (v, state) in
    let! (v, state) := visit_terminator block data acc in
    Ret (visit_block_end vis v state data block)
  else
    let v := visit_block_end vis v state data block in
    let! acc := visit_terminator block data (v, state) in
    let! (v, state) := fold_outcome (visit_statement block) (reverse (enumerate (statements data))) acc in
    Ret (visit_block_start vis v state data block).

Definition visit_results (forward : bool) (body : Body) (blocks : list Z) (entry_sets : list D) (v : V) : outcome V :=
  fold_outcome (λ v block,
    let! data := index body (Z.to_nat block) in visit_results_in_block forward entry_sets block data v) blocks v.

(** [Results::visit_reachable_with] *)
Definition visit_reachable_with (forward : bool) (body : Body) (entry_sets : list D) (v : V) : outcome V :=
  let! blocks := reachable body in visit_results forward body blocks entry_sets v.

End Visitor.
End Cursor.
