(* ===== verification/CursorProps.v ===== *)
(** * States inside a block

    The effects of a block have an order, and a state inside it is the entry set
    after the effects up to there.  Ranges of effects, the cursor after any history
    of seeks, the visitor and the engine all compute these states. *)

From stdpp Require Import gmap relations.
From S2P Require Import Prelude.
From S2P Require Import Slice.
From S2P Require Import IndexSet.
From S2P Require Import BitSets.
From S2P Require Import BitSetProps.
From S2P Require Import HybridProps.
From S2P Require Import GraphSearch.
From S2P Require Import Graph.
From S2P Require Import GraphProps.
From S2P Require Import Mir.
From S2P Require Import TraversalProps.
From S2P Require Import Dataflow.
From S2P Require Import GenKillProps.
From S2P Require Import DataflowProps.
From S2P Require Import AnalysisProps.
From S2P Require Import Cursor.

(** * The order of effects *)

(** The [k]-th effect of a block with [n] statements *)
Definition effect_number (forward : bool) (n k : nat) : EffectIndex :=
  let i := Nat.div2 k in
  at_index (if Nat.even k then Before else Primary) (Z.of_nat (if forward then i else n - i)).

(** The number of an effect *)
Definition effect_position (forward : bool) (n : nat) (x : EffectIndex) : nat :=
  let i := Z.to_nat (effect_statement x) in
  ((if forward then 2 * i else 2 * (n - i)) + match effect x with Before => 0 | Primary => 1 end)%nat.

Definition parity (e : Effect) : nat := match e with Before => 0 | Primary => 1 end.

Lemma effect_number_eq forward n i e :
  effect_number forward n (2 * i + parity e) = at_index e (Z.of_nat (if forward then i else n - i)).
Proof.
  unfold effect_number. destruct e; cbn [parity].
  - rewrite Nat.add_0_r, Nat.div2_double, Nat.even_mul. done.
  - rewrite Nat.add_1_r, Nat.div2_succ_double, Nat.even_succ, Nat.odd_mul. done.
Qed.

(** Every number is twice a statement, and one more for the primary effect. *)
Lemma number_split k : ∃ i e, k = (2 * i + parity e)%nat.
Proof.
  destruct (Nat.Even_or_Odd k) as [[i ->]|[i ->]]; [exists i, Before|exists i, Primary]; cbn; lia.
Qed.

Lemma position_number forward n k : (k < 2 * S n)%nat → effect_position forward n (effect_number forward n k) = k.
Proof.
  intros Hk. destruct (number_split k) as (i & e & ->). rewrite effect_number_eq. unfold effect_position. cbn [effect_statement effect at_index].
  destruct forward, e; cbn in *; lia.
Qed.

Lemma number_position forward n x : 0 ≤ effect_statement x ≤ Z.of_nat n →
  effect_number forward n (effect_position forward n x) = x ∧ (effect_position forward n x < 2 * S n)%nat.
Proof.
  intros Hx. destruct x as [s e]. unfold effect_position. cbn [effect_statement effect] in *. split.
  - replace ((if forward then 2 * Z.to_nat s else 2 * (n - Z.to_nat s)) + match e with Before => 0 | Primary => 1 end)%nat
      with (2 * (if forward then Z.to_nat s else n - Z.to_nat s) + parity e)%nat by (destruct forward, e; cbn [parity]; lia).
    rewrite effect_number_eq. unfold at_index. f_equal. destruct forward; lia.
  - destruct forward, e; cbn; lia.
Qed.

Lemma precedes_number (forward : bool) (n a b : nat) : (a < 2 * S n)%nat → (b < 2 * S n)%nat →
  (if forward then precedes_in_forward_order else precedes_in_backward_order) (effect_number forward n a) (effect_number forward n b) =
  (a <? b)%nat.
Proof.
  intros Ha Hb. destruct (number_split a) as (i & e & ->), (number_split b) as (j & e' & ->). rewrite !effect_number_eq.
  apply eq_true_iff_eq. rewrite Nat.ltb_lt.
  destruct forward; unfold precedes_in_forward_order, precedes_in_backward_order; cbn [effect_statement effect at_index];
    match goal with |- context [?x ?= ?y] => destruct (Z.compare_spec x y) as [E|E|E] end;
    cbn [then_with]; destruct e, e'; cbn in *; (split; intros H; try done; lia).
Qed.

Section Range.
Context {Stmt Place Operand D : Type}.
Context (analysis : Analysis (Stmt := Stmt) (Place := Place) (Operand := Operand) (D := D)).
Context (forward : bool) (block : Z) (data : BasicBlockData Stmt Place Operand).

(** One effect *)
Definition run_effect (d : D) (x : EffectIndex) : outcome D :=
  let i := effect_statement x in
  if i =? terminator_index data then
    match effect x with Before => before_terminator_at analysis block data i d | Primary => terminator_at analysis block data i d end
  else match effect x with Before => before_at analysis block data i d | Primary => statement_at analysis block data i d end.

(** The effects from the one numbered [a], [len] of them *)
Definition run_effects (a len : nat) (d : D) : outcome D :=
  fold_outcome run_effect (effect_number forward (length (statements data)) <$> seq a len) d.

(** The state behind an effect, from the entry set of the block *)
Definition state_after (x : EffectIndex) (d : D) : outcome D :=
  run_effects 0 (S (effect_position forward (length (statements data)) x)) d.

Lemma run_effects_app a l1 l2 d :
  run_effects a (l1 + l2) d = let! d := run_effects a l1 d in run_effects (a + l1) l2 d.
Proof. unfold run_effects. rewrite seq_app, fmap_app. apply fold_outcome_app. Qed.

Lemma run_effects_one k d : run_effects k 1 d = run_effect d (effect_number forward (length (statements data)) k).
Proof. unfold run_effects. cbn. by destruct (run_effect d _). Qed.
(** The statement of the effects [2 * i] and [2 * i + 1] *)
Definition statement_of (i : nat) : Z := Z.of_nat (if forward then i else length (statements data) - i).

Lemma run_both i d : statement_of i ≠ terminator_index data →
  run_effects (2 * i) 2 d = both_at analysis block data d (statement_of i).
Proof.
  intros Hi. change 2%nat with (1 + 1)%nat at 2. rewrite run_effects_app. rewrite run_effects_one.
  pose proof (effect_number_eq forward (length (statements data)) i Before) as E1. cbn [parity] in E1. rewrite Nat.add_0_r in E1.
  pose proof (effect_number_eq forward (length (statements data)) i Primary) as E2. cbn [parity] in E2. rewrite E1.
  unfold run_effect at 1, both_at. cbn [effect_statement effect at_index]. fold (statement_of i).
  rewrite (proj2 (Z.eqb_neq _ _)) by done. destruct (before_at analysis block data (statement_of i) d) as [d'|]; [|done]. cbn [obind].
  rewrite run_effects_one, E2. unfold run_effect. cbn [effect_statement effect at_index]. fold (statement_of i).
  by rewrite (proj2 (Z.eqb_neq _ _)).
Qed.

Lemma run_statements m : ∀ a d, (∀ i, (a ≤ i < a + m)%nat → statement_of i ≠ terminator_index data) →
  run_effects (2 * a) (2 * m) d = fold_outcome (both_at analysis block data) (statement_of <$> seq a m) d.
Proof.
  induction m as [|m IH]; intros a d Ha; [done|]. replace (2 * S m)%nat with (2 + 2 * m)%nat by lia.
  rewrite run_effects_app, run_both by (apply Ha; lia). cbn [seq fmap list_fmap fold_outcome].
  destruct (both_at analysis block data d (statement_of a)) as [d'|]; [|done]. cbn [obind].
  replace (2 * a + 2)%nat with (2 * S a)%nat by lia. apply IH. intros i Hi. apply Ha. lia.
Qed.

(** The effects of the statement or terminator at [i], up to [e] *)
Lemma run_last i e d :
  run_effects (2 * i) (S (parity e)) d =
    let! d := run_effect d (at_index Before (statement_of i)) in
    match e with Before => Ret d | Primary => run_effect d (at_index Primary (statement_of i)) end.
Proof.
  pose proof (effect_number_eq forward (length (statements data)) i Before) as E1. cbn [parity] in E1. rewrite Nat.add_0_r in E1.
  pose proof (effect_number_eq forward (length (statements data)) i Primary) as E2. cbn [parity] in E2.
  change (S (parity e)) with (1 + parity e)%nat. rewrite run_effects_app, run_effects_one, E1. fold (statement_of i).
  destruct (run_effect d (at_index Before (statement_of i))) as [d'|]; [|done]. cbn [obind]. destruct e; [done|]. cbn [parity].
  by rewrite run_effects_one, E2.
Qed.
End Range.

(** * Ranges of effects *)

Section Ranges.
Context {Stmt Place Operand D : Type}.
Context (analysis : Analysis (Stmt := Stmt) (Place := Place) (Operand := Operand) (D := D)).
Context (block : Z) (data : BasicBlockData Stmt Place Operand).
Abbreviation n := (length (statements data)).

Lemma range_seq (i j : nat) : (i ≤ j)%nat → range (Z.of_nat i) (Z.of_nat j) = Z.of_nat <$> seq i (j - i).
Proof.
  intros Hij. unfold range. replace (Z.of_nat j - Z.of_nat i) with (Z.of_nat (j - i)) by lia. unfold seqZ. rewrite Nat2Z.id.
  rewrite <- (Nat.add_0_r i) at 2. rewrite <- fmap_add_seq, <- list_fmap_compose. apply list_fmap_ext. intros. cbn. lia.
Qed.

Lemma forward_rest_spec i (j : nat) e d : (i ≤ j ≤ n)%nat →
  forward_range_rest analysis block data (Z.of_nat i) (at_index e (Z.of_nat j)) d =
  run_effects analysis true block data (2 * i) (2 * (j - i) + S (parity e)) d.
Proof.
  intros Hij. unfold forward_range_rest. cbn [effect_statement effect at_index]. rewrite range_seq by lia.
  rewrite run_effects_app, run_statements. 2: { intros k Hk. unfold statement_of, terminator_index. lia. }
  change (statement_of true data <$> seq i (j - i)) with (Z.of_nat <$> seq i (j - i)).
  destruct (fold_outcome _ _ d) as [d'|]; [|done]. cbn [obind]. replace (2 * i + 2 * (j - i))%nat with (2 * j)%nat by lia.
  rewrite run_last. unfold run_effect. cbn [effect_statement effect at_index]. change (statement_of true data j) with (Z.of_nat j).
  by destruct (Z.of_nat j =? terminator_index data).
Qed.

Lemma forward_range_spec a b d : (a ≤ b < 2 * S n)%nat → Z.of_nat n < 2 ^ 64 →
  forward_apply_effects_in_range analysis d block data (effect_number true n a) (effect_number true n b) =
  run_effects analysis true block data a (S b - a) d.
Proof.
  intros Hab Hn. unfold forward_apply_effects_in_range.
  rewrite (precedes_number true) by lia. rewrite (proj2 (Nat.ltb_ge _ _)) by lia.
  destruct (number_split a) as (i & e & ->), (number_split b) as (j & e' & ->). rewrite !effect_number_eq.
  cbn [effect_statement effect at_index]. unfold terminator_index at 1. rewrite (proj2 (Z.leb_le _ _)) by (destruct e'; cbn in Hab; lia).
  cbn [negb rassert]. destruct e; cbn [parity] in Hab |- *.
  - rewrite forward_rest_spec by (destruct e'; cbn in Hab; lia). rewrite Nat.add_0_r. f_equal. destruct e'; cbn [parity] in *; lia.
  - destruct (Z.eqb_spec (Z.of_nat i) (terminator_index data)) as [Ei|Ei]; unfold terminator_index in Ei.
    + assert (i = n) as -> by lia. assert (j = n ∧ e' = Primary) as [-> ->] by (destruct e'; cbn in Hab; split; [lia|lia|lia|done]).
      replace (S (2 * n + parity Primary) - (2 * n + 1))%nat with 1%nat by (cbn; lia). rewrite run_effects_one.
      rewrite (effect_number_eq true _ n Primary). unfold run_effect. cbn [effect_statement effect at_index].
      unfold terminator_index. by rewrite Z.eqb_refl.
    + assert (run_effects analysis true block data (2 * i + 1) 1 d = statement_at analysis block data (Z.of_nat i) d) as E1.
      { rewrite run_effects_one, (effect_number_eq true _ i Primary). unfold run_effect. cbn [effect_statement effect at_index].
        rewrite (proj2 (Z.eqb_neq _ _)); [done|]. unfold terminator_index. lia. }
      replace (S (2 * j + parity e') - (2 * i + 1))%nat with (1 + (2 * j + parity e' - (2 * i + 1)))%nat by lia.
      rewrite run_effects_app, E1. destruct (statement_at analysis block data (Z.of_nat i) d) as [d'|]; [|done]. cbn [obind].
      destruct (decide (at_index Primary (Z.of_nat i) = at_index e' (Z.of_nat j))) as [E|E].
      * injection E as E <-. assert (i = j) as -> by lia. cbn [parity]. by rewrite Nat.sub_diag.
      * assert (i < j)%nat as Hlt.
        { destruct (decide (i = j)) as [->|]; [|destruct e'; cbn in Hab; lia]. destruct e'; cbn in Hab; [lia|done]. }
        assert (wadd 64 (Z.of_nat i) 1 = Z.of_nat (S i)) as ->.
        { unfold wadd, wrap. rewrite Z.mod_small; [lia|]. destruct e'; cbn in Hab; lia. }
        rewrite forward_rest_spec by (destruct e'; cbn in Hab; lia). f_equal; lia.
Qed.
Lemma range_backward i m : (i + m ≤ n)%nat →
  (λ i, i + 1) <$> reverse (range (Z.of_nat (n - (i + m))) (Z.of_nat (n - i))) = statement_of false data <$> seq i m.
Proof.
  induction m as [|m IH]; intros Hm.
  { unfold range. rewrite Nat.add_0_r, Z.sub_diag. done. }
  rewrite seq_S, fmap_app, <- IH by lia. unfold range. rewrite seqZ_cons by lia.
  rewrite reverse_cons, fmap_app. cbn. unfold statement_of. f_equal; [do 3 f_equal; lia|]. f_equal. lia.
Qed.

Definition backward_range_rest (next : Z) (to : EffectIndex) (d : D) : outcome D :=
  let! state := fold_outcome (both_at analysis block data) ((λ i, i + 1) <$> reverse (range (effect_statement to) next)) d in
  let! state := before_at analysis block data (effect_statement to) state in
  match effect to with Before => Ret state | Primary => statement_at analysis block data (effect_statement to) state end.

Lemma backward_rest_spec i (j : nat) e d : (0 < i ≤ j)%nat → (j ≤ n)%nat →
  backward_range_rest (Z.of_nat (n - i)) (at_index e (Z.of_nat (n - j))) d =
  run_effects analysis false block data (2 * i) (2 * (j - i) + S (parity e)) d.
Proof.
  intros Hij Hj. unfold backward_range_rest. cbn [effect_statement effect at_index].
  replace (n - j)%nat with (n - (i + (j - i)))%nat at 1 by lia. rewrite range_backward by lia.
  rewrite run_effects_app, run_statements. 2: { intros k Hk. unfold statement_of, terminator_index. lia. }
  destruct (fold_outcome _ _ d) as [d'|]; [|done]. cbn [obind]. replace (2 * i + 2 * (j - i))%nat with (2 * j)%nat by lia.
  rewrite run_last. unfold run_effect. cbn [effect_statement effect at_index]. change (statement_of false data j) with (Z.of_nat (n - j)).
  by rewrite (proj2 (Z.eqb_neq _ _)) by (unfold terminator_index; lia).
Qed.

(** The number of an effect decides whether the range ends there. *)
Lemma number_eq b i e : (b < 2 * S n)%nat → (i ≤ n)%nat →
  effect_number false n b = at_index e (Z.of_nat (n - i)) ↔ b = (2 * i + parity e)%nat.
Proof.
  intros Hb Hi. rewrite <- effect_number_eq with (forward := false). split; [|by intros ->]. intros E.
  apply (f_equal (effect_position false n)) in E. rewrite !position_number in E by (destruct e; cbn; lia). done.
Qed.

Lemma run_primary i d : run_effects analysis false block data (2 * i + 1) 1 d =
  run_effect analysis block data d (at_index Primary (Z.of_nat (n - i))).
Proof. by rewrite run_effects_one, (effect_number_eq false _ i Primary). Qed.

(** The effects at [from], and where the loop starts *)
Lemma backward_first_primary i b d : (2 * i + 1 ≤ b < 2 * S n)%nat → Z.of_nat n < 2 ^ 64 →
  backward_range_first analysis block data (at_index Primary (Z.of_nat (n - i))) (effect_number false n b) d =
  let! d := run_effects analysis false block data (2 * i + 1) 1 d in
  if (b =? 2 * i + 1)%nat then Ret (inl d) else Ret (inr (d, Z.of_nat (n - S i))).
Proof.
  intros Hb Hn. rewrite run_primary. unfold backward_range_first, run_effect. cbn [effect_statement effect at_index].
  pose proof (number_eq b i Primary ltac:(lia) ltac:(lia)) as Heq. cbn [parity] in Heq.
  assert (b ≠ 2 * i + 1 → wsub 64 (Z.of_nat (n - i)) 1 = Z.of_nat (n - S i))%nat as Hsub.
  { intros Hne. unfold wsub, wrap. rewrite Z.mod_small; lia. }
  destruct (Z.eqb_spec (Z.of_nat (n - i)) (terminator_index data)) as [E|E]; cbn [obind].
  - rewrite <- E. destruct (terminator_at _ _ _ _ d) as [d'|]; [|done]. cbn [obind].
    destruct (Nat.eqb_spec b (2 * i + 1)) as [Hbe|Hbe]; [by rewrite decide_True by tauto|].
    rewrite decide_False by tauto. by rewrite Hsub.
  - destruct (statement_at _ _ _ _ d) as [d'|]; [|done]. cbn [obind].
    destruct (Nat.eqb_spec b (2 * i + 1)) as [Hbe|Hbe]; [by rewrite decide_True by tauto|].
    rewrite decide_False by tauto. by rewrite Hsub.
Qed.

Lemma backward_first_terminator b d : (b < 2 * S n)%nat → Z.of_nat n < 2 ^ 64 →
  backward_range_first analysis block data (at_index Before (Z.of_nat n)) (effect_number false n b) d =
  let! d := run_effects analysis false block data 0 1 d in
  if (b =? 0)%nat then Ret (inl d)
  else backward_range_first analysis block data (at_index Primary (Z.of_nat n)) (effect_number false n b) d.
Proof.
  intros Hb Hn. rewrite run_effects_one. rewrite (effect_number_eq false _ 0 Before : effect_number _ _ 0 = _). rewrite Nat.sub_0_r.
  unfold backward_range_first, run_effect. cbn [effect_statement effect at_index]. change (terminator_index data) with (Z.of_nat n).
  rewrite Z.eqb_refl. destruct (before_terminator_at _ _ _ _ d) as [d'|]; [|done]. cbn [obind].
  pose proof (number_eq b 0 Before ltac:(lia) ltac:(lia)) as Heq. rewrite Nat.sub_0_r in Heq. cbn [parity] in Heq.
  destruct (Nat.eqb_spec b 0) as [->|Hne].
  - rewrite bool_decide_eq_true_2 by (apply Heq; lia). done.
  - rewrite bool_decide_eq_false_2 by (rewrite Heq; lia). done.
Qed.

Lemma backward_range_spec a b d : (a ≤ b < 2 * S n)%nat → Z.of_nat n < 2 ^ 64 →
  backward_apply_effects_in_range analysis d block data (effect_number false n a) (effect_number false n b) =
  run_effects analysis false block data a (S b - a) d.
Proof.
  intros Hab Hn. unfold backward_apply_effects_in_range.
  rewrite (precedes_number false) by lia. rewrite (proj2 (Nat.ltb_ge _ _)) by lia.
  assert (effect_statement (effect_number false n a) ≤ terminator_index data) as Hle.
  { unfold effect_number, terminator_index. cbn [effect_statement at_index]. apply inj_le, Nat.le_sub_l. }
  rewrite (proj2 (Z.leb_le _ _)) by done. cbn [negb rassert].
  (* from the loop on *)
  assert (∀ i d, (0 < i)%nat → (2 * i ≤ b)%nat →
    backward_range_rest (Z.of_nat (n - i)) (effect_number false n b) d = run_effects analysis false block data (2 * i) (S b - 2 * i) d) as Hrest.
  { intros i d' Hi Hib. destruct (number_split b) as (j & e & ->). rewrite effect_number_eq.
    rewrite backward_rest_spec by (destruct e; cbn in *; lia). f_equal. destruct e; cbn in *; lia. }
  assert (∀ i d, (2 * i + 1 ≤ b)%nat →
    (let! next := backward_range_first analysis block data (at_index Primary (Z.of_nat (n - i))) (effect_number false n b) d in
     match next with inl d => Ret d | inr (d, next) => backward_range_rest next (effect_number false n b) d end) =
    run_effects analysis false block data (2 * i + 1) (S b - (2 * i + 1)) d) as Hprim.
  { intros i d' Hi. rewrite backward_first_primary by lia.
    replace (S b - (2 * i + 1))%nat with (1 + (b - (2 * i + 1)))%nat by lia. rewrite run_effects_app.
    destruct (run_effects _ _ _ _ (2 * i + 1) 1 d') as [d1|]; [|done]. cbn [obind].
    destruct (Nat.eqb_spec b (2 * i + 1)) as [->|Hne]; cbn [obind]; [by rewrite Nat.sub_diag|].
    rewrite Hrest by lia. f_equal; lia. }
  destruct (number_split a) as (i & e & ->). rewrite effect_number_eq. destruct e; cbn [parity] in *; [|exact (Hprim i d ltac:(lia))].
  rewrite Nat.add_0_r in *. destruct i as [|i].
  - rewrite Nat.sub_0_r, backward_first_terminator by lia. replace (S b - 2 * 0)%nat with (1 + b)%nat by lia. rewrite run_effects_app.
    change (2 * 0)%nat with 0%nat. destruct (run_effects _ _ _ _ 0 1 d) as [d1|]; [|done]. cbn [obind].
    destruct (Nat.eqb_spec b 0) as [->|Hne]; [done|]. specialize (Hprim 0%nat d1 ltac:(lia)). rewrite Nat.sub_0_r in Hprim.
    etrans; [exact Hprim|]. f_equal; lia.
  - unfold backward_range_first. cbn [effect_statement effect at_index].
    rewrite (proj2 (Z.eqb_neq _ _)) by (unfold terminator_index; lia). cbn [obind]. apply Hrest; lia.
Qed.

Lemma range_spec forward a b d : (a ≤ b < 2 * S n)%nat → Z.of_nat n < 2 ^ 64 →
  apply_effects_in_range analysis forward d block data (effect_number forward n a) (effect_number forward n b) =
  run_effects analysis forward block data a (S b - a) d.
Proof. destruct forward; [apply forward_range_spec|apply backward_range_spec]. Qed.
End Ranges.

(** * The cursor *)

Lemma next_number (forward : bool) (n k : nat) : (S k < 2 * S n)%nat → Z.of_nat n < 2 ^ 64 →
  (if forward then next_in_forward_order else next_in_backward_order) (effect_number forward n k) = effect_number forward n (S k).
Proof.
  intros Hk Hn. destruct (number_split k) as (i & e & ->). destruct e; cbn [parity] in *.
  - replace (S (2 * i + 0))%nat with (2 * i + parity Primary)%nat by (cbn; lia). rewrite !(effect_number_eq forward n i Primary).
    pose proof (effect_number_eq forward n i Before) as E. cbn [parity] in E. rewrite E. by destruct forward.
  - replace (S (2 * i + 1))%nat with (2 * S i + parity Before)%nat by (cbn; lia). rewrite !(effect_number_eq forward n (S i) Before).
    pose proof (effect_number_eq forward n i Primary) as E. cbn [parity] in E. rewrite E.
    destruct forward; unfold next_in_forward_order, next_in_backward_order; cbn [effect effect_statement at_index]; f_equal;
      unfold wadd, wsub, wrap; rewrite Z.mod_small; lia.
Qed.

Lemma compare_position (forward : bool) (n : nat) x y : 0 ≤ effect_statement x ≤ Z.of_nat n → 0 ≤ effect_statement y ≤ Z.of_nat n →
  then_with (if forward then effect_statement x ?= effect_statement y else CompOpp (effect_statement x ?= effect_statement y))
    (effect_cmp (effect x) (effect y)) =
  (effect_position forward n x ?= effect_position forward n y)%nat.
Proof.
  intros Hx Hy. destruct x as [i e], y as [j e']. unfold effect_position. cbn [effect_statement effect] in *. symmetry.
  destruct forward; destruct (Z.compare_spec i j) as [E|E|E]; destruct e, e'; cbn [then_with CompOpp effect_cmp];
    rewrite ?Nat.compare_eq_iff, ?Nat.compare_lt_iff, ?Nat.compare_gt_iff; lia.
Qed.

Section Cursor.
Context {Stmt Place Operand D : Type}.
Context (analysis : Analysis (Stmt := Stmt) (Place := Place) (Operand := Operand) (D := D)).
Context (forward : bool) (body : list (BasicBlockData Stmt Place Operand)) (es : list D).

(** A vector has fewer elements than there are addresses. *)
Definition blocks_fit : Prop := Forall (λ data, Z.of_nat (length (statements data)) < 2 ^ 64) body.

Hypothesis Hfit : blocks_fit.

(** The state is that of the position, unless it has been changed. *)
Definition cursor_ok (c : ResultsCursor (D := D)) : Prop :=
  entry_sets c = es ∧
  (state_needs_reset c = false →
    ∃ d0, es !! Z.to_nat (pos_block (pos c)) = Some d0 ∧
      match curr_effect_index (pos c) with
      | None => cursor_state c = d0
      | Some x => ∃ data, body !! Z.to_nat (pos_block (pos c)) = Some data ∧
          0 ≤ effect_statement x ≤ Z.of_nat (length (statements data)) ∧
          state_after analysis forward (pos_block (pos c)) data x d0 = Ret (cursor_state c)
      end).

Lemma cursor_new_ok : cursor_ok (cursor_new analysis body es).
Proof. split; done. Qed.

Lemma seek_entry_spec c bb : cursor_ok c →
  seek_to_block_entry c bb = let! d0 := index es (Z.to_nat bb) in
    Ret {| entry_sets := es; cursor_state := d0; pos := block_entry bb; state_needs_reset := false |}.
Proof. intros [<- _]. done. Qed.

(** The rest of a seek, from a state that is not past the target *)
Lemma seek_rest bb data d0 (cur : option EffectIndex) state target :
  body !! Z.to_nat bb = Some data → 0 ≤ effect_statement target ≤ Z.of_nat (length (statements data)) →
  match cur with
  | None => state = d0
  | Some x => 0 ≤ effect_statement x ≤ Z.of_nat (length (statements data)) ∧
      (effect_position forward (length (statements data)) x < effect_position forward (length (statements data)) target)%nat ∧
      state_after analysis forward bb data x d0 = Ret state
  end →
  let from := match cur with
    | Some x => (if forward then next_in_forward_order else next_in_backward_order) x
    | None => at_index Before (if forward then 0 else terminator_index data)
    end in
  apply_effects_in_range analysis forward state bb data from target = state_after analysis forward bb data target d0.
Proof.
  intros Hd Ht Hcur from. assert (Z.of_nat (length (statements data)) < 2 ^ 64) as Hn by (by apply (Forall_lookup_1 _ _ _ _ Hfit Hd)).
  set (n := length (statements data)) in *. destruct (number_position forward n target Ht) as [Et Hlt].
  set (b := effect_position forward n target) in *. rewrite <- Et.
  unfold state_after. fold n. rewrite position_number by done. destruct cur as [x|].
  - destruct Hcur as (Hx & Hxb & Hst). destruct (number_position forward n x Hx) as [Ex Hxlt].
    unfold state_after in Hst. fold n in Hst. set (a := effect_position forward n x) in *.
    assert (from = effect_number forward n (S a)) as -> by (unfold from; rewrite <- Ex; apply next_number; lia).
    unfold n; rewrite range_spec by (fold n; lia); fold n. replace (S b) with (S a + (b - a))%nat at 2 by lia.
    rewrite run_effects_app, Hst. cbn [obind]. f_equal; lia.
  - subst state. assert (from = effect_number forward n 0) as ->.
    { unfold from, effect_number, terminator_index. fold n. cbn. destruct forward; [done|]. by rewrite Nat.sub_0_r. }
    unfold n; rewrite range_spec by (fold n; lia); fold n. done.
Qed.

(** A seek computes the state of its target, whatever the cursor did before. *)
Lemma seek_after_spec c bb i data e : cursor_ok c → body !! Z.to_nat bb = Some data → (i ≤ length (statements data))%nat →
  seek_after analysis forward body c {| loc_block := bb; statement_index := i |} e =
    let! d0 := index es (Z.to_nat bb) in
    let! d := state_after analysis forward bb data (at_index e (Z.of_nat i)) d0 in
    Ret {| entry_sets := es; cursor_state := d; pos := {| pos_block := bb; curr_effect_index := Some (at_index e (Z.of_nat i)) |};
           state_needs_reset := false |}.
Proof.
  intros Hc Hd Hi. unfold seek_after, terminator_loc. cbn [loc_block statement_index]. unfold index at 1. rewrite Hd. cbn [unwrap obind].
  assert (location_le {| loc_block := bb; statement_index := i |} {| loc_block := bb; statement_index := length (statements data) |} = true) as ->.
  { unfold location_le. cbn. rewrite Z.compare_refl. cbn. destruct (Nat.compare_spec i (length (statements data))); [done|done|lia]. }
  cbn [rassert]. set (target := at_index e (Z.of_nat i)).
  assert (0 ≤ effect_statement target ≤ Z.of_nat (length (statements data))) as Ht by (cbn; lia).
  assert ((let! o := (let! c := seek_to_block_entry c bb in Ret (Some c)) in
     match o with
     | None => Ret c
     | Some c =>
         let! data := index body (Z.to_nat bb) in
         let! state := apply_effects_in_range analysis forward (cursor_state c) bb data (next_effect forward data c) target in
         Ret {| entry_sets := entry_sets c; cursor_state := state; pos := {| pos_block := bb; curr_effect_index := Some target |};
                state_needs_reset := state_needs_reset c |}
     end) = let! d0 := index es (Z.to_nat bb) in
    let! d := state_after analysis forward bb data target d0 in
    Ret {| entry_sets := es; cursor_state := d; pos := {| pos_block := bb; curr_effect_index := Some target |};
           state_needs_reset := false |}) as Hreset.
  { rewrite (seek_entry_spec c bb Hc). destruct (index es (Z.to_nat bb)) as [d0|]; [|done]. cbn [obind]. unfold index. rewrite Hd. cbn [unwrap obind].
    unfold next_effect. cbn [curr_effect_index pos block_entry cursor_state entry_sets state_needs_reset].
    by rewrite (seek_rest bb data d0 None d0 target Hd Ht). }
  unfold seek_reset. cbn [loc_block statement_index]. destruct Hc as [He Hst]. destruct (state_needs_reset c) eqn:Er; cbn [orb]; [exact Hreset|].
  destruct (Z.eqb_spec (pos_block (pos c)) bb) as [Hbb|Hbb]; cbn [negb]; [|exact Hreset].
  destruct (Hst eq_refl) as (d0 & Hd0 & Hcur). rewrite Hbb in Hd0, Hcur.
  destruct (curr_effect_index (pos c)) as [x|] eqn:Ecur.
  - destruct Hcur as (data' & Hd' & Hx & Hrun). rewrite Hd in Hd'. injection Hd' as <-.
    pose proof (compare_position forward (length (statements data)) x target Hx Ht) as Hcmp. cbn [effect_statement effect target at_index] in Hcmp.
    rewrite Hcmp. clear Hcmp. destruct (Nat.compare_spec (effect_position forward (length (statements data)) x)
      (effect_position forward (length (statements data)) target)) as [Ecmp|Ecmp|Ecmp]; [|clear Hreset|exact Hreset].
    + assert (x = target) as ->.
      { destruct (number_position forward _ x Hx) as [<- _]. destruct (number_position forward _ target Ht) as [<- _]. by rewrite Ecmp. }
      cbn [obind]. unfold index. rewrite Hd0. cbn [unwrap obind]. rewrite Hrun. cbn [obind].
      f_equal. destruct c as [ces cst [cb cc] cr]. cbn in *. by subst.
    + cbn [obind]. unfold index. rewrite Hd, Hd0. cbn [unwrap obind]. unfold next_effect. rewrite Ecur.
      pose proof (seek_rest bb data d0 (Some x) (cursor_state c) target Hd Ht (conj Hx (conj Ecmp Hrun))) as Hrest. cbn zeta in Hrest.
      destruct forward; rewrite Hrest, Er, He; done.
  - clear Hreset. cbn [obind]. unfold index. rewrite Hd, Hd0. cbn [unwrap obind]. unfold next_effect. rewrite Ecur.
    pose proof (seek_rest bb data d0 None (cursor_state c) target Hd Ht Hcur) as Hrest. cbn zeta in Hrest.
    by rewrite Hrest, Er, He.
Qed.
(** ** Histories *)

Inductive cursor_op : Type :=
| SeekStart (bb : Z)
| SeekEnd (bb : Z)
| SeekBefore (target : Location)
| SeekAfter (target : Location)
| Custom (f : D → outcome D).

Definition run_op (c : ResultsCursor) (op : cursor_op) : outcome ResultsCursor :=
  match op with
  | SeekStart bb => seek_to_block_start analysis forward body c bb
  | SeekEnd bb => seek_to_block_end analysis forward body c bb
  | SeekBefore target => seek_before_primary_effect analysis forward body c target
  | SeekAfter target => seek_after_primary_effect analysis forward body c target
  | Custom f => apply_custom_effect c f
  end.

Lemma seek_entry_ok c bb c' : cursor_ok c → seek_to_block_entry c bb = Ret c' → cursor_ok c'.
Proof.
  intros Hc. rewrite (seek_entry_spec c bb Hc). unfold index. destruct (es !! Z.to_nat bb) as [d0|] eqn:E; [|done]. cbn.
  intros [= <-]. split; [done|]. intros _. by exists d0.
Qed.

Lemma seek_after_ok c target e c' : cursor_ok c → seek_after analysis forward body c target e = Ret c' → cursor_ok c'.
Proof.
  intros Hc Hs. destruct target as [bb i]. destruct (body !! Z.to_nat bb) as [data|] eqn:Ed.
  2: { unfold seek_after, terminator_loc, index in Hs. cbn in Hs. by rewrite Ed in Hs. }
  destruct (decide (i ≤ length (statements data))%nat) as [Hi|Hi].
  - rewrite (seek_after_spec c bb i data e Hc Ed Hi) in Hs. unfold index in Hs. destruct (es !! Z.to_nat bb) as [d0|] eqn:E; [|done]. cbn [unwrap obind] in Hs.
    destruct (state_after _ _ _ _ _ d0) as [d|] eqn:Est; [|done]. injection Hs as <-. split; [done|]. intros _. exists d0. split; [done|].
    cbn. exists data. split; [done|]. split; [lia|done].
  - unfold seek_after, terminator_loc, index in Hs. cbn [loc_block] in Hs. rewrite Ed in Hs. cbn [unwrap obind] in Hs.
    unfold location_le in Hs. cbn [loc_block statement_index] in Hs. rewrite Z.compare_refl in Hs. cbn [then_with] in Hs.
    rewrite (proj2 (Nat.compare_gt_iff _ _)) in Hs by lia. done.
Qed.

Lemma run_op_ok c op c' : cursor_ok c → run_op c op = Ret c' → cursor_ok c'.
Proof.
  intros Hc. destruct op as [bb|bb|target|target|f]; cbn [run_op].
  - unfold seek_to_block_start. destruct forward eqn:Ef; [by apply seek_entry_ok|]. rewrite <- Ef. by apply seek_after_ok.
  - unfold seek_to_block_end. destruct forward eqn:Ef; cbn [negb]; [|by apply seek_entry_ok]. destruct (terminator_loc body bb); [|done].
    cbn [obind]. rewrite <- Ef. by apply seek_after_ok.
  - by apply seek_after_ok.
  - by apply seek_after_ok.
  - unfold apply_custom_effect. destruct (f (cursor_state c)); [|done]. cbn. intros [= <-]. split; [by apply Hc|done].
Qed.

Lemma run_ops_ok ops : ∀ c c', cursor_ok c → fold_outcome run_op ops c = Ret c' → cursor_ok c'.
Proof.
  induction ops as [|op ops IH]; intros c c' Hc Hr; [by injection Hr as <-|]. cbn [fold_outcome] in Hr.
  destruct (run_op c op) as [c1|] eqn:E; [|done]. eapply IH; [|exact Hr]. by eapply run_op_ok.
Qed.
End Cursor.

(** * The engine and the visitor *)

Section Block.
Context {Stmt Place Operand D : Type}.
Context (analysis : Analysis (Stmt := Stmt) (Place := Place) (Operand := Operand) (D := D)).
Context (forward : bool) (block : Z) (data : BasicBlockData Stmt Place Operand).
Abbreviation n := (length (statements data)).

Lemma fold_outcome_map {A B C} (f : C → A → outcome C) (g : C → B → outcome C) (h : A → B) (l : list A) :
  (∀ x c, x ∈ l → f c x = g c (h x)) → ∀ c, fold_outcome f l c = fold_outcome g (h <$> l) c.
Proof.
  induction l as [|x l IH]; intros Hfg c; [done|]. cbn [fold_outcome fmap list_fmap]. rewrite Hfg by left.
  destruct (g c (h x)); [|done]. cbn [obind]. apply IH. intros y c' Hy. apply Hfg. by right.
Qed.

(** The statements of the block in the direction *)
Definition directed : list (nat * Stmt) := if forward then enumerate (statements data) else reverse (enumerate (statements data)).

(** The number of the first statement *)
Definition first_statement : nat := if forward then 0 else 1.

Lemma directed_numbers : (λ p, Z.of_nat (fst p)) <$> directed = statement_of forward data <$> seq first_statement n.
Proof.
  unfold directed, first_statement, statement_of. assert ((λ p : nat * Stmt, Z.of_nat p.1) <$> enumerate (statements data) = Z.of_nat <$> seq 0 n) as E.
  { unfold enumerate. etrans; [apply (list_fmap_compose fst Z.of_nat)|]. f_equal. apply fst_zip. rewrite length_seq. done. }
  destruct forward; [done|]. rewrite fmap_reverse, E, <- fmap_reverse. symmetry. etrans; [apply (list_fmap_compose (λ i, n - i)%nat Z.of_nat)|]. f_equal. symmetry.
  apply list_eq. intros i. rewrite list_lookup_fmap. destruct (decide (i < n)%nat) as [Hi|Hi].
  - rewrite (lookup_seq_lt 1) by done. rewrite reverse_lookup by (by rewrite length_seq). rewrite length_seq, lookup_seq_lt by lia. cbn. f_equal; lia.
  - rewrite !lookup_ge_None_2; rewrite ?length_fmap, ?length_reverse, ?length_seq; try lia. done.
Qed.

Lemma directed_elem i s : (i, s) ∈ directed → statements data !! i = Some s.
Proof. unfold directed. destruct forward; rewrite ?elem_of_reverse; by rewrite enumerate_at. Qed.

Lemma before_terminator_number d : run_effect analysis block data d (at_index Before (Z.of_nat n)) = before_terminator_at analysis block data (Z.of_nat n) d.
Proof. unfold run_effect, terminator_index. cbn [effect_statement effect at_index]. by rewrite Z.eqb_refl. Qed.

Lemma terminator_number d : run_effect analysis block data d (at_index Primary (Z.of_nat n)) = terminator_at analysis block data (Z.of_nat n) d.
Proof. unfold run_effect, terminator_index. cbn [effect_statement effect at_index]. by rewrite Z.eqb_refl. Qed.

(** ** The engine *)

(** The last effect of the block *)
Definition block_exit : EffectIndex := at_index Primary (if forward then Z.of_nat n else 0).

Lemma exit_position : effect_position forward n block_exit = (2 * n + 1)%nat.
Proof. unfold effect_position, block_exit. cbn. destruct forward; lia. Qed.

Lemma statement_effects_run d :
  statement_effects analysis block directed None d = run_effects analysis forward block data (2 * first_statement) (2 * n) d.
Proof.
  rewrite run_statements.
  2: { intros i Hi. unfold statement_of, terminator_index, first_statement in *. destruct forward; lia. }
  rewrite <- directed_numbers. apply fold_outcome_map. intros [i s] c Hin%directed_elem. unfold apply_statement, both_at, before_at, statement_at.
  cbn [fst snd]. unfold index, location_at. rewrite Nat2Z.id, Hin. cbn [unwrap obind]. done.
Qed.

Lemma terminator_effects_run d :
  fst_of (terminator_effects analysis block data d) = run_effects analysis forward block data (if forward then 2 * n else 0) 2 d.
Proof.
  assert (run_effects analysis forward block data (if forward then 2 * n else 0) 2 d =
    run_effects analysis forward block data (2 * (if forward then n else 0)) (S (parity Primary)) d) as ->.
  { destruct forward; done. }
  rewrite run_last. unfold statement_of. replace (if forward then if forward then n else 0%nat else (n - (if forward then n else 0))%nat) with n
    by (destruct forward; lia).
  rewrite before_terminator_number. unfold terminator_effects, before_terminator_at, location_at. rewrite Nat2Z.id.
  destruct (block_terminator data) as [t|] eqn:Et; [|done]. cbn [obind].
  destruct (apply_before_terminator_effect _ d t _) as [d'|]; [|done]. cbn [obind]. rewrite terminator_number.
  unfold terminator_at, location_at. rewrite Et, Nat2Z.id. done.
Qed.

(** The state that the engine propagates is the one behind the last effect. *)
Lemma engine_state d :
  fst_of (if forward then forward_apply_effects_in_block analysis d block data None
          else backward_apply_effects_in_block analysis d block data None) =
  state_after analysis forward block data block_exit d.
Proof.
  unfold state_after. rewrite exit_position. pose proof statement_effects_run as Hst. pose proof terminator_effects_run as Htm.
  unfold directed, first_statement in Hst. destruct forward.
  - replace (S (2 * n + 1)) with (2 * n + 2)%nat by lia. rewrite run_effects_app. change (2 * 0)%nat with 0%nat in Hst.
    unfold forward_apply_effects_in_block. rewrite Hst. destruct (run_effects _ _ _ _ 0 _ d); [|done]. cbn [obind]. apply Htm.
  - replace (S (2 * n + 1)) with (2 + 2 * n)%nat by lia. rewrite run_effects_app. rewrite <- Htm.
    unfold backward_apply_effects_in_block. destruct (terminator_effects analysis block data d) as [[d' e]|]; [|done]. cbn [fst_of obind].
    change (0 + 2)%nat with (2 * 1)%nat. rewrite <- Hst. by destruct (statement_effects analysis block _ None d').
Qed.
(** ** The visitor *)

(** What a visitor is called with *)
Inductive visit : Type := AtStart (d : D) | AtEnd (d : D) | At (loc : Location) (e : Effect) (d : D).

(** The visitor that records its calls *)
Definition recorder : ResultsVisitor (Stmt := Stmt) (Place := Place) (Operand := Operand) (D := D) (list visit) := {|
  visit_block_start v d _ _ := v ++ [AtStart d];
  visit_statement_before_primary_effect v d _ loc := v ++ [At loc Before d];
  visit_statement_after_primary_effect v d _ loc := v ++ [At loc Primary d];
  visit_terminator_before_primary_effect v d _ loc := v ++ [At loc Before d];
  visit_terminator_after_primary_effect v d _ loc := v ++ [At loc Primary d];
  visit_block_end v d _ _ := v ++ [AtEnd d];
|}.

Definition record_effect (acc : list visit * D) (x : EffectIndex) : outcome (list visit * D) :=
  let! d := run_effect analysis block data (snd acc) x in
  Ret (fst acc ++ [At (location_at block (effect_statement x)) (effect x) d], d).

Definition record_effects (a len : nat) (acc : list visit * D) : outcome (list visit * D) :=
  fold_outcome record_effect (effect_number forward n <$> seq a len) acc.

Lemma record_run len : ∀ a v d d', run_effects analysis forward block data a len d = Ret d' →
  ∃ tr, record_effects a len (v, d) = Ret (v ++ tr, d') ∧ length tr = len ∧
    ∀ k, (k < len)%nat → ∃ dk, let x := effect_number forward n (a + k) in
      tr !! k = Some (At (location_at block (effect_statement x)) (effect x) dk) ∧
      run_effects analysis forward block data a (S k) d = Ret dk.
Proof.
  induction len as [|len IH]; intros a v d d' Hr.
  { injection Hr as <-. exists []. split; [by rewrite app_nil_r|]. split; [done|]. intros k Hk. lia. }
  change (S len) with (1 + len)%nat in Hr. rewrite run_effects_app, run_effects_one in Hr.
  destruct (run_effect analysis block data d (effect_number forward n a)) as [d1|] eqn:E1; [|done]. cbn [obind] in Hr.
  rewrite Nat.add_1_r in Hr.
  set (x := effect_number forward n a) in *. set (m := At (location_at block (effect_statement x)) (effect x) d1).
  destruct (IH (S a) (v ++ [m]) d1 d' Hr) as (tr & Htr & Hlen & Hk). exists (m :: tr).
  split; [|split; [by cbn; rewrite Hlen|]].
  - unfold record_effects. cbn [seq fmap list_fmap fold_outcome]. unfold record_effect at 1. cbn [fst snd]. fold x. rewrite E1. cbn [obind].
    fold m. unfold record_effects in Htr. rewrite Htr. by rewrite <- app_assoc.
  - intros [|k] Hlt.
    + exists d1. rewrite Nat.add_0_r. split; [done|]. by rewrite run_effects_one.
    + destruct (Hk k ltac:(lia)) as (dk & Hdk & Hrun). exists dk. rewrite Nat.add_succ_r, <- Nat.add_succ_l. split; [done|].
      change (S (S k)) with (1 + S k)%nat. rewrite run_effects_app, run_effects_one. fold x. rewrite E1. cbn [obind]. by rewrite Nat.add_1_r.
Qed.

Lemma record_app a l1 l2 acc : record_effects a (l1 + l2) acc = let! acc := record_effects a l1 acc in record_effects (a + l1) l2 acc.
Proof. unfold record_effects. rewrite seq_app, fmap_app. apply fold_outcome_app. Qed.

Lemma record_pair i acc : record_effects (2 * i) 2 acc =
  let! acc := record_effect acc (at_index Before (statement_of forward data i)) in
  record_effect acc (at_index Primary (statement_of forward data i)).
Proof.
  unfold record_effects. cbn [seq fmap list_fmap fold_outcome].
  pose proof (effect_number_eq forward n i Before) as E1. cbn [parity] in E1. rewrite Nat.add_0_r in E1.
  pose proof (effect_number_eq forward n i Primary) as E2. cbn [parity] in E2. rewrite Nat.add_1_r in E2. rewrite E1, E2.
  fold (statement_of forward data i). destruct (record_effect acc _) as [acc'|]; [|done]. cbn [obind].
  by destruct (record_effect acc' _).
Qed.

Lemma visit_statements acc :
  fold_outcome (visit_statement analysis recorder block) directed acc = record_effects (2 * first_statement) (2 * n) acc.
Proof.
  assert (∀ m a acc, record_effects (2 * a) (2 * m) acc =
    fold_outcome (λ acc z, let! acc := record_effect acc (at_index Before z) in record_effect acc (at_index Primary z))
      (statement_of forward data <$> seq a m) acc) as Hpairs.
  { induction m as [|m IH]; intros a c; [done|]. replace (2 * S m)%nat with (2 + 2 * m)%nat by lia.
    rewrite record_app, record_pair. cbn [seq fmap list_fmap fold_outcome]. destruct (record_effect c _) as [c1|]; [|done]. cbn [obind].
    destruct (record_effect c1 _) as [c2|]; [|done]. cbn [obind].
    replace (2 * a + 2)%nat with (2 * S a)%nat by lia. apply IH. }
  rewrite Hpairs, <- directed_numbers. apply fold_outcome_map. intros [i s] [v d] Hin%directed_elem.
  assert (Z.of_nat i ≠ terminator_index data) as Hne by (unfold terminator_index; apply lookup_lt_Some in Hin; lia).
  unfold visit_statement, record_effect, run_effect. cbn [fst snd effect_statement effect at_index]. rewrite (proj2 (Z.eqb_neq _ _)) by done.
  unfold before_at, statement_at, location_at, index. rewrite Nat2Z.id, Hin. cbn [unwrap obind].
  destruct (apply_before_statement_effect _ d s _) as [d1|]; [|done]. cbn [obind fst snd].
  by destruct (apply_statement_effect _ d1 s _).
Qed.

Lemma visit_terminator_records acc :
  visit_terminator analysis recorder block data acc = record_effects (if forward then 2 * n else 0) 2 acc.
Proof.
  destruct acc as [v d]. assert (record_effects (if forward then 2 * n else 0) 2 (v, d) =
    record_effects (2 * (if forward then n else 0)) 2 (v, d)) as -> by by destruct forward.
  rewrite record_pair. unfold statement_of. replace (if forward then if forward then n else 0%nat else (n - (if forward then n else 0))%nat) with n
    by (destruct forward; lia).
  unfold record_effect, run_effect, terminator_index. cbn [fst snd effect_statement effect at_index]. rewrite Z.eqb_refl.
  unfold visit_terminator, before_terminator_at, terminator_at, location_at. rewrite Nat2Z.id.
  destruct (block_terminator data) as [t|]; [|done]. cbn [obind].
  destruct (apply_before_terminator_effect _ d t _) as [d1|]; [|done]. cbn [obind fst snd].
  by destruct (apply_terminator_effect _ d1 t _) as [[d2 e]|].
Qed.

Lemma visit_block_spec es d0 d v : es !! Z.to_nat block = Some d0 → state_after analysis forward block data block_exit d0 = Ret d →
  ∃ tr, visit_results_in_block analysis recorder forward es block data v =
      Ret (v ++ (if forward then AtStart d0 else AtEnd d0) :: tr ++ [if forward then AtEnd d else AtStart d]) ∧
    length tr = (2 * S n)%nat ∧
    ∀ k, (k < 2 * S n)%nat → ∃ dk, let x := effect_number forward n k in
      tr !! k = Some (At (location_at block (effect_statement x)) (effect x) dk) ∧ state_after analysis forward block data x d0 = Ret dk.
Proof.
  intros Hd0 Hd. unfold state_after in Hd. rewrite exit_position in Hd.
  destruct (record_run _ 0 (v ++ [if forward then AtStart d0 else AtEnd d0]) d0 d Hd) as (tr & Htr & Hlen & Hk).
  exists tr. split; [|split; [lia|]].
  2: { intros k Hlt. destruct (Hk k ltac:(lia)) as (dk & Hdk & Hrun). exists dk. split; [done|]. unfold state_after. by rewrite position_number. }
  unfold visit_results_in_block, entry_set_for_block, index. rewrite Hd0. cbn [unwrap obind].
  pose proof visit_statements as Hst. pose proof visit_terminator_records as Htm. unfold directed, first_statement in Hst.
  destruct forward; cbn [visit_block_start visit_block_end recorder].
  - replace (S (2 * n + 1)) with (2 * n + 2)%nat in Htr by lia. rewrite record_app in Htr. change (2 * 0)%nat with 0%nat in Hst. rewrite Hst.
    destruct (record_effects 0 (2 * n) _) as [acc|]; [|done]. cbn [obind Nat.add] in *. rewrite Htm, Htr. cbn [obind]. by rewrite <- !app_assoc.
  - replace (S (2 * n + 1)) with (2 + 2 * n)%nat in Htr by lia. rewrite record_app in Htr. rewrite Htm.
    destruct (record_effects 0 2 _) as [acc|]; [|done]. cbn [obind] in *. change (0 + 2)%nat with (2 * 1)%nat in Htr. rewrite Hst, Htr. cbn [obind].
    by rewrite <- !app_assoc.
Qed.
End Block.

(** C37. Seeks of a [ResultsCursor] are exact: after any history of seeks and custom
    effects, seeking to a location and effect gives the entry set of the block
    after all effects up to there, in the order of the direction, and panics only
    when one of them does. *)
Theorem cursor_seek_exact {Stmt Place Operand D : Type}
    (analysis : Analysis (Stmt := Stmt) (Place := Place) (Operand := Operand) (D := D))
    (forward : bool) (body : list (BasicBlockData Stmt Place Operand)) (es : list D)
    (ops : list cursor_op) (c : ResultsCursor) (bb : Z) (i : nat) (data : BasicBlockData Stmt Place Operand) (e : Effect) :
  blocks_fit body → fold_outcome (run_op analysis forward body) ops (cursor_new analysis body es) = Ret c →
  body !! Z.to_nat bb = Some data → (i ≤ length (statements data))%nat →
  seek_after analysis forward body c {| loc_block := bb; statement_index := i |} e =
    let! d0 := entry_set_for_block es bb in
    let! d := state_after analysis forward bb data (at_index e (Z.of_nat i)) d0 in
    Ret {| entry_sets := es; cursor_state := d; pos := {| pos_block := bb; curr_effect_index := Some (at_index e (Z.of_nat i)) |};
           state_needs_reset := false |}.
Proof.
  intros Hfit Hops Hd Hi. apply seek_after_spec; [done| |done|done].
  eapply run_ops_ok; [done|apply cursor_new_ok|exact Hops].
Qed.

(** The three ways to recompute the states of a block agree.  When the engine
    computes the state [d] that a block propagates from its entry set, the visitor
    is called at every statement and the terminator, in the order of the direction,
    with the state that a cursor has when it seeks there, and at the far end of the
    block with [d]. *)
Theorem visitor_agrees {Stmt Place Operand D : Type}
    (analysis : Analysis (Stmt := Stmt) (Place := Place) (Operand := Operand) (D := D))
    (forward : bool) (body : list (BasicBlockData Stmt Place Operand)) (es : list D) (bb : Z)
    (data : BasicBlockData Stmt Place Operand) (d0 d : D) (v : list visit) :
  blocks_fit body → body !! Z.to_nat bb = Some data → es !! Z.to_nat bb = Some d0 →
  fst_of (if forward then forward_apply_effects_in_block analysis d0 bb data None
          else backward_apply_effects_in_block analysis d0 bb data None) = Ret d →
  ∃ tr, visit_results_in_block analysis recorder forward es bb data v =
      Ret (v ++ (if forward then AtStart d0 else AtEnd d0) :: tr ++ [if forward then AtEnd d else AtStart d]) ∧
    length tr = (2 * S (length (statements data)))%nat ∧
    ∀ k, (k < length tr)%nat → ∃ loc e c,
      (loc, e) = (location_at bb (effect_statement (effect_number forward (length (statements data)) k)),
                  effect (effect_number forward (length (statements data)) k)) ∧
      seek_after analysis forward body (cursor_new analysis body es) loc e = Ret c ∧ tr !! k = Some (At loc e (get c)).
Proof.
  intros Hfit Hdata Hd0 Hd. rewrite engine_state in Hd.
  destruct (visit_block_spec analysis forward bb data es d0 d v Hd0 Hd) as (tr & Htr & Hlen & Hk). exists tr. split_and!; [done|done|].
  intros k Hlt. destruct (Hk k ltac:(lia)) as (dk & Hget & Hst). set (x := effect_number forward (length (statements data)) k) in *.
  assert (0 ≤ effect_statement x ≤ Z.of_nat (length (statements data))) as Hx.
  { unfold x, effect_number. cbn [effect_statement at_index]. pose proof (Nat.div2_decr k (2 * length (statements data) + 1)).
    rewrite Nat.div2_div in *. pose proof (Nat.Div0.div_lt_upper_bound k 2 (S (length (statements data))) ltac:(lia)). destruct forward; lia. }
  do 3 eexists. split; [reflexivity|]. split.
  - unfold location_at. rewrite (seek_after_spec analysis forward body es Hfit _ bb _ data); [|apply cursor_new_ok|done|lia].
    rewrite Z2Nat.id by lia. unfold index. rewrite Hd0. cbn [unwrap obind].
    replace (at_index (effect x) (effect_statement x)) with x by by destruct x. rewrite Hst. reflexivity.
  - rewrite Hget. done.
Qed.

Lemma cursor_seek_exact_witness :
  ∃ c, fold_outcome (run_op loop_analysis true (branch_body 1)) [SeekEnd 1; Custom (λ d, Ret (negb d)); SeekStart 0]
      (cursor_new loop_analysis (branch_body 1) [false; true; true]) = Ret c ∧
    seek_after loop_analysis true (branch_body 1) c {| loc_block := 1; statement_index := 0 |} Before =
    Ret {| entry_sets := [false; true; true]; cursor_state := true;
           pos := {| pos_block := 1; curr_effect_index := Some (at_index Before 0) |}; state_needs_reset := false |}.
Proof.
  eexists. split; [vm_compute; reflexivity|].
  etransitivity; [apply (cursor_seek_exact loop_analysis true (branch_body 1) [false; true; true]
    [SeekEnd 1; Custom (λ d, Ret (negb d)); SeekStart 0] _ 1 0 (nth 1 (branch_body 1) (Build_BasicBlockData [] None false)))|reflexivity];
    [repeat constructor; cbn; lia|reflexivity|reflexivity|cbn; lia].
Defined.

Lemma visitor_agrees_witness :
  ∃ tr, visit_results_in_block loop_analysis recorder false [true; false; false] 1 (nth 1 (branch_body 2) (Build_BasicBlockData [] None false)) [] =
      Ret (AtEnd false :: tr ++ [AtStart true]) ∧ length tr = 4%nat.
Proof.
  destruct (visitor_agrees loop_analysis false (branch_body 2) [true; false; false] 1
    (nth 1 (branch_body 2) (Build_BasicBlockData [] None false)) false true []) as (tr & Htr & Hlen & _).
  - repeat constructor; cbn; lia.
  - reflexivity.
  - reflexivity.
  - reflexivity.
  - exists tr. split; [exact Htr|exact Hlen].
Defined.
