(* ===== verification/InitMask.v ===== *)
(** * Initialization masks

    [compiler/rustc_middle/src/mir/interpret/allocation/init_mask.rs]: which bytes
    of an allocation are initialized, lazily or as blocks of 64 bits, with the
    iterator over chunks and the run-length encoding for copies; [AllocRange] of
    [allocation.rs].  A [Size] is its number of bytes. *)

From S2P Require Import Prelude.
From S2P Require Import MemDecoder.
From S2P Require Import Opaque.
From S2P Require Import Codec.
From S2P Require Import Abi.
From S2P Require Import Slice.
From S2P Require Import BitSets.

Record AllocRange : Type := { range_start : Size; range_size : Size }.

Definition alloc_range (start size : Size) : AllocRange := {| range_start := start; range_size := size |}.

(** [AllocRange::from(start..end_)] *)
Definition alloc_range_from (start end_ : Size) : outcome AllocRange :=
  let! size := Size.sub end_ start in Ret (alloc_range start size).

Definition range_end (r : AllocRange) : outcome Size := Size.add (range_start r) (range_size r).

Definition subrange (self sub : AllocRange) : outcome AllocRange :=
  let! sub_start := Size.add (range_start self) (range_start sub) in
  let range := alloc_range sub_start (range_size sub) in
  let! end_ := range_end range in
  let! self_end := range_end self in
  rassert (end_ <=? self_end) (Ret range).

(** * Materialized blocks *)

Module InitMaskMaterialized.

Definition BLOCK_SIZE : Z := 64.

(** The blocks *)
Definition t : Type := list Z.

Definition bit_index (bits : Size) : nat * Z := (Z.to_nat (Size.bytes bits / BLOCK_SIZE), Size.bytes bits mod BLOCK_SIZE).

Definition size_from_bit_index (block : nat) (bit : Z) : Size :=
  Size.from_bytes (wadd 64 (wmul 64 (Z.of_nat block) BLOCK_SIZE) bit).

(** [blocks[i] = f(blocks[i])] *)
Definition update_block (blocks : t) (i : nat) (f : Z → Z) : outcome t :=
  let! b := index blocks i in index_set blocks i (f b).

(** [|= mask] or [&= !mask] *)
Definition set_bits (new_state : bool) (mask : Z) (b : Z) : Z :=
  if new_state then Z.lor b mask else Z.land b (wnot 64 mask).

(** Both values of [new_state]: the source writes out the two cases. *)
Definition set_range_inbounds (blocks : t) (start end_ : Size) (new_state : bool) : outcome t :=
  let (block_a, bit_a) := bit_index start in
  let (block_b, bit_b) := bit_index end_ in
  if (block_a =? block_b)%nat then
    let range :=
      if bit_b =? 0 then wshl 64 (umax 64) bit_a
      else Z.land (wshl 64 (umax 64) bit_a) (wshr 64 (umax 64) (64 - bit_b)) in
    update_block blocks block_a (set_bits new_state range)
  else
    let! blocks := update_block blocks block_a (set_bits new_state (wshl 64 (umax 64) bit_a)) in
    let! blocks :=
      if negb (bit_b =? 0) then update_block blocks block_b (set_bits new_state (wshr 64 (umax 64) (64 - bit_b)))
      else Ret blocks in
    fold_outcome (λ blocks block, index_set blocks block (if new_state then umax 64 else 0))
      (seq (block_a + 1) (block_b - (block_a + 1))) blocks.

Definition get (blocks : t) (i : Size) : outcome bool :=
  let (block, bit) := bit_index i in
  let! b := index blocks block in Ret (negb (Z.land b (wshl 64 1 bit) =? 0)).

Definition grow (blocks : t) (len amount : Size) (new_state : bool) : outcome t :=
  if Size.bytes amount =? 0 then Ret blocks
  else
    let unused_trailing_bits := wsub 64 (wmul 64 (Z.of_nat (length blocks)) BLOCK_SIZE) (Size.bytes len) in
    let blocks :=
      if unused_trailing_bits <? Size.bytes amount then
        let additional_blocks := wadd 64 (Size.bytes amount / BLOCK_SIZE) 1 in
        let block := if new_state then umax 64 else 0 in
        blocks ++ replicate (Z.to_nat additional_blocks) block
      else blocks in
    if 0 <? unused_trailing_bits then
      let in_bounds_tail := Size.from_bytes unused_trailing_bits in
      let! end_ := Size.add len in_bounds_tail in
      set_range_inbounds blocks len end_ new_state
    else Ret blocks.

Definition new (size : Size) (state : bool) : outcome t := grow [] Size.ZERO size state.

(** The first bit of a block that is equal to [is_init], from [start_bit] *)
Definition search_block (bits : Z) (block : nat) (start_bit : Z) (is_init : bool) : option Size :=
  let bits := if is_init then bits else wnot 64 bits in
  let bits := Z.land bits (wshl 64 (umax 64) start_bit) in
  if bits =? 0 then None else Some (size_from_bit_index block (trailing_zeros 64 bits)).

(** The loop over the blocks behind the first one *)
Fixpoint search_blocks (blocks : list Z) (block : nat) (end_ : Size) (is_init : bool) : option Size :=
  match blocks with
  | [] => None
  | bits :: blocks =>
      match search_block bits block 0 is_init with
      | Some i => if i <? end_ then Some i else None
      | None => search_blocks blocks (S block) end_ is_init
      end
  end.

(** [&blocks[from..to]] *)
Definition slice (blocks : list Z) (from to : nat) : outcome (list Z) :=
  rassert ((from <=? to)%nat && (to <=? length blocks)%nat) (Ret (take (to - from) (drop from blocks))).

Definition find_bit_fast (blocks : t) (start end_ : Size) (is_init : bool) : outcome (option Size) :=
  if end_ <=? start then Ret None
  else
    let (start_block, start_bit) := bit_index start in
    let end_inclusive := Size.from_bytes (wsub 64 (Size.bytes end_) 1) in
    let (end_block_inclusive, _) := bit_index end_inclusive in
    let! bits := index blocks start_block in
    match search_block bits start_block start_bit is_init with
    | Some i => Ret (if i <? end_ then Some i else None)
    | None =>
        if (start_block <? end_block_inclusive)%nat then
          let! rest := slice blocks (start_block + 1) (end_block_inclusive + 1) in
          Ret (search_blocks rest (start_block + 1) end_ is_init)
        else Ret None
    end.

(** [(start..end).find(|&i| init_mask.get(i) == is_init)] *)
Fixpoint find_first (blocks : t) (is_init : bool) (l : list Z) : outcome (option Size) :=
  match l with
  | [] => Ret None
  | i :: l => let! b := get blocks i in if Bool.eqb b is_init then Ret (Some i) else find_first blocks is_init l
  end.

Definition find_bit_slow (blocks : t) (start end_ : Size) (is_init : bool) : outcome (option Size) :=
  find_first blocks is_init (seqZ start (end_ - start)).

Definition find_bit (blocks : t) (start end_ : Size) (is_init : bool) : outcome (option Size) :=
  find_bit_fast blocks start end_ is_init.

(** [Err] is the first contiguous span that is not initialized. *)
Definition is_range_initialized (blocks : t) (start end_ : Size) : outcome (option AllocRange) :=
  let! uninit_start := find_bit blocks start end_ false in
  match uninit_start with
  | Some uninit_start =>
      let! e := find_bit blocks uninit_start end_ true in
      let! r := alloc_range_from uninit_start (default end_ e) in Ret (Some r)
  | None => Ret None
  end.

(** The codec: the length, then the blocks in eight bytes each *)
Fixpoint decode_blocks (n : nat) (d : MemDecoder.t) : outcome (t * MemDecoder.t) :=
  match n with
  | O => Ret ([], d)
  | S n =>
      let! (bytes, d) := MemDecoder.read_raw_bytes 8 d in
      let! (blocks, d) := decode_blocks n d in Ret (MemDecoder.from_le_bytes bytes :: blocks, d)
  end.

(** [InitMaskMaterialized::decode] *)
Definition decode (d : MemDecoder.t) : outcome (t * MemDecoder.t) :=
  let! (num_blocks, d) := read_usize d in decode_blocks (Z.to_nat num_blocks) d.

(** [InitMaskMaterialized::encode] *)
Definition encode {S} `{Encoder S} (blocks : t) (encoder : S) : outcome S :=
  let! encoder := emit_usize (Z.of_nat (length blocks)) encoder in
  fold_outcome (λ encoder block, emit_raw_bytes (MemDecoder.to_le_bytes 8 block) encoder) blocks encoder.

End InitMaskMaterialized.

(** * Masks *)

Inductive InitMaskBlocks : Type :=
| Lazy (state : bool)
| Materialized (blocks : InitMaskMaterialized.t).

Module InitMask.

Record t : Type := { blocks : InitMaskBlocks; len : Size }.

Definition new (size : Size) (state : bool) : t := {| blocks := Lazy state; len := size |}.

(** [None] is [Ok(())]. *)
Definition is_range_initialized (m : t) (range : AllocRange) : outcome (option AllocRange) :=
  let! end_ := range_end range in
  if len m <? end_ then let! r := alloc_range_from (len m) end_ in Ret (Some r)
  else
    match blocks m with
    | Lazy state => Ret (if state then None else Some range)
    | Materialized blocks => InitMaskMaterialized.is_range_initialized blocks (range_start range) end_
    end.

Definition materialize_blocks (m : t) : outcome InitMaskMaterialized.t :=
  match blocks m with
  | Lazy state => InitMaskMaterialized.new (len m) state
  | Materialized blocks => Ret blocks
  end.

(** The partial overwrite, on materialized blocks *)
Definition set_range_materialized (m : t) (start end_ : Size) (new_state : bool) : outcome t :=
  let! blocks := materialize_blocks m in
  if end_ <=? len m then
    let! blocks := InitMaskMaterialized.set_range_inbounds blocks start end_ new_state in
    Ret {| blocks := Materialized blocks; len := len m |}
  else
    let! blocks :=
      if start <? len m then InitMaskMaterialized.set_range_inbounds blocks start (len m) new_state else Ret blocks in
    let! amount := Size.sub end_ (len m) in
    let! blocks := InitMaskMaterialized.grow blocks (len m) amount new_state in
    Ret {| blocks := Materialized blocks; len := end_ |}.

Definition set_range (m : t) (range : AllocRange) (new_state : bool) : outcome t :=
  let start := range_start range in
  let! end_ := range_end range in
  let is_full_overwrite := (start =? Size.ZERO) && (len m <=? end_) in
  match blocks m with
  | Lazy state =>
      if is_full_overwrite then Ret {| blocks := Lazy new_state; len := end_ |}
      else if Bool.eqb state new_state then Ret {| blocks := Lazy state; len := if len m <? end_ then end_ else len m |}
      else set_range_materialized m start end_ new_state
  | Materialized _ =>
      if is_full_overwrite then Ret {| blocks := Lazy new_state; len := end_ |}
      else set_range_materialized m start end_ new_state
  end.

Definition get (m : t) (idx : Size) : outcome bool :=
  match blocks m with
  | Lazy state => Ret state
  | Materialized blocks => InitMaskMaterialized.get blocks idx
  end.

End InitMask.

(** * Chunks *)

Inductive InitChunk : Type := Init (start end_ : Size) | Uninit (start end_ : Size).

Definition chunk_is_init (c : InitChunk) : bool := match c with Init _ _ => true | Uninit _ _ => false end.

Definition chunk_range (c : InitChunk) : Size * Size := match c with Init s e | Uninit s e => (s, e) end.

Record InitChunkIter : Type := { init_mask : InitMask.t; iter_is_init : bool; iter_start : Size; iter_end : Size }.

Definition range_as_init_chunks (m : InitMask.t) (range : AllocRange) : outcome InitChunkIter :=
  let start := range_start range in
  let! end_ := range_end range in
  rassert (end_ <=? InitMask.len m)
    (let! is_init := if start <? end_ then InitMask.get m start else Ret false in
     Ret {| init_mask := m; iter_is_init := is_init; iter_start := start; iter_end := end_ |}).

Definition chunk_next (it : InitChunkIter) : outcome (InitChunkIter * option InitChunk) :=
  if iter_end it <=? iter_start it then Ret (it, None)
  else
    let! end_of_chunk :=
      match InitMask.blocks (init_mask it) with
      | Lazy _ => Ret (iter_end it)
      | Materialized blocks =>
          let! e := InitMaskMaterialized.find_bit blocks (iter_start it) (iter_end it) (negb (iter_is_init it)) in
          Ret (default (iter_end it) e)
      end in
    let range := if iter_is_init it then Init (iter_start it) end_of_chunk else Uninit (iter_start it) end_of_chunk in
    Ret ({| init_mask := init_mask it; iter_is_init := negb (iter_is_init it); iter_start := end_of_chunk; iter_end := iter_end it |},
         Some range).

(** The chunks until the iterator ends; each has a byte. *)
Fixpoint chunk_collect (fuel : nat) (it : InitChunkIter) : outcome (list InitChunk) :=
  match fuel with
  | O => Panic
  | S fuel =>
      let! (it, o) := chunk_next it in
      match o with
      | None => Ret []
      | Some c => let! l := chunk_collect fuel it in Ret (c :: l)
      end
  end.

Definition chunks (m : InitMask.t) (range : AllocRange) : outcome (list InitChunk) :=
  let! it := range_as_init_chunks m range in
  chunk_collect (S (Z.to_nat (range_size range))) it.

(** * Copies *)

Record InitCopy : Type := { initial : bool; ranges : list Z }.

Definition no_bytes_init (c : InitCopy) : bool := negb (initial c) && (length (ranges c) =? 1)%nat.

Definition prepare_copy (m : InitMask.t) (range : AllocRange) : outcome InitCopy :=
  let! l := chunks m range in
  let! first := unwrap (head l) in
  Ret {| initial := chunk_is_init first; ranges := (λ c, wsub 64 (snd (chunk_range c)) (fst (chunk_range c))) <$> l |}.

(** One instance of the encoding, from the byte [j] *)
Fixpoint apply_ranges (blocks : InitMaskMaterialized.t) (ranges : list Z) (j : Z) (cur : bool) : outcome InitMaskMaterialized.t :=
  match ranges with
  | [] => Ret blocks
  | range :: ranges =>
      let old_j := j in
      let j := wadd 64 j range in
      let! blocks := InitMaskMaterialized.set_range_inbounds blocks (Size.from_bytes old_j) (Size.from_bytes j) cur in
      apply_ranges blocks ranges j (negb cur)
  end.

Definition apply_copy (m : InitMask.t) (defined : InitCopy) (range : AllocRange) (repeat : Z) : outcome InitMask.t :=
  if (length (ranges defined) <=? 1)%nat then
    let start := range_start range in
    let! size := Size.mul (range_size range) repeat in
    let! end_ := Size.add (range_start range) size in
    let! r := alloc_range_from start end_ in
    InitMask.set_range m r (initial defined)
  else
    let! blocks := InitMask.materialize_blocks m in
    let! blocks := fold_outcome (λ blocks j,
      let j := wmul 64 j (Size.bytes (range_size range)) in
      let j := wadd 64 j (Size.bytes (range_start range)) in
      apply_ranges blocks (ranges defined) j (initial defined)) (seqZ 0 repeat) blocks in
    Ret {| InitMask.blocks := Materialized blocks; InitMask.len := InitMask.len m |}.
