(* ===== verification/InitMaskProps.v ===== *)
(** * Correctness of initialization masks

    Materialized blocks stand for a bit per byte: every operation of [InitMask] is
    stated on these bits.  Setting a range changes the bits of the range (and of
    the gap, when the mask grows), the block-wise search finds the bit that the
    search of one bit at a time finds, the chunks of a range are its maximal runs,
    and applying a prepared copy writes the bits of the source range, as often as
    it is repeated. *)

From S2P Require Import Prelude.
From S2P Require Import MemDecoder.
From S2P Require Import Leb128.
From S2P Require Import Opaque.
From S2P Require Import Codec.
From S2P Require Import Abi.
From S2P Require Import AbiProps.
From S2P Require Import Slice.
From S2P Require Import BitSets.
From S2P Require Import BitSetProps.
From S2P Require Import BitIterProps.
From S2P Require Import InitMask.

Import InitMaskMaterialized.

(** ** Sizes *)

Lemma size_add_sum a b : 0 ≤ a → 0 ≤ b → a + b < 2 ^ 64 → Size.add a b = Ret (a + b).
Proof.
  intros. unfold Size.add, checked_add, Size.bytes. rewrite (proj2 (Z.ltb_lt _ _)) by done. done.
Qed.

Lemma size_sub_diff a b : b ≤ a → Size.sub a b = Ret (a - b).
Proof. intros. unfold Size.sub, checked_sub, Size.bytes. by rewrite (proj2 (Z.leb_le _ _)) by done. Qed.

Lemma size_mul_prod a b : a * b < 2 ^ 64 → Size.mul a b = Ret (a * b).
Proof. intros. unfold Size.mul, checked_mul, Size.bytes. by rewrite (proj2 (Z.ltb_lt _ _)) by done. Qed.

Lemma alloc_range_from_ret a b : a ≤ b → alloc_range_from a b = Ret (alloc_range a (b - a)).
Proof. intros. unfold alloc_range_from. by rewrite size_sub_diff by done. Qed.

(** ** Masks *)

Lemma high_mask_spec s i : 0 ≤ s < 64 → 0 ≤ i < 64 →
  is_uint 64 (wshl 64 (umax 64) s) ∧ Z.testbit (wshl 64 (umax 64) s) i = (s <=? i).
Proof.
  intros Hs Hi. unfold wshl. split; [apply wrap_bounds; lia|].
  unfold wrap. rewrite (Z.mod_small s), Z.mod_pow2_bits_low by lia. unfold umax.
  destruct (Z.leb_spec s i).
  - rewrite Z.shiftl_spec, ones_testbit by lia. apply Z.ltb_lt. lia.
  - by rewrite Z.shiftl_spec_low by lia.
Qed.

Lemma low_mask_spec e i : 0 < e < 64 → 0 ≤ i < 64 →
  is_uint 64 (wshr 64 (umax 64) (64 - e)) ∧ Z.testbit (wshr 64 (umax 64) (64 - e)) i = (i <? e).
Proof.
  intros He Hi. unfold wshr. rewrite Z.mod_small by lia. split.
  - unfold is_uint. rewrite shiftr_div by lia. pose proof (pow2_pos (64 - e) ltac:(lia)).
    split; [apply Z.div_pos; unfold umax; lia|]. apply Z.div_lt_upper_bound; [lia|]. unfold umax. nia.
  - rewrite Z.shiftr_spec by lia. unfold umax. rewrite ones_testbit by lia.
    destruct (Z.ltb_spec (i + (64 - e)) 64), (Z.ltb_spec i e); done || lia.
Qed.

(** ** Blocks *)

Lemma update_block_spec ws i st mask :
  Forall (is_uint 64) ws → (i < length ws)%nat → is_uint 64 mask →
  ∃ ws', update_block ws i (set_bits st mask) = Ret ws' ∧
    words_become ws ws' (λ x, if (x / 64 =? Z.of_nat i) && Z.testbit mask (x mod 64) then st else bit ws x).
Proof.
  intros Hu Hi Hm. unfold update_block, index, index_set.
  destruct (lookup_lt_is_Some_2 ws i Hi) as [w Hw]. rewrite Hw. cbn [unwrap obind].
  rewrite (proj2 (Nat.ltb_lt _ _)) by done. cbn [rassert]. eexists. split; [done|].
  assert (is_uint 64 w) as Hwu by apply (Forall_lookup_1 _ _ _ _ Hu Hw). split_and!.
  - by rewrite length_insert.
  - apply Forall_insert; [done|]. destruct st; cbn [set_bits].
    + by apply is_uint_lor.
    + apply is_uint_land; [lia|done|]. apply wnot_uint in Hm. unfold is_uint in Hm. lia.
  - intros x [Hx _]. rewrite bit_insert by done. pose proof (div_mod_64 x). destruct (decide _) as [E|E].
    + rewrite E, Z.eqb_refl. cbn [andb]. unfold bit. rewrite E, Nat2Z.id, Hw. destruct st; cbn [set_bits].
      * rewrite Z.lor_spec. destruct (Z.testbit mask _); [apply orb_true_r|apply orb_false_r].
      * rewrite Z.land_spec, wnot_testbit by (done || lia).
        destruct (Z.testbit mask _); [apply andb_false_r|apply andb_true_r].
    + by rewrite (proj2 (Z.eqb_neq _ _)) by done.
Qed.

Definition full_word (st : bool) : Z := if st then umax 64 else 0.

Lemma full_word_uint st : is_uint 64 (full_word st).
Proof. by destruct st. Qed.

Lemma full_word_testbit st k : 0 ≤ k < 64 → Z.testbit (full_word st) k = st.
Proof.
  intros. destruct st; cbn [full_word]; [|apply Z.bits_0]. unfold umax. rewrite ones_testbit by lia.
  apply Z.ltb_lt. lia.
Qed.

Lemma fill_blocks_spec st n : ∀ a ws,
  Forall (is_uint 64) ws → (a + n ≤ length ws)%nat →
  ∃ ws', fold_outcome (λ ws i, index_set ws i (full_word st)) (seq a n) ws = Ret ws' ∧
    words_become ws ws' (λ x, if (Z.of_nat a <=? x / 64) && (x / 64 <? Z.of_nat (a + n)) then st else bit ws x).
Proof.
  induction n as [|n IH]; intros a ws Hu Hl.
  { exists ws. split; [done|]. split_and!; try done. intros x Hx.
    destruct (Z.leb_spec (Z.of_nat a) (x / 64)), (Z.ltb_spec (x / 64) (Z.of_nat (a + 0))); done || lia. }
  cbn [seq fold_outcome]. unfold index_set at 1. rewrite (proj2 (Nat.ltb_lt _ _)) by lia. cbn [rassert obind].
  destruct (IH (S a) (<[a := full_word st]> ws)) as (ws' & Hr & Hlen & Hu' & Hb).
  { apply Forall_insert; [done|apply full_word_uint]. }
  { rewrite length_insert. lia. }
  rewrite length_insert in Hlen, Hb. exists ws'. split; [done|]. split_and!; [done|done|].
  intros x Hx. rewrite Hb, bit_insert by lia. pose proof (div_mod_64 x).
  destruct (decide (x / 64 = Z.of_nat a)) as [E|E]; [rewrite full_word_testbit by lia|]; bool_cases.
Qed.

(** Setting a range that is not empty *)
Lemma set_range_inbounds_spec ws s e st :
  Forall (is_uint 64) ws → 0 ≤ s < e → e ≤ 64 * Z.of_nat (length ws) →
  ∃ ws', set_range_inbounds ws s e st = Ret ws' ∧
    words_become ws ws' (λ x, if (s <=? x) && (x <? e) then st else bit ws x).
Proof.
  intros Hu Hse He. unfold set_range_inbounds, bit_index, Size.bytes. change BLOCK_SIZE with 64.
  destruct (word_bit s) as (i & k & Es & Hk & -> & ->); [lia|].
  destruct (word_bit e) as (j & l & Ee & Hl & -> & ->); [lia|]. rewrite !Nat2Z.id.
  destruct (high_mask_spec k 0) as [Hm1 _]; [lia..|].
  destruct (Nat.eqb_spec i j) as [->|Hne].
  - rewrite (proj2 (Z.eqb_neq l 0)) by lia. destruct (low_mask_spec l 0) as [Hm2 _]; [lia..|].
    destruct (update_block_spec ws j st (Z.land (wshl 64 (umax 64) k) (wshr 64 (umax 64) (64 - l))))
      as (w1 & -> & Hl1 & Hu1 & Hb1); [done|lia|apply is_uint_land; [lia|done|unfold is_uint in *; lia]|].
    exists w1. split; [done|]. split_and!; [done..|]. intros x Hx. rewrite Hb1 by done.
    destruct (word_bit x) as (m & n & -> & Hn & -> & ->); [lia|].
    rewrite Z.land_spec, (proj2 (high_mask_spec k n Hk Hn)), (proj2 (low_mask_spec l n ltac:(lia) Hn)).
    subst s e. bool_cases.
  - destruct (update_block_spec ws i st _ Hu ltac:(lia) Hm1) as (w1 & -> & Hl1 & Hu1 & Hb1). cbn [obind].
    assert (∃ w2, (if negb (l =? 0) then update_block w1 j (set_bits st (wshr 64 (umax 64) (64 - l))) else Ret w1) = Ret w2 ∧
      words_become w1 w2 (λ x, if (64 * Z.of_nat j <=? x) && (x <? e) then st else bit w1 x)) as (w2 & -> & Hl2 & Hu2 & Hb2).
    { destruct (Z.eqb_spec l 0) as [->|Hl0]; cbn [negb].
      { exists w1. split; [done|]. split_and!; [done..|]. intros x Hx. bool_cases. }
      destruct (low_mask_spec l 0) as [Hm2 _]; [lia..|].
      destruct (update_block_spec w1 j st _ Hu1 ltac:(lia) Hm2) as (w2 & -> & Hl2 & Hu2 & Hb2).
      exists w2. split; [done|]. split_and!; [done..|]. intros x Hx. rewrite Hb2 by done.
      destruct (word_bit x) as (m & n & -> & Hn & -> & ->); [lia|].
      rewrite (proj2 (low_mask_spec l n ltac:(lia) Hn)). subst e. bool_cases. }
    cbn [obind]. change (if st then umax 64 else 0) with (full_word st).
    destruct (fill_blocks_spec st (j - (i + 1)) (i + 1) w2 Hu2) as (w3 & -> & Hl3 & Hu3 & Hb3).
    { lia. }
    exists w3. split; [done|]. split_and!; [congruence|done|]. intros x Hx.
    rewrite Hb3, Hb2, Hb1 by (rewrite ?Hl2, ?Hl1; lia).
    destruct (word_bit x) as (m & n & -> & Hn & -> & ->); [lia|].
    rewrite (proj2 (high_mask_spec k n Hk Hn)). subst s e. bool_cases.
Qed.

Lemma get_spec ws x : 0 ≤ x < 64 * Z.of_nat (length ws) → get ws x = Ret (bit ws x).
Proof.
  intros Hx. unfold get, bit_index, Size.bytes. change BLOCK_SIZE with 64.
  destruct (word_bit x) as (i & k & Ex & Hk & Hi & Hm); [lia|]. rewrite Hi, Hm, Nat2Z.id.
  destruct (lookup_lt_is_Some_2 ws i ltac:(lia)) as [w Hw]. unfold index. rewrite Hw. cbn [unwrap obind].
  unfold wshl. rewrite Z.mod_small, shiftl_mul, Z.mul_1_l, wrap_small by (try apply pow2_uint; lia).
  rewrite land_pow2 by lia. rewrite negb_involutive. unfold bit. by rewrite Hi, Hm, Nat2Z.id, Hw.
Qed.

Lemma bit_app ws ws' x : 0 ≤ x →
  bit (ws ++ ws') x = if x <? 64 * Z.of_nat (length ws) then bit ws x else bit ws' (x - 64 * Z.of_nat (length ws)).
Proof.
  intros Hx. destruct (word_bit x Hx) as (i & k & -> & Hk & _ & _). rewrite !bit_at by done.
  destruct (Z.ltb_spec (64 * Z.of_nat i + k) (64 * Z.of_nat (length ws))).
  - by rewrite lookup_app_l by lia.
  - rewrite lookup_app_r by lia.
    replace (64 * Z.of_nat i + k - 64 * Z.of_nat (length ws)) with (64 * Z.of_nat (i - length ws) + k) by lia.
    by rewrite bit_at.
Qed.

(** Blocks for the first [len] bytes, with room for [room] more *)
Definition blocks_ok (len : Z) (ws : list Z) : Prop :=
  Forall (is_uint 64) ws ∧ 0 ≤ len ≤ 64 * Z.of_nat (length ws) ∧ 64 * Z.of_nat (length ws) < 2 ^ 64.

Lemma grow_spec ws len amount st :
  blocks_ok len ws → 0 ≤ amount → 64 * Z.of_nat (length ws) + amount + 64 < 2 ^ 64 →
  ∃ ws', grow ws len amount st = Ret ws' ∧ blocks_ok (len + amount) ws' ∧
    64 * Z.of_nat (length ws') ≤ 64 * Z.of_nat (length ws) + amount + 64 ∧
    ∀ x, 0 ≤ x < len + amount → bit ws' x = if x <? len then bit ws x else st.
Proof.
  intros (Hu & Hlen & Hc) Ha Hcap. unfold grow, Size.bytes. change BLOCK_SIZE with 64.
  destruct (Z.eqb_spec amount 0) as [->|Ha0].
  { exists ws. rewrite Z.add_0_r. split_and!; try done; [lia|]. intros x Hx. bool_cases. }
  unfold wmul. rewrite (wrap_small 64 (_ * _)) by (unfold is_uint; lia).
  unfold wsub. rewrite wrap_small by (unfold is_uint; lia).
  set (unused := Z.of_nat (length ws) * 64 - len).
  pose proof (div_mod_64 amount) as [Hdm Hmod]. pose proof (Z.div_pos amount 64 Ha ltac:(lia)).
  set (ws1 := if unused <? amount then _ else ws).
  assert (Forall (is_uint 64) ws1 ∧ len + amount ≤ 64 * Z.of_nat (length ws1) ∧ len + unused ≤ 64 * Z.of_nat (length ws1) ∧
    64 * Z.of_nat (length ws1) ≤ 64 * Z.of_nat (length ws) + amount + 64 ∧
    ∀ x, 0 ≤ x < len + amount → bit ws1 x = if x <? len + unused then bit ws x else st) as (Hu1 & Hl1 & Hl1' & Hl2 & Hb1).
  { unfold ws1. destruct (Z.ltb_spec unused amount).
    - unfold wadd. rewrite wrap_small by (unfold is_uint; lia).
      rewrite length_app, length_replicate. split_and!; [|lia..|].
      + apply Forall_app; split; [done|]. apply Forall_replicate, full_word_uint.
      + intros x Hx. rewrite bit_app by lia. unfold unused.
        destruct (Z.ltb_spec x (64 * Z.of_nat (length ws))), (Z.ltb_spec x (len + (Z.of_nat (length ws) * 64 - len)));
          try lia; [done|].
        rewrite bit_replicate by lia. change (if st then umax 64 else 0) with (full_word st).
        rewrite full_word_testbit by (apply Z.mod_pos_bound; lia). rewrite (proj2 (Z.ltb_lt _ _)) by lia. done.
    - split_and!; [done|lia..|]. intros x Hx. bool_cases. }
  clearbody ws1. destruct (Z.ltb_spec 0 unused).
  - unfold Size.from_bytes. rewrite size_add_sum by lia. cbn [obind].
    destruct (set_range_inbounds_spec ws1 len (len + unused) st Hu1) as (ws2 & -> & Hl3 & Hu2 & Hb2); [lia..|].
    exists ws2. rewrite Hl3. split; [done|]. split_and!; [split_and!; [done|lia..]|lia|].
    intros x Hx. rewrite Hb2, Hb1 by lia. bool_cases.
  - exists ws1. split; [done|]. split_and!; [split_and!; [done|lia..]|lia|].
    intros x Hx. rewrite Hb1 by lia. bool_cases.
Qed.

Lemma new_blocks_spec size st : 0 ≤ size → size + 64 < 2 ^ 64 →
  ∃ ws, new size st = Ret ws ∧ blocks_ok size ws ∧ 64 * Z.of_nat (length ws) ≤ size + 64 ∧
    ∀ x, 0 ≤ x < size → bit ws x = st.
Proof.
  intros H0 H. destruct (grow_spec [] 0 size st) as (ws & Hg & Hok & Hl & Hb).
  { split_and!; [constructor|done..]. } { done. } { cbn; lia. }
  exists ws. split_and!; [done..|cbn in Hl; lia|]. intros x Hx. rewrite Hb by lia. bool_cases.
Qed.

(** ** Searching *)

(** [o] is the first byte of [s..e] with the state [b]. *)
Definition first_bit (f : Z → bool) (s e : Z) (b : bool) (o : option Z) : Prop :=
  match o with
  | Some i => s ≤ i < e ∧ f i = b ∧ ∀ j, s ≤ j < i → f j = negb b
  | None => ∀ j, s ≤ j < e → f j = negb b
  end.

Lemma first_bit_unique f s e b o o' : first_bit f s e b o → first_bit f s e b o' → o = o'.
Proof.
  assert (∀ x y : bool, x = negb y → x = y → False) as Hbb by (by intros [] []).
  destruct o as [i|], o' as [j|]; cbn; try done.
  - intros (Hi & Hfi & Hi') (Hj & Hfj & Hj'). f_equal. destruct (Z.lt_trichotomy i j) as [?|[?|?]]; [|done|].
    + destruct (Hbb (f i) b); [apply Hj'; lia|done].
    + destruct (Hbb (f j) b); [apply Hi'; lia|done].
  - intros (Hi & Hfi & _) Hn. destruct (Hbb (f i) b); auto.
  - intros Hn (Hi & Hfi & _). destruct (Hbb (f j) b); auto.
Qed.

Lemma first_bit_skip f s m e b o : s ≤ m → (∀ j, s ≤ j < m → f j = negb b) → first_bit f m e b o → first_bit f s e b o.
Proof.
  intros Hsm Hs Ho. assert (∀ j, s ≤ j → j < m ∨ m ≤ j) as Hc by lia.
  destruct o as [i|]; cbn in *.
  - destruct Ho as (Hi & Hfi & Hn). split_and!; [lia|lia|done|].
    intros j Hj. destruct (Hc j); [lia|apply Hs; lia|apply Hn; lia].
  - intros j Hj. destruct (Hc j); [lia|apply Hs; lia|apply Ho; lia].
Qed.

Lemma first_bit_cut f s e b i : s ≤ i → f i = b → (∀ j, s ≤ j < i → f j = negb b) →
  first_bit f s e b (if i <? e then Some i else None).
Proof.
  intros Hs Hi Hn. destruct (Z.ltb_spec i e); cbn; [done|]. intros j Hj. apply Hn. lia.
Qed.

Lemma search_block_spec bits block start b :
  is_uint 64 bits → 0 ≤ start < 64 → 64 * (Z.of_nat block + 1) ≤ 2 ^ 64 →
  match search_block bits block start b with
  | Some i => ∃ k, i = 64 * Z.of_nat block + k ∧ start ≤ k < 64 ∧ Z.testbit bits k = b ∧
      ∀ j, start ≤ j < k → Z.testbit bits j = negb b
  | None => ∀ j, start ≤ j < 64 → Z.testbit bits j = negb b
  end.
Proof.
  intros Hu Hs Hb. unfold search_block.
  set (m := Z.land _ _).
  assert (∀ k, 0 ≤ k < 64 → Z.testbit m k = Bool.eqb (Z.testbit bits k) b && (start <=? k)) as Hm.
  { intros k Hk. unfold m. rewrite Z.land_spec, (proj2 (high_mask_spec start k Hs Hk)). f_equal.
    destruct b; [by destruct (Z.testbit bits k)|]. rewrite wnot_testbit by (done || lia). by destruct (Z.testbit bits k). }
  assert (is_uint 64 m) as Hmu.
  { apply is_uint_land; [lia|destruct b; [done|by apply wnot_uint]|].
    pose proof (proj1 (high_mask_spec start 0 Hs ltac:(lia))) as [? _]. done. }
  assert (∀ j, start ≤ j < 64 → Z.testbit m j = false → Z.testbit bits j = negb b) as Hneg.
  { intros j Hj. rewrite Hm, (proj2 (Z.leb_le _ _)), andb_true_r by lia. by destruct (Z.testbit bits j), b. }
  destruct (Z.eqb_spec m 0) as [Hz|Hz].
  - intros j Hj. apply Hneg; [done|]. rewrite Hz. apply Z.bits_0.
  - destruct (trailing_zeros_spec m Hmu Hz) as (Ht & Hbit & Hlow). exists (trailing_zeros 64 m).
    rewrite Hm in Hbit by done. apply andb_true_iff in Hbit as [He%eqb_prop Hle%Z.leb_le].
    unfold size_from_bit_index, Size.from_bytes, wadd, wmul. change BLOCK_SIZE with 64.
    rewrite (wrap_small 64 (_ * 64)), wrap_small by (unfold is_uint; lia).
    split_and!; [lia|lia|lia|done|]. intros j Hj. apply Hneg; [lia|]. apply Hlow. lia.
Qed.

(** A block that has been searched, as a range of bits *)
Lemma search_block_first ws block w start e b o :
  Forall (is_uint 64) ws → 64 * Z.of_nat (length ws) ≤ 2 ^ 64 → ws !! block = Some w → 0 ≤ start < 64 →
  let s := 64 * Z.of_nat block + start in
  (search_block w block start b = None → first_bit (bit ws) (64 * (Z.of_nat block + 1)) e b o) →
  first_bit (bit ws) s e b
    (match search_block w block start b with Some i => if i <? e then Some i else None | None => o end).
Proof.
  intros Hu Hl Hw Hs s Hnone.
  assert (∀ j, s ≤ j < 64 * (Z.of_nat block + 1) → bit ws j = Z.testbit w (j - 64 * Z.of_nat block)) as Hbit.
  { intros j Hj. replace j with (64 * Z.of_nat block + (j - 64 * Z.of_nat block)) at 1 by lia.
    rewrite bit_at by lia. by rewrite Hw. }
  pose proof (lookup_lt_Some _ _ _ Hw) as Hlt.
  pose proof (search_block_spec w block start b (Forall_lookup_1 _ _ _ _ Hu Hw) Hs ltac:(lia)) as H.
  destruct (search_block w block start b) as [i|].
  - destruct H as (k & -> & Hk & Hkb & Hkn). apply first_bit_cut; [lia| |].
    + rewrite Hbit by lia. rewrite <- Hkb. f_equal. lia.
    + intros j Hj. rewrite Hbit by lia. apply Hkn. lia.
  - eapply first_bit_skip; [|intros j Hj|by apply Hnone]; [lia|]. rewrite Hbit by lia. apply H. lia.
Qed.

Lemma search_blocks_spec ws e b : Forall (is_uint 64) ws → 64 * Z.of_nat (length ws) ≤ 2 ^ 64 →
  ∀ n block, (block + n ≤ length ws)%nat → e ≤ 64 * Z.of_nat (block + n) →
  first_bit (bit ws) (64 * Z.of_nat block) e b (search_blocks (take n (drop block ws)) block e b).
Proof.
  intros Hu Hl. induction n as [|n IH]; intros block Hlen He.
  { cbn. intros j Hj. lia. }
  destruct (lookup_lt_is_Some_2 ws block ltac:(lia)) as [w Hw].
  rewrite (drop_S _ _ _ Hw). cbn [take search_blocks].
  pose proof (search_block_first ws block w 0 e b (search_blocks (take n (drop (S block) ws)) (S block) e b)
    Hu Hl Hw ltac:(lia)) as H.
  cbv zeta in H. rewrite Z.add_0_r in H. apply H. intros _.
  replace (64 * (Z.of_nat block + 1)) with (64 * Z.of_nat (S block)) by lia. apply IH; lia.
Qed.

(** The two searches compute the same bit: the first one of the state in the range. *)
Lemma find_bit_fast_spec ws s e b :
  Forall (is_uint 64) ws → 64 * Z.of_nat (length ws) ≤ 2 ^ 64 → 0 ≤ s → e ≤ 64 * Z.of_nat (length ws) →
  ∃ o, find_bit_fast ws s e b = Ret o ∧ first_bit (bit ws) s e b o.
Proof.
  intros Hu Hl Hs He. unfold find_bit_fast. destruct (Z.leb_spec e s) as [|Hse].
  { exists None. split; [done|]. intros j Hj. lia. }
  unfold bit_index, Size.bytes, Size.from_bytes, wsub. change BLOCK_SIZE with 64.
  rewrite wrap_small by (unfold is_uint; lia).
  destruct (word_bit s) as (i & k & Es & Hk & -> & ->); [lia|].
  destruct (word_bit (e - 1)) as (j & l & Ee & Hl' & -> & _); [lia|]. rewrite !Nat2Z.id.
  destruct (lookup_lt_is_Some_2 ws i ltac:(lia)) as [w Hw]. unfold index. rewrite Hw. cbn [unwrap obind].
  assert (first_bit (bit ws) s e b (match search_block w i k b with Some i => if i <? e then Some i else None
    | None => if (i <? j)%nat then search_blocks (take (j - i) (drop (i + 1) ws)) (i + 1) e b else None end)) as H.
  { subst s. apply search_block_first; try done. intros _. destruct (Nat.ltb_spec i j).
    - replace (64 * (Z.of_nat i + 1)) with (64 * Z.of_nat (i + 1)) by lia. apply search_blocks_spec; done || lia.
    - intros x Hx. lia. }
  destruct (search_block w i k b) as [x|]; [by eexists|].
  destruct (Nat.ltb_spec i j); [|by eexists]. unfold slice.
  rewrite (proj2 (Nat.leb_le _ _)), (proj2 (Nat.leb_le _ _)) by lia. cbn [andb rassert obind].
  eexists. split; [done|]. by replace (j + 1 - (i + 1))%nat with (j - i)%nat by lia.
Qed.

Lemma find_first_spec ws b n : ∀ s, 0 ≤ s → s + Z.of_nat n ≤ 64 * Z.of_nat (length ws) →
  ∃ o, find_first ws b (seqZ s (Z.of_nat n)) = Ret o ∧ first_bit (bit ws) s (s + Z.of_nat n) b o.
Proof.
  induction n as [|n IH]; intros s Hs He.
  { exists None. split; [done|]. intros j Hj. lia. }
  rewrite seqZ_cons by lia. cbn [find_first]. rewrite get_spec by lia. cbn [obind].
  destruct (Bool.eqb (bit ws s) b) eqn:Hb.
  - apply eqb_prop in Hb. exists (Some s). split; [done|]. cbn. split_and!; [lia..|done|lia].
  - destruct (IH (s + 1)) as (o & Ho & Hf); [lia..|].
    replace (Z.pred (Z.of_nat (S n))) with (Z.of_nat n) by lia.
    replace (Z.succ s) with (s + 1) by lia. exists o. split; [done|].
    apply (first_bit_skip _ s (s + 1)); [lia| |by replace (s + Z.of_nat (S n)) with (s + 1 + Z.of_nat n) by lia].
    intros j Hj. replace j with s by lia. by destruct (bit ws s), b.
Qed.

Lemma find_bit_slow_spec ws s e b : 0 ≤ s → e ≤ 64 * Z.of_nat (length ws) →
  ∃ o, find_bit_slow ws s e b = Ret o ∧ first_bit (bit ws) s e b o.
Proof.
  intros Hs He. unfold find_bit_slow. destruct (Z.leb_spec e s).
  { exists None. split; [|intros j Hj; lia]. by rewrite seqZ_nil by lia. }
  destruct (find_first_spec ws b (Z.to_nat (e - s)) s Hs) as (o & Ho & Hf); [lia|].
  rewrite Z2Nat.id in Ho, Hf by lia. exists o. split; [done|]. by replace (s + (e - s)) with e in Hf by lia.
Qed.

(** ** Masks *)

(** The state of the byte [x] *)
Definition mask_bit (m : InitMask.t) (x : Z) : bool :=
  match InitMask.blocks m with Lazy state => state | Materialized ws => bit ws x end.

(** The bits that are or would be allocated *)
Definition capacity (m : InitMask.t) : Z :=
  match InitMask.blocks m with Lazy _ => InitMask.len m + 64 | Materialized ws => 64 * Z.of_nat (length ws) end.

Definition wf_mask (m : InitMask.t) : Prop :=
  0 ≤ InitMask.len m ≤ capacity m ∧ capacity m < 2 ^ 64 ∧
  match InitMask.blocks m with Lazy _ => True | Materialized ws => Forall (is_uint 64) ws end.

Lemma wf_materialized ws len : wf_mask {| InitMask.blocks := Materialized ws; InitMask.len := len |} ↔ blocks_ok len ws.
Proof. unfold wf_mask, blocks_ok. cbn. tauto. Qed.

Lemma materialize_spec m : wf_mask m →
  ∃ ws, InitMask.materialize_blocks m = Ret ws ∧ blocks_ok (InitMask.len m) ws ∧
    64 * Z.of_nat (length ws) ≤ capacity m ∧ ∀ x, 0 ≤ x < InitMask.len m → bit ws x = mask_bit m x.
Proof.
  destruct m as [[st|ws] len]; intros (Hl & Hc & Hu); unfold capacity in *; cbn in *.
  - destruct (new_blocks_spec len st) as (ws & ? & ? & ? & ?); [lia..|]. by exists ws.
  - exists ws. split_and!; try done.
Qed.

Lemma range_end_ret r : 0 ≤ range_start r → 0 ≤ range_size r → range_start r + range_size r < 2 ^ 64 →
  range_end r = Ret (range_start r + range_size r).
Proof. apply size_add_sum. Qed.

Lemma get_mask m x : wf_mask m → 0 ≤ x < InitMask.len m → InitMask.get m x = Ret (mask_bit m x).
Proof.
  destruct m as [[st|ws] len]; intros (Hl & Hc & Hu) Hx; unfold capacity in *; cbn in *; [done|].
  apply get_spec. lia.
Qed.

(** ** Setting a range *)

(** The states after a range has been set: the gap behind the old end joins the range. *)
Definition set_state (m : InitMask.t) (s e : Z) (st : bool) (x : Z) : bool :=
  if (s <=? x) && (x <? e) || (InitMask.len m <=? x) then st else mask_bit m x.

(** [m'] has the states [f], the length [len] and room for at most [cap] bytes. *)
Definition mask_becomes (m' : InitMask.t) (len cap : Z) (f : Z → bool) : Prop :=
  wf_mask m' ∧ InitMask.len m' = len ∧ capacity m' ≤ cap ∧ ∀ x, 0 ≤ x < len → mask_bit m' x = f x.

(** The room after a range up to [e] has been set: blocks are only added behind the end. *)
Definition grown (m : InitMask.t) (e : Z) : Z :=
  if e <=? InitMask.len m then Z.max (capacity m) (InitMask.len m + 64) else capacity m + e + 64.

Lemma materialized_becomes len ws cap f : blocks_ok len ws → 64 * Z.of_nat (length ws) ≤ cap →
  (∀ x, 0 ≤ x < len → bit ws x = f x) → mask_becomes {| InitMask.blocks := Materialized ws; InitMask.len := len |} len cap f.
Proof. intros. split_and!; [by apply wf_materialized|done..]. Qed.

Lemma lazy_becomes len st cap f : 0 ≤ len → len + 64 < 2 ^ 64 → len + 64 ≤ cap →
  (∀ x, 0 ≤ x < len → f x = st) → mask_becomes {| InitMask.blocks := Lazy st; InitMask.len := len |} len cap f.
Proof. intros. unfold mask_becomes, wf_mask, capacity. cbn. split_and!; try done || lia. intros x Hx. by symmetry; auto. Qed.

Lemma set_range_materialized_spec m s e st :
  wf_mask m → 0 ≤ s < e → capacity m + e + 64 < 2 ^ 64 →
  ∃ m', InitMask.set_range_materialized m s e st = Ret m' ∧
    mask_becomes m' (Z.max (InitMask.len m) e) (grown m e) (set_state m s e st).
Proof.
  intros Hwf Hse Hcap. destruct (materialize_spec m Hwf) as (ws & Hm & (Hu & Hl & Hc) & Hle & Hb).
  unfold InitMask.set_range_materialized. rewrite Hm. cbn [obind]. unfold set_state, grown.
  destruct (Z.leb_spec e (InitMask.len m)) as [Hin|Hout].
  - destruct (set_range_inbounds_spec ws s e st Hu) as (w1 & -> & Hl1 & Hu1 & Hb1); [lia..|]. cbn [obind].
    eexists. split; [done|]. rewrite Z.max_l by done. apply materialized_becomes; [split_and!; [done|lia..]|lia|].
    intros x Hx. rewrite Hb1, Hb by lia. bool_cases.
  - assert (∃ w1, (if s <? InitMask.len m then set_range_inbounds ws s (InitMask.len m) st else Ret ws) = Ret w1 ∧
      words_become ws w1 (λ x, if (s <=? x) && (x <? InitMask.len m) then st else bit ws x)) as (w1 & -> & Hl1 & Hu1 & Hb1).
    { destruct (Z.ltb_spec s (InitMask.len m)); [apply set_range_inbounds_spec; done || lia|].
      exists ws. split; [done|]. split_and!; try done. intros x Hx. bool_cases. }
    cbn [obind]. rewrite size_sub_diff by lia. cbn [obind].
    destruct (grow_spec w1 (InitMask.len m) (e - InitMask.len m) st) as (w2 & -> & Hok & Hl2 & Hb2);
      [split_and!; [done|lia..]|lia..|]. cbn [obind].
    replace (InitMask.len m + (e - InitMask.len m)) with e in * by lia.
    eexists. split; [done|]. rewrite Z.max_r by lia. apply materialized_becomes; [done|lia|].
    intros x Hx. rewrite Hb2 by lia. destruct (Z.ltb_spec x (InitMask.len m)).
    + rewrite Hb1, Hb by lia. bool_cases.
    + bool_cases.
Qed.

Lemma set_range_spec m r st :
  let s := range_start r in let e := range_start r + range_size r in
  wf_mask m → 0 ≤ s → 0 < range_size r → capacity m + e + 64 < 2 ^ 64 →
  ∃ m', InitMask.set_range m r st = Ret m' ∧
    mask_becomes m' (Z.max (InitMask.len m) e) (grown m e) (set_state m s e st).
Proof.
  intros s e Hwf Hs Hsz Hcap. assert (s < e) as Hse by (unfold s, e; lia). pose proof Hwf as (Hl & Hc & _). unfold InitMask.set_range.
  rewrite range_end_ret by lia. cbn [obind]. cbv zeta. change (range_start r + range_size r) with e. fold s. unfold Size.ZERO.
  assert (∀ b, s = 0 → InitMask.len m ≤ e →
    mask_becomes {| InitMask.blocks := Lazy st; InitMask.len := e |} (Z.max (InitMask.len m) e) b (set_state m s e st) ↔ e + 64 ≤ b) as Hfull.
  { intros b Hs0 He. rewrite Z.max_r by done. split; [intros (_ & _ & H & _); exact H|].
    intros Hb. apply lazy_becomes; [lia..|]. intros x Hx. unfold set_state. bool_cases. }
  destruct ((s =? 0) && (InitMask.len m <=? e)) eqn:Hov.
  { apply andb_true_iff in Hov as [?%Z.eqb_eq ?%Z.leb_le].
    exists {| InitMask.blocks := Lazy st; InitMask.len := e |}. split; [by destruct (InitMask.blocks m)|].
    apply Hfull; [lia..|]. unfold grown. destruct (Z.leb_spec e (InitMask.len m)); lia. }
  destruct (InitMask.blocks m) as [st0|ws] eqn:Hbl; [|apply set_range_materialized_spec; done || lia].
  destruct (Bool.eqb st0 st) eqn:Heq; [|apply set_range_materialized_spec; done || lia].
  apply eqb_prop in Heq as ->. exists {| InitMask.blocks := Lazy st; InitMask.len := Z.max (InitMask.len m) e |}.
  split; [do 2 f_equal; destruct (Z.ltb_spec (InitMask.len m) e); lia|].
  unfold grown, capacity in *. rewrite Hbl in *.
  apply lazy_becomes; [lia..|destruct (Z.leb_spec e (InitMask.len m)); lia|]. intros x Hx. unfold set_state, mask_bit. rewrite Hbl. by destruct (_ || _).
Qed.

(** ** Checking a range *)

Lemma find_bit_mask ws len s e b : blocks_ok len ws → 0 ≤ s → e ≤ len →
  ∃ o, find_bit ws s e b = Ret o ∧ first_bit (bit ws) s e b o.
Proof. intros (Hu & Hl & Hc) Hs He. apply find_bit_fast_spec; done || lia. Qed.

(** The first maximal span of bytes of [s..e] that are not initialized *)
Definition uninit_span (f : Z → bool) (s e : Z) (r : AllocRange) : Prop :=
  let a := range_start r in let b := range_start r + range_size r in
  s ≤ a < b ∧ b ≤ e ∧ (∀ x, s ≤ x < a → f x = true) ∧ (∀ x, a ≤ x < b → f x = false) ∧ (b < e → f b = true).

Lemma is_range_initialized_spec m r :
  let s := range_start r in let e := range_start r + range_size r in
  wf_mask m → 0 ≤ s → 0 < range_size r → e < 2 ^ 64 →
  ∃ o, InitMask.is_range_initialized m r = Ret o ∧
    if InitMask.len m <? e then o = Some (alloc_range (InitMask.len m) (e - InitMask.len m))
    else match o with
         | None => ∀ x, s ≤ x < e → mask_bit m x = true
         | Some r' => uninit_span (mask_bit m) s e r'
         end.
Proof.
  intros s e (Hl & Hc & Hu) Hs Hsz He. assert (s < e) as Hse by (unfold s, e; lia). unfold InitMask.is_range_initialized.
  rewrite range_end_ret by lia. cbn [obind]. fold e.
  destruct (Z.ltb_spec (InitMask.len m) e) as [Hout|Hin].
  { rewrite alloc_range_from_ret by lia. by eexists. }
  unfold uninit_span, mask_bit, capacity in *. destruct (InitMask.blocks m) as [st|ws].
  { destruct st; eexists; split; try done. fold e s. split_and!; lia || done. }
  unfold InitMaskMaterialized.is_range_initialized.
  assert (blocks_ok (InitMask.len m) ws) as Hok by done.
  destruct (find_bit_mask ws (InitMask.len m) s e false Hok) as ([i|] & Hf & Ho); [lia..| |]; fold s; rewrite Hf; cbn [obind].
  2: { by exists None. }
  destruct Ho as (Hi & Hfi & Hbef).
  destruct (find_bit_mask ws (InitMask.len m) i e true Hok) as ([j|] & -> & Ho); [lia..| |]; cbn [obind default from_option id].
  - destruct Ho as (Hj & Hfj & Hbet).
    assert (i ≠ j) by (intros ->; congruence).
    rewrite alloc_range_from_ret by lia. eexists. split; [done|]. cbn.
    replace (i + (j - i)) with j by lia. split_and!; [lia..|done|done|done].
  - rewrite alloc_range_from_ret by lia. eexists. split; [done|]. cbn.
    replace (i + (e - i)) with e by lia. split_and!; [lia..|done|done|lia].
Qed.

(** ** Chunks *)

(** [l] are the maximal runs of [s..e], the first one with the state [st]. *)
Fixpoint chunks_from (f : Z → bool) (st : bool) (s e : Z) (l : list InitChunk) : Prop :=
  match l with
  | [] => s = e
  | c :: l => chunk_is_init c = st ∧ fst (chunk_range c) = s ∧ s < snd (chunk_range c) ≤ e ∧
      (∀ x, s ≤ x < snd (chunk_range c) → f x = st) ∧ chunks_from f (negb st) (snd (chunk_range c)) e l
  end.

(** The state of the iterator: the next chunk starts with the state [iter_is_init]. *)
Definition iter_wf (it : InitChunkIter) : Prop :=
  wf_mask (init_mask it) ∧ 0 ≤ iter_start it ≤ iter_end it ∧ iter_end it ≤ InitMask.len (init_mask it) ∧
  (iter_start it < iter_end it → mask_bit (init_mask it) (iter_start it) = iter_is_init it).

Lemma chunk_next_spec it : iter_wf it → iter_start it < iter_end it →
  ∃ it' c, chunk_next it = Ret (it', Some c) ∧ iter_wf it' ∧
    init_mask it' = init_mask it ∧ iter_end it' = iter_end it ∧ iter_is_init it' = negb (iter_is_init it) ∧
    chunk_is_init c = iter_is_init it ∧ chunk_range c = (iter_start it, iter_start it') ∧
    iter_start it < iter_start it' ∧ ∀ x, iter_start it ≤ x < iter_start it' → mask_bit (init_mask it) x = iter_is_init it.
Proof.
  destruct it as [m st s e]. unfold iter_wf. cbn. intros (Hwf & Hse & He & Hst) Hlt. unfold chunk_next. cbn.
  rewrite (proj2 (Z.leb_gt _ _)) by done.
  match goal with |- context [obind ?c _] => assert (∃ e1, c = Ret e1 ∧ s < e1 ≤ e ∧
    (∀ x, s ≤ x < e1 → mask_bit m x = st) ∧ (e1 < e → mask_bit m e1 = negb st)) as (e1 & -> & He1 & Hin & Hnext) end.
  { destruct m as [[st0|ws] len]; cbn in *.
    - exists e. split_and!; try done || lia. intros x Hx. by rewrite <- (Hst Hlt).
    - destruct (find_bit_mask ws len s e (negb st)) as ([i|] & -> & Ho); [by apply wf_materialized in Hwf|lia..| |];
        cbn [obind default from_option id]; eexists; split; try done.
      + destruct Ho as (Hi & Hfi & Hbef). rewrite negb_involutive in Hbef.
        assert (s ≠ i) by (intros ->; specialize (Hst Hlt); destruct st; cbn in *; congruence).
        split_and!; try lia; done.
      + cbn in Ho. rewrite negb_involutive in Ho. split_and!; try lia; done. }
  cbn [obind]. eexists _, _. split; [done|]. cbn. split_and!; try done || lia; destruct st; try done.
Qed.

Lemma chunk_collect_spec fuel : ∀ it, iter_wf it → (Z.to_nat (iter_end it - iter_start it) < fuel)%nat →
  ∃ l, chunk_collect fuel it = Ret l ∧
    chunks_from (mask_bit (init_mask it)) (iter_is_init it) (iter_start it) (iter_end it) l.
Proof.
  induction fuel as [|fuel IH]; intros it Hwf Hf; [lia|]. cbn [chunk_collect].
  pose proof Hwf as (_ & Hse & _). destruct (decide (iter_start it < iter_end it)) as [Hlt|Hge].
  - destruct (chunk_next_spec it Hwf Hlt) as (it' & c & -> & Hwf' & Hm & He & Hi & Hc & Hr & Hs & Hin). cbn [obind].
    destruct (IH it' Hwf') as (l & -> & Hl); [lia|]. cbn [obind]. rewrite Hm, He, Hi in Hl.
    exists (c :: l). split; [done|]. cbn [chunks_from]. rewrite Hr. cbn [fst snd].
    pose proof Hwf' as (_ & Hse' & _). split_and!; done || lia.
  - unfold chunk_next. rewrite (proj2 (Z.leb_le _ _)) by lia. cbn [obind]. exists []. split; [done|]. cbn. lia.
Qed.

Lemma chunks_spec m r :
  let s := range_start r in let e := range_start r + range_size r in
  wf_mask m → 0 ≤ s → 0 < range_size r → e ≤ InitMask.len m →
  ∃ l, chunks m r = Ret l ∧ chunks_from (mask_bit m) (mask_bit m s) s e l.
Proof.
  intros s e Hwf Hs Hsz He. pose proof Hwf as (Hl & Hc & _). unfold chunks, range_as_init_chunks.
  rewrite range_end_ret by (unfold s, e in *; lia). cbn [obind]. change (range_start r + range_size r) with e. fold s.
  assert (s < e) by (unfold s, e; lia).
  rewrite (proj2 (Z.leb_le _ _)), (proj2 (Z.ltb_lt s e)) by done. cbn [rassert].
  rewrite get_mask by (done || lia). cbn [obind].
  match goal with |- context [chunk_collect ?n ?i] => destruct (chunk_collect_spec n i) as (l & -> & Hch) end.
  - unfold iter_wf. cbn. split_and!; done || lia.
  - cbn. unfold e. fold s. lia.
  - by exists l.
Qed.

(** ** Copies *)

(** The lengths of the runs are written as runs of another mask. *)
Definition chunk_lengths (l : list InitChunk) : list Z :=
  (λ c, wsub 64 (snd (chunk_range c)) (fst (chunk_range c))) <$> l.

Lemma apply_ranges_spec f e l : ∀ st s ws j,
  chunks_from f st s e l → 0 ≤ s → e < 2 ^ 64 → Forall (is_uint 64) ws → 0 ≤ j →
  j + (e - s) ≤ 64 * Z.of_nat (length ws) → 64 * Z.of_nat (length ws) < 2 ^ 64 →
  ∃ ws', apply_ranges ws (chunk_lengths l) j st = Ret ws' ∧
    words_become ws ws' (λ x, if (j <=? x) && (x <? j + (e - s)) then f (s + (x - j)) else bit ws x).
Proof.
  induction l as [|c l IH]; intros st s ws j Hch Hs He Hu Hj Hin Hc; cbn [chunks_from] in Hch.
  { subst. exists ws. split; [done|]. split_and!; try done. intros x Hx. bool_cases. }
  destruct Hch as (Hci & Hcs & Hce & Hbits & Hch). unfold chunk_lengths. cbn [fmap list_fmap apply_ranges].
  fold (chunk_lengths l). rewrite Hcs. set (e1 := snd (chunk_range c)) in *.
  unfold wsub, wadd, Size.from_bytes. rewrite (wrap_small 64 (e1 - s)), wrap_small by (unfold is_uint; lia).
  assert (e1 ≤ e) by lia.
  destruct (set_range_inbounds_spec ws j (j + (e1 - s)) st Hu) as (w1 & -> & Hl1 & Hu1 & Hb1); [lia..|]. cbn [obind].
  destruct (IH (negb st) e1 w1 (j + (e1 - s)) Hch) as (w2 & -> & Hl2 & Hu2 & Hb2); try done || (rewrite ?Hl1; lia).
  exists w2. split; [done|]. split_and!; [congruence|done|]. intros x Hx. rewrite Hb2, Hb1 by (rewrite ?Hl1; lia).
  destruct (Z.leb_spec j x), (Z.ltb_spec x (j + (e1 - s))); cbn [andb].
  - rewrite (proj2 (Z.leb_gt _ _)), (proj2 (Z.ltb_lt x (j + (e - s)))) by lia. cbn. symmetry. apply Hbits. lia.
  - rewrite (proj2 (Z.leb_le _ x)) by lia. replace (j + (e1 - s) + (e - e1)) with (j + (e - s)) by lia. cbn [andb].
    destruct (x <? j + (e - s)); [f_equal; lia|done].
  - by rewrite (proj2 (Z.leb_gt _ _)) by lia.
  - lia.
Qed.

Lemma apply_repeat_spec f st l s size start k : ∀ n ws,
  chunks_from f st s (s + size) l → 0 ≤ s → 0 < size → s + size < 2 ^ 64 → Forall (is_uint 64) ws → 0 ≤ start → 0 ≤ n →
  start + (n + Z.of_nat k) * size ≤ 64 * Z.of_nat (length ws) → 64 * Z.of_nat (length ws) < 2 ^ 64 →
  ∃ ws', fold_outcome (λ ws j, apply_ranges ws (chunk_lengths l) (wadd 64 (wmul 64 j size) start) st)
      (seqZ n (Z.of_nat k)) ws = Ret ws' ∧
    words_become ws ws' (λ x, if (start + n * size <=? x) && (x <? start + (n + Z.of_nat k) * size)
      then f (s + (x - start) mod size) else bit ws x).
Proof.
  induction k as [|k IH]; intros n ws Hch Hs Hsz He Hu Hst Hn Hin Hc.
  { exists ws. split; [done|]. split_and!; try done. intros x Hx. bool_cases. }
  rewrite seqZ_cons by lia. cbn [fold_outcome]. replace (Z.pred (Z.of_nat (S k))) with (Z.of_nat k) by lia.
  unfold wadd at 1, wmul at 1. rewrite (wrap_small 64 (n * size)), wrap_small by (unfold is_uint; nia).
  destruct (apply_ranges_spec f (s + size) l st s ws (n * size + start) Hch) as (w1 & -> & Hl1 & Hu1 & Hb1); [done|lia|done|nia|nia|done|].
  cbn [obind]. destruct (IH (Z.succ n) w1 Hch) as (w2 & -> & Hl2 & Hu2 & Hb2); try done || (rewrite ?Hl1; lia).
  exists w2. split; [done|]. split_and!; [congruence|done|]. intros x Hx. rewrite Hb2, Hb1 by (rewrite ?Hl1; lia).
  replace (s + size - s) with size by lia.
  destruct (Z.leb_spec (start + n * size) x); cbn [andb].
  2: { rewrite (proj2 (Z.leb_gt _ _)), (proj2 (Z.leb_gt (n * size + start) x)) by lia. done. }
  rewrite (proj2 (Z.leb_le (n * size + start) x)) by lia. cbn [andb].
  replace (Z.succ n + Z.of_nat k) with (n + Z.of_nat (S k)) by lia.
  destruct (Z.leb_spec (start + Z.succ n * size) x); cbn [andb].
  - rewrite (proj2 (Z.ltb_ge x (n * size + start + size))) by lia. done.
  - rewrite (proj2 (Z.ltb_lt x (n * size + start + size))), (proj2 (Z.ltb_lt x (start + _))) by nia. f_equal. f_equal.
    apply Z.mod_unique with n; lia.
Qed.

Lemma chunks_head f st s e l : chunks_from f st s e l → s < e → ∃ c l', l = c :: l' ∧ chunk_is_init c = st.
Proof. destruct l as [|c l]; cbn [chunks_from]; [lia|]. intros (? & _) _. eauto. Qed.

(** A single run covers the range. *)
Lemma chunks_single f st s e c : chunks_from f st s e [c] → ∀ x, s ≤ x < e → f x = st.
Proof. cbn [chunks_from]. intros (_ & _ & _ & H & <-). exact H. Qed.

Lemma prepare_copy_spec m r :
  let s := range_start r in let e := range_start r + range_size r in
  wf_mask m → 0 ≤ s → 0 < range_size r → e ≤ InitMask.len m →
  ∃ l, prepare_copy m r = Ret {| initial := mask_bit m s; ranges := chunk_lengths l |} ∧
    chunks_from (mask_bit m) (mask_bit m s) s e l.
Proof.
  intros s e Hwf Hs Hsz He. destruct (chunks_spec m r Hwf Hs Hsz He) as (l & Hl & Hch).
  exists l. split; [|done]. unfold prepare_copy. rewrite Hl. cbn [obind].
  destruct (chunks_head _ _ _ _ _ Hch) as (c & l' & -> & Hc); [lia|]. cbn [head unwrap obind]. by rewrite Hc.
Qed.

(** The states of a destination after [repeat] copies of a source range *)
Definition copied (src dest : InitMask.t) (s start size repeat x : Z) : bool :=
  if (start <=? x) && (x <? start + size * repeat) then mask_bit src (s + (x - start) mod size) else mask_bit dest x.

Lemma apply_copy_spec src dest r s l repeat :
  let start := range_start r in let size := range_size r in
  wf_mask dest → chunks_from (mask_bit src) (mask_bit src s) s (s + size) l →
  0 ≤ s → s + size < 2 ^ 64 → 0 ≤ start → 0 < size → 0 < repeat → start + size * repeat ≤ InitMask.len dest →
  capacity dest + InitMask.len dest + 64 < 2 ^ 64 →
  ∃ m', apply_copy dest {| initial := mask_bit src s; ranges := chunk_lengths l |} r repeat = Ret m' ∧
    wf_mask m' ∧ InitMask.len m' = InitMask.len dest ∧ capacity m' ≤ Z.max (capacity dest) (InitMask.len dest + 64) ∧
    ∀ x, 0 ≤ x < InitMask.len dest → mask_bit m' x = copied src dest s start size repeat x.
Proof.
  intros start size Hwf Hch Hs He Hst Hsz Hrep Hin Hcap. pose proof Hwf as (Hl & Hc & _).
  destruct (chunks_head _ _ _ _ _ Hch) as (c & l' & -> & _); [lia|]. unfold apply_copy. cbn [ranges initial].
  unfold copied. destruct l' as [|c' l'].
  - assert (size < 2 ^ 64) by lia. cbn [chunk_lengths fmap list_fmap length Nat.leb].
    rewrite size_mul_prod by (fold size; nia). cbn [obind]. fold start size.
    rewrite size_add_sum by nia. cbn [obind]. rewrite alloc_range_from_ret by nia. cbn [obind].
    replace (start + size * repeat - start) with (size * repeat) by lia.
    destruct (set_range_spec dest (alloc_range start (size * repeat)) (mask_bit src s)) as (m' & -> & Hwf' & Hlen & Hcap' & Hb);
      cbn [alloc_range range_start range_size] in *; [done|lia|nia|lia|].
    rewrite Z.max_l in Hlen, Hb by lia. unfold grown in Hcap'. rewrite (proj2 (Z.leb_le _ _)) in Hcap' by done.
    exists m'. split_and!; try done.
    intros x Hx. rewrite Hb by done. unfold set_state. rewrite (proj2 (Z.leb_gt (InitMask.len dest) x)), orb_false_r by lia.
    destruct (_ && _); [|done]. symmetry. apply (chunks_single _ _ _ _ _ Hch). pose proof (Z.mod_pos_bound (x - start) size Hsz). lia.
  - destruct (materialize_spec dest Hwf) as (ws & -> & (Hu & Hlw & Hcw) & Hle & Hb).
    cbn [chunk_lengths fmap list_fmap length Nat.leb]. cbn [obind]. fold start size.
    destruct (apply_repeat_spec _ _ _ s size start (Z.to_nat repeat) 0 ws Hch) as (w' & Hf & Hl' & Hu' & Hb'); try done || lia.
    rewrite Z2Nat.id in * by lia.
    unfold Size.bytes. match goal with |- context [obind ?body _] => change body with (fold_outcome (λ ws j,
      apply_ranges ws (chunk_lengths (c :: c' :: l')) (wadd 64 (wmul 64 j size) start) (mask_bit src s)) (seqZ 0 repeat) ws) end.
    rewrite Hf. cbn [obind]. eexists. split; [done|]. split_and!; [|done|unfold capacity at 1; cbn [InitMask.blocks]; lia|].
    + apply wf_materialized. split_and!; [done|lia..].
    + intros x Hx. cbn [mask_bit InitMask.blocks]. unfold mask_bit at 1. cbn [InitMask.blocks].
      rewrite Hb' by lia. rewrite Hb by lia.
      by replace (start + 0 * size) with start by lia; replace ((0 + repeat) * size) with (size * repeat) by lia.
Qed.

(** ** The codec *)

Lemma fold_emit_blocks {S} `{EncoderLaws S} (ws : list Z) :
  appends emitted (fold_outcome (λ (e : S) b, emit_raw_bytes (MemDecoder.to_le_bytes 8 b) e) ws)
    (ws ≫= MemDecoder.to_le_bytes 8).
Proof.
  induction ws as [|w ws IH]; cbn [fold_outcome].
  - intros s pre Hs. rewrite app_nil_r. eauto.
  - rewrite bind_cons. apply appends_seq; [apply emit_raw_bytes_appends|done].
Qed.

Lemma decode_blocks_spec ws : Forall (is_uint 64) ws →
  ∀ d, MemDecoder.at_bytes d (ws ≫= MemDecoder.to_le_bytes 8) →
  decode_blocks (length ws) d = Ret (ws, MemDecoder.skip (length (ws ≫= MemDecoder.to_le_bytes 8)) d).
Proof.
  induction 1 as [|w ws Hw _ IH]; intros d Hd.
  { cbn. unfold MemDecoder.skip. by rewrite Nat.add_0_r; destruct d. }
  rewrite bind_cons in *. apply MemDecoder.at_bytes_app in Hd as [Hd1 Hd2]. cbn [length decode_blocks].
  pose proof (MemDecoder.read_raw_bytes_at d (MemDecoder.to_le_bytes 8 w) Hd1) as Hr.
  rewrite MemDecoder.length_to_le_bytes in *. rewrite Hr. cbn [obind]. rewrite IH by done. cbn [obind].
  rewrite length_app, MemDecoder.length_to_le_bytes, MemDecoder.skip_skip. do 3 f_equal.
  rewrite MemDecoder.from_to_le_bytes, Z.mod_small; [done|exact Hw].
Qed.

Lemma blocks_codec {S} `{EncoderLaws S} (ws : list Z) : Forall (is_uint 64) ws → Z.of_nat (length ws) < 2 ^ 64 →
  ∃ bs, appends emitted (encode (S := S) ws) bs ∧
    ∀ d, MemDecoder.at_bytes d bs → decode d = Ret (ws, MemDecoder.skip (length bs) d).
Proof.
  intros Hu Hl. destruct (write_unsigned_total 64 (Z.of_nat (length ws))) as [len Hb]; [lia|split; lia|].
  exists (len ++ (ws ≫= MemDecoder.to_le_bytes 8)). split.
  - apply appends_seq; [by apply emit_usize_appends|apply fold_emit_blocks].
  - intros d [Hd1 Hd2]%MemDecoder.at_bytes_app. unfold decode, read_usize.
    rewrite (read_unsigned_leb128_at 64 (Z.of_nat (length ws)) len) by (done || split; lia). cbn [obind].
    rewrite Nat2Z.id, decode_blocks_spec by done. by rewrite MemDecoder.skip_skip, length_app.
Qed.

(** ** The reference *)

(** A length and the state of every byte below it *)
Definition ref_mask : Type := Z * (Z → bool).

Definition ref_new (size : Z) (st : bool) : ref_mask := (size, λ _, st).

Definition ref_set (m : ref_mask) (op : AllocRange * bool) : ref_mask :=
  let s := range_start op.1 in let e := range_start op.1 + range_size op.1 in
  (Z.max m.1 e, λ x, if (s <=? x) && (x <? e) || (m.1 <=? x) then op.2 else m.2 x).

Definition op_ok (op : AllocRange * bool) : Prop := 0 ≤ range_start op.1 ∧ 0 < range_size op.1.

(** What the masks of the operations can take at most *)
Definition ops_room (ops : list (AllocRange * bool)) : Z :=
  foldr (λ op n, range_start op.1 + range_size op.1 + 64 + n) 0 ops.

Lemma ops_room_pos ops : Forall op_ok ops → 0 ≤ ops_room ops.
Proof.
  induction 1 as [|op ops [? ?] _ IH]; [done|]. cbn [ops_room foldr]. fold (ops_room ops). lia.
Qed.

Definition refines (m : InitMask.t) (r : ref_mask) : Prop :=
  InitMask.len m = r.1 ∧ ∀ x, 0 ≤ x < r.1 → mask_bit m x = r.2 x.

Lemma ops_refine ops : ∀ m r, wf_mask m → refines m r → Forall op_ok ops → capacity m + ops_room ops < 2 ^ 64 →
  ∃ m', fold_outcome (λ m op, InitMask.set_range m op.1 op.2) ops m = Ret m' ∧ wf_mask m' ∧
    refines m' (foldl ref_set r ops).
Proof.
  induction ops as [|[rg st] ops IH]; intros m r Hwf Hr Hok Hroom.
  { exists m. done. }
  cbn [ops_room foldr fst] in Hroom. fold (ops_room ops) in Hroom.
  apply list.Forall_cons in Hok as [[Hs Hsz] Hok]. cbn [fst snd] in *. cbn [fold_outcome foldl fst snd].
  pose proof (ops_room_pos ops Hok).
  destruct (set_range_spec m rg st Hwf Hs Hsz) as (m' & -> & Hwf' & Hlen & Hcap & Hb); [lia|]. cbn [obind].
  apply IH; [done| |done|unfold grown in Hcap; destruct (Z.leb_spec (range_start rg + range_size rg) (InitMask.len m)); unfold wf_mask in Hwf; lia].
  destruct Hr as [Hr1 Hr2]. unfold refines, ref_set. cbn [fst snd]. rewrite <- Hr1.
  split; [done|]. intros x Hx. rewrite Hb by done. unfold set_state.
  destruct (Z.leb_spec (InitMask.len m) x); [by rewrite !orb_true_r|]. rewrite Hr2 by lia. done.
Qed.

(** ** Properties *)

(** C35. Initialization masks implement a bit per byte.  For every sequence of
    nonempty ranges set on a new mask, however it switches between its lazy and its
    materialized representation and grows, the mask has the length and, for every
    byte below it, the state of the reference that stores one state per byte: the
    bytes of a range and of the gap between the old end and the range get the new
    state, all others keep theirs.  (The total length of the ranges is bounded, so
    that the sizes stay below [2^64].) *)
Theorem init_mask_refines_bytes size st ops :
  0 ≤ size → Forall op_ok ops → size + 64 + ops_room ops < 2 ^ 64 →
  ∃ m, fold_outcome (λ m op, InitMask.set_range m op.1 op.2) ops (InitMask.new size st) = Ret m ∧
    let r := foldl ref_set (ref_new size st) ops in
    InitMask.len m = r.1 ∧ ∀ x, 0 ≤ x < r.1 → InitMask.get m x = Ret (r.2 x).
Proof.
  intros Hsz Hok Hroom. pose proof (ops_room_pos ops Hok).
  destruct (ops_refine ops (InitMask.new size st) (ref_new size st)) as (m & Hm & Hwf & Hl & Hb); [|done|done|done|].
  - unfold wf_mask, capacity. cbn. lia.
  - exists m. split; [done|]. split; [done|]. intros x Hx. rewrite get_mask by (done || lia). by rewrite Hb.
Qed.

Lemma init_mask_refines_bytes_witness :
  ∃ m, fold_outcome (λ m op, InitMask.set_range m op.1 op.2) [(alloc_range 60 10, true); (alloc_range 200 4, true)]
      (InitMask.new 100 false) = Ret m ∧
    let r := foldl ref_set (ref_new 100 false) [(alloc_range 60 10, true); (alloc_range 200 4, true)] in
    InitMask.len m = r.1 ∧ ∀ x, 0 ≤ x < r.1 → InitMask.get m x = Ret (r.2 x).
Proof.
  apply init_mask_refines_bytes; [lia|by repeat constructor|vm_compute; reflexivity].
Defined.

(** The search for a bit of a mask that skips whole blocks with
    [trailing_zeros] returns, for every range inside the blocks and either state,
    what the search of one bit at a time returns: neither panics, and the result is
    the first byte of the range with that state, or nothing when there is none. *)
Theorem find_bit_fast_equals_slow ws s e b :
  Forall (is_uint 64) ws → 64 * Z.of_nat (length ws) ≤ 2 ^ 64 → 0 ≤ s → e ≤ 64 * Z.of_nat (length ws) →
  ∃ o, find_bit_fast ws s e b = Ret o ∧ find_bit_slow ws s e b = Ret o ∧ first_bit (bit ws) s e b o.
Proof.
  intros Hu Hl Hs He. destruct (find_bit_fast_spec ws s e b Hu Hl Hs He) as (o & -> & Ho).
  destruct (find_bit_slow_spec ws s e b Hs He) as (o' & -> & Ho').
  exists o. split_and!; [done| |done]. f_equal. by apply (first_bit_unique _ _ _ _ _ _ Ho').
Qed.

Lemma find_bit_fast_equals_slow_witness :
  ∃ o, find_bit_fast [0; 0; 12] 5 192 true = Ret o ∧ find_bit_slow [0; 0; 12] 5 192 true = Ret o ∧
    first_bit (bit [0; 0; 12]) 5 192 true o.
Proof. apply find_bit_fast_equals_slow; [by repeat constructor|done..]. Defined.

(** Checking a nonempty range of a mask is exact.  A range that reaches behind
    the mask fails with the bytes behind its end; otherwise the check succeeds
    exactly when every byte of the range is initialized and fails with the first
    maximal span of bytes that are not.  The iterator over the chunks of a range in
    bounds yields its maximal runs: nonempty, adjacent, of alternating states. *)
Theorem init_mask_checks_exact m r :
  let s := range_start r in let e := range_start r + range_size r in
  wf_mask m → 0 ≤ s → 0 < range_size r → e < 2 ^ 64 →
  (∃ o, InitMask.is_range_initialized m r = Ret o ∧
    if InitMask.len m <? e then o = Some (alloc_range (InitMask.len m) (e - InitMask.len m))
    else match o with
         | None => ∀ x, s ≤ x < e → mask_bit m x = true
         | Some r' => uninit_span (mask_bit m) s e r'
         end) ∧
  (e ≤ InitMask.len m → ∃ l, chunks m r = Ret l ∧ chunks_from (mask_bit m) (mask_bit m s) s e l).
Proof.
  intros s e Hwf Hs Hsz He. split; [by apply is_range_initialized_spec|]. intros Hin. by apply chunks_spec.
Qed.

Definition sample_mask : InitMask.t :=
  {| InitMask.blocks := Materialized [2 ^ 64 - 4; 7]; InitMask.len := 100 |}.

Lemma init_mask_checks_exact_witness :
  let s := 1 in let e := 71 in
  (∃ o, InitMask.is_range_initialized sample_mask (alloc_range 1 70) = Ret o ∧
    if InitMask.len sample_mask <? e then o = Some (alloc_range (InitMask.len sample_mask) (e - InitMask.len sample_mask))
    else match o with
         | None => ∀ x, s ≤ x < e → mask_bit sample_mask x = true
         | Some r' => uninit_span (mask_bit sample_mask) s e r'
         end) ∧
  (e ≤ InitMask.len sample_mask → ∃ l, chunks sample_mask (alloc_range 1 70) = Ret l ∧
    chunks_from (mask_bit sample_mask) (mask_bit sample_mask s) s e l).
Proof.
  apply (init_mask_checks_exact sample_mask (alloc_range 1 70)); [|done..].
  split_and!; [done..|]. by repeat constructor.
Defined.

(** Copying the states of a range: preparing the run-length encoding of a
    nonempty range of one mask and applying it [repeat] times to a range of another
    mask returns, keeps the length, gives the byte [k] of every copy the state of
    the byte [k] of the source range, and changes no other byte, whichever of the
    masks are lazy. *)
Theorem init_copy_exact src dest r d repeat :
  let size := range_size r in
  wf_mask src → wf_mask dest → 0 ≤ range_start r → 0 < size → range_start r + size ≤ InitMask.len src →
  0 ≤ d → 0 < repeat → d + size * repeat ≤ InitMask.len dest →
  capacity dest + InitMask.len dest + 64 < 2 ^ 64 →
  ∃ c m', prepare_copy src r = Ret c ∧ apply_copy dest c (alloc_range d size) repeat = Ret m' ∧
    InitMask.len m' = InitMask.len dest ∧
    ∀ x, 0 ≤ x < InitMask.len dest → InitMask.get m' x = Ret (copied src dest (range_start r) d size repeat x).
Proof.
  intros size Hs Hd H1 H2 H3 H4 H5 H6 H7. pose proof Hs as (Hl & Hc & _).
  destruct (prepare_copy_spec src r Hs H1 H2 H3) as (l & Hp & Hch).
  destruct (apply_copy_spec src dest (alloc_range d size) (range_start r) l repeat Hd Hch) as (m' & Ha & Hwf & Hlen & _ & Hb);
    cbn [alloc_range range_start range_size]; try done || lia.
  eexists _, m'. split_and!; [done..|]. intros x Hx. rewrite get_mask by (done || lia). by rewrite Hb.
Qed.

Lemma init_copy_exact_witness :
  ∃ c m', prepare_copy sample_mask (alloc_range 1 70) = Ret c ∧
    apply_copy (InitMask.new 500 true) c (alloc_range 9 70) 4 = Ret m' ∧ InitMask.len m' = 500 ∧
    ∀ x, 0 ≤ x < 500 → InitMask.get m' x = Ret (copied sample_mask (InitMask.new 500 true) 1 9 70 4 x).
Proof.
  apply (init_copy_exact sample_mask (InitMask.new 500 true) (alloc_range 1 70) 9 4); [|done..].
  split_and!; [done..|]. by repeat constructor.
Defined.

(** ** The empty range *)

(** An empty range at the start of a block sets all the 64 bytes of the block. *)
Lemma empty_range_sets_block : ∃ m, InitMask.set_range (InitMask.new 100 false) (alloc_range 0 0) true = Ret m ∧
  InitMask.get m 0 = Ret true ∧ InitMask.get m 63 = Ret true ∧ InitMask.get m 64 = Ret false.
Proof. eexists. split; [vm_compute; reflexivity|]. done. Qed.
