(* ===== verification/Provenance.v ===== *)
(** * Provenance maps

    [compiler/rustc_middle/src/mir/interpret/allocation/provenance_map.rs]: where
    the bytes of an allocation come from pointers, in one sorted map for whole
    pointers and one for single bytes; [Provenance] of [interpret/pointer.rs] and
    [AllocError] of [allocation.rs].

    The only state that a fallible operation changes before it fails is the
    byte-wise part, in machines that never fail: an error comes without a map. *)

From S2P Require Import Prelude.
From S2P Require Import Abi.
From S2P Require Import Slice.
From S2P Require Import BitSets.
From S2P Require Import SortedMap.
From S2P Require Import InitMask.

(** [trait Provenance], what the modelled code uses of it; [join] may panic. *)
Class Provenance (Prov : Type) : Type := {
  OFFSET_IS_ADDR : bool;
  join : option Prov → option Prov → outcome (option Prov);
}.

(** [impl Provenance for AllocId]; an [AllocId] is its number. *)
Definition AllocId : Type := Z.

#[export] Instance AllocId_Provenance : Provenance AllocId := {| OFFSET_IS_ADDR := false; join _ _ := Panic |}.

Record BadBytesAccess : Type := { access : AllocRange; bad : AllocRange }.
Record SizeMismatch : Type := { target_size : Z; data_size : Z }.

Inductive AllocError : Type :=
| ScalarSizeMismatch (s : SizeMismatch)
| ReadPointerAsInt (info : option BadBytesAccess)
| OverwritePartialPointer (offset : Size)
| ReadPartialPointer (offset : Size)
| InvalidUninitBytes (info : option BadBytesAccess).

Record ProvenanceCopy (Prov : Type) : Type := {
  dest_ptrs : option (list (Z * Prov));
  dest_bytes : option (list (Z * Prov));
}.
Arguments dest_ptrs {Prov} _.
Arguments dest_bytes {Prov} _.

Module ProvenanceMap.

Section Ops.
Context {Prov : Type} `{Provenance Prov}.

Record t : Type := { ptrs : SortedMap.t Z Prov; bytes : option (SortedMap.t Z Prov) }.

Definition new : t := {| ptrs := SortedMap.new; bytes := None |}.

Definition from_presorted_ptrs (r : list (Z * Prov)) : t :=
  {| ptrs := SortedMap.from_presorted_elements r; bytes := None |}.

Definition range_get_ptrs (m : t) (r : AllocRange) (cx : TargetDataLayout) : outcome (list (Z * Prov)) :=
  let back := wsub 64 (Size.bytes (pointer_size cx)) 1 in
  let adjusted_start := Size.from_bytes (Z.max 0 (Size.bytes (range_start r) - back)) in
  let! end_ := range_end r in
  SortedMap.range (ptrs m) (range (T := Z) adjusted_start end_).

Definition range_get_bytes (m : t) (r : AllocRange) : outcome (list (Z * Prov)) :=
  match bytes m with
  | Some b => let! end_ := range_end r in SortedMap.range b (range (T := Z) (range_start r) end_)
  | None => Ret []
  end.

Definition get (m : t) (offset : Size) (cx : TargetDataLayout) : outcome (option Prov) :=
  let! prov := range_get_ptrs m (alloc_range offset (Size.from_bytes 1)) cx in
  match prov with
  | entry :: _ => Ret (Some (snd entry))
  | [] => match bytes m with Some b => SortedMap.get b offset | None => Ret None end
  end.

Definition get_ptr (m : t) (offset : Size) : outcome (option Prov) := SortedMap.get (ptrs m) offset.

Definition range_empty (m : t) (r : AllocRange) (cx : TargetDataLayout) : outcome bool :=
  let! p := range_get_ptrs m r cx in
  match p with
  | [] => let! b := range_get_bytes m r in Ret (match b with [] => true | _ => false end)
  | _ => Ret false
  end.

Definition provenances (m : t) : list Prov :=
  SortedMap.values (ptrs m) ++ match bytes m with Some b => SortedMap.values b | None => [] end.

Definition insert_ptr (m : t) (offset : Size) (prov : Prov) : outcome t :=
  let! (p, _) := SortedMap.insert (ptrs m) offset prov in Ret {| ptrs := p; bytes := bytes m |}.

(** [for offset in from..to { bytes.insert(offset, prov); }] *)
Definition insert_bytes (b : SortedMap.t Z Prov) (from to : Size) (prov : Prov) : outcome (SortedMap.t Z Prov) :=
  fold_outcome (λ b offset, let! (b, _) := SortedMap.insert b offset prov in Ret b) (seqZ from (to - from)) b.

(** What remains of the pointer at [offset] goes to the bytes [from..to]. *)
Definition keep_part (m : t) (offset from to : Size) : outcome t :=
  let! prov := SortedMap.index_key (ptrs m) offset in
  let! b := insert_bytes (default SortedMap.new (bytes m)) from to prov in
  Ret {| ptrs := ptrs m; bytes := Some b |}.

Definition clear (m : t) (r : AllocRange) (cx : TargetDataLayout) : outcome (result t AllocError) :=
  let start := range_start r in
  let! end_ := range_end r in
  let! m := if OFFSET_IS_ADDR then
      match bytes m with
      | Some b => let! b := SortedMap.remove_range b (range (T := Z) start end_) in Ret {| ptrs := ptrs m; bytes := Some b |}
      | None => Ret m
      end
    else Ret m in
  let! provenance := range_get_ptrs m r cx in
  match provenance with
  | [] => Ret (Ok m)
  | p :: _ =>
      let first := fst p in
      let! q := unwrap (list.last provenance) in
      let! last := Size.add (fst q) (pointer_size cx) in
      if (first <? start) && negb OFFSET_IS_ADDR then Ret (Err (OverwritePartialPointer first))
      else
        let! m := if first <? start then keep_part m first first start else Ret m in
        let! begin_of_last := if end_ <? last then Size.sub last (pointer_size cx) else Ret last in
        if (end_ <? last) && negb OFFSET_IS_ADDR then Ret (Err (OverwritePartialPointer begin_of_last))
        else
          let! m := if end_ <? last then keep_part m begin_of_last end_ last else Ret m in
          let! p := SortedMap.remove_range (ptrs m) (range (T := Z) first last) in
          Ret (Ok {| ptrs := p; bytes := bytes m |})
  end.

(** The closure [shift_offset] *)
Definition shift_offset (src : AllocRange) (dest : Size) (idx : Z) (offset : Size) : outcome Size :=
  let! repetition := Size.mul (range_size src) idx in
  let! dest_offset := Size.add dest repetition in
  let! relative := Size.sub offset (range_start src) in
  Size.add relative dest_offset.

(** [entries.iter().map(|&(offset, reloc)| (shift_offset(i, offset), reloc))] *)
Definition shift_entries (src : AllocRange) (dest : Size) (i : Z) (entries : list (Z * Prov))
    : outcome (list (Z * Prov)) :=
  fold_outcome (λ l e, let! o := shift_offset src dest i (fst e) in Ret (l ++ [(o, snd e)])) entries [].

(** [for i in 0..count { v.extend(...) }] *)
Definition repeat_entries (src : AllocRange) (dest : Size) (count : Z) (entries : list (Z * Prov))
    : outcome (list (Z * Prov)) :=
  fold_outcome (λ l i, let! s := shift_entries src dest i entries in Ret (l ++ s)) (seqZ 0 count) [].

(** The loop over the part of a pointer at the end of the range *)
Definition push_end (src : AllocRange) (entry : Z * Prov) (bytes : list (Z * Prov)) (offset : Size)
    : outcome (list (Z * Prov)) :=
  if match list.last bytes with Some e => fst e <? offset | None => true end then Ret (bytes ++ [(offset, snd entry)])
  else rassert (fst entry <=? range_start src) (Ret bytes).

Definition copy_bytes (m : t) (src : AllocRange) (cx : TargetDataLayout) (begin_overlap end_overlap : option (Z * Prov))
    : outcome (list (Z * Prov)) :=
  let! src_end := range_end src in
  let! first := match begin_overlap with
    | Some entry =>
        let! e := Size.add (fst entry) (pointer_size cx) in
        let entry_end := Z.min e src_end in
        Ret ((λ offset, (offset, snd entry)) <$> seqZ (range_start src) (entry_end - range_start src))
    | None => Ret []
    end in
  let! main := range_get_bytes m src in
  match end_overlap with
  | Some entry =>
      let entry_start := Z.max (fst entry) (range_start src) in
      fold_outcome (push_end src entry) (seqZ entry_start (src_end - entry_start)) (first ++ main)
  | None => Ret (first ++ main)
  end.

Definition prepare_copy (m : t) (src : AllocRange) (dest : Size) (count : Z) (cx : TargetDataLayout)
    : outcome (result (ProvenanceCopy Prov) AllocError) :=
  let ptr_size := pointer_size cx in
  let! dest_ptrs_box := if ptr_size <=? range_size src then
      let! src_end := range_end src in
      let adjusted_end := Size.from_bytes (wsub 64 (Size.bytes src_end) (wsub 64 (Size.bytes ptr_size) 1)) in
      let! p := SortedMap.range (ptrs m) (range (T := Z) (range_start src) adjusted_end) in
      let! d := repeat_entries src dest count p in Ret (Some d)
    else Ret None in
  let! begin_list := range_get_ptrs m (alloc_range (range_start src) Size.ZERO) cx in
  let! src_end := range_end src in
  let! end_list := range_get_ptrs m (alloc_range src_end Size.ZERO) cx in
  if negb OFFSET_IS_ADDR then
    match head begin_list, head end_list with
    | Some entry, _ => Ret (Err (ReadPartialPointer (fst entry)))
    | None, Some entry => Ret (Err (ReadPartialPointer (fst entry)))
    | None, None => Ret (Ok {| dest_ptrs := dest_ptrs_box; dest_bytes := None |})
    end
  else
    let! b := copy_bytes m src cx (head begin_list) (head end_list) in
    let! d := repeat_entries src dest count b in
    Ret (Ok {| dest_ptrs := dest_ptrs_box; dest_bytes := Some d |}).

Definition apply_copy (m : t) (copy : ProvenanceCopy Prov) : outcome t :=
  let! m := match dest_ptrs copy with
    | Some d => let! p := SortedMap.insert_presorted (ptrs m) d in Ret {| ptrs := p; bytes := bytes m |}
    | None => Ret m
    end in
  if OFFSET_IS_ADDR then
    match dest_bytes copy with
    | Some ((_ :: _) as d) =>
        let! b := SortedMap.insert_presorted (default SortedMap.new (bytes m)) d in
        Ret {| ptrs := ptrs m; bytes := Some b |}
    | _ => Ret m
    end
  else Ret m.

End Ops.
Arguments t : clear implicits.

End ProvenanceMap.
