(* ===== verification/ProvenanceProps.v ===== *)
(** * Correctness of provenance maps

    A provenance map stands for a relation between bytes and provenances: the
    pointer that covers a byte, or the entry of the byte.  The operations are
    stated on that relation: clearing removes exactly the bytes of the range
    (splitting pointers where the machine allows it, and failing at the first
    pointer it would have to split elsewhere), and copying writes the provenance of
    every byte of the source range to every copy. *)

From S2P Require Import Prelude.
From S2P Require Import Abi.
From S2P Require Import Slice.
From S2P Require Import BitSets.
From S2P Require Import BitSetProps.
From S2P Require Import SortedMap.
From S2P Require Import SortedMapProps.
From S2P Require Import InitMask.
From S2P Require Import InitMaskProps.
From S2P Require Import Provenance.

Import ProvenanceMap.

Section Maps.
Context {Prov : Type} {PV : Provenance Prov} (cx : TargetDataLayout).
Abbreviation ps := (pointer_size cx).
Hypothesis ps_ok : 0 < ps < 2 ^ 64.
Implicit Types m : ProvenanceMap.t Prov.

(** ** The relation *)

Definition entries m : list (Z * Prov) := SortedMap.data (ptrs m).

Definition byte_at m (x : Z) : option Prov := match bytes m with Some b => lookup b x | None => None end.

Definition covers (k x : Z) : Prop := k ≤ x < k + ps.

Definition prov_at m (x : Z) (p : Prov) : Prop := (∃ k, (k, p) ∈ entries m ∧ covers k x) ∨ byte_at m x = Some p.

(** Pointers are sorted, at least a pointer size apart and within the address
    space; entries for single bytes are not below a pointer. *)
Record wf_prov m : Prop := {
  wf_ptrs : wf_map (ptrs m);
  wf_bytes b : bytes m = Some b → wf_map b;
  wf_bytewise : OFFSET_IS_ADDR = false → bytes m = None;
  wf_bounds k p : (k, p) ∈ entries m → 0 ≤ k ∧ k + ps < 2 ^ 64;
  wf_spaced k p k' p' : (k, p) ∈ entries m → (k', p') ∈ entries m → k < k' → k + ps ≤ k';
  wf_disjoint k p x : (k, p) ∈ entries m → covers k x → byte_at m x = None;
}.

Lemma entry_unique m k p p' : wf_prov m → (k, p) ∈ entries m → (k, p') ∈ entries m → p = p'.
Proof.
  intros Hm H1 H2. pose proof (wf_ptrs m Hm) as Hs.
  apply (assoc_elem k p _ Hs) in H1. apply (assoc_elem k p' _ Hs) in H2. congruence.
Qed.

Lemma covers_unique m k p k' p' x : wf_prov m → (k, p) ∈ entries m → (k', p') ∈ entries m →
  covers k x → covers k' x → k = k' ∧ p = p'.
Proof.
  unfold covers. intros Hm H1 H2 C1 C2. assert (k = k') as ->; [|split; [done|by eapply entry_unique]].
  destruct (Z.lt_trichotomy k k') as [Hl|[?|Hl]]; [|done|].
  - pose proof (wf_spaced m Hm _ _ _ _ H1 H2 Hl). lia.
  - pose proof (wf_spaced m Hm _ _ _ _ H2 H1 Hl). lia.
Qed.

Lemma prov_unique m x p p' : wf_prov m → prov_at m x p → prov_at m x p' → p = p'.
Proof.
  intros Hm [(k & Hk & C)|Hb] [(k' & Hk' & C')|Hb'].
  - by destruct (covers_unique m k p k' p' x).
  - rewrite (wf_disjoint m Hm k p x) in Hb'; done.
  - rewrite (wf_disjoint m Hm k' p' x) in Hb; done.
  - congruence.
Qed.

(** ** Queries *)

Lemma cmp_Z (a b : Z) : cmp a b = Lt ↔ a < b.
Proof. apply Z.compare_lt_iff. Qed.

(** Entries of a sorted map in a range of integers *)
Lemma range_entries {V} (b : SortedMap.t Z V) s e : wf_map b → s ≤ e →
  ∃ l, SortedMap.range b (range s e) = Ret l ∧ sorted l ∧ ∀ q, q ∈ l ↔ q ∈ SortedMap.data b ∧ s ≤ q.1 < e.
Proof.
  intros Hb Hse. eexists. split; [apply range_map; [done|]|].
  - intros k. unfold after_start, before_end. cbn [range start_bound end_bound]. rewrite !cmp_Z. lia.
  - split; [by apply sorted_filtered|]. intros q. rewrite list_elem_of_filter.
    unfold in_keys, after_start, before_end. cbn [range start_bound end_bound]. rewrite !cmp_Z. intuition lia.
Qed.

Lemma remove_range_entries {V} (b : SortedMap.t Z V) s e : wf_map b → s ≤ e →
  ∃ b', SortedMap.remove_range b (range s e) = Ret b' ∧ wf_map b' ∧
    ∀ q, q ∈ SortedMap.data b' ↔ q ∈ SortedMap.data b ∧ ¬ (s ≤ q.1 < e).
Proof.
  intros Hb Hse. eexists. split; [apply remove_range_map; [done|]|].
  - intros k. unfold after_start, before_end. cbn [range start_bound end_bound]. rewrite !cmp_Z. lia.
  - split; [by apply sorted_filtered|]. intros q. cbn [SortedMap.data]. rewrite list_elem_of_filter.
    unfold in_keys, after_start, before_end. cbn [range start_bound end_bound]. rewrite !cmp_Z. intuition lia.
Qed.

(** The pointers that overlap a range, or the edge it stands for when it is empty *)
Lemma range_get_ptrs_spec m r : wf_prov m → 0 ≤ range_start r → 0 ≤ range_size r → range_start r + range_size r < 2 ^ 64 →
  ∃ l, range_get_ptrs m r cx = Ret l ∧ sorted l ∧
    ∀ q, q ∈ l ↔ q ∈ entries m ∧ range_start r - ps < q.1 < range_start r + range_size r.
Proof.
  intros Hm Hs Hsz He. unfold range_get_ptrs. rewrite range_end_ret by done. cbn [obind].
  unfold Size.bytes, Size.from_bytes, wsub, Size. rewrite wrap_small by (unfold is_uint; lia).
  match goal with |- context [range ?a ?b] => destruct (range_entries (ptrs m) a b (wf_ptrs m Hm)) as (l & -> & Hl & Hq) end; [lia|].
  exists l. split_and!; [done..|]. intros [k p]. rewrite Hq. unfold entries. cbn [fst].
  split; intros [Hk ?]; (split; [done|]); pose proof (wf_bounds m Hm k p Hk); lia.
Qed.

(** Entries for single bytes *)
Lemma byte_entry (b : SortedMap.t Z Prov) x p : wf_map b → lookup b x = Some p ↔ (x, p) ∈ SortedMap.data b.
Proof. apply assoc_elem. Qed.

Lemma range_get_bytes_spec m r : wf_prov m → 0 ≤ range_start r → 0 ≤ range_size r → range_start r + range_size r < 2 ^ 64 →
  ∃ l, range_get_bytes m r = Ret l ∧ sorted l ∧
    ∀ x p, (x, p) ∈ l ↔ byte_at m x = Some p ∧ range_start r ≤ x < range_start r + range_size r.
Proof.
  intros Hm Hs Hsz He. unfold range_get_bytes, byte_at. destruct (bytes m) as [b|] eqn:Eb.
  - rewrite range_end_ret by done. cbn [obind]. unfold Size. pose proof (wf_bytes m Hm b Eb) as Hb.
    destruct (range_entries b (range_start r) (range_start r + range_size r) Hb) as (l & -> & Hl & Hq); [lia|].
    exists l. split_and!; [done..|]. intros x p. rewrite Hq, byte_entry by done. done.
  - exists []. split_and!; [done|constructor|]. intros x p. rewrite elem_of_nil. split; [done|by intros [? _]].
Qed.

Lemma get_prov m x : wf_prov m → 0 ≤ x → x + 1 < 2 ^ 64 →
  ∃ o, get m x cx = Ret o ∧ ∀ p, o = Some p ↔ prov_at m x p.
Proof.
  intros Hm Hx Hb. unfold get. unfold Size.from_bytes.
  destruct (range_get_ptrs_spec m (alloc_range x 1) Hm) as (l & -> & Hl & Hq); cbn [alloc_range range_start range_size] in *; [lia..|].
  cbn [obind]. destruct l as [|[k p] l].
  - assert (∀ p, prov_at m x p ↔ byte_at m x = Some p) as Hp.
    { intros p. unfold prov_at. split; [|by right]. intros [(k & Hk & C)|?]; [|done].
      assert ((k, p) ∈ []) as []%elem_of_nil. apply Hq. split; [done|]. unfold covers in C. cbn. lia. }
    unfold byte_at in Hp. destruct (bytes m) as [b|] eqn:Eb.
    + rewrite get_map by (by apply (wf_bytes m Hm)). eexists. split; [done|]. intros p. by rewrite Hp.
    + exists None. split; [done|]. intros p. by rewrite Hp.
  - destruct (proj1 (Hq (k, p)) ltac:(left)) as [Hk C]. cbn in C.
    assert (prov_at m x p) as Hp by (left; exists k; split; [done|unfold covers; lia]).
    eexists. split; [done|]. intros p'. cbn [snd]. split; [by intros [= <-]|]. intros Hp'. f_equal. by eapply prov_unique.
Qed.

Lemma range_empty_spec m r : wf_prov m → 0 ≤ range_start r → 0 < range_size r → range_start r + range_size r < 2 ^ 64 →
  ∃ b, range_empty m r cx = Ret b ∧
    (b = true ↔ ∀ x p, range_start r ≤ x < range_start r + range_size r → ¬ prov_at m x p).
Proof.
  intros Hm Hs Hsz He. unfold range_empty.
  destruct (range_get_ptrs_spec m r Hm) as (l & -> & _ & Hq); [lia..|].
  destruct (range_get_bytes_spec m r Hm) as (lb & -> & _ & Hqb); [lia..|]. cbn [obind].
  destruct l as [|[k p] l].
  - eexists. split; [done|]. destruct lb as [|[x p] lb].
    + split; [|done]. intros _ x p Hx [(k & Hk & C)|Hb].
      * unfold covers in C. assert ((k, p) ∈ []) as []%elem_of_nil. apply Hq. cbn. split; [done|lia].
      * assert ((x, p) ∈ []) as []%elem_of_nil. by apply Hqb.
    + split; [done|]. intros Hn. destruct (proj1 (Hqb x p) ltac:(left)) as [Hb Hx]. destruct (Hn x p Hx). by right.
  - eexists. split; [done|]. split; [done|]. intros Hn. destruct (proj1 (Hq (k, p)) ltac:(left)) as [Hk C]. cbn in C.
    destruct (Hn (Z.max k (range_start r)) p); [lia|]. left. exists k. split; [done|]. unfold covers. lia.
Qed.

(** ** Clearing a range *)

Lemma insert_bytes_spec n : ∀ (b : SortedMap.t Z Prov) from p, wf_map b →
  ∃ b', fold_outcome (λ b offset, let! (b, _) := SortedMap.insert b offset p in Ret b) (seqZ from (Z.of_nat n)) b = Ret b' ∧
    wf_map b' ∧ ∀ x, lookup b' x = if (from <=? x) && (x <? from + Z.of_nat n) then Some p else lookup b x.
Proof.
  induction n as [|n IH]; intros b from p Hb.
  { exists b. split_and!; [done..|]. intros x. destruct (Z.leb_spec from x), (Z.ltb_spec x (from + Z.of_nat 0)); done || lia. }
  rewrite seqZ_cons by lia. replace (Z.pred (Z.of_nat (S n))) with (Z.of_nat n) by lia. cbn [fold_outcome].
  destruct (insert_map b from p Hb) as (b1 & -> & Hb1 & Hs). cbn [obind].
  destruct (IH b1 (Z.succ from) p Hb1) as (b2 & -> & Hb2 & Hl). exists b2. split_and!; [done..|].
  intros x. rewrite Hl, Hs. destruct (eqb from x) eqn:E.
  - apply eqb_true in E as <-. rewrite (proj2 (Z.leb_le from from)), (proj2 (Z.ltb_lt from (from + Z.of_nat (S n)))) by lia.
    by destruct (_ && _).
  - apply eqb_false in E. destruct (Z.leb_spec (Z.succ from) x), (Z.leb_spec from x), (Z.ltb_spec x (Z.succ from + Z.of_nat n)),
      (Z.ltb_spec x (from + Z.of_nat (S n))); done || lia.
Qed.

Lemma keep_part_spec m (k : Z) p (from to : Z) : wf_map (ptrs m) → (∀ b, bytes m = Some b → wf_map b) → (k, p) ∈ entries m →
  ∃ m', keep_part m k from to = Ret m' ∧ ptrs m' = ptrs m ∧ (∀ b, bytes m' = Some b → wf_map b) ∧
    ∀ x, byte_at m' x = if (from <=? x) && (x <? to) then Some p else byte_at m x.
Proof.
  intros Hp Hb Hk. unfold keep_part, SortedMap.index_key, Size. rewrite get_map by done. cbn [obind].
  apply (assoc_elem k p _ Hp) in Hk. unfold lookup. rewrite Hk. cbn [unwrap obind]. unfold insert_bytes.
  assert (∀ b, wf_map b → (∀ x, lookup b x = byte_at m x) →
    ∃ b', fold_outcome (λ b offset, let! (b, _) := SortedMap.insert b offset p in Ret b) (seqZ from (to - from)) b = Ret b' ∧
    wf_map b' ∧ ∀ x, lookup b' x = if (from <=? x) && (x <? to) then Some p else byte_at m x) as H.
  { intros b Hbw Hbl. destruct (Z.leb_spec from to).
    - destruct (insert_bytes_spec (Z.to_nat (to - from)) b from p Hbw) as (b' & E & Hw & Hl).
      rewrite Z2Nat.id in * by lia. exists b'. split_and!; [done..|]. intros x. rewrite Hl, Hbl.
      by replace (from + (to - from)) with to by lia.
    - exists b. rewrite seqZ_nil by lia. split_and!; [done..|]. intros x. rewrite Hbl.
      destruct (Z.leb_spec from x), (Z.ltb_spec x to); done || lia. }
  destruct (H (default SortedMap.new (bytes m))) as (b' & -> & Hw & Hl).
  - destruct (bytes m) as [b|]; [by apply Hb|constructor].
  - intros x. unfold byte_at. by destruct (bytes m).
  - cbn [obind]. eexists. split; [done|]. cbn [ptrs bytes]. split_and!; [done|by intros b [= <-]|done].
Qed.

(** A pointer that has one part on each side of an edge *)
Definition straddles m (k edge : Z) : Prop := (∃ p, (k, p) ∈ entries m) ∧ k < edge < k + ps.

(** The relation without the bytes of a range *)
Definition cleared m m' (s e : Z) : Prop := wf_prov m' ∧ ∀ x p, prov_at m' x p ↔ prov_at m x p ∧ ¬ (s ≤ x < e).

(** The first step of [clear] *)
Lemma clear_bytes_spec m s e : wf_prov m → s ≤ e →
  ∃ m1, (if OFFSET_IS_ADDR then
      match bytes m with
      | Some b => let! b := SortedMap.remove_range b (range s e) in Ret {| ptrs := ptrs m; bytes := Some b |}
      | None => Ret m
      end
    else Ret m) = Ret m1 ∧ wf_prov m1 ∧ ptrs m1 = ptrs m ∧
    ∀ x p, byte_at m1 x = Some p ↔ byte_at m x = Some p ∧ ¬ (s ≤ x < e).
Proof.
  intros Hm Hse. destruct OFFSET_IS_ADDR eqn:Ha; [destruct (bytes m) as [b|] eqn:Eb|].
  - pose proof (wf_bytes m Hm b Eb) as Hb. unfold Size.
    destruct (remove_range_entries b s e Hb Hse) as (b' & -> & Hb' & Hq). cbn [obind]. eexists. split; [done|].
    assert (∀ x p, lookup b' x = Some p ↔ lookup b x = Some p ∧ ¬ (s ≤ x < e)) as Hl.
    { intros x p. by rewrite !byte_entry, Hq. }
    split_and!; [|done|intros x p; unfold byte_at; cbn [bytes]; rewrite Eb; apply Hl].
    split; cbn [ptrs bytes].
    + apply (wf_ptrs m Hm).
    + by intros ? [= <-].
    + congruence.
    + apply (wf_bounds m Hm).
    + apply (wf_spaced m Hm).
    + intros k p x Hk C. unfold byte_at. cbn [bytes]. destruct (lookup b' x) as [q|] eqn:E; [|done].
      apply Hl in E as [E _]. pose proof (wf_disjoint m Hm k p x Hk C) as D. unfold byte_at in D. rewrite Eb in D. congruence.
  - exists m. split_and!; [done..|]. intros x p. unfold byte_at. rewrite Eb. split; [done|by intros [? _]].
  - exists m. split_and!; [done..|]. intros x p. unfold byte_at. rewrite (wf_bytewise m Hm Ha). split; [done|by intros [? _]].
Qed.

(** The pointers of a list [l] of all the pointers between [s - ps] and [e] go, and
    what sticks out of the range on either side becomes entries for bytes. *)
Lemma clear_split m m' l s e k1 p1 k2 p2 :
  wf_prov m → s ≤ e → sorted l → (∀ q, q ∈ l ↔ q ∈ entries m ∧ s - ps < q.1 < e) →
  (k1, p1) ∈ l → (∀ q, q ∈ l → k1 ≤ q.1) → (k2, p2) ∈ l → (∀ q, q ∈ l → q.1 ≤ k2) →
  (∀ x, s ≤ x < e → byte_at m x = None) →
  wf_map (ptrs m') → (∀ q, q ∈ entries m' ↔ q ∈ entries m ∧ ¬ (k1 ≤ q.1 < k2 + ps)) →
  (∀ b, bytes m' = Some b → wf_map b) → (OFFSET_IS_ADDR = false → bytes m' = None) →
  (∀ x, byte_at m' x = if (e <? k2 + ps) && ((e <=? x) && (x <? k2 + ps)) then Some p2
    else if (k1 <? s) && ((k1 <=? x) && (x <? s)) then Some p1 else byte_at m x) →
  cleared m m' s e.
Proof.
  intros Hm Hse Hl Hq H1 Hmin H2 Hmax Hgone Hw He Hwb Hnone Hby.
  destruct (proj1 (Hq _) H1) as [E1 B1]. destruct (proj1 (Hq _) H2) as [E2 B2]. cbn [fst] in *.
  assert (∀ k p, (k, p) ∈ entries m' ↔ (k, p) ∈ entries m ∧ ¬ (s - ps < k < e)) as He'.
  { intros k p. rewrite He. cbn [fst]. split; intros [Hk Hn]; (split; [done|]).
    - intros B. apply Hn. assert ((k, p) ∈ l) as Hkl by (apply Hq; done).
      pose proof (Hmin _ Hkl). pose proof (Hmax _ Hkl). cbn [fst] in *. lia.
    - intros B. apply Hn. destruct (Z.lt_ge_cases k2 k) as [Hlt|]; [|lia].
      pose proof (wf_spaced m Hm _ _ _ _ E2 Hk Hlt). lia. }
  assert (∀ x, byte_at m' x = if (e <? k2 + ps) && ((e <=? x) && (x <? k2 + ps)) then Some p2
    else if (k1 <? s) && ((k1 <=? x) && (x <? s)) then Some p1 else byte_at m x) as Hby' by done.
  assert (∀ x p, byte_at m' x = Some p → (byte_at m x = Some p ∨ (k1, p) ∈ entries m ∧ k1 ≤ x < s ∧ covers k1 x ∨
    (k2, p) ∈ entries m ∧ e ≤ x ∧ covers k2 x) ∧ ¬ (s ≤ x < e)) as Hinv.
  { intros x p. rewrite Hby'. unfold covers.
    destruct (Z.ltb_spec e (k2 + ps)), (Z.leb_spec e x), (Z.ltb_spec x (k2 + ps)); cbn [andb];
      try (intros [= <-]; split; [right; right; split_and!; done || lia|lia]);
      destruct (Z.ltb_spec k1 s), (Z.leb_spec k1 x), (Z.ltb_spec x s); cbn [andb];
      try (intros [= <-]; split; [right; left; split_and!; done || lia|lia]);
      intros Hx; (split; [by left|]); intros B; rewrite (Hgone x B) in Hx; done. }
  split.
  - split; [done|done|done|..].
    + intros k p [Hk _]%He'. by apply (wf_bounds m Hm k p).
    + intros k p k' p' [Hk _]%He' [Hk' _]%He'. by apply (wf_spaced m Hm k p k' p').
    + intros k p x [Hk B]%He' C. destruct (byte_at m' x) as [q|] eqn:E; [|done]. apply Hinv in E as [[E|[(F & ? & C')|(F & ? & C')]] _].
      * by rewrite (wf_disjoint m Hm k p x Hk C) in E.
      * destruct (covers_unique m k p k1 q x Hm Hk F C C') as [-> _]. lia.
      * destruct (covers_unique m k p k2 q x Hm Hk F C C') as [-> _]. lia.
  - intros x p. split.
    + intros [(k & [Hk B]%He' & C)|E].
      * split; [left; eauto|]. unfold covers in C. lia.
      * apply Hinv in E as [[E|[(F & ? & C')|(F & ? & C')]] Hx]; (split; [|done]); [by right|left; eauto..].
    + intros [[(k & Hk & C)|E] Hx].
      * destruct (decide (s - ps < k < e)) as [B|B]; [|left; exists k; split; [by apply He'|done]].
        right. rewrite Hby'. assert ((k, p) ∈ l) as Hkl by (by apply Hq). pose proof (Hmin _ Hkl). pose proof (Hmax _ Hkl).
        cbn [fst] in *. unfold covers in C. destruct (Z.lt_ge_cases x s).
        -- assert (k = k1) as ->.
           { destruct (Z.eq_dec k1 k) as [|Hne]; [done|]. pose proof (wf_spaced m Hm _ _ _ _ E1 Hk ltac:(lia)). lia. }
           rewrite (entry_unique m k1 p p1 Hm Hk E1).
           rewrite (proj2 (Z.leb_gt e x)), andb_false_r by lia.
           by rewrite !(proj2 (Z.ltb_lt _ _)), (proj2 (Z.leb_le _ _)) by lia.
        -- assert (k = k2) as ->.
           { destruct (Z.eq_dec k k2) as [|Hne]; [done|]. pose proof (wf_spaced m Hm _ _ _ _ Hk E2 ltac:(lia)). lia. }
           rewrite (entry_unique m k2 p p2 Hm Hk E2).
           by rewrite !(proj2 (Z.ltb_lt _ _)), (proj2 (Z.leb_le _ _)) by lia.
      * right. rewrite Hby'.
        destruct (Z.ltb_spec e (k2 + ps)), (Z.leb_spec e x), (Z.ltb_spec x (k2 + ps)); cbn [andb];
          try (rewrite (wf_disjoint m Hm k2 p2 x E2) in E; [done|unfold covers; lia]);
          destruct (Z.ltb_spec k1 s), (Z.leb_spec k1 x), (Z.ltb_spec x s); cbn [andb]; try done;
          (rewrite (wf_disjoint m Hm k1 p1 x E1) in E; [done|unfold covers; lia]).
Qed.

Lemma sorted_first {V} (p : Z * V) l q : sorted (p :: l) → q ∈ p :: l → p.1 ≤ q.1.
Proof.
  intros Hl [->|Hq]%elem_of_cons; [done|]. inversion_clear Hl as [|? ? _ Hp]. rewrite list.Forall_forall in Hp.
  specialize (Hp q Hq). unfold key_lt in Hp. rewrite cmp_Z in Hp. lia.
Qed.

Lemma sorted_last_le {V} (p : Z * V) l q : sorted l → list.last l = Some p → q ∈ l → q.1 ≤ p.1.
Proof.
  intros Hl Hp Hq. destruct (sorted_last l p q Hl Hp Hq) as [->|Hk]; [lia|]. unfold key_lt in Hk. rewrite cmp_Z in Hk. lia.
Qed.

Lemma last_elem {A} (l : list A) x : list.last l = Some x → x ∈ l.
Proof. rewrite last_lookup. apply list_elem_of_lookup_2. Qed.

(** One of the two splitting steps of [clear] *)
Lemma keep_step (c : bool) m k p from to :
  wf_map (ptrs m) → (∀ b, bytes m = Some b → wf_map b) → (k, p) ∈ entries m → (OFFSET_IS_ADDR = false → c = false) →
  (OFFSET_IS_ADDR = false → bytes m = None) →
  ∃ m', (if c then keep_part m k from to else Ret m) = Ret m' ∧ ptrs m' = ptrs m ∧ (∀ b, bytes m' = Some b → wf_map b) ∧
    (OFFSET_IS_ADDR = false → bytes m' = None) ∧
    ∀ x, byte_at m' x = if c && ((from <=? x) && (x <? to)) then Some p else byte_at m x.
Proof.
  intros Hw Hb Hk Hc Hn. destruct c; [|by exists m].
  destruct (keep_part_spec m k p from to Hw Hb Hk) as (m' & -> & ? & ? & ?).
  exists m'. split_and!; [done..| |done]. intros Ha. by specialize (Hc Ha).
Qed.

Lemma clear_spec m r :
  let s := range_start r in let e := range_start r + range_size r in
  wf_prov m → 0 ≤ s → 0 ≤ range_size r → e < 2 ^ 64 →
  ∃ res, clear m r cx = Ret res ∧
    match res with
    | Ok m' => cleared m m' s e ∧ (OFFSET_IS_ADDR = false → ∀ k, ¬ straddles m k s ∧ ¬ straddles m k e)
    | Err err => OFFSET_IS_ADDR = false ∧ ∃ k, err = OverwritePartialPointer k ∧ (straddles m k s ∨ straddles m k e)
    end.
Proof.
  intros s e Hm Hs Hsz He. assert (s ≤ e) as Hse by (unfold s, e; lia).
  unfold clear. rewrite range_end_ret by done. change (range_start r + range_size r) with e. fold s. cbn [obind].
  destruct (clear_bytes_spec m s e Hm Hse) as (m1 & -> & Hm1 & Hp1 & Hb1). cbn [obind].
  destruct (range_get_ptrs_spec m1 r Hm1 Hs Hsz He) as (l & -> & Hl & Hq). cbn [obind].
  change (range_start r + range_size r) with e in Hq. change (range_start r) with s in Hq.
  assert (entries m1 = entries m) as Hent by (unfold entries; by rewrite Hp1).
  assert (∀ x, s ≤ x < e → byte_at m1 x = None) as Hgone.
  { intros x Hx. destruct (byte_at m1 x) as [p|] eqn:E; [|done]. by apply Hb1 in E as [_ ?]. }
  assert (∀ m', cleared m1 m' s e → cleared m m' s e) as Hlift.
  { intros m' [Hw' Hr']. split; [done|]. intros x p. rewrite Hr'. unfold prov_at. rewrite Hent, Hb1. tauto. }
  assert (∀ k, straddles m k s ∨ straddles m k e → ∃ p, (k, p) ∈ l) as Hstr.
  { intros k [[(p & Hk) B]|[(p & Hk) B]]; exists p; apply Hq; rewrite Hent; cbn [fst]; (split; [done|lia]). }
  destruct l as [|[k1 p1] l'].
  { eexists. split; [done|]. split.
    - apply Hlift. split; [done|]. intros x p. split; [|tauto]. intros Hp. split; [done|]. intros Hx.
      destruct Hp as [(k & Hk & C)|Hb]; [|by rewrite Hgone in Hb].
      assert ((k, p) ∈ []) as []%elem_of_nil. apply Hq. unfold covers in C. cbn [fst]. split; [done|lia].
    - intros _ k. split; intros Hk; [destruct (Hstr k (or_introl Hk)) as [p []%elem_of_nil]|
        destruct (Hstr k (or_intror Hk)) as [p []%elem_of_nil]]. }
  remember ((k1, p1) :: l') as l eqn:El. destruct (list.last l) as [[k2 p2]|] eqn:Hlast; [|by rewrite last_None, El in Hlast].
  cbn [unwrap obind fst].
  assert ((k1, p1) ∈ l) as H1 by (rewrite El; left). assert ((k2, p2) ∈ l) as H2 by (by apply last_elem).
  assert (∀ q, q ∈ l → k1 ≤ q.1) as Hmin by (intros q Hql; rewrite El in *; by apply (sorted_first (k1, p1) l' q)).
  assert (∀ q, q ∈ l → q.1 ≤ k2) as Hmax by (intros q Hql; by apply (sorted_last_le (k2, p2) l q)).
  destruct (proj1 (Hq _) H1) as [E1 B1]. destruct (proj1 (Hq _) H2) as [E2 B2]. cbn [fst] in *.
  pose proof (wf_bounds m1 Hm1 _ _ E1) as Bd1. pose proof (wf_bounds m1 Hm1 _ _ E2) as Bd2.
  rewrite size_add_sum by lia. cbn [obind].
  destruct ((k1 <? s) && negb OFFSET_IS_ADDR) eqn:Hc1.
  { apply andb_true_iff in Hc1 as [?%Z.ltb_lt ?%negb_true_iff]. eexists. split; [done|]. split; [done|].
    exists k1. split; [done|]. left. rewrite Hent in E1. split; [by exists p1|lia]. }
  apply andb_false_iff in Hc1. rewrite negb_false_iff in Hc1.
  destruct (keep_step (k1 <? s) m1 k1 p1 k1 s) as (m2 & -> & Hp2 & Hw2 & Hn2 & Hb2);
    [apply (wf_ptrs m1 Hm1)|apply (wf_bytes m1 Hm1)|done|intros Ha; destruct Hc1; congruence|apply (wf_bytewise m1 Hm1)|].
  cbn [obind].
  assert ((if e <? k2 + ps then Size.sub (k2 + ps) ps else @Ret Size (k2 + ps)) = Ret (if e <? k2 + ps then k2 else k2 + ps)) as ->.
  { destruct (e <? k2 + ps); [|done]. rewrite size_sub_diff by lia. f_equal. lia. }
  cbn [obind]. destruct ((e <? k2 + ps) && negb OFFSET_IS_ADDR) eqn:Hc2.
  { apply andb_true_iff in Hc2 as [Hlt%Z.ltb_lt ?%negb_true_iff]. rewrite (proj2 (Z.ltb_lt _ _)) by done.
    eexists. split; [done|]. split; [done|]. exists k2. split; [done|]. right. rewrite Hent in E2. split; [by exists p2|lia]. }
  apply andb_false_iff in Hc2. rewrite negb_false_iff in Hc2.
  assert (entries m2 = entries m1) as Hent2 by (unfold entries; by rewrite Hp2).
  destruct (keep_step (e <? k2 + ps) m2 k2 p2 e (k2 + ps)) as (m3 & Hk3 & Hp3 & Hw3 & Hn3 & Hb3);
    [rewrite Hp2; apply (wf_ptrs m1 Hm1)|done|by rewrite Hent2|intros Ha; destruct Hc2; congruence|done|].
  match goal with |- context [obind ?c _] => replace c with (Ret m3) by (rewrite <- Hk3; by destruct (e <? k2 + ps)) end.
  cbn [obind]. destruct (remove_range_entries (ptrs m3) k1 (k2 + ps)) as (b & -> & Hwb & Hbq).
  { rewrite Hp3, Hp2. apply (wf_ptrs m1 Hm1). } { pose proof (Hmax _ H1). cbn [fst] in *. lia. }
  cbn [obind]. eexists. split; [done|]. split.
  - apply Hlift. apply (clear_split m1 _ l s e k1 p1 k2 p2); try done.
    + intros q. unfold entries at 1. cbn [ptrs]. rewrite Hbq, Hp3, Hp2. done.
    + intros x. change (byte_at m3 x = if (e <? k2 + ps) && ((e <=? x) && (x <? k2 + ps)) then Some p2
        else if (k1 <? s) && ((k1 <=? x) && (x <? s)) then Some p1 else byte_at m1 x). by rewrite Hb3, Hb2.
  - intros Ha k. destruct Hc1 as [Hc1%Z.ltb_ge|]; [|congruence]. destruct Hc2 as [Hc2%Z.ltb_ge|]; [|congruence].
    split; intros Hk.
    + destruct (Hstr k (or_introl Hk)) as [p Hkl]. specialize (Hmin _ Hkl). destruct Hk as [_ ?]. cbn [fst] in *. lia.
    + destruct (Hstr k (or_intror Hk)) as [p Hkl]. specialize (Hmax _ Hkl). destruct Hk as [_ ?]. cbn [fst] in *. lia.
Qed.

(** ** Inserting a pointer *)

Lemma insert_ptr_prov m k p : wf_prov m → 0 ≤ k → k + ps < 2 ^ 64 → (∀ x q, covers k x → ¬ prov_at m x q) →
  ∃ m', insert_ptr m k p = Ret m' ∧ wf_prov m' ∧ get_ptr m' k = Ret (Some p) ∧
    ∀ x q, prov_at m' x q ↔ covers k x ∧ q = p ∨ ¬ covers k x ∧ prov_at m x q.
Proof.
  intros Hm Hk Hb Hfree. unfold insert_ptr. destruct (insert_map (ptrs m) k p (wf_ptrs m Hm)) as (b & -> & Hw & Hs).
  cbn [obind]. eexists. split; [done|].
  assert (∀ k' q, (k', q) ∈ SortedMap.data b ↔ (k', q) = (k, p) ∨ (k', q) ∈ entries m) as Hq.
  { intros k' q. rewrite <- byte_entry by done. rewrite Hs. destruct (eqb k k') eqn:E.
    - apply eqb_true in E as <-. split; [intros [= <-]; by left|]. intros [[= ->]|Hin]; [done|].
      destruct (Hfree k q); [unfold covers; lia|]. left. exists k. split; [done|unfold covers; lia].
    - apply eqb_false in E. unfold lookup. rewrite assoc_elem by apply (wf_ptrs m Hm). split; [by right|].
      by intros [[= -> ->]|?]. }
  assert (∀ k' q, (k', q) ∈ entries m → k' + ps ≤ k ∨ k + ps ≤ k') as Hapart.
  { intros k' q Hk'. destruct (decide (k' + ps ≤ k ∨ k + ps ≤ k')) as [|Hn]; [done|].
    destruct (Hfree (Z.max k k') q); [unfold covers; lia|]. left. exists k'. split; [done|unfold covers; lia]. }
  split_and!.
  - split; cbn [ptrs bytes]; [done|apply (wf_bytes m Hm)|apply (wf_bytewise m Hm)|..].
    + intros k' q [[= -> ->]|H]%Hq; [lia|by apply (wf_bounds m Hm k' q)].
    + intros k1 p1 k2 p2 [[= -> ->]|H1]%Hq [[= -> ->]|H2]%Hq Hlt; [lia| | |by apply (wf_spaced m Hm k1 p1 k2 p2)].
      * destruct (Hapart _ _ H2); lia.
      * destruct (Hapart _ _ H1); lia.
    + intros k' q x [[= -> ->]|H]%Hq C; [|by apply (wf_disjoint m Hm k' q x)]. change (byte_at m x = None).
      destruct (byte_at m x) as [q|] eqn:E; [|done]. destruct (Hfree x q C). by right.
  - unfold get_ptr. cbn [ptrs]. rewrite get_map by done. f_equal. rewrite Hs, eqb_same. done.
  - intros x q. split.
    + intros [(k' & [[= -> ->]|H]%Hq & C)|E]; [by left| |].
      * assert (prov_at m x q) by (left; eauto). right. split; [|done]. intros C'. by apply (Hfree x q).
      * assert (prov_at m x q) by (by right). right. split; [|done]. intros C'. by apply (Hfree x q).
    + intros [[C ->]|[C [(k' & Hk' & C')|E]]].
      * left. exists k. split; [apply Hq; by left|done].
      * left. exists k'. split; [apply Hq; by right|done].
      * by right.
Qed.

Lemma get_ptr_none m k : wf_prov m → (∀ q, ¬ prov_at m k q) → get_ptr m k = Ret None.
Proof.
  intros Hm Hn. unfold get_ptr. rewrite get_map by apply (wf_ptrs m Hm). f_equal.
  destruct (lookup (ptrs m) k) as [q|] eqn:E; [|done]. apply byte_entry in E; [|apply (wf_ptrs m Hm)].
  destruct (Hn q). left. exists k. split; [done|unfold covers; lia].
Qed.

(** ** Preparing a copy *)

Section Copy.
(** [count] copies of [s..s + size] to [d] *)
Context (s size d count : Z).
Hypothesis (Hs : 0 ≤ s) (Hsize : 0 < size) (Hend : s + size < 2 ^ 64) (Hd : 0 ≤ d) (Hcount : 0 ≤ count)
  (Hdest : d + size * count < 2 ^ 64).
Abbreviation src := (alloc_range s size).

(** [x] is where the copy [i] of the byte [y] goes. *)
Definition copy_pos (i y x : Z) : Prop := 0 ≤ i < count ∧ s ≤ y < s + size ∧ x = d + size * i + (y - s).

Lemma copy_pos_unique i y i' y' x : copy_pos i y x → copy_pos i' y' x → i = i' ∧ y = y'.
Proof. intros (? & ? & ?) (? & ? & ?). assert (i = i') as -> by nia. split; [done|lia]. Qed.

Lemma copy_pos_dest i y x : copy_pos i y x → d ≤ x < d + size * count ∧ y = s + (x - d) mod size.
Proof.
  intros (? & ? & ->). split; [nia|]. rewrite <- (Z.mod_unique (d + size * i + (y - s) - d) size i (y - s)); lia.
Qed.

Lemma copy_pos_exists x : d ≤ x < d + size * count → ∃ i, copy_pos i (s + (x - d) mod size) x.
Proof.
  intros Hx. exists ((x - d) / size). pose proof (Z.div_mod (x - d) size ltac:(lia)) as E.
  pose proof (Z.mod_pos_bound (x - d) size Hsize). split_and!; [apply Z.div_pos; lia| |lia|lia|lia].
  apply Z.div_lt_upper_bound; lia.
Qed.

Lemma shift_offset_ret i y : 0 ≤ i < count → s ≤ y < s + size →
  shift_offset src d i y = Ret (d + size * i + (y - s)).
Proof.
  intros Hi Hy. unfold shift_offset. cbn [alloc_range range_start range_size].
  rewrite size_mul_prod by nia. cbn [obind]. rewrite size_add_sum by nia. cbn [obind].
  rewrite size_sub_diff by lia. cbn [obind]. rewrite size_add_sum by nia. f_equal. lia.
Qed.

Definition within (l : list (Z * Prov)) : Prop := Forall (λ q, s ≤ q.1 < s + size) l.

Definition shifted (i : Z) (q : Z * Prov) : Z * Prov := (d + size * i + (q.1 - s), q.2).

Lemma shift_entries_ret i l : 0 ≤ i < count → within l → shift_entries src d i l = Ret (shifted i <$> l).
Proof.
  intros Hi Hl. unfold shift_entries.
  assert (∀ acc, fold_outcome (λ l e, let! o := shift_offset src d i (fst e) in Ret (l ++ [(o, snd e)])) l acc
    = Ret (acc ++ (shifted i <$> l))) as H; [|by rewrite H].
  induction Hl as [|q l Hq _ IH]; intros acc; cbn [fold_outcome fmap list_fmap]; [by rewrite app_nil_r|].
  rewrite shift_offset_ret by done. cbn [obind]. rewrite IH. by rewrite <- app_assoc.
Qed.

Lemma shifted_sorted i l : sorted l → sorted (shifted i <$> l).
Proof.
  induction 1 as [|q l Hl IH Hq]; cbn [fmap list_fmap]; constructor; [done|].
  rewrite list.Forall_forall in *. intros q' (q0 & -> & H)%list_elem_of_fmap. specialize (Hq _ H).
  unfold key_lt in *. rewrite cmp_Z in *. unfold shifted. cbn. lia.
Qed.

Lemma repeat_entries_spec l : sorted l → within l →
  ∃ l', repeat_entries src d count l = Ret l' ∧ sorted l' ∧
    ∀ x p, (x, p) ∈ l' ↔ ∃ i y, copy_pos i y x ∧ (y, p) ∈ l.
Proof.
  intros Hl Hw. unfold repeat_entries.
  assert (∀ n, Z.of_nat n ≤ count →
    ∃ l', fold_outcome (λ l' i, let! s := shift_entries src d i l in Ret (l' ++ s)) (seqZ 0 (Z.of_nat n)) [] = Ret l' ∧ sorted l' ∧
      ∀ x p, (x, p) ∈ l' ↔ ∃ i y, i < Z.of_nat n ∧ copy_pos i y x ∧ (y, p) ∈ l) as H.
  2: { destruct (H (Z.to_nat count)) as (l' & E & Hl' & Hq); [lia|]. rewrite Z2Nat.id in * by lia.
       exists l'. split_and!; [done..|]. intros x p. rewrite Hq.
       split; [intros (i & y & _ & Hc & ?)|intros (i & y & Hc & ?)]; exists i, y; split_and!; try done. apply Hc. }
  induction n as [|n IH]; intros Hn.
  { exists []. split_and!; [done|constructor|]. intros x p. rewrite elem_of_nil. split; [done|].
    intros (i & y & ? & (? & _) & _). lia. }
  destruct IH as (l' & E & Hl' & Hq); [lia|]. rewrite Nat2Z.inj_succ, <- Z.add_1_r, seqZ_app by lia.
  rewrite fold_outcome_app, E. cbn [obind]. change (seqZ (0 + Z.of_nat n) 1) with [0 + Z.of_nat n]. cbn [fold_outcome].
  rewrite shift_entries_ret by (done || lia). cbn [obind]. eexists. split; [done|]. split.
  - apply sorted_app. split_and!; [done|by apply shifted_sorted|].
    intros [x p] q' (i & y & Hi & Hc & _)%Hq (q & -> & H)%list_elem_of_fmap. unfold key_lt, shifted. rewrite cmp_Z. cbn.
    unfold within in Hw. rewrite list.Forall_forall in Hw. specialize (Hw _ H). destruct Hc as (? & ? & ->). nia.
  - intros x p. rewrite elem_of_app, Hq, list_elem_of_fmap. unfold within in Hw. rewrite list.Forall_forall in Hw. split.
    + intros [(i & y & ? & ? & ?)|([y q] & [= -> ->] & H)]; [exists i, y; split_and!; [lia|done..]|].
      exists (Z.of_nat n), y. specialize (Hw _ H). cbn in Hw. split_and!; [lia| |done]. split_and!; cbn; lia.
    + intros (i & y & Hi & Hc & H). destruct (decide (i < Z.of_nat n)); [left; eauto|]. right.
      exists (y, p). split; [|done]. destruct Hc as (? & ? & ->). unfold shifted. cbn. do 2 f_equal. nia.
Qed.

(** The part of the relation that is copied byte by byte: entries of single bytes,
    and pointers that are not inside the source range *)
Definition partial m (y : Z) (p : Prov) : Prop :=
  byte_at m y = Some p ∨ ∃ k, (k, p) ∈ entries m ∧ covers k y ∧ ¬ (s ≤ k ∧ k + ps ≤ s + size).

(** A run of bytes with the same provenance *)
Definition run (p : Prov) (a n : Z) : list (Z * Prov) := (λ offset, (offset, p)) <$> seqZ a n.

Lemma elem_of_run p a n x q : (x, q) ∈ run p a n ↔ a ≤ x < a + n ∧ q = p.
Proof.
  unfold run. rewrite list_elem_of_fmap. split.
  - intros (o & [= -> ->] & Ho%elem_of_seqZ). split; [lia|done].
  - intros [? ->]. exists x. split; [done|]. apply elem_of_seqZ. lia.
Qed.

Lemma run_sorted p a n : sorted (run p a n).
Proof.
  destruct (Z.le_ge_cases 0 n) as [Hn|Hn]; [|unfold run; rewrite seqZ_nil by lia; constructor].
  rewrite <- (Z2Nat.id n Hn). generalize (Z.to_nat n). clear Hn. intros k. revert a. induction k as [|k IH]; intros a; [constructor|].
  unfold run. rewrite seqZ_cons by lia. replace (Z.pred (Z.of_nat (S k))) with (Z.of_nat k) by lia. cbn [fmap list_fmap].
  constructor; [apply IH|]. apply list.Forall_forall. intros [x q] Hx%elem_of_run. unfold key_lt. rewrite cmp_Z. cbn. lia.
Qed.

(** The loop at the end of the range pushes all the offsets behind the list ... *)
Lemma push_all (entry : Z * Prov) n : ∀ a l, Forall (λ q : Z * Prov, q.1 < a) l →
  fold_outcome (push_end src entry) (seqZ a (Z.of_nat n)) l = Ret (l ++ run entry.2 a (Z.of_nat n)).
Proof.
  induction n as [|n IH]; intros a l Hl; [by rewrite app_nil_r|].
  unfold run. rewrite seqZ_cons by lia. replace (Z.pred (Z.of_nat (S n))) with (Z.of_nat n) by lia. cbn [fold_outcome fmap list_fmap].
  unfold push_end at 1. assert (match list.last l with Some e => e.1 <? a | None => true end = true) as ->.
  { destruct (list.last l) as [q|] eqn:E; [|done]. apply last_elem in E. rewrite list.Forall_forall in Hl. by apply Z.ltb_lt, Hl. }
  cbn [obind]. rewrite IH; [|apply Forall_app; split; [eapply List.Forall_impl; [|exact Hl]; cbn; lia|repeat constructor; cbn; lia]].
  by rewrite <- app_assoc.
Qed.

(** ... and none that the list already reaches. *)
Lemma push_none (entry : Z * Prov) l q offs : list.last l = Some q → entry.1 ≤ s → Forall (λ o, o ≤ q.1) offs →
  fold_outcome (push_end src entry) offs l = Ret l.
Proof.
  intros Hq He. induction 1 as [|o offs Ho _ IH]; [done|]. cbn [fold_outcome]. unfold push_end at 1. rewrite Hq.
  rewrite (proj2 (Z.ltb_ge _ _)) by done. cbn [alloc_range range_start]. rewrite (proj2 (Z.leb_le _ _)) by done. exact IH.
Qed.

(** The pointers over an edge *)
Definition over_edge m (edge : Z) (l : list (Z * Prov)) : Prop :=
  ∀ k p, (k, p) ∈ l ↔ (k, p) ∈ entries m ∧ k < edge < k + ps.

Lemma edge_list m edge : wf_prov m → 0 ≤ edge < 2 ^ 64 →
  ∃ l, range_get_ptrs m (alloc_range edge Size.ZERO) cx = Ret l ∧ over_edge m edge l.
Proof.
  intros Hm He. destruct (range_get_ptrs_spec m (alloc_range edge 0) Hm) as (l & Hl & _ & Hq);
    cbn [alloc_range range_start range_size] in *; [lia..|].
  exists l. split; [exact Hl|]. intros k p. rewrite Hq. cbn [fst]. split; intros [? ?]; (split; [done|lia]).
Qed.

(** The bytes before the part at the end of the range *)
Lemma copy_front m l : wf_prov m → over_edge m s l →
  ∃ front, (let! first := match head l with
      | Some entry =>
          let! e := Size.add (fst entry) ps in
          let entry_end := Z.min e (s + size) in
          Ret ((λ offset, (offset, snd entry)) <$> seqZ s (entry_end - s))
      | None => Ret []
      end in
    let! main := range_get_bytes m src in Ret (first ++ main)) = Ret front ∧ sorted front ∧
    ∀ x p, (x, p) ∈ front ↔ s ≤ x < s + size ∧
      (byte_at m x = Some p ∨ ∃ k, (k, p) ∈ entries m ∧ k < s ∧ covers k x).
Proof.
  intros Hm Hl. destruct (range_get_bytes_spec m src Hm) as (main & -> & Hms & Hmq);
    cbn [alloc_range range_start range_size] in *; [lia..|].
  destruct l as [|[k0 p0] l]; cbn [head obind].
  - exists main. split_and!; [done..|]. intros x p. rewrite Hmq. split; [intros [Hb Hx]; split; [done|by left]|].
    intros [Hx [Hb|(k & Hk & Hks & C)]]; [done|]. unfold covers in C.
    assert ((k, p) ∈ []) as []%elem_of_nil. apply Hl. split; [done|lia].
  - destruct (proj1 (Hl k0 p0) ltac:(left)) as [E0 B0]. pose proof (wf_bounds m Hm _ _ E0).
    cbn [fst snd]. rewrite size_add_sum by lia. cbn [obind]. fold (run p0 s (Z.min (k0 + ps) (s + size) - s)).
    eexists. split; [done|]. split.
    + apply sorted_app. split_and!; [apply run_sorted|done|].
      intros [x p] [x' p'] [Hx _]%elem_of_run [Hb Hx']%Hmq. unfold key_lt. rewrite cmp_Z. cbn.
      destruct (decide (covers k0 x')) as [C|C]; [by rewrite (wf_disjoint m Hm k0 p0 x' E0 C) in Hb|]. unfold covers in C. lia.
    + intros x p. rewrite elem_of_app, elem_of_run, Hmq. split.
      * intros [[Hx ->]|[Hb Hx]]; (split; [lia|]); [|by left]. right. exists k0. unfold covers. split_and!; done || lia.
      * intros [Hx [Hb|(k & Hk & Hks & C)]]; [by right|]. left.
        destruct (covers_unique m k p k0 p0 s Hm Hk E0) as [-> ->]; [unfold covers in *; lia..|]. unfold covers in C. split; [lia|done].
Qed.

Lemma copy_bytes_spec m l1 l2 : wf_prov m → over_edge m s l1 → over_edge m (s + size) l2 →
  ∃ l, copy_bytes m src cx (head l1) (head l2) = Ret l ∧ sorted l ∧
    ∀ x p, (x, p) ∈ l ↔ s ≤ x < s + size ∧ partial m x p.
Proof.
  intros Hm H1 H2. destruct (copy_front m l1 Hm H1) as (front & Hf & Hfs & Hfq).
  unfold copy_bytes. rewrite range_end_ret by (cbn; lia). cbn [alloc_range range_start range_size] in *. cbn [obind].
  apply obind_ret_inv in Hf as (first & -> & Hf). cbn [obind].
  apply obind_ret_inv in Hf as (main & -> & [= Hfr]). cbn [obind]. rewrite Hfr.
  destruct l2 as [|[k2 p2] l2]; cbn [head].
  { exists front. split_and!; [done..|]. intros x p. rewrite Hfq. unfold partial.
    split; intros [Hx [Hb|(k & Hk & ? & C)]]; (split; [done|]); try (by left); right; exists k.
    - split_and!; try done. unfold covers in C. lia.
    - unfold covers in C. split_and!; try done. destruct (Z.lt_ge_cases k s); [done|].
      assert ((k, p) ∈ []) as []%elem_of_nil. apply H2. split; [done|]. unfold covers in *. lia. }
  destruct (proj1 (H2 k2 p2) ltac:(left)) as [E2 B2]. cbn [fst snd]. destruct (Z.le_gt_cases s k2) as [Hge|Hlt].
  - rewrite Z.max_l by done.
    assert (Forall (λ q : Z * Prov, q.1 < k2) front) as Hbef.
    { apply list.Forall_forall. intros [x p] [Hx [Hb|(k & Hk & Hks & C)]]%Hfq; cbn.
      - destruct (decide (covers k2 x)) as [C|C]; [by rewrite (wf_disjoint m Hm k2 p2 x E2 C) in Hb|]. unfold covers in C. lia.
      - pose proof (wf_spaced m Hm _ _ _ _ Hk E2 ltac:(lia)). unfold covers in C. lia. }
    rewrite <- (Z2Nat.id (s + size - k2)), push_all by (done || lia). rewrite Z2Nat.id by lia. cbn [snd].
    eexists. split; [done|]. split.
    + apply sorted_app. split_and!; [done|apply run_sorted|]. rewrite list.Forall_forall in Hbef.
      intros [x p] [x' p'] Hx%Hbef [Hx' _]%elem_of_run. unfold key_lt. rewrite cmp_Z. cbn in *. lia.
    + intros x p. rewrite elem_of_app, elem_of_run, Hfq. unfold partial. split.
      * intros [[Hx [Hb|(k & Hk & Hks & C)]]|[Hx ->]].
        -- split; [done|by left].
        -- split; [done|]. right. exists k. split_and!; [done..|lia].
        -- split; [lia|]. right. exists k2. unfold covers. split_and!; [done|lia..].
      * intros [Hx [Hb|(k & Hk & C & Hn)]]; [left; split; [done|by left]|].
        destruct (Z.lt_ge_cases k s); [left; split; [done|]; right; by exists k|]. right.
        destruct (covers_unique m k p k2 p2 (s + size - 1) Hm Hk E2) as [-> ->]; unfold covers in *; [lia..|]. split; [lia|done].
  - rewrite Z.max_r by lia.
    assert (∀ x p, (x, p) ∈ front ↔ s ≤ x < s + size ∧ p = p2) as Hall.
    { intros x p. rewrite Hfq. split; intros [Hx Hp]; (split; [done|]).
      - destruct Hp as [Hb|(k & Hk & Hks & C)]; [rewrite (wf_disjoint m Hm k2 p2 x E2) in Hb; [done|unfold covers; lia]|].
        destruct (covers_unique m k p k2 p2 x Hm Hk E2) as [_ ->]; [done|unfold covers; lia|done].
      - subst p. right. exists k2. unfold covers. split_and!; [done|lia..]. }
    destruct (list.last front) as [q|] eqn:Hq.
    2: { apply last_None in Hq as ->. assert ((s, p2) ∈ []) as []%elem_of_nil. apply Hall. split; [lia|done]. }
    assert (s + size - 1 ≤ q.1) as Hqe.
    { apply (sorted_last_le q front (s + size - 1, p2) Hfs Hq). apply Hall. split; [lia|done]. }
    rewrite (push_none (k2, p2) front q);
      [|done|cbn; lia|apply list.Forall_forall; intros o Ho%elem_of_seqZ; lia].
    exists front. split_and!; [done..|]. intros x p. rewrite Hall. unfold partial. split; intros [Hx Hp]; (split; [done|]).
    + subst p. right. exists k2. unfold covers. split_and!; [done|lia..].
    + destruct Hp as [Hb|(k & Hk & C & _)]; [rewrite (wf_disjoint m Hm k2 p2 x E2) in Hb; [done|unfold covers; lia]|].
      destruct (covers_unique m k p k2 p2 x Hm Hk E2) as [_ ->]; [done|unfold covers; lia|done].
Qed.

(** What a prepared copy holds of the source *)
Record carries (c : ProvenanceCopy Prov) m : Prop := {
  carries_ptrs_sorted : sorted (default [] (dest_ptrs c));
  carries_ptrs x p : (x, p) ∈ default [] (dest_ptrs c) ↔
    ∃ i y, copy_pos i y x ∧ (y, p) ∈ entries m ∧ y + ps ≤ s + size;
  carries_bytes_sorted : sorted (default [] (dest_bytes c));
  carries_bytes x p : (x, p) ∈ default [] (dest_bytes c) ↔ ∃ i y, copy_pos i y x ∧ partial m y p;
  carries_bytewise : OFFSET_IS_ADDR = false → dest_bytes c = None;
}.

(** The pointers inside the source range *)
Lemma inner_ptrs m : wf_prov m →
  ∃ o, (if ps <=? size then
      let! src_end := range_end src in
      let! p := SortedMap.range (ptrs m) (range (T := Z) s
        (Size.from_bytes (wsub 64 (Size.bytes src_end) (wsub 64 (Size.bytes ps) 1)))) in
      let! d := repeat_entries src d count p in Ret (Some d)
    else Ret None) = Ret o ∧ sorted (default [] o) ∧
    ∀ x p, (x, p) ∈ default [] o ↔ ∃ i y, copy_pos i y x ∧ (y, p) ∈ entries m ∧ y + ps ≤ s + size.
Proof.
  intros Hm. destruct (Z.leb_spec ps size) as [Hle|Hgt].
  - rewrite range_end_ret by (cbn; lia). cbn [alloc_range range_start range_size obind].
    unfold Size.bytes, Size.from_bytes, wsub. rewrite (wrap_small 64 (ps - 1)), wrap_small by (unfold is_uint; lia).
    destruct (range_entries (ptrs m) s (s + size - (ps - 1)) (wf_ptrs m Hm)) as (l & -> & Hl & Hq); [lia|]. cbn [obind].
    destruct (repeat_entries_spec l Hl) as (l' & -> & Hl' & Hq').
    { apply list.Forall_forall. intros q [_ ?]%Hq. lia. }
    cbn [obind]. eexists. split; [done|]. split; [done|]. intros x p. cbn [default from_option id]. rewrite Hq'.
    split; intros (i & y & Hc & Hy); exists i, y; (split; [done|]); destruct Hc as (_ & ? & _).
    + apply Hq in Hy as [? ?]. cbn [fst] in *. split; [done|lia].
    + apply Hq. cbn [fst]. destruct Hy. split; [done|lia].
  - exists None. split; [done|]. split; [constructor|]. intros x p. cbn [default from_option id]. rewrite elem_of_nil.
    split; [done|]. intros (i & y & (_ & ? & _) & _ & ?). lia.
Qed.

Lemma prepare_copy_prov m : wf_prov m →
  ∃ res, prepare_copy m src d count cx = Ret res ∧
    match res with
    | Ok c => carries c m ∧ (OFFSET_IS_ADDR = false → ∀ k, ¬ straddles m k s ∧ ¬ straddles m k (s + size))
    | Err err => OFFSET_IS_ADDR = false ∧
        ∃ k, err = ReadPartialPointer k ∧ (straddles m k s ∨ straddles m k (s + size))
    end.
Proof.
  intros Hm. unfold prepare_copy. cbv zeta. change (range_start src) with s. change (range_size src) with size.
  destruct (inner_ptrs m Hm) as (o & -> & Hos & Hoq). cbn [obind].
  destruct (edge_list m s Hm) as (l1 & -> & H1); [lia|]. cbn [obind].
  rewrite range_end_ret by (cbn; lia). change (range_start src) with s. change (range_size src) with size. cbn [obind].
  destruct (edge_list m (s + size) Hm) as (l2 & -> & H2); [lia|]. cbn [obind].
  destruct OFFSET_IS_ADDR eqn:Ha; cbn [negb].
  - destruct (copy_bytes_spec m l1 l2 Hm H1 H2) as (l & -> & Hl & Hq). cbn [obind].
    destruct (repeat_entries_spec l Hl) as (l' & -> & Hl' & Hq').
    { apply list.Forall_forall. intros [x p] [? _]%Hq. done. }
    cbn [obind]. eexists. split; [done|]. split; [|congruence]. split; cbn [dest_ptrs dest_bytes default from_option id]; try done.
    + intros x p. rewrite Hq'. split; intros (i & y & Hc & Hy); exists i, y; (split; [done|]).
      * by apply Hq in Hy as [_ ?].
      * apply Hq. split; [|done]. apply Hc.
    + congruence.
  - assert (∀ edge l, over_edge m edge l → (∃ q, head l = Some q ∧ straddles m q.1 edge) ∨
      head l = None ∧ ∀ k, ¬ straddles m k edge) as Hhead.
    { intros edge [|[k p] l] Hl; [right|left].
      - split; [done|]. intros k [[p Hk] B]. assert ((k, p) ∈ []) as []%elem_of_nil. by apply Hl.
      - exists (k, p). split; [done|]. destruct (proj1 (Hl k p) ltac:(left)). split; [by exists p|done]. }
    destruct (Hhead s l1 H1) as [([k1 p1] & -> & S1)|[-> N1]]; [eexists; split; [done|]; split; [done|]; eauto|].
    destruct (Hhead (s + size) l2 H2) as [([k2 p2] & -> & S2)|[-> N2]]; [eexists; split; [done|]; split; [done|]; eauto|].
    eexists. split; [done|]. split; [|done]. split; cbn [dest_ptrs dest_bytes default from_option id]; try done; [constructor|].
    intros x p. rewrite elem_of_nil. split; [done|].
    intros (i & y & Hc & [Hb|(k & Hk & C & Hn)]); [unfold byte_at in Hb; by rewrite (wf_bytewise m Hm Ha) in Hb|].
    destruct Hc as (_ & ? & _). unfold covers in C. destruct (Z.lt_ge_cases k s).
    + apply (N1 k). split; [by exists p|lia].
    + apply (N2 k). split; [by exists p|lia].
Qed.

(** ** Applying a copy *)

(** A byte of a copy that a copied pointer covers *)
Lemma covered_copy i y x k x' : copy_pos i y k → y + ps ≤ s + size → covers k x' →
  copy_pos i (y + (x' - k)) x' ∧ (copy_pos i x x' → x = y + (x' - k)).
Proof. unfold copy_pos, covers. intros (? & ? & ->) ? ?. split; [split_and!; lia|]. intros (? & ? & ?). lia. Qed.

(** Insertion of presorted elements, on the entries of the maps *)
Lemma insert_presorted_elems (b : SortedMap.t Z Prov) l : wf_map b → sorted l →
  (∀ x p q, (x, p) ∈ l → (x, q) ∈ SortedMap.data b → False) →
  ∃ b', SortedMap.insert_presorted b l = Ret b' ∧ wf_map b' ∧
    ∀ q, q ∈ SortedMap.data b' ↔ q ∈ l ∨ q ∈ SortedMap.data b.
Proof.
  intros Hb Hl Hd'. destruct (insert_presorted_map b l Hb Hl) as (b' & Hi & Hb' & Hq). exists b'. split_and!; [done..|].
  intros [x p]. rewrite <- !(assoc_elem x p) by done. specialize (Hq x). unfold lookup in Hq. rewrite Hq.
  destruct (assoc x l) as [v|] eqn:E.
  - split; [by left|]. intros [?|E']; [done|]. apply assoc_elem in E; [|done]. apply assoc_elem in E'; [|done].
    by destruct (Hd' x v p).
  - split; [by right|]. by intros [?|?].
Qed.

(** The destination before and after the copied entries are inserted *)
Record merged (c : ProvenanceCopy Prov) m2 m' : Prop := {
  merged_ptrs : wf_map (ptrs m');
  merged_bytes b : bytes m' = Some b → wf_map b;
  merged_none : OFFSET_IS_ADDR = false → bytes m' = None;
  merged_entries q : q ∈ entries m' ↔ q ∈ default [] (dest_ptrs c) ∨ q ∈ entries m2;
  merged_byte_at x p : byte_at m' x = Some p ↔ (x, p) ∈ default [] (dest_bytes c) ∨ byte_at m2 x = Some p;
}.

Definition dest_clear m2 : Prop := ∀ x p, d ≤ x < d + size * count → ¬ prov_at m2 x p.

Lemma insert_copied_bytes c m m1 : carries c m → (∀ b, bytes m1 = Some b → wf_map b) →
  (OFFSET_IS_ADDR = false → bytes m1 = None) →
  (∀ x, d ≤ x < d + size * count → byte_at m1 x = None) →
  ∃ m', (if OFFSET_IS_ADDR then
      match dest_bytes c with
      | Some ((_ :: _) as d) =>
          let! b := SortedMap.insert_presorted (default SortedMap.new (bytes m1)) d in
          Ret {| ptrs := ptrs m1; bytes := Some b |}
      | _ => Ret m1
      end
    else Ret m1) = Ret m' ∧ ptrs m' = ptrs m1 ∧ (∀ b, bytes m' = Some b → wf_map b) ∧
    (OFFSET_IS_ADDR = false → bytes m' = None) ∧
    ∀ x p, byte_at m' x = Some p ↔ (x, p) ∈ default [] (dest_bytes c) ∨ byte_at m1 x = Some p.
Proof.
  intros Hc Hb Hn Hclear. destruct OFFSET_IS_ADDR eqn:Ha.
  2: { exists m1. split_and!; try done. intros x p. rewrite (carries_bytewise c m Hc Ha). cbn. rewrite elem_of_nil. tauto. }
  pose proof (carries_bytes_sorted c m Hc) as Hs'. pose proof (carries_bytes c m Hc) as Hq.
  destruct (dest_bytes c) as [[|e l]|]; cbn [default from_option id] in *;
    [by exists m1; split_and!; try done; intros x p; rewrite elem_of_nil; tauto| |
     by exists m1; split_and!; try done; intros x p; rewrite elem_of_nil; tauto].
  set (b0 := match bytes m1 with Some b => b | None => SortedMap.new end).
  assert (wf_map b0) as Hb0 by (unfold b0; destruct (bytes m1); [by apply Hb|constructor]).
  assert (∀ x, byte_at m1 x = lookup b0 x) as Hl0 by (intros x; unfold byte_at, b0; by destruct (bytes m1)).
  destruct (insert_presorted_elems b0 (e :: l) Hb0 Hs') as (b' & Hi & Hb' & Hbq).
  { intros x p q (i & y & Hp & _)%Hq Hx. apply byte_entry in Hx; [|done]. rewrite <- Hl0 in Hx.
    rewrite Hclear in Hx; [done|]. by apply (copy_pos_dest i y). }
  match goal with |- context [SortedMap.insert_presorted ?b _] => change b with b0 end.
  rewrite Hi. cbn [obind]. eexists. split; [done|]. cbn [ptrs bytes]. split_and!; [done|by intros ? [= <-]|done|].
  intros x p. unfold byte_at at 1. cbn [bytes]. rewrite byte_entry by done. rewrite Hbq, Hl0, (byte_entry b0) by done. done.
Qed.

Lemma apply_copy_merges c m m2 : wf_prov m2 → carries c m → dest_clear m2 →
  ∃ m', apply_copy m2 c = Ret m' ∧ merged c m2 m'.
Proof.
  intros Hm2 Hc Hclear. unfold apply_copy.
  assert (∃ m1, match dest_ptrs c with
    | Some d => let! p := SortedMap.insert_presorted (ptrs m2) d in Ret {| ptrs := p; bytes := bytes m2 |}
    | None => Ret m2
    end = Ret m1 ∧ wf_map (ptrs m1) ∧ bytes m1 = bytes m2 ∧
    ∀ q, q ∈ entries m1 ↔ q ∈ default [] (dest_ptrs c) ∨ q ∈ entries m2) as (m1 & -> & Hw1 & Hb1 & Hq1).
  { pose proof (carries_ptrs_sorted c m Hc) as Hps. pose proof (carries_ptrs c m Hc) as Hpq.
    destruct (dest_ptrs c) as [l|]; cbn [default from_option id] in *.
    - destruct (insert_presorted_elems (ptrs m2) l (wf_ptrs m2 Hm2) Hps) as (b' & -> & Hb' & Hbq).
      { intros x p q (i & y & Hp & _)%Hpq Hx. destruct (Hclear x q); [by apply (copy_pos_dest i y)|].
        left. exists x. split; [done|]. unfold covers. lia. }
      cbn [obind]. by eexists.
    - exists m2. split_and!; [done|apply (wf_ptrs m2 Hm2)|done|]. intros q. rewrite elem_of_nil. tauto. }
  cbn [obind]. assert (∀ x, byte_at m1 x = byte_at m2 x) as Hby by (intros x; unfold byte_at; by rewrite Hb1).
  destruct (insert_copied_bytes c m m1 Hc) as (m' & -> & Hp' & Hw' & Hn' & Hq').
  - rewrite Hb1. apply (wf_bytes m2 Hm2).
  - rewrite Hb1. apply (wf_bytewise m2 Hm2).
  - intros x Hx. rewrite Hby. destruct (byte_at m2 x) as [p|] eqn:E; [|done]. destruct (Hclear x p Hx). by right.
  - exists m'. split; [done|]. split; [by rewrite Hp'|done|done|unfold entries at 1; by rewrite Hp'|].
    intros x p. by rewrite Hq', Hby.
Qed.

Lemma merged_wf c m m2 m' : wf_prov m → wf_prov m2 → carries c m → dest_clear m2 → merged c m2 m' → wf_prov m'.
Proof.
  intros Hm Hm2 Hc Hclear Hmg.
  assert (∀ k p, (k, p) ∈ entries m' → (∃ i y, copy_pos i y k ∧ (y, p) ∈ entries m ∧ y + ps ≤ s + size) ∨
    (k, p) ∈ entries m2 ∧ (k + ps ≤ d ∨ d + size * count ≤ k ∨ size * count = 0)) as Hent.
  { intros k p [Hk|Hk]%(merged_entries c m2 m' Hmg); [left; by apply (carries_ptrs c m Hc)|]. right. split; [done|].
    destruct (decide (k + ps ≤ d ∨ d + size * count ≤ k ∨ size * count = 0)) as [|Hn]; [done|].
    destruct (Hclear (Z.max d k) p); [lia|]. left. exists k. split; [done|]. unfold covers. lia. }
  split; try apply Hmg.
  - intros k p [(i & y & (? & ? & ->) & Hy & ?)|[Hk _]]%Hent; [nia|by apply (wf_bounds m2 Hm2 k p)].
  - intros k p k' p' [(i & y & Hi & Hy & ?)|[Hk Bk]]%Hent [(i' & y' & Hi' & Hy' & ?)|[Hk' Bk']]%Hent Hlt.
    + destruct Hi as (? & ? & ->), Hi' as (? & ? & ->). destruct (Z.lt_trichotomy i i') as [?|[<-|?]]; [nia| |nia].
      pose proof (wf_spaced m Hm y p y' p' Hy Hy' ltac:(lia)). lia.
    + destruct Hi as (? & ? & ->). nia.
    + destruct Hi' as (? & ? & ->). nia.
    + by apply (wf_spaced m2 Hm2 k p k' p').
  - intros k p x Hk C. destruct (byte_at m' x) as [q|] eqn:E; [|done]. apply (merged_byte_at c m2 m' Hmg) in E.
    apply (merged_entries c m2 m' Hmg) in Hk. destruct Hk as [(i & y & Hi & Hy & Hin)%(carries_ptrs c m Hc)|Hk].
    + destruct (covered_copy i y y k x Hi Hin C) as [Hx _]. destruct E as [(i' & y' & Hi' & Hp)%(carries_bytes c m Hc)|E].
      * destruct (copy_pos_unique _ _ _ _ _ Hx Hi') as [<- <-].
        assert (covers y (y + (x - k))) as C' by (unfold covers in *; lia).
        destruct Hp as [Hb|(k0 & Hk0 & C0 & Hn)]; [by rewrite (wf_disjoint m Hm y p _ Hy C') in Hb|].
        destruct (covers_unique m y p k0 q _ Hm Hy Hk0 C' C0) as [-> _]. destruct Hi as (_ & ? & _). lia.
      * destruct (Hclear x q); [by apply (copy_pos_dest i (y + (x - k)))|by right].
    + destruct E as [(i' & y' & Hi' & Hp)%(carries_bytes c m Hc)|E].
      * destruct (Hclear x p); [by apply (copy_pos_dest i' y')|]. left; eauto.
      * by rewrite (wf_disjoint m2 Hm2 k p x Hk C) in E.
Qed.

Lemma merged_prov c m m2 m' : wf_prov m → carries c m → dest_clear m2 → merged c m2 m' →
  ∀ x p, prov_at m' x p ↔
    d ≤ x < d + size * count ∧ prov_at m (s + (x - d) mod size) p ∨ ¬ (d ≤ x < d + size * count) ∧ prov_at m2 x p.
Proof.
  intros Hm Hc Hclear Hmg x p. split.
  - intros [(k & [(i & y & Hi & Hy & Hin)%(carries_ptrs c m Hc)|Hk]%(merged_entries c m2 m' Hmg) & C)|
      [(i & y & Hi & Hp)%(carries_bytes c m Hc)|Hb]%(merged_byte_at c m2 m' Hmg)].
    + left. destruct (covered_copy i y y k x Hi Hin C) as [Hx _]. destruct (copy_pos_dest _ _ _ Hx) as [? <-].
      split; [done|]. left. exists y. split; [done|]. unfold covers in *. lia.
    + right. assert (prov_at m2 x p) by (left; eauto). split; [|done]. intros Hx. by apply (Hclear x p).
    + left. destruct (copy_pos_dest _ _ _ Hi) as [? <-]. split; [done|].
      destruct Hp as [Hb|(k & Hk & C & _)]; [by right|left; eauto].
    + right. assert (prov_at m2 x p) by (by right). split; [|done]. intros Hx. by apply (Hclear x p).
  - intros [[Hx Hp]|[Hx Hp]].
    + destruct (copy_pos_exists x Hx) as [i Hi]. set (y := s + (x - d) mod size) in *.
      assert (partial m y p → prov_at m' x p) as Hpart.
      { intros H. right. apply (merged_byte_at c m2 m' Hmg). left. apply (carries_bytes c m Hc). eauto. }
      destruct Hp as [(k & Hk & C)|Hb]; [|by apply Hpart; left].
      destruct (decide (s ≤ k ∧ k + ps ≤ s + size)) as [Hin|Hn]; [|apply Hpart; right; eauto].
      left. exists (d + size * i + (k - s)). destruct Hi as (? & ? & Ex). split; [|unfold covers in *; lia].
      apply (merged_entries c m2 m' Hmg). left. apply (carries_ptrs c m Hc). exists i, k. split; [|tauto].
      unfold covers in C. split_and!; lia.
    + destruct Hp as [(k & Hk & C)|Hb].
      * left. exists k. split; [|done]. apply (merged_entries c m2 m' Hmg). by right.
      * right. apply (merged_byte_at c m2 m' Hmg). by right.
Qed.

Lemma apply_copy_prov c m m2 : wf_prov m → wf_prov m2 → carries c m → dest_clear m2 →
  ∃ m', apply_copy m2 c = Ret m' ∧ wf_prov m' ∧ ∀ x p, prov_at m' x p ↔
    d ≤ x < d + size * count ∧ prov_at m (s + (x - d) mod size) p ∨ ¬ (d ≤ x < d + size * count) ∧ prov_at m2 x p.
Proof.
  intros Hm Hm2 Hc Hclear. destruct (apply_copy_merges c m m2 Hm2 Hc Hclear) as (m' & Ha & Hmg).
  exists m'. split_and!; [done|by apply (merged_wf c m m2)|by apply (merged_prov c m m2)].
Qed.

End Copy.
(** ** Properties *)

(** Clearing the provenance of a range of bytes returns.  Where it succeeds, the
    map keeps its invariant, every byte of the range has no provenance, and every
    other byte has the one it had, also those of pointers that the range cuts, which
    are split into bytes when the machine allows it.  A machine that does not fails
    exactly when a pointer lies across an edge of the range. *)
Theorem provenance_clear_exact m r :
  let s := range_start r in let e := range_start r + range_size r in
  wf_prov m → 0 ≤ s → 0 ≤ range_size r → e < 2 ^ 64 →
  ∃ res, clear m r cx = Ret res ∧
    match res with
    | Ok m' => wf_prov m' ∧ (OFFSET_IS_ADDR = false → ∀ k, ¬ straddles m k s ∧ ¬ straddles m k e) ∧
        ∀ x, 0 ≤ x < 2 ^ 64 - 1 → get m' x cx = if decide (s ≤ x < e) then Ret None else get m x cx
    | Err err => OFFSET_IS_ADDR = false ∧ ∃ k, err = OverwritePartialPointer k ∧ (straddles m k s ∨ straddles m k e)
    end.
Proof.
  intros s e Hm Hs Hsz He. destruct (clear_spec m r Hm Hs Hsz He) as (res & Hc & Hres). exists res. split; [done|].
  destruct res as [m'|err]; [|done]. destruct Hres as [[Hm' Hp] Hns]. split_and!; [done|done|]. intros x Hx.
  destruct (get_prov m' x Hm') as (o' & -> & Ho'); [lia..|]. destruct (get_prov m x Hm) as (o & -> & Ho); [lia..|].
  assert (∀ p, o' = Some p ↔ o = Some p ∧ ¬ (s ≤ x < e)) as H by (intros p; by rewrite Ho', Ho, Hp).
  case_decide as Hc'; f_equal.
  - destruct o' as [p|]; [|done]. by destruct (proj1 (H p) eq_refl).
  - destruct o' as [p'|]; [symmetry; by apply H|]. destruct o as [p|]; [|done]. by apply H.
Qed.

End Maps.

(** A machine with provenance for single bytes *)
Definition bytewise : Provenance Z := {| OFFSET_IS_ADDR := true; join l r := Ret (if decide (l = r) then l else None) |}.

Definition sample_cx (e : Endian) : TargetDataLayout :=
  let al := AbiAndPrefAlign.new 3 in
  {| endian := e; i1_align := al; i8_align := al; i16_align := al; i32_align := al; i64_align := al; i128_align := al;
     f32_align := al; f64_align := al; pointer_size := 8; pointer_align := al; aggregate_align := al; vector_aligns := [];
     instruction_address_space := 0; c_enum_min_size := I32 |}.

(** Two pointers that the range [4..20] cuts *)
Definition two_ptrs : ProvenanceMap.t Z := from_presorted_ptrs [(0, 7); (16, 9)].

Lemma two_ptrs_wf : wf_prov (PV := bytewise) (sample_cx Little) two_ptrs.
Proof.
  assert (∀ k p, (k, p) ∈ entries two_ptrs → (k, p) = (0, 7) ∨ (k, p) = (16, 9)) as H.
  { intros k p Hk. change (entries two_ptrs) with [(0, 7); (16, 9)] in Hk. rewrite !elem_of_cons, elem_of_nil in Hk. tauto. }
  split; try done.
  - by repeat constructor.
  - intros k p [[= -> ->]|[= -> ->]]%H; cbn; lia.
  - intros k p k' p' [[= -> ->]|[= -> ->]]%H [[= -> ->]|[= -> ->]]%H; cbn; lia.
Qed.

Lemma provenance_clear_exact_witness :
  let s := 4 in let e := 20 in
  ∃ res, clear (H := bytewise) two_ptrs (alloc_range 4 16) (sample_cx Little) = Ret res ∧
    match res with
    | Ok m' => wf_prov (PV := bytewise) (sample_cx Little) m' ∧
        (OFFSET_IS_ADDR (Provenance := bytewise) = false → ∀ k, ¬ straddles (sample_cx Little) two_ptrs k s ∧ ¬ straddles (sample_cx Little) two_ptrs k e) ∧
        ∀ x, 0 ≤ x < 2 ^ 64 - 1 →
          get m' x (sample_cx Little) = if decide (s ≤ x < e) then Ret None else get two_ptrs x (sample_cx Little)
    | Err err => OFFSET_IS_ADDR (Provenance := bytewise) = false ∧
        ∃ k, err = OverwritePartialPointer k ∧ (straddles (sample_cx Little) two_ptrs k s ∨ straddles (sample_cx Little) two_ptrs k e)
    end.
Proof.
  apply (provenance_clear_exact (PV := bytewise) (sample_cx Little) ltac:(done) two_ptrs (alloc_range 4 16)); [apply two_ptrs_wf|done..].
Defined.
