(* ===== verification/Allocation.v ===== *)
(** * Allocations of the interpreter

    [compiler/rustc_middle/src/mir/interpret/allocation.rs]: the bytes of an
    allocation with their provenance and initialization mask, and reading and
    writing scalars and fields; [Scalar] of [value.rs], [ScalarInt] of
    [ty/consts/int.rs], and [mem_copy_repeatedly] of
    [rustc_const_eval/src/interpret/memory.rs] from the two places in memory on.

    An operation that can fail returns the allocation beside its result, because
    marking bytes as initialized comes before the provenance is cleared. *)

From S2P Require Import Prelude.
From S2P Require Import Opaque.
From S2P Require Import Abi.
From S2P Require Import Fields.
From S2P Require Import Slice.
From S2P Require Import BitSets.
From S2P Require Import SortedMap.
From S2P Require Import InitMask.
From S2P Require Import Provenance.

Inductive Mutability : Type := Not | Mut.

#[global] Instance Mutability_eq_dec : EqDecision Mutability.
Proof. solve_decision. Defined.

(** ** Scalars *)

Record ScalarInt : Type := { int_data : Z; int_size : Z }.

Module ScalarInt.

Definition size (s : ScalarInt) : Size := Size.from_bytes (int_size s).

(** [NonZeroU8::new(size.bytes() as u8).unwrap()] *)
Definition nonzero_u8 (size : Size) : outcome Z :=
  let size := wrap 8 (Size.bytes size) in rassert (negb (size =? 0)) (Ret size).

Definition try_from_uint (i : Z) (size : Size) : outcome (option ScalarInt) :=
  let! t := Size.truncate size i in
  if t =? i then let! sz := nonzero_u8 size in Ret (Some {| int_data := i; int_size := sz |}) else Ret None.

Definition to_bits (s : ScalarInt) (target_size : Size) : outcome (result Z Size) :=
  rassert (negb (Size.bytes target_size =? 0))
    (Ret (if Size.bytes target_size =? int_size s then Ok (int_data s) else Err (size s))).

End ScalarInt.

Record Pointer (Prov : Type) : Type := mkPointer { provenance : Prov; offset : Size }.
Arguments mkPointer {Prov} _ _.
Arguments provenance {Prov} _.
Arguments offset {Prov} _.

Inductive Scalar (Prov : Type) : Type :=
| Int (i : ScalarInt)
| Ptr (ptr : Pointer Prov) (size : Z).
Arguments Int {Prov} _.
Arguments Ptr {Prov} _ _.

Module Scalar.

Section Ops.
Context {Prov : Type}.

(** [u8::try_from(cx.pointer_size().bytes()).unwrap()] *)
Definition from_pointer (ptr : Pointer Prov) (cx : TargetDataLayout) : outcome (Scalar Prov) :=
  rassert (Size.bytes (pointer_size cx) <? 2 ^ 8) (Ret (Ptr ptr (Size.bytes (pointer_size cx)))).

Definition from_maybe_pointer (ptr : Pointer (option Prov)) (cx : TargetDataLayout) : outcome (Scalar Prov) :=
  match provenance ptr with
  | Some prov => from_pointer (mkPointer prov (offset ptr)) cx
  | None =>
      let! o := ScalarInt.try_from_uint (Size.bytes (offset ptr)) (pointer_size cx) in
      let! i := unwrap o in Ret (Int i)
  end.

Definition from_uint (i : Z) (size : Size) : outcome (Scalar Prov) :=
  let! o := ScalarInt.try_from_uint i size in let! i := unwrap o in Ret (Int i).

Definition to_bits_or_ptr_internal (s : Scalar Prov) (target_size : Size)
    : outcome (result (Z + Pointer Prov) SizeMismatch) :=
  rassert (negb (Size.bytes target_size =? 0))
    match s with
    | Int i =>
        let! r := ScalarInt.to_bits i target_size in
        Ret (match r with
             | Ok bits => Ok (inl bits)
             | Err size => Err {| target_size := Size.bytes target_size; data_size := Size.bytes size |}
             end)
    | Ptr ptr sz =>
        Ret (if Size.bytes target_size =? sz then Ok (inr ptr)
             else Err {| target_size := Size.bytes target_size; data_size := sz |})
    end.

End Ops.

End Scalar.

(** [Size::from_bytes] of a [u128] *)
Definition size_from_u128 (bits : Z) : outcome Size := rassert (bits <? 2 ^ 64) (Ret (Size.from_bytes bits)).

(** ** Allocations *)

Module Allocation.

Section Ops.
Context {Prov : Type} `{Provenance Prov} {Extra : Type}.

Record t : Type := {
  bytes : list Z;
  prov_map : ProvenanceMap.t Prov;
  init : InitMask.t;
  align : Align;
  mutability : Mutability;
  extra : Extra;
}.

Definition with_bytes (a : t) (b : list Z) : t :=
  {| bytes := b; prov_map := prov_map a; init := init a; align := align a; mutability := mutability a; extra := extra a |}.
Definition with_prov (a : t) (p : ProvenanceMap.t Prov) : t :=
  {| bytes := bytes a; prov_map := p; init := init a; align := align a; mutability := mutability a; extra := extra a |}.
Definition with_init (a : t) (m : InitMask.t) : t :=
  {| bytes := bytes a; prov_map := prov_map a; init := m; align := align a; mutability := mutability a; extra := extra a |}.

Definition len (a : t) : nat := length (bytes a).
Definition size (a : t) : Size := Size.from_bytes (Z.of_nat (len a)).

(** [&self.bytes[range.start.bytes_usize()..range.end().bytes_usize()]] *)
Definition get_bytes_unchecked (a : t) (r : AllocRange) : outcome (list Z) :=
  let! end_ := range_end r in
  subslice (bytes a) (Z.to_nat (Size.bytes (range_start r))) (Z.to_nat (Size.bytes end_)).

Definition get_bytes_strip_provenance (a : t) (cx : TargetDataLayout) (r : AllocRange) : outcome (result (list Z) AllocError) :=
  let! uninit := InitMask.is_range_initialized (init a) r in
  match uninit with
  | Some uninit_range => Ret (Err (InvalidUninitBytes (Some {| access := r; bad := uninit_range |})))
  | None =>
      let! empty := if negb OFFSET_IS_ADDR then ProvenanceMap.range_empty (prov_map a) r cx else Ret true in
      if empty then let! b := get_bytes_unchecked a r in Ret (Ok b)
      else
        let! p := ProvenanceMap.range_get_ptrs (prov_map a) r cx in
        let! entry := unwrap (head p) in
        let start := Z.max (fst entry) (range_start r) in
        let! ptr_end := Size.add (fst entry) (pointer_size cx) in
        let! range_end := range_end r in
        let! bad := alloc_range_from start (Z.min ptr_end range_end) in
        Ret (Err (ReadPointerAsInt (Some {| access := r; bad := bad |})))
  end.

Definition mark_init (a : t) (r : AllocRange) (is_init : bool) : outcome t :=
  if Size.bytes (range_size r) =? 0 then Ret a
  else
    rassert (bool_decide (mutability a = Mut))
      (let! m := InitMask.set_range (init a) r is_init in Ret (with_init a m)).

(** [mark_init] and then [self.provenance.clear(range, cx)?] *)
Definition mark_and_clear (a : t) (cx : TargetDataLayout) (r : AllocRange) (is_init : bool) : outcome (t * result unit AllocError) :=
  let! a := mark_init a r is_init in
  let! c := ProvenanceMap.clear (prov_map a) r cx in
  match c with
  | Ok p => Ret (with_prov a p, Ok tt)
  | Err e => Ret (a, Err e)
  end.

(** The slice is where the caller writes; the result says that it is in bounds. *)
Definition get_bytes_mut (a : t) (cx : TargetDataLayout) (r : AllocRange) : outcome (t * result (list Z) AllocError) :=
  let! (a, c) := mark_and_clear a cx r true in
  match c with
  | Ok _ => let! b := get_bytes_unchecked a r in Ret (a, Ok b)
  | Err e => Ret (a, Err e)
  end.

Definition get_bytes_mut_ptr (a : t) (cx : TargetDataLayout) (r : AllocRange) : outcome (t * result (Size * Z) AllocError) :=
  let! (a, c) := mark_and_clear a cx r true in
  match c with
  | Ok _ =>
      let! end_ := range_end r in
      rassert (Size.bytes end_ <=? Z.of_nat (len a))
        (Ret (a, Ok (range_start r, wsub 64 (Size.bytes end_) (Size.bytes (range_start r)))))
  | Err e => Ret (a, Err e)
  end.

(** What the caller of [get_bytes_mut] does with the slice *)
Definition write_slice (a : t) (r : AllocRange) (src : list Z) : t :=
  let start := Z.to_nat (Size.bytes (range_start r)) in
  with_bytes a (take start (bytes a) ++ src ++ drop (start + length src) (bytes a)).

(** The loop [for offset in Size::from_bytes(1)..range.size] of [read_scalar] *)
Definition join_bytes (a : t) (cx : TargetDataLayout) (r : AllocRange) : outcome (option Prov) :=
  let! prov := ProvenanceMap.get (prov_map a) (range_start r) cx in
  fold_outcome (λ prov offset,
    let! at_ := Size.add (range_start r) offset in
    let! this_prov := ProvenanceMap.get (prov_map a) at_ cx in
    join prov this_prov) (seqZ 1 (range_size r - 1)) prov.

Definition read_scalar (a : t) (cx : TargetDataLayout) (r : AllocRange) (read_provenance : bool)
    : outcome (result (Scalar Prov) AllocError) :=
  let! uninit := InitMask.is_range_initialized (init a) r in
  match uninit with
  | Some _ => Ret (Err (InvalidUninitBytes None))
  | None =>
      let! b := get_bytes_unchecked a r in
      let! bits := read_target_uint (endian cx) b in
      if read_provenance then
        rassert (range_size r =? pointer_size cx)
          (let! exact := ProvenanceMap.get_ptr (prov_map a) (range_start r) in
           match exact with
           | Some prov =>
               let! o := size_from_u128 bits in
               let! s := Scalar.from_pointer (mkPointer prov o) cx in Ret (Ok s)
           | None =>
               if OFFSET_IS_ADDR then
                 let! prov := join_bytes a cx r in
                 let! o := size_from_u128 bits in
                 let! s := Scalar.from_maybe_pointer (mkPointer prov o) cx in Ret (Ok s)
               else
                 let! empty := ProvenanceMap.range_empty (prov_map a) r cx in
                 if empty then let! s := Scalar.from_uint bits (range_size r) in Ret (Ok s)
                 else Ret (Err (ReadPartialPointer (range_start r)))
           end)
      else
        let! ignore := if OFFSET_IS_ADDR then Ret true else ProvenanceMap.range_empty (prov_map a) r cx in
        if ignore then let! s := Scalar.from_uint bits (range_size r) in Ret (Ok s)
        else Ret (Err (ReadPointerAsInt None))
  end.

Definition write_scalar (a : t) (cx : TargetDataLayout) (r : AllocRange) (val : Scalar Prov)
    : outcome (t * result unit AllocError) :=
  rassert (bool_decide (mutability a = Mut))
    (let! v := Scalar.to_bits_or_ptr_internal val (range_size r) in
     match v with
     | Err e => Ret (a, Err (ScalarSizeMismatch e))
     | Ok v =>
         let '(data, prov) := match v with
           | inr ptr => (Size.bytes (offset ptr), Some (provenance ptr))
           | inl data => (data, None)
           end in
         let! (a, dst) := get_bytes_mut a cx r in
         match dst with
         | Err e => Ret (a, Err e)
         | Ok dst =>
             let! dst := write_target_uint (endian cx) dst data in
             let a := write_slice a r dst in
             match prov with
             | Some prov =>
                 rassert (range_size r =? pointer_size cx)
                   (let! p := ProvenanceMap.insert_ptr (prov_map a) (range_start r) prov in
                    Ret (with_prov a p, Ok tt))
             | None => Ret (a, Ok tt)
             end
         end
     end).

Definition write_uninit (a : t) (cx : TargetDataLayout) (r : AllocRange) : outcome (t * result unit AllocError) :=
  mark_and_clear a cx r false.

Definition provenance_apply_copy (a : t) (copy : ProvenanceCopy Prov) : outcome t :=
  let! p := ProvenanceMap.apply_copy (prov_map a) copy in Ret (with_prov a p).

Definition init_mask_apply_copy (a : t) (copy : InitCopy) (r : AllocRange) (repeat : Z) : outcome t :=
  let! m := apply_copy (init a) copy r repeat in Ret (with_init a m).

Section Fields.
Context `{U384Api}.

Definition read_field (a : t) (cx : TargetDataLayout) (r : AllocRange) : outcome (result ScalarField.t AllocError) :=
  let! uninit := InitMask.is_range_initialized (init a) r in
  match uninit with
  | Some _ => Ret (Err (InvalidUninitBytes None))
  | None =>
      let! b := get_bytes_unchecked a r in
      let! bits := read_target_field (endian cx) b in
      rassert (negb OFFSET_IS_ADDR)
        (let! empty := ProvenanceMap.range_empty (prov_map a) r cx in
         if negb empty then Ret (Err (ReadPartialPointer (range_start r)))
         else let! f := ScalarField.from_u384 bits (range_size r) in Ret (Ok f))
  end.

Definition write_field (a : t) (cx : TargetDataLayout) (r : AllocRange) (val : ScalarField.t)
    : outcome (t * result unit AllocError) :=
  rassert (bool_decide (mutability a = Mut))
    (let! (a, dst) := get_bytes_mut a cx r in
     match dst with
     | Err e => Ret (a, Err e)
     | Ok dst =>
         let! dst := write_target_field (endian cx) dst (ScalarField.data val) in
         Ret (write_slice a r dst, Ok tt)
     end).

End Fields.

End Ops.
Arguments t : clear implicits.

Section New.
Context {Prov : Type}.

(** [from_raw_bytes], and [from_bytes] with the same fields *)
Definition from_raw_bytes (bytes : list Z) (align : Align) (mutability : Mutability) : t Prov unit :=
  {| bytes := bytes; prov_map := ProvenanceMap.new; init := InitMask.new (Size.from_bytes (Z.of_nat (length bytes))) true;
     align := align; mutability := mutability; extra := tt |}.

Definition from_bytes_byte_aligned_immutable (bytes : list Z) : t Prov unit := from_raw_bytes bytes Align.ONE Not.

(** [zeroed] is [AllocBytes::zeroed]: it fails when there is no memory. *)
Definition uninit_inner {R} (zeroed : Size → option (list Z)) (size : Size) (align : Align) (fail : R) : result (t Prov unit) R :=
  match zeroed size with
  | None => Err fail
  | Some bytes =>
      Ok {| bytes := bytes; prov_map := ProvenanceMap.new; init := InitMask.new size false;
            align := align; mutability := Mut; extra := tt |}
  end.

End New.

(** ** From the compiler to a machine *)

Section Adjust.
Context {Prov Extra E : Type} (cx : TargetDataLayout) (adjust_ptr : Pointer AllocId → result (Pointer Prov) E).

(** The body of the loop: the pointer at an offset is adjusted in place. *)
Definition adjust_one (state : list Z * list (Z * Prov)) (entry : Z * AllocId)
    : outcome (result (list Z * list (Z * Prov)) E) :=
  let '(bytes, new_provenance) := state in
  let idx := Size.bytes (fst entry) in
  let ptr_end := wadd 64 idx (Size.bytes (pointer_size cx)) in
  let! ptr_bytes := subslice bytes (Z.to_nat idx) (Z.to_nat ptr_end) in
  let! bits := read_target_uint (endian cx) ptr_bytes in
  let! o := size_from_u128 bits in
  match adjust_ptr (mkPointer (snd entry) o) with
  | Err e => Ret (Err e)
  | Ok ptr =>
      let! ptr_bytes := write_target_uint (endian cx) ptr_bytes (Size.bytes (offset ptr)) in
      let! bytes := vec_splice bytes (Z.to_nat idx) (Z.to_nat ptr_end) ptr_bytes in
      Ret (Ok (bytes, new_provenance ++ [(fst entry, provenance ptr)]))
  end.

Fixpoint adjust_all (entries : list (Z * AllocId)) (state : list Z * list (Z * Prov))
    : outcome (result (list Z * list (Z * Prov)) E) :=
  match entries with
  | [] => Ret (Ok state)
  | entry :: entries =>
      let! r := adjust_one state entry in
      match r with Ok state => adjust_all entries state | Err e => Ret (Err e) end
  end.

Definition adjust_from_tcx (a : t AllocId unit) (extra : Extra) : outcome (result (t Prov Extra) E) :=
  let! r := adjust_all (SortedMap.iter (ProvenanceMap.ptrs (prov_map a))) (bytes a, []) in
  Ret (match r with
       | Err e => Err e
       | Ok (bytes, new_provenance) =>
           Ok {| bytes := bytes; prov_map := ProvenanceMap.from_presorted_ptrs new_provenance; init := init a;
                 align := align a; mutability := mutability a; extra := extra |}
       end).

End Adjust.

End Allocation.
