(* ===== verification/AllocationProps.v ===== *)
(** * Correctness of allocations

    What is written is what is read: scalars, pointers and field elements, with
    their provenance, at every offset and in either byte order; reading bytes that
    are not initialized or that a pointer overlaps fails as documented; every
    operation keeps the invariant of an allocation and leaves the bytes outside the
    range alone. *)

From S2P Require Import Prelude.
From S2P Require Import MemDecoder.
From S2P Require Import Abi.
From S2P Require Import AbiProps.
From S2P Require Import Fields.
From S2P Require Import FieldsProps.
From S2P Require Import Slice.
From S2P Require Import BitSets.
From S2P Require Import SortedMap.
From S2P Require Import SortedMapProps.
From S2P Require Import InitMask.
From S2P Require Import InitMaskProps.
From S2P Require Import Provenance.
From S2P Require Import ProvenanceProps.
From S2P Require Import Allocation.

Import Allocation.

Section Allocations.
Context {Prov Extra : Type} {PV : Provenance Prov} (cx : TargetDataLayout).
Abbreviation ps := (pointer_size cx).
Hypothesis ps_ok : 0 < ps ≤ 16.
Implicit Types a : Allocation.t Prov Extra.

Lemma ps_u64 : 0 < ps < 2 ^ 64.
Proof. lia. Qed.

Definition alen a : Z := Z.of_nat (length (bytes a)).

(** The mask has a bit per byte, with at most a block more, and the allocation is
    at most [2^62] bytes long. *)
Record wf_alloc a : Prop := {
  wfa_prov : wf_prov cx (prov_map a);
  wfa_mask : wf_mask (init a);
  wfa_len : InitMask.len (init a) = alen a;
  wfa_room : capacity (init a) ≤ alen a + 64;
  wfa_small : alen a < 2 ^ 62;
  wfa_bytes : Forall (λ b, is_byte b) (bytes a);
}.

(** A nonempty range in bounds *)
Definition in_bounds a (r : AllocRange) : Prop :=
  0 ≤ range_start r ∧ 0 < range_size r ∧ range_start r + range_size r ≤ alen a.

Definition inside (r : AllocRange) (x : Z) : Prop := range_start r ≤ x < range_start r + range_size r.

#[local] Instance inside_dec r x : Decision (inside r x).
Proof. unfold inside. apply _. Defined.

Definition init_at a (x : Z) : bool := mask_bit (init a) x.
Definition prov_of a (x : Z) (p : Prov) : Prop := prov_at cx (prov_map a) x p.

(** The bytes of a range *)
Definition slice_of a (r : AllocRange) : list Z :=
  take (Z.to_nat (range_size r)) (drop (Z.to_nat (range_start r)) (bytes a)).

Lemma get_bytes_len a r : alen a < 2 ^ 62 → in_bounds a r → get_bytes_unchecked a r = Ret (slice_of a r).
Proof.
  intros Ha (? & ? & Hin). unfold get_bytes_unchecked. rewrite range_end_ret by lia. cbn [obind].
  unfold subslice, slice_of, Size.bytes, alen in *. rewrite !(proj2 (Nat.leb_le _ _)) by lia. cbn [andb rassert].
  rewrite take_drop_commute. do 3 f_equal. lia.
Qed.

Lemma get_bytes_ret a r : wf_alloc a → in_bounds a r → get_bytes_unchecked a r = Ret (slice_of a r).
Proof. intros Ha. apply get_bytes_len, (wfa_small a Ha). Qed.

Lemma slice_of_lookup a r i : in_bounds a r → 0 ≤ i < range_size r →
  slice_of a r !! Z.to_nat i = bytes a !! Z.to_nat (range_start r + i).
Proof.
  intros (? & ? & _) Hi. unfold slice_of. rewrite lookup_take_lt by lia. rewrite lookup_drop. f_equal. lia.
Qed.

Lemma length_slice_of a r : in_bounds a r → Z.of_nat (length (slice_of a r)) = range_size r.
Proof. intros (? & ? & Hin). unfold slice_of, alen in *. rewrite length_take, length_drop. lia. Qed.

(** Every byte of a range is initialized. *)
Definition all_init a (r : AllocRange) : Prop := ∀ x, inside r x → init_at a x = true.

(** No byte of a range has a provenance. *)
Definition no_prov a (r : AllocRange) : Prop := ∀ x p, inside r x → ¬ prov_of a x p.

Lemma check_init a r : wf_alloc a → in_bounds a r →
  ∃ o, InitMask.is_range_initialized (init a) r = Ret o ∧
    match o with
    | None => all_init a r
    | Some r' => uninit_span (init_at a) (range_start r) (range_start r + range_size r) r' ∧ ¬ all_init a r
    end.
Proof.
  intros Ha (Hs & Hz & Hin). pose proof (wfa_small a Ha).
  destruct (is_range_initialized_spec (init a) r (wfa_mask a Ha) Hs Hz) as (o & Ho & Hspec); [lia|]. exists o. split; [done|].
  rewrite (wfa_len a Ha) in Hspec. rewrite (proj2 (Z.ltb_ge _ _)) in Hspec by lia. destruct o as [r'|]; [|done].
  split; [done|]. intros Hall. destruct Hspec as (? & ? & _ & Hun & _).
  specialize (Hun (range_start r') ltac:(lia)). unfold all_init, init_at, inside in Hall. rewrite Hall in Hun by lia. done.
Qed.

Lemma check_prov a r : wf_alloc a → in_bounds a r →
  ∃ b, ProvenanceMap.range_empty (prov_map a) r cx = Ret b ∧ (b = true ↔ no_prov a r).
Proof.
  intros Ha (Hs & Hz & Hin). pose proof (wfa_small a Ha).
  by apply (range_empty_spec cx ps_u64 (prov_map a) r (wfa_prov a Ha) Hs Hz ltac:(lia)).
Qed.

(** ** Writing *)

(** An allocation after the bytes of a range have been replaced *)
Record rewritten a a' (r : AllocRange) (new_init : bool) (new_bytes : list Z) (new_prov : Z → Prov → Prop) : Prop := {
  rw_wf : wf_alloc a';
  rw_bytes : bytes a' = take (Z.to_nat (range_start r)) (bytes a) ++ new_bytes
    ++ drop (Z.to_nat (range_start r + range_size r)) (bytes a);
  rw_init x : 0 ≤ x < alen a → init_at a' x = if decide (inside r x) then new_init else init_at a x;
  rw_prov x p : prov_of a' x p ↔ inside r x ∧ new_prov x p ∨ ¬ inside r x ∧ prov_of a x p;
  rw_mut : mutability a' = mutability a;
}.

Definition nothing (x : Z) (p : Prov) : Prop := False.

Lemma slice_whole a r : in_bounds a r → bytes a = take (Z.to_nat (range_start r)) (bytes a) ++ slice_of a r
  ++ drop (Z.to_nat (range_start r + range_size r)) (bytes a).
Proof.
  intros (? & ? & ?). unfold slice_of.
  replace (drop (Z.to_nat (range_start r + range_size r)) (bytes a))
    with (drop (Z.to_nat (range_size r)) (drop (Z.to_nat (range_start r)) (bytes a))) by (rewrite drop_drop; f_equal; lia).
  by rewrite !take_drop.
Qed.

(** A pointer that the range would split, where the machine cannot *)
Definition splits a (r : AllocRange) : Prop :=
  OFFSET_IS_ADDR = false ∧ ∃ k, straddles cx (prov_map a) k (range_start r) ∨
    straddles cx (prov_map a) k (range_start r + range_size r).

Lemma mark_and_clear_spec a r b : wf_alloc a → in_bounds a r → mutability a = Mut →
  ∃ a' res, mark_and_clear a cx r b = Ret (a', res) ∧
    match res with
    | Ok _ => rewritten a a' r b (slice_of a r) nothing ∧ ¬ splits a r
    | Err e => splits a r ∧ ∃ k, e = OverwritePartialPointer k ∧
        (straddles cx (prov_map a) k (range_start r) ∨ straddles cx (prov_map a) k (range_start r + range_size r))
    end.
Proof.
  intros Ha Hr Hmut. pose proof Hr as (Hs & Hz & Hin). pose proof (wfa_small a Ha). pose proof (wfa_room a Ha).
  pose proof (wfa_len a Ha) as Hlen. unfold mark_and_clear, mark_init, Size.bytes.
  rewrite (proj2 (Z.eqb_neq _ _)) by lia. rewrite bool_decide_eq_true_2 by done. cbn [rassert].
  destruct (set_range_spec (init a) r b (wfa_mask a Ha) Hs Hz) as (m & -> & Hm & Hml & Hmc & Hmb); [lia|]. cbn [obind].
  unfold grown in Hmc. rewrite Hlen in *. rewrite (proj2 (Z.leb_le _ _)) in Hmc by done. rewrite Z.max_l in Hml, Hmb by done.
  destruct (clear_spec cx ps_u64 (prov_map a) r (wfa_prov a Ha) Hs ltac:(lia) ltac:(lia)) as (res & Hc & Hres).
  change (prov_map (with_init a m)) with (prov_map a). rewrite Hc. cbn [obind]. destruct res as [p|e].
  - destruct Hres as [[Hp Hpq] Hno]. eexists _, _. split; [done|]. cbn. split.
    + split; cbn [bytes prov_map init mutability with_init with_prov].
      * split; cbn [bytes prov_map init with_init with_prov]; try done; [change (capacity m ≤ alen a + 64); lia|apply (wfa_bytes a Ha)].
      * by apply slice_whole.
      * intros x Hx. unfold init_at. cbn [init with_init with_prov]. rewrite Hmb by done. unfold set_state. rewrite Hlen.
        unfold inside. destruct (decide _), (Z.leb_spec (range_start r) x), (Z.ltb_spec x (range_start r + range_size r)),
          (Z.leb_spec (alen a) x); done || lia.
      * intros x q. unfold prov_of, nothing. cbn [prov_map with_init with_prov]. rewrite Hpq. unfold inside. tauto.
      * done.
    + intros [Hf (k & Hk)]. destruct (Hno Hf k). tauto.
  - destruct Hres as [Hf (k & -> & Hk)]. eexists _, _. split; [done|]. cbn. split; [split; [done|by exists k]|by exists k].
Qed.

Lemma rewritten_bytes_eq a a' r b nb np : in_bounds a r → Z.of_nat (length nb) = range_size r →
  rewritten a a' r b nb np → alen a' = alen a ∧ slice_of a' r = nb ∧ in_bounds a' r.
Proof.
  intros (Hs & Hz & Hin) Hl Hr. unfold alen in *.
  assert (length (take (Z.to_nat (range_start r)) (bytes a)) = Z.to_nat (range_start r)) as Hlt by (rewrite length_take; lia).
  assert (alen a' = alen a) as Hal.
  { unfold alen. rewrite (rw_bytes _ _ _ _ _ _ Hr), !length_app, Hlt, length_drop. lia. }
  split_and!; [done| |split_and!; unfold alen in *; lia].
  unfold slice_of. rewrite (rw_bytes _ _ _ _ _ _ Hr). rewrite drop_app_length' by done. rewrite take_app_length' by lia. done.
Qed.

Lemma mark_bytes_same a a' r b np : in_bounds a r → rewritten a a' r b (slice_of a r) np → bytes a' = bytes a.
Proof. intros Hr Ha. rewrite (rw_bytes _ _ _ _ _ _ Ha). symmetry. by apply slice_whole. Qed.

(** [get_bytes_mut], and then a write to the slice *)
Lemma write_slice_spec a a' r new : in_bounds a r → rewritten a a' r true (slice_of a r) nothing →
  Z.of_nat (length new) = range_size r → Forall (λ b, is_byte b) new →
  rewritten a (write_slice a' r new) r true new nothing.
Proof.
  intros Hr Ha Hl Hb. pose proof (mark_bytes_same _ _ _ _ _ Hr Ha) as Hsame. pose proof Hr as (Hs & Hz & Hin).
  pose proof (rw_wf _ _ _ _ _ _ Ha) as Hwf.
  assert (bytes (write_slice a' r new) = take (Z.to_nat (range_start r)) (bytes a) ++ new
    ++ drop (Z.to_nat (range_start r + range_size r)) (bytes a)) as Hbytes.
  { unfold write_slice, Size.bytes. cbn [bytes with_bytes]. rewrite Hsame. do 3 f_equal. lia. }
  assert (alen (write_slice a' r new) = alen a') as Hal.
  { unfold alen in *. rewrite Hbytes, Hsame, !length_app, length_take, length_drop. lia. }
  split; [|done|apply Ha|apply Ha|apply Ha].
  split; [apply (wfa_prov a' Hwf)|apply (wfa_mask a' Hwf)|rewrite Hal; apply (wfa_len a' Hwf)|rewrite Hal; apply (wfa_room a' Hwf)
    |rewrite Hal; apply (wfa_small a' Hwf)|].
  rewrite Hbytes. pose proof (wfa_bytes a' Hwf) as Hold. rewrite Hsame in Hold.
  repeat apply Forall_app_2; [by apply Forall_take|done|by apply Forall_drop].
Qed.

Lemma get_bytes_mut_spec a r : wf_alloc a → in_bounds a r → mutability a = Mut →
  ∃ a' res, get_bytes_mut a cx r = Ret (a', res) ∧
    match res with
    | Ok b => rewritten a a' r true (slice_of a r) nothing ∧ b = slice_of a r ∧ ¬ splits a r
    | Err e => splits a r ∧ ∃ k, e = OverwritePartialPointer k ∧
        (straddles cx (prov_map a) k (range_start r) ∨ straddles cx (prov_map a) k (range_start r + range_size r))
    end.
Proof.
  intros Ha Hr Hmut. unfold get_bytes_mut.
  destruct (mark_and_clear_spec a r true Ha Hr Hmut) as (a' & res & -> & Hres). cbn [obind]. destruct res as [[]|e].
  - destruct Hres as [Hrw Hns]. pose proof (rw_wf _ _ _ _ _ _ Hrw) as Hwf.
    destruct (rewritten_bytes_eq a a' r true _ _ Hr (length_slice_of a r Hr) Hrw) as (Hal & Hsl & Hr').
    rewrite (get_bytes_ret a' r Hwf Hr'). cbn [obind]. eexists _, _. split; [done|]. by rewrite Hsl.
  - by eexists _, _.
Qed.

(** ** Scalars *)

(** A scalar for a range: an integer of the size of the range, or a pointer *)
Definition scalar_fits (val : Scalar Prov) (r : AllocRange) : Prop :=
  match val with
  | Int i => int_size i = range_size r ∧ range_size r ≤ 16 ∧ is_uint (8 * range_size r) (int_data i)
  | Ptr ptr sz => sz = range_size r ∧ range_size r = ps ∧ ps ≤ 8 ∧ is_uint (8 * range_size r) (offset ptr)
  end.

Definition scalar_bits (val : Scalar Prov) : Z := match val with Int i => int_data i | Ptr ptr _ => offset ptr end.

Definition scalar_prov (val : Scalar Prov) (x : Z) (p : Prov) : Prop :=
  match val with Int _ => False | Ptr ptr _ => p = provenance ptr end.

(** An allocation that holds a scalar in a range *)
Definition holds a' (r : AllocRange) (val : Scalar Prov) : Prop :=
  match val with
  | Int _ => True
  | Ptr ptr _ => ProvenanceMap.get_ptr (prov_map a') (range_start r) = Ret (Some (provenance ptr))
  end.

Lemma to_bits_ret val r : 0 < range_size r → scalar_fits val r →
  Scalar.to_bits_or_ptr_internal val (range_size r) = Ret (Ok (match val with Int i => inl (int_data i) | Ptr ptr _ => inr ptr end)).
Proof.
  intros Hz Hf. unfold Scalar.to_bits_or_ptr_internal, Size.bytes. rewrite (proj2 (Z.eqb_neq _ _)) by lia. cbn [negb rassert].
  destruct val as [i|ptr sz]; destruct Hf as [Hsz _].
  - unfold ScalarInt.to_bits, Size.bytes. rewrite (proj2 (Z.eqb_neq _ _)) by lia. cbn [negb rassert obind].
    by rewrite (proj2 (Z.eqb_eq _ _)) by done.
  - by rewrite (proj2 (Z.eqb_eq _ _)) by done.
Qed.

Lemma write_scalar_spec a r val : wf_alloc a → in_bounds a r → mutability a = Mut → scalar_fits val r →
  ∃ a' res, write_scalar a cx r val = Ret (a', res) ∧
    match res with
    | Ok _ => ∃ new, rewritten a a' r true new (scalar_prov val) ∧ Z.of_nat (length new) = range_size r ∧
        read_target_uint (endian cx) new = Ret (scalar_bits val) ∧ holds a' r val ∧ ¬ splits a r
    | Err e => splits a r ∧ ∃ k, e = OverwritePartialPointer k
    end.
Proof.
  intros Ha Hr Hmut Hf. pose proof Hr as (Hs & Hz & Hin). pose proof (wfa_small a Ha). unfold write_scalar.
  rewrite bool_decide_eq_true_2 by done. cbn [rassert]. rewrite to_bits_ret by done. cbn [obind].
  destruct (get_bytes_mut_spec a r Ha Hr Hmut) as (a1 & res & Hg & Hres).
  assert (is_uint (8 * range_size r) (scalar_bits val) ∧ range_size r ≤ 16) as [Hu H16].
  { destruct val; cbn in Hf |- *; destruct Hf as (? & ? & ?); [done|]. split; [by destruct H2|lia]. }
  destruct res as [b|e].
  2: { destruct Hres as [Hsp (k & -> & _)]. exists a1, (Err (OverwritePartialPointer k)).
       split; [|split; [done|by exists k]]. destruct val; rewrite Hg; done. }
  destruct Hres as (Hrw & -> & Hns). pose proof (length_slice_of a r Hr) as Hlen.
  destruct (uint_memory_roundtrip (endian cx) (slice_of a r) (scalar_bits val)) as (new & Hw & Hl & Hb & Hrd); [lia|by rewrite Hlen|].
  pose proof (write_slice_spec a a1 r new Hr Hrw ltac:(lia) Hb) as Hrw2.
  destruct val as [i|ptr sz]; cbn [scalar_bits] in *; unfold Size.bytes; rewrite Hg; cbn [obind]; rewrite Hw; cbn [obind].
  - eexists _, _. split; [done|]. exists new. split_and!; [exact Hrw2|lia|done|done|done].
  - destruct Hf as (Hsz & Hps & _). rewrite (proj2 (Z.eqb_eq _ _)) by done. cbn [rassert].
    pose proof (rw_wf _ _ _ _ _ _ Hrw2) as Hwf2.
    destruct (insert_ptr_prov cx ps_u64 (prov_map (write_slice a1 r new)) (range_start r) (provenance ptr) (wfa_prov _ Hwf2))
      as (p & -> & Hp & Hget & Hq); [lia..| |].
    { intros x q C. fold (prov_of (write_slice a1 r new) x q). rewrite (rw_prov _ _ _ _ _ _ Hrw2).
      unfold nothing, inside. unfold covers in C. rewrite Hps. tauto. }
    cbn [obind]. eexists _, _. split; [done|]. exists new. split_and!; [|lia|done|exact Hget|done].
    split; [|apply Hrw2|apply Hrw2| |apply Hrw2].
    + split; [exact Hp|apply (wfa_mask _ Hwf2)|apply (wfa_len _ Hwf2)|apply (wfa_room _ Hwf2)|apply (wfa_small _ Hwf2)|apply (wfa_bytes _ Hwf2)].
    + intros x q. unfold prov_of at 1. cbn [prov_map with_prov]. rewrite Hq. fold (prov_of (write_slice a1 r new) x q).
      rewrite (rw_prov _ _ _ _ _ _ Hrw2). unfold nothing, scalar_prov, inside, covers. rewrite Hps. tauto.
Qed.

(** ** Reading *)

Lemma read_uint_total e source : (length source ≤ 16)%nat → Forall (λ b, is_byte b) source →
  ∃ v, read_target_uint e source = Ret v ∧ is_uint (8 * Z.of_nat (length source)) v.
Proof.
  intros Hl Hb. assert (∀ bs, Forall (λ b, is_byte b) bs → is_uint (8 * Z.of_nat (length bs)) (MemDecoder.from_le_bytes bs)) as Hrange.
  { intros bs Hbs. apply from_le_bytes_range in Hbs. unfold is_uint. rewrite Z.pow_mul_r by lia. exact Hbs. }
  destruct e; cbn [read_target_uint].
  - rewrite slice_read_le by done. cbn [obind]. eexists. split; [done|].
    rewrite from_le_bytes_app, from_le_bytes_zeros, Z.mul_0_r, Z.add_0_r. by apply Hrange.
  - rewrite payload_start_small by done. unfold slice_read_at, slice_from. rewrite length_replicate.
    rewrite (proj2 (Z.leb_le _ _)) by lia. cbn [rassert obind].
    rewrite slice_write_same by (rewrite length_drop, length_replicate; lia).
    eexists. split; [done|]. rewrite rev_app_distr, from_le_bytes_app, take_replicate, rev_zeros, from_le_bytes_zeros, Z.mul_0_r, Z.add_0_r.
    rewrite <- length_rev. apply Hrange. by apply Forall_rev.
Qed.

Lemma from_uint_ret bits size : 0 < size ≤ 16 → is_uint (8 * size) bits →
  Scalar.from_uint (Prov := Prov) bits size = Ret (Int {| int_data := bits; int_size := size |}).
Proof.
  intros Hz Hu. assert (is_uint 128 bits) as Hu128.
  { destruct Hu as [? ?]. split; [done|]. eapply Z.lt_le_trans; [done|]. apply Z.pow_le_mono_r; lia. }
  unfold Scalar.from_uint, ScalarInt.try_from_uint. rewrite truncate_mod by (done || split; lia). cbn [obind].
  rewrite Z.mul_comm, Z.mod_small by exact Hu. rewrite Z.eqb_refl. unfold ScalarInt.nonzero_u8, Size.bytes.
  rewrite wrap_small by (unfold is_uint; lia). rewrite (proj2 (Z.eqb_neq _ _)) by lia. done.
Qed.

Lemma slice_bytes a r : wf_alloc a → Forall (λ b, is_byte b) (slice_of a r).
Proof. intros Ha. apply Forall_take, Forall_drop, (wfa_bytes a Ha). Qed.

(** The pointer that starts where a range starts *)
Definition exact_ptr a (r : AllocRange) (o : option Prov) : Prop :=
  ProvenanceMap.get_ptr (prov_map a) (range_start r) = Ret o.

(** What reading a scalar returns: [bits] are the bytes of the range as an integer. *)
Definition read_result a (r : AllocRange) (bits : Z) (read_provenance : bool) (res : result (Scalar Prov) AllocError) : Prop :=
  let int := Ok (Int {| int_data := bits; int_size := range_size r |}) in
  if read_provenance then
    ∀ o, exact_ptr a r o →
    match o with
    | Some p => res = Ok (Ptr (mkPointer p bits) ps)
    | None => no_prov a r ∧ res = int ∨ ¬ no_prov a r ∧ res = Err (ReadPartialPointer (range_start r))
    end
  else
    (OFFSET_IS_ADDR = true ∨ no_prov a r) ∧ res = int ∨
    OFFSET_IS_ADDR = false ∧ ¬ no_prov a r ∧ res = Err (ReadPointerAsInt None).

Lemma read_scalar_uninit a r rp : wf_alloc a → in_bounds a r → ¬ all_init a r →
  read_scalar a cx r rp = Ret (Err (InvalidUninitBytes None)).
Proof.
  intros Ha Hr Hn. unfold read_scalar. destruct (check_init a r Ha Hr) as ([r'|] & -> & Ho); [done|]. by destruct Hn.
Qed.

Lemma read_scalar_init a r rp : wf_alloc a → in_bounds a r → all_init a r → range_size r ≤ 16 →
  (rp = true → range_size r = ps ∧ ps ≤ 8 ∧ (OFFSET_IS_ADDR = false ∨ ∃ p, exact_ptr a r (Some p))) →
  ∃ bits res, read_target_uint (endian cx) (slice_of a r) = Ret bits ∧ is_uint (8 * range_size r) bits ∧
    read_scalar a cx r rp = Ret res ∧ read_result a r bits rp res.
Proof.
  intros Ha Hr Hall H16 Hrp. pose proof Hr as (Hs & Hz & Hin). unfold read_scalar.
  destruct (check_init a r Ha Hr) as ([r'|] & -> & Ho); [by destruct Ho|]. cbn [obind].
  rewrite (get_bytes_ret a r Ha Hr). cbn [obind]. pose proof (length_slice_of a r Hr) as Hlen.
  destruct (read_uint_total (endian cx) (slice_of a r)) as (bits & Hbits & Hu); [lia|by apply slice_bytes|].
  rewrite Hlen in Hu. rewrite Hbits. cbn [obind]. exists bits. unfold read_result.
  destruct (check_prov a r Ha Hr) as (b & Hb & Hbs). destruct rp.
  - destruct (Hrp eq_refl) as (Hps & H8 & Hf). rewrite (proj2 (Z.eqb_eq _ _)) by done. cbn [rassert].
    unfold exact_ptr. assert (∃ o, ProvenanceMap.get_ptr (prov_map a) (range_start r) = Ret o) as [o Hexact].
    { unfold ProvenanceMap.get_ptr. rewrite get_map by apply (wf_ptrs cx _ (wfa_prov a Ha)). by eexists. }
    rewrite Hexact. cbn [obind]. destruct o as [p|].
    + unfold size_from_u128. rewrite (proj2 (Z.ltb_lt _ _)).
      2: { destruct Hu as [_ Hu]. eapply Z.lt_le_trans; [exact Hu|]. apply Z.pow_le_mono_r; lia. }
      cbn [rassert obind]. unfold Scalar.from_pointer, Size.bytes. rewrite (proj2 (Z.ltb_lt _ _)) by lia. cbn [rassert obind].
      eexists. split_and!; [done..|]. by intros ? [= <-].
    + destruct Hf as [Hf|[p Hp]]; [|unfold exact_ptr in Hp; congruence]. rewrite Hf, Hb. cbn [obind]. destruct b.
      * rewrite from_uint_ret by (done || lia). cbn [obind]. eexists. split_and!; [done..|]. intros ? [= <-]. left. tauto.
      * eexists. split_and!; [done..|]. intros ? [= <-]. right. split; [|done]. intros H. by apply Hbs in H.
  - rewrite Hb. destruct OFFSET_IS_ADDR eqn:Hf; [|destruct b]; cbn [obind].
    + rewrite from_uint_ret by (done || lia). cbn [obind]. eexists. split_and!; [done..|]. left. tauto.
    + rewrite from_uint_ret by (done || lia). cbn [obind]. eexists. split_and!; [done..|]. left. tauto.
    + eexists. split_and!; [done..|]. right. split_and!; [done| |done]. intros H. by apply Hbs in H.
Qed.

(** After a write, the range is initialized and has the provenance that was written. *)
Lemma rewritten_all_init a a' r nb np : in_bounds a r → rewritten a a' r true nb np → all_init a' r.
Proof.
  intros (Hs & Hz & Hin) Hrw x Hx. rewrite (rw_init _ _ _ _ _ _ Hrw) by (unfold inside in Hx; lia). by rewrite decide_True.
Qed.

Lemma rewritten_no_prov a a' r b nb : rewritten a a' r b nb nothing → no_prov a' r.
Proof. intros Hrw x p Hx. rewrite (rw_prov _ _ _ _ _ _ Hrw). unfold nothing. tauto. Qed.

(** Bytes that a write leaves alone *)
Definition frame a a' (r : AllocRange) : Prop :=
  ∀ x, 0 ≤ x < alen a → ¬ inside r x →
    bytes a' !! Z.to_nat x = bytes a !! Z.to_nat x ∧ init_at a' x = init_at a x ∧ ∀ p, prov_of a' x p ↔ prov_of a x p.

Lemma rewritten_frame a a' r b nb np : in_bounds a r → Z.of_nat (length nb) = range_size r →
  rewritten a a' r b nb np → frame a a' r.
Proof.
  intros Hr Hl Hrw x Hx Hn. pose proof Hr as (Hs & Hz & Hin). split_and!.
  - rewrite (rw_bytes _ _ _ _ _ _ Hrw). unfold inside in Hn. unfold alen in *. destruct (decide (x < range_start r)).
    + rewrite lookup_app_l by (rewrite length_take; lia). by rewrite lookup_take_lt by lia.
    + rewrite lookup_app_r by (rewrite length_take; lia). rewrite length_take. rewrite lookup_app_r by lia.
      rewrite lookup_drop. f_equal. lia.
  - rewrite (rw_init _ _ _ _ _ _ Hrw) by done. by rewrite decide_False.
  - intros p. rewrite (rw_prov _ _ _ _ _ _ Hrw). tauto.
Qed.

Definition is_ptr (val : Scalar Prov) : bool := match val with Int _ => false | Ptr _ _ => true end.

(** The alignment is not touched. *)
Lemma mark_and_clear_align a r b a' res : mark_and_clear a cx r b = Ret (a', res) → align a' = align a.
Proof.
  unfold mark_and_clear, mark_init. intros Hm.
  destruct (Size.bytes (range_size r) =? 0); cbn [obind] in Hm; [|destruct (bool_decide _); cbn [rassert obind] in Hm; [|done];
    destruct (InitMask.set_range _ _ _) as [m|]; cbn [obind] in Hm; [|done]];
  destruct (ProvenanceMap.clear _ _ _) as [[?|?]|]; cbn [obind] in Hm; try done; by injection Hm as <- <-.
Qed.

Lemma write_scalar_align a r val a' res : write_scalar a cx r val = Ret (a', res) → align a' = align a.
Proof.
  unfold write_scalar, get_bytes_mut. destruct (bool_decide _); cbn [rassert]; [|done].
  destruct (Scalar.to_bits_or_ptr_internal _ _) as [[v|e]|]; cbn [obind]; [|by intros [= <- <-]|done].
  destruct (mark_and_clear a cx r true) as [[a1 c]|] eqn:Hm; cbn [obind]; [|by destruct v]. apply mark_and_clear_align in Hm. rewrite <- Hm.
  destruct c as [u|e]; cbn [obind]; [|by destruct v; intros [= <- <-]].
  destruct (get_bytes_unchecked a1 r) as [b|]; cbn [obind]; [|by destruct v].
  destruct v; cbn [obind]; (destruct (write_target_uint _ _ _); cbn [obind]; [|done]); [by intros [= <- <-]|].
  destruct (_ =? _); cbn [rassert]; [|done]. destruct (ProvenanceMap.insert_ptr _ _ _); cbn [obind]; [|done]. by intros [= <- <-].
Qed.

(** What is written is read back. *)
Lemma write_read a r val :
  wf_alloc a → in_bounds a r → mutability a = Mut → scalar_fits val r →
  ∃ a' res, write_scalar a cx r val = Ret (a', res) ∧
    match res with
    | Ok _ => wf_alloc a' ∧ read_scalar a' cx r (is_ptr val) = Ret (Ok val) ∧ frame a a' r ∧ ¬ splits a r ∧
        alen a' = alen a ∧ align a' = align a ∧ mutability a' = Mut
    | Err e => splits a r ∧ ∃ k, e = OverwritePartialPointer k
    end.
Proof.
  intros Ha Hr Hmut Hf. destruct (write_scalar_spec a r val Ha Hr Hmut Hf) as (a' & res & Hw & Hres).
  exists a', res. split; [done|]. destruct res as [u|e]; [|done]. destruct Hres as (new & Hrw & Hl & Hrd & Hh & Hns).
  destruct (rewritten_bytes_eq _ _ _ _ _ _ Hr Hl Hrw) as (Hal & Hsl & Hr').
  split_and!; [apply Hrw| |by apply (rewritten_frame a a' r _ _ _ Hr Hl Hrw)|done|done|by eapply write_scalar_align|
    by rewrite (rw_mut _ _ _ _ _ _ Hrw)].
  assert (range_size r ≤ 16) as H16 by (destruct val; cbn in Hf; lia).
  destruct (read_scalar_init a' r (is_ptr val) (rw_wf _ _ _ _ _ _ Hrw) Hr') as (bits & res & Hb & _ & -> & Hres);
    [by apply (rewritten_all_init a a' r _ _ Hr Hrw)|done|..].
  { destruct val as [i|ptr sz]; [done|]. intros _. destruct Hf as (? & ? & ? & _). split_and!; [done..|]. right. by eexists. }
  rewrite Hsl, Hrd in Hb. injection Hb as <-. f_equal. destruct val as [i|ptr sz]; cbn in Hf, Hh, Hres.
  - destruct Hf as (Hsz & _). rewrite <- Hsz in Hres. destruct i as [d' n]. cbn in *.
    destruct Hres as [[_ ->]|(_ & Hn & _)]; [done|]. destruct Hn. by apply (rewritten_no_prov a a' r true new).
  - destruct Hf as (-> & -> & _). specialize (Hres _ Hh). cbn in Hres. rewrite Hres. by destruct ptr.
Qed.

(** ** Properties *)

(** Scalars in interpreter memory.  Writing an integer of the size of the
    range, or a pointer, to a mutable allocation (any offset in bounds, either byte
    order) returns; reading the range back gives the same scalar, a pointer with
    its provenance; the bytes outside the range keep their value, their
    initialization state and their provenance; and the allocation keeps its
    invariant.  It fails exactly when the machine cannot split pointers and one
    overlaps an edge of the range. *)
Theorem scalar_write_read a r val :
  wf_alloc a → in_bounds a r → mutability a = Mut → scalar_fits val r →
  ∃ a' res, write_scalar a cx r val = Ret (a', res) ∧
    match res with
    | Ok _ => wf_alloc a' ∧ read_scalar a' cx r (is_ptr val) = Ret (Ok val) ∧ frame a a' r ∧ ¬ splits a r
    | Err e => splits a r ∧ ∃ k, e = OverwritePartialPointer k
    end.
Proof.
  intros Ha Hr Hmut Hf. destruct (write_read a r val Ha Hr Hmut Hf) as (a' & res & Hw & Hres).
  exists a', res. split; [done|]. destruct res; [|done]. by destruct Hres as (? & ? & ? & ? & _).
Qed.

(** Reading scalars from interpreter memory.  A range with a byte that is not
    initialized is an error, whatever else it holds.  Otherwise the integer of its
    bytes is read: with the provenance when a pointer starts there, without when
    there is none; elsewhere a pointer that overlaps the range is an error, of the
    kind that the caller asked for, unless the machine may strip provenance. *)
Theorem scalar_read_exact a r rp :
  wf_alloc a → in_bounds a r → range_size r ≤ 16 →
  (rp = true → range_size r = ps ∧ ps ≤ 8 ∧ OFFSET_IS_ADDR = false) →
  (¬ all_init a r → read_scalar a cx r rp = Ret (Err (InvalidUninitBytes None))) ∧
  (all_init a r → ∃ bits res, read_target_uint (endian cx) (slice_of a r) = Ret bits ∧
    is_uint (8 * range_size r) bits ∧ read_scalar a cx r rp = Ret res ∧ read_result a r bits rp res).
Proof.
  intros Ha Hr H16 Hrp. split; [by apply read_scalar_uninit|]. intros Hall.
  apply read_scalar_init; try done. intros E. destruct (Hrp E) as (? & ? & ?). auto.
Qed.

(** ** Fields *)

Section Fields.
Context `{UL : U384Laws}.

Lemma write_field_spec a r (val : ScalarField.t) : wf_alloc a → in_bounds a r → mutability a = Mut →
  endian cx = Little → range_size r ≤ 48 → is_uint (8 * range_size r) (u384_val (ScalarField.data val)) →
  ∃ a' res, write_field a cx r val = Ret (a', res) ∧
    match res with
    | Ok _ => ∃ new, rewritten a a' r true new nothing ∧ Z.of_nat (length new) = range_size r ∧
        read_target_field Little new = Ret (ScalarField.data val) ∧ ¬ splits a r
    | Err e => splits a r ∧ ∃ k, e = OverwritePartialPointer k
    end.
Proof.
  intros Ha Hr Hmut Hle H48 Hu. unfold write_field. rewrite bool_decide_eq_true_2 by done. cbn [rassert]. rewrite Hle.
  destruct (get_bytes_mut_spec a r Ha Hr Hmut) as (a1 & res & -> & Hres). cbn [obind]. destruct res as [b|e].
  2: { destruct Hres as [Hsp (k & -> & _)]. eexists _, _. split; [done|]. split; [done|by exists k]. }
  destruct Hres as (Hrw & -> & Hns). pose proof (length_slice_of a r Hr) as Hlen.
  assert (∃ new, write_target_field Little (slice_of a r) (ScalarField.data val) = Ret new ∧ length new = length (slice_of a r) ∧
    read_target_field Little new = Ret (ScalarField.data val) ∧ Forall (λ b, is_byte b) new) as (new & -> & Hl & Hrd & Hb).
  { destruct (field_memory_little (slice_of a r) (ScalarField.data val)) as (new & Hw & Hl & _ & Hrd); [lia|by rewrite Hlen|].
    exists new. split_and!; [done..|]. cbn [write_target_field] in Hw. rewrite u384_to_le_bytes_val, slice_write_le in Hw by lia.
    injection Hw as <-. apply to_le_bytes_bytes. }
  cbn [obind]. eexists _, _. split; [done|]. exists new. split_and!; [|lia|done|done].
  by apply (write_slice_spec a a1); [..|lia|].
Qed.

(** C25. Field elements in interpreter memory.  On a little-endian target, with the
    provenance of the compiler, writing a field constant that fits the range to a
    mutable allocation returns; reading the range back gives the same constant;
    bytes outside the range are not touched; and the write fails exactly when a
    pointer overlaps an edge of the range. *)
Theorem field_write_read a r (val : ScalarField.t) :
  wf_alloc a → in_bounds a r → mutability a = Mut → endian cx = Little → OFFSET_IS_ADDR = false →
  range_size r ≤ 48 → ScalarField.size_ val = range_size r → is_uint (8 * range_size r) (u384_val (ScalarField.data val)) →
  ∃ a' res, write_field a cx r val = Ret (a', res) ∧
    match res with
    | Ok _ => wf_alloc a' ∧ read_field a' cx r = Ret (Ok val) ∧ frame a a' r ∧ ¬ splits a r
    | Err e => splits a r ∧ ∃ k, e = OverwritePartialPointer k
    end.
Proof.
  intros Ha Hr Hmut Hle Hf H48 Hsz Hu. destruct (write_field_spec a r val Ha Hr Hmut Hle H48 Hu) as (a' & res & Hw & Hres).
  exists a', res. split; [done|]. destruct res as [u|e]; [|done]. destruct Hres as (new & Hrw & Hl & Hrd & Hns).
  pose proof (rw_wf _ _ _ _ _ _ Hrw) as Ha'.
  split_and!; [done| |by apply (rewritten_frame a a' r _ _ _ Hr Hl Hrw)|done].
  destruct (rewritten_bytes_eq _ _ _ _ _ _ Hr Hl Hrw) as (_ & Hsl & Hr'). unfold read_field.
  destruct (check_init a' r Ha' Hr') as ([r'|] & -> & Ho); [destruct Ho as [_ []]; by apply (rewritten_all_init a a' r _ _ Hr Hrw)|].
  cbn [obind]. rewrite (get_bytes_ret a' r Ha' Hr'), Hsl. cbn [obind]. rewrite Hle, Hrd, Hf. cbn [obind negb rassert].
  destruct (check_prov a' r Ha' Hr') as (b & -> & Hbs). rewrite (proj2 Hbs) by (by apply (rewritten_no_prov a a' r true new)).
  cbn [obind negb]. unfold ScalarField.from_u384, ScalarField.nonzero_u16, Size.bytes.
  destruct Hr as (_ & Hz & _). rewrite wrap_small by (unfold is_uint; lia). rewrite (proj2 (Z.eqb_neq _ _)) by lia.
  cbn [negb rassert obind]. rewrite <- Hsz. by destruct val.
Qed.

End Fields.

End Allocations.

(** ** Examples *)

(** 128 initialized bytes with a pointer to the allocation 7 at the offset 16 *)
Definition sample_alloc : Allocation.t AllocId unit :=
  {| bytes := replicate 128 0; prov_map := ProvenanceMap.from_presorted_ptrs [(16, 7)]; init := InitMask.new 128 true;
     align := 3; mutability := Mut; extra := tt |}.

Lemma sample_wf e : wf_alloc (sample_cx e) sample_alloc.
Proof.
  split; try done.
  - split; try done.
    + repeat constructor.
    + intros k p H%list_elem_of_singleton. injection H as -> ->. cbn. lia.
    + intros k p k' p' H%list_elem_of_singleton H'%list_elem_of_singleton. injection H as -> ->. injection H' as -> ->. lia.
  - by repeat constructor.
Qed.

Lemma scalar_write_read_witness :
  ∃ a' res, write_scalar sample_alloc (sample_cx Big) (alloc_range 16 8) (Ptr (mkPointer 9 300) 8) = Ret (a', res) ∧
    match res with
    | Ok _ => wf_alloc (sample_cx Big) a' ∧
        read_scalar a' (sample_cx Big) (alloc_range 16 8) (is_ptr (Ptr (mkPointer 9 300) 8)) = Ret (Ok (Ptr (mkPointer 9 300) 8)) ∧
        frame (sample_cx Big) sample_alloc a' (alloc_range 16 8) ∧ ¬ splits (sample_cx Big) sample_alloc (alloc_range 16 8)
    | Err e => splits (sample_cx Big) sample_alloc (alloc_range 16 8) ∧ ∃ k, e = OverwritePartialPointer k
    end.
Proof.
  apply (scalar_write_read (sample_cx Big) ltac:(done) sample_alloc (alloc_range 16 8) (Ptr (mkPointer 9 300) 8)).
  - apply sample_wf.
  - done.
  - done.
  - done.
Defined.

Lemma scalar_read_exact_witness :
  (¬ all_init sample_alloc (alloc_range 20 4) →
    read_scalar sample_alloc (sample_cx Little) (alloc_range 20 4) false = Ret (Err (InvalidUninitBytes None))) ∧
  (all_init sample_alloc (alloc_range 20 4) →
    ∃ bits res, read_target_uint (endian (sample_cx Little)) (slice_of sample_alloc (alloc_range 20 4)) = Ret bits ∧
    is_uint (8 * range_size (alloc_range 20 4)) bits ∧
    read_scalar sample_alloc (sample_cx Little) (alloc_range 20 4) false = Ret res ∧
    read_result (sample_cx Little) sample_alloc (alloc_range 20 4) bits false res).
Proof.
  apply (scalar_read_exact (sample_cx Little) ltac:(done) sample_alloc (alloc_range 20 4) false).
  - apply sample_wf.
  - done.
  - done.
  - done.
Defined.

Definition sample_field : @ScalarField.t z_u384 := ScalarField.mk (to_u384 77 : @U384 z_u384) 32.

Lemma field_write_read_witness :
  ∃ a' res, write_field sample_alloc (sample_cx Little) (alloc_range 40 32) sample_field = Ret (a', res) ∧
    match res with
    | Ok _ => wf_alloc (sample_cx Little) a' ∧ read_field a' (sample_cx Little) (alloc_range 40 32) = Ret (Ok sample_field) ∧
        frame (sample_cx Little) sample_alloc a' (alloc_range 40 32) ∧
        ¬ splits (sample_cx Little) sample_alloc (alloc_range 40 32)
    | Err e => splits (sample_cx Little) sample_alloc (alloc_range 40 32) ∧ ∃ k, e = OverwritePartialPointer k
    end.
Proof.
  apply (field_write_read (sample_cx Little) ltac:(done) (UL := z_u384_laws) sample_alloc (alloc_range 40 32) sample_field).
  - apply sample_wf.
  - done.
  - done.
  - done.
  - done.
  - done.
  - done.
  - by split.
Defined.
