(* ===== verification/Memory.v ===== *)
(** * Copies in interpreter memory

    [InterpCx::mem_copy_repeatedly] of
    [compiler/rustc_const_eval/src/interpret/memory.rs]: bytes, initialization
    states and provenance of one range are copied to a number of ranges that follow
    each other, possibly of the same allocation.

    The memory is the machine's map of allocations, and the two places are
    arguments: [get_ptr_access] resolves pointers and checks bounds and alignment
    before anything is copied, and gives nothing for a place without a size.  The
    hooks [before_memory_read] and [before_memory_write] are the default ones,
    which do nothing. *)

From stdpp Require Import gmap.
From S2P Require Import Prelude.
From S2P Require Import Abi.
From S2P Require Import Slice.
From S2P Require Import BitSets.
From S2P Require Import SortedMap.
From S2P Require Import InitMask.
From S2P Require Import Provenance.
From S2P Require Import Allocation.

Section Memory.
Context {Prov : Type} `{Provenance Prov} {Extra : Type}.

Abbreviation allocation := (Allocation.t Prov Extra).

Abbreviation memory := (gmap Z (Allocation.t Prov Extra)).

(** [InterpError], as far as the copy raises it *)
Inductive InterpError : Type :=
| DanglingId (alloc_id : AllocId)
| FromAlloc (e : AllocError) (alloc_id : AllocId)
| CopyNonoverlappingOverlapping.

(** One [ptr::copy] between two places of memory, which may overlap *)
Definition ptr_copy (m : memory) (src : Z) (src_offset : Size) (dest : Z) (dest_offset size : Size) : outcome memory :=
  let! src_alloc := unwrap (m !! src) in
  let! dest_alloc := unwrap (m !! dest) in
  let! data := Allocation.get_bytes_unchecked src_alloc (alloc_range src_offset size) in
  let! _ := Allocation.get_bytes_unchecked dest_alloc (alloc_range dest_offset size) in
  Ret (<[dest := Allocation.write_slice dest_alloc (alloc_range dest_offset size) data]> m).

(** [for i in 0..num_copies] *)
Definition copy_bytes (m : memory) (src dest : Z * Z) (size : Size) (num_copies : Z) : outcome memory :=
  fold_outcome (λ m i,
    let! o := Size.mul size i in
    let! at_ := Size.add dest.2 o in
    ptr_copy m src.1 src.2 dest.1 at_ size) (seqZ 0 num_copies) m.

Definition overlap_check (src_offset dest_offset size : Size) : outcome bool :=
  let! src_end := Size.add src_offset size in
  let! dest_end := Size.add dest_offset size in
  Ret ((src_offset <=? dest_offset) && (dest_offset <? src_end) || (dest_offset <=? src_offset) && (src_offset <? dest_end)).

(** The last part: the bytes, the mask and the provenance are written. *)
Definition finish_copy (m : memory) (src dest : Z * Z) (size : Size) (num_copies : Z) (init : InitCopy)
    (provenance : ProvenanceCopy Prov) : outcome memory :=
  let! m := copy_bytes m src dest size num_copies in
  let! dest_alloc := unwrap (m !! dest.1) in
  let! dest_alloc := Allocation.init_mask_apply_copy dest_alloc init (alloc_range dest.2 size) num_copies in
  let! dest_alloc := Allocation.provenance_apply_copy dest_alloc provenance in
  Ret (<[dest.1 := dest_alloc]> m).

(** From the prepared copies on, with the destination's allocation *)
Definition copy_prepared (m : memory) (cx : TargetDataLayout) (src dest : Z * Z) (size : Size) (num_copies : Z)
    (nonoverlapping : bool) (init : InitCopy) (provenance : ProvenanceCopy Prov) (dest_alloc : allocation)
    : outcome (memory * result unit InterpError) :=
  let! dest_size := Size.mul size num_copies in
  let dest_range := alloc_range dest.2 dest_size in
  let! (dest_alloc, r) := Allocation.get_bytes_mut_ptr dest_alloc cx dest_range in
  let m := <[dest.1 := dest_alloc]> m in
  match r with
  | Err e => Ret (m, Err (FromAlloc e dest.1))
  | Ok _ =>
      if no_bytes_init init then
        let! (dest_alloc, r) := Allocation.write_uninit dest_alloc cx dest_range in
        let m := <[dest.1 := dest_alloc]> m in
        match r with
        | Err e => Ret (m, Err (FromAlloc e dest.1))
        | Ok _ => Ret (m, Ok tt)
        end
      else
        let! overlap := if bool_decide (src.1 = dest.1) && nonoverlapping then overlap_check src.2 dest.2 size else Ret false in
        if (overlap : bool) then Ret (m, Err CopyNonoverlappingOverlapping)
        else let! m := finish_copy m src dest size num_copies init provenance in Ret (m, Ok tt)
  end.

Definition mem_copy_repeatedly (m : memory) (cx : TargetDataLayout) (src_parts dest_parts : option (Z * Z))
    (size : Size) (num_copies : Z) (nonoverlapping : bool) : outcome (memory * result unit InterpError) :=
  match src_parts with
  | None => Ret (m, Ok tt)
  | Some src =>
      match m !! src.1 with
      | None => Ret (m, Err (DanglingId src.1))
      | Some src_alloc =>
          let src_range := alloc_range src.2 size in
          match dest_parts with
          | None => Ret (m, Ok tt)
          | Some dest =>
              let! _ := Allocation.get_bytes_unchecked src_alloc src_range in
              let! p := ProvenanceMap.prepare_copy (Allocation.prov_map src_alloc) src_range dest.2 num_copies cx in
              match p with
              | Err e => Ret (m, Err (FromAlloc e dest.1))
              | Ok provenance =>
                  let! init := prepare_copy (Allocation.init src_alloc) src_range in
                  match m !! dest.1 with
                  | None => Ret (m, Err (DanglingId dest.1))
                  | Some dest_alloc =>
                      copy_prepared m cx src dest size num_copies nonoverlapping init provenance dest_alloc
                  end
              end
          end
      end
  end.

(** [mem_copy] *)
Definition mem_copy (m : memory) (cx : TargetDataLayout) (src_parts dest_parts : option (Z * Z))
    (size : Size) (nonoverlapping : bool) : outcome (memory * result unit InterpError) :=
  mem_copy_repeatedly m cx src_parts dest_parts size 1 nonoverlapping.

End Memory.
