(* ===== verification/MemoryProps.v ===== *)
(** * Correctness of copies in interpreter memory

    Copying a range, to another allocation or within one, gives every byte of every
    copy the value, the initialization state and the provenance of its byte in the
    source as it was before, and changes nothing else. *)

From stdpp Require Import gmap.
From S2P Require Import Prelude.
From S2P Require Import Abi.
From S2P Require Import FieldsProps.
From S2P Require Import Slice.
From S2P Require Import BitSets.
From S2P Require Import BitSetProps.
From S2P Require Import SortedMap.
From S2P Require Import SortedMapProps.
From S2P Require Import InitMask.
From S2P Require Import InitMaskProps.
From S2P Require Import Provenance.
From S2P Require Import ProvenanceProps.
From S2P Require Import Allocation.
From S2P Require Import AllocationProps.
From S2P Require Import Memory.

Import Allocation.

Section Memory.
Context {Prov Extra : Type} {PV : Provenance Prov} (cx : TargetDataLayout).
Abbreviation ps := (pointer_size cx).
Hypothesis ps_ok : 0 < ps ≤ 16.

(** The copy of [size] bytes at [s] of the allocation [sid] to [n] places from [d]
    on of the allocation [did] *)
Context (sid did : Z) (s d size n : Z) (sa da : Allocation.t Prov Extra) (m : gmap Z (Allocation.t Prov Extra)).
Hypothesis (Hsa : m !! sid = Some sa) (Hda : m !! did = Some da) (Hwfs : wf_alloc cx sa) (Hwfd : wf_alloc cx da).
Hypothesis (Hn : 0 < n) (Hsrc : in_bounds sa (alloc_range s size)) (Hdest : in_bounds da (alloc_range d (size * n))).

Abbreviation dest_range := (alloc_range d (size * n)).

(** The source of the byte [x] of the destination *)
Definition from (x : Z) : Z := s + (x - d) mod size.

(** The source is not overwritten while it is still needed. *)
Definition apart : Prop := sid ≠ did ∨ n = 1 ∨ s + size ≤ d ∨ d + size * n ≤ s.

Lemma bounds : 0 ≤ s ∧ 0 < size ∧ s + size ≤ alen sa ∧ 0 ≤ d ∧ d + size * n ≤ alen da ∧ 0 < size * n.
Proof. destruct Hsrc as (? & ? & ?), Hdest as (? & ? & ?). cbn in *. lia. Qed.

Lemma from_range x : s ≤ from x < s + size.
Proof. destruct bounds as (_ & Hz & _). unfold from. pose proof (Z.mod_pos_bound (x - d) size Hz). lia. Qed.

(** ** The bytes *)

(** The bytes of the destination after [k] copies *)
Definition bytes_after (k : Z) (B : list Z) : Prop :=
  length B = length (bytes da) ∧
  ∀ x, 0 ≤ x < alen da → B !! Z.to_nat x =
    if decide (d ≤ x < d + size * k) then bytes sa !! Z.to_nat (from x) else bytes da !! Z.to_nat x.

Lemma splice_lookup (l new : list Z) a x : 0 ≤ a → a + Z.of_nat (length new) ≤ Z.of_nat (length l) → 0 ≤ x →
  (take (Z.to_nat a) l ++ new ++ drop (Z.to_nat a + length new) l) !! Z.to_nat x =
  if decide (a ≤ x < a + Z.of_nat (length new)) then new !! Z.to_nat (x - a) else l !! Z.to_nat x.
Proof.
  intros Ha Hl Hx. assert (length (take (Z.to_nat a) l) = Z.to_nat a) as Ht by (rewrite length_take; lia).
  destruct (decide (x < a)).
  - rewrite lookup_app_l, lookup_take_lt by lia. by rewrite decide_False by lia.
  - rewrite lookup_app_r by lia. rewrite Ht. case_decide.
    + rewrite lookup_app_l by lia. f_equal. lia.
    + rewrite lookup_app_r by lia. rewrite lookup_drop. f_equal. lia.
Qed.

(** The bytes that the copy [k] reads are those that were there at first. *)
Lemma source_bytes a1 B k : bytes_after k B → 0 ≤ k < n → apart →
  ∃ src, (<[did := with_bytes a1 B]> m) !! sid = Some src ∧ in_bounds src (alloc_range s size) ∧ alen src < 2 ^ 62 ∧
    ∀ i, 0 ≤ i < size → slice_of src (alloc_range s size) !! Z.to_nat i = bytes sa !! Z.to_nat (s + i).
Proof.
  intros [HBl HB] Hk Hap. destruct bounds as (? & ? & ? & ? & ? & ?). destruct (decide (sid = did)) as [E|E].
  - assert (sa = da) as Esd by congruence. rewrite E, lookup_insert_eq. eexists. split; [done|].
    assert (alen (with_bytes a1 B) = alen da) as Hal by (unfold alen; cbn [bytes with_bytes]; by rewrite HBl).
    assert (in_bounds (with_bytes a1 B) (alloc_range s size)) as Hib by (unfold in_bounds; cbn; rewrite Hal, <- Esd; lia).
    split_and!; [done|rewrite Hal; apply (wfa_small cx da Hwfd)|].
    intros i Hi. rewrite slice_of_lookup by done. cbn [bytes with_bytes range_start alloc_range].
    rewrite HB by (rewrite <- Esd; lia). case_decide as Hc; [|by rewrite Esd].
    destruct Hap as [?|[->|Hap]]; [done|exfalso; nia|exfalso; nia].
  - rewrite lookup_insert_ne by done. exists sa. split_and!; [done|done|apply (wfa_small cx sa Hwfs)|].
    intros i Hi. by rewrite slice_of_lookup.
Qed.

Lemma copy_step a1 B k : bytes_after k B → 0 ≤ k < n → apart →
  ∃ B', ptr_copy (<[did := with_bytes a1 B]> m) sid s did (d + size * k) size = Ret (<[did := with_bytes a1 B']> m) ∧
    bytes_after (k + 1) B'.
Proof.
  intros HB Hk Hap. destruct bounds as (? & ? & ? & ? & Hdl & ?). pose proof (wfa_small cx da Hwfd) as Hsm.
  destruct (source_bytes a1 B k HB Hk Hap) as (src & Hsrc' & Hib & Hsl & Hby). destruct HB as [HBl HB].
  unfold ptr_copy. cbn [fst snd]. rewrite Hsrc', lookup_insert_eq. cbn [unwrap obind].
  rewrite (get_bytes_len src _ Hsl Hib). cbn [obind].
  assert (alen (with_bytes a1 B) = alen da) as Hal by (unfold alen; cbn [bytes with_bytes]; by rewrite HBl).
  rewrite get_bytes_len; [|lia|unfold in_bounds; cbn; rewrite Hal; nia]. cbn [obind].
  pose proof (length_slice_of src _ Hib) as Hlen. cbn in Hlen. rewrite insert_insert_eq. eexists. split.
  { unfold write_slice. cbn [bytes with_bytes range_start alloc_range]. unfold with_bytes. cbn. reflexivity. }
  unfold Size.bytes. split.
  - rewrite !length_app, length_take, length_drop. unfold alen in *. nia.
  - intros x Hx. unfold alen in *. rewrite splice_lookup by nia. rewrite Hlen.
    destruct (decide (d + size * k ≤ x < d + size * k + size)) as [Hc|Hc].
    + rewrite Hby by lia. rewrite decide_True by nia. f_equal. f_equal. unfold from. f_equal. apply Z.mod_unique with k; lia.
    + rewrite HB by lia. destruct (decide (d ≤ x < d + size * k)), (decide (d ≤ x < d + size * (k + 1))); done || nia.
Qed.

Lemma copy_bytes_mem a1 : apart → bytes a1 = bytes da →
  ∃ B, copy_bytes (<[did := a1]> m) (sid, s) (did, d) size n = Ret (<[did := with_bytes a1 B]> m) ∧ bytes_after n B.
Proof.
  intros Hap H1. destruct bounds as (? & ? & ? & ? & Hdl & ?). pose proof (wfa_small cx da Hwfd) as Hsm. unfold copy_bytes.
  assert (∀ k, Z.of_nat k ≤ n → ∃ B, fold_outcome (λ m i,
      let! o := Size.mul size i in
      let! at_ := Size.add (did, d).2 o in
      ptr_copy m (sid, s).1 (sid, s).2 (did, d).1 at_ size) (seqZ 0 (Z.of_nat k)) (<[did := a1]> m) = Ret (<[did := with_bytes a1 B]> m) ∧
    bytes_after (Z.of_nat k) B) as H'.
  2: { destruct (H' (Z.to_nat n)) as (B & HB); [lia|]. rewrite Z2Nat.id in HB by lia. by exists B. }
  induction k as [|k IH]; intros Hk.
  { exists (bytes da). split; [cbn [seqZ fold_outcome]; rewrite <- H1; by destruct a1|]. split; [done|].
    intros x Hx. by rewrite decide_False by lia. }
  destruct IH as (B & HB & HBa); [lia|]. rewrite Nat2Z.inj_succ, <- Z.add_1_r, seqZ_app by lia.
  rewrite fold_outcome_app, HB. cbn [obind]. change (seqZ (0 + Z.of_nat k) 1) with [0 + Z.of_nat k].
  rewrite Z.add_0_l. cbn [fold_outcome fst snd].
  rewrite size_mul_prod by nia. cbn [obind]. rewrite size_add_sum by nia. cbn [obind].
  destruct (copy_step a1 B (Z.of_nat k) HBa) as (B' & -> & HB'); [lia|done|]. cbn [obind]. by exists B'.
Qed.

(** ** The destination *)

(** The destination afterwards: every byte of the range has the state of its
    source, and its value and provenance where that is initialized. *)
Record copied_to (da' : Allocation.t Prov Extra) : Prop := {
  ct_wf : wf_alloc cx da';
  ct_init x : inside dest_range x → init_at da' x = init_at sa (from x);
  ct_bytes x : inside dest_range x → init_at sa (from x) = true → bytes da' !! Z.to_nat x = bytes sa !! Z.to_nat (from x);
  ct_prov x p : inside dest_range x → init_at sa (from x) = true → prov_of cx da' x p ↔ prov_of cx sa (from x) p;
  ct_frame : frame cx da da' dest_range;
  ct_len : alen da' = alen da;
}.

(** A range without provenance splits no pointer. *)
Lemma no_prov_no_split (a : Allocation.t Prov Extra) r : in_bounds a r → no_prov cx a r → ¬ splits cx a r.
Proof.
  intros (? & ? & _) Hno [_ (k & [[[p Hk] B]|[[p Hk] B]])].
  - apply (Hno (range_start r) p); [unfold inside; lia|]. left. exists k. split; [done|]. unfold covers. lia.
  - apply (Hno (range_start r + range_size r - 1) p); [unfold inside; lia|]. left. exists k. split; [done|]. unfold covers. lia.
Qed.

(** Nothing is copied when no byte of the source is initialized. *)
Lemma uninit_copied a1 a2 : rewritten cx da a1 dest_range true (slice_of da dest_range) nothing →
  rewritten cx a1 a2 dest_range false (slice_of a1 dest_range) nothing →
  (∀ y, s ≤ y < s + size → init_at sa y = false) → copied_to a2.
Proof.
  intros H1 H2 Hun. pose proof (length_slice_of da _ Hdest) as Hl.
  destruct (rewritten_bytes_eq cx _ _ _ _ _ _ Hdest Hl H1) as (Hal & Hsl & Hd1).
  assert (∀ x, init_at sa (from x) = false) as Hf by (intros x; apply Hun, from_range). destruct bounds as (_ & _ & _ & ? & ? & _).
  destruct (rewritten_bytes_eq cx _ _ _ _ _ _ Hd1 (length_slice_of a1 _ Hd1) H2) as (Hal2 & _ & _).
  split; [apply H2| |intros x _; by rewrite Hf|intros x p _; by rewrite Hf| |lia].
  - intros x Hx. rewrite (rw_init _ _ _ _ _ _ _ H2) by (rewrite Hal; unfold inside in Hx; cbn in Hx; lia).
    rewrite decide_True by done. by rewrite Hf.
  - intros x Hx Hni. destruct (rewritten_frame cx ps_ok _ _ _ _ _ _ Hdest Hl H1 x Hx Hni) as (E1 & E2 & E3).
    destruct (rewritten_frame cx ps_ok _ _ _ _ _ _ Hd1 (length_slice_of a1 _ Hd1) H2 x ltac:(lia) Hni) as (F1 & F2 & F3).
    rewrite F1, F2, E1, E2. split_and!; [done..|]. intros p. by rewrite F3, E3.
Qed.

(** The bytes, the mask and the provenance *)
Lemma finish_copied a1 l c : rewritten cx da a1 dest_range true (slice_of da dest_range) nothing → apart →
  chunks_from (mask_bit (init sa)) (mask_bit (init sa) s) s (s + size) l → carries cx s size d n c (prov_map sa) →
  ∃ a2, finish_copy (<[did := a1]> m) (sid, s) (did, d) size n
      {| initial := mask_bit (init sa) s; ranges := chunk_lengths l |} c = Ret (<[did := a2]> m) ∧ copied_to a2.
Proof.
  intros H1 Hap Hch Hc. destruct bounds as (? & ? & ? & ? & ? & ?). pose proof (wfa_small cx da Hwfd). pose proof (wfa_small cx sa Hwfs).
  pose proof (mark_bytes_same cx _ _ _ _ _ Hdest H1) as Hb1. pose proof (rw_wf _ _ _ _ _ _ _ H1) as Hwf1.
  assert (alen a1 = alen da) as Hal by (unfold alen; by rewrite Hb1).
  unfold finish_copy. destruct (copy_bytes_mem a1 Hap Hb1) as (B & -> & HBl & HB). cbn [obind fst snd].
  rewrite lookup_insert_eq. cbn [unwrap obind]. unfold init_mask_apply_copy. cbn [init with_bytes].
  pose proof (wfa_room cx a1 Hwf1). pose proof (wfa_len cx a1 Hwf1) as Hlen1.
  destruct (apply_copy_spec (init sa) (init a1) (alloc_range d size) s l n (wfa_mask cx a1 Hwf1)) as (m' & -> & Hm' & Hml & Hmc & Hmb);
    cbn [range_start range_size alloc_range]; try done || lia. cbn [obind].
  unfold provenance_apply_copy. cbn [prov_map with_init with_bytes].
  destruct (apply_copy_prov cx (ps_u64 cx ps_ok) s size d n ltac:(lia) ltac:(lia) ltac:(lia) ltac:(lia) ltac:(lia) ltac:(lia) c
    (prov_map sa) (prov_map a1) (wfa_prov cx sa Hwfs) (wfa_prov cx a1 Hwf1) Hc) as (p & -> & Hp & Hpq).
  { intros x q Hx. apply (rewritten_no_prov cx ps_ok _ _ _ _ _ H1 x q). done. }
  cbn [obind]. rewrite insert_insert_eq. eexists. split; [done|].
  assert (∀ x, 0 ≤ x < alen da → mask_bit m' x = copied (init sa) (init a1) s d size n x) as Hbits
    by (intros x Hx; apply Hmb; cbn; lia).
  split.
  - split; cbn [prov_map init bytes with_prov with_init with_bytes]; try done.
    + rewrite Hml, Hlen1. unfold alen in *. cbn. lia.
    + unfold alen in *. cbn. lia.
    + unfold alen in *. cbn. lia.
    + apply Forall_lookup. intros i b Hi. pose proof (lookup_lt_Some _ _ _ Hi) as Hlt.
      specialize (HB (Z.of_nat i) ltac:(unfold alen; lia)). rewrite Nat2Z.id, Hi in HB.
      case_decide; symmetry in HB; [apply (Forall_lookup_1 _ _ _ _ (wfa_bytes cx sa Hwfs) HB)|apply (Forall_lookup_1 _ _ _ _ (wfa_bytes cx da Hwfd) HB)].
  - intros x [Hx1 Hx2]. cbn in Hx1, Hx2. unfold init_at at 1. cbn [init with_prov with_init with_bytes]. rewrite Hbits by lia.
    unfold copied. rewrite (proj2 (Z.leb_le _ _)), (proj2 (Z.ltb_lt _ _)) by lia. done.
  - intros x [Hx1 Hx2] _. cbn in Hx1, Hx2. cbn [bytes with_prov with_init with_bytes]. rewrite HB by lia. by rewrite decide_True.
  - intros x q [Hx1 Hx2] _. cbn in Hx1, Hx2. unfold prov_of at 1. cbn [prov_map with_prov with_init with_bytes]. rewrite Hpq.
    unfold prov_of, from. tauto.
  - intros x Hx Hni. assert (¬ (d ≤ x < d + size * n)) as Hni' by (unfold inside in Hni; cbn in Hni; done).
    destruct (rewritten_frame cx ps_ok _ _ _ _ _ _ Hdest (length_slice_of da _ Hdest) H1 x Hx Hni) as (E1 & E2 & E3).
    split_and!; cbn [bytes with_prov with_init with_bytes].
    + rewrite HB by done. by rewrite decide_False.
    + unfold init_at at 1. cbn [init with_prov with_init with_bytes]. rewrite Hbits by done. unfold copied.
      destruct (Z.leb_spec d x), (Z.ltb_spec x (d + size * n)); cbn [andb]; try exact E2. lia.
    + intros q. unfold prov_of at 1. cbn [prov_map with_prov with_init with_bytes]. rewrite Hpq. rewrite <- E3. unfold prov_of. tauto.
  - unfold alen. cbn. lia.
Qed.

Lemma no_bytes_init_spec l : chunks_from (mask_bit (init sa)) (mask_bit (init sa) s) s (s + size) l →
  no_bytes_init {| initial := mask_bit (init sa) s; ranges := chunk_lengths l |} = true →
  ∀ y, s ≤ y < s + size → init_at sa y = false.
Proof.
  intros Hch [Hi%negb_true_iff Hl%Nat.eqb_eq]%andb_true_iff y Hy. cbn [initial ranges] in *. unfold chunk_lengths in Hl.
  rewrite length_fmap in Hl. destruct l as [|c [|]]; try done. unfold init_at. rewrite (chunks_single _ _ _ _ _ Hch y Hy). done.
Qed.

Lemma get_bytes_mut_ptr_spec (a : Allocation.t Prov Extra) r : wf_alloc cx a → in_bounds a r → mutability a = Mut →
  ∃ a' res, get_bytes_mut_ptr a cx r = Ret (a', res) ∧
    match res with
    | Ok _ => rewritten cx a a' r true (slice_of a r) nothing
    | Err e => splits cx a r ∧ ∃ k, e = OverwritePartialPointer k
    end.
Proof.
  intros Ha Hr Hmut. unfold get_bytes_mut_ptr.
  destruct (mark_and_clear_spec cx ps_ok a r true Ha Hr Hmut) as (a' & res & -> & Hres). cbn [obind]. destruct res as [[]|e].
  - destruct Hres as [Hrw _]. destruct (rewritten_bytes_eq cx _ _ _ _ _ _ Hr (length_slice_of a r Hr) Hrw) as (Hal & _ & (? & ? & ?)).
    pose proof (wfa_small cx a Ha). rewrite range_end_ret by lia. cbn [obind]. unfold Size.bytes. rewrite (proj2 (Z.leb_le _ _)) by done.
    by eexists _, _.
  - destruct Hres as [Hsp (k & -> & _)]. eexists _, _. split; [done|]. split; [done|by exists k].
Qed.

Lemma overlap_check_spec : overlap_check s d size = Ret (bool_decide (s < d + size ∧ d < s + size)).
Proof.
  destruct bounds as (? & ? & ? & ? & ? & ?). pose proof (wfa_small cx da Hwfd). pose proof (wfa_small cx sa Hwfs).
  unfold overlap_check. rewrite size_add_sum by lia. cbn [obind]. rewrite size_add_sum by nia. cbn [obind]. f_equal.
  apply eq_bool_prop_intro. rewrite bool_decide_spec. rewrite !orb_True, !andb_True, !Is_true_true, !Z.leb_le, !Z.ltb_lt. lia.
Qed.

Lemma copy_prepared_spec nonoverlapping l c : mutability da = Mut → apart →
  chunks_from (mask_bit (init sa)) (mask_bit (init sa) s) s (s + size) l → carries cx s size d n c (prov_map sa) →
  ∃ m' res, copy_prepared m cx (sid, s) (did, d) size n nonoverlapping
      {| initial := mask_bit (init sa) s; ranges := chunk_lengths l |} c da = Ret (m', res) ∧
    match res with
    | Ok _ => ∃ da', m' = <[did := da']> m ∧ copied_to da'
    | Err e => (∃ k, e = FromAlloc (OverwritePartialPointer k) did) ∧ splits cx da dest_range ∨
        e = CopyNonoverlappingOverlapping ∧ nonoverlapping = true ∧ sid = did ∧ s < d + size ∧ d < s + size
    end.
Proof.
  intros Hmut Hap Hch Hc. destruct bounds as (? & ? & ? & ? & ? & ?). pose proof (wfa_small cx da Hwfd).
  unfold copy_prepared. rewrite size_mul_prod by lia. cbn [obind fst snd].
  destruct (get_bytes_mut_ptr_spec da dest_range Hwfd Hdest Hmut) as (a1 & res & -> & Hres). cbn [obind].
  destruct res as [u|e].
  2: { destruct Hres as [Hsp (k & ->)]. eexists _, _. split; [done|]. left. split; [by exists k|done]. }
  destruct (no_bytes_init _) eqn:Hno.
  - pose proof (rw_wf _ _ _ _ _ _ _ Hres) as Hwf1.
    destruct (rewritten_bytes_eq cx _ _ _ _ _ _ Hdest (length_slice_of da _ Hdest) Hres) as (_ & _ & Hd1).
    unfold write_uninit. destruct (mark_and_clear_spec cx ps_ok a1 dest_range false Hwf1 Hd1) as (a2 & res & -> & Hres2).
    { by rewrite (rw_mut _ _ _ _ _ _ _ Hres). }
    cbn [obind]. destruct res as [[]|e].
    + rewrite insert_insert_eq. eexists _, _. split; [done|]. exists a2. split; [done|]. destruct Hres2 as [Hrw2 _].
      by apply (uninit_copied a1 a2 Hres Hrw2), (no_bytes_init_spec l).
    + destruct Hres2 as [Hsp _]. exfalso. eapply no_prov_no_split; [exact Hd1| |exact Hsp].
      by apply (rewritten_no_prov cx ps_ok _ _ _ _ _ Hres).
  - destruct (bool_decide (sid = did) && nonoverlapping) eqn:Hcheck.
    + apply andb_true_iff in Hcheck as [Hid%bool_decide_eq_true ->]. rewrite overlap_check_spec. cbn [obind].
      destruct (bool_decide (s < d + size ∧ d < s + size)) eqn:Hov.
      * apply bool_decide_eq_true in Hov. eexists _, _. split; [done|]. right. tauto.
      * destruct (finish_copied a1 l c Hres Hap Hch Hc) as (a2 & -> & Hcp). cbn [obind]. eexists _, _. split; [done|]. by exists a2.
    + cbn [obind]. destruct (finish_copied a1 l c Hres Hap Hch Hc) as (a2 & -> & Hcp). cbn [obind].
      eexists _, _. split; [done|]. by exists a2.
Qed.

(** ** Properties *)

(** C24. Copies in interpreter memory.  Copying a nonempty range of one allocation
    [n] times to a range of another or of the same allocation (where the copies do
    not overwrite the source while it is needed: a single copy may overlap it)
    returns.  When it succeeds only the destination's allocation changes, it keeps
    its invariant, and every byte of every copy has the initialization state of its
    byte in the source and, where that is initialized, its value and provenance,
    while all bytes outside the destination keep value, state and provenance.  It
    fails only when a pointer overlaps an edge of the source or of the destination
    and the machine cannot split pointers, or when the ranges overlap and were
    promised not to. *)
Theorem mem_copy_exact nonoverlapping : mutability da = Mut → apart →
  ∃ m' res, mem_copy_repeatedly m cx (Some (sid, s)) (Some (did, d)) size n nonoverlapping = Ret (m', res) ∧
    match res with
    | Ok _ => ∃ da', m' = <[did := da']> m ∧ copied_to da'
    | Err e => (∃ k, e = FromAlloc (ReadPartialPointer k) did) ∧ splits cx sa (alloc_range s size) ∨
        (∃ k, e = FromAlloc (OverwritePartialPointer k) did) ∧ splits cx da dest_range ∨
        e = CopyNonoverlappingOverlapping ∧ nonoverlapping = true ∧ sid = did ∧ s < d + size ∧ d < s + size
    end.
Proof.
  intros Hmut Hap. destruct bounds as (? & ? & ? & ? & ? & ?). pose proof (wfa_small cx da Hwfd). pose proof (wfa_small cx sa Hwfs).
  unfold mem_copy_repeatedly. cbn [fst snd]. rewrite Hsa. rewrite (get_bytes_ret cx sa _ Hwfs Hsrc). cbn [obind].
  destruct (prepare_copy_prov cx (ps_u64 cx ps_ok) s size d n ltac:(lia) ltac:(lia) ltac:(lia) ltac:(lia) ltac:(lia) ltac:(lia)
    (prov_map sa) (wfa_prov cx sa Hwfs)) as (res & -> & Hres). cbn [obind]. destruct res as [c|e].
  2: { destruct Hres as [Hf (k & -> & Hk)]. eexists _, _. split; [done|]. left. split; [by exists k|]. split; [done|by exists k]. }
  destruct (prepare_copy_spec (init sa) (alloc_range s size) (wfa_mask cx sa Hwfs)) as (l & -> & Hch);
    cbn [range_start range_size alloc_range] in *; [lia..|rewrite (wfa_len cx sa Hwfs); lia|]. cbn [obind]. rewrite Hda.
  destruct Hres as [Hc _]. destruct (copy_prepared_spec nonoverlapping l c Hmut Hap Hch Hc) as (m' & res & Hcp & Hr).
  exists m', res. split; [done|]. destruct res; [done|]. by right.
Qed.

End Memory.

(** ** Examples *)

Definition sample_memory : gmap Z (Allocation.t AllocId unit) := {[ 1 := sample_alloc ]}.

(** 20 bytes with a pointer inside, two bytes further in the same allocation *)
Lemma mem_copy_exact_witness :
  ∃ m' res, mem_copy_repeatedly sample_memory (sample_cx Little) (Some (1, 10)) (Some (1, 12)) 20 1 false = Ret (m', res) ∧
    match res with
    | Ok _ => ∃ da', m' = <[1 := da']> sample_memory ∧ copied_to (sample_cx Little) 10 12 20 1 sample_alloc sample_alloc da'
    | Err e => (∃ k, e = FromAlloc (ReadPartialPointer k) 1) ∧ splits (sample_cx Little) sample_alloc (alloc_range 10 20) ∨
        (∃ k, e = FromAlloc (OverwritePartialPointer k) 1) ∧ splits (sample_cx Little) sample_alloc (alloc_range 12 (20 * 1)) ∨
        e = CopyNonoverlappingOverlapping ∧ false = true ∧ 1 = 1 ∧ 10 < 12 + 20 ∧ 12 < 10 + 20
    end.
Proof.
  apply (mem_copy_exact (sample_cx Little) ltac:(done) 1 1 10 12 20 1 sample_alloc sample_alloc sample_memory);
    [done|done|apply sample_wf|apply sample_wf|done|done|done|done|right; by left].
Defined.

(** The check for overlapping ranges looks at the first copy only: here the second
    one overlaps the source, and the copy succeeds although the ranges were
    promised not to overlap. *)
Lemma repeated_overlap_unnoticed : ∃ m',
  mem_copy_repeatedly sample_memory (sample_cx Little) (Some (1, 50)) (Some (1, 40)) 8 2 true = Ret (m', Ok tt).
Proof. eexists. vm_compute. reflexivity. Qed.
