(* ===== verification/SipHash.v ===== *)
(** The 128-bit SipHash of [rustc_data_structures/src/sip128.rs]: a hasher with
    a buffer of eight words and a spill word, partly uninitialised.  The buffer
    is a list of bytes, [None] where nothing was written; reading such a byte as
    an integer and leaving the buffer are undefined behaviour, [Panic] here.
    The host is a parameter, as the source reads words in native byte order.
    The second half specifies the hash on a whole message. *)

From S2P Require Import Prelude.
From S2P Require Import MemDecoder.
From S2P Require Import Abi.
From S2P Require Import FieldsProps.
Import MemDecoder.

(** * The host *)

(** Byte order and number of bytes of a [usize] *)
Record Host := mkHost { host_endian : Endian; usize_size : nat }.

Definition usize_bits (hst : Host) : Z := 8 * Z.of_nat (usize_size hst).

(** [i.to_ne_bytes()] and [from_ne_bytes] of an integer of [n] bytes *)
Definition to_ne_bytes (hst : Host) (n : nat) (i : Z) : list Z :=
  match host_endian hst with
  | Little => to_le_bytes n i
  | Big => rev (to_le_bytes n i)
  end.

Definition from_ne_bytes (hst : Host) (bs : list Z) : Z :=
  match host_endian hst with
  | Little => from_le_bytes bs
  | Big => from_le_bytes (rev bs)
  end.

Definition swap_bytes (n : nat) (i : Z) : Z := from_le_bytes (rev (to_le_bytes n i)).

(** [i.to_le()] *)
Definition to_le (hst : Host) (n : nat) (i : Z) : Z :=
  match host_endian hst with Little => i | Big => swap_bytes n i end.

(** [x.rotate_left(k)] of a [u64] *)
Definition rotate_left (x k : Z) : Z := Z.lor (wshl 64 x k) (wshr 64 x (64 - k)).

(** * Memory *)

(** [n] bytes from offset [off] of a block of memory *)
Definition ptr_slice {A} (m : list A) (off n : nat) : outcome (list A) :=
  if (off + n <=? length m)%nat then Ret (take n (drop off m)) else Panic.

(** [ptr::copy_nonoverlapping(src.add(soff), dst.add(doff), count)] *)
Definition copy_nonoverlapping {A} (src : list A) (soff : nat) (dst : list A)
    (doff count : nat) : outcome (list A) :=
  let! bs := ptr_slice src soff count in
  if (doff + count <=? length dst)%nat
  then Ret (take doff dst ++ bs ++ drop (doff + count) dst)
  else Panic.

(** [ptr::write_bytes(dst.add(doff), val, count)] *)
Definition write_bytes {A} (dst : list A) (doff : nat) (val : A) (count : nat) :
    outcome (list A) :=
  copy_nonoverlapping (replicate count val) 0 dst doff count.

Definition copy_nonoverlapping_small {A} (src : list A) (soff : nat) (dst : list A)
    (doff count : nat) : outcome (list A) :=
  if (count =? 8)%nat then copy_nonoverlapping src soff dst doff 8
  else
    let i := 0%nat in
    let! (dst, i) :=
      (if (i + 3 <? count)%nat
       then let! dst := copy_nonoverlapping src (soff + i) dst (doff + i) 4 in
            Ret (dst, i + 4)%nat
       else Ret (dst, i)) in
    let! (dst, i) :=
      (if (i + 1 <? count)%nat
       then let! dst := copy_nonoverlapping src (soff + i) dst (doff + i) 2 in
            Ret (dst, i + 2)%nat
       else Ret (dst, i)) in
    if (i <? count)%nat
    then copy_nonoverlapping src (soff + i) dst (doff + i) 1
    else Ret dst.

(** * The rounds *)

Record State := mkState { v0 : Z; v2 : Z; v1 : Z; v3 : Z }.

(** [compress!] *)
Definition compress (state : State) : State :=
  let '(mkState v0 v2 v1 v3) := state in
  let v0 := wadd 64 v0 v1 in
  let v1 := rotate_left v1 13 in
  let v1 := Z.lxor v1 v0 in
  let v0 := rotate_left v0 32 in
  let v2 := wadd 64 v2 v3 in
  let v3 := rotate_left v3 16 in
  let v3 := Z.lxor v3 v2 in
  let v0 := wadd 64 v0 v3 in
  let v3 := rotate_left v3 21 in
  let v3 := Z.lxor v3 v0 in
  let v2 := wadd 64 v2 v1 in
  let v1 := rotate_left v1 17 in
  let v1 := Z.lxor v1 v2 in
  let v2 := rotate_left v2 32 in
  mkState v0 v2 v1 v3.

(** [Sip13Rounds] *)
Definition c_rounds (state : State) : State := compress state.
Definition d_rounds (state : State) : State := compress (compress (compress state)).

Definition xor_v0 (state : State) (x : Z) : State :=
  mkState (Z.lxor (v0 state) x) (v2 state) (v1 state) (v3 state).
Definition xor_v1 (state : State) (x : Z) : State :=
  mkState (v0 state) (v2 state) (Z.lxor (v1 state) x) (v3 state).
Definition xor_v2 (state : State) (x : Z) : State :=
  mkState (v0 state) (Z.lxor (v2 state) x) (v1 state) (v3 state).
Definition xor_v3 (state : State) (x : Z) : State :=
  mkState (v0 state) (v2 state) (v1 state) (Z.lxor (v3 state) x).

(** The three lines that every loop over elements repeats *)
Definition absorb (state : State) (elem : Z) : State :=
  xor_v0 (c_rounds (xor_v3 state elem)) elem.

(** * The hasher *)

Definition ELEM_SIZE : nat := 8.
Definition BUFFER_CAPACITY : nat := 8.
Definition BUFFER_SIZE : nat := BUFFER_CAPACITY * ELEM_SIZE.
Definition BUFFER_WITH_SPILL_CAPACITY : nat := BUFFER_CAPACITY + 1.
Definition BUFFER_WITH_SPILL_SIZE : nat := BUFFER_WITH_SPILL_CAPACITY * ELEM_SIZE.
Definition BUFFER_SPILL_INDEX : nat := BUFFER_WITH_SPILL_CAPACITY - 1.

Module SipHasher128.

Record t := mk {
  nbuf : nat;
  buf : list (option Z);
  state : State;
  processed : Z
}.

Definition initial_state (key0 key1 : Z) : State := {|
  v0 := Z.lxor key0 0x736f6d6570736575;
  v1 := Z.lxor key1 (Z.lxor 0x646f72616e646f6d 0xee);
  v2 := Z.lxor key0 0x6c7967656e657261;
  v3 := Z.lxor key1 0x7465646279746573
|}.

Definition new_with_keys (key0 key1 : Z) : t :=
  mk 0
    (replicate BUFFER_SIZE None ++ replicate ELEM_SIZE (Some 0))
    (initial_state key0 key1) 0.

Section host.
Context (hst : Host).

(** [assume_init] of the bytes of an integer, read in native order *)
Definition assume_init (bs : list (option Z)) : outcome Z :=
  match mapM id bs with Some bs => Ret (from_ne_bytes hst bs) | None => Panic end.

(** [self.buf.get_unchecked(i).assume_init().to_le()] *)
Definition buf_elem (buf : list (option Z)) (i : nat) : outcome Z :=
  let! bs := ptr_slice buf (i * ELEM_SIZE) ELEM_SIZE in
  let! elem := assume_init bs in
  Ret (to_le hst 8 elem).

(** [for i in i..i + n]: the elements of the buffer are absorbed. *)
Fixpoint process_buf (buf : list (option Z)) (n i : nat) (state : State) : outcome State :=
  match n with
  | O => Ret state
  | S n =>
      let! elem := buf_elem buf i in
      process_buf buf n (S i) (absorb state elem)
  end.

(** [for _ in 0..n]: the words of the message from [processed] on, and where
    they end *)
Fixpoint process_msg (msg : list Z) (n processed : nat) (state : State) :
    outcome (State * nat) :=
  match n with
  | O => Ret (state, processed)
  | S n =>
      let! bs := ptr_slice msg processed ELEM_SIZE in
      let elem := to_le hst 8 (from_ne_bytes hst bs) in
      process_msg msg n (processed + ELEM_SIZE) (absorb state elem)
  end.

Definition short_write_process_buffer (self : t) (bytes : list Z) : outcome t :=
  let LEN := length bytes in
  let! buf := copy_nonoverlapping (Some <$> bytes) 0 (buf self) (nbuf self) LEN in
  let! state := process_buf buf BUFFER_CAPACITY 0 (state self) in
  let! buf := copy_nonoverlapping buf (BUFFER_SPILL_INDEX * ELEM_SIZE) buf 0 (LEN - 1) in
  Ret (mk (if (LEN =? 1)%nat then 0 else nbuf self + LEN - BUFFER_SIZE)
          buf state (wadd (usize_bits hst) (processed self) (Z.of_nat BUFFER_SIZE))).

Definition short_write (self : t) (bytes : list Z) : outcome t :=
  let LEN := length bytes in
  if (nbuf self + LEN <? BUFFER_SIZE)%nat then
    let! buf := copy_nonoverlapping (Some <$> bytes) 0 (buf self) (nbuf self) LEN in
    Ret (mk (nbuf self + LEN) buf (state self) (processed self))
  else short_write_process_buffer self bytes.

Definition slice_write_process_buffer (self : t) (msg : list Z) : outcome t :=
  let length := length msg in
  let valid_in_elem := (nbuf self mod ELEM_SIZE)%nat in
  let needed_in_elem := (ELEM_SIZE - valid_in_elem)%nat in
  let! buf := copy_nonoverlapping_small (Some <$> msg) 0 (buf self) (nbuf self) needed_in_elem in
  let last := (nbuf self / ELEM_SIZE + 1)%nat in
  let! state := process_buf buf last 0 (state self) in
  let input_left := (length - needed_in_elem)%nat in
  let elems_left := (input_left / ELEM_SIZE)%nat in
  let extra_bytes_left := (input_left mod ELEM_SIZE)%nat in
  let! (state, processed') := process_msg msg elems_left needed_in_elem state in
  let! buf := copy_nonoverlapping_small (Some <$> msg) processed' buf 0 extra_bytes_left in
  Ret (mk extra_bytes_left buf state
         (wadd (usize_bits hst) (processed self) (Z.of_nat (nbuf self + processed')))).

Definition slice_write (self : t) (msg : list Z) : outcome t :=
  let length := length msg in
  if (nbuf self + length <? BUFFER_SIZE)%nat then
    let! buf :=
      (if (length <=? 8)%nat
       then copy_nonoverlapping_small (Some <$> msg) 0 (buf self) (nbuf self) length
       else copy_nonoverlapping (Some <$> msg) 0 (buf self) (nbuf self) length) in
    Ret (mk (nbuf self + length) buf (state self) (processed self))
  else slice_write_process_buffer self msg.

(** From [// Finalize the hash.] on, with the bytes not yet absorbed in [b] *)
Definition finalize (state : State) (b : Z) : Z * Z :=
  let state := absorb state b in
  let state := d_rounds (xor_v2 state 0xee) in
  let _0 := Z.lxor (Z.lxor (Z.lxor (v0 state) (v1 state)) (v2 state)) (v3 state) in
  let state := d_rounds (xor_v1 state 0xdd) in
  let _1 := Z.lxor (Z.lxor (Z.lxor (v0 state) (v1 state)) (v2 state)) (v3 state) in
  (_0, _1).

Definition finish128 (self : t) : outcome (Z * Z) :=
  let last := (nbuf self / ELEM_SIZE)%nat in
  let! state := process_buf (buf self) last 0 (state self) in
  let! elem :=
    (if negb (nbuf self mod ELEM_SIZE =? 0)%nat
     then let! buf := write_bytes (buf self) (nbuf self) (Some 0) (ELEM_SIZE - 1) in
          buf_elem buf last
     else Ret 0) in
  let length := wadd (usize_bits hst) (processed self) (Z.of_nat (nbuf self)) in
  Ret (finalize state (Z.lor (wshl 64 (Z.land length 0xff) 56) elem)).

(** ** [impl Hasher for SipHasher128], with the default methods of the trait
    for [u128], [i128] and length prefixes *)

Definition write (self : t) (msg : list Z) : outcome t := slice_write self msg.
Definition write_u8 (self : t) (i : Z) : outcome t := short_write self (to_ne_bytes hst 1 i).
Definition write_u16 (self : t) (i : Z) : outcome t := short_write self (to_ne_bytes hst 2 i).
Definition write_u32 (self : t) (i : Z) : outcome t := short_write self (to_ne_bytes hst 4 i).
Definition write_u64 (self : t) (i : Z) : outcome t := short_write self (to_ne_bytes hst 8 i).
Definition write_u128 (self : t) (i : Z) : outcome t := write self (to_ne_bytes hst 16 i).
Definition write_usize (self : t) (i : Z) : outcome t :=
  short_write self (to_ne_bytes hst (usize_size hst) i).
Definition write_i8 (self : t) (i : Z) : outcome t :=
  short_write self (to_ne_bytes hst 1 (of_signed 8 i)).
Definition write_i16 (self : t) (i : Z) : outcome t :=
  short_write self (to_ne_bytes hst 2 (of_signed 16 i)).
Definition write_i32 (self : t) (i : Z) : outcome t :=
  short_write self (to_ne_bytes hst 4 (of_signed 32 i)).
Definition write_i64 (self : t) (i : Z) : outcome t :=
  short_write self (to_ne_bytes hst 8 (of_signed 64 i)).
Definition write_i128 (self : t) (i : Z) : outcome t := write_u128 self (of_signed 128 i).
Definition write_isize (self : t) (i : Z) : outcome t :=
  short_write self (to_ne_bytes hst (usize_size hst) (of_signed (usize_bits hst) i)).
Definition write_length_prefix (self : t) (len : Z) : outcome t := write_usize self len.
(** The string as its bytes *)
Definition write_str (self : t) (s : list Z) : outcome t :=
  let! self := write self s in
  write_u8 self 0xff.

End host.
End SipHasher128.

(** * The hash of a message *)

(** The first [n] words of a message are absorbed. *)
Fixpoint absorb_words (n : nat) (state : State) (bs : list Z) : State :=
  match n with
  | O => state
  | S n => absorb_words n (absorb state (from_le_bytes (take 8 bs))) (drop 8 bs)
  end.

(** SipHash-1-3 with 128 bits: whole words in little-endian order, then the
    remaining bytes with the length modulo 256 in the highest byte. *)
Definition sip128 (key0 key1 : Z) (msg : list Z) : Z * Z :=
  let n := (length msg / 8)%nat in
  let state := absorb_words n (SipHasher128.initial_state key0 key1) msg in
  let b := from_le_bytes (drop (8 * n) msg) + Z.of_nat (length msg) mod 256 * 2 ^ 56 in
  SipHasher128.finalize state b.

(** * Properties: the buffered hasher and the hash of the whole message *)

Import MemDecoder SipHasher128.

Abbreviation bytes_ok := (Forall (λ b : Z, 0 ≤ b < 256)).

(** * Bytes and words *)

Lemma to_from_le_bytes bs : bytes_ok bs → to_le_bytes (length bs) (from_le_bytes bs) = bs.
Proof.
  induction 1 as [|b bs Hb _ IH]; cbn [length to_le_bytes from_le_bytes]; [done|].
  rewrite (Z.mul_comm 256), Z.mod_add, Z.div_add, Z.mod_small, Z.div_small, Z.add_0_l by lia.
  by rewrite IH.
Qed.

(** A word that is read in native order and converted is the little-endian
    one, whatever the host. *)
Lemma to_le_from_ne hst bs : length bs = 8%nat → bytes_ok bs →
  to_le hst 8 (from_ne_bytes hst bs) = from_le_bytes bs.
Proof.
  intros Hl Hb. unfold to_le, from_ne_bytes, swap_bytes. destruct (host_endian hst); [done|].
  rewrite <- Hl, <- (length_rev bs), to_from_le_bytes by (by apply Forall_rev).
  by rewrite rev_involutive.
Qed.

Lemma to_ne_bytes_length hst n i : length (to_ne_bytes hst n i) = n.
Proof. unfold to_ne_bytes. destruct (host_endian hst); rewrite ?length_rev; apply length_to_le_bytes. Qed.

Lemma to_ne_bytes_ok hst n i : bytes_ok (to_ne_bytes hst n i).
Proof.
  unfold to_ne_bytes. destruct (host_endian hst); [|apply Forall_rev]; apply to_le_bytes_bytes.
Qed.
#[export] Hint Resolve to_ne_bytes_ok : rust.

Lemma to_ne_bytes_1 hst i : to_ne_bytes hst 1 i = [i mod 256].
Proof. unfold to_ne_bytes. by destruct (host_endian hst). Qed.

Lemma mapM_id_Some (bs : list Z) : mapM id (Some <$> bs) = Some bs.
Proof. apply mapM_fmap_Some. done. Qed.

Lemma absorb_words_add n m st bs :
  absorb_words (n + m) st bs = absorb_words m (absorb_words n st bs) (drop (8 * n) bs).
Proof.
  revert st bs. induction n as [|n IH]; intros st bs; [done|].
  cbn [absorb_words Nat.add]. rewrite IH, drop_drop. by replace (8 + 8 * n)%nat with (8 * S n)%nat by lia.
Qed.

Lemma absorb_words_app n st bs cs : (8 * n ≤ length bs)%nat →
  absorb_words n st (bs ++ cs) = absorb_words n st bs.
Proof.
  revert st bs. induction n as [|n IH]; intros st bs Hn; [done|]. cbn [absorb_words].
  rewrite take_app_le, drop_app_le by lia. apply IH. rewrite length_drop. lia.
Qed.

(** * Memory *)

Lemma copy_ret {A} (src : list A) s dst d n :
  (s + n ≤ length src)%nat → (d + n ≤ length dst)%nat →
  copy_nonoverlapping src s dst d n = Ret (take d dst ++ take n (drop s src) ++ drop (d + n) dst).
Proof.
  intros H1 H2. unfold copy_nonoverlapping, ptr_slice.
  rewrite (proj2 (Nat.leb_le _ _) H1). cbn [obind]. by rewrite (proj2 (Nat.leb_le _ _) H2).
Qed.

(** The two halves of a copy, one after the other *)
Lemma copy_seq {A} (src : list A) s dst d n m :
  (s + (n + m) ≤ length src)%nat → (d + (n + m) ≤ length dst)%nat →
  (let! dst' := copy_nonoverlapping src s dst d n in
   copy_nonoverlapping src (s + n) dst' (d + n) m) = copy_nonoverlapping src s dst d (n + m).
Proof.
  intros H1 H2. rewrite !copy_ret by lia. cbn [obind].
  assert (length (take d dst) = d) as Hd by (rewrite length_take; lia).
  assert (length (take n (drop s src)) = n) as Hn by (rewrite length_take, length_drop; lia).
  rewrite copy_ret by (rewrite ?length_app, ?Hd, ?Hn, ?length_drop; lia).
  rewrite (app_assoc (take d dst)), (take_app_length' _ _ (d + n)) by (rewrite length_app; lia).
  rewrite <- app_assoc. f_equal. f_equal. rewrite app_assoc. f_equal.
  - rewrite <- (drop_drop src n s). rewrite <- (take_drop n (take (n + m) (drop s src))).
    rewrite take_take, Nat.min_l by lia. f_equal. rewrite take_drop_commute. done.
  - rewrite drop_app_ge by (rewrite length_app; lia). rewrite length_app, Hd, Hn, drop_drop. f_equal. lia.
Qed.

Lemma copy_zero {A} (src : list A) s dst d :
  (s ≤ length src)%nat → (d ≤ length dst)%nat → copy_nonoverlapping src s dst d 0 = Ret dst.
Proof. intros. rewrite copy_ret by lia. by rewrite Nat.add_0_r, take_0, app_nil_l, take_drop. Qed.

(** The small copy is a copy. *)
Lemma copy_small {A} (src : list A) s dst d n : (n ≤ 8)%nat →
  (s + n ≤ length src)%nat → (d + n ≤ length dst)%nat →
  copy_nonoverlapping_small src s dst d n = copy_nonoverlapping src s dst d n.
Proof.
  intros Hn H1 H2. unfold copy_nonoverlapping_small.
  assert (∀ k m, (k + m ≤ n)%nat → (let! dst' := copy_nonoverlapping src s dst d k in
    copy_nonoverlapping src (s + k) dst' (d + k) m) = copy_nonoverlapping src s dst d (k + m)) as Hs.
  { intros. apply copy_seq; lia. }
  assert (∀ k m, (k + m ≤ n)%nat → ∃ dst', copy_nonoverlapping src s dst d k = Ret dst' ∧
    copy_nonoverlapping src (s + k) dst' (d + k) m = copy_nonoverlapping src s dst d (k + m)) as Hc.
  { intros k m Hk. rewrite <- Hs, copy_ret by lia. eauto. }
  assert (n = 0 ∨ n = 1 ∨ n = 2 ∨ n = 3 ∨ n = 4 ∨ n = 5 ∨ n = 6 ∨ n = 7 ∨ n = 8)%nat as Hcases by lia.
  destruct_or! Hcases; subst n; cbn [Nat.eqb Nat.ltb Nat.leb Nat.add obind]; rewrite ?Nat.add_0_r.
  all: try done; try (rewrite copy_zero by lia; done).
  - rewrite copy_ret by lia. done.
  - destruct (Hc 2%nat 1%nat) as (? & -> & E); [lia|]. exact E.
  - rewrite copy_ret by lia. done.
  - destruct (Hc 4%nat 1%nat) as (? & -> & E); [lia|]. exact E.
  - destruct (Hc 4%nat 2%nat) as (? & -> & E); [lia|]. cbn [obind]. cbn [Nat.leb Nat.add] in *.
    rewrite E, copy_ret by lia. done.
  - destruct (Hc 4%nat 2%nat) as (? & -> & E); [lia|]. destruct (Hc 6%nat 1%nat) as (? & E6 & E'); [lia|].
    cbn [obind]. cbn [Nat.leb Nat.add] in *. rewrite E, E6. exact E'.
Qed.

(** * The hasher *)

Section hasher.
Context (hst : Host) (key0 key1 : Z).

(** Splitting a buffer that starts with written bytes *)
Lemma buf_elem_written (pending : list Z) rest i : bytes_ok pending →
  (8 * i + 8 ≤ length pending)%nat →
  buf_elem hst ((Some <$> pending) ++ rest) i = Ret (from_le_bytes (take 8 (drop (8 * i) pending))).
Proof.
  intros Hb Hi. unfold buf_elem, ptr_slice, ELEM_SIZE.
  rewrite (proj2 (Nat.leb_le _ _)) by (rewrite length_app, length_fmap; lia). cbn [obind].
  rewrite drop_app_le, take_app_le by (rewrite ?length_drop, length_fmap; lia).
  rewrite <- fmap_drop, <- fmap_take. unfold assume_init. rewrite mapM_id_Some. cbn [obind].
  rewrite to_le_from_ne, (Nat.mul_comm i); [done| |by apply Forall_take, Forall_drop].
  rewrite length_take, length_drop. lia.
Qed.

Lemma process_buf_written (pending : list Z) rest n i st : bytes_ok pending →
  (8 * (i + n) ≤ length pending)%nat →
  process_buf hst ((Some <$> pending) ++ rest) n i st = Ret (absorb_words n st (drop (8 * i) pending)).
Proof.
  intros Hb. revert i st. induction n as [|n IH]; intros i st Hi; cbn [process_buf absorb_words]; [done|].
  rewrite buf_elem_written by (done || lia). cbn [obind]. rewrite IH, drop_drop by lia.
  by replace (8 * i + 8)%nat with (8 * S i)%nat by lia.
Qed.

Lemma process_msg_words msg n p st : bytes_ok msg → (p + 8 * n ≤ length msg)%nat →
  process_msg hst msg n p st = Ret (absorb_words n st (drop p msg), (p + 8 * n)%nat).
Proof.
  intros Hb. revert p st. induction n as [|n IH]; intros p st Hp; cbn [process_msg absorb_words].
  { by rewrite Nat.mul_0_r, Nat.add_0_r. }
  unfold ptr_slice, ELEM_SIZE. rewrite (proj2 (Nat.leb_le _ _)) by lia. cbn [obind].
  rewrite to_le_from_ne; [|rewrite length_take, length_drop; lia|by apply Forall_take, Forall_drop].
  rewrite IH, drop_drop by lia. by replace (p + 8 + 8 * n)%nat with (p + 8 * S n)%nat by lia.
Qed.

(** The hasher has absorbed the first [nd] words of [msg] and the rest of it is
    at the start of the buffer. *)
Record holds_at (nd : nat) (self : t) (msg : list Z) : Prop := {
  ho_bytes : bytes_ok msg;
  ho_done : (8 * nd ≤ length msg)%nat;
  ho_nbuf : nbuf self = (length msg - 8 * nd)%nat;
  ho_space : (nbuf self < 64)%nat;
  ho_buf : ∃ rest, buf self = (Some <$> drop (8 * nd) msg) ++ rest;
  ho_len : length (buf self) = 72%nat;
  ho_state : state self = absorb_words nd (initial_state key0 key1) msg;
  ho_processed : processed self = wrap (usize_bits hst) (Z.of_nat (8 * nd));
}.

Definition holds (self : t) (msg : list Z) : Prop := ∃ nd, holds_at nd self msg.

Lemma holds_new : holds (new_with_keys key0 key1) [].
Proof.
  exists 0%nat. split; cbn; try done; [lia|by eexists].
Qed.

Lemma wadd_wrap_nat w a b : 0 ≤ w → wadd w (wrap w (Z.of_nat a)) (Z.of_nat b) = wrap w (Z.of_nat (a + b)).
Proof. intros. unfold wadd. rewrite wrap_idemp_add by done. by rewrite Nat2Z.inj_add. Qed.

Lemma usize_bits_nonneg : 0 ≤ usize_bits hst.
Proof. unfold usize_bits. lia. Qed.

(** Copying [n] bytes after the written ones *)
Lemma copy_append (P bs : list Z) rest p n : length P = p → (n ≤ length bs)%nat → (n ≤ length rest)%nat →
  copy_nonoverlapping (Some <$> bs) 0 ((Some <$> P) ++ rest) p n
  = Ret ((Some <$> (P ++ take n bs)) ++ drop n rest).
Proof.
  intros <- Hn Hr. rewrite copy_ret by (rewrite ?length_app, length_fmap; lia). f_equal.
  rewrite take_app_length' by (by rewrite length_fmap).
  rewrite drop_app_ge, length_fmap by (rewrite length_fmap; lia).
  replace (length P + n - length P)%nat with n by lia.
  by rewrite drop_0, <- fmap_take, fmap_app, <- app_assoc.
Qed.

(** The state after absorbing what is buffered and [n] words in all *)
Lemma absorb_more nd n msg bs : (8 * nd ≤ length msg)%nat →
  absorb_words n (absorb_words nd (initial_state key0 key1) msg) (drop (8 * nd) msg ++ bs)
  = absorb_words (nd + n) (initial_state key0 key1) (msg ++ bs).
Proof.
  intros Hd. rewrite absorb_words_add, (absorb_words_app nd) by done. by rewrite drop_app_le.
Qed.

(** The words of the buffer, then those of the rest of the slice *)
Lemma absorb_rest n q msg need bs : (length (msg ++ take need bs) = 8 * n)%nat →
  absorb_words q (absorb_words n (initial_state key0 key1) (msg ++ take need bs)) (drop need bs)
  = absorb_words (n + q) (initial_state key0 key1) (msg ++ bs).
Proof.
  intros Hl. replace (msg ++ bs) with ((msg ++ take need bs) ++ drop need bs) by (by rewrite <- app_assoc, take_drop).
  rewrite absorb_words_add, (absorb_words_app n _ (msg ++ take need bs) (drop need bs)) by lia.
  by rewrite <- Hl, drop_app_length.
Qed.

Lemma holds_append nd self msg bs buf' : holds_at nd self msg → bytes_ok bs →
  (nbuf self + length bs < 64)%nat →
  copy_nonoverlapping (Some <$> bs) 0 (buf self) (nbuf self) (length bs) = Ret buf' →
  holds_at nd (mk (nbuf self + length bs) buf' (state self) (processed self)) (msg ++ bs).
Proof.
  intros [Hb Hd Hn Hs [rest Hr] Hl Hst Hp] Hbs Hlt Hc. rewrite Hr in Hc, Hl.
  rewrite length_app, length_fmap, length_drop in Hl.
  rewrite copy_append in Hc by (rewrite ?length_drop; lia). injection Hc as <-.
  split; cbn [nbuf buf state processed]; try rewrite length_app; try done; try lia.
  - by apply Forall_app_2.
  - eexists. by rewrite drop_app_le, firstn_all by done.
  - rewrite ?length_fmap, ?length_app, firstn_all, !length_drop. lia.
  - by rewrite absorb_words_app.
Qed.

(** The buffer is full: its words are absorbed and what does not make a word
    goes to the start. *)
Lemma holds_fill nd n self msg bs rest nbuf' : holds_at nd self msg → bytes_ok bs →
  (8 * (nd + n) ≤ length msg + length bs)%nat → nbuf' = (length msg + length bs - 8 * (nd + n))%nat →
  (nbuf' < 64)%nat → length ((Some <$> drop (8 * (nd + n)) (msg ++ bs)) ++ rest) = 72%nat →
  holds_at (nd + n)
    (mk nbuf' ((Some <$> drop (8 * (nd + n)) (msg ++ bs)) ++ rest)
      (absorb_words (nd + n) (initial_state key0 key1) (msg ++ bs))
      (wadd (usize_bits hst) (processed self) (Z.of_nat (8 * n)))) (msg ++ bs).
Proof.
  intros [Hb Hd Hn Hs _ Hl Hst Hp] Hbs Hle -> Hlt Hlen.
  split; cbn [nbuf buf state processed]; rewrite ?(length_app msg); try done.
  - by apply Forall_app_2.
  - eauto.
  - rewrite Hp, wadd_wrap_nat by apply usize_bits_nonneg. f_equal. lia.
Qed.

(** Copying back the spill *)
Lemma spill_to_start (Q : list Z) R k : (64 ≤ length Q)%nat → (length Q - 64 ≤ k)%nat → (k ≤ 8)%nat →
  length ((Some <$> Q) ++ R) = 72%nat →
  ∃ rest, copy_nonoverlapping ((Some <$> Q) ++ R) 64 ((Some <$> Q) ++ R) 0 k = Ret ((Some <$> drop 64 Q) ++ rest) ∧
    length ((Some <$> drop 64 Q) ++ rest) = 72%nat.
Proof.
  intros HQ Hk1 Hk2 Hl. rewrite copy_ret by lia. rewrite take_0, app_nil_l, Nat.add_0_l.
  rewrite (drop_app_le _ _ 64) by (rewrite length_fmap; lia). rewrite <- fmap_drop.
  rewrite take_app_ge by (rewrite length_fmap, length_drop; lia). rewrite <- app_assoc.
  eexists. split; [done|]. rewrite !length_app, length_take, length_drop, !length_fmap, length_drop.
  rewrite length_app, length_fmap in *. lia.
Qed.

Lemma short_write_holds self msg bs : holds self msg → bytes_ok bs → (length bs ≤ 8)%nat →
  ∃ self', short_write hst self bs = Ret self' ∧ holds self' (msg ++ bs).
Proof.
  intros [nd H] Hbs Hlen. pose proof H as [Hb Hd Hn Hs [rest Hr] Hl Hst Hp].
  assert (length rest = 72 - nbuf self)%nat as Hrest.
  { rewrite Hr, length_app, length_fmap, length_drop in Hl. lia. }
  assert (length (drop (8 * nd) msg) = nbuf self) as HP by (rewrite length_drop; lia).
  unfold short_write. change BUFFER_SIZE with 64%nat. destruct (Nat.ltb_spec (nbuf self + length bs) 64).
  { destruct (copy_nonoverlapping _ 0 (buf self) _ _) as [buf'|] eqn:E; cbn [obind].
    - eexists. split; [done|]. exists nd. by eapply holds_append.
    - rewrite Hr, copy_append in E by lia. done. }
  unfold short_write_process_buffer. rewrite Hr, copy_append by lia. cbn [obind].
  rewrite firstn_all. rewrite process_buf_written; [|by apply Forall_app_2; [apply Forall_drop|]|
    unfold BUFFER_CAPACITY; rewrite length_app; lia].
  cbn [obind]. change BUFFER_CAPACITY with 8%nat. change (8 * 0)%nat with 0%nat. rewrite drop_0, Hst, absorb_more by done.
  set (Q := drop (8 * nd) msg ++ bs). assert (length Q = nbuf self + length bs)%nat as HQ by (unfold Q; rewrite length_app; lia).
  assert (length (drop (length bs) rest) = 72 - length Q)%nat as Hr' by (rewrite length_drop; lia).
  change (BUFFER_SPILL_INDEX * ELEM_SIZE)%nat with 64%nat.
  destruct (spill_to_start Q (drop (length bs) rest) (length bs - 1)) as (rest' & -> & Hl'); [lia..| |].
  { rewrite length_app, length_fmap. lia. }
  assert (drop (8 * (nd + 8)) (msg ++ bs) = drop 64 Q) as HdQ.
  { unfold Q. rewrite <- drop_app_le by done. rewrite drop_drop. f_equal. lia. }
  cbn [obind]. rewrite <- HdQ in Hl' |- *. change (Z.of_nat BUFFER_SIZE) with (Z.of_nat (8 * 8)).
  eexists. split; [done|]. exists (nd + 8)%nat. apply (holds_fill nd 8); try done; [lia| |];
    change BUFFER_SIZE with 64%nat; destruct (Nat.eqb_spec (length bs) 1); lia.
Qed.

Lemma slice_write_holds self msg bs : holds self msg → bytes_ok bs →
  ∃ self', slice_write hst self bs = Ret self' ∧ holds self' (msg ++ bs).
Proof.
  intros [nd H] Hbs. pose proof H as [Hb Hd Hn Hs [rest Hr] Hl Hst Hp].
  assert (length rest = 72 - nbuf self)%nat as Hrest.
  { rewrite Hr, length_app, length_fmap, length_drop in Hl. lia. }
  assert (length (drop (8 * nd) msg) = nbuf self) as HP by (rewrite length_drop; lia).
  unfold slice_write. change BUFFER_SIZE with 64%nat. destruct (Nat.ltb_spec (nbuf self + length bs) 64).
  { destruct (copy_nonoverlapping (Some <$> bs) 0 (buf self) (nbuf self) (length bs)) as [buf'|] eqn:E;
      [|by rewrite Hr, copy_append in E by lia].
    exists (mk (nbuf self + length bs) buf' (state self) (processed self)).
    split; [|exists nd; by eapply holds_append].
    destruct (Nat.leb_spec (length bs) 8); [rewrite copy_small by (rewrite ?length_fmap; lia)|]; by rewrite ?E. }
  unfold slice_write_process_buffer. change ELEM_SIZE with 8%nat.
  set (need := (8 - nbuf self mod 8)%nat). set (last := (nbuf self / 8 + 1)%nat).
  assert (nbuf self + need = 8 * last)%nat as Hneed.
  { unfold need, last. pose proof (Nat.div_mod_eq (nbuf self) 8). pose proof (Nat.mod_upper_bound (nbuf self) 8). lia. }
  assert (1 ≤ need ≤ 8 ∧ last ≤ 8)%nat as [Hneed8 Hlast].
  { unfold need. pose proof (Nat.mod_upper_bound (nbuf self) 8). lia. }
  rewrite copy_small by (rewrite ?length_fmap; lia). rewrite Hr, copy_append by lia. cbn [obind].
  rewrite process_buf_written; [|apply Forall_app_2; [by apply Forall_drop|by apply Forall_take]|
    rewrite length_app, length_take; lia].
  change (8 * 0)%nat with 0%nat. cbn [obind]. rewrite drop_0, Hst, absorb_more by done.
  set (left := (length bs - need)%nat). pose proof (Nat.div_mod_eq left 8) as Hleft.
  pose proof (Nat.mod_upper_bound left 8 ltac:(lia)) as Hextra.
  rewrite process_msg_words by (done || lia). cbn [obind].
  assert (left mod 8 = length bs - (need + 8 * (left / 8)))%nat as Hmod by lia.
  set (q := (left / 8)%nat) in *. set (X := (Some <$> _) ++ drop need rest).
  assert (length X = 72)%nat as HX.
  { unfold X. rewrite length_app, length_fmap, length_app, length_take, HP, length_drop. lia. }
  rewrite copy_small, copy_ret by (rewrite ?length_fmap; lia). cbn [obind]. rewrite take_0, app_nil_l, Nat.add_0_l.
  rewrite absorb_rest, <- Nat.add_assoc by (rewrite ?length_app, ?length_take; lia).
  rewrite <- fmap_drop, (take_ge _ (left mod 8)) by (rewrite length_fmap, length_drop; lia).
  assert (drop (need + 8 * q) bs = drop (8 * (nd + (last + q))) (msg ++ bs)) as HdQ.
  { rewrite drop_app_ge by lia. f_equal. lia. }
  rewrite HdQ. replace (nbuf self + (need + 8 * q))%nat with (8 * (last + q))%nat by lia.
  eexists. split; [done|]. exists (nd + (last + q))%nat.
  apply (holds_fill nd (last + q)); try done; [lia..|].
  rewrite length_app, length_fmap, !length_drop, length_app. lia.
Qed.

(** The word with the remaining bytes: what follows them is zeroed first. *)
Lemma tail_elem (P : list Z) rest p : bytes_ok P → length P = p → (p < 64)%nat → (length rest = 72 - p)%nat →
  (if negb (p mod 8 =? 0)%nat
   then let! buf := write_bytes ((Some <$> P) ++ rest) p (Some 0) (8 - 1) in buf_elem hst buf (p / 8)
   else Ret 0) = Ret (from_le_bytes (drop (8 * (p / 8)) P)).
Proof.
  intros Hb Hp Hs Hr. pose proof (Nat.div_mod_eq p 8) as Hdm. pose proof (Nat.mod_upper_bound p 8 ltac:(lia)) as Hm.
  destruct (Nat.eqb_spec (p mod 8) 0) as [E|E]; cbn [negb]; [by rewrite drop_ge by lia|].
  unfold write_bytes. change (8 - 1)%nat with 7%nat. rewrite <- (fmap_replicate Some 7 0), copy_append by (rewrite ?length_replicate; lia).
  cbn [obind]. rewrite buf_elem_written; [|apply Forall_app_2; [done|repeat constructor; lia]|
    rewrite length_app, length_take, length_replicate; lia].
  rewrite drop_app_le, take_app_ge by (rewrite ?length_drop; lia). rewrite from_le_bytes_app, take_take.
  rewrite take_replicate, from_le_bytes_zeros, Z.mul_0_r, Z.add_0_r. done.
Qed.

Lemma length_byte w n e : 8 ≤ w → 0 ≤ e < 2 ^ 56 →
  Z.lor (wshl 64 (Z.land (wrap w n) 0xff) 56) e = e + n mod 256 * 2 ^ 56.
Proof.
  intros Hw He. change 0xff with (2 ^ 8 - 1). rewrite land_ones_mod by lia.
  assert (wrap w n mod 2 ^ 8 = n mod 256) as ->.
  { unfold wrap. change 256 with (2 ^ 8). apply Z.mod_mod_divide.
    exists (2 ^ (w - 8)). rewrite <- Z.pow_add_r by lia. f_equal. lia. }
  pose proof (Z.mod_pos_bound n 256 ltac:(lia)). rewrite wshl_small by lia.
  rewrite wrap_small by (unfold is_uint; lia). by rewrite Z.lor_comm, lor_shifted by lia.
Qed.

Lemma finish_holds self msg : holds self msg → (1 ≤ usize_size hst)%nat →
  finish128 hst self = Ret (sip128 key0 key1 msg).
Proof.
  intros [nd H] Hus. pose proof H as [Hb Hd Hn Hs [rest Hr] Hl Hst Hp].
  assert (length rest = 72 - nbuf self)%nat as Hrest.
  { rewrite Hr, length_app, length_fmap, length_drop in Hl. lia. }
  assert (length (drop (8 * nd) msg) = nbuf self) as HP by (rewrite length_drop; lia).
  unfold finish128. change ELEM_SIZE with 8%nat. pose proof (Nat.div_mod_eq (nbuf self) 8) as Hdm.
  pose proof (Nat.mod_upper_bound (nbuf self) 8 ltac:(lia)) as Hm.
  set (last := (nbuf self / 8)%nat) in *. rewrite Hr at 1.
  rewrite process_buf_written by (lia || by apply Forall_drop). cbn [obind].
  change (8 * 0)%nat with 0%nat. rewrite drop_0, Hst, Hr. unfold last.
  rewrite tail_elem by (done || lia || by apply Forall_drop). cbn [obind]. fold last.
  rewrite drop_drop, Hp, wadd_wrap_nat by apply usize_bits_nonneg.
  assert (length msg / 8 = nd + last)%nat as Hdiv.
  { symmetry. apply (Nat.div_unique _ _ _ (nbuf self mod 8)); lia. }
  unfold sip128. rewrite Hdiv, <- Nat.mul_add_distr_l. f_equal. f_equal; [by rewrite absorb_words_add|].
  rewrite length_byte; [do 3 f_equal; lia|unfold usize_bits; lia|].
  assert (bytes_ok (drop (8 * (nd + last)) msg)) as Ht%from_le_bytes_range by (by apply Forall_drop).
  change (2 ^ 56) with (256 ^ 7). rewrite length_drop in Ht.
  assert (256 ^ Z.of_nat (length msg - 8 * (nd + last)) ≤ 256 ^ 7) by (apply Z.pow_le_mono_r; lia). lia.
Qed.
End hasher.
