(* ===== verification/StableHash.v ===== *)
(** Stable hashing: the trait [Hasher] of [library/core/src/hash/mod.rs] as a
    class, [StableHasher] and the implementations of [HashStable] of
    [rustc_data_structures/src/stable_hasher.rs], fingerprints
    ([fingerprint.rs]) and hashes ([hashes.rs]).  The implementations modelled
    here make no use of the hashing context, which is left out; references and
    boxes are their contents. *)

From S2P Require Import Prelude.
From S2P Require Import MemDecoder.
From S2P Require Import Opaque.
From S2P Require Import Abi.
From S2P Require Import Slice.
From S2P Require Import BitSets.
From S2P Require Import BitMatrices.
From S2P Require Import SipHash.
Import MemDecoder.

(** * [Hasher] *)

Class Hasher (H : Type) := {
  write : H → list Z → outcome H;
  write_str : H → list Z → outcome H;
  write_length_prefix : H → Z → outcome H;
  write_u8 : H → Z → outcome H;
  write_u16 : H → Z → outcome H;
  write_u32 : H → Z → outcome H;
  write_u64 : H → Z → outcome H;
  write_u128 : H → Z → outcome H;
  write_usize : H → Z → outcome H;
  write_i8 : H → Z → outcome H;
  write_i16 : H → Z → outcome H;
  write_i32 : H → Z → outcome H;
  write_i64 : H → Z → outcome H;
  write_i128 : H → Z → outcome H;
  write_isize : H → Z → outcome H;
}.

Definition sip_hasher (hst : Host) : Hasher SipHasher128.t := {|
  write := SipHasher128.write hst;
  write_str := SipHasher128.write_str hst;
  write_length_prefix := SipHasher128.write_length_prefix hst;
  write_u8 := SipHasher128.write_u8 hst;
  write_u16 := SipHasher128.write_u16 hst;
  write_u32 := SipHasher128.write_u32 hst;
  write_u64 := SipHasher128.write_u64 hst;
  write_u128 := SipHasher128.write_u128 hst;
  write_usize := SipHasher128.write_usize hst;
  write_i8 := SipHasher128.write_i8 hst;
  write_i16 := SipHasher128.write_i16 hst;
  write_i32 := SipHasher128.write_i32 hst;
  write_i64 := SipHasher128.write_i64 hst;
  write_i128 := SipHasher128.write_i128 hst;
  write_isize := SipHasher128.write_isize hst;
|}.

(** The primitive integer types *)
Inductive prim :=
  u8 | u16 | u32 | u64 | u128 | usize | i8 | i16 | i32 | i64 | i128 | isize.

Record num (p : prim) := Num { num_val : Z }.
Arguments Num {p} num_val.
Arguments num_val {p} n.

(** [hash] of [impl_write!]: the method for the type *)
Definition hash_num `{Hasher H} {p : prim} (n : num p) (state : H) : outcome H :=
  let i := num_val n in
  match p with
  | u8 => write_u8 state i | u16 => write_u16 state i | u32 => write_u32 state i
  | u64 => write_u64 state i | u128 => write_u128 state i | usize => write_usize state i
  | i8 => write_i8 state i | i16 => write_i16 state i | i32 => write_i32 state i
  | i64 => write_i64 state i | i128 => write_i128 state i | isize => write_isize state i
  end.

(** [<[u64] as Hash>::hash]: [hash_slice] writes the memory of the slice. *)
Definition hash_u64_slice `{Hasher H} (hst : Host) (data : list Z) (state : H) : outcome H :=
  let! state := write_length_prefix state (Z.of_nat (length data)) in
  write state (flat_map (to_ne_bytes hst 8) data).

(** * [StableHasher] *)

Module StableHasher.

Record t := mk { state : SipHasher128.t }.

Definition new : t := mk (SipHasher128.new_with_keys 0 0).

Section host.
Context (hst : Host).

(** [self.state.f(..)] *)
Definition on_state (f : SipHasher128.t → outcome SipHasher128.t) (self : t) : outcome t :=
  let! state := f (state self) in Ret (mk state).

Definition finalize (self : t) : outcome (Z * Z) := SipHasher128.finish128 hst (state self).

Definition short_write (self : t) (bytes : list Z) : outcome t :=
  on_state (λ s, SipHasher128.short_write hst s bytes) self.

Definition write (self : t) (bytes : list Z) : outcome t :=
  on_state (λ s, SipHasher128.write hst s bytes) self.
Definition write_str (self : t) (s : list Z) : outcome t :=
  on_state (λ st, SipHasher128.write_str hst st s) self.
Definition write_u8 (self : t) (i : Z) : outcome t :=
  on_state (λ s, SipHasher128.write_u8 hst s i) self.
Definition write_u16 (self : t) (i : Z) : outcome t := short_write self (to_le_bytes 2 i).
Definition write_u32 (self : t) (i : Z) : outcome t := short_write self (to_le_bytes 4 i).
Definition write_u64 (self : t) (i : Z) : outcome t := short_write self (to_le_bytes 8 i).
Definition write_u128 (self : t) (i : Z) : outcome t :=
  let! self := write_u64 self (wrap 64 i) in
  write_u64 self (wrap 64 (wshr 128 i 64)).
Definition write_usize (self : t) (i : Z) : outcome t := short_write self (to_le_bytes 8 (wrap 64 i)).
Definition write_length_prefix (self : t) (len : Z) : outcome t := write_usize self len.
Definition write_i8 (self : t) (i : Z) : outcome t :=
  on_state (λ s, SipHasher128.write_i8 hst s i) self.
Definition write_i16 (self : t) (i : Z) : outcome t := short_write self (to_le_bytes 2 (of_signed 16 i)).
Definition write_i32 (self : t) (i : Z) : outcome t := short_write self (to_le_bytes 4 (of_signed 32 i)).
Definition write_i64 (self : t) (i : Z) : outcome t := short_write self (to_le_bytes 8 (of_signed 64 i)).
Definition write_i128 (self : t) (i : Z) : outcome t :=
  on_state (λ s, SipHasher128.write hst s (to_le_bytes 16 (of_signed 128 i))) self.

(** The cold path of [write_isize] *)
Definition hash_value (self : t) (value : Z) : outcome t :=
  let! self := on_state (λ s, SipHasher128.write_u8 hst s 0xFF) self in
  short_write self (to_le_bytes 8 value).

Definition write_isize (self : t) (i : Z) : outcome t :=
  let value := of_signed 64 i in
  if value <? 0xFF
  then on_state (λ s, SipHasher128.write_u8 hst s (wrap 8 value)) self
  else hash_value self value.

Definition stable_hasher : Hasher t := {|
  StableHash.write := write;
  StableHash.write_str := write_str;
  StableHash.write_length_prefix := write_length_prefix;
  StableHash.write_u8 := write_u8;
  StableHash.write_u16 := write_u16;
  StableHash.write_u32 := write_u32;
  StableHash.write_u64 := write_u64;
  StableHash.write_u128 := write_u128;
  StableHash.write_usize := write_usize;
  StableHash.write_i8 := write_i8;
  StableHash.write_i16 := write_i16;
  StableHash.write_i32 := write_i32;
  StableHash.write_i64 := write_i64;
  StableHash.write_i128 := write_i128;
  StableHash.write_isize := write_isize;
|}.

End host.
End StableHasher.

(** * Results of hashing *)

Record Hash64 := mkHash64 { hash64_inner : Z }.
Record Hash128 := mkHash128 { hash128_inner : Z }.
Record Fingerprint := mkFingerprint { fp_0 : Z; fp_1 : Z }.

(** [StableHasherResult::finish] *)
Definition finish_hash64 (hst : Host) (hasher : StableHasher.t) : outcome Hash64 :=
  let! r := StableHasher.finalize hst hasher in Ret (mkHash64 r.1).
Definition finish_hash128 (hst : Host) (hasher : StableHasher.t) : outcome Hash128 :=
  let! (_0, _1) := StableHasher.finalize hst hasher in
  Ret (mkHash128 (Z.lor _0 (wshl 128 _1 64))).
Definition finish_fingerprint (hst : Host) (hasher : StableHasher.t) : outcome Fingerprint :=
  let! (_0, _1) := StableHasher.finalize hst hasher in Ret (mkFingerprint _0 _1).

Definition truncate (self : Hash128) : Hash64 := mkHash64 (wrap 64 (hash128_inner self)).
Definition wrapping_add (self other : Hash128) : Hash128 :=
  mkHash128 (wadd 128 (hash128_inner self) (hash128_inner other)).

(** * [HashStable] *)

Class HashStable (A : Type) := hash_stable : Host → A → StableHasher.t → outcome StableHasher.t.

(** [impl_stable_traits_for_trivial_type!]: [Hash::hash(self, hasher)] *)
#[global] Instance num_hash_stable p : HashStable (num p) := λ hst n hasher,
  hash_num (H0 := StableHasher.stable_hasher hst) n hasher.

#[global] Instance unit_hash_stable : HashStable unit := λ hst _ hasher, Ret hasher.

Definition hash_u8 (hst : Host) (i : Z) (hasher : StableHasher.t) : outcome StableHasher.t :=
  hash_stable hst (Num i : num u8) hasher.
(** [self.len().hash_stable(ctx, hasher)] *)
Definition hash_len (hst : Host) (len : nat) (hasher : StableHasher.t) : outcome StableHasher.t :=
  hash_stable hst (Num (Z.of_nat len) : num usize) hasher.

#[global] Instance hash64_hash_stable : HashStable Hash64 := λ hst h,
  hash_stable hst (Num (hash64_inner h) : num u64).
#[global] Instance hash128_hash_stable : HashStable Hash128 := λ hst h,
  hash_stable hst (Num (hash128_inner h) : num u128).
(** [write_fingerprint] of a hasher that is not [Unhasher] *)
#[global] Instance fingerprint_hash_stable : HashStable Fingerprint := λ hst f hasher,
  let! hasher := hash_stable hst (Num (fp_0 f) : num u64) hasher in
  hash_stable hst (Num (fp_1 f) : num u64) hasher.

Record char := Char { char_val : Z }.
#[global] Instance char_hash_stable : HashStable char := λ hst c,
  hash_stable hst (Num (char_val c) : num u32).

#[global] Instance bool_hash_stable : HashStable bool := λ hst b,
  hash_u8 hst (if b then 1 else 0).

(** [Ordering], as the [i8] of its variant *)
#[global] Instance comparison_hash_stable : HashStable comparison := λ hst c,
  hash_stable hst (Num (match c with Lt => -1 | Eq => 0 | Gt => 1 end) : num i8).

#[global] Instance pair_hash_stable {A B} `{HashStable A, HashStable B} : HashStable (A * B) :=
  λ hst p hasher,
  let! hasher := hash_stable hst p.1 hasher in
  hash_stable hst p.2 hasher.

#[global] Instance option_hash_stable {A} `{HashStable A} : HashStable (option A) :=
  λ hst o hasher,
  match o with
  | Some value => let! hasher := hash_u8 hst 1 hasher in hash_stable hst value hasher
  | None => hash_u8 hst 0 hasher
  end.

(** [mem::discriminant(self)] hashes as the [isize] it holds. *)
#[global] Instance result_hash_stable {A B} `{HashStable A, HashStable B} : HashStable (result A B) :=
  λ hst r hasher,
  let! hasher := hash_stable hst (Num (match r with Ok _ => 0 | Err _ => 1 end) : num isize) hasher in
  match r with
  | Ok x => hash_stable hst x hasher
  | Err x => hash_stable hst x hasher
  end.

(** [for item in self]: slices, vectors, index vectors, index sets and maps,
    and ordered sets and maps in the order of their iterators *)
#[global] Instance list_hash_stable {A} `{HashStable A} : HashStable (list A) :=
  λ hst l hasher,
  let! hasher := hash_len hst (length l) hasher in
  fold_outcome (λ hasher item, hash_stable hst item hasher) l hasher.

(** The specialised [[u8]], and [str] and [String] through their bytes *)
Record u8_slice := Bytes { slice_bytes : list Z }.
#[global] Instance u8_slice_hash_stable : HashStable u8_slice := λ hst s hasher,
  let! hasher := hash_len hst (length (slice_bytes s)) hasher in
  StableHasher.write hst hasher (slice_bytes s).

Record str := Str { as_bytes : list Z }.
#[global] Instance str_hash_stable : HashStable str := λ hst s,
  hash_stable hst (Bytes (as_bytes s)).

(** [BitSet] and [BitMatrix] derive [Hash]. *)
#[global] Instance bit_set_hash_stable : HashStable BitSet.t := λ hst s hasher,
  let! hasher := hash_stable hst (Num (BitSet.domain_size s) : num usize) hasher in
  hash_u64_slice (H0 := StableHasher.stable_hasher hst) hst (BitSet.words s) hasher.

#[global] Instance bit_matrix_hash_stable : HashStable BitMatrix.t := λ hst m hasher,
  let! hasher := hash_stable hst (Num (Z.of_nat (BitMatrix.num_rows m)) : num usize) hasher in
  let! hasher := hash_stable hst (Num (BitMatrix.num_columns m) : num usize) hasher in
  hash_u64_slice (H0 := StableHasher.stable_hasher hst) hst (BitMatrix.words m) hasher.

(** The hashes of the items, each from a fresh hasher *)
Fixpoint item_hashes {I} (hst : Host) (hash_function : StableHasher.t → I → outcome StableHasher.t)
    (collection : list I) : outcome (list Hash128) :=
  match collection with
  | [] => Ret []
  | value :: collection =>
      let! hasher := hash_function StableHasher.new value in
      let! hash := finish_hash128 hst hasher in
      let! hashes := item_hashes hst hash_function collection in
      Ret (hash :: hashes)
  end.

(** [iter.reduce(f)] *)
Definition reduce {A} (f : A → A → A) (l : list A) : option A :=
  match l with [] => None | x :: l => Some (fold_left f l x) end.

Definition stable_hash_reduce {I} (hst : Host) (hasher : StableHasher.t) (collection : list I)
    (length_ : nat) (hash_function : StableHasher.t → I → outcome StableHasher.t) :
    outcome StableHasher.t :=
  let! hasher := hash_len hst length_ hasher in
  if (length_ =? 1)%nat then
    let! item := unwrap (head collection) in
    hash_function hasher item
  else
    let! hashes := item_hashes hst hash_function collection in
    hash_stable hst (reduce wrapping_add hashes) hasher.

Class ToStableHashKey (K KeyType : Type) := to_stable_hash_key : K → KeyType.
#[global] Instance str_key : ToStableHashKey str str := λ s, s.
#[global] Instance pair_key {K1 K2 T1 T2} `{ToStableHashKey K1 T1, ToStableHashKey K2 T2} :
  ToStableHashKey (K1 * K2) (T1 * T2) := λ p, (to_stable_hash_key p.1, to_stable_hash_key p.2).

(** A hash map as its entries in the order of its iterator *)
Record HashMap (K V : Type) := Entries { entries : list (K * V) }.
Arguments Entries {K V} entries.
Arguments entries {K V} h.

Definition hash_entry {K KeyType V} `{ToStableHashKey K KeyType, HashStable KeyType, HashStable V}
    (hst : Host) (hasher : StableHasher.t) (entry : K * V) : outcome StableHasher.t :=
  let! hasher := hash_stable hst (to_stable_hash_key entry.1) hasher in
  hash_stable hst entry.2 hasher.

#[global] Instance hash_map_hash_stable {K KeyType V}
    `{ToStableHashKey K KeyType, HashStable KeyType, HashStable V} : HashStable (HashMap K V) :=
  λ hst m hasher,
  stable_hash_reduce hst hasher (entries m) (length (entries m)) (hash_entry hst).

(** * Fingerprints *)

Definition ZERO : Fingerprint := mkFingerprint 0 0.

Definition to_smaller_hash (self : Fingerprint) : Hash64 :=
  mkHash64 (wadd 64 (wmul 64 (fp_0 self) 3) (fp_1 self)).

Definition split (self : Fingerprint) : Hash64 * Hash64 := (mkHash64 (fp_0 self), mkHash64 (fp_1 self)).

Definition combine (self other : Fingerprint) : Fingerprint :=
  mkFingerprint (wadd 64 (wmul 64 (fp_0 self) 3) (fp_0 other))
                (wadd 64 (wmul 64 (fp_1 self) 3) (fp_1 other)).

Definition as_u128 (self : Fingerprint) : Z := Z.lor (wshl 128 (fp_1 self) 64) (fp_0 self).

Definition combine_commutative (self other : Fingerprint) : Fingerprint :=
  let a := Z.lor (wshl 128 (fp_1 self) 64) (fp_0 self) in
  let b := Z.lor (wshl 128 (fp_1 other) 64) (fp_0 other) in
  let c := wadd 128 a b in
  mkFingerprint (wrap 64 c) (wrap 64 (wshr 128 c 64)).

Definition fp_to_le_bytes (self : Fingerprint) : list Z :=
  to_le_bytes 8 (fp_0 self) ++ to_le_bytes 8 (fp_1 self).

Definition fp_from_le_bytes (bytes : list Z) : Fingerprint :=
  mkFingerprint (from_le_bytes (take 8 bytes)) (from_le_bytes (take 8 (drop 8 bytes))).

(** [Encodable] and [Decodable]: the bytes as they are *)
Definition encode_fingerprint `{Encoder T} (self : Fingerprint) (s : T) : outcome T :=
  emit_raw_bytes (fp_to_le_bytes self) s.
Definition decode_fingerprint : decoder Fingerprint := λ d,
  let! (bs, d) := read_array 16 d in Ret (fp_from_le_bytes bs, d).

Definition encode_hash64 `{Encoder T} (self : Hash64) (s : T) : outcome T :=
  emit_raw_bytes (to_le_bytes 8 (hash64_inner self)) s.
Definition decode_hash64 : decoder Hash64 := λ d,
  let! (bs, d) := read_array 8 d in Ret (mkHash64 (from_le_bytes bs), d).

Definition encode_hash128 `{Encoder T} (self : Hash128) (s : T) : outcome T :=
  emit_raw_bytes (to_le_bytes 16 (hash128_inner self)) s.
Definition decode_hash128 : decoder Hash128 := λ d,
  let! (bs, d) := read_array 16 d in Ret (mkHash128 (from_le_bytes bs), d).
