(* ===== verification/StableHashProps.v ===== *)
(** Properties of stable hashing: what a value feeds to the hasher depends only
    on the value, not on the host, and determines it if there is no hash map in it;
    the hash is that of SipHash on these bytes; the entries of a hash map may come
    in any order. *)

From S2P Require Import Prelude.
From S2P Require Import MemDecoder.
From S2P Require Import Abi.
From S2P Require Import FieldsProps.
From S2P Require Import Slice.
From S2P Require Import BitSets.
From S2P Require Import BitMatrices.
From S2P Require Import SipHash.
From S2P Require Import StableHash.
Import MemDecoder.

(** * Writing to a SipHash hasher *)

(** A call of a method of [Hasher] *)
Inductive hash_op :=
| OpWrite (bytes : list Z)
| OpStr (s : list Z)
| OpLen (len : Z)
| OpNum (p : prim) (i : Z).

Definition feed `{Hasher H} (state : H) (op : hash_op) : outcome H :=
  match op with
  | OpWrite bytes => write state bytes
  | OpStr s => write_str state s
  | OpLen len => write_length_prefix state len
  | OpNum p i => hash_num (Num i : num p) state
  end.

(** Bytes of a primitive type *)
Definition prim_size (hst : Host) (p : prim) : nat :=
  match p with
  | u8 | i8 => 1 | u16 | i16 => 2 | u32 | i32 => 4 | u64 | i64 => 8 | u128 | i128 => 16
  | usize | isize => usize_size hst
  end.

Definition op_bytes (hst : Host) (op : hash_op) : list Z :=
  match op with
  | OpWrite bytes => bytes
  | OpStr s => s ++ [0xff]
  | OpLen len => to_ne_bytes hst (usize_size hst) len
  | OpNum p i => to_ne_bytes hst (prim_size hst p) i
  end.

Definition op_ok (op : hash_op) : Prop :=
  match op with OpWrite bs | OpStr bs => bytes_ok bs | _ => True end.

Definition wf_host (hst : Host) : Prop := usize_size hst = 4%nat ∨ usize_size hst = 8%nat.

Lemma to_le_bytes_wrap n i : to_le_bytes n (wrap (8 * Z.of_nat n) i) = to_le_bytes n i.
Proof.
  pose proof (to_le_bytes_bytes n i) as Hb. apply to_from_le_bytes in Hb.
  rewrite length_to_le_bytes, from_to_le_bytes in Hb. exact Hb.
Qed.

Lemma to_ne_bytes_wrap hst n i : to_ne_bytes hst n (wrap (8 * Z.of_nat n) i) = to_ne_bytes hst n i.
Proof. unfold to_ne_bytes. by rewrite to_le_bytes_wrap. Qed.

(** [f] adds [bs] to the message. *)
Definition sip_appends (hst : Host) k0 k1 (f : SipHasher128.t → outcome SipHasher128.t) (bs : list Z) : Prop :=
  ∀ self msg, holds hst k0 k1 self msg → ∃ self', f self = Ret self' ∧ holds hst k0 k1 self' (msg ++ bs).

Lemma sip_appends_seq hst k0 k1 f g bs cs : sip_appends hst k0 k1 f bs → sip_appends hst k0 k1 g cs →
  sip_appends hst k0 k1 (λ s, let! s := f s in g s) (bs ++ cs).
Proof.
  intros Hf Hg self msg H. destruct (Hf _ _ H) as (s1 & E1 & H1). destruct (Hg _ _ H1) as (s2 & E2 & H2).
  exists s2. rewrite E1, app_assoc. done.
Qed.

Lemma sip_short hst k0 k1 bs : bytes_ok bs → (length bs ≤ 8)%nat →
  sip_appends hst k0 k1 (λ s, SipHasher128.short_write hst s bs) bs.
Proof. intros Hb Hl self msg H. by apply short_write_holds. Qed.

Lemma sip_slice hst k0 k1 bs : bytes_ok bs → sip_appends hst k0 k1 (λ s, SipHasher128.slice_write hst s bs) bs.
Proof. intros Hb self msg H. by apply slice_write_holds. Qed.

Lemma sip_short_ne hst k0 k1 n i : (n ≤ 8)%nat →
  sip_appends hst k0 k1 (λ s, SipHasher128.short_write hst s (to_ne_bytes hst n i)) (to_ne_bytes hst n i).
Proof. intros. apply sip_short; [auto with rust|by rewrite to_ne_bytes_length]. Qed.

Lemma sip_short_signed hst k0 k1 n i : (n ≤ 8)%nat →
  sip_appends hst k0 k1 (λ s, SipHasher128.short_write hst s (to_ne_bytes hst n (of_signed (8 * Z.of_nat n) i)))
    (to_ne_bytes hst n i).
Proof. intros. unfold of_signed. rewrite to_ne_bytes_wrap. by apply sip_short_ne. Qed.

Lemma sip_write_str hst k0 k1 s : bytes_ok s →
  sip_appends hst k0 k1 (λ st, SipHasher128.write_str hst st s) (s ++ [0xff]).
Proof.
  intros Hs. unfold SipHasher128.write_str. apply sip_appends_seq; [by apply sip_slice|].
  unfold SipHasher128.write_u8. rewrite to_ne_bytes_1. apply sip_short; [|cbn; lia]. repeat constructor; lia.
Qed.

Lemma feed_appends hst k0 k1 op : wf_host hst → op_ok op →
  sip_appends hst k0 k1 (λ s, feed (H0 := sip_hasher hst) s op) (op_bytes hst op).
Proof.
  intros Hh Hop. assert (usize_size hst ≤ 8)%nat as Hu by (destruct Hh; lia).
  destruct op as [bs|bs|len|[] i]; cbn [op_ok] in Hop; cbn -[to_ne_bytes of_signed].
  all: try (by apply sip_slice); try (by apply sip_write_str);
    try (apply sip_short_ne; cbn; lia); try (match goal with |- sip_appends ?h ?k0 ?k1 _ (to_ne_bytes _ ?n ?i) => apply (sip_short_signed h k0 k1 n i); cbn; lia end).
  - apply sip_slice. auto with rust.
  - unfold SipHasher128.write_i128, SipHasher128.write_u128, of_signed.
    rewrite (to_ne_bytes_wrap hst 16 i : to_ne_bytes hst 16 (wrap 128 i) = _). apply sip_slice. auto with rust.
Qed.

(** C26. However a message is cut into calls of the methods of [Hasher], the
    hasher returns, without leaving its buffer and without reading a byte that
    was not written, and its result is the SipHash of the bytes of all calls in
    their order. *)
Theorem sip_hasher_refines hst key0 key1 ops : wf_host hst → Forall op_ok ops →
  ∃ self, fold_outcome (feed (H0 := sip_hasher hst)) ops (SipHasher128.new_with_keys key0 key1) = Ret self ∧
    SipHasher128.finish128 hst self = Ret (sip128 key0 key1 (flat_map (op_bytes hst) ops)).
Proof.
  intros Hh Hops.
  assert (∀ self msg, holds hst key0 key1 self msg → ∃ self',
    fold_outcome (feed (H0 := sip_hasher hst)) ops self = Ret self' ∧
    holds hst key0 key1 self' (msg ++ flat_map (op_bytes hst) ops)) as Hrun.
  { induction Hops as [|op ops Hop _ IH]; intros self msg H.
    { exists self. by rewrite app_nil_r. }
    destruct (feed_appends hst key0 key1 op Hh Hop self msg H) as (s1 & E1 & H1).
    destruct (IH _ _ H1) as (s2 & E2 & H2). exists s2. cbn [fold_outcome flat_map]. by rewrite E1, app_assoc. }
  destruct (Hrun _ _ (holds_new hst key0 key1)) as (self & E & H). exists self. split; [done|].
  apply finish_holds; [done|]. destruct Hh; lia.
Qed.

Definition sample_host (e : Endian) (n : nat) : Host := mkHost e n.
Definition sample_ops : list hash_op :=
  [OpNum u8 7; OpStr [104; 105]; OpNum i64 (-2); OpWrite (Z.of_nat <$> seq 0 100); OpLen 3; OpNum u128 (2 ^ 70)].

Lemma sip_hasher_refines_witness :
  ∃ self, fold_outcome (feed (H0 := sip_hasher (sample_host Big 8))) sample_ops
      (SipHasher128.new_with_keys 1 2) = Ret self ∧
    SipHasher128.finish128 (sample_host Big 8) self
    = Ret (sip128 1 2 (flat_map (op_bytes (sample_host Big 8)) sample_ops)).
Proof.
  apply (sip_hasher_refines (sample_host Big 8) 1 2 sample_ops); [by right|].
  repeat constructor; cbn; try lia.
Defined.

(** * What a value feeds to the stable hasher *)

(** The hasher stands for the message [msg]. *)
Definition sholds (hst : Host) (h : StableHasher.t) (msg : list Z) : Prop :=
  holds hst 0 0 (StableHasher.state h) msg.

(** [f] adds [bs] to the message, on every host. *)
Definition feeds (f : Host → StableHasher.t → outcome StableHasher.t) (bs : list Z) : Prop :=
  ∀ hst h msg, wf_host hst → sholds hst h msg →
    ∃ h', f hst h = Ret h' ∧ sholds hst h' (msg ++ bs).

Lemma feeds_seq f g bs cs : feeds f bs → feeds g cs →
  feeds (λ hst h, let! h := f hst h in g hst h) (bs ++ cs).
Proof.
  intros Hf Hg hst h msg Hh H. destruct (Hf _ _ _ Hh H) as (h1 & E1 & H1).
  destruct (Hg _ _ _ Hh H1) as (h2 & E2 & H2). exists h2. rewrite E1, app_assoc. done.
Qed.

Lemma feeds_nil : feeds (λ _ h, Ret h) [].
Proof. intros hst h msg _ H. exists h. by rewrite app_nil_r. Qed.

Lemma feeds_on_state (f : Host → SipHasher128.t → outcome SipHasher128.t) bs :
  (∀ hst, wf_host hst → sip_appends hst 0 0 (f hst) bs) → feeds (λ hst, StableHasher.on_state (f hst)) bs.
Proof.
  intros Hf hst h msg Hh H. destruct (Hf hst Hh _ _ H) as (s & E & H'). exists (StableHasher.mk s).
  unfold StableHasher.on_state. by rewrite E.
Qed.

Lemma feeds_short_le n i : (n ≤ 8)%nat → feeds (λ hst h, StableHasher.short_write hst h (to_le_bytes n i)) (to_le_bytes n i).
Proof.
  intros Hn. apply (feeds_on_state (λ hst s, SipHasher128.short_write hst s (to_le_bytes n i))). intros hst _.
  apply sip_short; [apply to_le_bytes_bytes|by rewrite length_to_le_bytes].
Qed.

Lemma feeds_write bs : bytes_ok bs → feeds (λ hst h, StableHasher.write hst h bs) bs.
Proof. intros Hb. apply (feeds_on_state (λ hst s, SipHasher128.write hst s bs)). intros. by apply sip_slice. Qed.

Lemma feeds_byte i : feeds (λ hst, StableHasher.on_state (λ s, SipHasher128.write_u8 hst s i)) (to_le_bytes 1 i).
Proof.
  apply feeds_on_state. intros hst _. unfold SipHasher128.write_u8. rewrite to_ne_bytes_1.
  apply sip_short; [apply (to_le_bytes_bytes 1)|cbn; lia].
Qed.

(** The bytes of a number: little-endian, with 64 bits for [usize], and one
    byte for a small [isize] or a marker and eight bytes *)
Definition num_stream (p : prim) (i : Z) : list Z :=
  match p with
  | u8 | i8 => to_le_bytes 1 i | u16 | i16 => to_le_bytes 2 i | u32 | i32 => to_le_bytes 4 i
  | u64 | i64 | usize => to_le_bytes 8 i | u128 | i128 => to_le_bytes 16 i
  | isize => let value := of_signed 64 i in if value <? 0xFF then [value] else 0xFF :: to_le_bytes 8 value
  end.

Definition prim_ok (p : prim) (i : Z) : Prop :=
  match p with
  | u8 => is_uint 8 i | u16 => is_uint 16 i | u32 => is_uint 32 i
  | u64 | usize => is_uint 64 i | u128 => is_uint 128 i
  | i8 => - 2 ^ 7 ≤ i < 2 ^ 7 | i16 => - 2 ^ 15 ≤ i < 2 ^ 15 | i32 => - 2 ^ 31 ≤ i < 2 ^ 31
  | i64 | isize => - 2 ^ 63 ≤ i < 2 ^ 63 | i128 => - 2 ^ 127 ≤ i < 2 ^ 127
  end.

(** The promise of an implementation of [HashStable]: the bytes of a value, the
    same on every host *)
Class StableStream (A : Type) `{HashStable A} := {
  val_ok : A → Prop;
  stream : A → list Z;
  stream_fed a : val_ok a → feeds (λ hst, hash_stable hst a) (stream a);
}.

(** No stream is a prefix of the stream of another value. *)
Class PrefixFree (A : Type) `{StableStream A} :=
  prefix_free (a b : A) (x y : list Z) : val_ok a → val_ok b → stream a ++ x = stream b ++ y → a = b ∧ x = y.

Lemma to_le_bytes_app n m i : to_le_bytes (n + m) i = to_le_bytes n i ++ to_le_bytes m (i / 2 ^ (8 * Z.of_nat n)).
Proof.
  revert i. induction n as [|n IH]; intros i; cbn [Nat.add to_le_bytes app].
  { by rewrite Z.div_1_r. }
  rewrite IH. do 3 f_equal. rewrite Z.div_div by (try apply pow2_pos; lia).
  replace (8 * Z.of_nat (S n)) with (8 + 8 * Z.of_nat n) by lia. by rewrite Z.pow_add_r by lia.
Qed.

Lemma u128_halves i : is_uint 128 i →
  to_le_bytes 8 (wrap 64 i) ++ to_le_bytes 8 (wrap 64 (wshr 128 i 64)) = to_le_bytes 16 i.
Proof.
  intros Hi. rewrite (to_le_bytes_app 8 8 i : to_le_bytes 16 i = _).
  rewrite (to_le_bytes_wrap 8 i : to_le_bytes 8 (wrap 64 i) = _).
  unfold wshr. rewrite Z.mod_small, shiftr_div by lia.
  by rewrite (to_le_bytes_wrap 8 (i / 2 ^ 64) : to_le_bytes 8 (wrap 64 (i / 2 ^ 64)) = _).
Qed.

Lemma num_fed p i : prim_ok p i → feeds (λ hst, hash_stable hst (Num i : num p)) (num_stream p i).
Proof.
  intros Hi. unfold hash_stable, num_hash_stable, hash_num; destruct p; cbn -[to_le_bytes of_signed wrap Z.ltb] in *.
  all: try (apply feeds_short_le; lia).
  all: try (match goal with |- feeds _ (to_le_bytes ?n ?i) =>
    rewrite <- (to_le_bytes_wrap n i) at 1; apply feeds_short_le; lia end).
  - apply feeds_byte.
  - rewrite <- u128_halves by done. apply feeds_seq; apply feeds_short_le; lia.
  - rewrite <- (to_le_bytes_wrap 1 i). apply (feeds_byte (of_signed 8 i)).
  - rewrite <- (to_le_bytes_wrap 16 i). apply feeds_write, to_le_bytes_bytes.
  - unfold StableHasher.write_isize. set (v := of_signed 64 i).
    assert (is_uint 64 v) as Hv by (apply wrap_bounds; lia). destruct (Z.ltb_spec v 255) as [H|H].
    + assert (wrap 8 v = v) as -> by (apply wrap_small; unfold is_uint in *; lia).
      replace [v] with (to_le_bytes 1 v); [apply feeds_byte|]. cbn. rewrite Z.mod_small; [done|]. unfold is_uint in Hv. lia.
    + apply (feeds_seq (λ hst, StableHasher.on_state (λ s, SipHasher128.write_u8 hst s 255)) _ [255]);
        [apply (feeds_byte 255)|apply feeds_short_le; lia].
Qed.

#[global] Instance num_stable_stream p : StableStream (num p).
Proof.
  refine {| val_ok n := prim_ok p (num_val n); stream n := num_stream p (num_val n) |}.
  intros [i]. apply num_fed.
Defined.

(** ** Prefix-freedom *)

Lemma le_prefix_free n a b x y : to_le_bytes n a ++ x = to_le_bytes n b ++ y →
  wrap (8 * Z.of_nat n) a = wrap (8 * Z.of_nat n) b ∧ x = y.
Proof.
  intros [E ->]%app_inj_1; [|by rewrite !length_to_le_bytes]. split; [|done].
  unfold wrap. by rewrite <- !from_to_le_bytes, E.
Qed.

Lemma wrap_inj_unsigned w a b : is_uint w a → is_uint w b → wrap w a = wrap w b → a = b.
Proof. intros Ha Hb. by rewrite !wrap_small. Qed.

Lemma wrap_inj_signed w a b : 0 < w → - 2 ^ (w - 1) ≤ a < 2 ^ (w - 1) → - 2 ^ (w - 1) ≤ b < 2 ^ (w - 1) →
  wrap w a = wrap w b → a = b.
Proof.
  intros Hw Ha Hb E. rewrite <- (to_signed_of_signed w a), <- (to_signed_of_signed w b) by done.
  unfold of_signed. by rewrite E.
Qed.

Lemma isize_prefix_free a b x y : - 2 ^ 63 ≤ a < 2 ^ 63 → - 2 ^ 63 ≤ b < 2 ^ 63 →
  num_stream isize a ++ x = num_stream isize b ++ y → a = b ∧ x = y.
Proof.
  intros Ha Hb. cbn -[to_le_bytes of_signed Z.ltb].
  assert (∀ z, - 2 ^ 63 ≤ z < 2 ^ 63 → to_signed 64 (of_signed 64 z) = z) as Hinv.
  { intros z Hz. by apply to_signed_of_signed. }
  destruct (Z.ltb_spec (of_signed 64 a) 255), (Z.ltb_spec (of_signed 64 b) 255); intros E; cbn -[to_le_bytes of_signed] in E.
  - injection E as E ->. split; [|done]. rewrite <- (Hinv a), <- (Hinv b) by done. by rewrite E.
  - injection E as E _. lia.
  - injection E as E _. lia.
  - apply (f_equal tail) in E. apply (le_prefix_free 8) in E as [E ->]. split; [|done]. rewrite <- (Hinv a), <- (Hinv b) by done.
    unfold of_signed in *. change (8 * Z.of_nat 8) with 64 in E. 
    rewrite (wrap_small 64 (wrap 64 a)), (wrap_small 64 (wrap 64 b)) in E by (apply wrap_bounds; lia). by rewrite E.
Qed.

#[global] Instance num_prefix_free p : PrefixFree (num p).
Proof.
  intros [a] [b] x y Ha Hb E. cbn [stream val_ok num_stable_stream num_val] in *.
  assert (a = b ∧ x = y) as [-> ->]; [|done].
  destruct p; cbn [num_stream prim_ok] in *; try (by apply isize_prefix_free);
    apply le_prefix_free in E as [E ->]; (split; [|done]); revert E.
  all: first [by apply wrap_inj_unsigned|by apply wrap_inj_signed].
Qed.

(** ** The other types *)

#[global] Instance unit_stable_stream : StableStream unit.
Proof. refine {| val_ok _ := True; stream _ := [] |}. intros a _. apply feeds_nil. Defined.
#[global] Instance unit_prefix_free : PrefixFree unit.
Proof. by intros [] [] x y _ _ E. Qed.

#[global] Instance hash64_stable_stream : StableStream Hash64.
Proof.
  refine {| val_ok h := is_uint 64 (hash64_inner h); stream h := num_stream u64 (hash64_inner h) |}.
  intros h. apply (num_fed u64).
Defined.
#[global] Instance hash64_prefix_free : PrefixFree Hash64.
Proof. intros [a] [b] x y Ha Hb E. pose proof (prefix_free (Num a : num u64) (Num b) x y Ha Hb E) as [E' ->]. by simplify_eq. Qed.

#[global] Instance hash128_stable_stream : StableStream Hash128.
Proof.
  refine {| val_ok h := is_uint 128 (hash128_inner h); stream h := num_stream u128 (hash128_inner h) |}.
  intros h. apply (num_fed u128).
Defined.
#[global] Instance hash128_prefix_free : PrefixFree Hash128.
Proof. intros [a] [b] x y Ha Hb E. pose proof (prefix_free (Num a : num u128) (Num b) x y Ha Hb E) as [E' ->]. by simplify_eq. Qed.

#[global] Instance char_stable_stream : StableStream char.
Proof.
  refine {| val_ok c := is_uint 32 (char_val c); stream c := num_stream u32 (char_val c) |}.
  intros h. apply (num_fed u32).
Defined.
#[global] Instance char_prefix_free : PrefixFree char.
Proof. intros [a] [b] x y Ha Hb E. pose proof (prefix_free (Num a : num u32) (Num b) x y Ha Hb E) as [E' ->]. by simplify_eq. Qed.

#[global] Instance bool_stable_stream : StableStream bool.
Proof.
  refine {| val_ok _ := True; stream (b : bool) := [if b then 1 else 0] |}.
  intros b _. destruct b; [apply (num_fed u8 1)|apply (num_fed u8 0)]; done.
Defined.
#[global] Instance bool_prefix_free : PrefixFree bool.
Proof. intros [] [] x y _ _ E; cbn in E; try discriminate E; by injection E as ->. Qed.

#[global] Instance comparison_stable_stream : StableStream comparison.
Proof.
  refine {| val_ok _ := True; stream (c : comparison) := [match c with Lt => 255 | Eq => 0 | Gt => 1 end] |}.
  intros c _. destruct c; [apply (num_fed i8 0)|apply (num_fed i8 (-1))|apply (num_fed i8 1)]; done.
Defined.
#[global] Instance comparison_prefix_free : PrefixFree comparison.
Proof. intros [] [] x y _ _ E; cbn in E; try discriminate E; by injection E as ->. Qed.

Section compound.
Context {A B} `{StableStream A, StableStream B}.

#[global] Instance pair_stable_stream : StableStream (A * B).
Proof.
  refine {| val_ok (p : A * B) := val_ok p.1 ∧ val_ok p.2; stream (p : A * B) := stream p.1 ++ stream p.2 |}.
  intros [a b] [Ha Hb]. apply feeds_seq; by apply stream_fed.
Defined.
#[global] Instance pair_prefix_free : PrefixFree A → PrefixFree B → PrefixFree (A * B).
Proof.
  intros PA PB [a1 b1] [a2 b2] x y [Ha1 Hb1] [Ha2 Hb2] E. cbn [stream pair_stable_stream fst snd] in *.
  rewrite <- !app_assoc in E. apply prefix_free in E as [-> E]; [|done..].
  apply prefix_free in E as [-> ->]; done.
Qed.

#[global] Instance option_stable_stream : StableStream (option A).
Proof.
  refine {| val_ok (o : option A) := from_option val_ok True o;
            stream (o : option A) := match o with Some a => [1] ++ stream a | None => [0] end |}.
  intros [a|] Ha; [apply (feeds_seq (λ hst, hash_u8 hst 1)); [apply (num_fed u8 1); done|by apply stream_fed]|].
  apply (num_fed u8 0); done.
Defined.
#[global] Instance option_prefix_free : PrefixFree A → PrefixFree (option A).
Proof.
  intros PA [a|] [b|] x y Ha Hb E; cbn in *; try discriminate E; injection E as E.
  - by apply prefix_free in E as [-> ->].
  - by subst.
Qed.

#[global] Instance result_stable_stream : StableStream (result A B).
Proof.
  refine {| val_ok (r : result A B) := match r with Ok a => val_ok a | Err b => val_ok b end;
            stream (r : result A B) := match r with Ok a => [0] ++ stream a | Err b => [1] ++ stream b end |}.
  intros [a|b] Hr.
  - apply (feeds_seq (λ hst, hash_stable hst (Num 0 : num isize)) (λ hst, hash_stable hst a));
      [apply (num_fed isize 0); done|by apply stream_fed].
  - apply (feeds_seq (λ hst, hash_stable hst (Num 1 : num isize)) (λ hst, hash_stable hst b));
      [apply (num_fed isize 1); done|by apply stream_fed].
Defined.
#[global] Instance result_prefix_free : PrefixFree A → PrefixFree B → PrefixFree (result A B).
Proof.
  intros PA PB [a|a] [b|b] x y Ha Hb E; cbn in *; try discriminate E; injection E as E;
    by apply prefix_free in E as [-> ->].
Qed.

(** Lengths fit in a [usize] of 64 bits. *)
Definition len_ok (n : nat) : Prop := is_uint 64 (Z.of_nat n).

Lemma len_fed n : len_ok n → feeds (λ hst, hash_len hst n) (to_le_bytes 8 (Z.of_nat n)).
Proof. apply (num_fed usize). Qed.

Lemma len_prefix_free n m x y : len_ok n → len_ok m →
  to_le_bytes 8 (Z.of_nat n) ++ x = to_le_bytes 8 (Z.of_nat m) ++ y → n = m ∧ x = y.
Proof.
  intros Hn Hm [E ->]%le_prefix_free. split; [|done]. apply wrap_inj_unsigned in E; [lia|done..].
Qed.

#[global] Instance list_stable_stream : StableStream (list A).
Proof.
  refine {| val_ok (l : list A) := len_ok (length l) ∧ Forall val_ok l;
            stream (l : list A) := to_le_bytes 8 (Z.of_nat (length l)) ++ flat_map stream l |}.
  intros l [Hl Hf]. apply (feeds_seq (λ hst, hash_len hst (length l))); [by apply len_fed|].
  clear Hl. induction Hf as [|a l Ha _ IH]; cbn [flat_map fold_outcome]; [apply feeds_nil|].
  apply (feeds_seq (λ hst, hash_stable hst a)); [by apply stream_fed|done].
Defined.
#[global] Instance list_prefix_free : PrefixFree A → PrefixFree (list A).
Proof.
  intros PA l k x y [Hl Hfl] [Hk Hfk] E. cbn [stream list_stable_stream] in E. rewrite <- !app_assoc in E.
  apply len_prefix_free in E as [El E]; [|done..]. clear Hl Hk. revert k El Hfk E.
  induction Hfl as [|a l Ha _ IH]; intros [|b k] El Hfk E; try done.
  apply Forall_cons_1 in Hfk as [Hb Hfk]. cbn [flat_map] in E. rewrite <- !app_assoc in E.
  apply prefix_free in E as [-> E]; [|done..]. injection El as El. by destruct (IH k El Hfk E) as [-> ->].
Qed.
End compound.

#[global] Instance u8_slice_stable_stream : StableStream u8_slice.
Proof.
  refine {| val_ok s := len_ok (length (slice_bytes s)) ∧ bytes_ok (slice_bytes s);
            stream s := to_le_bytes 8 (Z.of_nat (length (slice_bytes s))) ++ slice_bytes s |}.
  intros [s] [Hl Hf]. apply (feeds_seq (λ hst, hash_len hst (length s))); [by apply len_fed|by apply feeds_write].
Defined.
#[global] Instance u8_slice_prefix_free : PrefixFree u8_slice.
Proof.
  intros [s] [t] x y [Hs _] [Ht _] E. cbn [stream u8_slice_stable_stream slice_bytes] in *. rewrite <- !app_assoc in E.
  apply len_prefix_free in E as [El E]; [|done..]. by apply app_inj_1 in E as [-> ->].
Qed.

#[global] Instance str_stable_stream : StableStream str.
Proof.
  refine {| val_ok s := val_ok (Bytes (as_bytes s)); stream s := stream (Bytes (as_bytes s)) |}.
  intros s. apply (stream_fed (Bytes (as_bytes s))).
Defined.
#[global] Instance str_prefix_free : PrefixFree str.
Proof. intros [s] [t] x y Hs Ht E. pose proof (prefix_free (Bytes s) (Bytes t) x y Hs Ht E) as [E' ->]. by simplify_eq. Qed.

#[global] Instance fingerprint_stable_stream : StableStream Fingerprint.
Proof.
  refine {| val_ok f := is_uint 64 (fp_0 f) ∧ is_uint 64 (fp_1 f); stream f := fp_to_le_bytes f |}.
  intros [a b] [Ha Hb]. apply (feeds_seq (λ hst, hash_stable hst (Num a : num u64))); [by apply (num_fed u64 a)|by apply (num_fed u64 b)].
Defined.
#[global] Instance fingerprint_prefix_free : PrefixFree Fingerprint.
Proof.
  intros [a b] [c d] x y Ha Hb E.
  pose proof (prefix_free (Num a : num u64, Num b : num u64) (Num c, Num d) x y Ha Hb E) as [E' ->]. by simplify_eq.
Qed.

(** ** Hash maps *)

(** What [finish_hash128] gives for a message *)
Definition hash128_of (msg : list Z) : Hash128 :=
  let '(_0, _1) := sip128 0 0 msg in mkHash128 (Z.lor _0 (wshl 128 _1 64)).

Lemma finalize_sholds hst h msg : wf_host hst → sholds hst h msg →
  StableHasher.finalize hst h = Ret (sip128 0 0 msg).
Proof. intros Hh H. apply finish_holds; [done|]. destruct Hh; lia. Qed.

Lemma sholds_new hst : sholds hst StableHasher.new [].
Proof. apply holds_new. Qed.

Lemma item_hashes_of {I} hst (f : Host → StableHasher.t → I → outcome StableHasher.t) (str : I → list Z) l :
  wf_host hst → Forall (λ i, feeds (λ hst h, f hst h i) (str i)) l →
  item_hashes hst (f hst) l = Ret (hash128_of ∘ str <$> l).
Proof.
  intros Hh. induction 1 as [|i l Hi _ IH]; cbn [item_hashes]; [done|].
  destruct (Hi hst _ _ Hh (sholds_new hst)) as (h & -> & H). cbn [obind]. unfold finish_hash128.
  rewrite (finalize_sholds _ _ _ Hh H), IH. cbn [app]. rewrite fmap_cons. unfold compose at 2, hash128_of at 2.
  by destruct (sip128 0 0 (str i)).
Qed.

(** The sum of the hashes, which is what [reduce] computes *)
Definition sum128 (l : list Hash128) : Hash128 :=
  mkHash128 (wrap 128 (foldr (λ h, Z.add (hash128_inner h)) 0 l)).

Lemma fold_wrapping_add l x : is_uint 128 (hash128_inner x) →
  fold_left wrapping_add l x = sum128 (x :: l).
Proof.
  revert x. induction l as [|y l IH]; intros [x] Hx; cbn [fold_left].
  - unfold sum128. cbn in *. by rewrite Z.add_0_r, wrap_small.
  - rewrite IH by (apply wrap_bounds; lia). unfold sum128. cbn [foldr wrapping_add hash128_inner]. f_equal.
    unfold wadd. rewrite wrap_idemp_add by lia. f_equal. cbn. lia.
Qed.

Lemma fold_wrapping_add2 l x y : fold_left wrapping_add (y :: l) x = sum128 (x :: y :: l).
Proof.
  cbn [fold_left]. rewrite fold_wrapping_add by (apply wrap_bounds; lia). unfold sum128.
  cbn [foldr wrapping_add hash128_inner]. f_equal. unfold wadd. rewrite wrap_idemp_add by lia. f_equal. cbn. lia.
Qed.

Lemma sum128_perm l k : l ≡ₚ k → sum128 l = sum128 k.
Proof.
  intros Hp. unfold sum128. do 2 f_equal. induction Hp; cbn [foldr]; lia.
Qed.

Lemma reduce_perm l k : l ≡ₚ k → reduce wrapping_add l = reduce wrapping_add k.
Proof.
  intros Hp. destruct l as [|x [|y l]].
  - apply Permutation_nil_l in Hp. by subst.
  - apply Permutation_singleton_l in Hp. by subst.
  - pose proof (Permutation_length Hp) as Hl. destruct k as [|x' [|y' k]]; try done.
    cbn [reduce]. rewrite !fold_wrapping_add2. by rewrite (sum128_perm _ _ Hp).
Qed.

(** Outcomes that hold the same items in some order *)
Definition outcome_perm {A} (o1 o2 : outcome (list A)) : Prop :=
  match o1, o2 with Ret l1, Ret l2 => l1 ≡ₚ l2 | Panic, Panic => True | _, _ => False end.

Lemma item_hashes_perm {I} hst (f : StableHasher.t → I → outcome StableHasher.t) l k :
  l ≡ₚ k → outcome_perm (item_hashes hst f l) (item_hashes hst f k).
Proof.
  induction 1 as [|x l k _ IH|x y l|l1 l2 l3 _ IH1 _ IH2]; cbn [item_hashes].
  - apply perm_nil.
  - destruct (f _ x) as [h|]; [|done]. cbn [obind]. destruct (finish_hash128 hst h); [|done]. cbn [obind].
    destruct (item_hashes hst f l), (item_hashes hst f k); try done. cbn in *. by constructor.
  - destruct (f _ x) as [h|]; destruct (f _ y) as [h'|]; cbn [obind]; try done.
    all: try destruct (finish_hash128 hst h); try destruct (finish_hash128 hst h'); cbn [obind]; try done.
    all: destruct (item_hashes hst f l); cbn; try done. apply perm_swap.
  - destruct (item_hashes hst f l1), (item_hashes hst f l2), (item_hashes hst f l3); cbn in *; try done. by etrans.
Qed.

(** The stable hash of a hash map does not depend on the order in which its
    iterator yields the entries: any two orders leave the hasher in the same
    state, or both panic. *)
Theorem hash_map_order_independent {K T V} `{ToStableHashKey K T, HashStable T, HashStable V}
    hst (m1 m2 : HashMap K V) hasher : entries m1 ≡ₚ entries m2 →
  hash_stable hst m1 hasher = hash_stable hst m2 hasher.
Proof.
  intros Hp. unfold hash_stable, hash_map_hash_stable, stable_hash_reduce. rewrite <- (Permutation_length Hp).
  destruct (hash_len hst _ hasher) as [h|]; [|done]. cbn [obind].
  destruct (Nat.eqb_spec (length (entries m1)) 1) as [E|_].
  - destruct (entries m1) as [|e [|]]; try done. apply Permutation_singleton_l in Hp. by rewrite Hp.
  - pose proof (item_hashes_perm hst (hash_entry hst) _ _ Hp) as HP.
    destruct (item_hashes hst _ (entries m1)), (item_hashes hst _ (entries m2)); try done.
    cbn [obind outcome_perm] in *. by rewrite (reduce_perm _ _ HP).
Qed.

Definition order_entry (e : Z * option Z) : str * option (num u32) :=
  (Str [e.1], match e.2 with Some v => Some (Num v) | None => None end).
Definition order_sample (l : list (Z * option Z)) : HashMap str (option (num u32)) :=
  Entries (map order_entry l).

Lemma hash_map_order_independent_witness :
  hash_stable (sample_host Little 8) (order_sample [(1, Some 2); (3, None); (5, Some 8)]) StableHasher.new
  = hash_stable (sample_host Little 8) (order_sample [(5, Some 8); (1, Some 2); (3, None)]) StableHasher.new.
Proof.
  apply (hash_map_order_independent (sample_host Little 8)). unfold order_sample. cbn [entries].
  apply Permutation_map. apply (Permutation_app_comm [(1, Some 2); (3, None)] [(5, Some 8)]).
Defined.

Section hash_map.
Context {K T V} `{ToStableHashKey K T, StableStream T, StableStream V}.

Definition entry_stream (e : K * V) : list Z := stream (to_stable_hash_key e.1) ++ stream e.2.

Lemma entry_fed e : val_ok (to_stable_hash_key e.1) → val_ok e.2 →
  feeds (λ hst h, hash_entry hst h e) (entry_stream e).
Proof. intros Hk Hv. unfold hash_entry. apply feeds_seq; by apply stream_fed. Qed.

Definition map_stream (m : HashMap K V) : list Z :=
  to_le_bytes 8 (Z.of_nat (length (entries m))) ++
  match entries m with
  | [e] => entry_stream e
  | l => stream (reduce wrapping_add (hash128_of ∘ entry_stream <$> l))
  end.

Lemma reduce_ok (l : list Hash128) : length l ≠ 1%nat → val_ok (reduce wrapping_add l).
Proof.
  destruct l as [|x [|y l]]; intros Hl; [done|done|]. cbn [reduce]. rewrite fold_wrapping_add2.
  apply wrap_bounds. lia.
Qed.

#[global] Instance hash_map_stable_stream : StableStream (HashMap K V).
Proof.
  refine {| val_ok (m : HashMap K V) := len_ok (length (entries m)) ∧
              Forall (λ e : K * V, val_ok (to_stable_hash_key e.1) ∧ val_ok e.2) (entries m);
            stream (m : HashMap K V) := map_stream m |}.
  intros [l] [Hl Hf]. unfold map_stream, hash_stable, hash_map_hash_stable, stable_hash_reduce. cbn [entries] in *.
  apply (feeds_seq (λ hst, hash_len hst (length l))); [by apply len_fed|].
  assert (Forall (λ e, feeds (λ hst h, hash_entry hst h e) (entry_stream e)) l) as Hfe.
  { revert Hf. apply Forall_impl. intros e [? ?]. by apply entry_fed. }
  destruct (Nat.eqb_spec (length l) 1) as [E|E].
  - destruct l as [|e [|]]; try done. by apply Forall_cons_1 in Hfe as [? _].
  - intros hst h msg Hh Hm. rewrite (item_hashes_of hst hash_entry entry_stream l Hh Hfe). cbn [obind].
    destruct (stream_fed (reduce wrapping_add (hash128_of ∘ entry_stream <$> l))
      ltac:(apply reduce_ok; by rewrite length_fmap) hst h msg Hh Hm) as (h' & E' & H').
    exists h'. split; [exact E'|]. destruct l as [|e [|e' l]]; done.
Defined.
End hash_map.

(** * The properties *)

(** The hash of a value, from a fresh hasher *)
Definition stable_hash {A} `{HashStable A} (hst : Host) (a : A) : outcome (Z * Z) :=
  let! hasher := hash_stable hst a StableHasher.new in StableHasher.finalize hst hasher.

Lemma stable_hash_stream {A} `{StableStream A} hst (a : A) : wf_host hst → val_ok a →
  stable_hash hst a = Ret (sip128 0 0 (stream a)).
Proof.
  intros Hh Ha. unfold stable_hash. destruct (stream_fed a Ha hst _ _ Hh (sholds_new hst)) as (h & -> & Hs).
  by apply finalize_sholds.
Qed.

(** ** The types that hash alike everywhere *)

(** Keys of hash maps *)
Inductive key_ty := KStr | KPair (a b : key_ty).

(** The types modelled here that implement [HashStable], but for [BitSet] and
    [BitMatrix] *)
Inductive stable_ty :=
| TNum (p : prim) | TUnit | TBool | TChar | TOrdering | THash64 | THash128 | TFingerprint | TBytes | TStr
| TPair (a b : stable_ty) | TOption (a : stable_ty) | TResult (a b : stable_ty) | TList (a : stable_ty)
| TMap (k : key_ty) (v : stable_ty).

Fixpoint key_type (k : key_ty) : Type :=
  match k with KStr => str | KPair a b => (key_type a * key_type b)%type end.
Fixpoint value_type (t : stable_ty) : Type :=
  match t with
  | TNum p => num p | TUnit => unit | TBool => bool | TChar => char | TOrdering => comparison
  | THash64 => Hash64 | THash128 => Hash128 | TFingerprint => Fingerprint | TBytes => u8_slice | TStr => str
  | TPair a b => (value_type a * value_type b)%type
  | TOption a => option (value_type a)
  | TResult a b => result (value_type a) (value_type b)
  | TList a => list (value_type a)
  | TMap k v => HashMap (key_type k) (value_type v)
  end.

(** Their implementations of [ToStableHashKey] and [HashStable] *)
Fixpoint key_to_key (k : key_ty) : ToStableHashKey (key_type k) (key_type k) :=
  match k with
  | KStr => str_key
  | KPair a b => pair_key (H := key_to_key a) (H0 := key_to_key b)
  end.
Fixpoint key_hash (k : key_ty) : HashStable (key_type k) :=
  match k with
  | KStr => str_hash_stable
  | KPair a b => pair_hash_stable (H := key_hash a) (H0 := key_hash b)
  end.
Fixpoint value_hash (t : stable_ty) : HashStable (value_type t) :=
  match t with
  | TNum p => num_hash_stable p | TUnit => unit_hash_stable | TBool => bool_hash_stable
  | TChar => char_hash_stable | TOrdering => comparison_hash_stable
  | THash64 => hash64_hash_stable | THash128 => hash128_hash_stable
  | TFingerprint => fingerprint_hash_stable | TBytes => u8_slice_hash_stable | TStr => str_hash_stable
  | TPair a b => pair_hash_stable (H := value_hash a) (H0 := value_hash b)
  | TOption a => option_hash_stable (H := value_hash a)
  | TResult a b => result_hash_stable (H := value_hash a) (H0 := value_hash b)
  | TList a => list_hash_stable (H := value_hash a)
  | TMap k v => hash_map_hash_stable (H := key_to_key k) (H0 := key_hash k) (H1 := value_hash v)
  end.

(** Numbers in the range of their types, lengths that fit 64 bits *)
Definition bytes_valid (bs : list Z) : Prop := len_ok (length bs) ∧ bytes_ok bs.
Fixpoint key_ok (k : key_ty) : key_type k → Prop :=
  match k with
  | KStr => λ s, bytes_valid (as_bytes s)
  | KPair a b => λ p, key_ok a p.1 ∧ key_ok b p.2
  end.
Fixpoint value_ok (t : stable_ty) : value_type t → Prop :=
  match t with
  | TNum p => λ n, prim_ok p (num_val n)
  | TUnit | TBool | TOrdering => λ _, True
  | TChar => λ c, is_uint 32 (char_val c)
  | THash64 => λ h, is_uint 64 (hash64_inner h)
  | THash128 => λ h, is_uint 128 (hash128_inner h)
  | TFingerprint => λ f, is_uint 64 (fp_0 f) ∧ is_uint 64 (fp_1 f)
  | TBytes => λ s, bytes_valid (slice_bytes s)
  | TStr => λ s, bytes_valid (as_bytes s)
  | TPair a b => λ p, value_ok a p.1 ∧ value_ok b p.2
  | TOption a => λ o, from_option (value_ok a) True o
  | TResult a b => λ r, match r with Ok x => value_ok a x | Err x => value_ok b x end
  | TList a => λ l, len_ok (length l) ∧ Forall (value_ok a) l
  | TMap k v => λ m, len_ok (length (entries m)) ∧
                     Forall (λ e, key_ok k e.1 ∧ value_ok v e.2) (entries m)
  end.

(** The bytes a value is hashed as.  Lengths are eight bytes; a map of one entry
    is hashed as the entry, another one as the sum of the hashes of its entries. *)
Definition len_bytes (n : nat) : list Z := to_le_bytes 8 (Z.of_nat n).
Fixpoint key_bytes (k : key_ty) : key_type k → list Z :=
  match k with
  | KStr => λ s, len_bytes (length (as_bytes s)) ++ as_bytes s
  | KPair a b => λ p, key_bytes a p.1 ++ key_bytes b p.2
  end.
Fixpoint value_bytes (t : stable_ty) : value_type t → list Z :=
  match t with
  | TNum p => λ n, num_stream p (num_val n)
  | TUnit => λ _, []
  | TBool => λ b, [if b : bool then 1 else 0]
  | TChar => λ c, to_le_bytes 4 (char_val c)
  | TOrdering => λ c, [match c with Lt => 255 | Eq => 0 | Gt => 1 end]
  | THash64 => λ h, to_le_bytes 8 (hash64_inner h)
  | THash128 => λ h, to_le_bytes 16 (hash128_inner h)
  | TFingerprint => λ f, to_le_bytes 8 (fp_0 f) ++ to_le_bytes 8 (fp_1 f)
  | TBytes => λ s, len_bytes (length (slice_bytes s)) ++ slice_bytes s
  | TStr => λ s, len_bytes (length (as_bytes s)) ++ as_bytes s
  | TPair a b => λ p, value_bytes a p.1 ++ value_bytes b p.2
  | TOption a => λ o, match o with Some x => [1] ++ value_bytes a x | None => [0] end
  | TResult a b => λ r, match r with Ok x => [0] ++ value_bytes a x | Err x => [1] ++ value_bytes b x end
  | TList a => λ l, len_bytes (length l) ++ flat_map (value_bytes a) l
  | TMap k v => λ m,
      let entry e := key_bytes k e.1 ++ value_bytes v e.2 in
      len_bytes (length (entries m)) ++
      match entries m with
      | [e] => entry e
      | l => match reduce wrapping_add (hash128_of ∘ entry <$> l) with
             | Some h => [1] ++ to_le_bytes 16 (hash128_inner h)
             | None => [0]
             end
      end
  end.

(** Every implementation feeds these bytes. *)
Definition stream_of {A} (h : HashStable A) (ok : A → Prop) (bytes : A → list Z)
  (fed : ∀ a, ok a → feeds (λ hst, h hst a) (bytes a)) : @StableStream A h :=
  @Build_StableStream A h ok bytes fed.

Lemma key_to_key_id k x : @to_stable_hash_key _ _ (key_to_key k) x = x.
Proof.
  induction k as [|a IHa b IHb]; [done|]. destruct x as [x y].
  change ((@to_stable_hash_key _ _ (key_to_key a) x, @to_stable_hash_key _ _ (key_to_key b) y) = (x, y)).
  by rewrite IHa, IHb.
Qed.

Lemma key_fed k x : key_ok k x → feeds (λ hst, key_hash k hst x) (key_bytes k x).
Proof.
  induction k as [|a IHa b IHb]; [exact (@stream_fed _ _ str_stable_stream x)|].
  exact (@stream_fed _ _ (@pair_stable_stream _ _ _ (stream_of _ _ _ IHa) _ (stream_of _ _ _ IHb)) x).
Qed.

Lemma map_fed k a m : (∀ v, value_ok a v → feeds (λ hst, value_hash a hst v) (value_bytes a v)) →
  value_ok (TMap k a) m → feeds (λ hst, value_hash (TMap k a) hst m) (value_bytes (TMap k a) m).
Proof.
  intros IHa [Hl Hf].
  pose proof (@stream_fed _ _ (@hash_map_stable_stream _ _ _ (key_to_key k) _ (stream_of _ _ _ (key_fed k))
                _ (stream_of _ _ _ IHa)) m) as Hs.
  replace (value_bytes (TMap k a) m) with
    (@stream _ _ (@hash_map_stable_stream _ _ _ (key_to_key k) _ (stream_of _ _ _ (key_fed k))
       _ (stream_of _ _ _ IHa)) m).
  - apply Hs. split; [done|]. revert Hf. apply Forall_impl. intros e He. cbn. by rewrite key_to_key_id.
  - destruct m as [l]. cbn [stream hash_map_stable_stream value_bytes entries]. unfold map_stream. cbn [entries].
    assert (∀ e, @entry_stream _ _ _ (key_to_key k) _ (stream_of _ _ _ (key_fed k)) _ (stream_of _ _ _ IHa) e
                 = key_bytes k e.1 ++ value_bytes a e.2) as Hentry.
    { intros e. unfold entry_stream. cbn. by rewrite key_to_key_id. }
    f_equal. destruct l as [|e [|e' l]]; [done|apply Hentry|].
    rewrite (list_fmap_ext _ (hash128_of ∘ (λ e, key_bytes k e.1 ++ value_bytes a e.2)) (e :: e' :: l)); [done|].
    intros n x _. unfold compose. by rewrite Hentry.
Qed.

Lemma value_fed t v : value_ok t v → feeds (λ hst, value_hash t hst v) (value_bytes t v).
Proof.
  induction t as [p| | | | | | | | | |a IHa b IHb|a IHa|a IHa b IHb|a IHa|k a IHa].
  - exact (@stream_fed _ _ (num_stable_stream p) v).
  - exact (@stream_fed _ _ unit_stable_stream v).
  - exact (@stream_fed _ _ bool_stable_stream v).
  - exact (@stream_fed _ _ char_stable_stream v).
  - exact (@stream_fed _ _ comparison_stable_stream v).
  - exact (@stream_fed _ _ hash64_stable_stream v).
  - exact (@stream_fed _ _ hash128_stable_stream v).
  - exact (@stream_fed _ _ fingerprint_stable_stream v).
  - exact (@stream_fed _ _ u8_slice_stable_stream v).
  - exact (@stream_fed _ _ str_stable_stream v).
  - exact (@stream_fed _ _ (@pair_stable_stream _ _ _ (stream_of _ _ _ IHa) _ (stream_of _ _ _ IHb)) v).
  - exact (@stream_fed _ _ (@option_stable_stream _ _ (stream_of _ _ _ IHa)) v).
  - exact (@stream_fed _ _ (@result_stable_stream _ _ _ (stream_of _ _ _ IHa) _ (stream_of _ _ _ IHb)) v).
  - exact (@stream_fed _ _ (@list_stable_stream _ _ (stream_of _ _ _ IHa)) v).
  - by apply map_fed.
Qed.

(** Types whose values are never hashed before they are fed *)
Fixpoint map_free (t : stable_ty) : bool :=
  match t with
  | TPair a b | TResult a b => map_free a && map_free b
  | TOption a | TList a => map_free a
  | TMap _ _ => false
  | _ => true
  end.

(** No value feeds a prefix of what another value of its type does. *)
Definition value_prefix_free (t : stable_ty) : Prop :=
  ∀ v w x y, value_ok t v → value_ok t w → value_bytes t v ++ x = value_bytes t w ++ y → v = w ∧ x = y.

Lemma map_free_prefix_free t : map_free t = true → value_prefix_free t.
Proof.
  induction t as [p| | | | | | | | | |a IHa b IHb|a IHa|a IHa b IHb|a IHa|k a IHa]; cbn [map_free]; intros Hm.
  - exact (num_prefix_free p).
  - exact unit_prefix_free.
  - exact bool_prefix_free.
  - exact char_prefix_free.
  - exact comparison_prefix_free.
  - exact hash64_prefix_free.
  - exact hash128_prefix_free.
  - exact fingerprint_prefix_free.
  - exact u8_slice_prefix_free.
  - exact str_prefix_free.
  - apply andb_true_iff in Hm as [Ha%IHa Hb%IHb].
    exact (@pair_prefix_free _ _ _ (stream_of _ _ _ (value_fed a)) _ (stream_of _ _ _ (value_fed b)) Ha Hb).
  - exact (@option_prefix_free _ _ (stream_of _ _ _ (value_fed a)) (IHa Hm)).
  - apply andb_true_iff in Hm as [Ha%IHa Hb%IHb].
    exact (@result_prefix_free _ _ _ (stream_of _ _ _ (value_fed a)) _ (stream_of _ _ _ (value_fed b)) Ha Hb).
  - exact (@list_prefix_free _ _ (stream_of _ _ _ (value_fed a)) (IHa Hm)).
  - done.
Qed.

(** The stable hash of a value of one of the types *)
Definition value_stable_hash (t : stable_ty) (hst : Host) (v : value_type t) : outcome (Z * Z) :=
  @stable_hash _ (value_hash t) hst v.

(** C27. Stable hashes are independent of the host: for every value of a type
    built from the primitive integers ([usize] and [isize] included), [()],
    [bool], [char], [Ordering], hashes, fingerprints, byte strings and strings by
    pairs, [Option], [Result], sequences and hash maps with keys of strings and
    pairs, its numbers in range and its lengths below [2^64], hashing returns on
    hosts of either byte order and pointer width, with the same result: the SipHash
    of bytes that are given by the value alone, where numbers are little-endian,
    [usize] has eight bytes and [isize] one or nine.  Different values of a type
    without hash maps have different bytes. *)
Theorem stable_hash_portable t hst1 hst2 (v : value_type t) :
  wf_host hst1 → wf_host hst2 → value_ok t v →
  value_stable_hash t hst1 v = Ret (sip128 0 0 (value_bytes t v)) ∧
  value_stable_hash t hst2 v = value_stable_hash t hst1 v ∧
  ∀ w, map_free t = true → value_ok t w → value_bytes t w = value_bytes t v → w = v.
Proof.
  intros H1 H2 Hv.
  assert (∀ hst, wf_host hst → value_stable_hash t hst v = Ret (sip128 0 0 (value_bytes t v))) as Hs.
  { intros hst Hh. exact (@stable_hash_stream _ _ (stream_of _ _ _ (value_fed t)) hst v Hh Hv). }
  split_and!; [by apply Hs|by rewrite !Hs|]. intros w Hm Hw E.
  apply (map_free_prefix_free t Hm w v [] [] Hw Hv). by rewrite E.
Qed.

Definition sample_key (z : Z) : str := Str [z; 98].
Definition sample_ty : stable_ty := TList (TPair (TNum isize) (TMap KStr (TOption (TNum u128)))).
Definition sample_value : value_type sample_ty :=
  [(Num (-1), Entries [(sample_key 97, Some (Num (2 ^ 127))); (sample_key 98, None)]); (Num 7, Entries [])].

Lemma stable_hash_portable_witness :
  value_stable_hash sample_ty (sample_host Little 8) sample_value
  = Ret (sip128 0 0 (value_bytes sample_ty sample_value)) ∧
  value_stable_hash sample_ty (sample_host Big 4) sample_value
  = value_stable_hash sample_ty (sample_host Little 8) sample_value.
Proof.
  destruct (stable_hash_portable sample_ty (sample_host Little 8) (sample_host Big 4) sample_value)
    as (H1 & H2 & _); [by right|by left| |by split].
  split; [vm_compute; done|]. repeat constructor; vm_compute; done.
Defined.

(** Two sequences of [isize] values that feed the same bytes are the same. *)
Lemma isize_sequences_distinct (l k : list (num isize)) : Forall val_ok l → Forall val_ok k →
  flat_map stream l = flat_map stream k → l = k.
Proof.
  intros Hl. revert k. induction Hl as [|a l Ha _ IH]; intros [|b k] Hk E; cbn [flat_map] in E.
  - done.
  - exfalso. destruct b as [b]. revert E. cbn -[of_signed Z.ltb to_le_bytes]. by destruct (of_signed 64 b <? 255).
  - exfalso. destruct a as [a]. revert E. cbn -[of_signed Z.ltb to_le_bytes]. by destruct (of_signed 64 a <? 255).
  - apply Forall_cons_1 in Hk as [Hb Hk]. apply prefix_free in E as [-> E]; [|done..]. by rewrite (IH k).
Qed.

(** Hashing a [BitSet] is not independent of the host: its words are
    written as they are in memory, so that hosts of different byte order disagree,
    here on the set of one element. *)
Theorem bit_set_hash_depends_on_host :
  let s := {| BitSet.domain_size := 1; BitSet.words := [1] |} in
  ∃ r1 r2, stable_hash (sample_host Little 8) s = Ret r1 ∧ stable_hash (sample_host Big 8) s = Ret r2 ∧ r1 ≠ r2.
Proof. eexists _, _. split_and!; [vm_compute; reflexivity|vm_compute; reflexivity|]. discriminate. Qed.

(** * Fingerprints *)

Definition fp_ok (f : Fingerprint) : Prop := is_uint 64 (fp_0 f) ∧ is_uint 64 (fp_1 f).

Lemma as_u128_val f : fp_ok f → as_u128 f = fp_0 f + fp_1 f * 2 ^ 64.
Proof.
  intros [H0 H1]. unfold as_u128, is_uint in *. rewrite wshl_small, wrap_small by (unfold is_uint; lia).
  by rewrite Z.lor_comm, lor_shifted by lia.
Qed.

Definition fp_of_u128 (c : Z) : Fingerprint := mkFingerprint (wrap 64 c) (wrap 64 (wshr 128 c 64)).

Lemma fp_of_u128_val c : is_uint 128 c → fp_ok (fp_of_u128 c) ∧ as_u128 (fp_of_u128 c) = c.
Proof.
  intros Hc. assert (fp_ok (fp_of_u128 c)) as Hok by (split; apply wrap_bounds; lia). split; [done|].
  rewrite as_u128_val by done. cbn [fp_of_u128 fp_0 fp_1]. unfold wshr. rewrite (Z.mod_small 64), shiftr_div by lia.
  unfold wrap, is_uint in *. rewrite (Z.mod_small (c / 2 ^ 64)) by (split; [apply Z.div_pos|apply Z.div_lt_upper_bound]; lia).
  rewrite (Z.div_mod c (2 ^ 64)) at 3 by lia. lia.
Qed.

Lemma combine_commutative_val f g :
  combine_commutative f g = fp_of_u128 (wadd 128 (as_u128 f) (as_u128 g)).
Proof. done. Qed.

(** [combine_commutative] does not depend on the order or the grouping of
    the fingerprints, and [ZERO] is neutral. *)
Lemma combine_commutative_monoid f g h : fp_ok f → fp_ok g → fp_ok h →
  combine_commutative f g = combine_commutative g f ∧
  combine_commutative (combine_commutative f g) h = combine_commutative f (combine_commutative g h) ∧
  combine_commutative f ZERO = f.
Proof.
  intros Hf Hg Hh. rewrite !combine_commutative_val.
  assert (∀ a b, is_uint 128 (wadd 128 a b)) as Hw by (intros; apply wrap_bounds; lia).
  rewrite !(proj2 (fp_of_u128_val _ (Hw _ _))). split_and!.
  - unfold wadd. by rewrite Z.add_comm.
  - unfold wadd. f_equal. rewrite wrap_idemp_add, (Z.add_comm (as_u128 f) (wrap _ _)), wrap_idemp_add by lia. f_equal. lia.
  - change (as_u128 ZERO) with 0. unfold wadd. rewrite Z.add_0_r. destruct f as [a b]. pose proof Hf as [Ha Hb]. cbn in Ha, Hb.
    rewrite as_u128_val by done. unfold fp_of_u128, is_uint in *. cbn [fp_0 fp_1].
    rewrite (wrap_small 128) by (unfold is_uint; lia). unfold wshr. rewrite (Z.mod_small 64), shiftr_div by lia.
    rewrite Z.div_add, Z.div_small by lia. unfold wrap. rewrite Z.mod_add, !Z.mod_small by lia. done.
Qed.

(** Fingerprints and hashes are read back from the bytes that they are written as. *)
Lemma fp_le_bytes_roundtrip f : fp_ok f → fp_from_le_bytes (fp_to_le_bytes f) = f.
Proof.
  intros [H0 H1]. unfold fp_from_le_bytes, fp_to_le_bytes.
  rewrite take_app_length', drop_app_length', take_ge by (rewrite length_to_le_bytes; lia).
  rewrite !from_to_le_bytes. change (8 * Z.of_nat 8) with 64. rewrite !Z.mod_small by done. by destruct f.
Qed.

Lemma fingerprint_decodes f d : fp_ok f → at_bytes d (fp_to_le_bytes f) →
  decode_fingerprint d = Ret (f, skip 16 d).
Proof.
  intros Hf Hd. unfold decode_fingerprint.
  rewrite (read_array_at d (fp_to_le_bytes f) 16 Hd) by (unfold fp_to_le_bytes; rewrite length_app, !length_to_le_bytes; done).
  cbn [obind]. by rewrite fp_le_bytes_roundtrip.
Qed.

Lemma hash64_decodes h d : is_uint 64 (hash64_inner h) → at_bytes d (to_le_bytes 8 (hash64_inner h)) →
  decode_hash64 d = Ret (h, skip 8 d).
Proof.
  intros Hh Hd. unfold decode_hash64. rewrite (read_array_at d _ 8 Hd) by (by rewrite length_to_le_bytes). cbn [obind].
  rewrite from_to_le_bytes. change (8 * Z.of_nat 8) with 64. rewrite Z.mod_small by done. by destruct h.
Qed.

Lemma hash128_decodes h d : is_uint 128 (hash128_inner h) → at_bytes d (to_le_bytes 16 (hash128_inner h)) →
  decode_hash128 d = Ret (h, skip 16 d).
Proof.
  intros Hh Hd. unfold decode_hash128. rewrite (read_array_at d _ 16 Hd) by (by rewrite length_to_le_bytes). cbn [obind].
  rewrite from_to_le_bytes. change (8 * Z.of_nat 16) with 128. rewrite Z.mod_small by done. by destruct h.
Qed.
