(* ===== verification/Span.v ===== *)
(** Spans: the compressed encoding of [rustc_span/src/span_encoding.rs] with its
    interner, and the operations on spans of [rustc_span/src/lib.rs] that do not
    ask for expansion data.  Positions, contexts and definitions are the [u32]
    they hold.  The session globals that the code reaches through a thread-local
    are the state of a monad: the interned spans in their order, and the calls
    of the callback [SPAN_TRACK]. *)

From S2P Require Import Prelude.
From S2P Require Import TransitiveRelation.
From S2P Require Import TransitiveRelationProps.

Record SpanData := mkSpanData {
  data_lo : Z;
  data_hi : Z;
  data_ctxt : Z;
  data_parent : option Z
}.

#[export] Instance SpanData_eq_dec : EqDecision SpanData.
Proof. solve_decision. Defined.

Record Span := mkSpan { base_or_index : Z; len_or_tag : Z; ctxt_or_tag : Z }.

#[export] Instance Span_eq_dec : EqDecision Span.
Proof. solve_decision. Defined.

Definition LEN_TAG : Z := 0xffff.
Definition PARENT_MASK : Z := 0x8000.
Definition MAX_LEN : Z := 0x7fff.
Definition CTXT_TAG : Z := 0xffff.
Definition MAX_CTXT : Z := CTXT_TAG - 1.
Definition DUMMY_SP : Span := mkSpan 0 0 0.

(** [SyntaxContext::root()] *)
Definition root : Z := 0.
Definition is_root (ctxt : Z) : bool := ctxt =? root.
(** [DefIndex::from_u32]: the indices of [newtype_index!] end at [MAX]. *)
Definition DefIndex_from_u32 (value : Z) : outcome Z := rassert (value <=? 0xffffff00) (Ret value).

(** * The session globals *)

Record Globals := mkGlobals { spans : list SpanData; tracked : list Z }.

Definition M (A : Type) : Type := Globals → outcome (A * Globals).
Definition mret {A} (a : A) : M A := λ g, Ret (a, g).
Definition mbind {A B} (m : M A) (k : A → M B) : M B := λ g, let! (a, g) := m g in k a g.
Definition lift {A} (c : outcome A) : M A := λ g, let! a := c in Ret (a, g).

Declare Scope span_scope.
Delimit Scope span_scope with span.
Notation "'with!' x := m 'in' k" := (mbind m (λ x, k))
  (at level 10, x pattern, m at level 100, k at level 200) : span_scope.
Open Scope span_scope.

Section spans.
Context {A : FxIndexSetApi SpanData}.

(** [interner.intern(..)] *)
Definition intern (span_data : SpanData) : M Z := λ g,
  let (spans, index) := fx_insert_full (spans g) span_data in
  Ret (wrap 32 (Z.of_nat index), mkGlobals spans (tracked g)).

(** [interner.spans[index as usize]] *)
Definition interned (index : Z) : M SpanData := λ g,
  let! d := unwrap (spans g !! Z.to_nat index) in Ret (d, g).

(** The call of [SPAN_TRACK] *)
Definition span_track (parent : Z) : M unit := λ g,
  Ret (tt, mkGlobals (spans g) (tracked g ++ [parent])).

(** * Encoding *)

(** The interned format, at the end of [Span::new] *)
Definition new_interned (lo hi ctxt : Z) (parent : option Z) : M Span :=
  with! index := intern (mkSpanData lo hi ctxt parent) in
  let ctxt_or_tag := wrap 16 (if ctxt <=? MAX_CTXT then ctxt else CTXT_TAG) in
  mret (mkSpan index LEN_TAG ctxt_or_tag).

Definition new (lo hi ctxt : Z) (parent : option Z) : M Span :=
  let '(lo, hi) := if hi <? lo then (hi, lo) else (lo, hi) in
  let base := lo in
  let len := wsub 32 hi lo in
  if (len <=? MAX_LEN) && (ctxt <=? MAX_CTXT) then
    let len_or_tag := wrap 16 len in
    match parent with
    | Some parent2 =>
        let len_or_tag := Z.lor len_or_tag PARENT_MASK in
        if (ctxt =? root) && (parent2 <=? MAX_CTXT) && (len_or_tag <? LEN_TAG)
        then mret (mkSpan base len_or_tag (wrap 16 parent2))
        else new_interned lo hi ctxt parent
    | None => mret (mkSpan base (wrap 16 len) (wrap 16 ctxt))
    end
  else new_interned lo hi ctxt parent.

Definition data_untracked (self : Span) : M SpanData :=
  if negb (len_or_tag self =? LEN_TAG) then
    if Z.land (len_or_tag self) PARENT_MASK =? 0 then
      mret (mkSpanData (base_or_index self) (wadd 32 (base_or_index self) (len_or_tag self))
              (ctxt_or_tag self) None)
    else
      let len := Z.land (len_or_tag self) (wnot 16 PARENT_MASK) in
      with! parent := lift (DefIndex_from_u32 (ctxt_or_tag self)) in
      mret (mkSpanData (base_or_index self) (wadd 32 (base_or_index self) len) root (Some parent))
  else interned (base_or_index self).

Definition data (self : Span) : M SpanData :=
  with! d := data_untracked self in
  match data_parent d with
  | Some parent => with! _ := span_track parent in mret d
  | None => mret d
  end.

Definition ctxt (self : Span) : M Z :=
  if len_or_tag self =? LEN_TAG then
    if ctxt_or_tag self =? CTXT_TAG
    then with! d := interned (base_or_index self) in mret (data_ctxt d)
    else mret (ctxt_or_tag self)
  else if Z.land (len_or_tag self) PARENT_MASK =? 0 then mret (ctxt_or_tag self)
  else mret root.

(** * Operations on decoded spans *)

Definition data_span (d : SpanData) : M Span := new (data_lo d) (data_hi d) (data_ctxt d) (data_parent d).
Definition data_with_lo (d : SpanData) (lo : Z) : M Span := new lo (data_hi d) (data_ctxt d) (data_parent d).
Definition data_with_hi (d : SpanData) (hi : Z) : M Span := new (data_lo d) hi (data_ctxt d) (data_parent d).
Definition data_with_ctxt (d : SpanData) (ctxt : Z) : M Span := new (data_lo d) (data_hi d) ctxt (data_parent d).
Definition data_with_parent (d : SpanData) (parent : option Z) : M Span :=
  new (data_lo d) (data_hi d) (data_ctxt d) parent.
Definition data_is_dummy (d : SpanData) : bool := (data_lo d =? 0) && (data_hi d =? 0).
Definition data_contains (d other : SpanData) : bool :=
  (data_lo d <=? data_lo other) && (data_hi other <=? data_hi d).

(** [(lo, hi, ctxt).cmp(..)] *)
Definition data_cmp (d other : SpanData) : comparison :=
  match data_lo d ?= data_lo other with
  | Eq =>
      match data_hi d ?= data_hi other with
      | Eq => data_ctxt d ?= data_ctxt other
      | c => c
      end
  | c => c
  end.

(** * Operations on spans *)

Definition lo (self : Span) : M Z := with! d := data self in mret (data_lo d).
Definition hi (self : Span) : M Z := with! d := data self in mret (data_hi d).
Definition with_lo (self : Span) (lo : Z) : M Span := with! d := data self in data_with_lo d lo.
Definition with_hi (self : Span) (hi : Z) : M Span := with! d := data self in data_with_hi d hi.
Definition eq_ctxt (self other : Span) : M bool :=
  with! d := data_untracked self in
  with! o := data_untracked other in
  mret (data_ctxt d =? data_ctxt o).
Definition with_ctxt (self : Span) (ctxt : Z) : M Span :=
  with! d := data_untracked self in data_with_ctxt d ctxt.
Definition parent (self : Span) : M (option Z) := with! d := data self in mret (data_parent d).
Definition with_parent (self : Span) (parent : option Z) : M Span :=
  with! d := data self in data_with_parent d parent.
Definition is_dummy (self : Span) : M bool :=
  with! d := data_untracked self in mret (data_is_dummy d).
Definition from_expansion (self : Span) : M bool :=
  with! c := ctxt self in mret (negb (c =? root)).
Definition with_root_ctxt (lo hi : Z) : M Span := new lo hi root None.
Definition shrink_to_lo (self : Span) : M Span :=
  with! span := data_untracked self in data_with_hi span (data_lo span).
Definition shrink_to_hi (self : Span) : M Span :=
  with! span := data_untracked self in data_with_lo span (data_hi span).
Definition is_empty (self : Span) : M bool :=
  with! span := data_untracked self in mret (data_hi span =? data_lo span).
Definition substitute_dummy (self other : Span) : M Span :=
  with! dummy := is_dummy self in mret (if dummy then other else self).

Definition span_cmp (self rhs : Span) : M comparison :=
  with! d := data self in
  with! o := data rhs in
  mret (data_cmp d o).

Definition contains (self other : Span) : M bool :=
  with! span := data self in
  with! other := data other in
  mret (data_contains span other).

Definition overlaps (self other : Span) : M bool :=
  with! span := data self in
  with! other := data other in
  mret ((data_lo span <? data_hi other) && (data_lo other <? data_hi span)).

Definition source_equal (self other : Span) : M bool :=
  with! span := data self in
  with! other := data other in
  mret ((data_lo span =? data_lo other) && (data_hi span =? data_hi other)).

Definition trim_start (self other : Span) : M (option Span) :=
  with! span := data self in
  with! other := data other in
  if data_hi other <? data_hi span
  then with! s := data_with_lo span (Z.max (data_lo span) (data_hi other)) in mret (Some s)
  else mret None.

Definition split_at (self : Span) (pos : Z) : M (Span * Span) :=
  with! h := hi self in
  with! l := lo self in
  let len := wsub 32 h l in
  with! l := lo self in
  let split_pos := wadd 32 l pos in
  with! l := lo self in
  with! c := ctxt self in
  with! p := parent self in
  with! first := new l split_pos c p in
  with! h := hi self in
  with! c := ctxt self in
  with! p := parent self in
  with! second := new split_pos h c p in
  mret (first, second).

(** [if span.parent == end.parent { span.parent } else { None }] *)
Definition common_parent (span end_ : SpanData) : option Z :=
  if decide (data_parent span = data_parent end_) then data_parent span else None.

Definition to (self end_ : Span) : M Span :=
  with! span_data := data self in
  with! end_data := data end_ in
  if negb (data_ctxt span_data =? data_ctxt end_data) && is_root (data_ctxt span_data) then mret end_
  else if negb (data_ctxt span_data =? data_ctxt end_data) && is_root (data_ctxt end_data) then mret self
  else new (Z.min (data_lo span_data) (data_lo end_data))
           (Z.max (data_hi span_data) (data_hi end_data))
           (if is_root (data_ctxt span_data) then data_ctxt end_data else data_ctxt span_data)
           (common_parent span_data end_data).

Definition between (self end_ : Span) : M Span :=
  with! span := data self in
  with! end_ := data end_ in
  new (data_hi span) (data_lo end_)
      (if is_root (data_ctxt end_) then data_ctxt end_ else data_ctxt span)
      (common_parent span end_).

Definition until (self end_ : Span) : M Span :=
  with! span_data := data self in
  with! end_data := data end_ in
  if negb (data_ctxt span_data =? data_ctxt end_data) && is_root (data_ctxt span_data) then mret end_
  else if negb (data_ctxt span_data =? data_ctxt end_data) && is_root (data_ctxt end_data) then mret self
  else new (data_lo span_data) (data_lo end_data)
           (if is_root (data_ctxt end_data) then data_ctxt end_data else data_ctxt span_data)
           (common_parent span_data end_data).

(** [inner] as its start and end *)
Definition from_inner (self : Span) (start end_ : Z) : M Span :=
  with! span := data self in
  new (wadd 32 (data_lo span) (wrap 32 start)) (wadd 32 (data_lo span) (wrap 32 end_))
      (data_ctxt span) (data_parent span).

End spans.

(** * Properties: every span decodes to the data it was made from, at any later time; equal data have equal spans; joining encloses *)

(** What the fields of [SpanData] hold: [u32]s in order, and a definition
    within the indices of [newtype_index!] *)
Definition parent_ok (p : option Z) : Prop := ∀ x, p = Some x → 0 ≤ x ≤ 0xffffff00.

Record data_ok (d : SpanData) : Prop := {
  do_lo : 0 ≤ data_lo d;
  do_le : data_lo d ≤ data_hi d;
  do_hi : data_hi d < 2 ^ 32;
  do_ctxt : is_uint 32 (data_ctxt d);
  do_parent : parent_ok (data_parent d);
}.

(** [Span::new] orders its positions. *)
Definition normal (lo hi ctxt : Z) (parent : option Z) : SpanData :=
  mkSpanData (Z.min lo hi) (Z.max lo hi) ctxt parent.

Definition wf_globals (g : Globals) : Prop := NoDup (spans g) ∧ Z.of_nat (length (spans g)) ≤ 2 ^ 32.

(** Later globals: more spans are interned, the old ones stay. *)
Definition extends (g g' : Globals) : Prop := spans g `prefix_of` spans g'.

#[global] Instance extends_preorder : PreOrder extends.
Proof. split; [intros g; unfold extends; reflexivity|]. intros g1 g2 g3 H1 H2. unfold extends in *. by etrans. Qed.

(** The length and context fit, and the parent if there is one. *)
Definition fits_inline (d : SpanData) : bool :=
  (data_hi d - data_lo d <=? MAX_LEN) && (data_ctxt d <=? MAX_CTXT) &&
  match data_parent d with
  | Some p => (data_ctxt d =? root) && (p <=? MAX_CTXT) && (data_hi d - data_lo d <? MAX_LEN)
  | None => true
  end.

Definition inline_span (d : SpanData) : Span :=
  match data_parent d with
  | Some p => mkSpan (data_lo d) (data_hi d - data_lo d + PARENT_MASK) p
  | None => mkSpan (data_lo d) (data_hi d - data_lo d) (data_ctxt d)
  end.

(** The span that stands for [d] *)
Definition encodes (g : Globals) (s : Span) (d : SpanData) : Prop :=
  data_ok d ∧
  if fits_inline d then s = inline_span d
  else ∃ i, spans g !! i = Some d ∧ Z.of_nat i < 2 ^ 32 ∧
    s = mkSpan (Z.of_nat i) LEN_TAG (if data_ctxt d <=? MAX_CTXT then data_ctxt d else CTXT_TAG).

Lemma encodes_mono g g' s d : extends g g' → encodes g s d → encodes g' s d.
Proof.
  intros Hx [Hd He]. split; [done|]. destruct (fits_inline d); [done|].
  destruct He as (i & Hi & ?). exists i. split; [|done]. by eapply prefix_lookup_Some.
Qed.

(** Equal data have equal spans. *)
Lemma encodes_canonical g s s' d : NoDup (spans g) → encodes g s d → encodes g s' d → s = s'.
Proof.
  intros Hnd [_ H] [_ H']. destruct (fits_inline d); [by subst|].
  destruct H as (i & Hi & _ & ->), H' as (j & Hj & _ & ->). by rewrite (NoDup_lookup _ _ _ _ Hnd Hi Hj).
Qed.

Lemma parent_mask_val x : 0 ≤ x ≤ MAX_LEN → Z.lor x PARENT_MASK = x + PARENT_MASK.
Proof. intros Hx. unfold MAX_LEN in Hx. apply (lor_shifted x 1 15); lia. Qed.

Lemma parent_mask_land x : 0 ≤ x ≤ MAX_LEN →
  Z.land x PARENT_MASK = 0 ∧ Z.land (x + PARENT_MASK) PARENT_MASK = PARENT_MASK ∧
  Z.land (x + PARENT_MASK) (wnot 16 PARENT_MASK) = x.
Proof.
  intros Hx. unfold MAX_LEN in Hx. rewrite <- parent_mask_val by (unfold MAX_LEN; lia).
  assert (Z.land x PARENT_MASK = 0) as H0.
  { apply Z.bits_inj_0. intros n. rewrite Z.land_spec. change PARENT_MASK with (2 ^ 15).
    destruct (decide (0 ≤ n)); [|by rewrite Z.testbit_neg_r by lia].
    rewrite Z.pow2_bits_eqb by lia. destruct (Z.eqb_spec 15 n); [|by rewrite andb_false_r].
    subst. rewrite andb_true_r. apply Z.testbit_false; [lia|]. by rewrite Z.div_small by lia. }
  split; [done|]. rewrite !Z.land_lor_distr_l, H0. split; [done|].
  change (wnot 16 PARENT_MASK) with (2 ^ 15 - 1). rewrite land_ones_mod, Z.mod_small by lia.
  change (Z.land PARENT_MASK (2 ^ 15 - 1)) with 0. by rewrite Z.lor_0_r.
Qed.

Section spans.
Context {A : FxIndexSetApi SpanData} `{!FxIndexSetLaws SpanData A}.

(** * Decoding *)

Lemma encodes_data g s d : encodes g s d → data_untracked s g = Ret (d, g) ∧ ctxt s g = Ret (data_ctxt d, g).
Proof.
  intros [[Hlo Hle Hhi [Hc0 Hc1] Hp] He]. unfold fits_inline, inline_span in He.
  destruct (_ && _ && _) eqn:Hfit in He.
  - destruct d as [l h c p]; cbn [data_lo data_hi data_ctxt data_parent] in *.
    apply andb_true_iff in Hfit as [[H1 H2]%andb_true_iff H3].
    apply Z.leb_le in H1, H2. destruct (parent_mask_land (h - l) ltac:(lia)) as (M0 & M1 & M2).
    unfold MAX_LEN, MAX_CTXT, CTXT_TAG in *.
    assert (wadd 32 l (h - l) = h) as Hh by (unfold wadd; rewrite wrap_small by (unfold is_uint; lia); lia).
    destruct p as [p|]; subst s; unfold data_untracked, ctxt; cbn [len_or_tag ctxt_or_tag base_or_index].
    + apply andb_true_iff in H3 as [[Hr H4]%andb_true_iff H5]. apply Z.eqb_eq in Hr. apply Z.leb_le in H4. apply Z.ltb_lt in H5.
      rewrite (proj2 (Z.eqb_neq _ LEN_TAG)) by (unfold LEN_TAG, PARENT_MASK; lia). cbn [negb]. rewrite M1, M2.
      change (PARENT_MASK =? 0) with false. unfold mbind, lift, mret, DefIndex_from_u32.
      rewrite (proj2 (Z.leb_le p _)) by lia. cbn [rassert obind]. subst c. rewrite Hh. done.
    + rewrite (proj2 (Z.eqb_neq _ LEN_TAG)) by (unfold LEN_TAG; lia). cbn [negb]. rewrite M0. cbn [Z.eqb]. unfold mret. by rewrite Hh.
  - destruct He as (i & Hi & Hlt & ->). unfold data_untracked, ctxt. cbn [len_or_tag ctxt_or_tag base_or_index].
    rewrite Z.eqb_refl. cbn [negb]. unfold interned, mbind, mret. rewrite Nat2Z.id, Hi. cbn [unwrap obind]. split; [done|].
    destruct (Z.leb_spec (data_ctxt d) MAX_CTXT); [|rewrite Z.eqb_refl; cbn beta iota; by rewrite Hi].
    rewrite (proj2 (Z.eqb_neq _ CTXT_TAG)) by (unfold MAX_CTXT, CTXT_TAG in *; lia). done.
Qed.

(** * Encoding *)

Lemma intern_encodes g lo hi c p : wf_globals g → Z.of_nat (length (spans g)) < 2 ^ 32 →
  data_ok (mkSpanData lo hi c p) → fits_inline (mkSpanData lo hi c p) = false →
  ∃ s g', new_interned lo hi c p g = Ret (s, g') ∧ wf_globals g' ∧ extends g g' ∧ tracked g' = tracked g ∧
    (length (spans g') ≤ S (length (spans g)))%nat ∧ encodes g' s (mkSpanData lo hi c p).
Proof.
  intros [Hnd Hlen] Hroom Hd Hfit. set (d := mkSpanData lo hi c p) in *. pose proof Hd as [_ _ _ [Hc0 Hc1] _]. cbn in Hc0, Hc1.
  assert (∃ l i, fx_insert_full (spans g) d = (l, i) ∧ l !! i = Some d ∧ spans g `prefix_of` l ∧ NoDup l ∧
    (length l ≤ S (length (spans g)))%nat ∧ (i ≤ length (spans g))%nat) as (l & i & E & Hi & Hpre & Hnd' & Hl & Hil).
  { destruct (decide (d ∈ spans g)) as [Hin|Hin].
    - apply list_elem_of_lookup_1 in Hin as [i Hi]. exists (spans g), i. apply lookup_lt_Some in Hi as Hlt.
      split_and!; [by apply fx_insert_old|done|done|done|lia|lia].
    - exists (spans g ++ [d]), (length (spans g)). split_and!; [by apply fx_insert_new| |by apply prefix_app_r| | |done].
      + by rewrite lookup_app_r, Nat.sub_diag.
      + apply list.NoDup_app. split_and!; [done| |apply NoDup_singleton]. intros x Hx Hxd. apply list_elem_of_singleton in Hxd. by subst.
      + rewrite length_app. cbn. lia. }
  unfold new_interned, intern, mbind, mret. fold d. rewrite E. cbn [obind].
  rewrite (wrap_small 32) by (unfold is_uint; lia).
  eexists _, _. split; [done|]. split_and!; cbn [spans tracked]; [split; cbn; [done|lia]|done|done|done|].
  split; [done|]. rewrite Hfit. exists i. split_and!; [done|lia|]. f_equal. unfold MAX_CTXT, CTXT_TAG in *. cbn [data_ctxt d].
  destruct (Z.leb_spec c (65535 - 1)); by rewrite wrap_small by (unfold is_uint; lia).
Qed.

(** What an operation that makes a span does to the globals *)
Definition makes (m : M Span) (d : SpanData) : Prop :=
  ∀ g, wf_globals g → Z.of_nat (length (spans g)) < 2 ^ 32 →
    ∃ s g', m g = Ret (s, g') ∧ wf_globals g' ∧ extends g g' ∧ tracked g' = tracked g ∧
      (length (spans g') ≤ S (length (spans g)))%nat ∧ encodes g' s d.

Lemma makes_inline d : data_ok d → fits_inline d = true → makes (mret (inline_span d)) d.
Proof.
  intros Hd Hf g Hg _. exists (inline_span d), g. split_and!; [done|done|reflexivity|done|lia|]. split; [done|]. by rewrite Hf.
Qed.

Lemma new_swap lo hi c p : hi < lo → new lo hi c p = new hi lo c p.
Proof.
  intros H. unfold new. rewrite (proj2 (Z.ltb_lt hi lo)) by done. by rewrite (proj2 (Z.ltb_ge lo hi)) by lia.
Qed.

Lemma new_le_makes lo hi c p : data_ok (mkSpanData lo hi c p) → makes (new lo hi c p) (mkSpanData lo hi c p).
Proof.
  intros Hd. pose proof Hd as [Hlo Hle Hhi [Hc0 Hc1] Hp]. cbn [data_lo data_hi data_ctxt data_parent] in *.
  set (d := mkSpanData lo hi c p) in *.
  assert (fits_inline d = false → makes (new_interned lo hi c p) d) as Hint by (intros ? g ? ?; by apply intern_encodes).
  assert (fits_inline d = true → makes (mret (inline_span d)) d) as Hinl by (by apply makes_inline).
  unfold new. rewrite (proj2 (Z.ltb_ge hi lo)) by lia. cbn zeta.
  assert (wsub 32 hi lo = hi - lo) as -> by (apply wrap_small; unfold is_uint; lia).
  revert Hint Hinl. unfold fits_inline, inline_span. subst d. cbn [data_lo data_hi data_ctxt data_parent].
  destruct (Z.leb_spec (hi - lo) MAX_LEN) as [H1|H1], (Z.leb_spec c MAX_CTXT) as [H2|H2]; cbn [andb]; intros Hint Hinl;
    [|by apply Hint..].
  assert (wrap 16 (hi - lo) = hi - lo) as -> by (apply wrap_small; unfold is_uint, MAX_LEN in *; lia).
  destruct p as [p|].
  - specialize (Hp p eq_refl). rewrite parent_mask_val by lia. revert Hint Hinl.
    destruct (Z.eqb_spec c root), (Z.leb_spec p MAX_CTXT); cbn [andb]; intros Hint Hinl; try by apply Hint.
    destruct (Z.ltb_spec (hi - lo + PARENT_MASK) LEN_TAG), (Z.ltb_spec (hi - lo) MAX_LEN);
      try by (unfold LEN_TAG, MAX_LEN, PARENT_MASK in *; lia).
    + rewrite (wrap_small 16 p) by (unfold is_uint, MAX_CTXT, CTXT_TAG in *; lia). by apply Hinl.
    + by apply Hint.
  - rewrite (wrap_small 16 c) by (unfold is_uint, MAX_CTXT, CTXT_TAG in *; lia). by apply Hinl.
Qed.

Lemma new_makes lo hi c p : is_uint 32 lo → is_uint 32 hi → is_uint 32 c → parent_ok p →
  makes (new lo hi c p) (normal lo hi c p).
Proof.
  intros [Hl0 Hl1] [Hh0 Hh1] Hc Hp. unfold normal. destruct (Z.lt_ge_cases hi lo).
  - rewrite new_swap, Z.min_r, Z.max_l by lia. apply new_le_makes. split; cbn; [lia..|done|done].
  - rewrite Z.min_l, Z.max_r by lia. apply new_le_makes. split; cbn; [lia..|done|done].
Qed.

(** * Sequences of spans *)

(** [Span::new] for each of the arguments *)
Fixpoint new_all (l : list SpanData) : M (list Span) :=
  match l with
  | [] => mret []
  | d :: l =>
      with! s := new (data_lo d) (data_hi d) (data_ctxt d) (data_parent d) in
      with! ss := new_all l in
      mret (s :: ss)
  end.

Definition args_ok (d : SpanData) : Prop :=
  is_uint 32 (data_lo d) ∧ is_uint 32 (data_hi d) ∧ is_uint 32 (data_ctxt d) ∧ parent_ok (data_parent d).

Definition ordered (d : SpanData) : SpanData := normal (data_lo d) (data_hi d) (data_ctxt d) (data_parent d).

Lemma new_all_encodes l g : wf_globals g → Forall args_ok l →
  Z.of_nat (length (spans g) + length l) ≤ 2 ^ 32 →
  ∃ ss g', new_all l g = Ret (ss, g') ∧ wf_globals g' ∧ extends g g' ∧ tracked g' = tracked g ∧
    Forall2 (λ d s, encodes g' s (ordered d)) l ss.
Proof.
  intros Hg Hl. revert g Hg. induction Hl as [|d l (H1 & H2 & H3 & H4) _ IH]; intros g Hg Hlen; cbn [new_all length] in *.
  { exists [], g. split_and!; [done|done|reflexivity|done|constructor]. }
  destruct (new_makes (data_lo d) (data_hi d) (data_ctxt d) (data_parent d) H1 H2 H3 H4 g Hg ltac:(lia))
    as (s & g1 & E1 & Hg1 & Hx1 & Ht1 & Hlen1 & He1).
  destruct (IH g1 Hg1 ltac:(lia)) as (ss & g2 & E2 & Hg2 & Hx2 & Ht2 & He2).
  exists (s :: ss), g2. unfold mbind, mret. rewrite E1. cbn [obind]. rewrite E2. cbn [obind].
  split_and!; [done|done|by etrans|by rewrite Ht2|]. constructor; [|done]. by eapply encodes_mono.
Qed.

(** C28. Spans keep what they are made from: after any sequence of [Span::new]
    that does not exceed the interner, and whatever is interned later, every span
    decodes to its arguments with the positions in order, the short cut [ctxt]
    finds the same context, and two spans are equal exactly if their data are. *)
Theorem span_encoding_roundtrip l g : wf_globals g → Forall args_ok l →
  Z.of_nat (length (spans g) + length l) ≤ 2 ^ 32 →
  ∃ ss g', new_all l g = Ret (ss, g') ∧ length ss = length l ∧
    (∀ i d s g'', extends g' g'' → l !! i = Some d → ss !! i = Some s →
      data_untracked s g'' = Ret (ordered d, g'') ∧ ctxt s g'' = Ret (data_ctxt d, g'')) ∧
    (∀ i j d e s t, l !! i = Some d → l !! j = Some e → ss !! i = Some s → ss !! j = Some t →
      s = t ↔ ordered d = ordered e).
Proof.
  intros Hg Hl Hlen. destruct (new_all_encodes l g Hg Hl Hlen) as (ss & g' & E & [Hnd _] & Hx & _ & He).
  exists ss, g'. split; [done|]. split; [symmetry; by eapply Forall2_length|].
  assert (∀ i d s, l !! i = Some d → ss !! i = Some s → encodes g' s (ordered d)) as Hi.
  { intros i d s Hd Hs. by eapply (Forall2_lookup_lr _ _ _ _ _ _ He). }
  split.
  - intros i d s g'' Hx' Hd Hs. apply (encodes_data g'' s (ordered d)). eapply encodes_mono; [done|by eapply Hi].
  - intros i j d e s t Hd He' Hs Ht. pose proof (Hi _ _ _ Hd Hs) as Hes. pose proof (Hi _ _ _ He' Ht) as Het. split.
    + intros ->. apply encodes_data in Hes as [Hes _], Het as [Het _]. congruence.
    + intros Eq. rewrite Eq in Hes. by eapply encodes_canonical.
Qed.

(** * Joining *)

Lemma encodes_data_tracked g s d : encodes g s d →
  ∃ g', data s g = Ret (d, g') ∧ spans g' = spans g.
Proof.
  intros [E _]%encodes_data. unfold data, mbind. rewrite E. cbn [obind]. unfold span_track, mret.
  destruct (data_parent d); [|by eexists]. by eexists.
Qed.

Lemma encodes_spans g g' s d : spans g' = spans g → encodes g s d → encodes g' s d.
Proof. intros E. apply encodes_mono. unfold extends. by rewrite E. Qed.

Lemma data2 a b g da db : encodes g a da → encodes g b db →
  ∃ g', spans g' = spans g ∧ ∀ k : SpanData → SpanData → M Span, mbind (data a) (λ x, mbind (data b) (λ y, k x y)) g = k da db g'.
Proof.
  intros Ha Hb. destruct (encodes_data_tracked g a da Ha) as (g1 & E1 & Hs1).
  destruct (encodes_data_tracked g1 b db (encodes_spans _ _ _ _ Hs1 Hb)) as (g2 & E2 & Hs2).
  exists g2. split; [by rewrite Hs2|]. intros k. unfold mbind. rewrite E1. cbn [obind]. by rewrite E2.
Qed.

Definition join_data (a b : SpanData) : SpanData :=
  mkSpanData (Z.min (data_lo a) (data_lo b)) (Z.max (data_hi a) (data_hi b)) (data_ctxt a) (common_parent a b).

Lemma common_parent_comm a b : common_parent a b = common_parent b a.
Proof. unfold common_parent. repeat case_decide; congruence. Qed.

Lemma join_ok a b : data_ok a → data_ok b → data_ok (join_data a b).
Proof.
  intros [A1 A2 A3 A4 A5] [B1 B2 B3 B4 B5]. split; cbn; [lia..|done|].
  unfold common_parent. case_decide; [done|]. intros x [=].
Qed.

Lemma join_comm a b : data_ctxt a = data_ctxt b → join_data a b = join_data b a.
Proof. intros E. unfold join_data. by rewrite Z.min_comm, Z.max_comm, E, common_parent_comm. Qed.

Lemma to_same_ctxt g a b da db : wf_globals g → Z.of_nat (length (spans g)) < 2 ^ 32 →
  encodes g a da → encodes g b db → data_ctxt da = data_ctxt db →
  ∃ s g', to a b g = Ret (s, g') ∧ wf_globals g' ∧ extends g g' ∧
    (length (spans g') ≤ S (length (spans g)))%nat ∧ encodes g' s (join_data da db).
Proof.
  intros [Hnd Hl] Hroom Ha Hb Hc. unfold to. destruct (data2 a b g da db Ha Hb) as (g1 & Hs1 & ->).
  rewrite (proj2 (Z.eqb_eq _ _) Hc). cbn [negb andb].
  assert ((if is_root (data_ctxt da) then data_ctxt db else data_ctxt da) = data_ctxt da) as ->
    by (destruct (is_root _); congruence).
  destruct (new_le_makes _ _ _ _ (join_ok da db (proj1 Ha) (proj1 Hb)) g1) as (s & g' & E & Hg' & Hx & _ & Hl' & He);
    [split; by rewrite Hs1|by rewrite Hs1|].
  exists s, g'. split_and!; [done|done|by unfold extends in *; rewrite <- Hs1|by rewrite <- Hs1|done].
Qed.

Lemma to_root g a b da db : encodes g a da → encodes g b db → data_ctxt da ≠ data_ctxt db →
  is_root (data_ctxt da) = true →
  ∃ g1 g2, to a b g = Ret (b, g1) ∧ to b a g = Ret (b, g2) ∧ spans g1 = spans g ∧ spans g2 = spans g.
Proof.
  intros Ha Hb Hc Hr. unfold to. destruct (data2 a b g da db Ha Hb) as (g1 & Hs1 & ->).
  destruct (data2 b a g db da Hb Ha) as (g2 & Hs2 & ->).
  rewrite (proj2 (Z.eqb_neq _ _) Hc), (proj2 (Z.eqb_neq (data_ctxt db) _)) by done. cbn [negb andb]. rewrite Hr.
  assert (is_root (data_ctxt db) = false) as ->.
  { unfold is_root in *. apply Z.eqb_eq in Hr. apply Z.eqb_neq. congruence. }
  by exists g1, g2.
Qed.

(** Joining two spans of one syntax context gives, in both orders, the same
    span, which covers both and nothing outside of them; if the contexts differ
    and one of them is the root, the span of the other is the result in both
    orders. *)
Theorem span_to_encloses g a b da db : wf_globals g → Z.of_nat (length (spans g)) + 1 < 2 ^ 32 →
  encodes g a da → encodes g b db →
  (data_ctxt da = data_ctxt db →
    ∃ s d g1 g2, to a b g = Ret (s, g1) ∧ to b a g1 = Ret (s, g2) ∧ data_untracked s g2 = Ret (d, g2) ∧
      data_contains d da = true ∧ data_contains d db = true ∧
      (∀ d', data_contains d' da = true → data_contains d' db = true → data_contains d' d = true)) ∧
  (data_ctxt da ≠ data_ctxt db → is_root (data_ctxt da) = true →
    ∃ g1 g2, to a b g = Ret (b, g1) ∧ to b a g = Ret (b, g2)).
Proof.
  intros Hg Hroom Ha Hb. split.
  - intros Hc. destruct (to_same_ctxt g a b da db Hg ltac:(lia) Ha Hb Hc) as (s & g1 & E1 & Hg1 & Hx1 & Hl1 & He1).
    destruct (to_same_ctxt g1 b a db da Hg1 ltac:(lia)) as (s' & g2 & E2 & [Hnd2 _] & Hx2 & _ & He2);
      [by eapply encodes_mono|by eapply encodes_mono|done|].
    assert (encodes g2 s (join_data da db)) as He by (by eapply encodes_mono). rewrite <- join_comm in He2 by done.
    assert (s' = s) as -> by (by eapply encodes_canonical). apply encodes_data in He as [He _].
    exists s, (join_data da db), g1, g2. unfold data_contains. cbn [join_data data_lo data_hi].
    setoid_rewrite andb_true_iff. setoid_rewrite Z.leb_le. split_and!; [done|done|done|lia..|]. intros d'. lia.
  - intros Hc Hr. destruct (to_root g a b da db Ha Hb Hc Hr) as (g1 & g2 & ? & ? & _). eauto.
Qed.
End spans.

(** * Concrete spans *)

#[local] Existing Instance list_index_set.

Definition sample_globals : Globals := mkGlobals [] [].
Definition sample_args : list SpanData :=
  [mkSpanData 7 3 0 None; mkSpanData 0 0x7ffe 0 (Some 5); mkSpanData 0 0x7fff 0 (Some 5);
   mkSpanData 9 12 0x1ffff None; mkSpanData 9 12 4 (Some 0x10000); mkSpanData 0 0x7fff 0 (Some 5)].

Lemma sample_args_ok : Forall args_ok sample_args.
Proof.
  unfold sample_args.
  repeat (apply Forall_cons_2; [split_and!; [split; cbn; lia..|intros x Hx; cbn in Hx; simplify_eq; lia]|]).
  apply Forall_nil_2.
Qed.

Lemma span_encoding_roundtrip_witness :
  wf_globals sample_globals ∧
  ∃ ss g', new_all sample_args sample_globals = Ret (ss, g') ∧ length ss = length sample_args ∧
    (∀ i d s g'', extends g' g'' → sample_args !! i = Some d → ss !! i = Some s →
      data_untracked s g'' = Ret (ordered d, g'') ∧ ctxt s g'' = Ret (data_ctxt d, g'')) ∧
    (∀ i j d e s t, sample_args !! i = Some d → sample_args !! j = Some e → ss !! i = Some s → ss !! j = Some t →
      s = t ↔ ordered d = ordered e).
Proof.
  assert (wf_globals sample_globals) as Hg by (split; [apply NoDup_nil_2|cbn; lia]).
  split; [done|]. apply (span_encoding_roundtrip sample_args sample_globals Hg sample_args_ok). cbn. lia.
Defined.

Definition sample_a : SpanData := mkSpanData 7 9 2 (Some 1).
Definition sample_b : SpanData := mkSpanData 100 0x9000 2 None.
Definition sample_joined : Globals := mkGlobals [sample_a; sample_b] [].

Lemma span_to_encloses_witness :
  ∃ s d g1 g2, to (mkSpan 0 LEN_TAG 2) (mkSpan 1 LEN_TAG 2) sample_joined = Ret (s, g1) ∧
    to (mkSpan 1 LEN_TAG 2) (mkSpan 0 LEN_TAG 2) g1 = Ret (s, g2) ∧ data_untracked s g2 = Ret (d, g2) ∧
    data_contains d sample_a = true ∧ data_contains d sample_b = true ∧
    (∀ d', data_contains d' sample_a = true → data_contains d' sample_b = true → data_contains d' d = true).
Proof.
  apply (span_to_encloses sample_joined (mkSpan 0 LEN_TAG 2) (mkSpan 1 LEN_TAG 2) sample_a sample_b).
  - split; [apply (bool_decide_unpack _); vm_compute; done|cbn; lia].
  - cbn. lia.
  - split; [split; cbn; [lia..|split; lia|intros x Hx; simplify_eq; lia]|]. exists 0%nat. done.
  - split; [split; cbn; [lia..|split; lia|intros x Hx; simplify_eq]|]. exists 1%nat. done.
  - done.
Defined.

(** Two spans of different macros: the order decides the context of the join. *)
Lemma to_not_symmetric :
  let a := mkSpan 10 5 1 in let b := mkSpan 20 5 2 in
  ∃ s t g1 g2, to a b sample_globals = Ret (s, g1) ∧ to b a sample_globals = Ret (t, g2) ∧ s ≠ t.
Proof. eexists _, _, _, _. split_and!; [vm_compute; reflexivity..|]. discriminate. Qed.
