(* ===== verification/Operator.v ===== *)
(** Operators of MIR on scalars: which operand types they take, the type of their
    result, and their evaluation in the interpreter.

    [compiler/rustc_const_eval/src/interpret/operator.rs] (evaluation),
    [rustc_const_eval/src/transform/validate.rs] (the types that the validator of
    MIR accepts), [rustc_middle/src/mir/tcx.rs] (types of results),
    [rustc_hir_typeck/src/op.rs] (operators that are built in), and what they use of
    immediates ([interpret/operand.rs]), scalars ([mir/interpret/value.rs]) and
    layouts of primitive types ([rustc_ty_utils/src/layout.rs]).

    Floating-point numbers are those of [rustc_apfloat], a parameter on their bits;
    so is the subtyping that the validator asks for when operands are compared. *)

From S2P Require Import Prelude.
From S2P Require Import Chars.
From S2P Require Import Abi.
From S2P Require Import Literal.
From S2P Require Import Fields.
From S2P Require Import Slice.
From S2P Require Import Provenance.
From S2P Require Import Allocation.

(** ** Types *)

(** [TyKind], as far as operators look at it; other types are numbers. *)
Inductive Ty :=
| Bool | Char
| IntT (t : IntTy) | UintT (t : UintTy) | FloatT (t : FloatTy)
| FieldT (t : FieldTy.t) | CurveT (t : CurveTy.t)
| RawPtr (ty : Ty) | Ref (ty : Ty) (mutbl : Mutability) | FnPtr (sig : Z) | FnDef (def : Z)
| OtherTy (n : Z).

#[global] Instance IntTy_eq_dec : EqDecision IntTy.
Proof. solve_decision. Defined.
#[global] Instance UintTy_eq_dec : EqDecision UintTy.
Proof. solve_decision. Defined.
#[global] Instance FloatTy_eq_dec : EqDecision FloatTy.
Proof. solve_decision. Defined.
#[global] Instance FieldTy_eq_dec : EqDecision FieldTy.t.
Proof. solve_decision. Defined.
#[global] Instance CurveTy_eq_dec : EqDecision CurveTy.t.
Proof. solve_decision. Defined.
#[global] Instance Ty_eq_dec : EqDecision Ty.
Proof. solve_decision. Defined.

Definition is_integral (t : Ty) : bool := match t with IntT _ | UintT _ => true | _ => false end.
Definition is_field (t : Ty) : bool := match t with FieldT _ => true | _ => false end.
Definition is_curve (t : Ty) : bool := match t with CurveT _ => true | _ => false end.
Definition is_floating_point (t : Ty) : bool := match t with FloatT _ => true | _ => false end.
Definition is_bool (t : Ty) : bool := match t with Bool => true | _ => false end.
Definition is_any_ptr (t : Ty) : bool := match t with Ref _ _ | RawPtr _ | FnPtr _ => true | _ => false end.
Definition is_scalar (t : Ty) : bool :=
  match t with
  | Bool | Char | IntT _ | FieldT _ | CurveT _ | FloatT _ | UintT _ | FnDef _ | FnPtr _ | RawPtr _ => true
  | _ => false
  end.

(** The scalar field of a curve; [bug!] on other types *)
Definition curve_scalar_field (t : Ty) : outcome Ty :=
  match t with
  | CurveT CurveTy.Bls12381 => Ret (FieldT FieldTy.Bls12381Scalar)
  | CurveT CurveTy.Curve25519 => Ret (FieldT FieldTy.Curve25519Scalar)
  | CurveT CurveTy.Pallas => Ret (FieldT FieldTy.PallasScalar)
  | CurveT CurveTy.Vesta => Ret (FieldT FieldTy.PallasBase)
  | _ => Panic
  end.

(** ** Operators *)

Inductive BinOp :=
| Add | AddUnchecked | Sub | SubUnchecked | Mul | MulUnchecked | Div | Rem | BitXor | BitAnd | BitOr
| Shl | ShlUnchecked | Shr | ShrUnchecked | Eq | Lt | Le | Ne | Ge | Gt | Offset.

Inductive UnOp := OpNot | Neg.

#[global] Instance BinOp_eq_dec : EqDecision BinOp.
Proof. solve_decision. Defined.

Definition binop_right_homogeneous (op : BinOp) : bool :=
  match op with
  | Add | AddUnchecked | Sub | SubUnchecked | Mul | MulUnchecked | Div | Rem | BitXor
  | BitAnd | BitOr | Eq | Ne | Lt | Le | Gt | Ge => true
  | Offset | Shl | ShlUnchecked | Shr | ShrUnchecked => false
  end.

(** [BinOp::ty] *)
Definition binop_ty (op : BinOp) (lhs_ty rhs_ty : Ty) : outcome Ty :=
  match op with
  | Add | AddUnchecked | Sub | SubUnchecked | MulUnchecked | Rem | BitXor | BitAnd | BitOr =>
      rassert (bool_decide (lhs_ty = rhs_ty)) (Ret lhs_ty)
  | Mul | Div =>
      if is_curve lhs_ty then Ret lhs_ty
      else if is_curve rhs_ty then Ret rhs_ty
      else rassert (bool_decide (lhs_ty = rhs_ty)) (Ret lhs_ty)
  | Shl | ShlUnchecked | Shr | ShrUnchecked | Offset => Ret lhs_ty
  | Eq | Lt | Le | Ne | Ge | Gt => Ret Bool
  end.

(** ** The validator *)

Section validator.
(** [mir_assign_valid_types], on the types of operands that are compared *)
Context (mir_assign_valid_types : Ty → Ty → bool).

(** [check_kinds!] for both operands *)
Definition check_both (kind : Ty → bool) (a b : Ty) : bool := kind a && kind b.

(** [Rvalue::BinaryOp]: no call of [fail] *)
Definition validate_binary_op (op : BinOp) (a b : Ty) : outcome bool :=
  let is_algebraic := is_field a || is_field b || is_curve a || is_curve b in
  let right_homogeneous :=
    if is_algebraic && match op with Mul | Div => true | _ => false end then false else binop_right_homogeneous op in
  let homogeneous :=
    if right_homogeneous then
      match op with
      | Eq | Lt | Le | Ne | Ge | Gt => mir_assign_valid_types a b
      | _ => bool_decide (a = b)
      end
    else true in
  let! kinds :=
    match op with
    | Offset =>
        Ret (match a with RawPtr _ => true | _ => false end && (bool_decide (b = IntT Isize) || bool_decide (b = UintT Usize)))
    | Lt | Le | Ge | Gt =>
        Ret (check_both (λ x, match x with
          Bool | Char | IntT _ | UintT _ | FloatT _ | FieldT _ | RawPtr _ | FnPtr _ => true | _ => false end) a b)
    | Eq | Ne =>
        Ret (check_both (λ x, match x with
          Bool | Char | IntT _ | UintT _ | FieldT _ | CurveT _ | FloatT _ | RawPtr _ | FnPtr _ => true | _ => false end) a b)
    | AddUnchecked | SubUnchecked | MulUnchecked | Shl | ShlUnchecked | Shr | ShrUnchecked => Ret (check_both is_integral a b)
    | BitAnd | BitOr | BitXor => Ret (check_both (λ x, is_integral x || is_bool x) a b)
    | Add | Sub =>
        Ret (check_both (λ x, match x with UintT _ | IntT _ | FloatT _ | FieldT _ | CurveT _ => true | _ => false end) a b
             && bool_decide (a = b))
    | Mul | Div | Rem =>
        if is_curve a && match op with Mul | Div => true | _ => false end then
          let! f := curve_scalar_field a in Ret (bool_decide (f = b))
        else if is_curve b && bool_decide (op = Mul) then
          let! f := curve_scalar_field b in Ret (bool_decide (f = a))
        else if is_curve b && bool_decide (op = Div) then Ret false
        else Ret (check_both (λ x, match x with UintT _ | IntT _ | FloatT _ | FieldT _ => true | _ => false end) a b)
    end in
  Ret (homogeneous && kinds).

(** [Rvalue::CheckedBinaryOp], with [todo!] for curves *)
Definition validate_checked_binary_op (op : BinOp) (a b : Ty) : outcome bool :=
  if is_curve a || is_curve b then Panic
  else
    Ret (match op with
         | Add | Sub | Mul =>
             check_both (λ x, match x with UintT _ | IntT _ | FieldT _ | CurveT _ => true | _ => false end) a b && bool_decide (a = b)
         | _ => false
         end).

Definition validate_unary_op (op : UnOp) (a : Ty) : bool :=
  match op with
  | Neg => match a with IntT _ | FloatT _ | FieldT _ | CurveT _ => true | _ => false end
  | OpNot => match a with IntT _ | UintT _ | Bool => true | _ => false end
  end.

End validator.

(** ** Built-in operators of expressions *)

Inductive BinOpKind :=
| HAdd | HSub | HMul | HDiv | HRem | HAnd | HOr | HBitXor | HBitAnd | HBitOr | HShl | HShr
| HEq | HLt | HLe | HNe | HGe | HGt.

(** [bin_op] of [rustc_mir_build/src/thir/cx/expr.rs] *)
Definition bin_op (op : BinOpKind) : outcome BinOp :=
  match op with
  | HAdd => Ret Add | HSub => Ret Sub | HMul => Ret Mul | HDiv => Ret Div | HRem => Ret Rem
  | HBitXor => Ret BitXor | HBitAnd => Ret BitAnd | HBitOr => Ret BitOr | HShl => Ret Shl | HShr => Ret Shr
  | HEq => Ret Eq | HLt => Ret Lt | HLe => Ret Le | HNe => Ret Ne | HGe => Ret Ge | HGt => Ret Gt
  | HAnd | HOr => Panic
  end.

Inductive BinOpCategory := Shortcircuit | Shift | Math | Bitwise | Comparison.

(** [BinOpCategory::from] *)
Definition category_from (op : BinOpKind) : BinOpCategory :=
  match op with
  | HShl | HShr => Shift
  | HAdd | HSub | HMul | HDiv | HRem => Math
  | HBitXor | HBitAnd | HBitOr => Bitwise
  | HEq | HNe | HLt | HLe | HGe | HGt => Comparison
  | HAnd | HOr => Shortcircuit
  end.

Definition deref_ty_if_possible (t : Ty) : Ty := match t with Ref ty Not => ty | _ => t end.

(** On types without errors *)
Definition is_builtin_binop (lhs rhs : Ty) (op : BinOpKind) : bool :=
  let lhs := deref_ty_if_possible lhs in
  let rhs := deref_ty_if_possible rhs in
  match category_from op with
  | Shortcircuit => true
  | Shift => is_integral lhs && is_integral rhs
  | Math =>
      is_integral lhs && is_integral rhs || is_floating_point lhs && is_floating_point rhs || is_field lhs && is_field rhs
  | Bitwise =>
      is_integral lhs && is_integral rhs || is_floating_point lhs && is_floating_point rhs || is_bool lhs && is_bool rhs
  | Comparison => is_scalar lhs && is_scalar rhs
  end.

(** ** Operators in constants *)

Definition is_char (t : Ty) : bool := match t with Char => true | _ => false end.
Definition is_int_bool_or_char (t : Ty) : bool := is_bool t || is_integral t || is_char t.
Definition is_field_or_curve (t : Ty) : bool := is_field t || is_curve t.
Definition is_fn_ptr (t : Ty) : bool := match t with FnPtr _ => true | _ => false end.
Definition is_unsafe_ptr (t : Ty) : bool := match t with RawPtr _ => true | _ => false end.

(** [NonConstOp] that [check_op] is called with, if any *)
Inductive ConstOp := FineInConst | RawPtrComparison | FloatingPointOp.

(** [Checker::visit_rvalue] on [UnaryOp], and on [BinaryOp] and [CheckedBinaryOp] *)
Definition check_const_unary_op (t : Ty) : outcome ConstOp :=
  if is_int_bool_or_char t then Ret FineInConst
  else if is_floating_point t then Ret FloatingPointOp
  else if is_field_or_curve t then Ret FineInConst
  else Panic.

Definition check_const_binary_op (op : BinOp) (lhs_ty rhs_ty : Ty) : outcome ConstOp :=
  if is_int_bool_or_char lhs_ty && is_int_bool_or_char rhs_ty then Ret FineInConst
  else if is_field_or_curve lhs_ty && is_field_or_curve rhs_ty then Ret FineInConst
  else if is_fn_ptr lhs_ty || is_unsafe_ptr lhs_ty then
    rassert (bool_decide (lhs_ty = rhs_ty))
      (rassert (match op with Eq | Ne | Le | Lt | Ge | Gt | Offset => true | _ => false end) (Ret RawPtrComparison))
  else if is_floating_point lhs_ty || is_floating_point rhs_ty then Ret FloatingPointOp
  else Panic.

(** ** Layouts of primitive types *)

(** [Integer::from_int_ty] and [from_uint_ty] *)
Definition from_int_ty (dl : TargetDataLayout) (ity : IntTy) : outcome Integer :=
  match ity with
  | Si8 => Ret I8 | Si16 => Ret I16 | Si32 => Ret I32 | Si64 => Ret I64 | Si128 => Ret I128
  | Isize => ptr_sized_integer dl
  end.
Definition from_uint_ty (dl : TargetDataLayout) (ity : UintTy) : outcome Integer :=
  match ity with
  | Ui8 => Ret I8 | Ui16 => Ret I16 | Ui32 => Ret I32 | Ui64 => Ret I64 | Ui128 => Ret I128
  | Usize => ptr_sized_integer dl
  end.

(** The closures [scalar_unit] and [scalar] *)
Definition scalar_unit (dl : TargetDataLayout) (value : Primitive) : outcome Abi.Scalar :=
  let size := Primitive.size value dl in
  let! bits := Size.bits size in
  rassert (bits <=? 128) (let! r := WrappingRange.full size in Ret (Initialized value r)).
Definition scalar_layout (dl : TargetDataLayout) (value : Primitive) : outcome LayoutS :=
  let! s := scalar_unit dl value in LayoutS.scalar dl s.

Record TyAndLayout := mkTyLayout { tl_ty : Ty; tl_layout : LayoutS }.

(** [layout_of_uncached] on primitive types that are not pointers *)
Definition layout_of (dl : TargetDataLayout) (ty : Ty) : outcome TyAndLayout :=
  let! l :=
    match ty with
    | Bool => LayoutS.scalar dl (Initialized (Abi.Int I8 false) (mkRange 0 1))
    | Char => LayoutS.scalar dl (Initialized (Abi.Int I32 false) (mkRange 0 0x10FFFF))
    | IntT ity => let! i := from_int_ty dl ity in scalar_layout dl (Abi.Int i true)
    | UintT ity => let! i := from_uint_ty dl ity in scalar_layout dl (Abi.Int i false)
    | FieldT fty => LayoutS.field (from_field_ty fty)
    | CurveT cty => LayoutS.curve (from_curve_ty cty)
    | FloatT Fl32 => scalar_layout dl F32
    | FloatT Fl64 => scalar_layout dl F64
    | _ => Panic
    end in
  Ret (mkTyLayout ty l).

(** ** Errors, and values *)

(** [ConstInt], and the messages of assertions on operators *)
Record ConstInt := mkConstInt { int : ScalarInt; signed : bool; is_ptr_sized_integral : bool }.
Inductive AssertKind (O : Type) :=
| Overflow (op : BinOp) (l r : O)
| OverflowNeg (o : O)
| DivByZero (o : O)
| RemByZero (o : O).
Arguments Overflow {O} op l r.
Arguments OverflowNeg {O} o.
Arguments DivByZero {O} o.
Arguments RemByZero {O} o.

(** The errors of [InterpError] that operators and assertions raise *)
Inductive OpError :=
| DivisionByZero | RemainderByZero | DivisionOverflow | RemainderOverflow
| UncheckedOverflow (op : BinOp)
| UncheckedShift (op : BinOp) (amount : Z)
| InvalidBool (v : Z) | InvalidChar (v : Z)
| ReadPointerAsInteger
| OpSizeMismatch (e : SizeMismatch)
| PtrArithOverflow
| UnsupportedPointerOp
| ExactDivHasRemainder
| CallNonzeroIntrinsic
| DifferentAllocations | UnsignedOffsetFromOverflow | OffsetFromUnderflow | OffsetFromOverflow
| SizeOverflow
| InvalidUninitBytes
| AssertFailure (msg : AssertKind ConstInt).

Definition R (A : Type) : Type := outcome (result A OpError).
Definition rret {A} (a : A) : R A := Ret (Ok a).
Definition rthrow {A} (e : OpError) : R A := Ret (Err e).
Definition rbind {A B} (m : R A) (k : A → R B) : R B :=
  let! r := m in match r with Ok a => k a | Err e => Ret (Err e) end.
Definition rlift {A} (c : outcome A) : R A := let! a := c in Ret (Ok a).

Declare Scope op_scope.
Notation "'let%' x := m 'in' k" := (rbind m (λ x, k))
  (at level 10, x pattern, m at level 100, k at level 200) : op_scope.
#[local] Open Scope op_scope.

Abbreviation scalar := (Scalar AllocId).

(** [Immediate] and [ImmTy] *)
Inductive Immediate `{U384Api} :=
| IField (f : ScalarField.t)
| IScalar (s : scalar)
| IScalarPair (a b : scalar)
| IUninit.

(** [Scalar::to_bits], after [try_to_int] *)
Definition to_bits (s : scalar) (target_size : Size) : R Z :=
  rassert (negb (Size.bytes target_size =? 0))
    match s with
    | Ptr _ _ => rthrow ReadPointerAsInteger
    | Int i =>
        let! r := ScalarInt.to_bits i target_size in
        match r with
        | Ok b => rret b
        | Err size => rthrow (OpSizeMismatch {| target_size := Size.bytes target_size; data_size := Size.bytes size |})
        end
    end.

Definition from_bool (b : bool) : scalar := Int {| int_data := Z.b2z b; int_size := 1 |}.

(** [to_u8] and [to_u32], with the [unwrap] of the conversion *)
Definition to_uint_n (s : scalar) (bits : Z) : R Z :=
  let% v := to_bits s (Size.from_bits bits) in rlift (rassert (v <? 2 ^ bits) (Ret v)).

Definition to_bool (s : scalar) : R bool :=
  let% val := to_uint_n s 8 in
  if val =? 0 then rret false else if val =? 1 then rret true else rthrow (InvalidBool val).

Definition to_char (s : scalar) : R Z :=
  let% val := to_uint_n s 32 in
  if Chars.is_char val then rret val else rthrow (InvalidChar val).

(** [Scalar::to_int] and [to_target_isize] *)
Definition to_int (s : scalar) (size : Size) : R Z :=
  let% b := to_bits s size in
  let% e := rlift (Size.sign_extend size b) in rret (to_signed 128 e).
Definition to_target_isize (dl : TargetDataLayout) (s : scalar) : R Z :=
  let% b := to_int s (pointer_size dl) in rlift (rassert ((- 2 ^ 63 <=? b) && (b <? 2 ^ 63)) (Ret b)).

(** [Scalar::from_int] with [ScalarInt::try_from_int] *)
Definition from_int (i : Z) (size : Size) : outcome scalar :=
  let! truncated := Size.truncate size (of_signed 128 i) in
  let! e := Size.sign_extend size truncated in
  rassert (to_signed 128 e =? i)
    (let! sz := ScalarInt.nonzero_u8 size in Ret (Int {| int_data := truncated; int_size := sz |})).

(** ** Integers of 128 bits *)

Definition i128_ok (z : Z) : bool := (- 2 ^ 127 <=? z) && (z <? 2 ^ 127).

(** The result of an [i128] operation from the exact one, and whether it overflowed *)
Definition i128_overflowing (z : Z) : Z * bool := (to_signed 128 (wrap 128 z), negb (i128_ok z)).
(** In the same way for [u128] *)
Definition u128_overflowing (z : Z) : Z * bool := (wrap 128 z, negb ((0 <=? z) && (z <? 2 ^ 128))).

(** [i128::overflowing_div] and [overflowing_rem], which panic on zero *)
Definition i128_overflowing_div (a b : Z) : outcome (Z * bool) :=
  rassert (negb (b =? 0)) (Ret (if (a =? - 2 ^ 127) && (b =? -1) then (a, true) else (Z.quot a b, false))).
Definition i128_overflowing_rem (a b : Z) : outcome (Z * bool) :=
  rassert (negb (b =? 0)) (Ret (if b =? -1 then (0, a =? - 2 ^ 127) else (Z.rem a b, false))).

(** [checked_shl(r).unwrap()] and [checked_shr(r).unwrap()] *)
Definition i128_shl (l r : Z) : outcome Z := rassert (r <? 128) (Ret (to_signed 128 (wrap 128 (Z.shiftl l r)))).
Definition i128_shr (l r : Z) : outcome Z := rassert (r <? 128) (Ret (Z.shiftr l r)).
Definition u128_shl (l r : Z) : outcome Z := rassert (r <? 128) (Ret (wrap 128 (Z.shiftl l r))).
Definition u128_shr (l r : Z) : outcome Z := rassert (r <? 128) (Ret (Z.shiftr l r)).

(** ** Evaluation *)

Definition OpResult : Type := scalar * bool * Ty.

Definition binary_char_op (op : BinOp) (l r : Z) : outcome OpResult :=
  let! res :=
    match op with
    | Eq => Ret (l =? r) | Ne => Ret (negb (l =? r))
    | Lt => Ret (l <? r) | Le => Ret (l <=? r) | Gt => Ret (r <? l) | Ge => Ret (r <=? l)
    | _ => Panic
    end in
  Ret (from_bool res, false, Bool).

Definition binary_bool_op (op : BinOp) (l r : bool) : outcome OpResult :=
  let! res :=
    match op with
    | Eq => Ret (eqb l r) | Ne => Ret (negb (eqb l r))
    | Lt => Ret (negb l && r) | Le => Ret (negb l || r) | Gt => Ret (l && negb r) | Ge => Ret (l || negb r)
    | BitAnd => Ret (l && r) | BitOr => Ret (l || r) | BitXor => Ret (xorb l r)
    | _ => Panic
    end in
  Ret (from_bool res, false, Bool).

(** [rustc_apfloat] on bit patterns *)
Class ApFloat := {
  f_eq : FloatTy → Z → Z → bool;
  f_partial_cmp : FloatTy → Z → Z → option comparison;
  f_add : FloatTy → Z → Z → Z; f_sub : FloatTy → Z → Z → Z; f_mul : FloatTy → Z → Z → Z;
  f_div : FloatTy → Z → Z → Z; f_rem : FloatTy → Z → Z → Z;
  f_neg : FloatTy → Z → Z;
  f_from_int : FloatTy → Z → Z;
}.

Definition float_bytes (fty : FloatTy) : Z := match fty with Fl32 => 4 | Fl64 => 8 end.
Definition from_float (fty : FloatTy) (bits : Z) : scalar := Int {| int_data := bits; int_size := float_bytes fty |}.

Definition binary_float_op `{ApFloat} (op : BinOp) (fty : FloatTy) (l r : Z) : outcome OpResult :=
  let cmp (p : option comparison → bool) := Ret (from_bool (p (f_partial_cmp fty l r)), false, Bool) in
  let arith (z : Z) := Ret (from_float fty z, false, FloatT fty) in
  match op with
  | Eq => Ret (from_bool (f_eq fty l r), false, Bool)
  | Ne => Ret (from_bool (negb (f_eq fty l r)), false, Bool)
  | Lt => cmp (λ c, match c with Some Datatypes.Lt => true | _ => false end)
  | Le => cmp (λ c, match c with Some Datatypes.Lt | Some Datatypes.Eq => true | _ => false end)
  | Gt => cmp (λ c, match c with Some Datatypes.Gt => true | _ => false end)
  | Ge => cmp (λ c, match c with Some Datatypes.Gt | Some Datatypes.Eq => true | _ => false end)
  | Add => arith (f_add fty l r) | Sub => arith (f_sub fty l r) | Mul => arith (f_mul fty l r)
  | Div => arith (f_div fty l r) | Rem => arith (f_rem fty l r)
  | _ => Panic
  end.

(** [throw_ub_on_overflow] is set *)
Definition is_unchecked (op : BinOp) : bool :=
  match op with AddUnchecked | SubUnchecked | MulUnchecked | ShlUnchecked | ShrUnchecked => true | _ => false end.

Abbreviation lsize l := (Abi.size (tl_layout l)).

(** [InterpCx::sign_extend], with its assertion, read as [i128] *)
Definition sign_extend (value : Z) (layout : TyAndLayout) : outcome Z :=
  let! signed := Abi.is_signed (layout_abi (tl_layout layout)) in
  rassert signed (Size.sign_extend (lsize layout) value).
Definition sign_extend_i128 (value : Z) (layout : TyAndLayout) : outcome Z :=
  let! e := sign_extend value layout in Ret (to_signed 128 e).

(** Shifts: the amount is taken modulo the size. *)
Definition shift_op (op : BinOp) (l : Z) (left_layout : TyAndLayout) (r : Z) : R OpResult :=
  let% size := rlift (Size.bits (lsize left_layout)) in
  let original_r := r in
  let% _ := rlift (rassert (size <=? 128) (rassert (negb (size =? 0)) (Ret tt))) in
  let overflow := size <=? r in
  let r := r mod size in
  let% signed := rlift (Abi.is_signed (layout_abi (tl_layout left_layout))) in
  let% result := rlift
    (if (signed : bool) then
       let! l := sign_extend_i128 l left_layout in
       let! result := match op with Shl | ShlUnchecked => i128_shl l r | Shr | ShrUnchecked => i128_shr l r | _ => Panic end in
       Ret (of_signed 128 result)
     else match op with Shl | ShlUnchecked => u128_shl l r | Shr | ShrUnchecked => u128_shr l r | _ => Panic end) in
  let% truncated := rlift (Size.truncate (lsize left_layout) result) in
  if overflow && is_unchecked op then rthrow (UncheckedShift op original_r)
  else let% s := rlift (Scalar.from_uint truncated (lsize left_layout)) in rret (s, overflow, tl_ty left_layout).

(** Arithmetic on signed integers; [None] where the operator is another one *)
Definition signed_arith (op : BinOp) (r_is_zero : bool) : option (R (Z → Z → outcome (Z * bool))) :=
  match op with
  | Div => Some (if r_is_zero then rthrow DivisionByZero else rret i128_overflowing_div)
  | Rem => Some (if r_is_zero then rthrow RemainderByZero else rret i128_overflowing_rem)
  | Add | AddUnchecked => Some (rret (λ a b, Ret (i128_overflowing (a + b))))
  | Sub | SubUnchecked => Some (rret (λ a b, Ret (i128_overflowing (a - b))))
  | Mul | MulUnchecked => Some (rret (λ a b, Ret (i128_overflowing (a * b))))
  | _ => None
  end.

Definition signed_cmp (op : BinOp) : option (Z → Z → bool) :=
  match op with
  | Lt => Some Z.ltb | Le => Some Z.leb | Gt => Some Z.gtb | Ge => Some Z.geb | _ => None
  end.

(** The end of an arithmetic operation: truncation that loses information is overflow. *)
Definition finish_signed (op : BinOp) (layout : TyAndLayout) (res : Z * bool) : R OpResult :=
  let '(result, oflo) := res in
  let result := of_signed 128 result in
  let% truncated := rlift (Size.truncate (lsize layout) result) in
  let% e := rlift (sign_extend truncated layout) in
  let overflow := oflo || negb (e =? result) in
  if overflow && is_unchecked op then rthrow (UncheckedOverflow op)
  else let% s := rlift (Scalar.from_uint truncated (lsize layout)) in rret (s, overflow, tl_ty layout).

Definition finish_unsigned (op : BinOp) (layout : TyAndLayout) (res : Z * bool) : R OpResult :=
  let '(result, oflo) := res in
  let% truncated := rlift (Size.truncate (lsize layout) result) in
  let overflow := oflo || negb (truncated =? result) in
  if overflow && is_unchecked op then rthrow (UncheckedOverflow op)
  else let% s := rlift (Scalar.from_uint truncated (lsize layout)) in rret (s, overflow, tl_ty layout).

Definition signed_op (op : BinOp) (f : R (Z → Z → outcome (Z * bool))) (l r : Z) (left_layout right_layout : TyAndLayout) : R OpResult :=
  let% f := f in
  let% l := rlift (sign_extend_i128 l left_layout) in
  let% r := rlift (sign_extend_i128 r right_layout) in
  let% is_ub :=
    match op with
    | Rem | Div => let% min := rlift (Size.signed_int_min (lsize left_layout)) in rret ((l =? min) && (r =? -1))
    | _ => rret false
    end in
  if (is_ub : bool) then rthrow (if decide (op = Rem) then RemainderOverflow else DivisionOverflow)
  else let% res := rlift (f l r) in finish_signed op left_layout res.

(** The operators that do not depend on the sign, and arithmetic on unsigned integers *)
Definition unsigned_op (op : BinOp) (l r : Z) (layout : TyAndLayout) : R OpResult :=
  let cmp (b : bool) := rret (from_bool b, false, Bool) in
  let bits (z : Z) := let% s := rlift (Scalar.from_uint z (lsize layout)) in rret (s, false, tl_ty layout) in
  let arith (f : R (Z * bool)) :=
    let% signed := rlift (Abi.is_signed (layout_abi (tl_layout layout))) in
    let% _ := rlift (rassert (negb signed) (Ret tt)) in
    let% res := f in finish_unsigned op layout res in
  match op with
  | Eq => cmp (l =? r) | Ne => cmp (negb (l =? r))
  | Lt => cmp (l <? r) | Le => cmp (l <=? r) | Gt => cmp (r <? l) | Ge => cmp (r <=? l)
  | BitOr => bits (Z.lor l r) | BitAnd => bits (Z.land l r) | BitXor => bits (Z.lxor l r)
  | Add | AddUnchecked => arith (rret (u128_overflowing (l + r)))
  | Sub | SubUnchecked => arith (rret (u128_overflowing (l - r)))
  | Mul | MulUnchecked => arith (rret (u128_overflowing (l * r)))
  | Div => arith (if r =? 0 then rthrow DivisionByZero else rret (l / r, false))
  | Rem => arith (if r =? 0 then rthrow RemainderByZero else rret (l mod r, false))
  | _ => Panic
  end.

Definition binary_int_op (op : BinOp) (l : Z) (left_layout : TyAndLayout) (r : Z) (right_layout : TyAndLayout) : R OpResult :=
  match op with
  | Shl | ShlUnchecked | Shr | ShrUnchecked => shift_op op l left_layout r
  | _ =>
      let% _ := rlift (rassert (bool_decide (tl_ty left_layout = tl_ty right_layout)) (Ret tt)) in
      let% signed := rlift (Abi.is_signed (layout_abi (tl_layout left_layout))) in
      if (signed : bool) then
        match signed_cmp op with
        | Some f =>
            let% l := rlift (sign_extend_i128 l left_layout) in
            let% r := rlift (sign_extend_i128 r right_layout) in
            rret (from_bool (f l r), false, Bool)
        | None =>
            match signed_arith op (r =? 0) with
            | Some f => signed_op op f l r left_layout right_layout
            | None => unsigned_op op l r left_layout
            end
        end
      else unsigned_op op l r left_layout
  end.

(** ** Immediates *)

Section immediates.
Context `{U384Api} `{ApFloat}.

Record ImmTy := mkImm { imm : Immediate; imm_layout : TyAndLayout }.

Definition to_scalar (i : ImmTy) : outcome scalar :=
  match imm i with IScalar val => Ret val | IField _ | IScalarPair _ _ | IUninit => Panic end.

(** The operands as scalars, and then as numbers *)
Definition to_scalars {A} (conv : scalar → R A) (l r : ImmTy) : R (A * A) :=
  let% l := rlift (to_scalar l) in
  let% r := rlift (to_scalar r) in
  let% a := conv l in let% b := conv r in rret (a, b).

Definition float_bits (fty : FloatTy) (s : scalar) : R Z := to_uint_n s (8 * float_bytes fty).

(** [overflowing_binary_op] on operands that are not pointers, which have their own
    operators *)
Definition overflowing_scalar_op (op : BinOp) (left right : ImmTy) : R OpResult :=
  let same_ty := bool_decide (tl_ty (imm_layout left) = tl_ty (imm_layout right)) in
  match tl_ty (imm_layout left) with
  | Char =>
      let% _ := rlift (rassert same_ty (Ret tt)) in
      let% (l, r) := to_scalars to_char left right in rlift (binary_char_op op l r)
  | Bool =>
      let% _ := rlift (rassert same_ty (Ret tt)) in
      let% (l, r) := to_scalars to_bool left right in rlift (binary_bool_op op l r)
  | FloatT fty =>
      let% _ := rlift (rassert same_ty (Ret tt)) in
      let% (l, r) := to_scalars (float_bits fty) left right in rlift (binary_float_op op fty l r)
  | IntT _ | UintT _ =>
      let% _ := rlift (rassert (is_integral (tl_ty (imm_layout right))) (Ret tt)) in
      let% sl := rlift (to_scalar left) in
      let% l := to_bits sl (lsize (imm_layout left)) in
      let% sr := rlift (to_scalar right) in
      let% r := to_bits sr (lsize (imm_layout right)) in
      binary_int_op op l (imm_layout left) r (imm_layout right)
  | _ => Panic
  end.

Definition overflowing_unary_op (op : UnOp) (val : ImmTy) : R OpResult :=
  let layout := imm_layout val in
  let% val := rlift (to_scalar val) in
  match tl_ty layout with
  | Bool =>
      let% val := to_bool val in
      match op with OpNot => rret (from_bool (negb val), false, Bool) | Neg => Panic end
  | FloatT fty =>
      match op with
      | Neg => let% v := float_bits fty val in rret (from_float fty (f_neg fty v), false, tl_ty layout)
      | OpNot => Panic
      end
  | _ =>
      let% _ := rlift (rassert (is_integral (tl_ty layout)) (Ret tt)) in
      let% val := to_bits val (lsize layout) in
      let% (res, overflow) :=
        match op with
        | OpNot => let% t := rlift (Size.truncate (lsize layout) (wnot 128 val)) in rret (t, false)
        | Neg =>
            let% val := rlift (sign_extend_i128 val layout) in
            let '(res, overflow) := i128_overflowing (- val) in
            let res := of_signed 128 res in
            let% truncated := rlift (Size.truncate (lsize layout) res) in
            let% e := rlift (sign_extend truncated layout) in
            rret (truncated, overflow || negb (e =? res))
        end in
      let% s := rlift (Scalar.from_uint res (lsize layout)) in
      rret (s, overflow, tl_ty layout)
  end.

(** [ImmTy::from_scalar], and the typed versions, which ignore overflow *)
Definition from_scalar (val : scalar) (layout : TyAndLayout) : ImmTy := mkImm (IScalar val) layout.
Definition binary_op (dl : TargetDataLayout) (op : BinOp) (left right : ImmTy) : R ImmTy :=
  let% (val, _, ty) := overflowing_scalar_op op left right in
  let% layout := rlift (layout_of dl ty) in rret (from_scalar val layout).
Definition unary_op (dl : TargetDataLayout) (op : UnOp) (val : ImmTy) : R ImmTy :=
  let% (val, _, ty) := overflowing_unary_op op val in
  let% layout := rlift (layout_of dl ty) in rret (from_scalar val layout).

End immediates.
