(* ===== verification/OperatorProps.v ===== *)
(** Properties of the operators of MIR: integer operators are exact at every width,
    operators that the validator accepts are evaluated and keep types, except on
    fields and curves. *)

From S2P Require Import Prelude.
From S2P Require Import BitSetProps.
From S2P Require Import Chars.
From S2P Require Import Abi.
From S2P Require Import AbiProps.
From S2P Require Import Enum.
From S2P Require Import EnumProps.
From S2P Require Import TaggedProps.
From S2P Require Import Discriminant.
From S2P Require Import DiscriminantProps.
From S2P Require Import Literal.
From S2P Require Import Fields.
From S2P Require Import FieldsProps.
From S2P Require Import Slice.
From S2P Require Import Provenance.
From S2P Require Import Allocation.
From S2P Require Import AllocationProps.
From S2P Require Import Operator.
#[local] Open Scope op_scope.

(** ** Integers of a width *)

(** The number that bits stand for *)
Definition ival (sgn : bool) (w bits : Z) : Z := if sgn then to_signed w bits else bits.

(** The numbers of a type *)
Definition in_range (sgn : bool) (w z : Z) : bool :=
  if sgn then (- 2 ^ (w - 1) <=? z) && (z <? 2 ^ (w - 1)) else (0 <=? z) && (z <? 2 ^ w).

Record int_layout (lay : TyAndLayout) (i : Integer) (sgn : bool) : Prop := {
  il_size : lsize lay = Integer.size i;
  il_signed : Abi.is_signed (layout_abi (tl_layout lay)) = Ret sgn;
}.

Lemma half w : 0 < w → 2 ^ w = 2 * 2 ^ (w - 1).
Proof. intros. replace w with (1 + (w - 1)) at 1 by lia. by rewrite Z.pow_add_r by lia. Qed.

Lemma to_signed_range w b : 0 < w → is_uint w b → - 2 ^ (w - 1) ≤ to_signed w b < 2 ^ (w - 1).
Proof. intros Hw [H1 H2]. pose proof (half w Hw). unfold to_signed. zcases; lia. Qed.

Lemma ival_range sgn w b : 0 < w → is_uint w b → in_range sgn w (ival sgn w b) = true.
Proof.
  intros Hw Hb. unfold in_range, ival. destruct sgn; apply andb_true_iff; rewrite Z.leb_le, Z.ltb_lt; [by apply to_signed_range|done].
Qed.

(** Reading back the low bits of a number gives it exactly if it is in range. *)
Lemma signed_low w z : 0 < w → in_range true w z = bool_decide (to_signed w (z mod 2 ^ w) = z).
Proof.
  intros Hw. unfold in_range. pose proof (to_signed_range w (z mod 2 ^ w) Hw (wrap_bounds w z ltac:(lia))) as Hr.
  destruct (bool_decide (to_signed w (z mod 2 ^ w) = z)) eqn:E.
  - apply bool_decide_eq_true in E. rewrite E in Hr. apply andb_true_iff. rewrite Z.leb_le, Z.ltb_lt. lia.
  - apply bool_decide_eq_false in E. apply not_true_iff_false. rewrite andb_true_iff, Z.leb_le, Z.ltb_lt. intros Hz.
    apply E. by apply (to_signed_of_signed w z).
Qed.

Lemma unsigned_low w z : 0 ≤ w → in_range false w z = bool_decide (z mod 2 ^ w = z).
Proof.
  intros Hw. unfold in_range. pose proof (wrap_bounds w z Hw) as [H1 H2]. unfold wrap in *. apply eq_true_iff_eq.
  rewrite andb_true_iff, Z.leb_le, Z.ltb_lt, bool_decide_eq_true. split; [intros; by apply Z.mod_small|intros <-; lia].
Qed.

Lemma mod_wrap w z : 0 ≤ w ≤ 128 → wrap 128 z mod 2 ^ w = z mod 2 ^ w.
Proof. intros Hw. unfold wrap. apply Z.mod_mod_divide, pow2_divide. lia. Qed.

Lemma i128_signed z : to_signed 128 (wrap 128 z) = z ↔ i128_ok z = true.
Proof. change (i128_ok z) with (in_range true 128 z). rewrite signed_low by lia. by rewrite bool_decide_eq_true. Qed.

(** A number of a narrower type is an [i128]. *)
Lemma in_range_128 w z : 0 < w ≤ 128 → in_range true w z = true → i128_ok z = true.
Proof.
  intros Hw. unfold in_range, i128_ok. rewrite !andb_true_iff, !Z.leb_le, !Z.ltb_lt.
  assert (2 ^ (w - 1) ≤ 2 ^ 127) by (apply Z.pow_le_mono_r; lia). lia.
Qed.

(** ** The parts of the evaluation *)

Section layout.
Context (lay : TyAndLayout) (i : Integer).
Abbreviation w := (int_bits i).

Lemma w_range : 8 ≤ w ≤ 128.
Proof. by destruct i. Qed.

Lemma small_int : small_size (Integer.size i).
Proof. by destruct i. Qed.

Lemma truncate_lay sgn z : int_layout lay i sgn → Size.truncate (lsize lay) (wrap 128 z) = Ret (z mod 2 ^ w).
Proof. intros [-> _]. apply truncate_int. Qed.

Lemma sign_extend_lay z : int_layout lay i true →
  sign_extend (z mod 2 ^ w) lay = Ret (of_signed 128 (to_signed w (z mod 2 ^ w))).
Proof.
  intros [Hs Hg]. unfold sign_extend. rewrite Hg. cbn [obind rassert]. rewrite Hs. pose proof w_range as Hw.
  rewrite sign_extend_value; [|apply small_int|].
  - fold w. by rewrite Z.mod_mod by lia.
  - pose proof (wrap_bounds w z ltac:(lia)) as [H1 H2]. split; [done|]. eapply Z.lt_le_trans; [done|]. apply Z.pow_le_mono_r; lia.
Qed.

Lemma sign_extend_i128_lay b : int_layout lay i true → is_uint w b → sign_extend_i128 b lay = Ret (to_signed w b).
Proof.
  intros Hl Hb. pose proof w_range. unfold sign_extend_i128. pose proof (sign_extend_lay b Hl) as E.
  rewrite (Z.mod_small b) in E by done. rewrite E. cbn [obind]. f_equal. apply to_signed_of_signed; [lia|].
  pose proof (to_signed_range w b ltac:(lia) Hb). assert (2 ^ (w - 1) ≤ 2 ^ 127) by (apply Z.pow_le_mono_r; lia). lia.
Qed.

Definition uint_scalar (b : Z) : scalar := Int {| int_data := b; int_size := Integer.size i |}.

Lemma from_uint_lay sgn b : int_layout lay i sgn → is_uint w b → Scalar.from_uint b (lsize lay) = Ret (uint_scalar b).
Proof.
  intros [-> _] Hb. apply from_uint_ret; [by destruct i|]. by rewrite Z.mul_comm.
Qed.

(** The end of an operation: the number modulo the width, and whether it fits *)
Definition finished (op : BinOp) (sgn : bool) (z : Z) : result OpResult OpError :=
  if negb (in_range sgn w z) && is_unchecked op then Err (UncheckedOverflow op)
  else Ok (uint_scalar (z mod 2 ^ w), negb (in_range sgn w z), tl_ty lay).

(** An [i128] result that is truncated and extended again shows whether it fits. *)
Lemma signed_overflow z :
  negb (i128_ok z) || negb (of_signed 128 (to_signed w (z mod 2 ^ w)) =? wrap 128 z) = negb (in_range true w z).
Proof.
  pose proof w_range as Hw. rewrite signed_low by lia. destruct (bool_decide_reflect (to_signed w (z mod 2 ^ w) = z)) as [E|E].
  - rewrite E. unfold of_signed. rewrite Z.eqb_refl. cbn [negb orb]. rewrite orb_false_r.
    rewrite (in_range_128 w z) by (try lia; rewrite signed_low by lia; by apply bool_decide_eq_true). done.
  - destruct (i128_ok z) eqn:Hz; [|done]. cbn [negb orb]. apply negb_true_iff, Z.eqb_neq. intros E'. apply E.
    apply i128_signed in Hz. rewrite <- Hz at 2. rewrite <- E'. symmetry. apply to_signed_of_signed; [lia|].
    pose proof (to_signed_range w (z mod 2 ^ w) ltac:(lia) (wrap_bounds w z ltac:(lia))).
    assert (2 ^ (w - 1) ≤ 2 ^ 127) by (apply Z.pow_le_mono_r; lia). lia.
Qed.

Lemma of_to_i128 z : of_signed 128 (to_signed 128 (wrap 128 z)) = wrap 128 z.
Proof. apply of_to_signed; [lia|by apply wrap_bounds]. Qed.

Lemma finish_signed_ret op z : int_layout lay i true → finish_signed op lay (i128_overflowing z) = Ret (finished op true z).
Proof.
  intros Hl. pose proof w_range as Hw. unfold finish_signed, i128_overflowing, finished. rewrite of_to_i128.
  rewrite (truncate_lay true) by done. unfold rbind, rlift. cbn [obind]. rewrite sign_extend_lay by done. cbn [obind]. rewrite signed_overflow.
  destruct (negb (in_range true w z) && is_unchecked op); [done|].
  rewrite (from_uint_lay true) by (done || apply wrap_bounds; lia). done.
Qed.

Lemma finish_unsigned_ret op z : int_layout lay i false → finish_unsigned op lay (u128_overflowing z) = Ret (finished op false z).
Proof.
  intros Hl. pose proof w_range as Hw. unfold finish_unsigned, u128_overflowing, finished.
  rewrite (truncate_lay false) by done. unfold rbind, rlift. cbn [obind].
  assert (negb ((0 <=? z) && (z <? 2 ^ 128)) || negb (z mod 2 ^ w =? wrap 128 z) = negb (in_range false w z)) as ->.
  { change ((0 <=? z) && (z <? 2 ^ 128)) with (in_range false 128 z). rewrite !unsigned_low by lia.
    destruct (bool_decide_reflect (z mod 2 ^ w = z)) as [E|E].
    - pose proof (wrap_bounds w z ltac:(lia)) as [H1 H2]. unfold wrap in H1, H2. rewrite E in *.
      assert (2 ^ w ≤ 2 ^ 128) by (apply Z.pow_le_mono_r; lia). unfold wrap. rewrite Z.mod_small by lia. rewrite Z.eqb_refl.
      by rewrite bool_decide_eq_true_2.
    - destruct (bool_decide_reflect (z mod 2 ^ 128 = z)) as [E'|]; [|done]. cbn [negb orb].
      apply negb_true_iff, Z.eqb_neq. unfold wrap. by rewrite E'. }
  destruct (negb (in_range false w z) && is_unchecked op); [done|].
  rewrite (from_uint_lay false) by (done || apply wrap_bounds; lia). done.
Qed.

(** ** What integer operators compute *)

Definition is_shift (op : BinOp) : bool := match op with Shl | ShlUnchecked | Shr | ShrUnchecked => true | _ => false end.

(** A shift by [r], which is taken modulo the width, of a number *)
Definition shifted (op : BinOp) (z r : Z) : result OpResult OpError :=
  if (w <=? r) && is_unchecked op then Err (UncheckedShift op r)
  else Ok (uint_scalar (z mod 2 ^ w), w <=? r, tl_ty lay).

(** Division: by zero, of the smallest number by minus one, and else exact *)
Definition divided (op : BinOp) (sgn : bool) (x y z : Z) (zero overflow : OpError) : result OpResult OpError :=
  if y =? 0 then Err zero else if negb (in_range sgn w (Z.quot x y)) then Err overflow else finished op sgn z.

Definition int_spec (op : BinOp) (sgn : bool) (l r : Z) : result OpResult OpError :=
  let x := ival sgn w l in
  let y := ival sgn w r in
  let cmp b := Ok (from_bool b, false, Bool) in
  match op with
  | Add | AddUnchecked => finished op sgn (x + y)
  | Sub | SubUnchecked => finished op sgn (x - y)
  | Mul | MulUnchecked => finished op sgn (x * y)
  | Div => divided op sgn x y (Z.quot x y) DivisionByZero DivisionOverflow
  | Rem => divided op sgn x y (Z.rem x y) RemainderByZero RemainderOverflow
  | BitAnd => Ok (uint_scalar (Z.land l r), false, tl_ty lay)
  | BitOr => Ok (uint_scalar (Z.lor l r), false, tl_ty lay)
  | BitXor => Ok (uint_scalar (Z.lxor l r), false, tl_ty lay)
  | Shl | ShlUnchecked => shifted op (x * 2 ^ (r mod w)) r
  | Shr | ShrUnchecked => shifted op (x / 2 ^ (r mod w)) r
  | Eq => cmp (x =? y) | Ne => cmp (negb (x =? y)) | Lt => cmp (x <? y) | Le => cmp (x <=? y)
  | Gt => cmp (y <? x) | Ge => cmp (y <=? x)
  | Offset => Err UnsupportedPointerOp
  end.

Lemma ival_eqb sgn a b : is_uint w a → is_uint w b → (ival sgn w a =? ival sgn w b) = (a =? b).
Proof.
  intros [? ?] [? ?]. destruct sgn; [|done]. pose proof w_range. pose proof (half w ltac:(lia)). unfold ival, to_signed.
  apply eq_true_iff_eq. rewrite !Z.eqb_eq. zcases; lia.
Qed.

Lemma is_uint_lxor a b : is_uint w a → is_uint w b → is_uint w (Z.lxor a b).
Proof.
  intros Ha Hb. pose proof w_range. rewrite <- (Z.mod_small a (2 ^ w)), <- (Z.mod_small b (2 ^ w)) by done.
  rewrite <- !Z.land_ones by lia. replace (Z.lxor (Z.land a (Z.ones w)) (Z.land b (Z.ones w))) with (Z.land (Z.lxor a b) (Z.ones w)).
  - rewrite Z.land_ones by lia. apply wrap_bounds. lia.
  - apply Z.bits_inj'. intros n Hn. rewrite !Z.lxor_spec, !Z.land_spec, Z.lxor_spec. by destruct (Z.testbit a n), (Z.testbit b n), (Z.testbit (Z.ones w) n).
Qed.

(** Division of numbers in range: only the smallest one by minus one leaves it. *)
Lemma quot_range x y : in_range true w x = true → y ≠ 0 →
  in_range true w (Z.quot x y) = negb ((x =? - 2 ^ (w - 1)) && (y =? -1)).
Proof.
  unfold in_range. rewrite andb_true_iff, Z.leb_le, Z.ltb_lt. intros Hx Hy. pose proof w_range. pose proof (pow2_pos (w - 1) ltac:(lia)).
  destruct (decide (y = -1)) as [->|Hy1].
  - assert (Z.quot x (-1) = - x) as -> by (pose proof (Z.quot_opp_r x 1 ltac:(lia)) as E; by rewrite Z.quot_1_r in E).
    rewrite Z.eqb_refl, andb_true_r. apply eq_true_iff_eq.
    rewrite andb_true_iff, negb_true_iff, Z.leb_le, Z.ltb_lt, Z.eqb_neq. lia.
  - rewrite (proj2 (Z.eqb_neq y (-1))) by done. rewrite andb_false_r. cbn [negb]. apply andb_true_iff. rewrite Z.leb_le, Z.ltb_lt.
    pose proof (Z.quot_abs x y Hy) as E. assert (Z.abs (Z.quot x y) ≤ Z.abs x) by (rewrite <- E; apply Z.quot_le_upper_bound; nia).
    destruct (decide (x = - 2 ^ (w - 1))) as [->|]; [|lia].
    destruct (decide (y = 1)) as [->|]; [rewrite Z.quot_1_r; lia|].
    assert (Z.abs (Z.quot (- 2 ^ (w - 1)) y) < 2 ^ (w - 1)); [|lia]. rewrite <- E. apply Z.quot_lt_upper_bound; nia.
Qed.

Lemma bits_lay sgn : int_layout lay i sgn → Size.bits (lsize lay) = Ret w.
Proof. intros [-> _]. by destruct i. Qed.

Lemma is_uint_128 b : is_uint w b → is_uint 128 b.
Proof. pose proof w_range. intros [? ?]. split; [done|]. eapply Z.lt_le_trans; [done|]. apply Z.pow_le_mono_r; lia. Qed.

Lemma shift_ret op sgn l r : is_shift op = true → int_layout lay i sgn → is_uint w l → 0 ≤ r →
  shift_op op l lay r = Ret (int_spec op sgn l r).
Proof.
  intros Ho Hl Hu Hr. pose proof w_range as Hw. pose proof (Z.mod_pos_bound r w ltac:(lia)) as Hm. destruct (is_uint_128 l Hu) as [Hl0 Hl1].
  unfold shift_op. rewrite (bits_lay sgn) by done. unfold rbind, rlift. cbn [obind].
  rewrite (proj2 (Z.leb_le w 128)), (proj2 (Z.eqb_neq w 0)) by lia. cbn [rassert negb obind].
  rewrite (il_signed _ _ _ Hl). cbn [obind].
  set (z := match op with Shl | ShlUnchecked => ival sgn w l * 2 ^ (r mod w) | _ => ival sgn w l / 2 ^ (r mod w) end).
  assert ((if sgn then
       let! l := sign_extend_i128 l lay in
       let! result := match op with Shl | ShlUnchecked => i128_shl l (r mod w) | Shr | ShrUnchecked => i128_shr l (r mod w) | _ => Panic end in
       Ret (of_signed 128 result)
     else match op with Shl | ShlUnchecked => u128_shl l (r mod w) | Shr | ShrUnchecked => u128_shr l (r mod w) | _ => Panic end) = Ret (wrap 128 z)) as ->.
  { subst z. unfold i128_shl, i128_shr, u128_shl, u128_shr. rewrite (proj2 (Z.ltb_lt (r mod w) 128)) by lia. cbn [rassert].
    rewrite !Z.shiftl_mul_pow2, !Z.shiftr_div_pow2 by lia.
    destruct sgn; [rewrite sign_extend_i128_lay by done; cbn [obind]; rewrite Z.shiftl_mul_pow2, Z.shiftr_div_pow2 by lia|];
      destruct op; try done; cbn [obind ival]; f_equal; try (apply of_to_signed; [lia|by apply wrap_bounds]).
    all: symmetry; apply wrap_small; split; [apply Z.div_pos; lia|]; eapply Z.le_lt_trans; [|apply Hl1]; apply Z.div_le_upper_bound; nia. }
  cbn [obind]. rewrite (truncate_lay sgn) by done. cbn [obind].
  transitivity (Ret (shifted op z r)); [|destruct op; done]. unfold shifted. destruct ((w <=? r) && is_unchecked op); [done|].
  rewrite (from_uint_lay sgn) by (done || apply wrap_bounds; lia). done.
Qed.

Lemma signed_min_lay : int_layout lay i true → Size.signed_int_min (lsize lay) = Ret (- 2 ^ (w - 1)).
Proof. intros [-> _]. by destruct i. Qed.

(** Division in the range of [i128] is exact. *)
Lemma i128_exact z : i128_ok z = true → i128_overflowing z = (z, false).
Proof. intros Hz. unfold i128_overflowing. rewrite Hz. f_equal. by apply i128_signed. Qed.

Lemma rem_range x y : in_range true w x = true → y ≠ 0 → in_range true w (Z.rem x y) = true.
Proof.
  unfold in_range. rewrite !andb_true_iff, !Z.leb_le, !Z.ltb_lt. intros Hx Hy. pose proof (Z.rem_abs x y Hy) as E.
  pose proof (Z.rem_bound_pos (Z.abs x) (Z.abs y) ltac:(lia) ltac:(lia)). pose proof (Z.rem_le (Z.abs x) (Z.abs y) ltac:(lia) ltac:(lia)).
  pose proof (Z.rem_sign_nz x y Hy). pose proof (Z.rem_nonneg x y Hy). pose proof (Z.rem_nonpos x y Hy). lia.
Qed.

(** No overflow at the width of the type is none of [i128] either. *)
Lemma min_128 x y : in_range true w x = true → (x =? - 2 ^ (w - 1)) && (y =? -1) = false → (x =? - 2 ^ 127) && (y =? -1) = false.
Proof.
  unfold in_range. rewrite andb_true_iff, !andb_false_iff, !Z.eqb_neq, Z.leb_le, Z.ltb_lt. pose proof w_range.
  assert (2 ^ (w - 1) ≤ 2 ^ 127) by (apply Z.pow_le_mono_r; lia). lia.
Qed.

Lemma i128_div_ret op x y : op = Div ∨ op = Rem → in_range true w x = true → y ≠ 0 → (x =? - 2 ^ (w - 1)) && (y =? -1) = false →
  (if decide (op = Rem) then i128_overflowing_rem else i128_overflowing_div) x y
  = Ret (i128_overflowing (if decide (op = Rem) then Z.rem x y else Z.quot x y)).
Proof.
  intros Ho Hx Hy Hm. pose proof w_range. pose proof (min_128 x y Hx Hm) as Hm'.
  rewrite i128_exact.
  2: { apply (in_range_128 w); [lia|]. case_decide; [by apply rem_range|]. rewrite quot_range by done. by rewrite Hm. }
  unfold i128_overflowing_rem, i128_overflowing_div. case_decide; rewrite (proj2 (Z.eqb_neq y 0)) by done; cbn [negb rassert].
  - destruct (Z.eqb_spec y (-1)) as [->|]; [|done]. rewrite andb_true_r in Hm'. rewrite Hm'.
    pose proof (Z.rem_opp_r x 1 ltac:(lia)) as E. rewrite Z.rem_1_r in E. change (- (1)) with (-1) in E. by rewrite E.
  - by rewrite Hm'.
Qed.

End layout.

(** ** Integer operators *)

Section operands.
Context (lay rlay : TyAndLayout) (i : Integer) (l r : Z).
Abbreviation w := (int_bits i).
Context (Hl : is_uint w l) (Hr : is_uint w r).
Abbreviation spec := (int_spec lay i).

Lemma ival_zero sgn : (ival sgn w r =? 0) = (r =? 0).
Proof. pose proof (w_range i). rewrite <- (ival_eqb i sgn r 0) by (done || split; lia). destruct sgn; [|done]. unfold ival, to_signed. by destruct i. Qed.

Lemma signed_div_ret op : op = Div ∨ op = Rem → int_layout lay i true → int_layout rlay i true → r ≠ 0 →
  signed_op op (rret (if decide (op = Rem) then i128_overflowing_rem else i128_overflowing_div)) l r lay rlay = Ret (spec op true l r).
Proof.
  intros Ho Hll Hrl H0. pose proof (w_range i) as Hw. pose proof (ival_zero true) as Hz. rewrite (proj2 (Z.eqb_neq r 0)) in Hz by done.
  pose proof (ival_range true w l ltac:(lia) Hl) as Hx. unfold signed_op, rret, rbind. cbn [obind].
  rewrite (sign_extend_i128_lay lay i), (sign_extend_i128_lay rlay i) by done. unfold rlift. cbn [obind].
  rewrite (signed_min_lay lay i) by done. cbn [obind].
  transitivity (Ret (divided lay i op true (to_signed w l) (to_signed w r)
    (if decide (op = Rem) then Z.rem (to_signed w l) (to_signed w r) else Z.quot (to_signed w l) (to_signed w r))
    (if decide (op = Rem) then RemainderByZero else DivisionByZero) (if decide (op = Rem) then RemainderOverflow else DivisionOverflow)));
    [|by destruct Ho as [-> | ->]].
  unfold divided. unfold ival in Hz, Hx. rewrite Hz. rewrite (quot_range i) by (done || by apply Z.eqb_neq).
  rewrite negb_involutive.
  assert ((match op with Rem | Div => Ret (Ok ((to_signed w l =? - 2 ^ (w - 1)) && (to_signed w r =? -1))) | _ => Ret (Ok false) end : R bool)
    = Ret (Ok ((to_signed w l =? - 2 ^ (w - 1)) && (to_signed w r =? -1)))) as -> by (by destruct Ho as [-> | ->]).
  cbn [obind]. destruct (_ && _) eqn:E; [done|].
  rewrite (i128_div_ret i) by (done || by apply Z.eqb_neq). cbn [obind]. by apply finish_signed_ret.
Qed.

Lemma signed_arith_ret op g : op ≠ Div → op ≠ Rem → int_layout lay i true → int_layout rlay i true →
  signed_op op (rret (λ a b, Ret (i128_overflowing (g a b)))) l r lay rlay
  = Ret (finished lay i op true (g (to_signed w l) (to_signed w r))).
Proof.
  intros Ho1 Ho2 Hll Hrl. unfold signed_op, rret, rbind. cbn [obind].
  rewrite (sign_extend_i128_lay lay i), (sign_extend_i128_lay rlay i) by done. unfold rlift. cbn [obind].
  destruct op; try done; cbn [obind]; by apply finish_signed_ret.
Qed.

(** Operators on bits do not depend on the sign. *)
Lemma bit_op_ret op sgn : int_layout lay i sgn → op = BitAnd ∨ op = BitOr ∨ op = BitXor →
  unsigned_op op l r lay = Ret (spec op sgn l r).
Proof.
  intros Hll Ho. pose proof (w_range i) as Hw. unfold unsigned_op, rbind, rlift, rret.
  destruct Ho as [-> |[-> | ->]]; cbn [int_spec];
    [rewrite (from_uint_lay lay i sgn) by (done || apply is_uint_land; (lia || apply Hr || done))
    |rewrite (from_uint_lay lay i sgn) by (done || apply is_uint_lor; (lia || done))
    |rewrite (from_uint_lay lay i sgn) by (done || by apply is_uint_lxor)]; done.
Qed.

Lemma eq_op_ret op sgn : op = Eq ∨ op = Ne → unsigned_op op l r lay = Ret (spec op sgn l r).
Proof. intros [-> | ->]; unfold unsigned_op; cbn [int_spec]; by rewrite ival_eqb. Qed.

Lemma udiv_range : r ≠ 0 → in_range false w (l / r) = true ∧ in_range false w (l mod r) = true.
Proof.
  intros H0. unfold in_range. rewrite !andb_true_iff, !Z.leb_le, !Z.ltb_lt. destruct Hl, Hr.
  pose proof (Z.mod_pos_bound l r ltac:(lia)). pose proof (Z.div_pos l r ltac:(lia) ltac:(lia)).
  pose proof (Z.div_le_upper_bound l r l ltac:(lia) ltac:(nia)). lia.
Qed.

Lemma unsigned_div_ret op : int_layout lay i false → op = Div ∨ op = Rem → unsigned_op op l r lay = Ret (spec op false l r).
Proof.
  intros Hll Ho. pose proof (w_range i) as Hw. unfold unsigned_op. rewrite (il_signed _ _ _ Hll). unfold rbind, rlift, rret. cbn [obind negb rassert].
  assert (∀ z, in_range false w z = true → (z, false) = u128_overflowing z) as Hex.
  { intros z Hz. unfold u128_overflowing. change ((0 <=? z) && (z <? 2 ^ 128)) with (in_range false 128 z).
    unfold in_range in Hz. rewrite andb_true_iff, Z.leb_le, Z.ltb_lt in Hz. destruct (is_uint_128 i z) as [? ?]; [done|].
    rewrite wrap_small by done. unfold in_range. by rewrite (proj2 (Z.leb_le 0 z)), (proj2 (Z.ltb_lt z (2 ^ 128))) by done. }
  destruct Ho as [-> | ->]; cbn [int_spec ival]; unfold divided; destruct (Z.eqb_spec r 0) as [|H0]; try done; destruct (udiv_range H0) as [Hq Hm];
    cbn [obind]; destruct Hl, Hr; rewrite Z.quot_div_nonneg by lia; rewrite Hq; cbn [negb];
    rewrite Hex by done; rewrite ?Z.rem_mod_nonneg by lia; by apply finish_unsigned_ret.
Qed.

Lemma unsigned_op_ret op : int_layout lay i false → is_shift op = false → op ≠ Offset → unsigned_op op l r lay = Ret (spec op false l r).
Proof.
  intros Hll Hs Ho. destruct op; try done.
  all: try (by apply unsigned_div_ret; auto). all: try (by apply bit_op_ret; auto). 
  all: unfold unsigned_op, rbind, rlift, rret; rewrite (il_signed _ _ _ Hll); cbn [obind negb rassert]; by apply finish_unsigned_ret.
Qed.

(** A signed comparison, as the code looks it up *)
Lemma signed_cmp_ret op f : signed_cmp op = Some f → int_layout lay i true → int_layout rlay i true →
  (let% a := rlift (sign_extend_i128 l lay) in let% b := rlift (sign_extend_i128 r rlay) in rret (from_bool (f a b), false, Bool))
  = Ret (spec op true l r).
Proof.
  intros Hf Hll Hrl. rewrite (sign_extend_i128_lay lay i), (sign_extend_i128_lay rlay i) by done. unfold rlift, rbind, rret. cbn [obind].
  destruct op; try done; injection Hf as <-; cbn [int_spec ival]; by rewrite ?Z.gtb_ltb, ?Z.geb_leb.
Qed.

Lemma signed_int_ret op : int_layout lay i true → int_layout rlay i true → is_shift op = false → op ≠ Offset →
  match signed_cmp op with
  | Some f =>
      let% a := rlift (sign_extend_i128 l lay) in let% b := rlift (sign_extend_i128 r rlay) in rret (from_bool (f a b), false, Bool)
  | None =>
      match signed_arith op (r =? 0) with Some f => signed_op op f l r lay rlay | None => unsigned_op op l r lay end
  end = Ret (spec op true l r).
Proof.
  intros Hll Hrl Hs Ho. destruct (signed_cmp op) as [f|] eqn:Ec; [by apply signed_cmp_ret|].
  pose proof (ival_zero true) as Hz.
  destruct op; try done; cbn [signed_arith];
    try (by apply signed_arith_ret); try (by apply bit_op_ret; auto); try (by apply eq_op_ret; auto).
  all: destruct (Z.eqb_spec r 0) as [|H0]; [cbn [int_spec]; unfold divided; by rewrite Hz|].
  - by apply (signed_div_ret Div); auto.
  - by apply (signed_div_ret Rem); auto.
Qed.

Lemma binary_int_ret op sgn : int_layout lay i sgn → int_layout rlay i sgn → tl_ty lay = tl_ty rlay → is_shift op = false → op ≠ Offset →
  binary_int_op op l lay r rlay = Ret (spec op sgn l r).
Proof.
  intros Hll Hrl Ht Hs Ho.
  transitivity (if sgn then match signed_cmp op with
    | Some f =>
        let% a := rlift (sign_extend_i128 l lay) in let% b := rlift (sign_extend_i128 r rlay) in rret (from_bool (f a b), false, Bool)
    | None =>
        match signed_arith op (r =? 0) with Some f => signed_op op f l r lay rlay | None => unsigned_op op l r lay end
    end else unsigned_op op l r lay).
  - unfold binary_int_op. rewrite (bool_decide_eq_true_2 _ Ht), (il_signed _ _ _ Hll). destruct op; try done; by destruct sgn.
  - destruct sgn; [by apply signed_int_ret|by apply unsigned_op_ret].
Qed.
End operands.

(** The layouts of a right operand that an operator takes: the ones of the left operand,
    except for the amount of a shift *)
Definition right_ok (op : BinOp) (lay rlay : TyAndLayout) (i : Integer) (sgn : bool) (r : Z) : Prop :=
  if is_shift op then is_uint 128 r
  else tl_ty lay = tl_ty rlay ∧ int_layout rlay i sgn ∧ is_uint (int_bits i) r.

Lemma binary_int_exact op lay rlay i sgn l r :
  op ≠ Offset → int_layout lay i sgn → is_uint (int_bits i) l → right_ok op lay rlay i sgn r →
  binary_int_op op l lay r rlay = Ret (int_spec lay i op sgn l r).
Proof.
  intros Ho Hll Hl Hr. unfold right_ok in Hr. destruct (is_shift op) eqn:Hs.
  - rewrite <- (shift_ret lay i op sgn l r) by (done || apply Hr). by destruct op.
  - destruct Hr as (Ht & Hrl & Hr). by apply binary_int_ret.
Qed.

(** C21. Integer operators are exact at every width and sign: on the bits of two numbers of
    an integer type the interpreter gives the exact result modulo the width of the type,
    flags overflow exactly when that result is not a number of the type, compares as
    numbers, takes the amount of a shift modulo the width and flags it from the width on,
    fails exactly for division by zero and for the smallest number divided by minus one,
    and for overflow of an unchecked operator; it never panics. *)
Theorem int_op_exact op lay rlay i sgn l r :
  op ≠ Offset → int_layout lay i sgn → is_uint (int_bits i) l → right_ok op lay rlay i sgn r →
  binary_int_op op l lay r rlay = Ret (int_spec lay i op sgn l r).
Proof. apply binary_int_exact. Qed.

(** ** Operators that the validator accepts *)

(** The integer and the sign of a type *)
Definition int_of_ty (dl : TargetDataLayout) (ty : Ty) : outcome (Integer * bool) :=
  match ty with
  | IntT t => let! i := from_int_ty dl t in Ret (i, true)
  | UintT t => let! i := from_uint_ty dl t in Ret (i, false)
  | _ => Panic
  end.

(** The types that constant evaluation has operators for, apart from pointers *)
Definition is_primitive (ty : Ty) : bool :=
  match ty with Bool | Char | IntT _ | UintT _ | FloatT _ => true | _ => false end.

(** A value of a type *)
Definition valid_scalar (dl : TargetDataLayout) (ty : Ty) (s : scalar) : Prop :=
  match ty with
  | Bool => ∃ b, s = from_bool b
  | Char => ∃ c, Chars.is_char c = true ∧ s = Int {| int_data := c; int_size := 4 |}
  | IntT _ | UintT _ => ∃ i sgn z, int_of_ty dl ty = Ret (i, sgn) ∧ is_uint (int_bits i) z ∧ s = uint_scalar i z
  | FloatT fty => ∃ z, is_uint (8 * float_bytes fty) z ∧ s = from_float fty z
  | _ => False
  end.

Lemma scalar_layout_int dl i sgn lay ty : scalar_layout dl (Abi.Int i sgn) = Ret lay → int_layout (mkTyLayout ty lay) i sgn.
Proof.
  destruct i; cbn; intros H; injection H as <-; by split.
Qed.

Lemma int_layout_of dl ty lay : is_integral ty = true → layout_of dl ty = Ret lay →
  ∃ i sgn, int_of_ty dl ty = Ret (i, sgn) ∧ int_layout lay i sgn ∧ tl_ty lay = ty.
Proof.
  unfold layout_of, int_of_ty. intros Hi H. destruct ty as [| |t|t| | | | | | | |]; try done.
  - destruct (from_int_ty dl t) as [i|] eqn:E; try done. cbn [obind] in *. destruct (scalar_layout dl (Abi.Int i true)) as [l|] eqn:El; try done.
    injection H as <-. exists i, true. split_and!; [done| |done]. by eapply scalar_layout_int.
  - destruct (from_uint_ty dl t) as [i|] eqn:E; try done. cbn [obind] in *. destruct (scalar_layout dl (Abi.Int i false)) as [l|] eqn:El; try done.
    injection H as <-. exists i, false. split_and!; [done| |done]. by eapply scalar_layout_int.
Qed.

Lemma layout_of_ty dl ty lay : layout_of dl ty = Ret lay → tl_ty lay = ty.
Proof. unfold layout_of. intros H. destruct (match ty with Bool => _ | _ => _ end); [|done]. by injection H as <-. Qed.

Section soundness.
Context `{U384Api} `{ApFloat} (dl : TargetDataLayout).

(** An immediate of a type *)
Definition typed (ty : Ty) (x : ImmTy) : Prop :=
  layout_of dl ty = Ret (imm_layout x) ∧ ∃ s, imm x = IScalar s ∧ valid_scalar dl ty s.

Lemma to_scalar_typed ty x : typed ty x → ∃ s, to_scalar x = Ret s ∧ valid_scalar dl ty s.
Proof. intros (_ & s & E & Hs). exists s. unfold to_scalar. by rewrite E. Qed.

Lemma to_bool_from b : to_bool (from_bool b) = rret b.
Proof. by destruct b. Qed.

Lemma is_char_bounds c : Chars.is_char c = true → 0 ≤ c < 2 ^ 32.
Proof. unfold Chars.is_char. zcases; lia. Qed.

Lemma to_uint_n_int n z : n = 4 ∨ n = 8 → is_uint (8 * n) z → to_uint_n (Int {| int_data := z; int_size := n |}) (8 * n) = rret z.
Proof.
  intros Hn [_ Hz]. apply Z.ltb_lt in Hz. unfold to_uint_n.
  destruct Hn as [-> | ->]; (change (to_bits _ _) with (rret z); unfold rbind, rlift, rret; cbn [obind]; by rewrite Hz).
Qed.

Lemma to_char_char c : Chars.is_char c = true → to_char (Int {| int_data := c; int_size := 4 |}) = rret c.
Proof.
  intros Hc. unfold to_char. change 32 with (8 * 4). rewrite to_uint_n_int by (by left || by apply is_char_bounds).
  unfold rbind, rret. cbn [obind]. by rewrite Hc.
Qed.

Lemma float_bits_float fty z : is_uint (8 * float_bytes fty) z → float_bits fty (from_float fty z) = rret z.
Proof. intros Hz. apply to_uint_n_int; [|done]. destruct fty; [by left|by right]. Qed.

Lemma to_bits_int i sgn lay z : int_layout lay i sgn → to_bits (uint_scalar i z) (lsize lay) = rret z.
Proof. intros [-> _]. by destruct i. Qed.

Lemma to_scalars_typed {A} (conv : scalar → R A) ty x y :
  (∀ s, valid_scalar dl ty s → ∃ a, conv s = rret a) → typed ty x → typed ty y → ∃ a b, to_scalars conv x y = rret (a, b).
Proof.
  intros Hc Hx Hy. destruct (to_scalar_typed _ _ Hx) as (s & Es & Hs), (to_scalar_typed _ _ Hy) as (s' & Es' & Hs').
  unfold to_scalars. rewrite Es, Es'. unfold rbind, rlift. cbn [obind].
  destruct (Hc s Hs) as (a & ->), (Hc s' Hs') as (b & ->). by exists a, b.
Qed.

(** The errors of an operator: of a division, and of an operator that is not checked *)
Definition op_error (op : BinOp) (e : OpError) : bool :=
  match op, e with
  | Div, (DivisionByZero | DivisionOverflow) | Rem, (RemainderByZero | RemainderOverflow)
  | (AddUnchecked | SubUnchecked | MulUnchecked), UncheckedOverflow _
  | (ShlUnchecked | ShrUnchecked), UncheckedShift _ _ => true
  | _, _ => false
  end.

(** Evaluation that does not panic, and gives a value of the type of the operator *)
Definition sound (op : BinOp) (a b : Ty) (m : R OpResult) : Prop :=
  ∃ o, m = Ret o ∧ match o with
    | Ok (s, _, t) => binop_ty op a b = Ret t ∧ valid_scalar dl t s
    | Err e => op_error op e = true
    end.

Lemma sound_ret op a b s f t : binop_ty op a b = Ret t → valid_scalar dl t s → sound op a b (rret (s, f, t)).
Proof. intros. by exists (Ok (s, f, t)). Qed.

Lemma uint_scalar_valid ty i sgn z : int_of_ty dl ty = Ret (i, sgn) → is_uint (int_bits i) z → valid_scalar dl ty (uint_scalar i z).
Proof. intros E Hz. destruct ty; try done; by exists i, sgn, z. Qed.

Definition is_comparison (op : BinOp) : bool := match op with Eq | Lt | Le | Ne | Ge | Gt => true | _ => false end.

Lemma binop_ty_same op a : is_primitive a = true → is_comparison op = false → binop_ty op a a = Ret a.
Proof. intros Ha Ho. unfold binop_ty. rewrite bool_decide_eq_true_2 by done. by destruct op, a. Qed.

(** The end of integer arithmetic *)
Lemma finished_sound op a b lay i sgn z : is_shift op = false → binop_ty op a b = Ret (tl_ty lay) →
  int_of_ty dl (tl_ty lay) = Ret (i, sgn) → sound op a b (Ret (finished lay i op sgn z)).
Proof.
  intros Hs Hb Ei. pose proof (w_range i). unfold finished. eexists. split; [done|].
  destruct (negb (in_range sgn (int_bits i) z)); cbn [andb]; [destruct (is_unchecked op) eqn:Eu|].
  2, 3: split; [done|]; eapply uint_scalar_valid; [done|apply wrap_bounds; lia].
  by destruct op.
Qed.

Lemma shifted_sound op a b lay i sgn z r : is_shift op = true → binop_ty op a b = Ret (tl_ty lay) →
  int_of_ty dl (tl_ty lay) = Ret (i, sgn) → sound op a b (Ret (shifted lay i op z r)).
Proof.
  intros Hs Hb Ei. pose proof (w_range i). unfold shifted. eexists. split; [done|].
  destruct (int_bits i <=? r); cbn [andb]; [destruct (is_unchecked op) eqn:Eu|].
  2, 3: split; [done|]; eapply uint_scalar_valid; [done|apply wrap_bounds; lia].
  by destruct op.
Qed.

Lemma int_spec_sound op b lay i sgn l r : let a := tl_ty lay in
  is_integral a = true → op ≠ Offset → (binop_right_homogeneous op = true → a = b) → int_of_ty dl a = Ret (i, sgn) →
  is_uint (int_bits i) l → (is_shift op = false → is_uint (int_bits i) r) → sound op a b (Ret (int_spec lay i op sgn l r)).
Proof.
  intros a Hi Ho Hh Ei Hl Hr. pose proof (w_range i) as Hw.
  assert (is_primitive a = true) as Hp by (by destruct a).
  destruct (is_shift op) eqn:Hs; [by destruct op; try done; cbn [int_spec]; eapply shifted_sound|].
  specialize (Hr eq_refl). rewrite <- Hh in * by (by destruct op).
  assert (∀ x, sound op a a (Ret (Ok (from_bool x, false, Bool))) ∨ is_comparison op = false) as Hc.
  { intros x. destruct (is_comparison op) eqn:Ec; [left|by right]. exists (Ok (from_bool x, false, Bool)). split; [done|]. split; [by destruct op|by exists x]. }
  assert (∀ z, is_uint (int_bits i) z → is_comparison op = false → sound op a a (Ret (Ok (uint_scalar i z, false, tl_ty lay)))) as Hb.
  { intros z Hz Hn. eexists. split; [done|]. split; [by apply binop_ty_same|by eapply uint_scalar_valid]. }
  destruct op; try done; cbn [int_spec]; unfold divided;
    try (by eapply finished_sound; [done|by apply binop_ty_same|done]); try (by match goal with |- context [from_bool ?x] => destruct (Hc x) end).
  all: try (apply Hb; [|done]; [apply is_uint_lxor || apply is_uint_land || apply is_uint_lor]; lia || apply Hr || done).
  all: destruct (_ =? 0); [by eexists|]; destruct (negb _); [by eexists|]; eapply finished_sound; [done|by apply binop_ty_same|done].
Qed.

(** What the validator asks of primitive types *)
Definition op_for (op : BinOp) (ty : Ty) : bool :=
  match ty with
  | Char => is_comparison op
  | Bool => is_comparison op || match op with BitAnd | BitOr | BitXor => true | _ => false end
  | FloatT _ => is_comparison op || match op with Add | Sub | Mul | Div | Rem => true | _ => false end
  | IntT _ | UintT _ => bool_decide (op ≠ Offset)
  | _ => false
  end.

Lemma validated_primitive mav op a b :
  (∀ a b, is_primitive a = true → is_primitive b = true → mav a b = true → a = b) → is_primitive a = true → is_primitive b = true →
  validate_binary_op mav op a b = Ret true →
  op_for op a = true ∧ (binop_right_homogeneous op = true → a = b) ∧ is_integral a = is_integral b.
Proof.
  intros Hmav Ha Hb Hv. specialize (Hmav a b Ha Hb).
  assert (is_field a = false ∧ is_field b = false ∧ is_curve a = false ∧ is_curve b = false) as (Ha1 & Hb1 & Ha2 & Hb2) by (by destruct a, b).
  assert (binop_right_homogeneous op = true → a = b) as Hh.
  { intros Hh. unfold validate_binary_op in Hv. rewrite Ha1, Hb1, Ha2, Hb2, Hh in Hv. cbn [orb andb] in Hv.
    destruct op; try done; cbn [obind] in Hv; injection Hv as Hv; apply andb_true_iff in Hv as [Hv _];
      first [by apply Hmav|by apply bool_decide_eq_true in Hv]. }
  split_and!; [|done|].
  - unfold validate_binary_op in Hv. rewrite Ha1, Hb1, Ha2, Hb2 in Hv. cbn [orb andb] in Hv.
    destruct op; try done; cbn [obind] in Hv; injection Hv as Hv; unfold check_both in Hv; rewrite ?andb_true_iff in Hv; destruct_and? Hv; by destruct a.
  - destruct (binop_right_homogeneous op) eqn:E; [by rewrite Hh|].
    unfold validate_binary_op in Hv. destruct op; try done; cbn [obind] in Hv; injection Hv as Hv;
      unfold check_both in Hv; rewrite ?andb_true_iff in Hv; destruct_and? Hv; by destruct a, b.
Qed.

(** Floating-point numbers have the width of their type. *)
Context (f_width : ∀ fty l r, let ok := is_uint (8 * float_bytes fty) in
  ok (f_add fty l r) ∧ ok (f_sub fty l r) ∧ ok (f_mul fty l r) ∧ ok (f_div fty l r) ∧ ok (f_rem fty l r) ∧ ok (f_neg fty l)).

Lemma comparison_sound op a b x : is_comparison op = true → sound op a b (rret (from_bool x, false, Bool)).
Proof. intros Ho. apply sound_ret; [by destruct op|by exists x]. Qed.

Lemma char_sound op x y : op_for op Char = true → typed Char x → typed Char y → sound op Char Char (overflowing_scalar_op op x y).
Proof.
  intros Ho Hx Hy. unfold overflowing_scalar_op. rewrite (layout_of_ty _ _ _ (proj1 Hx)), (layout_of_ty _ _ _ (proj1 Hy)).
  destruct (to_scalars_typed to_char Char x y) as (l & r & ->); [|done|done|].
  { intros s (c & Hc & ->). exists c. by apply to_char_char. }
  destruct op; try done; by apply comparison_sound.
Qed.

Lemma bool_sound op x y : op_for op Bool = true → typed Bool x → typed Bool y → sound op Bool Bool (overflowing_scalar_op op x y).
Proof.
  intros Ho Hx Hy. unfold overflowing_scalar_op. rewrite (layout_of_ty _ _ _ (proj1 Hx)), (layout_of_ty _ _ _ (proj1 Hy)).
  destruct (to_scalars_typed to_bool Bool x y) as (l & r & ->); [|done|done|].
  { intros s (c & ->). exists c. by apply to_bool_from. }
  destruct op; try done; first [by apply comparison_sound|apply sound_ret; [done|by eexists]].
Qed.

Lemma float_sound op fty x y : let t := FloatT fty in op_for op t = true → typed t x → typed t y →
  sound op t t (overflowing_scalar_op op x y).
Proof.
  intros t Ho Hx Hy. unfold overflowing_scalar_op. rewrite (layout_of_ty _ _ _ (proj1 Hx)), (layout_of_ty _ _ _ (proj1 Hy)).
  cbn [t]. rewrite bool_decide_eq_true_2 by done. destruct (to_scalars_typed (float_bits fty) t x y) as (l & r & ->); [|done|done|].
  { intros s (c & Hc & ->). exists c. by apply float_bits_float. }
  destruct op; try done; try by apply comparison_sound.
  all: apply sound_ret; [by apply binop_ty_same|]; eexists; split; [|done]; by destruct (f_width fty l r) as (? & ? & ? & ? & ? & ?).
Qed.

Lemma int_sound op a b x y : is_integral a = true → is_integral b = true → op ≠ Offset → (binop_right_homogeneous op = true → a = b) →
  typed a x → typed b y → sound op a b (overflowing_scalar_op op x y).
Proof.
  intros Ha Hb Ho Hh Hx Hy. destruct (to_scalar_typed _ _ Hx) as (s & Es & Hs), (to_scalar_typed _ _ Hy) as (s' & Es' & Hs').
  destruct (int_layout_of dl a _ Ha (proj1 Hx)) as (i & sgn & Ei & Hl & Et), (int_layout_of dl b _ Hb (proj1 Hy)) as (j & sgn' & Ej & Hl' & Et').
  assert (∃ z, is_uint (int_bits i) z ∧ s = uint_scalar i z) as (l & Hz & ->).
  { destruct a; try done; destruct Hs as (i' & g & z & E & Hz & ->); rewrite Ei in E; injection E as <- <-; by exists z. }
  assert (∃ z, is_uint (int_bits j) z ∧ s' = uint_scalar j z) as (r & Hz' & ->).
  { destruct b; try done; destruct Hs' as (i' & g & z & E & Hz' & ->); rewrite Ej in E; injection E as <- <-; by exists z. }
  assert (overflowing_scalar_op op x y = binary_int_op op l (imm_layout x) r (imm_layout y)) as ->.
  { unfold overflowing_scalar_op. rewrite Et, Et', Hb, Es, Es'. unfold rlift, rbind. cbn [rassert obind].
    rewrite (to_bits_int i sgn), (to_bits_int j sgn') by done. by destruct a. }
  assert (is_shift op = false → a = b ∧ i = j ∧ sgn = sgn') as Hsame.
  { intros. rewrite Hh in * by (by destruct op). rewrite Ei in Ej. by injection Ej as <- <-. }
  rewrite <- Et. rewrite (binary_int_exact op _ _ i sgn); [|done|done|done|].
  - apply int_spec_sound; rewrite ?Et; try done. intros Hs0. by destruct (Hsame Hs0) as (_ & -> & _).
  - unfold right_ok. destruct (is_shift op) eqn:Hs0; [by apply (is_uint_128 j)|]. destruct (Hsame eq_refl) as (Hab & -> & ->). by rewrite Et, Et'.
Qed.

Lemma primitive_sound op a b x y : is_primitive a = true → is_primitive b = true → op_for op a = true →
  (binop_right_homogeneous op = true → a = b) → is_integral a = is_integral b → typed a x → typed b y →
  sound op a b (overflowing_scalar_op op x y).
Proof.
  intros Ha Hb Ho Hh Hi Hx Hy. destruct (is_integral a) eqn:Ea.
  - apply int_sound; [done|done| |done|done|done]. destruct a; try done; by apply bool_decide_eq_true in Ho.
  - assert (a = b) as <- by (apply Hh; destruct a; try done; by destruct op).
    destruct a; try done; [by apply bool_sound|by apply char_sound|by apply float_sound].
Qed.

Lemma binop_ty_layout op a b t x y : binop_ty op a b = Ret t → typed a x → typed b y → ∃ lay, layout_of dl t = Ret lay.
Proof.
  intros Ht [Hx _] [Hy _]. assert (t = a ∨ t = b ∨ t = Bool) as [-> |[-> | ->]]; [|by eexists..].
  unfold binop_ty, rassert in Ht. destruct op; repeat case_match; try done; injection Ht as <-; auto.
Qed.

Lemma sound_typed op a b x y : typed a x → typed b y → sound op a b (overflowing_scalar_op op x y) →
  ∃ res, binary_op dl op x y = Ret res ∧
    match res with Ok z => ∃ t, binop_ty op a b = Ret t ∧ typed t z | Err e => op_error op e = true end.
Proof.
  intros Hx Hy (o & Ho & H1). unfold binary_op. rewrite Ho. unfold rbind. cbn [obind]. destruct o as [[[s f] t]|e]; [|by eexists].
  destruct H1 as [Ht Hs]. destruct (binop_ty_layout _ _ _ _ _ _ Ht Hx Hy) as [lay El]. rewrite El. unfold rlift, rret. cbn [obind].
  eexists. split; [done|]. exists t. split; [done|]. split; [done|]. by exists s.
Qed.

(** The number and the overflow of an operator on one integer *)
Definition un_spec (op : UnOp) (sgn : bool) (w v : Z) : Z * bool :=
  match op with
  | OpNot => (2 ^ w - 1 - v, false)
  | Neg => ((- ival sgn w v) mod 2 ^ w, negb (in_range sgn w (- ival sgn w v)))
  end.

Lemma un_spec_range op sgn w v : 0 < w → is_uint w v → is_uint w (fst (un_spec op sgn w v)).
Proof. intros Hw [? ?]. destruct op; [split; cbn; lia|apply wrap_bounds; lia]. Qed.

Lemma unary_step op lay i sgn v : int_layout lay i sgn → (op = Neg → sgn = true) → is_uint (int_bits i) v →
  match op with
  | OpNot => let% t := rlift (Size.truncate (lsize lay) (wnot 128 v)) in rret (t, false)
  | Neg =>
      let% val := rlift (sign_extend_i128 v lay) in
      let '(res, overflow) := i128_overflowing (- val) in
      let res := of_signed 128 res in
      let% truncated := rlift (Size.truncate (lsize lay) res) in
      let% e := rlift (sign_extend truncated lay) in
      rret (truncated, overflow || negb (e =? res))
  end = rret (un_spec op sgn (int_bits i) v).
Proof.
  intros Hl Hn Hv. pose proof (w_range i) as Hw. pose proof (is_uint_128 i v Hv) as Hv'. destruct op.
  - assert (wnot 128 v = wrap 128 (- 1 - v)) as ->.
    { unfold wnot, umax, wrap. destruct Hv'. apply (Z.mod_unique _ _ (-1)); lia. }
    rewrite (truncate_lay lay i sgn) by done. unfold rlift, rbind, rret, un_spec. cbn [obind]. do 3 f_equal. destruct Hv.
    symmetry. apply (Z.mod_unique _ _ (-1)); lia.
  - rewrite Hn in * by done. rewrite (sign_extend_i128_lay lay i) by done. unfold rlift, rbind, i128_overflowing. cbn [obind].
    rewrite of_to_i128, (truncate_lay lay i true) by done. cbn [obind]. rewrite (sign_extend_lay lay i) by done. cbn [obind].
    by rewrite signed_overflow.
Qed.

Lemma int_unary op a x i sgn v : layout_of dl a = Ret (imm_layout x) → is_integral a = true → int_layout (imm_layout x) i sgn →
  (op = Neg → sgn = true) → is_uint (int_bits i) v → imm x = IScalar (uint_scalar i v) →
  overflowing_unary_op op x = rret (uint_scalar i (fst (un_spec op sgn (int_bits i) v)), snd (un_spec op sgn (int_bits i) v), a).
Proof.
  intros Hx Ha Hl Hn Hv Ex. pose proof (w_range i) as Hw. pose proof (un_spec_range op sgn (int_bits i) v ltac:(lia) Hv) as Hu.
  transitivity (let% (res, overflow) := rret (un_spec op sgn (int_bits i) v) in
    let% s := rlift (Scalar.from_uint (Prov := AllocId) res (lsize (imm_layout x))) in rret (s, overflow, a)).
  - rewrite <- (unary_step op (imm_layout x) i sgn v) by done.
    unfold overflowing_unary_op, to_scalar. rewrite Ex. rewrite (layout_of_ty _ _ _ Hx). unfold rlift at 1, rbind at 1. cbn [obind].
    rewrite Ha. cbn [obind rassert]. rewrite (to_bits_int i sgn) by done. by destruct a.
  - destruct (un_spec op sgn (int_bits i) v) as [z f] eqn:E. unfold rbind, rret, rlift. cbn [obind fst snd] in *.
    by rewrite (from_uint_lay _ i sgn).
Qed.

Lemma primitive_unary op a x : is_primitive a = true → validate_unary_op op a = true → typed a x →
  ∃ s f, overflowing_unary_op op x = rret (s, f, a) ∧ valid_scalar dl a s.
Proof.
  intros Ha Hv Hx. destruct (to_scalar_typed _ _ Hx) as (s & Es & Hs). destruct (is_integral a) eqn:Ei.
  - destruct Hx as (Hx & s' & Ex & _). unfold to_scalar in Es. rewrite Ex in Es. injection Es as ->.
    destruct (int_layout_of dl a _ Ei Hx) as (i & sgn & Ea & Hl & Et).
    assert (∃ z, is_uint (int_bits i) z ∧ s = uint_scalar i z) as (v & Hz & ->).
    { destruct a; try done; destruct Hs as (i' & g & z & E & Hz & ->); rewrite Ea in E; injection E as <- <-; by exists z. }
    eexists _, _. split; [apply (int_unary op a x i sgn v); try done|].
    + intros ->. destruct a as [| |t|t| | | | | | | |]; try done. cbn in Ea. destruct (from_int_ty dl t); [|done]. by injection Ea.
    + eapply uint_scalar_valid; [done|]. pose proof (w_range i). apply un_spec_range; [lia|done].
  - unfold overflowing_unary_op. rewrite Es, (layout_of_ty _ _ _ (proj1 Hx)). destruct a as [| | | |fty| | | | | | |]; try done; try by destruct op.
    + destruct op; [|done]. destruct Hs as (b & ->). unfold rlift, rbind, rret. cbn [obind]. rewrite to_bool_from. cbn [obind rret].
      eexists _, _. split; [done|]. by eexists.
    + destruct op; [done|]. destruct Hs as (z & Hz & ->). unfold rlift, rbind, rret. cbn [obind]. rewrite float_bits_float by done. cbn [obind rret].
      eexists _, _. split; [done|]. eexists. split; [|done]. by destruct (f_width fty z z) as (? & ? & ? & ? & ? & ?).
Qed.
End soundness.

(** What the code relies on in [rustc_apfloat]: results have the width of their type. *)
Definition float_widths `{ApFloat} : Prop := ∀ fty l r, let ok := is_uint (8 * float_bytes fty) in
  ok (f_add fty l r) ∧ ok (f_sub fty l r) ∧ ok (f_mul fty l r) ∧ ok (f_div fty l r) ∧ ok (f_rem fty l r) ∧ ok (f_neg fty l).

(** Subtyping on primitive types is equality. *)
Definition assign_primitive (mav : Ty → Ty → bool) : Prop :=
  ∀ a b, is_primitive a = true → is_primitive b = true → mav a b = true → a = b.

(** C5. Operators are type sound on primitive types: if the validator of MIR accepts a
    binary operator for the types of two operands (booleans, characters, integers,
    floating-point numbers), then evaluating it on values of these types does not panic,
    and gives a value of the type that [BinOp::ty] computes, or one of the errors of that
    very operator: a division by zero or overflow of a division, overflow of an unchecked
    operator. *)
Theorem validated_op_evaluates `{U384Api} `{ApFloat} dl mav op a b x y :
  float_widths → assign_primitive mav → is_primitive a = true → is_primitive b = true →
  validate_binary_op mav op a b = Ret true → typed dl a x → typed dl b y →
  ∃ res, binary_op dl op x y = Ret res ∧
    match res with
    | Ok z => ∃ t, binop_ty op a b = Ret t ∧ typed dl t z
    | Err e => op_error op e = true
    end.
Proof.
  intros Hf Hm Ha Hb Hv Hx Hy. destruct (validated_primitive mav op a b Hm Ha Hb Hv) as (Ho & Hh & Hi).
  apply sound_typed; [done|done|]. by apply primitive_sound.
Qed.

(** The same holds for operators on one operand, without errors. *)
Theorem validated_unary_evaluates `{U384Api} `{ApFloat} dl op a x :
  float_widths → is_primitive a = true → validate_unary_op op a = true → typed dl a x →
  ∃ z, unary_op dl op x = Ret (Ok z) ∧ typed dl a z.
Proof.
  intros Hf Ha Hv Hx. destruct (primitive_unary dl Hf op a x Ha Hv Hx) as (s & f & E & Hs). unfold unary_op. rewrite E.
  unfold rbind, rret, rlift. cbn [obind]. rewrite (proj1 Hx). cbn [obind]. eexists. split; [done|]. split; [apply Hx|]. by exists s.
Qed.

(** ** Fields *)

Definition math_or_comparison (op : BinOpKind) : bool :=
  match category_from op with Math | Comparison => true | _ => false end.

(** C39. Arithmetic and comparison of field elements pass every check and are not
    evaluated: for each arithmetic or comparison operator on two elements of a field, type
    checking takes the operator as built in, the validator of MIR accepts it, [BinOp::ty]
    gives it a type and the checker of constants lets it through, but the interpreter of
    constants panics on it, whatever the operands are. *)
Theorem field_operator_not_evaluated `{U384Api} `{ApFloat} mav f op o x y :
  math_or_comparison op = true → bin_op op = Ret o → mav (FieldT f) (FieldT f) = true → tl_ty (imm_layout x) = FieldT f →
  let t := FieldT f in
  is_builtin_binop t t op = true ∧ validate_binary_op mav o t t = Ret true ∧ (∃ r, binop_ty o t t = Ret r) ∧
  check_const_binary_op o t t = Ret FineInConst ∧ overflowing_scalar_op o x y = Panic.
Proof.
  intros Ho Hb Hm Hx t. assert (overflowing_scalar_op o x y = Panic) as -> by (unfold overflowing_scalar_op; by rewrite Hx).
  unfold validate_binary_op, binop_ty, is_builtin_binop.
  destruct op; try done; injection Hb as <-; subst t; cbn [deref_ty_if_possible is_field is_curve]; rewrite ?Hm, ?(bool_decide_eq_true_2 (FieldT f = FieldT f)) by done; split_and!; (done || by eexists).
Qed.

(** The validator does not compare the operands of a product of a field element, which
    [BinOp::ty] does. *)
Lemma mixed_field_product mav f g : f ≠ g →
  validate_binary_op mav Mul (FieldT f) (FieldT g) = Ret true ∧ binop_ty Mul (FieldT f) (FieldT g) = Panic.
Proof. intros Hf. split; [done|]. cbn. rewrite bool_decide_eq_false_2; [done|]. by intros [= ->]. Qed.

(** ** Concrete inputs *)

(** Floating-point numbers of which only the zero is computed *)
Definition zero_float : ApFloat := {|
  f_eq _ l r := l =? r; f_partial_cmp _ l r := Some (l ?= r);
  f_add _ _ _ := 0; f_sub _ _ _ := 0; f_mul _ _ _ := 0; f_div _ _ _ := 0; f_rem _ _ _ := 0; f_neg _ _ := 0; f_from_int _ _ := 0;
|}.

Lemma zero_float_widths : @float_widths zero_float.
Proof. intros [] l r; cbn; repeat split; lia. Qed.

(** The layout of [i8], and a number of it *)
Definition i8_layout : TyAndLayout :=
  mkTyLayout (IntT Si8) (match scalar_layout default_dl (Abi.Int I8 true) with Ret l => l | Panic => unit_layout end).
Definition i8_imm (bits : Z) : @ImmTy z_u384 := mkImm (H := z_u384) (IScalar (H := z_u384) (uint_scalar I8 bits)) i8_layout.

Lemma i8_typed bits : is_uint 8 bits → @typed z_u384 default_dl (IntT Si8) (i8_imm bits).
Proof. intros Hb. split; [reflexivity|]. eexists. split; [reflexivity|]. by exists I8, true, bits. Qed.

(** The sum of 127 and 1 *)
Lemma int_op_exact_witness : binary_int_op Add 127 i8_layout 1 i8_layout = Ret (int_spec i8_layout I8 Add true 127 1).
Proof. apply int_op_exact; [done|by split|by split|]. split_and!; [done|by split|by split]. Defined.

(** The smallest number divided by minus one, which fails *)
Lemma validated_op_evaluates_witness : ∃ res,
  @binary_op z_u384 zero_float default_dl Div (i8_imm 0x80) (i8_imm 0xff) = Ret res ∧ res = Err DivisionOverflow.
Proof.
  destruct (@validated_op_evaluates z_u384 zero_float default_dl (λ a b, bool_decide (a = b)) Div (IntT Si8) (IntT Si8)
    (i8_imm 0x80) (i8_imm 0xff)) as (res & E & _); [apply zero_float_widths|intros a b _ _; apply bool_decide_eq_true_1|done|done|done|by apply i8_typed..|].
  exists res. split; [done|]. assert (Ret res = Ret (Err DivisionOverflow)) as E' by (rewrite <- E; reflexivity). by injection E'.
Defined.

Lemma validated_unary_evaluates_witness : ∃ z, @unary_op z_u384 zero_float default_dl Neg (i8_imm 0x80) = Ret (Ok z) ∧ @typed z_u384 default_dl (IntT Si8) z.
Proof. apply (@validated_unary_evaluates z_u384 zero_float default_dl Neg (IntT Si8) (i8_imm 0x80)); [apply zero_float_widths|done|done|by apply i8_typed]. Defined.

(** A sum in the base field of Pallas *)
Definition pallas_imm : @ImmTy z_u384 :=
  mkImm (H := z_u384) (IField (H := z_u384) (ScalarField.mk (H := z_u384) (to_u384 7) 32))
    (mkTyLayout (FieldT FieldTy.PallasBase) (match LayoutS.field (from_field_ty FieldTy.PallasBase) with Ret l => l | Panic => unit_layout end)).

Lemma field_operator_not_evaluated_witness :
  is_builtin_binop (FieldT FieldTy.PallasBase) (FieldT FieldTy.PallasBase) HAdd = true ∧
  @overflowing_scalar_op z_u384 zero_float Add pallas_imm pallas_imm = Panic.
Proof.
  destruct (@field_operator_not_evaluated z_u384 zero_float (λ a b, bool_decide (a = b)) FieldTy.PallasBase HAdd Add pallas_imm pallas_imm)
    as (H1 & _ & _ & _ & H2); [done|done|by apply bool_decide_eq_true_2|done|]. by split.
Defined.
