(* ===== verification/Intrinsics.v ===== *)
(** Intrinsics on integers in the interpreter, [compiler/rustc_const_eval/src/interpret/intrinsics.rs]:
    counting, swapping and rotating bits, saturating arithmetic and exact division. The
    arguments are scalars that have been read, the result is what is written to the
    destination. *)

From S2P Require Import Prelude.
From S2P Require Import MemDecoder.
From S2P Require Import BitSetProps.
From S2P Require Import BitIterProps.
From S2P Require Import Chars.
From S2P Require Import Abi.
From S2P Require Import AbiProps.
From S2P Require Import Enum.
From S2P Require Import EnumProps.
From S2P Require Import TaggedProps.
From S2P Require Import Discriminant.
From S2P Require Import DiscriminantProps.
From S2P Require Import Literal.
From S2P Require Import Fields.
From S2P Require Import FieldsProps.
From S2P Require Import Slice.
From S2P Require Import Provenance.
From S2P Require Import Allocation.
From S2P Require Import AllocationProps.
From S2P Require Import SipHash.
From S2P Require Import Operator.
From S2P Require Import OperatorProps.
#[local] Open Scope op_scope.

(** ** Integers of 128 bits *)

(** [u128::leading_zeros], [swap_bytes] and [reverse_bits] *)
Definition leading_zeros128 (x : Z) : Z := if x =? 0 then 128 else 127 - Z.log2 x.
Definition swap_bytes128 (x : Z) : Z := MemDecoder.from_le_bytes (reverse (MemDecoder.to_le_bytes 16 x)).
Fixpoint reverse_bits_from (n : nat) (x acc : Z) : Z :=
  match n with O => acc | S n => reverse_bits_from n (x / 2) (2 * acc + x mod 2) end.
Definition reverse_bits128 (x : Z) : Z := reverse_bits_from 128 x 0.

(** ** Bits *)

Inductive numeric_name := Ctpop | Cttz | Ctlz | Bswap | Bitreverse.

Definition numeric_intrinsic (name : numeric_name) (bits : Z) (kind : Primitive) : outcome scalar :=
  let! size := match kind with Abi.Int integer _ => Ret (Integer.size integer) | _ => Panic end in
  let! size_bits := Size.bits size in
  let extra := wsub 128 128 size_bits in
  let bits_out := match name with
    | Ctpop => count_ones bits
    | Ctlz => wsub 128 (leading_zeros128 bits) extra
    | Cttz => wsub 128 (trailing_zeros 128 (wshl 128 bits extra)) extra
    | Bswap => swap_bytes128 (wshl 128 bits extra)
    | Bitreverse => reverse_bits128 (wshl 128 bits extra)
    end in
  Scalar.from_uint bits_out size.

(** The arm of [emulate_intrinsic], where [nonzero] holds for [cttz_nonzero] and
    [ctlz_nonzero] *)
Definition emulate_numeric (name : numeric_name) (nonzero : bool) (layout : TyAndLayout) (val : scalar) : R scalar :=
  let% bits := to_bits val (lsize layout) in
  let% kind := rlift (match layout_abi (tl_layout layout) with AbiScalar s => Ret (Scalar.primitive s) | _ => Panic end) in
  if nonzero && (bits =? 0) then rthrow CallNonzeroIntrinsic
  else rlift (numeric_intrinsic name bits kind).

Definition rotate (left : bool) (layout : TyAndLayout) (val raw_shift : scalar) : R scalar :=
  let% val_bits := to_bits val (lsize layout) in
  let% raw_shift_bits := to_bits raw_shift (lsize layout) in
  let% width_bits := rlift (Size.bits (lsize layout)) in
  let% shift_bits := rlift (rassert (negb (width_bits =? 0)) (Ret (raw_shift_bits mod width_bits))) in
  let inv_shift_bits := wsub 128 width_bits shift_bits mod width_bits in
  let result_bits :=
    if left then Z.lor (wshl 128 val_bits shift_bits) (wshr 128 val_bits inv_shift_bits)
    else Z.lor (wshr 128 val_bits shift_bits) (wshl 128 val_bits inv_shift_bits) in
  let% truncated_bits := rlift (Size.truncate (lsize layout) result_bits) in
  rlift (Scalar.from_uint truncated_bits (lsize layout)).

(** ** Arithmetic *)

Section arithmetic.
Context `{U384Api} `{ApFloat}.

(** [exact_div] with [binop_ignore_overflow] *)
Definition exact_div (a b : ImmTy) : R scalar :=
  let% (res, overflow, _) := overflowing_scalar_op Rem a b in
  let% _ := rlift (rassert (negb overflow) (Ret tt)) in
  let% bits := rlift (let! r := to_bits res (lsize (imm_layout a)) in match r with Ok b => Ret b | Err _ => Panic end) in
  if negb (bits =? 0) then rthrow ExactDivHasRemainder
  else let% (val, _, _) := overflowing_scalar_op Div a b in rret val.

Definition saturating_arith (mir_op : BinOp) (l r : ImmTy) : R scalar :=
  let% _ := rlift (rassert (match mir_op with Add | Sub => true | _ => false end) (Ret tt)) in
  let% (val, overflowed, _) := overflowing_scalar_op mir_op l r in
  if overflowed then
    let size := lsize (imm_layout l) in
    let% num_bits := rlift (Size.bits size) in
    let% signed := rlift (Abi.is_signed (layout_abi (tl_layout (imm_layout l)))) in
    if (signed : bool) then
      let% sl := rlift (to_scalar l) in
      let% first_term := to_bits sl size in
      let first_term_positive := Z.land first_term (wshl 128 1 (wsub 64 num_bits 1)) =? 0 in
      if first_term_positive then rlift (let! m := Size.signed_int_max size in from_int m size)
      else rlift (let! m := Size.signed_int_min size in from_int m size)
    else
      match mir_op with
      | Add => rlift (let! m := Size.unsigned_int_max size in Scalar.from_uint m size)
      | _ => rlift (Scalar.from_uint 0 size)
      end
  else rret val.
End arithmetic.

(** * Properties *)

(** ** Layouts of integers *)

Lemma int_layout_abi dl ty lay i sgn : layout_of dl ty = Ret lay → int_of_ty dl ty = Ret (i, sgn) →
  int_layout lay i sgn ∧ tl_ty lay = ty ∧ is_integral ty = true ∧ ∃ s, layout_abi (tl_layout lay) = AbiScalar s ∧ Scalar.primitive s = Abi.Int i sgn.
Proof.
  unfold layout_of, int_of_ty. intros H Hi. destruct ty as [| |t|t| | | | | | | |]; try done.
  - destruct (from_int_ty dl t) as [j|]; cbn [obind] in *; [|done]. injection Hi as <- <-.
    destruct (scalar_layout dl (Abi.Int j true)) as [l|] eqn:El; [|done]. injection H as <-. split_and!; [by eapply scalar_layout_int|done..|].
    destruct j; cbn in El; injection El as <-; by eexists.
  - destruct (from_uint_ty dl t) as [j|]; cbn [obind] in *; [|done]. injection Hi as <- <-.
    destruct (scalar_layout dl (Abi.Int j false)) as [l|] eqn:El; [|done]. injection H as <-. split_and!; [by eapply scalar_layout_int|done..|].
    destruct j; cbn in El; injection El as <-; by eexists.
Qed.

(** ** Bits *)

Lemma testbit_reverse n x acc k : 0 ≤ k →
  Z.testbit (reverse_bits_from n x acc) k = if k <? Z.of_nat n then Z.testbit x (Z.of_nat n - 1 - k) else Z.testbit acc (k - Z.of_nat n).
Proof.
  revert x acc k. induction n as [|n IH]; intros x acc k Hk; cbn [reverse_bits_from].
  { rewrite Z.sub_0_r. by destruct (Z.ltb_spec k (Z.of_nat 0)); [lia|]. }
  rewrite IH by done. destruct (Z.ltb_spec k (Z.of_nat n)) as [E|E], (Z.ltb_spec k (Z.of_nat (S n))) as [E'|E']; try lia.
  - rewrite Z.div2_spec || idtac. rewrite <- Z.div2_div, Z.div2_spec, Z.shiftr_spec by lia. f_equal. lia.
  - replace (k - Z.of_nat n) with 0 by lia. replace (Z.of_nat (S n) - 1 - k) with 0 by lia.
    rewrite Z.add_comm, Zmod_odd. rewrite (Z.bit0_odd x). destruct (Z.odd x); [|by rewrite Z.add_0_l, Z.testbit_even_0]. rewrite Z.add_comm. by rewrite Z.testbit_odd_0.
  - replace (k - Z.of_nat n) with (Z.succ (k - Z.of_nat (S n))) by lia.
    rewrite Zmod_odd. destruct (Z.odd x); [by rewrite Z.testbit_odd_succ by lia|rewrite Z.add_0_r; by rewrite Z.testbit_even_succ by lia].
Qed.

Lemma reverse_bits_nonneg n x acc : 0 ≤ acc → 0 ≤ reverse_bits_from n x acc.
Proof. revert x acc. induction n as [|n IH]; intros x acc Ha; cbn [reverse_bits_from]; [done|]. apply IH. pose proof (Z.mod_pos_bound x 2). lia. Qed.

Lemma tz_testbit w x : 0 < x → let t := trailing_zeros w x in
  0 ≤ t ∧ Z.testbit x t = true ∧ ∀ k, 0 ≤ k < t → Z.testbit x k = false.
Proof.
  intros Hx. destruct x as [|p|]; try lia. cbn [trailing_zeros]. destruct (pos_trailing_zeros_spec p) as (Ht & m & E & Hm). set (t := pos_trailing_zeros p) in *.
  rewrite E. split; [done|]. split.
  - rewrite Z.mul_comm, Z.mul_pow2_bits by lia. rewrite Z.sub_diag. apply Z.testbit_odd_0.
  - intros k Hk. rewrite Z.mul_comm. apply Z.mul_pow2_bits_low. lia.
Qed.

Section width.
Context (i : Integer).
Abbreviation w := (int_bits i).

Lemma width_range : 8 ≤ w ≤ 128.
Proof. by destruct i. Qed.

Lemma shifted_up x : is_uint w x → wshl 128 x (wsub 128 128 w) = x * 2 ^ (128 - w) ∧ wsub 128 128 w = 128 - w.
Proof.
  intros Hx. pose proof width_range. assert (wsub 128 128 w = 128 - w) as E by (unfold wsub, wrap; rewrite Z.mod_small; lia).
  split; [|done]. rewrite E. unfold wshl, wrap. rewrite (Z.mod_small (128 - w)) by lia. rewrite Z.shiftl_mul_pow2 by lia.
  apply Z.mod_small. split; [apply Z.mul_nonneg_nonneg; [apply Hx|lia]|].
  replace 128 with (w + (128 - w)) at 2 by lia. rewrite Z.pow_add_r by lia. apply Z.mul_lt_mono_pos_r; [lia|apply Hx].
Qed.

(** What the intrinsics compute *)
Definition numeric_spec (name : numeric_name) (bits out : Z) : Prop :=
  match name with
  | Ctpop => out = Z.of_nat (length (filter (λ k, Z.testbit bits k = true) (seqZ 0 w)))
  | Cttz => 0 ≤ out ≤ w ∧ (∀ k, 0 ≤ k < out → Z.testbit bits k = false) ∧ (out < w → Z.testbit bits out = true)
  | Ctlz => 0 ≤ out ≤ w ∧ (∀ k, w - out ≤ k → Z.testbit bits k = false) ∧ (out < w → Z.testbit bits (w - 1 - out) = true)
  | Bswap => MemDecoder.to_le_bytes (Z.to_nat (w / 8)) out = reverse (MemDecoder.to_le_bytes (Z.to_nat (w / 8)) bits)
  | Bitreverse => ∀ k, 0 ≤ k < w → Z.testbit out k = Z.testbit bits (w - 1 - k)
  end.

Lemma small_count n : 0 ≤ n ≤ w → is_uint w n.
Proof. intros. pose proof width_range. split; [lia|]. pose proof (Z.pow_gt_lin_r 2 w). lia. Qed.

Lemma ctpop_spec x : is_uint w x → is_uint w (count_ones x) ∧ numeric_spec Ctpop x (count_ones x).
Proof.
  intros Hx. pose proof width_range. assert (count_ones x = Z.of_nat (length (filter (λ k, Z.testbit x k = true) (seqZ 0 w)))) as E.
  { rewrite (count_ones_filter (Z.to_nat w)); rewrite Z2Nat.id by lia; [done|exact Hx]. }
  split; [|exact E]. rewrite E. apply small_count. split; [lia|]. pose proof (length_filter (λ k, Z.testbit x k = true) (seqZ 0 w)) as Hl. rewrite length_seqZ in Hl. lia.
Qed.

Lemma ctlz_spec x : is_uint w x → let out := wsub 128 (leading_zeros128 x) (128 - w) in is_uint w out ∧ numeric_spec Ctlz x out.
Proof.
  intros [Hx1 Hx2] out. pose proof width_range. unfold leading_zeros128 in out.
  destruct (Z.eqb_spec x 0) as [->|Hn].
  - assert (out = w) as -> by (unfold out, wsub, wrap; rewrite Z.mod_small; lia). split; [apply small_count; lia|].
    cbn. split; [lia|]. split; [|lia]. intros. apply Z.testbit_0_l.
  - assert (0 ≤ Z.log2 x < w) as Hl by (split; [apply Z.log2_nonneg|apply Z.log2_lt_pow2; lia]).
    assert (out = w - 1 - Z.log2 x) as -> by (unfold out, wsub, wrap; rewrite Z.mod_small; lia). split; [apply small_count; lia|].
    cbn. split; [lia|]. split; [intros k Hk; apply Z.bits_above_log2; lia|]. intros _. replace (w - 1 - (w - 1 - Z.log2 x)) with (Z.log2 x) by lia.
    apply Z.bit_log2. lia.
Qed.

Lemma cttz_spec x : is_uint w x → let out := wsub 128 (trailing_zeros 128 (x * 2 ^ (128 - w))) (128 - w) in is_uint w out ∧ numeric_spec Cttz x out.
Proof.
  intros [Hx1 Hx2] out. pose proof width_range. destruct (Z.eq_dec x 0) as [->|Hn].
  - assert (out = w) as -> by (unfold out, wsub, wrap; rewrite Z.mul_0_l; cbn [trailing_zeros]; rewrite Z.mod_small; lia). split; [apply small_count; lia|].
    cbn. split; [lia|]. split; [|lia]. intros. apply Z.testbit_0_l.
  - assert (0 < x * 2 ^ (128 - w)) as Hp by (apply Z.mul_pos_pos; [lia|apply Z.pow_pos_nonneg; lia]).
    destruct (tz_testbit 128 _ Hp) as (Ht & Hb & Hlow). set (t := trailing_zeros 128 (x * 2 ^ (128 - w))) in *.
    assert (128 - w ≤ t) as Hge. { destruct (Z.le_gt_cases (128 - w) t); [done|]. by rewrite Z.mul_pow2_bits_low in Hb by lia. }
    rewrite Z.mul_pow2_bits in Hb by lia.
    assert (t - (128 - w) < w) as Hlt.
    { destruct (Z.lt_ge_cases (t - (128 - w)) w); [done|]. rewrite Z.bits_above_log2 in Hb; [done|lia|]. apply Z.log2_lt_pow2; [lia|]. eapply Z.lt_le_trans; [done|]. apply Z.pow_le_mono_r; lia. }
    assert (out = t - (128 - w)) as -> by (unfold out, wsub, wrap; rewrite Z.mod_small; lia). split; [apply small_count; lia|].
    cbn. split; [lia|]. split; [|done]. intros k Hk. specialize (Hlow (k + (128 - w)) ltac:(lia)). rewrite Z.mul_pow2_bits in Hlow by lia.
    by replace (k + (128 - w) - (128 - w)) with k in Hlow by lia.
Qed.

Lemma bitreverse_spec x : is_uint w x → let out := reverse_bits128 (x * 2 ^ (128 - w)) in is_uint w out ∧ numeric_spec Bitreverse x out.
Proof.
  intros Hx out. pose proof width_range. assert (∀ k, 0 ≤ k → Z.testbit out k = if k <? w then Z.testbit x (w - 1 - k) else false) as Hb.
  { intros k Hk. unfold out, reverse_bits128. rewrite testbit_reverse by done. change (Z.of_nat 128) with 128.
    destruct (Z.ltb_spec k 128), (Z.ltb_spec k w); try lia.
    - rewrite Z.mul_pow2_bits by lia. f_equal. lia.
    - rewrite Z.mul_pow2_bits_low by lia. done.
    - apply Z.testbit_0_l. }
  assert (0 ≤ out) as Hout.
  { by apply reverse_bits_nonneg. }
  split.
  - split; [done|]. apply Z.bounded_iff_bits_nonneg; [lia|done|]. intros k Hk. rewrite Hb by lia. by destruct (Z.ltb_spec k w); [lia|].
  - intros k Hk. rewrite Hb by lia. by destruct (Z.ltb_spec k w); [|lia].
Qed.

Lemma shifted_bytes m n x : MemDecoder.to_le_bytes (m + n) (x * 256 ^ Z.of_nat m) = replicate m 0 ++ MemDecoder.to_le_bytes n x.
Proof.
  induction m as [|m IH]; [by rewrite Z.mul_1_r|]. cbn [Nat.add MemDecoder.to_le_bytes replicate app].
  replace (Z.of_nat (S m)) with (Z.of_nat m + 1) by lia. rewrite Z.pow_add_r, Z.mul_assoc by lia. change (256 ^ 1) with 256.
  by rewrite Z_mod_mult, Z.div_mul, IH by lia.
Qed.

Lemma bswap_spec x : is_uint w x → let out := swap_bytes128 (x * 2 ^ (128 - w)) in is_uint w out ∧ numeric_spec Bswap x out.
Proof.
  intros Hx out. pose proof width_range. set (n := Z.to_nat (w / 8)). assert (w = 8 * Z.of_nat n ∧ (n <= 16)%nat) as [Hw Hn] by (unfold n; destruct i; (split; [reflexivity|apply Nat.leb_le; reflexivity])).
  assert (out = MemDecoder.from_le_bytes (reverse (MemDecoder.to_le_bytes n x))) as E.
  { unfold out, swap_bytes128. replace (2 ^ (128 - w)) with (256 ^ Z.of_nat (16 - n)) by (change 256 with (2 ^ 8); rewrite <- Z.pow_mul_r by lia; f_equal; lia).
    replace 16%nat with ((16 - n) + n)%nat at 1 by lia. rewrite shifted_bytes, reverse_app, reverse_replicate, from_le_bytes_app, from_le_bytes_zeros. lia. }
  assert (bytes_ok (reverse (MemDecoder.to_le_bytes n x))) as Hb. { apply Forall_forall. intros b Hb. rewrite elem_of_reverse in Hb. by eapply MemDecoder.to_le_bytes_byte. }
  assert (length (reverse (MemDecoder.to_le_bytes n x)) = n) as Hl by (by rewrite length_reverse, MemDecoder.length_to_le_bytes).
  split.
  - rewrite E. pose proof (from_le_bytes_range _ Hb) as Hr. rewrite Hl in Hr. rewrite Hw. unfold is_uint. replace (2 ^ (8 * Z.of_nat n)) with (256 ^ Z.of_nat n) by (change 256 with (2 ^ 8); by rewrite <- Z.pow_mul_r by lia). done.
  - cbn [numeric_spec]. fold n. rewrite E. rewrite <- Hl at 1. by apply to_from_le_bytes.
Qed.
End width.

(** ** Rotation *)

Lemma rotated_bit (left : bool) w x s k : 0 < w ≤ 128 → is_uint w x → 0 ≤ s < w → 0 ≤ k < w →
  let inv := (w - s) mod w in
  Z.testbit (if left then Z.lor (wshl 128 x s) (wshr 128 x inv) else Z.lor (wshr 128 x s) (wshl 128 x inv)) k =
  Z.testbit x ((if left then k - s else k + s) mod w).
Proof.
  intros Hw Hx Hs Hk inv.
  assert (∀ m, 0 ≤ m < w → Z.testbit (wshl 128 x m) k = if m <=? k then Z.testbit x (k - m) else false) as Hl.
  { intros m Hm. unfold wshl, wrap. rewrite (Z.mod_small m) by lia. rewrite Z.mod_pow2_bits_low, Z.shiftl_spec by lia.
    destruct (Z.leb_spec m k); [done|]. apply Z.testbit_neg_r. lia. }
  assert (∀ m, 0 ≤ m < w → Z.testbit (wshr 128 x m) k = if k + m <? w then Z.testbit x (k + m) else false) as Hr.
  { intros m Hm. unfold wshr. rewrite (Z.mod_small m) by lia. rewrite Z.shiftr_spec by lia. destruct (Z.ltb_spec (k + m) w); [done|].
    apply (Z.bounded_iff_bits_nonneg w x); [lia|apply Hx|apply Hx|lia]. }
  assert (0 ≤ inv < w) as Hi by (apply Z.mod_pos_bound; lia).
  assert (s = 0 ∧ inv = 0 ∨ 0 < s ∧ inv = w - s) as Hinv.
  { unfold inv. destruct (Z.eq_dec s 0) as [->|]; [left|right]; (split; [lia|]).
    - rewrite Z.sub_0_r. apply Z_mod_same_full.
    - apply Z.mod_small. lia. }
  destruct left; rewrite Z.lor_spec, ?Hl, ?Hr by lia.
  - destruct Hinv as [[-> E]|[? E]]; rewrite E.
    + rewrite !Z.sub_0_r, !Z.add_0_r, (Z.mod_small k) by lia. rewrite (proj2 (Z.leb_le 0 k)), (proj2 (Z.ltb_lt k w)) by lia. apply orb_diag.
    + destruct (Z.leb_spec s k), (Z.ltb_spec (k + (w - s)) w); try lia.
      * rewrite orb_false_r, Z.mod_small by lia. done.
      * cbn [orb]. f_equal. replace (k - s) with (k + (w - s) + (-1) * w) by lia. rewrite Z.mod_add by lia. symmetry. apply Z.mod_small. lia.
  - destruct Hinv as [[-> E]|[? E]]; rewrite E.
    + rewrite !Z.sub_0_r, !Z.add_0_r, (Z.mod_small k) by lia. rewrite (proj2 (Z.leb_le 0 k)), (proj2 (Z.ltb_lt k w)) by lia. apply orb_diag.
    + destruct (Z.leb_spec (w - s) k), (Z.ltb_spec (k + s) w); try lia.
      * cbn [orb]. f_equal. replace (k + s) with (k - (w - s) + 1 * w) by lia. rewrite Z.mod_add by lia. symmetry. apply Z.mod_small. lia.
      * rewrite orb_false_r, Z.mod_small by lia. done.
Qed.

Section integers.
Context (dl : TargetDataLayout) (ty : Ty) (lay : TyAndLayout) (i : Integer) (sgn : bool).
Context (Hlay : layout_of dl ty = Ret lay) (Hint : int_of_ty dl ty = Ret (i, sgn)).
Abbreviation w := (int_bits i).

Lemma lay_int : int_layout lay i sgn.
Proof. by eapply int_layout_abi. Qed.

Lemma emulate_numeric_ret name nonzero bits : is_uint w bits →
  if nonzero && (bits =? 0) then emulate_numeric name nonzero lay (uint_scalar i bits) = Ret (Err CallNonzeroIntrinsic)
  else ∃ out, emulate_numeric name nonzero lay (uint_scalar i bits) = Ret (Ok (uint_scalar i out)) ∧ is_uint w out ∧ numeric_spec i name bits out.
Proof.
  intros Hb. destruct (int_layout_abi _ _ _ _ _ Hlay Hint) as (Hl & _ & _ & s & Ea & Ep). unfold emulate_numeric.
  rewrite (to_bits_int i sgn) by done. cbn [rbind obind rret]. rewrite Ea. cbn [rlift rbind obind]. rewrite Ep.
  destruct (nonzero && (bits =? 0)); [done|]. unfold numeric_intrinsic. cbn [obind].
  assert (Size.bits (Integer.size i) = Ret w) as -> by (by destruct i). cbn [obind]. destruct (shifted_up i bits Hb) as [E1 E2].
  assert (∀ out, is_uint w out ∧ numeric_spec i name bits out →
    ∃ o, rlift (Scalar.from_uint out (Integer.size i)) = Ret (Ok (uint_scalar i o)) ∧ is_uint w o ∧ numeric_spec i name bits o) as Hout.
  { intros out [Ho Hs]. exists out. split; [|done]. rewrite <- (il_size _ _ _ Hl). by rewrite (from_uint_lay lay i sgn). }
  destruct name; rewrite ?E1, ?E2; apply Hout.
  - by apply ctpop_spec.
  - by apply cttz_spec.
  - by apply ctlz_spec.
  - by apply bswap_spec.
  - by apply bitreverse_spec.
Qed.

Lemma rotate_ret left x s : is_uint w x → is_uint w s →
  ∃ out, rotate left lay (uint_scalar i x) (uint_scalar i s) = Ret (Ok (uint_scalar i out)) ∧ is_uint w out ∧
    ∀ k, 0 ≤ k < w → Z.testbit out k = Z.testbit x ((if left then k - s else k + s) mod w).
Proof.
  intros Hx Hs. pose proof lay_int as Hl. pose proof (width_range i) as Hw. unfold rotate.
  rewrite !(to_bits_int i sgn) by done. cbn [rbind obind rret]. rewrite (bits_lay lay i sgn) by done. cbn [rlift rbind obind].
  rewrite (proj2 (Z.eqb_neq w 0)) by lia. cbn [rassert negb obind rbind rlift].
  assert (0 ≤ s mod w < w) as Hm by (apply Z.mod_pos_bound; lia).
  assert (wsub 128 w (s mod w) mod w = (w - s mod w) mod w) as -> by (unfold wsub, wrap; rewrite (Z.mod_small (w - s mod w)) by lia; done).
  set (r := if left then _ else _).
  assert (is_uint 128 r) as Hr.
  { assert (∀ m, is_uint 128 (wshl 128 x m)) by (intros; apply wrap_bounds; lia).
    assert (∀ m, is_uint 128 (wshr 128 x m)) as Hsr.
    { intros m. unfold wshr. assert (0 ≤ m mod 128) by (apply Z.mod_pos_bound; lia). rewrite Z.shiftr_div_pow2 by done.
      pose proof (is_uint_128 i x Hx) as [? ?]. pose proof (Z.pow_pos_nonneg 2 (m mod 128)). split; [apply Z.div_pos; lia|].
      eapply Z.le_lt_trans; [|done]. apply Z.div_le_upper_bound; [lia|]. nia. }
    assert (∀ a b, is_uint 128 a → is_uint 128 b → is_uint 128 (Z.lor a b)) as Hlor.
    { intros a b [Ha1 Ha2] [Hb1 Hb2]. assert (0 ≤ Z.lor a b) by (apply Z.lor_nonneg; lia). split; [done|].
      apply Z.bounded_iff_bits_nonneg; [lia|done|]. intros k Hk. rewrite Z.lor_spec.
      rewrite (proj1 (Z.bounded_iff_bits_nonneg 128 a ltac:(lia) Ha1) Ha2), (proj1 (Z.bounded_iff_bits_nonneg 128 b ltac:(lia) Hb1) Hb2) by done. done. }
    unfold r. destruct left; by apply Hlor. }
  pose proof (truncate_lay lay i sgn r Hl) as Et. unfold wrap in Et. rewrite (Z.mod_small r) in Et by done. rewrite Et. cbn [obind rbind rlift].
  assert (is_uint w (r mod 2 ^ w)) as Hu by (apply wrap_bounds; lia).
  rewrite (from_uint_lay lay i sgn) by done. exists (r mod 2 ^ w). split; [done|]. split; [done|].
  intros k Hk. rewrite Z.mod_pow2_bits_low by lia. unfold r. rewrite (rotated_bit left w x (s mod w) k) by (done || lia). f_equal.
  destruct left; [apply Zminus_mod_idemp_r|apply Zplus_mod_idemp_r].
Qed.
End integers.

(** ** Saturation and exact division *)

(** The bounds of a type, and the number of the type that is nearest to a number *)
Definition int_min (sgn : bool) (w : Z) : Z := if sgn then - 2 ^ (w - 1) else 0.
Definition int_max (sgn : bool) (w : Z) : Z := if sgn then 2 ^ (w - 1) - 1 else 2 ^ w - 1.
Definition clamp (sgn : bool) (w z : Z) : Z := Z.max (int_min sgn w) (Z.min (int_max sgn w) z).

Lemma in_range_iff sgn w z : in_range sgn w z = true ↔ int_min sgn w ≤ z ≤ int_max sgn w.
Proof. destruct sgn; cbn; rewrite andb_true_iff, Z.leb_le, Z.ltb_lt; lia. Qed.

Lemma clamp_in sgn w z : in_range sgn w z = true → clamp sgn w z = z.
Proof. rewrite in_range_iff. unfold clamp. lia. Qed.

Lemma sign_bit w l : 0 < w → is_uint w l → (Z.land l (2 ^ (w - 1)) =? 0) = (0 <=? to_signed w l).
Proof.
  intros Hw Hl. pose proof (half w Hw). destruct Hl as [Hl1 Hl2].
  assert (Z.land l (2 ^ (w - 1)) = if Z.testbit l (w - 1) then 2 ^ (w - 1) else 0) as ->.
  { apply Z.bits_inj'. intros k Hk. rewrite Z.land_spec, Z.pow2_bits_eqb by lia. destruct (Z.eqb_spec (w - 1) k) as [<-|].
    - destruct (Z.testbit l (w - 1)); [by rewrite Z.pow2_bits_true by lia|by rewrite Z.testbit_0_l].
    - rewrite andb_false_r. destruct (Z.testbit l (w - 1)); [by rewrite Z.pow2_bits_false by lia|by rewrite Z.testbit_0_l]. }
  assert (Z.testbit l (w - 1) = (2 ^ (w - 1) <=? l)) as ->.
  { destruct (Z.leb_spec (2 ^ (w - 1)) l).
    - apply Z.testbit_true; [lia|]. rewrite <- (Z.div_unique l (2 ^ (w - 1)) 1 (l - 2 ^ (w - 1))); [done|lia|lia].
    - apply (Z.bounded_iff_bits_nonneg (w - 1) l); lia. }
  unfold to_signed. pose proof (pow2_pos (w - 1) ltac:(lia)).
  destruct (Z.leb_spec (2 ^ (w - 1)) l), (Z.ltb_spec l (2 ^ (w - 1))); try lia.
  all: apply eq_true_iff_eq; rewrite Z.eqb_eq, Z.leb_le; lia.
Qed.

Lemma low_zero sgn w z : 0 < w → in_range sgn w z = true → (z mod 2 ^ w =? 0) = (z =? 0).
Proof.
  intros Hw Hz%in_range_iff. pose proof (half w Hw). pose proof (pow2_pos (w - 1) ltac:(lia)).
  destruct (Z.eqb_spec z 0) as [->|Hn]; [by rewrite Z.mod_0_l by lia|]. apply Z.eqb_neq. intros E.
  apply Z.mod_divide in E; [|lia]. destruct E as [q E]. set (h := 2 ^ (w - 1)) in *.
  assert (q ≠ 0) as Hq by (intros ->; lia). assert (q ≤ -1 ∨ 1 ≤ q) as [|] by lia.
  - assert (z ≤ - 2 ^ w) by nia. destruct sgn; cbn in Hz; fold h in Hz; lia.
  - assert (2 ^ w ≤ z) by nia. destruct sgn; cbn in Hz; fold h in Hz; lia.
Qed.

Section arith_props.
Context `{U384Api} `{ApFloat} (dl : TargetDataLayout) (ty : Ty) (lay : TyAndLayout) (i : Integer) (sgn : bool).
Context (Hlay : layout_of dl ty = Ret lay) (Hint : int_of_ty dl ty = Ret (i, sgn)).
Abbreviation w := (int_bits i).
Abbreviation imm_of := (λ z, mkImm (IScalar (uint_scalar i z)) lay).

Lemma op_of_ints op l r : op ≠ Offset → is_shift op = false → is_uint w l → is_uint w r →
  overflowing_scalar_op op (imm_of l) (imm_of r) = Ret (int_spec lay i op sgn l r).
Proof.
  intros Ho Hs Hl Hr. destruct (int_layout_abi _ _ _ _ _ Hlay Hint) as (Hil & Ht & Hi & _).
  unfold overflowing_scalar_op. cbn [imm_layout]. rewrite Ht.
  rewrite <- (binary_int_exact op lay lay i sgn l r) by (try done; unfold right_ok; by rewrite Hs).
  destruct ty; try done; cbn [is_integral rassert rlift obind rbind to_scalar imm]; by rewrite !(to_bits_int i sgn).
Qed.

Lemma saturating_ret op l r : op = Add ∨ op = Sub → is_uint w l → is_uint w r →
  saturating_arith op (imm_of l) (imm_of r) =
    Ret (Ok (uint_scalar i (clamp sgn w ((if bool_decide (op = Add) then Z.add else Z.sub) (ival sgn w l) (ival sgn w r)) mod 2 ^ w))).
Proof.
  intros Hop Hl Hr. pose proof (width_range i) as Hw. destruct (int_layout_abi _ _ _ _ _ Hlay Hint) as (Hil & _).
  set (x := ival sgn w l). set (y := ival sgn w r). set (z := (if bool_decide (op = Add) then Z.add else Z.sub) x y).
  pose proof (ival_range sgn w l ltac:(lia) Hl) as Hx%in_range_iff. pose proof (ival_range sgn w r ltac:(lia) Hr) as Hy%in_range_iff. fold x in Hx. fold y in Hy.
  assert (int_spec lay i op sgn l r = Ok (uint_scalar i (z mod 2 ^ w), negb (in_range sgn w z), tl_ty lay)) as Es.
  { destruct Hop as [-> | ->]; cbn [int_spec]; unfold finished; by rewrite andb_false_r. }
  unfold saturating_arith. rewrite op_of_ints by (destruct Hop as [-> | ->]; done). rewrite Es.
  assert (match op with Add | Sub => true | _ => false end = true) as -> by (destruct Hop as [-> | ->]; done). cbn [rassert rlift obind rbind].
  destruct (in_range sgn w z) eqn:Hz; cbn [negb]; [by rewrite (clamp_in sgn w z)|].
  assert (~ (int_min sgn w ≤ z ≤ int_max sgn w)) as Hz' by (rewrite <- in_range_iff; by rewrite Hz).
  cbn [imm_layout]. rewrite (bits_lay lay i sgn) by done. rewrite (il_signed _ _ _ Hil). cbn [rlift obind rbind].
  rewrite (il_size _ _ _ Hil). pose proof (half w ltac:(lia)) as Hh. pose proof (pow2_pos (w - 1) ltac:(lia)).
  assert (op = Add ∧ z = x + y ∨ op = Sub ∧ z = x - y) as Hzz by (unfold z; destruct Hop as [-> | ->]; [left|right]; done).
  clearbody z. unfold int_min, int_max in Hx, Hy, Hz'. unfold clamp, int_min, int_max. destruct sgn.
  - cbn [to_scalar imm rlift obind rbind]. rewrite <- (il_size _ _ _ Hil), (to_bits_int i true) by done. cbn [obind rbind rret]. rewrite (il_size _ _ _ Hil).
    assert (wshl 128 1 (wsub 64 w 1) = 2 ^ (w - 1)) as -> by (by destruct i).
    rewrite sign_bit by (lia || done). change (to_signed w l) with x. clearbody x y. set (h := 2 ^ (w - 1)) in *.
    destruct (Z.leb_spec 0 x).
    + assert (Z.max (- h) (Z.min (h - 1) z) = h - 1) as -> by lia. unfold h. by destruct i.
    + assert (Z.max (- h) (Z.min (h - 1) z) = - h) as -> by lia. unfold h. by destruct i.
  - clearbody x y. destruct Hzz as [[-> Hzz]|[-> Hzz]].
    + assert (Z.max 0 (Z.min (2 ^ w - 1) z) = 2 ^ w - 1) as -> by lia. by destruct i.
    + assert (Z.max 0 (Z.min (2 ^ w - 1) z) = 0) as -> by lia. by destruct i.
Qed.

Lemma rem_in_range x y : in_range sgn w x = true → in_range sgn w y = true → y ≠ 0 → in_range sgn w (Z.rem x y) = true.
Proof.
  pose proof (width_range i). intros Hx Hy Hn. destruct sgn; [by apply (rem_range i)|].
  rewrite !in_range_iff in *. unfold int_min, int_max in *. pose proof (Z.rem_bound_pos x y). lia.
Qed.

Definition exact_div_spec (x y : Z) : result scalar OpError :=
  if y =? 0 then Err RemainderByZero
  else if negb (in_range sgn w (Z.quot x y)) then Err RemainderOverflow
  else if negb (Z.rem x y =? 0) then Err ExactDivHasRemainder
  else Ok (uint_scalar i (Z.quot x y mod 2 ^ w)).

Lemma exact_div_ret l r : is_uint w l → is_uint w r → exact_div (imm_of l) (imm_of r) = Ret (exact_div_spec (ival sgn w l) (ival sgn w r)).
Proof.
  intros Hl Hr. pose proof (width_range i) as Hw. destruct (int_layout_abi _ _ _ _ _ Hlay Hint) as (Hil & _).
  set (x := ival sgn w l). set (y := ival sgn w r).
  pose proof (ival_range sgn w l ltac:(lia) Hl) as Hx. pose proof (ival_range sgn w r ltac:(lia) Hr) as Hy. fold x in Hx. fold y in Hy.
  unfold exact_div, exact_div_spec. rewrite !op_of_ints by done. cbn [int_spec]. fold x y. unfold divided.
  destruct (Z.eqb_spec y 0) as [Hy0|Hy0]; [done|]. destruct (in_range sgn w (Z.quot x y)) eqn:Hq; [|done]. cbn [negb].
  pose proof (rem_in_range x y Hx Hy Hy0) as Hrem. unfold finished. rewrite Hq, Hrem. cbn [negb andb rbind obind rassert rlift].
  cbn [imm_layout]. rewrite (to_bits_int i sgn) by done. cbn [rret obind rbind rlift]. rewrite (low_zero sgn) by (lia || done).
  by destruct (Z.rem x y =? 0).
Qed.
End arith_props.

(** C23. The intrinsics on the bits of an integer are exact at every width: counting,
    leading and trailing zeros, the order of the bytes and of the bits are those of the
    number at the width of its type, although they are computed on 128 bits; the variants
    for numbers that are not zero fail exactly on zero; and a rotation moves every bit by
    the amount modulo the width, for every amount. *)
Theorem bit_intrinsics_exact dl ty lay i sgn x :
  layout_of dl ty = Ret lay → int_of_ty dl ty = Ret (i, sgn) → is_uint (int_bits i) x →
  (∀ name nonzero,
    if nonzero && (x =? 0) then emulate_numeric name nonzero lay (uint_scalar i x) = Ret (Err CallNonzeroIntrinsic)
    else ∃ out, emulate_numeric name nonzero lay (uint_scalar i x) = Ret (Ok (uint_scalar i out)) ∧ is_uint (int_bits i) out ∧ numeric_spec i name x out) ∧
  (∀ (left : bool) s, is_uint (int_bits i) s →
    ∃ out, rotate left lay (uint_scalar i x) (uint_scalar i s) = Ret (Ok (uint_scalar i out)) ∧ is_uint (int_bits i) out ∧
      ∀ k, 0 ≤ k < int_bits i → Z.testbit out k = Z.testbit x ((if left then k - s else k + s) mod int_bits i)).
Proof. intros Hlay Hint Hx. split; intros; [by eapply emulate_numeric_ret|by eapply rotate_ret]. Qed.

(** C22. Saturating arithmetic and exact division are exact at every width and sign: a
    saturating sum or difference is the number of the type that is nearest to the exact
    one; an exact division fails for a divisor of zero, for the smallest number divided by
    minus one and for a remainder, and is otherwise the exact quotient. *)
Theorem arith_intrinsics_exact `{U384Api} `{ApFloat} dl ty lay i sgn l r :
  layout_of dl ty = Ret lay → int_of_ty dl ty = Ret (i, sgn) → is_uint (int_bits i) l → is_uint (int_bits i) r →
  let a := mkImm (IScalar (uint_scalar i l)) lay in
  let b := mkImm (IScalar (uint_scalar i r)) lay in
  let x := ival sgn (int_bits i) l in
  let y := ival sgn (int_bits i) r in
  saturating_arith Add a b = Ret (Ok (uint_scalar i (clamp sgn (int_bits i) (x + y) mod 2 ^ int_bits i))) ∧
  saturating_arith Sub a b = Ret (Ok (uint_scalar i (clamp sgn (int_bits i) (x - y) mod 2 ^ int_bits i))) ∧
  exact_div a b = Ret (exact_div_spec i sgn x y).
Proof.
  intros Hlay Hint Hl Hr. split_and!; [|by eapply saturating_ret; eauto|by eapply exact_div_ret].
  eapply (saturating_ret dl ty lay i sgn Hlay Hint Add); auto.
Qed.

(** ** Concrete inputs *)

Lemma bit_intrinsics_exact_witness :
  emulate_numeric Ctlz true i8_layout (uint_scalar I8 0) = Ret (Err CallNonzeroIntrinsic) ∧
  ∃ out, rotate true i8_layout (uint_scalar I8 0x81) (uint_scalar I8 9) = Ret (Ok (uint_scalar I8 out)) ∧ Z.testbit out 1 = true.
Proof.
  split; [exact (proj1 (bit_intrinsics_exact default_dl (IntT Si8) i8_layout I8 true 0 eq_refl eq_refl ltac:(split; [lia|reflexivity])) Ctlz true)|].
  destruct (proj2 (bit_intrinsics_exact default_dl (IntT Si8) i8_layout I8 true 0x81 eq_refl eq_refl ltac:(split; [lia|reflexivity])) true 9 ltac:(split; [lia|reflexivity]))
    as (out & E & _ & Hb).
  exists out. split; [exact E|]. rewrite Hb by (vm_compute; split; [discriminate|reflexivity]). reflexivity.
Defined.

(** 127 + 1 saturates, and -6 is divided by 3. *)
Lemma arith_intrinsics_exact_witness :
  @saturating_arith z_u384 zero_float Add (i8_imm 127) (i8_imm 1) = Ret (Ok (uint_scalar I8 127)) ∧
  @exact_div z_u384 zero_float (i8_imm 250) (i8_imm 3) = Ret (Ok (uint_scalar I8 254)).
Proof.
  split.
  - exact (proj1 (@arith_intrinsics_exact z_u384 zero_float default_dl (IntT Si8) i8_layout I8 true 127 1 eq_refl eq_refl ltac:(split; [lia|reflexivity]) ltac:(split; [lia|reflexivity]))).
  - exact (proj2 (proj2 (@arith_intrinsics_exact z_u384 zero_float default_dl (IntT Si8) i8_layout I8 true 250 3 eq_refl eq_refl ltac:(split; [lia|reflexivity]) ltac:(split; [lia|reflexivity])))).
Defined.
