(* ===== verification/Lowering.v ===== *)
(** Lowering of arithmetic expressions to MIR, and the part of the interpreter that runs it.

    [compiler/rustc_mir_build/src/build/expr/as_rvalue.rs] and [build/misc.rs] (the checks
    for overflow and division by zero that are put before an operator), with the
    statements, assertions and casts of [rustc_const_eval/src/interpret/step.rs],
    [terminator.rs], [operand.rs], [place.rs] and [cast.rs] on locals that are not in
    memory.

    [Builder::assert] ends a block and goes on in a fresh one, which only the assertion
    leads to; the blocks are one sequence here. *)

From S2P Require Import Prelude.
From S2P Require Import Abi.
From S2P Require Import Literal.
From S2P Require Import Fields.
From S2P Require Import Slice.
From S2P Require Import Provenance.
From S2P Require Import Allocation.
From S2P Require Import Operator.
#[local] Open Scope op_scope.

(** ** MIR *)

(** Types of locals: a type, or the pair of it and a boolean *)
Inductive LocalTy := Plain (ty : Ty) | WithBool (ty : Ty).

(** A local, or a field of it *)
Record Place := mkPlace { plocal : nat; pfield : option nat }.

Section lowering.
Context `{U384Api} `{ApFloat} (dl : TargetDataLayout).

Inductive Operand :=
| Copy (p : Place)
| Move (p : Place)
| Constant (val : Immediate) (ty : Ty).

Definition to_copy (o : Operand) : Operand := match o with Move p => Copy p | _ => o end.

Inductive Rvalue :=
| Use (o : Operand)
| BinaryOp (op : BinOp) (l r : Operand)
| CheckedBinaryOp (op : BinOp) (l r : Operand)
| UnaryOp (op : UnOp) (o : Operand)
| CastIntToInt (o : Operand) (ty : Ty).

Inductive Instr :=
| Assign (dest : nat) (rv : Rvalue)
| Assert (cond : Operand) (expected : bool) (msg : AssertKind Operand).

(** ** The builder *)

Record Builder := mkBuilder { local_decls : list LocalTy; cfg : list Instr; check_overflow : bool }.

Definition temp (b : Builder) (ty : LocalTy) : nat * Builder :=
  (length (local_decls b), mkBuilder (local_decls b ++ [ty]) (cfg b) (check_overflow b)).
Definition push (b : Builder) (i : Instr) : Builder := mkBuilder (local_decls b) (cfg b ++ [i]) (check_overflow b).

(** [Operand::ty] *)
Definition place_ty (decls : list LocalTy) (p : Place) : outcome Ty :=
  match decls !! plocal p, pfield p with
  | Some (Plain t), None => Ret t
  | Some (WithBool t), Some 0%nat => Ret t
  | Some (WithBool t), Some 1%nat => Ret Bool
  | _, _ => Panic
  end.
Definition operand_ty (decls : list LocalTy) (o : Operand) : outcome Ty :=
  match o with Copy p | Move p => place_ty decls p | Constant _ ty => Ret ty end.

Definition is_signed (t : Ty) : bool := match t with IntT _ => true | _ => false end.

Definition int_size_and_signed (t : Ty) : outcome (Size * bool) :=
  match t with
  | IntT ity => let! i := from_int_ty dl ity in Ret (Integer.size i, true)
  | UintT uty => let! i := from_uint_ty dl uty in Ret (Integer.size i, false)
  | _ => Panic
  end.

(** [IntTy::to_unsigned] *)
Definition to_unsigned (t : IntTy) : UintTy :=
  match t with
  | Isize => Usize | Si8 => Ui8 | Si16 => Ui16 | Si32 => Ui32 | Si64 => Ui64 | Si128 => Ui128
  end.

(** [ConstantKind::from_bits] as an operand *)
Definition const_from_bits (bits : Z) (ty : Ty) : outcome Operand :=
  let! l := layout_of dl ty in
  let! cv :=
    if is_field ty then let! f := ScalarField.from_uint bits (lsize l) in Ret (IField f)
    else let! s := Scalar.from_uint bits (lsize l) in Ret (IScalar s) in
  Ret (Constant cv ty).

Definition zero_literal (ty : Ty) : outcome Operand := const_from_bits 0 ty.
Definition neg_1_literal (ty : Ty) : outcome Operand :=
  let! l := layout_of dl ty in
  let! max := Size.unsigned_int_max (lsize l) in const_from_bits max ty.
Definition minval_literal (ty : Ty) : outcome Operand :=
  rassert (is_signed ty)
    (let! l := layout_of dl ty in
     let! bits := Size.bits (lsize l) in
     const_from_bits (wrap 128 (Z.shiftl 1 (bits - 1))) ty).

(** The arms of [build_binary_op] *)
Definition build_checked (b : Builder) (op : BinOp) (ty : Ty) (lhs rhs : Operand) : outcome (Builder * Rvalue) :=
  let '(result_value, b) := temp b (WithBool ty) in
  let b := push b (Assign result_value (CheckedBinaryOp op (to_copy lhs) (to_copy rhs))) in
  let val := mkPlace result_value (Some 0%nat) in
  let of_ := mkPlace result_value (Some 1%nat) in
  let b := push b (Assert (Move of_) false (Overflow op lhs rhs)) in
  Ret (b, Use (Move val)).

(** The amount of a shift at an unsigned type *)
Definition unsigned_amount (b : Builder) (rhs : Operand) : outcome (Operand * Ty * Builder) :=
  let! rhs_ty := operand_ty (local_decls b) rhs in
  match rhs_ty with
  | UintT _ => Ret (to_copy rhs, rhs_ty, b)
  | IntT int_width =>
      let uint_ty := UintT (to_unsigned int_width) in
      let '(rhs_temp, b) := temp b (Plain uint_ty) in
      let b := push b (Assign rhs_temp (CastIntToInt (to_copy rhs) uint_ty)) in
      Ret (Move (mkPlace rhs_temp None), uint_ty, b)
  | _ => Panic
  end.

Definition build_shift (b : Builder) (op : BinOp) (ty : Ty) (lhs rhs : Operand) : outcome (Builder * Rvalue) :=
  let! (lhs_size, _) := int_size_and_signed ty in
  let! rhs_ty := operand_ty (local_decls b) rhs in
  let! (rhs_size, _) := int_size_and_signed rhs_ty in
  let! (unsigned_rhs, unsigned_ty, b) := unsigned_amount b rhs in
  let! bits := Size.bits lhs_size in
  let! s := Scalar.from_uint bits rhs_size in
  let lhs_bits := Constant (IScalar s) unsigned_ty in
  let '(inbounds, b) := temp b (Plain Bool) in
  let b := push b (Assign inbounds (BinaryOp Lt unsigned_rhs lhs_bits)) in
  let b := push b (Assert (Move (mkPlace inbounds None)) true (Overflow op (to_copy lhs) (to_copy rhs))) in
  Ret (b, BinaryOp op lhs rhs).

(** The check for the smallest number divided by minus one *)
Definition build_min_check (b : Builder) (op : BinOp) (ty : Ty) (lhs rhs : Operand) : outcome Builder :=
  let! neg_1 := neg_1_literal ty in
  let! min := minval_literal ty in
  let '(is_neg_1, b) := temp b (Plain Bool) in
  let '(is_min, b) := temp b (Plain Bool) in
  let '(of_, b) := temp b (Plain Bool) in
  let b := push b (Assign is_neg_1 (BinaryOp Eq (to_copy rhs) neg_1)) in
  let b := push b (Assign is_min (BinaryOp Eq (to_copy lhs) min)) in
  let b := push b (Assign of_ (BinaryOp BitAnd (Move (mkPlace is_neg_1 None)) (Move (mkPlace is_min None)))) in
  Ret (push b (Assert (Move (mkPlace of_ None)) false (Overflow op (to_copy lhs) (to_copy rhs)))).

Definition build_division (b : Builder) (op : BinOp) (ty : Ty) (lhs rhs : Operand) : outcome (Builder * Rvalue) :=
  let zero_err := if decide (op = Div) then DivByZero (to_copy lhs) else RemByZero (to_copy lhs) in
  let '(is_zero, b) := temp b (Plain Bool) in
  let! zero := zero_literal ty in
  let b := push b (Assign is_zero (BinaryOp Eq (to_copy rhs) zero)) in
  let b := push b (Assert (Move (mkPlace is_zero None)) false zero_err) in
  let! b := if is_signed ty then build_min_check b op ty lhs rhs else Ret b in
  Ret (b, BinaryOp op lhs rhs).

Definition build_binary_op (b : Builder) (op : BinOp) (ty : Ty) (lhs rhs : Operand) : outcome (Builder * Rvalue) :=
  match op with
  | Add | Sub | Mul => if check_overflow b && is_integral ty then build_checked b op ty lhs rhs else Ret (b, BinaryOp op lhs rhs)
  | Shl | Shr => if check_overflow b && is_integral ty then build_shift b op ty lhs rhs else Ret (b, BinaryOp op lhs rhs)
  | Div | Rem => if is_integral ty || is_field ty then build_division b op ty lhs rhs else Ret (b, BinaryOp op lhs rhs)
  | _ => Ret (b, BinaryOp op lhs rhs)
  end.

(** [ExprKind::Unary] *)
Definition build_unary_op (b : Builder) (op : UnOp) (ty : Ty) (arg : Operand) : outcome (Builder * Rvalue) :=
  if check_overflow b && match op with Neg => true | OpNot => false end && is_signed ty then
    let! minval := minval_literal ty in
    let '(is_min, b) := temp b (Plain Bool) in
    let b := push b (Assign is_min (BinaryOp Eq (to_copy arg) minval)) in
    let b := push b (Assert (Move (mkPlace is_min None)) false (OverflowNeg (to_copy arg))) in
    Ret (b, UnaryOp op arg)
  else Ret (b, UnaryOp op arg).

(** ** The interpreter *)

(** A frame is the list of the values of its locals. *)

(** [ImmTy::offset_] on a pair of scalars *)
Definition offset_imm (i : Immediate) (field : nat) : outcome Immediate :=
  match i with
  | IUninit => Ret IUninit
  | IScalarPair a b => Ret (IScalar (if decide (field = 0%nat) then a else b))
  | _ => Panic
  end.

(** [eval_place_to_op] on a local and at most one field; a layout that is passed in is
    that of the local *)
Definition eval_place_to_op (decls : list LocalTy) (fr : list Immediate) (p : Place) (hint : option TyAndLayout) : R ImmTy :=
  let% ty := rlift (place_ty decls p) in
  let hint := match pfield p with None => hint | Some _ => None end in
  let% layout := rlift (match hint with Some l => Ret l | None => layout_of dl ty end) in
  match fr !! plocal p with
  | Some val =>
      let% val := rlift (match pfield p with None => Ret val | Some f => offset_imm val f end) in
      rret (mkImm val layout)
  | None => Panic
  end.

Definition eval_operand (decls : list LocalTy) (fr : list Immediate) (o : Operand) (hint : option TyAndLayout) : R ImmTy :=
  match o with
  | Copy p | Move p => eval_place_to_op decls fr p hint
  | Constant val ty => let% layout := rlift (match hint with Some l => Ret l | None => layout_of dl ty end) in rret (mkImm val layout)
  end.

(** [read_immediate] of [eval_operand] *)
Definition read_operand (decls : list LocalTy) (fr : list Immediate) (o : Operand) (hint : option TyAndLayout) : R ImmTy :=
  let% i := eval_operand decls fr o hint in
  match imm i with IUninit => rthrow InvalidUninitBytes | _ => rret i end.

(** [write_immediate] to a local *)
Definition write_local (fr : list Immediate) (dest : nat) (val : Immediate) : outcome (list Immediate) :=
  rassert (bool_decide (dest < length fr)%nat) (Ret (<[dest:=val]> fr)).

(** [cast_from_int_like] and [int_to_int_or_float] *)
Definition cast_from_int_like (s : scalar) (src_layout : TyAndLayout) (cast_ty : Ty) : R scalar :=
  let% signed := rlift (Abi.is_signed (layout_abi (tl_layout src_layout))) in
  let% v := to_bits s (lsize src_layout) in
  let% v := rlift (if (signed : bool) then sign_extend v src_layout else Ret v) in
  match cast_ty with
  | IntT t =>
      let% i := rlift (from_int_ty dl t) in
      let% v := rlift (Size.truncate (Integer.size i) v) in rlift (Scalar.from_uint v (Integer.size i))
  | UintT t =>
      let% i := rlift (from_uint_ty dl t) in
      let% v := rlift (Size.truncate (Integer.size i) v) in rlift (Scalar.from_uint v (Integer.size i))
  | FloatT fty => rret (from_float fty (f_from_int fty (if (signed : bool) then to_signed 128 v else v)))
  | Char => rlift (rassert (v <? 2 ^ 8) (Ret (Int {| int_data := v; int_size := 4 |})))
  | _ => Panic
  end.

Definition int_to_int_or_float (src : ImmTy) (cast_ty : Ty) : R Immediate :=
  let ty := tl_ty (imm_layout src) in
  let% _ := rlift (rassert (is_integral ty || is_char ty || is_bool ty) (Ret tt)) in
  let% _ := rlift (rassert (is_floating_point cast_ty || is_integral cast_ty || is_char cast_ty) (Ret tt)) in
  let% s := rlift (to_scalar src) in
  let% s := cast_from_int_like s (imm_layout src) cast_ty in rret (IScalar s).

Definition binop_left_homogeneous (op : BinOp) : bool :=
  match op with
  | Eq | Ne | Lt | Le | Gt | Ge => false
  | _ => true
  end.

(** [binop_with_overflow] and [binop_ignore_overflow] *)
Definition binop_with_overflow (op : BinOp) (lv rv : ImmTy) (fr : list Immediate) (dest : nat) : R (list Immediate) :=
  let% (val, overflowed, _) := overflowing_scalar_op op lv rv in
  rlift (write_local fr dest (IScalarPair val (from_bool overflowed))).
Definition binop_ignore_overflow (op : BinOp) (lv rv : ImmTy) (fr : list Immediate) (dest : nat) (dest_ty : Ty) : R (list Immediate) :=
  let% (val, _, ty) := overflowing_scalar_op op lv rv in
  let% _ := rlift (rassert (bool_decide (ty = dest_ty)) (Ret tt)) in
  rlift (write_local fr dest (IScalar val)).

(** [eval_rvalue_into_place] *)
Definition eval_rvalue_into_place (decls : list LocalTy) (fr : list Immediate) (rv : Rvalue) (dest : nat) : R (list Immediate) :=
  let dest_layout :=
    match decls !! dest with Some (Plain t) => layout_of dl t | _ => Panic end in
  match rv with
  | Use o =>
      let% dest_layout := rlift dest_layout in
      let% v := eval_operand decls fr o (Some dest_layout) in rlift (write_local fr dest (imm v))
  | BinaryOp op l r =>
      let% dest_layout := rlift dest_layout in
      let% lv := read_operand decls fr l (if binop_left_homogeneous op then Some dest_layout else None) in
      let% rv := read_operand decls fr r (if binop_right_homogeneous op then Some (imm_layout lv) else None) in
      binop_ignore_overflow op lv rv fr dest (tl_ty dest_layout)
  | CheckedBinaryOp op l r =>
      let% lv := read_operand decls fr l None in
      let% rv := read_operand decls fr r (if binop_right_homogeneous op then Some (imm_layout lv) else None) in
      binop_with_overflow op lv rv fr dest
  | UnaryOp op o =>
      let% dest_layout := rlift dest_layout in
      let% val := read_operand decls fr o (Some dest_layout) in
      let% val := unary_op dl op val in
      let% _ := rlift (rassert (bool_decide (tl_ty (imm_layout val) = tl_ty dest_layout)) (Ret tt)) in
      rlift (write_local fr dest (imm val))
  | CastIntToInt o ty =>
      let% src := read_operand decls fr o None in
      let% res := int_to_int_or_float src ty in
      rlift (write_local fr dest res)
  end.

(** [assert_panic], with [to_const_int] *)
Definition to_const_int (i : ImmTy) : outcome ConstInt :=
  let ty := tl_ty (imm_layout i) in
  rassert (is_integral ty)
    (let! s := to_scalar i in
     match s with
     | Int int => Ret (mkConstInt int (is_signed ty) (match ty with IntT Isize | UintT Usize => true | _ => false end))
     | Ptr _ _ => Panic
     end).

Definition assert_panic (decls : list LocalTy) (fr : list Immediate) (msg : AssertKind Operand) : R (list Immediate) :=
  let eval_to_int o := let% i := read_operand decls fr o None in rlift (to_const_int i) in
  let% err :=
    match msg with
    | Overflow op l r => let% l := eval_to_int l in let% r := eval_to_int r in rret (Overflow op l r)
    | OverflowNeg o => let% o := eval_to_int o in rret (OverflowNeg o)
    | DivByZero o => let% o := eval_to_int o in rret (DivByZero o)
    | RemByZero o => let% o := eval_to_int o in rret (RemByZero o)
    end in
  rthrow (AssertFailure err).

Definition step_instr (decls : list LocalTy) (fr : list Immediate) (i : Instr) : R (list Immediate) :=
  match i with
  | Assign dest rv => eval_rvalue_into_place decls fr rv dest
  | Assert cond expected msg =>
      let% c := read_operand decls fr cond None in
      let% s := rlift (to_scalar c) in
      let% cond_val := to_bool s in
      if eqb expected cond_val then rret fr else assert_panic decls fr msg
  end.

Fixpoint run (decls : list LocalTy) (fr : list Immediate) (code : list Instr) : R (list Immediate) :=
  match code with
  | [] => rret fr
  | i :: code => let% fr := step_instr decls fr i in run decls fr code
  end.

(** An expression: its operator is lowered, and the code and then the assignment of its
    value to a fresh local are run. *)
Definition eval_binary (b : Builder) (fr : list Immediate) (op : BinOp) (ty : Ty) (lhs rhs : Operand) : R Immediate :=
  let% (b, rv) := rlift (build_binary_op b op ty lhs rhs) in
  let '(dest, b) := temp b (Plain ty) in
  let fr := fr ++ replicate (length (local_decls b) - length fr) IUninit in
  let% fr := run (local_decls b) fr (cfg b ++ [Assign dest rv]) in
  match fr !! dest with Some v => rret v | None => Panic end.
Definition eval_unary (b : Builder) (fr : list Immediate) (op : UnOp) (ty : Ty) (arg : Operand) : R Immediate :=
  let% (b, rv) := rlift (build_unary_op b op ty arg) in
  let '(dest, b) := temp b (Plain ty) in
  let fr := fr ++ replicate (length (local_decls b) - length fr) IUninit in
  let% fr := run (local_decls b) fr (cfg b ++ [Assign dest rv]) in
  match fr !! dest with Some v => rret v | None => Panic end.

End lowering.
