(* ===== verification/LoweringProps.v ===== *)
(** Lowered arithmetic computes what the operator means: the assertions that are put
    before an operator fail exactly on overflow and on division by zero, and the operator
    that follows does not fail. *)

From S2P Require Import Prelude.
From S2P Require Import Abi.
From S2P Require Import AbiProps.
From S2P Require Import Enum.
From S2P Require Import EnumProps.
From S2P Require Import TaggedProps.
From S2P Require Import Discriminant.
From S2P Require Import DiscriminantProps.
From S2P Require Import Literal.
From S2P Require Import Fields.
From S2P Require Import FieldsProps.
From S2P Require Import Slice.
From S2P Require Import Provenance.
From S2P Require Import Allocation.
From S2P Require Import AllocationProps.
From S2P Require Import Operator.
From S2P Require Import OperatorProps.
From S2P Require Import Lowering.
#[local] Open Scope op_scope.

Section lowered.
Context `{U384Api} `{ApFloat} (dl : TargetDataLayout).

(** ** Integers *)

Lemma int_has_layout ty i sgn : int_of_ty dl ty = Ret (i, sgn) →
  ∃ lay, layout_of dl ty = Ret lay ∧ int_layout lay i sgn ∧ tl_ty lay = ty.
Proof.
  intros E. assert (is_integral ty = true) as Hi by (by destruct ty).
  assert (∃ lay, layout_of dl ty = Ret lay) as [lay El].
  { unfold layout_of. destruct ty as [| |t|t| | | | | | | |]; try done; cbn in E |- *;
      [destruct (from_int_ty dl t) as [j|]|destruct (from_uint_ty dl t) as [j|]]; try done; cbn [obind]; destruct j; by eexists. }
  destruct (int_layout_of dl ty lay Hi El) as (j & g & E' & Hl & Ht). rewrite E in E'. injection E' as <- <-. by exists lay.
Qed.

(** An operator on the bits of integers is the operator of their type. *)
Lemma overflowing_int op a b x y i sgn j g l r :
  is_integral a = true → is_integral b = true → op ≠ Offset → (is_shift op = false → a = b) →
  int_layout (imm_layout x) i sgn → int_layout (imm_layout y) j g → tl_ty (imm_layout x) = a → tl_ty (imm_layout y) = b →
  int_of_ty dl a = Ret (i, sgn) → int_of_ty dl b = Ret (j, g) →
  imm x = IScalar (uint_scalar i l) → imm y = IScalar (uint_scalar j r) → is_uint (int_bits i) l → is_uint (int_bits j) r →
  overflowing_scalar_op op x y = Ret (int_spec (imm_layout x) i op sgn l r).
Proof.
  intros Ha Hb Ho Hh Hl Hl' Et Et' Ei Ej Ex Ey Hz Hz'.
  transitivity (binary_int_op op l (imm_layout x) r (imm_layout y)).
  { unfold overflowing_scalar_op, to_scalar. rewrite Et, Et', Hb, Ex, Ey. unfold rlift, rbind. cbn [rassert obind].
    rewrite (to_bits_int i sgn), (to_bits_int j g) by done. by destruct a. }
  apply binary_int_exact; [done|done|done|]. unfold right_ok. destruct (is_shift op) eqn:Hs; [by apply (is_uint_128 j)|].
  rewrite Hh in * by done. rewrite Ei in Ej. injection Ej as <- <-. by rewrite Et, Et'.
Qed.

(** ** Operands *)

(** An operand has a type, and a scalar as its value. *)
Definition holds (decls : list LocalTy) (fr : list Immediate) (o : Operand) (ty : Ty) (s : scalar) : Prop :=
  match o with
  | Copy p | Move p =>
      place_ty decls p = Ret ty ∧
      ∃ v, fr !! plocal p = Some v ∧ (match pfield p with None => Ret v | Some f => offset_imm v f end) = Ret (IScalar s)
  | Constant v t => v = IScalar s ∧ t = ty
  end.

Lemma holds_copy decls fr o ty s : holds decls fr (to_copy o) ty s ↔ holds decls fr o ty s.
Proof. by destruct o. Qed.

Lemma holds_app decls dt fr tmp o ty s : holds decls fr o ty s → holds (decls ++ dt) (fr ++ tmp) o ty s.
Proof.
  assert (∀ p, place_ty decls p = Ret ty → place_ty (decls ++ dt) p = Ret ty) as Hp.
  { intros p. unfold place_ty. destruct (decls !! plocal p) as [t|] eqn:E; [|done]. by rewrite (lookup_app_l_Some _ _ _ _ E). }
  destruct o as [p|p|]; cbn; intros; destruct_and?; try done; split; auto.
  all: destruct H3 as (v & Ev & Hv); exists v; split; [by apply lookup_app_l_Some|done].
Qed.

Lemma eval_holds decls fr o ty s hint lay : holds decls fr o ty s → layout_of dl ty = Ret lay → hint = None ∨ hint = Some lay →
  eval_operand dl decls fr o hint = rret (mkImm (IScalar s) lay).
Proof.
  intros Ho El Hh. assert ((match hint with Some l => Ret l | None => layout_of dl ty end) = Ret lay) as Hl by (by destruct Hh as [-> | ->]).
  unfold eval_operand, eval_place_to_op. destruct o as [p|p|v t]; cbn [holds] in Ho.
  3: { destruct Ho as [-> ->]. by rewrite Hl. }
  all: destruct Ho as [Hp (v & Ev & Hv)]; rewrite Hp; unfold rlift, rbind; cbn [obind];
    destruct (pfield p) as [f|]; [rewrite El, Ev; cbn [obind]; by rewrite Hv|rewrite Hl, Ev; by injection Hv as ->].
Qed.

Lemma read_holds decls fr o ty s hint lay : holds decls fr o ty s → layout_of dl ty = Ret lay → hint = None ∨ hint = Some lay →
  read_operand dl decls fr o hint = rret (mkImm (IScalar s) lay).
Proof. intros Ho El Hh. unfold read_operand. by rewrite (eval_holds _ _ _ ty s _ lay). Qed.

(** ** Temporaries *)

Lemma app_at {A} (l k : list A) n : (l ++ k) !! (length l + n)%nat = k !! n.
Proof. rewrite lookup_app_r by lia. f_equal. lia. Qed.

Lemma write_temp (fr tmp : list Immediate) k v : (k < length tmp)%nat →
  write_local (fr ++ tmp) (length fr + k) v = Ret (fr ++ <[k:=v]> tmp).
Proof.
  intros Hk. unfold write_local. rewrite bool_decide_eq_true_2 by (rewrite length_app; lia). cbn. by rewrite insert_app_r.
Qed.

Lemma holds_temp decls dt fr tmp k ty s : length decls = length fr → dt !! k = Some (Plain ty) → tmp !! k = Some (IScalar s) →
  holds (decls ++ dt) (fr ++ tmp) (Move (mkPlace (length decls + k) None)) ty s.
Proof.
  intros Hn Hd Ht. cbn. unfold place_ty. cbn. rewrite app_at, Hd. split; [done|]. exists (IScalar s). rewrite Hn, app_at. done.
Qed.

(** ** Steps *)

Record int_operand (decls : list LocalTy) (fr : list Immediate) (o : Operand) (ty : Ty) (i : Integer) (sgn : bool) (v : Z) : Prop := {
  io_holds : holds decls fr o ty (uint_scalar i v);
  io_int : int_of_ty dl ty = Ret (i, sgn);
  io_range : is_uint (int_bits i) v;
}.

Lemma int_operand_copy decls fr o ty i sgn v : int_operand decls fr o ty i sgn v → int_operand decls fr (to_copy o) ty i sgn v.
Proof. intros [Ho ? ?]. split; [by apply holds_copy|done..]. Qed.

Lemma int_operand_app decls dt fr tmp o ty i sgn v :
  int_operand decls fr o ty i sgn v → int_operand (decls ++ dt) (fr ++ tmp) o ty i sgn v.
Proof. intros [Ho ? ?]. split; [by apply holds_app|done..]. Qed.

Lemma int_of_integral ty p : int_of_ty dl ty = Ret p → is_integral ty = true ∧ is_primitive ty = true.
Proof. by destruct ty. Qed.

Section step.
Context (decls : list LocalTy) (fr : list Immediate) (a b : Ty) (i j : Integer) (sgn g : bool) (lo ro : Operand) (l r : Z) (lay : TyAndLayout).
Context (Hlo : int_operand decls fr lo a i sgn l) (Hro : int_operand decls fr ro b j g r) (El : layout_of dl a = Ret lay).

(** Both operands are read at the layouts of their types. *)
Lemma read_both op lhint : op ≠ Offset → (is_shift op = false → a = b) → lhint = None ∨ lhint = Some lay →
  ∃ rlay, int_layout lay i sgn ∧ int_layout rlay j g ∧ tl_ty lay = a ∧ tl_ty rlay = b ∧
    read_operand dl decls fr lo lhint = rret (mkImm (IScalar (uint_scalar i l)) lay) ∧
    read_operand dl decls fr ro (if binop_right_homogeneous op then Some lay else None) = rret (mkImm (IScalar (uint_scalar j r)) rlay).
Proof.
  intros Ho Hh Hl. destruct Hlo as [Hlo1 Hlo2 Hlo3], Hro as [Hro1 Hro2 Hro3].
  destruct (int_has_layout a i sgn Hlo2) as (lay' & E & Hl1 & Ht1). rewrite El in E. injection E as <-.
  destruct (int_has_layout b j g Hro2) as (rlay & Er & Hl2 & Ht2). exists rlay. split_and!; try done; [by eapply read_holds|].
  eapply read_holds; [done|done|]. destruct (binop_right_homogeneous op) eqn:E; [right|by left].
  assert (a = b) as Hab by (apply Hh; by destruct op). rewrite <- Hab, El in Er. by injection Er as ->.
Qed.

Lemma overflowing_operands op rlay : op ≠ Offset → (is_shift op = false → a = b) → int_layout lay i sgn → int_layout rlay j g →
  tl_ty lay = a → tl_ty rlay = b →
  overflowing_scalar_op op (mkImm (IScalar (uint_scalar i l)) lay) (mkImm (IScalar (uint_scalar j r)) rlay) = Ret (int_spec lay i op sgn l r)
  ∧ sound dl op a b (Ret (int_spec lay i op sgn l r)).
Proof.
  intros Ho Hh Hl1 Hl2 Ht1 Ht2. destruct Hlo as [Hlo1 Hlo2 Hlo3], Hro as [Hro1 Hro2 Hro3].
  destruct (int_of_integral _ _ Hlo2), (int_of_integral _ _ Hro2). split.
  - by apply (overflowing_int op a b (mkImm (IScalar (uint_scalar i l)) lay) (mkImm (IScalar (uint_scalar j r)) rlay) i sgn j g).
  - rewrite <- Ht1. apply int_spec_sound; rewrite ?Ht1; try done; [intros; apply Hh; by destruct op|].
    intros Hs. rewrite Hh in Hlo2 by done. rewrite Hro2 in Hlo2. by injection Hlo2 as <- _.
Qed.

Lemma step_binary op dest t : op ≠ Offset → (is_shift op = false → a = b) → decls !! dest = Some (Plain t) → binop_ty op a b = Ret t →
  eval_rvalue_into_place dl decls fr (BinaryOp op lo ro) dest =
    match int_spec lay i op sgn l r with Ok (s, _, _) => rlift (write_local fr dest (IScalar s)) | Err e => rthrow e end.
Proof.
  intros Ho Hh Hd Ht. destruct (int_of_integral _ _ (io_int _ _ _ _ _ _ _ Hlo)) as [Hai _].
  assert (∃ dlay, layout_of dl t = Ret dlay ∧ tl_ty dlay = t ∧ (binop_left_homogeneous op = true → dlay = lay)) as (dlay & Ed & Etd & Hdl).
  { destruct (binop_left_homogeneous op) eqn:Eh.
    - exists lay. assert (t = a) as ->; [|split_and!; [done|by eapply layout_of_ty|done]].
      unfold binop_ty, rassert in Ht. destruct a; try done; destruct op; try done; repeat case_match; try done; injection Ht as <-; try done; symmetry; by apply Hh.
    - exists (match layout_of dl Bool with Ret x => x | Panic => lay end). assert (t = Bool) as ->; [|done].
      destruct op; try done; by injection Ht. }
  destruct (read_both op (if binop_left_homogeneous op then Some dlay else None) Ho Hh) as (rlay & Hl1 & Hl2 & Ht1 & Ht2 & R1 & R2).
  { destruct (binop_left_homogeneous op); [right; by rewrite Hdl|by left]. }
  unfold eval_rvalue_into_place. rewrite Hd, Ed. unfold rlift at 1, rbind at 1. cbn [obind]. rewrite R1. unfold rbind at 1, rret. cbn [obind imm_layout].
  rewrite R2. unfold rbind at 1, rret. cbn [obind]. unfold binop_ignore_overflow.
  destruct (overflowing_operands op rlay Ho Hh Hl1 Hl2 Ht1 Ht2) as [-> (o & Eo & Hs)]. injection Eo as <-.
  unfold rbind at 1. cbn [obind]. destruct (int_spec lay i op sgn l r) as [[[s f] t']|e]; [|done]. destruct Hs as [Hs _]. rewrite Ht in Hs. injection Hs as <-.
  rewrite Etd, bool_decide_eq_true_2 by done. done.
Qed.

Lemma step_checked op dest : op ≠ Offset → is_shift op = false → a = b →
  eval_rvalue_into_place dl decls fr (CheckedBinaryOp op lo ro) dest =
    match int_spec lay i op sgn l r with Ok (s, f, _) => rlift (write_local fr dest (IScalarPair s (from_bool f))) | Err e => rthrow e end.
Proof.
  intros Ho Hs Hh. destruct (read_both op None Ho ltac:(done) ltac:(by left)) as (rlay & Hl1 & Hl2 & Ht1 & Ht2 & R1 & R2).
  unfold eval_rvalue_into_place. rewrite R1. unfold rbind at 1, rret. cbn [obind imm_layout].
  rewrite R2. unfold rbind at 1, rret. cbn [obind]. unfold binop_with_overflow.
  destruct (overflowing_operands op rlay Ho ltac:(done) Hl1 Hl2 Ht1 Ht2) as [-> _]. unfold rbind, rlift. cbn [obind].
  by destruct (int_spec lay i op sgn l r) as [[[s f] t']|e].
Qed.

(** The message of a failing assertion, with the numbers of the operands *)
Definition const_int (ty : Ty) (i : Integer) (v : Z) : ConstInt :=
  mkConstInt {| int_data := v; int_size := Integer.size i |} (is_signed ty) (match ty with IntT Isize | UintT Usize => true | _ => false end).
End step.

Lemma eval_const_int decls fr o ty i sgn v : int_operand decls fr o ty i sgn v →
  (let% x := read_operand dl decls fr o None in rlift (to_const_int x)) = rret (const_int ty i v).
Proof.
  intros [Ho Hi Hv]. destruct (int_has_layout ty i sgn Hi) as (lay & El & Hl & Ht). rewrite (read_holds decls fr o ty _ None lay) by (done || by left).
  unfold rbind, rret, rlift, to_const_int. cbn [obind imm_layout]. rewrite Ht. destruct (int_of_integral _ _ Hi) as [-> _]. done.
Qed.

(** An assertion on a boolean *)
Lemma step_assert decls fr cond expected msg x : holds decls fr cond Bool (from_bool x) →
  step_instr dl decls fr (Assert cond expected msg) = if eqb expected x then rret fr else assert_panic dl decls fr msg.
Proof.
  intros Hc. cbn [step_instr]. destruct (layout_of dl Bool) as [lay|] eqn:El; [|done].
  rewrite (read_holds decls fr cond Bool _ None lay) by (done || by left). unfold rbind, rret, rlift, to_scalar. cbn [obind imm]. rewrite to_bool_from. done.
Qed.

Lemma step_use decls fr o ty s lay dest : holds decls fr o ty s → layout_of dl ty = Ret lay → decls !! dest = Some (Plain ty) →
  eval_rvalue_into_place dl decls fr (Use o) dest = rlift (write_local fr dest (IScalar s)).
Proof.
  intros Ho El Hd. cbn [eval_rvalue_into_place]. rewrite Hd, El. unfold rlift at 1, rbind. cbn [obind].
  by rewrite (eval_holds _ _ _ ty s _ lay) by (done || by right).
Qed.

Lemma run_app decls fr c1 c2 : run dl decls fr (c1 ++ c2) = let% fr := run dl decls fr c1 in run dl decls fr c2.
Proof.
  revert fr. induction c1 as [|i c1 IH]; intros fr; [done|]. cbn [app run]. destruct (step_instr dl decls fr i) as [[fr'|e]|]; try done.
  unfold rbind at 1 3. cbn [obind]. apply IH.
Qed.

Lemma run_step decls fr fr' i c : step_instr dl decls fr i = rret fr' → run dl decls fr (i :: c) = run dl decls fr' c.
Proof. intros E. cbn [run]. by rewrite E. Qed.

Lemma run_fail decls fr e i c : step_instr dl decls fr i = rthrow e → run dl decls fr (i :: c) = rthrow e.
Proof. intros E. cbn [run]. by rewrite E. Qed.

(** The failure of an assertion *)
Lemma panic_overflow decls fr op lo ro a b i j sgn g l r :
  int_operand decls fr lo a i sgn l → int_operand decls fr ro b j g r →
  assert_panic dl decls fr (Overflow op lo ro) = rthrow (AssertFailure (Overflow op (const_int a i l) (const_int b j r))).
Proof.
  intros Hl Hr. unfold assert_panic. rewrite (eval_const_int _ _ _ _ _ _ _ Hl). unfold rbind at 1 2, rret. cbn [obind].
  rewrite (eval_const_int _ _ _ _ _ _ _ Hr). done.
Qed.

(** ** Casts *)

Lemma cast_int ty' i k sgn g v lay : int_of_ty dl ty' = Ret (k, g) → int_layout lay i sgn → is_uint (int_bits i) v →
  cast_from_int_like dl (uint_scalar i v) lay ty' = rret (uint_scalar k (ival sgn (int_bits i) v mod 2 ^ int_bits k)).
Proof.
  intros Hk Hl Hv. pose proof (w_range i) as Hw. pose proof (w_range k) as Hw'. unfold cast_from_int_like. rewrite (il_signed _ _ _ Hl).
  unfold rlift at 1, rbind at 1. cbn [obind]. rewrite (to_bits_int i sgn) by done. unfold rbind at 1, rret. cbn [obind].
  assert ((if sgn then sign_extend v lay else Ret v) = Ret (of_signed 128 (ival sgn (int_bits i) v))) as ->.
  { destruct sgn; cbn [ival].
    - pose proof (sign_extend_lay lay i v Hl) as E. by rewrite Z.mod_small in E by done.
    - f_equal. symmetry. apply wrap_small. by apply (is_uint_128 i). }
  unfold rlift, rbind. cbn [obind]. set (z := ival sgn (int_bits i) v).
  assert (∀ (s := Scalar.from_uint (Prov := AllocId) (z mod 2 ^ int_bits k) (Integer.size k)), s = Ret (uint_scalar k (z mod 2 ^ int_bits k))) as Hs.
  { apply from_uint_ret; [by destruct k|]. assert (8 * Integer.size k = int_bits k) as -> by (by destruct k). apply wrap_bounds. lia. }
  destruct ty' as [| |t|t| | | | | | | |]; try done; cbn [int_of_ty] in Hk;
    [destruct (from_int_ty dl t) as [k'|]|destruct (from_uint_ty dl t) as [k'|]]; try done; cbn [obind] in *; injection Hk as -> <-;
    rewrite truncate_int; cbn [obind]; by rewrite Hs.
Qed.

Lemma step_cast decls fr o ty ty' i k sgn g v dest : int_operand decls fr o ty i sgn v → int_of_ty dl ty' = Ret (k, g) →
  eval_rvalue_into_place dl decls fr (CastIntToInt o ty') dest
  = rlift (write_local fr dest (IScalar (uint_scalar k (ival sgn (int_bits i) v mod 2 ^ int_bits k)))).
Proof.
  intros [Ho Hi Hv] Hk. destruct (int_has_layout ty i sgn Hi) as (lay & El & Hl & Ht).
  destruct (int_of_integral _ _ Hi) as [Hi1 _], (int_of_integral _ _ Hk) as [Hk1 _].
  cbn [eval_rvalue_into_place]. rewrite (read_holds _ _ _ ty _ _ lay) by (done || by left). unfold rbind at 1, rret. cbn [obind].
  unfold int_to_int_or_float, to_scalar. cbn [imm imm_layout]. rewrite Ht, Hi1, Hk1, orb_true_r. unfold rlift at 1 2 3, rbind. cbn [rassert orb obind].
  by rewrite (cast_int ty' i k sgn g v lay).
Qed.

(** The unsigned type of the same width *)
Lemma to_unsigned_int t j : int_of_ty dl (IntT t) = Ret (j, true) → int_of_ty dl (UintT (to_unsigned t)) = Ret (j, false).
Proof. cbn. destruct t; cbn; intros E; try (by injection E as <-). destruct (ptr_sized_integer dl) as [k|]; [|done]. cbn in *. by injection E as <-. Qed.

(** ** Shifts *)

Lemma ival_mod s w v : 0 < w → is_uint w v → ival s w v mod 2 ^ w = v.
Proof. intros Hw Hv. destruct s; cbn [ival]; [by apply (of_to_signed w)|by apply Z.mod_small]. Qed.

Lemma int_size ty i s : int_of_ty dl ty = Ret (i, s) → int_size_and_signed dl ty = Ret (Integer.size i, s).
Proof.
  intros E. destruct ty as [| |t|t| | | | | | | |]; try done; cbn in *; [destruct (from_int_ty dl t)|destruct (from_uint_ty dl t)]; try done; by injection E as -> <-.
Qed.

Lemma operand_ty_holds decls fr o ty s : holds decls fr o ty s → operand_ty decls o = Ret ty.
Proof. destruct o; cbn; intros Ho; [by destruct Ho..|by destruct Ho as [_ ->]]. Qed.

Lemma int_of_sign ty i s : int_of_ty dl ty = Ret (i, s) → (∃ t, ty = IntT t ∧ s = true) ∨ (∃ t, ty = UintT t ∧ s = false).
Proof.
  intros E. destruct ty as [| |t|t| | | | | | | |]; try done; [left|right]; exists t; cbn in E; [destruct (from_int_ty dl t)|destruct (from_uint_ty dl t)]; try done;
    by injection E as _ <-.
Qed.

Lemma width_uint i j : is_uint (int_bits j) (int_bits i).
Proof. by destruct i, j. Qed.

Lemma width_scalar i j : Scalar.from_uint (Prov := AllocId) (int_bits i) (Integer.size j) = Ret (uint_scalar j (int_bits i)).
Proof. apply from_uint_ret; [by destruct j|]. assert (8 * Integer.size j = int_bits j) as -> by (by destruct j). apply width_uint. Qed.

(** ** Literals, and tests of booleans *)

Lemma const_int_bits ty i sgn z : int_of_ty dl ty = Ret (i, sgn) → is_uint (int_bits i) z →
  const_from_bits dl z ty = Ret (Constant (IScalar (uint_scalar i z)) ty).
Proof.
  intros Hi Hz. destruct (int_has_layout ty i sgn Hi) as (lay & El & Hl & Ht). destruct (int_of_integral _ _ Hi) as [Hii _].
  unfold const_from_bits. rewrite El. cbn [obind]. assert (is_field ty = false) as -> by (by destruct ty).
  by rewrite (from_uint_lay lay i sgn).
Qed.

Lemma minus_one_uint i : is_uint (int_bits i) (2 ^ int_bits i - 1).
Proof. by destruct i. Qed.
Lemma min_uint i : is_uint (int_bits i) (2 ^ (int_bits i - 1)).
Proof. by destruct i. Qed.

Lemma const_values i : ival true (int_bits i) (2 ^ int_bits i - 1) = -1 ∧ ival true (int_bits i) (2 ^ (int_bits i - 1)) = - 2 ^ (int_bits i - 1).
Proof. by destruct i. Qed.

Lemma literals ty i : int_of_ty dl ty = Ret (i, true) →
  neg_1_literal dl ty = Ret (Constant (IScalar (uint_scalar i (2 ^ int_bits i - 1))) ty) ∧
  minval_literal dl ty = Ret (Constant (IScalar (uint_scalar i (2 ^ (int_bits i - 1)))) ty).
Proof.
  intros Hi. destruct (int_has_layout ty i true Hi) as (lay & El & Hl & Ht). unfold neg_1_literal, minval_literal. rewrite El. cbn [obind].
  rewrite (il_size _ _ _ Hl). assert (is_signed ty = true) as -> by (destruct (int_of_sign _ _ _ Hi) as [(t & -> & _)|(t & -> & ?)]; done). split.
  - assert (Size.unsigned_int_max (Integer.size i) = Ret (2 ^ int_bits i - 1)) as -> by (by destruct i). by apply (const_int_bits ty i true), minus_one_uint.
  - assert (Size.bits (Integer.size i) = Ret (int_bits i)) as -> by (by destruct i). cbn [obind rassert].
    assert (wrap 128 (Z.shiftl 1 (int_bits i - 1)) = 2 ^ (int_bits i - 1)) as -> by (by destruct i). by apply (const_int_bits ty i true), min_uint.
Qed.

(** Conjunction of two booleans *)
Lemma step_and decls fr o o' x y dest : holds decls fr o Bool (from_bool x) → holds decls fr o' Bool (from_bool y) →
  decls !! dest = Some (Plain Bool) →
  eval_rvalue_into_place dl decls fr (BinaryOp BitAnd o o') dest = rlift (write_local fr dest (IScalar (from_bool (x && y)))).
Proof.
  intros Ho Ho' Hd. cbn [eval_rvalue_into_place binop_left_homogeneous binop_right_homogeneous]. rewrite Hd.
  destruct (layout_of dl Bool) as [lay|] eqn:El; [|done]. pose proof (layout_of_ty _ _ _ El) as Ht. unfold rlift at 1, rbind at 1. cbn [obind].
  rewrite (read_holds decls fr o Bool _ _ lay) by (done || by right). unfold rbind at 1, rret at 1. cbn [obind imm_layout].
  rewrite (read_holds decls fr o' Bool _ _ lay) by (done || by right). unfold rbind at 1, rret at 1. cbn [obind].
  unfold binop_ignore_overflow, overflowing_scalar_op, to_scalars, to_scalar. cbn [imm imm_layout]. rewrite Ht.
  unfold rbind, rlift. cbn [obind rassert]. rewrite !to_bool_from. by destruct x, y.
Qed.

Section expression.
Context (decls : list LocalTy) (fr : list Immediate) (chk : bool) (Hn : length decls = length fr).
Context (a b : Ty) (i j : Integer) (sgn g : bool) (lo ro : Operand) (l r : Z) (lay : TyAndLayout).
Context (Hlo : int_operand decls fr lo a i sgn l) (Hro : int_operand decls fr ro b j g r) (El : layout_of dl a = Ret lay).
Abbreviation builder := (mkBuilder decls [] chk).
Abbreviation overflow op := (AssertFailure (Overflow op (const_int a i l) (const_int b j r))).

(** What an operator gives when it is evaluated *)
Definition op_value (res : result OpResult OpError) : R Immediate :=
  match res with Ok (s, _, _) => rret (IScalar s) | Err e => rthrow e end.

Lemma eval_binary_code op ty dt code rv : build_binary_op dl builder op ty lo ro = Ret (mkBuilder (decls ++ dt) code chk, rv) →
  eval_binary dl builder fr op ty lo ro =
    let% fr := run dl (decls ++ dt ++ [Plain ty]) (fr ++ replicate (S (length dt)) IUninit) (code ++ [Assign (length decls + length dt)%nat rv]) in
    match fr !! (length decls + length dt)%nat with Some v => rret v | None => Panic end.
Proof.
  intros E. unfold eval_binary. rewrite E. unfold rlift at 1, rbind at 1. cbn [obind temp local_decls cfg].
  rewrite <- app_assoc, !length_app. cbn [length]. replace (length decls + (length dt + 1) - length fr)%nat with (S (length dt)) by lia. done.
Qed.

(** The last assignment of an operator *)
Lemma last_binary op ty dt tmp : op ≠ Offset → (is_shift op = false → a = b) → binop_ty op a b = Ret ty → length tmp = S (length dt) →
  (let% fr := run dl (decls ++ dt ++ [Plain ty]) (fr ++ tmp) [Assign (length decls + length dt)%nat (BinaryOp op lo ro)] in
   match fr !! (length decls + length dt)%nat with Some v => rret v | None => Panic end) = op_value (int_spec lay i op sgn l r).
Proof.
  intros Ho Hh Ht Hlen. cbn [run step_instr].
  rewrite (step_binary (decls ++ dt ++ [Plain ty]) (fr ++ tmp) a b i j sgn g lo ro l r lay
    (int_operand_app _ _ _ _ _ _ _ _ _ Hlo) (int_operand_app _ _ _ _ _ _ _ _ _ Hro) El op _ ty Ho Hh).
  2: { rewrite app_at, lookup_app_r, Nat.sub_diag by lia. done. }
  2: done.
  destruct (int_spec lay i op sgn l r) as [[[s f] t]|e]; [|done]. unfold op_value, rbind, rlift, rret.
  rewrite Hn, write_temp by lia. cbn [obind]. rewrite app_at, list_lookup_insert_eq by lia. done.
Qed.

(** Operators without a check *)
Lemma plain_lowered op ty : build_binary_op dl builder op ty lo ro = Ret (builder, BinaryOp op lo ro) → op ≠ Offset →
  (is_shift op = false → a = b) → binop_ty op a b = Ret ty →
  eval_binary dl builder fr op ty lo ro = op_value (int_spec lay i op sgn l r).
Proof.
  intros E Ho Hh Ht. rewrite (eval_binary_code op ty [] [] (BinaryOp op lo ro)) by (by rewrite app_nil_r).
  by apply (last_binary op ty []).
Qed.

(** Addition, subtraction and multiplication with a check *)
Lemma checked_lowered op : chk = true → op = Add ∨ op = Sub ∨ op = Mul → a = b →
  eval_binary dl builder fr op a lo ro =
    match int_spec lay i op sgn l r with
    | Ok (s, f, _) => if (f : bool) then rthrow (overflow op) else rret (IScalar s)
    | Err e => rthrow e
    end.
Proof.
  intros Hc Ho Hab. destruct (int_of_integral _ _ (io_int _ _ _ _ _ _ _ Hlo)) as [Hai _].
  set (n := (length decls + 0)%nat).
  rewrite (eval_binary_code op a [WithBool a] [Assign n (CheckedBinaryOp op (to_copy lo) (to_copy ro)); Assert (Move (mkPlace n (Some 1%nat))) false (Overflow op lo ro)]
    (Use (Move (mkPlace n (Some 0%nat))))).
  2: { unfold build_binary_op, build_checked, temp, push. cbn [check_overflow local_decls cfg]. rewrite Hai, Hc. subst n. rewrite Nat.add_0_r.
       by destruct Ho as [-> |[-> | ->]]. }
  cbn [app length replicate]. set (D := decls ++ [WithBool a; Plain a]).
  assert (∀ x y k t, offset_imm (IScalarPair x y) k = Ret (IScalar t) → ∀ ty, place_ty D (mkPlace n (Some k)) = Ret ty →
    holds D (fr ++ [IScalarPair x y; IUninit]) (Move (mkPlace n (Some k))) ty t) as Hpair.
  { intros x y k t Ex ty Ep. cbn [holds plocal pfield]. split; [done|]. exists (IScalarPair x y). subst n. by rewrite Hn, app_at. }
  assert (place_ty D (mkPlace n (Some 0%nat)) = Ret a ∧ place_ty D (mkPlace n (Some 1%nat)) = Ret Bool) as [Hp0 Hp1].
  { subst n. unfold place_ty. cbn [plocal pfield]. unfold D. by rewrite app_at. }
  pose proof (step_checked D (fr ++ [IUninit; IUninit]) a b i j sgn g (to_copy lo) (to_copy ro) l r lay
    (int_operand_copy _ _ _ _ _ _ _ (int_operand_app _ _ _ _ _ _ _ _ _ Hlo)) (int_operand_copy _ _ _ _ _ _ _ (int_operand_app _ _ _ _ _ _ _ _ _ Hro)) El op n) as E.
  destruct (int_spec lay i op sgn l r) as [[[s f] t]|e].
  2: { rewrite (run_fail _ _ e); [done|]. cbn [step_instr]. apply E; [by destruct Ho as [-> |[-> | ->]]..|done]. }
  rewrite (run_step _ _ (fr ++ [IScalarPair s (from_bool f); IUninit])).
  2: { cbn [step_instr]. rewrite E by (done || by destruct Ho as [-> |[-> | ->]]). subst n. rewrite Hn, write_temp by (cbn; lia). done. }
  cbn [run]. rewrite (step_assert _ _ _ _ _ f) by (by apply (Hpair _ _ 1%nat)).
  destruct f; cbn [eqb].
  - by rewrite (panic_overflow _ _ _ _ _ a b i j sgn g l r) by by apply int_operand_app.
  - unfold rbind at 1 2, rret. cbn [obind step_instr]. rewrite (step_use _ _ _ a s lay); [|by apply (Hpair _ _ 0%nat)|done|unfold D; by rewrite app_at].
    rewrite Hn, write_temp by (cbn; lia). unfold rbind, rlift. cbn [obind]. by rewrite app_at.
Qed.

(** A boolean that is computed into a temporary and then tested *)
Lemma run_tested D tmp k rv x expected msg e c : place_ty D (mkPlace (length decls + k) None) = Ret Bool → (k < length tmp)%nat →
  eval_rvalue_into_place dl D (fr ++ tmp) rv (length decls + k) = rlift (write_local (fr ++ tmp) (length decls + k) (IScalar (from_bool x))) →
  assert_panic dl D (fr ++ <[k:=IScalar (from_bool x)]> tmp) msg = rthrow e →
  run dl D (fr ++ tmp) (Assign (length decls + k) rv :: Assert (Move (mkPlace (length decls + k) None)) expected msg :: c) =
    if eqb expected x then run dl D (fr ++ <[k:=IScalar (from_bool x)]> tmp) c else rthrow e.
Proof.
  intros Hp Hk E Hm. rewrite (run_step _ _ (fr ++ <[k:=IScalar (from_bool x)]> tmp)).
  2: { cbn [step_instr]. rewrite E, Hn. by rewrite write_temp. }
  cbn [run]. rewrite (step_assert _ _ _ _ _ x).
  - destruct (eqb expected x); [done|]. by rewrite Hm.
  - cbn [holds]. split; [done|]. exists (IScalar (from_bool x)). cbn [plocal pfield]. rewrite Hn, app_at, list_lookup_insert_eq by done. done.
Qed.

(** Comparison with a constant, into a temporary *)
Lemma compared D F o ty k sgn' v c op x dest : int_operand D F o ty k sgn' v → is_uint (int_bits k) c → D !! dest = Some (Plain Bool) →
  op = Eq ∨ op = Lt → x = (if decide (op = Eq) then ival sgn' (int_bits k) v =? ival sgn' (int_bits k) c else ival sgn' (int_bits k) v <? ival sgn' (int_bits k) c) →
  eval_rvalue_into_place dl D F (BinaryOp op o (Constant (IScalar (uint_scalar k c)) ty)) dest = rlift (write_local F dest (IScalar (from_bool x))).
Proof.
  intros Hi Hc Hd Ho ->. destruct (int_has_layout ty k sgn' (io_int _ _ _ _ _ _ _ Hi)) as (lay' & El' & _ & _).
  assert (int_operand D F (Constant (IScalar (uint_scalar k c)) ty) ty k sgn' c) as Hc' by (split; [done|apply Hi|done]).
  rewrite (step_binary D F ty ty k k sgn' sgn' _ _ v c lay' Hi Hc' El' op dest Bool); [|by destruct Ho as [-> | ->]|done|done|by destruct Ho as [-> | ->]].
  by destruct Ho as [-> | ->].
Qed.

Lemma panic_here op dt tmp : assert_panic dl (decls ++ dt) (fr ++ tmp) (Overflow op (to_copy lo) (to_copy ro)) = rthrow (overflow op).
Proof. by apply (panic_overflow _ _ _ _ _ a b i j sgn g); apply int_operand_copy, int_operand_app. Qed.

Lemma shift_tail op dt tmp k uo uty : op = Shl ∨ op = Shr → int_operand (decls ++ dt ++ [Plain a]) (fr ++ tmp) uo uty j false r →
  dt !! k = Some (Plain Bool) → length tmp = S (length dt) →
  (let% fr := run dl (decls ++ dt ++ [Plain a]) (fr ++ tmp)
     [Assign (length decls + k) (BinaryOp Lt uo (Constant (IScalar (uint_scalar j (int_bits i))) uty));
      Assert (Move (mkPlace (length decls + k) None)) true (Overflow op (to_copy lo) (to_copy ro));
      Assign (length decls + length dt)%nat (BinaryOp op lo ro)] in
   match fr !! (length decls + length dt)%nat with Some v => rret v | None => Panic end)
  = if r <? int_bits i then op_value (int_spec lay i op sgn l r) else rthrow (overflow op).
Proof.
  intros Ho Hu Hk Hlen. pose proof (w_range i). pose proof (w_range j). pose proof (lookup_lt_Some _ _ _ Hk) as Hk'.
  assert ((decls ++ dt ++ [Plain a]) !! (length decls + k)%nat = Some (Plain Bool)) as Hd by (rewrite app_at; by apply lookup_app_l_Some).
  rewrite (run_tested _ _ _ _ (r <? int_bits i) _ _ (overflow op)).
  - destruct (r <? int_bits i); cbn [eqb]; [|done]. apply last_binary.
    + by destruct Ho as [-> | ->]. + by destruct Ho as [-> | ->]. + by destruct Ho as [-> | ->]. + by rewrite length_insert.
  - unfold place_ty. cbn [plocal pfield]. by rewrite Hd.
  - lia.
  - apply (compared _ _ uo uty j false r (int_bits i) Lt); [done|apply width_uint|done|by right|done].
  - by apply panic_here.
Qed.

(** The code of a shift, after the amount is at an unsigned type *)
Lemma build_shift_code op uo uty dt code : chk = true → op = Shl ∨ op = Shr →
  unsigned_amount builder ro = Ret (uo, uty, mkBuilder (decls ++ dt) code chk) →
  build_binary_op dl builder op a lo ro =
    Ret (mkBuilder (decls ++ dt ++ [Plain Bool])
           (code ++ [Assign (length decls + length dt)%nat (BinaryOp Lt uo (Constant (IScalar (uint_scalar j (int_bits i))) uty));
                     Assert (Move (mkPlace (length decls + length dt) None)) true (Overflow op (to_copy lo) (to_copy ro))]) chk,
         BinaryOp op lo ro).
Proof.
  intros Hc Ho Hu. destruct Hlo as [Hlo1 Hlo2 Hlo3], Hro as [Hro1 Hro2 Hro3]. destruct (int_of_integral _ _ Hlo2) as [Hai _].
  transitivity (build_shift dl builder op a lo ro).
  { unfold build_binary_op. cbn [check_overflow]. rewrite Hai, Hc. by destruct Ho as [-> | ->]. }
  unfold build_shift. cbn [local_decls]. rewrite (int_size a i sgn), (operand_ty_holds _ _ _ _ _ Hro1) by done. cbn [obind].
  rewrite (int_size b j g) by done. cbn [obind]. rewrite Hu. cbn [obind].
  assert (Size.bits (Integer.size i) = Ret (int_bits i)) as -> by (by destruct i). cbn [obind]. rewrite width_scalar. cbn [obind temp push local_decls cfg].
  rewrite length_app. unfold push. cbn [local_decls cfg check_overflow]. by rewrite <- !app_assoc.
Qed.

Lemma shift_lowered op : chk = true → op = Shl ∨ op = Shr →
  eval_binary dl builder fr op a lo ro = if r <? int_bits i then op_value (int_spec lay i op sgn l r) else rthrow (overflow op).
Proof.
  intros Hc Ho. pose proof (operand_ty_holds _ _ _ _ _ (io_holds _ _ _ _ _ _ _ Hro)) as Hty. pose proof (w_range j).
  pose proof (io_int _ _ _ _ _ _ _ Hro) as Hb. pose proof (io_range _ _ _ _ _ _ _ Hro) as Hr.
  destruct (int_of_sign _ _ _ Hb) as [(t & Eb & Eg)|(t & Eb & Eg)].
  - set (uty := UintT (to_unsigned t)).
    assert (int_of_ty dl uty = Ret (j, false)) as Huty by (apply to_unsigned_int; by rewrite <- Eb, <- Eg).
    rewrite (eval_binary_code op a [Plain uty; Plain Bool]
      (Assign (length decls + 0) (CastIntToInt (to_copy ro) uty) ::
       [Assign (length decls + 1) (BinaryOp Lt (Move (mkPlace (length decls + 0) None)) (Constant (IScalar (uint_scalar j (int_bits i))) uty));
        Assert (Move (mkPlace (length decls + 1) None)) true (Overflow op (to_copy lo) (to_copy ro))]) (BinaryOp op lo ro)).
    2: { rewrite (build_shift_code op (Move (mkPlace (length decls + 0) None)) uty [Plain uty] [Assign (length decls + 0) (CastIntToInt (to_copy ro) uty)]); try done.
         unfold unsigned_amount. cbn [local_decls]. rewrite Hty, Eb. cbn [obind temp push local_decls cfg]. by rewrite Nat.add_0_r. }
    cbn [app]. rewrite (run_step _ _ (fr ++ [IScalar (uint_scalar j r); IUninit; IUninit])).
    2: { cbn [step_instr]. rewrite (step_cast _ _ _ b uty j j g false r) by (done || by apply int_operand_copy, int_operand_app).
         rewrite Hn, write_temp by (cbn; lia). cbn. rewrite ival_mod by (done || lia). done. }
    apply (shift_tail op [Plain uty; Plain Bool] _ 1%nat); [done| |done|done].
    split; [by apply (holds_temp decls [Plain uty; Plain Bool; Plain a] fr _ 0%nat)|done|done].
  - rewrite (eval_binary_code op a [Plain Bool]
       [Assign (length decls + 0) (BinaryOp Lt (to_copy ro) (Constant (IScalar (uint_scalar j (int_bits i))) b));
        Assert (Move (mkPlace (length decls + 0) None)) true (Overflow op (to_copy lo) (to_copy ro))] (BinaryOp op lo ro)).
    2: { rewrite (build_shift_code op (to_copy ro) b [] []); try done. unfold unsigned_amount. cbn [local_decls]. rewrite Hty, Eb. cbn [obind]. by rewrite app_nil_r. }
    apply (shift_tail op [Plain Bool] _ 0%nat); [done| |done|done]. apply int_operand_copy, int_operand_app. by rewrite <- Eg.
Qed.

(** ** Division *)

Abbreviation w := (int_bits i).
Abbreviation x := (ival sgn w l).
Abbreviation y := (ival sgn w r).
Abbreviation bool_at k := (Move (mkPlace (length decls + k) None)).
Abbreviation lit z := (Constant (IScalar (uint_scalar i z)) a).

Definition zero_err {O} (op : BinOp) (o : O) : AssertKind O := if decide (op = Div) then DivByZero o else RemByZero o.

Definition zero_test (op : BinOp) : list Instr :=
  [Assign (length decls + 0) (BinaryOp Eq (to_copy ro) (lit 0)); Assert (bool_at 0) false (zero_err op (to_copy lo))].
Definition min_test (op : BinOp) : list Instr :=
  [Assign (length decls + 1) (BinaryOp Eq (to_copy ro) (lit (2 ^ w - 1))); Assign (length decls + 2) (BinaryOp Eq (to_copy lo) (lit (2 ^ (w - 1))));
   Assign (length decls + 3) (BinaryOp BitAnd (bool_at 1) (bool_at 2)); Assert (bool_at 3) false (Overflow op (to_copy lo) (to_copy ro))].

Lemma build_division_code op : op = Div ∨ op = Rem →
  build_binary_op dl builder op a lo ro =
    Ret (mkBuilder (decls ++ Plain Bool :: if sgn then [Plain Bool; Plain Bool; Plain Bool] else [])
           (zero_test op ++ if sgn then min_test op else []) chk, BinaryOp op lo ro).
Proof.
  intros Ho. pose proof (io_int _ _ _ _ _ _ _ Hlo) as Hi. destruct (int_of_integral _ _ Hi) as [Hai _].
  transitivity (build_division dl builder op a lo ro).
  { unfold build_binary_op. rewrite Hai. by destruct Ho as [-> | ->]. }
  unfold build_division, zero_literal. rewrite (const_int_bits a i sgn) by (done || by destruct i). cbn [temp obind local_decls].
  assert (is_signed a = sgn) as -> by (by destruct (int_of_sign _ _ _ Hi) as [(t & -> & ->)|(t & -> & ->)]).
  destruct sgn eqn:Es.
  - unfold build_min_check. destruct (literals a i Hi) as [-> ->]. cbn [temp obind local_decls push cfg check_overflow].
    unfold zero_test, min_test. rewrite !length_app, <- !app_assoc, Nat.add_0_r. cbn [length app]. do 5 f_equal. by rewrite <- !Nat.add_assoc.
  - cbn [obind push local_decls cfg check_overflow]. unfold zero_test. by rewrite Nat.add_0_r.
Qed.

Lemma same_int : a = b → j = i ∧ g = sgn ∧ int_operand decls fr ro a i sgn r.
Proof.
  intros Hab. pose proof (io_int _ _ _ _ _ _ _ Hlo) as Hi. pose proof (io_int _ _ _ _ _ _ _ Hro) as Hj. rewrite Hab, Hj in Hi. injection Hi as Ej Eg.
  split_and!; [done|done|]. rewrite Hab, <- Ej, <- Eg. done.
Qed.

Lemma decl_at dt k : dt !! k = Some (Plain Bool) → (decls ++ dt) !! (length decls + k)%nat = Some (Plain Bool).
Proof. by rewrite app_at. Qed.

Lemma place_at dt k : dt !! k = Some (Plain Bool) → place_ty (decls ++ dt) (mkPlace (length decls + k) None) = Ret Bool.
Proof. intros Hk. unfold place_ty. cbn [plocal pfield]. by rewrite decl_at. Qed.

Lemma run_zero_test op dt tmp c : a = b →
  run dl (decls ++ Plain Bool :: dt) (fr ++ IUninit :: tmp) (zero_test op ++ c) =
    if y =? 0 then rthrow (AssertFailure (zero_err op (const_int a i l)))
    else run dl (decls ++ Plain Bool :: dt) (fr ++ IScalar (from_bool false) :: tmp) c.
Proof.
  intros Hab. destruct (same_int Hab) as (Ej & Eg & Hro'). cbn [zero_test app].
  rewrite (run_tested _ _ _ _ (y =? 0) _ _ (AssertFailure (zero_err op (const_int a i l)))).
  - by destruct (y =? 0).
  - by apply place_at.
  - cbn; lia.
  - apply (compared _ _ _ a i sgn r 0 Eq); [by apply int_operand_copy, int_operand_app|by destruct i|by apply decl_at|by left|].
    cbn [decide]. destruct sgn; by destruct i.
  - unfold assert_panic, zero_err. assert (int_operand (decls ++ Plain Bool :: dt) (fr ++ <[0%nat:=IScalar (from_bool (y =? 0))]> (IUninit :: tmp)) (to_copy lo) a i sgn l) as Hl'
      by (by apply int_operand_copy, int_operand_app). case_decide; by rewrite (eval_const_int _ _ _ _ _ _ _ Hl').
Qed.

Lemma run_min_test op tmp v c : sgn = true → a = b → let D := decls ++ [Plain Bool; Plain Bool; Plain Bool; Plain Bool] ++ [Plain a] in
  ∃ v1 v2 v3, run dl D (fr ++ [v; IUninit; IUninit; IUninit] ++ tmp) (min_test op ++ c) =
    if (y =? -1) && (x =? - 2 ^ (w - 1)) then rthrow (overflow op)
    else run dl D (fr ++ [v; v1; v2; v3] ++ tmp) c.
Proof.
  intros Hs Hab D. destruct (same_int Hab) as (Ej & Eg & Hro'). destruct (const_values i) as [C1 C2]. cbn [min_test app].
  exists (IScalar (from_bool (y =? -1))), (IScalar (from_bool (x =? - 2 ^ (w - 1)))), (IScalar (from_bool ((y =? -1) && (x =? - 2 ^ (w - 1))))).
  rewrite (run_step _ _ (fr ++ [v; IScalar (from_bool (y =? -1)); IUninit; IUninit] ++ tmp)).
  2: { cbn [step_instr]. rewrite (compared _ _ _ a i sgn r (2 ^ w - 1) Eq (y =? -1)).
       - rewrite Hn, write_temp by (cbn; lia). done.
       - by apply int_operand_copy, int_operand_app.
       - apply minus_one_uint. - by apply decl_at. - by left. - cbn. by rewrite Hs, C1. }
  rewrite (run_step _ _ (fr ++ [v; IScalar (from_bool (y =? -1)); IScalar (from_bool (x =? - 2 ^ (w - 1))); IUninit] ++ tmp)).
  2: { cbn [step_instr]. rewrite (compared _ _ _ a i sgn l (2 ^ (w - 1)) Eq (x =? - 2 ^ (w - 1))).
       - rewrite Hn, write_temp by (cbn; lia). done.
       - by apply int_operand_copy, int_operand_app.
       - apply min_uint. - by apply decl_at. - by left. - cbn. by rewrite Hs, C2. }
  cbn [app]. rewrite (run_tested D _ 3%nat _ ((y =? -1) && (x =? - 2 ^ (w - 1))) _ _ (overflow op)).
  - by destruct ((y =? -1) && (x =? - 2 ^ (w - 1))).
  - by apply place_at. - cbn; lia.
  - apply step_and; [by apply (holds_temp decls _ fr _ 1%nat)|by apply (holds_temp decls _ fr _ 2%nat)|by apply decl_at].
  - apply panic_here.
Qed.

Lemma division_lowered op : op = Div ∨ op = Rem → a = b →
  eval_binary dl builder fr op a lo ro =
    if y =? 0 then rthrow (AssertFailure (zero_err op (const_int a i l)))
    else if negb (in_range sgn w (Z.quot x y)) then rthrow (overflow op)
    else op_value (int_spec lay i op sgn l r).
Proof.
  intros Ho Hab. rewrite (eval_binary_code op a _ _ _ (build_division_code op Ho)). rewrite <- app_assoc.
  destruct (same_int Hab) as (Ej & Eg & Hro'). pose proof (io_int _ _ _ _ _ _ _ Hlo) as Hi. destruct (int_of_integral _ _ Hi) as [_ Hp].
  assert (binop_ty op a b = Ret a ∧ op ≠ Offset ∧ (is_shift op = false → a = b)) as (Ht & Hno & Hh).
  { rewrite <- Hab. split_and!; [apply binop_ty_same; [done|]|..]; by destruct Ho as [-> | ->]. }
  cbn [app length replicate]. rewrite run_zero_test by done. destruct (Z.eqb_spec y 0) as [|Hy]; [done|].
  pose proof (w_range i) as Hw. pose proof (ival_range sgn w l ltac:(lia) (io_range _ _ _ _ _ _ _ Hlo)) as Hx.
  destruct (Bool.bool_dec sgn true) as [Es|Es].
  - assert (in_range sgn w (Z.quot x y) = negb ((x =? - 2 ^ (w - 1)) && (y =? -1))) as -> by (rewrite Es in *; by apply quot_range).
    rewrite negb_involutive, andb_comm.
    destruct (run_min_test op [IUninit] (IScalar (from_bool false)) [Assign (length decls + 4)%nat (BinaryOp op lo ro)] Es Hab) as (v1 & v2 & v3 & E).
    pose proof (last_binary op a [Plain Bool; Plain Bool; Plain Bool; Plain Bool] [IScalar (from_bool false); v1; v2; v3; IUninit] Hno Hh Ht eq_refl) as L.
    rewrite Es in E, L |- *. cbn [app length replicate] in *. rewrite E. by destruct (_ && _).
  - assert (sgn = false) as Es' by (by destruct sgn).
    assert (in_range sgn w (Z.quot x y) = true) as ->.
    { rewrite Es' in *. cbn [ival] in *. destruct (io_range _ _ _ _ _ _ _ Hlo), (io_range _ _ _ _ _ _ _ Hro'). rewrite Z.quot_div_nonneg by lia. by apply udiv_range. }
    pose proof (last_binary op a [Plain Bool] [IScalar (from_bool false); IUninit] Hno Hh Ht eq_refl) as L. by rewrite Es' in L |- *.
Qed.

(** ** What an expression means *)

(** Arithmetic that is checked, division, and shifts, on numbers *)
Definition arith_spec (op : BinOp) (z : Z) : result scalar OpError :=
  if chk && negb (in_range sgn w z) then Err (overflow op) else Ok (uint_scalar i (z mod 2 ^ w)).
Definition division_spec (op : BinOp) (n d z : Z) : result scalar OpError :=
  if d =? 0 then Err (AssertFailure (zero_err op (const_int a i l)))
  else if negb (in_range sgn w (Z.quot n d)) then Err (overflow op) else Ok (uint_scalar i (z mod 2 ^ w)).
Definition shift_spec (op : BinOp) (amount z : Z) : result scalar OpError :=
  if chk && negb ((0 <=? amount) && (amount <? w)) then Err (overflow op) else Ok (uint_scalar i (z mod 2 ^ w)).

Definition expr_spec (op : BinOp) : result scalar OpError :=
  let n := ival sgn w l in
  let m := ival g (int_bits j) r in
  match op with
  | Add => arith_spec op (n + m) | Sub => arith_spec op (n - m) | Mul => arith_spec op (n * m)
  | Div => division_spec op n m (Z.quot n m) | Rem => division_spec op n m (Z.rem n m)
  | Shl => shift_spec op m (n * 2 ^ (m mod w)) | Shr => shift_spec op m (n / 2 ^ (m mod w))
  | BitAnd => Ok (uint_scalar i (Z.land l r)) | BitOr => Ok (uint_scalar i (Z.lor l r)) | BitXor => Ok (uint_scalar i (Z.lxor l r))
  | Eq => Ok (from_bool (n =? m)) | Ne => Ok (from_bool (negb (n =? m))) | Lt => Ok (from_bool (n <? m))
  | Le => Ok (from_bool (n <=? m)) | Gt => Ok (from_bool (m <? n)) | Ge => Ok (from_bool (m <=? n))
  | _ => Err UnsupportedPointerOp
  end.

Definition to_imm (res : result scalar OpError) : R Immediate := match res with Ok s => rret (IScalar s) | Err e => rthrow e end.

(** The amount of a shift, as a number and as bits *)
Lemma amount_range : ((0 <=? ival g (int_bits j) r) && (ival g (int_bits j) r <? w)) = (r <? w).
Proof.
  pose proof (w_range i). pose proof (w_range j). destruct (io_range _ _ _ _ _ _ _ Hro) as [H1' H2']. pose proof (half (int_bits j) ltac:(lia)) as Hh.
  assert (2 ^ 7 ≤ 2 ^ (int_bits j - 1)) by (apply Z.pow_le_mono_r; lia).
  apply eq_true_iff_eq. rewrite andb_true_iff, Z.leb_le, !Z.ltb_lt. unfold ival, to_signed. destruct g; [|lia]. zcases; lia.
Qed.

Lemma amount_mod : ival g (int_bits j) r mod w = r mod w.
Proof.
  destruct g; [|done]. cbn [ival]. unfold to_signed. case_match; [done|].
  assert (2 ^ int_bits j = (2 ^ int_bits j / w) * w) as -> by (by destruct i, j).
  rewrite <- Z.add_opp_r, <- Z.mul_opp_l. apply Z_mod_plus_full.
Qed.

Lemma arith_lowered op z : op = Add ∨ op = Sub ∨ op = Mul → a = b → int_spec lay i op sgn l r = finished lay i op sgn z →
  eval_binary dl builder fr op a lo ro = to_imm (arith_spec op z).
Proof.
  intros Ho Hab E. pose proof (int_of_integral _ _ (io_int _ _ _ _ _ _ _ Hlo)) as [Hai Hp]. unfold finished in E.
  assert (is_unchecked op = false) as Hu by (by destruct Ho as [-> |[-> | ->]]). rewrite Hu, andb_false_r in E. unfold arith_spec.
  destruct (Bool.bool_dec chk true) as [Hc|Hc%not_true_is_false].
  - rewrite checked_lowered, E by done. rewrite Hc. by destruct (in_range sgn w z).
  - rewrite plain_lowered, E; [by rewrite Hc| | |done|].
    + unfold build_binary_op. cbn [check_overflow]. rewrite Hc. by destruct Ho as [-> |[-> | ->]].
    + by destruct Ho as [-> |[-> | ->]].
    + rewrite <- Hab. apply binop_ty_same; [done|]. by destruct Ho as [-> |[-> | ->]].
Qed.

Lemma shift_lowered_spec op z : op = Shl ∨ op = Shr → int_spec lay i op sgn l r = shifted lay i op z r →
  eval_binary dl builder fr op a lo ro = to_imm (shift_spec op (ival g (int_bits j) r) z).
Proof.
  intros Ho E. pose proof (int_of_integral _ _ (io_int _ _ _ _ _ _ _ Hlo)) as [Hai Hp]. unfold shifted in E.
  assert (is_unchecked op = false) as Hu by (by destruct Ho as [-> | ->]). rewrite Hu, andb_false_r in E.
  unfold shift_spec. rewrite amount_range.
  destruct (Bool.bool_dec chk true) as [Hc|Hc%not_true_is_false].
  - rewrite shift_lowered, E by done. rewrite Hc. by destruct (r <? w).
  - rewrite plain_lowered, E; [by rewrite Hc| | |..].
    + unfold build_binary_op. cbn [check_overflow]. rewrite Hc. by destruct Ho as [-> | ->].
    + by destruct Ho as [-> | ->]. + by destruct Ho as [-> | ->]. + by destruct Ho as [-> | ->].
Qed.

Lemma division_lowered_spec op z zero over : op = Div ∨ op = Rem → a = b → int_spec lay i op sgn l r = divided lay i op sgn x y z zero over →
  eval_binary dl builder fr op a lo ro = to_imm (division_spec op x y z).
Proof.
  intros Ho Hab E. rewrite division_lowered, E by done. unfold divided, division_spec, finished.
  assert (is_unchecked op = false) as -> by (by destruct Ho as [-> | ->]). rewrite andb_false_r.
  destruct (y =? 0); [done|]. by destruct (negb _).
Qed.

(** Operators that are lowered without a check *)
Lemma direct_lowered op ty s f t : match op with BitAnd | BitOr | BitXor | Eq | Ne | Lt | Le | Gt | Ge => True | _ => False end → a = b →
  binop_ty op a b = Ret ty → int_spec lay i op sgn l r = Ok (s, f, t) → eval_binary dl builder fr op ty lo ro = rret (IScalar s).
Proof. intros Ho Hab Ht E. rewrite plain_lowered, E; [done|by destruct op..|done|done]. Qed.

Lemma lowered op k ty : bin_op k = Ret op → (is_shift op = false → a = b) → binop_ty op a b = Ret ty →
  eval_binary dl builder fr op ty lo ro = to_imm (expr_spec op).
Proof.
  intros Hk Hh Ht. pose proof (int_of_integral _ _ (io_int _ _ _ _ _ _ _ Hlo)) as [Hai Hp].
  destruct (is_shift op) eqn:Hs.
  - assert (ty = a) as -> by (destruct op; try done; by injection Ht).
    destruct k; try done; injection Hk as <-; try done; (apply shift_lowered_spec; [auto|]; cbn [int_spec]; by rewrite amount_mod).
  - specialize (Hh eq_refl). destruct (same_int Hh) as (Ej & Eg & _).
    assert (is_comparison op = false → ty = a) as Hta by (intros; rewrite <- Hh, binop_ty_same in Ht by done; by injection Ht).
    destruct k; try done; injection Hk as <-; try done; try (rewrite (Hta eq_refl)); cbn [expr_spec]; rewrite ?Ej, ?Eg.
    all: try (by apply arith_lowered; auto).
    all: try (by eapply division_lowered_spec; auto).
    all: try (by eapply direct_lowered).
    all: eapply direct_lowered; [done|done|by rewrite <- Hh; apply binop_ty_same|done].
Qed.
End expression.

(** ** Negation *)

Lemma step_unary decls fr op o a i sgn v lay dest : int_operand decls fr o a i sgn v → layout_of dl a = Ret lay → int_layout lay i sgn →
  (op = Neg → sgn = true) → decls !! dest = Some (Plain a) →
  eval_rvalue_into_place dl decls fr (UnaryOp op o) dest = rlift (write_local fr dest (IScalar (uint_scalar i (fst (un_spec op sgn (int_bits i) v))))).
Proof.
  intros [Ho Hi Hv] El Hl Hs Hd. destruct (int_of_integral _ _ Hi) as [Hii _]. cbn [eval_rvalue_into_place]. rewrite Hd, El.
  unfold rlift at 1, rbind at 1. cbn [obind]. rewrite (read_holds _ _ _ a _ _ lay) by (done || by right). unfold rbind at 1, rret. cbn [obind].
  unfold unary_op. rewrite (int_unary dl op a _ i sgn v) by done. unfold rbind, rret, rlift. cbn [obind]. rewrite El. cbn [obind imm_layout from_scalar].
  rewrite bool_decide_eq_true_2 by done. done.
Qed.

(** Negation that is checked where the type is signed, and complement *)
Definition unary_spec (chk : bool) (op : UnOp) (a : Ty) (i : Integer) (sgn : bool) (v : Z) : result scalar OpError :=
  let res := un_spec op sgn (int_bits i) v in
  if chk && snd res then Err (AssertFailure (OverflowNeg (const_int a i v))) else Ok (uint_scalar i (fst res)).

Lemma neg_overflow i v : is_uint (int_bits i) v →
  negb (in_range true (int_bits i) (- ival true (int_bits i) v)) = (ival true (int_bits i) v =? - 2 ^ (int_bits i - 1)).
Proof.
  intros Hv. pose proof (w_range i). pose proof (to_signed_range (int_bits i) v ltac:(lia) Hv). unfold in_range, ival.
  apply eq_true_iff_eq. rewrite negb_true_iff, andb_false_iff, Z.leb_gt, Z.ltb_ge, Z.eqb_eq. lia.
Qed.

Lemma unary_lowered decls fr chk op o a i sgn v : length decls = length fr → int_operand decls fr o a i sgn v → (op = Neg → sgn = true) →
  eval_unary dl (mkBuilder decls [] chk) fr op a o = to_imm (unary_spec chk op a i sgn v).
Proof.
  intros Hn Ho Hs. destruct (int_has_layout a i sgn (io_int _ _ _ _ _ _ _ Ho)) as (lay & El & Hl & Ht).
  assert (is_signed a = sgn) as Hsg by (by destruct (int_of_sign _ _ _ (io_int _ _ _ _ _ _ _ Ho)) as [(t & -> & ->)|(t & -> & ->)]).
  unfold eval_unary, build_unary_op. cbn [check_overflow]. rewrite Hsg. unfold unary_spec.
  destruct (chk && match op with Neg => true | OpNot => false end) eqn:Ec.
  - destruct op; [by rewrite andb_false_r in Ec|]. rewrite andb_true_r in Ec. rewrite Ec, (Hs eq_refl) in *. cbn [andb].
    destruct (literals a i (io_int _ _ _ _ _ _ _ Ho)) as [_ ->]. unfold rlift at 1, rbind at 1. cbn [obind temp local_decls push cfg].
    rewrite !length_app. cbn [length app]. rewrite <- app_assoc. cbn [app length].
    replace (length decls + 1 + 1 - length fr)%nat with 2%nat by lia. cbn [replicate].
    set (D := decls ++ [Plain Bool; Plain a]). set (x := ival true (int_bits i) v =? - 2 ^ (int_bits i - 1)).
    assert (snd (un_spec Neg true (int_bits i) v) = x) as -> by (cbn [un_spec snd]; by apply neg_overflow, Ho).
    pose proof (run_tested decls fr Hn D [IUninit; IUninit] 0%nat (BinaryOp Eq (to_copy o) (Constant (IScalar (uint_scalar i (2 ^ (int_bits i - 1)))) a))
      x false (OverflowNeg (to_copy o)) (AssertFailure (OverflowNeg (const_int a i v))) [Assign (length decls + 1) (UnaryOp Neg o)]) as T.
    rewrite Nat.add_0_r in T. rewrite T.
    + destruct x; [done|]. cbn [eqb]. cbn [run step_instr insert list_insert].
      rewrite (step_unary _ _ _ _ a i true v lay); [|by apply int_operand_app|done|done|done|unfold D; by rewrite app_at].
      rewrite Hn, write_temp by (cbn; lia). unfold rbind, rlift, rret. cbn [obind]. by rewrite app_at.
    + unfold place_ty, D. cbn [plocal pfield]. by rewrite <- (Nat.add_0_r (length decls)), app_at.
    + cbn; lia.
    + apply (compared D _ _ a i true v (2 ^ (int_bits i - 1)) Eq); [by apply int_operand_copy, int_operand_app|apply min_uint| |by left|].
      * unfold D. by rewrite <- (Nat.add_0_r (length decls)), app_at.
      * rewrite decide_True by done. by destruct (const_values i) as [_ ->].
    + unfold assert_panic. rewrite (eval_const_int _ _ _ a i true v) by (by apply int_operand_copy, int_operand_app). done.
  - cbn [andb].
    assert (chk && snd (un_spec op sgn (int_bits i) v) = false) as -> by (destruct op; [by rewrite andb_false_r|by rewrite andb_true_r in Ec; rewrite Ec]).
    unfold rlift at 1, rbind at 1. cbn [obind temp local_decls cfg app]. rewrite length_app. cbn [length].
    replace (length decls + 1 - length fr)%nat with 1%nat by lia. cbn [replicate run step_instr].
    rewrite (step_unary _ _ _ _ a i sgn v lay); [|by apply int_operand_app|done|done|done|by rewrite <- (Nat.add_0_r (length decls)), app_at].
    rewrite Hn, <- (Nat.add_0_r (length fr)), write_temp by (cbn; lia). unfold rbind, rlift, rret. cbn [obind]. by rewrite app_at.
Qed.
End lowered.

(** C4. Arithmetic expressions on integers mean what their operator means: the code that an
    operator is lowered to, run by the interpreter on operands that hold numbers of an
    integer type, gives the exact result modulo the width of the type; with overflow checks
    it panics exactly if the exact result of an addition, subtraction or multiplication is
    not a number of the type, or the amount of a shift, as a number, is not below the
    width; a division or remainder always panics exactly on a zero divisor, and on the
    smallest number divided by minus one. The panic names the operands, and the operator
    that runs after the checks neither fails nor crashes the interpreter. *)
Theorem lowered_op_exact `{U384Api} `{ApFloat} dl decls fr chk k op a b ty i j sgn g lhs rhs l r :
  length decls = length fr → int_operand dl decls fr lhs a i sgn l → int_operand dl decls fr rhs b j g r →
  bin_op k = Ret op → (is_shift op = false → a = b) → binop_ty op a b = Ret ty →
  eval_binary dl (mkBuilder decls [] chk) fr op ty lhs rhs = to_imm (expr_spec chk a b i j sgn g l r op).
Proof.
  intros Hn Hl Hr Hk Hh Ht. destruct (int_has_layout dl a i sgn (io_int _ _ _ _ _ _ _ _ Hl)) as (lay & El & _).
  by eapply lowered.
Qed.

(** Negation and complement in the same way: negation panics exactly on the smallest
    number, where overflow is checked. *)
Theorem lowered_unary_exact `{U384Api} `{ApFloat} dl decls fr chk op o a i sgn v :
  length decls = length fr → int_operand dl decls fr o a i sgn v → (op = Neg → sgn = true) →
  eval_unary dl (mkBuilder decls [] chk) fr op a o = to_imm (unary_spec chk op a i sgn v).
Proof. apply unary_lowered. Qed.

(** ** Concrete inputs *)

Definition i8_const (bits : Z) : @Operand z_u384 := Constant (H := z_u384) (IScalar (H := z_u384) (uint_scalar I8 bits)) (IntT Si8).

Lemma i8_operand bits : is_uint 8 bits → @int_operand z_u384 default_dl [] [] (i8_const bits) (IntT Si8) I8 true bits.
Proof. intros. by split. Qed.

(** A shift by minus one, which overflows *)
Lemma lowered_op_exact_witness :
  @eval_binary z_u384 zero_float default_dl (mkBuilder [] [] true) [] Shl (IntT Si8) (i8_const 1) (i8_const 0xff)
  = Ret (Err (AssertFailure (Overflow Shl (const_int (IntT Si8) I8 1) (const_int (IntT Si8) I8 0xff)))).
Proof.
  rewrite (@lowered_op_exact z_u384 zero_float default_dl [] [] true HShl Shl (IntT Si8) (IntT Si8) (IntT Si8) I8 I8 true true (i8_const 1) (i8_const 0xff) 1 0xff);
    [reflexivity|done|by apply i8_operand|by apply i8_operand|done|done|done].
Defined.

Lemma lowered_unary_exact_witness :
  @eval_unary z_u384 zero_float default_dl (mkBuilder [] [] true) [] Neg (IntT Si8) (i8_const 0x80)
  = Ret (Err (AssertFailure (OverflowNeg (const_int (IntT Si8) I8 0x80)))).
Proof.
  rewrite (@lowered_unary_exact z_u384 zero_float default_dl [] [] true Neg (i8_const 0x80) (IntT Si8) I8 true 0x80);
    [reflexivity|done|by apply i8_operand|done].
Defined.
