(* ===== verification/FastReject.v ===== *)
(** Fast rejection of types that cannot be unified.

    [compiler/rustc_middle/src/ty/fast_reject.rs]: the simplified types by which impls are
    stored and looked up, and [DeepRejectCtxt], which compares the types of an obligation
    with those of an impl; with the types of [rustc_type_ir/src/sty.rs], and of
    [rustc_middle/src/ty/flags.rs] whether a type contains an inference variable.

    Definitions, regions, values of constants and the names of parameters, placeholders
    and variables are numbers; binders are skipped, as the code does. *)

From S2P Require Import Prelude.
From S2P Require Import Literal.
From S2P Require Import Fields.

(** ** Types *)

Abbreviation DefId := Z (only parsing).
Abbreviation Region := Z (only parsing).

Inductive Mutbl := MutNot | Mut.
Inductive AliasKind := Projection | Inherent | Opaque | Weak.
Inductive InferTy :=
| TyVar (v : Z) | IntVar (v : Z) | FloatVar (v : Z) | FieldVar (v : Z)
| FreshTy (v : Z) | FreshIntTy (v : Z) | FreshFloatTy (v : Z) | FreshFieldTy (v : Z).
Inductive InferConst := ConstVar (v : Z) | ConstFresh (v : Z).

Inductive Ty :=
| Bool | Char
| Int (t : IntTy) | Uint (t : UintTy) | Field (t : FieldTy.t) | Curve (t : CurveTy.t) | Float (t : FloatTy)
| Adt (def : DefId) (args : list GenericArg)
| Foreign (def : DefId)
| Str
| Array (ty : Ty) (len : Const)
| Slice (ty : Ty)
| RawPtr (ty : Ty) (mutbl : Mutbl)
| Ref (r : Region) (ty : Ty) (mutbl : Mutbl)
| FnDef (def : DefId) (args : list GenericArg)
| FnPtr (inputs_and_output : list Ty) (c_variadic : bool) (unsafety : bool) (abi : Z)
| Dynamic (preds : list ExistentialPredicate) (r : Region) (repr : bool)
| Closure (def : DefId) (args : list GenericArg)
| Generator (def : DefId) (args : list GenericArg) (movability : bool)
| GeneratorWitness (tys : list Ty)
| GeneratorWitnessMIR (def : DefId) (args : list GenericArg)
| Never
| Tuple (tys : list Ty)
| Alias (kind : AliasKind) (def : DefId) (args : list GenericArg)
| Param (index : Z)
| Bound (debruijn var : Z)
| Placeholder (p : Z)
| Infer (v : InferTy)
| Error
with GenericArg := Lifetime (r : Region) | TypeArg (ty : Ty) | ConstArg (c : Const)
with Const := mkConst (ty : Ty) (kind : ConstKind)
with ConstKind :=
| CParam (index : Z)
| CInfer (v : InferConst)
| CBound (debruijn var : Z)
| CPlaceholder (p : Z)
| CUnevaluated (def : DefId) (args : list GenericArg)
| CValue (v : Z)
| CError
| CExpr (op : Z) (operands : list GenericArg)
with ExistentialPredicate :=
| ETrait (def : DefId) (args : list GenericArg)
| EProjection (def : DefId) (args : list GenericArg) (term : GenericArg)
| EAutoTrait (def : DefId).

Definition const_kind (c : Const) : ConstKind := match c with mkConst _ k => k end.

#[global] Instance Mutbl_eq_dec : EqDecision Mutbl.
Proof. solve_decision. Defined.

(** [is_integral] and [is_floating_point] of types with variables *)
Definition ty_is_integral (t : Ty) : bool := match t with Int _ | Uint _ | Infer (IntVar _) => true | _ => false end.
Definition ty_is_floating_point (t : Ty) : bool := match t with Float _ | Infer (FloatVar _) => true | _ => false end.

(** ** [has_non_region_infer] *)

Fixpoint ty_has_infer (t : Ty) : bool :=
  let args := fix args (l : list GenericArg) := match l with [] => false | x :: l => arg_has_infer x || args l end in
  let tys := fix tys (l : list Ty) := match l with [] => false | x :: l => ty_has_infer x || tys l end in
  let preds := fix preds (l : list ExistentialPredicate) := match l with [] => false | x :: l => pred_has_infer x || preds l end in
  match t with
  | Bool | Char | Int _ | Uint _ | Field _ | Curve _ | Float _ | Foreign _ | Str | Never | Param _ | Bound _ _ | Placeholder _ | Error => false
  | Adt _ a | FnDef _ a | Closure _ a | Generator _ a _ | GeneratorWitnessMIR _ a | Alias _ _ a => args a
  | Array ty len => ty_has_infer ty || const_has_infer len
  | Slice ty | RawPtr ty _ | Ref _ ty _ => ty_has_infer ty
  | FnPtr l _ _ _ | GeneratorWitness l | Tuple l => tys l
  | Dynamic l _ _ => preds l
  | Infer (TyVar _ | IntVar _ | FloatVar _ | FieldVar _) => true
  | Infer _ => false
  end
with arg_has_infer (a : GenericArg) : bool :=
  match a with Lifetime _ => false | TypeArg t => ty_has_infer t | ConstArg c => const_has_infer c end
with const_has_infer (c : Const) : bool :=
  match c with mkConst ty k => ty_has_infer ty || kind_has_infer k end
with kind_has_infer (k : ConstKind) : bool :=
  let args := fix args (l : list GenericArg) := match l with [] => false | x :: l => arg_has_infer x || args l end in
  match k with
  | CInfer (ConstVar _) => true
  | CUnevaluated _ a | CExpr _ a => args a
  | _ => false
  end
with pred_has_infer (p : ExistentialPredicate) : bool :=
  let args := fix args (l : list GenericArg) := match l with [] => false | x :: l => arg_has_infer x || args l end in
  match p with
  | ETrait _ a => args a
  | EProjection _ a term => args a || arg_has_infer term
  | EAutoTrait _ => false
  end.

(** ** Simplified types *)

Inductive SimplifiedType :=
| SBool | SChar | SInt (t : IntTy) | SUint (t : UintTy) | SFloat (t : FloatTy) | SField (t : FieldTy.t) | SCurve (t : CurveTy.t)
| SAdt (def : DefId) | SForeign (def : DefId) | SStr | SArray | SSlice | SRef (m : Mutbl) | SPtr (m : Mutbl) | SNever
| STuple (n : nat) | SMarkerTraitObject | STrait (def : DefId) | SClosure (def : DefId) | SGenerator (def : DefId)
| SGeneratorWitness (n : nat) | SGeneratorWitnessMIR (def : DefId) | SFunction (n : nat) | SPlaceholder.

Inductive TreatParams := AsCandidateKey | ForLookup | NextSolverLookup.

(** [principal_def_id], which indexes the list *)
Definition principal_def_id (preds : list ExistentialPredicate) : outcome (option DefId) :=
  match preds with
  | [] => Panic
  | ETrait d _ :: _ => Ret (Some d)
  | _ :: _ => Ret None
  end.

Section simplify.
(** [trait_is_auto] *)
Context (trait_is_auto : DefId → bool).

Definition simplify_type (ty : Ty) (treat_params : TreatParams) : outcome (option SimplifiedType) :=
  match ty with
  | Bool => Ret (Some SBool) | Char => Ret (Some SChar)
  | Int t => Ret (Some (SInt t)) | Uint t => Ret (Some (SUint t)) | Float t => Ret (Some (SFloat t))
  | Field t => Ret (Some (SField t)) | Curve t => Ret (Some (SCurve t))
  | Adt def _ => Ret (Some (SAdt def))
  | Str => Ret (Some SStr) | Array _ _ => Ret (Some SArray) | Slice _ => Ret (Some SSlice)
  | RawPtr _ m => Ret (Some (SPtr m))
  | Dynamic preds _ _ =>
      let! p := principal_def_id preds in
      Ret (Some (match p with Some d => if negb (trait_is_auto d) then STrait d else SMarkerTraitObject | None => SMarkerTraitObject end))
  | Ref _ _ m => Ret (Some (SRef m))
  | FnDef d _ | Closure d _ => Ret (Some (SClosure d))
  | Generator d _ _ => Ret (Some (SGenerator d))
  | GeneratorWitness tys => Ret (Some (SGeneratorWitness (length tys)))
  | GeneratorWitnessMIR d _ => Ret (Some (SGeneratorWitnessMIR d))
  | Never => Ret (Some SNever)
  | Tuple tys => Ret (Some (STuple (length tys)))
  | FnPtr l _ _ _ => rassert (negb (bool_decide (l = []))) (Ret (Some (SFunction (length l - 1))))
  | Placeholder _ => Ret (Some SPlaceholder)
  | Param _ => Ret (match treat_params with ForLookup | NextSolverLookup => Some SPlaceholder | AsCandidateKey => None end)
  | Alias _ _ _ =>
      Ret (match treat_params with
           | ForLookup => if negb (ty_has_infer ty) then Some SPlaceholder else None
           | NextSolverLookup => Some SPlaceholder
           | AsCandidateKey => None
           end)
  | Foreign d => Ret (Some (SForeign d))
  | Bound _ _ | Infer _ | Error => Ret None
  end.
End simplify.

(** [SimplifiedType::def] *)
Definition simplified_def (s : SimplifiedType) : option DefId :=
  match s with
  | SAdt d | SForeign d | STrait d | SClosure d | SGenerator d | SGeneratorWitnessMIR d => Some d
  | _ => None
  end.

(** ** [DeepRejectCtxt] *)

(** Conjunction that does not evaluate its second argument if the first one is false *)
Definition oand (a : outcome bool) (b : outcome bool) : outcome bool := let! x := a in if x then b else Ret false.

(** The first [match] of [types_may_unify]: [Some true] is an early return, [Panic] is [bug!] *)
Definition impl_ty_head (t : Ty) : outcome (option bool) :=
  match t with
  | Param _ | Error | Alias _ _ _ => Ret (Some true)
  | Bool | Char | Int _ | Uint _ | Field _ | Float _ | Curve _ | Adt _ _ | Str | Array _ _ | Slice _ | RawPtr _ _
  | Dynamic _ _ _ | Ref _ _ _ | Never | Tuple _ | FnPtr _ _ _ _ | Foreign _ => Ret None
  | FnDef _ _ | Closure _ _ | Generator _ _ _ | GeneratorWitness _ | GeneratorWitnessMIR _ _ | Placeholder _ | Bound _ _ | Infer _ => Panic
  end.

Definition impl_const_head (k : ConstKind) : outcome (option bool) :=
  match k with
  | CExpr _ _ | CParam _ | CUnevaluated _ _ | CError => Ret (Some true)
  | CValue _ => Ret None
  | CInfer _ | CBound _ _ | CPlaceholder _ => Panic
  end.

Definition param_may_unify (treat : TreatParams) : bool := match treat with ForLookup | NextSolverLookup => false | AsCandidateKey => true end.

Definition consts_may_unify (treat : TreatParams) (obligation_ct impl_ct : Const) : outcome bool :=
  let! early := impl_const_head (const_kind impl_ct) in
  match early with
  | Some b => Ret b
  | None =>
      match const_kind obligation_ct with
      | CParam _ => Ret (param_may_unify treat)
      | CPlaceholder _ => Ret false
      | CExpr _ _ | CUnevaluated _ _ | CError => Ret true
      | CValue obl => match const_kind impl_ct with CValue imp => Ret (obl =? imp) | _ => Ret true end
      | CInfer _ => Ret true
      | CBound _ _ => Panic
      end
  end.

(** [obligation_ty == impl_ty] for types without parts *)
#[global] Instance IntTy_dec : EqDecision IntTy.
Proof. solve_decision. Defined.
#[global] Instance UintTy_dec : EqDecision UintTy.
Proof. solve_decision. Defined.
#[global] Instance FloatTy_dec : EqDecision FloatTy.
Proof. solve_decision. Defined.
#[global] Instance FieldTy_dec : EqDecision FieldTy.t.
Proof. solve_decision. Defined.
#[global] Instance CurveTy_dec : EqDecision CurveTy.t.
Proof. solve_decision. Defined.

Definition leaf_eqb (a b : Ty) : bool :=
  match a, b with
  | Bool, Bool | Char, Char | Str, Str | Never, Never => true
  | Int x, Int y => bool_decide (x = y)
  | Uint x, Uint y => bool_decide (x = y)
  | Field x, Field y => bool_decide (x = y)
  | Curve x, Curve y => bool_decide (x = y)
  | Float x, Float y => bool_decide (x = y)
  | Foreign x, Foreign y => x =? y
  | _, _ => false
  end.

Fixpoint types_may_unify (treat : TreatParams) (obligation_ty impl_ty : Ty) {struct obligation_ty} : outcome bool :=
  let args_refs_may_unify := fix go (a b : list GenericArg) {struct a} : outcome bool :=
    match a, b with x :: a, y :: b => oand (arg_may_unify treat x y) (go a b) | _, _ => Ret true end in
  let all_may_unify := fix go (a b : list Ty) {struct a} : outcome bool :=
    match a, b with x :: a, y :: b => oand (types_may_unify treat x y) (go a b) | _, _ => Ret true end in
  let! early := impl_ty_head impl_ty in
  match early with
  | Some b => Ret b
  | None =>
      match obligation_ty with
      | Bool | Char | Int _ | Uint _ | Field _ | Curve _ | Float _ | Str | Never | Foreign _ => Ret (leaf_eqb obligation_ty impl_ty)
      | Ref _ obl_ty obl_mutbl =>
          match impl_ty with
          | Ref _ ty mutbl => oand (Ret (bool_decide (obl_mutbl = mutbl))) (types_may_unify treat obl_ty ty)
          | _ => Ret false
          end
      | Adt obl_def obl_args =>
          match impl_ty with
          | Adt def args => oand (Ret (obl_def =? def)) (args_refs_may_unify obl_args args)
          | _ => Ret false
          end
      | Slice obl_ty => match impl_ty with Slice ty => types_may_unify treat obl_ty ty | _ => Ret false end
      | Array obl_ty obl_len =>
          match impl_ty with
          | Array ty len => oand (types_may_unify treat obl_ty ty) (consts_may_unify treat obl_len len)
          | _ => Ret false
          end
      | Tuple obl =>
          match impl_ty with
          | Tuple imp => oand (Ret (bool_decide (length obl = length imp))) (all_may_unify obl imp)
          | _ => Ret false
          end
      | RawPtr obl_ty obl_mutbl =>
          match impl_ty with
          | RawPtr ty mutbl => oand (Ret (bool_decide (obl_mutbl = mutbl))) (types_may_unify treat obl_ty ty)
          | _ => Ret false
          end
      | Dynamic obl_preds _ _ =>
          match impl_ty with
          | Dynamic impl_preds _ _ =>
              let! a := principal_def_id obl_preds in
              let! b := principal_def_id impl_preds in Ret (bool_decide (a = b))
          | _ => Ret false
          end
      | FnPtr obl variadic unsafety abi =>
          match impl_ty with
          | FnPtr imp variadic' unsafety' abi' =>
              oand (Ret ((abi =? abi') && eqb variadic variadic' && eqb unsafety unsafety' && bool_decide (length obl = length imp)))
                (all_may_unify obl imp)
          | _ => Ret false
          end
      | FnDef _ _ | Closure _ _ | Generator _ _ _ => Ret false
      | Placeholder _ | Bound _ _ => Ret false
      | Param _ => Ret (param_may_unify treat)
      | Infer (IntVar _) => Ret (ty_is_integral impl_ty)
      | Infer (FloatVar _) => Ret (ty_is_floating_point impl_ty)
      | Infer _ => Ret true
      | Alias _ _ _ => Ret true
      | Error => Ret true
      | GeneratorWitness _ | GeneratorWitnessMIR _ _ => Panic
      end
  end
with arg_may_unify (treat : TreatParams) (obl imp : GenericArg) {struct obl} : outcome bool :=
  match obl, imp with
  | Lifetime _, Lifetime _ => Ret true
  | TypeArg obl, TypeArg imp => types_may_unify treat obl imp
  | ConstArg obl, ConstArg imp => consts_may_unify treat obl imp
  | _, _ => Panic
  end.

(** [args_refs_may_unify] and the comparison of lists of types, as functions of their own *)
Fixpoint args_refs_may_unify (treat : TreatParams) (a b : list GenericArg) : outcome bool :=
  match a, b with x :: a, y :: b => oand (arg_may_unify treat x y) (args_refs_may_unify treat a b) | _, _ => Ret true end.
Fixpoint all_may_unify (treat : TreatParams) (a b : list Ty) : outcome bool :=
  match a, b with x :: a, y :: b => oand (types_may_unify treat x y) (all_may_unify treat a b) | _, _ => Ret true end.
