(* ===== verification/FastRejectProps.v ===== *)
(** Fast rejection is sound: types with a common instance are never rejected. It is exact
    for a looser notion, which replaces each occurrence on its own and compares trait
    objects by their principal trait, where no variable of a field is compared. *)

From S2P Require Import Prelude.
From S2P Require Import Literal.
From S2P Require Import Fields.
From S2P Require Import FastReject.

(** ** The recursion, by equations *)

Lemma may_unify_adt treat d a d' a' :
  types_may_unify treat (Adt d a) (Adt d' a') = oand (Ret (d =? d')) (args_refs_may_unify treat a a').
Proof.
  cbn. destruct (d =? d'); [|done]. revert a'. induction a as [|x a IH]; intros [|y a']; try done. cbn.
  destruct (arg_may_unify treat x y) as [[]|]; try done. apply IH.
Qed.

Lemma all_inner treat a a' :
  (fix go (a b : list Ty) {struct a} : outcome bool :=
    match a, b with x :: a, y :: b => oand (types_may_unify treat x y) (go a b) | _, _ => Ret true end) a a' = all_may_unify treat a a'.
Proof. revert a'. induction a as [|x a IH]; intros [|y a']; try done. cbn. by rewrite IH. Qed.

Lemma may_unify_tuple treat a a' :
  types_may_unify treat (Tuple a) (Tuple a') = oand (Ret (bool_decide (length a = length a'))) (all_may_unify treat a a').
Proof. cbn. by rewrite all_inner. Qed.

Lemma may_unify_fn_ptr treat a v s b a' v' s' b' :
  types_may_unify treat (FnPtr a v s b) (FnPtr a' v' s' b') =
    oand (Ret ((b =? b') && eqb v v' && eqb s s' && bool_decide (length a = length a'))) (all_may_unify treat a a').
Proof. cbn. by rewrite all_inner. Qed.

(** ** Sizes of types *)

Fixpoint ty_size (t : Ty) : nat :=
  let args := fix args (l : list GenericArg) : nat := match l with [] => 0%nat | x :: l => (arg_size x + args l)%nat end in
  let tys := fix tys (l : list Ty) : nat := match l with [] => 0%nat | x :: l => (ty_size x + tys l)%nat end in
  match t with
  | Adt _ a | FnDef _ a | Closure _ a | Generator _ a _ | GeneratorWitnessMIR _ a | Alias _ _ a => S (args a)
  | Array ty _ | Slice ty | RawPtr ty _ | Ref _ ty _ => S (ty_size ty)
  | FnPtr l _ _ _ | GeneratorWitness l | Tuple l => S (tys l)
  | _ => 1%nat
  end
with arg_size (a : GenericArg) : nat := match a with TypeArg t => S (ty_size t) | _ => 1%nat end.

Definition args_size (l : list GenericArg) : nat := sum_list_with arg_size l.
Definition tys_size (l : list Ty) : nat := sum_list_with ty_size l.

Lemma args_size_inner l :
  (fix args (l : list GenericArg) : nat := match l with [] => 0%nat | x :: l => (arg_size x + args l)%nat end) l = args_size l.
Proof. induction l as [|x l IH]; [done|]. unfold args_size in *. cbn [sum_list_with]. by rewrite IH. Qed.
Lemma tys_size_inner l :
  (fix tys (l : list Ty) : nat := match l with [] => 0%nat | x :: l => (ty_size x + tys l)%nat end) l = tys_size l.
Proof. induction l as [|x l IH]; [done|]. unfold tys_size in *. cbn [sum_list_with]. by rewrite IH. Qed.

(** Induction on types, with hypotheses for the types and arguments in lists *)
Section ty_induction.
Context (P : Ty → Prop) (Q : GenericArg → Prop).
Context (step : ∀ t, (∀ t', (ty_size t' < ty_size t)%nat → P t') → (∀ a, (arg_size a < ty_size t)%nat → Q a) → P t).
Context (step_arg : ∀ a, (∀ t, (ty_size t < arg_size a)%nat → P t) → Q a).

Lemma ty_ind_size n : (∀ t, (ty_size t < n)%nat → P t) ∧ (∀ a, (arg_size a < n)%nat → Q a).
Proof.
  induction n as [|n [IHt IHa]]; [split; intros; lia|]. split.
  - intros t Ht. apply step; intros; [apply IHt|apply IHa]; lia.
  - intros a Ha. apply step_arg. intros. apply IHt. lia.
Qed.

Lemma ty_size_induction t : P t.
Proof. by apply (ty_ind_size (S (ty_size t))); lia. Qed.
End ty_induction.

Lemma args_in_size l a : In a l → (arg_size a ≤ args_size l)%nat.
Proof. unfold args_size. induction l as [|x l IH]; [done|]. cbn [In sum_list_with]. intros [->|Ha]; [lia|]. specialize (IH Ha). lia. Qed.
Lemma tys_in_size l t : In t l → (ty_size t ≤ tys_size l)%nat.
Proof. unfold tys_size. induction l as [|x l IH]; [done|]. cbn [In sum_list_with]. intros [->|Ha]; [lia|]. specialize (IH Ha). lia. Qed.

(** ** Instances of types *)

(** What a variable can stand for *)
Definition infer_inst (v : InferTy) (u : Ty) : Prop :=
  match v with
  | TyVar _ | FreshTy _ => True
  | IntVar _ | FreshIntTy _ => (∃ t, u = Int t) ∨ (∃ t, u = Uint t)
  | FloatVar _ | FreshFloatTy _ => ∃ t, u = Float t
  | FieldVar _ | FreshFieldTy _ => ∃ t, u = Field t
  end.

(** A constant that is not evaluated can have any value. *)
Definition const_inst (params_vary : bool) (c u : Const) : Prop :=
  match const_kind c with
  | CParam _ => if params_vary then True else const_kind u = const_kind c
  | CInfer _ | CUnevaluated _ _ | CError | CExpr _ _ => True
  | CBound _ _ | CPlaceholder _ | CValue _ => const_kind u = const_kind c
  end.

(** [inst params_vary t u]: the type [u] arises from [t] if its inference variables, the
    types it does not normalize, its regions, and its parameters if they vary, are
    replaced; each occurrence on its own. Of trait objects only the principal trait is
    compared. *)
Inductive inst (params_vary : bool) : Ty → Ty → Prop :=
| inst_leaf t : leaf_eqb t t = true → inst params_vary t t
| inst_adt d a u : Forall2 (arg_inst params_vary) a u → inst params_vary (Adt d a) (Adt d u)
| inst_array t u c k : inst params_vary t u → const_inst params_vary c k → inst params_vary (Array t c) (Array u k)
| inst_slice t u : inst params_vary t u → inst params_vary (Slice t) (Slice u)
| inst_raw_ptr t u m : inst params_vary t u → inst params_vary (RawPtr t m) (RawPtr u m)
| inst_ref r r' t u m : inst params_vary t u → inst params_vary (Ref r t m) (Ref r' u m)
| inst_fn_def d a u : inst params_vary (FnDef d a) (FnDef d u)
| inst_fn_ptr a u v s b : Forall2 (inst params_vary) a u → inst params_vary (FnPtr a v s b) (FnPtr u v s b)
| inst_dynamic p r k p' r' k' : principal_def_id p = principal_def_id p' → inst params_vary (Dynamic p r k) (Dynamic p' r' k')
| inst_closure d a u : inst params_vary (Closure d a) (Closure d u)
| inst_generator d a u m m' : inst params_vary (Generator d a m) (Generator d u m')
| inst_witness a u : length a = length u → inst params_vary (GeneratorWitness a) (GeneratorWitness u)
| inst_witness_mir d a u : inst params_vary (GeneratorWitnessMIR d a) (GeneratorWitnessMIR d u)
| inst_tuple a u : Forall2 (inst params_vary) a u → inst params_vary (Tuple a) (Tuple u)
| inst_alias k d a u : inst params_vary (Alias k d a) u
| inst_param n : params_vary = false → inst params_vary (Param n) (Param n)
| inst_param_vary n u : params_vary = true → inst params_vary (Param n) u
| inst_bound d v : inst params_vary (Bound d v) (Bound d v)
| inst_placeholder p : inst params_vary (Placeholder p) (Placeholder p)
| inst_infer v u : infer_inst v u → inst params_vary (Infer v) u
| inst_error u : inst params_vary Error u
with arg_inst (params_vary : bool) : GenericArg → GenericArg → Prop :=
| arg_inst_lifetime r r' : arg_inst params_vary (Lifetime r) (Lifetime r')
| arg_inst_type t u : inst params_vary t u → arg_inst params_vary (TypeArg t) (TypeArg u)
| arg_inst_const c k : const_inst params_vary c k → arg_inst params_vary (ConstArg c) (ConstArg k).

(** Two types that can be made equal if each occurrence is replaced on its own and trait
    objects are compared by their principal trait. The parameters of the impl vary. *)
Definition occurrences_unify (treat : TreatParams) (obl imp : Ty) : Prop := ∃ u, inst (param_may_unify treat) obl u ∧ inst true imp u.

(** ** Substitutions *)

(** What parameters, variables and constants stand for, what aliases are normalized to and
    constants evaluate to, and what stands in the place of errors *)
Record Subst := mkSubst {
  s_param : Z → Ty; s_const_param : Z → Const;
  s_infer : InferTy → Ty; s_const_infer : InferConst → Const;
  s_alias : AliasKind → DefId → list GenericArg → Ty;
  s_unevaluated : DefId → list GenericArg → Const;
  s_expr : Z → list GenericArg → Const;
  s_error : Ty; s_const_error : Const;
}.

(** The instance of a type under a substitution, with erased regions: all occurrences of a
    parameter or variable are replaced by the same type. *)
Fixpoint subst (σ : Subst) (t : Ty) : Ty :=
  let args := fix args (l : list GenericArg) := match l with [] => [] | x :: l => subst_arg σ x :: args l end in
  let tys := fix tys (l : list Ty) := match l with [] => [] | x :: l => subst σ x :: tys l end in
  let preds := fix preds (l : list ExistentialPredicate) := match l with [] => [] | x :: l => subst_pred σ x :: preds l end in
  match t with
  | Bool | Char | Int _ | Uint _ | Field _ | Curve _ | Float _ | Foreign _ | Str | Never | Bound _ _ | Placeholder _ => t
  | Adt d a => Adt d (args a)
  | Array ty len => Array (subst σ ty) (subst_const σ len)
  | Slice ty => Slice (subst σ ty)
  | RawPtr ty m => RawPtr (subst σ ty) m
  | Ref _ ty m => Ref 0 (subst σ ty) m
  | FnDef d a => FnDef d (args a)
  | FnPtr l v s b => FnPtr (tys l) v s b
  | Dynamic p _ k => Dynamic (preds p) 0 k
  | Closure d a => Closure d (args a)
  | Generator d a m => Generator d (args a) m
  | GeneratorWitness l => GeneratorWitness (tys l)
  | GeneratorWitnessMIR d a => GeneratorWitnessMIR d (args a)
  | Tuple l => Tuple (tys l)
  | Alias k d a => s_alias σ k d (args a)
  | Param n => s_param σ n
  | Infer v => s_infer σ v
  | Error => s_error σ
  end
with subst_arg (σ : Subst) (a : GenericArg) : GenericArg :=
  match a with Lifetime _ => Lifetime 0 | TypeArg t => TypeArg (subst σ t) | ConstArg c => ConstArg (subst_const σ c) end
with subst_const (σ : Subst) (c : Const) : Const := match c with mkConst ty k => subst_kind σ (subst σ ty) k end
with subst_kind (σ : Subst) (ty : Ty) (k : ConstKind) : Const :=
  let args := fix args (l : list GenericArg) := match l with [] => [] | x :: l => subst_arg σ x :: args l end in
  match k with
  | CParam n => s_const_param σ n
  | CInfer v => s_const_infer σ v
  | CUnevaluated d a => s_unevaluated σ d (args a)
  | CExpr o a => s_expr σ o (args a)
  | CError => s_const_error σ
  | CBound _ _ | CPlaceholder _ | CValue _ => mkConst ty k
  end
with subst_pred (σ : Subst) (p : ExistentialPredicate) : ExistentialPredicate :=
  let args := fix args (l : list GenericArg) := match l with [] => [] | x :: l => subst_arg σ x :: args l end in
  match p with
  | ETrait d a => ETrait d (args a)
  | EProjection d a t => EProjection d (args a) (subst_arg σ t)
  | EAutoTrait d => EAutoTrait d
  end.

(** Variables of numbers stand for types of their kind, and parameters for themselves
    unless they vary. *)
Record subst_ok (params_vary : bool) (σ : Subst) : Prop := {
  so_param n : params_vary = false → s_param σ n = Param n;
  so_const_param n : params_vary = false → const_kind (s_const_param σ n) = CParam n;
  so_infer v : infer_inst v (s_infer σ v);
}.

(** Two types have a common instance: substitutions of their own make them equal. *)
Definition common_instance (treat : TreatParams) (obl imp : Ty) : Prop :=
  ∃ σ τ, subst_ok (param_may_unify treat) σ ∧ subst_ok true τ ∧ subst σ obl = subst τ imp.

Lemma subst_const_inst pv σ c : subst_ok pv σ → const_inst pv c (subst_const σ c).
Proof.
  intros Hσ. destruct c as [ty k]. unfold const_inst. cbn. destruct k; try done.
  destruct pv; [done|]. by apply (so_const_param _ _ Hσ).
Qed.

Lemma subst_inst pv σ t : subst_ok pv σ → inst pv t (subst σ t).
Proof.
  intros Hσ.
  apply (ty_size_induction (λ t, inst pv t (subst σ t)) (λ a, arg_inst pv a (subst_arg σ a))); clear t.
  - intros t IHt IHa.
    assert (∀ l, (args_size l < ty_size t)%nat → Forall2 (arg_inst pv) l (subst_arg σ <$> l)) as Hargs.
    { intros l Hl. apply Forall2_fmap_r, Forall_Forall2_diag, List.Forall_forall. intros x Hx. apply IHa.
      pose proof (args_in_size _ _ Hx). lia. }
    assert (∀ l, (tys_size l < ty_size t)%nat → Forall2 (inst pv) l (subst σ <$> l)) as Htys.
    { intros l Hl. apply Forall2_fmap_r, Forall_Forall2_diag, List.Forall_forall. intros x Hx. apply IHt.
      pose proof (tys_in_size _ _ Hx). lia. }
    destruct t; try (apply inst_leaf; cbn; first [done|by apply bool_decide_eq_true_2|apply Z.eqb_refl]).
    + apply inst_adt, Hargs, Nat.lt_succ_diag_r.
    + apply inst_array; [apply IHt; cbn; lia|by apply subst_const_inst].
    + apply inst_slice, IHt. cbn. lia.
    + apply inst_raw_ptr, IHt. cbn. lia.
    + apply inst_ref, IHt. cbn. lia.
    + apply inst_fn_def.
    + apply inst_fn_ptr, Htys, Nat.lt_succ_diag_r.
    + apply inst_dynamic. by destruct preds as [|[] preds].
    + apply inst_closure.
    + apply inst_generator.
    + apply inst_witness. apply (Forall2_length (R := inst pv)), Htys, Nat.lt_succ_diag_r.
    + apply inst_witness_mir.
    + apply inst_tuple, Htys, Nat.lt_succ_diag_r.
    + apply inst_alias.
    + destruct pv eqn:E; [by apply inst_param_vary|]. cbn. rewrite (so_param _ _ Hσ) by done. by apply inst_param.
    + apply inst_bound.
    + apply inst_placeholder.
    + apply inst_infer, (so_infer _ _ Hσ).
    + apply inst_error.
  - intros a IH. destruct a as [r|t|c]; constructor; [apply IH; cbn; lia|by apply subst_const_inst].
Qed.

Lemma common_instance_occurrences treat obl imp : common_instance treat obl imp → occurrences_unify treat obl imp.
Proof.
  intros (σ & τ & Hσ & Hτ & E). exists (subst σ obl). split; [by apply subst_inst|]. rewrite E. by apply subst_inst.
Qed.

(** ** Soundness *)

Lemma oand_ret a b r : oand a b = Ret r → (a = Ret false ∧ r = false) ∨ (a = Ret true ∧ b = Ret r).
Proof. unfold oand. destruct a as [[]|]; cbn; intros E; [by right|left; by injection E as <-|done]. Qed.

Lemma consts_sound treat c k u b : consts_may_unify treat c k = Ret b →
  const_inst (param_may_unify treat) c u → const_inst true k u → b = true.
Proof.
  unfold consts_may_unify, const_inst. destruct (const_kind k) eqn:Ek; cbn; intros E Hc Hk; try (by injection E as <-); try done.
  destruct (const_kind c) eqn:Ec; try (by injection E as <-); try done.
  - destruct (param_may_unify treat); [by injection E as <-|congruence].
  - rewrite Hc in Hk. congruence.
  - rewrite Hc in Hk. injection Hk as ->. injection E as <-. apply Z.eqb_refl.
Qed.

(** Parts of the proof, for types and arguments with their own instances *)
Definition ty_sound (treat : TreatParams) (obl : Ty) : Prop :=
  ∀ imp u b, types_may_unify treat obl imp = Ret b → inst (param_may_unify treat) obl u → inst true imp u → b = true.
Definition arg_sound (treat : TreatParams) (obl : GenericArg) : Prop :=
  ∀ imp u b, arg_may_unify treat obl imp = Ret b → arg_inst (param_may_unify treat) obl u → arg_inst true imp u → b = true.

Lemma args_sound treat a imp us b : Forall (arg_sound treat) a → args_refs_may_unify treat a imp = Ret b →
  Forall2 (arg_inst (param_may_unify treat)) a us → Forall2 (arg_inst true) imp us → b = true.
Proof.
  intros Ha. revert imp us. induction Ha as [|x a Hx Ha IH]; intros imp us E H1 H2; [by injection E as <-|].
  inversion H1; subst. inversion H2; subst. cbn in E. apply oand_ret in E as [[E ->]|[E E']]; [by eapply Hx|by eapply IH].
Qed.

Lemma tys_sound treat a imp us b : Forall (ty_sound treat) a → all_may_unify treat a imp = Ret b →
  Forall2 (inst (param_may_unify treat)) a us → Forall2 (inst true) imp us → b = true.
Proof.
  intros Ha. revert imp us. induction Ha as [|x a Hx Ha IH]; intros imp us E H1 H2; [by injection E as <-|].
  inversion H1; subst. inversion H2; subst. cbn in E. apply oand_ret in E as [[E ->]|[E E']]; [by eapply Hx|by eapply IH].
Qed.

Lemma ty_sound_step treat obl : (∀ t, (ty_size t < ty_size obl)%nat → ty_sound treat t) → (∀ a, (arg_size a < ty_size obl)%nat → arg_sound treat a) →
  ty_sound treat obl.
Proof.
  intros IHt IHa imp u b E H1 H2.
  assert (impl_ty_head imp = Ret (Some true) → b = true) as Hhead.
  { intros Eh. destruct obl; cbn in E; rewrite Eh in E; by injection E as <-. }
  assert (impl_ty_head imp = Panic → False) as Hpanic.
  { intros Eh. destruct obl; cbn in E; by rewrite Eh in E. }
  inversion H1; subst; clear H1.
  (* an obligation that may become any type *)
  15, 17, 21: solve [cbn in E; rewrite ?H in E; destruct (impl_ty_head imp) as [[[]|]|] eqn:Eh; try done; try (by apply Hhead); try (by destruct imp); by injection E as <-].
  (* a variable *)
  18: { destruct (impl_ty_head imp) as [[[]|]|] eqn:Eh; [by apply Hhead| | |by exfalso; apply Hpanic].
        - by destruct imp.
        - cbn in E. rewrite Eh in E. cbn in E. destruct v; cbn in H; try (by injection E as <-).
          + injection E as <-. destruct H as [[t ->]|[t ->]]; inversion H2; subst; done.
          + injection E as <-. destruct H as [t ->]; inversion H2; subst; done. }
  all: inversion H2; subst; clear H2; try (by apply Hhead); try (by exfalso; apply Hpanic); try done.
  - destruct u; try done; cbn in E, H; injection E as <-; done.
  - rewrite may_unify_adt in E. apply oand_ret in E as [[E ->]|[_ E]]; [by rewrite Z.eqb_refl in E|].
    eapply args_sound; [|done..]. apply Forall_forall. intros x Hx. apply IHa. cbn [ty_size]. rewrite args_size_inner. pose proof (args_in_size _ _ Hx). lia.
  - cbn in E. apply oand_ret in E as [[E ->]|[_ E]]; [by eapply (IHt t); [cbn; lia|..]|by eapply consts_sound].
  - cbn in E. by eapply (IHt t); [cbn; lia|..].
  - cbn in E. rewrite bool_decide_eq_true_2 in E by done. by eapply (IHt t); [cbn; lia|..].
  - cbn in E. rewrite bool_decide_eq_true_2 in E by done. by eapply (IHt t); [cbn; lia|..].
  - rewrite may_unify_fn_ptr in E. pose proof (Forall2_length H). pose proof (Forall2_length H3).
    rewrite Z.eqb_refl, !eqb_reflx, bool_decide_eq_true_2 in E by congruence. cbn in E.
    eapply tys_sound; [|done..]. apply Forall_forall. intros x Hx. apply IHt. cbn [ty_size]. rewrite tys_size_inner. pose proof (tys_in_size _ _ Hx). lia.
  - cbn in E. rewrite H, H3 in E. destruct (principal_def_id p'); [|done]. cbn in E. injection E as <-. by apply bool_decide_eq_true_2.
  - rewrite may_unify_tuple in E. repeat match goal with F : Forall2 _ _ _ |- _ => apply Forall2_length in F as ?; revert F end; intros.
    rewrite bool_decide_eq_true_2 in E by congruence. cbn in E.
    eapply tys_sound; [|done..]. apply Forall_forall. intros x Hx. apply IHt. cbn [ty_size]. rewrite tys_size_inner. pose proof (tys_in_size _ _ Hx). lia.
Qed.

Lemma arg_sound_step treat a : (∀ t, (ty_size t < arg_size a)%nat → ty_sound treat t) → arg_sound treat a.
Proof.
  intros IH imp u b E H1 H2. inversion H1; subst; inversion H2; subst; cbn in E.
  - by injection E as <-.
  - by eapply (IH t); [cbn; lia|..].
  - by eapply consts_sound.
Qed.

Lemma may_unify_sound treat obl : ty_sound treat obl.
Proof. apply (ty_size_induction _ (arg_sound treat)); [apply ty_sound_step|apply arg_sound_step]. Qed.

(** ** Types that are compared *)

Inductive ArgKind := KLifetime | KType | KConst.
Definition arg_kind (a : GenericArg) : ArgKind := match a with Lifetime _ => KLifetime | TypeArg _ => KType | ConstArg _ => KConst end.

Section comparable.
(** The kinds of the parameters of a definition, which the arguments of each of its types have *)
Context (kinds : DefId → list ArgKind).

Definition impl_const_wf (c : Const) : Prop := ∃ b, impl_const_head (const_kind c) = Ret b.
Definition obl_const_wf (c : Const) : Prop := match const_kind c with CBound _ _ => False | _ => True end.

(** What the types in the header of an impl are made of *)
Inductive impl_wf : Ty → Prop :=
| impl_wf_any t : impl_ty_head t = Ret (Some true) → impl_wf t
| impl_wf_leaf t : leaf_eqb t t = true → impl_wf t
| impl_wf_adt d a : map arg_kind a = kinds d → Forall impl_arg_wf a → impl_wf (Adt d a)
| impl_wf_array t c : impl_wf t → impl_const_wf c → impl_wf (Array t c)
| impl_wf_slice t : impl_wf t → impl_wf (Slice t)
| impl_wf_raw_ptr t m : impl_wf t → impl_wf (RawPtr t m)
| impl_wf_ref r t m : impl_wf t → impl_wf (Ref r t m)
| impl_wf_fn_ptr l v s b : Forall impl_wf l → impl_wf (FnPtr l v s b)
| impl_wf_dynamic p r k : p ≠ [] → impl_wf (Dynamic p r k)
| impl_wf_tuple l : Forall impl_wf l → impl_wf (Tuple l)
with impl_arg_wf : GenericArg → Prop :=
| impl_arg_lifetime r : impl_arg_wf (Lifetime r)
| impl_arg_type t : impl_wf t → impl_arg_wf (TypeArg t)
| impl_arg_const c : impl_const_wf c → impl_arg_wf (ConstArg c).

(** The types of an obligation: no witnesses of generators and no bound constants. With
    [exact], its variables for numbers are those that are compared with the impl. *)
Inductive obl_wf (exact : bool) : Ty → Prop :=
| obl_wf_leaf t : leaf_eqb t t = true → obl_wf exact t
| obl_wf_adt d a : map arg_kind a = kinds d → Forall (obl_arg_wf exact) a → obl_wf exact (Adt d a)
| obl_wf_array t c : obl_wf exact t → obl_const_wf c → obl_wf exact (Array t c)
| obl_wf_slice t : obl_wf exact t → obl_wf exact (Slice t)
| obl_wf_raw_ptr t m : obl_wf exact t → obl_wf exact (RawPtr t m)
| obl_wf_ref r t m : obl_wf exact t → obl_wf exact (Ref r t m)
| obl_wf_fn_ptr l v s b : Forall (obl_wf exact) l → obl_wf exact (FnPtr l v s b)
| obl_wf_dynamic p r k : p ≠ [] → obl_wf exact (Dynamic p r k)
| obl_wf_tuple l : Forall (obl_wf exact) l → obl_wf exact (Tuple l)
| obl_wf_rigid t : match t with FnDef _ _ | Closure _ _ | Generator _ _ _ | Placeholder _ | Bound _ _ | Param _ | Alias _ _ _ | Error => True | _ => False end →
    obl_wf exact t
| obl_wf_infer v : (exact = true → match v with TyVar _ | IntVar _ | FloatVar _ | FreshTy _ => True | _ => False end) → obl_wf exact (Infer v)
with obl_arg_wf (exact : bool) : GenericArg → Prop :=
| obl_arg_lifetime r : obl_arg_wf exact (Lifetime r)
| obl_arg_type t : obl_wf exact t → obl_arg_wf exact (TypeArg t)
| obl_arg_const c : obl_const_wf c → obl_arg_wf exact (ConstArg c).

(** ** Every type has an instance *)

Lemma const_inst_refl pv c : const_inst pv c c.
Proof. unfold const_inst. destruct (const_kind c); try done. by destruct pv. Qed.

Lemma list_witness {A B} (R : A → B → Prop) l : Forall (λ x, ∃ y, R x y) l → ∃ l', Forall2 R l l'.
Proof. induction 1 as [|x l (y & Hy) _ (l' & IH)]; [by exists []|]. exists (y :: l'). by constructor. Qed.

Lemma inst_exists pv t : ∃ u, inst pv t u.
Proof.
  apply (ty_size_induction (λ t, ∃ u, inst pv t u) (λ a, ∃ u, arg_inst pv a u)); clear t.
  - intros t IHt IHa.
    assert (∀ l, (args_size l < ty_size t)%nat → ∃ l', Forall2 (arg_inst pv) l l') as Hargs.
    { intros l Hl. apply list_witness. apply List.Forall_forall. intros x Hx. apply IHa. pose proof (args_in_size _ _ Hx). lia. }
    assert (∀ l, (tys_size l < ty_size t)%nat → ∃ l', Forall2 (inst pv) l l') as Htys.
    { intros l Hl. apply list_witness. apply List.Forall_forall. intros x Hx. apply IHt. pose proof (tys_in_size _ _ Hx). lia. }
    assert (leaf_eqb t t = true → ∃ u, inst pv t u) as Hleaf by (intros; exists t; by constructor).
    destruct t; try (apply Hleaf; cbn; first [done|by apply bool_decide_eq_true_2|apply Z.eqb_refl]).
    + destruct (Hargs args) as [l' Hl']; [apply Nat.lt_succ_diag_r|]. eexists. by constructor.
    + destruct (IHt t) as [u Hu]; [cbn; lia|]. exists (Array u len). constructor; [done|apply const_inst_refl].
    + destruct (IHt t) as [u Hu]; [cbn; lia|]. eexists. by constructor.
    + destruct (IHt t) as [u Hu]; [cbn; lia|]. eexists. by constructor.
    + destruct (IHt t) as [u Hu]; [cbn; lia|]. exists (Ref r u mutbl). by constructor.
    + eexists. apply (inst_fn_def _ _ _ args).
    + destruct (Htys inputs_and_output) as [l' Hl']; [apply Nat.lt_succ_diag_r|]. eexists. by constructor.
    + exists (Dynamic preds r repr). by constructor.
    + eexists. apply (inst_closure _ _ _ args).
    + eexists. apply (inst_generator _ _ _ args _ movability).
    + exists (GeneratorWitness tys). by constructor.
    + eexists. apply (inst_witness_mir _ _ _ args).
    + destruct (Htys tys) as [l' Hl']; [apply Nat.lt_succ_diag_r|]. eexists. by constructor.
    + exists Bool. apply inst_alias.
    + exists (Param index). destruct pv; [by apply inst_param_vary|by apply inst_param].
    + eexists. apply inst_bound.
    + eexists. apply inst_placeholder.
    + destruct v as [v|v|v|v|v|v|v|v]; [exists Bool|exists (Int Isize)|exists (Float Fl32)|exists (Field FieldTy.PallasBase)
        |exists Bool|exists (Int Isize)|exists (Float Fl32)|exists (Field FieldTy.PallasBase)]; apply inst_infer; cbn; eauto.
    + exists Bool. apply inst_error.
  - intros a IH. destruct a as [r|t|c].
    + exists (Lifetime r). constructor.
    + destruct (IH t) as [u Hu]; [cbn; lia|]. exists (TypeArg u). by constructor.
    + exists (ConstArg c). constructor. apply const_inst_refl.
Qed.

(** ** Comparison returns, and finds common instances *)

Definition consts_unifiable (treat : TreatParams) (c k : Const) : Prop := ∃ u, const_inst (param_may_unify treat) c u ∧ const_inst true k u.
Definition arg_unifiable (treat : TreatParams) (a b : GenericArg) : Prop := ∃ u, arg_inst (param_may_unify treat) a u ∧ arg_inst true b u.

Lemma consts_total treat c k : obl_const_wf c → impl_const_wf k →
  ∃ b, consts_may_unify treat c k = Ret b ∧ (b = true → consts_unifiable treat c k).
Proof.
  intros Hc [e He]. unfold consts_may_unify, consts_unifiable, obl_const_wf in *. rewrite He. cbn [obind].
  destruct (const_kind k) eqn:Ek; cbn in He; try done; injection He as <-.
  all: try (eexists; split; [done|]; intros _; exists c; split; [apply const_inst_refl|unfold const_inst; by rewrite Ek]).
  destruct (const_kind c) eqn:Ec; try done; eexists; (split; [done|]).
  all: try (intros _; exists k; split; [unfold const_inst; by rewrite Ec|apply const_inst_refl]).
  - intros Hp. exists k. split; [unfold const_inst; by rewrite Ec, Hp|apply const_inst_refl].
  - done.
  - intros Hv. apply Z.eqb_eq in Hv as ->. exists k. split; [unfold const_inst; by rewrite Ec, Ek|apply const_inst_refl].
Qed.

Definition ty_total (treat : TreatParams) (exact : bool) (obl : Ty) : Prop :=
  ∀ imp, obl_wf exact obl → impl_wf imp → ∃ b, types_may_unify treat obl imp = Ret b ∧ (exact = true → b = true → occurrences_unify treat obl imp).
Definition arg_total (treat : TreatParams) (exact : bool) (obl : GenericArg) : Prop :=
  ∀ imp, obl_arg_wf exact obl → impl_arg_wf imp → arg_kind obl = arg_kind imp →
    ∃ b, arg_may_unify treat obl imp = Ret b ∧ (exact = true → b = true → arg_unifiable treat obl imp).

(** Lists of common instances *)
Lemma tys_total treat exact a imp : Forall (ty_total treat exact) a → Forall (obl_wf exact) a → Forall impl_wf imp → length a = length imp →
  ∃ b, all_may_unify treat a imp = Ret b ∧
    (exact = true → b = true → ∃ us, Forall2 (inst (param_may_unify treat)) a us ∧ Forall2 (inst true) imp us).
Proof.
  intros Ha. revert imp. induction Ha as [|x a Hx Ha IH]; intros imp Wa Wi Hlen; destruct imp as [|y imp]; try done.
  { exists true. split; [done|]. intros _ _. by exists []. }
  inversion Wa; subst. inversion Wi; subst. destruct (Hx y) as (b & E & Hb); [done..|]. destruct (IH imp) as (c & E' & Hc); [done|done|by injection Hlen|].
  cbn [all_may_unify]. rewrite E. unfold oand. cbn [obind]. destruct b; [|by exists false].
  exists c. split; [done|]. intros He ->. destruct (Hb He eq_refl) as (u & Hu1 & Hu2), (Hc He eq_refl) as (us & Hs1 & Hs2).
  exists (u :: us). split; by constructor.
Qed.

Lemma args_total treat exact a imp : Forall (arg_total treat exact) a → Forall (obl_arg_wf exact) a → Forall impl_arg_wf imp →
  map arg_kind a = map arg_kind imp →
  ∃ b, args_refs_may_unify treat a imp = Ret b ∧
    (exact = true → b = true → ∃ us, Forall2 (arg_inst (param_may_unify treat)) a us ∧ Forall2 (arg_inst true) imp us).
Proof.
  intros Ha. revert imp. induction Ha as [|x a Hx Ha IH]; intros imp Wa Wi Hlen; destruct imp as [|y imp]; try done.
  { exists true. split; [done|]. intros _ _. by exists []. }
  inversion Wa; subst. inversion Wi; subst. injection Hlen as Hk Hlen.
  destruct (Hx y) as (b & E & Hb); [done..|]. destruct (IH imp) as (c & E' & Hc); [done..|].
  cbn [args_refs_may_unify]. rewrite E. unfold oand. cbn [obind]. destruct b; [|by exists false].
  exists c. split; [done|]. intros He ->. destruct (Hb He eq_refl) as (u & Hu1 & Hu2), (Hc He eq_refl) as (us & Hs1 & Hs2).
  exists (u :: us). split; by constructor.
Qed.

Lemma arg_total_step treat exact a : (∀ t, (ty_size t < arg_size a)%nat → ty_total treat exact t) → arg_total treat exact a.
Proof.
  intros IH imp Wa Wi Hk. inversion Wa; subst; inversion Wi; subst; try done; cbn [arg_may_unify].
  - exists true. split; [done|]. intros _ _. exists (Lifetime r). split; constructor.
  - destruct (IH t ltac:(cbn; lia) t0) as (b & E & Hb); [done..|]. exists b. split; [done|]. intros He Hb'.
    destruct (Hb He Hb') as (u & ? & ?). exists (TypeArg u). split; by constructor.
  - destruct (consts_total treat c c0) as (b & E & Hb); [done..|]. exists b. split; [done|]. intros _ Hb'.
    destruct (Hb Hb') as (u & ? & ?). exists (ConstArg u). split; by constructor.
Qed.

(** An obligation or an impl that may become any type *)
Lemma impl_any treat obl imp : impl_ty_head imp = Ret (Some true) → types_may_unify treat obl imp = Ret true ∧ occurrences_unify treat obl imp.
Proof.
  intros Hh. split; [destruct obl; cbn; by rewrite Hh|]. destruct (inst_exists (param_may_unify treat) obl) as [u Hu]. exists u. split; [done|].
  destruct imp; try done; [apply inst_alias|by apply inst_param_vary|apply inst_error].
Qed.

Lemma obl_any treat obl imp : (∀ u, inst (param_may_unify treat) obl u) → occurrences_unify treat obl imp.
Proof. intros Ho. destruct (inst_exists true imp) as [u Hu]. exists u. by split. Qed.

(** Heads that differ *)
Lemma leaf_eqb_eq a b : leaf_eqb a b = true → a = b.
Proof. destruct a, b; cbn; try done; try (intros E; by apply bool_decide_eq_true in E as ->). intros E. by apply Z.eqb_eq in E as ->. Qed.

Lemma impl_wf_head imp : impl_wf imp → impl_ty_head imp = Ret (Some true) ∨ impl_ty_head imp = Ret None.
Proof. intros Wi. inversion Wi; subst; [by left|..]; right; try done. by destruct imp. Qed.

Lemma leaf_ret treat t imp : leaf_eqb t t = true → impl_ty_head imp = Ret None → types_may_unify treat t imp = Ret (leaf_eqb t imp).
Proof. intros Ht Hh. destruct t; try done; cbn; by rewrite Hh. Qed.

(** Obligations without parts that are compared, and variables *)
Lemma rigid_total treat obl imp (exact : bool) : impl_ty_head imp = Ret None →
  match obl with FnDef _ _ | Closure _ _ | Generator _ _ _ | Placeholder _ | Bound _ _ | Param _ | Alias _ _ _ | Error => True | _ => False end →
  ∃ b, types_may_unify treat obl imp = Ret b ∧ (exact = true → b = true → occurrences_unify treat obl imp).
Proof.
  intros Hh Ht. destruct obl; try done; cbn; rewrite Hh; cbn; eexists; (split; [done|]); try done; intros _ Hb.
  - apply obl_any. intros. apply inst_alias.
  - apply obl_any. intros. by apply inst_param_vary.
  - apply obl_any. intros. apply inst_error.
Qed.

Lemma infer_total treat v imp (exact : bool) : impl_ty_head imp = Ret None →
  (exact = true → match v with TyVar _ | IntVar _ | FloatVar _ | FreshTy _ => True | _ => False end) →
  ∃ b, types_may_unify treat (Infer v) imp = Ret b ∧ (exact = true → b = true → occurrences_unify treat (Infer v) imp).
Proof.
  intros Hh Hv. cbn. rewrite Hh. cbn. destruct v; eexists; (split; [done|]); intros He Hb; try (by exfalso; apply Hv).
  - apply obl_any. intros. by apply inst_infer.
  - exists imp. destruct imp; try done; (split; [apply inst_infer; cbn; eauto|apply inst_leaf; cbn; by apply bool_decide_eq_true_2]).
  - exists imp. destruct imp; try done; (split; [apply inst_infer; cbn; eauto|apply inst_leaf; cbn; by apply bool_decide_eq_true_2]).
  - apply obl_any. intros. by apply inst_infer.
Qed.

Lemma ty_total_step treat exact obl : (∀ t, (ty_size t < ty_size obl)%nat → ty_total treat exact t) →
  (∀ a, (arg_size a < ty_size obl)%nat → arg_total treat exact a) → ty_total treat exact obl.
Proof.
  intros IHt IHa imp Wo Wi. destruct (impl_wf_head imp Wi) as [Hh|Hh]; [destruct (impl_any treat obl imp Hh) as [-> ?]; by exists true|].
  assert (∀ l, (args_size l < ty_size obl)%nat → Forall (arg_total treat exact) l) as Hargs.
  { intros l Hl. apply List.Forall_forall. intros x Hx. apply IHa. pose proof (args_in_size _ _ Hx). lia. }
  assert (∀ l, (tys_size l < ty_size obl)%nat → Forall (ty_total treat exact) l) as Htys.
  { intros l Hl. apply List.Forall_forall. intros x Hx. apply IHt. pose proof (tys_in_size _ _ Hx). lia. }
  inversion Wo as [t Hl|d a Hk Ha|t c Ht Hc|t Ht|t m Ht|r t m Ht|l v s b Hl|p r k Hp|l Hl|t Ht|v Hv]; subst.
  - exists (leaf_eqb obl imp). split; [by apply leaf_ret|]. intros _ E. pose proof (leaf_eqb_eq _ _ E) as <-. exists obl. split; by apply inst_leaf.
  - destruct imp; try (by exists false). inversion Wi as [|? E|d' a' Hk' Ha'| | | | | | | ]; subst; try done. rewrite may_unify_adt.
    destruct (Z.eqb_spec d def) as [<-|]; [|by exists false]. destruct (args_total treat exact a args) as (b & E & Hb); [apply Hargs, Nat.lt_succ_diag_r|done|done|congruence|].
    exists b. unfold oand. cbn [obind]. split; [done|]. intros He Hb'. destruct (Hb He Hb') as (us & ? & ?). exists (Adt d us). split; by constructor.
  - destruct imp; try (by exists false). inversion Wi as [|? E| |t' c' Ht' Hc'| | | | | | ]; subst; try done. cbn [types_may_unify impl_ty_head obind].
    destruct (IHt t ltac:(cbn; lia) imp) as (x & E & Hx); [done..|]. rewrite E. unfold oand. cbn [obind]. destruct x; [|by exists false].
    destruct (consts_total treat c len) as (y & E' & Hy); [done..|]. exists y. split; [done|]. intros He Hb.
    destruct (Hx He eq_refl) as (u & ? & ?), (Hy Hb) as (k & ? & ?). exists (Array u k). split; by constructor.
  - destruct imp; try (by exists false). inversion Wi as [|? E| | |t' Ht'| | | | | ]; subst; try done. cbn [types_may_unify impl_ty_head obind].
    destruct (IHt t ltac:(cbn; lia) imp) as (x & E & Hx); [done..|]. exists x. split; [done|]. intros He Hb. destruct (Hx He Hb) as (u & ? & ?).
    exists (Slice u). split; by constructor.
  - destruct imp; try (by exists false). inversion Wi as [|? E| | | |t' m' Ht'| | | | ]; subst; try done. cbn [types_may_unify impl_ty_head obind].
    destruct (bool_decide_reflect (m = mutbl)) as [<-|]; [|by exists false].
    destruct (IHt t ltac:(cbn; lia) imp) as (x & E & Hx); [done..|]. exists x. split; [done|]. intros He Hb. destruct (Hx He Hb) as (u & ? & ?).
    exists (RawPtr u m). split; by constructor.
  - destruct imp; try (by exists false). inversion Wi as [|? E| | | | |r' t' m' Ht'| | | ]; subst; try done. cbn [types_may_unify impl_ty_head obind].
    destruct (bool_decide_reflect (m = mutbl)) as [<-|]; [|by exists false].
    destruct (IHt t ltac:(cbn; lia) imp) as (x & E & Hx); [done..|]. exists x. split; [done|]. intros He Hb. destruct (Hx He Hb) as (u & ? & ?).
    exists (Ref r u m). split; by constructor.
  - destruct imp as [| | | | | | | | | | | | | | |l' v' s' b'| | | | | | | | | | | | | ]; try (by exists false).
    inversion Wi as [|? E| | | | | |? ? ? ? Hl'| | ]; subst; try done. rewrite may_unify_fn_ptr.
    destruct ((b =? b') && eqb v v' && eqb s s' && bool_decide (length l = length l')) eqn:E; [|by exists false].
    rewrite !andb_true_iff, Z.eqb_eq, !eqb_true_iff, bool_decide_eq_true in E. destruct E as (((-> & ->) & ->) & Hlen).
    destruct (tys_total treat exact l l') as (x & E & Hx); [apply Htys, Nat.lt_succ_diag_r|done|done|done|]. exists x. split; [done|]. intros He Hb.
    destruct (Hx He Hb) as (us & ? & ?). exists (FnPtr us v' s' b'). split; by constructor.
  - destruct imp as [| | | | | | | | | | | | | | | |p' r' k'| | | | | | | | | | | | ]; try (by exists false).
    inversion Wi as [|? E| | | | | | |? ? ? Hp'| ]; subst; try done. cbn [types_may_unify impl_ty_head obind].
    assert (∀ q, q ≠ [] → ∃ o, principal_def_id q = Ret o) as Hq by (intros [|[] ?]; try done; by eexists).
    destruct (Hq p Hp) as [o Eo], (Hq p' Hp') as [o' Eo']. rewrite Eo, Eo'. cbn [obind]. eexists. split; [done|]. intros _ E. apply bool_decide_eq_true in E as ->.
    exists (Dynamic p r k). split; constructor; congruence.
  - destruct imp; try (by exists false). inversion Wi as [|? E| | | | | | | |? Hl']; subst; try done. rewrite may_unify_tuple.
    destruct (bool_decide_reflect (length l = length tys)) as [Hlen|]; [|by exists false].
    destruct (tys_total treat exact l tys) as (x & E & Hx); [apply Htys, Nat.lt_succ_diag_r|done|done|done|]. exists x. split; [done|]. intros He Hb.
    destruct (Hx He Hb) as (us & ? & ?). exists (Tuple us). split; by constructor.
  - by apply rigid_total.
  - by apply infer_total.
Qed.

Lemma may_unify_total treat exact obl : ty_total treat exact obl.
Proof. apply (ty_size_induction _ (arg_total treat exact)); [apply ty_total_step|apply arg_total_step]. Qed.
End comparable.


(** Two occurrences of a parameter are not compared with each other, and of trait objects
    only the principal traits are: [(u8, u16)] is not rejected for [(T, T)], nor [dyn Tr<u8>]
    for [dyn Tr<u16>], although they have no common instance. *)
Lemma occurrences_not_compared :
  types_may_unify ForLookup (Tuple [Uint Ui8; Uint Ui16]) (Tuple [Param 0; Param 0]) = Ret true ∧
  ¬ common_instance ForLookup (Tuple [Uint Ui8; Uint Ui16]) (Tuple [Param 0; Param 0]) ∧
  let dyn t := Dynamic [ETrait 5 [TypeArg (Uint t)]] 0 false in
  types_may_unify ForLookup (dyn Ui8) (dyn Ui16) = Ret true ∧ ¬ common_instance ForLookup (dyn Ui8) (dyn Ui16).
Proof.
  cbv zeta. split_and!; [done| |done|]; intros (σ & τ & _ & _ & E); cbn in E; congruence.
Qed.

(** A variable of a field is not rejected, unlike a variable of an integer. *)
Lemma field_var_not_rejected :
  types_may_unify ForLookup (Infer (FieldVar 0)) Bool = Ret true ∧ types_may_unify ForLookup (Infer (IntVar 0)) Bool = Ret false ∧
  ~ occurrences_unify ForLookup (Infer (FieldVar 0)) Bool.
Proof.
  split_and!; [done|done|]. intros (u & H1 & H2). inversion H1; subst; try done. inversion H2; subst; try done. by destruct H0.
Qed.

(** ** Simplified types *)

(** A type that is simplified in a mode is rigid at its head in that mode, an alias included. *)
Definition rigid_inst (treat : TreatParams) (t u : Ty) : Prop :=
  match t with
  | Alias k d a =>
      match treat with
      | AsCandidateKey => True
      | ForLookup => if ty_has_infer t then True else ∃ k' d' a', u = Alias k' d' a'
      | NextSolverLookup => ∃ k' d' a', u = Alias k' d' a'
      end
  | _ => inst (param_may_unify treat) t u
  end.

Lemma simplify_inst auto treat t u x : simplify_type auto t treat = Ret (Some x) → rigid_inst treat t u →
  simplify_type auto u NextSolverLookup = Ret (Some x).
Proof.
  intros E Hi. destruct t; cbn [rigid_inst] in Hi; try (inversion Hi; subst; try done).
  - match goal with F : Forall2 _ _ _ |- _ => pose proof (Forall2_length F) as Hl end. cbn in E |- *.
    destruct inputs_and_output, u0; try done. cbn in *. by injection Hl as <-.
  - cbn in E |- *. match goal with F : principal_def_id _ = _ |- _ => by rewrite <- F end.
  - cbn in E |- *. match goal with F : length _ = length _ |- _ => by rewrite <- F end.
  - cbn in E |- *. match goal with F : Forall2 _ _ _ |- _ => by rewrite <- (Forall2_length F) end.
  - cbn [simplify_type] in E. destruct treat; try done; [destruct (ty_has_infer (Alias kind def args)) eqn:Eh; [done|]|]; injection E as <-; by destruct Hi as (? & ? & ? & ->).
  - cbn in E. by destruct treat.
  - cbn in E. by destruct treat.
Qed.

(** C15. Simplified types are injective keys, as documented: if two types have simplified
    types in their modes and there is a type that both can become (aliases that are
    simplified stay aliases), then the simplified types are equal; so an impl that is stored
    under the simplified self type is found for every self type it applies to. *)
Theorem simplify_type_sound auto treat treat' t t' u x y :
  simplify_type auto t treat = Ret (Some x) → simplify_type auto t' treat' = Ret (Some y) →
  rigid_inst treat t u → rigid_inst treat' t' u → x = y.
Proof. intros E E' H1 H2. pose proof (simplify_inst _ _ _ _ _ E H1) as F. rewrite (simplify_inst _ _ _ _ _ E' H2) in F. congruence. Qed.

(** ** Concrete inputs *)

(** [Vec<&{field variable}>] against [Vec<&T>] and [Vec<u8>] *)
Definition vec_of (t : Ty) : Ty := Adt 7 [TypeArg t].
Definition type_kinds (d : DefId) : list ArgKind := if d =? 7 then [KType] else [].

Lemma vec_obl t : obl_wf type_kinds true t → obl_wf type_kinds true (vec_of t).
Proof. intros Ht. apply obl_wf_adt; [done|]. constructor; [by apply obl_arg_type|constructor]. Qed.
Lemma vec_impl t : impl_wf type_kinds t → impl_wf type_kinds (vec_of t).
Proof. intros Ht. apply impl_wf_adt; [done|]. constructor; [by apply impl_arg_type|constructor]. Qed.
Lemma vec_inst pv t u : inst pv t u → inst pv (vec_of t) (vec_of u).
Proof. intros Ht. apply inst_adt. constructor; [by apply arg_inst_type|constructor]. Qed.

(** A substitution with the given types for parameters *)
Definition some_subst (param : Z → Ty) : Subst :=
  {| s_param := param; s_const_param n := mkConst (Uint Usize) (CParam n);
     s_infer v := match v with
                  | TyVar _ | FreshTy _ => Bool
                  | IntVar _ | FreshIntTy _ => Int Isize
                  | FloatVar _ | FreshFloatTy _ => Float Fl32
                  | FieldVar _ | FreshFieldTy _ => Field FieldTy.PallasBase
                  end;
     s_const_infer _ := mkConst (Uint Usize) (CValue 0);
     s_alias := Alias; s_unevaluated d a := mkConst (Uint Usize) (CUnevaluated d a);
     s_expr o a := mkConst (Uint Usize) (CExpr o a);
     s_error := Error; s_const_error := mkConst Error CError |}.


Lemma simplify_type_sound_witness : SAdt 7 = SAdt 7.
Proof.
  apply (simplify_type_sound (λ _, false) ForLookup AsCandidateKey (vec_of (Infer (TyVar 0))) (vec_of (Param 0)) (vec_of Bool)); [done|done|..];
    apply vec_inst; [by apply inst_infer|by apply inst_param_vary].
Defined.
