(* ===== verification/Infer.v ===== *)
(** Inference of the types of numbers: variables for integers, floats and fields.

    [compiler/rustc_infer/src/infer/combine.rs] and [infer/mod.rs] (the unification tables
    of [InferCtxtInner], variables that are related to types, resolution), the literals and
    their expectations of [rustc_hir_typeck/src/fn_ctxt/checks.rs] and [expectation.rs],
    the fallback of [fallback.rs], and the final resolution of [infer/resolve.rs].

    The unification tables are those of the crate [ena], a class with its documented laws;
    general type variables, of which the code here only asks for the known value, and the
    relation of the parts of types are parameters. *)

From S2P Require Import Prelude.
From S2P Require Import Literal.
From S2P Require Import Fields.
From S2P Require Import FastReject.

(** ** The crate [ena]: tables of keys with values that unify only if they are equal *)

Class UnificationTable (V : Type) := {
  ut_table : Type;
  ut_new : ut_table;
  ut_len : ut_table → Z;
  ut_new_key : ut_table → option V → ut_table * Z;
  ut_find : ut_table → Z → Z;
  ut_probe_value : ut_table → Z → option V;
  ut_unify_var_var : ut_table → Z → Z → ut_table + V * V;
  ut_unify_var_value : ut_table → Z → option V → ut_table + V * V;
}.
Arguments ut_table V {_}.

Definition ut_key {V} `{UnificationTable V} (t : ut_table V) (k : Z) : Prop := 0 ≤ k < ut_len t.

(** What the documentation of [ena] promises: every key has a root and the value of its
    root; a new key is its own root; unifying merges two classes into one that keeps one of
    the roots, or fails with the two values if these differ. *)
Class UnificationTableLaws (V : Type) `{UnificationTable V} := {
  ut_len_new : ut_len ut_new = 0;
  ut_find_key t k : ut_key t k → ut_key t (ut_find t k);
  ut_find_find t k : ut_key t k → ut_find t (ut_find t k) = ut_find t k;
  ut_probe_find t k : ut_key t k → ut_probe_value t (ut_find t k) = ut_probe_value t k;
  ut_new_key_spec t v : ∃ t', ut_new_key t v = (t', ut_len t) ∧ ut_len t' = ut_len t + 1 ∧
    ut_find t' (ut_len t) = ut_len t ∧ ut_probe_value t' (ut_len t) = v ∧
    ∀ k, ut_key t k → ut_find t' k = ut_find t k ∧ ut_probe_value t' k = ut_probe_value t k;
  ut_var_var_same t a b : ut_key t a → ut_key t b → ut_find t a = ut_find t b →
    ∃ t', ut_unify_var_var t a b = inl t' ∧ ut_len t' = ut_len t ∧
      ∀ k, ut_key t k → ut_find t' k = ut_find t k ∧ ut_probe_value t' k = ut_probe_value t k;
  ut_var_var_merge t a b v : ut_key t a → ut_key t b → ut_find t a ≠ ut_find t b →
    (ut_probe_value t a = None ∧ v = ut_probe_value t b ∨ ut_probe_value t a = v ∧ (ut_probe_value t b = None ∨ ut_probe_value t b = v)) →
    ∃ t' r, ut_unify_var_var t a b = inl t' ∧ ut_len t' = ut_len t ∧ (r = ut_find t a ∨ r = ut_find t b) ∧
      ∀ k, ut_key t k →
        if bool_decide (ut_find t k = ut_find t a ∨ ut_find t k = ut_find t b) then ut_find t' k = r ∧ ut_probe_value t' k = v
        else ut_find t' k = ut_find t k ∧ ut_probe_value t' k = ut_probe_value t k;
  ut_var_var_error t a b x y : ut_key t a → ut_key t b → ut_probe_value t a = Some x → ut_probe_value t b = Some y → x ≠ y →
    ut_unify_var_var t a b = inr (x, y);
  ut_var_value_set t a y : ut_key t a → ut_probe_value t a = None ∨ ut_probe_value t a = Some y →
    ∃ t', ut_unify_var_value t a (Some y) = inl t' ∧ ut_len t' = ut_len t ∧
      ∀ k, ut_key t k → ut_find t' k = ut_find t k ∧
        ut_probe_value t' k = if bool_decide (ut_find t k = ut_find t a) then Some y else ut_probe_value t k;
  ut_var_value_error t a x y : ut_key t a → ut_probe_value t a = Some x → x ≠ y → ut_unify_var_value t a (Some y) = inr (x, y);
}.

(** ** Values of variables, errors *)

Inductive IntVarValue := IntType (t : IntTy) | UintType (t : UintTy).
Abbreviation FloatVarValue := FloatTy (only parsing).
Abbreviation FieldVarValue := FieldTy.t (only parsing).

#[global] Instance IntVarValue_dec : EqDecision IntVarValue.
Proof. solve_decision. Defined.

(** [ToType] *)
Definition int_to_type (v : IntVarValue) : Ty := match v with IntType i => Int i | UintType i => Uint i end.
Definition float_to_type (v : FloatVarValue) : Ty := Float v.
Definition field_to_type (v : FieldVarValue) : Ty := Field v.

Record ExpectedFound (T : Type) := mkExpectedFound { expected : T; found : T }.
Arguments mkExpectedFound {T} _ _.
Arguments expected {T} _.
Arguments found {T} _.
Definition ExpectedFound_new {T} (a_is_expected : bool) (a b : T) : ExpectedFound T :=
  if a_is_expected then mkExpectedFound a b else mkExpectedFound b a.

(** [TypeError]: the errors of variables, and the others by number *)
Inductive RelateError :=
| Sorts (values : ExpectedFound Ty)
| IntMismatch (values : ExpectedFound IntVarValue)
| FloatMismatch (values : ExpectedFound FloatTy)
| FieldMismatch (values : ExpectedFound FieldTy.t)
| OtherError (n : Z).

Definition int_unification_error (a_is_expected : bool) (v : IntVarValue * IntVarValue) : RelateError :=
  IntMismatch (ExpectedFound_new a_is_expected (fst v) (snd v)).
Definition float_unification_error (a_is_expected : bool) (v : FloatVarValue * FloatVarValue) : RelateError :=
  FloatMismatch (ExpectedFound_new a_is_expected (fst v) (snd v)).
Definition field_unification_error (a_is_expected : bool) (v : FieldVarValue * FieldVarValue) : RelateError :=
  FieldMismatch (ExpectedFound_new a_is_expected (fst v) (snd v)).

(** Predicates that relations register *)
Inductive Obligation := AliasRelate (a b : Ty) | Ambiguous.

Section infer.
Context `{UnificationTable IntVarValue} `{UnificationTable FloatTy} `{UnificationTable FieldTy.t}.

(** [InferCtxt]: the tables of [InferCtxtInner], and the obligations of the relation *)
Record InferCtxt := mkInferCtxt {
  int_table : ut_table IntVarValue;
  float_table : ut_table FloatTy;
  field_table : ut_table FieldTy.t;
  obligations : list Obligation;
}.

Definition with_int (c : InferCtxt) (t : ut_table IntVarValue) : InferCtxt := mkInferCtxt t (float_table c) (field_table c) (obligations c).
Definition with_float (c : InferCtxt) (t : ut_table FloatTy) : InferCtxt := mkInferCtxt (int_table c) t (field_table c) (obligations c).
Definition with_field (c : InferCtxt) (t : ut_table FieldTy.t) : InferCtxt := mkInferCtxt (int_table c) (float_table c) t (obligations c).

(** [InferCtxtInner::new] *)
Definition InferCtxt_new : InferCtxt := mkInferCtxt ut_new ut_new ut_new [].

Definition next_int_var (c : InferCtxt) : InferCtxt * Ty :=
  let '(t, v) := ut_new_key (int_table c) None in (with_int c t, Infer (IntVar v)).
Definition next_float_var (c : InferCtxt) : InferCtxt * Ty :=
  let '(t, v) := ut_new_key (float_table c) None in (with_float c t, Infer (FloatVar v)).
Definition next_field_var (c : InferCtxt) : InferCtxt * Ty :=
  let '(t, v) := ut_new_key (field_table c) None in (with_field c t, Infer (FieldVar v)).

(** ** Relating variables *)

Definition unify_integral_variable (c : InferCtxt) (vid_is_expected : bool) (vid : Z) (val : IntVarValue) : InferCtxt * (Ty + RelateError) :=
  match ut_unify_var_value (int_table c) vid (Some val) with
  | inr e => (c, inr (int_unification_error vid_is_expected e))
  | inl t => (with_int c t, inl (match val with IntType v => Int v | UintType v => Uint v end))
  end.

Definition unify_float_variable (c : InferCtxt) (vid_is_expected : bool) (vid : Z) (val : FloatTy) : InferCtxt * (Ty + RelateError) :=
  match ut_unify_var_value (float_table c) vid (Some val) with
  | inr e => (c, inr (float_unification_error vid_is_expected e))
  | inl t => (with_float c t, inl (Float val))
  end.

Definition unify_field_variable (c : InferCtxt) (vid_is_expected : bool) (vid : Z) (val : FieldTy.t) : InferCtxt * (Ty + RelateError) :=
  match ut_unify_var_value (field_table c) vid (Some val) with
  | inr e => (c, inr (field_unification_error vid_is_expected e))
  | inl t => (with_field c t, inl (Field val))
  end.

Section relations.
(** The flags of the context, and [structurally_relate_tys] of the relation *)
Context (next_trait_solver intercrate : bool).
Context (structurally_relate_tys : InferCtxt → bool → Ty → Ty → outcome (InferCtxt * (Ty + RelateError))).

Definition register (c : InferCtxt) (o : Obligation) : InferCtxt :=
  mkInferCtxt (int_table c) (float_table c) (field_table c) (obligations c ++ [o]).

(** The arms behind those of the variables of numbers *)
Definition combine_other_tys (c : InferCtxt) (a_is_expected : bool) (a b : Ty) : outcome (InferCtxt * (Ty + RelateError)) :=
  let is_alias t := match t with Alias _ _ _ => true | _ => false end in
  let is_opaque t := match t with Alias Opaque _ _ => true | _ => false end in
  let is_infer t := match t with Infer _ => true | _ => false end in
  let unexpected t := match t with Infer (TyVar _ | FreshTy _ | FreshIntTy _ | FreshFloatTy _) => true | _ => false end in
  if next_trait_solver && (is_alias a && unexpected b || unexpected a && is_alias b) then Panic
  else if next_trait_solver && (is_alias b || is_alias a) then Ret (register c (AliasRelate a b), inl a)
  else if is_infer a || is_infer b then Ret (c, inr (Sorts (ExpectedFound_new a_is_expected a b)))
  else if intercrate && (is_opaque a || is_opaque b) then Ret (register c Ambiguous, inl a)
  else structurally_relate_tys c a_is_expected a b.

Definition super_combine_tys (c : InferCtxt) (a_is_expected : bool) (a b : Ty) : outcome (InferCtxt * (Ty + RelateError)) :=
  match a, b with
  | Infer (IntVar a_id), Infer (IntVar b_id) =>
      Ret match ut_unify_var_var (int_table c) a_id b_id with
          | inr e => (c, inr (int_unification_error a_is_expected e))
          | inl t => (with_int c t, inl a)
          end
  | Infer (IntVar v_id), Int v => Ret (unify_integral_variable c a_is_expected v_id (IntType v))
  | Int v, Infer (IntVar v_id) => Ret (unify_integral_variable c (negb a_is_expected) v_id (IntType v))
  | Infer (IntVar v_id), Uint v => Ret (unify_integral_variable c a_is_expected v_id (UintType v))
  | Uint v, Infer (IntVar v_id) => Ret (unify_integral_variable c (negb a_is_expected) v_id (UintType v))
  | Infer (FloatVar a_id), Infer (FloatVar b_id) =>
      Ret match ut_unify_var_var (float_table c) a_id b_id with
          | inr e => (c, inr (float_unification_error a_is_expected e))
          | inl t => (with_float c t, inl a)
          end
  | Infer (FloatVar v_id), Float v => Ret (unify_float_variable c a_is_expected v_id v)
  | Float v, Infer (FloatVar v_id) => Ret (unify_float_variable c (negb a_is_expected) v_id v)
  | Infer (FieldVar a_id), Infer (FieldVar b_id) =>
      Ret match ut_unify_var_var (field_table c) a_id b_id with
          | inr e => (c, inr (field_unification_error a_is_expected e))
          | inl t => (with_field c t, inl a)
          end
  | Infer (FieldVar v_id), Field v => Ret (unify_field_variable c a_is_expected v_id v)
  | Field v, Infer (FieldVar v_id) => Ret (unify_field_variable c (negb a_is_expected) v_id v)
  | _, _ => combine_other_tys c a_is_expected a b
  end.

(** Relating pairs of types in turn, up to the first error *)
Fixpoint combine_all (c : InferCtxt) (pairs : list (Ty * Ty)) : outcome (InferCtxt * option RelateError) :=
  match pairs with
  | [] => Ret (c, None)
  | (a, b) :: pairs =>
      let! (c, r) := super_combine_tys c true a b in
      match r with inl _ => combine_all c pairs | inr e => Ret (c, Some e) end
  end.
End relations.

(** ** Resolution *)

(** [opportunistic_resolve_int_var] and the like: the value, or the root variable *)
Definition opportunistic_resolve_int_var (c : InferCtxt) (vid : Z) : Ty :=
  match ut_probe_value (int_table c) vid with Some value => int_to_type value | None => Infer (IntVar (ut_find (int_table c) vid)) end.
Definition opportunistic_resolve_float_var (c : InferCtxt) (vid : Z) : Ty :=
  match ut_probe_value (float_table c) vid with Some value => float_to_type value | None => Infer (FloatVar (ut_find (float_table c) vid)) end.
Definition opportunistic_resolve_field_var (c : InferCtxt) (vid : Z) : Ty :=
  match ut_probe_value (field_table c) vid with Some value => field_to_type value | None => Infer (FieldVar (ut_find (field_table c) vid)) end.

Section resolve.
(** The known value of a type variable: [type_variables().probe(v).known()] *)
Context (known : Z → option Ty).

(** [ShallowResolver::fold_ty] with [fold_infer_ty] *)
Fixpoint shallow_fold_ty (fuel : nat) (c : InferCtxt) (ty : Ty) : outcome Ty :=
  match fuel with
  | O => Panic
  | S fuel =>
      match ty with
      | Infer v =>
          match v with
          | TyVar v => match known v with Some t => shallow_fold_ty fuel c t | None => Ret ty end
          | IntVar v => Ret (default ty (int_to_type <$> ut_probe_value (int_table c) v))
          | FloatVar v => Ret (default ty (float_to_type <$> ut_probe_value (float_table c) v))
          | FieldVar v => Ret (default ty (field_to_type <$> ut_probe_value (field_table c) v))
          | FreshTy _ | FreshIntTy _ | FreshFloatTy _ => Ret ty
          | FreshFieldTy _ => Ret ty
          end
      | _ => Ret ty
      end
  end.

(** A type variable is not known to be another one, so that two rounds are enough. *)
Definition shallow_resolve (c : InferCtxt) (ty : Ty) : outcome Ty := shallow_fold_ty 2 c ty.

(** [TyOrConstInferVar] of a type, and [ty_or_const_infer_var_changed] *)
Inductive TyOrConstInferVar := VTy (v : Z) | VTyInt (v : Z) | VTyFloat (v : Z) | VTyField (v : Z).
Definition maybe_from_ty (ty : Ty) : option TyOrConstInferVar :=
  match ty with
  | Infer (TyVar v) => Some (VTy v)
  | Infer (IntVar v) => Some (VTyInt v)
  | Infer (FloatVar v) => Some (VTyFloat v)
  | Infer (FieldVar v) => Some (VTyField v)
  | _ => None
  end.
Definition infer_var_changed (c : InferCtxt) (v : TyOrConstInferVar) : bool :=
  match v with
  | VTy v => bool_decide (is_Some (known v))
  | VTyInt v => bool_decide (is_Some (ut_probe_value (int_table c) v))
  | VTyFloat v => bool_decide (is_Some (ut_probe_value (float_table c) v))
  | VTyField v => bool_decide (is_Some (ut_probe_value (field_table c) v))
  end.

(** [FullTypeResolver::try_fold_ty] on a type whose value has no parts *)
Inductive FixupError := UnresolvedIntTy (v : Z) | UnresolvedFloatTy (v : Z) | UnresolvedFieldTy (v : Z) | UnresolvedTy (v : Z).
Definition fully_resolve_leaf (c : InferCtxt) (t : Ty) : outcome (Ty + FixupError) :=
  if negb (ty_has_infer t) then Ret (inl t)
  else
    let! t := shallow_resolve c t in
    match t with
    | Infer (TyVar v) => Ret (inr (UnresolvedTy v))
    | Infer (IntVar v) => Ret (inr (UnresolvedIntTy v))
    | Infer (FloatVar v) => Ret (inr (UnresolvedFloatTy v))
    | Infer (FieldVar v) => Ret (inr (UnresolvedFieldTy v))
    | Infer _ => Panic
    | _ => Ret (inl t)
    end.

(** ** Literals *)

Inductive Expectation :=
| NoExpectation | ExpectHasType (t : Ty) | ExpectCastableToType (t : Ty) | ExpectRvalueLikeUnsized (t : Ty).

(** [Expectation::to_option]; of the resolved type only the head is looked at *)
Definition expectation_to_option (c : InferCtxt) (e : Expectation) : outcome (option Ty) :=
  match e with
  | NoExpectation => Ret None
  | ExpectHasType t | ExpectCastableToType t | ExpectRvalueLikeUnsized t => let! t := shallow_resolve c t in Ret (Some t)
  end.

Definition re_static : Region := 0.
(** [Ty::new_imm_ref] with the static lifetime *)
Definition new_static_ref (t : Ty) : Ty := Ref re_static t MutNot.

(** [check_lit]; the type of the language item [CStr] is an argument *)
Definition check_lit (c_str : Ty) (c : InferCtxt) (lit : LitKind) (exp : Expectation) : outcome (InferCtxt * Ty) :=
  match lit with
  | LStr _ _ => Ret (c, new_static_ref Str)
  | LByteStr v _ => Ret (c, new_static_ref (Array (Uint Ui8) (mkConst (Uint Usize) (CValue (wrap 64 (Z.of_nat (length v)))))))
  | LByte _ => Ret (c, Uint Ui8)
  | LChar _ => Ret (c, Char)
  | LInt _ (Signed t) => Ret (c, Int t)
  | LInt _ (Unsigned t) => Ret (c, Uint t)
  | LInt _ Unsuffixed =>
      let! e := expectation_to_option c exp in
      let opt_ty := ty ← e; match ty with
        | Int _ | Uint _ => Some ty
        | Char => Some (Uint Ui8)
        | RawPtr _ _ => Some (Uint Usize)
        | FnDef _ _ | FnPtr _ _ _ _ => Some (Uint Usize)
        | _ => None
        end in
      Ret (match opt_ty with Some t => (c, t) | None => next_int_var c end)
  | LFloat _ (Suffixed t) => Ret (c, Float t)
  | LFloat _ FloatUnsuffixed =>
      let! e := expectation_to_option c exp in
      let opt_ty := ty ← e; match ty with Float _ => Some ty | _ => None end in
      Ret (match opt_ty with Some t => (c, t) | None => next_float_var c end)
  | LField _ =>
      let! e := expectation_to_option c exp in
      let opt_ty := ty ← e; match ty with Field _ => Some ty | _ => None end in
      Ret (match opt_ty with Some t => (c, t) | None => next_field_var c end)
  | LBool _ => Ret (c, Bool)
  | LCStr _ _ => Ret (c, new_static_ref c_str)
  | LErr => Ret (c, Error)
  end.
End resolve.

(** ** Fallback *)

(** [0..len] as the indices of variables without a value *)
Definition unsolved {V} `{UnificationTable V} (t : ut_table V) : list Z :=
  filter (λ v, ut_probe_value t v = None) ((λ i : nat, wrap 32 (Z.of_nat i)) <$> seq 0 (Z.to_nat (ut_len t))).

(** [InferCtxt::unsolved_variables], behind the unsolved type variables [tys] *)
Definition unsolved_variables (tys : list Z) (c : InferCtxt) : list Ty :=
  ((λ v, Infer (TyVar v)) <$> tys) ++ ((λ v, Infer (IntVar v)) <$> unsolved (int_table c)) ++ ((λ v, Infer (FloatVar v)) <$> unsolved (float_table c)).

(** What [fallback_if_possible] changes: the context, whether there were errors
    ([tainted_by_errors]), [fallback_has_occurred], and the mismatches that are reported *)
Record FnCtxt := mkFnCtxt { infcx : InferCtxt; tainted_by_errors : bool; fallback_has_occurred : bool; mismatches : list RelateError }.

Section fallback.
Context (next_trait_solver intercrate : bool).
Context (structurally_relate_tys : InferCtxt → bool → Ty → Ty → outcome (InferCtxt * (Ty + RelateError))).
(** [Equate::tys] on types that are not variables of numbers *)
Context (equate_other : InferCtxt → Ty → Ty → outcome (InferCtxt * (Ty + RelateError))).
(** [calculate_diverging_fallback], a map from type variables *)
Context (diverging_fallback : Z → option Ty).

(** [demand_eqtype] of a variable and a type that is not one *)
Definition demand_eqtype (f : FnCtxt) (ty fallback : Ty) : outcome FnCtxt :=
  let! (c, r) := match ty with
    | Infer (IntVar _ | FloatVar _ | FieldVar _) => super_combine_tys next_trait_solver intercrate structurally_relate_tys (infcx f) true ty fallback
    | _ => equate_other (infcx f) ty fallback
    end in
  Ret match r with
      | inl _ => mkFnCtxt c (tainted_by_errors f) (fallback_has_occurred f) (mismatches f)
      | inr e => mkFnCtxt c true (fallback_has_occurred f) (mismatches f ++ [e])
      end.

Definition fallback_if_possible (f : FnCtxt) (ty : Ty) : outcome FnCtxt :=
  let fallback :=
    if tainted_by_errors f then Some Error
    else match ty with
         | Infer (IntVar _) => Some (Int Si32)
         | Infer (FloatVar _) => Some (Float Fl64)
         | Infer (TyVar v) => diverging_fallback v
         | _ => None
         end in
  match fallback with
  | None => Ret f
  | Some fallback => let! f := demand_eqtype f ty fallback in Ret (mkFnCtxt (infcx f) (tainted_by_errors f) true (mismatches f))
  end.

(** The loop of [type_inference_fallback] *)
Fixpoint fallback_loop (f : FnCtxt) (tys : list Ty) : outcome FnCtxt :=
  match tys with
  | [] => Ret f
  | ty :: tys => let! f := fallback_if_possible f ty in fallback_loop f tys
  end.
End fallback.
End infer.
