(* ===== verification/InferProps.v ===== *)
(** Inference of the types of numbers is exact: relating types finds the solutions of the
    constraints and nothing else, and fallback gives a type to every integer and float. *)

From S2P Require Import Prelude.
From S2P Require Import Literal.
From S2P Require Import Fields.
From S2P Require Import FastReject.
From S2P Require Import Infer.
From S2P Require Import LiteralProps.
From S2P Require Import FieldsProps.

(** ** Tables as sets of solutions *)

(** A variable or a value *)
Inductive term (V : Type) := tvar (k : Z) | tval (v : V).
Arguments tvar {V} k.
Arguments tval {V} v.

Section table.
Context {V : Type} `{EqDecision V} `{UnificationTableLaws V}.
Implicit Types (t : ut_table V) (σ : Z → V).

(** What a table knows of an assignment *)
Definition respects t σ : Prop :=
  (∀ a b, ut_key t a → ut_key t b → ut_find t a = ut_find t b → σ a = σ b) ∧
  (∀ a x, ut_key t a → ut_probe_value t a = Some x → σ a = x).

Lemma find_probe t a b : ut_key t a → ut_key t b → ut_find t a = ut_find t b → ut_probe_value t a = ut_probe_value t b.
Proof. intros Ha Hb E. by rewrite <- (ut_probe_find t a), <- (ut_probe_find t b), E. Qed.

(** Variables without a value are free, class by class. *)
Definition solution t (f : Z → V) : Z → V := λ k, default (f (ut_find t k)) (ut_probe_value t k).

Lemma solution_respects t f : respects t (solution t f).
Proof.
  split; unfold solution.
  - intros a b Ha Hb E. by rewrite (find_probe t a b Ha Hb E), E.
  - intros a x _ ->. done.
Qed.

(** Two tables with the same keys, roots and values know the same. *)
Lemma respects_same t t' σ : ut_len t' = ut_len t →
  (∀ k, ut_key t k → ut_find t' k = ut_find t k ∧ ut_probe_value t' k = ut_probe_value t k) → respects t' σ ↔ respects t σ.
Proof.
  intros Hl Hk. assert (∀ k, ut_key t' k ↔ ut_key t k) as Hkey by (intros k; unfold ut_key; by rewrite Hl).
  split; intros [H1 H2]; split; setoid_rewrite Hkey in H1 || setoid_rewrite Hkey; setoid_rewrite Hkey in H2 || idtac.
  - intros c d Hc Hd F. apply H1; try done. by rewrite (proj1 (Hk _ Hc)), (proj1 (Hk _ Hd)).
  - intros c x Hc F. apply H2; [done|]. by rewrite (proj2 (Hk _ Hc)).
  - intros c d Hc Hd F. apply H1; try done. by rewrite <- (proj1 (Hk _ Hc)), <- (proj1 (Hk _ Hd)).
  - intros c x Hc F. apply H2; [done|]. by rewrite <- (proj2 (Hk _ Hc)).
Qed.

(** A merged class knows what both classes knew, and that they are equal. *)
Lemma respects_merge t t' r v a b σ : ut_key t a → ut_key t b → ut_len t' = ut_len t →
  (r = ut_find t a ∨ r = ut_find t b) →
  (ut_probe_value t a = None ∧ v = ut_probe_value t b ∨ ut_probe_value t a = v ∧ (ut_probe_value t b = None ∨ ut_probe_value t b = v)) →
  (∀ k, ut_key t k →
    if bool_decide (ut_find t k = ut_find t a ∨ ut_find t k = ut_find t b) then ut_find t' k = r ∧ ut_probe_value t' k = v
    else ut_find t' k = ut_find t k ∧ ut_probe_value t' k = ut_probe_value t k) →
  respects t' σ ↔ respects t σ ∧ σ a = σ b.
Proof.
  intros Ha Hb Hl Hr Hv Hk. assert (∀ k, ut_key t' k ↔ ut_key t k) as Hkey by (intros k; unfold ut_key; by rewrite Hl).
  split.
  - intros [H1 H2]. assert (σ a = σ b) as Hab.
    { apply H1; [by apply Hkey..|]. pose proof (Hk a Ha) as Ka. pose proof (Hk b Hb) as Kb.
      rewrite bool_decide_eq_true_2 in Ka, Kb by tauto. by destruct Ka as [-> _], Kb as [-> _]. }
    split; [|done]. split.
    + intros c d Hc Hd F. apply H1; [by apply Hkey..|]. specialize (Hk c Hc) as Kc. specialize (Hk d Hd) as Kd. rewrite <- F in Kd.
      case_bool_decide; [by destruct Kc as [-> _], Kd as [-> _]|]. destruct Kc as [-> _], Kd as [-> _]. done.
    + intros c x Hc F. specialize (Hk c Hc) as Kc. case_bool_decide as Hd; [|apply H2; [by apply Hkey|]; by destruct Kc as [_ ->]].
      apply H2; [by apply Hkey|]. destruct Kc as [_ ->].
      destruct Hd as [Hd|Hd]; apply find_probe in Hd; try done; rewrite F in Hd; intuition congruence.
  - intros [[H1 H2] Hab]. split.
    + intros c d Hc%Hkey Hd%Hkey F. specialize (Hk c Hc) as Kc. specialize (Hk d Hd) as Kd.
      assert (∀ k, ut_key t k → ut_find t k = ut_find t a ∨ ut_find t k = ut_find t b → σ k = σ a) as Hcl.
      { intros k Hkk [E|E]; [by apply H1|]. rewrite Hab. by apply H1. }
      assert (∀ k, ut_key t k → ut_find t k = r → ut_find t k = ut_find t a ∨ ut_find t k = ut_find t b) as Hroot by (intros k Hkk ->; tauto).
      case_bool_decide as C1; case_bool_decide as C2; destruct Kc as [Ec _], Kd as [Ed _].
      * by rewrite (Hcl c), (Hcl d).
      * exfalso. apply C2, Hroot; congruence.
      * exfalso. apply C1, Hroot; congruence.
      * apply H1; congruence.
    + intros c x Hc%Hkey F. specialize (Hk c Hc) as Kc. case_bool_decide as Hd; destruct Kc as [_ Ec]; [|apply H2; congruence].
      rewrite Ec in F. assert (σ a = x) as Hx by (destruct Hv as [[_ Hv]|[Hv _]]; [rewrite Hab|]; apply H2; congruence).
      destruct Hd as [Hd|Hd]; [rewrite <- Hx|rewrite <- Hx, Hab]; by apply H1.
Qed.

Lemma var_var_exact t a b : ut_key t a → ut_key t b →
  match ut_unify_var_var t a b with
  | inl t' => ut_len t' = ut_len t ∧ ∀ σ, respects t' σ ↔ respects t σ ∧ σ a = σ b
  | inr _ => ∀ σ, respects t σ → σ a ≠ σ b
  end.
Proof.
  intros Ha Hb. destruct (decide (ut_find t a = ut_find t b)) as [E|E].
  { destruct (ut_var_var_same t a b Ha Hb E) as (t' & -> & Hl & Hk). split; [done|]. intros σ. rewrite (respects_same t t') by done.
    split; [|tauto]. intros Hr. split; [done|]. by apply (proj1 Hr). }
  assert (∀ v, (ut_probe_value t a = None ∧ v = ut_probe_value t b ∨ ut_probe_value t a = v ∧ (ut_probe_value t b = None ∨ ut_probe_value t b = v)) →
    match ut_unify_var_var t a b with inl t' => ut_len t' = ut_len t ∧ ∀ σ, respects t' σ ↔ respects t σ ∧ σ a = σ b | inr _ => ∀ σ, respects t σ → σ a ≠ σ b end) as Hm.
  { intros v Hv. destruct (ut_var_var_merge t a b v Ha Hb E Hv) as (t' & r & -> & Hl & Hr & Hk). split; [done|]. intros σ. by eapply respects_merge. }
  destruct (ut_probe_value t a) as [x|] eqn:Ex; [|by apply (Hm (ut_probe_value t b)); left].
  destruct (ut_probe_value t b) as [y|] eqn:Ey; [|by apply (Hm (Some x)); right; split; [|left]].
  destruct (decide (x = y)) as [->|Hn]; [by apply (Hm (Some y)); right; split; [|right]|].
  rewrite (ut_var_var_error t a b x y) by done. intros σ [_ H2]. by rewrite (H2 a x), (H2 b y).
Qed.

Lemma var_value_exact t a y : ut_key t a →
  match ut_unify_var_value t a (Some y) with
  | inl t' => ut_len t' = ut_len t ∧ ∀ σ, respects t' σ ↔ respects t σ ∧ σ a = y
  | inr _ => ∀ σ, respects t σ → σ a ≠ y
  end.
Proof.
  intros Ha. destruct (decide (ut_probe_value t a = None ∨ ut_probe_value t a = Some y)) as [Hy|Hn].
  - destruct (ut_var_value_set t a y Ha Hy) as (t' & -> & Hl & Hk). split; [done|]. intros σ.
    assert (∀ k, ut_key t' k ↔ ut_key t k) as Hkey by (intros k; unfold ut_key; by rewrite Hl).
    split.
    + intros [H1 H2]. assert (σ a = y) as Hay.
      { apply H2; [by apply Hkey|]. rewrite (proj2 (Hk a Ha)). by rewrite bool_decide_eq_true_2. }
      split; [|done]. split.
      * intros c d Hc Hd F. apply H1; [by apply Hkey..|]. by rewrite (proj1 (Hk c Hc)), (proj1 (Hk d Hd)).
      * intros c x Hc F. destruct (Hk c Hc) as [Kc Kc']. case_bool_decide as C; [|apply H2; [by apply Hkey|congruence]].
        apply find_probe in C; [|done..]. rewrite F in C. destruct Hy as [Hy|Hy]; [congruence|].
        apply H2; [by apply Hkey|congruence].
    + intros [[H1 H2] Hay]. split.
      * intros c d Hc%Hkey Hd%Hkey F. apply H1; [done..|]. by rewrite <- (proj1 (Hk c Hc)), <- (proj1 (Hk d Hd)).
      * intros c x Hc%Hkey F. destruct (Hk c Hc) as [Kc Kc']. case_bool_decide as C; [|apply H2; congruence].
        rewrite <- (H1 c a) in Hay by done. congruence.
  - destruct (ut_probe_value t a) as [x|] eqn:Ex; [|tauto].
    rewrite (ut_var_value_error t a x y) by (done || naive_solver). intros σ [_ H2]. rewrite (H2 a x) by done. naive_solver.
Qed.

(** Relating two terms, one of them a variable *)
Definition unify_terms t (x y : term V) : ut_table V + V * V :=
  match x, y with
  | tvar a, tvar b => ut_unify_var_var t a b
  | tvar a, tval v | tval v, tvar a => ut_unify_var_value t a (Some v)
  | tval v, tval w => inr (v, w)
  end.
Definition term_key t (x : term V) : Prop := match x with tvar a => ut_key t a | tval _ => True end.
Definition term_value σ (x : term V) : V := match x with tvar a => σ a | tval v => v end.
Definition is_var (x : term V) : bool := match x with tvar _ => true | tval _ => false end.

Lemma unify_terms_exact t x y : term_key t x → term_key t y → is_var x || is_var y = true →
  match unify_terms t x y with
  | inl t' => ut_len t' = ut_len t ∧ ∀ σ, respects t' σ ↔ respects t σ ∧ term_value σ x = term_value σ y
  | inr _ => ∀ σ, respects t σ → term_value σ x ≠ term_value σ y
  end.
Proof.
  intros Hx Hy Hv. destruct x as [a|v], y as [b|w]; cbn in *; [by apply var_var_exact|by apply var_value_exact| |done].
  pose proof (var_value_exact t b v Hy) as Hb. destruct (ut_unify_var_value t b (Some v)) as [t'|]; [|naive_solver].
  destruct Hb as [? Hb]. split; [done|]. intros σ. rewrite Hb. naive_solver.
Qed.

(** The value of a term, or the root of its class *)
Definition resolve_term t (x : term V) : term V :=
  match x with
  | tvar a => match ut_probe_value t a with Some v => tval v | None => tvar (ut_find t a) end
  | tval v => tval v
  end.

(** Two terms are resolved to the same exactly if all solutions agree on them. *)
Lemma resolve_exact t x y (d d' : V) : d ≠ d' → term_key t x → term_key t y →
  resolve_term t x = resolve_term t y ↔ ∀ σ, respects t σ → term_value σ x = term_value σ y.
Proof.
  intros Hd Hx Hy. split.
  - intros E σ Hr. assert (∀ z, term_key t z → term_value σ z = match resolve_term t z with tvar k => σ k | tval v => v end) as Hz.
    { intros [k|v] Hk; cbn in *; [|done]. destruct (ut_probe_value t k) as [v|] eqn:Ep; [by apply (proj2 Hr)|].
      apply (proj1 Hr); [done|by apply ut_find_key|by rewrite ut_find_find]. }
    by rewrite (Hz x), (Hz y), E.
  - intros Hall. destruct (resolve_term t x) as [k|v] eqn:Ex, (resolve_term t y) as [l|w] eqn:Ey.
    all: assert (∀ f z, term_key t z → term_value (solution t f) z = match resolve_term t z with tvar k => f k | tval v => v end) as Hz
      by (intros f [m|u] Hk; cbn in *; [unfold solution; by destruct (ut_probe_value t m)|done]).
    + destruct (decide (k = l)) as [->|Hn]; [done|]. specialize (Hall _ (solution_respects t (λ m, if bool_decide (m = k) then d else d'))).
      rewrite !Hz, Ex, Ey in Hall by done. rewrite bool_decide_eq_true_2, bool_decide_eq_false_2 in Hall by done. done.
    + exfalso. destruct (decide (w = d)) as [->|Hn]; [specialize (Hall _ (solution_respects t (λ _, d')))|specialize (Hall _ (solution_respects t (λ _, d)))];
        rewrite !Hz, Ex, Ey in Hall by done; congruence.
    + exfalso. destruct (decide (v = d)) as [->|Hn]; [specialize (Hall _ (solution_respects t (λ _, d')))|specialize (Hall _ (solution_respects t (λ _, d)))];
        rewrite !Hz, Ex, Ey in Hall by done; congruence.
    + specialize (Hall _ (solution_respects t (λ _, d))). rewrite !Hz, Ex, Ey in Hall by done. congruence.
Qed.
End table.

(** ** Types of numbers *)

(** A type of a number: a variable of one of the three kinds, or a value *)
Inductive num_type := NInt (x : term IntVarValue) | NFloat (x : term FloatTy) | NField (x : term FieldTy.t).

Definition number_ty (n : num_type) : Ty :=
  match n with
  | NInt (tvar k) => Infer (IntVar k)
  | NInt (tval v) => int_to_type v
  | NFloat (tvar k) => Infer (FloatVar k)
  | NFloat (tval v) => float_to_type v
  | NField (tvar k) => Infer (FieldVar k)
  | NField (tval v) => field_to_type v
  end.

(** An assignment of types to the variables *)
Record assignment := mkAssignment { as_int : Z → IntVarValue; as_float : Z → FloatTy; as_field : Z → FieldTy.t }.

(** The type of a number under an assignment *)
Definition number_value (s : assignment) (n : num_type) : Ty :=
  match n with
  | NInt x => int_to_type (term_value (as_int s) x)
  | NFloat x => float_to_type (term_value (as_float s) x)
  | NField x => field_to_type (term_value (as_field s) x)
  end.

Definition has_var (n : num_type) : bool := match n with NInt x => is_var x | NFloat x => is_var x | NField x => is_var x end.

(** An assignment solves constraints if it makes the two types of each equal. *)
Definition solves (s : assignment) (pairs : list (num_type * num_type)) : Prop :=
  Forall (λ p, number_value s (fst p) = number_value s (snd p)) pairs.

Lemma solves_cons s m n pairs : solves s ((m, n) :: pairs) ↔ number_value s m = number_value s n ∧ solves s pairs.
Proof. apply Forall_cons_iff. Qed.

#[global] Instance int_to_type_inj : Inj (=) (=) int_to_type.
Proof. by intros [] [] [= ->]. Qed.
#[global] Instance float_to_type_inj : Inj (=) (=) float_to_type.
Proof. by intros ?? [= ->]. Qed.
#[global] Instance field_to_type_inj : Inj (=) (=) field_to_type.
Proof. by intros ?? [= ->]. Qed.

Section numbers.
Context `{UnificationTableLaws IntVarValue} `{UnificationTableLaws FloatTy} `{UnificationTableLaws FieldTy.t}.
Implicit Types (c : InferCtxt) (s : assignment) (n : num_type).

Definition ctxt_respects c s : Prop :=
  respects (int_table c) (as_int s) ∧ respects (float_table c) (as_float s) ∧ respects (field_table c) (as_field s).

Definition number_key c n : Prop :=
  match n with NInt x => term_key (int_table c) x | NFloat x => term_key (float_table c) x | NField x => term_key (field_table c) x end.

Definition same_keys c c' : Prop :=
  ut_len (int_table c') = ut_len (int_table c) ∧ ut_len (float_table c') = ut_len (float_table c) ∧ ut_len (field_table c') = ut_len (field_table c).

Lemma same_keys_number c c' n : same_keys c c' → number_key c n → number_key c' n.
Proof. intros (H1' & H2' & H3') Hn. destruct n as [[]|[]|[]]; cbn in *; unfold ut_key in *; try done; congruence. Qed.

(** The value of a number in a context, or its root variable *)
Definition resolve_number c (n : num_type) : Ty :=
  match n with
  | NInt (tvar k) => opportunistic_resolve_int_var c k
  | NFloat (tvar k) => opportunistic_resolve_float_var c k
  | NField (tvar k) => opportunistic_resolve_field_var c k
  | _ => number_ty n
  end.

Definition resolve_number' c (n : num_type) : num_type :=
  match n with
  | NInt x => NInt (resolve_term (int_table c) x)
  | NFloat x => NFloat (resolve_term (float_table c) x)
  | NField x => NField (resolve_term (field_table c) x)
  end.

Lemma resolve_number_term c n : resolve_number c n = number_ty (resolve_number' c n).
Proof.
  destruct n as [[k|]|[k|]|[k|]]; cbn; try done; unfold opportunistic_resolve_int_var, opportunistic_resolve_float_var, opportunistic_resolve_field_var;
    by case_match.
Qed.

#[local] Instance number_ty_inj : Inj (=) (=) number_ty.
Proof. intros [[k|[]]|[k|]|[k|]] [[l|[]]|[l|]|[l|]] E; cbn in E; unfold float_to_type, field_to_type in E; by simplify_eq. Qed.

Section relations.
Context (next_trait_solver intercrate : bool).
Context (structural : InferCtxt → bool → Ty → Ty → outcome (InferCtxt * (Ty + RelateError))).
Abbreviation combine := (super_combine_tys next_trait_solver intercrate structural).

(** Numbers of the same kind are related through their table, others are not. *)
Lemma combine_numbers c x m n : has_var m || has_var n = true →
  ∃ c' r, combine c x (number_ty m) (number_ty n) = Ret (c', r) ∧
    match m, n with
    | NInt a, NInt b => match unify_terms (int_table c) a b with inl t => c' = with_int c t ∧ ∃ u, r = inl u | inr _ => c' = c ∧ ∃ e, r = inr e end
    | NFloat a, NFloat b => match unify_terms (float_table c) a b with inl t => c' = with_float c t ∧ ∃ u, r = inl u | inr _ => c' = c ∧ ∃ e, r = inr e end
    | NField a, NField b => match unify_terms (field_table c) a b with inl t => c' = with_field c t ∧ ∃ u, r = inl u | inr _ => c' = c ∧ ∃ e, r = inr e end
    | _, _ => c' = c ∧ ∃ e, r = inr e
    end.
Proof.
  destruct m as [[k|[]]|[k|]|[k|]], n as [[l|[]]|[l|]|[l|]]; cbn; intros Hv; try done;
    unfold combine_other_tys, unify_integral_variable, unify_float_variable, unify_field_variable; cbn; rewrite ?andb_false_r; cbn;
    try case_match; eauto 10.
Qed.

(** Relating two numbers adds their equality to what the context knows, or fails if the
    context has no solution with it. *)
Lemma combine_exact c x m n : number_key c m → number_key c n → has_var m || has_var n = true →
  ∃ c' r, combine c x (number_ty m) (number_ty n) = Ret (c', r) ∧ same_keys c c' ∧
    match r with
    | inl _ => ∀ s, ctxt_respects c' s ↔ ctxt_respects c s ∧ number_value s m = number_value s n
    | inr _ => c' = c ∧ ∀ s, ctxt_respects c s → number_value s m ≠ number_value s n
    end.
Proof.
  intros Hm Hn Hv. destruct (combine_numbers c x m n Hv) as (c' & r & E & Hr). exists c', r. split; [done|].
  destruct m as [a|a|a], n as [b|b|b]; cbn in Hm, Hn, Hv.
  all: try (destruct Hr as [-> [e ->]]; split; [done|]; split; [done|]; intros s _; cbn; destruct (term_value _ a), (term_value _ b); done).
  - pose proof (unify_terms_exact (int_table c) a b Hm Hn Hv) as Hu.
    destruct (unify_terms (int_table c) a b) as [t|]; destruct Hr as [-> [u ->]].
    + destruct Hu as [Hl Hu]. split; [done|]. intros s. unfold ctxt_respects. cbn. rewrite Hu. split; [intros ((? & E') & ?); split; [done|by f_equal]|].
      intros ((? & ?) & E'). split; [|done]. split; [done|]. by apply (inj int_to_type).
    + split; [done|]. split; [done|]. intros s (Hi & _) E'. by apply (Hu _ Hi), (inj int_to_type).
  - pose proof (unify_terms_exact (float_table c) a b Hm Hn Hv) as Hu.
    destruct (unify_terms (float_table c) a b) as [t|]; destruct Hr as [-> [u ->]].
    + destruct Hu as [Hl Hu]. split; [done|]. intros s. unfold ctxt_respects. cbn. rewrite Hu. split; [intros (? & (? & E') & ?); split; [done|by f_equal]|].
      intros ((? & ? & ?) & E'). split; [done|]. split; [|done]. split; [done|]. by apply (inj float_to_type).
    + split; [done|]. split; [done|]. intros s (_ & Hi & _) E'. by apply (Hu _ Hi), (inj float_to_type).
  - pose proof (unify_terms_exact (field_table c) a b Hm Hn Hv) as Hu.
    destruct (unify_terms (field_table c) a b) as [t|]; destruct Hr as [-> [u ->]].
    + destruct Hu as [Hl Hu]. split; [done|]. intros s. unfold ctxt_respects. cbn. rewrite Hu. split; [intros (? & ? & (? & E')); split; [done|by f_equal]|].
      intros ((? & ? & ?) & E'). split; [done|]. split; [done|]. split; [done|]. by apply (inj field_to_type).
    + split; [done|]. split; [done|]. intros s (_ & _ & Hi) E'. by apply (Hu _ Hi), (inj field_to_type).
Qed.

Lemma combine_all_exact c pairs :
  Forall (λ p, number_key c (fst p) ∧ number_key c (snd p) ∧ has_var (fst p) || has_var (snd p) = true) pairs →
  ∃ c' r, combine_all next_trait_solver intercrate structural c ((λ p, (number_ty (fst p), number_ty (snd p))) <$> pairs) = Ret (c', r) ∧ same_keys c c' ∧
    match r with
    | None => ∀ s, ctxt_respects c' s ↔ ctxt_respects c s ∧ solves s pairs
    | Some _ => ∀ s, ctxt_respects c s → ~ solves s pairs
    end.
Proof.
  revert c. induction pairs as [|[m n] pairs IH]; intros c Hp.
  { exists c, None. split; [done|]. split; [done|]. intros s. split; [|tauto]. intros. split; [done|constructor]. }
  apply Forall_cons_iff in Hp as [(Hm & Hn & Hv) Hp]. cbn in Hm, Hn, Hv.
  destruct (combine_exact c true m n Hm Hn Hv) as (c1 & r1 & E1 & Hk1 & Hr1). cbn [fmap list_fmap combine_all fst snd]. rewrite E1. cbn [obind].
  destruct r1 as [u|e]; [|exists c1, (Some e); split; [done|]; split; [done|]; intros s Hs [Hs' _]%solves_cons; by apply Hr1 in Hs'].
  destruct (IH c1) as (c' & r & E & Hk & Hr).
  { eapply Forall_impl; [|done]. cbn. intros p (? & ? & ?). split_and!; try done; by eapply same_keys_number. }
  exists c', r. split; [done|]. split; [unfold same_keys in *; intuition congruence|].
  destruct r as [e|]; [intros s Hs [Hs1 Hs2]%solves_cons; apply (Hr s); [by apply Hr1|done]|].
  intros s. rewrite Hr, Hr1, solves_cons. tauto.
Qed.

(** Contexts whose numbers resolve to the same exactly if all solutions agree on them *)
Lemma resolve_number_exact c m n : number_key c m → number_key c n →
  resolve_number c m = resolve_number c n ↔ ∀ s, ctxt_respects c s → number_value s m = number_value s n.
Proof.
  intros Hm Hn. rewrite !resolve_number_term.
  assert (∀ f g h, ctxt_respects c (mkAssignment (solution (int_table c) f) (solution (float_table c) g) (solution (field_table c) h))) as Hsol
    by (intros; split_and!; apply solution_respects).
  set (f0 := λ _ : Z, IntType Si32). set (g0 := λ _ : Z, Fl32). set (h0 := λ _ : Z, FieldTy.PallasBase).
  assert (IntType Si32 ≠ IntType Si8) as D1 by done. assert (Fl32 ≠ Fl64) as D2 by done. assert (FieldTy.PallasBase ≠ FieldTy.PallasScalar) as D3 by done.
  split.
  - intros E. apply (inj number_ty) in E. intros s (H1' & H2' & H3'). destruct m as [a|a|a], n as [b|b|b]; cbn in E; simplify_eq; cbn in *; f_equal.
    + by apply (resolve_exact _ _ _ _ _ D1 Hm Hn).
    + by apply (resolve_exact _ _ _ _ _ D2 Hm Hn).
    + by apply (resolve_exact _ _ _ _ _ D3 Hm Hn).
  - intros Hall. f_equal. destruct m as [a|a|a], n as [b|b|b]; cbn in Hm, Hn |- *.
    all: try (specialize (Hall _ (Hsol f0 g0 h0)); cbn in Hall; destruct (term_value _ a), (term_value _ b); done).
    all: f_equal.
    + apply (resolve_exact _ _ _ _ _ D1 Hm Hn). intros σ Hσ. apply (inj int_to_type).
      apply (Hall (mkAssignment σ (solution (float_table c) g0) (solution (field_table c) h0))). split_and!; [done|apply solution_respects..].
    + apply (resolve_exact _ _ _ _ _ D2 Hm Hn). intros σ Hσ. apply (inj float_to_type).
      apply (Hall (mkAssignment (solution (int_table c) f0) σ (solution (field_table c) h0))). split_and!; [apply solution_respects|done|apply solution_respects].
    + apply (resolve_exact _ _ _ _ _ D3 Hm Hn). intros σ Hσ. apply (inj field_to_type).
      apply (Hall (mkAssignment (solution (int_table c) f0) (solution (float_table c) g0) σ)). split_and!; [apply solution_respects..|done].
Qed.
End relations.

(** ** Contexts with new variables *)

Definition new_vars (ni nf nd : nat) : InferCtxt :=
  Nat.iter nd (λ c, fst (next_field_var c)) (Nat.iter nf (λ c, fst (next_float_var c)) (Nat.iter ni (λ c, fst (next_int_var c)) InferCtxt_new)).

Definition new_number (ni nf nd : nat) (m : num_type) : Prop :=
  match m with
  | NInt (tvar k) => 0 ≤ k < Z.of_nat ni
  | NFloat (tvar k) => 0 ≤ k < Z.of_nat nf
  | NField (tvar k) => 0 ≤ k < Z.of_nat nd
  | _ => True
  end.

(** A table after [n] new keys without a value: every key is its own root. *)
Definition blank {V} `{UnificationTable V} (t : ut_table V) (n : nat) : Prop :=
  ut_len t = Z.of_nat n ∧ ∀ k, ut_key t k → ut_find t k = k ∧ ut_probe_value t k = None.

Lemma blank_new {V} `{UnificationTableLaws V} : blank (ut_new : ut_table V) 0.
Proof. split; [apply ut_len_new|]. intros k Hk. unfold ut_key in Hk. rewrite ut_len_new in Hk. lia. Qed.

Lemma blank_next {V} `{UnificationTableLaws V} (t : ut_table V) (n : nat) : blank t n → blank (fst (ut_new_key t None)) (S n).
Proof.
  intros [Hl Hk]. destruct (ut_new_key_spec t None) as (t' & -> & Hl' & Hf & Hp & Hold). cbn. split; [lia|].
  intros k Hk'. destruct (decide (k = ut_len t)) as [->|]; [done|]. assert (ut_key t k) as Hkk by (unfold ut_key in *; lia).
  destruct (Hold k Hkk) as [-> ->]. by apply Hk.
Qed.

Lemma blank_respects {V} `{UnificationTable V} (t : ut_table V) (n : nat) σ : blank t n → respects t σ.
Proof. intros [_ Hk]. split; [intros a b Ha Hb; by rewrite (proj1 (Hk a Ha)), (proj1 (Hk b Hb)); intros ->|intros a x Ha; by rewrite (proj2 (Hk a Ha))]. Qed.

Definition blank_ctxt c (ni nf nd : nat) : Prop := blank (int_table c) ni ∧ blank (float_table c) nf ∧ blank (field_table c) nd.

Lemma blank_next_int c ni nf nd : blank_ctxt c ni nf nd → blank_ctxt (fst (next_int_var c)) (S ni) nf nd.
Proof. intros (H1' & H2' & H3'). apply blank_next in H1'. unfold next_int_var. by destruct (ut_new_key (int_table c) None). Qed.
Lemma blank_next_float c ni nf nd : blank_ctxt c ni nf nd → blank_ctxt (fst (next_float_var c)) ni (S nf) nd.
Proof. intros (H1' & H2' & H3'). apply blank_next in H2'. unfold next_float_var. by destruct (ut_new_key (float_table c) None). Qed.
Lemma blank_next_field c ni nf nd : blank_ctxt c ni nf nd → blank_ctxt (fst (next_field_var c)) ni nf (S nd).
Proof. intros (H1' & H2' & H3'). apply blank_next in H3'. unfold next_field_var. by destruct (ut_new_key (field_table c) None). Qed.

Lemma new_vars_blank ni nf nd : blank_ctxt (new_vars ni nf nd) ni nf nd.
Proof.
  unfold new_vars. induction nd as [|nd IH]; cbn [Nat.iter nat_rect]; [|by apply blank_next_field].
  induction nf as [|nf IH]; cbn [Nat.iter nat_rect]; [|by apply blank_next_float].
  induction ni as [|ni IH]; cbn [Nat.iter nat_rect]; [|by apply blank_next_int].
  split_and!; apply blank_new.
Qed.

Lemma new_number_key ni nf nd m : new_number ni nf nd m → number_key (new_vars ni nf nd) m.
Proof.
  destruct (new_vars_blank ni nf nd) as ([E1 _] & [E2 _] & [E3 _]).
  destruct m as [[]|[]|[]]; cbn; unfold ut_key; rewrite ?E1, ?E2, ?E3; done.
Qed.
End numbers.

(** C11. Inference of the types of numbers is exact: relating, in any order, types of
    integers, floats and fields with variables fails exactly if no assignment of types to
    the variables makes all the pairs equal; and otherwise the tables hold the most general
    solution: two types, variables or not, are resolved to the same type or variable
    exactly if every solution makes them equal, so that in particular a variable has a
    type exactly if all solutions give it that type. *)
Theorem number_inference_exact `{UnificationTableLaws IntVarValue} `{UnificationTableLaws FloatTy} `{UnificationTableLaws FieldTy.t}
    next_trait_solver intercrate structural (ni nf nd : nat) (pairs : list (num_type * num_type)) :
  Forall (λ p, new_number ni nf nd (fst p) ∧ new_number ni nf nd (snd p) ∧ has_var (fst p) || has_var (snd p) = true) pairs →
  ∃ c r, combine_all next_trait_solver intercrate structural (new_vars ni nf nd) ((λ p, (number_ty (fst p), number_ty (snd p))) <$> pairs) = Ret (c, r) ∧
    match r with
    | None =>
        (∃ s, solves s pairs) ∧
        ∀ m n, new_number ni nf nd m → new_number ni nf nd n →
          resolve_number c m = resolve_number c n ↔ ∀ s, solves s pairs → number_value s m = number_value s n
    | Some _ => ~ ∃ s, solves s pairs
    end.
Proof.
  intros Hp. destruct (combine_all_exact next_trait_solver intercrate structural (new_vars ni nf nd) pairs) as (c & r & E & Hk & Hr).
  { eapply Forall_impl; [|done]. cbn. intros p (? & ? & ?). split_and!; try done; by apply new_number_key. }
  exists c, r. split; [done|]. destruct (new_vars_blank ni nf nd) as (B1 & B2 & B3).
  assert (∀ s, ctxt_respects (new_vars ni nf nd) s) as Hnew by (intros s; split_and!; by eapply blank_respects).
  destruct r as [e|]; [intros [s Hs]; by apply (Hr s)|]. split.
  - exists (mkAssignment (solution (int_table c) (λ _, IntType Si32)) (solution (float_table c) (λ _, Fl64)) (solution (field_table c) (λ _, FieldTy.PallasBase))).
    apply Hr. split_and!; apply solution_respects.
  - intros m n Hm%new_number_key Hn%new_number_key. rewrite resolve_number_exact by (by eapply same_keys_number).
    setoid_rewrite Hr. naive_solver.
Qed.

(** ** Fallback *)

Section filled.
Context {V : Type} `{EqDecision V} `{UnificationTableLaws V}.
Implicit Types t : ut_table V.

(** [t'] is [t] with the value [d] for some classes that had none. *)
Definition filled (d : V) t t' : Prop :=
  ut_len t' = ut_len t ∧
  ∀ k, ut_key t k → ut_find t' k = ut_find t k ∧
    (ut_probe_value t' k = ut_probe_value t k ∨ ut_probe_value t k = None ∧ ut_probe_value t' k = Some d).

Lemma filled_refl d t : filled d t t.
Proof. split; [done|]. eauto. Qed.

Lemma filled_step d t t1 v : filled d t t1 → ut_key t v → ut_probe_value t v = None →
  ∃ t2, ut_unify_var_value t1 v (Some d) = inl t2 ∧ filled d t t2 ∧ ut_probe_value t2 v = Some d ∧
    ∀ k, ut_key t k → ut_probe_value t1 k = Some d → ut_probe_value t2 k = Some d.
Proof.
  intros [Hl Hf] Hv Hp. assert (∀ k, ut_key t k → ut_key t1 k) as Hkey by (intros k; unfold ut_key; by rewrite Hl).
  destruct (ut_var_value_set t1 v d) as (t2 & E & Hl2 & Hk2); [by apply Hkey|destruct (Hf v Hv) as [_ [E|[_ E]]]; rewrite E; auto|].
  exists t2. split; [done|]. split; [split; [congruence|]|].
  - intros k Hk. destruct (Hk2 k (Hkey k Hk)) as [Ef Ep]. destruct (Hf k Hk) as [Ef' Ep']. split; [congruence|]. rewrite Ep.
    case_bool_decide as C; [|done]. right. split; [|done]. rewrite Ef', (proj1 (Hf v Hv)) in C. by rewrite (find_probe t k v).
  - split; [rewrite (proj2 (Hk2 v (Hkey v Hv))); by rewrite bool_decide_eq_true_2|].
    intros k Hk Ek. rewrite (proj2 (Hk2 k (Hkey k Hk))), Ek. by case_bool_decide.
Qed.

Lemma elem_unsolved t v : ut_len t ≤ 2 ^ 32 → v ∈ unsolved t ↔ ut_key t v ∧ ut_probe_value t v = None.
Proof.
  intros Hl. unfold unsolved. rewrite list_elem_of_filter, list_elem_of_fmap. setoid_rewrite elem_of_seq. unfold ut_key. split.
  - intros [Hp (i & -> & Hi)]. unfold wrap in *. rewrite Z.mod_small by lia. rewrite Z.mod_small in Hp by lia. split; [lia|done].
  - intros [Hk Hp]. split; [done|]. exists (Z.to_nat v). unfold wrap. rewrite Z.mod_small by lia. lia.
Qed.

(** A filled table in which every variable that was unsolved has the value *)
Lemma filled_all d t t' : ut_len t ≤ 2 ^ 32 → filled d t t' → (∀ v, v ∈ unsolved t → ut_probe_value t' v = Some d) →
  ∀ k, ut_key t k → ut_probe_value t' k = Some (default d (ut_probe_value t k)).
Proof.
  intros Hl [_ Hf] Hall k Hk. destruct (ut_probe_value t k) as [x|] eqn:E; cbn.
  - destruct (Hf k Hk) as [_ [->|[]]]; congruence.
  - by apply Hall, elem_unsolved.
Qed.
End filled.

Section fallback.
Context `{UnificationTableLaws IntVarValue} `{UnificationTableLaws FloatTy} `{UnificationTableLaws FieldTy.t}.
Context (next_trait_solver intercrate : bool).
Context (structural : InferCtxt → bool → Ty → Ty → outcome (InferCtxt * (Ty + RelateError))).
Context (equate_other : InferCtxt → Ty → Ty → outcome (InferCtxt * (Ty + RelateError))) (diverging : Z → option Ty).
Abbreviation loop := (fallback_loop next_trait_solver intercrate structural equate_other diverging).

Lemma fallback_ints c0 c occ vs tys : filled (IntType Si32) (int_table c0) (int_table c) →
  (∀ v, v ∈ vs → ut_key (int_table c0) v ∧ ut_probe_value (int_table c0) v = None) →
  ∃ t occ', loop (mkFnCtxt c false occ []) (((λ v, Infer (IntVar v)) <$> vs) ++ tys) = loop (mkFnCtxt (with_int c t) false occ' []) tys ∧
    filled (IntType Si32) (int_table c0) t ∧ (∀ v, v ∈ vs → ut_probe_value t v = Some (IntType Si32)) ∧
    (∀ k, ut_key (int_table c0) k → ut_probe_value (int_table c) k = Some (IntType Si32) → ut_probe_value t k = Some (IntType Si32)).
Proof.
  revert c occ. induction vs as [|v vs IH]; intros c occ Hf Hvs.
  { exists (int_table c), occ. destruct c. split; [done|]. split_and!; [done|by intros v ?%elem_of_nil|done]. }
  destruct (Hvs v) as [Hk Hp]; [apply elem_of_cons; auto|]. destruct (filled_step _ _ _ v Hf Hk Hp) as (t2 & E & Hf2 & Hd & Hkeep).
  destruct (IH (with_int c t2) true Hf2) as (t & occ' & El & Hft & Hall & Hkeep'); [intros w Hw; apply Hvs, elem_of_cons; auto|].
  exists t, occ'. split; [|split_and!; [done| |eauto]].
  - cbn [fmap list_fmap app fallback_loop]. unfold fallback_if_possible, demand_eqtype. cbn. unfold unify_integral_variable. rewrite E. cbn. apply El.
  - intros w [->|Hw]%elem_of_cons; [by apply Hkeep'|by apply Hall].
Qed.

Lemma fallback_floats c0 c occ vs tys : filled Fl64 (float_table c0) (float_table c) →
  (∀ v, v ∈ vs → ut_key (float_table c0) v ∧ ut_probe_value (float_table c0) v = None) →
  ∃ t occ', loop (mkFnCtxt c false occ []) (((λ v, Infer (FloatVar v)) <$> vs) ++ tys) = loop (mkFnCtxt (with_float c t) false occ' []) tys ∧
    filled Fl64 (float_table c0) t ∧ (∀ v, v ∈ vs → ut_probe_value t v = Some Fl64) ∧
    (∀ k, ut_key (float_table c0) k → ut_probe_value (float_table c) k = Some Fl64 → ut_probe_value t k = Some Fl64).
Proof.
  revert c occ. induction vs as [|v vs IH]; intros c occ Hf Hvs.
  { exists (float_table c), occ. destruct c. split; [done|]. split_and!; [done|by intros v ?%elem_of_nil|done]. }
  destruct (Hvs v) as [Hk Hp]; [apply elem_of_cons; auto|]. destruct (filled_step _ _ _ v Hf Hk Hp) as (t2 & E & Hf2 & Hd & Hkeep).
  destruct (IH (with_float c t2) true Hf2) as (t & occ' & El & Hft & Hall & Hkeep'); [intros w Hw; apply Hvs, elem_of_cons; auto|].
  exists t, occ'. split; [|split_and!; [done| |eauto]].
  - cbn [fmap list_fmap app fallback_loop]. unfold fallback_if_possible, demand_eqtype. cbn. unfold unify_float_variable. rewrite E. cbn. apply El.
  - intros w [->|Hw]%elem_of_cons; [by apply Hkeep'|by apply Hall].
Qed.

Lemma resolve_int_leaf known c v : fully_resolve_leaf known c (Infer (IntVar v)) =
  Ret (match ut_probe_value (int_table c) v with Some x => inl (int_to_type x) | None => inr (UnresolvedIntTy v) end).
Proof. unfold fully_resolve_leaf, shallow_resolve. cbn. by destruct (ut_probe_value (int_table c) v) as [[]|]. Qed.
Lemma resolve_float_leaf known c v : fully_resolve_leaf known c (Infer (FloatVar v)) =
  Ret (match ut_probe_value (float_table c) v with Some x => inl (float_to_type x) | None => inr (UnresolvedFloatTy v) end).
Proof. unfold fully_resolve_leaf, shallow_resolve. cbn. by destruct (ut_probe_value (float_table c) v). Qed.
Lemma resolve_field_leaf known c v : fully_resolve_leaf known c (Infer (FieldVar v)) =
  Ret (match ut_probe_value (field_table c) v with Some x => inl (field_to_type x) | None => inr (UnresolvedFieldTy v) end).
Proof. unfold fully_resolve_leaf, shallow_resolve. cbn. by destruct (ut_probe_value (field_table c) v). Qed.
End fallback.

(** C12. Fallback gives every integer and every float a type, and no field: without errors
    and unsolved type variables, the loop over the unsolved variables reports no mismatch;
    then each integer variable resolves to the type it was inferred to have, or to [i32],
    each float variable to its type or to [f64]; a field variable keeps its type if it has
    one, and otherwise its resolution fails with the error that asks for an explicit
    type. *)
Theorem number_fallback_exact `{UnificationTableLaws IntVarValue} `{UnificationTableLaws FloatTy} `{UnificationTableLaws FieldTy.t}
    next_trait_solver intercrate structural equate_other diverging known c occ :
  ut_len (int_table c) ≤ 2 ^ 32 → ut_len (float_table c) ≤ 2 ^ 32 →
  ∃ f, fallback_loop next_trait_solver intercrate structural equate_other diverging (mkFnCtxt c false occ []) (unsolved_variables [] c) = Ret f ∧
    mismatches f = [] ∧
    (∀ v, ut_key (int_table c) v →
      fully_resolve_leaf known (infcx f) (Infer (IntVar v)) = Ret (inl (int_to_type (default (IntType Si32) (ut_probe_value (int_table c) v))))) ∧
    (∀ v, ut_key (float_table c) v →
      fully_resolve_leaf known (infcx f) (Infer (FloatVar v)) = Ret (inl (Float (default Fl64 (ut_probe_value (float_table c) v))))) ∧
    (∀ v, fully_resolve_leaf known (infcx f) (Infer (FieldVar v)) =
      Ret (match ut_probe_value (field_table c) v with Some t => inl (Field t) | None => inr (UnresolvedFieldTy v) end)).
Proof.
  intros Hi Hf. unfold unsolved_variables. cbn [fmap list_fmap app].
  destruct (fallback_ints next_trait_solver intercrate structural equate_other diverging c c occ (unsolved (int_table c)) ((λ v, Infer (FloatVar v)) <$> unsolved (float_table c)))
    as (ti & occ1 & E1 & F1 & A1 & _); [apply filled_refl|by intros v ?%elem_unsolved|].
  destruct (fallback_floats next_trait_solver intercrate structural equate_other diverging c (with_int c ti) occ1 (unsolved (float_table c)) [])
    as (tf & occ2 & E2 & F2 & A2 & _); [apply filled_refl|by intros v ?%elem_unsolved|].
  rewrite app_nil_r in E2. exists (mkFnCtxt (with_float (with_int c ti) tf) false occ2 []). split; [by rewrite E1, E2|]. cbn [infcx mismatches].
  split_and!; [done| | |intros v; by rewrite resolve_field_leaf].
  - intros v Hv. rewrite resolve_int_leaf. cbn. by rewrite (filled_all (IntType Si32) (int_table c) ti).
  - intros v Hv. rewrite resolve_float_leaf. cbn. by rewrite (filled_all Fl64 (float_table c) tf).
Qed.

(** ** Literals *)

(** The type of a literal as the conversion to constants looks at it *)
Definition lit_ty_kind (c_str_def : DefId) (t : Ty) : TyKind :=
  match t with
  | Int t => TyInt t | Uint t => TyUint t | Float t => TyFloat t | Field t => TyField t | Bool => TyBool | Char => TyChar
  | Ref _ Str _ => TyRefStr
  | Ref _ (Array (Uint Ui8) _) _ => TyRefArray
  | Ref _ (Slice (Uint Ui8)) _ => TyRefSlice
  | Ref _ (Adt d _) _ => if d =? c_str_def then TyRefCStr else TyOther
  | _ => TyOther
  end.

Section literals.
Context `{UnificationTableLaws IntVarValue} `{UnificationTableLaws FloatTy} `{UnificationTableLaws FieldTy.t}.

(** The type of a literal of a number: a type of its kind, or a variable of its kind *)
Definition lit_type_ok (c_str_def : DefId) (lit : LitKind) (t : Ty) : Prop :=
  match lit with
  | LInt _ _ => (∃ x, t = Int x) ∨ (∃ x, t = Uint x) ∨ (∃ v, t = Infer (IntVar v))
  | LFloat _ _ => (∃ x, t = Float x) ∨ (∃ v, t = Infer (FloatVar v))
  | LField _ => (∃ x, t = Field x) ∨ (∃ v, t = Infer (FieldVar v))
  | LStr _ _ => t = new_static_ref Str
  | LByteStr _ _ => ∃ n, t = new_static_ref (Array (Uint Ui8) (mkConst (Uint Usize) (CValue n)))
  | LCStr _ _ => t = new_static_ref (Adt c_str_def [])
  | LByte _ => t = Uint Ui8
  | LChar _ => t = Char
  | LBool _ => t = Bool
  | LErr => t = Error
  end.

Lemma check_lit_ok known c_str_def c lit exp c' t : check_lit known (Adt c_str_def []) c lit exp = Ret (c', t) → lit_type_ok c_str_def lit t.
Proof.
  destruct lit as [| | | | |n []|s []|s| |]; cbn [check_lit lit_type_ok]; intros E; inv_outcome; eauto 10.
  all: unfold next_int_var, next_float_var, next_field_var in *; repeat case_match; simplify_eq; eauto 10.
  all: destruct a; cbn in *; simplify_option_eq; repeat case_match; simplify_eq; eauto 10.
Qed.

Lemma resolved_ok known c_str_def c lit ty t : lit_type_ok c_str_def lit ty → fully_resolve_leaf known c ty = Ret (inl t) →
  lit_type_ok c_str_def lit t ∧ ty_has_infer t = false.
Proof.
  destruct lit; cbn [lit_type_ok]; intros Hok E; destruct_or?; repeat match goal with Hx : ∃ _, _ |- _ => destruct Hx as [? Hx] end; subst.
  all: rewrite ?resolve_int_leaf, ?resolve_float_leaf, ?resolve_field_leaf in E; repeat case_match; simplify_eq; eauto 10.
  all: try (cbn in E; simplify_eq; eauto 10).
  all: match goal with |- context [int_to_type ?i] => destruct i end; cbn; eauto 10.
Qed.
End literals.

(** C13. A literal that type checking accepts has a constant: whatever type was expected of
    a literal and whatever was inferred in the meantime, the type that the literal has in
    the end is one that the conversion to a constant accepts, so that the conversion never
    fails with a mismatch of types. In particular a field literal gets a field type, and an
    integer literal a signed or unsigned one, even where the expected type is another. *)
Theorem literal_has_constant `{UnificationTableLaws IntVarValue} `{UnificationTableLaws FloatTy} `{UnificationTableLaws FieldTy.t} `{BigUintApi} `{U384Api}
    known c_str_def c1 c2 c' lit exp ty t pointer_width parse_float neg :
  check_lit known (Adt c_str_def []) c1 lit exp = Ret (c', ty) → fully_resolve_leaf known c2 ty = Ret (inl t) →
  lit_to_mir_constant pointer_width parse_float lit (lit_ty_kind c_str_def t) neg ≠ Ret (inr TypeError).
Proof.
  intros E1%check_lit_ok E2. destruct (resolved_ok _ _ _ _ _ _ E1 E2) as [Hok Hinf]. clear E1 E2.
  destruct lit; cbn [lit_type_ok] in Hok; destruct_or?; repeat match goal with Hx : ∃ _, _ |- _ => destruct Hx as [? Hx] end; subst; try done; cbn.
  all: rewrite ?Z.eqb_refl; try done.
  all: intros E; inv_outcome; repeat case_match; simplify_eq.
Qed.

(** ** Variables that changed *)

(** [ty_or_const_infer_var_changed] is what its documentation says it is: whether shallow
    resolution changes the variable. *)
Lemma infer_var_changed_spec `{UnificationTableLaws IntVarValue} `{UnificationTableLaws FloatTy} `{UnificationTableLaws FieldTy.t} known c ty v :
  (∀ v t, known v = Some t → ∃ u, shallow_fold_ty known 1 c t = Ret u ∧ ∀ w, u ≠ Infer (TyVar w)) →
  maybe_from_ty ty = Some v → infer_var_changed known c v = true ↔ ∃ u, shallow_resolve known c ty = Ret u ∧ u ≠ ty.
Proof.
  intros Hknown Hv. unfold shallow_resolve, infer_var_changed.
  destruct ty as [| | | | | | | | | | | | | | | | | | | | | | | | | | |[n|n|n|n|n|n|n|n]|]; cbn in Hv; simplify_eq; rewrite bool_decide_eq_true.
  - cbn [shallow_fold_ty]. destruct (known n) as [t|] eqn:E.
    + destruct (Hknown n t E) as (u & Eu & Hu). split; [|eauto]. intros _. exists u. split; [exact Eu|apply Hu].
    + split; [by intros []|]. intros (u & [= <-] & Hn). done.
  - cbn. destruct (ut_probe_value (int_table c) n) as [x|]; cbn; [split; [|eauto]; intros _; eexists; split; [done|by destruct x]|].
    split; [by intros []|]. intros (u & [= <-] & Hn). done.
  - cbn. destruct (ut_probe_value (float_table c) n) as [x|]; cbn; [split; [|eauto]; intros _; by eexists|].
    split; [by intros []|]. intros (u & [= <-] & Hn). done.
  - cbn. destruct (ut_probe_value (field_table c) n) as [x|]; cbn; [split; [|eauto]; intros _; by eexists|].
    split; [by intros []|]. intros (u & [= <-] & Hn). done.
Qed.

(** ** Concrete inputs *)

(** A table as the history of its operations *)
Section history.
Context {V : Type} `{EqDecision V}.

Inductive change := NewKey (v : option V) | Union (a b : Z) | SetValue (a : Z) (v : V).

Fixpoint h_len (h : list change) : Z := match h with [] => 0 | NewKey _ :: h => 1 + h_len h | _ :: h => h_len h end.
Definition h_key (h : list change) (k : Z) : bool := (0 <=? k) && (k <? h_len h).
Fixpoint h_find (h : list change) (k : Z) : Z :=
  match h with
  | [] => k
  | NewKey _ :: h => if h_key h k then h_find h k else k
  | Union a b :: h => if h_key h a && h_key h b && (h_find h k =? h_find h b) then h_find h a else h_find h k
  | SetValue _ _ :: h => h_find h k
  end.
Fixpoint h_probe (h : list change) (k : Z) : option V :=
  match h with
  | [] => None
  | NewKey v :: h => if h_key h k then h_probe h k else v
  | Union a b :: h =>
      if h_key h a && h_key h b && ((h_find h k =? h_find h a) || (h_find h k =? h_find h b))
      then (match h_probe h a with Some x => Some x | None => h_probe h b end) else h_probe h k
  | SetValue a v :: h => if h_find h k =? h_find h a then Some v else h_probe h k
  end.

#[global] Instance history_table : UnificationTable V := {
  ut_table := list change;
  ut_new := [];
  ut_len := h_len;
  ut_new_key h v := (NewKey v :: h, h_len h);
  ut_find := h_find;
  ut_probe_value := h_probe;
  ut_unify_var_var h a b :=
    if h_find h a =? h_find h b then inl h
    else match h_probe h a, h_probe h b with
         | Some x, Some y => if bool_decide (x = y) then inl (Union a b :: h) else inr (x, y)
         | _, _ => inl (Union a b :: h)
         end;
  ut_unify_var_value h a v :=
    match v with
    | None => inl h
    | Some y => match h_probe h a with Some x => if bool_decide (x = y) then inl h else inr (x, y) | None => inl (SetValue a y :: h) end
    end;
}.

Lemma h_len_nonneg h : 0 ≤ h_len h.
Proof. induction h as [|[] h IH]; cbn; lia. Qed.
Lemma h_key_spec h k : h_key h k = true ↔ 0 ≤ k < h_len h.
Proof. unfold h_key. rewrite andb_true_iff, Z.leb_le, Z.ltb_lt. done. Qed.
Lemma h_find_key h k : h_key h k = true → h_key h (h_find h k) = true.
Proof.
  revert k. induction h as [|[v|a b|a v] h IH]; intros k; [done|..].
  - cbn [h_find]. destruct (h_key h k) eqn:E; [intros _|done]. apply IH in E. rewrite h_key_spec in *. cbn [h_len]. lia.
  - cbn [h_find]. change (h_key (Union a b :: h)) with (h_key h). intros Hk. destruct (h_key h a) eqn:Ea, (h_key h b); cbn; try by apply IH.
    destruct (h_find h k =? h_find h b); by apply IH.
  - apply IH.
Qed.
Lemma h_find_find h k : h_key h k = true → h_find h (h_find h k) = h_find h k.
Proof.
  revert k. induction h as [|[v|a b|a v] h IH]; intros k; [done|..].
  - cbn [h_find]. destruct (h_key h k) eqn:E; intros Hk; [by rewrite h_find_key, IH|by rewrite E].
  - cbn [h_find]. change (h_key (Union a b :: h)) with (h_key h). intros Hk. destruct (h_key h a) eqn:Ea, (h_key h b) eqn:Eb; cbn; try by apply IH.
    destruct (Z.eqb_spec (h_find h k) (h_find h b)) as [E|E].
    + rewrite !IH by done. by destruct (_ =? _).
    + rewrite IH by done. destruct (Z.eqb_spec (h_find h k) (h_find h b)); done.
  - apply IH.
Qed.
Lemma h_probe_find h k : h_key h k = true → h_probe h (h_find h k) = h_probe h k.
Proof.
  revert k. induction h as [|[v|a b|a v] h IH]; intros k; [done|..].
  - cbn [h_find h_probe]. destruct (h_key h k) eqn:E; intros Hk; [by rewrite h_find_key, IH|by rewrite E].
  - cbn [h_find h_probe]. change (h_key (Union a b :: h)) with (h_key h). intros Hk. destruct (h_key h a) eqn:Ea, (h_key h b) eqn:Eb; cbn; try by apply IH.
    destruct (Z.eqb_spec (h_find h k) (h_find h b)) as [E|E].
    + rewrite h_find_find, Z.eqb_refl by done. cbn. by rewrite orb_true_r.
    + rewrite h_find_find by done. rewrite orb_false_r. destruct (Z.eqb_spec (h_find h k) (h_find h b)); [done|]. rewrite orb_false_r.
      destruct (_ =? _); [done|by apply IH].
  - cbn [h_find h_probe]. change (h_key (SetValue a v :: h)) with (h_key h). intros Hk. rewrite h_find_find by done. destruct (_ =? _); [done|by apply IH].
Qed.

#[global] Instance history_laws : UnificationTableLaws V.
Proof.
  split; cbn; unfold ut_key; cbn.
  - done.
  - intros t k Hk%h_key_spec. by apply h_key_spec, h_find_key.
  - intros t k Hk%h_key_spec. by apply h_find_find.
  - intros t k Hk%h_key_spec. by apply h_probe_find.
  - intros t v. exists (NewKey v :: t). split; [done|]. cbn [h_len h_find h_probe]. split; [lia|].
    assert (h_key t (h_len t) = false) as -> by (unfold h_key; rewrite Z.ltb_irrefl; by rewrite andb_false_r).
    split_and!; [done..|]. by intros k ->%h_key_spec.
  - intros t a b Ha Hb ->. rewrite Z.eqb_refl. eauto.
  - intros t a b v Ha%h_key_spec Hb%h_key_spec Hn Hv. exists (Union a b :: t), (h_find t a). rewrite (proj2 (Z.eqb_neq _ _) Hn).
    split; [|split; [done|split; [by left|]]].
    + destruct (h_probe t a) as [x|], (h_probe t b) as [y|]; try done. destruct Hv as [[]|[<- [|]]]; try done. by rewrite bool_decide_eq_true_2 by congruence.
    + intros k Hk. cbn [h_find h_probe]. rewrite Ha, Hb. cbn [andb].
      destruct (Z.eqb_spec (h_find t k) (h_find t a)) as [Ea|Ea], (Z.eqb_spec (h_find t k) (h_find t b)) as [Eb|Eb]; cbn [orb].
      1-3: rewrite bool_decide_eq_true_2 by tauto; split; [done|]; destruct (h_probe t a) as [x|], (h_probe t b) as [y|]; intuition congruence.
      rewrite bool_decide_eq_false_2 by tauto. done.
  - intros t a b x y Ha%h_key_spec Hb%h_key_spec Hx Hy Hn. destruct (Z.eqb_spec (h_find t a) (h_find t b)) as [E|E].
    + rewrite <- h_probe_find, E, h_probe_find in Hx by done. congruence.
    + rewrite Hx, Hy. by rewrite bool_decide_eq_false_2.
  - intros t a y Ha Hy. destruct (h_probe t a) as [x|] eqn:Ex.
    + destruct Hy as [|[= ->]]; [done|]. rewrite bool_decide_eq_true_2 by done. exists t. split; [done|]. split; [done|].
      intros k Hk. split; [done|]. case_bool_decide as C; [|done]. apply h_key_spec in Hk, Ha. rewrite <- h_probe_find, C, h_probe_find; done.
    + exists (SetValue a y :: t). split; [done|]. split; [done|]. intros k Hk. split; [done|]. cbn [h_probe].
      destruct (Z.eqb_spec (h_find t k) (h_find t a)); [by rewrite bool_decide_eq_true_2|by rewrite bool_decide_eq_false_2].
  - intros t a x y Ha Hx Hn. rewrite Hx. by rewrite bool_decide_eq_false_2.
Qed.
End history.

(** [structurally_relate_tys] is not reached here. *)
Definition no_structure (c : InferCtxt) (a_is_expected : bool) (a b : Ty) : outcome (InferCtxt * (Ty + RelateError)) := Panic.

(** Two field literals that are equal, the second of them of a base field: so is the first;
    a third is free, and the constraint that the first is a scalar fails. *)
Definition sample_pairs : list (num_type * num_type) :=
  [(NField (tvar 0), NField (tvar 1)); (NField (tval FieldTy.PallasBase), NField (tvar 1)); (NInt (tvar 0), NInt (tval (UintType Ui8)))].

Lemma number_inference_exact_witness :
  (∃ c, combine_all false false no_structure (new_vars 1 0 3) ((λ p, (number_ty (fst p), number_ty (snd p))) <$> sample_pairs) = Ret (c, None)) ∧
  (∃ c r, combine_all false false no_structure (new_vars 1 0 3) ((λ p, (number_ty (fst p), number_ty (snd p))) <$> (sample_pairs ++ [(NField (tvar 0), NField (tval FieldTy.PallasScalar))])) = Ret (c, r) ∧
    match r with
    | None => (∃ s, solves s (sample_pairs ++ [(NField (tvar 0), NField (tval FieldTy.PallasScalar))])) ∧
        ∀ m n, new_number 1 0 3 m → new_number 1 0 3 n →
          resolve_number c m = resolve_number c n ↔ ∀ s, solves s (sample_pairs ++ [(NField (tvar 0), NField (tval FieldTy.PallasScalar))]) → number_value s m = number_value s n
    | Some _ => ~ ∃ s, solves s (sample_pairs ++ [(NField (tvar 0), NField (tval FieldTy.PallasScalar))])
    end).
Proof.
  split; [eexists; vm_compute; reflexivity|].
  apply (number_inference_exact false false no_structure 1 0 3).
  repeat constructor; done.
Defined.

Lemma number_fallback_exact_witness :
  let c := new_vars 2 1 1 in
  ∃ f, fallback_loop false false no_structure (λ _ _ _, Panic) (λ _, None) (mkFnCtxt c false false []) (unsolved_variables [] c) = Ret f ∧
    mismatches f = [] ∧
    (∀ v, ut_key (int_table c) v →
      fully_resolve_leaf (λ _, None) (infcx f) (Infer (IntVar v)) = Ret (inl (int_to_type (default (IntType Si32) (ut_probe_value (int_table c) v))))) ∧
    (∀ v, ut_key (float_table c) v →
      fully_resolve_leaf (λ _, None) (infcx f) (Infer (FloatVar v)) = Ret (inl (Float (default Fl64 (ut_probe_value (float_table c) v))))) ∧
    (∀ v, fully_resolve_leaf (λ _, None) (infcx f) (Infer (FieldVar v)) =
      Ret (match ut_probe_value (field_table c) v with Some t => inl (Field t) | None => inr (UnresolvedFieldTy v) end)).
Proof. apply (number_fallback_exact false false no_structure (λ _ _ _, Panic) (λ _, None) (λ _, None) (new_vars 2 1 1) false); vm_compute; discriminate. Defined.

(** The field literal [5g] where [u8] is expected: its type is a new variable of a field, which is
    inferred to be that of the Pallas base field. *)
Lemma literal_has_constant_witness :
  @lit_to_mir_constant n_big_uint z_u384 64 (λ _ _ _, Ret None) (LField [53]) (lit_ty_kind 9 (Field FieldTy.PallasBase)) false ≠ Ret (inr TypeError).
Proof.
  apply (literal_has_constant (λ _, None) 9 InferCtxt_new
    (fst (unify_field_variable (new_vars 0 0 1) true 0 FieldTy.PallasBase)) (new_vars 0 0 1) (LField [53]) (ExpectHasType (Uint Ui8)) (Infer (FieldVar 0)));
    vm_compute; reflexivity.
Defined.
