(* ===== verification/PointerArith.v ===== *)
(** Pointer arithmetic of the interpreter: the trait [PointerArithmetic] and the
    offsets of [Pointer], [compiler/rustc_middle/src/mir/interpret/pointer.rs].
    Offsets are [u64]s that must fit into a pointer of the target. *)

From S2P Require Import Prelude.
From S2P Require Import Abi.
From S2P Require Import Slice.
From S2P Require Import Allocation.
From S2P Require Import AbiProps.

(** [PointerArithOverflow], the only error *)
Inductive PointerArithError := PointerArithOverflow.

Section arithmetic.
Context (cx : TargetDataLayout).

(** [try_into().unwrap()] to [u64] and [i64] *)
Definition try_u64 (x : Z) : outcome Z := rassert ((0 <=? x) && (x <? 2 ^ 64)) (Ret x).
Definition try_i64 (x : Z) : outcome Z := rassert ((- 2 ^ 63 <=? x) && (x <? 2 ^ 63)) (Ret x).

Definition target_usize_max : outcome Z :=
  let! m := Size.unsigned_int_max (pointer_size cx) in try_u64 m.
Definition target_isize_min : outcome Z :=
  let! m := Size.signed_int_min (pointer_size cx) in try_i64 m.
Definition target_isize_max : outcome Z :=
  let! m := Size.signed_int_max (pointer_size cx) in try_i64 m.
Definition max_size_of_val : outcome Size :=
  let! m := target_isize_max in let! m := try_u64 m in Ret (Size.from_bytes m).

Definition target_usize_to_isize (val : Z) : outcome Z :=
  let val := to_signed 64 val in
  let! max := target_isize_max in
  if max <? val then
    let! bits := Size.bits (pointer_size cx) in
    let max_usize_plus_1 := wshl 128 1 bits in
    let! m := try_i64 max_usize_plus_1 in
    Ret (to_signed 64 (wrap 64 (val - m)))
  else Ret val.

Definition truncate_to_ptr (p : Z * bool) : outcome (Z * bool) :=
  let '(val, over) := p in
  let! bits := Size.bits (pointer_size cx) in
  let max_ptr_plus_1 := wshl 128 1 bits in
  let! res := try_u64 (val mod max_ptr_plus_1) in
  Ret (res, over || (max_ptr_plus_1 <=? val)).

(** [u64::overflowing_add] and [u64::overflowing_sub] *)
Definition overflowing_add (a b : Z) : Z * bool := (wadd 64 a b, 2 ^ 64 <=? a + b).
Definition overflowing_sub (a b : Z) : Z * bool := (wsub 64 a b, a <? b).

Definition overflowing_offset (val i : Z) : outcome (Z * bool) :=
  let res := overflowing_add val i in
  truncate_to_ptr res.

Definition overflowing_signed_offset (val i : Z) : outcome (Z * bool) :=
  let n := Z.abs i in
  if 0 <=? i then
    let! (val, over) := overflowing_offset val n in
    let! max := target_isize_max in
    Ret (val, over || (max <? i))
  else
    let res := overflowing_sub val n in
    let! (val, over) := truncate_to_ptr res in
    let! min := target_isize_min in
    Ret (val, over || (i <? min)).

Definition offset_ (val i : Z) : outcome (result Z PointerArithError) :=
  let! (res, over) := overflowing_offset val i in
  Ret (if over then Err PointerArithOverflow else Ok res).

Definition signed_offset (val i : Z) : outcome (result Z PointerArithError) :=
  let! (res, over) := overflowing_signed_offset val i in
  Ret (if over then Err PointerArithOverflow else Ok res).

(** * Pointers *)

Context {Prov : Type}.

Definition ptr_offset (self : Pointer Prov) (i : Size) : outcome (result (Pointer Prov) PointerArithError) :=
  let! r := offset_ (Size.bytes (offset self)) (Size.bytes i) in
  Ret (match r with Ok o => Ok (mkPointer (provenance self) (Size.from_bytes o)) | Err e => Err e end).

Definition ptr_overflowing_offset (self : Pointer Prov) (i : Size) : outcome (Pointer Prov * bool) :=
  let! (res, over) := overflowing_offset (Size.bytes (offset self)) (Size.bytes i) in
  Ret (mkPointer (provenance self) (Size.from_bytes res), over).

Definition ptr_wrapping_offset (self : Pointer Prov) (i : Size) : outcome (Pointer Prov) :=
  let! r := ptr_overflowing_offset self i in Ret r.1.

Definition ptr_signed_offset (self : Pointer Prov) (i : Z) : outcome (result (Pointer Prov) PointerArithError) :=
  let! r := signed_offset (Size.bytes (offset self)) i in
  Ret (match r with Ok o => Ok (mkPointer (provenance self) (Size.from_bytes o)) | Err e => Err e end).

Definition ptr_overflowing_signed_offset (self : Pointer Prov) (i : Z) : outcome (Pointer Prov * bool) :=
  let! (res, over) := overflowing_signed_offset (Size.bytes (offset self)) i in
  Ret (mkPointer (provenance self) (Size.from_bytes res), over).

Definition ptr_wrapping_signed_offset (self : Pointer Prov) (i : Z) : outcome (Pointer Prov) :=
  let! r := ptr_overflowing_signed_offset self i in Ret r.1.

(** [into_pointer_or_addr], and the pointers without provenance *)
Definition into_pointer_or_addr (self : Pointer (option Prov)) : result (Pointer Prov) Size :=
  match provenance self with
  | Some prov => Ok (mkPointer prov (offset self))
  | None => Err (offset self)
  end.

Definition from_addr_invalid (addr : Z) : Pointer (option Prov) := mkPointer None (Size.from_bytes addr).
Definition null : Pointer (option Prov) := from_addr_invalid 0.
Definition some_pointer (ptr : Pointer Prov) : Pointer (option Prov) :=
  mkPointer (Some (provenance ptr)) (offset ptr).

End arithmetic.

(** * Properties: offsets are sums modulo the size of the address space, and overflow is reported exactly *)

Section arithmetic.
Context (cx : TargetDataLayout).
Abbreviation ps := (pointer_size cx).

(** Pointers of one to eight bytes *)
Hypothesis ps_ok : 1 ≤ ps ≤ 8.

(** The number of addresses *)
Definition addresses : Z := 2 ^ (8 * ps).

Lemma ps_cases (P : Z → Prop) : P 1 → P 2 → P 3 → P 4 → P 5 → P 6 → P 7 → P 8 → P ps.
Proof.
  intros. assert (ps = 1 ∨ ps = 2 ∨ ps = 3 ∨ ps = 4 ∨ ps = 5 ∨ ps = 6 ∨ ps = 7 ∨ ps = 8) as Hc by lia.
  destruct_or! Hc; by rewrite Hc.
Qed.

Lemma isize_bounds : target_isize_min cx = Ret (- 2 ^ (8 * ps - 1)) ∧ target_isize_max cx = Ret (2 ^ (8 * ps - 1) - 1) ∧
  target_usize_max cx = Ret (addresses - 1).
Proof. unfold target_isize_min, target_isize_max, target_usize_max, addresses. apply ps_cases; vm_compute; done. Qed.

Lemma bits_val : Size.bits ps = Ret (8 * ps) ∧ wshl 128 1 (8 * ps) = addresses ∧ 2 ^ 8 ≤ addresses ≤ 2 ^ 64 ∧
  addresses = 2 * 2 ^ (8 * ps - 1).
Proof. unfold addresses. apply (ps_cases (λ ps, Size.bits ps = Ret (8 * ps) ∧ wshl 128 1 (8 * ps) = 2 ^ (8 * ps) ∧
  2 ^ 8 ≤ 2 ^ (8 * ps) ≤ 2 ^ 64 ∧ 2 ^ (8 * ps) = 2 * 2 ^ (8 * ps - 1))); vm_compute; done. Qed.

Lemma truncate_ret val over : 0 ≤ val →
  truncate_to_ptr cx (val, over) = Ret (val mod addresses, over || (addresses <=? val)).
Proof.
  intros Hv. destruct bits_val as (Hb & Hs & Ha & _). unfold truncate_to_ptr. rewrite Hb. cbn [obind]. rewrite Hs.
  pose proof (Z.mod_pos_bound val addresses ltac:(lia)). unfold try_u64.
  rewrite (proj2 (Z.leb_le 0 _)), (proj2 (Z.ltb_lt _ (2 ^ 64))) by lia. done.
Qed.

Lemma mod_mod_64 z : z mod 2 ^ 64 mod addresses = z mod addresses.
Proof.
  apply Z.mod_mod_divide. unfold addresses. exists (2 ^ (64 - 8 * ps)). rewrite <- Z.pow_add_r by lia. f_equal. lia.
Qed.

Lemma overflowing_offset_ret val i : 0 ≤ val < 2 ^ 64 → 0 ≤ i < 2 ^ 64 →
  overflowing_offset cx val i = Ret ((val + i) mod addresses, addresses <=? val + i).
Proof.
  intros Hv Hi. destruct bits_val as (_ & _ & Ha & _). unfold overflowing_offset, overflowing_add.
  pose proof (wrap_bounds 64 (val + i) ltac:(lia)) as [Hw0 Hw1].
  rewrite truncate_ret by done. unfold wadd. f_equal. f_equal; [apply mod_mod_64|].
  destruct (Z.leb_spec (2 ^ 64) (val + i)); cbn [orb].
  - symmetry. apply Z.leb_le. lia.
  - rewrite wrap_small by (unfold is_uint; lia). done.
Qed.

(** A signed offset leaves the address space, or is not an [isize] of the target. *)
Definition offset_overflows (val i : Z) : bool :=
  negb ((0 <=? val + i) && (val + i <? addresses)) ||
  negb ((- 2 ^ (8 * ps - 1) <=? i) && (i <? 2 ^ (8 * ps - 1))).

Lemma overflowing_signed_offset_ret val i : 0 ≤ val < 2 ^ 64 → - 2 ^ 63 ≤ i < 2 ^ 63 →
  overflowing_signed_offset cx val i = Ret ((val + i) mod addresses, offset_overflows val i).
Proof.
  intros Hv Hi. destruct bits_val as (_ & _ & Ha & Hhalf). destruct isize_bounds as (Emin & Emax & _).
  unfold overflowing_signed_offset, offset_overflows. destruct (Z.leb_spec 0 i) as [H|H].
  - rewrite Z.abs_eq, overflowing_offset_ret by lia. cbn [obind]. rewrite Emax. cbn [obind].
    do 2 f_equal. rewrite (proj2 (Z.leb_le 0 (val + i))), (proj2 (Z.leb_le (- _) i)) by lia. cbn [andb].
    rewrite <- !Z.leb_antisym. f_equal. apply eq_true_iff_eq. rewrite Z.ltb_lt, Z.leb_le. lia.
  - rewrite Z.abs_neq by lia. unfold overflowing_sub. pose proof (wrap_bounds 64 (val - - i) ltac:(lia)) as [Hw0 Hw1].
    rewrite truncate_ret by done. cbn [obind]. rewrite Emin. cbn [obind]. unfold wsub, wrap at 1.
    rewrite mod_mod_64. replace (val - - i) with (val + i) by lia. do 2 f_equal.
    rewrite (proj2 (Z.ltb_lt i (2 ^ (8 * ps - 1)))) by lia. rewrite andb_true_r, <- Z.ltb_antisym. f_equal.
    destruct (Z.ltb_spec val (- i)) as [H'|H']; cbn [orb].
    + by rewrite (proj2 (Z.leb_gt 0 (val + i))) by lia.
    + rewrite (proj2 (Z.leb_le 0 (val + i))) by lia. cbn [andb]. rewrite <- Z.leb_antisym, wrap_small by (unfold is_uint; lia). done.
Qed.

(** Pointer arithmetic is exact: for every [u64] offset and every [i64] (or
    [u64]) the overflowing operations return the sum modulo the size of the
    address space and whether the sum leaves it or the signed offset is not an
    [isize] of the target; the checked ones return the sum exactly if not; and
    moving a pointer of the target and moving it back gives the same pointer. *)
Theorem pointer_offsets_exact {Prov} (p : Pointer Prov) i : 0 ≤ offset p < 2 ^ 64 → - 2 ^ 63 < i < 2 ^ 63 →
  (ptr_signed_offset cx p i = Ret (if offset_overflows (offset p) i then Err PointerArithOverflow
     else Ok (mkPointer (provenance p) (offset p + i)))) ∧
  (0 ≤ i → ptr_offset cx p i = Ret (if addresses <=? offset p + i then Err PointerArithOverflow
     else Ok (mkPointer (provenance p) (offset p + i)))) ∧
  ptr_overflowing_signed_offset cx p i
    = Ret (mkPointer (provenance p) ((offset p + i) mod addresses), offset_overflows (offset p) i) ∧
  (offset p < addresses → ∃ q, ptr_wrapping_signed_offset cx p i = Ret q ∧ 0 ≤ offset q < addresses ∧
     ptr_wrapping_signed_offset cx q (- i) = Ret p).
Proof.
  intros Hp Hi. destruct bits_val as (_ & _ & Ha & _). unfold Size.bytes in *.
  assert (∀ v, 0 ≤ v < addresses → v mod addresses = v) as Hsmall by (intros; by apply Z.mod_small).
  split_and!.
  - unfold ptr_signed_offset, signed_offset, Size.bytes, Size.from_bytes. rewrite overflowing_signed_offset_ret by lia.
    cbn [obind]. destruct (offset_overflows (offset p) i) eqn:E; [done|]. unfold offset_overflows in E.
    apply orb_false_iff in E as [[E1 E2]%negb_false_iff%andb_true_iff _]. rewrite Hsmall by lia. done.
  - intros H0. unfold ptr_offset, offset_, Size.bytes, Size.from_bytes. rewrite overflowing_offset_ret by lia.
    cbn [obind]. destruct (Z.leb_spec addresses (offset p + i)); [done|]. by rewrite Hsmall by lia.
  - unfold ptr_overflowing_signed_offset, Size.bytes, Size.from_bytes. by rewrite overflowing_signed_offset_ret by lia.
  - intros Hlt. unfold ptr_wrapping_signed_offset, ptr_overflowing_signed_offset, Size.bytes, Size.from_bytes.
    rewrite overflowing_signed_offset_ret by lia. cbn [obind fst]. pose proof (Z.mod_pos_bound (offset p + i) addresses ltac:(lia)).
    eexists. split; [done|]. cbn [offset]. split; [done|]. rewrite overflowing_signed_offset_ret by lia. cbn [obind fst offset provenance].
    rewrite Zplus_mod_idemp_l. replace (offset p + i + - i) with (offset p) by lia. rewrite Hsmall by lia. by destruct p.
Qed.

(** The signed reading of an address is its two's complement in the target's width. *)
Lemma usize_to_isize_ret val : 0 ≤ val < addresses →
  target_usize_to_isize cx val = Ret (to_signed (8 * ps) val).
Proof.
  intros Hv. destruct bits_val as (Hb & Hs & Ha & Hhalf). destruct isize_bounds as (_ & Emax & _).
  unfold target_usize_to_isize. rewrite Emax. cbn [obind]. unfold to_signed. fold addresses.
  destruct (decide (8 * ps = 64)) as [E|E].
  - unfold addresses in *. rewrite E in *. zcases; try lia; done.
  - assert (addresses ≤ 2 ^ 56) as H56 by (unfold addresses; apply Z.pow_le_mono_r; lia).
    rewrite (proj2 (Z.ltb_lt val (2 ^ (64 - 1)))) by lia. destruct (Z.ltb_spec (2 ^ (8 * ps - 1) - 1) val) as [H|H].
    + rewrite Hb. cbn [obind]. rewrite Hs. unfold try_i64.
      rewrite (proj2 (Z.leb_le _ addresses)), (proj2 (Z.ltb_lt addresses _)), (proj2 (Z.ltb_ge val _)) by lia. cbn [andb rassert obind].
      f_equal. apply (to_signed_of_signed 64); lia.
    + by rewrite (proj2 (Z.ltb_lt val (2 ^ (8 * ps - 1)))) by lia.
Qed.
End arithmetic.

(** A target with 32-bit pointers *)
Definition sample_target : TargetDataLayout :=
  let a := AbiAndPrefAlign.new Align.ONE in
  mkDataLayout Little a a a a a a a a 4 a a [] 0 I32.

Lemma pointer_offsets_exact_witness :
  (ptr_signed_offset sample_target (mkPointer 3 10) (-11) = Ret (if offset_overflows sample_target 10 (-11)
     then Err PointerArithOverflow else Ok (mkPointer 3 (10 + -11)))) ∧
  (0 ≤ -11 → ptr_offset sample_target (mkPointer 3 10) (-11) = Ret (if addresses sample_target <=? 10 + -11
     then Err PointerArithOverflow else Ok (mkPointer 3 (10 + -11)))) ∧
  ptr_overflowing_signed_offset sample_target (mkPointer 3 10) (-11)
    = Ret (mkPointer 3 ((10 + -11) mod addresses sample_target), offset_overflows sample_target 10 (-11)) ∧
  (10 < addresses sample_target → ∃ q, ptr_wrapping_signed_offset sample_target (mkPointer 3 10) (-11) = Ret q ∧
     0 ≤ offset q < addresses sample_target ∧ ptr_wrapping_signed_offset sample_target q (- -11) = Ret (mkPointer 3 10)).
Proof.
  apply (pointer_offsets_exact sample_target ltac:(cbn; lia) (mkPointer 3 10) (-11)); cbn; lia.
Defined.
