(* ===== verification/InterpMemory.v ===== *)
(** The memory of the compile-time interpreter: allocations that are made,
    accessed through pointers and freed,
    [compiler/rustc_const_eval/src/interpret/memory.rs], with the machine of
    [const_eval/machine.rs] and the identifiers of [AllocMap]
    ([compiler/rustc_middle/src/mir/interpret/mod.rs]).

    The provenance of the machine is an [AllocId], its offsets are relative to the
    allocation, it has no extra function pointers and no copies of globals, and
    its access hooks do nothing.  What the type context answers by running queries
    (properties, layouts and values of statics) and the host's allocator are
    parameters.  An operation returns its result and the state, which a failed
    operation may have changed. *)

From stdpp Require Import gmap.
From S2P Require Import Prelude.
From S2P Require Import Abi.
From S2P Require Import Slice.
From S2P Require Import InitMask.
From S2P Require Import Provenance.
From S2P Require Import Allocation.
From S2P Require Import Fields.
From S2P Require Import Memory.
From S2P Require Import PointerArith.

Abbreviation allocation := (Allocation.t AllocId unit).

(** [MemoryKind<const_eval::MemoryKind>] *)
Inductive MemoryKind := Stack | CallerLocation | Heap.

#[global] Instance MemoryKind_eq_dec : EqDecision MemoryKind.
Proof. solve_decision. Defined.

Definition may_leak (kind : MemoryKind) : bool :=
  match kind with Stack => false | CallerLocation => true | Heap => false end.

Inductive AllocKind := LiveData | FunctionData | VTableData | Dead.

(** [GlobalAlloc]; instances, types and definitions are numbers. *)
Inductive GlobalAlloc :=
| Function (instance : Z)
| VTable (ty : Z)
| Static (def_id : Z)
| GlobalMemory (mem : allocation).

Inductive CheckAlignment := CheckNo | CheckError | CheckFutureIncompat.

Definition should_check (check : CheckAlignment) : bool :=
  match check with CheckNo => false | CheckError | CheckFutureIncompat => true end.

Inductive CheckInAllocMsg :=
  DerefTest | MemoryAccessTest | PointerArithmeticTest | OffsetFromTest | InboundsTest.

(** What an invalid deallocation points to *)
Inductive DeallocTarget := DeallocFn | DeallocVTable | DeallocStaticMem.

Inductive MemError :=
| DanglingIntPointer (addr : Z) (msg : CheckInAllocMsg)
| PointerOutOfBounds (alloc_id : AllocId) (alloc_size : Size) (ptr_offset : Z) (ptr_size : Size) (msg : CheckInAllocMsg)
| PointerUseAfterFree (alloc_id : AllocId) (msg : CheckInAllocMsg)
| AlignmentCheckFailed (has required : Align)
| DerefFunctionPointer (alloc_id : AllocId)
| DerefVTablePointer (alloc_id : AllocId)
| WriteToReadOnly (alloc_id : AllocId)
| ReadExternStatic (def_id : Z)
| StaticEvalError (def_id : Z)
| ConstAccessesStatic
| ModifiedGlobal
| MemoryExhausted
| AllocWithOffset
| InvalidDealloc (alloc_id : AllocId) (target : DeallocTarget)
| DeallocImmutable (alloc_id : AllocId)
| DeallocKindMismatch (alloc_id : AllocId) (alloc_kind kind : MemoryKind)
| DeallocIncorrectLayout (alloc_id : AllocId)
| InvalidFunctionPointer (ptr : Pointer AllocId)
| InvalidVTablePointer (ptr : Pointer AllocId)
| CopyOverlapping
| ScalarMismatch (e : SizeMismatch)
| AllocErrorAt (e : AllocError) (alloc_id : AllocId).

(** The type context and the host *)
Class Tcx := {
  data_layout : TargetDataLayout;
  is_static : Z → bool;
  is_thread_local_static : Z → bool;
  is_foreign_item : Z → bool;
  static_layout : Z → Size * Align;
  eval_static_initializer : Z → option allocation;
  zeroed : Size → option (list Z);
}.

(** The global allocations with their [dedup] map and the next identifier
    ([AllocMap]), and the memory of the interpreter with what its machine knows *)
Record Ecx := mkEcx {
  globals : gmap Z GlobalAlloc;
  dedup : gmap (Z * Z) AllocId;
  next_id : Z;
  alloc_map : gmap Z (MemoryKind * allocation);
  dead_alloc_map : gmap Z (Size * Align);
  check_alignment : CheckAlignment;
  can_access_statics : bool;
  lints : list (Align * Align)
}.

Definition with_globals (ecx : Ecx) (g : gmap Z GlobalAlloc) (d : gmap (Z * Z) AllocId) (n : Z) : Ecx :=
  mkEcx g d n (alloc_map ecx) (dead_alloc_map ecx) (check_alignment ecx) (can_access_statics ecx) (lints ecx).
Definition with_alloc_map (ecx : Ecx) (m : gmap Z (MemoryKind * allocation)) : Ecx :=
  mkEcx (globals ecx) (dedup ecx) (next_id ecx) m (dead_alloc_map ecx) (check_alignment ecx) (can_access_statics ecx) (lints ecx).
Definition with_dead (ecx : Ecx) (m : gmap Z (Size * Align)) : Ecx :=
  mkEcx (globals ecx) (dedup ecx) (next_id ecx) (alloc_map ecx) m (check_alignment ecx) (can_access_statics ecx) (lints ecx).
Definition with_lints (ecx : Ecx) (l : list (Align * Align)) : Ecx :=
  mkEcx (globals ecx) (dedup ecx) (next_id ecx) (alloc_map ecx) (dead_alloc_map ecx) (check_alignment ecx) (can_access_statics ecx) l.

(** [InterpResult] with the state *)
Definition I (A : Type) : Type := Ecx → outcome (result A MemError * Ecx).
Definition iret {A} (a : A) : I A := λ ecx, Ret (Ok a, ecx).
Definition throw {A} (e : MemError) : I A := λ ecx, Ret (Err e, ecx).
Definition ibind {A B} (m : I A) (k : A → I B) : I B := λ ecx,
  let! (r, ecx) := m ecx in
  match r with Ok a => k a ecx | Err e => Ret (Err e, ecx) end.
Definition ilift {A} (c : outcome A) : I A := λ ecx, let! a := c in Ret (Ok a, ecx).
Definition get_ecx : I Ecx := λ ecx, Ret (Ok ecx, ecx).

Declare Scope interp_scope.
Delimit Scope interp_scope with interp.
Notation "'let?' x := m 'in' k" := (ibind m (λ x, k))
  (at level 10, x pattern, m at level 100, k at level 200) : interp_scope.
Open Scope interp_scope.

Section memory.
Context `{Tcx}.

(** * Identifiers *)

(** [AllocMap::reserve] *)
Definition reserve : I AllocId := λ ecx,
  let next := next_id ecx in
  let! n := unwrap (checked_add 64 next 1) in
  Ret (Ok next, with_globals ecx (globals ecx) (dedup ecx) n).

(** The allocations that have one identifier, as keys of [dedup] *)
Definition dedup_key (alloc : GlobalAlloc) : option (Z * Z) :=
  match alloc with
  | Function instance => Some (0, instance)
  | VTable ty => Some (1, ty)
  | Static def_id => Some (2, def_id)
  | GlobalMemory _ => None
  end.

(** [alloc_map.alloc_map.insert] *)
Definition insert_global (id : AllocId) (alloc : GlobalAlloc) : I unit := λ ecx,
  Ret (Ok tt, with_globals ecx (<[id := alloc]> (globals ecx)) (dedup ecx) (next_id ecx)).

Definition reserve_and_set_dedup (alloc : GlobalAlloc) : I AllocId :=
  let? key := ilift (unwrap (dedup_key alloc)) in
  let? ecx := get_ecx in
  match dedup ecx !! key with
  | Some alloc_id => iret alloc_id
  | None =>
      let? id := reserve in
      let? _ := insert_global id alloc in
      let? _ := (λ ecx, Ret (Ok tt, with_globals ecx (globals ecx) (<[key := id]> (dedup ecx)) (next_id ecx))) in
      iret id
  end.

Definition create_static_alloc (static_id : Z) : I AllocId := reserve_and_set_dedup (Static static_id).
Definition create_vtable_alloc (ty : Z) : I AllocId := reserve_and_set_dedup (VTable ty).

(** [is_generic]: an argument of the instance is not a lifetime *)
Definition create_fn_alloc (instance : Z) (is_generic : bool) : I AllocId :=
  if is_generic then
    let? id := reserve in
    let? _ := insert_global id (Function instance) in
    iret id
  else reserve_and_set_dedup (Function instance).

Definition set_alloc_id_memory (id : AllocId) (mem : allocation) : I unit :=
  let? ecx := get_ecx in
  match globals ecx !! id with
  | Some _ => λ _, Panic
  | None => insert_global id (GlobalMemory mem)
  end.

Definition create_memory_alloc (mem : allocation) : I AllocId :=
  let? id := reserve in
  let? _ := set_alloc_id_memory id mem in
  iret id.

Definition ptr_try_get_alloc_id (ptr : Pointer (option AllocId)) : result (AllocId * Size) Z :=
  match into_pointer_or_addr ptr with
  | Ok ptr => Ok (provenance ptr, offset ptr)
  | Err addr => Err (Size.bytes addr)
  end.

Definition ptr_get_alloc_id (ptr : Pointer (option AllocId)) : I (AllocId * Size) :=
  match ptr_try_get_alloc_id ptr with
  | Ok r => iret r
  | Err offset => throw (DanglingIntPointer offset InboundsTest)
  end.

(** * Information about allocations *)

Definition get_fn_alloc (ecx : Ecx) (id : AllocId) : option Z :=
  match globals ecx !! id with Some (Function instance) => Some instance | _ => None end.

Definition get_alloc_info (ecx : Ecx) (id : AllocId) : outcome (Size * Align * AllocKind) :=
  match alloc_map ecx !! id with
  | Some (_, alloc) => Ret (Allocation.size alloc, Allocation.align alloc, LiveData)
  | None =>
      match get_fn_alloc ecx id with
      | Some _ => Ret (Size.ZERO, Align.ONE, FunctionData)
      | None =>
          match globals ecx !! id with
          | Some (Static def_id) =>
              rassert (is_static def_id)
                (rassert (negb (is_thread_local_static def_id))
                   (Ret (static_layout def_id, LiveData)))
          | Some (GlobalMemory alloc) => Ret (Allocation.size alloc, Allocation.align alloc, LiveData)
          | Some (Function _) => Panic
          | Some (VTable _) => Ret (Size.ZERO, abi (pointer_align data_layout), VTableData)
          | None =>
              let! (size, align) := unwrap (dead_alloc_map ecx !! id) in
              Ret (size, align, Dead)
          end
      end
  end.

Definition get_live_alloc_size_and_align (id : AllocId) (msg : CheckInAllocMsg) : I (Size * Align) :=
  let? ecx := get_ecx in
  let? info := ilift (get_alloc_info ecx id) in
  match info with
  | (_, _, Dead) => throw (PointerUseAfterFree id msg)
  | (size, align, _) => iret (size, align)
  end.

(** * Checks *)

(** The machine's hook: an error, or a lint *)
Definition alignment_check_failed (has required : Align) (check : CheckAlignment) : I unit := λ ecx,
  match check with
  | CheckError => Ret (Err (AlignmentCheckFailed has required), ecx)
  | CheckNo => Panic
  | CheckFutureIncompat => Ret (Ok tt, with_lints ecx (lints ecx ++ [(has, required)]))
  end.

Definition check_offset_align (offset : Z) (align : Align) (check : CheckAlignment) : I unit :=
  if offset mod Align.bytes align =? 0 then iret tt
  else
    let offset_pow2 := wshl 64 1 (trailing_zeros 64 offset) in
    match Align.from_bytes offset_pow2 with
    | inl has => alignment_check_failed has align check
    | inr _ => λ _, Panic
    end.

(** [offset.checked_add(size, &self.tcx).map_or(true, |end| end > alloc_size)] *)
Definition out_of_bounds (offset size alloc_size : Size) : outcome bool :=
  let! end_ := size_checked_add offset size data_layout in
  Ret (match end_ with Some end_ => alloc_size <? end_ | None => true end).

Definition check_and_deref_ptr {T} (ptr : Pointer (option AllocId)) (size : Size) (align : Align)
    (check : CheckAlignment) (msg : CheckInAllocMsg)
    (alloc_size : AllocId → Size → I (Size * Align * T)) : I (option T) :=
  match ptr_try_get_alloc_id ptr with
  | Err addr =>
      if (0 <? Size.bytes size) || (addr =? 0) then throw (DanglingIntPointer addr msg)
      else
        let? _ := (if should_check check then check_offset_align addr align check else iret tt) in
        iret None
  | Ok (alloc_id, offset) =>
      let? (alloc_size, alloc_align, ret_val) := alloc_size alloc_id offset in
      let? oob := ilift (out_of_bounds offset size alloc_size) in
      if (oob : bool) then
        let? ptr_offset := ilift (target_usize_to_isize data_layout (Size.bytes offset)) in
        throw (PointerOutOfBounds alloc_id alloc_size ptr_offset size msg)
      else
        let? _ :=
          (if should_check check then
             let? _ := (if Align.bytes alloc_align <? Align.bytes align
                        then alignment_check_failed alloc_align align check else iret tt) in
             check_offset_align (Size.bytes offset) align check
           else iret tt) in
        iret (if Size.bytes size =? 0 then None else Some ret_val)
  end.

Definition get_ptr_access (ptr : Pointer (option AllocId)) (size : Size) (align : Align) : I (option (AllocId * Size)) :=
  let? ecx := get_ecx in
  check_and_deref_ptr ptr size align (check_alignment ecx) MemoryAccessTest
    (λ alloc_id offset,
      let? (size, align) := get_live_alloc_size_and_align alloc_id MemoryAccessTest in
      iret (size, align, (alloc_id, offset))).

Definition check_ptr_access_align (ptr : Pointer (option AllocId)) (size : Size) (align : Align)
    (msg : CheckInAllocMsg) : I unit :=
  let? _ := check_and_deref_ptr ptr size align CheckError msg
    (λ alloc_id _,
      let? (size, align) := get_live_alloc_size_and_align alloc_id msg in
      iret (size, align, tt)) in
  iret tt.

(** * Access to allocations *)

Definition before_access_global (alloc_id : AllocId) (alloc : allocation) (static_def_id : option Z) (is_write : bool) : I unit :=
  let? ecx := get_ecx in
  if is_write then
    match Allocation.mutability alloc with
    | Not => throw (WriteToReadOnly alloc_id)
    | Mut => throw ModifiedGlobal
    end
  else if can_access_statics ecx then iret tt
  else match static_def_id with
       | Some _ => throw ConstAccessesStatic
       | None => if decide (Allocation.mutability alloc = Not) then iret tt else λ _, Panic
       end.

Definition get_global_alloc (id : AllocId) (is_write : bool) : I allocation :=
  let? ecx := get_ecx in
  let? (alloc, def_id) :=
    match globals ecx !! id with
    | Some (GlobalMemory mem) => iret (mem, None)
    | Some (Function _) => throw (DerefFunctionPointer id)
    | Some (VTable _) => throw (DerefVTablePointer id)
    | None => throw (PointerUseAfterFree id MemoryAccessTest)
    | Some (Static def_id) =>
        if negb (is_static def_id) || is_thread_local_static def_id then λ _, Panic
        else if is_foreign_item def_id then throw (ReadExternStatic def_id)
        else match eval_static_initializer def_id with
             | Some val => iret (val, Some def_id)
             | None => throw (StaticEvalError def_id)
             end
    end in
  let? _ := before_access_global id alloc def_id is_write in
  iret alloc.

(** The local allocation, or the global one, which is not copied *)
Definition get_alloc_raw (id : AllocId) : I allocation :=
  let? ecx := get_ecx in
  match alloc_map ecx !! id with
  | Some (_, alloc) => iret alloc
  | None => get_global_alloc id false
  end.

(** [GLOBAL_KIND] is [None]: after the look-up of a global that did not fail,
    its [expect] would. *)
Definition get_alloc_raw_mut (id : AllocId) : I allocation :=
  let? ecx := get_ecx in
  match alloc_map ecx !! id with
  | None => let? _ := get_global_alloc id true in λ _, Panic
  | Some (_, alloc) =>
      if decide (Allocation.mutability alloc = Not) then throw (WriteToReadOnly id)
      else iret alloc
  end.

(** [AllocRef] and [AllocRefMut]: an allocation and the checked range in it *)
Record AllocRef := mkRef { ref_alloc : allocation; ref_range : AllocRange; ref_id : AllocId }.

Definition get_ptr_alloc (ptr : Pointer (option AllocId)) (size : Size) (align : Align) : I (option AllocRef) :=
  let? ecx := get_ecx in
  let? ptr_and_alloc := check_and_deref_ptr ptr size align (check_alignment ecx) MemoryAccessTest
    (λ alloc_id offset,
      let? alloc := get_alloc_raw alloc_id in
      iret (Allocation.size alloc, Allocation.align alloc, (alloc_id, offset, alloc))) in
  match ptr_and_alloc with
  | Some (alloc_id, offset, alloc) => iret (Some (mkRef alloc (alloc_range offset size) alloc_id))
  | None => iret None
  end.

Definition get_ptr_alloc_mut (ptr : Pointer (option AllocId)) (size : Size) (align : Align) : I (option AllocRef) :=
  let? parts := get_ptr_access ptr size align in
  match parts with
  | Some (alloc_id, offset) =>
      let? alloc := get_alloc_raw_mut alloc_id in
      iret (Some (mkRef alloc (alloc_range offset size) alloc_id))
  | None => iret None
  end.

Definition get_alloc_mutability (id : AllocId) : I Mutability :=
  let? alloc := get_alloc_raw id in iret (Allocation.mutability alloc).

Definition get_ptr_fn (ptr : Pointer (option AllocId)) : I Z :=
  let? (alloc_id, offset) := ptr_get_alloc_id ptr in
  if negb (Size.bytes offset =? 0) then throw (InvalidFunctionPointer (mkPointer alloc_id offset))
  else
    let? ecx := get_ecx in
    match get_fn_alloc ecx alloc_id with
    | Some instance => iret instance
    | None => throw (InvalidFunctionPointer (mkPointer alloc_id offset))
    end.

Definition get_ptr_vtable (ptr : Pointer (option AllocId)) : I Z :=
  let? (alloc_id, offset) := ptr_get_alloc_id ptr in
  if negb (Size.bytes offset =? 0) then throw (InvalidVTablePointer (mkPointer alloc_id offset))
  else
    let? ecx := get_ecx in
    match globals ecx !! alloc_id with
    | Some (VTable ty) => iret ty
    | _ => throw (InvalidVTablePointer (mkPointer alloc_id offset))
    end.

(** * Making and freeing allocations *)

(** The allocation with that number becomes [alloc]. *)
Definition store (id : AllocId) (kind : MemoryKind) (alloc : allocation) : I unit := λ ecx,
  Ret (Ok tt, with_alloc_map ecx (<[id := (kind, alloc)]> (alloc_map ecx))).

Definition allocate_raw_ptr (alloc : allocation) (kind : MemoryKind) : I (Pointer AllocId) :=
  let? id := reserve in
  let? _ := store id kind alloc in
  iret (mkPointer id Size.ZERO).

Definition allocate_ptr (size : Size) (align : Align) (kind : MemoryKind) : I (Pointer AllocId) :=
  match Allocation.uninit_inner zeroed size align MemoryExhausted with
  | Ok alloc => allocate_raw_ptr alloc kind
  | Err e => throw e
  end.

Definition allocate_bytes_ptr (bytes : list Z) (align : Align) (kind : MemoryKind) (mutability : Mutability) :
    I (Pointer AllocId) :=
  allocate_raw_ptr (Allocation.from_raw_bytes bytes align mutability) kind.

(** A write through a mutable reference to the allocation *)
Definition update_alloc (id : AllocId) (alloc : allocation) : I unit := λ ecx,
  Ret (Ok tt, with_alloc_map ecx (alter (λ e, (e.1, alloc)) id (alloc_map ecx))).

(** [alloc.mutability = Mutability::Not] *)
Definition make_immutable (a : allocation) : allocation :=
  {| Allocation.bytes := Allocation.bytes a; Allocation.prov_map := Allocation.prov_map a;
     Allocation.init := Allocation.init a; Allocation.align := Allocation.align a;
     Allocation.mutability := Not; Allocation.extra := Allocation.extra a |}.

Definition alloc_mark_immutable (id : AllocId) : I unit :=
  let? alloc := get_alloc_raw_mut id in
  update_alloc id (make_immutable alloc).

(** The error for an allocation that is not local *)
Definition dealloc_global (ecx : Ecx) (alloc_id : AllocId) : MemError :=
  match globals ecx !! alloc_id with
  | Some (Function _) => InvalidDealloc alloc_id DeallocFn
  | Some (VTable _) => InvalidDealloc alloc_id DeallocVTable
  | Some (Static _) | Some (GlobalMemory _) => InvalidDealloc alloc_id DeallocStaticMem
  | None => PointerUseAfterFree alloc_id MemoryAccessTest
  end.

(** The allocation is removed from the map before the checks. *)
Definition deallocate_ptr (ptr : Pointer (option AllocId)) (old_size_and_align : option (Size * Align))
    (kind : MemoryKind) : I unit :=
  let? (alloc_id, offset) := ptr_get_alloc_id ptr in
  if negb (Size.bytes offset =? 0) then throw AllocWithOffset
  else
    let? ecx := get_ecx in
    match alloc_map ecx !! alloc_id with
    | None => throw (dealloc_global ecx alloc_id)
    | Some (alloc_kind, alloc) =>
        let? _ := (λ ecx, Ret (Ok tt, with_alloc_map ecx (delete alloc_id (alloc_map ecx)))) in
        if decide (Allocation.mutability alloc = Not) then throw (DeallocImmutable alloc_id)
        else if decide (alloc_kind ≠ kind) then throw (DeallocKindMismatch alloc_id alloc_kind kind)
        else if match old_size_and_align with
                | Some (size, align) => negb ((size =? Allocation.size alloc) && (align =? Allocation.align alloc))
                | None => false
                end
        then throw (DeallocIncorrectLayout alloc_id)
        else λ ecx,
          match dead_alloc_map ecx !! alloc_id with
          | Some _ => Panic
          | None => Ret (Ok tt, with_dead ecx (<[alloc_id := (Allocation.size alloc, Allocation.align alloc)]> (dead_alloc_map ecx)))
          end
    end.

(** * Reading and writing through a reference *)

(** [map_err(|e| e.to_interp_error(self.alloc_id))] *)
Definition at_alloc {A} (id : AllocId) (r : result A AllocError) : I A :=
  match r with Ok a => iret a | Err e => throw (AllocErrorAt e id) end.

Definition read_scalar (self : AllocRef) (range : AllocRange) (read_provenance : bool) : I (Scalar AllocId) :=
  let? range := ilift (subrange (ref_range self) range) in
  let? res := ilift (Allocation.read_scalar (ref_alloc self) data_layout range read_provenance) in
  at_alloc (ref_id self) res.

Definition read_integer (self : AllocRef) (range : AllocRange) : I (Scalar AllocId) := read_scalar self range false.
Definition read_pointer (self : AllocRef) (offset : Size) : I (Scalar AllocId) :=
  read_scalar self (alloc_range offset (pointer_size data_layout)) true.

(** A write through the reference changes the allocation in the map. *)
Definition write_scalar (self : AllocRef) (range : AllocRange) (val : Scalar AllocId) : I unit :=
  let? range := ilift (subrange (ref_range self) range) in
  let? (alloc, res) := ilift (Allocation.write_scalar (ref_alloc self) data_layout range val) in
  let? _ := update_alloc (ref_id self) alloc in
  at_alloc (ref_id self) res.

Definition write_ptr_sized (self : AllocRef) (offset : Size) (val : Scalar AllocId) : I unit :=
  write_scalar self (alloc_range offset (pointer_size data_layout)) val.

Definition write_uninit (self : AllocRef) : I unit :=
  let? (alloc, res) := ilift (Allocation.write_uninit (ref_alloc self) data_layout (ref_range self)) in
  let? _ := update_alloc (ref_id self) alloc in
  at_alloc (ref_id self) res.

Definition has_provenance (self : AllocRef) : I bool :=
  let? empty := ilift (ProvenanceMap.range_empty (Allocation.prov_map (ref_alloc self)) (ref_range self) data_layout) in
  iret (negb empty).

(** The bytes as a list: [size_hint] is its length. *)
Definition write_bytes_ptr (ptr : Pointer (option AllocId)) (src : list Z) : I unit :=
  let size := Size.from_bytes (Z.of_nat (length src)) in
  let? alloc_ref := get_ptr_alloc_mut ptr size Align.ONE in
  match alloc_ref with
  | None => iret tt
  | Some alloc_ref =>
      let? (alloc, bytes) := ilift (Allocation.get_bytes_mut (ref_alloc alloc_ref) data_layout (ref_range alloc_ref)) in
      match bytes with
      | Err e =>
          let? _ := update_alloc (ref_id alloc_ref) alloc in throw (AllocErrorAt e (ref_id alloc_ref))
      | Ok _ => update_alloc (ref_id alloc_ref) (Allocation.write_slice alloc (ref_range alloc_ref) src)
      end
  end.

(** Fields *)
Section fields.
Context `{U384Api}.

Definition write_field (self : AllocRef) (range : AllocRange) (val : ScalarField.t) : I unit :=
  let? range := ilift (subrange (ref_range self) range) in
  let? (alloc, res) := ilift (Allocation.write_field (ref_alloc self) data_layout range val) in
  let? _ := update_alloc (ref_id self) alloc in
  at_alloc (ref_id self) res.

Definition read_field (self : AllocRef) (range : AllocRange) : I ScalarField.t :=
  let? range := ilift (subrange (ref_range self) range) in
  let? res := ilift (Allocation.read_field (ref_alloc self) data_layout range) in
  at_alloc (ref_id self) res.

End fields.

Definition get_bytes_strip_provenance (self : AllocRef) : I (list Z) :=
  let? res := ilift (Allocation.get_bytes_strip_provenance (ref_alloc self) data_layout (ref_range self)) in
  at_alloc (ref_id self) res.

Definition read_bytes_ptr_strip_provenance (ptr : Pointer (option AllocId)) (size : Size) : I (list Z) :=
  let? alloc_ref := get_ptr_alloc ptr size Align.ONE in
  match alloc_ref with
  | None => iret []
  | Some alloc_ref => get_bytes_strip_provenance alloc_ref
  end.

(** * Copies *)

(** The allocations that a copy looks at: the local ones, and the source *)
Definition copy_view (ecx : Ecx) (src_id : Z) (src_alloc : allocation) : gmap Z allocation :=
  <[src_id := src_alloc]> (snd <$> alloc_map ecx).

(** From the lookup of the destination on; of the allocations only the destination changes. *)
Definition copy_to (src dest : AllocId * Size) (size : Size) (num_copies : Z) (nonoverlapping : bool) (src_alloc : allocation)
    (init : InitCopy) (provenance : ProvenanceCopy AllocId) : I unit :=
  let? dest_alloc := get_alloc_raw_mut dest.1 in
  let? ecx := get_ecx in
  let? (m, r) := ilift (copy_prepared (copy_view ecx src.1 src_alloc) data_layout src dest size num_copies nonoverlapping
                          init provenance dest_alloc) in
  let? dest_alloc := ilift (unwrap (m !! dest.1)) in
  let? _ := update_alloc dest.1 dest_alloc in
  match r with
  | Ok _ => iret tt
  | Err (FromAlloc e id) => throw (AllocErrorAt e id)
  | Err (DanglingId id) => throw (PointerUseAfterFree id MemoryAccessTest)
  | Err CopyNonoverlappingOverlapping => throw CopyOverlapping
  end.

Definition mem_copy_repeatedly (src : Pointer (option AllocId)) (src_align : Align) (dest : Pointer (option AllocId))
    (dest_align : Align) (size : Size) (num_copies : Z) (nonoverlapping : bool) : I unit :=
  let? src_parts := get_ptr_access src size src_align in
  let? dest_size := ilift (Size.mul size num_copies) in
  let? dest_parts := get_ptr_access dest dest_size dest_align in
  match src_parts with
  | None => iret tt
  | Some (src_alloc_id, src_offset) =>
      let? src_alloc := get_alloc_raw src_alloc_id in
      let src_range := alloc_range src_offset size in
      match dest_parts with
      | None => iret tt
      | Some (dest_alloc_id, dest_offset) =>
          let? _ := ilift (Allocation.get_bytes_unchecked src_alloc src_range) in
          let? provenance := ilift (ProvenanceMap.prepare_copy (Allocation.prov_map src_alloc) src_range dest_offset num_copies data_layout) in
          let? provenance := at_alloc dest_alloc_id provenance in
          let? init := ilift (prepare_copy (Allocation.init src_alloc) src_range) in
          copy_to (src_alloc_id, src_offset) (dest_alloc_id, dest_offset) size num_copies nonoverlapping src_alloc init provenance
      end
  end.

Definition mem_copy (src : Pointer (option AllocId)) (src_align : Align) (dest : Pointer (option AllocId))
    (dest_align : Align) (size : Size) (nonoverlapping : bool) : I unit :=
  mem_copy_repeatedly src src_align dest dest_align size 1 nonoverlapping.

Definition reallocate_ptr (ptr : Pointer (option AllocId)) (old_size_and_align : option (Size * Align))
    (new_size : Size) (new_align : Align) (kind : MemoryKind) : I (Pointer AllocId) :=
  let? (alloc_id, offset) := ptr_get_alloc_id ptr in
  if negb (Size.bytes offset =? 0) then throw AllocWithOffset
  else
    let? new_ptr := allocate_ptr new_size new_align kind in
    let? old_size :=
      match old_size_and_align with
      | Some (size, _) => iret size
      | None => let? alloc := get_alloc_raw alloc_id in iret (Allocation.size alloc)
      end in
    let? _ := mem_copy ptr Align.ONE (some_pointer new_ptr) Align.ONE (Z.min old_size new_size) true in
    let? _ := deallocate_ptr ptr old_size_and_align kind in
    iret new_ptr.

(** * Pointers to globals, and null *)

(** A pointer to a static of another crate gets the identifier of the static. *)
Definition global_base_pointer (ptr : Pointer AllocId) : I (Pointer AllocId) :=
  let? ecx := get_ecx in
  match globals ecx !! provenance ptr with
  | Some (Static def_id) =>
      if is_thread_local_static def_id then λ _, Panic
      else if is_foreign_item def_id then
        let? id := create_static_alloc def_id in iret (mkPointer id Size.ZERO)
      else iret ptr
  | _ => iret ptr
  end.

(** The machine has no functions of its own; [unwrap] of the result *)
Definition create_fn_alloc_ptr (instance : Z) (is_generic : bool) : I (Pointer AllocId) :=
  let? id := create_fn_alloc instance is_generic in
  λ ecx, let! (r, ecx) := global_base_pointer (mkPointer id Size.ZERO) ecx in
         match r with Ok ptr => Ret (Ok ptr, ecx) | Err _ => Panic end.

(** [Scalar::to_pointer] *)
Definition to_pointer (s : Scalar AllocId) : I (Pointer (option AllocId)) :=
  let? r := ilift (Scalar.to_bits_or_ptr_internal s (pointer_size data_layout)) in
  match r with
  | Err e => throw (ScalarMismatch e)
  | Ok (inr ptr) => iret (some_pointer ptr)
  | Ok (inl bits) => let? addr := ilift (try_u64 bits) in iret (from_addr_invalid addr)
  end.

(** [try_to_int] succeeds on integers only, because offsets are not addresses. *)
Definition scalar_may_be_null (scalar : Scalar AllocId) : I bool :=
  match scalar with
  | Int int => iret (int_data int =? 0)
  | Ptr _ _ =>
      let? ptr := to_pointer scalar in
      match ptr_try_get_alloc_id ptr with
      | Ok (alloc_id, offset) =>
          let? ecx := get_ecx in
          let? (size, _, _) := ilift (get_alloc_info ecx alloc_id) in
          iret (size <? offset)
      | Err _ => λ _, Panic
      end
  end.

(** * Leaks *)

(** [while let Some(id) = todo.pop()]: the stack with its top first, so that
    [extend] puts the new items in front in reverse *)
Fixpoint reach_loop (fuel : nat) (m : gmap Z (MemoryKind * allocation)) (todo : list AllocId) (reachable : gset Z) :
    outcome (gset Z) :=
  match fuel with
  | O => Panic
  | S fuel =>
      match todo with
      | [] => Ret reachable
      | id :: todo =>
          if decide (id ∈ reachable) then reach_loop fuel m todo reachable
          else
            let reachable := {[id]} ∪ reachable in
            match m !! id with
            | Some (_, alloc) =>
                reach_loop fuel m (reverse (ProvenanceMap.provenances (Allocation.prov_map alloc)) ++ todo) reachable
            | None => reach_loop fuel m todo reachable
            end
      end
  end.

(** Every identifier is taken from the stack once for each place that holds it. *)
Definition reach_fuel (m : gmap Z (MemoryKind * allocation)) (roots : list AllocId) : nat :=
  S (length roots +
     map_fold (λ _ e n, length (ProvenanceMap.provenances (Allocation.prov_map e.2)) + n)%nat 0%nat m).

(** [GLOBAL_KIND] is [None], so that the static roots are all there are. *)
Definition find_leaked_allocations (ecx : Ecx) (static_roots : list AllocId) :
    outcome (gmap Z (MemoryKind * allocation)) :=
  let m := alloc_map ecx in
  let! reachable := reach_loop (reach_fuel m static_roots) m (reverse static_roots) ∅ in
  Ret (filter (λ e, ¬ (may_leak e.2.1 = true ∨ e.1 ∈ reachable)) m).

End memory.
