(* ===== verification/InterpMemoryLife.v ===== *)
(** The life of allocations in the interpreter's memory: identifiers are never used
    again, freed memory stays inaccessible, and leaks are found exactly. *)

From stdpp Require Import gmap relations.
From S2P Require Import Prelude.
From S2P Require Import Abi.
From S2P Require Import Slice.
From S2P Require Import Provenance.
From S2P Require Import ProvenanceProps.
From S2P Require Import Fields.
From S2P Require Import Allocation.
From S2P Require Import PointerArith.
From S2P Require Import InterpMemory.

Create HintDb keeps.

Ltac istep := unfold ibind, iret, throw, ilift, get_ecx; cbn [obind].

(** A local allocation, and a pointer into an allocation *)
Abbreviation live ecx id kind a := (alloc_map ecx !! id = Some (kind, a)).
Abbreviation ptr_at id off := (mkPointer (Some id) off).

Section life.
Context `{T : Tcx}.

(** ** Identifiers *)

(** Local, freed and global allocations have different identifiers, which have
    been handed out, and a deduplicated global is where the map says. *)
Record ids_ok (ecx : Ecx) : Prop := {
  ids_next id : is_Some (alloc_map ecx !! id) ∨ is_Some (dead_alloc_map ecx !! id) ∨ is_Some (globals ecx !! id) →
    id < next_id ecx;
  ids_dead id : is_Some (dead_alloc_map ecx !! id) → alloc_map ecx !! id = None ∧ globals ecx !! id = None;
  ids_local id : is_Some (alloc_map ecx !! id) → globals ecx !! id = None;
  ids_dedup key (id : Z) : dedup ecx !! key = Some id → ∃ g, globals ecx !! id = Some g ∧ dedup_key g = Some key;
}.

(** What every operation keeps *)
Definition grows (ecx ecx' : Ecx) : Prop := ids_ok ecx →
  ids_ok ecx' ∧ dead_alloc_map ecx ⊆ dead_alloc_map ecx' ∧ globals ecx ⊆ globals ecx' ∧ dedup ecx ⊆ dedup ecx' ∧
  next_id ecx ≤ next_id ecx'.

#[local] Instance grows_preorder : PreOrder grows.
Proof.
  split.
  - by intros ecx Hi.
  - intros x y z H1 H2 Hi. destruct (H1 Hi) as (Hy & ? & ? & ? & ?). destruct (H2 Hy) as (? & ? & ? & ? & ?).
    split_and!; [done|by etrans..|lia].
Qed.

Definition keeps {A} (m : I A) : Prop := ∀ ecx r ecx', m ecx = Ret (r, ecx') → grows ecx ecx'.

Lemma keeps_ret {A} (a : A) : keeps (iret a).
Proof. intros ecx r ecx' [= <- <-]. done. Qed.
Lemma keeps_throw {A} e : keeps (A := A) (throw e).
Proof. intros ecx r ecx' [= <- <-]. done. Qed.
Lemma keeps_lift {A} (c : outcome A) : keeps (ilift c).
Proof. intros ecx r ecx'. unfold ilift. destruct c; cbn; [|done]. by intros [= <- <-]. Qed.
Lemma keeps_get : keeps get_ecx.
Proof. intros ecx r ecx' [= <- <-]. done. Qed.
Lemma keeps_panic {A} : keeps (A := A) (λ _, Panic).
Proof. by intros ecx r ecx'. Qed.
Lemma keeps_bind {A B} (m : I A) (k : A → I B) : keeps m → (∀ a, keeps (k a)) → keeps (ibind m k).
Proof.
  intros Hm Hk ecx r ecx'. unfold ibind. destruct (m ecx) as [[[a|e] ecx1]|] eqn:E; cbn; [| |done].
  - intros E'. etrans; [by eapply Hm|by eapply Hk].
  - intros [= <- <-]. by eapply Hm.
Qed.
#[local] Hint Resolve keeps_ret keeps_throw keeps_lift keeps_get keeps_panic : keeps.

Ltac keeps := repeat first [solve [eauto with keeps] | apply keeps_bind; [|intros ?; cbv beta] | case_match].

Lemma keeps_alignment has required check : keeps (alignment_check_failed has required check).
Proof.
  intros ecx r ecx'. destruct check; cbn; [done|..]; intros [= <- <-]; [done|]. intros [H1 H2 H3 H4].
  split_and!; [|done..]. by split.
Qed.
#[local] Hint Resolve keeps_alignment : keeps.

Lemma keeps_offset_align offset align check : keeps (check_offset_align offset align check).
Proof. unfold check_offset_align. keeps. Qed.
#[local] Hint Resolve keeps_offset_align : keeps.

Lemma keeps_deref {V} ptr size align check msg (f : AllocId → Size → I (Size * Align * V)) :
  (∀ id off, keeps (f id off)) → keeps (check_and_deref_ptr ptr size align check msg f).
Proof. intros Hf. unfold check_and_deref_ptr. keeps. Qed.

Lemma keeps_live id msg : keeps (get_live_alloc_size_and_align id msg).
Proof. unfold get_live_alloc_size_and_align. keeps. Qed.
#[local] Hint Resolve keeps_live : keeps.

Lemma keeps_global id w : keeps (get_global_alloc id w).
Proof. unfold get_global_alloc, before_access_global. keeps. Qed.
#[local] Hint Resolve keeps_global : keeps.

Lemma keeps_access ptr size align : keeps (get_ptr_access ptr size align).
Proof. unfold get_ptr_access. apply keeps_bind; [keeps|]. intros ecx. apply keeps_deref. intros. keeps. Qed.
Lemma keeps_raw_mut id : keeps (get_alloc_raw_mut id).
Proof. unfold get_alloc_raw_mut. keeps. Qed.
#[local] Hint Resolve keeps_access keeps_raw_mut : keeps.

Lemma keeps_alloc ptr size align : keeps (get_ptr_alloc ptr size align).
Proof.
  unfold get_ptr_alloc. apply keeps_bind; [keeps|]. intros ecx. apply keeps_bind; [|intros; keeps].
  apply keeps_deref. intros. unfold get_alloc_raw. keeps.
Qed.
Lemma keeps_alloc_mut ptr size align : keeps (get_ptr_alloc_mut ptr size align).
Proof. unfold get_ptr_alloc_mut. keeps. Qed.
#[local] Hint Resolve keeps_alloc keeps_alloc_mut : keeps.

Lemma keeps_update id a : keeps (update_alloc id a).
Proof.
  intros ecx r ecx' [= <- <-] [H1 H2 H3 H4].
  assert (∀ i, is_Some (alter (λ e : MemoryKind * allocation, (e.1, a)) id (alloc_map ecx) !! i) → is_Some (alloc_map ecx !! i)) as Hs.
  { intros i. rewrite lookup_alter. case_decide as E; [|done]. subst i. by rewrite fmap_is_Some. }
  split_and!; [|done..]. split; cbn.
  - intros i [?%Hs|?]; auto.
  - intros i Hi. split; [|by apply H2]. apply eq_None_not_Some. intros ?%Hs. destruct (H2 i Hi) as [E _]. rewrite E in *. by destruct H.
  - intros i ?%Hs. by apply H3.
  - done.
Qed.
#[local] Hint Resolve keeps_update : keeps.

(** ** Fresh identifiers *)

Lemma reserve_inv ecx r ecx' : reserve ecx = Ret (r, ecx') →
  r = Ok (next_id ecx) ∧ ecx' = with_globals ecx (globals ecx) (dedup ecx) (next_id ecx + 1).
Proof. unfold reserve, checked_add. case_match; cbn [unwrap obind]; [|done]. by intros [= <- <-]. Qed.

Lemma fresh_free ecx : ids_ok ecx → alloc_map ecx !! next_id ecx = None ∧ dead_alloc_map ecx !! next_id ecx = None ∧
  globals ecx !! next_id ecx = None.
Proof.
  intros Hi. pose proof (ids_next ecx Hi (next_id ecx)) as Hn.
  split_and!; apply eq_None_not_Some; intros ?; specialize (Hn ltac:(tauto)); lia.
Qed.

(** A sum of lookups in a map with one more entry *)
Lemma insert_some {A} (m : gmap Z A) i v j : is_Some (<[i := v]> m !! j) ↔ i = j ∨ is_Some (m !! j).
Proof. rewrite lookup_insert_is_Some'. naive_solver. Qed.

Lemma insert_none {A} (m : gmap Z A) i v j : i ≠ j → m !! j = None → <[i := v]> m !! j = None.
Proof. intros. by rewrite lookup_insert_ne. Qed.

(** A new global under a fresh identifier, recorded for deduplication or not *)
Lemma grows_global (ecx : Ecx) (g : GlobalAlloc) (d : gmap (Z * Z) AllocId) :
  (∀ (key : Z * Z) (id : AllocId), d !! key = Some id → dedup ecx !! key = Some id ∨ id = next_id ecx ∧ dedup_key g = Some key) → dedup ecx ⊆ d →
  grows ecx (with_globals ecx (<[next_id ecx := g]> (globals ecx)) d (next_id ecx + 1)).
Proof.
  intros Hd Hsub Hi. destruct (fresh_free ecx Hi) as (F1 & F2 & F3). split_and!; [|done|by apply insert_subseteq|done|cbn; lia].
  split; cbn.
  - intros id. rewrite insert_some. pose proof (ids_next ecx Hi id). intros [?|[?|[?|?]]]; lia || (cut (id < next_id ecx); [lia|tauto]).
  - intros id Hid. destruct (ids_dead ecx Hi id Hid) as [? ?]. split; [done|]. apply insert_none; [|done]. intros <-. rewrite F2 in Hid. by destruct Hid.
  - intros id Hid. apply insert_none; [|by apply (ids_local ecx Hi)]. intros <-. rewrite F1 in Hid. by destruct Hid.
  - intros key id Hk. destruct (Hd key id Hk) as [Hk'|[-> ?]]; [|exists g; by rewrite lookup_insert_eq].
    destruct (ids_dedup ecx Hi key id Hk') as (g' & Hg & ?). exists g'. split; [|done]. rewrite lookup_insert_ne; [done|]. intros E. rewrite <- E in Hg. by rewrite F3 in Hg.
Qed.

(** A new local allocation under a fresh identifier *)
Lemma grows_local ecx e :
  grows ecx (with_alloc_map (with_globals ecx (globals ecx) (dedup ecx) (next_id ecx + 1)) (<[next_id ecx := e]> (alloc_map ecx))).
Proof.
  intros Hi. destruct (fresh_free ecx Hi) as (F1 & F2 & F3). split_and!; [|done|done|done|cbn; lia].
  split; cbn; [| | |apply Hi].
  - intros id. rewrite insert_some. pose proof (ids_next ecx Hi id). intros [[?|?]|?]; lia || (cut (id < next_id ecx); [lia|tauto]).
  - intros id Hid. destruct (ids_dead ecx Hi id Hid) as [? ?]. split; [|done]. apply insert_none; [|done]. intros <-. rewrite F2 in Hid. by destruct Hid.
  - intros id. rewrite insert_some. intros [<-|?]; [done|]. by apply (ids_local ecx Hi).
Qed.

Lemma keeps_dedup (g : GlobalAlloc) : keeps (reserve_and_set_dedup g).
Proof.
  intros ecx r ecx'. unfold reserve_and_set_dedup. istep. destruct (dedup_key g) as [key|] eqn:Hg; [|done]. cbn [unwrap obind].
  destruct (dedup ecx !! key) as [id|] eqn:Hk; [by intros [= <- <-]|].
  destruct (reserve ecx) as [[r1 ecx1]|] eqn:E; [|done]. apply reserve_inv in E as [-> ->]. cbn. intros [= <- <-].
  change (with_globals _ _ _ _) with (with_globals ecx (<[next_id ecx := g]> (globals ecx)) (<[key := next_id ecx]> (dedup ecx)) (next_id ecx + 1)).
  apply grows_global; [|by apply insert_subseteq]. intros k id. rewrite lookup_insert. case_decide; [|by left].
  intros [= <-]. right. subst. by rewrite Hg.
Qed.
#[local] Hint Resolve keeps_dedup : keeps.

Lemma keeps_fn instance is_generic : keeps (create_fn_alloc instance is_generic).
Proof.
  destruct is_generic; [|keeps]. intros ecx r ecx'. cbn. istep. destruct (reserve ecx) as [[r1 ecx1]|] eqn:E; [|done].
  apply reserve_inv in E as [-> ->]. cbn. intros [= <- <-]. apply (grows_global ecx _ (dedup ecx)); [by left|done].
Qed.

Lemma keeps_memory mem : keeps (create_memory_alloc mem).
Proof.
  intros ecx r ecx'. unfold create_memory_alloc. istep. destruct (reserve ecx) as [[r1 ecx1]|] eqn:E; [|done].
  apply reserve_inv in E as [-> ->]. cbn [obind]. unfold set_alloc_id_memory. istep. case_match; [done|]. cbn. intros [= <- <-].
  apply (grows_global ecx _ (dedup ecx)); [by left|done].
Qed.

Lemma allocate_inv alloc kind ecx r ecx' : allocate_raw_ptr alloc kind ecx = Ret (r, ecx') →
  r = Ok (mkPointer (next_id ecx) Size.ZERO) ∧
  ecx' = with_alloc_map (with_globals ecx (globals ecx) (dedup ecx) (next_id ecx + 1))
           (<[next_id ecx := (kind, alloc)]> (alloc_map ecx)).
Proof.
  unfold allocate_raw_ptr. istep. destruct (reserve ecx) as [[r1 ecx1]|] eqn:E; [|done].
  apply reserve_inv in E as [-> ->]. by intros [= <- <-].
Qed.

Lemma keeps_allocate alloc kind : keeps (allocate_raw_ptr alloc kind).
Proof. intros ecx r ecx' [-> ->]%allocate_inv. apply grows_local. Qed.
#[local] Hint Resolve keeps_fn keeps_memory keeps_allocate : keeps.

(** The allocation leaves the map, also when the operation fails afterwards. *)
Lemma grows_delete ecx id : grows ecx (with_alloc_map ecx (delete id (alloc_map ecx))).
Proof.
  intros Hi. split_and!; [|done..].
  assert (∀ i, is_Some (delete id (alloc_map ecx) !! i) → is_Some (alloc_map ecx !! i)) as Hs.
  { intros i. rewrite lookup_delete_is_Some. tauto. }
  split; cbn; [| | |apply Hi].
  - intros i [?%Hs|?]; apply (ids_next ecx Hi); tauto.
  - intros i Hd. destruct (ids_dead ecx Hi i Hd) as [E ?]. split; [|done]. apply lookup_delete_None. by right.
  - intros i ?%Hs. by apply (ids_local ecx Hi).
Qed.

Lemma grows_dead ecx id e v : alloc_map ecx !! id = Some e → dead_alloc_map ecx !! id = None →
  grows ecx (with_dead (with_alloc_map ecx (delete id (alloc_map ecx))) (<[id := v]> (dead_alloc_map ecx))).
Proof.
  intros Hl Hd Hi. destruct (grows_delete ecx id Hi) as ([H1 H2 H3 H4] & _). cbn in *.
  assert (is_Some (alloc_map ecx !! id)) as Hs by (by eexists).
  split_and!; [|by apply insert_subseteq|done..]. split; cbn; [| |done|done].
  - intros i. rewrite insert_some. intros [?|[[<-|?]|?]]; [apply H1; tauto| |apply H1; tauto..]. apply (ids_next ecx Hi). tauto.
  - intros i. rewrite insert_some. intros [<-|?]; [|by apply H2]. rewrite lookup_delete_eq. split; [done|]. by apply (ids_local ecx Hi).
Qed.

(** A deallocation fails, having changed nothing or removed the allocation, or
    it moves the allocation to the dead ones. *)
Lemma deallocate_inv id off old kind ecx r ecx' : deallocate_ptr (ptr_at id off) old kind ecx = Ret (r, ecx') →
  (∃ e, r = Err e) ∧ (ecx' = ecx ∨ ecx' = with_alloc_map ecx (delete id (alloc_map ecx))) ∨
  ∃ a, r = Ok tt ∧ off = 0 ∧ live ecx id kind a ∧ dead_alloc_map ecx !! id = None ∧ Allocation.mutability a = Mut ∧
    ecx' = with_dead (with_alloc_map ecx (delete id (alloc_map ecx)))
             (<[id := (Allocation.size a, Allocation.align a)]> (dead_alloc_map ecx)).
Proof.
  unfold deallocate_ptr, ptr_get_alloc_id, ptr_try_get_alloc_id, into_pointer_or_addr. cbn [provenance offset]. istep.
  unfold Size.bytes. destruct (Z.eqb_spec off 0) as [->|]; cbn [negb]; [|intros [= <- <-]; left; eauto].
  destruct (alloc_map ecx !! id) as [[k a]|] eqn:Hl; [|intros [= <- <-]; left; eauto].
  case_decide as Hm; [intros [= <- <-]; left; eauto|].
  destruct (decide (k = kind)) as [->|]; [|rewrite decide_True by done; intros [= <- <-]; left; eauto]. rewrite decide_False by tauto.
  case_match; [intros [= <- <-]; left; eauto|]. cbn [with_alloc_map dead_alloc_map].
  destruct (dead_alloc_map ecx !! id) eqn:Hd; [done|]. intros [= <- <-]. right. exists a. split_and!; try done. by destruct (Allocation.mutability a).
Qed.

Lemma keeps_deallocate ptr old kind : keeps (deallocate_ptr ptr old kind).
Proof.
  intros ecx r ecx'. destruct ptr as [[id|] off]; [|by intros [= <- <-]].
  intros [[_ [H|H]]|(a & _ & _ & ? & ? & _ & H)]%deallocate_inv; rewrite H; [done|apply grows_delete|by eapply grows_dead].
Qed.
#[local] Hint Resolve keeps_deallocate : keeps.

(** ** Operations *)

Lemma keeps_at {A} id (r : result A AllocError) : keeps (at_alloc id r).
Proof. unfold at_alloc. keeps. Qed.
#[local] Hint Resolve keeps_at : keeps.

(** An access followed by what is done with the reference *)
Definition with_ref {A} (access : I (option AllocRef)) (use : AllocRef → I A) : I (option A) :=
  let? r := access in
  match r with Some r => let? a := use r in iret (Some a) | None => iret None end.

(** The operations of the interpreter and of the type context on memory *)
Inductive operation : ∀ {A}, I A → Prop :=
| op_allocate size align kind : operation (allocate_ptr size align kind)
| op_allocate_bytes bytes align kind mutability : operation (allocate_bytes_ptr bytes align kind mutability)
| op_deallocate ptr old kind : operation (deallocate_ptr ptr old kind)
| op_read ptr size align range rp :
    operation (with_ref (get_ptr_alloc ptr size align) (λ r, read_scalar r range rp))
| op_write ptr size align range val :
    operation (with_ref (get_ptr_alloc_mut ptr size align) (λ r, write_scalar r range val))
| op_write_uninit ptr size align : operation (with_ref (get_ptr_alloc_mut ptr size align) write_uninit)
| op_write_field `{U384Api} ptr size align range val :
    operation (with_ref (get_ptr_alloc_mut ptr size align) (λ r, write_field r range val))
| op_write_bytes ptr src : operation (write_bytes_ptr ptr src)
| op_read_bytes ptr size : operation (read_bytes_ptr_strip_provenance ptr size)
| op_copy src src_align dest dest_align size num_copies nonoverlapping :
    operation (mem_copy_repeatedly src src_align dest dest_align size num_copies nonoverlapping)
| op_reallocate ptr old size align kind : operation (reallocate_ptr ptr old size align kind)
| op_check ptr size align msg : operation (check_ptr_access_align ptr size align msg)
| op_mark_immutable id : operation (alloc_mark_immutable id)
| op_fn instance is_generic : operation (create_fn_alloc_ptr instance is_generic)
| op_base ptr : operation (global_base_pointer ptr)
| op_vtable ty : operation (create_vtable_alloc ty)
| op_static def_id : operation (create_static_alloc def_id)
| op_memory mem : operation (create_memory_alloc mem).

(** A step performs an operation, which may fail. *)
Definition mem_step (ecx ecx' : Ecx) : Prop := ∃ A (m : I A) r, operation m ∧ m ecx = Ret (r, ecx').

Lemma keeps_copy src src_align dest dest_align size n no :
  keeps (mem_copy_repeatedly src src_align dest dest_align size n no).
Proof. unfold mem_copy_repeatedly, copy_to, get_alloc_raw. keeps. Qed.

Lemma keeps_allocate_ptr size align kind : keeps (allocate_ptr size align kind).
Proof. unfold allocate_ptr. keeps. Qed.
#[local] Hint Resolve keeps_copy keeps_allocate_ptr : keeps.

Lemma keeps_reallocate ptr old size align kind : keeps (reallocate_ptr ptr old size align kind).
Proof. unfold reallocate_ptr, ptr_get_alloc_id, get_alloc_raw, mem_copy. keeps. Qed.

Lemma keeps_base ptr : keeps (global_base_pointer ptr).
Proof. unfold global_base_pointer, create_static_alloc. keeps. Qed.
#[local] Hint Resolve keeps_reallocate keeps_base : keeps.

Lemma keeps_fn_ptr instance is_generic : keeps (create_fn_alloc_ptr instance is_generic).
Proof.
  apply keeps_bind; [keeps|]. intros id ecx r ecx'. destruct (global_base_pointer _ ecx) as [[[p|e] ecx1]|] eqn:E; [|done..].
  intros [= <- <-]. by eapply keeps_base.
Qed.
#[local] Hint Resolve keeps_fn_ptr : keeps.

Lemma operation_keeps {A} (m : I A) : operation m → keeps m.
Proof.
  intros []; unfold allocate_bytes_ptr, with_ref, read_scalar, write_scalar, write_field, write_uninit, write_bytes_ptr,
    read_bytes_ptr_strip_provenance, get_bytes_strip_provenance, alloc_mark_immutable, create_vtable_alloc, create_static_alloc;
    try solve [keeps].
  unfold check_ptr_access_align. apply keeps_bind; [|intros; keeps]. apply keeps_deref. intros. keeps.
Qed.

Lemma steps_grow ecx ecx' : rtc mem_step ecx ecx' → grows ecx ecx'.
Proof. induction 1 as [|x y z (A & m & r & Hop & E) _ IH]; [done|]. etrans; [by eapply operation_keeps|done]. Qed.

(** ** Freed memory *)

Lemma dead_info ecx id e msg : ids_ok ecx → dead_alloc_map ecx !! id = Some e →
  get_live_alloc_size_and_align id msg ecx = Ret (Err (PointerUseAfterFree id msg), ecx) ∧
  ∀ w, get_global_alloc id w ecx = Ret (Err (PointerUseAfterFree id MemoryAccessTest), ecx).
Proof.
  intros Hi Hd. destruct (ids_dead ecx Hi id) as [Hl Hg]; [by eexists|].
  unfold get_live_alloc_size_and_align, get_alloc_info, get_fn_alloc, get_global_alloc. istep. unfold AllocId in *.
  rewrite Hl, Hg, Hd. by destruct e.
Qed.

(** Accesses and deallocations fail, without any effect: with a use after free,
    but for a deallocation at an offset other than 0, where the offset is reported. *)
Definition inaccessible (ecx : Ecx) (id : AllocId) : Prop :=
  let uaf {A} (m : I A) msg := m ecx = Ret (Err (PointerUseAfterFree id msg), ecx) in
  (∀ off size align, uaf (get_ptr_alloc (ptr_at id off) size align) MemoryAccessTest ∧
     uaf (get_ptr_alloc_mut (ptr_at id off) size align) MemoryAccessTest ∧
     ∀ msg, uaf (check_ptr_access_align (ptr_at id off) size align msg) msg) ∧
  ∀ off old kind, deallocate_ptr (ptr_at id off) old kind ecx
    = Ret (Err (if decide (off = 0) then PointerUseAfterFree id MemoryAccessTest else AllocWithOffset), ecx).

Lemma dead_inaccessible ecx id : ids_ok ecx → is_Some (dead_alloc_map ecx !! id) → inaccessible ecx id.
Proof.
  intros Hi [e Hd]. destruct (ids_dead ecx Hi id) as [Hl Hg]; [by eexists|].
  pose proof (λ msg, proj1 (dead_info ecx id e msg Hi Hd)) as Hlive. destruct (dead_info ecx id e DerefTest Hi Hd) as [_ Hglob].
  split; [intros off size align; split_and!|].
  - unfold get_ptr_alloc, check_and_deref_ptr, ptr_try_get_alloc_id, get_alloc_raw. istep. cbn. unfold AllocId in *. by rewrite Hl, Hglob.
  - unfold get_ptr_alloc_mut, get_ptr_access, check_and_deref_ptr, ptr_try_get_alloc_id. istep. cbn [into_pointer_or_addr provenance offset]. by rewrite Hlive.
  - intros msg. unfold check_ptr_access_align, check_and_deref_ptr, ptr_try_get_alloc_id. istep. cbn [into_pointer_or_addr provenance offset]. by rewrite Hlive.
  - intros off old kind. unfold deallocate_ptr, ptr_get_alloc_id, ptr_try_get_alloc_id, dealloc_global. istep.
    cbn [into_pointer_or_addr provenance offset]. istep. unfold Size.bytes.
    destruct (Z.eqb_spec off 0); case_decide; try done. cbn. unfold AllocId in *. by rewrite Hl, Hg.
Qed.

(** C17. Freed memory is never accessible again.  Once a deallocation through a
    pointer has succeeded, after any sequence of operations on memory, failed ones
    included, every read, write and access check through a pointer into that
    allocation, at any offset and for any size, reports a use after free; so does
    a second deallocation through a pointer to its start, while one at any other
    offset is rejected because of the offset; none of these changes the memory;
    and no allocation made then gets its identifier. *)
Theorem freed_memory_inaccessible ecx id off old kind ecx1 ecx2 :
  ids_ok ecx → deallocate_ptr (ptr_at id off) old kind ecx = Ret (Ok tt, ecx1) → rtc mem_step ecx1 ecx2 →
  inaccessible ecx2 id ∧
  ∀ size align kind p ecx3, allocate_ptr size align kind ecx2 = Ret (Ok p, ecx3) → provenance p ≠ id.
Proof.
  intros Hi Hd Hs. destruct (keeps_deallocate _ _ _ _ _ _ Hd Hi) as (Hi1 & _).
  destruct (steps_grow _ _ Hs Hi1) as (Hi2 & Hsub & _). apply deallocate_inv in Hd as [[[e [=]] _]|(a & _ & _ & _ & _ & _ & ->)].
  assert (is_Some (dead_alloc_map ecx2 !! id)) as Hdead.
  { eexists. eapply lookup_weaken; [|exact Hsub]. cbn. apply lookup_insert_eq. }
  split; [by apply dead_inaccessible|]. intros size align k p ecx3. unfold allocate_ptr. case_match; [|done].
  intros [[= ->] _]%allocate_inv. cbn. pose proof (ids_next ecx2 Hi2 id). intros E. cut (id < next_id ecx2); [rewrite E; lia|tauto].
Qed.

(** The memory at the start of an evaluation: no local allocation *)
Lemma initial_ids globals dedup next check statics :
  (∀ id, is_Some (globals !! id) → id < next) →
  (∀ key (id : Z), dedup !! key = Some id → ∃ g, globals !! id = Some g ∧ dedup_key g = Some key) →
  ids_ok (mkEcx globals dedup next ∅ ∅ check statics []).
Proof.
  intros Hg Hd. split; cbn; [|by intros id ?%lookup_empty_is_Some..|done].
  intros id [?%lookup_empty_is_Some|[?%lookup_empty_is_Some|?]]; [done..|auto].
Qed.

(** ** Leaks *)

Abbreviation local_map := (gmap Z (MemoryKind * allocation)).
Definition provs (e : MemoryKind * allocation) : list AllocId := ProvenanceMap.provenances (Allocation.prov_map e.2).

(** An allocation holds a pointer to another. *)
Definition points_to (m : local_map) (x y : Z) : Prop := ∃ e, m !! x = Some e ∧ y ∈ provs e.
Definition reachable_from (m : local_map) (roots : list AllocId) (y : Z) : Prop := ∃ x, x ∈ roots ∧ rtc (points_to m) x y.

(** Pointers in allocations that have not been visited *)
Definition pointers (m : local_map) : nat := map_fold (λ _ e n, length (provs e) + n)%nat 0%nat m.
Definition pending (m : local_map) (seen : gset Z) : nat := pointers (filter (λ e, e.1 ∉ seen) m).

Lemma pending_empty m : pending m ∅ = pointers m.
Proof. unfold pending. rewrite map_filter_id; [done|]. intros. set_solver. Qed.

Lemma pending_visit m seen id e : id ∉ seen → m !! id = Some e →
  pending m seen = (length (provs e) + pending m ({[id]} ∪ seen))%nat.
Proof.
  intros Hn Hm. unfold pending, pointers.
  replace (filter (λ e, e.1 ∉ {[id]} ∪ seen) m) with (delete id (filter (λ e, e.1 ∉ seen) m)).
  - apply (map_fold_delete_L (λ _ e n, length (provs e) + n)%nat 0%nat id e); [intros; lia|]. by apply map_lookup_filter_Some_2.
  - apply map_eq. intros j. apply option_eq. intros x. rewrite lookup_delete_Some, !map_lookup_filter_Some. cbn. set_solver.
Qed.

Lemma pending_skip m seen id : m !! id = None → pending m ({[id]} ∪ seen) = pending m seen.
Proof.
  intros Hm. unfold pending. f_equal. apply map_filter_ext. intros j x Hj. cbn.
  assert (j ≠ id) by congruence. set_solver.
Qed.

(** Where the search stands: what was visited and what is left is reachable, and
    contains the roots and the targets of what was visited. *)
Record searching (m : local_map) (roots todo : list AllocId) (seen : gset Z) : Prop := {
  search_sound y : y ∈ seen ∨ y ∈ todo → reachable_from m roots y;
  search_roots y : y ∈ roots → y ∈ seen ∨ y ∈ todo;
  search_closed x y : x ∈ seen → points_to m x y → y ∈ seen ∨ y ∈ todo;
}.

Lemma searching_seen m roots id todo seen : searching m roots (id :: todo) seen → id ∈ seen → searching m roots todo seen.
Proof.
  intros [H1 H2 H3] Hid. split.
  - intros y Hy. apply H1. set_solver.
  - intros y Hy. destruct (H2 y Hy) as [?|?]; set_solver.
  - intros x y Hx Hp. destruct (H3 x y Hx Hp) as [?|?]; set_solver.
Qed.

Lemma searching_visit m roots id todo seen new : searching m roots (id :: todo) seen →
  (∀ y, y ∈ new ↔ points_to m id y) → searching m roots (new ++ todo) ({[id]} ∪ seen).
Proof.
  intros [H1 H2 H3] Hnew. split.
  - intros y Hy. destruct (decide (y ∈ new)) as [Hin|]; [|apply H1; set_solver].
    destruct (H1 id) as (x & Hx & Hr); [set_solver|]. exists x. split; [done|]. eapply rtc_r; [done|by apply Hnew].
  - intros y Hy. destruct (H2 y Hy) as [?|?]; set_solver.
  - intros x y Hx Hp. destruct (decide (x = id)) as [->|]; [right; apply elem_of_app; left; by apply Hnew|].
    destruct (H3 x y) as [?|?]; [set_solver|done|..]; set_solver.
Qed.

Lemma reach_loop_ret m roots fuel todo seen : searching m roots todo seen → (length todo + pending m seen < fuel)%nat →
  ∃ r, reach_loop fuel m todo seen = Ret r ∧ ∀ y, y ∈ r ↔ reachable_from m roots y.
Proof.
  revert todo seen. induction fuel as [|fuel IH]; intros todo seen Hs Hf; [lia|]. cbn [reach_loop].
  destruct todo as [|id todo].
  { exists seen. split; [done|]. destruct Hs as [H1 H2 H3]. intros y. split; [auto|]. intros (x & Hx & Hr).
    assert (x ∈ seen) as Hxs by (destruct (H2 x Hx); [done|set_solver]). clear Hx.
    induction Hr as [|x z y Hp _ IH']; [done|]. apply IH'. destruct (H3 x z Hxs Hp); [done|set_solver]. }
  case_decide as Hid; [apply IH; [by eapply searching_seen|cbn in Hf; lia]|].
  destruct (m !! id) as [[k a]|] eqn:Hm.
  - apply IH.
    + apply (searching_visit m roots id); [done|]. intros y. rewrite elem_of_reverse. unfold points_to, AllocId in *. rewrite Hm. unfold provs. naive_solver.
    + rewrite (pending_visit m seen id (k, a)) in Hf by done. rewrite length_app, length_reverse. unfold provs, AllocId in *. cbn in Hf |- *. lia.
  - apply IH; [|rewrite pending_skip by done; cbn in Hf; lia]. apply (searching_visit m roots id todo seen []); [done|].
    intros y. unfold points_to, AllocId in *. rewrite Hm. split; [set_solver|naive_solver].
Qed.

(** C20. The search for leaked allocations terminates and is exact: it returns the
    local allocations that are not of a kind that may leak and that no chain of
    pointers, from one allocation into the next, connects with the static roots. *)
Theorem leaks_exact ecx roots : ∃ leaks, find_leaked_allocations ecx roots = Ret leaks ∧
  ∀ id kind a, leaks !! id = Some (kind, a) ↔
    live ecx id kind a ∧ may_leak kind = false ∧ ¬ reachable_from (alloc_map ecx) roots id.
Proof.
  unfold find_leaked_allocations.
  destruct (reach_loop_ret (alloc_map ecx) roots (reach_fuel (alloc_map ecx) roots) (reverse roots) ∅) as (r & -> & Hr).
  { split; [|intros y; rewrite elem_of_reverse; auto|set_solver]. intros y. rewrite elem_of_reverse.
    intros [?|?]; [set_solver|]. by exists y. }
  { rewrite pending_empty, length_reverse. unfold reach_fuel, pointers, provs. lia. }
  eexists. split; [done|]. intros id kind a. rewrite map_lookup_filter_Some. cbn. rewrite Hr. destruct (may_leak kind); naive_solver.
Qed.
End life.

(** ** A sample *)

(** No statics; the host has memory. *)
Definition sample_tcx : Tcx := {|
  data_layout := sample_cx Little;
  is_static _ := false;
  is_thread_local_static _ := false;
  is_foreign_item _ := false;
  static_layout _ := (0, Align.ONE);
  eval_static_initializer _ := None;
  zeroed size := Some (replicate (Z.to_nat size) 0);
|}.

(** One allocation of four bytes on the stack, and a function *)
Definition sample_ecx : Ecx :=
  mkEcx {[1 := Function 7]} {[(0, 7) := 1]} 3 {[2 := (Stack, Allocation.from_raw_bytes [1; 2; 3; 4] 2 Mut)]} ∅ CheckError false [].

Lemma sample_ids : ids_ok sample_ecx.
Proof.
  assert (∀ A (i j : Z) (x : A), is_Some (({[i := x]} : gmap Z A) !! j) → j = i) as Hs.
  { intros A i j x. rewrite lookup_singleton. case_decide; [done|]. by intros [? ?]. }
  split; cbn.
  - intros id [->%Hs|[?%lookup_empty_is_Some| ->%Hs]]; [lia|done|lia].
  - by intros id ?%lookup_empty_is_Some.
  - by intros id ->%Hs.
  - intros key id. rewrite lookup_singleton. case_decide as E; [|done]. intros [= <-]. exists (Function 7). by subst.
Qed.

(** The allocation is freed, and another one made. *)
Lemma freed_memory_inaccessible_witness : let T := sample_tcx in ∃ ecx1 ecx2,
  deallocate_ptr (ptr_at 2 0) (Some (4, 2)) Stack sample_ecx = Ret (Ok tt, ecx1) ∧
  allocate_ptr 8 3 Heap ecx1 = Ret (Ok (mkPointer 3 0), ecx2) ∧
  inaccessible ecx2 2 ∧ ∀ size align kind p ecx3, allocate_ptr size align kind ecx2 = Ret (Ok p, ecx3) → provenance p ≠ 2.
Proof.
  intros T. eexists _, _. split; [reflexivity|]. split; [reflexivity|].
  eapply (freed_memory_inaccessible sample_ecx 2 0 (Some (4, 2)) Stack); [apply sample_ids|reflexivity|].
  apply rtc_once. eexists _, (allocate_ptr 8 3 Heap), _. split; [constructor|reflexivity].
Defined.
