(* ===== verification/InterpMemoryProps.v ===== *)
(** Accesses to the interpreter's memory: they are checked exactly, and what is
    written through a pointer is read back. *)

From stdpp Require Import gmap.
From S2P Require Import Prelude.
From S2P Require Import Abi.
From S2P Require Import AbiProps.
From S2P Require Import Slice.
From S2P Require Import InitMask.
From S2P Require Import InitMaskProps.
From S2P Require Import Provenance.
From S2P Require Import ProvenanceProps.
From S2P Require Import Allocation.
From S2P Require Import AllocationProps.
From S2P Require Import PointerArith.
From S2P Require Import InterpMemory.
From S2P Require Import InterpMemoryLife.

Section memory.
Context `{T : Tcx}.

(** Pointers have 16, 32 or 64 bits, which the bound on object sizes asks for. *)
Hypothesis ps_ok : pointer_size data_layout = 2 ∨ pointer_size data_layout = 4 ∨ pointer_size data_layout = 8.

Definition bound : Z := if pointer_size data_layout =? 2 then 2 ^ 15 else if pointer_size data_layout =? 4 then 2 ^ 31 else 2 ^ 47.

Lemma obj_bound_ret : obj_size_bound data_layout = Ret bound.
Proof. unfold obj_size_bound, bound. destruct ps_ok as [-> | [-> | ->]]; done. Qed.

Lemma oob_ret offset size alloc_size : 0 ≤ offset → 0 ≤ size → 
  out_of_bounds offset size alloc_size = Ret (negb ((offset + size <? bound) && (offset + size <=? alloc_size))).
Proof.
  intros Ho Hs. unfold out_of_bounds, size_checked_add, checked_add, Size.bytes, Size.from_bytes. 
  assert (bound ≤ 2 ^ 47) as Hb by (unfold bound; repeat case_match; lia).
  rewrite obj_bound_ret. destruct (Z.ltb_spec (offset + size) (2 ^ 64)); cbn [obind].
  - destruct (Z.ltb_spec (offset + size) bound); cbn [obind andb negb]; [|done]. by rewrite <- Z.ltb_antisym.
  - by rewrite (proj2 (Z.ltb_ge _ bound)) by lia.
Qed.

(** ** Alignment *)

Definition valid_align (a : Align) : Prop := 0 ≤ a ≤ 29.

(** Effects of a failed alignment check *)
Definition misaligned (align : Align) (check : CheckAlignment) (ecx : Ecx) (r : result unit MemError) (ecx' : Ecx) : Prop :=
  ∃ has, valid_align has ∧ has < align ∧
    match check with
    | CheckError => r = Err (AlignmentCheckFailed has align) ∧ ecx' = ecx
    | CheckFutureIncompat => r = Ok tt ∧ ecx' = with_lints ecx (lints ecx ++ [(has, align)])
    | CheckNo => False
    end.

Lemma alignment_failed has align check ecx : check ≠ CheckNo → valid_align has → has < align →
  ∃ r ecx', alignment_check_failed has align check ecx = Ret (r, ecx') ∧ misaligned align check ecx r ecx'.
Proof. intros Hc Ha Hl. destruct check; [done|..]; eexists _, _; (split; [done|]); exists has; done. Qed.

Lemma offset_align_ret off align check ecx : 0 ≤ off < 2 ^ 64 → valid_align align → check ≠ CheckNo →
  ∃ r ecx', check_offset_align off align check ecx = Ret (r, ecx') ∧
    (r = Ok tt ∧ ecx' = ecx ∧ (2 ^ align | off) ∨ ¬ (2 ^ align | off) ∧ misaligned align check ecx r ecx').
Proof.
  intros Ho Ha Hc. unfold valid_align in *. unfold check_offset_align. rewrite align_bytes_pow2 by lia.
  pose proof (pow2_pos align ltac:(lia)). destruct (Z.eqb_spec (off mod 2 ^ align) 0) as [E|E].
  { exists (Ok tt), ecx. split; [done|]. left. split_and!; [done..|]. by apply Z.mod_divide; [lia|]. }
  assert (¬ (2 ^ align | off)) as Hnd by (intros Hd; apply E, Z.mod_divide; [lia|done]).
  destruct off as [|q|q]; [by rewrite Zmod_0_l in E| |lia]. cbn [trailing_zeros].
  destruct (pos_trailing_zeros_spec q) as (Ht & k & Hq & Hk). set (t := pos_trailing_zeros q) in *.
  assert (t < align) as Hlt.
  { apply Z.nle_gt. intros Hle. apply Hnd. rewrite Hq. exists (2 ^ (t - align) * (2 * k + 1)).
    replace (2 ^ t) with (2 ^ (t - align) * 2 ^ align) by (rewrite <- Z.pow_add_r by lia; f_equal; lia). lia. }
  assert (Align.from_bytes (wshl 64 1 t) = inl t) as ->.
  { change (wshl 64 1 t) with (Align.bytes t). rewrite align_bytes_pow2 by lia. apply align_from_bytes_ok; [|split; [lia|by left]].
    split; [lia|]. apply Z.pow_lt_mono_r; lia. }
  destruct (alignment_failed t align check ecx Hc) as (r & ecx' & E1 & E2); [unfold valid_align; lia|done|].
  exists r, ecx'. split; [done|]. by right.
Qed.

(** ** Checked access *)

Definition aligned (alloc_align align : Align) (off : Size) : Prop := align ≤ alloc_align ∧ (2 ^ align | off).
Definition fits (off size alloc_size : Size) : Prop := off + size < bound ∧ off + size ≤ alloc_size.

(** The results of an access to [size] bytes at [off] in an allocation: out of
    bounds before misaligned, an error for the latter only if the machine says so *)
Inductive checked {V} (asize : Size) (aalign : Align) (id : AllocId) (off size : Size) (align : Align)
    (check : CheckAlignment) (msg : CheckInAllocMsg) (v : V) (ecx : Ecx) : result (option V) MemError → Ecx → Prop :=
| checked_oob : ¬ fits off size asize →
    checked asize aalign id off size align check msg v ecx
      (Err (PointerOutOfBounds id asize (to_signed (8 * pointer_size data_layout) off) size msg)) ecx
| checked_misaligned has : fits off size asize → check = CheckError → ¬ aligned aalign align off → has < align →
    checked asize aalign id off size align check msg v ecx (Err (AlignmentCheckFailed has align)) ecx
| checked_ok l : fits off size asize → (check = CheckError → aligned aalign align off) →
    (l = [] ↔ check ≠ CheckFutureIncompat ∨ aligned aalign align off) →
    checked asize aalign id off size align check msg v ecx (Ok (if size =? 0 then None else Some v))
      (with_lints ecx (lints ecx ++ l)).

Lemma with_lints_nil ecx : with_lints ecx (lints ecx ++ []) = ecx.
Proof. rewrite app_nil_r. by destruct ecx. Qed.

Lemma ps_range : 1 ≤ pointer_size data_layout ≤ 8.
Proof. destruct ps_ok as [-> | [-> | ->]]; lia. Qed.

Lemma ps_range16 : 0 < pointer_size data_layout ≤ 16.
Proof. destruct ps_ok as [-> | [-> | ->]]; lia. Qed.

Definition address (off : Z) : Prop := 0 ≤ off < addresses data_layout.

Lemma address_u64 off : address off → 0 ≤ off < 2 ^ 64.
Proof. intros Ho. unfold address in *. destruct (bits_val data_layout ps_range) as (_ & _ & ? & _). lia. Qed.

(** The part of the check that looks at the alignment *)
Lemma align_checks aalign align off check ecx : address off → valid_align align → valid_align aalign → check ≠ CheckNo →
  ∃ r ecx',
    (let? _ := (if Align.bytes aalign <? Align.bytes align then alignment_check_failed aalign align check else iret tt) in
     check_offset_align (Size.bytes off) align check) ecx = Ret (r, ecx') ∧
    ((∃ has, r = Err (AlignmentCheckFailed has align) ∧ has < align ∧ ecx' = ecx ∧ check = CheckError ∧ ¬ aligned aalign align off) ∨
     (∃ l, r = Ok tt ∧ ecx' = with_lints ecx (lints ecx ++ l) ∧ (check = CheckError → aligned aalign align off) ∧
       (l = [] ↔ check ≠ CheckFutureIncompat ∨ aligned aalign align off))).
Proof.
  intros Ho Ha Haa Hc. pose proof (address_u64 off Ho) as Ho'. unfold valid_align, aligned in *. rewrite !align_bytes_pow2 by lia.
  assert ((2 ^ aalign <? 2 ^ align) = (aalign <? align)) as ->.
  { apply eq_true_iff_eq. rewrite !Z.ltb_lt. symmetry. apply Z.pow_lt_mono_r_iff; lia. }
  unfold ibind at 1, Size.bytes. destruct (Z.ltb_spec aalign align) as [Hlt|Hge].
  - destruct check; [done|..]; cbn [alignment_check_failed obind].
    + eexists _, _. split; [done|]. left. exists aalign. split_and!; [done|lia|done|done|lia].
    + destruct (offset_align_ret off align CheckFutureIncompat (with_lints ecx (lints ecx ++ [(aalign, align)]))) as (r & ecx' & E & Hr);
        [done|done|done|]. exists r, ecx'. split; [done|]. right.
      destruct Hr as [(-> & -> & _)|(_ & has & _ & _ & -> & ->)].
      * exists [(aalign, align)]. split_and!; [done..|]. split; [done|]. intros [|[]]; [done|lia].
      * exists ([(aalign, align)] ++ [(has, align)]). cbn [with_lints lints]. rewrite app_assoc. split_and!; [done..|].
        split; [done|]. intros [|[]]; [done|lia].
  - cbn [iret obind]. destruct (offset_align_ret off align check ecx) as (r & ecx' & E & Hr); [done..|].
    exists r, ecx'. split; [done|]. destruct Hr as [(-> & -> & Hd)|(Hd & has & _ & Hlt & Hr)].
    + right. exists []. rewrite with_lints_nil. split_and!; [done|done|done|]. split; [by right; split; [lia|]|done].
    + destruct check; [done|..].
      * left. destruct Hr as [-> ->]. exists has. split_and!; [done|done|done|done|tauto].
      * right. destruct Hr as [-> ->]. exists [(has, align)]. split_and!; [done..|]. split; [done|]. intros [|[]]; done.
Qed.

Lemma deref_checked {V} (f : AllocId → Size → I (Size * Align * V)) id off size align check msg asize aalign v ecx :
  address off → 0 ≤ size → valid_align align → valid_align aalign →
  f id off ecx = Ret (Ok (asize, aalign, v), ecx) →
  ∃ r ecx', check_and_deref_ptr (mkPointer (Some id) off) size align check msg f ecx = Ret (r, ecx') ∧
    checked asize aalign id off size align check msg v ecx r ecx'.
Proof.
  intros Ho Hs Ha Haa Hf. pose proof (address_u64 off Ho) as Ho'.
  unfold check_and_deref_ptr, ptr_try_get_alloc_id, into_pointer_or_addr. cbn [provenance offset].
  unfold ibind at 1. rewrite Hf. cbn [obind]. unfold ibind at 1, ilift at 1. rewrite oob_ret by lia. cbn [obind].
  destruct ((off + size <? bound) && (off + size <=? asize)) eqn:Hfit; cbn [negb].
  2: { unfold ibind, ilift, throw, Size.bytes. rewrite usize_to_isize_ret by (try apply ps_range; done). cbn [obind].
    eexists _, _. split; [done|]. constructor. unfold fits. intros [H1 H2]. apply andb_false_iff in Hfit as [?%Z.ltb_ge|?%Z.leb_gt]; lia. }
  apply andb_true_iff in Hfit as [H1%Z.ltb_lt H2%Z.leb_le]. assert (fits off size asize) as Hfits by done.
  destruct (should_check check) eqn:Hsc.
  - assert (check ≠ CheckNo) as Hc by (by destruct check).
    destruct (align_checks aalign align off check ecx Ho Ha Haa Hc) as (r & ecx' & E & Hr).
    unfold ibind at 1. rewrite E. cbn [obind]. destruct Hr as [(has & -> & ? & -> & ? & ?)|(l & -> & -> & ? & ?)].
    + eexists _, _. split; [done|]. by eapply checked_misaligned.
    + eexists _, _. split; [done|]. unfold Size.bytes. by apply checked_ok.
  - destruct check; try done. unfold ibind, iret. cbn [obind]. eexists _, _. split; [done|].
    rewrite <- (with_lints_nil ecx) at 2. apply checked_ok; [done|done|]. split; [by left|done].
Qed.

(** ** Access to local memory *)


Lemma get_live ecx id kind a msg : live ecx id kind a →
  get_live_alloc_size_and_align id msg ecx = Ret (Ok (Allocation.size a, Allocation.align a), ecx).
Proof. intros E. unfold get_live_alloc_size_and_align, get_alloc_info. istep. by rewrite E. Qed.

Lemma get_raw ecx id kind a : live ecx id kind a → get_alloc_raw id ecx = Ret (Ok a, ecx).
Proof. intros E. unfold get_alloc_raw. istep. by rewrite E. Qed.

Lemma access_checked ecx id kind a off size align : live ecx id kind a →
  address off → 0 ≤ size → valid_align align → valid_align (Allocation.align a) →
  ∃ r ecx', get_ptr_access (ptr_at id off) size align ecx = Ret (r, ecx') ∧
    checked (Allocation.size a) (Allocation.align a) id off size align (check_alignment ecx) MemoryAccessTest (id, off) ecx r ecx'.
Proof.
  intros Hl Ho Hs Ha Haa. unfold get_ptr_access. unfold ibind at 1, get_ecx at 1. cbn [obind].
  apply deref_checked; try done. unfold ibind. rewrite (get_live ecx id kind a) by done. done.
Qed.

(** A result of the check as the result of the operation around it *)
Lemma checked_map {V W} asize aalign id off size align check msg (v : V) (w : W) ecx r ecx' :
  checked asize aalign id off size align check msg v ecx r ecx' →
  ∃ r', match r with
        | Ok (Some _) => r' = Ok (Some w)
        | Ok None => r' = Ok None
        | Err e => r' = Err e
        end ∧ checked asize aalign id off size align check msg w ecx r' ecx'.
Proof.
  intros Hc. destruct Hc.
  - eexists. split; [done|]. by constructor.
  - eexists. split; [done|]. by constructor.
  - exists (Ok (if size =? 0 then None else Some w)). split; [by destruct (size =? 0)|]. by constructor.
Qed.

Lemma alloc_checked ecx id kind a off size align : live ecx id kind a →
  address off → 0 ≤ size → valid_align align → valid_align (Allocation.align a) →
  ∃ r ecx', get_ptr_alloc (ptr_at id off) size align ecx = Ret (r, ecx') ∧
    checked (Allocation.size a) (Allocation.align a) id off size align (check_alignment ecx) MemoryAccessTest (mkRef a (alloc_range off size) id) ecx r ecx'.
Proof.
  intros Hl Ho Hs Ha Haa. set (ref := mkRef a (alloc_range off size) id). unfold get_ptr_alloc. unfold ibind at 1, get_ecx at 1. cbn [obind].
    edestruct (deref_checked (λ alloc_id offset, let? alloc := get_alloc_raw alloc_id in
      iret (Allocation.size alloc, Allocation.align alloc, (alloc_id, offset, alloc))) id off size align (check_alignment ecx) MemoryAccessTest
      (Allocation.size a) (Allocation.align a) (id, off, a) ecx) as (r & ecx' & E & Hr); [done..| |].
    { unfold ibind. rewrite (get_raw ecx id kind a) by done. done. }
    unfold ibind at 1. rewrite E. destruct (checked_map _ _ _ _ _ _ _ _ _ ref _ _ _ Hr) as (r' & Hr' & Hc).
    exists r', ecx'. split; [|done]. destruct Hr; [by cbn in Hr'; subst r'..|]. by destruct (size =? 0); cbn in Hr'; subst r'.
Qed.

Lemma alloc_mut_checked ecx id kind a off size align : live ecx id kind a →
  address off → 0 ≤ size → valid_align align → valid_align (Allocation.align a) →
  Allocation.mutability a = Mut →
  ∃ r ecx', get_ptr_alloc_mut (ptr_at id off) size align ecx = Ret (r, ecx') ∧
    checked (Allocation.size a) (Allocation.align a) id off size align (check_alignment ecx) MemoryAccessTest (mkRef a (alloc_range off size) id) ecx r ecx'.
Proof.
  intros Hl Ho Hs Ha Haa Hm. set (ref := mkRef a (alloc_range off size) id). unfold get_ptr_alloc_mut. destruct (access_checked ecx id kind a off size align) as (r & ecx' & E & Hr); [done..|].
    unfold ibind at 1. rewrite E. destruct (checked_map _ _ _ _ _ _ _ _ _ ref _ _ _ Hr) as (r' & Hr' & Hc).
    exists r', ecx'. split; [|done]. destruct Hr; [by cbn in Hr'; subst r'..|]. destruct (size =? 0); cbn in Hr'; subst r'; [done|].
    cbn [obind]. unfold get_alloc_raw_mut. istep. cbn [with_lints alloc_map]. rewrite Hl, decide_False by (by rewrite Hm). done.
Qed.

(** C18. Accesses through a pointer to a live allocation of the interpreter are
    checked exactly.  For reading and, if the allocation is mutable, for writing
    the result is: out of bounds if the end of the range is behind the end of the
    allocation or above the largest object size, whatever the alignment; else
    misaligned if the machine makes that an error and the allocation or the offset
    is less aligned than asked; else the allocation with the range, or nothing if
    the range is empty.  Where misalignment is a lint one is recorded exactly then. *)
Theorem local_access_exact ecx id kind a off size align : live ecx id kind a →
  address off → 0 ≤ size → valid_align align → valid_align (Allocation.align a) →
  let ref := mkRef a (alloc_range off size) id in
  let spec := checked (Allocation.size a) (Allocation.align a) id off size align (check_alignment ecx) MemoryAccessTest ref ecx in
  (∃ r ecx', get_ptr_alloc (ptr_at id off) size align ecx = Ret (r, ecx') ∧ spec r ecx') ∧
  (Allocation.mutability a = Mut →
     ∃ r ecx', get_ptr_alloc_mut (ptr_at id off) size align ecx = Ret (r, ecx') ∧ spec r ecx').
Proof.
  intros Hl Ho Hs Ha Haa ref spec. split; [by apply (alloc_checked _ _ kind)|]. intros Hm. by apply (alloc_mut_checked _ _ kind).
Qed.

(** ** Writing and reading *)

Lemma subrange_ret off size o n : 0 ≤ off → 0 ≤ o → 0 ≤ n → o + n ≤ size → off + size < bound →
  subrange (alloc_range off size) (alloc_range o n) = Ret (alloc_range (off + o) n).
Proof.
  intros Ho Hoo Hn Hin Hb. assert (bound ≤ 2 ^ 47) by (unfold bound; repeat case_match; lia).
  unfold subrange, alloc_range. cbn [range_start range_size]. unfold Size.add, omap_, Size.bytes, Size.from_bytes, checked_add.
  rewrite (proj2 (Z.ltb_lt (off + o) _)) by lia. cbn [unwrap obind]. rewrite !range_end_ret by (cbn; lia). cbn [obind range_start range_size].
  by rewrite (proj2 (Z.leb_le _ _)) by lia.
Qed.

Lemma write_ref_ret r range range' val a' res ecx : subrange (ref_range r) range = Ret range' →
  Allocation.write_scalar (ref_alloc r) data_layout range' val = Ret (a', res) →
  write_scalar r range val ecx = Ret (match res with Ok _ => Ok tt | Err e => Err (AllocErrorAt e (ref_id r)) end,
    with_alloc_map ecx (alter (λ e, (e.1, a')) (ref_id r) (alloc_map ecx))).
Proof. intros Hs Hw. unfold write_scalar, update_alloc, at_alloc. istep. rewrite Hs. cbn [obind]. rewrite Hw. by destruct res as [[]|]. Qed.

Lemma alter_live ecx id kind a a' : live ecx id kind a →
  alter (λ e, (e.1, a')) id (alloc_map ecx) = <[id := (kind, a')]> (alloc_map ecx).
Proof.
  intros Hl. apply map_eq. intros j. destruct (decide (id = j)) as [<-|]; [|by rewrite lookup_alter_ne, lookup_insert_ne].
  unfold AllocId in *. by rewrite lookup_alter_eq, lookup_insert_eq, Hl.
Qed.

(** The access is allowed: it is in bounds, and aligned if that is enforced. *)
Definition allowed ecx (a : allocation) (off size : Size) (align : Align) : Prop :=
  fits off size (Allocation.size a) ∧ (check_alignment ecx = CheckError → aligned (Allocation.align a) align off).

Lemma checked_allowed {V} ecx a id off size align msg (v : V) r ecx' : 0 < size → allowed ecx a off size align →
  checked (Allocation.size a) (Allocation.align a) id off size align (check_alignment ecx) msg v ecx r ecx' →
  r = Ok (Some v) ∧ ∃ l, ecx' = with_lints ecx l.
Proof.
  intros Hs [Hf Ha] Hc. destruct Hc; [done|tauto|]. rewrite (proj2 (Z.eqb_neq size 0)) by lia. eauto.
Qed.

Lemma fits_bounds (a : allocation) off size o n : 0 ≤ off → 0 ≤ o → 0 < n → o + n ≤ size → fits off size (Allocation.size a) →
  in_bounds a (alloc_range (off + o) n).
Proof. intros Ho Hoo Hn Hin [_ Hf]. unfold in_bounds, alen. cbn. unfold Allocation.size, Allocation.len, Size.from_bytes in Hf. lia. Qed.

(** C19. What is written through a pointer is read back through it.  Let an access to
    a live mutable allocation be allowed, for a range and its alignment.  Writing a
    scalar to a part of the range returns; if it succeeds, reading that part through
    the same pointer gives the scalar, a pointer with its provenance, the bytes of
    the allocation outside the part are as they were, and no other allocation
    changes.  It fails only where a pointer would be overwritten in part. *)
Theorem pointer_write_read ecx id kind a off size align o n val :
  live ecx id kind a → wf_alloc data_layout a → Allocation.mutability a = Mut →
  valid_align (Allocation.align a) → valid_align align → address off → allowed ecx a off size align →
  0 ≤ o → 0 < n → o + n ≤ size → scalar_fits data_layout val (alloc_range (off + o) n) →
  ∃ a' res ecx',
    with_ref (get_ptr_alloc_mut (ptr_at id off) size align) (λ r, write_scalar r (alloc_range o n) val) ecx = Ret (res, ecx') ∧
    alloc_map ecx' = <[id := (kind, a')]> (alloc_map ecx) ∧
    match res with
    | Ok _ => res = Ok (Some tt) ∧ wf_alloc data_layout a' ∧ frame data_layout a a' (alloc_range (off + o) n) ∧
        ∃ ecx'', with_ref (get_ptr_alloc (ptr_at id off) size align)
                   (λ r, read_scalar r (alloc_range o n) (is_ptr val)) ecx' = Ret (Ok (Some val), ecx'')
    | Err e => splits data_layout a (alloc_range (off + o) n) ∧ ∃ k, e = AllocErrorAt (OverwritePartialPointer k) id
    end.
Proof.
  intros Hl Hwf Hm Haa Ha Ho Hal Hoo Hn Hin Hfit. pose proof (address_u64 off Ho) as Ho'.
  destruct Hal as [Hf Hali] eqn:Hal'. pose proof (fits_bounds a off size o n ltac:(lia) Hoo Hn Hin Hf) as Hb. clear Hal'.
  destruct (write_read data_layout ps_range16 a _ val Hwf Hb Hm Hfit) as (a' & res & Hw & Hres).
  destruct (alloc_mut_checked ecx id kind a off size align) as (r & ecx1 & E & Hc); [done|done|lia|done..|].
  apply checked_allowed in Hc as [-> [l ->]]; [|lia|done].
  pose proof (subrange_ret off size o n ltac:(lia) Hoo ltac:(lia) Hin (proj1 Hf)) as Hsub.
  set (ecx2 := with_alloc_map (with_lints ecx l) (<[id := (kind, a')]> (alloc_map ecx))).
  assert (with_ref (get_ptr_alloc_mut (ptr_at id off) size align) (λ r, write_scalar r (alloc_range o n) val) ecx
          = Ret (match res with Ok _ => Ok (Some tt) | Err e => Err (AllocErrorAt e id) end, ecx2)) as ->.
  { unfold with_ref, ibind at 1. rewrite E. cbn [obind]. unfold ibind at 1.
    rewrite (write_ref_ret (mkRef a (alloc_range off size) id) _ _ _ _ _ _ Hsub Hw). cbn [obind ref_id]. unfold ecx2. rewrite (alter_live _ id kind a a') by done. by destruct res. }
  eexists a', _, ecx2. split; [done|]. split; [done|]. destruct res as [u|e].
  2: { destruct Hres as [Hsp [k ->]]. eauto. }
  destruct Hres as (Hwf' & Hrd & Hfr & _ & Hlen & Hal' & Hm'). split_and!; [done..|].
  destruct (alloc_checked ecx2 id kind a' off size align) as (r & ecx3 & E' & Hc'); [apply lookup_insert_eq|done|lia|done|by rewrite Hal'|].
  apply checked_allowed in Hc' as [-> [l' ->]]; [|lia|].
  2: { unfold allowed. rewrite Hal'. unfold Allocation.size, Allocation.len, alen in *. by rewrite Hlen. }
  eexists. unfold with_ref, ibind at 1. rewrite E'. cbn [obind]. unfold ibind at 1. unfold read_scalar. istep. cbn [ref_range ref_alloc].
  rewrite Hsub. cbn [obind]. by rewrite Hrd.
Qed.
End memory.

(** ** A sample *)

(** The sample allocation, with 128 bytes, an alignment of eight and a pointer at 16 *)
Definition sample_memory : Ecx := mkEcx ∅ ∅ 5 {[4 := (Stack, sample_alloc)]} ∅ CheckError false [].

Lemma local_access_exact_witness : let T := sample_tcx in
  let ref := mkRef sample_alloc (alloc_range 100 8) 4 in
  let spec := checked 128 3 4 100 8 3 CheckError MemoryAccessTest ref sample_memory in
  (∃ r ecx', get_ptr_alloc (ptr_at 4 100) 8 3 sample_memory = Ret (r, ecx') ∧ spec r ecx') ∧
  (Allocation.mutability sample_alloc = Mut →
     ∃ r ecx', get_ptr_alloc_mut (ptr_at 4 100) 8 3 sample_memory = Ret (r, ecx') ∧ spec r ecx').
Proof.
  intros T. apply (local_access_exact ltac:(right; right; reflexivity) sample_memory 4 Stack sample_alloc 100 8 3);
    [reflexivity|by split|lia|by split|by split].
Defined.

Lemma pointer_write_read_witness : let T := sample_tcx in
  let val := Ptr (mkPointer (2 : AllocId) 300) 8 in ∃ a' res ecx',
  with_ref (get_ptr_alloc_mut (ptr_at 4 8) 16 3) (λ r, write_scalar r (alloc_range 8 8) val) sample_memory = Ret (res, ecx') ∧
  alloc_map ecx' = <[4 := (Stack, a')]> (alloc_map sample_memory) ∧
  match res with
  | Ok _ => res = Ok (Some tt) ∧ wf_alloc data_layout a' ∧ frame data_layout sample_alloc a' (alloc_range 16 8) ∧
      ∃ ecx'', with_ref (get_ptr_alloc (ptr_at 4 8) 16 3)
                 (λ r, read_scalar r (alloc_range 8 8) (is_ptr val)) ecx' = Ret (Ok (Some val), ecx'')
  | Err e => splits data_layout sample_alloc (alloc_range 16 8) ∧ ∃ k, e = AllocErrorAt (OverwritePartialPointer k) 4
  end.
Proof.
  intros T val. apply (pointer_write_read ltac:(right; right; reflexivity) sample_memory 4 Stack sample_alloc 8 16 3 8 8 val);
    [reflexivity|apply sample_wf|reflexivity|by split|by split|by split| |lia|lia|lia|by split_and!].
  split; [by split|]. intros _. split; [done|]. by exists 1.
Defined.
