(* ===== verification/InterpMemoryCopy.v ===== *)
(** Copies between places in the interpreter's memory, and reallocation: what a
    pointer points to moves to a new allocation, and the old one is freed. *)

From stdpp Require Import gmap.
From S2P Require Import Prelude.
From S2P Require Import Abi.
From S2P Require Import AbiProps.
From S2P Require Import Slice.
From S2P Require Import SortedMap.
From S2P Require Import SortedMapProps.
From S2P Require Import InitMask.
From S2P Require Import InitMaskProps.
From S2P Require Import Provenance.
From S2P Require Import ProvenanceProps.
From S2P Require Import Allocation.
From S2P Require Import AllocationProps.
From S2P Require Import Memory.
From S2P Require Import MemoryProps.
From S2P Require Import PointerArith.
From S2P Require Import InterpMemory.
From S2P Require Import InterpMemoryLife.
From S2P Require Import InterpMemoryProps.

Section copy.
Context `{T : Tcx}.

Hypothesis ps_ok : pointer_size data_layout = 2 ∨ pointer_size data_layout = 4 ∨ pointer_size data_layout = 8.

(** ** Accesses with no demand on the alignment *)

Lemma access_one ecx id kind a off size : live ecx id kind a → valid_align (Allocation.align a) → address off → 0 ≤ size →
  fits off size (Allocation.size a) →
  get_ptr_access (ptr_at id off) size Align.ONE ecx = Ret (Ok (if size =? 0 then None else Some (id, off)), ecx).
Proof.
  intros Hl Ha Ho Hs Hf. destruct (access_checked ps_ok ecx id kind a off size Align.ONE) as (r & ecx' & -> & Hc); [done..|by split|done|].
  assert (aligned (Allocation.align a) Align.ONE off) as Hal by (split; [apply Ha|exists off; by rewrite Z.mul_1_r]).
  destruct Hc as [|has|l ? ? Hl']; [done..|]. rewrite (proj2 Hl') by (by right). by rewrite with_lints_nil.
Qed.

Lemma copy_view_local ecx id kind a : live ecx id kind a → copy_view ecx id a = snd <$> alloc_map ecx.
Proof. intros Hl. unfold copy_view. apply insert_id. rewrite lookup_fmap. unfold AllocId in *. by rewrite Hl. Qed.

Lemma bound_small : bound ≤ 2 ^ 47.
Proof. unfold bound. repeat case_match; lia. Qed.

(** ** Copies *)

Lemma lookup_snd (m : gmap Z (MemoryKind * allocation)) id kind a : m !! id = Some (kind, a) → (snd <$> m) !! id = Some a.
Proof. intros E. by rewrite lookup_fmap, E. Qed.

(** The destination stays in the memory. *)
Lemma copy_prepared_dest (m : gmap Z allocation) cx src dest size n no init c da m' res :
  copy_prepared m cx src dest size n no init c da = Ret (m', res) → is_Some (m' !! dest.1).
Proof.
  unfold copy_prepared. destruct (Size.mul _ _) as [z|]; cbn [obind]; [|done].
  destruct (Allocation.get_bytes_mut_ptr _ _ _) as [[a1 [u|e]]|]; cbn [obind]; [|intros [= <- <-]; by rewrite lookup_insert_eq|done].
  destruct (no_bytes_init init).
  - destruct (Allocation.write_uninit _ _ _) as [[a2 [?|?]]|]; cbn [obind]; [..|done]; intros [= <- <-]; by rewrite lookup_insert_eq.
  - destruct (if _ : bool then _ else _) as [[]|]; cbn [obind]; [intros [= <- <-]; by rewrite lookup_insert_eq| |done].
    destruct (finish_copy _ _ _ _ _ _ _) as [m2|] eqn:Hf; cbn [obind]; [|done]. intros [= <- <-]. revert Hf. unfold finish_copy.
    destruct (copy_bytes _ _ _ _ _) as [m3|]; cbn [obind]; [|done]. destruct (m3 !! dest.1) as [a3|]; cbn [unwrap obind]; [|done].
    destruct (Allocation.init_mask_apply_copy _ _ _ _) as [a4|]; cbn [obind]; [|done].
    destruct (Allocation.provenance_apply_copy _ _) as [a5|]; cbn [obind]; [|done]. intros [= <-]. by rewrite lookup_insert_eq.
Qed.

(** The error of the core as an error of the interpreter *)
Definition copy_error (r : result unit InterpError) : result unit MemError :=
  match r with
  | Ok _ => Ok tt
  | Err (FromAlloc e id) => Err (AllocErrorAt e id)
  | Err (DanglingId id) => Err (PointerUseAfterFree id MemoryAccessTest)
  | Err CopyNonoverlappingOverlapping => Err CopyOverlapping
  end.

Lemma copy_to_ret ecx (sid did : AllocId) ks kd sa da s d size n no init c m' res da' :
  live ecx sid ks sa → live ecx did kd da → Allocation.mutability da = Mut →
  copy_prepared (snd <$> alloc_map ecx) data_layout (sid, s) (did, d) size n no init c da = Ret (m', res) → m' !! did = Some da' →
  copy_to (sid, s) (did, d) size n no sa init c ecx
    = Ret (copy_error res, with_alloc_map ecx (<[did := (kd, da')]> (alloc_map ecx))).
Proof.
  intros Hs Hd Hm Hcp Hda'. unfold copy_to, get_alloc_raw_mut, update_alloc. istep. cbn [fst]. rewrite Hd, decide_False by (by rewrite Hm).
  cbn [obind]. rewrite (copy_view_local ecx sid ks sa) by done. rewrite Hcp. cbn [obind]. rewrite Hda'. cbn [unwrap obind].
  rewrite (alter_live ecx did kd da) by done. by destruct res as [[]|[| |]].
Qed.

(** What a copy between live allocations does: the core of the copy, and the
    destination's entry in the map *)
Lemma copy_local ecx (sid did : AllocId) ks kd sa da s d size n no :
  live ecx sid ks sa → live ecx did kd da → wf_alloc data_layout sa → wf_alloc data_layout da →
  valid_align (Allocation.align sa) → valid_align (Allocation.align da) → Allocation.mutability da = Mut →
  address s → address d → 0 < size → 0 < n → fits s size (Allocation.size sa) → fits d (size * n) (Allocation.size da) →
  apart sid did s d size n →
  ∃ r ecx', mem_copy_repeatedly (ptr_at sid s) Align.ONE (ptr_at did d) Align.ONE size n no ecx = Ret (r, ecx') ∧
    match r with
    | Ok _ => ∃ da', ecx' = with_alloc_map ecx (<[did := (kd, da')]> (alloc_map ecx)) ∧ copied_to data_layout s d size n sa da da'
    | Err e => splits data_layout sa (alloc_range s size) ∨ splits data_layout da (alloc_range d (size * n)) ∨
        e = CopyOverlapping ∧ no = true ∧ sid = did ∧ s < d + size ∧ d < s + size
    end.
Proof.
  intros Hs Hd Hws Hwd Has Had Hm Hos Hod Hz Hn Hfs Hfd Hap. pose proof (address_u64 ps_ok s Hos). pose proof (address_u64 ps_ok d Hod).
  assert (in_bounds sa (alloc_range s size)) as Hbs.
  { replace s with (s + 0) by lia. apply (fits_bounds sa s size 0 size); [lia..|done]. }
  assert (in_bounds da (alloc_range d (size * n))) as Hbd.
  { replace d with (d + 0) by lia. apply (fits_bounds da d (size * n) 0 (size * n)); [lia..|done]. }
  pose proof (proj1 Hfd). pose proof (proj1 Hfs). pose proof bound_small.
  unfold mem_copy_repeatedly. unfold ibind at 1. rewrite (access_one _ _ ks sa) by (try done; lia). cbn [obind].
  rewrite (proj2 (Z.eqb_neq size 0)) by lia. unfold ibind at 1, ilift at 1. rewrite size_mul_prod by lia. cbn [obind].
  unfold ibind at 1. rewrite (access_one _ _ kd da) by (try done; nia). cbn [obind]. rewrite (proj2 (Z.eqb_neq (size * n) 0)) by nia.
  unfold ibind at 1. rewrite (get_raw _ _ ks sa) by done. cbn [obind]. unfold ibind at 1, ilift at 1.
  rewrite (get_bytes_ret data_layout sa _ Hws Hbs). cbn [obind]. unfold ibind at 1, ilift at 1.
  destruct (prepare_copy_prov data_layout (ps_u64 data_layout (ps_range16 ps_ok)) s size d n ltac:(lia) ltac:(lia) ltac:(lia) ltac:(lia) ltac:(nia) ltac:(nia)
    (Allocation.prov_map sa) (wfa_prov data_layout sa Hws)) as (res & -> & Hres). cbn [obind]. destruct res as [c|e].
  2: { destruct Hres as [Hf (k & -> & Hk)]. eexists _, _. split; [done|]. left. split; [done|by exists k]. }
  destruct (prepare_copy_spec (Allocation.init sa) (alloc_range s size) (wfa_mask data_layout sa Hws)) as (l & Hpc & Hch);
    cbn [range_start range_size alloc_range] in *; [lia..|rewrite (wfa_len data_layout sa Hws); destruct Hbs as (? & ? & ?); cbn in *; lia|].
  unfold ibind at 1, at_alloc at 1, iret at 1. cbn [obind]. unfold ibind at 1, ilift at 1. unfold alloc_range in Hpc |- *. rewrite Hpc. cbn [obind].
  destruct Hres as [Hc _].
  destruct (copy_prepared_spec data_layout (ps_range16 ps_ok) sid did s d size n sa da (snd <$> alloc_map ecx)) with (nonoverlapping := no) (l := l) (c := c)
    as (m' & res & Hcp & Hr); [by apply (lookup_snd _ _ ks)|by apply (lookup_snd _ _ kd)|done..|].
  destruct (copy_prepared_dest _ _ _ _ _ _ _ _ _ _ _ _ Hcp) as [da' Hda']. cbn [fst] in Hda'.
  rewrite (copy_to_ret ecx sid did ks kd sa da s d size n no _ _ m' res da') by done. eexists _, _. split; [done|]. destruct res as [u|e].
  - destruct Hr as (da2 & -> & Hct). rewrite lookup_insert_eq in Hda'. injection Hda' as <-. by exists da2.
  - destruct Hr as [[(k & ->) Hsp]|(-> & Hr)]; [right; by left|right; right; done].
Qed.

(** ** Reallocation *)

(** The allocation that [allocate_ptr] makes *)
Definition uninit_alloc (size : Size) (align : Align) : allocation :=
  {| Allocation.bytes := replicate (Z.to_nat size) 0; Allocation.prov_map := ProvenanceMap.new;
     Allocation.init := InitMask.new size false; Allocation.align := align; Allocation.mutability := Mut; Allocation.extra := tt |}.

Lemma uninit_alen size align : 0 ≤ size → alen (uninit_alloc size align) = size.
Proof. intros Hs. unfold alen. cbn. rewrite length_replicate. lia. Qed.

Lemma uninit_wf size align : 0 ≤ size < 2 ^ 62 → wf_alloc data_layout (uninit_alloc size align).
Proof.
  intros Hs. pose proof (uninit_alen size align ltac:(lia)) as Hl. split; rewrite ?Hl; cbn.
  - split; cbn; try done; [by constructor|intros k p Hk|intros k p k' p' Hk]; by apply not_elem_of_nil in Hk.
  - unfold wf_mask, capacity. cbn. lia.
  - done.
  - unfold capacity. cbn. lia.
  - lia.
  - apply Forall_replicate. done.
Qed.

(** What a new allocation of [size] bytes has of an old one *)
Definition contents_kept (a a' : allocation) (size : Size) : Prop :=
  wf_alloc data_layout a' ∧ alen a' = size ∧
  ∀ x, 0 ≤ x < size →
    (x < alen a → init_at a' x = init_at a x ∧
       (init_at a x = true → Allocation.bytes a' !! Z.to_nat x = Allocation.bytes a !! Z.to_nat x ∧
          ∀ p, prov_of data_layout a' x p ↔ prov_of data_layout a x p)) ∧
    (alen a ≤ x → init_at a' x = false).

(** Nothing is copied, *)
Lemma kept_nothing a size align : 0 ≤ size < 2 ^ 62 → Z.min (alen a) size = 0 → contents_kept a (uninit_alloc size align) size.
Proof.
  intros Hs Hz. split; [by apply uninit_wf|]. split; [apply uninit_alen; lia|]. intros x Hx. split; [lia|done].
Qed.

(** or the smaller one of the sizes. *)
Lemma kept_copied a size align a' : 0 ≤ size < 2 ^ 62 → 0 < Z.min (alen a) size →
  copied_to data_layout 0 0 (Z.min (alen a) size) 1 a (uninit_alloc size align) a' → contents_kept a a' size.
Proof.
  intros Hs Hz [Hwf Hi Hb Hp Hf Hl]. rewrite uninit_alen in Hl by lia. split_and!; [done..|]. intros x Hx. split.
  - intros Ha. assert (from 0 0 (Z.min (alen a) size) x = x) as Hx' by (unfold from; rewrite Z.mod_small; lia).
    assert (inside (alloc_range 0 (Z.min (alen a) size * 1)) x) as Hin by (unfold inside; cbn; lia).
    specialize (Hi x Hin). specialize (Hb x Hin). specialize (Hp x). rewrite Hx' in *. split; [done|]. intros E. split; [by apply Hb|].
    intros p. by apply Hp.
  - intros Ha. destruct (Hf x) as (_ & -> & _); [rewrite uninit_alen; lia|unfold inside; cbn; lia|done].
Qed.

Lemma uninit_no_split size align r : ¬ splits data_layout (uninit_alloc size align) r.
Proof. intros [_ (k & [[[p Hk] _]|[[p Hk] _]])]; by apply not_elem_of_nil in Hk. Qed.

Lemma address_0 : address 0.
Proof. unfold address. destruct (bits_val data_layout (ps_range ps_ok)) as (_ & _ & ? & _). lia. Qed.

Lemma copied_size (a : allocation) size align : 0 ≤ size < bound → Allocation.size a < bound →
  let k := Z.min (Allocation.size a) size in
  0 ≤ k ∧ fits 0 k (Allocation.size a) ∧ fits 0 (k * 1) (Allocation.size (uninit_alloc size align)).
Proof.
  intros Hs Ha k. assert (0 ≤ Allocation.size a) by (unfold Allocation.size, Size.from_bytes; lia).
  unfold fits. replace (Allocation.size (uninit_alloc size align)) with size by (symmetry; apply uninit_alen; lia). lia.
Qed.

(** The copy into the new allocation *)
Lemma move_ret ecx (id nid : AllocId) kind a size align : live ecx id kind a → live ecx nid kind (uninit_alloc size align) → id ≠ nid →
  wf_alloc data_layout a → valid_align (Allocation.align a) → valid_align align → 0 ≤ size < bound → Allocation.size a < bound →
  ∃ r ecx', mem_copy (ptr_at id 0) Align.ONE (ptr_at nid 0) Align.ONE (Z.min (Allocation.size a) size) true ecx = Ret (r, ecx') ∧
    match r with
    | Ok _ => ∃ a', ecx' = with_alloc_map ecx (<[nid := (kind, a')]> (alloc_map ecx)) ∧ contents_kept a a' size
    | Err e => splits data_layout a (alloc_range 0 (Z.min (Allocation.size a) size))
    end.
Proof.
  intros Hl Hn Hne Hwf Ha Hal Hs Hsa. destruct (copied_size a size align Hs Hsa) as (Hk0 & Hf1 & Hf2).
  pose proof bound_small. set (k := Z.min (Allocation.size a) size) in *. unfold mem_copy.
  destruct (decide (k = 0)) as [Hk|Hk].
  - exists (Ok tt), ecx. split.
    + unfold mem_copy_repeatedly. unfold ibind at 1. rewrite (access_one _ _ kind a) by (try done; apply address_0). rewrite Hk.
      rewrite Hk in Hf2. cbn [obind]. unfold ibind at 1, ilift at 1. cbn [Size.mul].
      rewrite size_mul_prod by lia. cbn [obind]. unfold ibind at 1.
      rewrite (access_one _ _ kind (uninit_alloc size align)) by (try done; apply address_0). done.
    + exists (uninit_alloc size align). split; [|apply kept_nothing; [lia|done]]. rewrite insert_id by done. by destruct ecx.
  - destruct (copy_local ecx id nid kind kind a (uninit_alloc size align) 0 0 k 1 true) as (r & ecx' & E & Hr);
      try done; [apply uninit_wf; lia|apply address_0|apply address_0|lia|by left|].
    exists r, ecx'. split; [done|]. destruct r as [u|e].
    + destruct Hr as (a' & -> & Hc). exists a'. split; [done|]. apply (kept_copied a size align); [lia|change (0 < k); lia|done].
    + destruct Hr as [?|[Hsp|(_ & _ & ? & _)]]; [done|by apply uninit_no_split in Hsp|done].
Qed.

(** The parts of a reallocation around the copy *)
Lemma allocate_ret ecx size align kind : next_id ecx + 1 < 2 ^ 64 → zeroed size = Some (replicate (Z.to_nat size) 0) →
  allocate_ptr size align kind ecx = Ret (Ok (mkPointer (next_id ecx) 0),
    with_alloc_map (with_globals ecx (globals ecx) (dedup ecx) (next_id ecx + 1))
      (<[next_id ecx := (kind, uninit_alloc size align)]> (alloc_map ecx))).
Proof.
  intros Hn Hz. unfold allocate_ptr, Allocation.uninit_inner. rewrite Hz. unfold allocate_raw_ptr, reserve, checked_add. istep.
  by rewrite (proj2 (Z.ltb_lt _ _)) by lia.
Qed.

Lemma old_size_ret ecx (id : AllocId) kind a old : live ecx id kind a → old = None ∨ old = Some (Allocation.size a, Allocation.align a) →
  (match old with
   | Some (size, _) => iret size
   | None => let? alloc := get_alloc_raw id in iret (Allocation.size alloc)
   end) ecx = Ret (Ok (Allocation.size a), ecx).
Proof. intros Hl [-> | ->]; [|done]. unfold ibind. by rewrite (get_raw ecx id kind a). Qed.

Lemma deallocate_ret ecx (id : AllocId) kind a old : live ecx id kind a → dead_alloc_map ecx !! id = None → Allocation.mutability a = Mut →
  old = None ∨ old = Some (Allocation.size a, Allocation.align a) →
  deallocate_ptr (ptr_at id 0) old kind ecx = Ret (Ok tt, with_dead (with_alloc_map ecx (delete id (alloc_map ecx)))
    (<[id := (Allocation.size a, Allocation.align a)]> (dead_alloc_map ecx))).
Proof.
  intros Hl Hd Hm Hold. unfold deallocate_ptr, ptr_get_alloc_id, ptr_try_get_alloc_id, into_pointer_or_addr. cbn [provenance offset]. istep.
  change (negb (Size.bytes 0 =? 0)) with false. cbv beta iota. rewrite Hl, decide_False, decide_False by (rewrite ?Hm; naive_solver).
  assert (match old with
          | Some (size, align) => negb ((size =? Allocation.size a) && (align =? Allocation.align a))
          | None => false end = false) as -> by (destruct Hold as [-> | ->]; [done|]; by rewrite !Z.eqb_refl).
  cbn [with_alloc_map dead_alloc_map]. by rewrite Hd.
Qed.

Lemma not_dead ecx (id : AllocId) kind a : ids_ok ecx → live ecx id kind a → dead_alloc_map ecx !! id = None.
Proof.
  intros Hi Hl. apply eq_None_not_Some. intros Hd. destruct (ids_dead ecx Hi id Hd) as [E _]. unfold AllocId in *. congruence.
Qed.

(** C16. Reallocation moves the contents.  For a live mutable allocation, whose
    layout is given correctly or not at all, and a host with memory, reallocating to
    any size below the target's object size bound returns.  If it succeeds the new pointer has a fresh identifier and
    points to the start of a live allocation of the new size; its bytes have the
    initialization state of the bytes of the old allocation, their values and
    provenance where initialized, and behind them nothing is initialized; the old
    allocation is freed for good; and all others are as they were.  It fails only
    where a pointer would be cut off. *)
Theorem reallocate_keeps_contents ecx (id : AllocId) kind a old new_size new_align :
  ids_ok ecx → next_id ecx + 1 < 2 ^ 64 → zeroed new_size = Some (replicate (Z.to_nat new_size) 0) →
  live ecx id kind a → wf_alloc data_layout a → Allocation.mutability a = Mut →
  valid_align (Allocation.align a) → valid_align new_align → 0 ≤ new_size < bound → Allocation.size a < bound →
  old = None ∨ old = Some (Allocation.size a, Allocation.align a) →
  ∃ r ecx', reallocate_ptr (ptr_at id 0) old new_size new_align kind ecx = Ret (r, ecx') ∧
    match r with
    | Ok p => p = mkPointer (next_id ecx) 0 ∧ (∃ a', live ecx' (next_id ecx) kind a' ∧ contents_kept a a' new_size) ∧
        inaccessible ecx' id ∧
        ∀ id', id' ≠ id → id' ≠ next_id ecx → alloc_map ecx' !! id' = alloc_map ecx !! id'
    | Err e => splits data_layout a (alloc_range 0 (Z.min (Allocation.size a) new_size))
    end.
Proof.
  intros Hi Hnext Hz Hl Hwf Hm Ha Hal Hs Hsa Hold.
  assert (is_Some (alloc_map ecx !! id)) as Hsome by (by eexists).
  assert (id ≠ next_id ecx) as Hne by (pose proof (ids_next ecx Hi id (or_introl Hsome)); unfold AllocId in *; lia).
  set (ecx1 := with_alloc_map (with_globals ecx (globals ecx) (dedup ecx) (next_id ecx + 1))
     (<[next_id ecx := (kind, uninit_alloc new_size new_align)]> (alloc_map ecx))).
  destruct (move_ret ecx1 id (next_id ecx) kind a new_size new_align) as (r & ecx2 & Em & Hr); try done.
  { cbn. by rewrite lookup_insert_ne. }
  { cbn. apply lookup_insert_eq. }
  assert (reallocate_ptr (ptr_at id 0) old new_size new_align kind ecx =
    (let? _ := (λ _, Ret (r, ecx2)) in let? _ := deallocate_ptr (ptr_at id 0) old kind in iret (mkPointer (next_id ecx) 0)) ecx1) as Hre.
  { unfold reallocate_ptr, ptr_get_alloc_id, ptr_try_get_alloc_id, into_pointer_or_addr. cbn [provenance offset]. unfold ibind at 1, iret at 1.
    cbn [obind]. change (negb (Size.bytes 0 =? 0)) with false. unfold ibind at 1. rewrite allocate_ret by done. fold ecx1. cbn [obind]. unfold ibind at 1.
    rewrite (old_size_ret ecx1 id kind a old) by (try done; cbn; by rewrite lookup_insert_ne). cbn [obind]. unfold ibind at 1.
    change (some_pointer _) with (mkPointer (Some (next_id ecx : AllocId)) 0). rewrite Em. done. }
  destruct r as [u|e]; [|eexists _, _; split; [exact Hre|done]].
  destruct Hr as (a' & -> & Hk). set (ecx2 := with_alloc_map ecx1 _) in *.
  assert (live ecx2 id kind a) as Hl2 by (cbn; by rewrite !lookup_insert_ne).
  unfold ibind in Hre. cbn [obind] in Hre. rewrite (deallocate_ret ecx2 id kind a old) in Hre; [|done|by apply (not_dead ecx id kind a)|done|done].
  cbn [obind iret] in Hre. eexists _, _. split; [exact Hre|]. cbn. split_and!; [done| | |].
  - exists a'. split; [|done]. rewrite lookup_delete_ne by done. apply lookup_insert_eq.
  - apply dead_inaccessible; [|cbn; by rewrite lookup_insert_eq]. by apply (keeps_reallocate _ _ _ _ _ _ _ _ Hre Hi).
  - intros id' H1 H2. by rewrite lookup_delete_ne, !lookup_insert_ne.
Qed.
End copy.

(** ** A sample *)

Lemma sample_memory_ids : ids_ok InterpMemoryProps.sample_memory.
Proof.
  split; cbn; [|by intros id ?%lookup_empty_is_Some|done|done].
  intros id [[x Hx]|[?%lookup_empty_is_Some|?%lookup_empty_is_Some]]; [|done..]. apply lookup_singleton_Some in Hx as [<- _]. lia.
Qed.

(** An allocation of 128 bytes becomes one of 64. *)
Lemma reallocate_keeps_contents_witness : let T := sample_tcx in let ecx := InterpMemoryProps.sample_memory in
  ∃ r ecx', reallocate_ptr (ptr_at 4 0) None 64 3 Stack ecx = Ret (r, ecx') ∧
    match r with
    | Ok p => p = mkPointer 5 0 ∧ (∃ a', live ecx' 5 Stack a' ∧ contents_kept sample_alloc a' 64) ∧ inaccessible ecx' 4 ∧
        ∀ id', id' ≠ 4 → id' ≠ 5 → alloc_map ecx' !! id' = alloc_map ecx !! id'
    | Err e => splits data_layout sample_alloc (alloc_range 0 64)
    end.
Proof.
  intros T ecx. apply (reallocate_keeps_contents ltac:(right; right; reflexivity) ecx 4 Stack sample_alloc None 64 3);
    [apply sample_memory_ids|done|done|done|apply sample_wf|done|by split|by split|by split|done|by left].
Defined.
